(* ===== verification/_CoqProject ===== *)
-Q . S2P
Prelude.v
RustStr.v
Digits.v
ProxyText.v
Time.v
Secrets.v
SecretGrammar.v
Journal.v
Errors.v
Backend.v
Window.v
Ephemeral.v
OperatorAuth.v
Caller.v
Verifier.v
AgentAuth.v
Admit.v
OperatorTokens.v
AuthBudget.v
ProxySpec.v
ProxySpecLaws.v
ProxyLifecycle.v
Convert.v
ProxyWire.v
Domain.v
Codecs.v
ProxyWireLaws.v
Admission.v
Fingerprint.v
Findings.v
FindingsLaws.v
FindingJournal.v
Idempotency.v
IdempotencyLaws.v
DualApproval.v
Inbox.v
Envelope.v
ProxyStore.v
ProxyStoreSpec.v
ProxyStoreWf.v
ProxyStoreOnce.v
ProxyPaging.v
ProxyStoreScope.v
ProxyPublished.v
Outbox.v
OutboxLaws.v
OutboxFile.v
OutboxFileLaws.v
OutboxReplay.v
OutboxRecovery.v
OutboxCrash.v
Replay.v
ProxyEvents.v
ProxyService.v
ProxyServiceLaws.v
Governance.v
ManagedProfile.v
ManagedCall.v
ProxyRuntime.v
Publisher.v
Ingest.v
IngestLaws.v
IngestService.v
IngestServiceLaws.v
FanoutSafety.v
FanoutProgress.v
InboxWf.v
InboxDelivery.v
InboxPaging.v
InboxFile.v
InboxReplay.v
InboxRecovery.v
CommandInbox.v
Reconcile.v
Gateway.v
GatewayLaws.v
GatewayAuthority.v
GatewayApproval.v
GatewayBulk.v
GatewaySubmit.v
