(* ===== verification/Prelude.v ===== *)
(** * Apex agent control plane: a verification development

    Apex lets operators command running agents out of band and takes in the
    events those agents emit; it also manages proxies between agents and the
    tools they call.  Its services are modelled here, with the libraries they are
    built from:

    - the control gateway ([src/apps/control-plane-api]): operators submit
      commands (pause, resume, stop, force_stop, inject, set_budget), one by one
      or in bulk; a command becomes an audit event in the outbox and a delivery
      record in the inbox; agents poll the inbox and acknowledge; a fanout worker
      publishes the outbox; workers retire old commands and repair a command that
      reached only one of its two stores;
    - the ingest service ([src/apps/event-ingest]): agents submit event envelopes;
      an envelope is authenticated, rate limited, validated, reserved in an
      idempotency store, enqueued in an outbox and acknowledged; what looks like
      abuse is recorded as a security finding;
    - proxy management ([src/apps/control-plane-api/src/proxy]): operators create,
      edit, validate and publish specifications of proxies, each change leaving an
      event in the outbox; a reconciler starts and stops their containers;
    - policy ([governance.rs] and [proxy/managed_authority]): a fixed policy decides
      which reads of which portfolios are allowed, for the tool gateway and for
      the workloads of managed proxies, which identify themselves by certificate,
      token and instance proof.

    ** Reading the model

    The embedding is shallow and executable.  Unsigned integers are [N] with
    saturation and wrap-around written out, durations are nanoseconds, strings
    and byte strings are [string].  [Result] is [result]; a method on [&mut self]
    is an [ST S E A], which returns the state on the error branch too.  A
    [Mutex] carries its poison flag.  A clock reading, a fresh identifier, entropy,
    a free permit or the outcome of an I/O call is an argument, or the head of a
    script of outcomes kept in the device, so that a theorem about all of them
    covers every interleaving of failures.  Code that is not in the repository
    (SHA-256, [prost], [serde_json], [serde_jcs], [uuid], HTTP header decoding) is
    a parameter, collected in type classes ([DomainDeps], [EnvelopeDeps],
    [AuthDeps], [LineCodec], [PayloadDigest], [FindingDigest], [JitterDigest],
    [UuidApi]); what is used of it is a class of laws ([EncodedLen],
    [EnvelopeLaws], [JcsLaws], [LineCodecLaws], ...) with a concrete instance
    beside it (Codecs, and the end of each file).

    ** Files

    - Shared: Prelude (results, stateful code, integers, locks, tactics and the
      hint database), RustStr, Digits, ProxyText and Time (strings, digests,
      numbers, host names and addresses, dates: the standard library and
      [envelope/time.rs], [validation/identifiers.rs]), Journal (files of one
      record per line: what [BufRead::lines] reads and what an interrupted append
      leaves), Window (the potential that bounds fixed-window rate limits), Errors
      ([errors.rs], [errors/code.rs]), Backend (the locked handle of a store,
      [outbox.rs], [inbox/backend.rs]).
    - Authentication: OperatorAuth, OperatorTokens and AuthBudget ([auth.rs]);
      Caller ([validation/caller.rs]); Verifier ([apex-auth/verifier.rs]);
      AgentAuth ([agent_auth.rs], [agent_auth/revocation.rs]); Ephemeral
      ([apex-auth/ephemeral]: keys, in-memory store, circuit breaker).
    - Envelopes: Secrets, Convert and Domain ([apex-domain/validation]:
      secret policy, conversion, control schema, canonical hash, the admission
      gate [from_validated_transport]), SecretGrammar (what the secret policy
      refuses, as a grammar), Codecs and Admission (the theorems on the gate),
      Envelope ([envelope.rs]: a command becomes its two records).
    - Control gateway: Admit (the ceilings of [service.rs]), Fingerprint and
      DualApproval ([dual_approval.rs]), Inbox, InboxWf, InboxDelivery and
      InboxPaging ([inbox.rs], [inbox/state.rs]), InboxFile, InboxReplay and
      InboxRecovery ([inbox/file.rs]), CommandInbox (the trait as a class with
      laws), Replay, FanoutSafety and FanoutProgress ([replay.rs]), Reconcile
      ([startup/service/workers.rs]), Gateway (every handler of
      [service/submit.rs], [poll.rs], [query.rs]), and GatewayLaws,
      GatewayAuthority, GatewayApproval, GatewayBulk, GatewaySubmit (theorems).
    - Durable stores ([crates/apex-durability]): Outbox and OutboxLaws (the
      [EventOutbox] contract, the in-memory store), OutboxFile, OutboxFileLaws,
      OutboxReplay, OutboxRecovery and OutboxCrash
      ([outbox/file.rs], [file_ops.rs]), Publisher ([outbox/publisher.rs]),
      Idempotency and IdempotencyLaws ([idempotency]), FindingJournal
      ([persistence/journal.rs]).
    - Ingest service: Findings and FindingsLaws ([crates/apex-security]), Ingest
      and IngestLaws ([gateway/core.rs], [gateway/adapter.rs]), IngestService and
      IngestServiceLaws ([auth/admission.rs], [auth/grpc.rs], [auth/service.rs],
      [auth/admission_readiness.rs]).
    - Proxies: ProxySpec and ProxySpecLaws ([proxy.rs], [proxy/validation.rs]),
      ProxyLifecycle ([proxy/lifecycle.rs]), ProxyWire and ProxyWireLaws
      ([proxy/wire.rs], [wire/proto_wire.rs], [store/canonical.rs]), ProxyStore
      ([store.rs], [store/shared.rs], [store/memory.rs], [memory/lifecycle.rs]) with
      its theorems in ProxyStoreSpec, ProxyStoreWf, ProxyStoreOnce, ProxyStoreScope,
      ProxyPublished and ProxyPaging, ProxyEvents ([proxy/events.rs]), ProxyService
      and ProxyServiceLaws ([proxy/service.rs], [service/operations]), ProxyRuntime
      ([reconciler.rs], [provider.rs]).
    - Policy: Governance ([governance.rs], [crates/apex-policy]), ManagedProfile
      ([managed_authority/profile.rs], [presentation.rs], [state.rs], [refresh.rs])
      and ManagedCall ([call.rs], [service.rs], [service/business.rs], [pool.rs]).

    Components meet at type classes: [EventOutbox] with [OutboxLaws], [CommandInbox]
    with its laws, [IdempotencyStore] with [IdempotencyLaws], [EphemeralStore],
    [EventPublisher], [LineCodec], [RuntimeOperations] with [RuntimeLaws],
    [ManagedStore].  The workers, the gateway, the ingest path and the reconciler
    are proved against the classes, and the in-memory and file stores are
    instances, so each theorem holds for both.

    ** What is proved

    - Authority: no call acts outside the scopes of its caller; where no bulk
      calls are made, a force_stop reaches the inbox only after two operators
      asked for the same command; the agent credential and the admission gate are
      exact; the service acknowledges only what was authenticated, admissible,
      authorized and durable.  No call of
      the proxy service acts outside its scope; a managed call is answered only
      under a document, a credential and a configuration that were in force, and
      the policy decides exactly by its configuration.
    - Refinement: the gateway over either inbox refines one abstract table of
      commands; a restart of the file inbox, the file outbox, the file
      idempotency store and the finding journal rebuilds the state it had; a
      crash in an append leaves a row as it was or as it would have been.  The
      conditions are written out with each theorem: failed appends leave no bytes
      behind, and an outbox compaction, which does not check the size of its
      records, writes none that is too long.
    - Specifications apart from the code: the secret scanner finds exactly the
      texts, keys and values of a grammar, the checks of proxy specifications
      accept exactly a predicate with the private hosts as address blocks and
      names.
    - Exactly once: an event is acknowledged as new at most once over any
      interleaving of submissions, fanout cycles and storage failures; what is
      enqueued is never lost and never settled unpublished; a half-accepted
      command is repaired.  A request changes the proxy store once; an
      acknowledged change has its event, and a publication whose event failed is
      completed by its retry.  A published revision never changes but by a
      request that reuses its identifier.  Where the proxy store is concerned,
      the theorems are about a store no panic has poisoned; [store_usable] says
      which requests cannot, [odd_variant_poisons] which can.
    - Resources: after any calls that were answered, the containers are those of
      the active runtimes and those that were there before.
    - Progress and termination: polls drain a backlog, pages browse every
      command once, the fanout worker's busy loop ends, the life of a finding
      is bounded.
    - Bounds: the admission ceilings, the failure budget, redeliveries.
    - Flaws: theorems that show what the code does where it does less than it
      means to (a lost acknowledged event, a bulk force_stop without approval, a
      stop recovered as a force_stop, a cancelled command that returns, a shared
      ceiling one tenant can exhaust for another, a reservation that a panic
      leaves behind, a container nothing refers to any more, and others);
      each is about the same definitions.

    ** Bounds and fuel

    Loops of the sources are structural recursions, except where a worker goes
    round until it has nothing to do: there the fuel is the number of pending
    rows plus one, and a theorem says that it is enough.  Decimal conversion takes
    the bit length of the number as fuel, and a depth-bounded conversion the depth
    the source allows.

    ** Not modelled

    Postgres and Valkey clients (the behaviour is in a remote server; the managed
    calls take the Postgres store as a parameter, and the proxy service is that of
    a build without it), the tonic transport and the scheduling of blocking tasks,
    TLS and the extraction of peer certificates, process configuration and
    start-up, metrics and logging, memory that runs out; path, symlink and lock
    checks of the file stores are one verdict.  Of the managed authority, the
    registration of a deployment, the network readiness relay and the reading of
    protected files are left out: they drive the database and the operating system.  The browser sessions, the
    agent supervisor, the proxy runtime agent, apex-telemetry, and the TypeScript
    and Python clients are separate programs that are not part of the services
    above. *)
From stdpp Require Export base tactics option gmap sets strings sorting numbers list.
From Stdlib Require Export Lia ZifyN ZifyNat.

(** ** Results

    Rust's [Result<A, E>]; the error type is the first argument so that
    [result E] is a functor and a monad. *)
Inductive result (E A : Type) : Type :=
  | Ok (a : A)
  | Err (e : E).
Arguments Ok {E A} a.
Arguments Err {E A} e.

#[global] Instance result_eq_dec {E A} `{EqDecision E, EqDecision A} :
  EqDecision (result E A).
Proof. solve_decision. Defined.

(** The [?] operator on a pure fallible computation. *)
#[global] Instance result_ret {E} : MRet (result E) := λ A a, Ok a.
#[global] Instance result_bind {E} : MBind (result E) := λ A B f m,
  match m with Ok a => f a | Err e => Err e end.
#[global] Instance result_fmap {E} : FMap (result E) := λ A B f m,
  match m with Ok a => Ok (f a) | Err e => Err e end.

#[global] Instance Ok_inj {E A} : Inj (=) (=) (@Ok E A).
Proof. congruence. Qed.

Definition is_ok {E A} (r : result E A) : bool :=
  match r with Ok _ => true | Err _ => false end.

Definition map_err {E F A} (f : E → F) (r : result E A) : result F A :=
  match r with Ok a => Ok a | Err e => Err (f e) end.

Definition ok_or {E A} (o : option A) (e : E) : result E A :=
  match o with Some a => Ok a | None => Err e end.

(** ** Stateful fallible code

    A method on [&mut self] (or on state behind a mutex) that returns
    [Result]: whatever was already written when the error is raised stays
    written, so the state is returned on both branches. *)
Definition ST (S E A : Type) : Type := S → result E A * S.

#[global] Instance st_ret {S E} : MRet (ST S E) := λ A a s, (Ok a, s).
#[global] Instance st_bind {S E} : MBind (ST S E) := λ A B f m s,
  match m s with
  | (Ok a, s') => f a s'
  | (Err e, s') => (Err e, s')
  end.

Definition st_get {S E} : ST S E S := λ s, (Ok s, s).
Definition st_put {S E} (s' : S) : ST S E unit := λ _, (Ok tt, s').
Definition st_modify {S E} (f : S → S) : ST S E unit := λ s, (Ok tt, f s).
Definition st_throw {S E A} (e : E) : ST S E A := λ s, (Err e, s).
Definition st_lift {S E A} (r : result E A) : ST S E A := λ s, (r, s).

(** A computation that cannot fail, and one whose outcome is looked at. *)
Definition st_state {S E A} (f : S → A * S) : ST S E A := λ s, let '(a, s') := f s in (Ok a, s').
Definition st_try {S E A B} (m : ST S E A) (k : result E A → ST S E B) : ST S E B := λ s,
  let '(r, s') := m s in k r s'.

(** Runs a computation on one field of a larger state, given its getter and
    setter. *)
Definition st_zoom {S T E A} (get : S → T) (set : T → S → S)
    (m : ST T E A) : ST S E A := λ s,
  let '(r, t) := m (get s) in (r, set t s).

Definition st_map_err {S E F A} (f : E → F) (m : ST S E A) : ST S F A := λ s,
  let '(r, s') := m s in (map_err f r, s').

(** ** Fixed-width unsigned integers

    [u32], [u64] and [usize] values are [N]; [N.sub] already is
    [saturating_sub]. *)
Definition u32_max : N := 4294967295.
Definition u64_max : N := 18446744073709551615.
Definition sat_add32 (a b : N) : N := N.min (a + b) u32_max.
Definition sat_add64 (a b : N) : N := N.min (a + b) u64_max.

(** [Vec::len] and [HashMap::len], as a [usize]. *)
Definition len {A} (l : list A) : N := N.of_nat (length l).
Definition map_len {K V} `{Countable K} (m : gmap K V) : N := N.of_nat (size m).

(** ** Durations

    [std::time::Duration] in nanoseconds, and [as_millis() as u64], which
    truncates the [u128] to its low 64 bits. *)
Definition from_secs (n : N) : N := n * 1000000000.
Definition from_millis (n : N) : N := n * 1000000.
Definition as_millis_u64 (d : N) : N := (d / 1000000) mod (u64_max + 1).

(** ** Locks

    A [std::sync::Mutex]: once a holder panics the lock is poisoned and every
    later [lock()] fails. *)
Record Mutex (A : Type) := mkMutex { poisoned : bool; guarded : A }.
Arguments mkMutex {A} _ _.
Arguments poisoned {A} _.
Arguments guarded {A} _.

Definition mutex_new {A} (a : A) : Mutex A := mkMutex false a.

Definition with_mutex {A E B} (on_poison : E) (f : ST A E B) : ST (Mutex A) E B := λ m,
  if poisoned m then (Err on_poison, m)
  else let '(r, a) := f (guarded m) in (r, mkMutex false a).

(** ** Automation *)
Create HintDb apex discriminated.

(** Splits the [if] and [match] scrutinees of the goal, keeping equations. *)
Ltac case_goal :=
  repeat (case_match; simplify_eq/=; try done).

(** Splits the innermost [match] of a hypothesis, keeping equations. *)
Ltac case_in H :=
  repeat (case_match; simplify_eq/=; try done).

(** Turns boolean comparison equations into propositions. *)
Ltac breflect :=
  repeat match goal with
  | H : (_ && _)%bool = true |- _ => apply andb_true_iff in H as [??]
  | H : (_ || _)%bool = false |- _ => apply orb_false_iff in H as [??]
  | H : negb _ = true |- _ => apply negb_true_iff in H
  | H : negb _ = false |- _ => apply negb_false_iff in H
  | H : N.leb _ _ = true |- _ => apply N.leb_le in H
  | H : N.leb _ _ = false |- _ => apply N.leb_gt in H
  | H : N.ltb _ _ = true |- _ => apply N.ltb_lt in H
  | H : N.ltb _ _ = false |- _ => apply N.ltb_ge in H
  | H : N.eqb _ _ = true |- _ => apply N.eqb_eq in H
  | H : N.eqb _ _ = false |- _ => apply N.eqb_neq in H
  | H : bool_decide _ = true |- _ => apply bool_decide_eq_true_1 in H
  | H : bool_decide _ = false |- _ => apply bool_decide_eq_false_1 in H
  | H : String.eqb _ _ = true |- _ => apply String.eqb_eq in H
  | H : String.eqb _ _ = false |- _ => apply String.eqb_neq in H
  end.

(** ** Lists *)

Lemma Forall_sublist {A} (P : A → Prop) l l' :
  l `sublist_of` l' → Forall P l' → Forall P l.
Proof. induction 1; inversion 1; subst; auto. Qed.

Lemma StronglySorted_sublist {A} (R : relation A) l l' :
  l `sublist_of` l' → StronglySorted R l' → StronglySorted R l.
Proof.
  induction 1 as [|x l l' Hs IH|x l l' Hs IH]; inversion 1; subst; [done| |auto].
  constructor; [auto|]. eapply Forall_sublist; eauto.
Qed.

Lemma StronglySorted_snoc {A} (R : relation A) l x :
  StronglySorted R l → Forall (λ y, R y x) l → StronglySorted R (l ++ [x]).
Proof.
  intros Hl HF. apply StronglySorted_app_2; [|done|apply SSorted_cons; constructor].
  intros x1 x2 H1 ->%list_elem_of_singleton. rewrite Forall_forall in HF. by apply HF.
Qed.

Lemma omap_ext_in {A B} (f g : A → option B) (l : list A) :
  (∀ x, x ∈ l → f x = g x) → omap f l = omap g l.
Proof.
  induction l as [|x l IH]; intros H; [done|]. csimpl.
  rewrite (H x) by left. rewrite IH; [done|]. intros y Hy. apply H. by right.
Qed.

Lemma filter_all {A} (P : A → Prop) `{!∀ x, Decision (P x)} (l : list A) :
  (∀ x, x ∈ l → P x) → filter P l = l.
Proof.
  induction l as [|x l IH]; intros HP; [done|]. rewrite filter_cons, decide_True by (apply HP; left).
  f_equal. apply IH. intros y Hy. apply HP. by right.
Qed.

Lemma filter_none {A} (P : A → Prop) `{!∀ x, Decision (P x)} (l : list A) :
  (∀ x, x ∈ l → ¬ P x) → filter P l = [].
Proof.
  induction l as [|x l IH]; intros HP; [done|].
  rewrite filter_cons, decide_False by (apply HP; left).
  apply IH. intros y Hy. apply HP. by right.
Qed.

(** What remains of a duplicate-free list without its first [n] elements. *)
Lemma filter_not_take {A} `{EqDecision A} (n : nat) (l : list A) :
  NoDup l → filter (λ x, x ∉ take n l) l = drop n l.
Proof.
  intros Hnd. rewrite <- (take_drop n l) in Hnd. apply NoDup_app in Hnd as (_ & Hdis & _).
  transitivity (filter (λ x, x ∉ take n l) (take n l ++ drop n l)); [by rewrite take_drop|].
  rewrite filter_app, filter_none, filter_all; [done| |].
  - intros x Hx Hx'. by apply (Hdis x).
  - intros x Hx Hn. done.
Qed.

(** The two halves of an equation of non-empty lists, without reducing the
    elements. *)
Lemma cons_eq {A} (x y : A) l l' : x :: l = y :: l' → x = y ∧ l = l'.
Proof. by intros [=]. Qed.

(** ** Finite sets *)
Section gset_filter.
Context {K : Type} `{Countable K} (P : K → Prop) `{!∀ k, Decision (P k)}.
Implicit Types (X Y : gset K) (k : K).

Lemma gset_filter_union X Y : filter P (X ∪ Y) = filter P X ∪ filter P Y.
Proof. apply filter_union_L. apply _. Qed.

Lemma gset_filter_singleton_True k : P k → filter P ({[k]} : gset K) = {[k]}.
Proof. apply filter_singleton_True_L. apply _. Qed.

Lemma gset_filter_singleton_False k : ¬ P k → filter P ({[k]} : gset K) = ∅.
Proof. apply filter_singleton_False_L. apply _. Qed.
End gset_filter.

(** Counting the members of a set that satisfy a predicate, along any
    duplicate-free enumeration. *)
Lemma gset_filter_size {K} `{Countable K} (P : K → Prop) `{!∀ k, Decision (P k)}
    (X : gset K) (l : list K) :
  NoDup l → (∀ k, k ∈ X ↔ k ∈ l) → size (filter P X) = length (filter P l).
Proof.
  intros Hl HX. replace (filter P X) with (list_to_set (filter P l) : gset K).
  - apply size_list_to_set. by apply NoDup_filter.
  - apply set_eq. intros k.
    rewrite elem_of_list_to_set, elem_of_filter, list_elem_of_filter, HX. done.
Qed.

(** A duplicate-free list of members is no longer than the set. *)
Lemma NoDup_length_size {K} `{Countable K} (l : list K) (X : gset K) :
  NoDup l → (∀ k, k ∈ l → k ∈ X) → (length l ≤ size X)%nat.
Proof.
  intros Hl HX. rewrite <- (size_list_to_set (C := gset K) l) by done.
  apply subseteq_size. intros k. rewrite elem_of_list_to_set. apply HX.
Qed.

Lemma NoDup_length_dom {K V} `{Countable K} (l : list K) (m : gmap K V) :
  NoDup l → (∀ k, is_Some (m !! k) ↔ k ∈ l) → size m = length l.
Proof.
  intros Hl Hm. rewrite <- (size_dom (D := gset K)).
  rewrite <- (size_list_to_set (C := gset K) l) by done. f_equal.
  apply set_eq. intros k. by rewrite elem_of_dom, elem_of_list_to_set.
Qed.

(** ** Results and stateful computations *)

Lemma result_seq_ok {E A} (m : result E unit) (k : result E A) (a : A) :
  (m ;; k) = Ok a ↔ m = Ok tt ∧ k = Ok a.
Proof. unfold mbind, result_bind. destruct m as [[]|e]; split; naive_solver. Qed.

Lemma result_bind_ok {E A B} (m : result E A) (k : A → result E B) (b : B) :
  m ≫= k = Ok b ↔ ∃ a, m = Ok a ∧ k a = Ok b.
Proof. unfold mbind, result_bind. destruct m as [a|e]; split; naive_solver. Qed.

Lemma if_err_ok {E} (b : bool) (e : E) :
  (if b then Err e else Ok tt) = Ok tt ↔ b = false.
Proof. by destruct b. Qed.

Lemma if_err_then {E A} (b : bool) (e : E) (k : result E A) (a : A) :
  (if b then Err e else k) = Ok a ↔ b = false ∧ k = Ok a.
Proof. destruct b; split; naive_solver. Qed.

Lemma ok_or_ok {E A} (o : option A) (e : E) (a : A) : ok_or o e = Ok a ↔ o = Some a.
Proof. destruct o; simpl; split; naive_solver. Qed.

Lemma st_bind_ok {S E A B} (m : ST S E A) (k : A → ST S E B) s b s' :
  (m ≫= k) s = (Ok b, s') → ∃ a s1, m s = (Ok a, s1) ∧ k a s1 = (Ok b, s').
Proof.
  unfold mbind, st_bind. destruct (m s) as [[a|e] s1]; [|done]. eauto.
Qed.
Lemma st_lift_ok {S E A} (r : result E A) (s : S) a s' : st_lift r s = (Ok a, s') → r = Ok a ∧ s' = s.
Proof. unfold st_lift. by intros [= -> ->]. Qed.
Lemma st_bind_err {S E A B} (m : ST S E A) (k : A → ST S E B) s e s' :
  (m ≫= k) s = (Err e, s') →
  m s = (Err e, s') ∨ ∃ a s1, m s = (Ok a, s1) ∧ k a s1 = (Err e, s').
Proof. unfold mbind, st_bind. destruct (m s) as [[a|e1] s1]; [|intros [= -> ->]; by left]. eauto. Qed.
