(* ===== verification/RustStr.v ===== *)
(** * Rust strings

    A Rust [&str] is a byte sequence, a Coq [string]; [str::len] counts bytes.
    This file holds the string operations of the standard library the source
    uses, the identifier grammar every component shares, and their lemmas. *)
From Stdlib Require Import Ascii.
From S2P Require Import Prelude.

Open Scope N_scope.

(** [str::len]. *)
Definition str_len (s : string) : N := N.of_nat (String.length s).

Definition str_is_empty (s : string) : bool :=
  match s with EmptyString => true | String _ _ => false end.

(** [str::bytes().all(p)]. *)
Fixpoint str_all (p : ascii → bool) (s : string) : bool :=
  match s with
  | EmptyString => true
  | String c s' => p c && str_all p s'
  end.

(** [str::chars().any(p)] on an ASCII string. *)
Fixpoint str_any (p : ascii → bool) (s : string) : bool :=
  match s with
  | EmptyString => false
  | String c s' => p c || str_any p s'
  end.

(** [str::contains(&str)]: some suffix of [s] starts with [pat]. *)
Fixpoint str_contains (pat s : string) : bool :=
  String.prefix pat s ||
  match s with
  | EmptyString => false
  | String _ s' => str_contains pat s'
  end.

(** [str::strip_prefix]. *)
Fixpoint strip_prefix (pat s : string) : option string :=
  match pat, s with
  | EmptyString, _ => Some s
  | String p pat', String c s' => if ascii_dec p c then strip_prefix pat' s' else None
  | String _ _, EmptyString => None
  end.

(** [u8::is_ascii_digit], [u8::is_ascii_alphanumeric] and the like. *)
Definition in_range (lo hi : ascii) (c : ascii) : bool :=
  (N_of_ascii lo <=? N_of_ascii c) && (N_of_ascii c <=? N_of_ascii hi).
Definition is_ascii_digit (c : ascii) : bool := in_range "0" "9" c.
Definition is_ascii_alphanumeric (c : ascii) : bool :=
  is_ascii_digit c || in_range "A" "Z" c || in_range "a" "z" c.
Definition is_ascii_hexdigit (c : ascii) : bool :=
  is_ascii_digit c || in_range "A" "F" c || in_range "a" "f" c.
Definition is_ascii_graphic (c : ascii) : bool := in_range "!" "~" c.
Definition is_ascii (c : ascii) : bool := N_of_ascii c <? 128.
(** [char::is_control] on an ASCII character. *)
Definition is_control (c : ascii) : bool := (N_of_ascii c <? 32) || (N_of_ascii c =? 127).

Definition ascii_eqb (a b : ascii) : bool := bool_decide (a = b).

(** The bytes an identifier is made of. *)
Definition is_identifier_byte (c : ascii) : bool :=
  is_ascii_alphanumeric c || ascii_eqb c "." || ascii_eqb c "_" || ascii_eqb c ":"
  || ascii_eqb c "-".

(** [is_identifier] of [inbox.rs] and of [auth.rs], and [is_scope_identifier]
    of [apex-domain]: the three functions have the same body. *)
Definition is_identifier (value : string) : bool :=
  negb (str_is_empty value) && (str_len value <=? 256) && negb (str_contains ".." value)
  && str_all is_identifier_byte value.

(** [str::split_once(&str)]: around the first occurrence of [pat]. *)
Fixpoint split_once (pat s : string) : option (string * string) :=
  match strip_prefix pat s with
  | Some rest => Some (EmptyString, rest)
  | None =>
      match s with
      | EmptyString => None
      | String c s' => '(a, b) ← split_once pat s'; Some (String c a, b)
      end
  end.

(** [str::rsplit_once(char)]: around the last occurrence. *)
Fixpoint rsplit_once (sep : ascii) (s : string) : option (string * string) :=
  match s with
  | EmptyString => None
  | String c s' =>
      match rsplit_once sep s' with
      | Some (a, b) => Some (String c a, b)
      | None => if ascii_eqb c sep then Some (EmptyString, s') else None
      end
  end.

(** [str::split(char)]: at least one piece, possibly empty. *)
Fixpoint split (sep : ascii) (s : string) : list string :=
  match s with
  | EmptyString => [EmptyString]
  | String c s' =>
      if ascii_eqb c sep then EmptyString :: split sep s'
      else match split sep s' with
           | [] => [String c EmptyString]
           | p :: ps => String c p :: ps
           end
  end.

Fixpoint str_starts_with (pat s : string) : bool :=
  match pat, s with
  | EmptyString, _ => true
  | String p pat', String c s' => ascii_eqb p c && str_starts_with pat' s'
  | String _ _, EmptyString => false
  end.

Definition str_rev (s : string) : string :=
  String.string_of_list_ascii (reverse (String.list_ascii_of_string s)).
Definition str_ends_with (pat s : string) : bool := str_starts_with (str_rev pat) (str_rev s).

(** [to_ascii_lowercase]. *)
Definition ascii_lower (c : ascii) : ascii :=
  if in_range "A" "Z" c then ascii_of_N (N_of_ascii c + 32) else c.
Fixpoint to_ascii_lowercase (s : string) : string :=
  match s with
  | EmptyString => EmptyString
  | String c s => String (ascii_lower c) (to_ascii_lowercase s)
  end.

(** The UTF-8 encodings of the characters [char::is_whitespace] accepts. *)
Definition whitespace_chars : list (list N) :=
  [[9]; [10]; [11]; [12]; [13]; [32]; [194; 133]; [194; 160]; [225; 154; 128];
   [226; 128; 128]; [226; 128; 129]; [226; 128; 130]; [226; 128; 131]; [226; 128; 132];
   [226; 128; 133]; [226; 128; 134]; [226; 128; 135]; [226; 128; 136]; [226; 128; 137];
   [226; 128; 138]; [226; 128; 168]; [226; 128; 169]; [226; 128; 175]; [226; 129; 159];
   [227; 128; 128]].

Fixpoint strip_bytes (pat : list N) (s : list ascii) : option (list ascii) :=
  match pat, s with
  | [], _ => Some s
  | p :: pat, c :: s => if N_of_ascii c =? p then strip_bytes pat s else None
  | _ :: _, [] => None
  end.

(** Removes whitespace characters from the front; each takes at least one
    byte, so the length is enough fuel. *)
Fixpoint trim_front (fuel : nat) (pats : list (list N)) (s : list ascii) : list ascii :=
  match fuel with
  | O => s
  | S fuel =>
      match list_find (λ p, is_Some (strip_bytes p s)) pats with
      | Some (_, p) => trim_front fuel pats (default s (strip_bytes p s))
      | None => s
      end
  end.

(** [str::trim]. *)
Definition trim (s : string) : string :=
  let l := String.list_ascii_of_string s in
  let front := trim_front (length l) whitespace_chars l in
  String.string_of_list_ascii
    (reverse (trim_front (length front) (reverse <$> whitespace_chars) (reverse front))).

(** [str::contains(char::is_whitespace)]: UTF-8 is self-synchronising, so a
    whitespace character occurs where its bytes do. *)
Fixpoint bytes_have_whitespace (l : list ascii) : bool :=
  existsb (λ p, bool_decide (is_Some (strip_bytes p l))) whitespace_chars
  || match l with
     | [] => false
     | _ :: l => bytes_have_whitespace l
     end.
Definition str_has_whitespace (s : string) : bool :=
  bytes_have_whitespace (String.list_ascii_of_string s).

(** The UTF-8 encodings [String::from_utf8] accepts, as ranges of their bytes:
    no overlong form, no surrogate, nothing above U+10FFFF. *)
Definition utf8_forms : list (list (N * N)) :=
  [[(0, 127)];
   [(194, 223); (128, 191)];
   [(224, 224); (160, 191); (128, 191)];
   [(225, 236); (128, 191); (128, 191)];
   [(237, 237); (128, 159); (128, 191)];
   [(238, 239); (128, 191); (128, 191)];
   [(240, 240); (144, 191); (128, 191); (128, 191)];
   [(241, 243); (128, 191); (128, 191); (128, 191)];
   [(244, 244); (128, 143); (128, 191); (128, 191)]].

Fixpoint strip_form (form : list (N * N)) (s : list ascii) : option (list ascii) :=
  match form, s with
  | [], _ => Some s
  | (lo, hi) :: form, c :: s =>
      if (lo <=? N_of_ascii c) && (N_of_ascii c <=? hi) then strip_form form s else None
  | _, [] => None
  end.

(** Whether the bytes are UTF-8; each character takes at least one byte, so the
    length is enough fuel. *)
Fixpoint utf8_chars (fuel : nat) (s : list ascii) : bool :=
  match fuel, s with
  | _, [] => true
  | O, _ => false
  | S fuel, _ =>
      match omap (λ form, strip_form form s) utf8_forms with
      | rest :: _ => utf8_chars fuel rest
      | [] => false
      end
  end.
Definition is_utf8 (s : string) : bool :=
  utf8_chars (String.length s) (String.list_ascii_of_string s).

(** ** Lemmas *)

Lemma str_all_forall p s :
  str_all p s = true ↔ ∀ c, c ∈ String.list_ascii_of_string s → p c = true.
Proof.
  induction s as [|a s IH]; simpl.
  - split; [intros _ c Hc; by apply elem_of_nil in Hc | done].
  - rewrite andb_true_iff, IH. split.
    + intros [Ha Hs] c [->|Hc]%elem_of_cons; auto.
    + intros H. split; [apply H; left | intros c Hc; apply H; by right].
Qed.

Lemma str_all_app p s t : str_all p (s +:+ t) = str_all p s && str_all p t.
Proof.
  induction s as [|a s IH]; [done|].
  change (String a s +:+ t) with (String a (s +:+ t)). simpl.
  by rewrite IH, andb_assoc.
Qed.

Lemma str_len_app s t : str_len (s +:+ t) = str_len s + str_len t.
Proof.
  unfold str_len. induction s as [|a s IH]; simpl; [done|].
  change (String a s +:+ t) with (String a (s +:+ t)). simpl. lia.
Qed.

Lemma strip_prefix_app p s : strip_prefix p (p +:+ s) = Some s.
Proof.
  induction p as [|a p IH]; [done|].
  change (String a p +:+ s) with (String a (p +:+ s)). simpl.
  by destruct (ascii_dec a a).
Qed.

Lemma strip_prefix_Some p s r : strip_prefix p s = Some r ↔ s = p +:+ r.
Proof.
  split; [|intros ->; apply strip_prefix_app].
  revert s. induction p as [|a p IH]; intros s H; simpl in H.
  - by simplify_eq.
  - destruct s as [|c s]; [done|]. destruct (ascii_dec a c) as [->|]; [|done].
    by rewrite (IH s H).
Qed.

Lemma is_identifier_bytes s :
  is_identifier s = true → str_all is_identifier_byte s = true.
Proof. unfold is_identifier. by intros [_ ?]%andb_true_iff. Qed.

Lemma is_identifier_len s : is_identifier s = true → 0 < str_len s ≤ 256.
Proof.
  unfold is_identifier. intros H. breflect.
  destruct s; [done|]. unfold str_len in *. simpl in *. lia.
Qed.

Lemma string_app_assoc (a b c : string) : (a +:+ b) +:+ c = a +:+ (b +:+ c).
Proof. induction a as [|x a IH]; [done|]. simpl. unfold "+:+" in *. simpl. by rewrite IH. Qed.

Lemma string_app_nil_r (a : string) : a +:+ EmptyString = a.
Proof. induction a as [|x a IH]; [done|]. unfold "+:+" in *. simpl. by rewrite IH. Qed.

Lemma str_all_impl (p q : ascii → bool) s :
  (∀ c, p c = true → q c = true) → str_all p s = true → str_all q s = true.
Proof.
  intros Hpq. induction s as [|c s IH]; simpl; [done|].
  intros [Hc Hs]%andb_true_iff. by rewrite Hpq, IH.
Qed.

(** The string does not mention the character. *)
Definition no_char (c : ascii) (s : string) : bool := str_all (λ d, negb (ascii_eqb d c)) s.

Lemma split_once_here (p s r : string) :
  strip_prefix p s = Some r → split_once p s = Some (EmptyString, r).
Proof. destruct s; simpl; by intros ->. Qed.

Lemma split_once_first (c : ascii) (pat a b : string) :
  no_char c a = true →
  split_once (String c pat) (a +:+ String c pat +:+ b) = Some (a, b).
Proof.
  intros Ha. induction a as [|d a IH].
  - apply split_once_here, (strip_prefix_app (String c pat)).
  - unfold no_char in Ha. simpl in Ha. apply andb_true_iff in Ha as [Hd Ha].
    unfold ascii_eqb in Hd. apply negb_true_iff, bool_decide_eq_false in Hd.
    change (String d a +:+ ?x) with (String d (a +:+ x)). simpl.
    destruct (ascii_dec c d) as [->|]; [done|]. by rewrite IH.
Qed.

Lemma no_char_contains (c : ascii) (s : string) :
  no_char c s = true → str_contains (String c EmptyString) s = false.
Proof.
  unfold no_char. induction s as [|d s IH]; intros H; [done|]. simpl in H.
  apply andb_true_iff in H as [Hd Hs]. unfold ascii_eqb in Hd.
  apply negb_true_iff, bool_decide_eq_false in Hd. simpl.
  rewrite IH by done. destruct (ascii_dec c d); [congruence|]. done.
Qed.

Lemma no_char_app (c : ascii) (a b : string) :
  no_char c (a +:+ b) = no_char c a && no_char c b.
Proof. unfold no_char. induction a as [|d a IH]; [done|]. simpl. by rewrite IH, andb_assoc. Qed.

Lemma graphic_range (c : ascii) : is_ascii_graphic c = true → 33 ≤ N_of_ascii c ≤ 126.
Proof.
  unfold is_ascii_graphic, in_range. change (N_of_ascii "!") with 33.
  change (N_of_ascii "~") with 126. rewrite andb_true_iff, !N.leb_le. done.
Qed.

(** No whitespace character begins with a visible ASCII byte, and read backwards
    none ends with one. *)
Lemma graphic_not_whitespace (c : ascii) (l : list ascii) (pats : list (list N)) (p : list N) :
  is_ascii_graphic c = true → pats = whitespace_chars ∨ pats = reverse <$> whitespace_chars →
  p ∈ pats → strip_bytes p (c :: l) = None.
Proof.
  intros Hc%graphic_range Hpats Hp.
  assert (Forall (λ p, match p with
                       | b :: _ => bool_decide (33 ≤ b ≤ 126) = false
                       | [] => False
                       end) pats) as Hall.
  { destruct Hpats as [-> | ->]; vm_compute; repeat constructor. }
  rewrite Forall_forall in Hall. specialize (Hall p Hp). destruct p as [|b p]; [done|].
  apply bool_decide_eq_false in Hall. simpl. by destruct (N.eqb_spec (N_of_ascii c) b) as [<-|].
Qed.

Lemma graphic_no_whitespace (s : string) :
  str_all is_ascii_graphic s = true → str_has_whitespace s = false.
Proof.
  unfold str_has_whitespace. induction s as [|c s IH]; intros H; [done|].
  simpl in H. apply andb_true_iff in H as [Hc Hs]. cbn [String.list_ascii_of_string bytes_have_whitespace].
  rewrite (IH Hs), orb_false_r. apply not_true_iff_false. intros (p & Hp & Hm)%existsb_exists.
  apply bool_decide_eq_true in Hm. apply list_elem_of_In in Hp.
  rewrite (graphic_not_whitespace c _ whitespace_chars p) in Hm; [by destruct Hm|done|by left|done].
Qed.

Lemma trim_front_graphic (fuel : nat) (pats : list (list N)) (c : ascii) (l : list ascii) :
  is_ascii_graphic c = true → pats = whitespace_chars ∨ pats = reverse <$> whitespace_chars →
  trim_front fuel pats (c :: l) = c :: l.
Proof.
  intros Hc Hp. destruct fuel; [done|]. cbn [trim_front].
  destruct (list_find _ pats) as [[i p]|] eqn:Hf; [|done].
  apply list_find_Some in Hf as (Hi & [r Hs] & _).
  by rewrite (graphic_not_whitespace c l pats p Hc Hp (list_elem_of_lookup_2 _ _ _ Hi)) in Hs.
Qed.

(** Text that begins and ends with a visible character is not trimmed. *)
Lemma trim_graphic (s : string) (c : ascii) (l : list ascii) (d : ascii) (l' : list ascii) :
  String.list_ascii_of_string s = c :: l → reverse (c :: l) = d :: l' →
  is_ascii_graphic c = true → is_ascii_graphic d = true → trim s = s.
Proof.
  intros Hs Hr Hc Hd. unfold trim. rewrite Hs.
  rewrite (trim_front_graphic _ _ c l Hc) by (by left). rewrite Hr.
  rewrite (trim_front_graphic _ _ d l' Hd) by (by right).
  rewrite <-Hr, reverse_involutive, <-Hs. apply String.string_of_list_ascii_of_string.
Qed.

Lemma trim_all_graphic (s : string) : str_all is_ascii_graphic s = true → trim s = s.
Proof.
  intros Hs. destruct (String.list_ascii_of_string s) as [|c l] eqn:Hl; [by destruct s|].
  assert (∀ d, d ∈ c :: l → is_ascii_graphic d = true) as Hall
    by (rewrite <-Hl; by apply str_all_forall).
  destruct (reverse (c :: l)) as [|d l'] eqn:Hr.
  { apply (f_equal length) in Hr. by rewrite length_reverse in Hr. }
  apply (trim_graphic s c l d l'); try done; apply Hall; [by left|].
  apply elem_of_reverse. rewrite Hr. by left.
Qed.

(** [join(sep)]. *)
Fixpoint str_join (sep : ascii) (l : list string) : string :=
  match l with
  | [] => EmptyString
  | [s] => s
  | s :: l => s +:+ String sep (str_join sep l)
  end.

Lemma split_cons (sep : ascii) (a b : string) :
  no_char sep a = true → split sep (a +:+ String sep b) = a :: split sep b.
Proof.
  unfold no_char. induction a as [|c a IH]; intros Ha; simpl in Ha.
  - change (EmptyString +:+ ?x) with x. simpl. unfold ascii_eqb. by rewrite bool_decide_eq_true_2.
  - apply andb_true_iff in Ha as [Hc Ha]. change (String c a +:+ ?x) with (String c (a +:+ x)).
    simpl. apply negb_true_iff in Hc. by rewrite Hc, (IH Ha).
Qed.

Lemma split_single (sep : ascii) (a : string) : no_char sep a = true → split sep a = [a].
Proof.
  unfold no_char. induction a as [|c a IH]; intros Ha; [done|]. simpl in Ha |- *.
  apply andb_true_iff in Ha as [Hc%negb_true_iff Ha]. by rewrite Hc, (IH Ha).
Qed.

Lemma split_join (sep : ascii) (l : list string) :
  l ≠ [] → Forall (λ s, no_char sep s = true) l → split sep (str_join sep l) = l.
Proof.
  intros Hne HF. induction HF as [|s l Hs HF IH]; [done|]. destruct l as [|s' l].
  - by apply split_single.
  - change (str_join sep (s :: s' :: l)) with (s +:+ String sep (str_join sep (s' :: l))).
    rewrite split_cons by done. by rewrite IH.
Qed.

Lemma rsplit_once_none (sep : ascii) (s : string) :
  no_char sep s = true → rsplit_once sep s = None.
Proof.
  unfold no_char. induction s as [|c s IH]; intros Hs; [done|]. simpl in Hs |- *.
  apply andb_true_iff in Hs as [Hc%negb_true_iff Hs]. by rewrite (IH Hs), Hc.
Qed.

(** Splitting from the right recovers the left side, even when it contains the
    separator. *)
Lemma rsplit_once_last (sep : ascii) (a b : string) :
  no_char sep b = true → rsplit_once sep (a +:+ String sep b) = Some (a, b).
Proof.
  intros Hb. induction a as [|c a IH].
  - change (EmptyString +:+ ?x) with x. simpl. rewrite rsplit_once_none by done.
    unfold ascii_eqb. by rewrite bool_decide_eq_true_2.
  - change (String c a +:+ ?x) with (String c (a +:+ x)). simpl. by rewrite IH.
Qed.

Lemma str_all_join (p : ascii → bool) (sep : ascii) (l : list string) :
  p sep = true → Forall (λ s, str_all p s = true) l → str_all p (str_join sep l) = true.
Proof.
  intros Hp. induction 1 as [|s l Hs HF IH]; [done|]. destruct l as [|s' l]; [done|].
  change (str_join sep (s :: s' :: l)) with (s +:+ String sep (str_join sep (s' :: l))).
  rewrite str_all_app, Hs. cbn [str_all andb]. by rewrite Hp.
Qed.

(** ASCII bytes are UTF-8. *)
Lemma ascii_utf8 (s : string) : str_all is_ascii s = true → is_utf8 s = true.
Proof.
  unfold is_utf8. induction s as [|c s IH]; [done|]. cbn [str_all String.length].
  intros [Hc Hs]%andb_true_iff. cbn [utf8_chars String.list_ascii_of_string].
  unfold is_ascii in Hc. apply N.ltb_lt in Hc.
  unfold utf8_forms. cbn [omap list_omap strip_form].
  rewrite (proj2 (N.leb_le 0 _)), (proj2 (N.leb_le _ 127)) by lia. cbn. by apply IH.
Qed.

(** ** Reversal, prefixes and suffixes *)

Lemma str_rev_involutive (s : string) : str_rev (str_rev s) = s.
Proof.
  unfold str_rev. rewrite String.list_ascii_of_string_of_list_ascii, reverse_involutive.
  apply String.string_of_list_ascii_of_string.
Qed.

Lemma list_ascii_app (a b : string) :
  String.list_ascii_of_string (a +:+ b)
  = String.list_ascii_of_string a ++ String.list_ascii_of_string b.
Proof.
  induction a as [|c a IH]; [done|]. change (String c a +:+ b) with (String c (a +:+ b)).
  cbn [String.list_ascii_of_string app]. by rewrite IH.
Qed.

Lemma string_of_list_ascii_app (l k : list ascii) :
  String.string_of_list_ascii (l ++ k)
  = String.string_of_list_ascii l +:+ String.string_of_list_ascii k.
Proof. induction l as [|c l IH]; [done|]. simpl. unfold "+:+" in *. simpl. by rewrite IH. Qed.

Lemma str_rev_app (a b : string) : str_rev (a +:+ b) = str_rev b +:+ str_rev a.
Proof. unfold str_rev. by rewrite list_ascii_app, reverse_app, string_of_list_ascii_app. Qed.

(** [starts_with] and [ends_with]. *)
Lemma str_starts_with_iff (pat s : string) : str_starts_with pat s = true ↔ ∃ r, s = pat +:+ r.
Proof.
  revert s. induction pat as [|p pat IH]; intros s; simpl; [split; eauto|].
  destruct s as [|c s]; [split; [done|by intros [? ?]]|].
  rewrite andb_true_iff, IH. unfold ascii_eqb. rewrite bool_decide_eq_true. split.
  - intros [-> [r ->]]. by exists r.
  - intros [r [= -> ->]]. eauto.
Qed.
Lemma str_ends_with_iff (pat s : string) : str_ends_with pat s = true ↔ ∃ r, s = r +:+ pat.
Proof.
  unfold str_ends_with. rewrite str_starts_with_iff. split.
  - intros [r Hr]. exists (str_rev r). apply (f_equal str_rev) in Hr.
    by rewrite str_rev_app, !str_rev_involutive in Hr.
  - intros [r ->]. exists (str_rev r). by rewrite str_rev_app.
Qed.

(** ** Occurrences *)

Definition occurs (pat s : string) : Prop := ∃ a b, s = a +:+ pat +:+ b.

(** [s] is [a], the first occurrence of [pat], and [b]. *)
Definition first_at (pat a b s : string) : Prop :=
  s = a +:+ pat +:+ b ∧ ∀ a' b', s = a' +:+ pat +:+ b' → (String.length a ≤ String.length a')%nat.

Lemma str_contains_iff (pat s : string) : str_contains pat s = true ↔ occurs pat s.
Proof.
  assert (∀ s, String.prefix pat s = true ↔ ∃ r, s = pat +:+ r) as Hpre.
  { induction pat as [|p pat IH]; intros t; [split; [eauto|by destruct t]|].
    destruct t as [|c t]; simpl; [split; [done|by intros [? ?]]|].
    destruct (ascii_dec p c) as [->|Hne]; [rewrite IH|].
    - split; [intros [r ->]; by exists r|intros [r [= ->]]; eauto].
    - split; [done|]. by intros [r [= -> _]]. }
  induction s as [|c s IH]; cbn [str_contains]; rewrite orb_true_iff, Hpre.
  - split; [intros [[r Hr]|?]; [by exists EmptyString, r|done]|].
    intros ([|x a] & b & Hs); [left; by exists b|done].
  - rewrite IH. split.
    + intros [[r Hr]|(a & b & ->)]; [by exists EmptyString, r|by exists (String c a), b].
    + intros ([|x a] & b & Hs); [left; by exists b|]. right. injection Hs as -> ->. by exists a, b.
Qed.

Lemma string_app_inj (p a b : string) : p +:+ a = p +:+ b → a = b.
Proof.
  induction p as [|c p IH]; [done|]. change (String c p +:+ ?x) with (String c (p +:+ x)).
  intros [= H]. by apply IH.
Qed.

Lemma first_at_here (pat r a b : string) : first_at pat a b (pat +:+ r) ↔ a = EmptyString ∧ b = r.
Proof.
  split.
  - intros [Hs Hmin]. specialize (Hmin EmptyString r eq_refl). destruct a; [|simpl in Hmin; lia].
    split; [done|]. symmetry. by apply (string_app_inj pat).
  - intros [-> ->]. split; [done|]. intros. simpl. lia.
Qed.

Lemma split_once_iff (pat s a b : string) : split_once pat s = Some (a, b) ↔ first_at pat a b s.
Proof.
  revert a. induction s as [|c s IH]; intros a.
  - destruct (strip_prefix pat EmptyString) as [r|] eqn:Hp.
    { rewrite (split_once_here _ _ _ Hp). apply strip_prefix_Some in Hp.
      pose proof (first_at_here pat r a b) as Hf. rewrite <- Hp in Hf. rewrite Hf.
      split; [by intros [= <- <-]|by intros [-> ->]]. }
    cbn [split_once]. rewrite Hp. split; [done|]. intros [Hs _]. destruct a; [|done].
    change (EmptyString +:+ ?x) with x in Hs. by rewrite Hs, strip_prefix_app in Hp.
  - destruct (strip_prefix pat (String c s)) as [r|] eqn:Hp.
    { rewrite (split_once_here _ _ _ Hp). apply strip_prefix_Some in Hp.
      pose proof (first_at_here pat r a b) as Hf. rewrite <- Hp in Hf. rewrite Hf.
      split; [by intros [= <- <-]|by intros [-> ->]]. }
    assert (∀ a' b', String c s = a' +:+ pat +:+ b' → ∃ a1, a' = String c a1 ∧ s = a1 +:+ pat +:+ b')
      as Hcons.
    { intros [|x a'] b' Hs; [|injection Hs as <- ->; eauto].
      change (EmptyString +:+ ?x) with x in Hs. by rewrite Hs, strip_prefix_app in Hp. }
    cbn [split_once]. rewrite Hp. split.
    + destruct (split_once pat s) as [[a1 b1]|] eqn:Ho; [|done]. intros [= <- <-].
      destruct (proj1 (IH a1) eq_refl) as [-> Hmin]. split; [done|]. intros a' b' (a2 & -> & Hs2)%Hcons.
      simpl. apply le_n_S. by eapply Hmin.
    + intros [(a1 & -> & Hs1)%Hcons Hmin].
      assert (split_once pat s = Some (a1, b)) as ->; [|done].
      apply IH. split; [done|]. intros a' b' ->. specialize (Hmin (String c a') b' eq_refl).
      simpl in Hmin. lia.
Qed.
