(* ===== verification/Digits.v ===== *)
(** * Digits

    Bytes as hexadecimal digits, as [format!("{byte:02x}")] writes them and
    [u8::from_str_radix(.., 16)] reads them, and the 64-digit form of a SHA-256
    digest that the token tables and the journals hold; then decimal numbers, as
    they are printed, padded and parsed. *)
From Stdlib Require Import Ascii.
From S2P Require Import Prelude RustStr.

Open Scope N_scope.

(** A byte as two lower-case digits. *)
Definition hex_digit (n : N) : ascii := ascii_of_N (if n <? 10 then 48 + n else 87 + n).

Fixpoint hex_string (bytes : string) : string :=
  match bytes with
  | EmptyString => EmptyString
  | String c rest =>
      String (hex_digit (N_of_ascii c / 16))
        (String (hex_digit (N_of_ascii c mod 16)) (hex_string rest))
  end.

(** [u8::from_str_radix(.., 16)] of hexadecimal digits. *)
Definition hex_value (c : ascii) : N :=
  let n := N_of_ascii c in
  if is_ascii_digit c then n - 48 else if in_range "a" "f" c then n - 87 else n - 55.

Fixpoint hex_bytes (s : string) : string :=
  match s with
  | String h (String l rest) =>
      String (ascii_of_N (hex_value h * 16 + hex_value l)) (hex_bytes rest)
  | _ => EmptyString
  end.

(** The digest a 64-digit text stands for. *)
Definition parse_digest (value : string) : option string :=
  if negb (str_len value =? 64) || negb (str_all is_ascii_hexdigit value) then None
  else Some (hex_bytes value).

(** ** Lemmas *)

Lemma hex_digit_code (n : N) : n < 16 → N_of_ascii (hex_digit n) = if n <? 10 then 48 + n else 87 + n.
Proof. intros Hn. unfold hex_digit. apply N_ascii_embedding. case_match; lia. Qed.

Lemma hex_digit_inj (m n : N) : m < 16 → n < 16 → hex_digit m = hex_digit n → m = n.
Proof.
  intros Hm Hn H. apply (f_equal N_of_ascii) in H. rewrite !hex_digit_code in H by done.
  destruct (N.ltb_spec m 10), (N.ltb_spec n 10); lia.
Qed.

Lemma hex_string_inj (a b : string) : hex_string a = hex_string b → a = b.
Proof.
  revert b. induction a as [|c a IH]; intros [|d b] H; simpl in H; [done..|].
  injection H as H1 H2 H3. f_equal; [|by apply IH].
  pose proof (N_ascii_bounded c). pose proof (N_ascii_bounded d).
  apply hex_digit_inj in H1; [|lia..]. apply hex_digit_inj in H2; [|lia..].
  rewrite <- (ascii_N_embedding c), <- (ascii_N_embedding d). f_equal. lia.
Qed.

Lemma hex_digit_no_colon (n : N) : n < 16 → hex_digit n ≠ ":"%char.
Proof.
  intros Hn H. apply (f_equal N_of_ascii) in H. rewrite hex_digit_code in H by done.
  change (N_of_ascii ":") with 58 in H. destruct (N.ltb_spec n 10); lia.
Qed.

Lemma hex_string_no_colon (a : string) : no_char ":" (hex_string a) = true.
Proof.
  induction a as [|c a IH]; [done|]. cbn [hex_string]. unfold no_char in *. simpl.
  pose proof (N_ascii_bounded c).
  rewrite IH. unfold ascii_eqb. rewrite !bool_decide_false; [done|..];
    apply hex_digit_no_colon; lia.
Qed.

(** Digits read back as the number they stand for; there are sixteen. *)
Lemma hex_digit_value (n : N) :
  n < 16 → is_ascii_hexdigit (hex_digit n) = true ∧ hex_value (hex_digit n) = n.
Proof.
  intros Hn. assert (n ∈ N.of_nat <$> seq 0 16) as Hin.
  { apply list_elem_of_fmap. exists (N.to_nat n). split; [lia|]. apply elem_of_seq. lia. }
  clear Hn. revert n Hin. apply (proj1 (Forall_forall _ _)). repeat constructor.
Qed.

Lemma hex_bytes_string (s : string) : hex_bytes (hex_string s) = s.
Proof.
  induction s as [|c s IH]; [done|]. cbn [hex_string hex_bytes]. pose proof (N_ascii_bounded c).
  destruct (hex_digit_value (N_of_ascii c / 16)) as [_ ->]; [lia|].
  destruct (hex_digit_value (N_of_ascii c mod 16)) as [_ ->]; [lia|].
  rewrite IH. f_equal. rewrite <- (ascii_N_embedding c) at 3. f_equal. lia.
Qed.

Lemma hex_string_digits (s : string) : str_all is_ascii_hexdigit (hex_string s) = true.
Proof.
  induction s as [|c s IH]; [done|]. cbn [hex_string str_all]. pose proof (N_ascii_bounded c).
  destruct (hex_digit_value (N_of_ascii c / 16)) as [-> _]; [lia|].
  destruct (hex_digit_value (N_of_ascii c mod 16)) as [-> _]; [lia|]. by rewrite IH.
Qed.

Lemma hex_string_ascii (s : string) : str_all is_ascii (hex_string s) = true.
Proof.
  eapply str_all_impl, hex_string_digits. intros c. unfold is_ascii_hexdigit, is_ascii_digit, in_range, is_ascii.
  change (N_of_ascii "0") with 48; change (N_of_ascii "9") with 57; change (N_of_ascii "A") with 65;
    change (N_of_ascii "F") with 70; change (N_of_ascii "a") with 97; change (N_of_ascii "f") with 102.
  rewrite !orb_true_iff, !andb_true_iff, !N.leb_le, N.ltb_lt. lia.
Qed.

Lemma hex_string_len (s : string) : str_len (hex_string s) = 2 * str_len s.
Proof.
  unfold str_len. induction s as [|c s IH]; [done|]. cbn [hex_string String.length]. lia.
Qed.

(** A 32-byte digest reads back from its 64 digits. *)
Lemma parse_digest_hex (s : string) : str_len s = 32 → parse_digest (hex_string s) = Some s.
Proof.
  intros Hs. unfold parse_digest. rewrite hex_string_len, Hs, hex_string_digits, hex_bytes_string.
  done.
Qed.

(** * Decimal numbers

    [u64::to_string], the [{:0w}] formatting of [format!], and
    [str::parse::<u64>], as far as the sources use them. *)

Definition digit (n : N) : ascii := ascii_of_N (48 + n mod 10).
Definition digit_value (c : ascii) : N := N_of_ascii c - 48.

(** The decimal digits of a number, most significant first; a number has no
    more decimal digits than bits, so its bit length plus one is enough
    fuel. *)
Fixpoint dec_digits (fuel : nat) (x : N) : list ascii :=
  match fuel with
  | O => []
  | S fuel =>
      if x <? 10 then [digit x] else dec_digits fuel (x / 10) ++ [digit x]
  end.
Definition decimal_list (x : N) : list ascii := dec_digits (S (N.size_nat x)) x.

(** [to_string] of an unsigned integer. *)
Definition decimal (x : N) : string := String.string_of_list_ascii (decimal_list x).

(** [{:0w}] of an unsigned integer. *)
Definition zero_pad (w : nat) (l : list ascii) : list ascii :=
  replicate (w - length l) "0"%char ++ l.
Definition padded (w : nat) (x : N) : list ascii := zero_pad w (decimal_list x).

(** [str::parse::<u64>]: an optional plus sign, at least one digit, and a value
    that fits. *)
Fixpoint parse_digits (s : string) (acc : N) : option N :=
  match s with
  | EmptyString => Some acc
  | String c s =>
      if is_ascii_digit c then
        let acc' := acc * 10 + digit_value c in
        if u64_max <? acc' then None else parse_digits s acc'
      else None
  end.
Definition parse_u64 (s : string) : option N :=
  match s with
  | EmptyString => None
  | String c rest =>
      if ascii_eqb c "+" then (if str_is_empty rest then None else parse_digits rest 0)
      else parse_digits s 0
  end.

(** The last [w] digits of a number. *)
Fixpoint fixed_digits (w : nat) (x : N) : list ascii :=
  match w with
  | O => []
  | S w => fixed_digits w (x / 10) ++ [digit x]
  end.

(** The value of a list of digits. *)
Definition digits_value (l : list ascii) : N := foldl (λ acc c, acc * 10 + digit_value c) 0 l.

(** ** Lemmas *)

Lemma digit_spec n : ∃ k, k < 10 ∧ n mod 10 = k ∧ digit n = ascii_of_N (48 + k).
Proof. exists (n mod 10). split; [by apply N.mod_lt|done]. Qed.

Lemma digit_value_digit n : digit_value (digit n) = n mod 10.
Proof.
  unfold digit_value, digit. assert (Hm : n mod 10 < 10) by by apply N.mod_lt.
  rewrite N_ascii_embedding by lia. by rewrite N.add_comm, N.add_sub.
Qed.

Lemma digit_is_digit n : is_ascii_digit (digit n) = true.
Proof.
  unfold is_ascii_digit, in_range, digit. assert (Hm : n mod 10 < 10) by by apply N.mod_lt.
  rewrite N_ascii_embedding by lia. change (N_of_ascii "0") with 48.
  change (N_of_ascii "9") with 57. apply andb_true_iff. split; apply N.leb_le; clear - Hm; lia.
Qed.

Lemma fixed_digits_length w x : length (fixed_digits w x) = w.
Proof. revert x. induction w as [|w IH]; intros x; simpl; [done|]. rewrite length_app, IH. simpl. lia. Qed.

Lemma fixed_digits_all w x : Forall (λ c, is_ascii_digit c = true) (fixed_digits w x).
Proof.
  revert x. induction w as [|w IH]; intros x; simpl; [constructor|].
  apply Forall_app. split; [done|]. constructor; [apply digit_is_digit|constructor].
Qed.

Lemma fixed_digits_zero w : fixed_digits w 0 = replicate w "0"%char.
Proof.
  induction w as [|w IH]; [done|]. cbn [fixed_digits]. rewrite N.Div0.div_0_l, IH.
  change [digit 0] with (replicate 1 "0"%char). rewrite <- replicate_add. f_equal. lia.
Qed.

Lemma fixed_digits_value w x : x < 10 ^ N.of_nat w → digits_value (fixed_digits w x) = x.
Proof.
  unfold digits_value. revert x. induction w as [|w IH]; intros x Hx.
  { change (10 ^ N.of_nat 0) with 1 in Hx. simpl. lia. }
  rewrite Nat2N.inj_succ, N.pow_succ_r' in Hx. cbn [fixed_digits].
  rewrite foldl_app, IH by (apply N.Div0.div_lt_upper_bound; lia). simpl.
  rewrite digit_value_digit. pose proof (N.div_mod x 10). lia.
Qed.

Lemma fixed_digits_inj w x y :
  x < 10 ^ N.of_nat w → y < 10 ^ N.of_nat w → fixed_digits w x = fixed_digits w y → x = y.
Proof.
  intros Hx Hy He. rewrite <- (fixed_digits_value w x), <- (fixed_digits_value w y) by done.
  by f_equal.
Qed.

Lemma zero_pad_snoc w l c : zero_pad (S w) (l ++ [c]) = zero_pad w l ++ [c].
Proof.
  unfold zero_pad. rewrite length_app. simpl. rewrite app_assoc.
  do 3 f_equal. lia.
Qed.

Lemma dec_digits_padded f w x :
  (0 < f)%nat → x < 2 ^ N.of_nat f → x < 10 ^ N.of_nat (S w) →
  zero_pad (S w) (dec_digits f x) = fixed_digits (S w) x.
Proof.
  revert w x. induction f as [|f IH]; intros w x Hf Hx Hw; [lia|]. cbn [dec_digits].
  destruct (N.ltb_spec x 10) as [Hlt|Hge].
  - change [digit x] with ([] ++ [digit x]). rewrite zero_pad_snoc. cbn [fixed_digits].
    rewrite N.div_small by done. rewrite fixed_digits_zero. unfold zero_pad. simpl.
    by rewrite Nat.sub_0_r, app_nil_r.
  - rewrite zero_pad_snoc. cbn [fixed_digits].
    rewrite Nat2N.inj_succ, N.pow_succ_r' in Hx, Hw.
    destruct w as [|w]; [change (10 ^ N.of_nat 0) with 1 in Hw; lia|].
    destruct f as [|f]; [change (2 ^ N.of_nat 0) with 1 in Hx; lia|].
    rewrite IH; [done|lia|apply N.Div0.div_lt_upper_bound; lia..].
Qed.

Lemma size_nat_bound x : x < 2 ^ N.of_nat (S (N.size_nat x)).
Proof.
  rewrite Nat2N.inj_succ, N.pow_succ_r'. destruct x as [|p]; [done|]. simpl N.size_nat.
  enough (N.pos p < 2 ^ N.of_nat (Pos.size_nat p)) by lia.
  induction p as [p IH|p IH|]; simpl Pos.size_nat; [| |done];
    rewrite Nat2N.inj_succ, N.pow_succ_r'; lia.
Qed.

(** A number that fits is formatted as exactly its [w] digits. *)
Lemma padded_fixed w x : x < 10 ^ N.of_nat (S w) → padded (S w) x = fixed_digits (S w) x.
Proof. intros Hx. apply dec_digits_padded; [lia|apply size_nat_bound|done]. Qed.

(** ** Round trip *)

Lemma dec_digits_all f x : Forall (λ c, is_ascii_digit c = true) (dec_digits f x).
Proof.
  revert x. induction f as [|f IH]; intros x; simpl; [constructor|].
  case_match; [|apply Forall_app; split; [done|]]; constructor; try apply digit_is_digit; constructor.
Qed.

Lemma dec_digits_value f x :
  (0 < f)%nat → x < 2 ^ N.of_nat f → digits_value (dec_digits f x) = x.
Proof.
  unfold digits_value. revert x. induction f as [|f IH]; intros x Hf Hx; [lia|].
  cbn [dec_digits]. destruct (N.ltb_spec x 10) as [Hlt|Hge].
  - simpl. rewrite digit_value_digit. by apply N.mod_small.
  - rewrite Nat2N.inj_succ, N.pow_succ_r' in Hx.
    destruct f as [|f]; [change (2 ^ N.of_nat 0) with 1 in Hx; lia|].
    rewrite foldl_app, IH by lia. simpl. rewrite digit_value_digit. lia.
Qed.

Lemma digits_value_mono l c acc :
  foldl (λ acc c, acc * 10 + digit_value c) acc l ≤
  foldl (λ acc c, acc * 10 + digit_value c) acc (l ++ [c]).
Proof. rewrite foldl_app. simpl. lia. Qed.

Lemma parse_digits_spec l acc :
  Forall (λ c, is_ascii_digit c = true) l →
  foldl (λ acc c, acc * 10 + digit_value c) acc l ≤ u64_max →
  parse_digits (String.string_of_list_ascii l) acc =
  Some (foldl (λ acc c, acc * 10 + digit_value c) acc l).
Proof.
  intros HF. revert acc. induction HF as [|c l Hc HF IH]; intros acc Hb; [done|]. simpl in *.
  rewrite Hc. assert (Hle : ∀ a, a ≤ foldl (λ acc c, acc * 10 + digit_value c) a l).
  { clear. induction l as [|c l IH]; intros a; simpl; [done|]. etrans; [|apply IH]. lia. }
  specialize (Hle (acc * 10 + digit_value c)).
  destruct (N.ltb_spec u64_max (acc * 10 + digit_value c)); [lia|]. by apply IH.
Qed.

(** Parsing a printed number gives it back. *)
Lemma parse_u64_decimal x : x ≤ u64_max → parse_u64 (decimal x) = Some x.
Proof.
  intros Hx. pose proof (dec_digits_value (S (N.size_nat x)) x) as Hv.
  pose proof (dec_digits_all (S (N.size_nat x)) x) as Ha. unfold digits_value in Hv.
  unfold decimal, decimal_list.
  assert (Hne : dec_digits (S (N.size_nat x)) x ≠ []).
  { cbn [dec_digits]. case_match; [done|]. intros Hn%(f_equal length).
    rewrite length_app in Hn. simpl in Hn. lia. }
  pose proof (parse_digits_spec (dec_digits (S (N.size_nat x)) x) 0 Ha) as Hp.
  rewrite Hv in Hp by (lia || apply size_nat_bound).
  destruct (dec_digits (S (N.size_nat x)) x) as [|c l]; [done|].
  cbn [String.string_of_list_ascii] in *. unfold parse_u64.
  destruct (ascii_eqb c "+") eqn:E; [|by apply Hp].
  unfold ascii_eqb in E. breflect. subst. by apply Forall_cons in Ha as [Ha _].
Qed.
