(* ===== verification/ProxyText.v ===== *)
(** * Network addresses in text

    [str::parse::<std::net::IpAddr>] of the Rust standard library, which the
    proxy configuration uses to recognise literal hosts, and the address
    classes it asks about.  The reader methods work on the bytes left and
    return what they did not consume; a method that fails consumes nothing. *)
From Stdlib Require Import Ascii.
From S2P Require Import Prelude RustStr Digits.

Open Scope N_scope.

(** Four octets, and eight groups of sixteen bits. *)
Inductive IpAddr :=
  | IpV4 (octets : list N)
  | IpV6 (segments : list N).

#[global] Instance IpAddr_eq_dec : EqDecision IpAddr.
Proof. solve_decision. Defined.

(** ** The reader *)

Abbreviation Reader A := (list ascii → option (A * list ascii)).

(** [char::to_digit(radix)], for the radixes ten and sixteen. *)
Definition to_digit (radix : N) (c : ascii) : option N :=
  let n := N_of_ascii c in
  let value :=
    if in_range "0" "9" c then Some (n - 48)
    else if in_range "a" "f" c then Some (n - 87)
    else if in_range "A" "F" c then Some (n - 55)
    else None in
  match value with
  | Some d => if d <? radix then Some d else None
  | None => None
  end.

(** [Parser::read_given_char]. *)
Definition read_given_char (target : ascii) : Reader unit := λ s,
  match s with
  | c :: s => if ascii_eqb c target then Some (tt, s) else None
  | [] => None
  end.

(** The digit loop of [Parser::read_number]: at most [room] more digits, and
    failure on one more; the value and the number of digits read. *)
Fixpoint read_digits (radix : N) (room : nat) (acc count : N) (s : list ascii)
    : option ((N * N) * list ascii) :=
  match s with
  | [] => Some ((acc, count), [])
  | c :: rest =>
      match to_digit radix c with
      | None => Some ((acc, count), s)
      | Some d =>
          match room with
          | O => None
          | S room => read_digits radix room (acc * radix + d) (count + 1) rest
          end
      end
  end.

(** [Parser::read_number], with the largest value of the target type. *)
Definition read_number (radix max_value : N) (max_digits : nat) (allow_zero_prefix : bool)
    : Reader N := λ s,
  let has_leading_zero := match s with c :: _ => ascii_eqb c "0" | [] => false end in
  '((value, count), rest) ← read_digits radix max_digits 0 0 s;
  if count =? 0 then None
  else if negb allow_zero_prefix && has_leading_zero && (1 <? count) then None
  else if max_value <? value then None
  else Some (value, rest).

(** [Parser::read_separator]: the separator comes before all but the first. *)
Definition read_separator {A} (sep : ascii) (index : nat) (inner : Reader A) : Reader A := λ s,
  match index with
  | O => inner s
  | S _ => '(_, s) ← read_given_char sep s; inner s
  end.

(** The loop of [Parser::read_ipv4_addr], with [todo] octets to go. *)
Fixpoint read_octets (todo index : nat) : Reader (list N) := λ s,
  match todo with
  | O => Some ([], s)
  | S todo =>
      '(o, s) ← read_separator "." index (read_number 10 255 3 false) s;
      '(os, s) ← read_octets todo (S index) s;
      Some (o :: os, s)
  end.
Definition read_ipv4_addr : Reader (list N) := read_octets 4 0.

(** [u16::from_be_bytes] on the halves of an embedded address. *)
Definition ipv4_groups (octets : list N) : list N :=
  match octets with
  | [one; two; three; four] => [one * 256 + two; three * 256 + four]
  | _ => []
  end.

(** [read_groups] with [todo] of its slots unfilled, from slot [index]: the
    groups read, whether they end with an embedded IPv4 address, and the rest. *)
Fixpoint read_groups (todo index : nat) (s : list ascii) : (list N * bool) * list ascii :=
  match todo with
  | O => (([], false), s)
  | S todo' =>
      match (if (1 <? todo)%nat then read_separator ":" index read_ipv4_addr s else None) with
      | Some (octets, s') => ((ipv4_groups octets, true), s')
      | None =>
          match read_separator ":" index (read_number 16 65535 4 true) s with
          | None => (([], false), s)
          | Some (group, s') =>
              let '((groups, v4), s'') := read_groups todo' (S index) s' in
              ((group :: groups, v4), s'')
          end
      end
  end.

(** [Parser::read_ipv6_addr]. *)
Definition read_ipv6_addr : Reader (list N) := λ s,
  let '((head, head_ipv4), s) := read_groups 8 0 s in
  if (length head =? 8)%nat then Some (head, s)
  else if head_ipv4 then None
  else
    '(_, s) ← read_given_char ":" s;
    '(_, s) ← read_given_char ":" s;
    let limit := (8 - (length head + 1))%nat in
    let '((tail, _), s) := read_groups limit 0 s in
    Some (head ++ replicate (8 - length head - length tail) 0 ++ tail, s).

(** [IpAddr::from_str]: everything is consumed. *)
Definition parse_ip_addr (value : string) : option IpAddr :=
  let s := String.list_ascii_of_string value in
  '(address, rest) ← match read_ipv4_addr s with
                     | Some (octets, rest) => Some (IpV4 octets, rest)
                     | None => '(segments, rest) ← read_ipv6_addr s; Some (IpV6 segments, rest)
                     end;
  match rest with [] => Some address | _ :: _ => None end.

(** ** Address classes *)

Definition octet (octets : list N) (i : nat) : N := default 0 (octets !! i).

Definition v4_is_private (o : list N) : bool :=
  (octet o 0 =? 10)
  || ((octet o 0 =? 172) && (16 <=? octet o 1) && (octet o 1 <=? 31))
  || ((octet o 0 =? 192) && (octet o 1 =? 168)).
Definition v4_is_loopback (o : list N) : bool := octet o 0 =? 127.
Definition v4_is_link_local (o : list N) : bool := (octet o 0 =? 169) && (octet o 1 =? 254).
Definition v4_is_broadcast (o : list N) : bool := bool_decide (o = [255; 255; 255; 255]).
Definition v4_is_documentation (o : list N) : bool :=
  ((octet o 0 =? 192) && (octet o 1 =? 0) && (octet o 2 =? 2))
  || ((octet o 0 =? 198) && (octet o 1 =? 51) && (octet o 2 =? 100))
  || ((octet o 0 =? 203) && (octet o 1 =? 0) && (octet o 2 =? 113)).

Definition v6_is_loopback (s : list N) : bool := bool_decide (s = [0; 0; 0; 0; 0; 0; 0; 1]).
Definition v6_is_unique_local (s : list N) : bool := N.land (octet s 0) 65024 =? 64512.
Definition v6_is_unicast_link_local (s : list N) : bool := N.land (octet s 0) 65472 =? 65152.

(** ** Lemmas *)

(** The dotted text of an address, [Ipv4Addr]'s [Display]. *)
Definition show_ipv4 (a b c d : N) : string :=
  String.string_of_list_ascii
    (decimal_list a ++ "."%char :: decimal_list b ++ "."%char :: decimal_list c
     ++ "."%char :: decimal_list d).

Definition not_digit_first (radix : N) (s : list ascii) : Prop :=
  match s with c :: _ => to_digit radix c = None | [] => True end.

Lemma to_digit_ten (c : ascii) :
  to_digit 10 c = if is_ascii_digit c then Some (digit_value c) else None.
Proof. destruct c as [[] [] [] [] [] [] [] []]; reflexivity. Qed.

Lemma read_digits_text (room : nat) (l s : list ascii) (acc count : N) :
  Forall (λ c, is_ascii_digit c = true) l → (length l ≤ room)%nat → not_digit_first 10 s →
  read_digits 10 room acc count (l ++ s)
  = Some ((foldl (λ acc c, acc * 10 + digit_value c) acc l, count + len l), s).
Proof.
  intros HF. revert room acc count. induction HF as [|c l Hc HF IH]; intros room acc count Hlen Hs.
  - unfold len. simpl. rewrite N.add_0_r. destruct s as [|c s]; [by destruct room|].
    simpl in Hs. destruct room; simpl; by rewrite Hs.
  - destruct room as [|room]; simpl in Hlen; [lia|]. cbn [app read_digits foldl].
    rewrite to_digit_ten, Hc, IH by (done || lia). unfold len. simpl.
    do 3 f_equal. lia.
Qed.

(** The decimal text of an octet: up to three digits, without a leading zero. *)
Definition octet_text_ok (a : N) : bool :=
  (len (decimal_list a) <=? 3) && (0 <? len (decimal_list a))
  && match decimal_list a with
     | c :: _ => negb (ascii_eqb c "0") || (len (decimal_list a) =? 1)
     | [] => false
     end.
Lemma octet_texts (a : N) : a < 256 → octet_text_ok a = true.
Proof.
  intros Ha. assert (forallb octet_text_ok (N.of_nat <$> seq 0 256) = true) as Hall
    by (vm_compute; reflexivity).
  rewrite forallb_forall in Hall. apply Hall, list_elem_of_In, list_elem_of_fmap.
  exists (N.to_nat a). split; [lia|]. apply elem_of_seq. lia.
Qed.

Lemma read_octet_text (a : N) (s : list ascii) :
  a < 256 → not_digit_first 10 s →
  read_number 10 255 3 false (decimal_list a ++ s) = Some (a, s).
Proof.
  intros Ha Hs. pose proof (octet_texts a Ha) as Hok. unfold octet_text_ok in Hok.
  pose proof (dec_digits_value (S (N.size_nat a)) a) as Hv.
  pose proof (dec_digits_all (S (N.size_nat a)) a) as Hall.
  fold (decimal_list a) in Hv, Hall. unfold digits_value in Hv. unfold read_number.
  specialize (Hv ltac:(lia) (size_nat_bound a)). rewrite read_digits_text, Hv; [|done| |done].
  2: { breflect. unfold len in *. lia. }
  apply andb_true_iff in Hok as [Hlen Hlead]. apply andb_true_iff in Hlen as [Hlen Hpos].
  apply N.leb_le in Hlen. apply N.ltb_lt in Hpos.
  destruct (decimal_list a) as [|c l]; [done|]. cbn [mbind option_bind app]. rewrite N.add_0_l.
  destruct (N.eqb_spec (len (c :: l)) 0) as [H0|_]; [by rewrite H0 in Hpos|].
  destruct (N.ltb_spec 255 a); [lia|].
  destruct (ascii_eqb c "0"); [|done]. cbn [negb orb] in Hlead. apply N.eqb_eq in Hlead.
  by rewrite Hlead.
Qed.

(** A dotted quad is read as the address it writes. *)
Lemma read_ipv4_quad (a b c d : N) :
  a < 256 → b < 256 → c < 256 → d < 256 →
  read_ipv4_addr (decimal_list a ++ "."%char :: decimal_list b ++ "."%char :: decimal_list c
                  ++ "."%char :: decimal_list d) = Some ([a; b; c; d], []).
Proof.
  intros Ha Hb Hc Hd. unfold read_ipv4_addr. cbn [read_octets read_separator].
  rewrite (read_octet_text a) by done. cbn [mbind option_bind].
  unfold read_given_char. cbn [mbind option_bind]. change (ascii_eqb "." ".") with true.
  cbn [mbind option_bind]. rewrite (read_octet_text b) by done. cbn [mbind option_bind].
  change (ascii_eqb "." ".") with true. cbn [mbind option_bind].
  rewrite (read_octet_text c) by done. cbn [mbind option_bind].
  change (ascii_eqb "." ".") with true. cbn [mbind option_bind].
  rewrite <-(app_nil_r (decimal_list d)), (read_octet_text d) by done. done.
Qed.

Lemma parse_show_ipv4 (a b c d : N) :
  a < 256 → b < 256 → c < 256 → d < 256 →
  parse_ip_addr (show_ipv4 a b c d) = Some (IpV4 [a; b; c; d]).
Proof.
  intros Ha Hb Hc Hd. unfold parse_ip_addr, show_ipv4.
  rewrite String.list_ascii_of_string_of_list_ascii, read_ipv4_quad by done. done.
Qed.

(** * Text of proxy configuration

    The string operations of the Rust standard library that proxy
    configuration uses beyond those of [RustStr], and the parsers of unsigned
    integers of any width. *)

(** [chars().any(char::is_control)]: below U+0020, U+007F, and U+0080 to
    U+009F, which UTF-8 writes as the byte 194 and one of 128 to 159. *)
Fixpoint str_has_control (s : string) : bool :=
  match s with
  | EmptyString => false
  | String c rest =>
      is_control c
      || ((N_of_ascii c =? 194)
          && match rest with
             | String d _ => (128 <=? N_of_ascii d) && (N_of_ascii d <=? 159)
             | EmptyString => false
             end)
      || str_has_control rest
  end.

(** [trim_matches], for a set of ASCII characters. *)
Fixpoint trim_start_matches (p : ascii → bool) (s : string) : string :=
  match s with
  | EmptyString => EmptyString
  | String c rest => if p c then trim_start_matches p rest else s
  end.
Definition trim_matches (p : ascii → bool) (s : string) : string :=
  str_rev (trim_start_matches p (str_rev (trim_start_matches p s))).

(** [strip_suffix]. *)
Definition strip_suffix (pat s : string) : option string :=
  str_rev <$> strip_prefix (str_rev pat) (str_rev s).

(** [parse] of an unsigned integer type whose largest value is [max]: an
    optional plus sign and at least one digit; overflow is an error. *)
Fixpoint parse_uint_digits (max : N) (s : string) (acc : N) : option N :=
  match s with
  | EmptyString => Some acc
  | String c s =>
      if is_ascii_digit c then
        let acc' := acc * 10 + digit_value c in
        if max <? acc' then None else parse_uint_digits max s acc'
      else None
  end.
Definition parse_uint (max : N) (s : string) : option N :=
  match s with
  | EmptyString => None
  | String c rest =>
      if ascii_eqb c "+" then (if str_is_empty rest then None else parse_uint_digits max rest 0)
      else parse_uint_digits max s 0
  end.
Definition u16_max : N := 65535.
Definition u128_max : N := 340282366920938463463374607431768211455.

(** [for x in &xs { f(x)?; }]. *)
Fixpoint try_each {E A} (f : A → result E unit) (l : list A) : result E unit :=
  match l with
  | [] => Ok tt
  | a :: l => f a ;; try_each f l
  end.

(** ** Lemmas *)

Lemma try_each_ok {E A} (f : A → result E unit) (l : list A) :
  try_each f l = Ok tt ↔ Forall (λ a, f a = Ok tt) l.
Proof.
  induction l as [|a l IH]; cbn [try_each]; [split; [constructor|done]|].
  by rewrite result_seq_ok, IH, Forall_cons.
Qed.

Lemma strip_suffix_app (a pat : string) : strip_suffix pat (a +:+ pat) = Some a.
Proof.
  unfold strip_suffix. rewrite str_rev_app, strip_prefix_app. simpl. by rewrite str_rev_involutive.
Qed.

Lemma strip_suffix_Some (pat s a : string) : strip_suffix pat s = Some a ↔ s = a +:+ pat.
Proof.
  split; [|intros ->; apply strip_suffix_app]. unfold strip_suffix.
  intros (r & Hr & ->)%fmap_Some. apply strip_prefix_Some in Hr.
  by rewrite <-(str_rev_involutive s), Hr, str_rev_app, str_rev_involutive.
Qed.

Lemma parse_uint_digits_spec (max : N) (l : list ascii) (acc : N) :
  Forall (λ c, is_ascii_digit c = true) l →
  foldl (λ acc c, acc * 10 + digit_value c) acc l ≤ max →
  parse_uint_digits max (String.string_of_list_ascii l) acc
  = Some (foldl (λ acc c, acc * 10 + digit_value c) acc l).
Proof.
  intros HF. revert acc. induction HF as [|c l Hc HF IH]; intros acc Hb; [done|]. simpl in *.
  rewrite Hc. assert (Hle : ∀ a, a ≤ foldl (λ acc c, acc * 10 + digit_value c) a l).
  { clear. induction l as [|c l IH]; intros a; simpl; [done|]. etrans; [|apply IH]. lia. }
  specialize (Hle (acc * 10 + digit_value c)).
  destruct (N.ltb_spec max (acc * 10 + digit_value c)); [lia|]. by apply IH.
Qed.

Lemma decimal_list_digits (x : N) : Forall (λ c, is_ascii_digit c = true) (decimal_list x).
Proof. apply dec_digits_all. Qed.

Lemma decimal_list_nonempty (x : N) : ∃ c l, decimal_list x = c :: l.
Proof.
  destruct (decimal_list x) as [|c l] eqn:E; [|eauto]. unfold decimal_list in E.
  cbn [dec_digits] in E. case_match; [done|]. apply (f_equal length) in E.
  rewrite length_app in E. simpl in E. lia.
Qed.

(** Parsing the decimal text of a number that fits gives it back. *)
Lemma parse_uint_decimal (max x : N) : x ≤ max → parse_uint max (decimal x) = Some x.
Proof.
  intros Hx. pose proof (dec_digits_value (S (N.size_nat x)) x ltac:(lia) (size_nat_bound x)) as Hv.
  pose proof (decimal_list_digits x) as Ha. unfold digits_value in Hv.
  fold (decimal_list x) in Hv. unfold decimal.
  pose proof (parse_uint_digits_spec max (decimal_list x) 0 Ha) as Hp. rewrite Hv in Hp.
  destruct (decimal_list_nonempty x) as (c & l & E). rewrite E in *.
  cbn [String.string_of_list_ascii] in *. unfold parse_uint.
  destruct (ascii_eqb c "+") eqn:Ec; [|by apply Hp].
  unfold ascii_eqb in Ec. breflect. subst. by apply Forall_cons in Ha as [Ha _].
Qed.

(** Decimal text has no character that is not a digit. *)
Lemma decimal_no_char (c : ascii) (x : N) : is_ascii_digit c = false → no_char c (decimal x) = true.
Proof.
  intros Hc. unfold no_char. apply str_all_forall. intros d Hd.
  unfold decimal in Hd. rewrite String.list_ascii_of_string_of_list_ascii in Hd.
  pose proof (decimal_list_digits x) as Ha. rewrite Forall_forall in Ha. specialize (Ha d Hd).
  simpl in Ha. apply negb_true_iff. unfold ascii_eqb. apply bool_decide_eq_false. congruence.
Qed.
