(* ===== verification/Time.v ===== *)
(** * Civil dates

    [civil_from_days] of [apps/control-plane-api/src/envelope/time.rs], in [Z]
    with Rust's truncating division where the operand is an [i64], against the
    Gregorian calendar. *)
From Stdlib Require Import ZArith.
From Stdlib Require Import Ascii ZArith.
From S2P Require Import Prelude RustStr Digits.

Open Scope N_scope.

Section civil.
Local Open Scope Z_scope.

(** [civil_from_days]: year, month and day of a day number. *)
Definition civil_from_days (z : Z) : Z * Z * Z :=
  let z := z + 719468 in
  let era := Z.quot (if 0 <=? z then z else z - 146096) 146097 in
  let doe := z - era * 146097 in
  let yoe := (doe - doe / 1460 + doe / 36524 - doe / 146096) / 365 in
  let y := yoe + era * 400 in
  let doy := doe - (365 * yoe + yoe / 4 - yoe / 100) in
  let mp := (5 * doy + 2) / 153 in
  let d := doy - (153 * mp + 2) / 5 + 1 in
  let m := if mp <? 10 then mp + 3 else mp - 9 in
  let y := if m <=? 2 then y + 1 else y in
  (y, m, d).

(** The Gregorian calendar. *)
Definition is_leap (y : Z) : bool :=
  (y mod 4 =? 0) && (negb (y mod 100 =? 0) || (y mod 400 =? 0)).
Definition month_days (y m : Z) : Z :=
  if (m =? 4) || (m =? 6) || (m =? 9) || (m =? 11) then 30
  else if m =? 2 then (if is_leap y then 29 else 28) else 31.
(** Days from the start of the year to the start of the month. *)
Definition days_before_month (y m : Z) : Z :=
  (if m =? 1 then 0 else if m =? 2 then 31 else if m =? 3 then 59 else if m =? 4 then 90
   else if m =? 5 then 120 else if m =? 6 then 151 else if m =? 7 then 181 else if m =? 8 then 212
   else if m =? 9 then 243 else if m =? 10 then 273 else if m =? 11 then 304 else 334)
  + (if (2 <? m) && is_leap y then 1 else 0).
(** The leap days up to the end of a year. *)
Definition leap_days (y : Z) : Z := y / 4 - y / 100 + y / 400.
(** The number of a date, counted from 1970-01-01. *)
Definition day_number (y m d : Z) : Z :=
  365 * (y - 1) + leap_days (y - 1) + days_before_month y m + (d - 1) - 719162.

(** ** The conversion is exact *)

Lemma is_leap_spec y :
  is_leap y = true ↔ (y mod 4 = 0 ∧ (y mod 100 ≠ 0 ∨ y mod 400 = 0)).
Proof.
  unfold is_leap. rewrite andb_true_iff, orb_true_iff, negb_true_iff.
  by rewrite !Z.eqb_eq, Z.eqb_neq.
Qed.

Lemma era_floor z : Z.quot (if 0 <=? z then z else z - 146096) 146097 = z / 146097.
Proof.
  destruct (Z.leb_spec 0 z).
  - apply Z.quot_div_nonneg; lia.
  - rewrite <- (Z.opp_involutive (z - 146096)), Z.quot_opp_l by lia.
    rewrite Z.quot_div_nonneg by lia. lia.
Qed.

(** The year within a 400-year era, and the day within the year that starts on
    the first of March. *)
Lemma year_of_era doe :
  0 ≤ doe < 146097 →
  let yoe := (doe - doe / 1460 + doe / 36524 - doe / 146096) / 365 in
  0 ≤ yoe < 400 ∧ 0 ≤ doe - (365 * yoe + yoe / 4 - yoe / 100) ≤ 365.
Proof. intros Hd yoe. subst yoe. lia. Qed.

Lemma leap_day_of_era doe :
  0 ≤ doe < 146097 →
  let yoe := (doe - doe / 1460 + doe / 36524 - doe / 146096) / 365 in
  doe - (365 * yoe + yoe / 4 - yoe / 100) = 365 →
  (yoe + 1) mod 4 = 0 ∧ ((yoe + 1) mod 100 ≠ 0 ∨ yoe = 399).
Proof. intros Hd yoe. subst yoe. lia. Qed.

(** A leap year has one day more. *)
Lemma leap_step y : leap_days y = leap_days (y - 1) + (if is_leap y then 1 else 0).
Proof.
  unfold leap_days. destruct (is_leap y) eqn:E.
  - apply is_leap_spec in E. lia.
  - assert (Hn : ¬ (y mod 4 = 0 ∧ (y mod 100 ≠ 0 ∨ y mod 400 = 0)))
      by (rewrite <- is_leap_spec; congruence).
    lia.
Qed.

(** An era of 400 years has 97 leap days. *)
Lemma leap_days_era yoe era :
  0 ≤ yoe < 400 → leap_days (yoe + era * 400) = yoe / 4 - yoe / 100 + 97 * era.
Proof.
  intros Hy. unfold leap_days.
  replace (era * 400) with (era * 100 * 4) at 1 by lia. rewrite Z.div_add by lia.
  replace (era * 400) with (era * 4 * 100) at 1 by lia. rewrite Z.div_add by lia.
  rewrite Z.div_add by lia. rewrite (Z.div_small yoe 400) by lia. lia.
Qed.

Lemma is_leap_era yoe era : is_leap (yoe + era * 400) = is_leap yoe.
Proof.
  unfold is_leap. replace (era * 400) with (era * 100 * 4) at 1 by lia. rewrite Z.mod_add by lia.
  replace (era * 400) with (era * 4 * 100) at 1 by lia. rewrite Z.mod_add by lia.
  by rewrite Z.mod_add by lia.
Qed.

(** A valid day lies inside its year. *)
Lemma day_of_year y m d :
  1 ≤ m ≤ 12 → 1 ≤ d ≤ month_days y m →
  0 ≤ days_before_month y m + (d - 1) ≤ 364 + (if is_leap y then 1 else 0).
Proof.
  intros Hm Hd. unfold days_before_month, month_days in *.
  assert (Hc : m = 1 ∨ m = 2 ∨ m = 3 ∨ m = 4 ∨ m = 5 ∨ m = 6 ∨ m = 7 ∨ m = 8 ∨ m = 9 ∨
               m = 10 ∨ m = 11 ∨ m = 12) by lia.
  destruct Hc as [-> | [-> | [-> | [-> | [-> | [-> | [-> | [-> | [-> | [-> | [-> | -> ]]]]]]]]]]];
    simpl in *; destruct (is_leap y); lia.
Qed.

(** The month counted from March, with the day of the month. *)
Lemma month_of_year doy :
  0 ≤ doy ≤ 365 →
  let mp := (5 * doy + 2) / 153 in
  0 ≤ mp ≤ 11 ∧ 1 ≤ doy - (153 * mp + 2) / 5 + 1 ∧
  doy - (153 * mp + 2) / 5 + 1 ≤
    (if (mp =? 1) || (mp =? 3) || (mp =? 6) || (mp =? 8) then 30 else if mp =? 11 then 29 else 31) ∧
  (doy - (153 * mp + 2) / 5 + 1 = 29 → mp = 11 → doy = 365).
Proof.
  intros Hd mp. assert (Hmp : 0 ≤ mp ≤ 11) by (subst mp; lia).
  assert (Hc : mp = 0 ∨ mp = 1 ∨ mp = 2 ∨ mp = 3 ∨ mp = 4 ∨ mp = 5 ∨ mp = 6 ∨ mp = 7 ∨ mp = 8 ∨
               mp = 9 ∨ mp = 10 ∨ mp = 11) by lia.
  subst mp. destruct Hc as [Hc|[Hc|[Hc|[Hc|[Hc|[Hc|[Hc|[Hc|[Hc|[Hc|[Hc|Hc]]]]]]]]]]];
    rewrite Hc; simpl; lia.
Qed.

Lemma civil_from_days_spec (z : Z) :
  let '(y, m, d) := civil_from_days z in
  1 ≤ m ≤ 12 ∧ 1 ≤ d ≤ month_days y m ∧ day_number y m d = z.
Proof.
  unfold civil_from_days. rewrite era_floor.
  set (era := (z + 719468) / 146097). set (doe := z + 719468 - era * 146097).
  assert (Hdoe : 0 ≤ doe < 146097) by (subst doe era; lia).
  destruct (year_of_era doe Hdoe) as [Hyoe Hdoy]. pose proof (leap_day_of_era doe Hdoe) as Hleap.
  set (yoe := (doe - doe / 1460 + doe / 36524 - doe / 146096) / 365) in *. simpl in Hleap.
  set (doy := doe - (365 * yoe + yoe / 4 - yoe / 100)) in *.
  destruct (month_of_year doy Hdoy) as (Hmp & Hd1 & Hd2 & H29).
  set (mp := (5 * doy + 2) / 153) in *.
  assert (Hz : z = era * 146097 + (doy + 365 * yoe + yoe / 4 - yoe / 100) - 719468)
    by (subst doy doe; lia).
  pose proof (leap_days_era yoe era Hyoe) as Hy. pose proof (leap_step (yoe + era * 400)) as Hstep.
  pose proof (is_leap_era (yoe + 1) era) as Hnext.
  replace (yoe + 1 + era * 400) with (yoe + era * 400 + 1) in Hnext by lia.
  unfold day_number, month_days, days_before_month.
  assert (Hc : mp = 0 ∨ mp = 1 ∨ mp = 2 ∨ mp = 3 ∨ mp = 4 ∨ mp = 5 ∨ mp = 6 ∨ mp = 7 ∨ mp = 8 ∨
               mp = 9 ∨ mp = 10 ∨ mp = 11) by (clear - Hmp; lia).
  assert (H365 : doy = 365 → is_leap (yoe + 1) = true).
  { intros H365. apply is_leap_spec. specialize (Hleap H365). clear - Hleap Hyoe. lia. }
  clearbody mp doy yoe era doe. clear Hleap Hdoe. revert Hy Hz. generalize (yoe / 4), (yoe / 100).
  intros q4 q100 Hy Hz.
  assert (Hm1 : yoe + era * 400 + 1 - 1 = yoe + era * 400) by lia.
  destruct Hc as [-> | [-> | [-> | [-> | [-> | [-> | [-> | [-> | [-> | [-> | [-> | -> ]]]]]]]]]]];
    simpl in *; rewrite ?Hm1, ?Hnext;
    repeat match goal with |- context [is_leap ?y] => destruct (is_leap y) end; lia.
Qed.

(** The Gregorian date of every day number, before or after 1970, is a real
    date, and it is the date of that day: [civil_from_days] is the inverse of
    counting days. *)
Theorem civil_from_days_correct (z : Z) :
  let '(y, m, d) := civil_from_days z in
  1 ≤ m ≤ 12 ∧ 1 ≤ d ≤ month_days y m ∧ day_number y m d = z.
Proof. apply civil_from_days_spec. Qed.
End civil.

(** * Command clocks and timestamps

    [apps/control-plane-api/src/envelope/time.rs] and the timestamp and
    identifier grammars of [crates/apex-domain/src/validation/identifiers.rs].
    [i64] arithmetic is on [Z] with Rust's truncating division; the wall
    clock's reading is an argument. *)

(** ** Formatting *)

(** [x as i64] of a non-negative integer. *)
Definition as_i64 (x : N) : Z := ((Z.of_N x + 2 ^ 63) mod 2 ^ 64 - 2 ^ 63)%Z.

(** [{:0w}] of a signed integer: the sign counts towards the width. *)
Definition padded_z (w : nat) (x : Z) : list ascii :=
  if (x <? 0)%Z then "-"%char :: padded (w - 1) (Z.to_N (- x)) else padded w (Z.to_N x).

(** [format_rfc3339_micros]. *)
Definition format_rfc3339_list (total_micros : N) : list ascii :=
  let secs := as_i64 (total_micros / 1000000) in
  let micros := total_micros mod 1000000 in
  let days := (secs / 86400)%Z in
  let secs_of_day := (secs mod 86400)%Z in
  let '(year, month, day) := civil_from_days days in
  let hour := (secs_of_day / 3600)%Z in
  let minute := (secs_of_day mod 3600 / 60)%Z in
  let second := (secs_of_day mod 60)%Z in
  padded_z 4 year ++ ["-"%char] ++ padded_z 2 month ++ ["-"%char] ++ padded_z 2 day
  ++ ["T"%char] ++ padded_z 2 hour ++ [":"%char] ++ padded_z 2 minute ++ [":"%char]
  ++ padded_z 2 second ++ ["."%char] ++ padded 6 micros ++ ["Z"%char].
Definition format_rfc3339_micros (total_micros : N) : string :=
  String.string_of_list_ascii (format_rfc3339_list total_micros).

(** ** Command clocks *)

Definition MAX_COMMAND_ID_FUTURE_SKEW_MS : N := 5 * 60 * 1000.
Definition MAX_COMMAND_ID_AGE_MS : N := 24 * 60 * 60 * 1000.

(** [command_millis_within_acceptance_window]. *)
Definition command_millis_within_acceptance_window (command_millis now_millis : N) : bool :=
  if now_millis <? command_millis
  then command_millis - now_millis <=? MAX_COMMAND_ID_FUTURE_SKEW_MS
  else now_millis - command_millis <=? MAX_COMMAND_ID_AGE_MS.

(** The [uuid] crate: [parse_str], [get_version_num], [hyphenated] and
    [get_timestamp().to_unix()]. *)
Class UuidApi := {
  Uuid : Type;
  uuid_parse_str : string → option Uuid;
  uuid_version_num : Uuid → N;
  uuid_hyphenated : Uuid → string;
  uuid_timestamp : Uuid → option (N * N);
}.

(** [uuidv7_unix_millis]: [try_from] fails beyond 64 bits. *)
Definition uuidv7_unix_millis `{UuidApi} (command_id : string) : option N :=
  uuid ← uuid_parse_str command_id;
  if negb (uuid_version_num uuid =? 7) || negb (String.eqb (uuid_hyphenated uuid) command_id)
  then None
  else
    '(secs, nanos) ← uuid_timestamp uuid;
    let millis := secs * 1000 + nanos / 1000000 in
    if u64_max <? millis then None else Some millis.

(** [rfc3339_from_uuidv7]. *)
Definition rfc3339_from_uuidv7 `{UuidApi} (command_id : string) : option string :=
  (λ millis, format_rfc3339_micros (millis * 1000)) <$> uuidv7_unix_millis command_id.

(** ** The grammars of the ingest boundary *)

Definition byte_at (bytes : list ascii) (i : nat) : ascii := default "000"%char (bytes !! i).
Definition at_is (bytes : list ascii) (i : nat) (c : ascii) : bool := ascii_eqb (byte_at bytes i) c.
Definition slice (bytes : list ascii) (i n : nat) : list ascii := take n (drop i bytes).

(** [two_digits] and [four_digits]. *)
Definition two_digits (bytes : list ascii) : N :=
  digit_value (byte_at bytes 0) * 10 + digit_value (byte_at bytes 1).
Definition four_digits (bytes : list ascii) : N :=
  digit_value (byte_at bytes 0) * 1000 + digit_value (byte_at bytes 1) * 100
  + digit_value (byte_at bytes 2) * 10 + digit_value (byte_at bytes 3).

Definition is_multiple_of (x y : N) : bool := x mod y =? 0.

(** The [days_in_month] match of [is_rfc3339_utc]. *)
Definition days_in_month (year month : N) : N :=
  match month with
  | 1 | 3 | 5 | 7 | 8 | 10 | 12 => 31
  | 4 | 6 | 9 | 11 => 30
  | 2 => if is_multiple_of year 4 && (negb (is_multiple_of year 100) || is_multiple_of year 400)
         then 29 else 28
  | _ => 0
  end.

(** [is_rfc3339_utc]. *)
Definition is_rfc3339_bytes (bytes : list ascii) : bool :=
  if negb (len bytes =? 27) || negb (at_is bytes 4 "-") || negb (at_is bytes 7 "-")
     || negb (at_is bytes 10 "T") || negb (at_is bytes 13 ":") || negb (at_is bytes 16 ":")
     || negb (at_is bytes 19 ".") || negb (at_is bytes 26 "Z")
  then false
  else if negb (forallb is_ascii_digit
            (slice bytes 0 4 ++ slice bytes 5 2 ++ slice bytes 8 2 ++ slice bytes 11 2
             ++ slice bytes 14 2 ++ slice bytes 17 2 ++ slice bytes 20 6))
  then false
  else
    let month := two_digits (slice bytes 5 2) in
    let day := two_digits (slice bytes 8 2) in
    let hour := two_digits (slice bytes 11 2) in
    let minute := two_digits (slice bytes 14 2) in
    let second := two_digits (slice bytes 17 2) in
    let year := four_digits (slice bytes 0 4) in
    if year =? 0 then false
    else (1 <=? day) && (day <=? days_in_month year month)
         && (hour <=? 23) && (minute <=? 59) && (second <=? 59).
Definition is_rfc3339_utc (value : string) : bool :=
  is_rfc3339_bytes (String.list_ascii_of_string value).

Definition is_lower_hex (c : ascii) : bool := is_ascii_digit c || in_range "a" "f" c.

(** [is_lowercase_uuidv7]. *)
Definition is_lowercase_uuidv7 (value : string) : bool :=
  let bytes := String.list_ascii_of_string value in
  (str_len value =? 36) && at_is bytes 8 "-" && at_is bytes 13 "-" && at_is bytes 18 "-"
  && at_is bytes 23 "-" && at_is bytes 14 "7"
  && (at_is bytes 19 "8" || at_is bytes 19 "9" || at_is bytes 19 "a" || at_is bytes 19 "b")
  && forallb (λ p, bool_decide (p.1 ∈ [8; 13; 18; 23]%nat) || is_lower_hex p.2)
       (imap pair bytes).

(** [is_lowercase_sha256]. *)
Definition is_lowercase_sha256 (value : string) : bool :=
  (str_len value =? 64) && str_all is_lower_hex value.

(** The first instant of the year 10000, in microseconds. *)
Definition year_10000 : N := 253402300800 * 1000000.

(** ** Lemmas *)

(** An identifier of either kind is ASCII. *)
Lemma uuid_ascii (s : string) : is_lowercase_uuidv7 s = true → str_all is_ascii s = true.
Proof.
  unfold is_lowercase_uuidv7. intros Hs. apply andb_true_iff in Hs as [Hs Hall].
  repeat (apply andb_true_iff in Hs as [Hs ?]). apply str_all_forall. intros c Hc.
  apply list_elem_of_lookup in Hc as [i Hi].
  rewrite forallb_forall in Hall.
  assert (In (i, c) (imap pair (String.list_ascii_of_string s))) as Hin.
  { apply list_elem_of_In, elem_of_lookup_imap. by exists i, c. }
  specialize (Hall _ Hin). cbn in Hall. apply orb_true_iff in Hall as [Hall|Hall].
  - apply bool_decide_eq_true in Hall.
    assert (c = "-"%char) as ->; [|done].
    assert (byte_at (String.list_ascii_of_string s) i = "-"%char) as Hb.
    { unfold at_is, ascii_eqb in *.
      repeat (apply elem_of_cons in Hall as [->|Hall]; [eapply bool_decide_eq_true_1; eassumption|]).
      by apply elem_of_nil in Hall. }
    rewrite <- Hb. unfold byte_at. by rewrite Hi.
  - destruct c as [[] [] [] [] [] [] [] []]; by vm_compute.
Qed.

Lemma two_digits_fixed x : x < 100 → two_digits (fixed_digits 2 x) = x.
Proof. intros Hx. unfold two_digits. cbn. rewrite !digit_value_digit. lia. Qed.

Lemma four_digits_fixed x : x < 10000 → four_digits (fixed_digits 4 x) = x.
Proof. intros Hx. unfold four_digits. cbn. rewrite !digit_value_digit. lia. Qed.

Lemma padded_z_fixed w (x : Z) :
  (0 ≤ x < 10 ^ Z.of_nat (S w))%Z → padded_z (S w) x = fixed_digits (S w) (Z.to_N x).
Proof.
  intros Hx. unfold padded_z. destruct (Z.ltb_spec x 0); [lia|]. apply padded_fixed.
  apply N2Z.inj_lt. rewrite N2Z.inj_pow, Z2N.id, nat_N_Z by lia. lia.
Qed.

Lemma as_i64_small x : x < 2 ^ 63 → as_i64 x = Z.of_N x.
Proof.
  intros Hx. unfold as_i64. rewrite Z.mod_small; [lia|].
  assert (Z.of_N x < 2 ^ 63)%Z; [|lia]. change (2 ^ 63)%Z with (Z.of_N (2 ^ 63)). lia.
Qed.

(** The fields of an instant before the year 10000. *)
Record instant_fields (total_micros : N) (y mo d h mi sec : Z) : Prop := {
  if_year : (1970 ≤ y ≤ 9999)%Z;
  if_month : (1 ≤ mo ≤ 12)%Z;
  if_day : (1 ≤ d ≤ month_days y mo)%Z;
  if_hour : (0 ≤ h ≤ 23)%Z;
  if_minute : (0 ≤ mi ≤ 59)%Z;
  if_second : (0 ≤ sec ≤ 59)%Z;
  if_value : (Z.of_N (total_micros / 1000000) =
              day_number y mo d * 86400 + h * 3600 + mi * 60 + sec)%Z;
  if_format : format_rfc3339_list total_micros =
    fixed_digits 4 (Z.to_N y) ++ ["-"%char] ++ fixed_digits 2 (Z.to_N mo) ++ ["-"%char]
    ++ fixed_digits 2 (Z.to_N d) ++ ["T"%char] ++ fixed_digits 2 (Z.to_N h) ++ [":"%char]
    ++ fixed_digits 2 (Z.to_N mi) ++ [":"%char] ++ fixed_digits 2 (Z.to_N sec) ++ ["."%char]
    ++ fixed_digits 6 (total_micros mod 1000000) ++ ["Z"%char];
}.

Lemma year_bounds y mo d z :
  (1 ≤ mo ≤ 12)%Z → (1 ≤ d ≤ month_days y mo)%Z → day_number y mo d = z →
  (0 ≤ z < 2932897)%Z → (1970 ≤ y ≤ 9999)%Z.
Proof.
  intros Hmo Hd Hz Hr. unfold day_number in Hz.
  assert (Hdm : (0 ≤ days_before_month y mo + (d - 1) ≤ 364 + (if is_leap y then 1 else 0))%Z).
  { by apply day_of_year. }
  pose proof (leap_step y) as Hstep. clear Hd Hmo. revert Hz Hdm Hstep.
  generalize (days_before_month y mo), (if is_leap y then 1%Z else 0%Z). intros dbm lp Hz Hdm Hstep.
  assert (Hlo : (365 * (y - 1) + leap_days (y - 1) ≤ z + 719162)%Z) by lia.
  assert (Hhi : (z + 719163 ≤ 365 * y + leap_days y)%Z) by lia.
  clear Hz Hdm Hstep. unfold leap_days in *. split; lia.
Qed.

Lemma instant_fields_exist total_micros :
  total_micros < year_10000 → ∃ y mo d h mi sec, instant_fields total_micros y mo d h mi sec.
Proof.
  intros Hm. unfold year_10000 in Hm. set (S := total_micros / 1000000).
  assert (HS : S < 253402300800) by (subst S; lia).
  assert (Hi : as_i64 S = Z.of_N S) by (apply as_i64_small; lia).
  pose proof (civil_from_days_spec (Z.of_N S / 86400)) as Hc.
  destruct (civil_from_days (Z.of_N S / 86400)) as [[y mo] d] eqn:Ec.
  destruct Hc as (Hmo & Hd & Hz).
  assert (Hy : (1970 ≤ y ≤ 9999)%Z) by (eapply year_bounds; [done..|lia]).
  assert (Hd31 : (d ≤ 31)%Z).
  { unfold month_days in Hd. repeat case_match; lia. }
  set (sd := (Z.of_N S mod 86400)%Z).
  exists y, mo, d, (sd / 3600)%Z, (sd mod 3600 / 60)%Z, (sd mod 60)%Z.
  assert (Hsd : (0 ≤ sd < 86400)%Z) by (subst sd; lia).
  split; try done; try lia.
  unfold format_rfc3339_list. fold S. rewrite Hi, Ec. fold sd.
  rewrite !padded_z_fixed by lia. rewrite padded_fixed by lia. done.
Qed.

Lemma days_in_month_spec y m :
  (1970 ≤ y ≤ 9999)%Z → (1 ≤ m ≤ 12)%Z → Z.of_N (days_in_month (Z.to_N y) (Z.to_N m)) = month_days y m.
Proof.
  intros Hy Hm.
  assert (Hl : is_multiple_of (Z.to_N y) 4 && (negb (is_multiple_of (Z.to_N y) 100)
                 || is_multiple_of (Z.to_N y) 400) = is_leap y).
  { assert (Hmod : ∀ n, (0 < n)%N → is_multiple_of (Z.to_N y) n = (y mod Z.of_N n =? 0)%Z).
    { intros n Hn. unfold is_multiple_of.
      assert (He : Z.of_N (Z.to_N y mod n) = (y mod Z.of_N n)%Z) by (rewrite N2Z.inj_mod, Z2N.id; lia).
      rewrite <- He. clear. by destruct (Z.to_N y mod n). }
    unfold is_leap. by rewrite !Hmod by lia. }
  assert (Hc : (m = 1 ∨ m = 2 ∨ m = 3 ∨ m = 4 ∨ m = 5 ∨ m = 6 ∨ m = 7 ∨ m = 8 ∨ m = 9 ∨
               m = 10 ∨ m = 11 ∨ m = 12)%Z) by lia.
  destruct Hc as [-> | [-> | [-> | [-> | [-> | [-> | [-> | [-> | [-> | [-> | [-> | -> ]]]]]]]]]]];
    try done.
  unfold days_in_month, month_days. simpl. rewrite Hl. by destruct (is_leap y).
Qed.

Lemma list_ascii_of_format m :
  String.list_ascii_of_string (format_rfc3339_micros m) = format_rfc3339_list m.
Proof. apply String.list_ascii_of_string_of_list_ascii. Qed.

(** The validator on a string of the right shape. *)
Lemma rfc3339_shape Y Mo D H Mi Sc U :
  length Y = 4%nat → length Mo = 2%nat → length D = 2%nat → length H = 2%nat →
  length Mi = 2%nat → length Sc = 2%nat → length U = 6%nat →
  Forall (λ c, is_ascii_digit c = true) (Y ++ Mo ++ D ++ H ++ Mi ++ Sc ++ U) →
  four_digits Y ≠ 0 → 1 ≤ two_digits D ≤ days_in_month (four_digits Y) (two_digits Mo) →
  two_digits H ≤ 23 → two_digits Mi ≤ 59 → two_digits Sc ≤ 59 →
  is_rfc3339_bytes (Y ++ ["-"%char] ++ Mo ++ ["-"%char] ++ D ++ ["T"%char] ++ H ++ [":"%char]
                    ++ Mi ++ [":"%char] ++ Sc ++ ["."%char] ++ U ++ ["Z"%char]) = true.
Proof.
  intros HY HMo HD HH HMi HSc HU HF Hy Hd Hh Hmi Hsc.
  destruct Y as [|y1 [|y2 [|y3 [|y4 [|]]]]]; try discriminate HY.
  destruct Mo as [|m1 [|m2 [|]]]; try discriminate HMo.
  destruct D as [|d1 [|d2 [|]]]; try discriminate HD.
  destruct H as [|h1 [|h2 [|]]]; try discriminate HH.
  destruct Mi as [|i1 [|i2 [|]]]; try discriminate HMi.
  destruct Sc as [|s1 [|s2 [|]]]; try discriminate HSc.
  destruct U as [|u1 [|u2 [|u3 [|u4 [|u5 [|u6 [|]]]]]]]; try discriminate HU.
  assert (Hall : forallb is_ascii_digit [y1; y2; y3; y4; m1; m2; d1; d2; h1; h2; i1; i2; s1; s2;
                                          u1; u2; u3; u4; u5; u6] = true).
  { apply forallb_forall. intros c Hc. rewrite Forall_forall in HF. apply HF.
    by apply list_elem_of_In. }
  unfold is_rfc3339_bytes. cbn [app len length slice take drop].
  change (slice _ _ _ ++ _) with [y1; y2; y3; y4; m1; m2; d1; d2; h1; h2; i1; i2; s1; s2;
                                  u1; u2; u3; u4; u5; u6].
  rewrite Hall. simpl negb. cbv iota.
  destruct (N.eqb_spec (four_digits [y1; y2; y3; y4]) 0); [done|].
  repeat (apply andb_true_iff; split); apply N.leb_le; lia || tauto.
Qed.

(** C35. Every timestamp the gateway stamps on a command before the year 10000
    satisfies the ingest boundary's timestamp grammar: it has the right
    shape, a real calendar date and a real time of day. *)
Theorem timestamps_accepted (total_micros : N) :
  total_micros < year_10000 → is_rfc3339_utc (format_rfc3339_micros total_micros) = true.
Proof.
  intros Hm. destruct (instant_fields_exist _ Hm) as (y & mo & d & h & mi & sec & Hf).
  destruct Hf as [Hy Hmo Hd Hh Hmi Hsec _ Hfmt].
  unfold is_rfc3339_utc. rewrite list_ascii_of_format, Hfmt.
  pose proof (days_in_month_spec y mo Hy Hmo) as Hdm.
  assert (Hd31 : (d ≤ 31)%Z) by (unfold month_days in Hd; repeat case_match; lia).
  apply rfc3339_shape; rewrite ?fixed_digits_length; try done.
  - rewrite !Forall_app. split_and!; apply fixed_digits_all.
  - rewrite four_digits_fixed by lia. lia.
  - rewrite four_digits_fixed, !two_digits_fixed by lia. lia.
  - rewrite two_digits_fixed by lia. lia.
  - rewrite two_digits_fixed by lia. lia.
  - rewrite two_digits_fixed by lia. lia.
Qed.

Lemma app_fixed_inj w x y r r' :
  x < 10 ^ N.of_nat w → y < 10 ^ N.of_nat w →
  fixed_digits w x ++ r = fixed_digits w y ++ r' → x = y ∧ r = r'.
Proof.
  intros Hx Hy He. apply app_inj_1 in He as [Hd ->]; [|by rewrite !fixed_digits_length].
  split; [|done]. by eapply fixed_digits_inj.
Qed.

(** A timestamp determines the instant: two instants before the year 10000
    that are written the same way are equal, so the audit timestamp of a
    command carries its UUID clock exactly. *)
Theorem timestamps_injective (m m' : N) :
  m < year_10000 → m' < year_10000 →
  format_rfc3339_micros m = format_rfc3339_micros m' → m = m'.
Proof.
  intros Hm Hm' He. apply (f_equal String.list_ascii_of_string) in He.
  rewrite !list_ascii_of_format in He.
  destruct (instant_fields_exist _ Hm) as (y & mo & d & h & mi & sec & [Hy Hmo Hd Hh Hmi Hs Hv Hf]).
  destruct (instant_fields_exist _ Hm')
    as (y' & mo' & d' & h' & mi' & sec' & [Hy' Hmo' Hd' Hh' Hmi' Hs' Hv' Hf']).
  assert (Hd31 : ∀ a b, (month_days a b ≤ 31)%Z) by (intros; unfold month_days; repeat case_match; lia).
  pose proof (Hd31 y mo). pose proof (Hd31 y' mo').
  rewrite Hf, Hf' in He.
  apply app_fixed_inj in He as [Ey [_ He]%cons_eq]; [|simpl; lia..].
  apply app_fixed_inj in He as [Emo [_ He]%cons_eq]; [|simpl; lia..].
  apply app_fixed_inj in He as [Ed [_ He]%cons_eq]; [|simpl; lia..].
  apply app_fixed_inj in He as [Eh [_ He]%cons_eq]; [|simpl; lia..].
  apply app_fixed_inj in He as [Emi [_ He]%cons_eq]; [|simpl; lia..].
  apply app_fixed_inj in He as [Es [_ He]%cons_eq]; [|simpl; lia..].
  apply app_fixed_inj in He as [Eu _]; [|simpl; lia..].
  apply Z2N.inj in Ey, Emo, Ed, Eh, Emi, Es; [|lia..]. subst. lia.
Qed.

(** The acceptance window is what the documentation says: a command clock is
    accepted exactly when it lies at most 24 hours before the gateway's clock
    and at most five minutes after it. *)
Theorem acceptance_window_exact (command_millis now_millis : N) :
  command_millis_within_acceptance_window command_millis now_millis = true ↔
  now_millis ≤ command_millis + 24 * 60 * 60 * 1000 ∧
  command_millis ≤ now_millis + 5 * 60 * 1000.
Proof.
  unfold command_millis_within_acceptance_window, MAX_COMMAND_ID_FUTURE_SKEW_MS,
    MAX_COMMAND_ID_AGE_MS.
  destruct (N.ltb_spec now_millis command_millis); rewrite N.leb_le; lia.
Qed.

(** ** Concrete instants *)
Example timestamps_accepted_witness :
  format_rfc3339_micros (1767225600123 * 1000) = "2026-01-01T00:00:00.123000Z" ∧
  is_rfc3339_utc (format_rfc3339_micros (1767225600123 * 1000)) = true.
Proof.
  split; [vm_compute; reflexivity|]. apply timestamps_accepted. vm_compute. reflexivity.
Defined.

Example timestamps_injective_witness :
  format_rfc3339_micros 1 ≠ format_rfc3339_micros 2.
Proof.
  intros He. assert (Hn : 1 = 2); [|discriminate Hn].
  apply (timestamps_injective 1 2); [vm_compute; reflexivity..|exact He].
Defined.

(** ** Hexadecimal text is lowercase *)

Lemma hex_digit_lower (n : N) : n < 16 → is_lower_hex (hex_digit n) = true.
Proof.
  intros Hn. assert (n ∈ N.of_nat <$> seq 0 16) as Hin.
  { apply list_elem_of_fmap. exists (N.to_nat n). split; [lia|]. apply elem_of_seq. lia. }
  clear Hn. revert n Hin. apply (proj1 (Forall_forall _ _)). repeat constructor.
Qed.

Lemma hex_high_lower (c : ascii) : is_lower_hex (hex_digit (N_of_ascii c / 16)) = true.
Proof. apply hex_digit_lower. pose proof (N_ascii_bounded c). lia. Qed.
Lemma hex_low_lower (c : ascii) : is_lower_hex (hex_digit (N_of_ascii c mod 16)) = true.
Proof. apply hex_digit_lower. lia. Qed.
Lemma hex_string_lower (s : string) : str_all is_lower_hex (hex_string s) = true.
Proof.
  induction s as [|c s IH]; [done|]. cbn [hex_string str_all]. by rewrite hex_high_lower, hex_low_lower, IH.
Qed.
