(* ===== verification/Secrets.v ===== *)
(** * The secret policy

    [crates/apex-domain/src/validation/secrets.rs]: which event data is refused
    because it carries a credential.  A double is its 64 bits. *)
From Stdlib Require Import Ascii.
From S2P Require Import Prelude RustStr.

Open Scope N_scope.

(** [serde_json::Number]: the source only builds non-negative integers and
    doubles. *)
Inductive Number := PosInt (n : N) | Float (bits : N).

(** [serde_json::Value]; an object is the list of its entries in key order.
    The induction principle is [json_ind] below. *)
Unset Elimination Schemes.
Inductive Json :=
  | JNull
  | JBool (b : bool)
  | JNumber (n : Number)
  | JString (s : string)
  | JArray (values : list Json)
  | JObject (fields : list (string * Json)).
Set Elimination Schemes.

Section json_ind.
Variable P : Json → Prop.
Hypothesis P_null : P JNull.
Hypothesis P_bool : ∀ b, P (JBool b).
Hypothesis P_number : ∀ n, P (JNumber n).
Hypothesis P_string : ∀ s, P (JString s).
Hypothesis P_array : ∀ values, Forall P values → P (JArray values).
Hypothesis P_object : ∀ fields, Forall (λ kv, P kv.2) fields → P (JObject fields).

Fixpoint json_ind (j : Json) : P j :=
  match j with
  | JNull => P_null
  | JBool b => P_bool b
  | JNumber n => P_number n
  | JString s => P_string s
  | JArray values =>
      P_array values
        ((fix go (l : list Json) : Forall P l :=
            match l with
            | [] => Forall_nil_2 _
            | v :: l => Forall_cons_2 _ v l (json_ind v) (go l)
            end) values)
  | JObject fields =>
      P_object fields
        ((fix go (l : list (string * Json)) : Forall (λ kv, P kv.2) l :=
            match l with
            | [] => Forall_nil_2 _
            | kv :: l => Forall_cons_2 _ kv l (json_ind kv.2) (go l)
            end) fields)
  end.
End json_ind.

(** ** Keys *)

Fixpoint str_filter (p : ascii → bool) (s : string) : string :=
  match s with
  | EmptyString => EmptyString
  | String c s => if p c then String c (str_filter p s) else str_filter p s
  end.

(** [normalized_key]. *)
Definition normalized_key (key : string) : string :=
  to_ascii_lowercase (str_filter is_ascii_alphanumeric key).

(** [is_sensitive_key]. *)
Definition is_sensitive_key (key : string) : bool :=
  let normalized := normalized_key key in
  bool_decide (normalized ∈
    ["authorization"; "apikey"; "password"; "secret"; "privatekey"; "token"; "accesstoken";
     "refreshtoken"; "clientsecret"; "secretkey"; "credential"; "credentials"; "bearertoken"])
  || existsb (λ name, str_starts_with name normalized || str_ends_with name normalized)
       ["apikey"; "password"; "secret"; "privatekey"; "credential"].

(** [is_hash_like_key]. *)
Definition is_hash_like_key (key : string) : bool :=
  let normalized := normalized_key key in
  str_ends_with "hash" normalized || str_ends_with "digest" normalized
  || str_ends_with "ref" normalized || str_ends_with "id" normalized.

(** ** Values *)

(** [is_hash_reference]. *)
Definition is_hash_reference (value : string) : bool :=
  (str_len value =? 64) && str_all (λ c, is_ascii_digit c || in_range "a" "f" c) value.

(** The string case of [is_plausible_hash_or_id_value]. *)
Definition plausible_id_text (text : string) : bool :=
  let trimmed := trim text in
  if str_is_empty trimmed then true
  else is_hash_reference trimmed
       || ((str_len trimmed <=? 128)
           && str_all (λ c, is_ascii_alphanumeric c || ascii_eqb c "-" || ascii_eqb c "_"
                            || ascii_eqb c ".") trimmed).

(** [is_plausible_hash_or_id_value]. *)
Fixpoint is_plausible_hash_or_id_value (value : Json) : bool :=
  match value with
  | JBool _ | JNumber _ | JNull => true
  | JString text => plausible_id_text text
  | JArray values => forallb is_plausible_hash_or_id_value values
  | JObject fields => forallb (λ kv, is_plausible_hash_or_id_value kv.2) fields
  end.

(** [has_sensitive_value]. *)
Fixpoint has_sensitive_value (value : Json) : bool :=
  match value with
  | JNull => false
  | JString text => negb (str_is_empty (trim text))
  | JArray values => existsb has_sensitive_value values
  | JObject fields => existsb (λ kv, has_sensitive_value kv.2) fields
  | JBool _ | JNumber _ => true
  end.

(** [looks_like_credentialed_url]: [find] splits at the first occurrence. *)
Definition looks_like_credentialed_url (text : string) : bool :=
  match split_once "://" text with
  | None => false
  | Some (_, after_scheme) =>
      match split_once "@" after_scheme with
      | None => false
      | Some (authority, _) =>
          if str_contains "/" authority || str_is_empty authority then false
          else match split_once ":" authority with
               | None => false
               | Some (user, password) => negb (str_is_empty user) && negb (str_is_empty password)
               end
      end
  end.

(** The suffix test shared by the token shapes: the next [n] bytes all satisfy
    [p], where a character [p] accepts is one byte. *)
Fixpoint next_all (n : nat) (p : ascii → bool) (s : string) : bool :=
  match n, s with
  | O, _ => true
  | S n, String c s => p c && next_all n p s
  | S _, EmptyString => false
  end.

(** [text.match_indices(pat).any(f)]: [f] sees what follows the occurrence, and
    the search resumes after it ([skip] bytes further). *)
Fixpoint any_match (pat : string) (f : string → bool) (skip : nat) (text : string) : bool :=
  match skip, text with
  | S skip, String _ text' => any_match pat f skip text'
  | S _, EmptyString => false
  | O, _ =>
      match strip_prefix pat text with
      | Some rest =>
          f rest || match text with
                    | EmptyString => false
                    | String _ text' => any_match pat f (String.length pat - 1) text'
                    end
      | None =>
          match text with
          | EmptyString => false
          | String _ text' => any_match pat f 0 text'
          end
      end
  end.

Definition word_byte (c : ascii) : bool :=
  is_ascii_alphanumeric c || ascii_eqb c "-" || ascii_eqb c "_".
Definition upper_or_digit (c : ascii) : bool := in_range "A" "Z" c || is_ascii_digit c.
Definition bearer_byte (c : ascii) : bool :=
  is_ascii_alphanumeric c
  || existsb (ascii_eqb c) (String.list_ascii_of_string "-._~+/=").

(** The five shapes of [high_confidence_secret]. *)
Definition has_private_key (lower : string) : bool :=
  str_contains "-----begin " lower && str_contains "private key-----" lower.
Definition has_bearer_token (lower : string) : bool :=
  match split_once "bearer " lower with
  | None => false
  | Some (_, rest) =>
      let token := trim rest in (20 <=? str_len token) && str_all bearer_byte token
  end.
Definition is_jwt (text : string) : bool :=
  let parts := split "."%char text in
  str_starts_with "eyJ" text && (len parts =? 3)
  && forallb (λ part, negb (str_is_empty part) && str_all word_byte part) parts.
Definition has_provider_token (text : string) : bool :=
  any_match "sk-" (next_all 20 word_byte) 0 text
  || any_match "AKIA" (next_all 16 upper_or_digit) 0 text
  || any_match "ASIA" (next_all 16 upper_or_digit) 0 text
  || any_match "AIza" (next_all 20 word_byte) 0 text
  || any_match "ghp_" (next_all 20 (λ c, is_ascii_alphanumeric c || ascii_eqb c "_")) 0 text
  || any_match "xoxb-" (next_all 12 (λ c, is_ascii_alphanumeric c || ascii_eqb c "-")) 0 text.

(** [high_confidence_secret]. *)
Definition high_confidence_secret (text : string) : bool :=
  let lower := to_ascii_lowercase text in
  has_private_key lower || looks_like_credentialed_url text || has_bearer_token lower
  || is_jwt text || has_provider_token text.

(** [looks_like_encoded_secret]. *)
Definition looks_like_encoded_secret (text : string) : bool :=
  let compact := trim text in
  if (str_len compact <? 32) || (512 <? str_len compact) then false
  else
    let base64ish :=
      str_all (λ c, is_ascii_alphanumeric c
                    || existsb (ascii_eqb c) (String.list_ascii_of_string "+/=_-")) compact in
    let hexish := str_all is_ascii_hexdigit compact in
    base64ish && (hexish || (48 <=? str_len compact)).

(** ** The policy *)

(** [contains_secret_like_value_with_context]. *)
Fixpoint contains_secret (value : Json) (control_text hash_like_field : bool) : bool :=
  match value with
  | JObject fields =>
      existsb (λ kv,
        let sensitive_key := is_sensitive_key kv.1 in
        let hash_like := is_hash_like_key kv.1 in
        let exempt_by_value_shape := hash_like && is_plausible_hash_or_id_value kv.2 in
        (sensitive_key && negb exempt_by_value_shape && has_sensitive_value kv.2)
        || contains_secret kv.2 control_text hash_like) fields
  | JArray values => existsb (λ v, contains_secret v control_text hash_like_field) values
  | JString text =>
      high_confidence_secret text
      || (negb control_text && (negb hash_like_field || negb (is_hash_reference text))
          && looks_like_encoded_secret text)
  | _ => false
  end.

(** [contains_secret_like_value] and [contains_secret_like_control_value]. *)
Definition contains_secret_like_value (value : Json) : bool := contains_secret value false false.
Definition contains_secret_like_control_value (value : Json) : bool :=
  contains_secret value true false.

(** ** Lemmas *)

Lemma existsb_elem {A} (f : A → bool) (l : list A) :
  existsb f l = true ↔ ∃ x, x ∈ l ∧ f x = true.
Proof.
  rewrite existsb_exists.
  split; intros (x & Hx & ?); exists x; (split; [by apply list_elem_of_In|done]).
Qed.
