(* ===== verification/Journal.v ===== *)
(** * Line journals

    The file inbox and the file outbox are both journals of one JSON record
    per line.  This file models the file as bytes: what [BufRead::lines]
    reads, what an append leaves behind when it is interrupted, and the
    contract of the record codec ([serde_json], a dependency) as a type
    class. *)
From Stdlib Require Import Ascii.
From S2P Require Import Prelude RustStr.

Open Scope N_scope.

Definition nl : ascii := "010".
Definition cr : ascii := "013".
Definition newline : string := String nl EmptyString.

(** ** The codec *)

(** [serde_json::to_vec] and [serde_json::from_str] at a record type. *)
Class LineCodec (R : Type) := {
  encode_line : R → string;
  decode_line : string → option R;
}.

(** What the journals rely on: decoding inverts encoding, an encoded record
    has no line break in it (JSON escapes control characters), and no proper
    prefix of an encoded record is a record (a JSON object ends with its
    closing brace). *)
Class LineCodecLaws (R : Type) `{LineCodec R} : Prop := {
  decode_encode_line (r : R) : decode_line (encode_line r) = Some r;
  encode_line_plain (r : R) :
    str_all (λ c, negb (ascii_eqb c nl) && negb (ascii_eqb c cr)) (encode_line r) = true;
  decode_line_prefix (r : R) (p q : string) :
    encode_line r = p +:+ q → q ≠ EmptyString → decode_line p = (None : option R);
}.

(** ** Reading *)

(** The complete lines of a byte string and what follows the last of them. *)
Fixpoint split_nl (s : string) : list string * string :=
  match s with
  | EmptyString => ([], EmptyString)
  | String c s' =>
      let '(ls, rest) := split_nl s' in
      if ascii_eqb c nl then (EmptyString :: ls, rest)
      else match ls with
           | [] => ([], String c rest)
           | l :: ls => (String c l :: ls, rest)
           end
  end.

(** A carriage return before the line break belongs to it. *)
Fixpoint strip_cr (s : string) : string :=
  match s with
  | EmptyString => EmptyString
  | String c EmptyString => if ascii_eqb c cr then EmptyString else s
  | String c s' => String c (strip_cr s')
  end.

(** [BufRead::lines]: the last line may lack its line break. *)
Definition read_lines (s : string) : list string :=
  let '(ls, rest) := split_nl s in
  (strip_cr <$> ls) ++ (if str_is_empty rest then [] else [rest]).

(** ** Writing *)

Section codec.
Context {R : Type} `{LineCodec R}.

Definition record_bytes (r : R) : string := encode_line r +:+ newline.

Fixpoint journal_bytes (rs : list R) : string :=
  match rs with
  | [] => EmptyString
  | r :: rs => record_bytes r +:+ journal_bytes rs
  end.
End codec.

(** The first [n] bytes: what an interrupted write leaves behind. *)
Fixpoint str_take (n : nat) (s : string) : string :=
  match n, s with
  | S n, String c s => String c (str_take n s)
  | _, _ => EmptyString
  end.

(** ** Outcomes of I/O *)

(** The outcome of the I/O of one append: [metadata()] fails; [write_all] or
    [sync_data] fails after [n] bytes reached the file; or all of it
    succeeds. *)
Inductive AppendIo := AppendMetadataFails | AppendWriteFails (n : nat) | AppendOk.

(** The outcome of the I/O of one compaction: anything up to the temporary
    file fails; the rename fails, and the old journal is reopened or not; the
    rename succeeds, and the new journal is reopened or not. *)
Inductive CompactIo :=
  | CompactTempFails | CompactRenameFails (reopens : bool) | CompactRenamed (reopens : bool).

(** A failed append that left nothing behind. *)
Definition clean_io (io : AppendIo) : Prop :=
  match io with AppendWriteFails n => n = 0%nat | _ => True end.

(** ** Lemmas on lines *)

Lemma split_nl_line (line s : string) :
  str_all (λ c, negb (ascii_eqb c nl)) line = true →
  split_nl (line +:+ newline +:+ s) = (line :: (split_nl s).1, (split_nl s).2).
Proof.
  induction line as [|c line IH]; simpl.
  - intros _. change (split_nl (String nl s) = (EmptyString :: (split_nl s).1, (split_nl s).2)).
    simpl. by destruct (split_nl s).
  - intros [Hc Hl]%andb_true_iff. apply negb_true_iff in Hc.
    change (split_nl (String c (line +:+ newline +:+ s)) =
            (String c line :: (split_nl s).1, (split_nl s).2)).
    simpl. by rewrite (IH Hl), Hc.
Qed.

Lemma split_nl_no_newline (s : string) :
  str_all (λ c, negb (ascii_eqb c nl)) s = true → split_nl s = ([], s).
Proof.
  induction s as [|c s IH]; simpl; [done|].
  intros [Hc Hs]%andb_true_iff. apply negb_true_iff in Hc. by rewrite (IH Hs), Hc.
Qed.

Lemma strip_cr_plain (s : string) :
  str_all (λ c, negb (ascii_eqb c cr)) s = true → strip_cr s = s.
Proof.
  induction s as [|c s IH]; simpl; [done|].
  intros [Hc Hs]%andb_true_iff. apply negb_true_iff in Hc. rewrite Hc.
  destruct s; [done|]. by rewrite IH.
Qed.

Lemma str_take_app (n : nat) (s : string) : ∃ t, s = str_take n s +:+ t.
Proof.
  revert s. induction n as [|n IH]; intros s; [by exists s|].
  destruct s as [|c s]; [by exists EmptyString|]. destruct (IH s) as [t Ht].
  exists t. simpl. change (String c s = String c (str_take n s +:+ t)). by rewrite <- Ht.
Qed.

Lemma str_take_prefix n (a b : string) :
  (n ≤ String.length a)%nat → str_take n (a +:+ b) = str_take n a.
Proof.
  revert a. induction n as [|n IH]; intros [|c a] Hn; [done..|cbn in Hn; lia|].
  change (String c a +:+ b) with (String c (a +:+ b)). cbn in Hn |- *. rewrite IH by lia. done.
Qed.

Lemma str_take_whole (a : string) : str_take (String.length a) a = a.
Proof. induction a as [|c a IH]; [done|]. cbn. by rewrite IH. Qed.

Lemma str_take_all p n (a : string) : str_all p a = true → str_all p (str_take n a) = true.
Proof.
  destruct (str_take_app n a) as [q Hq]. intros Ha. rewrite Hq, str_all_app in Ha.
  by apply andb_true_iff in Ha as [? _].
Qed.

Section laws.
Context {R : Type} `{LineCodecLaws R}.

Lemma encode_line_no_nl (r : R) : str_all (λ c, negb (ascii_eqb c nl)) (encode_line r) = true.
Proof. eapply str_all_impl, encode_line_plain. by intros c [? ?]%andb_true_iff. Qed.

Lemma encode_line_no_cr (r : R) : str_all (λ c, negb (ascii_eqb c cr)) (encode_line r) = true.
Proof. eapply str_all_impl, encode_line_plain. by intros c [? ?]%andb_true_iff. Qed.

(** Reading a journal yields its records, one line each. *)
Lemma read_lines_journal (rs : list R) (tail : string) :
  read_lines (journal_bytes rs +:+ tail) = (encode_line <$> rs) ++ read_lines tail.
Proof.
  unfold read_lines. induction rs as [|r rs IH]; [done|]. csimpl.
  unfold record_bytes. rewrite !string_app_assoc, split_nl_line by apply encode_line_no_nl.
  simpl. rewrite strip_cr_plain by apply encode_line_no_cr.
  destruct (split_nl (journal_bytes rs +:+ tail)). simpl. f_equal. done.
Qed.

Lemma journal_bytes_app (rs rs' : list R) :
  journal_bytes (rs ++ rs') = journal_bytes rs +:+ journal_bytes rs'.
Proof.
  induction rs as [|r rs IH]; [done|]. simpl. by rewrite IH, string_app_assoc.
Qed.

(** ** Interrupted appends *)

Lemma str_take_app_cases (n : nat) (a b : string) :
  (∃ t, t ≠ EmptyString ∧ a = str_take n (a +:+ b) +:+ t) ∨
  (∃ m, str_take n (a +:+ b) = a +:+ str_take m b).
Proof.
  revert a. induction n as [|n IH]; intros a.
  { destruct a as [|c a]; [right; by exists 0%nat|left; by exists (String c a)]. }
  destruct a as [|c a]; [right; by exists (S n)|].
  change (String c a +:+ b) with (String c (a +:+ b)). simpl.
  destruct (IH a) as [(t & Ht & Ha)|[m Hm]].
  - left. exists t. split; [done|].
    change (String c a = String c (str_take n (a +:+ b) +:+ t)). by rewrite <- Ha.
  - right. exists m. by rewrite Hm.
Qed.

(** What an interrupted append leaves: whole records, then nothing, or one
    record without its line break, or a fragment that is not a record. *)
Definition torn_tail (next : list R) (tail : string) : Prop :=
  tail = EmptyString ∨
  (∃ r rest, next = r :: rest ∧ tail = encode_line r) ∨
  (decode_line tail = None ∧ str_all (λ c, negb (ascii_eqb c nl)) tail = true ∧
   tail ≠ EmptyString ∧ ∃ r rest q, next = r :: rest ∧ encode_line r = tail +:+ q).

Lemma str_take_journal (n : nat) (rs : list R) :
  ∃ done_ next tail, rs = done_ ++ next ∧
    str_take n (journal_bytes rs) = journal_bytes done_ +:+ tail ∧ torn_tail next tail.
Proof.
  revert n. induction rs as [|r rs IH]; intros n.
  { exists [], [], EmptyString. split_and!; [done|by destruct n|by left]. }
  simpl. unfold record_bytes. rewrite string_app_assoc.
  destruct (str_take_app_cases n (encode_line r) (newline +:+ journal_bytes rs))
    as [(t & Ht & Hp)|[m Hm]].
  - exists [], (r :: rs), (str_take n (encode_line r +:+ newline +:+ journal_bytes rs)).
    split_and!; [done..|]. pose proof (decode_line_prefix r _ _ Hp Ht) as Hd.
    pose proof (encode_line_no_nl r) as Hnl. rewrite Hp, str_all_app in Hnl.
    apply andb_true_iff in Hnl as [Hnl _].
    destruct (str_take n _) as [|c s0] eqn:E; [by left|]. right. right. eauto 10.
  - rewrite Hm. destruct m as [|m].
    + exists [], (r :: rs), (encode_line r). simpl. rewrite string_app_nil_r.
      split_and!; [done..|]. right. left. eauto.
    + destruct (IH m) as (d & nx & tail & -> & Htk & Htn).
      exists (r :: d), nx, tail. split_and!; [done| |done].
      change (str_take (S m) (newline +:+ journal_bytes (d ++ nx)))
        with (newline +:+ str_take m (journal_bytes (d ++ nx))).
      rewrite Htk. simpl. unfold record_bytes. by rewrite !string_app_assoc.
Qed.

Lemma read_lines_torn (next : list R) (tail : string) :
  torn_tail next tail →
  read_lines tail = [] ∨
  (∃ r rest, next = r :: rest ∧ read_lines tail = [encode_line r]) ∨
  (∃ line, read_lines tail = [line] ∧ decode_line line = (None : option R)).
Proof.
  unfold read_lines. intros [->|[(r & rest & -> & ->)|(Hd & Hn & Hne & _)]]; [by left| |].
  - rewrite split_nl_no_newline by apply encode_line_no_nl. simpl.
    destruct (str_is_empty (encode_line r)); [by left|]. right. left. eauto.
  - rewrite split_nl_no_newline by done. simpl. right. right. exists tail.
    by destruct tail.
Qed.
End laws.

(** ** A concrete codec

    Any countable type of records has a codec that satisfies the laws: the
    bits of its code, low bit first, closed by a full stop. *)
Fixpoint pos_bits (p : positive) : string :=
  match p with
  | xH => "."
  | xO p => String "0" (pos_bits p)
  | xI p => String "1" (pos_bits p)
  end.

Fixpoint bits_pos (s : string) : option positive :=
  match s with
  | EmptyString => None
  | String c s' =>
      if ascii_eqb c "0" then xO <$> bits_pos s'
      else if ascii_eqb c "1" then xI <$> bits_pos s'
      else if ascii_eqb c "." && str_is_empty s' then Some xH
      else None
  end.

Definition bit_codec (R : Type) `{Countable R} : LineCodec R := {|
  encode_line := λ r, pos_bits (encode r);
  decode_line := λ s, bits_pos s ≫= decode;
|}.

Lemma bits_pos_bits (p : positive) : bits_pos (pos_bits p) = Some p.
Proof. induction p as [p IH|p IH|]; simpl; by rewrite ?IH. Qed.

Lemma bits_pos_prefix (p : positive) (a b : string) :
  pos_bits p = a +:+ b → b ≠ EmptyString → bits_pos a = None.
Proof.
  revert a. induction p as [p IH|p IH|]; intros [|c a] Hab Hb; try done.
  1-2: change (String c a +:+ b) with (String c (a +:+ b)) in Hab; injection Hab as <- Hab;
       simpl; by rewrite (IH a Hab Hb).
  change (String c a +:+ b) with (String c (a +:+ b)) in Hab. injection Hab as <- Hab.
  by destruct a, b.
Qed.

Lemma pos_bits_bits (s : string) (p : positive) : bits_pos s = Some p → pos_bits p = s.
Proof.
  revert p. induction s as [|c s IH]; intros p; [done|]. cbn. unfold ascii_eqb. case_bool_decide as H0.
  { destruct (bits_pos s) as [q|]; [|done]. intros [= <-]. cbn. by rewrite (IH q), H0. }
  case_bool_decide as H1.
  { destruct (bits_pos s) as [q|]; [|done]. intros [= <-]. cbn. by rewrite (IH q), H1. }
  case_bool_decide as H2; [|done]. destruct s; [|done]. intros [= <-]. by rewrite H2.
Qed.

(** Nothing can follow a whole record. *)
Lemma bits_pos_glued (p : positive) (s : string) : s ≠ EmptyString → bits_pos (pos_bits p +:+ s) = None.
Proof.
  intros Hs. induction p as [p IH|p IH|]; [| |by destruct s].
  - change (pos_bits p~1 +:+ s) with (String "1" (pos_bits p +:+ s)). cbn. by rewrite IH.
  - change (pos_bits p~0 +:+ s) with (String "0" (pos_bits p +:+ s)). cbn. by rewrite IH.
Qed.

Lemma bit_codec_laws (R : Type) `{Countable R} : @LineCodecLaws R (bit_codec R).
Proof.
  split.
  - intros r. simpl. rewrite bits_pos_bits. simpl. apply decode_encode.
  - intros r. simpl. by induction (encode r).
  - intros r p q Hpq Hq. simpl in *. by rewrite (bits_pos_prefix _ _ _ Hpq Hq).
Qed.
