(* ===== verification/Errors.v ===== *)
(** * Redacted errors

    [apps/control-plane-api/src/errors.rs] and the error codes of
    [crates/apex-domain/src/errors/code.rs]: the two taxonomies, the gRPC
    status each maps to, and the translation of a storage or validation error
    into the gateway's own taxonomy. *)
From S2P Require Import Prelude.

(** [apex_domain::GatewayErrorCode]. *)
Inductive GatewayErrorCode :=
  | GUnauthenticated | GInvalidAuthorization | GScopeDenied | GInvalidEventId
  | GInvalidEnvelope | GInvalidStructure | GSecretExposure | GInvalidTimestamp
  | GInvalidIntegrity | GPayloadTooLarge | GIdempotencyCapacity
  | GIdempotencyInProgress | GRateLimited | GAdmissionBusy | GPublishFailed
  | GInternal | GSubjectTooLong | GInvalidRetryConfiguration
  | GInvalidNatsConfiguration | GInvalidNatsPublishRequest
  | GNatsConnectionFailed | GIdempotencyConflict | GInvalidSinkConfiguration
  | GInvalidOutboxConfiguration | GInvalidIdempotencyConfiguration.

#[global] Instance GatewayErrorCode_eq_dec : EqDecision GatewayErrorCode.
Proof. solve_decision. Defined.

(** [control-plane-api]'s [CommandErrorCode]. *)
Inductive CommandErrorCode :=
  | Unauthenticated | InvalidAuthorization | CredentialVerifierUnavailable
  | ScopeDenied | RateLimited | InvalidCommand | IdempotencyConflict
  | IdempotencyInProgress | Capacity | Internal | AlreadyDelivered.

#[global] Instance CommandErrorCode_eq_dec : EqDecision CommandErrorCode.
Proof. solve_decision. Defined.

(** [CommandErrorCode::as_str]. *)
Definition as_str (c : CommandErrorCode) : string :=
  match c with
  | Unauthenticated => "UNAUTHENTICATED"
  | InvalidAuthorization => "INVALID_AUTHORIZATION_METADATA"
  | CredentialVerifierUnavailable => "CREDENTIAL_VERIFIER_UNAVAILABLE"
  | ScopeDenied => "SCOPE_DENIED"
  | RateLimited => "RATE_LIMITED"
  | InvalidCommand => "INVALID_COMMAND"
  | IdempotencyConflict => "IDEMPOTENCY_CONFLICT"
  | IdempotencyInProgress => "IDEMPOTENCY_IN_PROGRESS"
  | Capacity => "OUTBOX_CAPACITY"
  | Internal => "INTERNAL_FAILURE"
  | AlreadyDelivered => "ALREADY_DELIVERED"
  end.

(** The [tonic::Code]s the services answer with. *)
Inductive GrpcCode :=
  | GrpcUnauthenticated | GrpcUnavailable | GrpcPermissionDenied
  | GrpcResourceExhausted | GrpcInvalidArgument | GrpcAborted | GrpcInternal
  | GrpcFailedPrecondition | GrpcNotFound | GrpcAlreadyExists.

#[global] Instance GrpcCode_eq_dec : EqDecision GrpcCode.
Proof. solve_decision. Defined.

(** [CommandErrorCode::grpc_code]. *)
Definition grpc_code (c : CommandErrorCode) : GrpcCode :=
  match c with
  | Unauthenticated | InvalidAuthorization => GrpcUnauthenticated
  | CredentialVerifierUnavailable => GrpcUnavailable
  | ScopeDenied => GrpcPermissionDenied
  | RateLimited | Capacity => GrpcResourceExhausted
  | InvalidCommand | IdempotencyConflict => GrpcInvalidArgument
  | IdempotencyInProgress => GrpcAborted
  | Internal => GrpcInternal
  | AlreadyDelivered => GrpcFailedPrecondition
  end.

(** [CommandError]: a stable code and a static message. *)
Record CommandError := mkCommandError {
  ce_code : CommandErrorCode;
  ce_message : string;
}.

#[global] Instance CommandError_eq_dec : EqDecision CommandError.
Proof. solve_decision. Defined.

Definition unauthenticated : CommandError := mkCommandError Unauthenticated
  "The control gateway rejected an unauthenticated caller. Supply a valid operator credential.".
Definition invalid_authorization : CommandError := mkCommandError InvalidAuthorization
  "Send exactly one ASCII authorization header using the form Bearer <token>.".
Definition governance_unauthenticated : CommandError := mkCommandError Unauthenticated
  "The governance service rejected the caller.".
Definition scope_denied : CommandError := mkCommandError ScopeDenied
  "The authenticated operator is not permitted to issue commands in this workspace/namespace.".
Definition credential_verifier_unavailable : CommandError :=
  mkCommandError CredentialVerifierUnavailable
  "The control gateway cannot currently verify operator credentials. Retry with backoff.".
Definition rate_limited : CommandError := mkCommandError RateLimited
  "The control gateway is temporarily rate-limited. Retry with backoff.".
Definition invalid_command : CommandError := mkCommandError InvalidCommand
  "The command was malformed: check the command identity and delivery fields.".
Definition already_delivered : CommandError := mkCommandError AlreadyDelivered
  "This command has already been delivered to its agent at least once and can no longer be cancelled: the agent may already be acting on it. Issue a new command instead.".
Definition internal : CommandError := mkCommandError Internal
  "The control gateway failed to process the request.".

(** The code half of [CommandError::from_gateway_error]. *)
Definition from_gateway_code (c : GatewayErrorCode) : CommandErrorCode :=
  match c with
  | GIdempotencyConflict => IdempotencyConflict
  | GIdempotencyInProgress => IdempotencyInProgress
  | GIdempotencyCapacity => Capacity
  | GRateLimited | GAdmissionBusy => RateLimited
  | GInternal | GPublishFailed | GNatsConnectionFailed
  | GInvalidOutboxConfiguration | GInvalidIdempotencyConfiguration => Internal
  | _ => InvalidCommand
  end.

(** The message half. *)
Definition from_gateway_message (c : CommandErrorCode) : string :=
  match c with
  | IdempotencyConflict =>
      "command_id was already accepted with different fields. Use a new command_id for a genuinely different command."
  | IdempotencyInProgress =>
      "This command is currently being durably recorded by another request. Retry shortly."
  | Capacity =>
      "The durable command outbox is at capacity. Retry after operator remediation."
  | RateLimited => "The control gateway is temporarily rate-limited."
  | Internal => "The control gateway failed to process the request."
  | _ =>
      "The command was malformed: check target identifiers, action, and required parameters for the requested action."
  end.

(** [CommandError::from_gateway_error]. *)
Definition from_gateway_error (c : GatewayErrorCode) : CommandError :=
  let code := from_gateway_code c in
  mkCommandError code (from_gateway_message code).

(** [tonic::Status], and [CommandError::into_status]. *)
Record Status := mkStatus { st_code : GrpcCode; st_message : string }.

Definition into_status (e : CommandError) : Status :=
  mkStatus (grpc_code (ce_code e)) (as_str (ce_code e) +:+ ": " +:+ ce_message e).
