(* ===== verification/Backend.v ===== *)
(** * The gateway's handle on a store

    [ControlOutboxBackend] of [apps/control-plane-api/src/outbox.rs] and
    [ControlInboxBackend] of [inbox/backend.rs]: a store behind one lock, or a
    pool of connections used in rotation.  The two types have the same text, so
    one model serves both; what runs under the lock is a parameter. *)
From S2P Require Import Prelude Errors.

Open Scope N_scope.

(** [BackendInner] and [InboxBackendInner]. *)
Inductive Backend (O : Type) :=
  | Single (m : Mutex O)
  | Pool (connections : list (Mutex O)) (next : N).
Arguments Single {O} m.
Arguments Pool {O} connections next.

(** [new] and [new_pool]. *)
Definition backend_new {O} (store : O) : Backend O := Single (mutex_new store).
Definition new_pool {O} (stores : list O) : result CommandError (Backend O) :=
  match stores with
  | [] => Err internal
  | _ => Ok (Pool (map mutex_new stores) 0)
  end.

(** [with_lock]: the error is the lock's; what [f] returns may itself be a
    result.  [fetch_add] wraps at 64 bits. *)
Definition with_lock {O A} (f : O → A * O) (b : Backend O) : result CommandError A * Backend O :=
  match b with
  | Single m =>
      if poisoned m then (Err internal, b)
      else let '(r, o) := f (guarded m) in (Ok r, Single (mkMutex false o))
  | Pool connections next =>
      let index := N.to_nat (next mod len connections) in
      let next := (next + 1) mod (u64_max + 1) in
      match connections !! index with
      | Some m =>
          if poisoned m then (Err internal, Pool connections next)
          else let '(r, o) := f (guarded m) in
               (Ok r, Pool (<[index := mkMutex false o]> connections) next)
      | None => (Err internal, Pool connections next)
      end
  end.

(** [with_lock(..)?] on an operation of the gateway's own error type. *)
Definition locked {O A} (f : ST O CommandError A) : ST (Backend O) CommandError A := λ b,
  let '(r, b') := with_lock f b in (r ≫= id, b').

(** ** Lemmas *)

(** A store behind a single healthy lock. *)
Definition single {O} (o : O) : Backend O := Single (mutex_new o).

Lemma with_lock_single {O A} (f : O → A * O) (o : O) :
  with_lock f (single o) = (Ok (f o).1, single (f o).2).
Proof. unfold with_lock, single. simpl. by destruct (f o). Qed.

Lemma locked_single {O A} (f : ST O CommandError A) (o : O) :
  locked f (single o) = ((f o).1, single (f o).2).
Proof. unfold locked. rewrite with_lock_single. by destruct (f o) as [[]]. Qed.

Lemma single_inj {O} (o o' : O) : single o = single o' → o = o'.
Proof. by injection 1. Qed.

(** Every connection of a pool takes its turn: a healthy pool never indexes
    out of bounds. *)
Lemma with_lock_pool {O A} (f : O → A * O) (ms : list (Mutex O)) (next : N) :
  ms ≠ [] → ∃ m, ms !! N.to_nat (next mod len ms) = Some m
    ∧ (with_lock f (Pool ms next)).1
      = if poisoned m then Err internal else Ok (f (guarded m)).1.
Proof.
  intros Hne. destruct (lookup_lt_is_Some_2 ms (N.to_nat (next mod len ms))) as [m Hm].
  { assert (0 < len ms) by (destruct ms; [done|unfold len; simpl; lia]).
    pose proof (N.mod_lt next (len ms)). unfold len in *. lia. }
  exists m. split; [done|]. unfold with_lock. rewrite Hm. destruct (poisoned m); [done|].
  by destruct (f (guarded m)).
Qed.
