(* ===== verification/Window.v ===== *)
(** * Fixed windows

    The counting discipline shared by the admission ceilings of the control
    gateway ([admit_in] of [apps/control-plane-api/src/service.rs]) and by the
    rate-limit buckets of [crates/apex-auth/src/ephemeral/memory.rs]: a bucket
    remembers when its window started and how many calls it has let through,
    and starts over when the window is over.  The bound on what a bucket lets
    through is proved once, here, by a potential. *)
From S2P Require Import Prelude.

Open Scope N_scope.

(** When the window started, and the calls let through since. *)
Abbreviation WindowBucket := (N * N)%type.

(** A bucket whose window is over starts a new one; [now] and [later] are the
    two readings of the clock. *)
Definition window_refresh (window now later : N) (b : WindowBucket) : WindowBucket :=
  if window <=? later - b.1 then (now, 0) else b.

(** One call: whether it is let through, and the bucket it leaves. *)
Definition window_hit (window limit now later : N) (o : option WindowBucket)
    : bool * WindowBucket :=
  let b := window_refresh window now later (default (now, 0) o) in
  if limit <=? b.2 then (false, b) else (true, (b.1, b.2 + 1)).

(** What a bucket can still let through before [t + window]: one window's worth
    if its window started at [t] or later, and otherwise one more for the
    window that may still start. *)
Definition window_spare (limit t : N) (o : option WindowBucket) : N :=
  match o with
  | None => limit
  | Some b => if t <=? b.1 then limit - b.2 else limit + (limit - b.2)
  end.

(** Both readings of a call fall in the [window] that starts at [t]. *)
Definition in_window (window t now later : N) : Prop :=
  t ≤ now ∧ t ≤ later ∧ later < t + window.

(** A call that is let through uses up some of what is left. *)
Lemma window_hit_spare (window limit t now later : N) (o : option WindowBucket) :
  in_window window t now later →
  window_spare limit t (Some (window_hit window limit now later o).2)
  + (if (window_hit window limit now later o).1 then 1 else 0) ≤ window_spare limit t o.
Proof.
  intros (Hn & Hl & Hw). unfold window_hit, window_refresh, window_spare.
  destruct o as [[st c]|]; simpl;
    repeat (match goal with |- context [?a <=? ?b] => destruct (N.leb_spec a b) end; simpl);
    simpl in *; lia.
Qed.

(** Whatever a bucket's past, it lets through two windows' worth at most. *)
Lemma window_spare_bound (limit t : N) (o : option WindowBucket) :
  window_spare limit t o ≤ 2 * limit.
Proof. unfold window_spare. destruct o as [[st c]|]; simpl; [destruct (N.leb_spec t st)|]; lia. Qed.

(** Forgetting a bucket gives nothing back. *)
Lemma window_spare_forget (limit t : N) (b : WindowBucket) :
  b.1 < t → window_spare limit t None ≤ window_spare limit t (Some b).
Proof. intros H. unfold window_spare. destruct (N.leb_spec t b.1); lia. Qed.
