(* ===== verification/Ephemeral.v ===== *)
(** * The ephemeral accelerator

    [crates/apex-auth/src/ephemeral]: the keys and the contract of [types.rs],
    the process-local store of [memory.rs] and the circuit breaker of
    [fallback.rs].  The remote store is any instance of the contract.  An
    operation takes two clock readings: the one it starts at, and the one after
    whatever it waited for. *)
From Stdlib Require Import Ascii.
From S2P Require Import Prelude RustStr Digits Window.

Open Scope N_scope.

(** ** Keys and errors *)

Record RateLimitKey := mkRateKey { rk_namespace : string; rk_bucket : string }.
Record FingerprintCounterKey := mkFingerprintKey { fk_namespace : string; fk_fingerprint_hex : string }.
Record DenyHintKey := mkDenyKey { dk_namespace : string; dk_fingerprint_hex : string }.

#[global] Instance RateLimitKey_eq_dec : EqDecision RateLimitKey.
Proof. solve_decision. Defined.
#[global] Program Instance RateLimitKey_countable : Countable RateLimitKey :=
  inj_countable' (λ k, (rk_namespace k, rk_bucket k)) (λ t, mkRateKey t.1 t.2) _.
Next Obligation. by intros []. Qed.
#[global] Instance FingerprintCounterKey_eq_dec : EqDecision FingerprintCounterKey.
Proof. solve_decision. Defined.
#[global] Program Instance FingerprintCounterKey_countable : Countable FingerprintCounterKey :=
  inj_countable' (λ k, (fk_namespace k, fk_fingerprint_hex k)) (λ t, mkFingerprintKey t.1 t.2) _.
Next Obligation. by intros []. Qed.
#[global] Instance DenyHintKey_eq_dec : EqDecision DenyHintKey.
Proof. solve_decision. Defined.
#[global] Program Instance DenyHintKey_countable : Countable DenyHintKey :=
  inj_countable' (λ k, (dk_namespace k, dk_fingerprint_hex k)) (λ t, mkDenyKey t.1 t.2) _.
Next Obligation. by intros []. Qed.

Record RateLimitDecision := mkDecision { allowed : bool; remaining : N }.

(** [EphemeralErrorCode]; the summary of an error is a function of its code. *)
Inductive EphemeralErrorCode := InvalidKey | StoreCapacity | Unavailable.
#[global] Instance EphemeralErrorCode_eq_dec : EqDecision EphemeralErrorCode.
Proof. solve_decision. Defined.

Definition MAX_FINGERPRINT_HEX : N := 64.

Definition validate_rate_key (k : RateLimitKey) : result EphemeralErrorCode unit :=
  if negb (is_identifier (rk_namespace k)) || negb (is_identifier (rk_bucket k))
  then Err InvalidKey else Ok tt.

(** The shape [validate_fingerprint_key] and [validate_deny_key] share. *)
Definition fingerprint_hex_ok (hex : string) : bool :=
  negb (str_is_empty hex) && (str_len hex <=? MAX_FINGERPRINT_HEX) && str_all is_ascii_hexdigit hex.

Definition validate_fingerprint_key (k : FingerprintCounterKey) : result EphemeralErrorCode unit :=
  if negb (is_identifier (fk_namespace k)) || negb (fingerprint_hex_ok (fk_fingerprint_hex k))
  then Err InvalidKey else Ok tt.
Definition validate_deny_key (k : DenyHintKey) : result EphemeralErrorCode unit :=
  if negb (is_identifier (dk_namespace k)) || negb (fingerprint_hex_ok (dk_fingerprint_hex k))
  then Err InvalidKey else Ok tt.

(** [window_secs], on nanoseconds. *)
Definition window_secs (window : N) : result EphemeralErrorCode N :=
  let secs := N.max (window / 1000000000) (if 0 <? window mod 1000000000 then 1 else 0) in
  if secs =? 0 then Err InvalidKey else Ok secs.

(** ** Remote key names *)

Definition KEY_PREFIX : string := "apex:ingest".

(** Components are written in hexadecimal, so that none holds a colon. *)
Definition encode_key_component (value : string) : string := hex_string value.

Definition redis_key (kind a b : string) : string :=
  KEY_PREFIX +:+ ":" +:+ kind +:+ ":" +:+ encode_key_component a +:+ ":" +:+ encode_key_component b.
Definition rate_limit_redis_key (k : RateLimitKey) : string :=
  redis_key "rl" (rk_namespace k) (rk_bucket k).
Definition fingerprint_redis_key (k : FingerprintCounterKey) : string :=
  redis_key "fp" (fk_namespace k) (fk_fingerprint_hex k).
Definition deny_hint_redis_key (k : DenyHintKey) : string :=
  redis_key "deny" (dk_namespace k) (dk_fingerprint_hex k).

(** ** The contract *)

(** The clock when an operation starts, and after what it waited for. *)
Record Readings := mkReadings { started_at : N; done_at : N }.

Class EphemeralStore (S : Type) := {
  accelerator_sidelined : N → S → bool;
  check_rate_limit : Readings → RateLimitKey → N → N → ST S EphemeralErrorCode RateLimitDecision;
  increment_fingerprint : Readings → FingerprintCounterKey → N → ST S EphemeralErrorCode N;
  fingerprint_count : Readings → FingerprintCounterKey → ST S EphemeralErrorCode N;
  set_deny_hint : Readings → DenyHintKey → N → ST S EphemeralErrorCode unit;
  is_denied : Readings → DenyHintKey → ST S EphemeralErrorCode bool;
}.

(** ** The process-local store *)

Definition MAX_KEYS : N := 50000.

Record InMemoryEphemeralStore := mkEphemeral {
  rates : gmap RateLimitKey WindowBucket;
  fingerprints : gmap FingerprintCounterKey WindowBucket;
  denies : gmap DenyHintKey N;
}.

Definition ephemeral_new : InMemoryEphemeralStore := mkEphemeral ∅ ∅ ∅.
Definition total_keys (s : InMemoryEphemeralStore) : N :=
  map_len (rates s) + map_len (fingerprints s) + map_len (denies s).

Definition ephemeral_check_rate_limit (t : Readings) (key : RateLimitKey) (limit window : N)
    : ST InMemoryEphemeralStore EphemeralErrorCode RateLimitDecision := λ s,
  match validate_rate_key key with
  | Err e => (Err e, s)
  | Ok _ =>
      if (limit =? 0) || negb (is_ok (window_secs window)) then (Err InvalidKey, s)
      else if bool_decide (rates s !! key = None) && (MAX_KEYS <=? total_keys s)
      then (Err StoreCapacity, s)
      else
        let now := started_at t in
        let b := default (now, 0) (rates s !! key) in
        let b := if window <=? now - b.1 then (now, 0) else b in
        if limit <=? b.2
        then (Ok (mkDecision false 0), mkEphemeral (<[key := b]> (rates s)) (fingerprints s) (denies s))
        else (Ok (mkDecision true (limit - (b.2 + 1))),
              mkEphemeral (<[key := (b.1, b.2 + 1)]> (rates s)) (fingerprints s) (denies s))
  end.

Definition ephemeral_increment_fingerprint (t : Readings) (key : FingerprintCounterKey) (window : N)
    : ST InMemoryEphemeralStore EphemeralErrorCode N := λ s,
  match validate_fingerprint_key key ≫= λ _, window_secs window with
  | Err e => (Err e, s)
  | Ok _ =>
      if bool_decide (fingerprints s !! key = None) && (MAX_KEYS <=? total_keys s)
      then (Err StoreCapacity, s)
      else
        let now := started_at t in
        let b := default (now, 0) (fingerprints s !! key) in
        let b := if window <=? now - b.1 then (now, 0) else b in
        let count := sat_add64 b.2 1 in
        (Ok count, mkEphemeral (rates s) (<[key := (b.1, count)]> (fingerprints s)) (denies s))
  end.

Definition ephemeral_fingerprint_count (t : Readings) (key : FingerprintCounterKey)
    : ST InMemoryEphemeralStore EphemeralErrorCode N := λ s,
  (_ ← validate_fingerprint_key key; Ok (from_option snd 0 (fingerprints s !! key)), s).

Definition ephemeral_set_deny_hint (t : Readings) (key : DenyHintKey) (ttl : N)
    : ST InMemoryEphemeralStore EphemeralErrorCode unit := λ s,
  match validate_deny_key key ≫= λ _, window_secs ttl with
  | Err e => (Err e, s)
  | Ok secs =>
      if bool_decide (denies s !! key = None) && (MAX_KEYS <=? total_keys s)
      then (Err StoreCapacity, s)
      else (Ok tt, mkEphemeral (rates s) (fingerprints s)
                     (<[key := started_at t + from_secs secs]> (denies s)))
  end.

Definition ephemeral_is_denied (t : Readings) (key : DenyHintKey)
    : ST InMemoryEphemeralStore EphemeralErrorCode bool := λ s,
  (_ ← validate_deny_key key;
   Ok (from_option (λ expires_at, started_at t <? expires_at) false (denies s !! key)), s).

#[global] Instance ephemeral_store : EphemeralStore InMemoryEphemeralStore := {
  accelerator_sidelined _ _ := false;
  check_rate_limit := ephemeral_check_rate_limit;
  increment_fingerprint := ephemeral_increment_fingerprint;
  fingerprint_count := ephemeral_fingerprint_count;
  set_deny_hint := ephemeral_set_deny_hint;
  is_denied := ephemeral_is_denied;
}.

(** ** The circuit breaker *)

Definition INITIAL_COOLDOWN : N := from_secs 1.
Definition MAX_COOLDOWN : N := from_secs 30.

Record Breaker := mkBreaker {
  open_until : option N;
  cooldown : N;
  initial_cooldown : N;
  max_cooldown : N;
}.

Definition breaker_new (initial max : N) : Breaker := mkBreaker None initial initial max.
Definition is_open (now : N) (b : Breaker) : bool :=
  from_option (λ til, now <? til) false (open_until b).

(** [trip]; [saturating_mul] saturates above any [max_cooldown]. *)
Definition trip (now : N) (b : Breaker) : Breaker :=
  mkBreaker (Some (now + cooldown b)) (N.min (2 * cooldown b) (max_cooldown b))
    (initial_cooldown b) (max_cooldown b).
Definition reset (b : Breaker) : Breaker :=
  if bool_decide (is_Some (open_until b)) || negb (cooldown b =? initial_cooldown b)
  then mkBreaker None (initial_cooldown b) (initial_cooldown b) (max_cooldown b) else b.

Record FallbackEphemeralStore (P F : Type) := mkFallback {
  primary : P;
  fallback : F;
  breaker : Breaker;
}.
Arguments mkFallback {P F} _ _ _.
Arguments primary {P F} _.
Arguments fallback {P F} _.
Arguments breaker {P F} _.

Definition fallback_new {P F} (p : P) (f : F) : FallbackEphemeralStore P F :=
  mkFallback p f (breaker_new INITIAL_COOLDOWN MAX_COOLDOWN).

(** [route]: the breaker trips after the primary's failure, and the fallback
    runs then. *)
Definition route {P F A} (t : Readings)
    (on_primary : Readings → ST P EphemeralErrorCode A)
    (on_fallback : Readings → ST F EphemeralErrorCode A)
    : ST (FallbackEphemeralStore P F) EphemeralErrorCode A := λ s,
  if is_open (started_at t) (breaker s)
  then let '(r, f) := on_fallback t (fallback s) in (r, mkFallback (primary s) f (breaker s))
  else
    match on_primary t (primary s) with
    | (Ok v, p) => (Ok v, mkFallback p (fallback s) (reset (breaker s)))
    | (Err Unavailable, p) =>
        let '(r, f) := on_fallback (mkReadings (done_at t) (done_at t)) (fallback s) in
        (r, mkFallback p f (trip (done_at t) (breaker s)))
    | (Err e, p) => (Err e, mkFallback p (fallback s) (breaker s))
    end.

#[global] Instance fallback_store {P F} `{EphemeralStore P, EphemeralStore F}
    : EphemeralStore (FallbackEphemeralStore P F) := {
  accelerator_sidelined now s := is_open now (breaker s);
  check_rate_limit t key limit window :=
    route t (λ t, check_rate_limit t key limit window) (λ t, check_rate_limit t key limit window);
  increment_fingerprint t key window :=
    route t (λ t, increment_fingerprint t key window) (λ t, increment_fingerprint t key window);
  fingerprint_count t key := route t (λ t, fingerprint_count t key) (λ t, fingerprint_count t key);
  set_deny_hint t key ttl := route t (λ t, set_deny_hint t key ttl) (λ t, set_deny_hint t key ttl);
  is_denied t key := route t (λ t, is_denied t key) (λ t, is_denied t key);
}.

(** ** Runs of a store *)

Inductive EphemeralOp :=
  | OpCheck (key : RateLimitKey) (limit window : N)
  | OpIncrement (key : FingerprintCounterKey) (window : N)
  | OpCount (key : FingerprintCounterKey)
  | OpSetDeny (key : DenyHintKey) (ttl : N)
  | OpIsDenied (key : DenyHintKey).

Inductive EphemeralAnswer :=
  | Decision (d : RateLimitDecision) | Count (n : N) | Hinted | Denied (b : bool).

Definition answer {S A} (wrap : A → EphemeralAnswer) (m : ST S EphemeralErrorCode A)
    : ST S EphemeralErrorCode EphemeralAnswer := λ s, let '(r, s') := m s in (wrap <$> r, s').

Definition ephemeral_step {S} `{EphemeralStore S} (t : Readings) (op : EphemeralOp)
    : ST S EphemeralErrorCode EphemeralAnswer :=
  match op with
  | OpCheck key limit window => answer Decision (check_rate_limit t key limit window)
  | OpIncrement key window => answer Count (increment_fingerprint t key window)
  | OpCount key => answer Count (fingerprint_count t key)
  | OpSetDeny key ttl => answer (λ _, Hinted) (set_deny_hint t key ttl)
  | OpIsDenied key => answer Denied (is_denied t key)
  end.

Fixpoint ephemeral_run {S} `{EphemeralStore S} (calls : list (Readings * EphemeralOp)) (s : S)
    : list (result EphemeralErrorCode EphemeralAnswer) * S :=
  match calls with
  | [] => ([], s)
  | (t, op) :: calls =>
      let '(r, s1) := ephemeral_step t op s in
      let '(rs, s2) := ephemeral_run calls s1 in
      (r :: rs, s2)
  end.

(** ** Rate limits *)

(** Whether a call asks about [key] and was let through. *)
Definition let_through (key : RateLimitKey) (op : EphemeralOp)
    (r : result EphemeralErrorCode EphemeralAnswer) : bool :=
  match op, r with
  | OpCheck k _ _, Ok (Decision d) => bool_decide (k = key) && allowed d
  | _, _ => false
  end.

Fixpoint let_through_count (key : RateLimitKey) (calls : list (Readings * EphemeralOp))
    (rs : list (result EphemeralErrorCode EphemeralAnswer)) : N :=
  match calls, rs with
  | (_, op) :: calls, r :: rs =>
      (if let_through key op r then 1 else 0) + let_through_count key calls rs
  | _, _ => 0
  end.

(** Every question about [key] is asked with this limit and this window, at an
    instant of the window that starts at [t0]. *)
Definition asks_within (key : RateLimitKey) (limit window t0 : N)
    (call : Readings * EphemeralOp) : Prop :=
  match call.2 with
  | OpCheck k l w =>
      k = key → l = limit ∧ w = window ∧ t0 ≤ started_at call.1 ∧ started_at call.1 < t0 + window
  | _ => True
  end.

(** The buckets count by fixed windows, and one key's bucket is its own. *)
Lemma check_rate_limit_spare (t : Readings) (key : RateLimitKey) (limit window t0 : N)
    (s : InMemoryEphemeralStore) :
  t0 ≤ started_at t → started_at t < t0 + window →
  let '(r, s') := ephemeral_check_rate_limit t key limit window s in
  window_spare limit t0 (rates s' !! key)
  + (if let_through key (OpCheck key limit window) (Decision <$> r) then 1 else 0)
  ≤ window_spare limit t0 (rates s !! key).
Proof.
  intros Hge Hlt. unfold ephemeral_check_rate_limit.
  destruct (validate_rate_key key); [|simpl; lia]. destruct (_ || _); [simpl; lia|].
  destruct (_ && _); [simpl; lia|].
  pose proof (window_hit_spare window limit t0 (started_at t) (started_at t) (rates s !! key))
    as Hhit. unfold window_hit, window_refresh in Hhit.
  set (b := if window <=? _ then _ else _) in *.
  destruct (limit <=? b.2) eqn:Hl; simpl; rewrite lookup_insert_eq, bool_decide_true by done;
    apply Hhit; unfold in_window; lia.
Qed.

Lemma check_rate_limit_other (t : Readings) (k key : RateLimitKey) (limit window : N)
    (s : InMemoryEphemeralStore) :
  k ≠ key → rates (ephemeral_check_rate_limit t k limit window s).2 !! key = rates s !! key.
Proof.
  intros Hne. unfold ephemeral_check_rate_limit.
  repeat case_match; simpl; rewrite ?lookup_insert_ne by done; done.
Qed.

Lemma other_ops_rates (t : Readings) (op : EphemeralOp) (s : InMemoryEphemeralStore) :
  match op with OpCheck _ _ _ => True | _ => rates (ephemeral_step t op s).2 = rates s end.
Proof.
  destruct op; simpl; [done|..]; unfold answer; simpl;
    unfold ephemeral_increment_fingerprint, ephemeral_set_deny_hint,
      ephemeral_fingerprint_count, ephemeral_is_denied;
    repeat case_match; simplify_eq/=; done.
Qed.

Lemma ephemeral_run_spare (key : RateLimitKey) (limit window t0 : N)
    (calls : list (Readings * EphemeralOp)) (s : InMemoryEphemeralStore) :
  Forall (asks_within key limit window t0) calls →
  let_through_count key calls (ephemeral_run calls s).1 ≤ window_spare limit t0 (rates s !! key).
Proof.
  intros HF. revert s. induction HF as [|[t op] calls Hin _ IH]; intros s; [simpl; lia|].
  cbn [ephemeral_run]. pose proof (other_ops_rates t op s) as Hother.
  destruct (ephemeral_step t op s) as [r s1] eqn:Hstep. specialize (IH s1).
  destruct (ephemeral_run calls s1) as [rs s2]. cbn [fst let_through_count] in *.
  enough (window_spare limit t0 (rates s1 !! key) + (if let_through key op r then 1 else 0)
          ≤ window_spare limit t0 (rates s !! key)) by lia.
  destruct op as [k l w| | | | ]; cbn [snd] in Hother; try (rewrite Hother; simpl; lia).
  destruct (decide (k = key)) as [->|Hne].
  - specialize (Hin eq_refl) as (-> & -> & Hge & Hlt).
    pose proof (check_rate_limit_spare t key limit window t0 s Hge Hlt) as Hspare.
    cbn in Hstep. unfold answer in Hstep.
    destruct (ephemeral_check_rate_limit t key limit window s) as [r0 s0]. by simplify_eq.
  - pose proof (check_rate_limit_other t k key l w s Hne) as Heq.
    cbn in Hstep. unfold answer in Hstep.
    destruct (ephemeral_check_rate_limit t k l w s) as [r0 s0]. simplify_eq/=. rewrite Heq.
    destruct r0; simpl; [rewrite bool_decide_false by done; simpl|]; lia.
Qed.

(** The shared ceiling holds.  However calls about different keys are
    interleaved, the questions asked about one key within one window are let
    through at most [limit] times when the key is new, and at most twice
    [limit] times when an earlier window is still running. *)
Theorem rate_limit_bounded (key : RateLimitKey) (limit window t0 : N)
    (calls : list (Readings * EphemeralOp)) (s : InMemoryEphemeralStore) :
  Forall (asks_within key limit window t0) calls →
  let_through_count key calls (ephemeral_run calls s).1 ≤ 2 * limit
  ∧ (rates s !! key = None → let_through_count key calls (ephemeral_run calls s).1 ≤ limit).
Proof.
  intros HF. pose proof (ephemeral_run_spare key limit window t0 calls s HF) as Hrun.
  pose proof (window_spare_bound limit t0 (rates s !! key)). split; [lia|].
  intros Hnone. by rewrite Hnone in Hrun.
Qed.

(** ** Remote keys *)

Lemma colon_separated (a b c d : string) :
  no_char ":" a = true → no_char ":" c = true → a +:+ ":" +:+ b = c +:+ ":" +:+ d → a = c ∧ b = d.
Proof.
  intros Ha Hc H. pose proof (split_once_first ":" EmptyString a b Ha) as H1.
  rewrite H, (split_once_first ":" EmptyString c d Hc) in H1. by simplify_eq.
Qed.

Lemma redis_key_inj (k1 k2 a1 a2 b1 b2 : string) :
  no_char ":" k1 = true → no_char ":" k2 = true →
  redis_key k1 a1 b1 = redis_key k2 a2 b2 → k1 = k2 ∧ a1 = a2 ∧ b1 = b2.
Proof.
  intros H1 H2 H. unfold redis_key in H.
  apply (inj (String.append KEY_PREFIX)) in H. apply (inj (String.append ":")) in H.
  apply colon_separated in H as [-> H]; [|done..].
  apply colon_separated in H as [Ha Hb]; [|apply hex_string_no_colon..].
  by apply hex_string_inj in Ha as ->, Hb as ->.
Qed.

(** Tenants never share a remote counter.  Distinct keys have distinct
    names in the remote store, whatever bytes their components hold, and the
    names of rate limits, fingerprint counters and deny hints never coincide. *)
Theorem remote_keys_distinct :
  (∀ k1 k2, rate_limit_redis_key k1 = rate_limit_redis_key k2 → k1 = k2)
  ∧ (∀ k1 k2, fingerprint_redis_key k1 = fingerprint_redis_key k2 → k1 = k2)
  ∧ (∀ k1 k2, deny_hint_redis_key k1 = deny_hint_redis_key k2 → k1 = k2)
  ∧ (∀ k1 k2, rate_limit_redis_key k1 ≠ fingerprint_redis_key k2)
  ∧ (∀ k1 k2, rate_limit_redis_key k1 ≠ deny_hint_redis_key k2)
  ∧ (∀ k1 k2, fingerprint_redis_key k1 ≠ deny_hint_redis_key k2).
Proof.
  split_and!; intros [] [] H; apply redis_key_inj in H as (H & Ha & Hb); try done; simpl in *;
    by simplify_eq.
Qed.

(** ** Outages *)

(** The store answers nothing but [Unavailable]. *)
Definition unreachable (P : Type) `{EphemeralStore P} : Prop :=
  ∀ t op (p : P), (ephemeral_step t op p).1 = Err Unavailable.

(** The calls of a run that reach for the primary. *)
Fixpoint probes {P F} `{EphemeralStore P, EphemeralStore F} (calls : list (Readings * EphemeralOp))
    (s : FallbackEphemeralStore P F) : N :=
  match calls with
  | [] => 0
  | (t, op) :: calls =>
      (if is_open (started_at t) (breaker s) then 0 else 1)
      + probes calls (ephemeral_step t op s).2
  end.

(** How much less than [MAX_COOLDOWN] each the next [n] cool-downs last. *)
Fixpoint ramp (n : nat) (c : N) : N :=
  match n with
  | O => 0
  | S n => (MAX_COOLDOWN - c) + ramp n (N.min (2 * c) MAX_COOLDOWN)
  end.

(** Once the cool-down has reached the ceiling it stays there. *)
Lemma ramp_top (n : nat) (c : N) :
  c ≤ MAX_COOLDOWN → MAX_COOLDOWN ≤ 2 ^ N.of_nat n * c → ramp (S n) c = ramp n c.
Proof.
  revert c. induction n as [|n IH]; intros c Hc H.
  - simpl in *. lia.
  - cbn [ramp]. f_equal. apply IH; [lia|].
    rewrite Nat2N.inj_succ, N.pow_succ_r' in H.
    destruct (N.min_spec (2 * c) MAX_COOLDOWN) as [[_ ->]|[_ ->]]; [lia|].
    pose proof (N.pow_nonzero 2 (N.of_nat n) ltac:(done)). nia.
Qed.

Lemma ramp_double (c : N) :
  INITIAL_COOLDOWN ≤ c ≤ MAX_COOLDOWN →
  ramp 5 c = (MAX_COOLDOWN - c) + ramp 5 (N.min (2 * c) MAX_COOLDOWN).
Proof.
  intros Hc. rewrite (ramp_top 4 (N.min _ _)); [done|lia|].
  change (2 ^ N.of_nat 4) with 16. unfold INITIAL_COOLDOWN, MAX_COOLDOWN, from_secs in *. lia.
Qed.

Lemma answer_state {S A} (wrap : A → EphemeralAnswer) (m : ST S EphemeralErrorCode A) (s : S) :
  (answer wrap m s).2 = (m s).2.
Proof. unfold answer. by destruct (m s). Qed.

Lemma answer_error {S A} (wrap : A → EphemeralAnswer) (m : ST S EphemeralErrorCode A) (s : S)
    (e : EphemeralErrorCode) :
  (answer wrap m s).1 = Err e → (m s).1 = Err e.
Proof. unfold answer. destruct (m s) as [[v|e'] s']; [done|]. simpl. by intros [= ->]. Qed.

Lemma route_outage {P F A} (t : Readings) (f : Readings → ST P EphemeralErrorCode A)
    (g : Readings → ST F EphemeralErrorCode A) (s : FallbackEphemeralStore P F) :
  (f t (primary s)).1 = Err Unavailable →
  breaker (route t f g s).2
  = if is_open (started_at t) (breaker s) then breaker s else trip (done_at t) (breaker s).
Proof.
  intros H. unfold route. destruct (is_open _ _); [by destruct (g t (fallback s))|].
  destruct (f t (primary s)) as [[v|e] p]; [done|]. simpl in H. simplify_eq.
  by destruct (g _ (fallback s)).
Qed.

(** A step on an unreachable primary: skipped, or one more failure. *)
Lemma outage_step {P F} `{EphemeralStore P, EphemeralStore F} (t : Readings) (op : EphemeralOp)
    (s : FallbackEphemeralStore P F) :
  unreachable P →
  breaker (ephemeral_step t op s).2
  = if is_open (started_at t) (breaker s) then breaker s else trip (done_at t) (breaker s).
Proof.
  intros Hdown. pose proof (Hdown t op (primary s)) as Hp.
  destruct op; unfold ephemeral_step in *; apply answer_error in Hp; rewrite answer_state;
    by apply route_outage.
Qed.

(** The calls happen from [t0] on and start before [t1]. *)
Definition between (t0 t1 : N) (call : Readings * EphemeralOp) : Prop :=
  t0 ≤ started_at call.1 ∧ started_at call.1 < t1 ∧ started_at call.1 ≤ done_at call.1.

(** A breaker of the default configuration. *)
Definition default_breaker (b : Breaker) : Prop :=
  max_cooldown b = MAX_COOLDOWN ∧ INITIAL_COOLDOWN ≤ cooldown b ∧ cooldown b ≤ MAX_COOLDOWN.

Lemma outage_probes_from {P F} `{EphemeralStore P, EphemeralStore F}
    (calls : list (Readings * EphemeralOp)) (s : FallbackEphemeralStore P F) (t0 t1 : N) :
  unreachable P → default_breaker (breaker s) → Forall (between t0 t1) calls →
  let next := N.max t0 (default 0 (open_until (breaker s))) in
  MAX_COOLDOWN * probes calls s
  ≤ if t1 <=? next then 0 else (t1 - next) + MAX_COOLDOWN + ramp 5 (cooldown (breaker s)).
Proof.
  intros Hdown Hb HF. revert s Hb. induction HF as [|[t op] calls Hin HF IH]; intros s Hb next.
  { simpl. lia. }
  cbn [probes]. specialize (IH (ephemeral_step t op s).2).
  rewrite (outage_step t op s Hdown) in IH. destruct Hin as (Hge & Hlt & Hd). cbn [fst] in *.
  destruct (is_open (started_at t) (breaker s)) eqn:Ho; [by specialize (IH Hb)|].
  destruct Hb as (Hm & Hi & Hc). unfold trip in IH. cbn [open_until cooldown max_cooldown] in IH.
  rewrite Hm in IH.
  assert (next ≤ started_at t) as Hnext.
  { subst next. unfold is_open in Ho. destruct (open_until (breaker s)) as [u|]; simpl in *;
      [apply N.ltb_ge in Ho|]; lia. }
  assert (default_breaker
            (mkBreaker (Some (done_at t + cooldown (breaker s)))
               (N.min (2 * cooldown (breaker s)) MAX_COOLDOWN) (initial_cooldown (breaker s))
               MAX_COOLDOWN)) as Hb'.
  { split_and!; [done|simpl..]; unfold INITIAL_COOLDOWN, MAX_COOLDOWN, from_secs in *; lia. }
  specialize (IH Hb'). cbn [open_until default] in IH. unfold from_option, id in IH.
  rewrite (ramp_double (cooldown (breaker s)) (conj Hi Hc)).
  destruct (N.leb_spec t1 next); [lia|].
  set (n := probes calls _) in *. set (r := ramp 5 _) in *. clearbody n r.
  destruct (N.leb_spec t1 (N.max t0 (done_at t + cooldown (breaker s)))); lia.
Qed.

(** An outage of the accelerator costs few probes.  While the remote store
    answers nothing, the breaker lets through at most one probe per cool-down
    ceiling of the outage, plus the handful of the first minute: thirty seconds
    of outage pay for each probe beyond the first five. *)
Theorem outage_probes {P F} `{EphemeralStore P, EphemeralStore F} (p : P) (f : F)
    (calls : list (Readings * EphemeralOp)) (t0 t1 : N) :
  unreachable P → Forall (between t0 t1) calls →
  MAX_COOLDOWN * probes calls (fallback_new p f) ≤ (t1 - t0) + 5 * MAX_COOLDOWN.
Proof.
  intros Hdown HF.
  pose proof (outage_probes_from calls (fallback_new p f) t0 t1 Hdown) as Hrun.
  assert (default_breaker (breaker (fallback_new p f))) as Hb by done. specialize (Hrun Hb HF).
  cbn [fallback_new breaker breaker_new open_until default cooldown] in Hrun.
  change (ramp 5 INITIAL_COOLDOWN) with (from_secs 119) in Hrun.
  unfold from_option, id in Hrun.
  destruct (N.leb_spec t1 (N.max t0 0)); unfold MAX_COOLDOWN, from_secs in *; lia.
Qed.

(** ** Concrete runs *)

Section demo.
Definition demo_rate_key : RateLimitKey := mkRateKey "apex.control.admission" "op-a".

(** Three questions under a ceiling of two, in one second. *)
Definition demo_calls : list (Readings * EphemeralOp) :=
  (λ n, (mkReadings n n, OpCheck demo_rate_key 2 (from_secs 1))) <$> [10; 20; 30].

Lemma rate_limit_bounded_witness :
  let_through_count demo_rate_key demo_calls (ephemeral_run demo_calls ephemeral_new).1 ≤ 2 * 2
  ∧ (rates ephemeral_new !! demo_rate_key = None →
     let_through_count demo_rate_key demo_calls (ephemeral_run demo_calls ephemeral_new).1 ≤ 2).
Proof.
  apply (rate_limit_bounded demo_rate_key 2 (from_secs 1) 10 demo_calls ephemeral_new).
  repeat constructor; cbn; lia.
Defined.

(** A remote store that is down. *)
Local Instance down_store : EphemeralStore unit := {
  accelerator_sidelined _ _ := false;
  check_rate_limit _ _ _ _ := st_throw Unavailable;
  increment_fingerprint _ _ _ := st_throw Unavailable;
  fingerprint_count _ _ := st_throw Unavailable;
  set_deny_hint _ _ _ := st_throw Unavailable;
  is_denied _ _ := st_throw Unavailable;
}.

Lemma outage_probes_witness :
  MAX_COOLDOWN * probes demo_calls (fallback_new tt ephemeral_new) ≤ (40 - 10) + 5 * MAX_COOLDOWN.
Proof.
  apply (outage_probes tt ephemeral_new demo_calls 10 40).
  - intros t op p. by destruct op.
  - repeat constructor; cbn; lia.
Defined.
End demo.
