(* ===== verification/OperatorAuth.v ===== *)
(** * Operator authentication

    [apps/control-plane-api/src/auth.rs]: operator identities and their scopes,
    the static token table, the bearer header, and the per-token failure
    budget.  SHA-256 and the header decoding of the HTTP library are
    parameters; the clock's readings are arguments. *)
From Stdlib Require Import Ascii.
From S2P Require Import Prelude RustStr Digits Errors.

Open Scope N_scope.

(** ** Identities *)

Definition MAX_SUBJECT_BYTES : N := 256.
Definition MAX_ALLOWED_SCOPES : N := 256.

Inductive OperatorScopes :=
  | Global
  | Scoped (scopes : gset string).

Record OperatorCaller := mkOperator {
  subject : string;
  allowed_scopes : OperatorScopes;
}.

Definition is_valid_subject (subject : string) : bool :=
  (str_len subject <=? MAX_SUBJECT_BYTES) && is_identifier subject.

(** [OperatorCaller::global]. *)
Definition operator_global (subject : string) : result CommandError OperatorCaller :=
  if negb (is_valid_subject subject) then Err invalid_authorization
  else Ok (mkOperator subject Global).

(** The loop of [OperatorCaller::scoped]. *)
Fixpoint add_scopes (scopes : gset string) (raw : list string) : result CommandError (gset string) :=
  match raw with
  | [] => Ok scopes
  | scope :: raw =>
      match split_once "/" scope with
      | None => Err invalid_authorization
      | Some (workspace, namespace) =>
          if negb (is_identifier workspace) || negb (is_identifier namespace)
          then Err invalid_authorization
          else if bool_decide (scope ∉ scopes) && (MAX_ALLOWED_SCOPES <=? N.of_nat (size scopes))
          then Err invalid_authorization
          else add_scopes ({[scope]} ∪ scopes) raw
      end
  end.

(** [OperatorCaller::scoped]. *)
Definition operator_scoped (subject : string) (allowed_scopes : list string)
    : result CommandError OperatorCaller :=
  if negb (is_valid_subject subject) then Err invalid_authorization
  else scopes ← add_scopes ∅ allowed_scopes; Ok (mkOperator subject (Scoped scopes)).

(** [OperatorCaller::allows_scope]. *)
Definition allows_scope (c : OperatorCaller) (workspace_id namespace_id : string) : bool :=
  if negb (is_identifier workspace_id) || negb (is_identifier namespace_id) then false
  else match allowed_scopes c with
       | Global => true
       | Scoped scopes => bool_decide (workspace_id +:+ "/" +:+ namespace_id ∈ scopes)
       end.

(** [ExactScope]: workspace and namespace. *)
Abbreviation ExactScope := (string * string)%type.

(** The order [scope_choices] sorts by. *)
Definition scope_leb (a b : ExactScope) : bool :=
  if String.eqb a.1 b.1 then String.leb a.2 b.2 else String.leb a.1 b.1.

Fixpoint scope_insert (s : ExactScope) (l : list ExactScope) : list ExactScope :=
  match l with
  | [] => [s]
  | s' :: l' => if scope_leb s s' then s :: l else s' :: scope_insert s l'
  end.
Definition scope_sort (l : list ExactScope) : list ExactScope := foldr scope_insert [] l.

(** [dedup_by]: drops an element equal to the one before it. *)
Fixpoint scope_dedup (l : list ExactScope) : list ExactScope :=
  match l with
  | a :: (b :: _) as rest => if bool_decide (a = b) then scope_dedup rest else a :: scope_dedup rest
  | _ => l
  end.

(** [OperatorCaller::scope_choices]. *)
Definition scope_choices (c : OperatorCaller) (global_catalog : list ExactScope)
    : result CommandError (list ExactScope) :=
  if (MAX_ALLOWED_SCOPES <? len global_catalog)
     || existsb (λ s, negb (is_identifier s.1) || negb (is_identifier s.2)) global_catalog
  then Err invalid_authorization
  else
    choices ← match allowed_scopes c with
              | Global => Ok global_catalog
              | Scoped scopes =>
                  ok_or (mapM (split_once "/") (elements scopes)) invalid_authorization
              end;
    Ok (scope_dedup (scope_sort choices)).

(** ** Bearer tokens *)

(** The HTTP library's [to_str] on a header value, and SHA-256. *)
Class AuthDeps := {
  header_to_str : string → option string;
  sha256_digest : string → string;
}.

(** [extract_bearer_token], on the values of the [authorization] header. *)
Definition extract_bearer_token `{AuthDeps} (values : list string) : result CommandError string :=
  match values with
  | [] => Err unauthenticated
  | _ :: _ :: _ => Err invalid_authorization
  | [value] =>
      value ← ok_or (header_to_str value) invalid_authorization;
      if negb (str_all is_ascii value) then Err invalid_authorization
      else
        token ← ok_or (strip_prefix "Bearer " value) invalid_authorization;
        if str_is_empty token || (4096 <? str_len token) || str_has_whitespace token
        then Err invalid_authorization
        else Ok token
  end.

(** ** The static token table *)

(** [StaticOperatorTokenResolver], keyed by digest. *)
Abbreviation TokenTable := (gmap string OperatorCaller).

Definition with_token `{AuthDeps} (token : string) (caller : OperatorCaller) (t : TokenTable)
    : TokenTable := <[sha256_digest token := caller]> t.

Definition table_resolve `{AuthDeps} (t : TokenTable) (token : string)
    : result CommandError OperatorCaller := ok_or (t !! sha256_digest token) unauthenticated.

Definition MIN_OPERATOR_TOKEN_BYTES : N := 16.
Definition MAX_OPERATOR_TOKEN_BYTES : N := 4096.
Definition MAX_OPERATOR_TOKEN_ENTRIES : N := 256.

(** [OperatorTokenTableError]. *)
Record TableError := mkTableError { te_entry_index : N; te_reason : string }.

(** [format!("operator:static:{entry_index}")]. *)
Definition static_subject (entry_index : N) : string := "operator:static:" +:+ decimal entry_index.

(** The caller an entry's scope side describes. *)
Definition parse_scopes (entry_index : N) (scopes : string) : result TableError OperatorCaller :=
  let fail reason := mkTableError entry_index reason in
  let invalid := fail "invalid scope; expected '*' or workspace/namespace" in
  let scopes := trim scopes in
  if String.eqb scopes "*" then map_err (λ _, invalid) (operator_global (static_subject entry_index))
  else
    let parsed := filter (λ s, str_is_empty s = false) (map trim (split "," scopes)) in
    match parsed with
    | [] => Err (fail "no scopes listed; use '*' for a global operator")
    | _ => map_err (λ _, invalid) (operator_scoped (static_subject entry_index) parsed)
    end.

(** One iteration of the loop of [parse_operator_token_table]. *)
Definition parse_entry `{AuthDeps} (entry_index : N) (entry : string)
    : result TableError (string * OperatorCaller) :=
  let fail reason := mkTableError entry_index reason in
  if MAX_OPERATOR_TOKEN_ENTRIES <=? entry_index then Err (fail "too many operator token entries")
  else
    match rsplit_once "|" entry with
    | None =>
        Err (fail "expected token|scopes (use '|', not ':', between the token and its scopes)")
    | Some (token, scopes) =>
        if str_len token <? MIN_OPERATOR_TOKEN_BYTES
        then Err (fail "operator token is shorter than 16 bytes")
        else if MAX_OPERATOR_TOKEN_BYTES <? str_len token
        then Err (fail "operator token is longer than 4096 bytes")
        else if negb (str_all is_ascii_graphic token)
        then Err (fail "operator token must be printable ASCII with no whitespace")
        else caller ← parse_scopes entry_index scopes; Ok (token, caller)
    end.

Fixpoint parse_entries `{AuthDeps} (entry_index : N) (seen : gset string) (table : TokenTable)
    (entries : list string) : result TableError TokenTable :=
  match entries with
  | [] => Ok table
  | entry :: entries =>
      '(token, caller) ← parse_entry entry_index entry;
      let digest := sha256_digest token in
      if bool_decide (digest ∈ seen)
      then Err (mkTableError entry_index "duplicate operator token")
      else parse_entries (entry_index + 1) ({[digest]} ∪ seen) (with_token token caller table) entries
  end.

(** [parse_operator_token_table]. *)
Definition parse_operator_token_table `{AuthDeps} (raw : string) : result TableError TokenTable :=
  parse_entries 0 ∅ ∅ (filter (λ s, str_is_empty s = false) (map trim (split ";" raw))).

(** ** The failure budget *)

Definition AUTH_FAILURES_PER_WINDOW : N := 20.
Definition AUTH_WINDOW : N := from_secs 1.
Definition MAX_TRACKED_IDENTITIES : N := 4096.

Record FailureBucket := mkBucket { window_started : N; failures : N }.

(** [OperatorTokenAuthenticator]'s state; the resolver is an argument. *)
Abbreviation FailureMap := (gmap string FailureBucket).

(** Restarts a bucket whose window is over. *)
Definition refresh (now later : N) (b : FailureBucket) : FailureBucket :=
  if AUTH_WINDOW <=? later - window_started b then mkBucket now 0 else b.

(** [check_and_record_attempt]; [now] and [later] are its two readings of the
    clock. *)
Definition check_and_record_attempt (digest : string) (now later : N)
    : ST (Mutex FailureMap) CommandError unit :=
  with_mutex internal (λ buckets,
    if bool_decide (buckets !! digest = None) && (MAX_TRACKED_IDENTITIES <=? map_len buckets)
    then (Err rate_limited, buckets)
    else
      let bucket := refresh now later (default (mkBucket now 0) (buckets !! digest)) in
      let buckets := <[digest := bucket]> buckets in
      if AUTH_FAILURES_PER_WINDOW <=? failures bucket then (Err rate_limited, buckets)
      else (Ok tt, buckets)).

(** [record_failure]: silent when the lock is poisoned. *)
Definition record_failure (digest : string) (m : Mutex FailureMap) : Mutex FailureMap :=
  if poisoned m then m
  else mkMutex false
         (alter (λ b, mkBucket (window_started b) (sat_add32 (failures b) 1)) digest (guarded m)).

(** [OperatorTokenAuthenticator::authenticate]. *)
Definition authenticate `{AuthDeps} (resolve : string → result CommandError OperatorCaller)
    (values : list string) (now later : N) : ST (Mutex FailureMap) CommandError OperatorCaller := λ m,
  match extract_bearer_token values with
  | Err e => (Err e, m)
  | Ok token =>
      let digest := sha256_digest token in
      match check_and_record_attempt digest now later m with
      | (Err e, m1) => (Err e, m1)
      | (Ok _, m1) =>
          match resolve token with
          | Ok caller => (Ok caller, m1)
          | Err error => (Err error, record_failure digest m1)
          end
      end
  end.

(** ** The service credential of the policy gateway *)

Record GatewayAuthenticator := mkGatewayAuth {
  expected_digest : string;
  gateway_failures : Mutex FailureBucket;
}.

(** [GatewayTokenAuthenticator::new], on a token's text. *)
Definition gateway_auth_new `{AuthDeps} (token : string) (now : N)
    : result CommandError GatewayAuthenticator :=
  if str_is_empty token || (MAX_OPERATOR_TOKEN_BYTES <? str_len token)
  then Err invalid_authorization
  else if (str_len token <? MIN_OPERATOR_TOKEN_BYTES) || str_has_whitespace token
  then Err invalid_authorization
  else Ok (mkGatewayAuth (sha256_digest token) (mutex_new (mkBucket now 0))).

(** [GatewayTokenAuthenticator::authenticate]. *)
Definition gateway_authenticate `{AuthDeps} (values : list string) (now later : N)
    : ST GatewayAuthenticator CommandError unit := λ g,
  match extract_bearer_token values with
  | Err _ => (Err governance_unauthenticated, g)
  | Ok token =>
      if String.eqb (sha256_digest token) (expected_digest g) then (Ok tt, g)
      else
        let '(r, m) :=
          with_mutex internal (λ b,
            let b := refresh now later b in
            if AUTH_FAILURES_PER_WINDOW <=? failures b then (Err rate_limited, b)
            else (Err governance_unauthenticated,
                  mkBucket (window_started b) (sat_add32 (failures b) 1)))
            (gateway_failures g) in
        (r, mkGatewayAuth (expected_digest g) m)
  end.

(** ** Identities: lemmas *)

Lemma split_once_join (pat s a b : string) : split_once pat s = Some (a, b) → s = a +:+ pat +:+ b.
Proof.
  revert a. induction s as [|c s IH]; intros a H; simpl in H.
  - destruct (strip_prefix pat EmptyString) as [r|] eqn:Hp; [|done].
    apply strip_prefix_Some in Hp. by simplify_eq.
  - destruct (strip_prefix pat (String c s)) as [r|] eqn:Hp.
    + apply strip_prefix_Some in Hp. by simplify_eq.
    + destruct (split_once pat s) as [[a' b']|]; [|done]. simplify_eq/=.
      by rewrite (IH a' eq_refl).
Qed.

Lemma identifier_no_char (c : ascii) (s : string) :
  is_identifier_byte c = false → is_identifier s = true → no_char c s = true.
Proof.
  intros Hc Hs%is_identifier_bytes. unfold no_char. eapply str_all_impl; [|done].
  intros d Hd. unfold ascii_eqb. apply negb_true_iff, bool_decide_eq_false. congruence.
Qed.

Lemma split_scope (ws ns : string) :
  is_identifier ws = true → split_once "/" (ws +:+ "/" +:+ ns) = Some (ws, ns).
Proof. intros Hw. apply split_once_first. by apply identifier_no_char. Qed.

(** A scope a credential may list. *)
Definition valid_scope (scope : string) : Prop :=
  ∃ ws ns, scope = ws +:+ "/" +:+ ns ∧ is_identifier ws = true ∧ is_identifier ns = true.

Lemma add_scopes_spec (S S' : gset string) (raw : list string) :
  add_scopes S raw = Ok S' → S' = S ∪ list_to_set raw ∧ Forall valid_scope raw.
Proof.
  revert S. induction raw as [|scope raw IH]; intros S H; simpl in H.
  - simplify_eq. split; [by rewrite list_to_set_nil, (right_id_L ∅ (∪))|constructor].
  - destruct (split_once "/" scope) as [[ws ns]|] eqn:Hsp; [|done].
    destruct (is_identifier ws) eqn:Hw; [simpl in H|done].
    destruct (is_identifier ns) eqn:Hn; [simpl in H|done].
    destruct (_ && _); [done|]. apply IH in H as [-> HF].
    split; [by rewrite list_to_set_cons, (assoc_L (∪)), (comm_L (∪) S)|].
    constructor; [|done]. exists ws, ns. split_and!; [|done..]. by apply split_once_join.
Qed.

Lemma operator_scoped_spec (subj : string) (raw : list string) (c : OperatorCaller) :
  operator_scoped subj raw = Ok c →
  c = mkOperator subj (Scoped (list_to_set raw)) ∧ Forall valid_scope raw
  ∧ is_valid_subject subj = true.
Proof.
  unfold operator_scoped. destruct (is_valid_subject subj); [|done]. simpl.
  destruct (add_scopes ∅ raw) as [S|] eqn:HS; [|done]. intros [= <-].
  apply add_scopes_spec in HS as [-> HF]. by rewrite (left_id_L ∅ (∪)).
Qed.

Lemma allows_scope_spec (subj ws ns : string) (raw : list string) :
  allows_scope (mkOperator subj (Scoped (list_to_set raw))) ws ns = true
  ↔ is_identifier ws = true ∧ is_identifier ns = true ∧ ws +:+ "/" +:+ ns ∈ raw.
Proof.
  unfold allows_scope. destruct (is_identifier ws), (is_identifier ns); simpl;
    try (split; [done|by intros (? & ? & _)]).
  rewrite bool_decide_eq_true, elem_of_list_to_set. tauto.
Qed.

(** Sorting and deduplicating. *)
Definition scope_le : relation ExactScope := λ a b, scope_leb a b = true.

#[global] Instance scope_le_total : Total scope_le.
Proof.
  intros [a b] [a' b']. unfold scope_le, scope_leb. simpl.
  rewrite (String.eqb_sym a'). destruct (String.eqb_spec a a') as [->|]; apply String.leb_total.
Qed.

Lemma leb_le (a b : string) : String.leb a b = true ↔ String.le a b.
Proof. unfold String.le. by rewrite Is_true_true. Qed.

#[global] Instance scope_le_trans : Transitive scope_le.
Proof.
  intros [a b] [a' b'] [a'' b'']. unfold scope_le, scope_leb. simpl.
  destruct (String.eqb_spec a a'), (String.eqb_spec a' a''), (String.eqb_spec a a''); subst;
    rewrite ?leb_le; intros H1 H2; try congruence; try (by etrans); try done.
  destruct n. by apply (anti_symm String.le).
Qed.

#[global] Instance scope_le_antisymm : AntiSymm (=) scope_le.
Proof.
  intros [a b] [a' b']. unfold scope_le, scope_leb. simpl. rewrite (String.eqb_sym a').
  destruct (String.eqb_spec a a') as [->|Hne]; rewrite !leb_le; intros H1 H2.
  - f_equal. by apply (anti_symm String.le).
  - destruct Hne. by apply (anti_symm String.le).
Qed.

Lemma scope_insert_perm (s : ExactScope) (l : list ExactScope) : scope_insert s l ≡ₚ s :: l.
Proof.
  induction l as [|s' l IH]; simpl; [done|]. destruct (scope_leb s s'); [done|].
  rewrite IH. apply Permutation_swap.
Qed.

Lemma scope_sort_perm (l : list ExactScope) : scope_sort l ≡ₚ l.
Proof. induction l as [|s l IH]; simpl; [done|]. by rewrite scope_insert_perm, IH. Qed.

Lemma scope_sort_sorted (l : list ExactScope) : StronglySorted scope_le (scope_sort l).
Proof.
  induction l as [|s l IH]; simpl; [constructor|]. induction IH as [|s' l' Hs IH Hf]; simpl.
  { repeat constructor. }
  destruct (scope_leb s s') eqn:Hle.
  - constructor; [by constructor|]. constructor; [done|].
    eapply Forall_impl; [done|]. intros x Hx. by trans s'.
  - constructor; [done|]. rewrite scope_insert_perm. constructor; [|done].
    destruct (total scope_le s' s) as [|H]; [done|]. unfold scope_le in H. congruence.
Qed.

Lemma scope_dedup_elem (x : ExactScope) (l : list ExactScope) : x ∈ scope_dedup l ↔ x ∈ l.
Proof.
  induction l as [|a [|b l] IH]; [done..|].
  change (scope_dedup (a :: b :: l)) with
    (if bool_decide (a = b) then scope_dedup (b :: l) else a :: scope_dedup (b :: l)).
  case_bool_decide as Hab.
  - rewrite IH, Hab, !elem_of_cons. tauto.
  - rewrite elem_of_cons, IH, !elem_of_cons. tauto.
Qed.

Lemma scope_dedup_nodup (l : list ExactScope) : StronglySorted scope_le l → NoDup (scope_dedup l).
Proof.
  induction 1 as [|a l Hs IH Ha]; [constructor|]. destruct l as [|b l]; [apply NoDup_singleton|].
  change (scope_dedup (a :: b :: l)) with
    (if bool_decide (a = b) then scope_dedup (b :: l) else a :: scope_dedup (b :: l)).
  case_bool_decide as Hab; [done|]. constructor; [|done]. rewrite scope_dedup_elem.
  intros Hin. apply StronglySorted_inv in Hs as [_ Hb].
  apply elem_of_cons in Hin as [?|Hin]; [done|]. rewrite Forall_forall in Hb.
  apply Hab, (anti_symm scope_le); [by inversion Ha|by apply Hb].
Qed.

Lemma mapM_split_scopes (l : list string) :
  Forall valid_scope l →
  ∃ cs, mapM (split_once "/") l = Some cs
    ∧ ∀ ws ns, is_identifier ws = true → (ws, ns) ∈ cs ↔ ws +:+ "/" +:+ ns ∈ l.
Proof.
  induction 1 as [|s l (w & n & -> & Hw & Hn) _ (cs & Hcs & IH)].
  - exists []. split; [done|]. intros. by rewrite !elem_of_nil.
  - exists ((w, n) :: cs). simpl. rewrite split_scope, Hcs by done. split; [done|].
    intros ws ns Hws. rewrite !elem_of_cons, (IH ws ns Hws). split; intros [H|H]; [|by right| |by right].
    + left. congruence.
    + left. assert (Some (ws, ns) = Some (w, n)) as E; [|by injection E as -> ->].
      rewrite <-(split_scope ws ns Hws), <-(split_scope w n Hw). by f_equal.
Qed.

(** The scopes offered to an operator are the scopes the operator may act
    in.  For a credential built from a list of scopes, the choices it is shown
    are exactly the workspace and namespace pairs [allows_scope] accepts, each
    once, whatever the deployment's catalog. *)
Theorem scope_choices_exact (subj : string) (raw : list string) (c : OperatorCaller)
  (catalog choices : list ExactScope) :
  operator_scoped subj raw = Ok c → scope_choices c catalog = Ok choices →
  NoDup choices
  ∧ ∀ ws ns, is_identifier ws = true → is_identifier ns = true →
      (ws, ns) ∈ choices ↔ allows_scope c ws ns = true.
Proof.
  intros (-> & HF & _)%operator_scoped_spec Hc. unfold scope_choices in Hc. simpl in Hc.
  destruct (_ || _) in Hc; [done|].
  destruct (mapM_split_scopes (elements (list_to_set raw : gset string))) as (cs & Hcs & Hin).
  { rewrite Forall_forall in *. intros s Hs. apply HF. by rewrite elem_of_elements,
      elem_of_list_to_set in Hs. }
  rewrite Hcs in Hc. simpl in Hc. injection Hc as <-.
  split; [apply scope_dedup_nodup, scope_sort_sorted|]. intros ws ns Hw Hn.
  rewrite scope_dedup_elem, scope_sort_perm, Hin, elem_of_elements, elem_of_list_to_set by done.
  rewrite allows_scope_spec. tauto.
Qed.

Definition demo_scopes : list string := ["ws-b/ns"; "ws-a/prod"; "ws-b/ns"].
Definition demo_operator : OperatorCaller := mkOperator "alice" (Scoped (list_to_set demo_scopes)).

Lemma scope_choices_exact_witness :
  scope_choices demo_operator [] = Ok [("ws-a", "prod"); ("ws-b", "ns")]
  ∧ allows_scope demo_operator "ws-a" "prod" = true.
Proof.
  split; [vm_compute; reflexivity|].
  apply (scope_choices_exact "alice" demo_scopes demo_operator []
           [("ws-a", "prod"); ("ws-b", "ns")]); try (vm_compute; reflexivity).
  apply elem_of_cons. by left.
Defined.

Lemma extract_bearer_ok `{AuthDeps} (value token : string) :
  header_to_str value = Some ("Bearer " +:+ token) → str_all is_ascii token = true →
  0 < str_len token ≤ 4096 → str_has_whitespace token = false →
  extract_bearer_token [value] = Ok token.
Proof.
  intros Hv Ha [Hl1 Hl2] Hw. unfold extract_bearer_token. rewrite Hv.
  cbn [ok_or mbind result_bind]. rewrite str_all_app, Ha, strip_prefix_app.
  change (str_all is_ascii "Bearer ") with true. cbn [ok_or mbind result_bind andb negb].
  rewrite Hw. destruct token; [done|]. apply N.ltb_ge in Hl2. simpl. by rewrite Hl2.
Qed.

(** One header, one token.  A bearer token is taken from a request exactly
    when the request has a single authorization header, and the header is ASCII
    text [Bearer ] followed by 1 to 4096 bytes without whitespace; with no
    header the caller is unauthenticated and everything else is refused as a
    malformed header. *)
Theorem bearer_exact `{AuthDeps} (values : list string) :
  (∀ token, extract_bearer_token values = Ok token ↔
     ∃ value, values = [value] ∧ header_to_str value = Some ("Bearer " +:+ token)
       ∧ str_all is_ascii token = true ∧ 0 < str_len token ≤ 4096
       ∧ str_has_whitespace token = false)
  ∧ (extract_bearer_token values = Err unauthenticated ↔ values = []).
Proof.
  destruct values as [|value [|value' values]]; unfold extract_bearer_token.
  1,3: split; [intros; split; [done|by intros (? & ? & _)]|done].
  destruct (header_to_str value) as [v|] eqn:Hv; cbn [ok_or mbind result_bind].
  2:{ split; [|done]. intros. split; [done|]. intros (? & [= <-] & ? & _). congruence. }
  destruct (strip_prefix "Bearer " v) as [t|] eqn:Hp; cbn [ok_or mbind result_bind].
  - apply strip_prefix_Some in Hp as ->. rewrite str_all_app.
    change (str_all is_ascii "Bearer ") with true. rewrite andb_true_l. split.
    + intros token. split.
      * intros Hx. destruct (str_all is_ascii t) eqn:Ha; [|done]. simpl in Hx.
        destruct (str_is_empty t || _ || _) eqn:He; [done|]. injection Hx as <-.
        apply orb_false_iff in He as [[He1 He2]%orb_false_iff He3].
        exists value. split_and!; try done; [|by apply N.ltb_ge].
        unfold str_len. destruct t; [done|]. simpl. lia.
      * intros (? & [= <-] & Hv' & Ha & Hl & Hw). rewrite Hv in Hv'.
        apply (inj Some), (f_equal (strip_prefix "Bearer ")) in Hv'.
        rewrite !strip_prefix_app in Hv'. injection Hv' as ->.
        pose proof (extract_bearer_ok value token Hv Ha Hl Hw) as Hx.
        unfold extract_bearer_token in Hx. rewrite Hv in Hx. cbn [ok_or mbind result_bind] in Hx.
        by rewrite strip_prefix_app, str_all_app in Hx.
    + destruct (str_all is_ascii t); simpl; [|done]. by case_match.
  - split.
    + intros token. split; [by destruct (str_all is_ascii v)|].
      intros (? & [= <-] & Hv' & _). rewrite Hv in Hv'. apply (inj Some) in Hv' as ->.
      by rewrite strip_prefix_app in Hp.
    + by destruct (str_all is_ascii v).
Qed.
