(* ===== verification/Caller.v ===== *)
(** * Workload callers

    [crates/apex-domain/src/validation/caller.rs]: the identity an authenticated
    workload acts under, bound to one agent and a set of scopes. *)
From Stdlib Require Import Ascii.
From S2P Require Import Prelude RustStr Errors OperatorAuth.

Open Scope N_scope.

Record Caller := mkCaller {
  ca_authenticated : bool;
  ca_subject : option string;
  ca_bound_agent_id : option string;
  ca_allowed_scopes : gset string;
}.

(** [is_valid_subject] of this crate: an identifier, or a SPIFFE path of
    identifiers. *)
Definition caller_subject_ok (subject : string) : bool :=
  if (MAX_SUBJECT_BYTES <? str_len subject) || negb (str_all is_ascii subject) then false
  else if is_identifier subject then true
  else match strip_prefix "spiffe://" subject with
       | None => false
       | Some path => forallb is_identifier (split "/" path)
       end.

Definition scope_ok (scope : string) : bool :=
  match split_once "/" scope with
  | None => false
  | Some (workspace, namespace) => is_identifier workspace && is_identifier namespace
  end.

(** The loop of [Caller::build]: the ceiling is checked after each insertion. *)
Fixpoint build_scopes (scopes : gset string) (raw : list string) : option (gset string) :=
  match raw with
  | [] => Some scopes
  | scope :: raw =>
      if negb (scope_ok scope) then None
      else
        let scopes := {[scope]} ∪ scopes in
        if MAX_ALLOWED_SCOPES <? N.of_nat (size scopes) then None else build_scopes scopes raw
  end.

(** [Caller::build]. *)
Definition caller_build (subject : string) (bound_agent_id : option string) (scopes : list string)
    : option Caller :=
  if negb (caller_subject_ok subject) then None
  else if negb (from_option is_identifier true bound_agent_id) then None
  else scopes ← build_scopes ∅ scopes;
       Some (mkCaller true (Some subject) bound_agent_id scopes).

(** [Caller::authenticated_for_agent]. *)
Definition authenticated_for_agent (subject agent_id : string) (scopes : list string)
    : result GatewayErrorCode Caller :=
  ok_or (caller_build subject (Some agent_id) scopes) GInvalidAuthorization.

(** [Caller::is_valid]. *)
Definition caller_is_valid (c : Caller) : bool :=
  ca_authenticated c
  && from_option caller_subject_ok false (ca_subject c)
  && from_option is_identifier true (ca_bound_agent_id c)
  && (N.of_nat (size (ca_allowed_scopes c)) <=? MAX_ALLOWED_SCOPES)
  && forallb scope_ok (elements (ca_allowed_scopes c)).

(** [Caller::allows_scope]. *)
Definition caller_allows_scope (c : Caller) (scope : string) : bool :=
  caller_is_valid c
  && from_option (λ s, negb (str_is_empty s)) false (ca_subject c)
  && bool_decide (scope ∈ ca_allowed_scopes c).

(** [Caller::anonymous]. *)
Definition caller_anonymous : Caller := mkCaller false None None ∅.

(** ** Lemmas *)

Lemma build_scopes_spec (S S' : gset string) (raw : list string) :
  build_scopes S raw = Some S' →
  N.of_nat (size S) ≤ MAX_ALLOWED_SCOPES → (∀ s, s ∈ S → scope_ok s = true) →
  S' = S ∪ list_to_set raw ∧ N.of_nat (size S') ≤ MAX_ALLOWED_SCOPES
  ∧ ∀ s, s ∈ S' → scope_ok s = true.
Proof.
  revert S. induction raw as [|s raw IH]; intros S H HS Hok; cbn [build_scopes] in H.
  - simplify_eq. by rewrite list_to_set_nil, (right_id_L ∅ (∪)).
  - destruct (scope_ok s) eqn:Hs; [|done]. cbn [negb] in H.
    destruct (N.ltb_spec MAX_ALLOWED_SCOPES (N.of_nat (size ({[s]} ∪ S)))); [done|].
    apply IH in H as (-> & Hsz & Hall); [|done|].
    { split_and!; [|done..]. by rewrite list_to_set_cons, (assoc_L (∪)), (comm_L (∪) S). }
    intros x [->%elem_of_singleton|]%elem_of_union; auto.
Qed.

(** A caller that was built is valid, and allows exactly the scopes it was
    built with. *)
Lemma authenticated_for_agent_spec (subject agent_id : string) (scopes : list string) (c : Caller) :
  authenticated_for_agent subject agent_id scopes = Ok c →
  c = mkCaller true (Some subject) (Some agent_id) (list_to_set scopes)
  ∧ caller_is_valid c = true ∧ is_identifier agent_id = true
  ∧ ∀ scope, caller_allows_scope c scope = true ↔ scope ∈ scopes.
Proof.
  unfold authenticated_for_agent, caller_build. intros H.
  destruct (caller_subject_ok subject) eqn:Hs; [|done]. cbn [negb] in H.
  destruct (is_identifier agent_id) eqn:Ha; simpl in H; [|by rewrite Ha in H].
  rewrite Ha in H. cbn [negb] in H.
  destruct (build_scopes ∅ scopes) as [S|] eqn:HS; [|done]. simpl in H. simplify_eq.
  apply build_scopes_spec in HS as (-> & Hsz & Hall);
    [|by rewrite size_empty|intros s; by rewrite elem_of_empty].
  rewrite (left_id_L ∅ (∪)) in *.
  assert (caller_is_valid (mkCaller true (Some subject) (Some agent_id) (list_to_set scopes)) = true)
    as Hv.
  { unfold caller_is_valid. simpl. rewrite Hs, Ha. simpl.
    rewrite (proj2 (N.leb_le _ _) Hsz). simpl. apply forallb_forall.
    intros s Hin. by apply Hall, elem_of_elements, list_elem_of_In. }
  split_and!; [done..|]. intros scope. unfold caller_allows_scope. rewrite Hv. simpl.
  assert (str_is_empty subject = false) as ->.
  { destruct subject; [|done]. by vm_compute in Hs. }
  simpl. by rewrite bool_decide_eq_true, elem_of_list_to_set.
Qed.
