(* ===== verification/Verifier.v ===== *)
(** * The workload verifier

    [crates/apex-auth/src/verifier.rs]: bearer credentials of workloads, with a
    failure budget and an in-flight ceiling per token and peer certificate, and
    an optional shared store that spreads a denial to other replicas.  Header
    decoding and SHA-256 are the parameters of [AuthDeps]; the shared store is
    any instance of the contract of Ephemeral.  Taking and releasing a slot
    are separate steps, as other attempts run while the resolver works. *)
From Stdlib Require Import Ascii.
From S2P Require Import Prelude RustStr Digits Errors OperatorAuth Caller Window Ephemeral.

Open Scope N_scope.

Definition AUTH_FAILURES_PER_SECOND : N := 60.
Definition AUTH_IN_FLIGHT_PER_IDENTITY : N := 32.
Definition MAX_AUTH_IDENTITIES : N := 4096.
Definition AUTH_BUCKET_RETENTION : N := from_secs 60.

(** [PeerIdentity]: the digest of the peer's certificate. *)
Record PeerIdentity := mkPeer { certificate_sha256 : string }.

(** [RateBucket] of [verifier.rs]. *)
Record AuthBucket := mkAuthBucket {
  ab_window_started : N;
  ab_failures : N;
  ab_successes : N;
  ab_in_flight : N;
}.

(** [RateKey]: token digest and peer digest. *)
Abbreviation RateKey := (string * string)%type.
Abbreviation AuthBuckets := (gmap RateKey AuthBucket).

(** [[0; 32]]. *)
Definition zero_digest : string :=
  String.string_of_list_ascii (replicate 32 "000"%char).

(** [BearerTokenVerifier]: the buckets and the shared store. *)
Record Verifier (S : Type) := mkVerifier {
  v_buckets : Mutex AuthBuckets;
  v_ephemeral : option (Mutex S);
}.
Arguments mkVerifier {S} _ _.
Arguments v_buckets {S} _.
Arguments v_ephemeral {S} _.

Definition verifier_new {S} (ephemeral : option (Mutex S)) : Verifier S :=
  mkVerifier (mutex_new ∅) ephemeral.

(** [identity_fingerprint_hex]. *)
Definition identity_fingerprint_hex `{AuthDeps} (key : RateKey) : string :=
  hex_string (sha256_digest (key.1 +:+ key.2)).

Definition malformed_key (peer : option PeerIdentity) : RateKey :=
  (zero_digest, from_option certificate_sha256 zero_digest peer).

(** ** The buckets *)

(** [buckets.retain(..)]. *)
Definition retain_buckets (later : N) (m : AuthBuckets) : AuthBuckets :=
  filter (λ p, 0 < ab_in_flight p.2 ∨ later - ab_window_started p.2 < AUTH_BUCKET_RETENTION) m.

(** [iter().filter(in_flight == 0).min_by_key(window_started)]: the first of
    the oldest, in the map's order. *)
Fixpoint oldest_idle (l : list (RateKey * AuthBucket)) : option (RateKey * AuthBucket) :=
  match l with
  | [] => None
  | (k, b) :: l =>
      if negb (ab_in_flight b =? 0) then oldest_idle l
      else match oldest_idle l with
           | Some (k', b') =>
               if ab_window_started b <=? ab_window_started b' then Some (k, b) else Some (k', b')
           | None => Some (k, b)
           end
  end.

(** Makes room for [key]: [None] when every slot is resolving. *)
Definition make_room (key : RateKey) (m : AuthBuckets) : option AuthBuckets :=
  if bool_decide (m !! key = None) && (MAX_AUTH_IDENTITIES <=? map_len m)
  then match oldest_idle (map_to_list m) with
       | Some (k, _) => Some (delete k m)
       | None => None
       end
  else Some m.

(** [admit_attempt] under the lock. *)
Definition admit_locked (t : Readings) (key : RateKey) : ST AuthBuckets GatewayErrorCode unit := λ m,
  let m := retain_buckets (done_at t) m in
  match make_room key m with
  | None => (Err GRateLimited, m)
  | Some m =>
      let b := default (mkAuthBucket (started_at t) 0 0 0) (m !! key) in
      let b := if from_secs 1 <=? done_at t - ab_window_started b
               then mkAuthBucket (started_at t) 0 0 0 else b in
      if (AUTH_FAILURES_PER_SECOND <=? ab_failures b)
         || (AUTH_IN_FLIGHT_PER_IDENTITY <=? ab_in_flight b)
      then (Err GRateLimited, <[key := b]> m)
      else (Ok tt, <[key := mkAuthBucket (ab_window_started b) (ab_failures b) (ab_successes b)
                              (ab_in_flight b + 1)]> m)
  end.

(** [finish_attempt] under the lock. *)
Definition finish_locked (key : RateKey) (succeeded : bool) (m : AuthBuckets) : AuthBuckets :=
  alter (λ b, mkAuthBucket (ab_window_started b)
                (if succeeded then ab_failures b else sat_add32 (ab_failures b) 1)
                (if succeeded then sat_add32 (ab_successes b) 1 else ab_successes b)
                (ab_in_flight b - 1)) key m.

(** [record_malformed_attempt] under the lock. *)
Definition malformed_locked (t : Readings) (key : RateKey) : ST AuthBuckets GatewayErrorCode unit :=
  λ m,
  let m := retain_buckets (done_at t) m in
  match make_room key m with
  | None => (Err GRateLimited, m)
  | Some m =>
      let b := default (mkAuthBucket (started_at t) 0 0 0) (m !! key) in
      let b := if from_secs 1 <=? done_at t - ab_window_started b
               then mkAuthBucket (started_at t) 0 0 (ab_in_flight b) else b in
      if AUTH_FAILURES_PER_SECOND <=? ab_failures b then (Err GRateLimited, <[key := b]> m)
      else (Ok tt, <[key := mkAuthBucket (ab_window_started b) (ab_failures b + 1) (ab_successes b)
                              (ab_in_flight b)]> m)
  end.

(** ** The verifier *)

Section verifier.
Context {St : Type} `{AuthDeps, EphemeralStore St}.

(** The clock, and whether a slot for the shared store was free. *)
Record Env := mkEnv { env_t : Readings; env_slot : bool }.

(** [distributed_deny_hint_active]: every failure reads as "not denied". *)
Definition distributed_deny_hint_active (env : Env) (key : RateKey) (v : Verifier St)
    : bool * Verifier St :=
  match v_ephemeral v with
  | None => (false, v)
  | Some store =>
      if negb (env_slot env) || poisoned store then (false, v)
      else
        let '(r, s) := is_denied (env_t env)
                         (mkDenyKey "auth-failures" (identity_fingerprint_hex key)) (guarded store) in
        (match r with Ok b => b | Err _ => false end,
         mkVerifier (v_buckets v) (Some (mkMutex false s)))
  end.

(** [record_distributed_failure]. *)
Definition record_distributed_failure (env : Env) (key : RateKey) (v : Verifier St) : Verifier St :=
  match v_ephemeral v with
  | None => v
  | Some store =>
      if negb (env_slot env) || poisoned store then v
      else
        let hex := identity_fingerprint_hex key in
        let '(r, s1) := increment_fingerprint (env_t env) (mkFingerprintKey "auth-failures" hex)
                          (from_secs 1) (guarded store) in
        let s2 := match r with
                  | Ok count =>
                      if AUTH_FAILURES_PER_SECOND <? count
                      then (set_deny_hint (env_t env) (mkDenyKey "auth-failures" hex) (from_secs 1) s1).2
                      else s1
                  | Err _ => s1
                  end in
        mkVerifier (v_buckets v) (Some (mkMutex false s2))
  end.

(** [admit_attempt]. *)
Definition admit_attempt (env : Env) (key : RateKey) : ST (Verifier St) GatewayErrorCode unit := λ v,
  let '(denied, v) := distributed_deny_hint_active env key v in
  if denied then (Err GRateLimited, v)
  else let '(r, m) := with_mutex GInternal (admit_locked (env_t env) key) (v_buckets v) in
       (r, mkVerifier m (v_ephemeral v)).

(** [finish_attempt]: nothing happens when the lock is poisoned or the bucket is
    gone. *)
Definition finish_attempt (env : Env) (key : RateKey) (succeeded : bool) (v : Verifier St)
    : Verifier St :=
  if poisoned (v_buckets v) then v
  else match guarded (v_buckets v) !! key with
       | None => v
       | Some _ =>
           let v := mkVerifier (mkMutex false (finish_locked key succeeded (guarded (v_buckets v))))
                      (v_ephemeral v) in
           if succeeded then v else record_distributed_failure env key v
       end.

(** [record_malformed_attempt]. *)
Definition record_malformed_attempt (env : Env) (peer : option PeerIdentity)
    : ST (Verifier St) GatewayErrorCode unit := λ v,
  let key := malformed_key peer in
  let '(denied, v) := distributed_deny_hint_active env key v in
  if denied then (Err GRateLimited, v)
  else match with_mutex GInternal (malformed_locked (env_t env) key) (v_buckets v) with
       | (Err e, m) => (Err e, mkVerifier m (v_ephemeral v))
       | (Ok _, m) => (Ok tt, record_distributed_failure env key (mkVerifier m (v_ephemeral v)))
       end.

(** [self.record_malformed_attempt(peer)?; return Err(error)]. *)
Definition refuse_malformed {A} (env : Env) (peer : option PeerIdentity) (error : GatewayErrorCode)
    : ST (Verifier St) GatewayErrorCode A := λ v,
  match record_malformed_attempt env peer v with
  | (Err e, v) => (Err e, v)
  | (Ok _, v) => (Err error, v)
  end.

(** The token of an [authorization] header, or how it is malformed. *)
Definition bearer_value (value : string) : option string :=
  value ← header_to_str value;
  '(scheme, token) ← split_once " " value;
  if negb (String.eqb (to_ascii_lowercase scheme) "bearer") || str_is_empty token
     || (4096 <? str_len token) || negb (str_all is_ascii_graphic token)
  then None else Some token.

(** [verify_with_peer]; [strict] is [require_peer_identity], [resolve] the
    resolver's [resolve_with_peer]. *)
Definition verify_with_peer (strict : bool)
    (resolve : string → option PeerIdentity → result GatewayErrorCode Caller)
    (env : Env) (values : list string) (peer : option PeerIdentity)
    : ST (Verifier St) GatewayErrorCode Caller := λ v,
  if strict && bool_decide (peer = None) then refuse_malformed env peer GUnauthenticated v
  else
    match values with
    | [] => refuse_malformed env peer GUnauthenticated v
    | _ :: _ :: _ => refuse_malformed env peer GInvalidAuthorization v
    | [value] =>
        match bearer_value value with
        | None => refuse_malformed env peer GInvalidAuthorization v
        | Some token =>
            let key := (sha256_digest token, from_option certificate_sha256 zero_digest peer) in
            match admit_attempt env key v with
            | (Err e, v) => (Err e, v)
            | (Ok _, v) =>
                let result := resolve token peer in
                (result, finish_attempt env key (is_ok result) v)
            end
        end
    end.
End verifier.

(** ** What verification establishes *)

Section laws.
Context {St : Type} `{AuthDeps, EphemeralStore St}.

Lemma refuse_malformed_fails {A} (env : Env) (peer : option PeerIdentity) (error : GatewayErrorCode)
    (v : Verifier St) (a : A) : (refuse_malformed env peer error v).1 ≠ Ok a.
Proof. unfold refuse_malformed. by destruct (record_malformed_attempt env peer v) as [[]]. Qed.

(** A caller is what the resolver made of the one token presented. *)
Lemma verify_sound (strict : bool) resolve (env : Env) (values : list string)
    (peer : option PeerIdentity) (v : Verifier St) (c : Caller) :
  (verify_with_peer strict resolve env values peer v).1 = Ok c →
  ∃ value token, values = [value] ∧ bearer_value value = Some token
    ∧ resolve token peer = Ok c ∧ (strict = true → peer ≠ None).
Proof.
  unfold verify_with_peer. intros H1.
  destruct (strict && bool_decide (peer = None)) eqn:Hs.
  { by apply refuse_malformed_fails in H1. }
  destruct values as [|value [|]]; [by apply refuse_malformed_fails in H1| |
                                     by apply refuse_malformed_fails in H1].
  destruct (bearer_value value) as [token|] eqn:Hb; [|by apply refuse_malformed_fails in H1].
  exists value, token. split_and!; [done..| |].
  - by destruct (admit_attempt env _ v) as [[] v'].
  - intros ->. simpl in Hs. by apply bool_decide_eq_false in Hs.
Qed.

(** ** The in-flight ceiling *)

(** Attempts of one identity that are admitted, none of which finishes. *)
Fixpoint admit_many (envs : list Env) (key : RateKey) (v : Verifier St)
    : list (result GatewayErrorCode unit) * Verifier St :=
  match envs with
  | [] => ([], v)
  | env :: envs =>
      let '(r, v1) := admit_attempt env key v in
      let '(rs, v2) := admit_many envs key v1 in
      (r :: rs, v2)
  end.

Lemma admit_many_app (envs1 envs2 : list Env) (key : RateKey) (v : Verifier St) :
  admit_many (envs1 ++ envs2) key v
  = let '(rs1, v1) := admit_many envs1 key v in
    let '(rs2, v2) := admit_many envs2 key v1 in (rs1 ++ rs2, v2).
Proof.
  revert v. induction envs1 as [|env envs1 IH]; intros v; cbn [admit_many app].
  - by destruct (admit_many envs2 key v).
  - destruct (admit_attempt env key v) as [r v1]. rewrite IH.
    destruct (admit_many envs1 key v1) as [rs1 v2]. by destruct (admit_many envs2 key v2).
Qed.

(** A bucket opened at second [s], with [k] attempts in flight. *)
Definition busy (key : RateKey) (s k : N) : Verifier St :=
  mkVerifier (mutex_new {[key := mkAuthBucket (from_secs s) 0 0 k]}) None.
Definition at_second (s : N) : Env := mkEnv (mkReadings (from_secs s) (from_secs s)) true.

Lemma admit_busy (key : RateKey) (s s' k : N) :
  0 < k → k < AUTH_IN_FLIGHT_PER_IDENTITY ∨ s < s' → s ≤ s' →
  admit_attempt (at_second s') key (busy key s k)
  = (Ok tt, busy key s' (if s <? s' then 1 else k + 1)).
Proof.
  intros Hk Hroom Hs. unfold admit_attempt, busy, at_second. cbn [distributed_deny_hint_active
    v_ephemeral v_buckets env_t with_mutex mutex_new poisoned guarded]. unfold with_mutex. cbn.
  assert (admit_locked (mkReadings (from_secs s') (from_secs s')) key
            {[key := mkAuthBucket (from_secs s) 0 0 k]}
          = (Ok tt, {[key := mkAuthBucket (from_secs s') 0 0 (if s <? s' then 1 else k + 1)]})) as ->;
    [|done].
  unfold admit_locked, retain_buckets. rewrite map_filter_singleton_True by (left; done).
  unfold make_room. rewrite lookup_singleton_eq, bool_decide_false by done. cbn [andb].
  rewrite lookup_singleton_eq. cbn [default from_option id ab_window_started done_at started_at].
  assert ((from_secs 1 <=? from_secs s' - from_secs s) = (s <? s')) as ->.
  { unfold from_secs. destruct (N.ltb_spec s s'); [apply N.leb_le|apply N.leb_gt]; lia. }
  destruct (N.ltb_spec s s') as [Hlt|Hge].
  - cbn. by rewrite insert_singleton_eq.
  - assert (s = s') as -> by lia.
    cbn [ab_failures ab_in_flight ab_window_started ab_successes].
    assert ((AUTH_IN_FLIGHT_PER_IDENTITY <=? k) = false) as -> by (apply N.leb_gt; lia).
    change (AUTH_FAILURES_PER_SECOND <=? 0) with false. cbn [orb]. by rewrite insert_singleton_eq.
Qed.

Lemma admit_idle (key : RateKey) (s : N) :
  admit_attempt (at_second s) key (verifier_new None) = (Ok tt, busy key s 1).
Proof.
  unfold admit_attempt. cbn [distributed_deny_hint_active v_ephemeral verifier_new v_buckets env_t
    at_second]. unfold with_mutex. cbn [poisoned guarded mutex_new].
  assert (admit_locked (mkReadings (from_secs s) (from_secs s)) key ∅
          = (Ok tt, {[key := mkAuthBucket (from_secs s) 0 0 1]})) as ->; [|done].
  unfold admit_locked, retain_buckets, make_room.
  rewrite map_filter_empty, lookup_empty, bool_decide_true by done.
  change (MAX_AUTH_IDENTITIES <=? map_len (∅ : AuthBuckets)) with false. cbn [andb].
  rewrite lookup_empty. cbn [default from_option id ab_window_started done_at started_at].
  by rewrite N.sub_diag.
Qed.

Lemma admit_second (key : RateKey) (s k : N) (n : nat) :
  0 < k → k + N.of_nat n ≤ AUTH_IN_FLIGHT_PER_IDENTITY →
  admit_many (replicate n (at_second s)) key (busy key s k)
  = (replicate n (Ok tt), busy key s (k + N.of_nat n)).
Proof.
  revert k. induction n as [|n IH]; intros k Hk Hn; [by rewrite N.add_0_r|].
  cbn [replicate admit_many]. rewrite admit_busy by lia.
  rewrite N.ltb_irrefl, IH by lia. by replace (k + 1 + N.of_nat n) with (k + N.of_nat (S n)) by lia.
Qed.

(** Thirty-two attempts in each of the first [n] seconds. *)
Fixpoint attempts_per_second (n : nat) : list Env :=
  match n with
  | O => []
  | S n => attempts_per_second n ++ replicate 32 (at_second (N.of_nat n))
  end.

Lemma attempts_admitted (key : RateKey) (n : nat) :
  admit_many (attempts_per_second n) key (verifier_new None)
  = (replicate (32 * n) (Ok tt),
     match n with O => verifier_new None | S n => busy key (N.of_nat n) 32 end).
Proof.
  induction n as [|n IH]; [done|]. cbn [attempts_per_second]. rewrite admit_many_app, IH.
  replace (32 * S n)%nat with (32 * n + 32)%nat by lia. rewrite replicate_add.
  change (replicate 32 (at_second (N.of_nat n)))
    with (at_second (N.of_nat n) :: replicate 31 (at_second (N.of_nat n))).
  cbn [admit_many]. destruct n as [|n].
  - rewrite admit_idle. by rewrite (admit_second key (N.of_nat 0) 1 31) by done.
  - rewrite admit_busy, (proj2 (N.ltb_lt _ _)) by lia. by rewrite (admit_second key _ 1 31) by done.
Qed.

(** The in-flight ceiling does not hold across seconds.  An identity's
    bucket is replaced when its second is over, attempts in flight included, so
    thirty-two more are admitted every second although none of the earlier ones
    has finished. *)
Theorem in_flight_ceiling_lost (key : RateKey) (n : nat) :
  (admit_many (attempts_per_second n) key (verifier_new None)).1 = replicate (32 * n) (Ok tt).
Proof. by rewrite attempts_admitted. Qed.
End laws.
