(* ===== verification/AgentAuth.v ===== *)
(** * Agent credentials

    [apps/control-plane-api/src/agent_auth.rs] (the static table of agent
    workload credentials and the poll path's authenticator) and
    [agent_auth/revocation.rs] (the list of revoked certificates, read again in
    the background).  The bytes a read of the revocation file yields, or that it
    failed, are an argument of each read. *)
From Stdlib Require Import Ascii.
From S2P Require Import Prelude RustStr Digits Journal Errors OperatorAuth Caller Window Ephemeral Verifier.

Open Scope N_scope.

Definition MIN_AGENT_TOKEN_BYTES : N := 16.
Definition MAX_AGENT_TOKEN_BYTES : N := 4096.
Definition MAX_AGENT_TOKEN_ENTRIES : N := 1024.
Definition MAX_AGENT_SCOPES : N := 64.

(** ** The credential table *)

Record AgentWorkloadEntry := mkAgentEntry {
  ae_expected_peer_certificate : string;
  ae_subject : string;
  ae_agent_id : string;
  ae_scopes : list string;
}.

(** [StaticAgentWorkloadResolver], keyed by token digest. *)
Abbreviation AgentTable := (gmap string AgentWorkloadEntry).

Definition with_credential `{AuthDeps} (token : string) (e : AgentWorkloadEntry) (t : AgentTable)
    : AgentTable := <[sha256_digest token := e]> t.

(** [resolve]: refused without a peer. *)
Definition agent_resolve (t : AgentTable) (token : string) : result GatewayErrorCode Caller :=
  Err GUnauthenticated.

(** [resolve_with_peer]. *)
Definition agent_resolve_with_peer `{AuthDeps} (t : AgentTable) (token : string)
    (peer : option PeerIdentity) : result GatewayErrorCode Caller :=
  peer ← ok_or peer GUnauthenticated;
  entry ← ok_or (t !! sha256_digest token) GUnauthenticated;
  if negb (String.eqb (ae_expected_peer_certificate entry) (certificate_sha256 peer))
  then Err GUnauthenticated
  else authenticated_for_agent (ae_subject entry) (ae_agent_id entry) (ae_scopes entry).

(** [agent_workload_subject] and [supervisor_agent_id]. *)
Definition agent_workload_subject (agent_id : string) : string :=
  "spiffe://apex/workload/" +:+ agent_id.
Definition supervisor_agent_id (agent_id : string) : string := agent_id +:+ ".supervisor".

(** [parse_certificate_sha256]. *)
Definition parse_certificate_sha256 (value : string) : option string := parse_digest value.

(** [rsplitn(4, '|')], when it yields four pieces: token, certificate, agent
    and scopes. *)
Definition split_agent_entry (entry : string) : option (string * string * string * string) :=
  '(rest, scopes) ← rsplit_once "|" entry;
  '(rest, agent_id) ← rsplit_once "|" rest;
  '(token, certificate) ← rsplit_once "|" rest;
  Some (token, certificate, agent_id, scopes).

(** One iteration of the loop of [parse_agent_token_table]. *)
Definition parse_agent_entry (entry_index : N) (entry : string)
    : result TableError (string * AgentWorkloadEntry) :=
  let fail reason := mkTableError entry_index reason in
  if MAX_AGENT_TOKEN_ENTRIES <=? entry_index then Err (fail "too many agent token entries")
  else
    match split_agent_entry entry with
    | None => Err (fail "expected token|cert_sha256|agent_id|scopes")
    | Some (token, certificate_hex, agent_id, scopes) =>
        let scopes := trim scopes in
        let agent_id := trim agent_id in
        let certificate_hex := trim certificate_hex in
        if str_len token <? MIN_AGENT_TOKEN_BYTES
        then Err (fail "agent token is shorter than 16 bytes")
        else if MAX_AGENT_TOKEN_BYTES <? str_len token
        then Err (fail "agent token is longer than 4096 bytes")
        else if negb (str_all is_ascii_graphic token)
        then Err (fail "agent token must be printable ASCII with no whitespace")
        else
          certificate ← ok_or (parse_certificate_sha256 certificate_hex)
                          (fail "cert_sha256 must be exactly 64 hexadecimal characters");
          if str_contains "*" scopes || str_contains "*" agent_id
          then Err (fail "an agent workload credential has no wildcard form; list the agent id and its scopes explicitly")
          else
            let parsed := filter (λ s, str_is_empty s = false) (map trim (split "," scopes)) in
            if len parsed =? 0 then Err (fail "no scopes listed")
            else if MAX_AGENT_SCOPES <? len parsed
            then Err (fail "too many scopes for one agent credential")
            else
              _ ← map_err (λ _, fail "invalid agent_id or scope; expected workspace/namespace pairs")
                    (authenticated_for_agent (agent_workload_subject agent_id) agent_id parsed);
              Ok (token, mkAgentEntry certificate (agent_workload_subject agent_id) agent_id parsed)
    end.

Fixpoint parse_agent_entries `{AuthDeps} (entry_index : N) (seen : gset string) (table : AgentTable)
    (entries : list string) : result TableError AgentTable :=
  match entries with
  | [] => Ok table
  | entry :: entries =>
      '(token, e) ← parse_agent_entry entry_index entry;
      let digest := sha256_digest token in
      if bool_decide (digest ∈ seen)
      then Err (mkTableError entry_index "duplicate agent token")
      else parse_agent_entries (entry_index + 1) ({[digest]} ∪ seen) (with_credential token e table)
             entries
  end.

(** [parse_agent_token_table]. *)
Definition parse_agent_token_table `{AuthDeps} (raw : string) : result TableError AgentTable :=
  parse_agent_entries 0 ∅ ∅ (filter (λ s, str_is_empty s = false) (map trim (split ";" raw))).

(** ** Revocation *)

Definition MAX_REVOCATION_ENTRIES : N := 4096.
Definition MAX_AGENT_REVOCATION_FILE_BYTES : N := 256 * 1024.

(** [AgentRevocationError]. *)
Abbreviation RevocationError := string.

(** The loop of [parse_revocation_list]. *)
Fixpoint parse_revocation_lines (fingerprints : gset string) (lines : list string)
    : result RevocationError (gset string) :=
  match lines with
  | [] => Ok fingerprints
  | line :: lines =>
      let line := trim line in
      if str_is_empty line then parse_revocation_lines fingerprints lines
      else if MAX_REVOCATION_ENTRIES <=? N.of_nat (size fingerprints)
      then Err "the revocation file lists too many fingerprints"
      else
        match parse_certificate_sha256 line with
        | None => Err "the revocation file contains a line that is not a 64-character hexadecimal SHA-256 fingerprint"
        | Some fingerprint => parse_revocation_lines ({[fingerprint]} ∪ fingerprints) lines
        end
  end.

(** [parse_revocation_list]: [str::lines] breaks lines as [BufRead::lines]. *)
Definition parse_revocation_list (raw : string) : result RevocationError (gset string) :=
  parse_revocation_lines ∅ (read_lines raw).

(** [read_revocation_file], given the bytes that could be read, at most one
    more than the limit. *)
Definition read_revocation_file (bytes : option string) : result RevocationError (gset string) :=
  bytes ← ok_or bytes "unable to read the configured agent revocation file";
  if MAX_AGENT_REVOCATION_FILE_BYTES <? str_len bytes
  then Err "the configured agent revocation file exceeds the size ceiling"
  else if negb (is_utf8 bytes) then Err "the configured agent revocation file is not UTF-8"
  else parse_revocation_list bytes.

Record RevocationCache := mkRevocationCache {
  rc_fingerprints : option (gset string);
  rc_fetched_at : option N;
}.

Definition cache_store (now : N) (fingerprints : gset string) : RevocationCache :=
  mkRevocationCache (Some fingerprints) (Some now).

(** [RevocationCache::fresh]. *)
Definition cache_fresh (now max_age : N) (c : RevocationCache) : option (gset string) :=
  match rc_fingerprints c, rc_fetched_at c with
  | Some set, Some at_ => if now - at_ <=? max_age then Some set else None
  | _, _ => None
  end.

(** [AgentRevocationList]: the locked cache and its ceiling. *)
Record AgentRevocationList := mkRevocationList {
  rl_cache : Mutex RevocationCache;
  rl_max_age : N;
}.

(** [AgentRevocationList::start]. *)
Definition revocation_start (bytes : option string) (now refresh max_age : N)
    : result RevocationError AgentRevocationList :=
  if refresh =? 0 then Err "the revocation refresh interval must be positive"
  else if max_age <? refresh
  then Err "the revocation staleness ceiling must be at least the refresh interval"
  else initial ← read_revocation_file bytes;
       Ok (mkRevocationList (mutex_new (cache_store now initial)) max_age).

(** One iteration of [spawn_revocation_refresher]. *)
Definition revocation_refresh (bytes : option string) (now : N) (l : AgentRevocationList)
    : AgentRevocationList :=
  match read_revocation_file bytes with
  | Ok fingerprints =>
      if poisoned (rl_cache l) then l
      else mkRevocationList (mkMutex false (cache_store now fingerprints)) (rl_max_age l)
  | Err _ => l
  end.

(** [AgentRevocationList::check]: [None] when the question cannot be answered. *)
Definition revocation_check (now : N) (fingerprint : string) (l : AgentRevocationList) : option bool :=
  if poisoned (rl_cache l) then None
  else set ← cache_fresh now (rl_max_age l) (guarded (rl_cache l));
       Some (bool_decide (fingerprint ∈ set)).

(** [RevocationAwareAgentResolver::resolve_with_peer]. *)
Definition revocation_aware (now : N) (l : AgentRevocationList)
    (inner : string → option PeerIdentity → result GatewayErrorCode Caller)
    (token : string) (peer : option PeerIdentity) : result GatewayErrorCode Caller :=
  caller ← inner token peer;
  peer ← ok_or peer GUnauthenticated;
  match revocation_check now (certificate_sha256 peer) l with
  | Some false => Ok caller
  | Some true | None => Err GUnauthenticated
  end.

(** ** The poll path's authenticator *)

(** [map_agent_auth_error]. *)
Definition map_agent_auth_error (e : GatewayErrorCode) : CommandError :=
  match e with
  | GInvalidAuthorization => invalid_authorization
  | GRateLimited | GAdmissionBusy => rate_limited
  | GInternal => internal
  | _ => unauthenticated
  end.

(** [AgentWorkloadAuthenticator::authenticate]: strict by construction. *)
Definition agent_authenticate {St} `{AuthDeps, EphemeralStore St}
    (resolve : string → option PeerIdentity → result GatewayErrorCode Caller)
    (env : Env) (values : list string) (peer : option PeerIdentity)
    : ST (Verifier St) CommandError Caller :=
  st_map_err map_agent_auth_error (verify_with_peer true resolve env values peer).

(** ** Credentials *)

(** The caller an entry of the table stands for. *)
Definition entry_agent (e : AgentWorkloadEntry) : Caller :=
  mkCaller true (Some (agent_workload_subject (ae_agent_id e))) (Some (ae_agent_id e))
    (list_to_set (ae_scopes e)).

(** An entry every poll can turn into its caller. *)
Definition usable (e : AgentWorkloadEntry) : Prop :=
  authenticated_for_agent (ae_subject e) (ae_agent_id e) (ae_scopes e) = Ok (entry_agent e).

Lemma parse_agent_entry_usable (i : N) (entry token : string) (e : AgentWorkloadEntry) :
  parse_agent_entry i entry = Ok (token, e) → usable e.
Proof.
  unfold parse_agent_entry. intros H. destruct (_ <=? _); [done|].
  destruct (split_agent_entry entry) as [[[[tok cert] agent] scopes]|]; [|done].
  do 3 (match type of H with (if ?b then _ else _) = _ => destruct b; [done|] end).
  destruct (parse_certificate_sha256 _) as [c|]; [|done]. cbn [ok_or mbind result_bind] in H.
  do 3 (match type of H with (if ?b then _ else _) = _ => destruct b; [done|] end).
  destruct (authenticated_for_agent _ _ _) as [caller|] eqn:Hc; [|done].
  cbn [map_err mbind result_bind] in H. apply (inj Ok) in H as [= <- <-].
  unfold usable. simpl. rewrite Hc. by apply authenticated_for_agent_spec in Hc as (-> & _).
Qed.

Lemma parse_agent_entries_usable `{AuthDeps} (i : N) (seen : gset string) (t t' : AgentTable)
    (entries : list string) :
  map_Forall (λ _, usable) t → parse_agent_entries i seen t entries = Ok t' →
  map_Forall (λ _, usable) t'.
Proof.
  revert i seen t. induction entries as [|entry entries IH]; intros i seen t Ht H0; simpl in H0.
  - by simplify_eq.
  - destruct (parse_agent_entry i entry) as [[token e]|] eqn:He; [|done].
    cbn [mbind result_bind] in H0. destruct (bool_decide _); [done|]. eapply IH; [|done].
    apply map_Forall_insert_2; [|done]. by eapply parse_agent_entry_usable.
Qed.

(** ** Revocation over time *)

(** The list after the refresher's reads: times and bytes, oldest first. *)
Definition revocation_run (reads : list (N * option string)) (l : AgentRevocationList)
    : AgentRevocationList := foldl (λ l r, revocation_refresh r.2 r.1 l) l reads.

(** The last read that succeeded, and the fingerprints it listed. *)
Definition last_read (reads : list (N * option string)) (first : N * gset string) : N * gset string :=
  foldl (λ last r, match read_revocation_file r.2 with Ok set => (r.1, set) | Err _ => last end)
    first reads.

Lemma revocation_run_cache (reads : list (N * option string)) (at_ max_age : N) (set : gset string) :
  revocation_run reads (mkRevocationList (mutex_new (cache_store at_ set)) max_age)
  = let '(at_', set') := last_read reads (at_, set) in
    mkRevocationList (mutex_new (cache_store at_' set')) max_age.
Proof.
  revert at_ set. induction reads as [|[t bytes] reads IH]; intros at_ set; [done|].
  unfold revocation_run, last_read in *. cbn [foldl fst snd]. unfold revocation_refresh.
  destruct (read_revocation_file bytes) as [set'|]; simpl; apply IH.
Qed.

(** The list answers from its last successful read alone, and refuses to answer
    once that is older than the ceiling. *)
Lemma revocation_check_run (bytes : option string) (reads : list (N * option string))
    (t0 refresh max_age now : N) (set : gset string) (fp : string) (l : AgentRevocationList) :
  revocation_start bytes t0 refresh max_age = Ok l → read_revocation_file bytes = Ok set →
  revocation_check now fp (revocation_run reads l)
  = let '(at_, set') := last_read reads (t0, set) in
    if now - at_ <=? max_age then Some (bool_decide (fp ∈ set')) else None.
Proof.
  unfold revocation_start. intros Hl Hset. do 2 (case_match; [done|]).
  rewrite Hset in Hl. cbn [mbind result_bind] in Hl. simplify_eq.
  rewrite revocation_run_cache. destruct (last_read reads (t0, set)) as [at_ set'].
  unfold revocation_check, cache_fresh. simpl. by destruct (now - at_ <=? max_age).
Qed.

(** ** Authentication *)

Section exact.
Context {St : Type} `{AuthDeps, EphemeralStore St}.

Lemma verify_complete (resolve : string → option PeerIdentity → result GatewayErrorCode Caller)
    (env : Env) (value token : string) (p : PeerIdentity) (v : Verifier St) (c : Caller) :
  bearer_value value = Some token → resolve token (Some p) = Ok c →
  (admit_attempt env (sha256_digest token, certificate_sha256 p) v).1 = Ok tt →
  (verify_with_peer true resolve env [value] (Some p) v).1 = Ok c.
Proof.
  intros Hb Hr Ha. unfold verify_with_peer. rewrite bool_decide_false by done. cbn [andb].
  rewrite Hb. cbn [from_option]. destruct (admit_attempt env _ v) as [[] v']; by simplify_eq/=.
Qed.

Lemma agent_authenticate_ok resolve (env : Env) (values : list string)
    (peer : option PeerIdentity) (v : Verifier St) (c : Caller) :
  (agent_authenticate resolve env values peer v).1 = Ok c
  ↔ (verify_with_peer true resolve env values peer v).1 = Ok c.
Proof.
  unfold agent_authenticate, st_map_err. destruct (verify_with_peer _ _ _ _ _ v) as [[c'|e] v'];
    simpl; by split; intros [= ->].
Qed.

Lemma verify_admitted resolve (env : Env) (value token : string) (p : PeerIdentity)
    (v : Verifier St) (c : Caller) :
  (verify_with_peer true resolve env [value] (Some p) v).1 = Ok c →
  bearer_value value = Some token →
  (admit_attempt env (sha256_digest token, certificate_sha256 p) v).1 = Ok tt.
Proof.
  unfold verify_with_peer. rewrite bool_decide_false by done. cbn [andb]. intros Hv Hb.
  rewrite Hb in Hv. cbn [from_option] in Hv. by destruct (admit_attempt env _ v) as [[[]|] v'].
Qed.

Lemma revocation_aware_ok (now : N) (l : AgentRevocationList) (t : AgentTable) (token : string)
    (p : PeerIdentity) (c : Caller) :
  map_Forall (λ _, usable) t →
  revocation_aware now l (agent_resolve_with_peer t) token (Some p) = Ok c
  ↔ ∃ e, t !! sha256_digest token = Some e ∧ ae_expected_peer_certificate e = certificate_sha256 p
         ∧ revocation_check now (certificate_sha256 p) l = Some false ∧ c = entry_agent e.
Proof.
  intros Ht. unfold revocation_aware, agent_resolve_with_peer. cbn [ok_or mbind result_bind].
  destruct (t !! sha256_digest token) as [e|] eqn:He; cbn [ok_or mbind result_bind];
    [|split; [done|by intros (e' & [=] & _)]].
  pose proof (Ht _ _ He) as Hu. simpl in Hu. unfold usable in Hu.
  destruct (String.eqb_spec (ae_expected_peer_certificate e) (certificate_sha256 p)) as [Heq|Hne];
    cbn [negb]; [|split; [done|by intros (e' & [= <-] & Hc & _)]].
  rewrite Hu. cbn [mbind result_bind].
  destruct (revocation_check now (certificate_sha256 p) l) as [[]|];
    [split; [done|by intros (e' & _ & _ & [=] & _)]| |split; [done|by intros (e' & _ & _ & [=] & _)]].
  split; [intros [= <-]; by exists e|]. by intros (e' & [= <-] & _ & _ & ->).
Qed.

(** C21. An agent is who its credential says.  With a table that was parsed and a
    revocation list that is being read again and again, a poll is authenticated
    exactly when it carries one bearer token of the table, over the certificate
    that token is pinned to, the last successful read of the revocation list is
    no older than its ceiling and does not name that certificate, and the
    identity's budget admits the attempt; the caller is then bound to the
    entry's agent and to the entry's scopes and nothing else. *)
Theorem agent_credential_exact (raw : string) (t : AgentTable) (bytes : option string)
    (set : gset string) (reads : list (N * option string)) (l : AgentRevocationList)
    (t0 refresh max_age now : N) (env : Env) (values : list string) (peer : option PeerIdentity)
    (v : Verifier St) (c : Caller) :
  parse_agent_token_table raw = Ok t →
  revocation_start bytes t0 refresh max_age = Ok l → read_revocation_file bytes = Ok set →
  (agent_authenticate (revocation_aware now (revocation_run reads l) (agent_resolve_with_peer t))
     env values peer v).1 = Ok c
  ↔ ∃ value token p e, values = [value] ∧ bearer_value value = Some token ∧ peer = Some p
      ∧ t !! sha256_digest token = Some e
      ∧ ae_expected_peer_certificate e = certificate_sha256 p
      ∧ now - (last_read reads (t0, set)).1 ≤ max_age
      ∧ (certificate_sha256 p ∉ (last_read reads (t0, set)).2)
      ∧ (admit_attempt env (sha256_digest token, certificate_sha256 p) v).1 = Ok tt
      ∧ c = entry_agent e.
Proof.
  intros Hraw Hl Hset.
  assert (map_Forall (λ _, usable) t) as Ht
    by (eapply parse_agent_entries_usable; [apply map_Forall_empty|done]).
  pose proof (λ fp, revocation_check_run bytes reads t0 refresh max_age now set fp l Hl Hset) as Hck.
  destruct (last_read reads (t0, set)) as [at_ set']. cbn [fst snd].
  rewrite agent_authenticate_ok. split.
  - intros Hv. pose proof Hv as (value & token & -> & Hb & Hr & Hpeer)%verify_sound.
    destruct peer as [p|]; [|by specialize (Hpeer eq_refl)].
    apply revocation_aware_ok in Hr as (e & He & Hcert & Hrev & ->); [|done].
    rewrite Hck in Hrev. destruct (N.leb_spec (now - at_) max_age); [|done].
    simplify_eq. exists value, token, p, e. split_and!; try done.
    + by apply bool_decide_eq_false in Hrev.
    + by eapply verify_admitted.
  - intros (value & token & p & e & -> & Hb & -> & He & Hcert & Hage & Hnot & Hadm & ->).
    apply (verify_complete _ _ _ token); [done| |done].
    apply revocation_aware_ok; [done|]. exists e. split_and!; try done.
    rewrite Hck. rewrite (proj2 (N.leb_le _ _)) by done. by rewrite bool_decide_false.
Qed.
End exact.

(** ** A concrete poll *)

Section demo.
Local Instance plain_auth : AuthDeps := {| header_to_str := Some; sha256_digest := id |}.

Definition demo_agent_token : string := "agent-token-0123456789".
Definition demo_certificate : string := String.string_of_list_ascii (replicate 32 "170"%char).
Definition demo_agent_entry : AgentWorkloadEntry :=
  mkAgentEntry demo_certificate "spiffe://apex/workload/agent-1" "agent-1" ["acme/prod"].
Definition demo_agent_table : string :=
  demo_agent_token +:+ "|" +:+ String.string_of_list_ascii (replicate 64 "a"%char)
  +:+ "|agent-1|acme/prod;".

(** One read of an armed, empty list at 0; the poll is at 5, within its age. *)
Definition demo_list : AgentRevocationList :=
  mkRevocationList (mutex_new (cache_store 0 ∅)) 10.

Lemma agent_credential_exact_witness :
  (agent_authenticate
     (revocation_aware 5 (revocation_run [(3, None)] demo_list)
        (agent_resolve_with_peer {[demo_agent_token := demo_agent_entry]}))
     (mkEnv (mkReadings 5 5) true) ["Bearer " +:+ demo_agent_token] (Some (mkPeer demo_certificate))
     (verifier_new None : Verifier InMemoryEphemeralStore)).1 = Ok (entry_agent demo_agent_entry).
Proof.
  apply (agent_credential_exact demo_agent_table _ (Some newline) ∅ [(3, None)] demo_list 0 1 10);
    [vm_compute; reflexivity..|].
  exists ("Bearer " +:+ demo_agent_token), demo_agent_token, (mkPeer demo_certificate), demo_agent_entry.
  split_and!; try (vm_compute; reflexivity); [vm_compute; discriminate|set_solver].
Defined.
End demo.
