(* ===== verification/Admit.v ===== *)
(** * Admission ceilings

    The rate ceilings of [apps/control-plane-api/src/service.rs]: [admit_in], one
    map of fixed-window buckets, and [admit_subject] and [admit_poll], which ask the
    shared accelerator first.  The process-local map decides in the end: the
    accelerator can only refuse more. *)
From S2P Require Import Prelude RustStr Digits Errors OperatorAuth Window Ephemeral.

Open Scope N_scope.

Definition DEFAULT_MAX_COMMANDS_PER_WINDOW : N := 50.
Definition DEFAULT_ADMISSION_WINDOW : N := from_secs 1.
Definition MAX_TRACKED_OPERATORS : N := 4096.
Definition DEFAULT_MAX_POLLS_PER_WINDOW : N := 5.
Definition MAX_TRACKED_AGENTS : N := 8192.
Definition CONTROL_ADMISSION_NAMESPACE : string := "apex.control.admission".

(** [control_admission_rate_limit_key] and [control_poll_rate_limit_key]. *)
Definition control_admission_rate_limit_key `{AuthDeps} (subject : string) : RateLimitKey :=
  mkRateKey CONTROL_ADMISSION_NAMESPACE ("op-" +:+ hex_string (sha256_digest subject)).
Definition control_poll_rate_limit_key `{AuthDeps} (subject : string) : RateLimitKey :=
  mkRateKey CONTROL_ADMISSION_NAMESPACE ("poll-" +:+ hex_string (sha256_digest subject)).

Record AdmissionBucket := mkAdmission {
  ad_window_started : N;
  ad_last_seen : N;
  ad_count : N;
}.
Abbreviation AdmissionMap := (gmap string AdmissionBucket).

(** [buckets.retain(..)]. *)
Definition retain_seen (now window : N) (m : AdmissionMap) : AdmissionMap :=
  filter (λ p, now - ad_last_seen p.2 < 2 * window) m.

(** [admit_in] under the lock; [now] and [later] are its two clock readings. *)
Definition admit_bucket (subject : string) (limit window max_tracked now later : N)
    : ST AdmissionMap CommandError unit := λ m,
  let m := retain_seen now window m in
  if bool_decide (m !! subject = None) && (max_tracked <=? map_len m) then (Err rate_limited, m)
  else
    let b := default (mkAdmission now now 0) (m !! subject) in
    let b := mkAdmission (ad_window_started b) now (ad_count b) in
    let b := if window <=? later - ad_window_started b then mkAdmission now now 0 else b in
    if limit <=? ad_count b then (Err rate_limited, <[subject := b]> m)
    else (Ok tt, <[subject := mkAdmission (ad_window_started b) (ad_last_seen b) (ad_count b + 1)]> m).

(** [admit_in]: a poisoned lock fails closed. *)
Definition admit_in (subject : string) (limit window max_tracked now later : N)
    : ST (Mutex AdmissionMap) CommandError unit :=
  with_mutex internal (admit_bucket subject limit window max_tracked now later).

Section shared.
Context {St : Type} `{AuthDeps, EphemeralStore St}.

(** The clock readings of one admission, and whether a slot for the accelerator
    was free. *)
Record AdmitEnv := mkAdmitEnv {
  adm_shared : Readings;
  adm_slot : bool;
  adm_now : N;
  adm_later : N;
}.

(** The accelerator's answer: [None] when it has none to give. *)
Definition shared_decision (env : AdmitEnv) (key : RateLimitKey) (limit window : N)
    (store : option (Mutex St)) : option RateLimitDecision * option (Mutex St) :=
  match store with
  | None => (None, None)
  | Some m =>
      if negb (adm_slot env) || poisoned m then (None, Some m)
      else let '(r, s) := check_rate_limit (adm_shared env) key limit window (guarded m) in
           (match r with Ok d => Some d | Err _ => None end, Some (mkMutex false s))
  end.

(** The common body of [admit_subject] and [admit_poll], given the local ceiling. *)
Definition admit_with (env : AdmitEnv) (key : RateLimitKey) (limit window : N)
    (local : ST (Mutex AdmissionMap) CommandError unit)
    : ST (option (Mutex St) * Mutex AdmissionMap) CommandError unit := λ s,
  let '(decision, store) := shared_decision env key limit window s.1 in
  match decision with
  | Some d => if negb (allowed d) then (Err rate_limited, (store, s.2))
              else let '(r, m) := local s.2 in (r, (store, m))
  | None => let '(r, m) := local s.2 in (r, (store, m))
  end.

(** [ControlGatewayService::admit]. *)
Definition admit_subject (env : AdmitEnv) (limit window : N) (subject : string)
    : ST (option (Mutex St) * Mutex AdmissionMap) CommandError unit :=
  admit_with env (control_admission_rate_limit_key subject) limit window
    (admit_in subject limit window MAX_TRACKED_OPERATORS (adm_now env) (adm_later env)).

(** [ControlGatewayService::admit_poll]. *)
Definition admit_poll (env : AdmitEnv) (limit window : N) (subject : string)
    : ST (option (Mutex St) * Mutex AdmissionMap) CommandError unit :=
  admit_with env (control_poll_rate_limit_key subject) limit window
    (admit_in subject limit window MAX_TRACKED_AGENTS (adm_now env) (adm_later env)).
End shared.

(** [min_poll_interval_seconds]. *)
Definition min_poll_interval_seconds (poll_limit window : N) : N :=
  let window := N.max (window / 1000000000) 1 in
  let limit := N.max poll_limit 1 in
  N.min ((window + limit - 1) / limit) u32_max.

(** ** Buckets over time *)

(** A bucket's window and count. *)
Definition window_of (b : AdmissionBucket) : WindowBucket := (ad_window_started b, ad_count b).

(** Buckets were last seen no earlier than their window started, or since [t]. *)
Definition seen_since (t : N) (m : AdmissionMap) : Prop :=
  map_Forall (λ _ b, ad_window_started b ≤ ad_last_seen b ∨ t ≤ ad_last_seen b) m.

Lemma retain_seen_lookup (now window : N) (m : AdmissionMap) (s : string) (b : AdmissionBucket) :
  retain_seen now window m !! s = Some b
  ↔ m !! s = Some b ∧ now - ad_last_seen b < 2 * window.
Proof. unfold retain_seen. by rewrite map_lookup_filter_Some. Qed.

Lemma retain_seen_spare (limit t now window : N) (m : AdmissionMap) (s : string) :
  seen_since t m → t ≤ now → now < t + window →
  window_spare limit t (window_of <$> retain_seen now window m !! s)
  ≤ window_spare limit t (window_of <$> m !! s).
Proof.
  intros Hm Ht Hw. destruct (m !! s) as [b|] eqn:Hb.
  - destruct (retain_seen now window m !! s) as [b'|] eqn:Hb'.
    + apply retain_seen_lookup in Hb' as [Hb' _]. by simplify_eq.
    + apply window_spare_forget. cbn.
      assert (¬ now - ad_last_seen b < 2 * window) as Hold.
      { intros Hlt. pose proof (proj2 (retain_seen_lookup now window m s b) (conj Hb Hlt)). congruence. }
      destruct (Hm s b Hb); lia.
  - destruct (retain_seen now window m !! s) as [b'|] eqn:Hb'; [|done].
    apply retain_seen_lookup in Hb' as [Hb' _]. congruence.
Qed.

(** One call, seen from any subject. *)
Lemma admit_bucket_spare (subject s : string) (limit window max_tracked t now later : N)
    (m : AdmissionMap) :
  seen_since t m → in_window window t now later → now < t + window →
  let '(r, m') := admit_bucket s limit window max_tracked now later m in
  seen_since t m' ∧
  window_spare limit t (window_of <$> m' !! subject)
  + (if bool_decide (s = subject) && is_ok r then 1 else 0)
  ≤ window_spare limit t (window_of <$> m !! subject).
Proof.
  intros Hm Hin Hnow. pose proof Hin as (Ht & _ & Hw). unfold admit_bucket.
  pose proof (retain_seen_spare limit t now window m subject Hm Ht Hnow) as Hret.
  assert (seen_since t (retain_seen now window m)) as Hm1.
  { intros s' b' [Hb' _]%retain_seen_lookup. by apply (Hm s'). }
  set (m1 := retain_seen now window m) in *. clearbody m1.
  destruct (_ && _).
  { rewrite andb_false_r. split; [done|]. lia. }
  pose proof (window_hit_spare window limit t now later (window_of <$> m1 !! s) Hin) as Hhit.
  unfold window_hit, window_refresh in Hhit.
  set (b := if window <=? later - _ then mkAdmission now now 0 else _).
  assert ((if window <=? later - (default (now, 0) (window_of <$> m1 !! s)).1
           then (now, 0) else default (now, 0) (window_of <$> m1 !! s)) = window_of b) as Hb.
  { subst b. destruct (m1 !! s); cbn; by destruct (window <=? _). }
  rewrite Hb in Hhit. cbn [window_of fst snd] in Hhit.
  assert (t ≤ ad_last_seen b) as Hseen by (subst b; by destruct (window <=? _)).
  clearbody b. destruct (limit <=? ad_count b); cbn [is_ok fst snd] in *.
  - split; [apply map_Forall_insert_2; [by right|done]|]. rewrite andb_false_r.
    destruct (decide (s = subject)) as [->|Hne];
      [rewrite lookup_insert_eq; cbn [fmap option_fmap option_map]|rewrite lookup_insert_ne by done];
      lia.
  - split; [apply map_Forall_insert_2; [by right|done]|]. rewrite andb_true_r.
    destruct (decide (s = subject)) as [->|Hne].
    + rewrite lookup_insert_eq, bool_decide_true by done. by etrans.
    + rewrite lookup_insert_ne, bool_decide_false by done. lia.
Qed.

(** Every bucket was last seen after its window started, and before every
    instant of [nows]. *)
Definition in_order (nows : list N) (m : AdmissionMap) : Prop :=
  map_Forall (λ _ b, ad_window_started b ≤ ad_last_seen b ∧ Forall (N.le (ad_last_seen b)) nows) m.

Lemma in_order_seen (t : N) (nows : list N) (m : AdmissionMap) : in_order nows m → seen_since t m.
Proof. intros Hm s b Hb. left. by apply (Hm s b Hb). Qed.

Lemma in_order_tail (now : N) (nows : list N) (m : AdmissionMap) :
  in_order (now :: nows) m → in_order nows m.
Proof. intros Hm s b Hb. destruct (Hm s b Hb) as [? [_ ?]%Forall_cons]. done. Qed.

Lemma admit_bucket_in_order (s : string) (limit window max_tracked now later : N) (nows : list N)
    (m : AdmissionMap) :
  Forall (N.le now) nows → in_order (now :: nows) m →
  in_order nows (admit_bucket s limit window max_tracked now later m).2.
Proof.
  intros Hnows Hm. unfold admit_bucket.
  assert (in_order (now :: nows) (retain_seen now window m)) as Hm1.
  { intros s' b' [Hb' _]%retain_seen_lookup. by apply (Hm s'). }
  set (m1 := retain_seen now window m) in *. clearbody m1.
  pose proof (in_order_tail _ _ _ Hm1) as Hm2. destruct (_ && _); [done|].
  set (b := if window <=? later - _ then mkAdmission now now 0 else _).
  assert (ad_window_started b ≤ ad_last_seen b ∧ ad_last_seen b = now) as [Hb Hl].
  { subst b. destruct (window <=? _); [done|]. cbn. destruct (m1 !! s) as [b0|] eqn:Hb0; [|done].
    destruct (Hm1 s b0 Hb0) as [? [? _]%Forall_cons]. cbn. lia. }
  clearbody b. rewrite Hl in Hb. destruct (limit <=? ad_count b);
    (apply map_Forall_insert_2; [|exact Hm2]); cbn; by rewrite Hl.
Qed.

(** ** The gateway's ceiling *)

Section run.
Context {St : Type} `{AuthDeps, EphemeralStore St}.

Abbreviation Ceiling := (option (Mutex St) * Mutex AdmissionMap)%type.

(** The answers to a sequence of admissions of operators. *)
Fixpoint admit_run (limit window : N) (calls : list (AdmitEnv * string)) (s : Ceiling)
    : list (result CommandError unit) * Ceiling :=
  match calls with
  | [] => ([], s)
  | (env, subject) :: calls =>
      let '(r, s1) := admit_subject env limit window subject s in
      let '(rs, s2) := admit_run limit window calls s1 in
      (r :: rs, s2)
  end.

(** How often a subject was admitted. *)
Fixpoint admitted (subject : string) (calls : list (AdmitEnv * string))
    (rs : list (result CommandError unit)) : N :=
  match calls, rs with
  | (_, s) :: calls, r :: rs =>
      (if bool_decide (s = subject) && is_ok r then 1 else 0) + admitted subject calls rs
  | _, _ => 0
  end.

Definition instants (calls : list (AdmitEnv * string)) : list N := (λ c, adm_now c.1) <$> calls.

(** The accelerator can refuse a call; the local ceiling decides the rest. *)
Lemma admit_local (env : AdmitEnv) (limit window : N) (subject : string) (store : option (Mutex St))
    (m : AdmissionMap) :
  let '(r, (_, m')) := admit_subject env limit window subject (store, mutex_new m) in
  r = Err rate_limited ∧ m' = mutex_new m
  ∨ (r, m') = (let '(r, m') := admit_bucket subject limit window MAX_TRACKED_OPERATORS (adm_now env)
                                 (adm_later env) m in (r, mutex_new m')).
Proof.
  unfold admit_subject, admit_with, admit_in, with_mutex. cbn [fst snd mutex_new poisoned guarded].
  destruct (admit_bucket _ _ _ _ _ _ m) as [r m'].
  destruct (shared_decision _ _ _ _ _) as [[d|] store']; [destruct (allowed d)|]; cbn; auto.
Qed.

Lemma admit_run_in_order (limit window : N) (calls : list (AdmitEnv * string)) (nows : list N)
    (store : option (Mutex St)) (m : AdmissionMap) :
  StronglySorted N.le (instants calls ++ nows) → in_order (instants calls ++ nows) m →
  ∃ store' m', (admit_run limit window calls (store, mutex_new m)).2 = (store', mutex_new m')
               ∧ in_order nows m'.
Proof.
  revert store m. induction calls as [|[env s] calls IH]; intros store m Hs Hm; [by exists store, m|].
  cbn [admit_run instants fmap list_fmap fst app] in *.
  apply StronglySorted_inv in Hs as [Hs Hle].
  pose proof (admit_local env limit window s store m) as Hloc.
  pose proof (admit_bucket_in_order s limit window MAX_TRACKED_OPERATORS _ (adm_later env) _ m Hle Hm)
    as Hord.
  destruct (admit_subject env limit window s _) as [r [store1 m1]].
  assert (∃ m1', m1 = mutex_new m1' ∧ in_order (instants calls ++ nows) m1') as (m1' & -> & Hm1).
  { destruct Hloc as [[_ ->]|Hloc]; [by eapply ex_intro; split; [|apply in_order_tail in Hm]|].
    destruct (admit_bucket _ _ _ _ _ _ m) as [r' m1']. simplify_eq. by exists m1'. }
  destruct (IH store1 m1' Hs Hm1) as (store2 & m2 & Heq & Hm2).
  destruct (admit_run limit window calls _) as [rs s2]. cbn [snd] in *. subst. by exists store2, m2.
Qed.

Lemma admit_run_spare (subject : string) (limit window t : N) (calls : list (AdmitEnv * string))
    (store : option (Mutex St)) (m : AdmissionMap) :
  seen_since t m →
  Forall (λ c, in_window window t (adm_now c.1) (adm_later c.1) ∧ adm_now c.1 < t + window) calls →
  admitted subject calls (admit_run limit window calls (store, mutex_new m)).1
  ≤ window_spare limit t (window_of <$> m !! subject).
Proof.
  intros Hm HF. revert store m Hm. induction HF as [|[env s] calls [Hin Hnow] _ IH]; intros store m Hm.
  { cbn. lia. }
  cbn [admit_run]. pose proof (admit_local env limit window s store m) as Hloc.
  pose proof (admit_bucket_spare subject s limit window MAX_TRACKED_OPERATORS t _ _ m Hm Hin Hnow)
    as Hstep.
  destruct (admit_subject env limit window s _) as [r [store1 m1]]. cbn [fst] in *.
  destruct Hloc as [[-> ->]|Hloc].
  - specialize (IH store1 m Hm). destruct (admit_run _ _ calls _) as [rs s2].
    cbn [fst admitted is_ok] in *. rewrite andb_false_r. lia.
  - destruct (admit_bucket _ _ _ _ _ _ m) as [r' m1']. simplify_eq. destruct Hstep as [Hm1 Hstep].
    specialize (IH store1 m1' Hm1). destruct (admit_run _ _ calls _) as [rs s2].
    cbn [fst admitted] in *. lia.
Qed.

(** C20. An operator cannot flood the gateway.  Whatever calls came before, from
    whichever operators, and whatever the shared accelerator answers or fails
    to answer, the calls of one operator within one admission window are
    admitted at most twice [limit] times: the rest of a window already running
    and one that starts. *)
Theorem admissions_bounded (subject : string) (limit window t : N)
    (earlier recent : list (AdmitEnv * string)) (store : option (Mutex St)) :
  StronglySorted N.le (instants earlier ++ instants recent) →
  Forall (λ c, in_window window t (adm_now c.1) (adm_later c.1) ∧ adm_now c.1 < t + window) recent →
  admitted subject recent
    (admit_run limit window recent (admit_run limit window earlier (store, mutex_new ∅)).2).1
  ≤ 2 * limit.
Proof.
  intros Hs Hrecent.
  destruct (admit_run_in_order limit window earlier (instants recent) store ∅ Hs)
    as (store' & m' & -> & Hm); [apply map_Forall_empty|].
  etrans; [|apply window_spare_bound]. apply admit_run_spare; [|done]. by eapply in_order_seen.
Qed.

(** ** Cooperative agents *)

(** The answers to a sequence of polls, of several agents. *)
Fixpoint poll_run (limit window : N) (calls : list (AdmitEnv * string)) (s : Ceiling)
    : list (result CommandError unit) * Ceiling :=
  match calls with
  | [] => ([], s)
  | (env, subject) :: calls =>
      let '(r, s1) := admit_poll env limit window subject s in
      let '(rs, s2) := poll_run limit window calls s1 in
      (r :: rs, s2)
  end.

(** When one agent polls. *)
Definition polls_of (subject : string) (calls : list (AdmitEnv * string)) : list N :=
  omap (λ c, if bool_decide (c.2 = subject) then Some (adm_now c.1) else None) calls.

(** The agent's bucket: its polls so far are [interval] apart, and so is the
    next one. *)
Definition paced (interval : N) (next : list N) (b : AdmissionBucket) : Prop :=
  0 < ad_count b ∧ ad_window_started b + (ad_count b - 1) * interval ≤ ad_last_seen b
  ∧ match next with n :: _ => ad_last_seen b + interval ≤ n | [] => True end.

Lemma admit_bucket_paced (subject : string) (limit window max_tracked interval now later : N)
    (next : list N) (X : gset string) (m : AdmissionMap) :
  0 < interval → window ≤ limit * interval → 0 < limit → now ≤ later →
  dom m ⊆ X → subject ∈ X → N.of_nat (size X) ≤ max_tracked →
  (∀ b, m !! subject = Some b → paced interval (now :: next) b) →
  match next with n :: _ => now + interval ≤ n | [] => True end →
  ∃ b, admit_bucket subject limit window max_tracked now later m
       = (Ok tt, <[subject := b]> (retain_seen now window m)) ∧ paced interval next b.
Proof.
  intros Hi Hw Hl Hle HX Hs Hsize Hb Hnext. unfold admit_bucket.
  set (m1 := retain_seen now window m).
  assert (dom m1 ⊆ X) as HX1 by (etrans; [apply dom_filter_subseteq|done]).
  assert ((bool_decide (m1 !! subject = None) && (max_tracked <=? map_len m1)) = false) as ->.
  { destruct (bool_decide_reflect (m1 !! subject = None)) as [Hnone|]; [|done].
    apply N.leb_gt. unfold map_len. rewrite <- size_dom.
    enough (size (dom m1) < size X)%nat by lia. apply subset_size. split; [done|].
    intros HX2. apply HX2, elem_of_dom in Hs as [b ?]. congruence. }
  set (b := if window <=? later - _ then mkAdmission now now 0 else _).
  assert (ad_count b < limit ∧ ad_last_seen b = now
          ∧ ad_window_started b + ad_count b * interval ≤ now) as (Hc & Hseen & Hpace).
  { subst b.
    match goal with |- context [window <=? ?x] => destruct (N.leb_spec window x) as [|Hwin] end;
      [cbn; lia|].
    destruct (m1 !! subject) as [b0|] eqn:Hb0; cbn in *; [|lia].
    apply retain_seen_lookup in Hb0 as [Hb0 _]. destruct (Hb b0 Hb0) as (Hpos & Hp & Hn).
    assert (ad_window_started b0 + ad_count b0 * interval ≤ now) as Hnow by nia.
    split_and!; [|done..]. nia. }
  clearbody b. rewrite (proj2 (N.leb_gt _ _) Hc). eexists. split; [done|].
  unfold paced. cbn. rewrite N.add_sub, Hseen. split_and!; [lia|done|done].
Qed.

(** The agent's bucket, whichever agent polls. *)
Definition paced_map (subject : string) (interval : N) (next : list N) (X : gset string)
    (m : AdmissionMap) : Prop :=
  dom m ⊆ X ∧ ∀ b, m !! subject = Some b → paced interval next b.

Lemma paced_other (subject s : string) (limit window max_tracked interval now later : N)
    (next : list N) (X : gset string) (m : AdmissionMap) :
  s ≠ subject → s ∈ X → paced_map subject interval next X m →
  paced_map subject interval next X (admit_bucket s limit window max_tracked now later m).2.
Proof.
  intros Hne Hs [HX Hb]. unfold admit_bucket. set (m1 := retain_seen now window m).
  assert (paced_map subject interval next X m1) as [HX1 Hb1].
  { split; [etrans; [apply dom_filter_subseteq|done]|].
    intros b [Hb' _]%retain_seen_lookup. by apply Hb. }
  assert (∀ b, paced_map subject interval next X (<[s := b]> m1)) as Hins.
  { intros b. split.
    { rewrite dom_insert_L. apply union_subseteq. by rewrite singleton_subseteq_l. }
    intros b'. rewrite lookup_insert_ne by done. apply Hb1. }
  destruct (_ && _); [done|].
  match goal with |- context [limit <=? ?x] => destruct (limit <=? x) end; apply Hins.
Qed.

Lemma poll_run_paced (subject : string) (limit window interval : N) (X : gset string)
    (calls : list (AdmitEnv * string)) (m : AdmissionMap) :
  0 < interval → window ≤ limit * interval → 0 < limit →
  subject ∈ X → N.of_nat (size X) ≤ MAX_TRACKED_AGENTS →
  Forall (λ c, c.2 ∈ X ∧ adm_now c.1 ≤ adm_later c.1) calls →
  Sorted (λ a b, a + interval ≤ b) (polls_of subject calls) →
  paced_map subject interval (polls_of subject calls) X m →
  admitted subject calls (poll_run limit window calls (None, mutex_new m)).1
  = len (polls_of subject calls).
Proof.
  intros Hi Hw Hl HX Hsize HF. revert m.
  induction HF as [|[env s] calls [Hs Hle] _ IH]; intros m Hsorted [Hdom Hm]; [done|].
  cbn [poll_run]. unfold admit_poll, admit_with. cbn [shared_decision fst snd].
  unfold admit_in, with_mutex. cbn [mutex_new poisoned guarded].
  unfold polls_of in *. cbn [omap list_omap fst snd] in *. fold (polls_of subject calls) in *.
  destruct (bool_decide_reflect (s = subject)) as [->|Hne].
  - apply Sorted_inv in Hsorted as [Hsorted Hhd].
    destruct (admit_bucket_paced subject limit window MAX_TRACKED_AGENTS interval (adm_now env)
                (adm_later env) (polls_of subject calls) X m) as (b & -> & Hb); try done.
    { destruct (polls_of subject calls); [done|]. by inversion Hhd. }
    assert (paced_map subject interval (polls_of subject calls) X
              (<[subject := b]> (retain_seen (adm_now env) window m))) as Hm'.
    { split; [rewrite dom_insert_L|].
      - apply union_subseteq. rewrite singleton_subseteq_l. split; [done|].
        etrans; [apply dom_filter_subseteq|done].
      - intros b'. rewrite lookup_insert_eq. by intros [= <-]. }
    specialize (IH _ Hsorted Hm'). fold (@mutex_new AdmissionMap) in IH.
    change (mkMutex false ?m) with (mutex_new m).
    destruct (poll_run limit window calls _) as [rs s2]. cbn [fst admitted] in *.
    rewrite bool_decide_true, IH by done. unfold len. simpl length. cbn. lia.
  - pose proof (paced_other subject s limit window MAX_TRACKED_AGENTS interval (adm_now env)
                  (adm_later env) _ X m Hne Hs (conj Hdom Hm)) as Hm'.
    destruct (admit_bucket s _ _ _ _ _ m) as [r m'] . cbn [snd] in Hm'.
    specialize (IH m' Hsorted Hm'). change (mkMutex false m') with (mutex_new m').
    destruct (poll_run limit window calls _) as [rs s2]. cbn [fst admitted] in *.
    by rewrite bool_decide_false.
Qed.

(** A cooperative agent is never throttled.  When the window is a whole
    number of seconds and an agent leaves at least the advertised
    [min_poll_interval_seconds] between its polls, every one of its polls is
    admitted, however the polls of the other agents interleave, as long as the
    table has a place for each of them. *)
Theorem cooperative_polls_admitted (subject : string) (limit secs : N) (X : gset string)
    (calls : list (AdmitEnv * string)) :
  0 < limit → 0 < secs → secs ≤ u32_max →
  subject ∈ X → N.of_nat (size X) ≤ MAX_TRACKED_AGENTS →
  Forall (λ c, c.2 ∈ X ∧ adm_now c.1 ≤ adm_later c.1) calls →
  Sorted (λ a b, a + from_secs (min_poll_interval_seconds limit (from_secs secs)) ≤ b)
    (polls_of subject calls) →
  admitted subject calls (poll_run limit (from_secs secs) calls (None, mutex_new ∅)).1
  = len (polls_of subject calls).
Proof.
  intros Hl Hsecs Hmax HX Hsize HF Hsorted.
  assert (min_poll_interval_seconds limit (from_secs secs) = (secs + limit - 1) / limit) as Hint.
  { unfold min_poll_interval_seconds, from_secs. rewrite N.div_mul by done.
    rewrite !N.max_l by lia. apply N.min_l.
    etrans; [|exact Hmax]. apply N.Div0.div_le_upper_bound. nia. }
  assert (secs ≤ limit * ((secs + limit - 1) / limit)) as Hceil.
  { pose proof (N.div_mod (secs + limit - 1) limit ltac:(lia)).
    pose proof (N.mod_lt (secs + limit - 1) limit ltac:(lia)). lia. }
  apply (poll_run_paced subject limit _ (from_secs (min_poll_interval_seconds limit (from_secs secs))) X);
    try done.
  - rewrite Hint. unfold from_secs. nia.
  - rewrite Hint. unfold from_secs. nia.
Qed.
End run.

(** ** Concrete runs *)

Section demo.
Local Instance plain_auth : AuthDeps := {| header_to_str := Some; sha256_digest := id |}.

(** Calls of two subjects, at the given instants. *)
Definition demo_admissions (nows : list N) : list (AdmitEnv * string) :=
  n ← nows; [(mkAdmitEnv (mkReadings n n) true n n, "alice"); (mkAdmitEnv (mkReadings n n) true n n, "bob")].

Lemma admissions_bounded_witness :
  admitted "alice" (demo_admissions [20; 30])
    (admit_run 1 (from_secs 1) (demo_admissions [20; 30])
       (admit_run 1 (from_secs 1) (demo_admissions [10])
          (Some (mutex_new ephemeral_new), mutex_new ∅)).2).1 ≤ 2 * 1.
Proof.
  apply (admissions_bounded "alice" 1 (from_secs 1) 20 (demo_admissions [10]) (demo_admissions [20; 30])).
  - cbn. repeat constructor; lia.
  - cbn. unfold in_window. repeat constructor; cbn; lia.
Defined.

(** Alice polls every second under a ceiling of two in two seconds. *)
Lemma cooperative_polls_admitted_witness :
  admitted "alice" (demo_admissions [0; from_secs 1; from_secs 2])
    (poll_run 2 (from_secs 2) (demo_admissions [0; from_secs 1; from_secs 2])
       (None : option (Mutex InMemoryEphemeralStore), mutex_new ∅)).1
  = len (polls_of "alice" (demo_admissions [0; from_secs 1; from_secs 2])).
Proof.
  apply (cooperative_polls_admitted "alice" 2 2 {["alice"; "bob"]}
           (demo_admissions [0; from_secs 1; from_secs 2])).
  - lia.
  - lia.
  - unfold u32_max. lia.
  - set_solver.
  - rewrite size_union by set_solver. rewrite !size_singleton. unfold MAX_TRACKED_AGENTS. lia.
  - repeat constructor; cbn; (set_solver || lia).
  - change (polls_of _ _) with [0; from_secs 1; from_secs 2].
    change (min_poll_interval_seconds _ _) with 1. repeat constructor; unfold from_secs; lia.
Defined.
End demo.
