(* ===== verification/OperatorTokens.v ===== *)
(** * The static operator token table

    [parse_operator_token_table] of [auth.rs] reads back every table written in
    its own format: each token, whatever visible characters it contains, is
    registered with exactly the scopes its entry lists. *)
From Stdlib Require Import Ascii.
From S2P Require Import Prelude RustStr Digits Errors OperatorAuth.

Open Scope N_scope.

(** An entry: a token, and its scopes or the global scope. *)
Record TokenEntry := mkEntry { te_token : string; te_scopes : option (list string) }.

Definition render_scopes (scopes : option (list string)) : string :=
  match scopes with None => "*" | Some l => str_join "," l end.
Definition render_entry (e : TokenEntry) : string :=
  te_token e +:+ String "|" (render_scopes (te_scopes e)).
Definition render_table (es : list TokenEntry) : string := str_join ";" (map render_entry es).

Definition entry_caller (i : N) (e : TokenEntry) : OperatorCaller :=
  mkOperator (static_subject i)
    match te_scopes e with
    | None => Global
    | Some l => Scoped (list_to_set l)
    end.

(** A token of 16 to 4096 visible characters other than the entry separator,
    and [*] or one to 256 different scopes. *)
Record entry_ok (e : TokenEntry) : Prop := {
  eo_len : MIN_OPERATOR_TOKEN_BYTES ≤ str_len (te_token e) ≤ MAX_OPERATOR_TOKEN_BYTES;
  eo_graphic : str_all is_ascii_graphic (te_token e) = true;
  eo_separator : no_char ";" (te_token e) = true;
  eo_scopes : match te_scopes e with
              | None => True
              | Some l => l ≠ [] ∧ Forall valid_scope l
                  ∧ N.of_nat (size (list_to_set l : gset string)) ≤ MAX_ALLOWED_SCOPES
              end;
}.

(** ** Scopes *)

Lemma add_scopes_complete (S : gset string) (raw : list string) :
  Forall valid_scope raw →
  N.of_nat (size (S ∪ list_to_set raw)) ≤ MAX_ALLOWED_SCOPES →
  add_scopes S raw = Ok (S ∪ list_to_set raw).
Proof.
  intros HF. revert S. induction HF as [|s raw (ws & ns & -> & Hw & Hn) _ IH]; intros S Hsize.
  { simpl. by rewrite (right_id_L ∅ (∪)). }
  cbn [add_scopes]. rewrite split_scope, Hw, Hn by done. cbn [negb orb].
  rewrite list_to_set_cons, (assoc_L (∪)), (comm_L (∪) S) in Hsize |- *.
  destruct (_ && _) eqn:Hfull; [|by apply IH].
  apply andb_true_iff in Hfull as [Hnew%bool_decide_eq_true Hfull%N.leb_le].
  assert (size ({[ws +:+ "/" +:+ ns]} ∪ S)
          ≤ size ({[ws +:+ "/" +:+ ns]} ∪ S ∪ list_to_set raw))%nat
    by (apply subseteq_size, union_subseteq_l).
  rewrite size_union, size_singleton in * by (by apply disjoint_singleton_l). lia.
Qed.

Lemma identifier_graphic (s : string) : is_identifier s = true → str_all is_ascii_graphic s = true.
Proof.
  intros Hs%is_identifier_bytes. eapply str_all_impl; [|done].
  intros c. destruct c as [[] [] [] [] [] [] [] []]; by vm_compute.
Qed.

Lemma valid_scope_graphic (s : string) : valid_scope s → str_all is_ascii_graphic s = true.
Proof.
  intros (ws & ns & -> & Hw & Hn). rewrite !str_all_app.
  by rewrite (identifier_graphic ws), (identifier_graphic ns).
Qed.

Lemma valid_scope_no_char (c : ascii) (s : string) :
  is_identifier_byte c = false → c ≠ "/"%char → valid_scope s → no_char c s = true.
Proof.
  intros Hc Hslash (ws & ns & -> & Hw & Hn). rewrite !no_char_app.
  rewrite (identifier_no_char c ws), (identifier_no_char c ns) by done. unfold no_char. simpl.
  unfold ascii_eqb.
  rewrite bool_decide_eq_false_2 by congruence. done.
Qed.

Lemma valid_scope_nonempty (s : string) : valid_scope s → str_is_empty s = false.
Proof. intros (ws & ns & -> & _). by destruct ws. Qed.

Lemma map_trim_id (l : list string) :
  Forall (λ s, str_all is_ascii_graphic s = true) l → map trim l = l.
Proof. induction 1 as [|s l Hs _ IH]; [done|]. simpl. by rewrite trim_all_graphic, IH. Qed.

Lemma filter_nonempty_id (l : list string) :
  Forall (λ s, str_is_empty s = false) l → filter (λ s, str_is_empty s = false) l = l.
Proof. rewrite Forall_forall. apply filter_all. Qed.

Lemma static_subject_valid (i : N) :
  i < MAX_OPERATOR_TOKEN_ENTRIES → is_valid_subject (static_subject i) = true.
Proof.
  intros Hi. assert (forallb (λ k, is_valid_subject (static_subject (N.of_nat k))) (seq 0 256) = true)
    as Hall by (vm_compute; reflexivity).
  rewrite forallb_forall in Hall. specialize (Hall (N.to_nat i)). rewrite N2Nat.id in Hall.
  apply Hall, in_seq. unfold MAX_OPERATOR_TOKEN_ENTRIES in Hi. lia.
Qed.

Lemma parse_scopes_render (i : N) (e : TokenEntry) :
  i < MAX_OPERATOR_TOKEN_ENTRIES → entry_ok e →
  parse_scopes i (render_scopes (te_scopes e)) = Ok (entry_caller i e).
Proof.
  intros Hi [_ _ _ Hs]. apply static_subject_valid in Hi.
  unfold parse_scopes, entry_caller, operator_global, operator_scoped. rewrite Hi.
  destruct (te_scopes e) as [l|]; [|done]. destruct Hs as (Hne & Hv & Hsize).
  assert (Forall (λ s, str_all is_ascii_graphic s = true) l) as Hg
    by (eapply Forall_impl; [done|apply valid_scope_graphic]).
  cbn [render_scopes]. rewrite trim_all_graphic by (by apply str_all_join).
  rewrite split_join, map_trim_id, filter_nonempty_id; try done.
  2: eapply Forall_impl; [exact Hv|apply valid_scope_nonempty].
  2: eapply Forall_impl; [exact Hv|]; intros s; by apply valid_scope_no_char.
  assert (String.eqb (str_join "," l) "*" = false) as ->.
  { apply String.eqb_neq. intros Heq. apply (f_equal (split ",")) in Heq.
    rewrite split_join in Heq; [|done|eapply Forall_impl; [exact Hv|]; intros s; by apply valid_scope_no_char].
    subst l. inversion Hv as [|? ? (ws & ns & Hw & _) _]. by destruct ws as [|? []]. }
  destruct l as [|s l]; [done|]. cbn [negb].
  rewrite add_scopes_complete by (by rewrite ?(left_id_L ∅ (∪))). by rewrite (left_id_L ∅ (∪)).
Qed.

Lemma render_scopes_graphic (e : TokenEntry) :
  entry_ok e → str_all is_ascii_graphic (render_scopes (te_scopes e)) = true.
Proof.
  intros [_ _ _ Hs]. destruct (te_scopes e) as [l|]; [|done]. apply str_all_join; [done|].
  eapply Forall_impl; [apply Hs|apply valid_scope_graphic].
Qed.

Lemma render_scopes_no_char (c : ascii) (e : TokenEntry) :
  is_identifier_byte c = false → c ≠ "/"%char → c ≠ ","%char → c ≠ "*"%char →
  entry_ok e → no_char c (render_scopes (te_scopes e)) = true.
Proof.
  intros Hc H1 H2 H3 [_ _ _ Hs]. destruct (te_scopes e) as [l|]; cbn [render_scopes].
  - apply str_all_join.
    + unfold ascii_eqb. by rewrite bool_decide_eq_false_2.
    + eapply Forall_impl; [apply Hs|]. intros s. by apply valid_scope_no_char.
  - unfold no_char. simpl. unfold ascii_eqb. by rewrite bool_decide_eq_false_2.
Qed.

Lemma render_entry_graphic (e : TokenEntry) :
  entry_ok e → str_all is_ascii_graphic (render_entry e) = true.
Proof.
  intros He. unfold render_entry. rewrite str_all_app, (eo_graphic e He).
  cbn [str_all]. by rewrite render_scopes_graphic.
Qed.

Lemma render_entry_separator (e : TokenEntry) : entry_ok e → no_char ";" (render_entry e) = true.
Proof.
  intros He. unfold render_entry. rewrite no_char_app, (eo_separator e He).
  change (no_char ";" (String "|" ?s)) with (no_char ";" s). by apply render_scopes_no_char.
Qed.

Section tokens.
Context `{AuthDeps}.

Lemma parse_entry_render (i : N) (e : TokenEntry) :
  i < MAX_OPERATOR_TOKEN_ENTRIES → entry_ok e →
  parse_entry i (render_entry e) = Ok (te_token e, entry_caller i e).
Proof.
  intros Hi He. unfold parse_entry. rewrite (proj2 (N.leb_gt _ _) Hi). unfold render_entry.
  rewrite rsplit_once_last by (by apply render_scopes_no_char).
  destruct (eo_len e He) as [H1 H2]. rewrite (proj2 (N.ltb_ge _ _) H1), (proj2 (N.ltb_ge _ _) H2).
  rewrite (eo_graphic e He). cbn [negb]. by rewrite parse_scopes_render.
Qed.

(** The digests of the tokens, and the callers by digest. *)
Definition digests (es : list TokenEntry) : list string := map (λ e, sha256_digest (te_token e)) es.

Fixpoint add_entries (i : N) (es : list TokenEntry) (t : TokenTable) : TokenTable :=
  match es with
  | [] => t
  | e :: es => add_entries (i + 1) es (with_token (te_token e) (entry_caller i e) t)
  end.

Lemma parse_entries_render (i : N) (seen : gset string) (t : TokenTable) (es : list TokenEntry) :
  i + len es ≤ MAX_OPERATOR_TOKEN_ENTRIES → Forall entry_ok es →
  NoDup (digests es) → (∀ d, d ∈ digests es → d ∉ seen) →
  parse_entries i seen t (map render_entry es) = Ok (add_entries i es t).
Proof.
  intros Hlen HF. revert i seen t Hlen.
  induction HF as [|e es He _ IH]; intros i seen t Hlen Hnd Hseen; [done|].
  cbn [map parse_entries add_entries]. unfold len in Hlen. simpl in Hlen.
  rewrite parse_entry_render by (done || lia). cbn [mbind result_bind].
  apply NoDup_cons in Hnd as [Hnin Hnd].
  rewrite bool_decide_eq_false_2 by (apply Hseen; by left).
  apply IH; [unfold len; lia|done|]. intros d Hd. apply not_elem_of_union. split.
  - apply not_elem_of_singleton. intros ->. by apply Hnin.
  - apply Hseen. by right.
Qed.

Lemma add_entries_lookup (i : N) (es : list TokenEntry) (t : TokenTable) (d : string) :
  d ∉ digests es → add_entries i es t !! d = t !! d.
Proof.
  revert i t. induction es as [|e es IH]; intros i t Hd; [done|]. simpl.
  apply not_elem_of_cons in Hd as [Hne Hd]. rewrite IH by done. by apply lookup_insert_ne.
Qed.

Lemma add_entries_resolve (i : N) (es : list TokenEntry) (t : TokenTable) (k : nat) (e : TokenEntry) :
  NoDup (digests es) → es !! k = Some e →
  table_resolve (add_entries i es t) (te_token e) = Ok (entry_caller (i + N.of_nat k) e).
Proof.
  revert i t k. induction es as [|e' es IH]; intros i t k Hnd Hk; [done|].
  apply NoDup_cons in Hnd as [Hnin Hnd]. destruct k as [|k]; simpl in Hk; cbn [add_entries].
  - injection Hk as ->. unfold table_resolve. rewrite add_entries_lookup by done.
    unfold with_token. rewrite lookup_insert_eq. simpl. by rewrite N.add_0_r.
  - rewrite (IH _ _ k) by done. do 2 f_equal. lia.
Qed.

(** The token table round trip.  A table of at most 256 entries with
    different tokens, written [token|scopes;token|scopes;...], is read back in
    full: each token resolves to the operator of its own entry with exactly the
    scopes written there, even when the token contains the field separator or a
    colon, and no other digest resolves to anyone. *)
Theorem token_table_round_trip (es : list TokenEntry) :
  es ≠ [] → len es ≤ MAX_OPERATOR_TOKEN_ENTRIES → Forall entry_ok es → NoDup (digests es) →
  ∃ table, parse_operator_token_table (render_table es) = Ok table
    ∧ (∀ k e, es !! k = Some e →
         table_resolve table (te_token e) = Ok (entry_caller (N.of_nat k) e))
    ∧ (∀ token, sha256_digest token ∉ digests es →
         table_resolve table token = Err unauthenticated).
Proof.
  intros Hne Hlen HF Hnd. exists (add_entries 0 es ∅). split_and!.
  - unfold parse_operator_token_table, render_table.
    assert (Forall (λ s, str_all is_ascii_graphic s = true) (map render_entry es)) as Hg
      by (apply Forall_map; eapply Forall_impl; [exact HF|apply render_entry_graphic]).
    rewrite split_join, map_trim_id, filter_nonempty_id; try done.
    + by apply parse_entries_render.
    + apply Forall_map. eapply Forall_impl; [exact HF|]. intros e He.
      unfold render_entry. by destruct (te_token e).
    + by destruct es.
    + apply Forall_map. eapply Forall_impl; [exact HF|apply render_entry_separator].
  - intros k e Hk. by rewrite (add_entries_resolve 0 es ∅ k e Hnd Hk).
  - intros token Hd. unfold table_resolve. by rewrite add_entries_lookup.
Qed.
End tokens.

(** ** A concrete table *)
Definition demo_entries : list TokenEntry :=
  [mkEntry "pipe|and:colon|in|token" (Some ["ws/prod"; "ws:eu/ns.1"]);
   mkEntry "break-glass-0000" None].

Lemma token_table_round_trip_witness :
  ∃ table,
    @parse_operator_token_table {| header_to_str := Some; sha256_digest := id |}
      "pipe|and:colon|in|token|ws/prod,ws:eu/ns.1;break-glass-0000|*" = Ok table
    ∧ @table_resolve {| header_to_str := Some; sha256_digest := id |} table "break-glass-0000"
      = Ok (mkOperator "operator:static:1" Global).
Proof.
  destruct (@token_table_round_trip {| header_to_str := Some; sha256_digest := id |} demo_entries)
    as (table & Ht & Hr & _).
  - discriminate.
  - vm_compute. discriminate.
  - assert (∀ ws ns, is_identifier ws = true → is_identifier ns = true →
      valid_scope (ws +:+ "/" +:+ ns)) as Hv by (intros ws ns ? ?; by exists ws, ns).
    repeat constructor; try (vm_compute; reflexivity || discriminate || exact I).
    + apply (Hv "ws" "prod"); reflexivity.
    + apply (Hv "ws:eu" "ns.1"); reflexivity.
  - apply (bool_decide_unpack _). vm_compute. exact I.
  - exists table. split; [exact Ht|]. exact (Hr 1%nat _ eq_refl).
Defined.
