(* ===== verification/AuthBudget.v ===== *)
(** * The failure budget of operator authentication

    What the per-token failure buckets of [OperatorTokenAuthenticator] promise
    over any sequence of requests: how often a wrong token reaches the
    resolver, when a right one is let through, and what happens when the table
    of tracked tokens is full. *)
From S2P Require Import Prelude RustStr Digits Errors OperatorAuth.

Open Scope N_scope.

(** A request: its authorization headers and the two clock readings. *)
Record Attempt := mkAttempt { at_values : list string; at_now : N; at_later : N }.

Section budget.
Context `{AuthDeps}.
Variable resolve : string → result CommandError OperatorCaller.

(** The lock is never poisoned: nothing panics while it is held. *)
Definition auth_step (m : FailureMap) (a : Attempt) : result CommandError OperatorCaller * FailureMap :=
  let '(r, m') := authenticate resolve (at_values a) (at_now a) (at_later a) (mutex_new m) in
  (r, guarded m').

Fixpoint auth_run (m : FailureMap) (l : list Attempt) : FailureMap :=
  match l with
  | [] => m
  | a :: l => auth_run (auth_step m a).2 l
  end.

(** The digest of the token a request presents. *)
Definition attempt_digest (a : Attempt) : option string :=
  match extract_bearer_token (at_values a) with
  | Ok token => Some (sha256_digest token)
  | Err _ => None
  end.

(** The request presents a token with this digest, reaches the resolver and
    is refused there. *)
Definition failed_guess (m : FailureMap) (d : string) (a : Attempt) : bool :=
  match extract_bearer_token (at_values a) with
  | Ok token =>
      bool_decide (sha256_digest token = d)
      && is_ok (check_and_record_attempt d (at_now a) (at_later a) (mutex_new m)).1
      && negb (is_ok (resolve token))
  | Err _ => false
  end.

Fixpoint failed_guesses (m : FailureMap) (d : string) (l : list Attempt) : N :=
  match l with
  | [] => 0
  | a :: l => (if failed_guess m d a then 1 else 0) + failed_guesses (auth_step m a).2 d l
  end.

(** ** One step *)

(** What a step does to the bucket of the presented token, and to the others. *)
Lemma auth_step_token (m : FailureMap) (a : Attempt) (token : string) :
  extract_bearer_token (at_values a) = Ok token →
  let d := sha256_digest token in
  let b := refresh (at_now a) (at_later a) (default (mkBucket (at_now a) 0) (m !! d)) in
  auth_step m a =
    if bool_decide (m !! d = None) && (MAX_TRACKED_IDENTITIES <=? map_len m)
    then (Err rate_limited, m)
    else if AUTH_FAILURES_PER_WINDOW <=? failures b then (Err rate_limited, <[d := b]> m)
    else match resolve token with
         | Ok c => (Ok c, <[d := b]> m)
         | Err e => (Err e, <[d := mkBucket (window_started b) (sat_add32 (failures b) 1)]> m)
         end.
Proof.
  intros Ht d b. unfold auth_step, authenticate, check_and_record_attempt, with_mutex.
  rewrite Ht. simpl. fold d. fold b. destruct (_ && _); [done|].
  destruct (_ <=? failures b); [done|]. destruct (resolve token) as [c|e]; [done|]. simpl.
  unfold record_failure. simpl. by rewrite alter_insert_eq.
Qed.

Lemma auth_step_no_token (m : FailureMap) (a : Attempt) :
  attempt_digest a = None → (auth_step m a).2 = m.
Proof.
  unfold attempt_digest, auth_step, authenticate.
  by destruct (extract_bearer_token (at_values a)).
Qed.

Lemma auth_step_other (m : FailureMap) (a : Attempt) (d : string) :
  attempt_digest a ≠ Some d → (auth_step m a).2 !! d = m !! d.
Proof.
  intros Hd. destruct (extract_bearer_token (at_values a)) as [token|] eqn:Ht.
  - rewrite (auth_step_token _ _ _ Ht). unfold attempt_digest in Hd. rewrite Ht in Hd.
    assert (sha256_digest token ≠ d) by congruence.
    destruct (_ && _); [done|]. destruct (AUTH_FAILURES_PER_WINDOW <=? _); simpl; [by rewrite lookup_insert_ne|].
    destruct (resolve token); simpl; by rewrite lookup_insert_ne.
  - rewrite auth_step_no_token; [done|]. unfold attempt_digest. by rewrite Ht.
Qed.

(** ** Guesses *)

(** How many more guesses of [d] may still fail in a window that begins at
    [t0]: those the current bucket leaves, and a fresh bucket's if the current
    one is older than the window. *)
Definition guesses_left (t0 : N) (m : FailureMap) (d : string) : N :=
  match m !! d with
  | None => AUTH_FAILURES_PER_WINDOW
  | Some b =>
      (AUTH_FAILURES_PER_WINDOW - failures b)
      + (if window_started b <? t0 then AUTH_FAILURES_PER_WINDOW else 0)
  end.

Lemma guess_spends (t0 : N) (m : FailureMap) (d : string) (a : Attempt) :
  t0 ≤ at_now a → at_later a < t0 + AUTH_WINDOW →
  (if failed_guess m d a then 1 else 0) + guesses_left t0 (auth_step m a).2 d ≤ guesses_left t0 m d.
Proof.
  intros Hnow Hlater. destruct (decide (attempt_digest a = Some d)) as [Hd|Hd].
  2:{ unfold guesses_left. rewrite (auth_step_other _ _ _ Hd). unfold failed_guess.
      unfold attempt_digest in Hd. destruct (extract_bearer_token (at_values a)) as [token|]; [|lia].
      rewrite bool_decide_eq_false_2 by congruence. simpl. lia. }
  unfold attempt_digest in Hd.
  destruct (extract_bearer_token (at_values a)) as [token|] eqn:Ht; [|done].
  injection Hd as Hd. unfold failed_guess. rewrite Ht, (auth_step_token _ _ _ Ht).
  rewrite bool_decide_eq_true_2 by done. unfold check_and_record_attempt, with_mutex. simpl.
  rewrite Hd. unfold guesses_left. destruct (m !! d) as [b|] eqn:Hm; simpl.
  - unfold refresh. destruct (N.leb_spec AUTH_WINDOW (at_later a - window_started b)) as [Hw|Hw]; simpl.
    + destruct (N.ltb_spec (window_started b) t0); [|unfold AUTH_WINDOW, from_secs in *; lia].
      destruct (resolve token); simpl; rewrite lookup_insert_eq; simpl.
      all: destruct (N.ltb_spec (at_now a) t0); unfold AUTH_FAILURES_PER_WINDOW, sat_add32, u32_max; lia.
    + destruct (N.leb_spec AUTH_FAILURES_PER_WINDOW (failures b)); simpl;
        [rewrite lookup_insert_eq; lia|].
      destruct (resolve token); simpl; rewrite lookup_insert_eq; simpl; [lia|].
      unfold AUTH_FAILURES_PER_WINDOW, sat_add32, u32_max in *. lia.
  - destruct (MAX_TRACKED_IDENTITIES <=? map_len m); simpl; [rewrite Hm; lia|].
    unfold refresh. simpl.
    destruct (AUTH_WINDOW <=? at_later a - at_now a); simpl;
      (destruct (resolve token); simpl; rewrite lookup_insert_eq; simpl;
       destruct (N.ltb_spec (at_now a) t0); unfold AUTH_FAILURES_PER_WINDOW, sat_add32, u32_max; lia).
Qed.

Lemma guesses_left_bound (t0 : N) (m : FailureMap) (d : string) :
  guesses_left t0 m d ≤ 2 * AUTH_FAILURES_PER_WINDOW.
Proof. unfold guesses_left, AUTH_FAILURES_PER_WINDOW. repeat case_match; lia. Qed.

(** Guessing is bounded.  Whatever the requests before and between them,
    and whatever other tokens they present, at most 40 requests with one
    token reach the resolver and fail there within any stretch of time
    shorter than the one-second window. *)
Theorem guesses_bounded (m : FailureMap) (d : string) (t0 : N) (l : list Attempt) :
  Forall (λ a, t0 ≤ at_now a ∧ at_later a < t0 + AUTH_WINDOW) l →
  failed_guesses m d l ≤ 2 * AUTH_FAILURES_PER_WINDOW.
Proof.
  intros Hl. etrans; [|apply (guesses_left_bound t0 m d)].
  revert m. induction Hl as [|a l [H1 H2] _ IH]; intros m; simpl; [lia|].
  specialize (IH (auth_step m a).2). pose proof (guess_spends t0 m d a H1 H2). lia.
Qed.

(** A valid token is let through: a token the resolver knows is accepted
    as long as fewer than 20 requests with that same token failed in the
    current window and it is already tracked or the table has room.  Other
    tokens' failures do not count against it. *)
Theorem valid_token_accepted (m : FailureMap) (a : Attempt) (token : string) (c : OperatorCaller) :
  extract_bearer_token (at_values a) = Ok token → resolve token = Ok c →
  match m !! sha256_digest token with
  | Some b => failures b < AUTH_FAILURES_PER_WINDOW
              ∨ window_started b + AUTH_WINDOW ≤ at_later a
  | None => map_len m < MAX_TRACKED_IDENTITIES
  end →
  (auth_step m a).1 = Ok c.
Proof.
  intros Ht Hc Hm. rewrite (auth_step_token _ _ _ Ht). simpl.
  destruct (m !! sha256_digest token) as [b|]; simpl.
  - unfold refresh. destruct (N.leb_spec AUTH_WINDOW (at_later a - window_started b)); simpl;
      [by rewrite Hc|].
    destruct (N.leb_spec AUTH_FAILURES_PER_WINDOW (failures b)); [|by rewrite Hc].
    unfold AUTH_WINDOW, from_secs in *. lia.
  - destruct (N.leb_spec MAX_TRACKED_IDENTITIES (map_len m)); [lia|]. simpl.
    unfold refresh. simpl. by destruct (AUTH_WINDOW <=? _); simpl; rewrite Hc.
Qed.

(** ** A full table *)

Lemma auth_step_dom (m : FailureMap) (a : Attempt) : dom m ⊆ dom (auth_step m a).2.
Proof.
  destruct (extract_bearer_token (at_values a)) as [token|] eqn:Ht.
  - rewrite (auth_step_token _ _ _ Ht). destruct (_ && _); [done|].
    destruct (AUTH_FAILURES_PER_WINDOW <=? _); [|destruct (resolve token)]; simpl; rewrite dom_insert_L;
      apply union_subseteq_r.
  - rewrite auth_step_no_token; [done|]. unfold attempt_digest. by rewrite Ht.
Qed.

Lemma map_len_dom (m m' : FailureMap) : dom m ⊆ dom m' → map_len m ≤ map_len m'.
Proof.
  intros Hd%subseteq_size. unfold map_len. rewrite <-!size_dom. lia.
Qed.

(** Once full, the table tracks no new token. *)
Lemma full_step (m : FailureMap) (a : Attempt) :
  MAX_TRACKED_IDENTITIES ≤ map_len m → dom (auth_step m a).2 = dom m.
Proof.
  intros Hfull. destruct (extract_bearer_token (at_values a)) as [token|] eqn:Ht.
  - rewrite (auth_step_token _ _ _ Ht). apply N.leb_le in Hfull. rewrite Hfull, andb_true_r.
    case_bool_decide as Hm; [done|].
    assert (sha256_digest token ∈ dom m) by (apply elem_of_dom; by apply not_eq_None_Some).
    destruct (AUTH_FAILURES_PER_WINDOW <=? _); [|destruct (resolve token)]; simpl; rewrite dom_insert_L;
      by apply subseteq_union_1_L, singleton_subseteq_l.
  - rewrite auth_step_no_token; [done|]. unfold attempt_digest. by rewrite Ht.
Qed.

Lemma full_run (m : FailureMap) (l : list Attempt) :
  MAX_TRACKED_IDENTITIES ≤ map_len m → dom (auth_run m l) = dom m.
Proof.
  revert m. induction l as [|a l IH]; intros m Hfull; [done|]. simpl.
  pose proof (full_step m a Hfull) as Hd. rewrite IH; [done|].
  etrans; [done|]. apply map_len_dom. by rewrite Hd.
Qed.

(** A step either finds the table full or tracks the token presented. *)
Lemma tracked_or_full (m : FailureMap) (a : Attempt) (d : string) :
  attempt_digest a = Some d →
  d ∈ dom (auth_step m a).2 ∨ MAX_TRACKED_IDENTITIES ≤ map_len (auth_step m a).2.
Proof.
  unfold attempt_digest. destruct (extract_bearer_token (at_values a)) as [token|] eqn:Ht; [|done].
  intros [= <-]. rewrite (auth_step_token _ _ _ Ht). destruct (_ && _) eqn:Hf.
  - right. apply andb_true_iff in Hf as [_ Hf]. by apply N.leb_le.
  - left. destruct (AUTH_FAILURES_PER_WINDOW <=? _); [|destruct (resolve token)]; simpl; rewrite dom_insert_L;
      by apply elem_of_union_l, elem_of_singleton.
Qed.

Lemma run_tracks (m : FailureMap) (l : list Attempt) :
  (∀ d, d ∈ omap attempt_digest l → d ∈ dom (auth_run m l))
  ∨ MAX_TRACKED_IDENTITIES ≤ map_len (auth_run m l).
Proof.
  assert (∀ m l, dom m ⊆ dom (auth_run m l)) as Hmono.
  { intros m' l'. revert m'. induction l' as [|a l' IH]; intros m'; [done|].
    simpl. etrans; [apply auth_step_dom|apply IH]. }
  revert m. induction l as [|a l IH]; intros m; simpl.
  { left. intros d Hd. by apply elem_of_nil in Hd. }
  destruct (IH (auth_step m a).2) as [Hin|]; [|by right].
  destruct (attempt_digest a) as [d0|] eqn:Ha; [|by left].
  destruct (tracked_or_full m a d0 Ha) as [Hd|Hfull].
  - left. intros d [->|Hd']%elem_of_cons; [by apply (Hmono _ l)|by apply Hin].
  - right. etrans; [done|]. apply map_len_dom, Hmono.
Qed.

(** Tracked tokens are never forgotten, so the table fills up for good:
    once 4096 different tokens have been presented, valid or not and at
    whatever time, a token that is not tracked is refused as rate limited in
    every later request, however much time has passed and even if it is
    valid. *)
Theorem full_table_locks_out (l l' : list Attempt) (a : Attempt) (token : string) :
  MAX_TRACKED_IDENTITIES ≤ N.of_nat (size (list_to_set (omap attempt_digest l) : gset string)) →
  extract_bearer_token (at_values a) = Ok token →
  sha256_digest token ∉ dom (auth_run ∅ l) →
  (auth_step (auth_run (auth_run ∅ l) l') a).1 = Err rate_limited.
Proof.
  intros Hsize Ht Hd. assert (MAX_TRACKED_IDENTITIES ≤ map_len (auth_run ∅ l)) as Hfull.
  { destruct (run_tracks ∅ l) as [Hin|]; [|done]. etrans; [done|]. unfold map_len.
    rewrite <-size_dom.
    assert (list_to_set (omap attempt_digest l) ⊆ dom (auth_run ∅ l)) as Hs%subseteq_size; [|lia].
    intros d Hd'%elem_of_list_to_set. by apply Hin. }
  pose proof (full_run _ l' Hfull) as Hd'.
  rewrite (auth_step_token _ _ _ Ht). rewrite bool_decide_eq_true_2.
  - assert (map_len (auth_run ∅ l) ≤ map_len (auth_run (auth_run ∅ l) l')) as Hle
      by (apply map_len_dom; by rewrite Hd').
    destruct (N.leb_spec MAX_TRACKED_IDENTITIES (map_len (auth_run (auth_run ∅ l) l'))); [done|lia].
  - apply not_elem_of_dom. by rewrite Hd'.
Qed.

Lemma run_dom (m : FailureMap) (l : list Attempt) (d : string) :
  d ∈ dom (auth_run m l) → d ∈ dom m ∨ d ∈ omap attempt_digest l.
Proof.
  revert m. induction l as [|a l IH]; intros m; simpl; [by left|]. intros [Hd|Hd]%IH.
  - destruct (decide (attempt_digest a = Some d)) as [->|Hne]; [right; by left|].
    left. by rewrite elem_of_dom, (auth_step_other _ _ _ Hne), <-elem_of_dom in Hd.
  - right. destruct (attempt_digest a); [by right|done].
Qed.
End budget.

(** ** Concrete requests

    The header library returns visible text as it is, and the digest is the
    token itself; one token is known. *)
Definition demo_auth : AuthDeps := {| header_to_str := Some; sha256_digest := id |}.

Definition demo_token : string := "0123456789abcdef".
Definition demo_resolve (token : string) : result CommandError OperatorCaller :=
  if String.eqb token demo_token then Ok demo_operator else Err unauthenticated.

(** Fifty guesses of a wrong token in half a second. *)
Definition demo_guesses : list Attempt :=
  map (λ i, let t := from_millis (10 * N.of_nat i) in mkAttempt ["Bearer guess"] t t) (seq 0 50).

Lemma guesses_bounded_witness :
  @failed_guesses demo_auth demo_resolve ∅ "guess" demo_guesses = 20
  ∧ @failed_guesses demo_auth demo_resolve ∅ "guess" demo_guesses ≤ 2 * AUTH_FAILURES_PER_WINDOW.
Proof.
  split; [vm_compute; reflexivity|].
  apply (@guesses_bounded demo_auth demo_resolve ∅ "guess" 0).
  apply (bool_decide_unpack _). vm_compute. exact I.
Defined.

Lemma valid_token_accepted_witness :
  (@auth_step demo_auth demo_resolve (@auth_run demo_auth demo_resolve ∅ demo_guesses)
     (mkAttempt ["Bearer " +:+ demo_token] (from_millis 500) (from_millis 500))).1
  = Ok demo_operator.
Proof.
  apply (@valid_token_accepted demo_auth demo_resolve _ _ demo_token); vm_compute; reflexivity.
Defined.

(** 4096 requests with made-up tokens, the valid token not among them. *)
Definition junk_token (i : nat) : string :=
  "t" +:+ String.string_of_list_ascii (fixed_digits 4 (N.of_nat i)).
Definition junk_attempt (i : nat) : Attempt := mkAttempt ["Bearer " +:+ junk_token i] 0 0.
Definition junk : list Attempt := map junk_attempt (seq 0 4096).

Lemma digit_graphic (n : N) : is_ascii_graphic (digit n) = true.
Proof.
  pose proof (digit_is_digit n) as H. unfold is_ascii_digit, is_ascii_graphic, in_range in *.
  simpl in *. apply andb_true_iff in H as [?%N.leb_le ?%N.leb_le]. simpl in *.
  apply andb_true_iff. rewrite !N.leb_le. lia.
Qed.

Lemma junk_digest (i : nat) : @attempt_digest demo_auth (junk_attempt i) = Some (junk_token i).
Proof.
  assert (str_all is_ascii_graphic (junk_token i) = true) as Hg.
  { unfold junk_token. rewrite str_all_app. simpl. by rewrite !digit_graphic. }
  unfold attempt_digest. cbn [at_values junk_attempt].
  rewrite (extract_bearer_ok (H:=demo_auth) _ (junk_token i)); [done|done|..].
  - eapply str_all_impl; [|done]. intros c Hc%graphic_range. unfold is_ascii.
    apply N.ltb_lt. lia.
  - unfold junk_token. rewrite str_len_app. unfold str_len. simpl. lia.
  - by apply graphic_no_whitespace.
Qed.

Lemma junk_digests : omap (@attempt_digest demo_auth) junk = map junk_token (seq 0 4096).
Proof.
  unfold junk. induction (seq 0 4096) as [|i l IH]; [done|].
  cbn [map omap list_omap]. rewrite junk_digest. by rewrite <-IH.
Qed.

Lemma junk_many :
  MAX_TRACKED_IDENTITIES
  ≤ N.of_nat (size (list_to_set (omap (@attempt_digest demo_auth) junk) : gset string)).
Proof.
  rewrite junk_digests, size_list_to_set, length_map, length_seq; [done|].
  apply NoDup_fmap_2_strong; [|apply NoDup_seq]. intros i j Hi%elem_of_seq Hj%elem_of_seq Hij.
  apply (f_equal (strip_prefix "t")) in Hij. unfold junk_token in Hij.
  rewrite !strip_prefix_app in Hij. apply (inj Some) in Hij.
  apply (f_equal String.list_ascii_of_string) in Hij.
  rewrite !String.list_ascii_of_string_of_list_ascii in Hij.
  apply (fixed_digits_inj 4) in Hij; change (10 ^ N.of_nat 4) with 10000; lia.
Qed.

Lemma full_table_locks_out_witness :
  demo_resolve demo_token = Ok demo_operator
  ∧ (@auth_step demo_auth demo_resolve
      (@auth_run demo_auth demo_resolve (@auth_run demo_auth demo_resolve ∅ junk) [])
      (mkAttempt ["Bearer " +:+ demo_token] (from_secs 86400) (from_secs 86400))).1
    = Err rate_limited.
Proof.
  split; [reflexivity|].
  apply (@full_table_locks_out demo_auth demo_resolve junk [] _ demo_token); [exact junk_many|reflexivity|].
  intros [Hd|Hd]%run_dom; [by apply elem_of_dom in Hd as [? ?]|].
  rewrite junk_digests in Hd. by apply list_elem_of_fmap in Hd as (i & Hi & _).
Defined.
