(* ===== verification/ProxySpec.v ===== *)
(** * Proxy configuration

    [apps/control-plane-api/src/proxy.rs], [proxy/error.rs] and
    [proxy/validation.rs]: the specification of an MCP proxy, its revisions and
    drafts, and the validators every specification passes before it is stored.
    A [Uuid] is represented by its hyphenated text, the only form the code
    compares or prints it in. *)
From Stdlib Require Import Ascii.
From S2P Require Import Prelude RustStr Digits ProxyText Time OperatorAuth.

Open Scope N_scope.

(** ** Errors *)

Record ProxyError := mkProxyError { pe_code : string; pe_message : string }.

#[global] Instance ProxyError_eq_dec : EqDecision ProxyError.
Proof. solve_decision. Defined.

Definition invalid_proxy_draft (message : string) : ProxyError :=
  mkProxyError "INVALID_PROXY_DRAFT" message.
Definition invalid_proxy_scope : ProxyError := mkProxyError "INVALID_PROXY_SCOPE"
  "Proxy drafts require an exact workspace and namespace scope.".
Definition invalid_proxy_spec (message : string) : ProxyError :=
  mkProxyError "INVALID_PROXY_SPEC" message.
Definition unknown_transport : ProxyError := mkProxyError "UNKNOWN_PROXY_TRANSPORT"
  "Proxy configuration uses an unsupported transport.".
Definition invalid_request_id : ProxyError := mkProxyError "INVALID_PROXY_REQUEST_ID"
  "Proxy mutations require a lowercase UUIDv7 request_id.".
Definition idempotency_conflict : ProxyError := mkProxyError "PROXY_IDEMPOTENCY_CONFLICT"
  "request_id was already used for a different proxy mutation payload.".
Definition identity_conflict : ProxyError := mkProxyError "PROXY_IDENTITY_CONFLICT"
  "A proxy with this identity already exists in the requested scope.".
Definition revision_conflict : ProxyError := mkProxyError "PROXY_REVISION_CONFLICT"
  "The proxy changed since the caller's expected revision.".
Definition proxy_not_found : ProxyError := mkProxyError "PROXY_NOT_FOUND"
  "No proxy with that identity exists in the requested scope.".
Definition revision_not_found : ProxyError := mkProxyError "PROXY_REVISION_NOT_FOUND"
  "No proxy revision with that identity exists in the requested scope.".
Definition immutable_revision : ProxyError := mkProxyError "IMMUTABLE_PROXY_REVISION"
  "Published proxy revisions are immutable and cannot be edited in place.".
Definition invalid_cursor : ProxyError := mkProxyError "INVALID_PROXY_CURSOR"
  "The proxy list cursor is invalid.".
Definition invalid_lifecycle_transition : ProxyError :=
  mkProxyError "INVALID_PROXY_LIFECYCLE_TRANSITION"
    "The requested proxy lifecycle transition is not allowed.".
Definition approval_required : ProxyError := mkProxyError "PROXY_APPROVAL_REQUIRED"
  "Proxy deployment requires an approved immutable revision.".
Definition event_sink_unavailable : ProxyError := mkProxyError "PROXY_EVENT_SINK_UNAVAILABLE"
  "The durable proxy event sink is not available.".
Definition provider_failed : ProxyError := mkProxyError "PROXY_PROVIDER_FAILED"
  "The proxy runtime provider rejected the requested operation.".

(** ** Bounds *)

Definition MAX_IDENTIFIER_LEN : N := 128.
Definition MAX_ENDPOINT_LEN : N := 512.
Definition MAX_STRING_LEN : N := 512.
Definition MAX_COLLECTION_LIMIT : N := 1000000.
Definition MAX_UPSTREAMS : N := 64.
Definition MAX_EXPOSED_TOOLS : N := 256.
Definition MAX_CLI_PROFILES : N := 32.
Definition MAX_AUTH_BINDINGS : N := 32.
Definition MAX_DESTINATIONS : N := 64.
Definition MAX_ALLOWED_ORIGINS : N := 32.
Definition MAX_SCOPES : N := 64.
Definition MAX_SECRET_REFS : N := 32.
Definition MAX_ARGV : N := 64.
Definition MAX_ARG_SCHEMA_FIELDS : N := 64.
Definition MAX_ENVIRONMENT_ENTRIES : N := 64.
Definition MAX_EXIT_CODES : N := 32.
Definition MAX_TIMEOUT_MS : N := 300000.
Definition MAX_OUTPUT_BYTES : N := 16 * 1024 * 1024.
Definition MAX_CONFIG_HASH_LEN : N := 64.

(** ** Data *)

(** [SecretRef], [ProxyId] and [ProxyRevisionId], by the text they hold. *)
Abbreviation SecretRef := string.
Abbreviation ProxyId := string.
Abbreviation ProxyRevisionId := string.

Inductive ProxyLifecycleState :=
  | Draft | Validating | AwaitingApproval | Provisioning | Ready | Degraded | Paused
  | Failed | Retiring | Retired.
Inductive ProxyRedactionStatus := Redacted | PartiallyRedacted.
Inductive ProxyTransport := StreamableHttp | Stdio.
Inductive ProxyExposure := ExposePrivate | ExposeExternal.
Inductive ProxyToolClassification := ToolRead | ToolBusinessWrite | ToolHighImpact.
Inductive ApprovalMode := ApproveNone | ApproveOperator | ApproveDualOperator.
Inductive DataClassification := Public | Internal | Confidential | Restricted.
Inductive PrivateDestinationAllowance := Denied | Allowed.

#[global] Instance ProxyLifecycleState_eq_dec : EqDecision ProxyLifecycleState.
Proof. solve_decision. Defined.
#[global] Instance ProxyRedactionStatus_eq_dec : EqDecision ProxyRedactionStatus.
Proof. solve_decision. Defined.
#[global] Instance ProxyTransport_eq_dec : EqDecision ProxyTransport.
Proof. solve_decision. Defined.
#[global] Instance ProxyExposure_eq_dec : EqDecision ProxyExposure.
Proof. solve_decision. Defined.
#[global] Instance ProxyToolClassification_eq_dec : EqDecision ProxyToolClassification.
Proof. solve_decision. Defined.
#[global] Instance ApprovalMode_eq_dec : EqDecision ApprovalMode.
Proof. solve_decision. Defined.
#[global] Instance DataClassification_eq_dec : EqDecision DataClassification.
Proof. solve_decision. Defined.
#[global] Instance PrivateDestinationAllowance_eq_dec : EqDecision PrivateDestinationAllowance.
Proof. solve_decision. Defined.

(** [EgressDestination], whose one variant is [Https]. *)
Record EgressDestination := Https {
  eg_host : string;
  eg_port : N;
  eg_private_allowance : PrivateDestinationAllowance;
}.

Record Ingress := mkIngress {
  in_transport : ProxyTransport;
  in_exposure : ProxyExposure;
  in_host : string;
  in_path : string;
  in_allowed_origins : list string;
  in_protocol_revision : string;
  in_authentication_required : bool;
}.

(** [RuntimeProfile]; its [NetworkPolicy] is the list of destinations. *)
Record RuntimeProfile := mkRuntime {
  rp_image_digest : string;
  rp_cpu_limit : string;
  rp_memory_limit : string;
  rp_network_policy : string;
  rp_filesystem_policy : string;
  rp_rootless : bool;
  rp_destinations : list EgressDestination;
}.

Record UpstreamBinding := mkUpstream {
  ub_upstream_id : string;
  ub_display_name : string;
  ub_transport : ProxyTransport;
  ub_endpoint : string;
  ub_credential_ref : option SecretRef;
  ub_secret_refs : list SecretRef;
  ub_server_identity : string;
  ub_tool_catalog_hash : option string;
}.

Record ExposedTool := mkTool {
  et_upstream_id : string;
  et_tool_name : string;
  et_alias : string;
  et_classification : ProxyToolClassification;
}.

Record ArgSchemaField := mkArgField { af_name : string; af_required : bool }.

(** [CliProfile]; its [ArgSchema] is the list of fields. *)
Record CliProfile := mkCli {
  cp_profile_id : string;
  cp_executable_ref : string;
  cp_executable_digest : string;
  cp_fixed_argv : list string;
  cp_argv_schema : list ArgSchemaField;
  cp_working_directory : string;
  cp_environment_allowlist : list string;
  cp_secret_refs : list SecretRef;
  cp_filesystem_policy : string;
  cp_network_policy : string;
  cp_shell : bool;
  cp_timeout_ms : N;
  cp_max_output_bytes : N;
  cp_allowed_exit_codes : list Z;
}.

Record AuthBinding := mkAuthBinding {
  ab_binding_id : string;
  ab_inbound_subject : string;
  ab_outbound_credential_ref : option SecretRef;
  ab_scopes : list string;
}.

Record GovernanceBinding := mkGovernance {
  gb_policy_id : string;
  gb_approval_mode : ApprovalMode;
  gb_data_classification : DataClassification;
  gb_rate_limit_per_minute : N;
  gb_concurrency_limit : N;
  gb_budget_limit_per_day : N;
  gb_retention_days : N;
}.

Record ProxySpec := mkSpec {
  sp_ingress : Ingress;
  sp_upstreams : list UpstreamBinding;
  sp_exposed_tools : list ExposedTool;
  sp_cli_profiles : list CliProfile;
  sp_auth_bindings : list AuthBinding;
  sp_governance_binding : GovernanceBinding;
  sp_runtime_profile : RuntimeProfile;
}.

Record ProxyDraft := mkDraft {
  dr_proxy_id : ProxyId;
  dr_scope : ExactScope;
  dr_display_name : string;
  dr_slug : string;
  dr_spec : ProxySpec;
}.

Record McpProxyRevision := mkRevision {
  rv_proxy_id : ProxyId;
  rv_revision_id : ProxyRevisionId;
  rv_spec : ProxySpec;
  rv_config_hash : string;
  rv_lifecycle_state : ProxyLifecycleState;
  rv_redaction_status : ProxyRedactionStatus;
  rv_created_by : string;
  rv_created_at : string;
}.

#[global] Instance EgressDestination_eq_dec : EqDecision EgressDestination.
Proof. solve_decision. Defined.
#[global] Instance Ingress_eq_dec : EqDecision Ingress.
Proof. solve_decision. Defined.
#[global] Instance RuntimeProfile_eq_dec : EqDecision RuntimeProfile.
Proof. solve_decision. Defined.
#[global] Instance UpstreamBinding_eq_dec : EqDecision UpstreamBinding.
Proof. solve_decision. Defined.
#[global] Instance ExposedTool_eq_dec : EqDecision ExposedTool.
Proof. solve_decision. Defined.
#[global] Instance ArgSchemaField_eq_dec : EqDecision ArgSchemaField.
Proof. solve_decision. Defined.
#[global] Instance CliProfile_eq_dec : EqDecision CliProfile.
Proof. solve_decision. Defined.
#[global] Instance AuthBinding_eq_dec : EqDecision AuthBinding.
Proof. solve_decision. Defined.
#[global] Instance GovernanceBinding_eq_dec : EqDecision GovernanceBinding.
Proof. solve_decision. Defined.
#[global] Instance ProxySpec_eq_dec : EqDecision ProxySpec.
Proof. solve_decision. Defined.
#[global] Instance McpProxyRevision_eq_dec : EqDecision McpProxyRevision.
Proof. solve_decision. Defined.

(** ** Hosts *)

Definition is_bracket (c : ascii) : bool := ascii_eqb c "[" || ascii_eqb c "]".

(** [is_private_host]. *)
Definition is_private_host (value : string) : bool :=
  let normalized := trim_matches is_bracket value in
  let lowercase_host := to_ascii_lowercase normalized in
  if String.eqb lowercase_host "localhost" || String.eqb lowercase_host "host.docker.internal"
     || str_ends_with ".internal" lowercase_host || str_ends_with ".local" lowercase_host
  then true
  else
    match parse_ip_addr normalized with
    | None => false
    | Some (IpV4 ipv4) =>
        v4_is_private ipv4 || v4_is_loopback ipv4 || v4_is_link_local ipv4
        || v4_is_broadcast ipv4 || v4_is_documentation ipv4
    | Some (IpV6 ipv6) =>
        v6_is_loopback ipv6 || v6_is_unique_local ipv6 || v6_is_unicast_link_local ipv6
    end.

(** [EgressDestination::requires_private_allowance]. *)
Definition requires_private_allowance (d : EgressDestination) : bool := is_private_host (eg_host d).

(** [is_dns_hostname]. *)
Definition is_dns_label (label : string) : bool :=
  negb (str_is_empty label) && (str_len label <=? 63)
  && str_all (λ c, is_ascii_alphanumeric c || ascii_eqb c "-") label
  && match String.list_ascii_of_string label with
     | c :: _ => is_ascii_alphanumeric c
     | [] => false
     end
  && match last (String.list_ascii_of_string label) with
     | Some c => is_ascii_alphanumeric c
     | None => false
     end.
Definition is_dns_hostname (value : string) : bool :=
  (str_len value <=? 253) && forallb is_dns_label (split "." value).

(** ** The field validators *)

(** [field_error] ignores the field's name. *)
Definition field_error : string :=
  "Proxy configuration contains an empty, invalid, or unbounded string field.".

Definition validate_secret_ref (secret_ref : SecretRef) : result ProxyError unit :=
  if (MAX_ENDPOINT_LEN <? str_len secret_ref) || negb (str_starts_with "secret://" secret_ref)
     || str_has_control secret_ref
  then Err (invalid_proxy_spec "Proxy credentials must use bounded SecretRef references.")
  else Ok tt.

Definition validate_identifier (value : string) : result ProxyError unit :=
  if str_is_empty value || (MAX_IDENTIFIER_LEN <? str_len value) || str_has_control value
     || negb (is_identifier value)
  then Err (invalid_proxy_spec field_error)
  else Ok tt.

Definition validate_required_string (value : string) : result ProxyError unit :=
  if str_is_empty value || (MAX_STRING_LEN <? str_len value) || str_has_control value
  then Err (invalid_proxy_spec field_error)
  else Ok tt.

Definition validate_endpoint (value : string) : result ProxyError unit :=
  if str_is_empty value || (MAX_ENDPOINT_LEN <? str_len value) || str_has_control value
  then Err (invalid_proxy_spec field_error)
  else Ok tt.

Definition validate_host (value : string) : result ProxyError unit :=
  let normalized := trim_matches is_bracket value in
  if str_is_empty normalized || (MAX_ENDPOINT_LEN <? str_len value)
     || str_contains "://" normalized || str_contains "/" normalized
     || str_has_whitespace normalized
     || (bool_decide (parse_ip_addr normalized = None) && negb (is_dns_hostname normalized))
  then Err (invalid_proxy_spec "Proxy hosts require a bounded host reference.")
  else Ok tt.

Definition is_lower_hex_hash (value : string) : bool :=
  (str_len value =? MAX_CONFIG_HASH_LEN) && str_all is_lower_hex value.

Definition validate_sha256_digest (value message : string) : result ProxyError unit :=
  let valid_prefix := str_starts_with "sha256:" value in
  let digest := default EmptyString (strip_prefix "sha256:" value) in
  if negb valid_prefix || negb (str_len digest =? MAX_CONFIG_HASH_LEN)
     || negb (str_all is_lower_hex digest)
  then Err (invalid_proxy_spec message)
  else Ok tt.

Definition validate_hex_hash (value message : string) : result ProxyError unit :=
  if negb (str_len value =? MAX_CONFIG_HASH_LEN) || negb (str_all is_lower_hex value)
  then Err (invalid_proxy_spec message)
  else Ok tt.

Definition validate_collection (name : string) (actual maximum : N) (code : string)
    : result ProxyError unit :=
  if maximum <? actual then
    Err (mkProxyError code
      (if String.eqb name "upstreams"
       then "Proxy specifications contain too many upstream bindings."
       else if String.eqb name "exposed tools"
       then "Proxy specifications contain too many exposed tools."
       else if String.eqb name "CLI profiles"
       then "Proxy specifications contain too many CLI profiles."
       else if String.eqb name "auth bindings"
       then "Proxy specifications contain too many auth bindings."
       else "Proxy specification collection exceeds its bounded size."))
  else Ok tt.

(** ** The parts of a specification *)

Definition validate_ingress (ingress : Ingress) : result ProxyError unit :=
  validate_host (in_host ingress) ;;
  validate_required_string (in_path ingress) ;;
  validate_collection "allowed origins" (len (in_allowed_origins ingress)) MAX_ALLOWED_ORIGINS
    "TOO_MANY_ALLOWED_ORIGINS" ;;
  try_each validate_endpoint (in_allowed_origins ingress) ;;
  validate_required_string (in_protocol_revision ingress).

Definition validate_upstream (upstream : UpstreamBinding) : result ProxyError unit :=
  validate_identifier (ub_upstream_id upstream) ;;
  validate_required_string (ub_display_name upstream) ;;
  validate_endpoint (ub_endpoint upstream) ;;
  credential ← ok_or (ub_credential_ref upstream) (mkProxyError "MISSING_CREDENTIAL_REFERENCE"
    "Each upstream binding must reference a stored credential.");
  validate_secret_ref credential ;;
  validate_collection "upstream secret references" (len (ub_secret_refs upstream)) MAX_SECRET_REFS
    "TOO_MANY_SECRET_REFS" ;;
  try_each validate_secret_ref (ub_secret_refs upstream) ;;
  validate_required_string (ub_server_identity upstream) ;;
  match ub_tool_catalog_hash upstream with
  | Some hash =>
      validate_hex_hash hash "Proxy upstream hashes must be lowercase SHA-256 values."
  | None => Ok tt
  end.

Definition validate_exposed_tool (tool : ExposedTool) (upstream_ids : gset string)
    : result ProxyError unit :=
  validate_identifier (et_upstream_id tool) ;;
  validate_identifier (et_tool_name tool) ;;
  validate_identifier (et_alias tool) ;;
  if negb (bool_decide (et_upstream_id tool ∈ upstream_ids))
  then Err (invalid_proxy_spec "Proxy tool exposure must bind to a declared upstream.")
  else if String.eqb (et_tool_name tool) "portfolio.read"
          && negb (bool_decide (et_classification tool = ToolRead))
  then Err (invalid_proxy_spec "The portfolio.read acceptance slice must remain read-only.")
  else Ok tt.

Definition validate_exit_code (code : Z) : result ProxyError unit :=
  if negb ((-128 <=? code)%Z && (code <=? 255)%Z)
  then Err (invalid_proxy_spec "CLI allowed exit codes must be bounded process exit codes.")
  else Ok tt.

Definition validate_cli_profile (profile : CliProfile) : result ProxyError unit :=
  validate_identifier (cp_profile_id profile) ;;
  validate_endpoint (cp_executable_ref profile) ;;
  validate_sha256_digest (cp_executable_digest profile)
    "CLI executable digests must be lowercase SHA-256 values." ;;
  validate_collection "CLI argv entries" (len (cp_fixed_argv profile)) MAX_ARGV
    "TOO_MANY_CLI_ARGV_ENTRIES" ;;
  try_each validate_required_string (cp_fixed_argv profile) ;;
  validate_collection "CLI argv schema fields" (len (cp_argv_schema profile))
    MAX_ARG_SCHEMA_FIELDS "TOO_MANY_CLI_ARG_SCHEMA_FIELDS" ;;
  try_each (λ field, validate_identifier (af_name field)) (cp_argv_schema profile) ;;
  validate_endpoint (cp_working_directory profile) ;;
  validate_collection "CLI environment entries" (len (cp_environment_allowlist profile))
    MAX_ENVIRONMENT_ENTRIES "TOO_MANY_CLI_ENVIRONMENT_ENTRIES" ;;
  try_each validate_identifier (cp_environment_allowlist profile) ;;
  validate_collection "CLI secret references" (len (cp_secret_refs profile)) MAX_SECRET_REFS
    "TOO_MANY_SECRET_REFS" ;;
  try_each validate_secret_ref (cp_secret_refs profile) ;;
  validate_required_string (cp_filesystem_policy profile) ;;
  validate_required_string (cp_network_policy profile) ;;
  if cp_shell profile
  then Err (mkProxyError "CLI_SHELL_DISABLED_REQUIRED"
    "CLI profiles must disable shell interpretation.")
  else if (cp_timeout_ms profile =? 0) || (MAX_TIMEOUT_MS <? cp_timeout_ms profile)
  then Err (mkProxyError "CLI_TIMEOUT_REQUIRED" "CLI profiles require a bounded timeout.")
  else if (cp_max_output_bytes profile =? 0) || (MAX_OUTPUT_BYTES <? cp_max_output_bytes profile)
  then Err (mkProxyError "CLI_MAX_OUTPUT_REQUIRED" "CLI profiles require a bounded output limit.")
  else
    validate_collection "CLI exit codes" (len (cp_allowed_exit_codes profile)) MAX_EXIT_CODES
      "TOO_MANY_CLI_EXIT_CODES" ;;
    try_each validate_exit_code (cp_allowed_exit_codes profile).

Definition validate_auth_binding (binding : AuthBinding) : result ProxyError unit :=
  validate_identifier (ab_binding_id binding) ;;
  validate_required_string (ab_inbound_subject binding) ;;
  credential ← ok_or (ab_outbound_credential_ref binding)
    (mkProxyError "MISSING_CREDENTIAL_REFERENCE"
      "Auth bindings must reference a stored outbound credential.");
  validate_secret_ref credential ;;
  validate_collection "auth scopes" (len (ab_scopes binding)) MAX_SCOPES
    "TOO_MANY_AUTH_SCOPES" ;;
  try_each validate_identifier (ab_scopes binding).

Definition validate_governance (g : GovernanceBinding) : result ProxyError unit :=
  validate_identifier (gb_policy_id g) ;;
  if (gb_rate_limit_per_minute g =? 0) || (MAX_COLLECTION_LIMIT <? gb_rate_limit_per_minute g)
  then Err (invalid_proxy_spec "Governance rate limits must be positive and bounded.")
  else if (gb_concurrency_limit g =? 0) || (MAX_COLLECTION_LIMIT <? gb_concurrency_limit g)
  then Err (invalid_proxy_spec "Governance concurrency limits must be positive and bounded.")
  else if (gb_budget_limit_per_day g =? 0) || (MAX_COLLECTION_LIMIT <? gb_budget_limit_per_day g)
  then Err (invalid_proxy_spec "Governance budget limits must be positive and bounded.")
  else if (gb_retention_days g =? 0) || (3650 <? gb_retention_days g)
  then Err (invalid_proxy_spec "Governance retention must be positive and bounded.")
  else Ok tt.

Definition validate_destination (d : EgressDestination) : result ProxyError unit :=
  validate_host (eg_host d) ;;
  if eg_port d =? 0
  then Err (invalid_proxy_spec "Proxy egress destinations require a valid port.")
  else if requires_private_allowance d && negb (bool_decide (eg_private_allowance d = Allowed))
  then Err (mkProxyError "PRIVATE_DESTINATION_REQUIRES_ALLOW_RULE"
    "Private network destinations require an explicit server-side allow rule.")
  else Ok tt.

Definition validate_runtime (runtime : RuntimeProfile) : result ProxyError unit :=
  validate_sha256_digest (rp_image_digest runtime)
    "Proxy runtime images require lowercase SHA-256 digests." ;;
  validate_required_string (rp_cpu_limit runtime) ;;
  validate_required_string (rp_memory_limit runtime) ;;
  validate_required_string (rp_network_policy runtime) ;;
  validate_required_string (rp_filesystem_policy runtime) ;;
  validate_collection "egress destinations" (len (rp_destinations runtime)) MAX_DESTINATIONS
    "TOO_MANY_EGRESS_DESTINATIONS" ;;
  if bool_decide (rp_destinations runtime = [])
  then Err (mkProxyError "MISSING_EGRESS_DESTINATIONS"
    "Proxy runtime profiles require explicit egress destinations.")
  else try_each validate_destination (rp_destinations runtime).

(** ** Specifications *)

(** The loop over the upstreams: each is valid and its identifier is new. *)
Fixpoint validate_upstreams (upstream_ids : gset string) (upstreams : list UpstreamBinding)
    : result ProxyError (gset string) :=
  match upstreams with
  | [] => Ok upstream_ids
  | upstream :: upstreams =>
      validate_upstream upstream ;;
      if bool_decide (ub_upstream_id upstream ∈ upstream_ids)
      then Err (invalid_proxy_spec "Proxy upstream identifiers must be unique.")
      else validate_upstreams ({[ub_upstream_id upstream]} ∪ upstream_ids) upstreams
  end.

(** The loop over the tools: each is valid and its alias is new. *)
Fixpoint validate_tools (upstream_ids aliases : gset string) (tools : list ExposedTool)
    : result ProxyError unit :=
  match tools with
  | [] => Ok tt
  | tool :: tools =>
      validate_exposed_tool tool upstream_ids ;;
      if bool_decide (et_alias tool ∈ aliases)
      then Err (invalid_proxy_spec "Proxy tool aliases must be unique.")
      else validate_tools upstream_ids ({[et_alias tool]} ∪ aliases) tools
  end.

Definition validate_proxy_spec (spec : ProxySpec) : result ProxyError unit :=
  validate_ingress (sp_ingress spec) ;;
  validate_collection "upstreams" (len (sp_upstreams spec)) MAX_UPSTREAMS
    "TOO_MANY_UPSTREAMS" ;;
  validate_collection "exposed tools" (len (sp_exposed_tools spec)) MAX_EXPOSED_TOOLS
    "TOO_MANY_EXPOSED_TOOLS" ;;
  validate_collection "CLI profiles" (len (sp_cli_profiles spec)) MAX_CLI_PROFILES
    "TOO_MANY_CLI_PROFILES" ;;
  validate_collection "auth bindings" (len (sp_auth_bindings spec)) MAX_AUTH_BINDINGS
    "TOO_MANY_AUTH_BINDINGS" ;;
  if bool_decide (sp_upstreams spec = [])
  then Err (invalid_proxy_spec "Proxy configuration requires at least one upstream binding.")
  else if bool_decide (sp_exposed_tools spec = [])
  then Err (mkProxyError "EMPTY_TOOL_ALLOWLIST"
    "Proxy revisions must explicitly expose at least one tool.")
  else
    upstream_ids ← validate_upstreams ∅ (sp_upstreams spec);
    validate_tools upstream_ids ∅ (sp_exposed_tools spec) ;;
    try_each validate_cli_profile (sp_cli_profiles spec) ;;
    try_each validate_auth_binding (sp_auth_bindings spec) ;;
    validate_governance (sp_governance_binding spec) ;;
    validate_runtime (sp_runtime_profile spec).

Definition validate_mcp_proxy_revision (revision : McpProxyRevision) : result ProxyError unit :=
  validate_proxy_spec (rv_spec revision) ;;
  validate_hex_hash (rv_config_hash revision)
    "Proxy revisions require a lowercase SHA-256 config hash.".

(** [McpProxyRevision::new]. *)
Definition revision_new (proxy_id : ProxyId) (revision_id : ProxyRevisionId) (spec : ProxySpec)
    (config_hash : string) (lifecycle_state : ProxyLifecycleState)
    : result ProxyError McpProxyRevision :=
  let revision := mkRevision proxy_id revision_id spec config_hash lifecycle_state Redacted
    EmptyString EmptyString in
  validate_mcp_proxy_revision revision ;;
  Ok revision.

(** ** Constructors of bounded values *)

Definition bounded_identifier (value : string) : result ProxyError string :=
  if str_is_empty value || (MAX_IDENTIFIER_LEN <? str_len value) || str_has_control value
     || negb (is_identifier value)
  then Err (invalid_proxy_spec "Proxy configuration contains an invalid bounded identifier.")
  else Ok value.

Definition bounded_required_string (value : string) : result ProxyError string :=
  if str_is_empty value || (MAX_STRING_LEN <? str_len value) || str_has_control value
  then Err (invalid_proxy_spec "Proxy configuration contains an unbounded string field.")
  else Ok value.

Definition bounded_endpoint (value : string) : result ProxyError string :=
  if str_is_empty value || (MAX_ENDPOINT_LEN <? str_len value) || str_has_control value
  then Err (invalid_proxy_spec "Proxy configuration requires bounded endpoint references.")
  else Ok value.

Definition bounded_host (value : string) : result ProxyError string :=
  validate_host value ;; Ok value.

(** [SecretRef::new], which [SecretRef::from_reference] calls. *)
Definition secret_ref_new (value : string) : result ProxyError SecretRef :=
  if str_is_empty value || (MAX_ENDPOINT_LEN <? str_len value) || str_has_control value
     || negb (str_starts_with "secret://" value)
  then Err (invalid_proxy_spec "Proxy secret references must be bounded SecretRef references.")
  else Ok value.

Definition optional_secret_ref (value : string) : result ProxyError (option SecretRef) :=
  if str_is_empty value then Ok None else Some <$> secret_ref_new value.

Definition optional_hash (value : string) : result ProxyError (option string) :=
  if str_is_empty value then Ok None
  else
    validate_hex_hash value "Proxy configuration requires lowercase SHA-256 hashes when provided." ;;
    Ok (Some value).

(** [parse_uuid_v7], and the identifiers it makes. *)
Definition parse_uuid_v7 `{UuidApi} (value : string) : option string :=
  if negb (is_lowercase_uuidv7 value) then None
  else uuid_hyphenated <$> uuid_parse_str value.
Definition proxy_id_new `{UuidApi} (value : string) : result ProxyError ProxyId :=
  ok_or (parse_uuid_v7 value)
    (invalid_proxy_draft "Proxy identifiers must be lowercase UUIDv7 values.").
Definition proxy_revision_id_new `{UuidApi} (value : string) : result ProxyError ProxyRevisionId :=
  ok_or (parse_uuid_v7 value)
    (invalid_proxy_spec "Proxy revision identifiers must be lowercase UUIDv7 values.").

Definition is_slug_byte (c : ascii) : bool :=
  in_range "a" "z" c || is_ascii_digit c || ascii_eqb c "-".
Definition is_valid_slug (value : string) : bool :=
  negb (str_is_empty value) && (str_len value <=? MAX_IDENTIFIER_LEN) && str_all is_slug_byte value.

(** [ProxyDraft::new]. *)
Definition proxy_draft_new (proxy_id : ProxyId) (scope : ExactScope) (display_name slug : string)
    (spec : ProxySpec) : result ProxyError ProxyDraft :=
  if negb (is_identifier scope.1) || negb (is_identifier scope.2) then Err invalid_proxy_scope
  else
    display_name ← bounded_required_string display_name;
    if negb (is_valid_slug slug)
    then Err (invalid_proxy_draft "Proxy drafts require a non-empty bounded slug.")
    else
      validate_proxy_spec spec ;;
      Ok (mkDraft proxy_id scope display_name slug spec).

Definition parse_approval_mode (value : string) : result ProxyError ApprovalMode :=
  if String.eqb value "none" then Ok ApproveNone
  else if String.eqb value "operator" then Ok ApproveOperator
  else if String.eqb value "dual-operator" then Ok ApproveDualOperator
  else Err (invalid_proxy_spec "Proxy configuration uses an unsupported approval mode.").

Definition parse_data_classification (value : string) : result ProxyError DataClassification :=
  if String.eqb value "public" then Ok Public
  else if String.eqb value "internal" then Ok Internal
  else if String.eqb value "confidential" then Ok Confidential
  else if String.eqb value "restricted" then Ok Restricted
  else Err (invalid_proxy_spec "Proxy configuration uses an unsupported data classification.").

Definition parse_positive_u32 (value : string) : result ProxyError N :=
  parsed ← ok_or (parse_uint u32_max value)
    (invalid_proxy_spec "Proxy configuration requires a positive bounded limit.");
  if (parsed =? 0) || (MAX_COLLECTION_LIMIT <? parsed)
  then Err (invalid_proxy_spec "Proxy configuration requires a positive bounded limit.")
  else Ok parsed.

Definition parse_rate_limit (value : string) : result ProxyError N :=
  value ← ok_or (strip_suffix "/m" value)
    (invalid_proxy_spec "Proxy configuration requires a bounded per-minute rate limit.");
  parse_positive_u32 value.

Definition parse_retention_days (value : string) : result ProxyError N :=
  days ← ok_or (strip_suffix "d" value)
    (invalid_proxy_spec "Proxy configuration requires bounded retention days.");
  days ← ok_or (parse_uint u32_max days)
    (invalid_proxy_spec "Proxy configuration requires bounded retention days.");
  if (days =? 0) || (3650 <? days)
  then Err (invalid_proxy_spec "Proxy configuration requires bounded retention days.")
  else Ok days.
