(* ===== verification/ProxySpecLaws.v ===== *)
(** * What proxy validation accepts

    The validators of [ProxySpec] accept exactly the specifications the
    declarative predicate [spec_ok] describes, and what that predicate says
    about the network destinations a proxy may reach. *)
From Stdlib Require Import Ascii.
From S2P Require Import Prelude RustStr Digits ProxyText Time OperatorAuth ProxySpec.

Open Scope N_scope.

(** ** Private hosts

    The hosts that need an explicit allowance, as address blocks and names. *)

(** An address as a number, from its parts of [size] values each. *)
Definition address_value (size : N) (parts : list N) : N := foldl (λ v x, v * size + x) 0 parts.

(** A block: the addresses of [width] bits that share the first [len] with the
    given parts. *)
Record Block := mkBlock { bk_parts : list N; bk_len : N }.
Definition in_block (width size : N) (value : N) (b : Block) : Prop :=
  value / 2 ^ (width - bk_len b) = address_value size (bk_parts b) / 2 ^ (width - bk_len b).

Definition private_v4 : list Block :=
  [mkBlock [10; 0; 0; 0] 8; mkBlock [172; 16; 0; 0] 12; mkBlock [192; 168; 0; 0] 16;
   mkBlock [127; 0; 0; 0] 8; mkBlock [169; 254; 0; 0] 16; mkBlock [255; 255; 255; 255] 32;
   mkBlock [192; 0; 2; 0] 24; mkBlock [198; 51; 100; 0] 24; mkBlock [203; 0; 113; 0] 24].
Definition private_v6 : list Block :=
  [mkBlock [0; 0; 0; 0; 0; 0; 0; 1] 128; mkBlock [64512; 0; 0; 0; 0; 0; 0; 0] 7;
   mkBlock [65152; 0; 0; 0; 0; 0; 0; 0] 10].

Definition in_private_block (address : IpAddr) : Prop :=
  match address with
  | IpV4 octets => Exists (in_block 32 256 (address_value 256 octets)) private_v4
  | IpV6 groups => Exists (in_block 128 65536 (address_value 65536 groups)) private_v6
  end.

Definition private_name (host : string) : Prop :=
  host = "localhost" ∨ (∃ name, host = name +:+ ".internal") ∨ ∃ name, host = name +:+ ".local".

Definition private_host (s : string) : Prop :=
  private_name (to_ascii_lowercase (trim_matches is_bracket s))
  ∨ ∃ address, parse_ip_addr (trim_matches is_bracket s) = Some address ∧ in_private_block address.

(** The parts of an address that was read. *)
Definition parts_ok (n : nat) (size : N) (parts : list N) : Prop :=
  length parts = n ∧ Forall (λ x, x < size) parts.

Lemma read_number_bound radix max digits zero s x rest :
  read_number radix max digits zero s = Some (x, rest) → x ≤ max.
Proof.
  unfold read_number. destruct (read_digits _ _ _ _ _) as [[[v count] r]|]; [|done].
  cbn [mbind option_bind]. destruct (count =? 0); [done|]. destruct (negb zero && _ && _); [done|].
  destruct (N.ltb_spec max v); [done|]. by intros [= <- <-].
Qed.
Lemma read_separator_inv {A} sep index (inner : Reader A) s x :
  read_separator sep index inner s = Some x → ∃ s', inner s' = Some x.
Proof.
  unfold read_separator. destruct index; [eauto|].
  destruct (read_given_char sep s) as [[u s']|]; [|done]. cbn. eauto.
Qed.
Lemma read_octets_ok todo index s octets rest :
  read_octets todo index s = Some (octets, rest) → parts_ok todo 256 octets.
Proof.
  revert index s octets. induction todo as [|todo IH]; intros index s octets; simpl.
  { intros [= <- <-]. by split. }
  destruct (read_separator _ _ _ s) as [[o s1]|] eqn:Ho; [|done]. cbn [mbind option_bind].
  destruct (read_octets todo (S index) s1) as [[os s2]|] eqn:Hos; [|done]. intros [= <- <-].
  apply read_separator_inv in Ho as [s' Ho%read_number_bound]. apply IH in Hos as [Hl Hf].
  split; [by simpl; rewrite Hl|]. constructor; [lia|done].
Qed.
Lemma read_groups_ok todo index s groups v4 rest :
  read_groups todo index s = ((groups, v4), rest) →
  (length groups ≤ todo)%nat ∧ Forall (λ x, x < 65536) groups.
Proof.
  revert index s groups v4. induction todo as [|todo IH]; intros index s groups v4; cbn [read_groups].
  { intros [= <- <- <-]. by split. }
  destruct (if (1 <? S todo)%nat then _ else None) as [[octets s1]|] eqn:Hv4.
  { intros [= <- <- <-]. destruct (Nat.ltb_spec 1 (S todo)); [|done].
    apply read_separator_inv in Hv4 as [s' [Hl Hf]%read_octets_ok].
    destruct octets as [|a [|b [|c [|d [|]]]]]; try done. inversion_clear Hf as [|? ? Ha Hf1].
    inversion_clear Hf1 as [|? ? Hb Hf2]. inversion_clear Hf2 as [|? ? Hc Hf3].
    inversion_clear Hf3 as [|? ? Hd _]. simpl. split; [lia|]. repeat constructor; lia. }
  destruct (read_separator _ _ (read_number _ _ _ _) s) as [[group s1]|] eqn:Hg.
  2: { intros [= <- <- <-]. split; [simpl; lia|done]. }
  destruct (read_groups todo (S index) s1) as [[gs v] s2] eqn:Hgs. intros [= <- <- <-].
  apply read_separator_inv in Hg as [s' Hg%read_number_bound]. apply IH in Hgs as [Hl Hf].
  split; [simpl; lia|]. constructor; [lia|done].
Qed.
Lemma read_ipv6_ok s groups rest :
  read_ipv6_addr s = Some (groups, rest) → parts_ok 8 65536 groups.
Proof.
  unfold read_ipv6_addr. destruct (read_groups 8 0 s) as [[head v4] s1] eqn:Hh.
  apply read_groups_ok in Hh as [Hl Hf].
  destruct (Nat.eqb_spec (length head) 8); [by intros [= <- <-]|].
  destruct v4; [done|]. destruct (read_given_char ":" s1) as [[u2 s2]|]; [|done]. cbn [mbind option_bind].
  destruct (read_given_char ":" s2) as [[u3 s3]|]; [|done]. cbn [mbind option_bind].
  destruct (read_groups _ 0 s3) as [[tail v] s4] eqn:Ht. apply read_groups_ok in Ht as [Hl' Hf'].
  intros [= <- <-]. split; [rewrite !length_app, length_replicate; lia|].
  apply Forall_app. split; [done|]. apply Forall_app. split; [by apply Forall_replicate|done].
Qed.

Lemma parse_ip_addr_parts s address :
  parse_ip_addr s = Some address →
  match address with IpV4 o => parts_ok 4 256 o | IpV6 g => parts_ok 8 65536 g end.
Proof.
  unfold parse_ip_addr. destruct (read_ipv4_addr _) as [[o rest]|] eqn:Ho.
  { cbn [mbind option_bind]. destruct rest; [|done]. intros [= <-]. by eapply read_octets_ok. }
  destruct (read_ipv6_addr _) as [[g rest]|] eqn:Hg; [|done].
  cbn [mbind option_bind]. destruct rest; [|done]. intros [= <-]. by eapply read_ipv6_ok.
Qed.

(** The quotients of an address by powers of two are its first bits. *)
Lemma div_split (q r k v : N) : v = q * k + r → r < k → v / k = q.
Proof. intros -> Hr. rewrite N.div_add_l, N.div_small by lia. lia. Qed.

Lemma v4_quotients a b c d :
  a < 256 → b < 256 → c < 256 → d < 256 → let v := address_value 256 [a; b; c; d] in
  v / 2 ^ 24 = a ∧ v / 2 ^ 20 = a * 16 + b / 16 ∧ v / 2 ^ 16 = a * 256 + b
  ∧ v / 2 ^ 8 = (a * 256 + b) * 256 + c ∧ v / 2 ^ 0 = ((a * 256 + b) * 256 + c) * 256 + d.
Proof.
  intros Ha Hb Hc Hd v.
  assert (b = 16 * (b / 16) + b mod 16) as Hb16 by (apply N.div_mod; lia).
  assert (b mod 16 < 16) by (by apply N.mod_lt).
  unfold v, address_value. cbn [foldl]. split_and!.
  - apply (div_split _ ((b * 256 + c) * 256 + d)); lia.
  - apply (div_split _ (((b mod 16) * 256 + c) * 256 + d)); lia.
  - apply (div_split _ (c * 256 + d)); lia.
  - apply (div_split _ d); lia.
  - apply (div_split _ 0); lia.
Qed.

(** The classes of IPv4 addresses are the blocks. *)
Lemma v4_blocks a b c d :
  a < 256 → b < 256 → c < 256 → d < 256 →
  v4_is_private [a; b; c; d] || v4_is_loopback [a; b; c; d] || v4_is_link_local [a; b; c; d]
  || v4_is_broadcast [a; b; c; d] || v4_is_documentation [a; b; c; d] = true
  ↔ in_private_block (IpV4 [a; b; c; d]).
Proof.
  intros Ha Hb Hc Hd. destruct (v4_quotients a b c d Ha Hb Hc Hd) as (H24 & H20 & H16 & H8 & H0).
  unfold in_private_block, private_v4, in_block. rewrite !Exists_cons, Exists_nil. cbn [bk_len bk_parts].
  change (32 - 8) with 24. change (32 - 12) with 20. change (32 - 16) with 16. change (32 - 24) with 8.
  change (32 - 32) with 0. rewrite H24, H20, H16, H8, H0. clear H24 H20 H16 H8 H0.
  repeat match goal with |- context [address_value 256 ?l / ?k] =>
    let x := eval vm_compute in (address_value 256 l / k) in change (address_value 256 l / k) with x end.
  unfold v4_is_private, v4_is_loopback, v4_is_link_local, v4_is_broadcast, v4_is_documentation, octet.
  cbn [lookup list_lookup default from_option]. 
  rewrite !orb_true_iff, !andb_true_iff, !N.eqb_eq, !N.leb_le, bool_decide_eq_true.
  assert ([a; b; c; d] = [255; 255; 255; 255] ↔ a = 255 ∧ b = 255 ∧ c = 255 ∧ d = 255) as ->
    by (split; [by intros [= -> -> -> ->]|by intros (-> & -> & -> & ->)]).
  unfold id.
  assert (a * 16 + b / 16 = 2753 ↔ (a = 172 ∧ 16 ≤ b) ∧ b ≤ 31) as ->.
  { pose proof (N.div_mod b 16 ltac:(done)). pose proof (N.mod_lt b 16 ltac:(done)). lia. }
  assert (a * 256 + b = 49320 ↔ a = 192 ∧ b = 168) as -> by lia.
  assert (a * 256 + b = 43518 ↔ a = 169 ∧ b = 254) as -> by lia.
  assert (((a * 256 + b) * 256 + c) * 256 + d = 4294967295 ↔ a = 255 ∧ b = 255 ∧ c = 255 ∧ d = 255)
    as -> by lia.
  assert ((a * 256 + b) * 256 + c = 12582914 ↔ (a = 192 ∧ b = 0) ∧ c = 2) as -> by lia.
  assert ((a * 256 + b) * 256 + c = 12989284 ↔ (a = 198 ∧ b = 51) ∧ c = 100) as -> by lia.
  assert ((a * 256 + b) * 256 + c = 13303921 ↔ (a = 203 ∧ b = 0) ∧ c = 113) as -> by lia.
  tauto.
Qed.

(** A group masked to its first bits, as a quotient. *)
Lemma mask_quotient (g m k : N) :
  g < 2 ^ 16 → m ≤ 16 → N.land g (N.shiftl (N.ones (16 - m)) m) = N.shiftl k m ↔ g / 2 ^ m = k.
Proof.
  intros Hg Hm. rewrite <- N.shiftr_div_pow2.
  assert (N.land g (N.shiftl (N.ones (16 - m)) m) = N.shiftl (N.shiftr g m) m) as ->.
  { apply N.bits_inj. intros i. rewrite N.land_spec. destruct (N.lt_ge_cases i m) as [Hi|Hi].
    { by rewrite !N.shiftl_spec_low, andb_false_r by done. }
    rewrite !N.shiftl_spec_high', N.shiftr_spec' by done. rewrite N.sub_add by done.
    destruct (N.lt_ge_cases (i - m) (16 - m)) as [Hj|Hj].
    { by rewrite N.ones_spec_low, andb_true_r. }
    rewrite N.ones_spec_high, andb_false_r by done. destruct (N.eq_dec g 0) as [->|Hz].
    { by rewrite N.bits_0. }
    rewrite N.bits_above_log2; [done|]. apply N.log2_lt_pow2; [lia|].
    eapply N.lt_le_trans; [exact Hg|]. apply N.pow_le_mono_r; lia. }
  split; [|by intros ->]. intros Hs. apply (f_equal (λ x, N.shiftr x m)) in Hs.
  by rewrite !N.shiftr_shiftl_l, N.sub_diag, !N.shiftl_0_r in Hs by done.
Qed.

Lemma address_value_app (size : N) l x : address_value size (l ++ [x]) = address_value size l * size + x.
Proof. unfold address_value. by rewrite foldl_app. Qed.
Lemma address_value_bound (size : N) l :
  0 < size → Forall (λ x, x < size) l → address_value size l < size ^ N.of_nat (length l).
Proof.
  intros Hs. induction l as [|x l IH] using rev_ind; [by cbn|].
  intros [Hl Hx]%Forall_app. inversion_clear Hx as [|? ? Hx' _]. specialize (IH Hl).
  rewrite address_value_app, length_app, Nat2N.inj_add, N.pow_add_r. simpl (N.of_nat (length [x])).
  rewrite N.pow_1_r. nia.
Qed.
Lemma address_value_cons (size : N) x l :
  address_value size (x :: l) = x * size ^ N.of_nat (length l) + address_value size l.
Proof.
  induction l as [|y l IH] using rev_ind; [unfold address_value; simpl; lia|].
  rewrite app_comm_cons, !address_value_app, IH, length_app, Nat2N.inj_add, N.pow_add_r.
  simpl (N.of_nat (length [y])). rewrite N.pow_1_r. lia.
Qed.

Lemma address_value_inj (size : N) l l' :
  length l = length l' → Forall (λ x, x < size) l → Forall (λ x, x < size) l' →
  address_value size l = address_value size l' → l = l'.
Proof.
  revert l'. induction l as [|x l IH] using rev_ind; intros l'; destruct l' as [|y l' _] using rev_ind;
    rewrite ?length_app; simpl; [done|lia..|].
  intros Hl [Hf Hx]%Forall_app [Hf' Hy]%Forall_app. inversion_clear Hx. inversion_clear Hy.
  rewrite !address_value_app. intros Hv.
  assert (address_value size l = address_value size l' ∧ x = y) as [Hlv ->].
  { apply (N.div_mod_unique size); [done|done|]. lia. }
  f_equal. apply IH; [lia|done..].
Qed.

(** The classes of IPv6 addresses are the blocks. *)
Lemma v6_blocks g :
  parts_ok 8 65536 g →
  v6_is_loopback g || v6_is_unique_local g || v6_is_unicast_link_local g = true
  ↔ in_private_block (IpV6 g).
Proof.
  intros [Hl Hf]. destruct g as [|g0 rest]; [done|]. pose proof Hf as Hall.
  inversion_clear Hf as [|? ? H0 Hr]. pose proof Hl as Hl7. injection Hl7 as Hl7.
  pose proof (address_value_bound 65536 rest ltac:(done) Hr) as Hb. rewrite Hl7 in Hb.
  pose proof (address_value_cons 65536 g0 rest) as Hv. rewrite Hl7 in Hv.
  change (65536 ^ N.of_nat 7) with (2 ^ 112) in *.
  assert (∀ k, address_value 65536 (g0 :: rest) / 2 ^ (112 + k) = g0 / 2 ^ k) as Hq.
  { intros k. rewrite N.pow_add_r, <- N.Div0.div_div. f_equal. by eapply div_split. }
  unfold in_private_block, private_v6, in_block. rewrite !Exists_cons, Exists_nil. cbn [bk_len bk_parts].
  change (128 - 128) with 0. change (128 - 7) with (112 + 9). change (128 - 10) with (112 + 6).
  rewrite !Hq, !N.div_1_r, !orb_true_iff. unfold v6_is_unique_local, v6_is_unicast_link_local.
  rewrite !N.eqb_eq. change (octet (g0 :: rest) 0) with g0.
  rewrite (mask_quotient g0 9 126), (mask_quotient g0 6 1018) by done.
  assert (v6_is_loopback (g0 :: rest) = true
    ↔ address_value 65536 (g0 :: rest) = address_value 65536 [0; 0; 0; 0; 0; 0; 0; 1]) as ->.
  { unfold v6_is_loopback. rewrite bool_decide_eq_true. split; [by intros ->|].
    apply address_value_inj; [done|done|by repeat constructor]. }
  change (address_value 65536 [64512; 0; 0; 0; 0; 0; 0; 0] / 2 ^ (112 + 9)) with 126.
  change (address_value 65536 [65152; 0; 0; 0; 0; 0; 0; 0] / 2 ^ (112 + 6)) with 1018.
  tauto.
Qed.

(** The classes of the addresses that can be read. *)
Lemma address_classes s address :
  parse_ip_addr s = Some address →
  match address with
  | IpV4 o => v4_is_private o || v4_is_loopback o || v4_is_link_local o || v4_is_broadcast o
              || v4_is_documentation o
  | IpV6 g => v6_is_loopback g || v6_is_unique_local g || v6_is_unicast_link_local g
  end = true ↔ in_private_block address.
Proof.
  intros Ha%parse_ip_addr_parts. destruct address as [o|g]; [|by apply v6_blocks].
  destruct Ha as [Hl Hf]. destruct o as [|a [|b [|c [|d [|]]]]]; try done.
  rewrite !Forall_cons in Hf. destruct Hf as (? & ? & ? & ? & _). by apply v4_blocks.
Qed.

(** [is_private_host] recognises the private hosts. *)
Lemma is_private_host_iff s : is_private_host s = true ↔ private_host s.
Proof.
  unfold is_private_host, private_host, private_name. set (h := trim_matches is_bracket s).
  rewrite <- !str_ends_with_iff. destruct (_ || _) eqn:Hn.
  - split; [intros _; left|done].
    rewrite !orb_true_iff, !String.eqb_eq in Hn. destruct Hn as [[[->| ->]|?]|?]; [by left| |by auto..].
    right; left. done.
  - rewrite !orb_false_iff in Hn. destruct Hn as [[[H1 _] H2] H3]. rewrite H2, H3.
    apply String.eqb_neq in H1. split.
    + intros Hp. right. destruct (parse_ip_addr h) as [address|] eqn:Ha; [|done].
      exists address. split; [done|]. by eapply address_classes.
    + intros [[?|[?|?]]|(address & Ha & Hp)]; [done..|]. rewrite Ha. by eapply address_classes.
Qed.

(** ** The predicate *)

Definition text_ok (max : N) (s : string) : Prop :=
  0 < str_len s ≤ max ∧ str_has_control s = false.
Definition identifier_ok (s : string) : Prop := str_len s ≤ 128 ∧ is_identifier s = true.
Definition secret_ok (s : string) : Prop :=
  (∃ name, s = "secret://" +:+ name) ∧ str_len s ≤ 512 ∧ str_has_control s = false.
Definition hex64_ok (s : string) : Prop := str_len s = 64 ∧ str_all is_lower_hex s = true.
Definition digest_ok (s : string) : Prop := ∃ hex, s = "sha256:" +:+ hex ∧ hex64_ok hex.

(** A host is an address or a name, possibly in brackets. *)
Definition host_text (s : string) : string := trim_matches is_bracket s.
Definition host_ok (s : string) : Prop :=
  0 < str_len (host_text s) ∧ str_len s ≤ 512 ∧ str_contains "/" (host_text s) = false
  ∧ str_has_whitespace (host_text s) = false
  ∧ (is_Some (parse_ip_addr (host_text s)) ∨ is_dns_hostname (host_text s) = true).

Record ingress_ok (i : Ingress) : Prop := {
  io_host : host_ok (in_host i);
  io_path : text_ok 512 (in_path i);
  io_origins : (length (in_allowed_origins i) ≤ 32)%nat ∧ Forall (text_ok 512) (in_allowed_origins i);
  io_protocol : text_ok 512 (in_protocol_revision i);
}.

Record upstream_ok (u : UpstreamBinding) : Prop := {
  uo_id : identifier_ok (ub_upstream_id u);
  uo_name : text_ok 512 (ub_display_name u);
  uo_endpoint : text_ok 512 (ub_endpoint u);
  uo_credential : ∃ c, ub_credential_ref u = Some c ∧ secret_ok c;
  uo_secrets : (length (ub_secret_refs u) ≤ 32)%nat ∧ Forall secret_ok (ub_secret_refs u);
  uo_server : text_ok 512 (ub_server_identity u);
  uo_catalog : ∀ h, ub_tool_catalog_hash u = Some h → hex64_ok h;
}.

(** A tool is bound to a declared upstream, and [portfolio.read] stays a read. *)
Record tool_ok (upstream_ids : gset string) (t : ExposedTool) : Prop := {
  to_ids : identifier_ok (et_upstream_id t) ∧ identifier_ok (et_tool_name t)
           ∧ identifier_ok (et_alias t);
  to_declared : et_upstream_id t ∈ upstream_ids;
  to_read_only : et_tool_name t = "portfolio.read" → et_classification t = ToolRead;
}.

Record cli_ok (p : CliProfile) : Prop := {
  co_id : identifier_ok (cp_profile_id p);
  co_executable : text_ok 512 (cp_executable_ref p) ∧ digest_ok (cp_executable_digest p);
  co_argv : (length (cp_fixed_argv p) ≤ 64)%nat ∧ Forall (text_ok 512) (cp_fixed_argv p);
  co_schema : (length (cp_argv_schema p) ≤ 64)%nat
              ∧ Forall (λ f, identifier_ok (af_name f)) (cp_argv_schema p);
  co_directory : text_ok 512 (cp_working_directory p);
  co_environment : (length (cp_environment_allowlist p) ≤ 64)%nat
                   ∧ Forall identifier_ok (cp_environment_allowlist p);
  co_secrets : (length (cp_secret_refs p) ≤ 32)%nat ∧ Forall secret_ok (cp_secret_refs p);
  co_policies : text_ok 512 (cp_filesystem_policy p) ∧ text_ok 512 (cp_network_policy p);
  co_shell : cp_shell p = false;
  co_timeout : 0 < cp_timeout_ms p ≤ 300000;
  co_output : 0 < cp_max_output_bytes p ≤ 16777216;
  co_exits : (length (cp_allowed_exit_codes p) ≤ 32)%nat
             ∧ Forall (λ code, (-128 ≤ code ≤ 255)%Z) (cp_allowed_exit_codes p);
}.

Record auth_binding_ok (b : AuthBinding) : Prop := {
  bo_id : identifier_ok (ab_binding_id b);
  bo_subject : text_ok 512 (ab_inbound_subject b);
  bo_credential : ∃ c, ab_outbound_credential_ref b = Some c ∧ secret_ok c;
  bo_scopes : (length (ab_scopes b) ≤ 64)%nat ∧ Forall identifier_ok (ab_scopes b);
}.

Record governance_ok (g : GovernanceBinding) : Prop := {
  go_policy : identifier_ok (gb_policy_id g);
  go_rate : 0 < gb_rate_limit_per_minute g ≤ 1000000;
  go_concurrency : 0 < gb_concurrency_limit g ≤ 1000000;
  go_budget : 0 < gb_budget_limit_per_day g ≤ 1000000;
  go_retention : 0 < gb_retention_days g ≤ 3650;
}.

(** A destination whose host counts as private has an explicit allowance. *)
Record destination_ok (d : EgressDestination) : Prop := {
  do_host : host_ok (eg_host d);
  do_port : eg_port d ≠ 0;
  do_private : private_host (eg_host d) → eg_private_allowance d = Allowed;
}.

Record runtime_ok (r : RuntimeProfile) : Prop := {
  ro_image : digest_ok (rp_image_digest r);
  ro_limits : text_ok 512 (rp_cpu_limit r) ∧ text_ok 512 (rp_memory_limit r);
  ro_policies : text_ok 512 (rp_network_policy r) ∧ text_ok 512 (rp_filesystem_policy r);
  ro_destinations : (0 < length (rp_destinations r) ≤ 64)%nat
                    ∧ Forall destination_ok (rp_destinations r);
}.

Record spec_ok (s : ProxySpec) : Prop := {
  so_ingress : ingress_ok (sp_ingress s);
  so_upstreams : (0 < length (sp_upstreams s) ≤ 64)%nat ∧ Forall upstream_ok (sp_upstreams s);
  so_upstream_ids : NoDup (ub_upstream_id <$> sp_upstreams s);
  so_tools : (0 < length (sp_exposed_tools s) ≤ 256)%nat
             ∧ Forall (tool_ok (list_to_set (ub_upstream_id <$> sp_upstreams s))) (sp_exposed_tools s);
  so_aliases : NoDup (et_alias <$> sp_exposed_tools s);
  so_cli : (length (sp_cli_profiles s) ≤ 32)%nat ∧ Forall cli_ok (sp_cli_profiles s);
  so_auth : (length (sp_auth_bindings s) ≤ 32)%nat ∧ Forall auth_binding_ok (sp_auth_bindings s);
  so_governance : governance_ok (sp_governance_binding s);
  so_runtime : runtime_ok (sp_runtime_profile s);
}.

(** ** Field by field *)

Lemma str_len_zero (s : string) : str_is_empty s = false ↔ 0 < str_len s.
Proof. destruct s; unfold str_len; simpl; split; (done || lia). Qed.

Lemma text_field_ok {A} (max : N) (s : string) (e : ProxyError) (a : A) :
  (if str_is_empty s || (max <? str_len s) || str_has_control s then Err e else Ok a) = Ok a
  ↔ text_ok max s.
Proof.
  rewrite if_err_then, !orb_false_iff, str_len_zero, N.ltb_ge. unfold text_ok. naive_solver.
Qed.

Lemma validate_required_string_ok s : validate_required_string s = Ok tt ↔ text_ok 512 s.
Proof. apply text_field_ok. Qed.
Lemma validate_endpoint_ok s : validate_endpoint s = Ok tt ↔ text_ok 512 s.
Proof. apply text_field_ok. Qed.

Lemma identifier_byte_plain (c : ascii) :
  is_identifier_byte c = true → is_control c = false ∧ (N_of_ascii c =? 194) = false.
Proof. destruct c as [[] [] [] [] [] [] [] []]; vm_compute; by intros. Qed.

Lemma identifier_no_control (s : string) :
  str_all is_identifier_byte s = true → str_has_control s = false.
Proof.
  induction s as [|c s IH]; [done|]. cbn [str_all str_has_control].
  intros [Hc Hs]%andb_true_iff. apply identifier_byte_plain in Hc as [-> ->].
  by rewrite IH.
Qed.

Lemma identifier_field_ok {A} (s : string) (e : ProxyError) (a : A) :
  (if str_is_empty s || (MAX_IDENTIFIER_LEN <? str_len s) || str_has_control s
      || negb (is_identifier s) then Err e else Ok a) = Ok a ↔ identifier_ok s.
Proof.
  rewrite if_err_then, !orb_false_iff, negb_false_iff, N.ltb_ge. unfold identifier_ok.
  split; [naive_solver|]. intros [Hlen Hid]. pose proof (is_identifier_len s Hid).
  rewrite (identifier_no_control s) by by apply is_identifier_bytes.
  assert (str_is_empty s = false) by (apply str_len_zero; lia). done.
Qed.

Lemma validate_identifier_ok s : validate_identifier s = Ok tt ↔ identifier_ok s.
Proof. apply identifier_field_ok. Qed.

Lemma str_starts_with_spec (pat s : string) :
  str_starts_with pat s = true ↔ ∃ r, s = pat +:+ r.
Proof.
  revert s. induction pat as [|c pat IH]; intros s; [by split; [exists s|]|].
  destruct s as [|d s]; simpl.
  { split; [done|]. intros [r Hr]. unfold "+:+" in Hr. simpl in Hr. done. }
  rewrite andb_true_iff. unfold ascii_eqb. rewrite bool_decide_eq_true, IH. split.
  - intros [<- [r ->]]. by exists r.
  - intros [r Hr]. unfold "+:+" in *. simpl in Hr. injection Hr as -> ->. split; [done|by exists r].
Qed.

Lemma validate_secret_ref_ok s : validate_secret_ref s = Ok tt ↔ secret_ok s.
Proof.
  unfold validate_secret_ref, secret_ok.
  rewrite if_err_ok, !orb_false_iff, negb_false_iff, N.ltb_ge, str_starts_with_spec. naive_solver.
Qed.

Lemma validate_hex_hash_ok s msg : validate_hex_hash s msg = Ok tt ↔ hex64_ok s.
Proof.
  unfold validate_hex_hash, hex64_ok.
  by rewrite if_err_ok, !orb_false_iff, !negb_false_iff, N.eqb_eq.
Qed.

Lemma validate_sha256_digest_ok s msg : validate_sha256_digest s msg = Ok tt ↔ digest_ok s.
Proof.
  unfold validate_sha256_digest, digest_ok, hex64_ok.
  rewrite if_err_ok, !orb_false_iff, !negb_false_iff, N.eqb_eq, str_starts_with_spec. split.
  - intros [[[r ->] Hlen] Hall]. rewrite strip_prefix_app in Hlen, Hall. by exists r.
  - intros (r & -> & Hlen & Hall). rewrite strip_prefix_app. simpl. split_and!; eauto.
Qed.

Lemma validate_collection_ok {A} name (l : list A) (max : N) code :
  validate_collection name (len l) max code = Ok tt ↔ (length l ≤ N.to_nat max)%nat.
Proof. unfold validate_collection, len. rewrite if_err_ok, N.ltb_ge. lia. Qed.

Lemma try_each_iff {A} (f : A → result ProxyError unit) (P : A → Prop) (l : list A) :
  (∀ a, f a = Ok tt ↔ P a) → try_each f l = Ok tt ↔ Forall P l.
Proof. intros HfP. rewrite try_each_ok. by apply Forall_iff. Qed.

Lemma range_ok (max n : N) : ((n =? 0) || (max <? n)) = false ↔ 0 < n ≤ max.
Proof. rewrite orb_false_iff, N.eqb_neq, N.ltb_ge. lia. Qed.

Lemma contains_scheme (s : string) : str_contains "/" s = false → str_contains "://" s = false.
Proof.
  induction s as [|c s IH]; [done|]. cbn [str_contains]. rewrite !orb_false_iff.
  intros [Hp Hs]. split; [|by apply IH].
  destruct (String.prefix "://" (String c s)) eqn:E; [|done]. exfalso.
  destruct s as [|d s].
  { cbn [String.prefix] in E. by destruct (ascii_dec ":" c). }
  assert (d = "/"%char) as ->.
  { clear -E. cbn [String.prefix] in E. destruct (ascii_dec ":" c); [|done]. by destruct (ascii_dec "/" d). }
  simpl in Hs. by destruct s.
Qed.

Lemma validate_host_ok s : validate_host s = Ok tt ↔ host_ok s.
Proof.
  unfold validate_host, host_ok, host_text.
  rewrite if_err_ok, !orb_false_iff, andb_false_iff, negb_false_iff, bool_decide_eq_false, str_len_zero,
    N.ltb_ge, <-not_eq_None_Some.
  split; [naive_solver|]. intros (? & ? & Hs & ? & ?). by pose proof (contains_scheme _ Hs).
Qed.

(** ** Part by part *)

Lemma validate_ingress_ok i : validate_ingress i = Ok tt ↔ ingress_ok i.
Proof.
  unfold validate_ingress.
  rewrite !result_seq_ok, validate_host_ok, !validate_required_string_ok, validate_collection_ok,
    (try_each_iff _ _ _ validate_endpoint_ok).
  split; [intros (?&?&?&?&?); by constructor | by intros [? ? [] ?]].
Qed.

Lemma validate_upstream_ok u : validate_upstream u = Ok tt ↔ upstream_ok u.
Proof.
  unfold validate_upstream.
  rewrite !result_seq_ok, result_bind_ok, validate_identifier_ok, validate_required_string_ok,
    validate_endpoint_ok.
  split.
  - intros (?&?&?& c & Hc%ok_or_ok & Hrest).
    rewrite !result_seq_ok, validate_secret_ref_ok, validate_collection_ok,
      (try_each_iff _ _ _ validate_secret_ref_ok), validate_required_string_ok in Hrest.
    destruct Hrest as (?&?&?&?& Hh). constructor; [done..|by exists c|done|done|].
    intros h Heq. rewrite Heq in Hh. by apply validate_hex_hash_ok in Hh.
  - intros [? ? ? (c & Hc & ?) [] ? Hh]. split_and!; [done..|]. exists c.
    rewrite ok_or_ok, !result_seq_ok, validate_secret_ref_ok, validate_collection_ok,
      (try_each_iff _ _ _ validate_secret_ref_ok), validate_required_string_ok.
    split_and!; [done..|]. destruct (ub_tool_catalog_hash u); [|done].
    by apply validate_hex_hash_ok, Hh.
Qed.

Lemma validate_exposed_tool_ok t ids : validate_exposed_tool t ids = Ok tt ↔ tool_ok ids t.
Proof.
  unfold validate_exposed_tool.
  rewrite !result_seq_ok, !validate_identifier_ok, if_err_then, if_err_ok, negb_false_iff,
    bool_decide_eq_true, andb_false_iff, String.eqb_neq, negb_false_iff, bool_decide_eq_true.
  split.
  - intros (?&?&?&?& Hr). constructor; [done..|]. by destruct Hr.
  - intros [(?&?&?) ? Hr]. split_and!; [done..|].
    destruct (decide (et_tool_name t = "portfolio.read")); [right; by apply Hr|by left].
Qed.

Lemma validate_exit_code_ok code : validate_exit_code code = Ok tt ↔ (-128 ≤ code ≤ 255)%Z.
Proof.
  unfold validate_exit_code. rewrite if_err_ok, negb_false_iff, andb_true_iff, !Z.leb_le. done.
Qed.

Lemma validate_cli_profile_ok p : validate_cli_profile p = Ok tt ↔ cli_ok p.
Proof.
  unfold validate_cli_profile.
  rewrite !result_seq_ok, validate_identifier_ok, !validate_endpoint_ok, validate_sha256_digest_ok,
    !validate_collection_ok, ?validate_required_string_ok, !if_err_then, !result_seq_ok,
    !validate_collection_ok, !range_ok, (try_each_iff _ _ _ validate_required_string_ok),
    (try_each_iff _ (λ f, identifier_ok (af_name f)) _ (λ f, validate_identifier_ok (af_name f))),
    (try_each_iff _ _ _ validate_identifier_ok), (try_each_iff _ _ _ validate_secret_ref_ok),
    (try_each_iff _ _ _ validate_exit_code_ok).
  split; [intros (?&?&?&?&?&?&?&?&?&?&?&?&?&?&?&?&?&?&?); by constructor|].
  intros [? [] [] [] ? [] [] [] ? [] [] []]. by split_and!.
Qed.

Lemma validate_auth_binding_ok b : validate_auth_binding b = Ok tt ↔ auth_binding_ok b.
Proof.
  unfold validate_auth_binding.
  rewrite !result_seq_ok, result_bind_ok, validate_identifier_ok, validate_required_string_ok.
  split.
  - intros (?&?& c & Hc%ok_or_ok & Hrest).
    rewrite !result_seq_ok, validate_secret_ref_ok, validate_collection_ok,
      (try_each_iff _ _ _ validate_identifier_ok) in Hrest.
    destruct Hrest as (?&?&?). constructor; [done..|by exists c|done].
  - intros [? ? (c & Hc & ?) []]. split_and!; [done..|]. exists c.
    by rewrite ok_or_ok, !result_seq_ok, validate_secret_ref_ok, validate_collection_ok,
      (try_each_iff _ _ _ validate_identifier_ok).
Qed.

Lemma validate_governance_ok g : validate_governance g = Ok tt ↔ governance_ok g.
Proof.
  unfold validate_governance.
  rewrite result_seq_ok, validate_identifier_ok, !if_err_then, !range_ok.
  split.
  - intros (Hp & Hr & Hc & Hb & Hd & _). by refine (Build_governance_ok g Hp Hr Hc Hb Hd).
  - intros [Hp Hr Hc Hb Hd]. exact (conj Hp (conj Hr (conj Hc (conj Hb (conj Hd eq_refl))))).
Qed.

Lemma validate_destination_ok d : validate_destination d = Ok tt ↔ destination_ok d.
Proof.
  unfold validate_destination, requires_private_allowance.
  rewrite result_seq_ok, validate_host_ok, if_err_then, if_err_ok, N.eqb_neq, andb_false_iff,
    negb_false_iff, bool_decide_eq_true.
  split.
  - intros (?&?& Hp). constructor; [done..|]. intros Hh%is_private_host_iff. destruct Hp; [congruence|done].
  - intros [? ? Hp]. split_and!; [done..|]. rewrite <- is_private_host_iff in Hp.
    destruct (is_private_host (eg_host d)); auto.
Qed.

Lemma nonempty_length {A} (l : list A) : l ≠ [] ↔ (0 < length l)%nat.
Proof. destruct l; simpl; split; (done || lia). Qed.

Lemma validate_runtime_ok r : validate_runtime r = Ok tt ↔ runtime_ok r.
Proof.
  unfold validate_runtime.
  rewrite !result_seq_ok, validate_sha256_digest_ok, !validate_required_string_ok,
    validate_collection_ok, if_err_then, bool_decide_eq_false, nonempty_length,
    (try_each_iff _ _ _ validate_destination_ok).
  split; [intros (?&?&?&?&?&?&?&?); by constructor | by intros [? [] [] [[] ?]]].
Qed.

Lemma validate_upstreams_ok ids l ids' :
  validate_upstreams ids l = Ok ids' ↔
  Forall upstream_ok l ∧ NoDup (ub_upstream_id <$> l)
  ∧ (∀ u, u ∈ l → ub_upstream_id u ∉ ids)
  ∧ ids' = list_to_set (ub_upstream_id <$> l) ∪ ids.
Proof.
  revert ids. induction l as [|u l IH]; intros ids; cbn [validate_upstreams].
  { split; [intros [= ->]|intros (_&_&_&->); f_equal; set_solver].
    split_and!; [constructor|constructor|set_solver|set_solver]. }
  rewrite result_seq_ok, validate_upstream_ok, if_err_then, bool_decide_eq_false, IH, Forall_cons.
  cbn [fmap list_fmap list_to_set]. rewrite NoDup_cons. split.
  - intros (Hu & Hid & HF & Hnd & Hnew & ->). split_and!; [done..| |done| |set_solver].
    + intros (v & Hv & Hin)%list_elem_of_fmap. apply (Hnew v Hin). rewrite Hv. set_solver.
    + intros v [->|Hv]%elem_of_cons; [done|]. specialize (Hnew v Hv). set_solver.
  - intros ((Hu & HF) & (Hno & Hnd) & Hnew & ->). split_and!; [done|apply Hnew; by left|done..| |set_solver].
    intros v Hv. specialize (Hnew v ltac:(by right)). intros [Heq%elem_of_singleton|]%elem_of_union; [|done].
    apply Hno. rewrite <-Heq. apply list_elem_of_fmap. eauto.
Qed.

Lemma validate_tools_ok ids aliases l :
  validate_tools ids aliases l = Ok tt ↔
  Forall (tool_ok ids) l ∧ NoDup (et_alias <$> l) ∧ (∀ t, t ∈ l → et_alias t ∉ aliases).
Proof.
  revert aliases. induction l as [|u l IH]; intros aliases; cbn [validate_tools].
  { split; [|done]. intros _. split_and!; [constructor|constructor|set_solver]. }
  rewrite result_seq_ok, validate_exposed_tool_ok, if_err_then, bool_decide_eq_false, IH, Forall_cons.
  cbn [fmap list_fmap]. rewrite NoDup_cons. split.
  - intros (Hu & Hid & HF & Hnd & Hnew). split_and!; [done..| |done|].
    + intros (v & Hv & Hin)%list_elem_of_fmap. apply (Hnew v Hin). rewrite Hv. set_solver.
    + intros v [->|Hv]%elem_of_cons; [done|]. specialize (Hnew v Hv). set_solver.
  - intros ((Hu & HF) & (Hno & Hnd) & Hnew). split_and!; [done|apply Hnew; by left|done..|].
    intros v Hv. specialize (Hnew v ltac:(by right)). intros [Heq%elem_of_singleton|]%elem_of_union; [|done].
    apply Hno. rewrite <-Heq. apply list_elem_of_fmap. eauto.
Qed.

(** The validators accept a specification exactly when [spec_ok] holds. *)
Lemma validate_proxy_spec_ok spec : validate_proxy_spec spec = Ok tt ↔ spec_ok spec.
Proof.
  unfold validate_proxy_spec.
  rewrite !result_seq_ok, validate_ingress_ok, !validate_collection_ok, !if_err_then,
    !bool_decide_eq_false, !nonempty_length, result_bind_ok.
  split.
  - intros (?&?&?&?&?&?&?& ids & (?&?&_&->)%validate_upstreams_ok & Hrest).
    rewrite !result_seq_ok, validate_tools_ok, validate_governance_ok, validate_runtime_ok,
      (try_each_iff _ _ _ validate_cli_profile_ok), (try_each_iff _ _ _ validate_auth_binding_ok) in Hrest.
    destruct Hrest as ((Ht&?&_)&?&?&?&?). rewrite union_empty_r_L in Ht. by constructor.
  - intros [? [[] ?] ? [[] ?] ? [] [] ? ?]. split_and!; [done..|].
    eexists. split.
    + apply validate_upstreams_ok. split_and!; [done..|set_solver|done].
    + rewrite !result_seq_ok, validate_tools_ok, validate_governance_ok, validate_runtime_ok,
        (try_each_iff _ _ _ validate_cli_profile_ok), (try_each_iff _ _ _ validate_auth_binding_ok),
        union_empty_r_L.
      split_and!; try done; set_solver.
Qed.

(** C16. [validate_proxy_spec] accepts exactly the specifications [spec_ok]
    describes: every field within its bound, at least one upstream and one
    exposed tool, upstream identifiers and tool aliases without repetition,
    every tool bound to a declared upstream, [portfolio.read] classified as a
    read, CLI profiles without a shell and with bounded time and output, and an
    explicit allowance for every network destination that [private_host] names:
    localhost, a name under [.internal] or [.local], an IPv4 address in a
    private, loopback, link-local, broadcast or documentation block, an IPv6
    address that is loopback, unique-local or link-local.  Other ranges need
    none, among them multicast and the IPv4-mapped forms of private addresses
    ([mapped_address_unguarded]). *)
Theorem proxy_spec_exact (spec : ProxySpec) : validate_proxy_spec spec = Ok tt ↔ spec_ok spec.
Proof. apply validate_proxy_spec_ok. Qed.

(** * Where a proxy may connect

    The hosts of a specification's network destinations, when they are literal
    addresses: which of them the check for private destinations of
    [proxy.rs] and [proxy/validation.rs] recognises. *)

(** ** Literal addresses as hosts *)

Lemma trim_start_id (p : ascii → bool) (s : string) :
  str_all (λ c, negb (p c)) s = true → trim_start_matches p s = s.
Proof. destruct s as [|c s]; [done|]. simpl. intros [Hc _]%andb_true_iff. by destruct (p c). Qed.

Lemma str_all_rev (p : ascii → bool) (s : string) : str_all p (str_rev s) = str_all p s.
Proof.
  apply Bool.eq_iff_eq_true. rewrite !str_all_forall. unfold str_rev.
  rewrite String.list_ascii_of_string_of_list_ascii.
  split; intros Hs c Hc; apply Hs; by apply elem_of_reverse.
Qed.

Lemma trim_matches_id (p : ascii → bool) (s : string) :
  str_all (λ c, negb (p c)) s = true → trim_matches p s = s.
Proof.
  intros Hs. unfold trim_matches.
  by rewrite (trim_start_id p s Hs), trim_start_id, str_rev_involutive by by rewrite str_all_rev.
Qed.

Lemma to_ascii_lowercase_id (s : string) :
  str_all (λ c, negb (in_range "A" "Z" c)) s = true → to_ascii_lowercase s = s.
Proof.
  induction s as [|c s IH]; [done|]. simpl. intros [Hc Hs]%andb_true_iff.
  unfold ascii_lower. apply negb_true_iff in Hc. by rewrite Hc, IH.
Qed.

(** The characters of an address in text. *)
Definition is_address_byte (c : ascii) : bool :=
  is_ascii_digit c || ascii_eqb c "." || ascii_eqb c ":" || ascii_eqb c "f".

Lemma address_byte_plain (c : ascii) : is_address_byte c = true →
  negb (is_bracket c) = true ∧ negb (in_range "A" "Z" c) = true ∧ is_ascii_graphic c = true
  ∧ negb (ascii_eqb c "/") = true.
Proof. destruct c as [[] [] [] [] [] [] [] []]; vm_compute; by intros. Qed.

Lemma decimal_address (x : N) : str_all is_address_byte (decimal x) = true.
Proof.
  apply str_all_forall. intros c Hc. unfold decimal in Hc.
  rewrite String.list_ascii_of_string_of_list_ascii in Hc.
  pose proof (decimal_list_digits x) as Hx. rewrite Forall_forall in Hx. specialize (Hx c Hc).
  simpl in Hx. unfold is_address_byte. by rewrite Hx.
Qed.

Lemma show_ipv4_text (a b c d : N) :
  show_ipv4 a b c d
  = decimal a +:+ String "." (decimal b +:+ String "." (decimal c +:+ String "." (decimal d))).
Proof.
  unfold show_ipv4, decimal. rewrite string_of_list_ascii_app. f_equal.
  cbn [String.string_of_list_ascii]. f_equal. rewrite string_of_list_ascii_app. f_equal.
  cbn [String.string_of_list_ascii]. f_equal. by rewrite string_of_list_ascii_app.
Qed.

Lemma show_ipv4_bytes (a b c d : N) : str_all is_address_byte (show_ipv4 a b c d) = true.
Proof.
  rewrite show_ipv4_text, str_all_app, decimal_address. cbn [str_all].
  rewrite str_all_app, decimal_address. cbn [str_all].
  rewrite str_all_app, decimal_address. cbn [str_all]. by rewrite decimal_address.
Qed.

Lemma length_string_of_list (l : list ascii) :
  String.length (String.string_of_list_ascii l) = length l.
Proof. induction l as [|c l IH]; [done|]. simpl. by rewrite IH. Qed.

Lemma decimal_len (x : N) : x < 256 → 0 < str_len (decimal x) ≤ 3.
Proof.
  intros Hx%octet_texts. unfold octet_text_ok in Hx. apply andb_true_iff in Hx as [Hx _].
  apply andb_true_iff in Hx as [Hle%N.leb_le Hlt%N.ltb_lt].
  unfold decimal, str_len, len in *. by rewrite length_string_of_list.
Qed.

(** An IPv4 address written as an IPv6 one. *)
Definition mapped_ipv4 (a b c d : N) : string := "::ffff:" +:+ show_ipv4 a b c d.

Lemma mapped_bytes (a b c d : N) : str_all is_address_byte (mapped_ipv4 a b c d) = true.
Proof. unfold mapped_ipv4. rewrite str_all_app, show_ipv4_bytes. done. Qed.

Lemma address_host_text (s : string) : str_all is_address_byte s = true → host_text s = s.
Proof.
  intros Hs. apply trim_matches_id. revert Hs. apply str_all_impl.
  intros c Hc. by apply address_byte_plain.
Qed.

Lemma show_ipv4_len (a b c d : N) :
  a < 256 → b < 256 → c < 256 → d < 256 → 0 < str_len (show_ipv4 a b c d) ≤ 15.
Proof.
  intros Ha%decimal_len Hb%decimal_len Hc%decimal_len Hd%decimal_len. rewrite show_ipv4_text.
  assert (∀ s, str_len (String "." s) = 1 + str_len s) as Hdot
    by (intros s; unfold str_len; simpl; lia).
  repeat (rewrite str_len_app || rewrite Hdot). lia.
Qed.

Lemma address_host_ok (s : string) :
  str_all is_address_byte s = true → 0 < str_len s ≤ 512 → is_Some (parse_ip_addr s) → host_ok s.
Proof.
  intros Hs Hlen Hp. unfold host_ok. rewrite address_host_text by done.
  split_and!; [lia|lia| | |by left].
  - apply no_char_contains. unfold no_char. revert Hs. apply str_all_impl.
    intros c Hc. by apply address_byte_plain.
  - apply graphic_no_whitespace. revert Hs. apply str_all_impl.
    intros c Hc. by apply address_byte_plain.
Qed.

(** Text that ends in a digit is none of the private names. *)
Lemma rev_decimal (x : N) (s : string) : ∃ c r,
  str_rev (s +:+ decimal x) = String c r ∧ is_ascii_digit c = true.
Proof.
  rewrite str_rev_app. unfold decimal, str_rev at 1.
  rewrite String.list_ascii_of_string_of_list_ascii.
  destruct (reverse (decimal_list x)) as [|c l] eqn:E.
  { apply (f_equal length) in E. rewrite length_reverse in E.
    destruct (decimal_list_nonempty x) as (c & l & El). by rewrite El in E. }
  eexists c, _. split; [done|]. pose proof (decimal_list_digits x) as Hx.
  rewrite Forall_forall in Hx. apply Hx, elem_of_reverse. rewrite E. by left.
Qed.

Lemma digit_end_not_named (s t : string) (x : N) :
  s = t +:+ decimal x →
  String.eqb s "localhost" || String.eqb s "host.docker.internal"
  || str_ends_with ".internal" s || str_ends_with ".local" s = false.
Proof.
  intros Hs. destruct (rev_decimal x t) as (c & r & Hr & Hc). rewrite <-Hs in Hr.
  assert (∀ pat k r', str_rev pat = String k r' → is_ascii_digit k = false →
    String.eqb s pat = false ∧ str_ends_with pat s = false) as Hno.
  { intros pat k r' Hp Hk. split.
    - apply String.eqb_neq. intros ->. rewrite Hp in Hr. by injection Hr as -> ->; rewrite Hk in Hc.
    - unfold str_ends_with. rewrite Hp, Hr. cbn [str_starts_with]. unfold ascii_eqb.
      rewrite bool_decide_eq_false_2; [done|]. intros ->. by rewrite Hk in Hc. }
  rewrite (proj1 (Hno "localhost" _ _ eq_refl eq_refl)).
  rewrite (proj1 (Hno "host.docker.internal" _ _ eq_refl eq_refl)).
  rewrite (proj2 (Hno ".internal" _ _ eq_refl eq_refl)).
  by rewrite (proj2 (Hno ".local" _ _ eq_refl eq_refl)).
Qed.

Lemma show_ipv4_end (a b c d : N) : ∃ t, show_ipv4 a b c d = t +:+ decimal d.
Proof.
  rewrite show_ipv4_text. exists (decimal a +:+ String "." (decimal b +:+ String "." (decimal c +:+ "."))).
  rewrite string_app_assoc. f_equal. change (String "." ?x +:+ ?y) with (String "." (x +:+ y)).
  f_equal. rewrite string_app_assoc. f_equal.
  change (String "." ?x +:+ ?y) with (String "." (x +:+ y)). f_equal. by rewrite string_app_assoc.
Qed.

(** What [is_private_host] says of a literal address. *)
Lemma private_address (s t : string) (x : N) (address : IpAddr) :
  str_all is_address_byte s = true → s = t +:+ decimal x → parse_ip_addr s = Some address →
  is_private_host s = match address with
    | IpV4 o => v4_is_private o || v4_is_loopback o || v4_is_link_local o || v4_is_broadcast o
                || v4_is_documentation o
    | IpV6 g => v6_is_loopback g || v6_is_unique_local g || v6_is_unicast_link_local g
    end.
Proof.
  intros Hb Hs Hp. unfold is_private_host. fold (host_text s). rewrite address_host_text by done.
  rewrite to_ascii_lowercase_id.
  2: { revert Hb. apply str_all_impl. intros c Hc. by apply address_byte_plain. }
  by rewrite (digit_end_not_named s t x Hs), Hp.
Qed.

Lemma read_number_colon (radix max : N) (digits : nat) (zero : bool) (s : list ascii) :
  read_number radix max digits zero (":"%char :: s) = None.
Proof. unfold read_number. destruct digits; by destruct zero. Qed.

(** The mapped form is read as an IPv6 address whose last groups hold the
    octets. *)
Lemma parse_mapped (a b c d : N) :
  a < 256 → b < 256 → c < 256 → d < 256 →
  parse_ip_addr (mapped_ipv4 a b c d)
  = Some (IpV6 [0; 0; 0; 0; 0; 65535; a * 256 + b; c * 256 + d]).
Proof.
  intros Ha Hb Hc Hd. unfold parse_ip_addr, mapped_ipv4.
  rewrite list_ascii_app. unfold show_ipv4. rewrite String.list_ascii_of_string_of_list_ascii.
  set (quad := decimal_list a ++ _).
  assert (read_ipv4_addr quad = Some ([a; b; c; d], [])) as Hq by by apply read_ipv4_quad.
  change (String.list_ascii_of_string "::ffff:" ++ quad)
    with (":"%char :: ":"%char :: "f"%char :: "f"%char :: "f"%char :: "f"%char :: ":"%char :: quad).
  assert (∀ s, read_ipv4_addr (":"%char :: s) = None) as Hcolon
    by (intros s; unfold read_ipv4_addr; cbn [read_octets read_separator];
        by rewrite read_number_colon).
  assert (∀ s, read_ipv4_addr ("f"%char :: s) = None) as Hf
    by (intros s; done).
  rewrite Hcolon. unfold read_ipv6_addr. cbn [read_groups read_separator Nat.ltb Nat.leb].
  rewrite Hcolon, read_number_colon. cbn [length Nat.eqb].
  unfold read_given_char. change (ascii_eqb ":" ":") with true. cbn [mbind option_bind].
  change (ascii_eqb ":" ":") with true. cbn [mbind option_bind].
  change (8 - (0 + 1))%nat with 7%nat. cbn [read_groups read_separator Nat.ltb Nat.leb].
  rewrite Hf.
  change (read_number 16 65535 4 true
    ("f"%char :: "f"%char :: "f"%char :: "f"%char :: ":"%char :: quad))
    with (Some (65535, ":"%char :: quad)).
  unfold read_given_char. change (ascii_eqb ":" ":") with true. cbn [mbind option_bind].
  rewrite Hq. reflexivity.
Qed.

(** A destination given as the dotted text of a private, loopback or
    link-local IPv4 address needs the explicit allowance: without it validation
    fails with [PRIVATE_DESTINATION_REQUIRES_ALLOW_RULE].  The same address in
    its IPv4-mapped IPv6 form ([::ffff:a.b.c.d]) is accepted without any
    allowance, whatever the address is: the check knows only the loopback,
    unique-local and link-local ranges of IPv6. *)
Theorem mapped_address_unguarded (a b c d port : N) :
  a < 256 → b < 256 → c < 256 → d < 256 → port ≠ 0 →
  (v4_is_private [a; b; c; d] || v4_is_loopback [a; b; c; d] || v4_is_link_local [a; b; c; d] = true →
   pe_code <$> (match validate_destination (Https (show_ipv4 a b c d) port Denied) with
                | Err e => Some e | Ok _ => None end)
   = Some "PRIVATE_DESTINATION_REQUIRES_ALLOW_RULE")
  ∧ validate_destination (Https (mapped_ipv4 a b c d) port Denied) = Ok tt.
Proof.
  intros Ha Hb Hc Hd Hport. destruct (show_ipv4_end a b c d) as [t Ht].
  pose proof (show_ipv4_len a b c d Ha Hb Hc Hd) as Hlen.
  pose proof (parse_show_ipv4 a b c d Ha Hb Hc Hd) as Hp. split.
  - intros Hpriv. unfold validate_destination, requires_private_allowance. cbn [eg_host eg_port].
    assert (host_ok (show_ipv4 a b c d)) as Hhost
      by (apply address_host_ok; [apply show_ipv4_bytes|lia|rewrite Hp; eauto]).
    apply validate_host_ok in Hhost. rewrite Hhost. cbn [mbind result_bind].
    destruct (N.eqb_spec port 0); [done|].
    rewrite (private_address _ t d _ (show_ipv4_bytes a b c d) Ht Hp), Hpriv. done.
  - apply validate_destination_ok. constructor; cbn [eg_host eg_port eg_private_allowance]; [|done|].
    + apply address_host_ok; [apply mapped_bytes| |rewrite parse_mapped; eauto].
      unfold mapped_ipv4. rewrite str_len_app. change (str_len "::ffff:") with 7. lia.
    + rewrite <- is_private_host_iff, (private_address _ ("::ffff:" +:+ t) d _ (mapped_bytes a b c d)
        ltac:(unfold mapped_ipv4; by rewrite Ht, string_app_assoc) (parse_mapped a b c d Ha Hb Hc Hd)).
      done.
Qed.

Lemma mapped_address_unguarded_witness :
  validate_destination (Https "::ffff:10.0.0.1" 443 Denied) = Ok tt.
Proof.
  change "::ffff:10.0.0.1" with (mapped_ipv4 10 0 0 1).
  by apply (mapped_address_unguarded 10 0 0 1 443).
Defined.
