(* ===== verification/ProxyLifecycle.v ===== *)
(** * The lifecycle of a proxy

    [apps/control-plane-api/src/proxy/lifecycle.rs]: the commands, the
    transition table, and which states can be reached along it. *)
From S2P Require Import Prelude RustStr OperatorAuth ProxySpec.

Inductive LifecycleCommand :=
  | Validate | ValidationSucceeded | Deploy | MarkReady | Degrade | Recover | Pause | Resume
  | Fail | Retire | MarkRetired.

#[global] Instance LifecycleCommand_eq_dec : EqDecision LifecycleCommand.
Proof. solve_decision. Defined.

(** [LifecycleCommand::operation]. *)
Definition command_operation (c : LifecycleCommand) : string :=
  match c with
  | Validate => "validate_proxy"
  | ValidationSucceeded => "validation_succeeded"
  | Deploy => "deploy_proxy"
  | MarkReady => "proxy_ready"
  | Degrade => "proxy_degraded"
  | Recover => "proxy_recovered"
  | Pause => "pause_proxy"
  | Resume => "resume_proxy"
  | Fail => "proxy_failed"
  | Retire => "retire_proxy"
  | MarkRetired => "proxy_retired"
  end.

Definition transition_state (current : ProxyLifecycleState) (command : LifecycleCommand)
    (approved : bool) : result ProxyError ProxyLifecycleState :=
  match current, command with
  | Draft, Validate => Ok Validating
  | Validating, ValidationSucceeded => Ok AwaitingApproval
  | AwaitingApproval, Deploy => if approved then Ok Provisioning else Err approval_required
  | Provisioning, MarkReady => Ok Ready
  | Ready, Degrade => Ok Degraded
  | Degraded, Recover => Ok Ready
  | Ready, Pause => Ok Paused
  | Paused, Resume => Ok Provisioning
  | (Validating | Provisioning), Fail => Ok Failed
  | (Ready | Degraded | Paused), Retire => Ok Retiring
  | Retiring, MarkRetired => Ok Retired
  | _, _ => Err invalid_lifecycle_transition
  end.

Record LifecycleTransition := mkLifecycleTransition {
  lt_prior_state : ProxyLifecycleState;
  lt_next_state : ProxyLifecycleState;
  lt_command : LifecycleCommand;
}.

(** [LifecycleTransition::new]. *)
Definition lifecycle_transition_new (prior_state : ProxyLifecycleState)
    (command : LifecycleCommand) (approved : bool) : result ProxyError LifecycleTransition :=
  next_state ← transition_state prior_state command approved;
  Ok (mkLifecycleTransition prior_state next_state command).

(** ** Runs of the table *)

(** One accepted command, with the approval it carried. *)
Inductive lifecycle_step : ProxyLifecycleState → (LifecycleCommand * bool) → ProxyLifecycleState → Prop :=
  | lifecycle_accepts s c approved s' :
      transition_state s c approved = Ok s' → lifecycle_step s (c, approved) s'.

Inductive lifecycle_run : ProxyLifecycleState → list (LifecycleCommand * bool) → ProxyLifecycleState → Prop :=
  | run_nil s : lifecycle_run s [] s
  | run_snoc s cs c s' s'' :
      lifecycle_run s cs s' → lifecycle_step s' c s'' → lifecycle_run s (cs ++ [c]) s''.

(** The states past the approval of a deployment. *)
Definition past_approval (s : ProxyLifecycleState) : bool :=
  match s with
  | Provisioning | Ready | Degraded | Paused | Retiring | Retired => true
  | _ => false
  end.

(** A table run from [Draft] that is past the approval contains the validation
    and an approved deployment. *)
Definition validated_then_deployed (cs : list (LifecycleCommand * bool)) : Prop :=
  ∃ a b c d v1 v2, cs = a ++ [(Validate, v1)] ++ b ++ [(ValidationSucceeded, v2)] ++ c
                        ++ [(Deploy, true)] ++ d.

(** What the commands taken so far say about the state reached. *)
Inductive stage (cs : list (LifecycleCommand * bool)) : ProxyLifecycleState → Prop :=
  | stage_draft : stage cs Draft
  | stage_validating a v1 b : cs = a ++ [(Validate, v1)] ++ b → stage cs Validating
  | stage_awaiting a v1 b v2 c :
      cs = a ++ [(Validate, v1)] ++ b ++ [(ValidationSucceeded, v2)] ++ c → stage cs AwaitingApproval
  | stage_past s : past_approval s = true → validated_then_deployed cs → stage cs s
  | stage_failed : stage cs Failed.

Lemma stage_step cs s c s' : stage cs s → lifecycle_step s c s' → stage (cs ++ [c]) s'.
Proof.
  intros Hstage Hstep. destruct Hstep as [s c approved s' Ht].
  inversion Hstage as [|a v1 b Hcs|a v1 b v2 c0 Hcs|s0 Hpast (a & b & c0 & d & v1 & v2 & Hcs)|]; subst.
  - destruct c; simplify_eq/=. by apply stage_validating with cs approved [].
  - destruct c; simplify_eq/=; [|apply stage_failed].
    apply stage_awaiting with a v1 b approved []. by simplify_list_eq.
  - destruct c; simplify_eq/=. destruct approved; simplify_eq/=.
    apply stage_past; [done|]. exists a, b, c0, [], v1, v2. by simplify_list_eq.
  - assert (s' = Failed ∨ past_approval s' = true) as [->|Hp].
    { destruct s, c; simplify_eq/=; auto. }
    + apply stage_failed.
    + apply stage_past; [done|]. exists a, b, c0, (d ++ [(c, approved)]), v1, v2.
      by simplify_list_eq.
  - by destruct c.
Qed.

(** C18. Along the transition table a proxy is provisioned, serves, is paused
    or retires only after its validation succeeded and a deployment was
    approved, in that order; and nothing leaves [Retired]. *)
Theorem approval_before_service (cs : list (LifecycleCommand * bool)) (s : ProxyLifecycleState) :
  lifecycle_run Draft cs s →
  (past_approval s = true → validated_then_deployed cs)
  ∧ (s = Retired → ∀ c approved, transition_state s c approved = Err invalid_lifecycle_transition).
Proof.
  intros Hrun. split; [|by intros -> []].
  assert (stage cs s) as Hstage.
  { remember Draft as s0 eqn:Hs0. induction Hrun as [|s0 cs c s' s'' Hrun IH Hstep]; subst; [constructor|].
    eapply stage_step; eauto. }
  intros Hp. by inversion Hstage; subst.
Qed.

Definition demo_run : list (LifecycleCommand * bool) :=
  [(Validate, false); (ValidationSucceeded, false); (Deploy, true); (MarkReady, false)].

Lemma demo_run_ready : lifecycle_run Draft demo_run Ready.
Proof.
  unfold demo_run.
  apply (run_snoc _ [(Validate, false); (ValidationSucceeded, false); (Deploy, true)] _ Provisioning);
    [|by constructor].
  apply (run_snoc _ [(Validate, false); (ValidationSucceeded, false)] _ AwaitingApproval);
    [|by constructor].
  apply (run_snoc _ [(Validate, false)] _ Validating); [|by constructor].
  apply (run_snoc _ [] _ Draft); [constructor|by constructor].
Defined.

Lemma approval_before_service_witness : validated_then_deployed demo_run.
Proof. exact (proj1 (approval_before_service demo_run Ready demo_run_ready) eq_refl). Defined.
