(* ===== verification/Convert.v ===== *)
(** * Wire data

    The protocol-buffer data the gateway works on: [google.protobuf.Struct]
    and [Value] as [prost_types] decodes them, the [ControlAction] enum of
    [contracts/proto/apex/v1/control.proto], and [ControlCommandInput] of
    [envelope.rs]. *)
From Stdlib Require Import Ascii.
From S2P Require Import Prelude RustStr Secrets Errors.

Open Scope N_scope.

(** [google.protobuf.Value]; a missing [kind] is [VNone].  A [double] is its 64
    bits.  A [Struct]'s map is the list of its entries in iteration order.
    The induction principle is [value_ind] below. *)
Unset Elimination Schemes.
Inductive Value :=
  | VNone
  | VNull (raw : N)
  | VNumber (bits : N)
  | VString (s : string)
  | VBool (b : bool)
  | VStruct (fields : list (string * Value))
  | VList (values : list Value).
Set Elimination Schemes.

(** [google.protobuf.Struct]. *)
Abbreviation Struct := (list (string * Value)).

(** The nested induction principle. *)
Section value_ind.
Variable P : Value → Prop.
Hypothesis P_none : P VNone.
Hypothesis P_null : ∀ raw, P (VNull raw).
Hypothesis P_number : ∀ bits, P (VNumber bits).
Hypothesis P_string : ∀ s, P (VString s).
Hypothesis P_bool : ∀ b, P (VBool b).
Hypothesis P_struct : ∀ fields, Forall (λ kv, P kv.2) fields → P (VStruct fields).
Hypothesis P_list : ∀ values, Forall P values → P (VList values).

Fixpoint value_ind (v : Value) : P v :=
  match v with
  | VNone => P_none
  | VNull raw => P_null raw
  | VNumber bits => P_number bits
  | VString s => P_string s
  | VBool b => P_bool b
  | VStruct fields =>
      P_struct fields
        ((fix go (l : list (string * Value)) : Forall (λ kv, P kv.2) l :=
            match l with
            | [] => Forall_nil_2 _
            | kv :: l => Forall_cons_2 _ kv l (value_ind kv.2) (go l)
            end) fields)
  | VList values =>
      P_list values
        ((fix go (l : list Value) : Forall P l :=
            match l with
            | [] => Forall_nil_2 _
            | v :: l => Forall_cons_2 _ v l (value_ind v) (go l)
            end) values)
  end.
End value_ind.

(** [BTreeMap::get] and [BTreeMap::insert]: one entry per key, in key order. *)
Fixpoint field_get (key : string) (fields : Struct) : option Value :=
  match fields with
  | [] => None
  | (k, v) :: fields => if String.eqb k key then Some v else field_get key fields
  end.

Fixpoint field_insert (key : string) (value : Value) (fields : Struct) : Struct :=
  match fields with
  | [] => [(key, value)]
  | (k, v) :: rest =>
      if String.eqb k key then (key, value) :: rest
      else if String.leb key k then (key, value) :: fields
      else (k, v) :: field_insert key value rest
  end.

(** [ControlAction] and its wire numbers. *)
Inductive ControlAction :=
  | Unspecified | Stop | Pause | Resume | Inject | SetBudget | ResolveHold | ForceStop.

#[global] Instance ControlAction_eq_dec : EqDecision ControlAction.
Proof. solve_decision. Defined.

Definition action_number (a : ControlAction) : N :=
  match a with
  | Unspecified => 0 | Stop => 1 | Pause => 2 | Resume => 3 | Inject => 4
  | SetBudget => 5 | ResolveHold => 6 | ForceStop => 7
  end.

(** [ControlAction::try_from(i32).unwrap_or(Unspecified)]. *)
Definition action_from_number (n : N) : ControlAction :=
  match n with
  | 1 => Stop | 2 => Pause | 3 => Resume | 4 => Inject
  | 5 => SetBudget | 6 => ResolveHold | 7 => ForceStop | _ => Unspecified
  end.

(** [action_name] of [envelope.rs]. *)
Definition action_name (a : ControlAction) : option string :=
  match a with
  | Stop => Some "stop"
  | Pause => Some "pause"
  | Resume => Some "resume"
  | Inject => Some "inject"
  | SetBudget => Some "set_budget"
  | ResolveHold => Some "resolve_hold"
  | ForceStop => Some "force_stop"
  | Unspecified => None
  end.

(** [action_to_proto] of [service/proto_mapping.rs]. *)
Definition action_to_proto (a : string) : ControlAction :=
  if String.eqb a "stop" then Stop
  else if String.eqb a "pause" then Pause
  else if String.eqb a "resume" then Resume
  else if String.eqb a "inject" then Inject
  else if String.eqb a "set_budget" then SetBudget
  else if String.eqb a "resolve_hold" then ResolveHold
  else if String.eqb a "force_stop" then ForceStop
  else Unspecified.

(** [ControlCommandInput] of [envelope.rs]. *)
Record ControlCommandInput := mkInput {
  in_command_id : option string;
  in_workspace_id : string;
  in_namespace_id : string;
  in_agent_id : string;
  in_run_id : string;
  in_parent_run_id : option string;
  in_trace_id : string;
  in_action : ControlAction;
  in_reason_code : option string;
  in_parameters : option Struct;
}.

(** ** Lemmas *)

Lemma action_from_number_of (a : ControlAction) : action_from_number (action_number a) = a.
Proof. by destruct a. Qed.

(** The stored action name and the wire action determine each other. *)
Lemma action_to_proto_name (a : ControlAction) (name : string) :
  action_name a = Some name → action_to_proto name = a.
Proof. by destruct a; intros [= <-]. Qed.

Lemma action_name_inj (a b : ControlAction) (name : string) :
  action_name a = Some name → action_name b = Some name → a = b.
Proof. intros Ha%action_to_proto_name Hb%action_to_proto_name. congruence. Qed.

Lemma field_get_insert (k k' : string) (v : Value) (fs : Struct) :
  field_get k' (field_insert k v fs) = if String.eqb k k' then Some v else field_get k' fs.
Proof.
  induction fs as [|[k0 v0] fs IH]; simpl; [done|].
  destruct (String.eqb_spec k0 k) as [->|Hne]; simpl.
  - by destruct (String.eqb_spec k k').
  - destruct (String.leb k k0); simpl; [done|]. rewrite IH.
    destruct (String.eqb_spec k0 k'), (String.eqb_spec k k'); congruence.
Qed.

(** * Event data: conversion and the control schema

    [crates/apex-domain/src/validation/convert.rs], the depth-bounded conversion
    of a protocol-buffer [Struct] to JSON, and [control.rs], the schema of the
    data a [control] event carries. *)

(** ** Conversion *)

(** [iter().map(f).collect::<Result<_, _>>()]: the first error wins. *)
Fixpoint collect {E A B} (f : A → result E B) (l : list A) : result E (list B) :=
  match l with
  | [] => Ok []
  | a :: l => b ← f a; bs ← collect f l; Ok (b :: bs)
  end.

Definition MAX_STRUCT_DEPTH : N := 64.

(** [f64::is_finite] on the bits: the exponent is not all ones. *)
Definition is_finite (bits : N) : bool := negb ((bits / 2 ^ 52) mod 2048 =? 2047).

(** [serde_json::Number::from_f64]. *)
Definition number_from_f64 (bits : N) : option Number :=
  if is_finite bits then Some (Float bits) else None.

(** [prost_struct_to_json_at_depth], given the conversion of a value.  The keys
    of the [BTreeMap] are distinct, so each [insert] adds one entry, in key
    order. *)
Definition struct_to_json_with (conv : Value → N → result GatewayErrorCode Json)
    (fields : Struct) (depth : N) : result GatewayErrorCode Json :=
  if MAX_STRUCT_DEPTH <? depth then Err GInvalidStructure
  else
    object ← collect (λ kv, j ← conv kv.2 (depth + 1); Ok (kv.1, j)) fields;
    Ok (JObject object).

Fixpoint prost_value_to_json_at_depth (v : Value) (depth : N) : result GatewayErrorCode Json :=
  if MAX_STRUCT_DEPTH <? depth then Err GInvalidStructure
  else
    match v with
    | VNull _ => Ok JNull
    | VNumber bits => JNumber <$> ok_or (number_from_f64 bits) GInvalidStructure
    | VString s => Ok (JString s)
    | VBool b => Ok (JBool b)
    | VStruct fields => struct_to_json_with prost_value_to_json_at_depth fields (depth + 1)
    | VList values =>
        items ← collect (λ v, prost_value_to_json_at_depth v (depth + 1)) values;
        Ok (JArray items)
    | VNone => Err GInvalidStructure
    end.

Definition prost_struct_to_json_at_depth (fields : Struct) (depth : N)
    : result GatewayErrorCode Json :=
  struct_to_json_with prost_value_to_json_at_depth fields depth.

Definition prost_struct_to_json (fields : Struct) : result GatewayErrorCode Json :=
  prost_struct_to_json_at_depth fields 0.

(** ** The control schema *)

(** [Value::as_str], [as_object], [as_f64] (on the numbers the conversion
    builds), [is_null] and [Map::get]. *)
Definition json_as_str (j : Json) : option string :=
  match j with JString s => Some s | _ => None end.
Definition json_as_object (j : Json) : option (list (string * Json)) :=
  match j with JObject fields => Some fields | _ => None end.
Definition json_as_f64 (j : Json) : option N :=
  match j with JNumber (Float bits) => Some bits | _ => None end.
Definition json_is_null (j : Json) : bool := match j with JNull => true | _ => false end.

Fixpoint json_get (key : string) (fields : list (string * Json)) : option Json :=
  match fields with
  | [] => None
  | (k, j) :: fields => if String.eqb k key then Some j else json_get key fields
  end.
Definition json_get_str (key : string) (fields : list (string * Json)) : option string :=
  json_get key fields ≫= json_as_str.

(** [MAX_CONTROL_BUDGET_LIMIT] is the double [1e15]. *)
Definition MAX_CONTROL_BUDGET_LIMIT : N := 0x430C6BF526340000.
Definition MAX_HOLD_REASON_BYTES : N := 8 * 1024.

(** [value.is_finite() && value > 0.0 && value <= MAX_CONTROL_BUDGET_LIMIT]: the
    bits of two positive doubles compare like the doubles, and a double is
    positive when its sign bit (the top one) is clear and it is not zero. *)
Definition budget_limit_ok (bits : N) : bool :=
  is_finite bits && ((0 <? bits) && (bits <? 2 ^ 63)) && (bits <=? MAX_CONTROL_BUDGET_LIMIT).

(** The body of the [match action] of [validate_control_data]. *)
Definition control_parameters_ok (action : string) (parameters : list (string * Json)) : bool :=
  if bool_decide (action ∈ ["stop"; "pause"; "resume"]) then len parameters =? 0
  else if String.eqb action "inject" then
    (len parameters =? 2)
    && match json_get_str "content" parameters with
       | Some content => negb (str_is_empty content) && (str_len content <=? 32 * 1024)
       | None => false
       end
    && bool_decide (json_get_str "content_classification" parameters = Some "untrusted")
  else if String.eqb action "set_budget" then
    (len parameters =? 2)
    && match json_get_str "budget_kind" parameters with
       | Some kind => bool_decide (kind ∈ ["tokens"; "cost"])
       | None => false
       end
    && match json_get "limit" parameters ≫= json_as_f64 with
       | Some bits => budget_limit_ok bits
       | None => false
       end
  else
    (len parameters =? 3)
    && match json_get_str "hold_token" parameters with
       | Some token => is_identifier token
       | None => false
       end
    && match json_get_str "decision" parameters with
       | Some decision => bool_decide (decision ∈ ["approved"; "denied"])
       | None => false
       end
    && match json_get "reason" parameters with
       | Some JNull => true
       | Some (JString reason) =>
           negb (str_is_empty reason) && (str_len reason <=? MAX_HOLD_REASON_BYTES)
       | _ => false
       end.

(** [validate_control_data]. *)
Definition control_required : list string := ["action"; "enforcement"; "reason_code"; "parameters"].
Definition control_actions : list string :=
  ["stop"; "pause"; "resume"; "inject"; "set_budget"; "resolve_hold"].

Definition validate_control_data (data : Struct) : result GatewayErrorCode unit :=
  value ← prost_struct_to_json data;
  object ← ok_or (json_as_object value) GInvalidStructure;
  if negb (len object =? len control_required)
     || existsb (λ key, bool_decide (json_get key object = None)) control_required
  then Err GInvalidStructure
  else
    action ← ok_or (json_get_str "action" object) GInvalidStructure;
    if negb (bool_decide (action ∈ control_actions)) then Err GInvalidStructure
    else if negb (bool_decide (json_get_str "enforcement" object = Some "cooperative"))
    then Err GInvalidStructure
    else if match json_get "reason_code" object with
            | Some reason_code =>
                negb (json_is_null reason_code)
                && negb match json_as_str reason_code with
                        | Some code => is_identifier code
                        | None => false
                        end
            | None => false
            end
    then Err GInvalidStructure
    else
      parameters ← ok_or (json_get "parameters" object ≫= json_as_object) GInvalidStructure;
      if control_parameters_ok action parameters then Ok tt else Err GInvalidStructure.

(** ** What is converted *)

(** How many levels below its own a value opens: an object opens one for
    itself and one for its members, a list one for its items. *)
Fixpoint value_levels (v : Value) : N :=
  match v with
  | VStruct fields => 1 + foldr N.max 0 (map (λ kv, 1 + value_levels kv.2) fields)
  | VList values => foldr N.max 0 (map (λ v, 1 + value_levels v) values)
  | _ => 0
  end.
Definition struct_levels (fields : Struct) : N :=
  foldr N.max 0 (map (λ kv, 1 + value_levels kv.2) fields).

(** Every leaf is set, and every number is a number JSON has. *)
Fixpoint leaves_ok (v : Value) : bool :=
  match v with
  | VNone => false
  | VNumber bits => is_finite bits
  | VStruct fields => forallb (λ kv, leaves_ok kv.2) fields
  | VList values => forallb leaves_ok values
  | _ => true
  end.

(** The JSON form, without the bounds. *)
Fixpoint plain_json (v : Value) : Json :=
  match v with
  | VNone | VNull _ => JNull
  | VNumber bits => JNumber (Float bits)
  | VString s => JString s
  | VBool b => JBool b
  | VStruct fields => JObject (map (λ kv, (kv.1, plain_json kv.2)) fields)
  | VList values => JArray (map plain_json values)
  end.

Lemma collect_exact {E A B} (f : A → result E B) (g : A → B) (ok : A → bool) (e : E) (l : list A) :
  Forall (λ a, f a = if ok a then Ok (g a) else Err e) l →
  collect f l = if forallb ok l then Ok (map g l) else Err e.
Proof.
  induction 1 as [|a l Ha _ IH]; [done|]. simpl. rewrite Ha, IH.
  destruct (ok a); simpl; [|done]. by destruct (forallb ok l).
Qed.

Lemma forallb_levels {A} (levels : A → N) (ok : A → bool) (d : N) (l : list A) :
  d ≤ MAX_STRUCT_DEPTH →
  forallb (λ a, (d + 1 + levels a <=? MAX_STRUCT_DEPTH) && ok a) l
  = (d + foldr N.max 0 (map (λ a, 1 + levels a) l) <=? MAX_STRUCT_DEPTH) && forallb ok l.
Proof.
  intros Hd. induction l as [|a l IH].
  - simpl. symmetry. rewrite andb_true_r. apply N.leb_le. lia.
  - simpl. rewrite IH. destruct (ok a); [|by rewrite !andb_false_r].
    destruct (forallb ok l); [|by rewrite !andb_false_r]. rewrite !andb_true_r.
    apply eq_true_iff_eq. rewrite andb_true_iff, !N.leb_le. lia.
Qed.

Lemma struct_with_exact (conv : Value → N → result GatewayErrorCode Json) (fields : Struct) (d : N) :
  Forall (λ kv, conv kv.2 (d + 1) =
     if (d + 1 + value_levels kv.2 <=? MAX_STRUCT_DEPTH) && leaves_ok kv.2
     then Ok (plain_json kv.2) else Err GInvalidStructure) fields →
  struct_to_json_with conv fields d =
    if (d + struct_levels fields <=? MAX_STRUCT_DEPTH) && forallb (λ kv, leaves_ok kv.2) fields
    then Ok (plain_json (VStruct fields)) else Err GInvalidStructure.
Proof.
  intros Hf. unfold struct_to_json_with. destruct (N.ltb_spec MAX_STRUCT_DEPTH d) as [Hd|Hd].
  - destruct (N.leb_spec (d + struct_levels fields) MAX_STRUCT_DEPTH); [lia|done].
  - rewrite (collect_exact _ (λ kv, (kv.1, plain_json kv.2))
               (λ kv, (d + 1 + value_levels kv.2 <=? MAX_STRUCT_DEPTH) && leaves_ok kv.2)
               GInvalidStructure).
    + rewrite (forallb_levels (λ kv, value_levels kv.2)) by done.
      unfold struct_levels. by destruct (_ && _).
    + eapply Forall_impl; [done|]. intros [k v] Hv. simpl in *. rewrite Hv. by destruct (_ && _).
Qed.

Lemma value_to_json_exact (v : Value) (d : N) :
  prost_value_to_json_at_depth v d =
    if (d + value_levels v <=? MAX_STRUCT_DEPTH) && leaves_ok v
    then Ok (plain_json v) else Err GInvalidStructure.
Proof.
  revert d. induction v as [|raw|bits|s|b|fields IH|values IH] using value_ind; intros d; simpl.
  6:{ rewrite struct_with_exact by (eapply Forall_impl; [done|]; intros kv Hkv; apply Hkv).
      fold (struct_levels fields).
      replace (d + (1 + struct_levels fields)) with (d + 1 + struct_levels fields) by lia.
      destruct (N.ltb_spec MAX_STRUCT_DEPTH d); [|done].
      destruct (N.leb_spec (d + 1 + struct_levels fields) MAX_STRUCT_DEPTH); [lia|done]. }
  6:{ destruct (N.ltb_spec MAX_STRUCT_DEPTH d) as [Hd|Hd].
      - case_match eqn:E; [|done]. apply andb_true_iff in E as [?%N.leb_le _]. lia.
      - rewrite (collect_exact _ plain_json
          (λ v, (d + 1 + value_levels v <=? MAX_STRUCT_DEPTH) && leaves_ok v) GInvalidStructure)
          by (eapply Forall_impl; [done|]; intros v Hv; apply Hv).
        rewrite (forallb_levels value_levels) by done. by destruct (_ && _). }
  all: replace (d + 0) with d by lia; destruct (N.ltb_spec MAX_STRUCT_DEPTH d), (N.leb_spec d MAX_STRUCT_DEPTH); try lia; try done.
  unfold number_from_f64. by destruct (is_finite bits).
Qed.

(** The conversion accepts exactly the data that nests at most 64 levels
    deep, has every leaf set and only finite numbers, whatever its shape, and
    then changes nothing: the JSON is the data itself.  Anything else is the
    one structural error. *)
Theorem conversion_exact (fields : Struct) :
  prost_struct_to_json fields =
    if (struct_levels fields <=? MAX_STRUCT_DEPTH) && forallb (λ kv, leaves_ok kv.2) fields
    then Ok (plain_json (VStruct fields)) else Err GInvalidStructure.
Proof.
  unfold prost_struct_to_json, prost_struct_to_json_at_depth.
  rewrite struct_with_exact by (apply Forall_true; intros kv; apply value_to_json_exact).
  by rewrite N.add_0_l.
Qed.

(** ** The control schema, as data *)

Inductive BudgetKind := Tokens | Cost.
Definition budget_kind_name (k : BudgetKind) : string :=
  match k with Tokens => "tokens" | Cost => "cost" end.

(** The commands the schema describes, with their parameters. *)
Inductive ControlPayload :=
  | CStop | CPause | CResume
  | CInject (content : string)
  | CSetBudget (kind : BudgetKind) (limit : N)
  | CResolveHold (hold_token : string) (approved : bool) (reason : option string).

Definition payload_action (p : ControlPayload) : string :=
  match p with
  | CStop => "stop" | CPause => "pause" | CResume => "resume" | CInject _ => "inject"
  | CSetBudget _ _ => "set_budget" | CResolveHold _ _ _ => "resolve_hold"
  end.

Definition optional_text (s : option string) : Json := from_option JString JNull s.

(** Objects are written in key order. *)
Definition payload_parameters (p : ControlPayload) : list (string * Json) :=
  match p with
  | CStop | CPause | CResume => []
  | CInject content =>
      [("content", JString content); ("content_classification", JString "untrusted")]
  | CSetBudget kind limit =>
      [("budget_kind", JString (budget_kind_name kind)); ("limit", JNumber (Float limit))]
  | CResolveHold token approved reason =>
      [("decision", JString (if approved then "approved" else "denied"));
       ("hold_token", JString token); ("reason", optional_text reason)]
  end.

Definition payload_ok (p : ControlPayload) : Prop :=
  match p with
  | CStop | CPause | CResume => True
  | CInject content => 0 < str_len content ≤ 32 * 1024
  | CSetBudget _ limit => 0 < limit ≤ MAX_CONTROL_BUDGET_LIMIT
  | CResolveHold token _ reason =>
      is_identifier token = true
      ∧ match reason with
        | Some text => 0 < str_len text ≤ MAX_HOLD_REASON_BYTES
        | None => True
        end
  end.

Definition control_json (p : ControlPayload) (reason_code : option string) : Json :=
  JObject [("action", JString (payload_action p)); ("enforcement", JString "cooperative");
           ("parameters", JObject (payload_parameters p));
           ("reason_code", optional_text reason_code)].

(** The keys of every object are strictly increasing, as a [BTreeMap]'s are. *)
Definition str_lt (a b : string) : Prop := String.compare a b = Lt.

Fixpoint json_sorted (j : Json) : Prop :=
  match j with
  | JObject fields =>
      StronglySorted str_lt fields.*1
      ∧ (fix all (l : list (string * Json)) : Prop :=
           match l with [] => True | kv :: l => json_sorted kv.2 ∧ all l end) fields
  | JArray values =>
      (fix all (l : list Json) : Prop :=
         match l with [] => True | j :: l => json_sorted j ∧ all l end) values
  | _ => True
  end.

#[global] Instance str_lt_antisymm : AntiSymm (=) str_lt.
Proof.
  intros a b Hab Hba. unfold str_lt in *. rewrite String.compare_antisym, Hba in Hab. done.
Qed.

(** A sorted list that has all the required keys and no room for others. *)
Lemma keys_exact (keys required : list string) :
  StronglySorted str_lt keys → StronglySorted str_lt required → NoDup required →
  length keys = length required → (∀ k, k ∈ required → k ∈ keys) → keys = required.
Proof.
  intros Hk Hr Hnd Hlen Hin. eapply (StronglySorted_unique str_lt); [done..|].
  symmetry. apply submseteq_length_Permutation; [by apply NoDup_submseteq|lia].
Qed.

Lemma json_get_elem (k : string) (fields : list (string * Json)) :
  json_get k fields ≠ None → k ∈ fields.*1.
Proof.
  induction fields as [|[k' j] fields IH]; simpl; [done|].
  destruct (String.eqb_spec k' k) as [->|]; [by left|]. right. by apply IH.
Qed.

Lemma str_nonempty_len (s : string) : str_is_empty s = false ↔ 0 < str_len s.
Proof. unfold str_len. destruct s; simpl; [done|]. split; [lia|done]. Qed.

Lemma budget_limit_exact (bits : N) :
  budget_limit_ok bits = true ↔ 0 < bits ≤ MAX_CONTROL_BUDGET_LIMIT.
Proof.
  unfold budget_limit_ok, is_finite, MAX_CONTROL_BUDGET_LIMIT.
  rewrite !andb_true_iff, negb_true_iff, N.eqb_neq, !N.ltb_lt, N.leb_le.
  split; [lia|]. intros [? Hle]. split_and!; lia.
Qed.

(** Turns a successful boolean check into facts. *)
Ltac schema_facts :=
  repeat match goal with
  | H : _ && _ = true |- _ => apply andb_true_iff in H as [? ?]
  | H : negb _ = true |- _ => apply negb_true_iff in H
  | H : str_is_empty _ = false |- _ => apply str_nonempty_len in H
  | H : (_ <=? _) = true |- _ => apply N.leb_le in H
  | H : (_ =? _) = true |- _ => apply N.eqb_eq in H
  | H : bool_decide _ = true |- _ => apply bool_decide_eq_true in H
  | H : budget_limit_ok _ = true |- _ => apply budget_limit_exact in H
  end.

Lemma len_nil {A} (l : list A) : len l = 0 → l = [].
Proof. by destruct l. Qed.

(** The parameters of an accepted command, two or three of them, spelled out. *)
Lemma parameters_keys (ps : list (string * Json)) (required : list string) :
  StronglySorted str_lt ps.*1 → StronglySorted str_lt required → NoDup required →
  len ps = len required → (∀ k, k ∈ required → json_get k ps ≠ None) → ps.*1 = required.
Proof.
  intros Hs Hr Hnd Hlen Hin. apply keys_exact; try done.
  - rewrite length_fmap. unfold len in Hlen. lia.
  - intros k Hk. by apply json_get_elem, Hin.
Qed.

Ltac sorted_keys := repeat (constructor || (apply Forall_cons; split)); reflexivity.

Lemma inject_exact (ps : list (string * Json)) :
  StronglySorted str_lt ps.*1 → control_parameters_ok "inject" ps = true →
  ∃ content, payload_ok (CInject content) ∧ ps = payload_parameters (CInject content).
Proof.
  intros Hs H. unfold control_parameters_ok in H. simpl in H. schema_facts.
  destruct (json_get_str "content" ps) as [content|] eqn:Hc; [|done]. schema_facts.
  assert (ps.*1 = ["content"; "content_classification"]) as Hk.
  { apply parameters_keys; [done|sorted_keys|apply (bool_decide_unpack _); done|done|].
    unfold json_get_str in *. intros k Hk%list_elem_of_In.
    destruct Hk as [<-|[<-|[]]]; intros E; rewrite E in *; done. }
  destruct ps as [|[] [|[] []]]; simplify_eq/=. unfold json_get_str in *. simpl in *.
  exists content. split; [simpl; lia|].
  destruct j, j0; simplify_eq/=. done.
Qed.

Lemma set_budget_exact (ps : list (string * Json)) :
  StronglySorted str_lt ps.*1 → control_parameters_ok "set_budget" ps = true →
  ∃ kind limit, payload_ok (CSetBudget kind limit) ∧ ps = payload_parameters (CSetBudget kind limit).
Proof.
  intros Hs H. unfold control_parameters_ok in H. simpl in H. schema_facts.
  destruct (json_get_str "budget_kind" ps) as [kind|] eqn:Hc; [|done].
  destruct (json_get "limit" ps ≫= json_as_f64) as [limit|] eqn:Hl; [|done]. schema_facts.
  assert (ps.*1 = ["budget_kind"; "limit"]) as Hk.
  { apply parameters_keys; [done|sorted_keys|apply (bool_decide_unpack _); done|done|].
    unfold json_get_str in *. intros k Hk%list_elem_of_In.
    destruct Hk as [<-|[<-|[]]]; intros E; rewrite E in *; done. }
  destruct ps as [|[] [|[] []]]; simplify_eq/=. unfold json_get_str in *. simpl in *.
  destruct j, j0 as [| |[]| | |]; simplify_eq/=.
  exists (if String.eqb kind "tokens" then Tokens else Cost), limit. split; [done|].
  repeat (apply elem_of_cons in H1 as [-> |H1]; [done|]). by apply elem_of_nil in H1.
Qed.

Lemma resolve_hold_exact (ps : list (string * Json)) :
  StronglySorted str_lt ps.*1 → control_parameters_ok "resolve_hold" ps = true →
  ∃ token approved reason, payload_ok (CResolveHold token approved reason)
    ∧ ps = payload_parameters (CResolveHold token approved reason).
Proof.
  intros Hs H. unfold control_parameters_ok in H. simpl in H. schema_facts.
  destruct (json_get_str "hold_token" ps) as [token|] eqn:Ht; [|done].
  destruct (json_get_str "decision" ps) as [decision|] eqn:Hd; [|done].
  destruct (json_get "reason" ps) as [reason|] eqn:Hr; [|done]. schema_facts.
  assert (ps.*1 = ["decision"; "hold_token"; "reason"]) as Hk.
  { apply parameters_keys; [done|sorted_keys|apply (bool_decide_unpack _); done|done|].
    unfold json_get_str in *. intros k Hk%list_elem_of_In.
    destruct Hk as [<-|[<-|[<-|[]]]]; intros E; rewrite E in *; done. }
  destruct ps as [|[] [|[] [|[] []]]]; simplify_eq/=. unfold json_get_str in *. simpl in *.
  destruct j, j0; simplify_eq/=.
  exists token, (String.eqb decision "approved"), (json_as_str reason).
  destruct reason; try done; schema_facts; (split; [done|]).
  all: repeat (apply elem_of_cons in H1 as [-> |H1]; [done|]); by apply elem_of_nil in H1.
Qed.

Lemma parameters_exact (action : string) (ps : list (string * Json)) :
  StronglySorted str_lt ps.*1 → action ∈ control_actions →
  control_parameters_ok action ps = true →
  ∃ p, payload_ok p ∧ action = payload_action p ∧ ps = payload_parameters p.
Proof.
  intros Hs Ha H. unfold control_actions in Ha.
  repeat (apply elem_of_cons in Ha as [-> |Ha]; [|]); [..|by apply elem_of_nil in Ha].
  4: apply inject_exact in H as (c & ? & ->); [by exists (CInject c)|done].
  4: apply set_budget_exact in H as (k & l & ? & ->); [by exists (CSetBudget k l)|done].
  4: apply resolve_hold_exact in H as (t & a & r & ? & ->); [by exists (CResolveHold t a r)|done].
  all: unfold control_parameters_ok in H; simpl in H; schema_facts;
    match goal with H : len _ = _ |- _ => apply len_nil in H as -> end.
  - by exists CStop.
  - by exists CPause.
  - by exists CResume.
Qed.

Lemma parameters_complete (p : ControlPayload) :
  payload_ok p → control_parameters_ok (payload_action p) (payload_parameters p) = true.
Proof.
  destruct p as [| | |content|kind limit|token approved reason]; simpl; try done.
  - intros [H1 H2]. unfold control_parameters_ok, json_get_str. simpl.
    apply str_nonempty_len in H1. rewrite H1. by apply N.leb_le in H2 as ->.
  - intros H%budget_limit_exact. unfold control_parameters_ok, json_get_str. simpl. rewrite H.
    by destruct kind.
  - intros [Ht Hr]. unfold control_parameters_ok, json_get_str. simpl. rewrite Ht.
    destruct reason as [text|]; simpl; [|by destruct approved].
    destruct Hr as [H1%str_nonempty_len H2%N.leb_le]. rewrite H1, H2. by destruct approved.
Qed.

Definition reason_code_ok (reason_code : option string) : Prop :=
  match reason_code with Some code => is_identifier code = true | None => True end.

Lemma control_keys (object : list (string * Json)) :
  StronglySorted str_lt object.*1 →
  negb (len object =? len control_required)
    || existsb (λ key, bool_decide (json_get key object = None)) control_required = false →
  object.*1 = ["action"; "enforcement"; "parameters"; "reason_code"].
Proof.
  intros Hs [Hlen%negb_false_iff%N.eqb_eq Hin]%orb_false_iff.
  assert (∀ k, k ∈ control_required → json_get k object ≠ None) as Hall.
  { intros k Hk Hn. apply not_true_iff_false in Hin. apply Hin, existsb_elem.
    exists k. split; [done|]. by apply bool_decide_eq_true. }
  apply parameters_keys; [done|sorted_keys|apply (bool_decide_unpack _); done|done|].
  intros k Hk%list_elem_of_In. apply Hall, list_elem_of_In. simpl in *. tauto.
Qed.

Lemma control_schema_sound (data : Struct) :
  json_sorted (plain_json (VStruct data)) → validate_control_data data = Ok tt →
  ∃ p reason, payload_ok p ∧ reason_code_ok reason
    ∧ prost_struct_to_json data = Ok (control_json p reason).
Proof.
  unfold validate_control_data. rewrite conversion_exact. intros Hs H.
  destruct (_ && _); [|done]. simpl in Hs, H |- *. remember (map _ data) as object eqn:Hdata.
  destruct (negb _ || _) eqn:Hk; [done|]. apply control_keys in Hk; [|apply Hs].
  destruct Hs as [_ Hs]. clear Hdata.
  destruct object as [|[] [|[] [|[] [|[] []]]]]; simplify_eq/=.
  unfold json_get_str in H. simpl in H.
  destruct j as [| | |action| |]; try done. simpl in H.
  destruct (bool_decide (action ∈ control_actions)) eqn:Ha; [|done]. simpl in H.
  destruct (bool_decide (json_as_str j0 = _)) eqn:He; [|done]. simpl in H.
  destruct (negb (json_is_null j2) && _) eqn:Hr; [done|].
  destruct j1 as [| | | | |ps]; try done. simpl in H.
  destruct (control_parameters_ok action ps) eqn:Hp; [|done]. schema_facts.
  destruct Hs as (_ & _ & [Hps _] & _).
  apply parameters_exact in Hp as (p & Hp & -> & ->); [|done..].
  exists p, (json_as_str j2). split; [done|].
  destruct j0; simplify_eq/=. destruct j2; try done; simpl in *.
  by apply negb_false_iff in Hr.
Qed.

Lemma control_schema_complete (data : Struct) (p : ControlPayload) (reason : option string) :
  payload_ok p → reason_code_ok reason → prost_struct_to_json data = Ok (control_json p reason) →
  validate_control_data data = Ok tt.
Proof.
  intros Hp Hr Hj. unfold validate_control_data. rewrite Hj. simpl.
  rewrite bool_decide_eq_true_2 by (destruct p; apply (bool_decide_unpack _); done). simpl.
  rewrite parameters_complete by done. destruct reason as [code|]; simpl in *; [|done].
  by rewrite Hr.
Qed.

(** The control schema is exact.  Data whose objects have distinct keys in
    order (as a decoded map has) is accepted exactly when it is one of the six
    commands with its own parameters and nothing else: no extra field, an
    identifier or nothing as reason code, a bounded non-empty text to inject,
    a positive budget of at most 1e15, a hold decision with its token. *)
Theorem control_schema_exact (data : Struct) :
  json_sorted (plain_json (VStruct data)) →
  validate_control_data data = Ok tt
  ↔ ∃ p reason, payload_ok p ∧ reason_code_ok reason
      ∧ prost_struct_to_json data = Ok (control_json p reason).
Proof.
  intros Hs. split; [by apply control_schema_sound|].
  intros (p & reason & ? & ? & ?). by eapply control_schema_complete.
Qed.

Definition demo_control_data : Struct :=
  [("action", VString "set_budget"); ("enforcement", VString "cooperative");
   ("parameters", VStruct [("budget_kind", VString "tokens"); ("limit", VNumber 0x40F86A0000000000)]);
   ("reason_code", VString "cost.overrun")].

Lemma control_schema_exact_witness :
  ∃ p reason, payload_ok p ∧ reason_code_ok reason
    ∧ prost_struct_to_json demo_control_data = Ok (control_json p reason).
Proof.
  apply (control_schema_exact demo_control_data); [|reflexivity].
  repeat split; repeat constructor.
Defined.
