(* ===== verification/ProxyWire.v ===== *)
(** * Proxy configuration on the wire and at rest

    [apps/control-plane-api/src/proxy/wire.rs] and [wire/proto_wire.rs]: the
    protocol-buffer messages of [mcp_proxy.proto], their conversion to and from
    a [ProxySpec], and the JSON form; [proxy/store/canonical.rs]: the JSON the
    store hashes and keeps.  [serde_json] and the deserialisers derived with it
    are a parameter. *)
From Stdlib Require Import Ascii.
From S2P Require Import Prelude RustStr Digits ProxyText Time Convert OperatorAuth ProxySpec.

Open Scope N_scope.

(** ** Messages

    An enum field is its [i32]; [string] fields default to the empty string. *)

Record PIngress := mkPIngress {
  pi_transport : Z;
  pi_exposure : Z;
  pi_host : string;
  pi_path : string;
  pi_allowed_origins : list string;
  pi_protocol_revision : string;
  pi_authentication_required : bool;
}.

Record PUpstream := mkPUpstream {
  pu_upstream_id : string;
  pu_display_name : string;
  pu_transport : Z;
  pu_endpoint : string;
  pu_credential_ref : string;
  pu_secret_refs : list string;
  pu_server_identity : string;
  pu_tool_catalog_hash : string;
}.

Record PTool := mkPTool {
  pt_upstream_id : string;
  pt_tool_name : string;
  pt_alias : string;
  pt_classification : Z;
}.

Record PCli := mkPCli {
  pc_profile_id : string;
  pc_executable_ref : string;
  pc_executable_digest : string;
  pc_argv_template : list string;
  pc_environment_allowlist : list string;
  pc_secret_refs : list string;
  pc_working_directory : string;
  pc_filesystem_policy : string;
  pc_network_policy : string;
  pc_timeout_ms : N;
  pc_max_output_bytes : N;
  pc_allowed_exit_codes : list Z;
  pc_shell : bool;
  pc_argv_schema : option (list ArgSchemaField);
}.

Record PAuth := mkPAuth {
  pa_binding_id : string;
  pa_inbound_subject : string;
  pa_outbound_credential_ref : string;
  pa_scopes : list string;
}.

Record PGovernance := mkPGovernance {
  pg_policy_id : string;
  pg_approval_mode : string;
  pg_data_classification : string;
  pg_rate_limit : string;
  pg_concurrency_limit : string;
  pg_budget : string;
  pg_retention : string;
}.

Record PDestination := mkPDestination {
  pd_host : string;
  pd_port : N;
  pd_allowance : Z;
}.

Record PRuntime := mkPRuntime {
  pr_image_digest : string;
  pr_cpu_limit : string;
  pr_memory_limit : string;
  pr_network_policy : string;
  pr_filesystem_policy : string;
  pr_rootless : bool;
  pr_egress_destinations : list PDestination;
}.

(** [McpProxySpec]. *)
Record PSpec := mkPSpec {
  pp_ingress : option PIngress;
  pp_upstreams : list PUpstream;
  pp_exposed_tools : list PTool;
  pp_cli_profiles : list PCli;
  pp_auth_bindings : list PAuth;
  pp_governance_binding : option PGovernance;
  pp_runtime_profile : option PRuntime;
}.

(** ** From a message *)

Definition transport_from_wire (value : Z) : result ProxyError ProxyTransport :=
  match value with
  | 1 => Ok StreamableHttp
  | 2 => Ok Stdio
  | _ => Err unknown_transport
  end%Z.

Definition exposure_from_wire (value : Z) : result ProxyError ProxyExposure :=
  match value with
  | 1 => Ok ExposePrivate
  | 2 => Ok ExposeExternal
  | _ => Err (invalid_proxy_spec "Proxy configuration uses an unsupported exposure mode.")
  end%Z.

Definition classification_from_wire (value : Z) : result ProxyError ProxyToolClassification :=
  match value with
  | 1 => Ok ToolRead
  | 2 => Ok ToolBusinessWrite
  | 3 => Ok ToolHighImpact
  | _ => Err (invalid_proxy_spec "Proxy tool exposure uses an unsupported classification.")
  end%Z.

Definition allowance_from_wire (value : Z) : result ProxyError PrivateDestinationAllowance :=
  match value with
  | 1 => Ok Denied
  | 2 => Ok Allowed
  | _ => Err (invalid_proxy_spec
      "Proxy egress destinations require an explicit private-destination allowance.")
  end%Z.

Definition destination_try_from (value : PDestination) : result ProxyError EgressDestination :=
  port ← (if u16_max <? pd_port value
          then Err (invalid_proxy_spec "Proxy egress destinations require a valid port.")
          else Ok (pd_port value));
  host ← bounded_host (pd_host value);
  allowance ← allowance_from_wire (pd_allowance value);
  Ok (Https host port allowance).

Definition ingress_try_from (value : PIngress) : result ProxyError Ingress :=
  transport ← transport_from_wire (pi_transport value);
  exposure ← exposure_from_wire (pi_exposure value);
  host ← bounded_host (pi_host value);
  path ← bounded_required_string (pi_path value);
  origins ← collect bounded_endpoint (pi_allowed_origins value);
  protocol_revision ← bounded_required_string (pi_protocol_revision value);
  Ok (mkIngress transport exposure host path origins protocol_revision
        (pi_authentication_required value)).

Definition upstream_try_from (value : PUpstream) : result ProxyError UpstreamBinding :=
  upstream_id ← bounded_identifier (pu_upstream_id value);
  display_name ← bounded_required_string (pu_display_name value);
  transport ← transport_from_wire (pu_transport value);
  endpoint ← bounded_endpoint (pu_endpoint value);
  credential_ref ← optional_secret_ref (pu_credential_ref value);
  secret_refs ← collect secret_ref_new (pu_secret_refs value);
  server_identity ← bounded_required_string (pu_server_identity value);
  tool_catalog_hash ← optional_hash (pu_tool_catalog_hash value);
  Ok (mkUpstream upstream_id display_name transport endpoint credential_ref secret_refs
        server_identity tool_catalog_hash).

Definition tool_try_from (value : PTool) : result ProxyError ExposedTool :=
  upstream_id ← bounded_identifier (pt_upstream_id value);
  tool_name ← bounded_identifier (pt_tool_name value);
  alias ← bounded_identifier (pt_alias value);
  classification ← classification_from_wire (pt_classification value);
  Ok (mkTool upstream_id tool_name alias classification).

(** [ArgSchema::try_from], and [ArgSchema::from] the fixed arguments. *)
Definition arg_schema_try_from (fields : list ArgSchemaField)
    : result ProxyError (list ArgSchemaField) :=
  collect (λ field, name ← bounded_identifier (af_name field);
                    Ok (mkArgField name (af_required field))) fields.
Definition arg_schema_from (argv : list string) : list ArgSchemaField :=
  (λ name, mkArgField name true) <$> filter (λ value, str_starts_with "-" value = false) argv.

Definition cli_try_from (value : PCli) : result ProxyError CliProfile :=
  fixed_argv ← collect bounded_required_string (pc_argv_template value);
  argv_schema ← match pc_argv_schema value with
                | Some fields => arg_schema_try_from fields
                | None => Ok (arg_schema_from fixed_argv)
                end;
  profile_id ← bounded_identifier (pc_profile_id value);
  executable_ref ← bounded_endpoint (pc_executable_ref value);
  executable_digest ← bounded_required_string (pc_executable_digest value);
  working_directory ← bounded_endpoint (pc_working_directory value);
  environment_allowlist ← collect bounded_identifier (pc_environment_allowlist value);
  secret_refs ← collect secret_ref_new (pc_secret_refs value);
  filesystem_policy ← bounded_required_string (pc_filesystem_policy value);
  network_policy ← bounded_required_string (pc_network_policy value);
  Ok (mkCli profile_id executable_ref executable_digest fixed_argv argv_schema working_directory
        environment_allowlist secret_refs filesystem_policy network_policy (pc_shell value)
        (pc_timeout_ms value) (pc_max_output_bytes value) (pc_allowed_exit_codes value)).

Definition auth_try_from (value : PAuth) : result ProxyError AuthBinding :=
  binding_id ← bounded_identifier (pa_binding_id value);
  inbound_subject ← bounded_required_string (pa_inbound_subject value);
  credential ← optional_secret_ref (pa_outbound_credential_ref value);
  scopes ← collect bounded_identifier (pa_scopes value);
  Ok (mkAuthBinding binding_id inbound_subject credential scopes).

Definition governance_try_from (value : PGovernance) : result ProxyError GovernanceBinding :=
  budget ← ok_or (strip_suffix "/d" (pg_budget value))
    (invalid_proxy_spec "Proxy configuration requires a bounded daily budget limit.");
  policy_id ← bounded_identifier (pg_policy_id value);
  approval_mode ← parse_approval_mode (pg_approval_mode value);
  data_classification ← parse_data_classification (pg_data_classification value);
  rate_limit ← parse_rate_limit (pg_rate_limit value);
  concurrency_limit ← parse_positive_u32 (pg_concurrency_limit value);
  budget_limit ← parse_positive_u32 budget;
  retention_days ← parse_retention_days (pg_retention value);
  Ok (mkGovernance policy_id approval_mode data_classification rate_limit concurrency_limit
        budget_limit retention_days).

Definition runtime_try_from (value : PRuntime) : result ProxyError RuntimeProfile :=
  image_digest ← bounded_required_string (pr_image_digest value);
  cpu_limit ← bounded_required_string (pr_cpu_limit value);
  memory_limit ← bounded_required_string (pr_memory_limit value);
  network_policy ← bounded_required_string (pr_network_policy value);
  filesystem_policy ← bounded_required_string (pr_filesystem_policy value);
  destinations ← collect destination_try_from (pr_egress_destinations value);
  Ok (mkRuntime image_digest cpu_limit memory_limit network_policy filesystem_policy
        (pr_rootless value) destinations).

(** [ProxySpec::try_from]. *)
Definition spec_try_from (value : PSpec) : result ProxyError ProxySpec :=
  ingress ← ok_or (pp_ingress value)
    (invalid_proxy_spec "Proxy configuration requires ingress settings.");
  governance ← ok_or (pp_governance_binding value)
    (invalid_proxy_spec "Proxy configuration requires a governance binding.");
  runtime ← ok_or (pp_runtime_profile value)
    (invalid_proxy_spec "Proxy configuration requires a runtime profile.");
  ingress ← ingress_try_from ingress;
  upstreams ← collect upstream_try_from (pp_upstreams value);
  exposed_tools ← collect tool_try_from (pp_exposed_tools value);
  cli_profiles ← collect cli_try_from (pp_cli_profiles value);
  auth_bindings ← collect auth_try_from (pp_auth_bindings value);
  governance_binding ← governance_try_from governance;
  runtime_profile ← runtime_try_from runtime;
  let spec := mkSpec ingress upstreams exposed_tools cli_profiles auth_bindings governance_binding
    runtime_profile in
  validate_proxy_spec spec ;;
  Ok spec.

(** ** To a message *)

Definition transport_to_wire (value : ProxyTransport) : Z :=
  match value with StreamableHttp => 1 | Stdio => 2 end.
Definition exposure_to_wire (value : ProxyExposure) : Z :=
  match value with ExposePrivate => 1 | ExposeExternal => 2 end.
Definition classification_to_wire (value : ProxyToolClassification) : Z :=
  match value with ToolRead => 1 | ToolBusinessWrite => 2 | ToolHighImpact => 3 end.
Definition approval_mode_to_wire (value : ApprovalMode) : string :=
  match value with
  | ApproveNone => "none"
  | ApproveOperator => "operator"
  | ApproveDualOperator => "dual-operator"
  end.
Definition data_classification_to_wire (value : DataClassification) : string :=
  match value with
  | Public => "public"
  | Internal => "internal"
  | Confidential => "confidential"
  | Restricted => "restricted"
  end.
Definition private_allowance_to_wire (value : PrivateDestinationAllowance) : Z :=
  match value with Denied => 1 | Allowed => 2 end.

Definition upstream_to_proto (u : UpstreamBinding) : PUpstream :=
  mkPUpstream (ub_upstream_id u) (ub_display_name u) (transport_to_wire (ub_transport u))
    (ub_endpoint u) (default EmptyString (ub_credential_ref u)) (ub_secret_refs u)
    (ub_server_identity u) (default EmptyString (ub_tool_catalog_hash u)).

Definition tool_to_proto (t : ExposedTool) : PTool :=
  mkPTool (et_upstream_id t) (et_tool_name t) (et_alias t)
    (classification_to_wire (et_classification t)).

Definition cli_to_proto (p : CliProfile) : PCli :=
  mkPCli (cp_profile_id p) (cp_executable_ref p) (cp_executable_digest p) (cp_fixed_argv p)
    (cp_environment_allowlist p) (cp_secret_refs p) (cp_working_directory p)
    (cp_filesystem_policy p) (cp_network_policy p) (cp_timeout_ms p) (cp_max_output_bytes p)
    (cp_allowed_exit_codes p) (cp_shell p) (Some (cp_argv_schema p)).

Definition auth_to_proto (b : AuthBinding) : PAuth :=
  mkPAuth (ab_binding_id b) (ab_inbound_subject b)
    (default EmptyString (ab_outbound_credential_ref b)) (ab_scopes b).

Definition governance_to_proto (g : GovernanceBinding) : PGovernance :=
  mkPGovernance (gb_policy_id g) (approval_mode_to_wire (gb_approval_mode g))
    (data_classification_to_wire (gb_data_classification g))
    (decimal (gb_rate_limit_per_minute g) +:+ "/m") (decimal (gb_concurrency_limit g))
    (decimal (gb_budget_limit_per_day g) +:+ "/d") (decimal (gb_retention_days g) +:+ "d").

Definition destination_to_proto (d : EgressDestination) : PDestination :=
  mkPDestination (eg_host d) (eg_port d) (private_allowance_to_wire (eg_private_allowance d)).

Definition ingress_to_proto (i : Ingress) : PIngress :=
  mkPIngress (transport_to_wire (in_transport i)) (exposure_to_wire (in_exposure i)) (in_host i)
    (in_path i) (in_allowed_origins i) (in_protocol_revision i) (in_authentication_required i).

Definition runtime_to_proto (r : RuntimeProfile) : PRuntime :=
  mkPRuntime (rp_image_digest r) (rp_cpu_limit r) (rp_memory_limit r) (rp_network_policy r)
    (rp_filesystem_policy r) (rp_rootless r) (destination_to_proto <$> rp_destinations r).

Definition proxy_spec_to_proto (value : ProxySpec) : PSpec :=
  mkPSpec (Some (ingress_to_proto (sp_ingress value))) (upstream_to_proto <$> sp_upstreams value)
    (tool_to_proto <$> sp_exposed_tools value) (cli_to_proto <$> sp_cli_profiles value)
    (auth_to_proto <$> sp_auth_bindings value)
    (Some (governance_to_proto (sp_governance_binding value)))
    (Some (runtime_to_proto (sp_runtime_profile value))).

(** ** JSON

    [serde_json::Value], with the integers, booleans and text the store writes;
    an object is the list of its entries in key order. *)
Inductive SpecJson :=
  | SNull
  | SBool (b : bool)
  | SInt (n : Z)
  | SString (s : string)
  | SArray (values : list SpecJson)
  | SObject (fields : list (string * SpecJson)).

Fixpoint field_insert (key : string) (j : SpecJson) (fields : list (string * SpecJson))
    : list (string * SpecJson) :=
  match fields with
  | [] => [(key, j)]
  | (k, j') :: rest =>
      if String.eqb k key then (key, j) :: rest
      else if String.leb key k then (key, j) :: fields
      else (k, j') :: field_insert key j rest
  end.

(** [json!] of an object. *)
Definition json_object (fields : list (string * SpecJson)) : SpecJson :=
  SObject (foldl (λ m kv, field_insert kv.1 kv.2 m) [] fields).
Definition json_strings (l : list string) : SpecJson := SArray (SString <$> l).
Definition json_nat (n : N) : SpecJson := SInt (Z.of_N n).

(** [spec_json], before it is printed. *)
Definition upstream_json (u : UpstreamBinding) : SpecJson := json_object
  [("upstream_id", SString (ub_upstream_id u)); ("display_name", SString (ub_display_name u));
   ("transport", SInt (transport_to_wire (ub_transport u)));
   ("endpoint_or_command_ref", SString (ub_endpoint u));
   ("credential_ref", SString (default EmptyString (ub_credential_ref u)));
   ("secret_refs", json_strings (ub_secret_refs u));
   ("server_identity", SString (ub_server_identity u));
   ("tool_catalog_hash", SString (default EmptyString (ub_tool_catalog_hash u)))].
Definition tool_json (t : ExposedTool) : SpecJson := json_object
  [("upstream_id", SString (et_upstream_id t)); ("tool_name", SString (et_tool_name t));
   ("alias", SString (et_alias t));
   ("classification", SInt (classification_to_wire (et_classification t)))].
Definition arg_field_json (f : ArgSchemaField) : SpecJson := json_object
  [("name", SString (af_name f)); ("required", SBool (af_required f))].
Definition cli_json (p : CliProfile) : SpecJson := json_object
  [("profile_id", SString (cp_profile_id p)); ("executable_ref", SString (cp_executable_ref p));
   ("executable_digest", SString (cp_executable_digest p));
   ("argv_template", json_strings (cp_fixed_argv p));
   ("argv_schema", json_object [("fields", SArray (arg_field_json <$> cp_argv_schema p))]);
   ("environment_allowlist", json_strings (cp_environment_allowlist p));
   ("secret_refs", json_strings (cp_secret_refs p));
   ("working_directory", SString (cp_working_directory p));
   ("filesystem_policy", SString (cp_filesystem_policy p));
   ("network_policy", SString (cp_network_policy p)); ("shell", SBool (cp_shell p));
   ("timeout_ms", json_nat (cp_timeout_ms p));
   ("max_output_bytes", json_nat (cp_max_output_bytes p));
   ("allowed_exit_codes", SArray (SInt <$> cp_allowed_exit_codes p))].
Definition auth_json (b : AuthBinding) : SpecJson := json_object
  [("binding_id", SString (ab_binding_id b)); ("inbound_subject", SString (ab_inbound_subject b));
   ("outbound_credential_ref", SString (default EmptyString (ab_outbound_credential_ref b)));
   ("scopes", json_strings (ab_scopes b))].
Definition destination_json (d : EgressDestination) : SpecJson := json_object
  [("host", SString (eg_host d)); ("port", json_nat (eg_port d));
   ("private_destination_allowance", SInt (private_allowance_to_wire (eg_private_allowance d)))].
Definition spec_json (spec : ProxySpec) : SpecJson :=
  let i := sp_ingress spec in
  let g := sp_governance_binding spec in
  let r := sp_runtime_profile spec in
  json_object
  [("ingress", json_object
     [("transport", SInt (transport_to_wire (in_transport i)));
      ("exposure", SInt (exposure_to_wire (in_exposure i)));
      ("host", SString (in_host i)); ("path", SString (in_path i));
      ("allowed_origins", json_strings (in_allowed_origins i));
      ("protocol_revision", SString (in_protocol_revision i));
      ("inbound_authentication_required", SBool (in_authentication_required i))]);
   ("upstreams", SArray (upstream_json <$> sp_upstreams spec));
   ("exposed_tools", SArray (tool_json <$> sp_exposed_tools spec));
   ("cli_profiles", SArray (cli_json <$> sp_cli_profiles spec));
   ("auth_bindings", SArray (auth_json <$> sp_auth_bindings spec));
   ("governance_binding", json_object
     [("policy_id", SString (gb_policy_id g));
      ("approval_mode", SString (approval_mode_to_wire (gb_approval_mode g)));
      ("data_classification", SString (data_classification_to_wire (gb_data_classification g)));
      ("rate_limit", SString (decimal (gb_rate_limit_per_minute g) +:+ "/m"));
      ("concurrency_limit", SString (decimal (gb_concurrency_limit g)));
      ("budget", SString (decimal (gb_budget_limit_per_day g) +:+ "/d"));
      ("retention", SString (decimal (gb_retention_days g) +:+ "d"))]);
   ("runtime_profile", json_object
     [("image_digest", SString (rp_image_digest r)); ("cpu_limit", SString (rp_cpu_limit r));
      ("memory_limit", SString (rp_memory_limit r));
      ("network_policy", SString (rp_network_policy r));
      ("filesystem_policy", SString (rp_filesystem_policy r)); ("rootless", SBool (rp_rootless r));
      ("egress_destinations", SArray (destination_json <$> rp_destinations r))])].

(** ** The JSON boundary *)

(** [WireProxySpec]: all parts are present, and the parts are those of the
    message, field for field. *)
Record WireProxySpec := mkWire {
  ws_ingress : PIngress;
  ws_upstreams : list PUpstream;
  ws_exposed_tools : list PTool;
  ws_cli_profiles : list PCli;
  ws_auth_bindings : list PAuth;
  ws_governance_binding : PGovernance;
  ws_runtime_profile : PRuntime;
}.

(** [From<WireProxySpec> for proto::McpProxySpec]. *)
Definition wire_to_proto (value : WireProxySpec) : PSpec :=
  mkPSpec (Some (ws_ingress value)) (ws_upstreams value) (ws_exposed_tools value)
    (ws_cli_profiles value) (ws_auth_bindings value) (Some (ws_governance_binding value))
    (Some (ws_runtime_profile value)).

(** [Value::to_string] and [serde_json::from_str::<WireProxySpec>], whose error
    is looked at only for the words [unknown field]. *)
Inductive WireError := UnknownField | OtherWireError.
Class WireCodec := {
  json_to_string : SpecJson → string;
  wire_from_str : string → result WireError WireProxySpec;
}.

(** [parse_proxy_spec_wire_json]. *)
Definition parse_proxy_spec_wire_json `{WireCodec} (input : string) : result ProxyError ProxySpec :=
  wire ← map_err (λ e, match e with
    | UnknownField => mkProxyError "UNKNOWN_PROXY_WIRE_FIELD"
        "Proxy wire input contains an unknown field."
    | OtherWireError => mkProxyError "INVALID_PROXY_WIRE"
        "Proxy wire input is not a valid structured proxy specification."
    end) (wire_from_str input);
  spec_try_from (wire_to_proto wire).
