(* ===== verification/Domain.v ===== *)
(** * Event envelopes and their admission

    [crates/apex-domain/src/validation]: the canonical hash of an envelope
    ([canonical.rs]), the single admission gate [from_validated_transport]
    ([request.rs]) and the identity of a caller ([caller.rs]).  The wire
    encoding ([prost]), the canonical JSON serialiser ([serde_jcs]) and SHA-256
    are parameters. *)
From S2P Require Import Prelude RustStr Errors Time Secrets SecretGrammar Convert.

Open Scope N_scope.

(** ** Envelopes *)

Record Scope := mkScope {
  workspace_id : string; namespace_id : string; agent_group_ids : list string;
}.
Record Actor := mkActor { actor_type : Z; actor_id : string }.
Record Version := mkVersion { agent_code : string; prompt : string; model : string }.
Record Integrity := mkIntegrity { prev_hash : option string; event_hash : string }.

(** [EventEnvelope] of [event.proto]; an enum field is its [i32]. *)
Record EventEnvelope := mkEnvelope {
  event_id : string;
  timestamp : string;
  event_type : Z;
  agent_id : string;
  run_id : string;
  parent_run_id : option string;
  trace_id : string;
  scope : option Scope;
  actor : option Actor;
  version : option Version;
  data : option Struct;
  integrity : option Integrity;
  schema_version : N;
}.

(** The third-party code admission calls. *)
Class DomainDeps := mkDeps {
  encode_to_vec : EventEnvelope → string;
  encoded_len : EventEnvelope → N;
  jcs_to_vec : Json → option string;
  sha256_hex : string → string;
}.

(** ** The canonical hash *)

(** [event_type_name] and [actor_type_name]. *)
Definition event_type_name (n : Z) : option string :=
  match n with
  | 1 => Some "turn_start" | 2 => Some "llm" | 3 => Some "tool" | 4 => Some "message"
  | 5 => Some "memory" | 6 => Some "decision" | 7 => Some "workflow" | 8 => Some "agent_spawn"
  | 9 => Some "control" | 10 => Some "score" | 11 => Some "turn_end" | 12 => Some "error"
  | _ => None
  end%Z.

Definition actor_type_name (n : Z) : option string :=
  match n with
  | 1 => Some "user" | 2 => Some "agent" | 3 => Some "system" | 4 => Some "schedule"
  | _ => None
  end%Z.

(** [serde_json::Map::insert]: one entry per key, in key order. *)
Fixpoint json_insert (key : string) (j : Json) (fields : list (string * Json))
    : list (string * Json) :=
  match fields with
  | [] => [(key, j)]
  | (k, j') :: rest =>
      if String.eqb k key then (key, j) :: rest
      else if String.leb key k then (key, j) :: fields
      else (k, j') :: json_insert key j rest
  end.

Definition scope_json (s : Scope) : Json :=
  JObject (json_insert "agent_group_ids" (JArray (map JString (agent_group_ids s)))
    (json_insert "namespace_id" (JString (namespace_id s))
      (json_insert "workspace_id" (JString (workspace_id s)) []))).

Definition version_json (v : Version) : Json :=
  JObject (json_insert "model" (JString (model v))
    (json_insert "prompt" (JString (prompt v))
      (json_insert "agent_code" (JString (agent_code v)) []))).

(** The object [canonical_event_hash_with_data_json] hashes. *)
Definition canonical_root (e : EventEnvelope) (data_json : Json) : result GatewayErrorCode Json :=
  scope ← ok_or (scope e) GInvalidStructure;
  actor ← ok_or (actor e) GInvalidStructure;
  version ← ok_or (version e) GInvalidStructure;
  integrity ← ok_or (integrity e) GInvalidIntegrity;
  type_name ← ok_or (event_type_name (event_type e)) GInvalidStructure;
  actor_name ← ok_or (actor_type_name (actor_type actor)) GInvalidStructure;
  Ok (JObject
    (json_insert "schema_version" (JNumber (PosInt (schema_version e)))
    (json_insert "integrity"
       (JObject (json_insert "prev_hash" (optional_text (prev_hash integrity)) []))
    (json_insert "data" data_json
    (json_insert "version" (version_json version)
    (json_insert "actor"
       (JObject (json_insert "id" (JString (actor_id actor))
          (json_insert "type" (JString actor_name) [])))
    (json_insert "scope" (scope_json scope)
    (json_insert "trace_id" (JString (trace_id e))
    (json_insert "parent_run_id" (optional_text (parent_run_id e))
    (json_insert "run_id" (JString (run_id e))
    (json_insert "agent_id" (JString (agent_id e))
    (json_insert "type" (JString type_name)
    (json_insert "timestamp" (JString (timestamp e))
    (json_insert "event_id" (JString (event_id e)) [])))))))))))))).

Definition canonical_event_hash_with_data_json `{DomainDeps} (e : EventEnvelope)
    (data_json : Json) : result GatewayErrorCode string :=
  root ← canonical_root e data_json;
  canonical ← ok_or (jcs_to_vec root) GInvalidIntegrity;
  Ok (sha256_hex canonical).

Definition canonical_event_hash `{DomainDeps} (e : EventEnvelope) : result GatewayErrorCode string :=
  data ← ok_or (data e) GInvalidStructure;
  data_json ← prost_struct_to_json data;
  canonical_event_hash_with_data_json e data_json.

(** ** Admission *)

Definition MAX_ENVELOPE_BYTES : N := 256 * 1024.

(** [IngestRequest]. *)
Record IngestRequest := mkIngest {
  ir_event_id : string;
  ir_workspace_id : string;
  ir_namespace_id : string;
  ir_scope_key : string;
  ir_envelope : string;
}.

Definition option_ok {A} (p : A → bool) (o : option A) : bool :=
  match o with Some a => p a | None => true end.
Definition some_ok {A} (p : A → bool) (o : option A) : bool :=
  match o with Some a => p a | None => false end.

(** The negation of the structural condition of [from_validated_transport_ref]. *)
Definition structure_ok (e : EventEnvelope) (s : Scope) : bool :=
  (schema_version e =? 1)
  && ((1 <=? event_type e) && (event_type e <=? 12))%Z
  && some_ok (λ a, (1 <=? actor_type a) && (actor_type a <=? 4))%Z (actor e)
  && some_ok (λ _, true) (data e)
  && is_identifier (agent_id e) && is_identifier (run_id e) && is_identifier (trace_id e)
  && option_ok is_identifier (parent_run_id e)
  && is_identifier (workspace_id s) && is_identifier (namespace_id s)
  && (len (agent_group_ids s) <=? 128)
  && (N.of_nat (size (list_to_set (agent_group_ids s) : gset string)) =? len (agent_group_ids s))
  && forallb is_identifier (agent_group_ids s)
  && some_ok (λ a, is_identifier (actor_id a)) (actor e)
  && some_ok (λ v, is_identifier (agent_code v) && is_identifier (prompt v)
                   && is_identifier (model v)) (version e).

(** The secret policy that applies to the envelope's kind. *)
Definition data_has_secret (e : EventEnvelope) (data_json : Json) : bool :=
  if (event_type e =? 9)%Z then contains_secret_like_control_value data_json
  else contains_secret_like_value data_json.

(** [from_validated_transport_ref], which [from_validated_transport] calls. *)
Definition from_validated_transport `{DomainDeps} (e : EventEnvelope)
    : result GatewayErrorCode IngestRequest :=
  if MAX_ENVELOPE_BYTES <? encoded_len e then Err GPayloadTooLarge
  else if negb (is_lowercase_uuidv7 (event_id e)) then Err GInvalidEventId
  else if negb (is_rfc3339_utc (timestamp e)) then Err GInvalidTimestamp
  else
    integrity ← ok_or (integrity e) GInvalidIntegrity;
    if negb (is_lowercase_sha256 (event_hash integrity))
       || negb (option_ok is_lowercase_sha256 (prev_hash integrity))
    then Err GInvalidIntegrity
    else
      scope ← ok_or (scope e) GInvalidStructure;
      if negb (structure_ok e scope) then Err GInvalidStructure
      else
        data ← ok_or (data e) GInvalidStructure;
        data_json ← prost_struct_to_json data;
        if data_has_secret e data_json then Err GSecretExposure
        else
          _ ← (if (event_type e =? 9)%Z then validate_control_data data else Ok tt);
          hash ← canonical_event_hash_with_data_json e data_json;
          if negb (String.eqb hash (event_hash integrity)) then Err GInvalidIntegrity
          else
            let serialized := encode_to_vec e in
            if MAX_ENVELOPE_BYTES <? str_len serialized then Err GPayloadTooLarge
            else Ok (mkIngest (event_id e) (workspace_id scope) (namespace_id scope)
                       (workspace_id scope +:+ "/" +:+ namespace_id scope) serialized).

(** ** What admission means *)

(** The documented behaviour of [prost]: [encoded_len] is the length of the
    encoding. *)
Class EncodedLen `{DomainDeps} :=
  encoded_len_spec : ∀ e, encoded_len e = str_len (encode_to_vec e).

Record well_identified (e : EventEnvelope) (s : Scope) (i : Integrity) (a : Actor) (v : Version)
    : Prop := {
  wi_event : is_lowercase_uuidv7 (event_id e) = true;
  wi_time : is_rfc3339_utc (timestamp e) = true;
  wi_hash : is_lowercase_sha256 (event_hash i) = true;
  wi_prev : option_ok is_lowercase_sha256 (prev_hash i) = true;
  wi_type : (1 ≤ event_type e ≤ 12)%Z;
  wi_actor : (1 ≤ actor_type a ≤ 4)%Z;
  wi_ids : Forall (λ x, is_identifier x = true)
    [agent_id e; run_id e; trace_id e; workspace_id s; namespace_id s; actor_id a;
     agent_code v; prompt v; model v];
  wi_parent : option_ok is_identifier (parent_run_id e) = true;
  wi_groups : NoDup (agent_group_ids s) ∧ len (agent_group_ids s) ≤ 128
    ∧ Forall (λ x, is_identifier x = true) (agent_group_ids s);
}.

(** What the gate demands, in the terms of the other components. *)
Record admissible `{DomainDeps} (e : EventEnvelope) (s : Scope) (d : Struct) : Prop := {
  ad_size : str_len (encode_to_vec e) ≤ MAX_ENVELOPE_BYTES;
  ad_schema : schema_version e = 1;
  ad_fields : ∃ i a v, integrity e = Some i ∧ actor e = Some a ∧ version e = Some v
    ∧ well_identified e s i a v ∧ canonical_event_hash e = Ok (event_hash i);
  ad_depth : struct_levels d ≤ MAX_STRUCT_DEPTH;
  ad_leaves : forallb (λ kv, leaves_ok kv.2) d = true;
  ad_secret : ¬ ∃ w h, within (plain_json (VStruct d)) false w h
                 ∧ secret_node (bool_decide (event_type e = 9%Z)) h w;
  ad_control : event_type e = 9%Z → ∃ p reason, payload_ok p ∧ reason_code_ok reason
                 ∧ plain_json (VStruct d) = control_json p reason;
}.

Definition request_of `{DomainDeps} (e : EventEnvelope) (s : Scope) : IngestRequest :=
  mkIngest (event_id e) (workspace_id s) (namespace_id s)
    (workspace_id s +:+ "/" +:+ namespace_id s) (encode_to_vec e).

Lemma list_size_nodup (l : list string) :
  N.of_nat (size (list_to_set l : gset string)) = len l ↔ NoDup l.
Proof.
  unfold len. rewrite Nat2N.inj_iff. split; [|intros; by apply size_list_to_set].
  assert (∀ l : list string, (size (list_to_set l : gset string) ≤ length l)%nat) as Hle.
  { intros l'. induction l' as [|a l' IH]; [by vm_compute; constructor|simpl].
    destruct (decide (a ∈ (list_to_set l' : gset string))) as [Hin|Hin].
    - rewrite subseteq_union_1_L by set_solver. lia.
    - rewrite size_union, size_singleton by set_solver. lia. }
  induction l as [|a l IH]; simpl; intros Hs; [constructor|].
  destruct (decide (a ∈ (list_to_set l : gset string))) as [Hin|Hin].
  - rewrite subseteq_union_1_L in Hs by set_solver. specialize (Hle l). lia.
  - rewrite size_union, size_singleton in Hs by set_solver.
    constructor; [by rewrite elem_of_list_to_set in Hin|]. apply IH. lia.
Qed.

Lemma forallb_identifiers (l : list string) :
  forallb is_identifier l = true ↔ Forall (λ x, is_identifier x = true) l.
Proof. rewrite forallb_forall, Forall_forall. by setoid_rewrite list_elem_of_In. Qed.

Lemma structure_exact (e : EventEnvelope) (s : Scope) (i : Integrity) :
  is_lowercase_uuidv7 (event_id e) = true → is_rfc3339_utc (timestamp e) = true →
  is_lowercase_sha256 (event_hash i) = true → option_ok is_lowercase_sha256 (prev_hash i) = true →
  structure_ok e s = true ↔
  schema_version e = 1 ∧ ∃ a v d, actor e = Some a ∧ version e = Some v ∧ data e = Some d
    ∧ well_identified e s i a v.
Proof.
  intros Hid Ht Hh Hp. unfold structure_ok.
  destruct (actor e) as [a|], (version e) as [v|], (data e) as [d|]; simpl;
    try (split; [intros H; breflect; done | by intros (_ & ? & ? & ? & ? & ? & ? & _)]).
  rewrite !andb_true_iff, !N.eqb_eq, !Z.leb_le, N.leb_le, list_size_nodup, forallb_identifiers.
  split.
  - intros H. repeat match goal with H : _ ∧ _ |- _ => destruct H end.
    split; [done|]. exists a, v, d. repeat (split; [done|]). split; try done.
    by repeat constructor.
  - intros (? & a' & v' & d' & [= <-] & [= <-] & [= <-] & [? ? ? ? [? ?] [? ?] Hids ? (? & ? & ?)]).
    rewrite !Forall_cons in Hids. tauto.
Qed.

Lemma secret_exact (e : EventEnvelope) (j : Json) :
  data_has_secret e j = true
  ↔ ∃ w h, within j false w h ∧ secret_node (bool_decide (event_type e = 9%Z)) h w.
Proof.
  unfold data_has_secret, contains_secret_like_control_value, contains_secret_like_value.
  destruct (Z.eqb_spec (event_type e) 9) as [He|He].
  - rewrite bool_decide_eq_true_2 by done. split; [apply contains_secret_found|].
    intros (w & h & ? & ?). by eapply contains_secret_within.
  - rewrite bool_decide_eq_false_2 by done. split; [apply contains_secret_found|].
    intros (w & h & ? & ?). by eapply contains_secret_within.
Qed.

(** An admitted request names the envelope's event and scope and carries its
    encoding. *)
Lemma admitted_request `{DomainDeps} (e : EventEnvelope) (r : IngestRequest) :
  from_validated_transport e = Ok r → ∃ s, scope e = Some s ∧ r = request_of e s.
Proof.
  unfold from_validated_transport, request_of. intros Hr.
  destruct (_ <? encoded_len e); [done|]. do 2 (destruct (negb _) in Hr; [done|]).
  destruct (integrity e) as [i|]; [|done]. cbn [ok_or mbind result_bind] in Hr.
  destruct (_ || _) in Hr; [done|]. destruct (scope e) as [s|]; [|done].
  cbn [ok_or mbind result_bind] in Hr. destruct (negb _) in Hr; [done|].
  destruct (data e) as [d|]; [|done]. cbn [ok_or mbind result_bind] in Hr.
  destruct (prost_struct_to_json d) as [j|]; [|done]. cbn [mbind result_bind] in Hr.
  destruct (data_has_secret _ _); [done|].
  destruct (if (event_type e =? 9)%Z then _ else _) as [[]|] in Hr; [|done].
  cbn [mbind result_bind] in Hr.
  destruct (canonical_event_hash_with_data_json e j) as [h|]; [|done].
  cbn [mbind result_bind] in Hr. destruct (negb _) in Hr; [done|]. cbv zeta in Hr.
  destruct (_ <? _) in Hr; [done|]. exists s. split; [done|]. by apply (inj Ok) in Hr.
Qed.

Section admission.
Context `{DomainDeps, !EncodedLen}.

Lemma admission_sound (e : EventEnvelope) (r : IngestRequest) :
  (∀ d, data e = Some d → json_sorted (plain_json (VStruct d))) →
  from_validated_transport e = Ok r →
  ∃ s d, scope e = Some s ∧ data e = Some d ∧ admissible e s d ∧ r = request_of e s.
Proof.
  intros Hsorted Hr. unfold from_validated_transport in Hr.
  destruct (N.ltb_spec MAX_ENVELOPE_BYTES (encoded_len e)); [done|].
  destruct (is_lowercase_uuidv7 (event_id e)) eqn:Hid; [simpl in Hr|done].
  destruct (is_rfc3339_utc (timestamp e)) eqn:Ht; [simpl in Hr|done].
  destruct (integrity e) as [i|] eqn:Hi; [simpl in Hr|done].
  destruct (is_lowercase_sha256 (event_hash i)) eqn:Hh; [simpl in Hr|done].
  destruct (option_ok is_lowercase_sha256 (prev_hash i)) eqn:Hp; [simpl in Hr|done].
  destruct (scope e) as [s|] eqn:Hs; [simpl in Hr|done].
  destruct (structure_ok e s) eqn:Hst; [simpl in Hr|done].
  apply (structure_exact e s i) in Hst as (Hv & a & v & d & Ha & Hver & Hd & Hwi); [|done..].
  rewrite Hd in Hr. simpl in Hr. rewrite conversion_exact in Hr.
  destruct (_ && _) eqn:Hc in Hr; [|done]. pose proof Hc as Hconv.
  apply andb_true_iff in Hc as [Hc1%N.leb_le Hc2]. cbn [mbind result_bind] in Hr.
  destruct (data_has_secret e _) eqn:Hsec; [done|].
  apply not_true_iff_false in Hsec. rewrite secret_exact in Hsec.
  destruct (if (event_type e =? 9)%Z then _ else _) as [[]|] eqn:Hctl in Hr; [|done].
  cbn [mbind result_bind] in Hr.
  destruct (canonical_event_hash_with_data_json e _) as [hash|] eqn:Hhash; [|done].
  cbn [mbind result_bind] in Hr.
  destruct (String.eqb_spec hash (event_hash i)) as [->|]; [simpl in Hr|done].
  destruct (N.ltb_spec MAX_ENVELOPE_BYTES (str_len (encode_to_vec e))); [done|].
  exists s, d. split_and!; [done..| |by injection Hr as <-]. split; try done.
  - exists i, a, v. repeat (split; [done|]). unfold canonical_event_hash.
    rewrite Hd. simpl. rewrite conversion_exact, Hconv. done.
  - intros Hty. rewrite Hty in Hctl. simpl in Hctl.
    apply control_schema_sound in Hctl as (p & reason & ? & ? & Hj); [|by apply Hsorted].
    exists p, reason. split_and!; [done..|]. rewrite conversion_exact, Hconv in Hj.
    by apply (inj Ok) in Hj.
Qed.

Lemma admission_complete (e : EventEnvelope) (s : Scope) (d : Struct) :
  scope e = Some s → data e = Some d → admissible e s d →
  from_validated_transport e = Ok (request_of e s).
Proof.
  intros Hs Hd [Hsize Hv (i & a & v & Hi & Ha & Hver & Hwi & Hhash) Hdepth Hleaves Hsec Hctl].
  unfold canonical_event_hash in Hhash. rewrite Hd in Hhash. simpl in Hhash.
  apply N.leb_le in Hdepth.
  assert (prost_struct_to_json d = Ok (plain_json (VStruct d))) as Hconv
    by (by rewrite conversion_exact, Hdepth, Hleaves).
  rewrite Hconv in Hhash. cbn [mbind result_bind] in Hhash.
  rewrite <-secret_exact in Hsec. apply not_true_iff_false in Hsec.
  unfold from_validated_transport. pose proof Hwi as [Hid Ht Hh Hp _ _ _ _ _].
  rewrite encoded_len_spec, (proj2 (N.ltb_ge _ _) Hsize), Hid, Ht, Hi. simpl.
  rewrite Hh, Hp, Hs. simpl.
  assert (structure_ok e s = true) as -> by (apply (structure_exact e s i); eauto 10).
  simpl. rewrite Hd. simpl. rewrite Hconv. cbn [mbind result_bind]. rewrite Hsec.
  assert ((if (event_type e =? 9)%Z then validate_control_data d else Ok tt) = Ok tt) as ->.
  { destruct (Z.eqb_spec (event_type e) 9) as [Hty|]; [|done].
    destruct (Hctl Hty) as (p & reason & ? & ? & Hj).
    apply (control_schema_complete d p reason); [done..|]. by rewrite Hconv, Hj. }
  cbn [mbind result_bind]. rewrite Hhash. cbn [mbind result_bind].
  by rewrite String.eqb_refl.
Qed.

End admission.
