(* ===== verification/Codecs.v ===== *)
(** * Concrete encoders

    The wire encoding, the canonical JSON serialiser and the digest are
    third-party code, parameters of the model.  This file shows that what the
    model asks of them can be met: it writes JSON values, protocol-buffer
    values and envelopes as the bits of their code. *)
From stdpp Require Import countable.
From S2P Require Import Prelude RustStr Journal Secrets Convert Domain.

Open Scope N_scope.

Abbreviation code_tree := (gen_tree (string + N)).
Abbreviation text s := (GenLeaf (T:=string + N) (inl s)).
Abbreviation number n := (GenLeaf (T:=string + N) (inr n)).

Definition tree_text (t : code_tree) : string :=
  match t with GenLeaf (inl s) => s | _ => EmptyString end.
Definition tree_number (t : code_tree) : N :=
  match t with GenLeaf (inr n) => n | _ => 0 end.

(** ** JSON *)

Fixpoint json_tree (j : Json) : code_tree :=
  match j with
  | JNull => GenNode 0 []
  | JBool false => GenNode 1 []
  | JBool true => GenNode 2 []
  | JNumber (PosInt n) => GenNode 3 [number n]
  | JNumber (Float n) => GenNode 4 [number n]
  | JString s => text s
  | JArray values => GenNode 5 (map json_tree values)
  | JObject fields => GenNode 6 (map (λ kv, GenNode 7 [text kv.1; json_tree kv.2]) fields)
  end.

Fixpoint tree_json (t : code_tree) : Json :=
  match t with
  | GenLeaf (inl s) => JString s
  | GenNode 1 _ => JBool false
  | GenNode 2 _ => JBool true
  | GenNode 3 [t] => JNumber (PosInt (tree_number t))
  | GenNode 4 [t] => JNumber (Float (tree_number t))
  | GenNode 5 ts => JArray (map tree_json ts)
  | GenNode 6 ts =>
      JObject (map (λ t, match t with
                         | GenNode _ [k; t] => (tree_text k, tree_json t)
                         | _ => (EmptyString, JNull)
                         end) ts)
  | _ => JNull
  end.

Lemma map_map_id {A B} (f : A → B) (g : B → A) (l : list A) :
  Forall (λ a, g (f a) = a) l → map g (map f l) = l.
Proof. induction 1 as [|a l Ha _ IH]; [done|]. simpl. by rewrite Ha, IH. Qed.

Lemma tree_json_tree (j : Json) : tree_json (json_tree j) = j.
Proof.
  induction j as [|b|n|s|values IH|fields IH] using json_ind; simpl; try done.
  - by destruct b.
  - by destruct n.
  - by rewrite (map_map_id json_tree tree_json).
  - f_equal. apply (map_map_id (λ kv, GenNode 7 [text kv.1; json_tree kv.2])
      (λ t, match t with
            | GenNode _ [k; t] => (tree_text k, tree_json t)
            | _ => (EmptyString, JNull)
            end)).
    eapply Forall_impl; [done|]. intros [k j] Hj. simpl in *. by rewrite Hj.
Qed.

(** ** Protocol-buffer values *)

Fixpoint value_tree (v : Value) : code_tree :=
  match v with
  | VNone => GenNode 0 []
  | VNull raw => GenNode 1 [number raw]
  | VNumber bits => GenNode 2 [number bits]
  | VString s => text s
  | VBool false => GenNode 3 []
  | VBool true => GenNode 4 []
  | VStruct fields => GenNode 5 (map (λ kv, GenNode 7 [text kv.1; value_tree kv.2]) fields)
  | VList values => GenNode 6 (map value_tree values)
  end.

Fixpoint tree_value (t : code_tree) : Value :=
  match t with
  | GenLeaf (inl s) => VString s
  | GenNode 1 [t] => VNull (tree_number t)
  | GenNode 2 [t] => VNumber (tree_number t)
  | GenNode 3 _ => VBool false
  | GenNode 4 _ => VBool true
  | GenNode 5 ts =>
      VStruct (map (λ t, match t with
                         | GenNode _ [k; t] => (tree_text k, tree_value t)
                         | _ => (EmptyString, VNone)
                         end) ts)
  | GenNode 6 ts => VList (map tree_value ts)
  | _ => VNone
  end.

Lemma tree_value_tree (v : Value) : tree_value (value_tree v) = v.
Proof.
  induction v as [|raw|bits|s|b|fields IH|values IH] using value_ind; simpl; try done.
  - by destruct b.
  - f_equal. apply (map_map_id (λ kv, GenNode 7 [text kv.1; value_tree kv.2])
      (λ t, match t with
            | GenNode _ [k; t] => (tree_text k, tree_value t)
            | _ => (EmptyString, VNone)
            end)).
    eapply Forall_impl; [done|]. intros [k v] Hv. simpl in *. by rewrite Hv.
  - by rewrite (map_map_id value_tree tree_value).
Qed.

Definition struct_fields (v : Value) : Struct :=
  match v with VStruct fields => fields | _ => [] end.

(** ** Envelopes *)

Definition option_tree {A} (f : A → code_tree) (o : option A) : code_tree :=
  match o with Some a => GenNode 1 [f a] | None => GenNode 0 [] end.
Definition tree_option {A} (f : code_tree → A) (t : code_tree) : option A :=
  match t with GenNode _ [t] => Some (f t) | _ => None end.

Lemma tree_option_tree {A} (f : A → code_tree) (g : code_tree → A) (o : option A) :
  (∀ a, g (f a) = a) → tree_option g (option_tree f o) = o.
Proof. intros Hgf. destruct o as [a|]; simpl; by rewrite ?Hgf. Qed.

Definition signed (z : Z) : code_tree :=
  if (z <? 0)%Z then GenNode 1 [number (Z.to_N (- z))] else number (Z.to_N z).
Definition tree_signed (t : code_tree) : Z :=
  match t with
  | GenNode _ [t] => (- Z.of_N (tree_number t))%Z
  | t => Z.of_N (tree_number t)
  end.

Lemma tree_signed_signed (z : Z) : tree_signed (signed z) = z.
Proof. unfold signed. destruct (Z.ltb_spec z 0); simpl; lia. Qed.

Definition tree_items (t : code_tree) : list code_tree :=
  match t with GenNode _ ts => ts | GenLeaf _ => [] end.
Definition item (t : code_tree) (i : nat) : code_tree := default (GenNode 0 []) (tree_items t !! i).

Definition scope_tree (s : Scope) : code_tree :=
  GenNode 0 [text (workspace_id s); text (namespace_id s);
             GenNode 0 (map (λ s, text s) (agent_group_ids s))].
Definition tree_scope (t : code_tree) : Scope :=
  mkScope (tree_text (item t 0)) (tree_text (item t 1)) (map tree_text (tree_items (item t 2))).

Definition actor_tree (a : Actor) : code_tree := GenNode 0 [signed (actor_type a); text (actor_id a)].
Definition tree_actor (t : code_tree) : Actor := mkActor (tree_signed (item t 0)) (tree_text (item t 1)).

Definition version_tree (v : Version) : code_tree :=
  GenNode 0 [text (agent_code v); text (prompt v); text (model v)].
Definition tree_version (t : code_tree) : Version :=
  mkVersion (tree_text (item t 0)) (tree_text (item t 1)) (tree_text (item t 2)).

Definition integrity_tree (i : Integrity) : code_tree :=
  GenNode 0 [option_tree (λ s, text s) (prev_hash i); text (event_hash i)].
Definition tree_integrity (t : code_tree) : Integrity :=
  mkIntegrity (tree_option tree_text (item t 0)) (tree_text (item t 1)).

Definition envelope_tree (e : EventEnvelope) : code_tree :=
  GenNode 0 [text (event_id e); text (timestamp e); signed (event_type e); text (agent_id e);
    text (run_id e); option_tree (λ s, text s) (parent_run_id e); text (trace_id e);
    option_tree scope_tree (scope e); option_tree actor_tree (actor e);
    option_tree version_tree (version e); option_tree (λ d, value_tree (VStruct d)) (data e);
    option_tree integrity_tree (integrity e); number (schema_version e)].
Definition tree_envelope (t : code_tree) : EventEnvelope :=
  mkEnvelope (tree_text (item t 0)) (tree_text (item t 1)) (tree_signed (item t 2))
    (tree_text (item t 3)) (tree_text (item t 4)) (tree_option tree_text (item t 5))
    (tree_text (item t 6)) (tree_option tree_scope (item t 7)) (tree_option tree_actor (item t 8))
    (tree_option tree_version (item t 9))
    (tree_option (λ t, struct_fields (tree_value t)) (item t 10))
    (tree_option tree_integrity (item t 11)) (tree_number (item t 12)).

Lemma tree_envelope_tree (e : EventEnvelope) : tree_envelope (envelope_tree e) = e.
Proof.
  destruct e as [eid ts ty ag ru pa tr sc ac ve da inte sv].
  unfold tree_envelope, envelope_tree, item. cbn [tree_items lookup list_lookup default from_option id
    event_id timestamp event_type agent_id run_id parent_run_id trace_id scope actor version data
    integrity schema_version tree_text tree_number].
  rewrite tree_signed_signed, !tree_option_tree; try done.
  - intros [p h]. unfold tree_integrity, integrity_tree, item. simpl. by rewrite tree_option_tree.
  - intros d. by rewrite tree_value_tree.
  - by intros [].
  - intros [ty' id']. unfold tree_actor, actor_tree, item. simpl. by rewrite tree_signed_signed.
  - intros [w n g]. unfold tree_scope, scope_tree, item. simpl. f_equal.
    apply (map_map_id (λ s, text s) tree_text). by apply Forall_true.
Qed.

(** ** Bytes *)

Definition tree_bytes (t : code_tree) : string := pos_bits (encode t).
Definition bytes_tree (s : string) : option code_tree := bits_pos s ≫= decode.

Lemma bytes_tree_bytes (t : code_tree) : bytes_tree (tree_bytes t) = Some t.
Proof. unfold bytes_tree, tree_bytes. rewrite bits_pos_bits. simpl. apply decode_encode. Qed.

#[global] Instance tree_bytes_inj : Inj (=) (=) tree_bytes.
Proof. intros t t' H. apply (f_equal bytes_tree) in H. rewrite !bytes_tree_bytes in H. congruence. Qed.

Definition struct_bytes (d : Struct) : string :=
  match d with [] => EmptyString | _ => tree_bytes (value_tree (VStruct d)) end.
Definition bytes_struct (s : string) : option Struct :=
  if str_is_empty s then Some [] else (λ t, struct_fields (tree_value t)) <$> bytes_tree s.

Lemma tree_bytes_nonempty (t : code_tree) : str_is_empty (tree_bytes t) = false.
Proof. unfold tree_bytes. by destruct (encode t). Qed.

Lemma bytes_struct_bytes (d : Struct) : bytes_struct (struct_bytes d) = Some d.
Proof.
  destruct d as [|kv d]; [done|]. unfold bytes_struct, struct_bytes.
  rewrite tree_bytes_nonempty, bytes_tree_bytes. cbn [fmap option_fmap option_map].
  by rewrite tree_value_tree.
Qed.
