(* ===== verification/ProxyWireLaws.v ===== *)
(** * Proxy configuration survives its encodings

    A specification that passed validation is read back unchanged from its
    message and from the JSON the store keeps, and the JSON determines the
    specification, so the configuration hash binds it. *)
From Stdlib Require Import Ascii.
From stdpp Require Import countable.
From S2P Require Import Prelude RustStr Digits ProxyText Time Convert Codecs OperatorAuth ProxySpec ProxySpecLaws ProxyWire.

Open Scope N_scope.

(** ** Fields *)

Lemma collect_ok {E A B} (f : A → result E B) (g : A → B) (l : list A) :
  Forall (λ a, f a = Ok (g a)) l → collect f l = Ok (g <$> l).
Proof. induction 1 as [|a l Ha HF IH]; [done|]. cbn [collect]. by rewrite Ha, IH. Qed.

Lemma collect_id {E A} (f : A → result E A) (P : A → Prop) (l : list A) :
  (∀ a, P a → f a = Ok a) → Forall P l → collect f l = Ok l.
Proof.
  intros Hf HF. rewrite (collect_ok f id); [by rewrite list_fmap_id|].
  eapply Forall_impl; [done|]. intros a Ha. by apply Hf.
Qed.

Lemma collect_map {E A B} (f : B → result E A) (g : A → B) (P : A → Prop) (l : list A) :
  (∀ a, P a → f (g a) = Ok a) → Forall P l → collect f (g <$> l) = Ok l.
Proof.
  intros Hf HF. induction HF as [|a l Ha HF IH]; [done|]. rewrite fmap_cons. cbn [collect].
  by rewrite Hf, IH.
Qed.

Lemma bounded_identifier_ok s : identifier_ok s → bounded_identifier s = Ok s.
Proof. apply identifier_field_ok. Qed.
Lemma bounded_required_string_ok s : text_ok 512 s → bounded_required_string s = Ok s.
Proof. apply text_field_ok. Qed.
Lemma bounded_endpoint_ok s : text_ok 512 s → bounded_endpoint s = Ok s.
Proof. apply text_field_ok. Qed.
Lemma bounded_host_ok s : host_ok s → bounded_host s = Ok s.
Proof. intros H%validate_host_ok. unfold bounded_host. by rewrite H. Qed.

Lemma secret_ref_new_ok s : secret_ok s → secret_ref_new s = Ok s.
Proof.
  intros ([name ->] & Hlen & Hc). unfold secret_ref_new. apply if_err_then. split; [|done].
  rewrite !orb_false_iff, negb_false_iff, N.ltb_ge, str_starts_with_spec.
  split_and!; [by destruct name|done|done|by exists name].
Qed.

Lemma optional_secret_ref_ok s : secret_ok s → optional_secret_ref s = Ok (Some s).
Proof.
  intros Hs. unfold optional_secret_ref. rewrite secret_ref_new_ok by done.
  destruct Hs as ([name ->] & _). by destruct name.
Qed.

(** An absent hash is written as the empty string, which no hash is. *)
Lemma optional_hash_ok (o : option string) :
  (∀ h, o = Some h → hex64_ok h) → optional_hash (default EmptyString o) = Ok o.
Proof.
  intros Ho. destruct o as [h|]; [|done]. specialize (Ho h eq_refl).
  change (default EmptyString (Some h)) with h. unfold optional_hash.
  destruct (str_is_empty h) eqn:E; [destruct h; [by destruct Ho|done]|].
  apply (validate_hex_hash_ok _ "Proxy configuration requires lowercase SHA-256 hashes when provided.")
    in Ho. by rewrite Ho.
Qed.

Lemma transport_round_trip t : transport_from_wire (transport_to_wire t) = Ok t.
Proof. by destruct t. Qed.
Lemma exposure_round_trip t : exposure_from_wire (exposure_to_wire t) = Ok t.
Proof. by destruct t. Qed.
Lemma classification_round_trip t : classification_from_wire (classification_to_wire t) = Ok t.
Proof. by destruct t. Qed.
Lemma allowance_round_trip t : allowance_from_wire (private_allowance_to_wire t) = Ok t.
Proof. by destruct t. Qed.
Lemma approval_mode_round_trip t : parse_approval_mode (approval_mode_to_wire t) = Ok t.
Proof. by destruct t. Qed.
Lemma data_classification_round_trip t :
  parse_data_classification (data_classification_to_wire t) = Ok t.
Proof. by destruct t. Qed.

Lemma limit_fits (n : N) : n ≤ 1000000 → n ≤ u32_max.
Proof. intros Hn. etrans; [exact Hn|]. done. Qed.

Lemma parse_positive_decimal (n : N) : 0 < n ≤ 1000000 → parse_positive_u32 (decimal n) = Ok n.
Proof.
  intros Hn. unfold parse_positive_u32. rewrite parse_uint_decimal by (apply limit_fits; lia).
  cbn [ok_or mbind result_bind]. apply if_err_then. split; [|done]. by apply range_ok.
Qed.

Lemma parse_rate_limit_decimal (n : N) :
  0 < n ≤ 1000000 → parse_rate_limit (decimal n +:+ "/m") = Ok n.
Proof.
  intros Hn. unfold parse_rate_limit. rewrite strip_suffix_app. by apply parse_positive_decimal.
Qed.

Lemma parse_retention_decimal (n : N) :
  0 < n ≤ 3650 → parse_retention_days (decimal n +:+ "d") = Ok n.
Proof.
  intros Hn. unfold parse_retention_days. rewrite strip_suffix_app. cbn [ok_or mbind result_bind].
  rewrite parse_uint_decimal by (apply limit_fits; lia). cbn [ok_or mbind result_bind].
  apply if_err_then. split; [|done]. by apply range_ok.
Qed.

(** A digest is a bounded string. *)
Lemma lower_hex_plain (c : ascii) :
  is_lower_hex c = true → is_control c = false ∧ (N_of_ascii c =? 194) = false.
Proof. destruct c as [[] [] [] [] [] [] [] []]; vm_compute; by intros. Qed.

Lemma lower_hex_no_control (s : string) : str_all is_lower_hex s = true → str_has_control s = false.
Proof.
  induction s as [|c s IH]; [done|]. cbn [str_all str_has_control].
  intros [Hc Hs]%andb_true_iff. apply lower_hex_plain in Hc as [-> ->]. by rewrite IH.
Qed.

Lemma digest_text (s : string) : digest_ok s → text_ok 512 s.
Proof.
  intros (hex & -> & Hlen & Hhex). unfold text_ok.
  rewrite str_len_app, Hlen. change (str_len "sha256:") with 7. split; [lia|].
  change ("sha256:" +:+ hex) with
    (String "s" (String "h" (String "a" (String "2" (String "5" (String "6" (String ":" hex))))))).
  by apply lower_hex_no_control in Hhex.
Qed.

(** ** Parts *)

Lemma ingress_round_trip i : ingress_ok i → ingress_try_from (ingress_to_proto i) = Ok i.
Proof.
  intros [Hh Hp [_ Ho] Hr]. unfold ingress_try_from, ingress_to_proto. cbn.
  rewrite transport_round_trip, exposure_round_trip. cbn. rewrite bounded_host_ok by done. cbn.
  rewrite bounded_required_string_ok by done. cbn.
  rewrite (collect_id _ _ _ bounded_endpoint_ok Ho). cbn.
  rewrite bounded_required_string_ok by done. by destruct i.
Qed.

Lemma upstream_round_trip u : upstream_ok u → upstream_try_from (upstream_to_proto u) = Ok u.
Proof.
  intros [Hi Hn He (c & Hc & Hs) [_ Hss] Hv Hh]. unfold upstream_try_from, upstream_to_proto. cbn.
  rewrite bounded_identifier_ok by done. cbn. rewrite bounded_required_string_ok by done. cbn.
  rewrite transport_round_trip. cbn. rewrite bounded_endpoint_ok by done. cbn.
  rewrite Hc. cbn. rewrite optional_secret_ref_ok by done. cbn.
  rewrite (collect_id _ _ _ secret_ref_new_ok Hss). cbn.
  rewrite bounded_required_string_ok by done. cbn. rewrite optional_hash_ok by done. cbn.
  rewrite <-Hc. by destruct u.
Qed.

Lemma tool_round_trip ids t : tool_ok ids t → tool_try_from (tool_to_proto t) = Ok t.
Proof.
  intros [(Hu & Hn & Ha) _ _]. unfold tool_try_from, tool_to_proto. cbn.
  rewrite !bounded_identifier_ok by done. cbn. rewrite classification_round_trip. by destruct t.
Qed.

Lemma arg_field_round_trip f :
  identifier_ok (af_name f) →
  (name ← bounded_identifier (af_name f); Ok (mkArgField name (af_required f))) = Ok f.
Proof. intros Hf. rewrite bounded_identifier_ok by done. by destruct f. Qed.

Lemma cli_round_trip p : cli_ok p → cli_try_from (cli_to_proto p) = Ok p.
Proof.
  intros [Hi [He Hd] [_ Ha] [_ Hs] Hw [_ Hv] [_ Hr] [Hf Hn] _ _ _ _].
  unfold cli_try_from, cli_to_proto. cbn.
  rewrite (collect_id _ _ _ bounded_required_string_ok Ha). cbn.
  unfold arg_schema_try_from.
  rewrite (collect_id _ _ _ arg_field_round_trip Hs). cbn.
  rewrite bounded_identifier_ok by done. cbn. rewrite bounded_endpoint_ok by done. cbn.
  rewrite (bounded_required_string_ok (cp_executable_digest p)) by by apply digest_text. cbn.
  rewrite bounded_endpoint_ok by done. cbn. rewrite (collect_id _ _ _ bounded_identifier_ok Hv). cbn.
  rewrite (collect_id _ _ _ secret_ref_new_ok Hr). cbn.
  rewrite (bounded_required_string_ok (cp_filesystem_policy p)) by done. cbn.
  rewrite (bounded_required_string_ok (cp_network_policy p)) by done. by destruct p.
Qed.

Lemma auth_round_trip b : auth_binding_ok b → auth_try_from (auth_to_proto b) = Ok b.
Proof.
  intros [Hi Hs (c & Hc & Hr) [_ Hv]]. unfold auth_try_from, auth_to_proto. cbn.
  rewrite bounded_identifier_ok by done. cbn. rewrite bounded_required_string_ok by done. cbn.
  rewrite Hc. cbn. rewrite optional_secret_ref_ok by done. cbn.
  rewrite (collect_id _ _ _ bounded_identifier_ok Hv). cbn. rewrite <-Hc. by destruct b.
Qed.

Lemma governance_round_trip g : governance_ok g → governance_try_from (governance_to_proto g) = Ok g.
Proof.
  intros [Hp Hr Hc Hb Hd]. unfold governance_try_from, governance_to_proto.
  cbn [pg_budget pg_policy_id pg_approval_mode pg_data_classification pg_rate_limit
       pg_concurrency_limit pg_retention].
  rewrite strip_suffix_app. cbn [ok_or mbind result_bind].
  rewrite bounded_identifier_ok by done. cbn [mbind result_bind].
  rewrite approval_mode_round_trip. cbn [mbind result_bind].
  rewrite data_classification_round_trip. cbn [mbind result_bind].
  rewrite parse_rate_limit_decimal by done. cbn [mbind result_bind].
  rewrite (parse_positive_decimal _ Hc). cbn [mbind result_bind].
  rewrite (parse_positive_decimal _ Hb). cbn [mbind result_bind].
  rewrite (parse_retention_decimal _ Hd). by destruct g.
Qed.

(** The port fits its sixteen bits. *)
Definition port_fits (d : EgressDestination) : Prop := eg_port d ≤ u16_max.

Lemma destination_round_trip d :
  destination_ok d ∧ port_fits d → destination_try_from (destination_to_proto d) = Ok d.
Proof.
  intros [[Hh _ _] Hp]. unfold destination_try_from, destination_to_proto.
  cbn [pd_host pd_port pd_allowance].
  destruct (N.ltb_spec u16_max (eg_port d)) as [Hlt|_]; [by apply N.lt_nge in Hlt|].
  cbn [mbind result_bind]. rewrite bounded_host_ok by done. cbn [mbind result_bind].
  rewrite allowance_round_trip. by destruct d.
Qed.

Lemma runtime_round_trip r :
  runtime_ok r → Forall port_fits (rp_destinations r) → runtime_try_from (runtime_to_proto r) = Ok r.
Proof.
  intros [Hi [Hc Hm] [Hn Hf] [_ Hd]] Hp. unfold runtime_try_from, runtime_to_proto. cbn.
  rewrite (bounded_required_string_ok (rp_image_digest r)) by by apply digest_text. cbn.
  rewrite (bounded_required_string_ok (rp_cpu_limit r)) by done. cbn.
  rewrite (bounded_required_string_ok (rp_memory_limit r)) by done. cbn.
  rewrite (bounded_required_string_ok (rp_network_policy r)) by done. cbn.
  rewrite (bounded_required_string_ok (rp_filesystem_policy r)) by done. cbn.
  rewrite (collect_map _ _ _ _ destination_round_trip) by (apply Forall_and; done).
  by destruct r.
Qed.

(** A specification that passes validation is read back from its message. *)
Lemma spec_round_trip spec :
  validate_proxy_spec spec = Ok tt → Forall port_fits (rp_destinations (sp_runtime_profile spec)) →
  spec_try_from (proxy_spec_to_proto spec) = Ok spec.
Proof.
  intros Hv Hp. pose proof Hv as [Hi [_ Hu] _ [_ Ht] _ [_ Hc] [_ Ha] Hg Hr]%validate_proxy_spec_ok.
  unfold spec_try_from, proxy_spec_to_proto. cbn.
  rewrite ingress_round_trip by done. cbn.
  rewrite (collect_map _ _ _ _ upstream_round_trip Hu). cbn.
  rewrite (collect_map _ _ _ _ (tool_round_trip _) Ht). cbn.
  rewrite (collect_map _ _ _ _ cli_round_trip Hc). cbn.
  rewrite (collect_map _ _ _ _ auth_round_trip Ha). cbn.
  rewrite governance_round_trip by done. cbn. rewrite runtime_round_trip by done. cbn.
  destruct spec. cbn in *. by rewrite Hv.
Qed.

(** ** The stored JSON *)

(** The objects the derived deserialisers of [wire.rs] read: the fields of each
    structure under their own names; the schema of the arguments may be left
    out. *)
Definition wire_ingress_json (i : PIngress) : SpecJson := json_object
  [("transport", SInt (pi_transport i)); ("exposure", SInt (pi_exposure i));
   ("host", SString (pi_host i)); ("path", SString (pi_path i));
   ("allowed_origins", json_strings (pi_allowed_origins i));
   ("protocol_revision", SString (pi_protocol_revision i));
   ("inbound_authentication_required", SBool (pi_authentication_required i))].
Definition wire_upstream_json (u : PUpstream) : SpecJson := json_object
  [("upstream_id", SString (pu_upstream_id u)); ("display_name", SString (pu_display_name u));
   ("transport", SInt (pu_transport u)); ("endpoint_or_command_ref", SString (pu_endpoint u));
   ("credential_ref", SString (pu_credential_ref u));
   ("secret_refs", json_strings (pu_secret_refs u));
   ("server_identity", SString (pu_server_identity u));
   ("tool_catalog_hash", SString (pu_tool_catalog_hash u))].
Definition wire_tool_json (t : PTool) : SpecJson := json_object
  [("upstream_id", SString (pt_upstream_id t)); ("tool_name", SString (pt_tool_name t));
   ("alias", SString (pt_alias t)); ("classification", SInt (pt_classification t))].
Definition wire_cli_json (p : PCli) : SpecJson := json_object (
  [("profile_id", SString (pc_profile_id p)); ("executable_ref", SString (pc_executable_ref p));
   ("executable_digest", SString (pc_executable_digest p));
   ("argv_template", json_strings (pc_argv_template p));
   ("environment_allowlist", json_strings (pc_environment_allowlist p));
   ("secret_refs", json_strings (pc_secret_refs p));
   ("working_directory", SString (pc_working_directory p));
   ("filesystem_policy", SString (pc_filesystem_policy p));
   ("network_policy", SString (pc_network_policy p)); ("shell", SBool (pc_shell p));
   ("timeout_ms", json_nat (pc_timeout_ms p));
   ("max_output_bytes", json_nat (pc_max_output_bytes p));
   ("allowed_exit_codes", SArray (SInt <$> pc_allowed_exit_codes p))]
  ++ match pc_argv_schema p with
     | Some fields => [("argv_schema", json_object [("fields", SArray (arg_field_json <$> fields))])]
     | None => []
     end).
Definition wire_auth_json (b : PAuth) : SpecJson := json_object
  [("binding_id", SString (pa_binding_id b)); ("inbound_subject", SString (pa_inbound_subject b));
   ("outbound_credential_ref", SString (pa_outbound_credential_ref b));
   ("scopes", json_strings (pa_scopes b))].
Definition wire_governance_json (g : PGovernance) : SpecJson := json_object
  [("policy_id", SString (pg_policy_id g)); ("approval_mode", SString (pg_approval_mode g));
   ("data_classification", SString (pg_data_classification g));
   ("rate_limit", SString (pg_rate_limit g));
   ("concurrency_limit", SString (pg_concurrency_limit g)); ("budget", SString (pg_budget g));
   ("retention", SString (pg_retention g))].
Definition wire_destination_json (d : PDestination) : SpecJson := json_object
  [("host", SString (pd_host d)); ("port", json_nat (pd_port d));
   ("private_destination_allowance", SInt (pd_allowance d))].
Definition wire_runtime_json (r : PRuntime) : SpecJson := json_object
  [("image_digest", SString (pr_image_digest r)); ("cpu_limit", SString (pr_cpu_limit r));
   ("memory_limit", SString (pr_memory_limit r));
   ("network_policy", SString (pr_network_policy r));
   ("filesystem_policy", SString (pr_filesystem_policy r)); ("rootless", SBool (pr_rootless r));
   ("egress_destinations", SArray (wire_destination_json <$> pr_egress_destinations r))].
Definition wire_json (w : WireProxySpec) : SpecJson := json_object
  [("ingress", wire_ingress_json (ws_ingress w));
   ("upstreams", SArray (wire_upstream_json <$> ws_upstreams w));
   ("exposed_tools", SArray (wire_tool_json <$> ws_exposed_tools w));
   ("cli_profiles", SArray (wire_cli_json <$> ws_cli_profiles w));
   ("auth_bindings", SArray (wire_auth_json <$> ws_auth_bindings w));
   ("governance_binding", wire_governance_json (ws_governance_binding w));
   ("runtime_profile", wire_runtime_json (ws_runtime_profile w))].

(** The integers fit the types of their fields. *)
Definition fits_i32 (z : Z) : Prop := (-2147483648 ≤ z ≤ 2147483647)%Z.
Definition fits_u32 (n : N) : Prop := n ≤ u32_max.
Record wire_typed (w : WireProxySpec) : Prop := {
  wt_ingress : fits_i32 (pi_transport (ws_ingress w)) ∧ fits_i32 (pi_exposure (ws_ingress w));
  wt_upstreams : Forall (λ u, fits_i32 (pu_transport u)) (ws_upstreams w);
  wt_tools : Forall (λ t, fits_i32 (pt_classification t)) (ws_exposed_tools w);
  wt_cli : Forall (λ p, fits_u32 (pc_timeout_ms p) ∧ fits_u32 (pc_max_output_bytes p)
                        ∧ Forall fits_i32 (pc_allowed_exit_codes p)) (ws_cli_profiles w);
  wt_destinations : Forall (λ d, fits_u32 (pd_port d) ∧ fits_i32 (pd_allowance d))
                      (pr_egress_destinations (ws_runtime_profile w));
}.

(** The documented behaviour of [serde_json] with derived deserialisers: the
    text of a structure's object is read back as the structure; and printing
    distinguishes values. *)
Class WireLaws `{WireCodec} := {
  wire_reads w : wire_typed w → wire_from_str (json_to_string (wire_json w)) = Ok w;
  json_text_inj a b : json_to_string a = json_to_string b → a = b;
}.

(** The structure the stored JSON of a specification is read as. *)
Definition wire_of_spec (spec : ProxySpec) : WireProxySpec :=
  mkWire (ingress_to_proto (sp_ingress spec)) (upstream_to_proto <$> sp_upstreams spec)
    (tool_to_proto <$> sp_exposed_tools spec) (cli_to_proto <$> sp_cli_profiles spec)
    (auth_to_proto <$> sp_auth_bindings spec) (governance_to_proto (sp_governance_binding spec))
    (runtime_to_proto (sp_runtime_profile spec)).

Lemma fmap_via {A B C} (f : A → C) (g : A → B) (h : B → C) (l : list A) :
  (∀ a, f a = h (g a)) → f <$> l = h <$> (g <$> l).
Proof. intros Hf. rewrite <-list_fmap_compose. by apply list_fmap_ext. Qed.

(** [canonical.rs] writes exactly the fields [wire.rs] reads. *)
Lemma spec_json_wire spec : spec_json spec = wire_json (wire_of_spec spec).
Proof.
  unfold spec_json, wire_json, wire_of_spec. cbn [ws_ingress ws_upstreams ws_exposed_tools
    ws_cli_profiles ws_auth_bindings ws_governance_binding ws_runtime_profile].
  rewrite (fmap_via upstream_json upstream_to_proto wire_upstream_json) by done.
  rewrite (fmap_via tool_json tool_to_proto wire_tool_json) by done.
  rewrite (fmap_via cli_json cli_to_proto wire_cli_json) by done.
  rewrite (fmap_via auth_json auth_to_proto wire_auth_json) by done.
  rewrite (fmap_via destination_json destination_to_proto wire_destination_json) by done.
  reflexivity.
Qed.

Lemma wire_of_spec_typed spec :
  spec_ok spec → Forall port_fits (rp_destinations (sp_runtime_profile spec)) →
  wire_typed (wire_of_spec spec).
Proof.
  intros [_ _ _ _ _ [_ Hc] _ _ _] Hp.
  constructor; unfold fits_i32, fits_u32; cbn [wire_of_spec ws_ingress ws_upstreams ws_exposed_tools ws_cli_profiles
    ws_runtime_profile ingress_to_proto pi_transport pi_exposure runtime_to_proto
    pr_egress_destinations].
  - by destruct (in_transport _), (in_exposure _).
  - apply Forall_fmap, Forall_true. intros u. simpl. by destruct (ub_transport u).
  - apply Forall_fmap, Forall_true. intros t. simpl. by destruct (et_classification t).
  - apply Forall_fmap. eapply Forall_impl; [exact Hc|].
    intros p [_ _ _ _ _ _ _ _ _ Ht Ho [_ He]]. simpl. split_and!.
    + etrans; [apply Ht|done].
    + etrans; [apply Ho|done].
    + eapply Forall_impl; [exact He|]. intros z Hz. simpl in Hz. unfold fits_i32. lia.
  - apply Forall_fmap. eapply Forall_impl; [exact Hp|]. intros d Hd. unfold port_fits in Hd. simpl.
    split; [etrans; [exact Hd|done]|by destruct (eg_private_allowance d)].
Qed.

(** C17. A specification that passed validation is read back unchanged from
    the message [proxy_spec_to_proto] makes of it, and from the JSON text the
    store keeps: the rate, budget and retention texts, the enum numbers and
    the absent credential or catalogue fields all survive both encodings. *)
Theorem stored_spec_round_trip `{WireLaws} (spec : ProxySpec) :
  validate_proxy_spec spec = Ok tt →
  Forall port_fits (rp_destinations (sp_runtime_profile spec)) →
  spec_try_from (proxy_spec_to_proto spec) = Ok spec
  ∧ parse_proxy_spec_wire_json (json_to_string (spec_json spec)) = Ok spec.
Proof.
  intros Hv Hp. pose proof (spec_round_trip spec Hv Hp) as Hr. split; [done|].
  unfold parse_proxy_spec_wire_json. rewrite spec_json_wire, wire_reads.
  - exact Hr.
  - apply wire_of_spec_typed; [by apply validate_proxy_spec_ok|done].
Qed.

(** The JSON determines the specification. *)
Lemma spec_json_inj `{WireLaws} (spec spec' : ProxySpec) :
  validate_proxy_spec spec = Ok tt → Forall port_fits (rp_destinations (sp_runtime_profile spec)) →
  validate_proxy_spec spec' = Ok tt → Forall port_fits (rp_destinations (sp_runtime_profile spec')) →
  json_to_string (spec_json spec) = json_to_string (spec_json spec') → spec = spec'.
Proof.
  intros Hv Hp Hv' Hp' He. apply (inj (Ok (E:=ProxyError))).
  rewrite <-(spec_round_trip spec Hv Hp), <-(spec_round_trip spec' Hv' Hp').
  change (proxy_spec_to_proto spec) with (wire_to_proto (wire_of_spec spec)).
  change (proxy_spec_to_proto spec') with (wire_to_proto (wire_of_spec spec')).
  do 2 f_equal. rewrite !spec_json_wire in He. apply (f_equal wire_from_str) in He.
  rewrite !wire_reads in He by (apply wire_of_spec_typed; [by apply validate_proxy_spec_ok|done]).
  congruence.
Qed.

(** ** A codec

    The laws can be met: values are written as the bits of their code, and an
    object is read field by field. *)

Fixpoint spec_tree (j : SpecJson) : code_tree :=
  match j with
  | SNull => GenNode 0 []
  | SBool false => GenNode 1 []
  | SBool true => GenNode 2 []
  | SInt (Zneg p) => GenNode 3 [number (Npos p)]
  | SInt n => GenNode 4 [number (Z.to_N n)]
  | SString s => text s
  | SArray values => GenNode 5 (map spec_tree values)
  | SObject fields => GenNode 6 (map (λ kv, GenNode 7 [text kv.1; spec_tree kv.2]) fields)
  end.
Fixpoint tree_spec (t : code_tree) : SpecJson :=
  match t with
  | GenLeaf (inl s) => SString s
  | GenNode 1 _ => SBool false
  | GenNode 2 _ => SBool true
  | GenNode 3 [t] => SInt (- Z.of_N (tree_number t))
  | GenNode 4 [t] => SInt (Z.of_N (tree_number t))
  | GenNode 5 ts => SArray (map tree_spec ts)
  | GenNode 6 ts =>
      SObject (map (λ t, match t with
                         | GenNode _ [k; t] => (tree_text k, tree_spec t)
                         | _ => (EmptyString, SNull)
                         end) ts)
  | _ => SNull
  end.

Fixpoint tree_spec_tree (j : SpecJson) : tree_spec (spec_tree j) = j.
Proof.
  destruct j as [|[]|[|p|p]|s|values|fields]; simpl; try done.
  - f_equal. induction values as [|v values IH]; [done|]. simpl. by rewrite tree_spec_tree, IH.
  - f_equal. induction fields as [|[k v] fields IH]; [done|]. simpl.
    by rewrite tree_spec_tree, IH.
Qed.

Definition get (key : string) (j : SpecJson) : SpecJson :=
  match j with
  | SObject fields => default SNull (snd <$> List.find (λ kv, String.eqb kv.1 key) fields)
  | _ => SNull
  end.
Definition as_text (j : SpecJson) : string := match j with SString s => s | _ => EmptyString end.
Definition as_int (j : SpecJson) : Z := match j with SInt n => n | _ => 0%Z end.
Definition as_flag (j : SpecJson) : bool := match j with SBool b => b | _ => false end.
Definition as_list (j : SpecJson) : list SpecJson := match j with SArray l => l | _ => [] end.
Definition as_texts (j : SpecJson) : list string := as_text <$> as_list j.
Definition as_nat (j : SpecJson) : N := Z.to_N (as_int j).

Definition read_arg_field (j : SpecJson) : ArgSchemaField :=
  mkArgField (as_text (get "name" j)) (as_flag (get "required" j)).
Definition read_ingress (j : SpecJson) : PIngress :=
  mkPIngress (as_int (get "transport" j)) (as_int (get "exposure" j)) (as_text (get "host" j))
    (as_text (get "path" j)) (as_texts (get "allowed_origins" j))
    (as_text (get "protocol_revision" j)) (as_flag (get "inbound_authentication_required" j)).
Definition read_upstream (j : SpecJson) : PUpstream :=
  mkPUpstream (as_text (get "upstream_id" j)) (as_text (get "display_name" j))
    (as_int (get "transport" j)) (as_text (get "endpoint_or_command_ref" j))
    (as_text (get "credential_ref" j)) (as_texts (get "secret_refs" j))
    (as_text (get "server_identity" j)) (as_text (get "tool_catalog_hash" j)).
Definition read_tool (j : SpecJson) : PTool :=
  mkPTool (as_text (get "upstream_id" j)) (as_text (get "tool_name" j)) (as_text (get "alias" j))
    (as_int (get "classification" j)).
Definition read_cli (j : SpecJson) : PCli :=
  mkPCli (as_text (get "profile_id" j)) (as_text (get "executable_ref" j))
    (as_text (get "executable_digest" j)) (as_texts (get "argv_template" j))
    (as_texts (get "environment_allowlist" j)) (as_texts (get "secret_refs" j))
    (as_text (get "working_directory" j)) (as_text (get "filesystem_policy" j))
    (as_text (get "network_policy" j)) (as_nat (get "timeout_ms" j))
    (as_nat (get "max_output_bytes" j)) (as_int <$> as_list (get "allowed_exit_codes" j))
    (as_flag (get "shell" j))
    (match get "argv_schema" j with
     | SNull => None
     | schema => Some (read_arg_field <$> as_list (get "fields" schema))
     end).
Definition read_auth (j : SpecJson) : PAuth :=
  mkPAuth (as_text (get "binding_id" j)) (as_text (get "inbound_subject" j))
    (as_text (get "outbound_credential_ref" j)) (as_texts (get "scopes" j)).
Definition read_governance (j : SpecJson) : PGovernance :=
  mkPGovernance (as_text (get "policy_id" j)) (as_text (get "approval_mode" j))
    (as_text (get "data_classification" j)) (as_text (get "rate_limit" j))
    (as_text (get "concurrency_limit" j)) (as_text (get "budget" j)) (as_text (get "retention" j)).
Definition read_destination (j : SpecJson) : PDestination :=
  mkPDestination (as_text (get "host" j)) (as_nat (get "port" j))
    (as_int (get "private_destination_allowance" j)).
Definition read_runtime (j : SpecJson) : PRuntime :=
  mkPRuntime (as_text (get "image_digest" j)) (as_text (get "cpu_limit" j))
    (as_text (get "memory_limit" j)) (as_text (get "network_policy" j))
    (as_text (get "filesystem_policy" j)) (as_flag (get "rootless" j))
    (read_destination <$> as_list (get "egress_destinations" j)).
Definition read_wire (j : SpecJson) : WireProxySpec :=
  mkWire (read_ingress (get "ingress" j)) (read_upstream <$> as_list (get "upstreams" j))
    (read_tool <$> as_list (get "exposed_tools" j)) (read_cli <$> as_list (get "cli_profiles" j))
    (read_auth <$> as_list (get "auth_bindings" j))
    (read_governance (get "governance_binding" j)) (read_runtime (get "runtime_profile" j)).

Lemma read_list {A} (w : A → SpecJson) (r : SpecJson → A) (l : list A) :
  (∀ a, r (w a) = a) → r <$> (w <$> l) = l.
Proof. intros Hr. induction l as [|a l IH]; [done|]. rewrite !fmap_cons. by rewrite Hr, IH. Qed.

Lemma read_strings (l : list string) : as_texts (json_strings l) = l.
Proof. by apply read_list. Qed.
Lemma read_nat (n : N) : as_nat (json_nat n) = n.
Proof. apply N2Z.id. Qed.

Lemma read_ingress_json i : read_ingress (wire_ingress_json i) = i.
Proof.
  destruct i as [a b c d o e f].
  change (mkPIngress a b c d (as_texts (json_strings o)) e f = mkPIngress a b c d o e f).
  by rewrite read_strings.
Qed.
Lemma read_upstream_json u : read_upstream (wire_upstream_json u) = u.
Proof.
  destruct u as [a b c d e s f g].
  change (mkPUpstream a b c d e (as_texts (json_strings s)) f g = mkPUpstream a b c d e s f g).
  by rewrite read_strings.
Qed.
Lemma read_tool_json t : read_tool (wire_tool_json t) = t.
Proof. by destruct t. Qed.
Lemma read_cli_json p : read_cli (wire_cli_json p) = p.
Proof.
  destruct p as [a b c v e s d f n tm mo x sh o].
  transitivity (mkPCli a b c (as_texts (json_strings v)) (as_texts (json_strings e))
    (as_texts (json_strings s)) d f n (as_nat (json_nat tm)) (as_nat (json_nat mo))
    (map as_int (map SInt x)) sh
    (match o with Some fields => Some (map read_arg_field (map arg_field_json fields))
                | None => None end)).
  { by destruct o. }
  rewrite !read_strings, !read_nat.
  change (map as_int (map SInt x)) with (as_int <$> (SInt <$> x)).
  rewrite (read_list SInt as_int) by done. destruct o as [fields|]; [|done].
  change (map read_arg_field (map arg_field_json fields))
    with (read_arg_field <$> (arg_field_json <$> fields)).
  rewrite (read_list arg_field_json read_arg_field); [done|]. by intros [].
Qed.
Lemma read_auth_json b : read_auth (wire_auth_json b) = b.
Proof.
  destruct b as [a b c s]. change (mkPAuth a b c (as_texts (json_strings s)) = mkPAuth a b c s).
  by rewrite read_strings.
Qed.
Lemma read_governance_json g : read_governance (wire_governance_json g) = g.
Proof. by destruct g. Qed.
Lemma read_destination_json d : read_destination (wire_destination_json d) = d.
Proof.
  destruct d as [h p a].
  change (mkPDestination h (as_nat (json_nat p)) a = mkPDestination h p a). by rewrite read_nat.
Qed.
Lemma read_runtime_json r : read_runtime (wire_runtime_json r) = r.
Proof.
  destruct r as [a b c d e f l].
  change (mkPRuntime a b c d e f (read_destination <$> (wire_destination_json <$> l))
          = mkPRuntime a b c d e f l).
  by rewrite (read_list _ _ _ read_destination_json).
Qed.
Lemma read_wire_json w : read_wire (wire_json w) = w.
Proof.
  destruct w as [i u t c a g r].
  change (mkWire (read_ingress (wire_ingress_json i)) (read_upstream <$> (wire_upstream_json <$> u))
    (read_tool <$> (wire_tool_json <$> t)) (read_cli <$> (wire_cli_json <$> c))
    (read_auth <$> (wire_auth_json <$> a)) (read_governance (wire_governance_json g))
    (read_runtime (wire_runtime_json r)) = mkWire i u t c a g r).
  by rewrite read_ingress_json, read_governance_json, read_runtime_json,
    (read_list _ _ _ read_upstream_json), (read_list _ _ _ read_tool_json),
    (read_list _ _ _ read_cli_json), (read_list _ _ _ read_auth_json).
Qed.

Definition demo_wire : WireCodec := {|
  json_to_string j := tree_bytes (spec_tree j);
  wire_from_str s := ok_or ((λ t, read_wire (tree_spec t)) <$> bytes_tree s) OtherWireError;
|}.
Lemma demo_wire_laws : @WireLaws demo_wire.
Proof.
  constructor; cbn [json_to_string wire_from_str demo_wire].
  - intros w _. rewrite bytes_tree_bytes. cbn [fmap option_fmap option_map ok_or].
    by rewrite tree_spec_tree, read_wire_json.
  - intros a b Hab%(inj tree_bytes). apply (f_equal tree_spec) in Hab.
    by rewrite !tree_spec_tree in Hab.
Defined.

(** A publishable specification: one upstream, the one read-only tool. *)
Definition demo_digest : string :=
  "sha256:0123456789abcdef0123456789abcdef0123456789abcdef0123456789abcdef".
Definition demo_spec : ProxySpec := mkSpec
  (mkIngress StreamableHttp ExposePrivate "portfolio.example.com" "/mcp"
     ["https://console.example.com"] "2025-11-25" true)
  [mkUpstream "portfolio" "Portfolio" StreamableHttp "https://upstream.example.com/mcp"
     (Some "secret://portfolio/token") ["secret://portfolio/token"] "portfolio-server" None]
  [mkTool "portfolio" "portfolio.read" "portfolio.read" ToolRead] [] []
  (mkGovernance "policy.portfolio" ApproveNone Confidential 60 4 1000 30)
  (mkRuntime demo_digest "500m" "256Mi" "default-deny" "read-only-rootfs" true
     [Https "upstream.example.com" 443 Denied]).

Lemma demo_spec_ok : validate_proxy_spec demo_spec = Ok tt.
Proof. vm_compute. reflexivity. Qed.

Lemma stored_spec_round_trip_witness :
  @parse_proxy_spec_wire_json demo_wire (@json_to_string demo_wire (spec_json demo_spec))
  = Ok demo_spec.
Proof.
  apply (@stored_spec_round_trip demo_wire demo_wire_laws demo_spec);
    [exact demo_spec_ok|by repeat constructor].
Defined.
