(* ===== verification/Admission.v ===== *)
(** * What an admitted envelope guarantees

    The two theorems on [from_validated_transport]: the gate is exact, and the
    hash it checks binds the content of the envelope. *)
From S2P Require Import Prelude RustStr Digits Errors Time Secrets Convert Domain Codecs.

Open Scope N_scope.

(** ** Concrete third-party code

    The encoders of Codecs, and as digest the length of the input, in 64
    digits. *)
Definition demo_deps : DomainDeps := {|
  encode_to_vec e := tree_bytes (envelope_tree e);
  encoded_len e := str_len (tree_bytes (envelope_tree e));
  jcs_to_vec j := Some (tree_bytes (json_tree j));
  sha256_hex s := String.string_of_list_ascii (padded 64 (str_len s));
|}.

Lemma demo_encoded_len : @EncodedLen demo_deps.
Proof. by intros e. Qed.

(** A well-formed control envelope, given its hash. *)
Definition demo_envelope_with (hash : string) (agent : string) : EventEnvelope :=
  mkEnvelope "0198c1a2-0000-7000-8000-000000000001" "2026-01-01T00:00:00.000000Z" 9 agent "run-1"
    None "trace-1" (Some (mkScope "ws" "ns" ["blue"; "green"])) (Some (mkActor 1 "alice"))
    (Some (mkVersion "code-1" "prompt-1" "model-1")) (Some demo_control_data)
    (Some (mkIntegrity None hash)) 1.

Definition demo_envelope : EventEnvelope :=
  demo_envelope_with
    match @canonical_event_hash demo_deps (demo_envelope_with EmptyString "agent-1") with
    | Ok hash => hash
    | Err _ => EmptyString
    end "agent-1".

(** ** The gate *)

Section gate.
Context `{DomainDeps, !EncodedLen}.

(** C31. The admission gate is exact.  An envelope, the fields of whose data are
    in key order as in any decoded message, is admitted exactly when it fits
    the size limit, its identifiers and timestamp are well formed, its data is
    bounded, holds nothing the secret scanner [contains_secret] finds
    and, for a control event, is one of the schema's commands, and its hash is
    the canonical hash of everything else; the request it becomes names the
    envelope's event and scope and carries its encoding.  The scanner is the
    code's: of the connection strings in a text it examines the first alone, so
    that one after a plain link is admitted ([later_connection_string_missed]). *)
Theorem admission_exact (e : EventEnvelope) (r : IngestRequest) :
  (∀ d, data e = Some d → json_sorted (plain_json (VStruct d))) →
  from_validated_transport e = Ok r
  ↔ ∃ s d, scope e = Some s ∧ data e = Some d ∧ admissible e s d ∧ r = request_of e s.
Proof.
  intros Hsorted. split; [by apply admission_sound|].
  intros (s & d & ? & ? & ? & ->). by eapply admission_complete.
Qed.
End gate.

Lemma demo_data_sorted : json_sorted (plain_json (VStruct demo_control_data)).
Proof. repeat split; repeat constructor. Qed.

Lemma admission_exact_witness :
  ∃ s d, scope demo_envelope = Some s ∧ data demo_envelope = Some d
    ∧ @admissible demo_deps demo_envelope s d
    ∧ @request_of demo_deps demo_envelope (mkScope "ws" "ns" ["blue"; "green"])
      = @request_of demo_deps demo_envelope s.
Proof.
  apply (@admission_exact demo_deps demo_encoded_len demo_envelope).
  - intros d [= <-]. apply demo_data_sorted.
  - vm_compute. reflexivity.
Defined.

(** ** The hash *)

(** The zeros of [f64], as bits. *)
Definition is_zero (bits : N) : Prop := bits = 0 ∨ bits = 2 ^ 63.

(** The numbers a canonical document does not tell apart: the two zeros, and
    integers beyond the doubles' precision.  An integer and a double can print
    alike ([1] and [1.0]); the data of an envelope holds doubles only. *)
Definition same_number (n m : Number) : Prop :=
  match n, m with
  | Float a, Float b => a = b ∨ is_zero a ∧ is_zero b
  | PosInt a, PosInt b => a = b ∨ 2 ^ 53 ≤ a ∧ 2 ^ 53 ≤ b
  | _, _ => True
  end.

(** Equal JSON values, up to those numbers. *)
Unset Elimination Schemes.
Inductive json_same : Json → Json → Prop :=
  | same_null : json_same JNull JNull
  | same_bool b : json_same (JBool b) (JBool b)
  | same_num n m : same_number n m → json_same (JNumber n) (JNumber m)
  | same_string s : json_same (JString s) (JString s)
  | same_array l l' : Forall2 json_same l l' → json_same (JArray l) (JArray l')
  | same_object l l' :
      Forall2 (λ p q, p.1 = q.1 ∧ json_same p.2 q.2) l l' → json_same (JObject l) (JObject l').
Set Elimination Schemes.

(** The documented behaviour of [serde_jcs] (RFC 8785): values whose objects
    have their keys in order have the same canonical bytes only when they are
    the same, up to the numbers the format prints alike. *)
Class JcsLaws `{DomainDeps} :=
  jcs_injective a b bytes : json_sorted a → json_sorted b →
    jcs_to_vec a = Some bytes → jcs_to_vec b = Some bytes → json_same a b.

(** Everything the hash covers: all of the envelope but the hash itself. *)
Record same_content (e e' : EventEnvelope) (d d' : Struct) : Prop := {
  sc_event_id : event_id e = event_id e';
  sc_timestamp : timestamp e = timestamp e';
  sc_type : event_type e = event_type e';
  sc_agent : agent_id e = agent_id e';
  sc_run : run_id e = run_id e';
  sc_parent : parent_run_id e = parent_run_id e';
  sc_trace : trace_id e = trace_id e';
  sc_scope : scope e = scope e';
  sc_actor : actor e = actor e';
  sc_version : version e = version e';
  sc_prev : prev_hash <$> integrity e = prev_hash <$> integrity e';
  sc_data : json_same (plain_json (VStruct d)) (plain_json (VStruct d'));
}.

Lemma event_type_name_inj (m n : Z) (s : string) :
  event_type_name m = Some s → event_type_name n = Some s → m = n.
Proof.
  intros Hm Hn. unfold event_type_name in *.
  repeat case_match; simplify_eq; done.
Qed.

Lemma actor_type_name_inj (m n : Z) (s : string) :
  actor_type_name m = Some s → actor_type_name n = Some s → m = n.
Proof.
  intros Hm Hn. unfold actor_type_name in *.
  repeat case_match; simplify_eq; done.
Qed.

Lemma optional_text_inj (o o' : option string) :
  json_same (optional_text o) (optional_text o') → o = o'.
Proof. destruct o, o'; inversion 1; congruence. Qed.

Lemma strings_inj (l l' : list string) :
  Forall2 json_same (map JString l) (map JString l') → l = l'.
Proof.
  revert l'. induction l as [|s l IH]; intros [|s' l']; inversion 1 as [|? ? ? ? Hs Hl]; [done|].
  inversion Hs. f_equal. by apply IH.
Qed.

(** Splits the equality of two objects with the same keys, field by field. *)
Ltac same_fields H :=
  repeat match type of H with
  | Forall2 _ (_ :: _) (_ :: _) =>
      let Hf := fresh "Hf" in apply Forall2_cons in H as [[_ Hf] H]; simpl in Hf
  end.

Lemma scope_json_inj (s s' : Scope) : json_same (scope_json s) (scope_json s') → s = s'.
Proof.
  destruct s, s'. unfold scope_json. simpl. inversion 1 as [| | | | |? ? H']. same_fields H'.
  inversion Hf. inversion Hf0. inversion Hf1. subst. f_equal. by eapply strings_inj.
Qed.

Lemma version_json_inj (v v' : Version) :
  json_same (version_json v) (version_json v') → v = v'.
Proof.
  destruct v, v'. unfold version_json. simpl. inversion 1 as [| | | | |? ? H']. same_fields H'.
  inversion Hf. inversion Hf0. inversion Hf1. by subst.
Qed.

(** The object that is hashed, on an envelope that has all its parts. *)
Lemma canonical_root_some (e : EventEnvelope) (j root : Json) :
  canonical_root e j = Ok root →
  ∃ s a v i ty aty, scope e = Some s ∧ actor e = Some a ∧ version e = Some v
    ∧ integrity e = Some i ∧ event_type_name (event_type e) = Some ty
    ∧ actor_type_name (actor_type a) = Some aty
    ∧ root = JObject
        [("actor", JObject [("id", JString (actor_id a)); ("type", JString aty)]);
         ("agent_id", JString (agent_id e)); ("data", j); ("event_id", JString (event_id e));
         ("integrity", JObject [("prev_hash", optional_text (prev_hash i))]);
         ("parent_run_id", optional_text (parent_run_id e)); ("run_id", JString (run_id e));
         ("schema_version", JNumber (PosInt (schema_version e))); ("scope", scope_json s);
         ("timestamp", JString (timestamp e)); ("trace_id", JString (trace_id e));
         ("type", JString ty); ("version", version_json v)].
Proof.
  unfold canonical_root.
  destruct (scope e) as [s|]; [simpl|done]. destruct (actor e) as [a|]; [simpl|done].
  destruct (version e) as [v|]; [simpl|done]. destruct (integrity e) as [i|]; [simpl|done].
  destruct (event_type_name (event_type e)) as [ty|]; [simpl|done].
  destruct (actor_type_name (actor_type a)) as [aty|] eqn:Ha; [simpl|done].
  intros H. apply (inj Ok) in H. exists s, a, v, i, ty, aty. by repeat (split; [done|]).
Qed.

Lemma json_sorted_object (fields : list (string * Json)) :
  StronglySorted str_lt fields.*1 → Forall (λ kv, json_sorted kv.2) fields →
  json_sorted (JObject fields).
Proof. intros Hs Hf. split; [done|]. by induction Hf; [|split; [|apply IHHf; inversion Hs]]. Qed.

Lemma scope_json_sorted (s : Scope) : json_sorted (scope_json s).
Proof.
  apply json_sorted_object; [sorted_keys|]. repeat (apply Forall_cons; split; [|]); try done.
  simpl. by induction (agent_group_ids s).
Qed.

Lemma optional_text_sorted (o : option string) : json_sorted (optional_text o).
Proof. by destruct o. Qed.

Lemma canonical_root_sorted (e : EventEnvelope) (j root : Json) :
  canonical_root e j = Ok root → json_sorted j → json_sorted root.
Proof.
  intros (s & a & v & i & ty & aty & _ & _ & _ & _ & _ & _ & ->)%canonical_root_some Hj.
  apply json_sorted_object; [sorted_keys|].
  repeat (apply Forall_cons; split; [|]); cbn [snd]; try done;
    try apply scope_json_sorted; try apply optional_text_sorted;
    (apply json_sorted_object; [sorted_keys|]).
  - by repeat constructor.
  - repeat constructor. apply optional_text_sorted.
  - by repeat constructor.
Qed.

Lemma canonical_root_binds (e e' : EventEnvelope) (d d' : Struct) (root root' : Json) :
  canonical_root e (plain_json (VStruct d)) = Ok root →
  canonical_root e' (plain_json (VStruct d')) = Ok root' →
  json_same root root' → same_content e e' d d'.
Proof.
  intros (s & a & v & i & ty & aty & Hs & Ha & Hv & Hi & Hty & Haty & ->)%canonical_root_some.
  intros (s' & a' & v' & i' & ty' & aty' & Hs' & Ha' & Hv' & Hi' & Hty' & Haty' & ->)
    %canonical_root_some Hsame.
  remember (plain_json (VStruct d)) as j eqn:Hj. remember (plain_json (VStruct d')) as j' eqn:Hj'.
  inversion Hsame as [| | | | |? ? H']. subst. same_fields H'.
  inversion Hf as [| | | | |? ? Hact]. subst. same_fields Hact.
  inversion Hf3 as [| | | | |? ? Hint]. subst. same_fields Hint.
  apply optional_text_inj in Hf4, Hf14. apply scope_json_inj in Hf7.
  apply version_json_inj in Hf11. destruct a, a'.
  inversion Hf0. inversion Hf2. inversion Hf5. inversion Hf8. inversion Hf9. inversion Hf10.
  inversion Hf12. inversion Hf13. simpl in *. subst.
  assert (event_type e = event_type e') by (by eapply event_type_name_inj).
  assert (actor_type = actor_type0) by (by eapply actor_type_name_inj).
  split; congruence || (rewrite Hi, Hi'; simpl; congruence) || done.
Qed.

Section binding.
Context `{JcsLaws}.

(** What an admitted envelope's hash is the digest of. *)
Lemma admitted_hash (e : EventEnvelope) (d : Struct) (r : IngestRequest) :
  from_validated_transport e = Ok r → data e = Some d →
  ∃ i root bytes, integrity e = Some i ∧ canonical_root e (plain_json (VStruct d)) = Ok root
    ∧ jcs_to_vec root = Some bytes ∧ event_hash i = sha256_hex bytes.
Proof.
  intros Hr Hd. unfold from_validated_transport in Hr.
  destruct (_ <? encoded_len e); [done|]. do 2 (destruct (negb _) in Hr; [done|]).
  destruct (integrity e) as [i|]; [|done]. cbn [ok_or mbind result_bind] in Hr.
  destruct (_ || _) in Hr; [done|]. destruct (scope e) as [s|]; [|done].
  cbn [ok_or mbind result_bind] in Hr. destruct (negb _) in Hr; [done|]. rewrite Hd in Hr.
  cbn [ok_or mbind result_bind] in Hr. rewrite conversion_exact in Hr.
  destruct (_ && _) in Hr; [|done]. cbn [mbind result_bind] in Hr.
  destruct (data_has_secret _ _); [done|].
  destruct (if (event_type e =? 9)%Z then _ else _) as [[]|] in Hr; [|done].
  cbn [mbind result_bind] in Hr. unfold canonical_event_hash_with_data_json in Hr.
  destruct (canonical_root e _) as [root|] eqn:Hroot; [|done]. cbn [mbind result_bind] in Hr.
  destruct (jcs_to_vec root) as [bytes|] eqn:Hb; [|done]. cbn [ok_or mbind result_bind] in Hr.
  destruct (String.eqb_spec (sha256_hex bytes) (event_hash i)); [|done]. by exists i, root, bytes.
Qed.

(** The bytes whose digest is an envelope's hash. *)
Definition canonical_bytes (e : EventEnvelope) (d : Struct) : option string :=
  match canonical_root e (plain_json (VStruct d)) with Ok root => jcs_to_vec root | Err _ => None end.

(** C33. The hash of an admitted envelope binds it.  Two admitted envelopes with
    the same event hash agree on every other field and on their data, up to the
    sign of a zero; or else the canonical bytes of the one and of the other are
    different texts with the same digest: the two envelopes themselves are a
    collision of SHA-256. *)
Theorem hash_binds (e e' : EventEnvelope) (d d' : Struct) (r r' : IngestRequest) :
  from_validated_transport e = Ok r → from_validated_transport e' = Ok r' →
  data e = Some d → data e' = Some d' →
  json_sorted (plain_json (VStruct d)) → json_sorted (plain_json (VStruct d')) →
  event_hash <$> integrity e = event_hash <$> integrity e' →
  same_content e e' d d'
  ∨ ∃ x y, canonical_bytes e d = Some x ∧ canonical_bytes e' d' = Some y
           ∧ x ≠ y ∧ sha256_hex x = sha256_hex y.
Proof.
  intros Hr Hr' Hd Hd' Hs Hs' Hh.
  destruct (admitted_hash _ _ _ Hr Hd) as (i & root & b & Hi & Hroot & Hb & Hhash).
  destruct (admitted_hash _ _ _ Hr' Hd') as (i' & root' & b' & Hi' & Hroot' & Hb' & Hhash').
  rewrite Hi, Hi' in Hh. injection Hh as Hh.
  destruct (decide (b = b')) as [<-|Hne].
  - left. eapply canonical_root_binds; [done..|].
    eapply jcs_injective; eauto using canonical_root_sorted.
  - right. exists b, b'. unfold canonical_bytes. rewrite Hroot, Hroot'. by rewrite <-Hhash, Hh.
Qed.
End binding.

Lemma demo_jcs_same (a b : Json) : tree_bytes (json_tree a) = tree_bytes (json_tree b) → a = b.
Proof.
  intros H%(inj tree_bytes). apply (f_equal tree_json) in H. by rewrite !tree_json_tree in H.
Qed.

Lemma same_number_refl n : same_number n n.
Proof. destruct n; by left. Qed.
Lemma json_same_refl (j : Json) : json_same j j.
Proof.
  induction j as [|b|n|s|values IH|fields IH] using json_ind; constructor; try done.
  - apply same_number_refl.
  - by apply Forall_Forall2_diag.
  - apply Forall_Forall2_diag. eapply Forall_impl; [done|]. by intros [].
Qed.

#[global] Instance demo_jcs : @JcsLaws demo_deps.
Proof.
  intros a b bytes _ _ Ha Hb. simpl in *.
  assert (a = b) as -> by (apply demo_jcs_same; congruence). by apply json_same_refl.
Qed.

(** Another agent's envelope, which the digest of the demonstration does not
    tell from the first. *)
Definition demo_other : EventEnvelope :=
  demo_envelope_with
    match @canonical_event_hash demo_deps (demo_envelope_with EmptyString "agent-2") with
    | Ok hash => hash
    | Err _ => EmptyString
    end "agent-2".

Lemma hash_binds_witness :
  ∃ x y, @canonical_bytes demo_deps demo_envelope demo_control_data = Some x
    ∧ @canonical_bytes demo_deps demo_other demo_control_data = Some y
    ∧ x ≠ y ∧ @sha256_hex demo_deps x = @sha256_hex demo_deps y.
Proof.
  destruct (@hash_binds demo_deps demo_jcs demo_envelope demo_other demo_control_data demo_control_data
    (@request_of demo_deps demo_envelope (mkScope "ws" "ns" ["blue"; "green"]))
    (@request_of demo_deps demo_other (mkScope "ws" "ns" ["blue"; "green"])))
    as [Hsame|Hcollision]; [vm_compute; reflexivity|vm_compute; reflexivity|reflexivity|reflexivity|..];
    [apply demo_data_sorted|apply demo_data_sorted|vm_compute; reflexivity| |exact Hcollision].
  exfalso. apply sc_agent in Hsame. discriminate Hsame.
Defined.
