(* ===== verification/Fingerprint.v ===== *)
(** * The force-stop fingerprint

    [fingerprint], [canonical_struct] and [canonical_value] of
    [apps/control-plane-api/src/dual_approval.rs]: the byte string two
    approvals of one command must agree on.  [field] is a length-prefixed
    sink, so the canonical encoding is a list of fields and the hash input is
    their framing. *)
From Stdlib Require Import Ascii.
From S2P Require Import Prelude RustStr Journal Convert.

Open Scope N_scope.

(** ** Bytes *)

(** [to_le_bytes] of an unsigned integer of [n] bytes. *)
Fixpoint le_bytes (n : nat) (x : N) : string :=
  match n with
  | O => EmptyString
  | S n => String (ascii_of_N (x mod 256)) (le_bytes n (x / 256))
  end.

(** A one-byte field. *)
Definition tag (n : N) : string := String (ascii_of_N n) EmptyString.

(** The [field] closure: an eight-byte length, then the bytes. *)
Definition frame (bytes : string) : string := le_bytes 8 (str_len bytes) +:+ bytes.

Fixpoint frames (fields : list string) : string :=
  match fields with
  | [] => EmptyString
  | bytes :: fields => frame bytes +:+ frames fields
  end.

(** ** The canonical encoding *)

(** [sort_unstable_by_key(|entry| entry.0)]. *)
Fixpoint insert_by_key {A} (kv : string * A) (l : list (string * A)) : list (string * A) :=
  match l with
  | [] => [kv]
  | kv' :: l' => if String.leb kv.1 kv'.1 then kv :: l else kv' :: insert_by_key kv l'
  end.
Fixpoint sort_by_key {A} (l : list (string * A)) : list (string * A) :=
  match l with
  | [] => []
  | kv :: l => insert_by_key kv (sort_by_key l)
  end.

(** The body of [canonical_struct], on entries whose values are already
    encoded. *)
Definition canonical_entries (entries : list (string * list string)) : list string :=
  le_bytes 8 (len entries) :: (kv ← sort_by_key entries; kv.1 :: kv.2).

(** [canonical_value]. *)
Fixpoint canonical_value (v : Value) : list string :=
  match v with
  | VNone => [tag 0]
  | VNull raw => [tag 1; le_bytes 4 raw]
  | VNumber bits => [tag 2; le_bytes 8 bits]
  | VString s => [tag 3; s]
  | VBool b => [tag 4; tag (if b then 1 else 0)]
  | VStruct nested =>
      tag 5 :: canonical_entries (map (λ kv, (kv.1, canonical_value kv.2)) nested)
  | VList values => tag 6 :: le_bytes 8 (len values) :: concat (map canonical_value values)
  end.

(** [canonical_struct]. *)
Definition canonical_struct (fields : Struct) : list string :=
  canonical_entries (map (λ kv, (kv.1, canonical_value kv.2)) fields).

(** The fields [fingerprint] feeds to the hasher, in order. *)
Definition fingerprint_fields (input : ControlCommandInput) : list string :=
  [in_agent_id input; in_run_id input; default EmptyString (in_parent_run_id input);
   in_trace_id input; le_bytes 4 (action_number (in_action input));
   default EmptyString (in_reason_code input)]
  ++ canonical_struct (default [] (in_parameters input)).

(** [fingerprint]; [sha256] is the [sha2] crate's digest. *)
Definition fingerprint (sha256 : string → string) (input : ControlCommandInput) : string :=
  sha256 (frames (fingerprint_fields input)).

(** ** Equality of commands *)

(** Values up to the order of the entries of every map in them: the value
    with every map sorted. *)
Fixpoint sorted_value (v : Value) : Value :=
  match v with
  | VStruct nested => VStruct (sort_by_key (map (λ kv, (kv.1, sorted_value kv.2)) nested))
  | VList values => VList (map sorted_value values)
  | v => v
  end.

#[global] Instance value_equiv : Equiv Value := λ v w, sorted_value v = sorted_value w.

(** Two submissions describe the same command. *)
Definition same_command (i j : ControlCommandInput) : Prop :=
  in_agent_id i = in_agent_id j ∧ in_run_id i = in_run_id j ∧
  default EmptyString (in_parent_run_id i) = default EmptyString (in_parent_run_id j) ∧
  in_trace_id i = in_trace_id j ∧ in_action i = in_action j ∧
  default EmptyString (in_reason_code i) = default EmptyString (in_reason_code j) ∧
  VStruct (default [] (in_parameters i)) ≡ VStruct (default [] (in_parameters j)).

(** Reordering the entries of maps anywhere inside a value. *)
Inductive reordered : Value → Value → Prop :=
  | ro_refl v : reordered v v
  | ro_trans u v w : reordered u v → reordered v w → reordered u w
  | ro_perm fs gs : NoDup fs.*1 → fs ≡ₚ gs → reordered (VStruct fs) (VStruct gs)
  | ro_field fs1 k v w fs2 :
      reordered v w → reordered (VStruct (fs1 ++ (k, v) :: fs2)) (VStruct (fs1 ++ (k, w) :: fs2))
  | ro_item l1 v w l2 :
      reordered v w → reordered (VList (l1 ++ v :: l2)) (VList (l1 ++ w :: l2)).

Definition with_parameters (i : ControlCommandInput) (ps : Struct) : ControlCommandInput :=
  mkInput (in_command_id i) (in_workspace_id i) (in_namespace_id i) (in_agent_id i)
    (in_run_id i) (in_parent_run_id i) (in_trace_id i) (in_action i) (in_reason_code i)
    (Some ps).

(** The widths Rust guarantees: a [u64] length, an [i32] and the 64 bits of a
    [double]. *)
Definition fits (bits : N) (x : N) : bool := x <? 2 ^ bits.
Fixpoint value_ok (v : Value) : bool :=
  match v with
  | VNull raw => fits 32 raw
  | VNumber bits => fits 64 bits
  | VString s => fits 64 (str_len s)
  | VStruct nested =>
      fits 64 (len nested) && forallb (λ kv, fits 64 (str_len kv.1) && value_ok kv.2) nested
  | VList values => fits 64 (len values) && forallb value_ok values
  | _ => true
  end.
Definition input_ok (i : ControlCommandInput) : bool :=
  forallb (λ s, fits 64 (str_len s))
    [in_agent_id i; in_run_id i; default EmptyString (in_parent_run_id i); in_trace_id i;
     default EmptyString (in_reason_code i)]
  && value_ok (VStruct (default [] (in_parameters i))).

(** The encoding of a value whose maps are already sorted. *)
Fixpoint encode_sorted (v : Value) : list string :=
  match v with
  | VNone => [tag 0]
  | VNull raw => [tag 1; le_bytes 4 raw]
  | VNumber bits => [tag 2; le_bytes 8 bits]
  | VString s => [tag 3; s]
  | VBool b => [tag 4; tag (if b then 1 else 0)]
  | VStruct nested =>
      tag 5 :: le_bytes 8 (len nested) :: concat (map (λ kv, kv.1 :: encode_sorted kv.2) nested)
  | VList values => tag 6 :: le_bytes 8 (len values) :: concat (map encode_sorted values)
  end.

(** ** Byte strings *)

Lemma le_bytes_length n x : String.length (le_bytes n x) = n.
Proof. revert x. induction n as [|n IH]; intros x; simpl; [done|]. by rewrite IH. Qed.

Lemma le_bytes_inj n x y :
  x < 256 ^ N.of_nat n → y < 256 ^ N.of_nat n → le_bytes n x = le_bytes n y → x = y.
Proof.
  revert x y. induction n as [|n IH]; intros x y Hx Hy He.
  { change (256 ^ N.of_nat 0) with 1 in *. lia. }
  simpl in He. injection He as Hb He.
  rewrite Nat2N.inj_succ, N.pow_succ_r' in Hx, Hy.
  assert (Hm : x mod 256 = y mod 256).
  { rewrite <- (N_ascii_embedding (x mod 256)), <- (N_ascii_embedding (y mod 256)), Hb.
    all: first [done | apply N.mod_lt; done]. }
  assert (Hd : x / 256 = y / 256).
  { apply IH; [apply N.Div0.div_lt_upper_bound; lia..|done]. }
  rewrite (N.div_mod x 256), (N.div_mod y 256), Hm, Hd by done. done.
Qed.

Lemma str_app_inj a b c d :
  a +:+ b = c +:+ d → String.length a = String.length c → a = c ∧ b = d.
Proof.
  revert c. induction a as [|x a IH]; intros [|y c] He Hl; try done.
  injection He as -> He. injection Hl as Hl. by destruct (IH c He Hl) as [-> ->].
Qed.

(** Framed fields can be taken apart again. *)
Lemma frames_inj l l' :
  Forall (λ b, str_len b < 2 ^ 64) l → Forall (λ b, str_len b < 2 ^ 64) l' →
  frames l = frames l' → l = l'.
Proof.
  intros Hl. revert l'. induction Hl as [|b l Hb Hl IH]; intros l' Hl' He.
  { destruct l' as [|b' l']; [done|]. by simpl in He. }
  destruct Hl' as [|b' l' Hb' Hl']; [by simpl in He|]. simpl in He. unfold frame in He.
  rewrite !string_app_assoc in He.
  apply str_app_inj in He as [Hlen He]; [|by rewrite !le_bytes_length].
  apply le_bytes_inj in Hlen; [|done..].
  apply str_app_inj in He as [-> He]; [|unfold str_len in Hlen; lia].
  f_equal. by apply IH.
Qed.

(** ** Sorting by key *)

Lemma insert_by_key_perm {A} (kv : string * A) l : insert_by_key kv l ≡ₚ kv :: l.
Proof.
  induction l as [|kv' l IH]; simpl; [done|]. case_match; [done|].
  rewrite IH. apply Permutation_swap.
Qed.

Lemma sort_by_key_perm {A} (l : list (string * A)) : sort_by_key l ≡ₚ l.
Proof. induction l as [|kv l IH]; simpl; [done|]. by rewrite insert_by_key_perm, IH. Qed.

Definition key_le {A} : relation (string * A) := λ p q, String.le p.1 q.1.

Lemma insert_by_key_sorted {A} (kv : string * A) l :
  StronglySorted key_le l → StronglySorted key_le (insert_by_key kv l).
Proof.
  induction 1 as [|kv' l Hs IH Hf]; simpl; [repeat constructor|].
  destruct (String.leb kv.1 kv'.1) eqn:Hle.
  - constructor; [by constructor|]. constructor.
    + unfold key_le, String.le. by rewrite Hle.
    + eapply Forall_impl; [exact Hf|]. intros kv'' H''. unfold key_le in *.
      etrans; [|exact H'']. unfold String.le. by rewrite Hle.
  - constructor; [done|]. rewrite insert_by_key_perm. constructor; [|done].
    unfold key_le. destruct (String.leb_total kv.1 kv'.1) as [H|H]; [congruence|].
    unfold String.le. by rewrite H.
Qed.

Lemma sort_by_key_sorted {A} (l : list (string * A)) : StronglySorted key_le (sort_by_key l).
Proof. induction l; simpl; [constructor|by apply insert_by_key_sorted]. Qed.

(** With distinct keys the result does not depend on the order of entries. *)
Lemma sort_by_key_unique {A} (l l' : list (string * A)) :
  NoDup l.*1 → l ≡ₚ l' → sort_by_key l = sort_by_key l'.
Proof.
  intros Hnd Hp. eapply (StronglySorted_unique_strong key_le);
    [|apply sort_by_key_sorted..|by rewrite !sort_by_key_perm].
  intros [k x] [k' x'] Hx Hx' H1 H2. unfold key_le in *. simpl in *.
  assert (k = k') as -> by by apply (anti_symm String.le).
  rewrite sort_by_key_perm in Hx, Hx'. rewrite <- Hp in Hx'.
  apply list_elem_of_split in Hx as (l1 & l2 & ->). rewrite fmap_app in Hnd. csimpl in Hnd.
  apply NoDup_app in Hnd as (_ & Hdis & Hnd). apply NoDup_cons in Hnd as [Hn _].
  apply elem_of_app in Hx' as [Hx'|Hx'].
  - exfalso. apply (Hdis k'); [by apply (list_elem_of_fmap_2 fst) in Hx'|by left].
  - apply elem_of_cons in Hx' as [[= ->]|Hx']; [done|].
    exfalso. by apply (list_elem_of_fmap_2 fst) in Hx'.
Qed.

Definition map_values {A B} (f : A → B) (l : list (string * A)) : list (string * B) :=
  map (λ kv, (kv.1, f kv.2)) l.

Lemma insert_by_key_map {A B} (f : A → B) kv l :
  insert_by_key (kv.1, f kv.2) (map_values f l) = map_values f (insert_by_key kv l).
Proof.
  unfold map_values. induction l as [|kv' l IH]; simpl; [done|].
  case_match; simpl; [done|]. by rewrite IH.
Qed.

Lemma sort_by_key_map {A B} (f : A → B) l :
  sort_by_key (map_values f l) = map_values f (sort_by_key l).
Proof.
  induction l as [|kv l IH]; simpl; [done|]. fold (map_values f l).
  by rewrite IH, insert_by_key_map.
Qed.

Arguments le_bytes : simpl never.

(** ** The encoding is exact *)

Lemma canonical_value_sorted v : canonical_value v = encode_sorted (sorted_value v).
Proof.
  induction v as [| | | | |fields IH|values IH] using value_ind; simpl; try done.
  - f_equal. unfold canonical_entries.
    replace (map (λ kv, (kv.1, canonical_value kv.2)) fields)
      with (map_values encode_sorted (map (λ kv, (kv.1, sorted_value kv.2)) fields)).
    + rewrite sort_by_key_map. f_equal.
      * unfold len, map_values. rewrite !length_map.
        by rewrite (Permutation_length (sort_by_key_perm _)), length_map.
      * unfold map_values. generalize (sort_by_key (map (λ kv, (kv.1, sorted_value kv.2)) fields)).
        intros l. induction l as [|kv l IHl]; [done|]. csimpl. by rewrite IHl.
    + unfold map_values. rewrite map_map. induction IH as [|kv l Hkv Hl IHl]; [done|].
      simpl in *. by rewrite Hkv, IHl.
  - f_equal. f_equal; [unfold len; by rewrite length_map|].
    induction IH as [|v l Hv Hl IHl]; [done|]. simpl. by rewrite Hv, IHl.
Qed.

Lemma fits_lt n x : fits n x = true ↔ x < 2 ^ n.
Proof. apply N.ltb_lt. Qed.

Lemma le_bytes_fits n bits x y :
  256 ^ N.of_nat n = 2 ^ bits → fits bits x = true → fits bits y = true →
  le_bytes n x = le_bytes n y → x = y.
Proof. intros Hw Hx%fits_lt Hy%fits_lt. rewrite <- Hw in *. by apply le_bytes_inj. Qed.

(** The encoding of a value is never a proper prefix of another's: what
    follows it is determined too. *)
Lemma encode_sorted_prefix_free v w r r' :
  value_ok v = true → value_ok w = true →
  encode_sorted v ++ r = encode_sorted w ++ r' → v = w ∧ r = r'.
Proof.
  revert w r r'. induction v as [|raw|bits|s|b|fields IH|values IH] using value_ind;
    intros [|raw'|bits'|s'|b'|fields'|values'] r r' Hv Hw He; simpl in *; try done.
  - by apply cons_eq in He as [_ ->].
  - apply cons_eq in He as [_ [He ->]%cons_eq]. split; [|done]. f_equal.
    by apply (le_bytes_fits 4 32).
  - apply cons_eq in He as [_ [He ->]%cons_eq]. split; [|done]. f_equal.
    by apply (le_bytes_fits 8 64).
  - by apply cons_eq in He as [_ [-> ->]%cons_eq].
  - apply cons_eq in He as [_ [He ->]%cons_eq]. split; [|done]. by destruct b, b'.
  - apply cons_eq in He as [_ [Hlen He]%cons_eq].
    apply andb_true_iff in Hv as [Hv1 Hv2], Hw as [Hw1 Hw2].
    apply (le_bytes_fits 8 64) in Hlen; [|done..]. unfold len in Hlen. apply Nat2N.inj in Hlen.
    clear Hv1 Hw1. enough (fields = fields' ∧ r = r') as [-> ->] by done.
    revert fields' Hlen Hw2 He. induction IH as [|[k v] l Hkv Hl IHl];
      intros [|[k' v'] l'] Hlen Hw2 He; simpl in *; try done.
    injection He as -> He. apply andb_true_iff in Hv2 as [[_ Hv]%andb_true_iff Hv2].
    apply andb_true_iff in Hw2 as [[_ Hw]%andb_true_iff Hw2]. rewrite <- !app_assoc in He.
    apply Hkv in He as [-> He]; [|done..].
    destruct (IHl Hv2 l') as [-> ->]; [lia|done..].
  - apply cons_eq in He as [_ [Hlen He]%cons_eq].
    apply andb_true_iff in Hv as [Hv1 Hv2], Hw as [Hw1 Hw2].
    apply (le_bytes_fits 8 64) in Hlen; [|done..]. unfold len in Hlen. apply Nat2N.inj in Hlen.
    clear Hv1 Hw1. enough (values = values' ∧ r = r') as [-> ->] by done.
    revert values' Hlen Hw2 He. induction IH as [|v l Hkv Hl IHl];
      intros [|v' l'] Hlen Hw2 He; simpl in *; try done.
    apply andb_true_iff in Hv2 as [Hv Hv2], Hw2 as [Hw Hw2]. rewrite <- !app_assoc in He.
    apply Hkv in He as [-> He]; [|done..].
    destruct (IHl Hv2 l') as [-> ->]; [lia|done..].
Qed.

Lemma forallb_perm {A} (p : A → bool) l l' : l ≡ₚ l' → forallb p l = forallb p l'.
Proof. induction 1; simpl; [done|congruence| |congruence]. rewrite !andb_assoc. f_equal. apply andb_comm. Qed.

Lemma value_ok_sorted v : value_ok (sorted_value v) = value_ok v.
Proof.
  induction v as [| | | | |fields IH|values IH] using value_ind; simpl; try done.
  - rewrite (forallb_perm _ _ _ (sort_by_key_perm _)). unfold len.
    rewrite (Permutation_length (sort_by_key_perm _)), length_map. f_equal.
    induction IH as [|kv l Hkv Hl IHl]; [done|]. simpl. by rewrite Hkv, IHl.
  - unfold len. rewrite length_map. f_equal.
    induction IH as [|v l Hv Hl IHl]; [done|]. simpl. by rewrite Hv, IHl.
Qed.

(** A struct's encoding is that of the value that holds it, without the tag. *)
Lemma canonical_struct_value fs : canonical_value (VStruct fs) = tag 5 :: canonical_struct fs.
Proof. done. Qed.

Lemma canonical_struct_equiv fs gs :
  value_ok (VStruct fs) = true → value_ok (VStruct gs) = true →
  canonical_struct fs = canonical_struct gs ↔ VStruct fs ≡ VStruct gs.
Proof.
  intros Hf Hg. split.
  - intros He. assert (Hv : canonical_value (VStruct fs) = canonical_value (VStruct gs))
      by by rewrite !canonical_struct_value, He.
    rewrite !canonical_value_sorted in Hv.
    destruct (encode_sorted_prefix_free (sorted_value (VStruct fs)) (sorted_value (VStruct gs))
      [] []) as [Hs _]; [by rewrite value_ok_sorted..|by rewrite !app_nil_r|done].
  - unfold equiv, value_equiv. intros He.
    assert (Hv : canonical_value (VStruct fs) = canonical_value (VStruct gs))
      by by rewrite !canonical_value_sorted, He.
    rewrite !canonical_struct_value in Hv. by apply cons_eq in Hv as [_ ?].
Qed.

Lemma le_bytes_short n x : (N.of_nat n < 2 ^ 64) → str_len (le_bytes n x) < 2 ^ 64.
Proof. unfold str_len. by rewrite le_bytes_length. Qed.

Lemma encode_sorted_short v :
  value_ok v = true → Forall (λ b, str_len b < 2 ^ 64) (encode_sorted v).
Proof.
  induction v as [|raw|bits|s|b|fields IH|values IH] using value_ind; simpl; intros Hv;
    repeat (apply Forall_cons_2; [first [done | by apply le_bytes_short | by apply fits_lt]|]);
    try constructor.
  - apply andb_true_iff in Hv as [_ Hv]. apply Forall_concat, Forall_map.
    induction IH as [|[k v] l Hkv Hl IHl]; constructor; simpl in *.
    + apply andb_true_iff in Hv as [[Hk Hv]%andb_true_iff _].
      constructor; [by apply fits_lt|auto].
    + apply IHl. by apply andb_true_iff in Hv as [_ ?].
  - apply andb_true_iff in Hv as [_ Hv]. apply Forall_concat, Forall_map.
    induction IH as [|v l Hkv Hl IHl]; constructor; simpl in *.
    + apply andb_true_iff in Hv as [Hv _]. auto.
    + apply IHl. by apply andb_true_iff in Hv as [_ ?].
Qed.

Lemma fingerprint_fields_short i :
  input_ok i = true → Forall (λ b, str_len b < 2 ^ 64) (fingerprint_fields i).
Proof.
  unfold input_ok. intros [Hs Hp]%andb_true_iff. cbn [forallb] in Hs.
  repeat (apply andb_true_iff in Hs as [?%fits_lt Hs]).
  unfold fingerprint_fields. apply Forall_app. split.
  - repeat (apply Forall_cons_2; [first [done | by apply le_bytes_short]|]). constructor.
  - assert (Hc : Forall (λ b, str_len b < 2 ^ 64)
                   (canonical_value (VStruct (default [] (in_parameters i))))).
    { rewrite canonical_value_sorted. apply encode_sorted_short. by rewrite value_ok_sorted. }
    rewrite canonical_struct_value in Hc. by apply Forall_cons in Hc as [_ ?].
Qed.

Lemma action_number_inj a b : le_bytes 4 (action_number a) = le_bytes 4 (action_number b) → a = b.
Proof.
  intros He%le_bytes_inj; [|by destruct a|by destruct b].
  rewrite <- (action_from_number_of a), <- (action_from_number_of b). by f_equal.
Qed.

(** Reordered values are equivalent. *)
Lemma reordered_equiv v w : reordered v w → v ≡ w.
Proof.
  unfold equiv, value_equiv.
  induction 1 as [v|u v w _ IH1 _ IH2|fs gs Hnd Hp|fs1 k v w fs2 _ IH|l1 v w l2 _ IH]; simpl.
  - done.
  - by rewrite IH1.
  - f_equal. apply sort_by_key_unique.
    + change (map ?f fs) with (f <$> fs). rewrite <- list_fmap_compose. done.
    + by rewrite Hp.
  - by rewrite !map_app; simpl; rewrite IH.
  - by rewrite !map_app; simpl; rewrite IH.
Qed.

(** ** Properties *)

(** The bytes two approvals are compared on identify the command exactly:
    the hash inputs of two submissions are equal if and only if the
    submissions agree on agent, run, parent run, trace, action, reason and
    parameters, where maps are compared as maps at every depth. *)
Theorem fingerprint_exact (i j : ControlCommandInput) :
  input_ok i = true → input_ok j = true →
  frames (fingerprint_fields i) = frames (fingerprint_fields j) ↔ same_command i j.
Proof.
  intros Hi Hj. pose proof (fingerprint_fields_short i Hi) as Fi.
  pose proof (fingerprint_fields_short j Hj) as Fj.
  assert (Vi : value_ok (VStruct (default [] (in_parameters i))) = true)
    by by apply andb_true_iff in Hi as [_ ?].
  assert (Vj : value_ok (VStruct (default [] (in_parameters j))) = true)
    by by apply andb_true_iff in Hj as [_ ?].
  unfold same_command. rewrite <- (canonical_struct_equiv _ _ Vi Vj). split.
  - intros He%frames_inj; [|done..]. unfold fingerprint_fields in He. cbn [app] in He.
    do 6 (apply cons_eq in He as [? He]). split_and!; try done.
    by apply action_number_inj.
  - intros (Ha & Hr & Hpr & Ht & Hac & Hre & Hpa). unfold fingerprint_fields.
    by rewrite Ha, Hr, Hpr, Ht, Hac, Hre, Hpa.
Qed.

(** The order in which a client builds the parameters map never matters:
    reordering the entries of any map, at any depth, leaves the fingerprint
    unchanged, whatever the hash function. *)
Theorem fingerprint_order_independent (sha256 : string → string) (i : ControlCommandInput)
    (fs gs : Struct) :
  reordered (VStruct fs) (VStruct gs) →
  fingerprint sha256 (with_parameters i fs) = fingerprint sha256 (with_parameters i gs).
Proof.
  intros Hr%reordered_equiv. unfold fingerprint, fingerprint_fields.
  assert (Hv : canonical_value (VStruct fs) = canonical_value (VStruct gs))
    by by rewrite !canonical_value_sorted, Hr.
  rewrite !canonical_struct_value in Hv. apply cons_eq in Hv as [_ Hv].
  do 3 f_equal. exact Hv.
Qed.

(** ** Concrete commands *)
Definition demo_input : ControlCommandInput :=
  mkInput None "acme" "prod" "agent-1" "run-1" None "trace-1" ForceStop (Some "incident-42") None.
Definition demo_fields : Struct := [("foo", VNumber 1); ("bar", VList [VBool true; VString "x"])].

Example fingerprint_exact_witness :
  frames (fingerprint_fields (with_parameters demo_input demo_fields)) ≠
  frames (fingerprint_fields (with_parameters demo_input [("foo", VNumber 1)])).
Proof.
  intros He. apply (fingerprint_exact (with_parameters demo_input demo_fields)
    (with_parameters demo_input [("foo", VNumber 1)]) eq_refl eq_refl) in He.
  destruct He as (_ & _ & _ & _ & _ & _ & He). discriminate He.
Defined.

Example fingerprint_order_independent_witness :
  fingerprint (λ s, s) (with_parameters demo_input demo_fields) =
  fingerprint (λ s, s) (with_parameters demo_input (reverse demo_fields)).
Proof.
  apply (fingerprint_order_independent (λ s, s) demo_input demo_fields (reverse demo_fields)).
  apply ro_perm.
  - apply (bool_decide_unpack _). vm_compute. exact I.
  - symmetry. apply reverse_Permutation.
Defined.
