(* ===== verification/Findings.v ===== *)
(** * Security findings

    [crates/apex-security/src]: the findings the ingest boundary records, their
    classification, validation and fingerprint, and the append-only store with
    its per-scope quota and status history.  SHA-256 is a parameter; the clock
    and the entropy of one call are arguments. *)
From Stdlib Require Import Ascii.
From S2P Require Import Prelude RustStr Digits Time Errors Caller Fingerprint.

Open Scope N_scope.

(** [MAX_FINDINGS] and the other bounds of [validate.rs]. *)
Definition MAX_FINDINGS : N := 1000000.
Definition MAX_EVIDENCE_REFS : N := 32.
Definition MAX_STATUS_UPDATES_PER_FINDING : N := 3.
Definition MAX_ACTOR_SCOPE_BYTES : N := 256.

(** ** Data *)

Inductive FindingType :=
  | FTTelemetryIntegrity | FTAgentTemplateNoncompliant | FTScopeIdentityDenied
  | FTUntrustedControlBoundary | FTSecretExposure | FTToolPolicyDenied | FTAuthAbuse
  | FTAdmissionAbuse | FTBacklogDegraded.

Inductive FindingSeverity := SevInfo | SevLow | SevMedium | SevHigh | SevCritical.
Inductive FindingConfidence := Deterministic | Corroborated | Heuristic.
Inductive FindingStatus := FOpen | FAcknowledged | FContained | FResolved | FFalsePositive.
Inductive PolicyDecision := PDAllow | PDDeny | PDRequireApproval | PDContain.
Inductive ContainmentAction := CAPause | CAQuarantine | CADisableTool.

Inductive SecuritySignal :=
  | SigTelemetryIntegrity | SigScopeIdentityDenied | SigUntrustedControlBoundary
  | SigSecretExposure | SigToolPolicyDenied | SigAgentTemplateNoncompliant | SigAuthAbuse
  | SigAdmissionAbuse | SigBacklogDegraded.

(** [FindingErrorCode]; [FPanic] is not one of its values, it stands for the
    panic of an index out of bounds. *)
Inductive FindingErrorCode :=
  | FInvalidField | FCapacity | FDuplicateId | FFingerprintConflict | FNotFound | FScopeDenied
  | FInvalidTransition | FEntropyUnavailable | FClockUnavailable | FPanic.

#[global] Instance FindingType_eq_dec : EqDecision FindingType.
Proof. solve_decision. Defined.
#[global] Instance FindingSeverity_eq_dec : EqDecision FindingSeverity.
Proof. solve_decision. Defined.
#[global] Instance FindingConfidence_eq_dec : EqDecision FindingConfidence.
Proof. solve_decision. Defined.
#[global] Instance FindingStatus_eq_dec : EqDecision FindingStatus.
Proof. solve_decision. Defined.
#[global] Instance PolicyDecision_eq_dec : EqDecision PolicyDecision.
Proof. solve_decision. Defined.
#[global] Instance ContainmentAction_eq_dec : EqDecision ContainmentAction.
Proof. solve_decision. Defined.

Record EvidenceRef := mkEvidence { ev_event_id : string; ev_field_path : string; ev_value_hash : string }.
#[global] Instance EvidenceRef_eq_dec : EqDecision EvidenceRef.
Proof. solve_decision. Defined.

Record SecurityFinding := mkFinding {
  sf_finding_id : string;
  sf_finding_type : FindingType;
  sf_severity : FindingSeverity;
  sf_confidence : FindingConfidence;
  sf_workspace_id : string;
  sf_namespace_id : string;
  sf_detector : string;
  sf_evidence_refs : list EvidenceRef;
  sf_policy_decision : PolicyDecision;
  sf_fingerprint : string;
  sf_created_at_ms : N;
}.
#[global] Instance SecurityFinding_eq_dec : EqDecision SecurityFinding.
Proof. solve_decision. Defined.

Record FindingStatusUpdate := mkUpdate {
  su_finding_id : string;
  su_from : FindingStatus;
  su_to : FindingStatus;
  su_action : option ContainmentAction;
  su_actor_scope : string;
  su_actor_subject : string;
  su_at_ms : N;
}.

Record DetectionInput := mkDetection {
  di_signal : SecuritySignal;
  di_workspace_id : string;
  di_namespace_id : string;
  di_event_id : string;
  di_field_path : string;
  di_value_hash : string;
}.

(** What one call reads of the system: sixteen random bytes
    ([getrandom::fill]), the clock [uuid7] reads and the clock of the record's
    timestamp, in milliseconds since the epoch ([None] before it). *)
Record FindingEnv := mkFindingEnv {
  fe_entropy : option string;
  fe_id_clock : option N;
  fe_clock : option N;
}.

(** [now_ms]: [as_millis() as u64]. *)
Definition now_ms (clock : option N) : result FindingErrorCode N :=
  millis ← ok_or clock FClockUnavailable; Ok (millis mod 2 ^ 64).

(** ** Grammars *)

Definition valid_detector (value : string) : bool :=
  negb (str_is_empty value) && (str_len value <=? 128)
  && str_all (λ c, is_ascii_alphanumeric c || ascii_eqb c "." || ascii_eqb c "_" || ascii_eqb c "-"
                   || ascii_eqb c ":") value.

Definition valid_hash (value : string) : bool :=
  (str_len value =? 64) && str_all (λ c, is_ascii_hexdigit c && negb (in_range "A" "Z" c)) value.

Definition valid_field_path (value : string) : bool :=
  negb (str_is_empty value) && (str_len value <=? 256) && negb (str_contains ".." value)
  && str_all (λ c, is_ascii_alphanumeric c || ascii_eqb c "." || ascii_eqb c "_" || ascii_eqb c "/"
                   || ascii_eqb c "-") value.

Definition validate_scope (workspace namespace : string) : result FindingErrorCode unit :=
  if is_identifier workspace && is_identifier namespace then Ok tt else Err FInvalidField.

Definition valid_actor_scope (value : string) : bool :=
  if str_is_empty value || (MAX_ACTOR_SCOPE_BYTES <? str_len value) || negb (str_all is_ascii value)
     || str_any is_control value
  then false
  else match split_once "/" value with
       | None => false
       | Some (workspace, namespace) => is_ok (validate_scope workspace namespace)
       end.

(** [EvidenceRef::new]. *)
Definition evidence_new (event_id field_path value_hash : string) : result FindingErrorCode EvidenceRef :=
  if negb (is_lowercase_uuidv7 event_id) || negb (valid_field_path field_path)
     || negb (valid_hash value_hash)
  then Err FInvalidField else Ok (mkEvidence event_id field_path value_hash).

(** ** Classification *)

Definition expected_classification (t : FindingType) : FindingSeverity * PolicyDecision :=
  match t with
  | FTSecretExposure => (SevCritical, PDDeny)
  | FTAgentTemplateNoncompliant => (SevHigh, PDRequireApproval)
  | FTBacklogDegraded => (SevHigh, PDContain)
  | _ => (SevHigh, PDDeny)
  end.

(** The [match input.signal] of [detection_finding]. *)
Definition signal_classification (s : SecuritySignal)
    : FindingType * FindingSeverity * PolicyDecision * string :=
  match s with
  | SigTelemetryIntegrity => (FTTelemetryIntegrity, SevHigh, PDDeny, "telemetry.integrity.v1")
  | SigScopeIdentityDenied => (FTScopeIdentityDenied, SevHigh, PDDeny, "identity.scope-denied.v1")
  | SigUntrustedControlBoundary =>
      (FTUntrustedControlBoundary, SevHigh, PDDeny, "control.untrusted-boundary.v1")
  | SigSecretExposure => (FTSecretExposure, SevCritical, PDDeny, "data.secret-exposure.v1")
  | SigToolPolicyDenied => (FTToolPolicyDenied, SevHigh, PDDeny, "tool.policy-denied.v1")
  | SigAgentTemplateNoncompliant =>
      (FTAgentTemplateNoncompliant, SevHigh, PDRequireApproval, "agent.template-noncompliant.v1")
  | SigAuthAbuse => (FTAuthAbuse, SevHigh, PDDeny, "auth.abuse-rate-limit.v1")
  | SigAdmissionAbuse => (FTAdmissionAbuse, SevHigh, PDDeny, "ingest.admission-abuse.v1")
  | SigBacklogDegraded => (FTBacklogDegraded, SevHigh, PDContain, "ingest.backlog-degraded.v1")
  end.

(** The tags of the fingerprint. *)
Definition finding_type_tag (t : FindingType) : string :=
  match t with
  | FTTelemetryIntegrity => "telemetry.integrity"
  | FTAgentTemplateNoncompliant => "agent.template.noncompliant"
  | FTScopeIdentityDenied => "identity.scope.denied"
  | FTUntrustedControlBoundary => "control.untrusted.boundary"
  | FTSecretExposure => "data.secret.exposure"
  | FTToolPolicyDenied => "tool.policy.denied"
  | FTAuthAbuse => "auth.abuse"
  | FTAdmissionAbuse => "ingest.admission.abuse"
  | FTBacklogDegraded => "ingest.backlog.degraded"
  end.
Definition severity_tag (s : FindingSeverity) : string :=
  match s with
  | SevInfo => "info" | SevLow => "low" | SevMedium => "medium" | SevHigh => "high"
  | SevCritical => "critical"
  end.
Definition confidence_tag (c : FindingConfidence) : string :=
  match c with
  | Deterministic => "deterministic" | Corroborated => "corroborated" | Heuristic => "heuristic"
  end.
Definition policy_decision_tag (p : PolicyDecision) : string :=
  match p with
  | PDAllow => "allow" | PDDeny => "deny" | PDRequireApproval => "require_approval"
  | PDContain => "contain"
  end.

Definition allowed_transition (from to : FindingStatus) : bool :=
  match from, to with
  | FOpen, (FAcknowledged | FContained | FFalsePositive) => true
  | FAcknowledged, (FContained | FResolved | FFalsePositive) => true
  | FContained, FResolved => true
  | _, _ => false
  end.

(** ** Identifiers *)

(** [to_be_bytes] of an unsigned integer of [n] bytes. *)
Fixpoint be_bytes (n : nat) (x : N) : string :=
  match n with
  | O => EmptyString
  | S n => be_bytes n (x / 256) +:+ tag (x mod 256)
  end.

(** The 36 characters of a UUID of sixteen bytes. *)
Definition uuid_text (b : string) : string :=
  hex_string (String.substring 0 4 b) +:+ "-" +:+ hex_string (String.substring 4 2 b) +:+ "-"
  +:+ hex_string (String.substring 6 2 b) +:+ "-" +:+ hex_string (String.substring 8 2 b) +:+ "-"
  +:+ hex_string (String.substring 10 6 b).

(** [bytes[i] = f(bytes[i])]. *)
Fixpoint set_byte (i : nat) (f : N → N) (b : string) : string :=
  match i, b with
  | _, EmptyString => EmptyString
  | O, String c b => String (ascii_of_N (f (N_of_ascii c))) b
  | S i, String c b => String c (set_byte i f b)
  end.

(** The body of [uuid7] and of [synthetic_operational_event_id]: sixteen random
    bytes, the first six replaced by the clock. *)
Definition uuid7_text (entropy : string) (now_millis : N) : string :=
  let timestamp := N.land now_millis 281474976710655 in
  let bytes := be_bytes 6 timestamp +:+ String.substring 6 10 entropy in
  let bytes := set_byte 6 (λ b, N.lor (N.land b 15) 112) bytes in
  let bytes := set_byte 8 (λ b, N.lor (N.land b 63) 128) bytes in
  uuid_text bytes.

Definition uuid7 (env : FindingEnv) : result FindingErrorCode string :=
  entropy ← ok_or (fe_entropy env) FEntropyUnavailable;
  now ← now_ms (fe_id_clock env);
  Ok (uuid7_text entropy now).

(** ** Fingerprints *)

(** [update_component]: an eight-byte length, then the bytes. *)
Definition component (value : string) : string := be_bytes 8 (str_len value) +:+ value.

Class FindingDigest := finding_sha256 : string → string.

Section findings.
Context `{FindingDigest}.

(** The components [fingerprint_for] feeds to the hash, and its digest. *)
Definition fingerprint_components (f : SecurityFinding) : list string :=
  [finding_type_tag (sf_finding_type f); severity_tag (sf_severity f);
   confidence_tag (sf_confidence f); policy_decision_tag (sf_policy_decision f);
   sf_workspace_id f; sf_namespace_id f; sf_detector f]
  ++ concat ((λ e, [ev_event_id e; ev_field_path e; ev_value_hash e]) <$> sf_evidence_refs f).
Definition fingerprint_input (f : SecurityFinding) : string :=
  "apex.security.finding.v3" +:+ foldr (λ v acc, component v +:+ acc) EmptyString (fingerprint_components f).
Definition fingerprint_for (f : SecurityFinding) : string := finding_sha256 (fingerprint_input f).

(** The loop of [validate_finding] over the evidence. *)
Fixpoint evidence_ok (seen : list EvidenceRef) (refs : list EvidenceRef) : bool :=
  match refs with
  | [] => true
  | e :: refs =>
      is_lowercase_uuidv7 (ev_event_id e) && valid_field_path (ev_field_path e)
      && valid_hash (ev_value_hash e) && bool_decide (e ∉ seen) && evidence_ok (e :: seen) refs
  end.

Definition validate_finding (f : SecurityFinding) : result FindingErrorCode unit :=
  _ ← validate_scope (sf_workspace_id f) (sf_namespace_id f);
  let '(severity, policy) := expected_classification (sf_finding_type f) in
  if negb (is_lowercase_uuidv7 (sf_finding_id f)) || negb (bool_decide (sf_severity f = severity))
     || negb (bool_decide (sf_policy_decision f = policy)) || negb (valid_detector (sf_detector f))
     || bool_decide (sf_evidence_refs f = []) || (MAX_EVIDENCE_REFS <? len (sf_evidence_refs f))
  then Err FInvalidField
  else if negb (evidence_ok [] (sf_evidence_refs f)) then Err FInvalidField
  else if negb (valid_hash (sf_fingerprint f)) || negb (String.eqb (sf_fingerprint f) (fingerprint_for f))
  then Err FInvalidField
  else Ok tt.

Definition logically_equal (l r : SecurityFinding) : bool :=
  bool_decide (sf_finding_type l = sf_finding_type r) && bool_decide (sf_severity l = sf_severity r)
  && bool_decide (sf_confidence l = sf_confidence r)
  && String.eqb (sf_workspace_id l) (sf_workspace_id r)
  && String.eqb (sf_namespace_id l) (sf_namespace_id r) && String.eqb (sf_detector l) (sf_detector r)
  && bool_decide (sf_evidence_refs l = sf_evidence_refs r)
  && bool_decide (sf_policy_decision l = sf_policy_decision r)
  && String.eqb (sf_fingerprint l) (sf_fingerprint r).

(** [new_finding], of an input that is a finding without identifier, fingerprint
    and time. *)
Definition new_finding (env : FindingEnv) (f : SecurityFinding) : result FindingErrorCode SecurityFinding :=
  _ ← validate_scope (sf_workspace_id f) (sf_namespace_id f);
  if negb (valid_detector (sf_detector f)) || bool_decide (sf_evidence_refs f = [])
     || (MAX_EVIDENCE_REFS <? len (sf_evidence_refs f))
  then Err FInvalidField
  else
    finding_id ← uuid7 env;
    now ← now_ms (fe_clock env);
    let finding := mkFinding finding_id (sf_finding_type f) (sf_severity f) (sf_confidence f)
      (sf_workspace_id f) (sf_namespace_id f) (sf_detector f) (sf_evidence_refs f)
      (sf_policy_decision f) (fingerprint_for f) now in
    _ ← validate_finding finding;
    Ok finding.

(** [detection_finding]. *)
Definition detection_finding (env : FindingEnv) (input : DetectionInput)
    : result FindingErrorCode SecurityFinding :=
  let '(finding_type, severity, policy_decision, detector) := signal_classification (di_signal input) in
  evidence ← evidence_new (di_event_id input) (di_field_path input) (di_value_hash input);
  new_finding env
    (mkFinding EmptyString finding_type severity Deterministic (di_workspace_id input)
       (di_namespace_id input) detector [evidence] policy_decision EmptyString 0).

(** ** The store *)

Record FindingStore := mkFindingStore {
  fs_scope_capacity : N;
  fs_global_capacity : N;
  fs_max_updates : N;
  fs_findings : list SecurityFinding;
  fs_updates : list FindingStatusUpdate;
  fs_by_id : gmap string nat;
  fs_by_scope_fingerprint : gmap (string * string * string) string;
  fs_scope_counts : gmap (string * string) N;
}.

Definition set_updates (us : list FindingStatusUpdate) (s : FindingStore) : FindingStore :=
  mkFindingStore (fs_scope_capacity s) (fs_global_capacity s) (fs_max_updates s) (fs_findings s) us
    (fs_by_id s) (fs_by_scope_fingerprint s) (fs_scope_counts s).

(** [with_quotas]; [new] passes [MAX_FINDINGS] as the global capacity. *)
Definition with_quotas (scope_capacity global_capacity : N) : result FindingErrorCode FindingStore :=
  if (scope_capacity =? 0) || (global_capacity =? 0) || (global_capacity <? scope_capacity)
     || (MAX_FINDINGS <? global_capacity)
  then Err FCapacity
  else Ok (mkFindingStore scope_capacity global_capacity
             (N.min (global_capacity * MAX_STATUS_UPDATES_PER_FINDING) u64_max) [] [] ∅ ∅ ∅).

Definition finding_scope (f : SecurityFinding) : string * string := (sf_workspace_id f, sf_namespace_id f).

(** The insertions at the end of [append]. *)
Definition push_finding (f : SecurityFinding) (s : FindingStore) : FindingStore :=
  mkFindingStore (fs_scope_capacity s) (fs_global_capacity s) (fs_max_updates s)
    (fs_findings s ++ [f]) (fs_updates s)
    (<[sf_finding_id f := length (fs_findings s)]> (fs_by_id s))
    (<[(sf_workspace_id f, sf_namespace_id f, sf_fingerprint f) := sf_finding_id f]>
       (fs_by_scope_fingerprint s))
    (<[finding_scope f := default 0 (fs_scope_counts s !! finding_scope f) + 1]> (fs_scope_counts s)).

(** [append]. *)
Definition append_finding (f : SecurityFinding) : ST FindingStore FindingErrorCode bool := λ s,
  match validate_finding f with
  | Err e => (Err e, s)
  | Ok _ =>
      match fs_by_id s !! sf_finding_id f with
      | Some index =>
          (match fs_findings s !! index with
           | None => Err FPanic
           | Some existing => if bool_decide (existing = f) then Ok false else Err FDuplicateId
           end, s)
      | None =>
          let key := (sf_workspace_id f, sf_namespace_id f, sf_fingerprint f) in
          match fs_by_scope_fingerprint s !! key with
          | Some existing_id =>
              (match fs_by_id s !! existing_id ≫= λ index, fs_findings s !! index with
               | None => Err FFingerprintConflict
               | Some existing => if logically_equal existing f then Ok false else Err FFingerprintConflict
               end, s)
          | None =>
              if fs_global_capacity s <=? len (fs_findings s) then (Err FCapacity, s)
              else if fs_scope_capacity s <=? default 0 (fs_scope_counts s !! finding_scope f)
              then (Err FCapacity, s)
              else (Ok true, push_finding f s)
          end
      end
  end.

(** [detect_and_record]. *)
Definition detect_and_record (env : FindingEnv) (input : DetectionInput)
    : ST FindingStore FindingErrorCode bool :=
  finding ← st_lift (detection_finding env input);
  append_finding finding.

(** [current_status]: the last update of the finding, or [Open]. *)
Definition last_update (finding_id : string) (us : list FindingStatusUpdate) : option FindingStatusUpdate :=
  head (filter (λ u, su_finding_id u = finding_id) (reverse us)).
Definition current_status (finding_id : string) (s : FindingStore) : result FindingErrorCode FindingStatus :=
  match fs_by_id s !! finding_id with
  | None => Err FNotFound
  | Some _ => Ok (from_option su_to FOpen (last_update finding_id (fs_updates s)))
  end.

(** [transition_internal]. *)
Definition needs_action (to : FindingStatus) : bool :=
  match to with FContained | FResolved => true | _ => false end.
Definition transition_internal (env : FindingEnv) (finding_id : string) (expected to : FindingStatus)
    (actor_scope actor_subject : string) (action : option ContainmentAction)
    : ST FindingStore FindingErrorCode unit := λ s,
  let outcome :=
    index ← ok_or (fs_by_id s !! finding_id) FNotFound;
    finding ← ok_or (fs_findings s !! index) FPanic;
    _ ← validate_scope (sf_workspace_id finding) (sf_namespace_id finding);
    if negb (String.eqb actor_scope (sf_workspace_id finding +:+ "/" +:+ sf_namespace_id finding))
    then Err FScopeDenied
    else
      current ← current_status finding_id s;
      if negb (bool_decide (current = expected)) || negb (allowed_transition current to)
      then Err FInvalidTransition
      else if needs_action to && bool_decide (action = None) then Err FInvalidTransition
      else if fs_max_updates s <=? len (fs_updates s) then Err FCapacity
      else
        now ← now_ms (fe_clock env);
        Ok (mkUpdate finding_id current to action actor_scope actor_subject now) in
  match outcome with
  | Err e => (Err e, s)
  | Ok update => (Ok tt, set_updates (fs_updates s ++ [update]) s)
  end.

(** [transition]. *)
Definition transition (env : FindingEnv) (finding_id : string) (expected to : FindingStatus)
    (caller : Caller) (actor_scope : string) (action : option ContainmentAction)
    : ST FindingStore FindingErrorCode unit :=
  if negb (valid_actor_scope actor_scope) then st_throw FScopeDenied
  else
    match ca_subject caller with
    | Some actor_subject =>
        if str_is_empty actor_subject || negb (caller_allows_scope caller actor_scope)
        then st_throw FScopeDenied
        else transition_internal env finding_id expected to actor_scope actor_subject action
    | None => st_throw FScopeDenied
    end.

(** [transition_replayed]. *)
Definition transition_replayed (env : FindingEnv) (u : FindingStatusUpdate)
    : ST FindingStore FindingErrorCode unit :=
  if str_is_empty (su_actor_subject u) || negb (valid_actor_scope (su_actor_scope u))
  then st_throw FScopeDenied
  else transition_internal env (su_finding_id u) (su_from u) (su_to u) (su_actor_scope u)
         (su_actor_subject u) (su_action u).

(** ** Reads *)

Definition findings_for_scope (caller : Caller) (workspace_id namespace_id : string) (s : FindingStore)
    : result FindingErrorCode (list SecurityFinding) :=
  _ ← validate_scope workspace_id namespace_id;
  if negb (caller_allows_scope caller (workspace_id +:+ "/" +:+ namespace_id)) then Err FScopeDenied
  else Ok (filter (λ f, finding_scope f = (workspace_id, namespace_id)) (fs_findings s)).

Definition updates_for_scope (caller : Caller) (workspace_id namespace_id : string) (s : FindingStore)
    : result FindingErrorCode (list FindingStatusUpdate) :=
  _ ← validate_scope workspace_id namespace_id;
  if negb (caller_allows_scope caller (workspace_id +:+ "/" +:+ namespace_id)) then Err FScopeDenied
  else Ok (filter (λ u, from_option finding_scope (EmptyString, EmptyString)
                          (fs_by_id s !! su_finding_id u ≫= λ i, fs_findings s !! i)
                        = (workspace_id, namespace_id)) (fs_updates s)).
End findings.
