(* ===== verification/FindingsLaws.v ===== *)
(** * Security findings: theorems

    The identifiers [uuid7] makes, the injectivity of the fingerprint's input,
    the invariant of the finding store, what its operations answer on every
    branch, and the bounded life of a finding. *)
From Stdlib Require Import Ascii.
From S2P Require Import Prelude RustStr Digits Time Errors OperatorAuth Caller Fingerprint Findings.

Open Scope N_scope.

(** ** Identifiers *)

Arguments be_bytes : simpl never.

Lemma be_bytes_length n x : String.length (be_bytes n x) = n.
Proof.
  revert x. induction n as [|n IH]; intros x; [done|]. unfold be_bytes. fold be_bytes.
  pose proof (str_len_app (be_bytes n (x / 256)) (tag (x mod 256))) as H.
  unfold str_len in H. rewrite IH in H. simpl in H. lia.
Qed.

Lemma be_bytes_inj n x y :
  x < 256 ^ N.of_nat n → y < 256 ^ N.of_nat n → be_bytes n x = be_bytes n y → x = y.
Proof.
  revert x y. induction n as [|n IH]; intros x y Hx Hy He.
  { change (256 ^ N.of_nat 0) with 1 in *. lia. }
  unfold be_bytes in He. fold be_bytes in He.
  apply str_app_inj in He as [He Hb]; [|by rewrite !be_bytes_length].
  injection Hb as Hb. rewrite Nat2N.inj_succ, N.pow_succ_r' in Hx, Hy.
  assert (Hm : x mod 256 = y mod 256).
  { rewrite <- (N_ascii_embedding (x mod 256)), <- (N_ascii_embedding (y mod 256)), Hb.
    all: first [done | apply N.mod_lt; done]. }
  assert (Hd : x / 256 = y / 256).
  { apply IH; [apply N.Div0.div_lt_upper_bound; lia..|done]. }
  rewrite (N.div_mod x 256), (N.div_mod y 256), Hm, Hd by done. done.
Qed.

(** The two bytes the version and the variant are written into; there are 256
    values each. *)
Lemma version_byte (c : ascii) :
  hex_digit (N_of_ascii (ascii_of_N (N.lor (N.land (N_of_ascii c) 15) 112)) / 16) = "7"%char.
Proof. by destruct c as [[] [] [] [] [] [] [] []]. Qed.

Lemma variant_byte (c : ascii) :
  hex_digit (N_of_ascii (ascii_of_N (N.lor (N.land (N_of_ascii c) 63) 128)) / 16)
  ∈ ["8"; "9"; "a"; "b"]%char.
Proof. destruct c as [[] [] [] [] [] [] [] []]; vm_compute; repeat constructor. Qed.

Lemma string_cons_of_length n (s : string) :
  String.length s = S n → ∃ c t, s = String c t ∧ String.length t = n.
Proof. destruct s as [|c t]; [done|]. intros [= H]. by exists c, t. Qed.

Ltac bytes_of H :=
  let c := fresh "c" in let t := fresh "t" in
  apply string_cons_of_length in H as (c & t & -> & H).

Lemma string_nil_of_length (s : string) : String.length s = 0%nat → s = EmptyString.
Proof. by destruct s. Qed.

(** Every identifier [uuid7] makes passes [is_lowercase_uuidv7]. *)
Lemma uuid7_text_ok (entropy : string) (now : N) :
  String.length entropy = 16%nat → is_lowercase_uuidv7 (uuid7_text entropy now) = true.
Proof.
  intros He. unfold uuid7_text. set (x := N.land now _). clearbody x.
  pose proof (be_bytes_length 6 x) as Hb. generalize dependent (be_bytes 6 x). intros b Hb.
  do 6 bytes_of Hb. apply string_nil_of_length in Hb as ->.
  do 16 bytes_of He. apply string_nil_of_length in He as ->.
  cbv [String.substring String.append set_byte uuid_text hex_string].
  unfold is_lowercase_uuidv7. rewrite version_byte.
  match goal with |- context [hex_digit (N_of_ascii (ascii_of_N (N.lor (N.land (N_of_ascii ?c) 63) 128)) / 16)] =>
    pose proof (variant_byte c) as Hv; generalize dependent (hex_digit (N_of_ascii (ascii_of_N (N.lor (N.land (N_of_ascii c) 63) 128)) / 16))
  end.
  intros v Hv. cbn [String.list_ascii_of_string].
  repeat match goal with |- context [hex_digit (N_of_ascii ?c / 16)] =>
    let H := fresh "Hh" in
    pose proof (hex_high_lower c) as H; generalize dependent (hex_digit (N_of_ascii c / 16)); intros ? H
  end.
  repeat match goal with |- context [hex_digit (N_of_ascii ?c mod 16)] =>
    let H := fresh "Hl" in
    pose proof (hex_low_lower c) as H; generalize dependent (hex_digit (N_of_ascii c mod 16)); intros ? H
  end.
  repeat (apply andb_true_intro; split); try done;
    repeat (apply elem_of_cons in Hv as [->|Hv]; [done|]); by apply elem_of_nil in Hv.
Qed.

(** ** Fingerprints *)

Lemma component_len v : str_len (component v) = 8 + str_len v.
Proof. unfold component. rewrite str_len_app. unfold str_len. by rewrite be_bytes_length. Qed.

Lemma components_inj (l l' : list string) :
  Forall (λ b, str_len b < 2 ^ 64) l → Forall (λ b, str_len b < 2 ^ 64) l' →
  foldr (λ v acc, component v +:+ acc) EmptyString l
  = foldr (λ v acc, component v +:+ acc) EmptyString l' → l = l'.
Proof.
  intros Hl. revert l'. induction Hl as [|b l Hb Hl IH]; intros l' Hl' He.
  { destruct l' as [|b' l']; [done|]. apply (f_equal str_len) in He. simpl in He.
    rewrite str_len_app, component_len in He. change (str_len EmptyString) with 0 in He. lia. }
  destruct Hl' as [|b' l' Hb' Hl'].
  { apply (f_equal str_len) in He. simpl in He.
    rewrite str_len_app, component_len in He. change (str_len EmptyString) with 0 in He. lia. }
  simpl in He. unfold component in He. rewrite !string_app_assoc in He.
  apply str_app_inj in He as [Hlen He]; [|by rewrite !be_bytes_length].
  apply be_bytes_inj in Hlen; [|done..].
  apply str_app_inj in He as [-> He]; [|unfold str_len in Hlen; lia].
  f_equal. by apply IH.
Qed.

Lemma finding_type_tag_inj : Inj (=) (=) finding_type_tag.
Proof. by intros [] []. Qed.
Lemma severity_tag_inj : Inj (=) (=) severity_tag.
Proof. by intros [] []. Qed.
Lemma confidence_tag_inj : Inj (=) (=) confidence_tag.
Proof. by intros [] []. Qed.
Lemma policy_decision_tag_inj : Inj (=) (=) policy_decision_tag.
Proof. by intros [] []. Qed.

Lemma evidence_triples_inj (l l' : list EvidenceRef) :
  concat ((λ e, [ev_event_id e; ev_field_path e; ev_value_hash e]) <$> l)
  = concat ((λ e, [ev_event_id e; ev_field_path e; ev_value_hash e]) <$> l') → l = l'.
Proof.
  revert l'. induction l as [|[] l IH]; intros [|[] l'] He; simpl in He; [done..|].
  injection He as -> -> -> He. f_equal. by apply IH.
Qed.

(** What the fingerprint is computed from determines everything
    [logically_equal] compares but the fingerprint. *)
Lemma fingerprint_components_inj (f g : SecurityFinding) :
  fingerprint_components f = fingerprint_components g →
  sf_fingerprint f = sf_fingerprint g → logically_equal f g = true.
Proof.
  unfold fingerprint_components. cbn [app]. intros He Hf.
  injection He as Ht Hs Hc Hp Hw Hn Hd He.
  apply finding_type_tag_inj in Ht. apply severity_tag_inj in Hs. apply confidence_tag_inj in Hc.
  apply policy_decision_tag_inj in Hp. apply evidence_triples_inj in He.
  unfold logically_equal. by rewrite Ht, Hs, Hc, Hp, Hw, Hn, Hd, He, Hf, !bool_decide_true, !String.eqb_refl.
Qed.

(** ** Histories *)

Definition history (id : string) (us : list FindingStatusUpdate) : list FindingStatusUpdate :=
  filter (λ u, su_finding_id u = id) us.
Definition status_after (st : FindingStatus) (us : list FindingStatusUpdate) : FindingStatus :=
  from_option su_to st (last us).

(** A chain of allowed transitions that starts in [st]. *)
Fixpoint legal (st : FindingStatus) (us : list FindingStatusUpdate) : Prop :=
  match us with
  | [] => True
  | u :: us =>
      su_from u = st ∧ allowed_transition st (su_to u) = true
      ∧ (needs_action (su_to u) = true → su_action u ≠ None) ∧ legal (su_to u) us
  end.

(** How many transitions a status still allows. *)
Definition rank (st : FindingStatus) : nat :=
  match st with FOpen => 3 | FAcknowledged => 2 | FContained => 1 | FResolved | FFalsePositive => 0 end.

Lemma transition_lowers from to : allowed_transition from to = true → (rank to < rank from)%nat.
Proof. destruct from, to; simpl; (done || lia). Qed.

Lemma last_update_history id us : last_update id us = last (history id us).
Proof. unfold last_update, history. by rewrite filter_reverse, head_reverse. Qed.

Lemma legal_snoc st us u :
  legal st us → su_from u = status_after st us → allowed_transition (su_from u) (su_to u) = true →
  (needs_action (su_to u) = true → su_action u ≠ None) → legal st (us ++ [u]).
Proof.
  revert st. induction us as [|v us IH]; intros st Hl Hf Ha Hn; cbn in *.
  - by rewrite <- Hf.
  - destruct Hl as (? & ? & ? & Hl). split_and!; [done..|]. apply IH; [done| |done..].
    rewrite Hf. unfold status_after. rewrite last_cons. by destruct (last us).
Qed.

Lemma legal_rank st us : legal st us → (length us + rank (status_after st us) ≤ rank st)%nat.
Proof.
  revert st. induction us as [|v us IH]; intros st Hl; [apply Nat.le_refl|].
  destruct Hl as (_ & Ha & _ & Hl%IH). apply transition_lowers in Ha.
  unfold status_after in *. rewrite last_cons. destruct (last us) in *; simpl in *; lia.
Qed.

(** Counting a list by a key that ranges over a list of names. *)
Lemma length_by_key {A} (key : A → string) (b : string → nat) (names : list string) (l : list A) :
  (∀ x, x ∈ l → key x ∈ names) → (∀ n, (length (filter (λ x, key x = n) l) ≤ b n)%nat) →
  (length l ≤ sum_list (b <$> names))%nat.
Proof.
  revert l. induction names as [|n names IH]; intros l Hk Hb.
  { destruct l as [|x l]; [done|]. specialize (Hk x (list_elem_of_here _ _)). by apply elem_of_nil in Hk. }
  cbn. pose proof (Hb n) as Hn.
  assert (length (filter (λ x, key x ≠ n) l) ≤ sum_list (b <$> names))%nat as Hr.
  { apply IH.
    - intros x [Hne Hin]%list_elem_of_filter. apply Hk in Hin. by apply elem_of_cons in Hin as [|].
    - intros n'. etrans; [|apply (Hb n')]. rewrite list_filter_filter.
      rewrite (list_filter_iff _ (λ x, key x ≠ n ∧ key x = n')) by naive_solver.
      rewrite <- list_filter_filter. apply sublist_length, sublist_filter. }
  assert (length l = length (filter (λ x, key x = n) l) + length (filter (λ x, key x ≠ n) l))%nat; [|lia].
  clear. induction l as [|x l IH]; [done|]. rewrite !filter_cons. repeat case_decide; simpl; (done || lia).
Qed.

Section laws.
Context `{FindingDigest}.

(** What [validate_finding] checks. *)
Record finding_ok (f : SecurityFinding) : Prop := {
  fo_workspace : is_identifier (sf_workspace_id f) = true;
  fo_namespace : is_identifier (sf_namespace_id f) = true;
  fo_class : expected_classification (sf_finding_type f) = (sf_severity f, sf_policy_decision f);
  fo_id : is_lowercase_uuidv7 (sf_finding_id f) = true;
  fo_detector : valid_detector (sf_detector f) = true;
  fo_some : sf_evidence_refs f ≠ [];
  fo_bounded : len (sf_evidence_refs f) ≤ MAX_EVIDENCE_REFS;
  fo_evidence : evidence_ok [] (sf_evidence_refs f) = true;
  fo_hash : valid_hash (sf_fingerprint f) = true;
  fo_fingerprint : sf_fingerprint f = fingerprint_for f;
}.

Lemma validate_finding_ok (f : SecurityFinding) :
  validate_finding f = Ok tt ↔ finding_ok f.
Proof.
  unfold validate_finding, validate_scope. split.
  - intros Hv. destruct (is_identifier (sf_workspace_id f)) eqn:Hw; [|done].
    destruct (is_identifier (sf_namespace_id f)) eqn:Hn; [|done]. cbn in Hv.
    destruct (expected_classification _) as [sev pol] eqn:Hc.
    repeat (case_match; [done|]). breflect. subst. by constructor.
  - intros [Hw Hn Hc Hid Hd Hne Hb He Hh Hf]. rewrite Hw, Hn, Hc, Hid, Hd, He, Hh.
    rewrite !bool_decide_true, bool_decide_false by done. cbn.
    rewrite (proj2 (N.ltb_ge _ _) Hb), Hf, String.eqb_refl. done.
Qed.

Lemma validate_finding_err (f : SecurityFinding) e : validate_finding f = Err e → e = FInvalidField.
Proof.
  unfold validate_finding, validate_scope. destruct (expected_classification _).
  intros Hv. destruct (_ && _); cbn in Hv; [|congruence]. repeat case_match; congruence.
Qed.

(** Components are short enough for their eight-byte lengths. *)
Lemma str_len_small s k : str_len s <= k → k < 2 ^ 64 → str_len s < 2 ^ 64.
Proof. lia. Qed.

Lemma evidence_components_short seen refs :
  evidence_ok seen refs = true →
  Forall (λ b, str_len b < 2 ^ 64)
    (concat ((λ e, [ev_event_id e; ev_field_path e; ev_value_hash e]) <$> refs)).
Proof.
  revert seen. induction refs as [|e refs IH]; intros seen He; [constructor|].
  cbn [evidence_ok] in He. breflect.
  unfold is_lowercase_uuidv7, valid_field_path, valid_hash in *. breflect.
  repeat apply Forall_cons_2; [..|by eapply IH]; eapply (str_len_small _ 256); (lia || done).
Qed.

Lemma fingerprint_components_short f :
  finding_ok f → Forall (λ b, str_len b < 2 ^ 64) (fingerprint_components f).
Proof.
  intros [Hw Hn Hc Hid Hd Hne Hb He Hh Hf]. apply is_identifier_len in Hw, Hn.
  unfold valid_detector in Hd. breflect. unfold fingerprint_components.
  apply Forall_app. split; [|by eapply evidence_components_short].
  repeat apply Forall_cons_2; [by destruct (sf_finding_type f)|by destruct (sf_severity f)
    |by destruct (sf_confidence f)|by destruct (sf_policy_decision f)|..|constructor];
    eapply (str_len_small _ 256); (lia || done).
Qed.

(** Two valid findings with one fingerprint are the same detection, or SHA-256
    has collided on their two inputs. *)
Lemma same_fingerprint f g :
  finding_ok f → finding_ok g → sf_fingerprint f = sf_fingerprint g →
  logically_equal f g = true
  ∨ (fingerprint_input f ≠ fingerprint_input g
     ∧ finding_sha256 (fingerprint_input f) = finding_sha256 (fingerprint_input g)).
Proof.
  intros Hf Hg He. destruct (decide (fingerprint_input f = fingerprint_input g)) as [Hi|Hi].
  - left. apply fingerprint_components_inj; [|done].
    apply components_inj; [by apply fingerprint_components_short..|].
    unfold fingerprint_input in Hi. by apply str_app_inj in Hi as [_ ?].
  - right. split; [done|]. change (fingerprint_for f = fingerprint_for g).
    by rewrite <- (fo_fingerprint f), <- (fo_fingerprint g).
Qed.

(** ** The invariant of the store *)

Definition in_scope (sc : string * string) (s : FindingStore) : list SecurityFinding :=
  filter (λ f, finding_scope f = sc) (fs_findings s).

Record store_ok (s : FindingStore) : Prop := {
  so_max : fs_max_updates s = fs_global_capacity s * MAX_STATUS_UPDATES_PER_FINDING;
  so_findings : Forall finding_ok (fs_findings s);
  so_total : len (fs_findings s) ≤ fs_global_capacity s;
  so_scope : ∀ sc, len (in_scope sc s) ≤ fs_scope_capacity s;
  so_by_id : ∀ id i, fs_by_id s !! id = Some i ↔ ∃ f, fs_findings s !! i = Some f ∧ sf_finding_id f = id;
  so_by_fp : ∀ w n fp id, fs_by_scope_fingerprint s !! (w, n, fp) = Some id ↔
    ∃ f, f ∈ fs_findings s ∧ finding_scope f = (w, n) ∧ sf_fingerprint f = fp ∧ sf_finding_id f = id;
  so_counts : ∀ sc, default 0 (fs_scope_counts s !! sc) = len (in_scope sc s);
  so_known : ∀ u, u ∈ fs_updates s → ∃ f, f ∈ fs_findings s ∧ sf_finding_id f = su_finding_id u
    ∧ su_actor_scope u = sf_workspace_id f +:+ "/" +:+ sf_namespace_id f ∧ su_actor_subject u ≠ EmptyString;
  so_legal : ∀ id, legal FOpen (history id (fs_updates s));
}.

Lemma with_quotas_ok scope_capacity global_capacity s :
  with_quotas scope_capacity global_capacity = Ok s →
  store_ok s ∧ fs_scope_capacity s = scope_capacity ∧ fs_global_capacity s = global_capacity
  ∧ fs_findings s = [] ∧ fs_updates s = [].
Proof.
  unfold with_quotas. case_match; [done|]. intros [= <-]. breflect.
  split; [|done]. split; cbn; try done.
  - unfold MAX_FINDINGS, MAX_STATUS_UPDATES_PER_FINDING, u64_max in *. lia.
  - unfold len. simpl. lia.
  - intros sc. unfold len. simpl. lia.
  - intros id i. rewrite lookup_empty, lookup_nil. naive_solver.
  - intros. rewrite lookup_empty. set_solver.
  - set_solver.
Qed.

Lemma in_scope_push sc f s :
  len (in_scope sc (push_finding f s))
  = len (in_scope sc s) + (if decide (finding_scope f = sc) then 1 else 0).
Proof.
  unfold in_scope, push_finding, len. cbn [fs_findings]. rewrite filter_app, filter_cons, filter_nil, length_app.
  case_decide; simpl; lia.
Qed.

Lemma by_id_absent s id :
  store_ok s → fs_by_id s !! id = None ↔ ∀ f, f ∈ fs_findings s → sf_finding_id f ≠ id.
Proof.
  intros Hs. split.
  - intros Hn f [i Hi]%list_elem_of_lookup Hid.
    assert (fs_by_id s !! id = Some i) as Hi'; [|congruence]. apply (so_by_id s Hs). eauto.
  - intros Hn. apply eq_None_not_Some. intros [i (f & Hi & Hid)%(so_by_id s Hs)].
    apply (Hn f); [by eapply list_elem_of_lookup_2|done].
Qed.

Lemma push_by_id f s id i :
  store_ok s → (∀ g, g ∈ fs_findings s → sf_finding_id g ≠ sf_finding_id f) →
  fs_by_id (push_finding f s) !! id = Some i
  ↔ ∃ g, fs_findings (push_finding f s) !! i = Some g ∧ sf_finding_id g = id.
Proof.
  intros Hs Habs.
  cbn [push_finding fs_by_id fs_findings].
  destruct (decide (id = sf_finding_id f)) as [->|Hne].
  - rewrite lookup_insert_eq. setoid_rewrite lookup_snoc_Some. split.
    + intros [= <-]. exists f. split; [by right|done].
    + intros (g & [[Hi Hg']|[-> ->]] & Hgid); [|done].
      by destruct (Habs g); [eapply list_elem_of_lookup_2|].
  - rewrite lookup_insert_ne, (so_by_id s Hs) by done. setoid_rewrite lookup_snoc_Some. split.
    + intros (g & Hi & Hgid). exists g. split; [left|done]. split; [by eapply lookup_lt_Some|done].
    + intros (g & [[Hi Hg']|[-> ->]] & Hgid); [by exists g|done].
Qed.

Lemma push_by_fp f s w n fp id :
  store_ok s →
  fs_by_scope_fingerprint s !! (sf_workspace_id f, sf_namespace_id f, sf_fingerprint f) = None →
  fs_by_scope_fingerprint (push_finding f s) !! (w, n, fp) = Some id
  ↔ ∃ g, g ∈ fs_findings (push_finding f s) ∧ finding_scope g = (w, n) ∧ sf_fingerprint g = fp
         ∧ sf_finding_id g = id.
Proof.
  intros Hs Hfp.
  cbn [push_finding fs_by_scope_fingerprint fs_findings].
  destruct (decide ((w, n, fp) = (sf_workspace_id f, sf_namespace_id f, sf_fingerprint f))) as [Heq|Hne].
  - injection Heq as -> -> ->. rewrite lookup_insert_eq. split.
    + intros [= <-]. exists f. split_and!; [set_solver|done..].
    + intros (g & [Hin|Hin%list_elem_of_singleton]%elem_of_app & Hgs & Hgf & Hgi); [|by subst].
      exfalso. apply (eq_None_not_Some _) in Hfp as []. exists id. apply (so_by_fp s Hs). eauto.
  - rewrite lookup_insert_ne, (so_by_fp s Hs) by done. split.
    + intros (g & Hin & ?). exists g. split; [set_solver|done].
    + intros (g & [Hin|Hin%list_elem_of_singleton]%elem_of_app & Hgs & Hgf & Hgi); [by exists g|].
      subst g.      unfold finding_scope in Hgs. naive_solver.
Qed.

Lemma push_finding_ok f s :
  store_ok s → finding_ok f → fs_by_id s !! sf_finding_id f = None →
  fs_by_scope_fingerprint s !! (sf_workspace_id f, sf_namespace_id f, sf_fingerprint f) = None →
  len (fs_findings s) < fs_global_capacity s →
  len (in_scope (finding_scope f) s) < fs_scope_capacity s → store_ok (push_finding f s).
Proof.
  intros Hs Hf Hid Hfp Hg Hsc. pose proof (proj1 (by_id_absent s _ Hs) Hid) as Habs.
  split.
  - apply (so_max s Hs).
  - apply Forall_app. split; [apply (so_findings s Hs)|by constructor].
  - unfold push_finding, len in *. cbn [fs_findings fs_global_capacity]. rewrite length_app. simpl. lia.
  - intros sc. rewrite in_scope_push. pose proof (so_scope s Hs sc).
    cbn [push_finding fs_scope_capacity]. case_decide; [subst|]; lia.
  - intros id i. by apply push_by_id.
  - intros w n fp id. by apply push_by_fp.
  - intros sc. rewrite in_scope_push. cbn [push_finding fs_scope_counts]. case_decide as Hd.
    + rewrite <- Hd, lookup_insert_eq. simpl. by rewrite (so_counts s Hs).
    + rewrite lookup_insert_ne, (so_counts s Hs) by done. lia.
  - intros u (g & Hin & ?)%(so_known s Hs). exists g. cbn [push_finding fs_findings]. split; [set_solver|done].
  - apply (so_legal s Hs).
Qed.

(** ** The operations on a store in its invariant *)

(** What [append] answers, branch by branch. *)
Lemma append_spec f s :
  store_ok s →
  let fresh := ∀ g, g ∈ fs_findings s → sf_finding_id g ≠ sf_finding_id f in
  let known g := g ∈ fs_findings s ∧ finding_scope g = finding_scope f ∧ sf_fingerprint g = sf_fingerprint f in
  (¬ finding_ok f ∧ append_finding f s = (Err FInvalidField, s))
  ∨ finding_ok f ∧
    ((∃ g, g ∈ fs_findings s ∧ sf_finding_id g = sf_finding_id f
           ∧ append_finding f s = (if decide (g = f) then Ok false else Err FDuplicateId, s))
     ∨ fresh ∧
       ((∃ g, known g
              ∧ append_finding f s = (if logically_equal g f then Ok false else Err FFingerprintConflict, s))
        ∨ (∀ g, ¬ known g) ∧
          if (fs_global_capacity s <=? len (fs_findings s))
             || (fs_scope_capacity s <=? len (in_scope (finding_scope f) s))
          then append_finding f s = (Err FCapacity, s)
          else append_finding f s = (Ok true, push_finding f s) ∧ store_ok (push_finding f s))).
Proof.
  intros Hs fresh known. unfold append_finding. destruct (validate_finding f) as [[]|e] eqn:Hv; cycle 1.
  { left. split; [|by rewrite (validate_finding_err f e Hv)].
    intros Hok%validate_finding_ok. congruence. }
  right. apply validate_finding_ok in Hv. split; [done|].
  destruct (fs_by_id s !! sf_finding_id f) as [i|] eqn:Hid.
  { left. pose proof Hid as (g & Hi & Hg)%(so_by_id s Hs). exists g.
    split_and!; [by eapply list_elem_of_lookup_2|done|]. rewrite Hi. by case_bool_decide; case_decide. }
  right. split; [exact (proj1 (by_id_absent s _ Hs) Hid)|].
  destruct (fs_by_scope_fingerprint s !! _) as [id|] eqn:Hfp.
  { left. pose proof Hfp as (g & [i Hi]%list_elem_of_lookup & Hsc & Hgf & Hgi)%(so_by_fp s Hs). exists g.
    split; [by split_and!; [eapply list_elem_of_lookup_2|..]|].
    rewrite (proj2 (so_by_id s Hs id i)) by eauto. cbn. by rewrite Hi. }
  right. split.
  { intros g (Hin & Hsc & Hgf). apply eq_None_not_Some in Hfp as []. exists (sf_finding_id g).
    apply (so_by_fp s Hs). exists g. by rewrite Hgf. }
  rewrite (so_counts s Hs). destruct (N.leb_spec (fs_global_capacity s) (len (fs_findings s))); [done|].
  destruct (N.leb_spec (fs_scope_capacity s) (len (in_scope (finding_scope f) s))); [done|].
  split; [done|]. by apply push_finding_ok.
Qed.

Lemma sum_with_slack (id : string) (names : list string) :
  id ∈ names →
  (sum_list ((λ n, if decide (n = id) then 2 else 3) <$> names) < 3 * length names)%nat.
Proof.
  assert (∀ l, sum_list ((λ n, if decide (n = id) then 2 else 3) <$> l) ≤ 3 * length l)%nat as Hle.
  { induction l as [|n l IH]; cbn; [done|]. case_decide; lia. }
  intros Hin. induction names as [|n l IH]; [by apply elem_of_nil in Hin|]. cbn. specialize (Hle l).
  apply elem_of_cons in Hin as [->|Hin]; [rewrite decide_True by done; lia|].
  specialize (IH Hin). case_decide; lia.
Qed.

(** A finding that can still move leaves room in the status history: the quota
    of three updates per finding is never what refuses a transition. *)
Lemma updates_have_room s id to :
  store_ok s → is_Some (fs_by_id s !! id) →
  allowed_transition (status_after FOpen (history id (fs_updates s))) to = true →
  len (fs_updates s) < fs_max_updates s.
Proof.
  intros Hs [i (f & Hi & Hf)%(so_by_id s Hs)] Ha%transition_lowers.
  assert (length (fs_updates s) < 3 * length (sf_finding_id <$> fs_findings s))%nat as Hlt.
  { eapply Nat.le_lt_trans; [apply (length_by_key su_finding_id (λ n, if decide (n = id) then 2 else 3)%nat)|].
    - intros u (g & Hin & <- & _)%(so_known s Hs). by apply list_elem_of_fmap_2.
    - intros n. pose proof (legal_rank _ _ (so_legal s Hs n)) as Hr. unfold history in *.
      cbn [rank] in Hr. case_decide; [subst n|]; lia.
    - apply sum_with_slack. rewrite <- Hf. apply list_elem_of_fmap_2. by eapply list_elem_of_lookup_2. }
  rewrite length_fmap in Hlt. pose proof (so_total s Hs). rewrite (so_max s Hs).
  unfold MAX_STATUS_UPDATES_PER_FINDING, len in *. lia.
Qed.

Definition scope_text (f : SecurityFinding) : string := sf_workspace_id f +:+ "/" +:+ sf_namespace_id f.

(** The three conditions on the statuses and the action. *)
Definition transition_allowed (current expected to : FindingStatus) (action : option ContainmentAction) : bool :=
  bool_decide (current = expected) && allowed_transition current to
  && negb (needs_action to && bool_decide (action = None)).

(** What [transition_internal] answers: the capacity of the history and the
    index of the finding are never what stops it. *)
Lemma transition_internal_spec env id expected to scope subject action s f :
  store_ok s → f ∈ fs_findings s → sf_finding_id f = id →
  let current := status_after FOpen (history id (fs_updates s)) in
  transition_internal env id expected to scope subject action s =
  if negb (String.eqb scope (scope_text f)) then (Err FScopeDenied, s)
  else if negb (transition_allowed current expected to action) then (Err FInvalidTransition, s)
  else match now_ms (fe_clock env) with
       | Err e => (Err e, s)
       | Ok now =>
           (Ok tt, set_updates (fs_updates s ++ [mkUpdate id current to action scope subject now]) s)
       end.
Proof.
  intros Hs [i Hi]%list_elem_of_lookup Hid current.
  assert (fs_by_id s !! id = Some i) as Hby by (apply (so_by_id s Hs); eauto).
  pose proof (proj1 (Forall_lookup _ _) (so_findings s Hs) i f Hi) as Hf.
  unfold transition_internal, validate_scope, current_status, scope_text. rewrite Hby. cbn. rewrite Hi. cbn.
  rewrite (fo_workspace f Hf), (fo_namespace f Hf). cbn. destruct (String.eqb scope _); [|done]. cbn.
  rewrite last_update_history. fold (status_after FOpen (history id (fs_updates s))). fold current.
  unfold transition_allowed. destruct (bool_decide (current = expected)); [|done]. cbn.
  destruct (allowed_transition current to) eqn:Ha; [|done]. cbn.
  destruct (needs_action to && bool_decide (action = None)); [done|]. cbn.
  rewrite (proj2 (N.leb_gt _ _)) by (eapply updates_have_room; eauto).
  by destruct (now_ms (fe_clock env)).
Qed.

Lemma transition_internal_unknown env id expected to scope subject action s :
  fs_by_id s !! id = None →
  transition_internal env id expected to scope subject action s = (Err FNotFound, s).
Proof. unfold transition_internal. by intros ->. Qed.

Lemma push_update_ok s f u :
  store_ok s → f ∈ fs_findings s → sf_finding_id f = su_finding_id u →
  su_actor_scope u = scope_text f → su_actor_subject u ≠ EmptyString →
  su_from u = status_after FOpen (history (su_finding_id u) (fs_updates s)) →
  allowed_transition (su_from u) (su_to u) = true →
  (needs_action (su_to u) = true → su_action u ≠ None) →
  store_ok (set_updates (fs_updates s ++ [u]) s).
Proof.
  intros Hs Hin Hid Hsc Hsub Hfrom Ha Hact. destruct Hs as [].
  split; cbn [set_updates fs_max_updates fs_global_capacity fs_findings fs_scope_capacity fs_by_id
    fs_by_scope_fingerprint fs_scope_counts fs_updates]; [done..| |].
  - intros v [Hv|Hv%list_elem_of_singleton]%elem_of_app; [by apply so_known0|]. subst v. by exists f.
  - intros id. unfold history. rewrite filter_app, filter_cons, filter_nil.
    case_decide as Hd; [|rewrite app_nil_r; apply so_legal0].
    subst id. apply legal_snoc; [apply so_legal0|done..].
Qed.

Lemma transition_internal_ok env id expected to scope subject action s :
  store_ok s → subject ≠ EmptyString →
  store_ok (transition_internal env id expected to scope subject action s).2
  ∧ (transition_internal env id expected to scope subject action s).1
    ∉ [Err FPanic; Err FCapacity; Err FInvalidField].
Proof.
  intros Hs Hsub. destruct (fs_by_id s !! id) as [i|] eqn:Hby.
  2:{ rewrite transition_internal_unknown by done. split; [done|]. set_solver. }
  pose proof Hby as (f & Hi & Hid)%(so_by_id s Hs).
  assert (f ∈ fs_findings s) as Hin by by eapply list_elem_of_lookup_2.
  rewrite (transition_internal_spec _ _ _ _ _ _ _ _ f) by done. cbn zeta.
  destruct (String.eqb_spec scope (scope_text f)) as [->|]; cbn; [|split; [done|set_solver]].
  destruct (transition_allowed _ _ _ _) eqn:Ht; cbn; [|split; [done|set_solver]].
  unfold now_ms. destruct (fe_clock env); cbn; [|split; [done|set_solver]].
  split; [|set_solver]. unfold transition_allowed in Ht. breflect.
  eapply push_update_ok; cbn; eauto. intros Hn Hnone. subst action. by rewrite Hn in *.
Qed.

(** ** Detections *)

(** The finding a detection makes, given its identifier and its time. *)
Definition detected (input : DetectionInput) (id : string) (now : N) : SecurityFinding :=
  let '(ft, severity, policy, detector) := signal_classification (di_signal input) in
  let f := mkFinding EmptyString ft severity Deterministic (di_workspace_id input) (di_namespace_id input)
    detector [mkEvidence (di_event_id input) (di_field_path input) (di_value_hash input)] policy EmptyString 0 in
  mkFinding id ft severity Deterministic (di_workspace_id input) (di_namespace_id input) detector
    (sf_evidence_refs f) policy (fingerprint_for f) now.

Definition valid_detection (input : DetectionInput) : bool :=
  is_identifier (di_workspace_id input) && is_identifier (di_namespace_id input)
  && is_lowercase_uuidv7 (di_event_id input) && valid_field_path (di_field_path input)
  && valid_hash (di_value_hash input).

Lemma detected_ok input id now :
  (∀ x, valid_hash (finding_sha256 x) = true) → valid_detection input = true →
  is_lowercase_uuidv7 id = true → finding_ok (detected input id now).
Proof.
  unfold valid_detection, detected. intros Hsha Hv Hid. rewrite !andb_true_iff in Hv.
  destruct Hv as [[[[Hw Hn] He] Hp] Hh].
  destruct (di_signal input); cbn; (split; cbn; [done..| |apply Hsha|done]);
    unfold evidence_ok; cbn; by rewrite He, Hp, Hh.
Qed.

(** What a detection answers on every branch. *)
Lemma detection_finding_spec env input :
  (∀ x, valid_hash (finding_sha256 x) = true) →
  (∀ e, fe_entropy env = Some e → String.length e = 16%nat) →
  detection_finding env input =
  if negb (valid_detection input) then Err FInvalidField
  else match fe_entropy env, fe_id_clock env, fe_clock env with
       | None, _, _ => Err FEntropyUnavailable
       | Some _, None, _ | Some _, Some _, None => Err FClockUnavailable
       | Some entropy, Some ms, Some now =>
           Ok (detected input (uuid7_text entropy (ms mod 2 ^ 64)) (now mod 2 ^ 64))
       end.
Proof.
  intros Hsha Hent. destruct (valid_detection input) eqn:Hv.
  - pose proof (detected_ok input) as Hok. unfold valid_detection in Hv. rewrite !andb_true_iff in Hv.
    destruct Hv as [[[[Hw Hn] He] Hp] Hh].
    assert (∀ s, valid_detector (signal_classification s).2 = true) as Hdet by by intros [].
    specialize (Hdet (di_signal input)).
    unfold detection_finding, evidence_new, new_finding, validate_scope, uuid7, now_ms, detected in *.
    destruct (signal_classification _) as [[[ft sev] pol] det]. cbn in Hdet. rewrite He, Hp, Hh. cbn.
    rewrite Hw, Hn. cbn. rewrite Hdet. cbn.
    destruct (fe_entropy env) as [entropy|]; [|done]. cbn. destruct (fe_id_clock env) as [ms|]; [|done]. cbn.
    destruct (fe_clock env) as [now|]; [|done]. cbn.
    match goal with |- context [validate_finding ?f] => rewrite (proj2 (validate_finding_ok f)) end; [done|].
    apply Hok; [done| |apply uuid7_text_ok; by apply Hent].
    unfold valid_detection. by rewrite Hw, Hn, He, Hp, Hh.
  - unfold detection_finding, evidence_new, new_finding, validate_scope, valid_detection in *.
    destruct (signal_classification _) as [[[ft sev] pol] det]. cbn.
    destruct (is_lowercase_uuidv7 _), (valid_field_path _), (valid_hash _), (is_identifier (di_workspace_id _)),
      (is_identifier (di_namespace_id _)); done.
Qed.

Lemma detected_logically_equal input id id' now now' g :
  logically_equal g (detected input id now) = logically_equal g (detected input id' now').
Proof. unfold detected. by destruct (di_signal input). Qed.

Lemma detected_same input id id' now now' :
  finding_scope (detected input id now) = finding_scope (detected input id' now')
  ∧ sf_fingerprint (detected input id now) = sf_fingerprint (detected input id' now').
Proof. unfold detected. by destruct (di_signal input). Qed.

(** One finding per scope and fingerprint. *)
Lemma fingerprint_unique s f g :
  store_ok s → f ∈ fs_findings s → g ∈ fs_findings s →
  finding_scope f = finding_scope g → sf_fingerprint f = sf_fingerprint g → f = g.
Proof.
  intros Hs [i Hi]%list_elem_of_lookup [j Hj]%list_elem_of_lookup Hsc Hfp.
  assert (∀ k h, fs_findings s !! k = Some h → fs_by_id s !! sf_finding_id h = Some k) as Hby.
  { intros k h Hk. apply (so_by_id s Hs). eauto. }
  assert (∀ k h, fs_findings s !! k = Some h →
    fs_by_scope_fingerprint s !! (finding_scope h, sf_fingerprint h) = Some (sf_finding_id h)) as Hkey.
  { intros k h Hk. apply (so_by_fp s Hs). exists h. split_and!; [by eapply list_elem_of_lookup_2|done..]. }
  pose proof (Hkey i f Hi) as Hf. rewrite Hsc, Hfp, (Hkey j g Hj) in Hf. injection Hf as Hid.
  apply Hby in Hi as Hi'. apply Hby in Hj as Hj'. rewrite Hid in Hj'. congruence.
Qed.

(** ** Runs of the store *)

Inductive FindingOp :=
  | OpAppend (f : SecurityFinding)
  | OpDetect (env : FindingEnv) (input : DetectionInput)
  | OpTransition (env : FindingEnv) (id : string) (expected to : FindingStatus) (caller : Caller)
      (scope : string) (action : option ContainmentAction)
  | OpReplay (env : FindingEnv) (u : FindingStatusUpdate).

Definition run_finding (op : FindingOp) (s : FindingStore) : result FindingErrorCode bool * FindingStore :=
  match op with
  | OpAppend f => append_finding f s
  | OpDetect env input => detect_and_record env input s
  | OpTransition env id expected to caller scope action =>
      let '(r, s') := transition env id expected to caller scope action s in ((λ _, true) <$> r, s')
  | OpReplay env u => let '(r, s') := transition_replayed env u s in ((λ _, true) <$> r, s')
  end.

Definition finding_run (ops : list FindingOp) (s : FindingStore) : FindingStore :=
  foldl (λ s op, (run_finding op s).2) s ops.

Lemma append_safe f s :
  store_ok s → store_ok (append_finding f s).2 ∧ (append_finding f s).1 ≠ Err FPanic
  ∧ fs_findings s `prefix_of` fs_findings (append_finding f s).2.
Proof.
  intros Hs. destruct (append_spec f s Hs)
    as [[_ ->]|[_ [(g & _ & _ & ->)|[_ [(g & _ & ->)|[_ Hr]]]]]]; [done|by case_decide|by case_match|].
  case_match; [by rewrite Hr|]. destruct Hr as [-> Hr]. split_and!; [done..|]. by exists [f].
Qed.

Lemma detect_safe env input s :
  store_ok s → store_ok (detect_and_record env input s).2
  ∧ (detection_finding env input ≠ Err FPanic → (detect_and_record env input s).1 ≠ Err FPanic).
Proof.
  intros Hs. unfold detect_and_record, mbind, st_bind, st_lift.
  destruct (detection_finding env input) as [f|e]; [|naive_solver].
  destruct (append_safe f s Hs) as (? & ? & _). done.
Qed.

Lemma new_finding_no_panic env f : new_finding env f ≠ Err FPanic.
Proof.
  unfold new_finding, validate_scope, uuid7, now_ms. intros Hp.
  destruct (_ && _); [|done]. cbn in Hp. case_match; [done|].
  destruct (fe_entropy env); [|done]. cbn in Hp. destruct (fe_id_clock env); [|done]. cbn in Hp.
  destruct (fe_clock env); [|done]. cbn in Hp.
  destruct (validate_finding _) as [|e] eqn:Hv; [done|]. apply validate_finding_err in Hv. by subst e.
Qed.

Lemma detection_no_panic env input : detection_finding env input ≠ Err FPanic.
Proof.
  unfold detection_finding, evidence_new. destruct (signal_classification _) as [[[ft sev] pol] det].
  case_match; [done|]. apply new_finding_no_panic.
Qed.

(** A transition is refused by its scope, or made in the name of the caller. *)
Lemma transition_cases env id expected to caller scope action s :
  transition env id expected to caller scope action s = (Err FScopeDenied, s)
  ∨ ∃ subject, ca_subject caller = Some subject ∧ subject ≠ EmptyString
      ∧ valid_actor_scope scope = true ∧ caller_allows_scope caller scope = true
      ∧ transition env id expected to caller scope action s
        = transition_internal env id expected to scope subject action s.
Proof.
  unfold transition, st_throw. destruct (valid_actor_scope scope); [|by left].
  destruct (ca_subject caller) as [[|c subject]|]; [by left| |by left].
  destruct (caller_allows_scope caller scope); [|by left]. right. by exists (String c subject).
Qed.

Lemma replay_cases env u s :
  transition_replayed env u s = (Err FScopeDenied, s)
  ∨ su_actor_subject u ≠ EmptyString
    ∧ transition_replayed env u s
      = transition_internal env (su_finding_id u) (su_from u) (su_to u) (su_actor_scope u)
          (su_actor_subject u) (su_action u) s.
Proof.
  unfold transition_replayed, st_throw. destruct (su_actor_subject u); [by left|].
  destruct (valid_actor_scope _); [by right|by left].
Qed.

Lemma run_finding_safe op s :
  store_ok s → store_ok (run_finding op s).2 ∧ (run_finding op s).1 ≠ Err FPanic.
Proof.
  intros Hs.
  assert (∀ env id expected to scope subject action, subject ≠ EmptyString →
    let '(r, s') := transition_internal env id expected to scope subject action s in
    store_ok s' ∧ (λ _, true) <$> r ≠ Err FPanic) as Hint.
  { intros env id expected to scope subject action Hne.
    destruct (transition_internal_ok env id expected to scope subject action s Hs Hne) as [Hok Hn].
    destruct (transition_internal _ _ _ _ _ _ _ s) as [[|e] s']; cbn in *; [done|]. split; [done|]. set_solver. }
  destruct op as [f|env input|env id expected to caller scope action|env u]; unfold run_finding.
  - by destruct (append_safe f s Hs) as (? & ? & _).
  - destruct (detect_safe env input s Hs) as [? Hp]. split; [done|]. apply Hp, detection_no_panic.
  - destruct (transition_cases env id expected to caller scope action s)
      as [->|(subject & _ & Hne & _ & _ & ->)]; [done|].
    specialize (Hint env id expected to scope subject action Hne). by destruct (transition_internal _ _ _ _ _ _ _ s).
  - destruct (replay_cases env u s) as [->|[Hne ->]]; [done|].
    specialize (Hint env (su_finding_id u) (su_from u) (su_to u) (su_actor_scope u) _ (su_action u) Hne).
    by destruct (transition_internal _ _ _ _ _ _ _ s).
Qed.

Lemma finding_run_ok ops s : store_ok s → store_ok (finding_run ops s).
Proof.
  revert s. induction ops as [|op ops IH]; intros s Hs; [done|]. apply IH. by apply run_finding_safe.
Qed.

Lemma identifier_bytes_plain c : is_identifier_byte c = true → is_ascii c = true ∧ is_control c = false.
Proof. by destruct c as [[] [] [] [] [] [] [] []]. Qed.

Lemma str_any_all p s : str_any p s = negb (str_all (λ c, negb (p c)) s).
Proof. induction s as [|c s IH]; cbn; [done|]. rewrite IH. by destruct (p c). Qed.

(** Every scope a finding can have passes [valid_actor_scope], its length
    permitting. *)
Lemma scope_text_valid f :
  finding_ok f → valid_actor_scope (scope_text f) = (str_len (scope_text f) <=? MAX_ACTOR_SCOPE_BYTES).
Proof.
  intros Hf. pose proof (fo_workspace f Hf) as Hw. pose proof (fo_namespace f Hf) as Hn.
  unfold valid_actor_scope, scope_text. rewrite (split_scope _ _ Hw). unfold validate_scope. rewrite Hw, Hn.
  rewrite str_any_all, !str_all_app.
  apply is_identifier_bytes in Hw as Hwb, Hn as Hnb.
  assert (∀ s, str_all is_identifier_byte s = true →
    str_all is_ascii s = true ∧ str_all (λ c, negb (is_control c)) s = true) as Hb.
  { intros s Hs. split; eapply str_all_impl; [|done| |done]; intros c Hc;
      apply identifier_bytes_plain in Hc as [? Hc]; [done|by rewrite Hc]. }
  destruct (Hb _ Hwb) as [-> ->], (Hb _ Hnb) as [-> ->]. cbn.
  assert (str_is_empty (sf_workspace_id f +:+ "/" +:+ sf_namespace_id f) = false) as ->.
  { apply is_identifier_len in Hw. by destruct (sf_workspace_id f). }
  cbn. rewrite !orb_false_r, N.ltb_antisym. by destruct (_ <=? _).
Qed.

(** C29. A finding's life is finite and nothing else bounds it.  After any
    sequence of detections, appends, transitions and replayed transitions on a
    new store, no operation panics on an index; the status updates of each
    finding form a chain of allowed transitions from [Open], three at most, and
    a finding in [Resolved] or [FalsePositive] accepts no further one; and an
    allowed transition that a caller of the finding's scope asks for from its
    current status is accepted (given the action containment needs and a
    clock): the update quota of three per finding, which all tenants share,
    never refuses it.  The scope has to fit [MAX_ACTOR_SCOPE_BYTES], though
    findings of longer scopes are recorded: those accept no transition. *)
Theorem finding_lifecycle (scope_capacity global_capacity : N) (s0 : FindingStore) (ops : list FindingOp) :
  with_quotas scope_capacity global_capacity = Ok s0 →
  let s := finding_run ops s0 in
  (∀ op, (run_finding op s).1 ≠ Err FPanic)
  ∧ (∀ id, legal FOpen (history id (fs_updates s)) ∧ (length (history id (fs_updates s)) ≤ 3)%nat)
  ∧ ∀ f current, f ∈ fs_findings s → current_status (sf_finding_id f) s = Ok current →
    ((current ∈ [FResolved; FFalsePositive] ∨ MAX_ACTOR_SCOPE_BYTES < str_len (scope_text f)) →
       ∀ env expected to caller scope action,
       ∃ e, transition env (sf_finding_id f) expected to caller scope action s = (Err e, s))
    ∧ (∀ env to caller action now,
         caller_allows_scope caller (scope_text f) = true → str_len (scope_text f) ≤ MAX_ACTOR_SCOPE_BYTES →
         allowed_transition current to = true → (needs_action to = true → action ≠ None) →
         fe_clock env = Some now →
         ∃ subject, ca_subject caller = Some subject ∧
           transition env (sf_finding_id f) current to caller (scope_text f) action s
           = (Ok tt, set_updates (fs_updates s
               ++ [mkUpdate (sf_finding_id f) current to action (scope_text f) subject (now mod 2 ^ 64)]) s)).
Proof.
  intros [Hs0 _]%with_quotas_ok s. pose proof (finding_run_ok ops s0 Hs0) as Hs. fold s in Hs.
  split_and!; [intros op; by apply run_finding_safe| |].
  { intros id. pose proof (so_legal s Hs id) as Hl. split; [done|].
    apply legal_rank in Hl. cbn [rank] in Hl. lia. }
  intros f current Hin Hcur. pose proof (proj1 (Forall_forall _ _) (so_findings s Hs) f Hin) as Hf.
  assert (current = status_after FOpen (history (sf_finding_id f) (fs_updates s))) as ->.
  { unfold current_status in Hcur. rewrite last_update_history in Hcur. by case_match; simplify_eq. }
  split.
  - intros Hterm env expected to caller scope action.
    destruct (transition_cases env (sf_finding_id f) expected to caller scope action s)
      as [->|(subject & _ & _ & Hscope & _ & ->)]; [eauto|].
    rewrite (transition_internal_spec _ _ _ _ _ _ _ _ f) by done. cbn zeta.
    destruct (String.eqb_spec scope (scope_text f)) as [->|]; cbn; [|eauto].
    rewrite scope_text_valid in Hscope by done. breflect. destruct Hterm as [Hterm|]; [|lia].
    unfold transition_allowed. destruct (allowed_transition _ to) eqn:Ha; [|rewrite andb_false_r; cbn; eauto].
    exfalso. apply transition_lowers in Ha.
    repeat (apply elem_of_cons in Hterm as [Hterm|Hterm]; [rewrite Hterm in Ha; cbn in Ha; lia|]). set_solver.
  - intros env to caller action now Hcall Hlen Ha Hact Hclock. unfold transition.
    rewrite scope_text_valid, (proj2 (N.leb_le _ _) Hlen), Hcall by done. cbn.
    unfold caller_allows_scope in Hcall. destruct (ca_subject caller) as [subject|]; cycle 1.
    { cbn in Hcall. by rewrite andb_false_r in Hcall. }
    exists subject. split; [done|]. cbn in Hcall. breflect. destruct (str_is_empty subject); [done|]. cbn.
    rewrite (transition_internal_spec _ _ _ _ _ _ _ _ f) by done. cbn zeta. rewrite String.eqb_refl. cbn.
    unfold transition_allowed. rewrite bool_decide_true, Ha by done. cbn.
    destruct (needs_action to && bool_decide (action = None)) eqn:Hna; cbn.
    { breflect. by destruct Hact. }
    by rewrite Hclock.
Qed.

Lemma detect_ok_known env input s b s1 :
  store_ok s → detect_and_record env input s = (Ok b, s1) →
  store_ok s1 ∧ ∃ f g, detection_finding env input = Ok f ∧ g ∈ fs_findings s1
    ∧ finding_scope g = finding_scope f ∧ sf_fingerprint g = sf_fingerprint f ∧ logically_equal g f = true.
Proof.
  unfold detect_and_record, mbind, st_bind, st_lift. intros Hs Hd.
  destruct (detection_finding env input) as [f|]; [|done].
  assert (∀ h, logically_equal h h = true) as Hrefl.
  { intros h. unfold logically_equal. by rewrite !bool_decide_true, !String.eqb_refl. }
  destruct (append_spec f s Hs)
    as [[_ Ha]|[Hf [(g & Hin & Hid & Ha)|[Hfresh [(g & (Hin & Hsc & Hfp) & Ha)|[Hnew Ha]]]]]].
  - congruence.
  - rewrite Ha in Hd. case_decide; [|done]. simplify_eq. split; [done|]. by exists f, f.
  - rewrite Ha in Hd. destruct (logically_equal g f) eqn:Hl; [|done]. injection Hd as <- <-. split; [done|]. by exists f, g.
  - case_match; [congruence|]. destruct Ha as [Ha Hok]. rewrite Ha in Hd. simplify_eq. split; [done|].
    exists f, f. split_and!; [done| |done..]. cbn. set_solver.
Qed.

(** Each security signal is recorded once.  When a signal has been
    recorded - as a new finding or as one already known - the same signal
    detected again, at any later time and with any fresh random identifier,
    is answered [Ok false] and the store is unchanged: no duplicate finding,
    no fingerprint conflict and no quota spent. *)
Theorem detection_recorded_once (scope_capacity global_capacity : N) (s0 s1 : FindingStore)
    (ops : list FindingOp) (env : FindingEnv) (input : DetectionInput) (b : bool)
    (entropy : string) (id_ms now : N) :
  (∀ x, valid_hash (finding_sha256 x) = true) →
  with_quotas scope_capacity global_capacity = Ok s0 →
  (∀ e, fe_entropy env = Some e → String.length e = 16%nat) →
  detect_and_record env input (finding_run ops s0) = (Ok b, s1) →
  String.length entropy = 16%nat →
  fs_by_id s1 !! uuid7_text entropy (id_ms mod 2 ^ 64) = None →
  detect_and_record (mkFindingEnv (Some entropy) (Some id_ms) (Some now)) input s1 = (Ok false, s1).
Proof.
  intros Hsha [Hs0 _]%with_quotas_ok Hent Hd Hlen Hfresh. pose proof (finding_run_ok ops s0 Hs0) as Hs.
  destruct (detect_ok_known _ _ _ _ _ Hs Hd) as (Hs1 & f & g & Hf & Hin & Hsc & Hfp & Hleq).
  rewrite detection_finding_spec in Hf by done. destruct (valid_detection input) eqn:Hv; [|done]. cbn in Hf.
  destruct (fe_entropy env) as [e|], (fe_id_clock env) as [ms|], (fe_clock env) as [now'|]; try done.
  injection Hf as <-.
  unfold detect_and_record, mbind, st_bind, st_lift. rewrite detection_finding_spec; [|done|cbn; congruence].
  rewrite Hv. cbn [negb fe_entropy fe_id_clock fe_clock].
  set (id := uuid7_text entropy _) in *. set (f' := detected input id _).
  assert (finding_ok f') as Hf' by by apply detected_ok, uuid7_text_ok.
  destruct (detected_same input (uuid7_text e (ms mod 2 ^ 64)) id (now' mod 2 ^ 64) (now mod 2 ^ 64)) as [Hsc' Hfp'].
  rewrite (detected_logically_equal _ _ id _ (now mod 2 ^ 64)) in Hleq. fold f' in Hsc', Hfp', Hleq.
  assert (sf_finding_id f' = id) as Hid by (unfold f', detected; by destruct (di_signal input)).
  destruct (append_spec f' s1 Hs1)
    as [[Hbad _]|[_ [(h & Hh & Hhid & _)|[_ [(h & (Hh & Hhs & Hhf) & ->)|[Hnew _]]]]]].
  - done.
  - exfalso. apply (proj1 (by_id_absent s1 id Hs1) Hfresh h Hh). by rewrite Hhid.
  - assert (h = g) as -> by (apply (fingerprint_unique s1); congruence). by rewrite Hleq.
  - exfalso. apply (Hnew g). split_and!; congruence.
Qed.

Lemma filter_ext_in {A} (P Q : A → Prop) `{!∀ x, Decision (P x), !∀ x, Decision (Q x)} (l : list A) :
  (∀ x, x ∈ l → P x ↔ Q x) → filter P l = filter Q l.
Proof.
  induction l as [|x l IH]; intros Hl; [done|]. rewrite !filter_cons.
  rewrite IH by (intros; apply Hl; set_solver). pose proof (Hl x (list_elem_of_here _ _)).
  repeat case_decide; tauto.
Qed.

(** The finding an update belongs to, as [updates_for_scope] looks it up. *)
Lemma update_finding s u :
  store_ok s → u ∈ fs_updates s →
  ∃ f, f ∈ fs_findings s ∧ su_actor_scope u = scope_text f
    ∧ (fs_by_id s !! su_finding_id u ≫= λ i, fs_findings s !! i) = Some f
    ∧ sf_finding_id f = su_finding_id u.
Proof.
  intros Hs (f & [i Hi]%list_elem_of_lookup & Hid & Hsc & _)%(so_known s Hs). exists f.
  split_and!; [by eapply list_elem_of_lookup_2|done| |done].
  rewrite (proj2 (so_by_id s Hs (su_finding_id u) i)) by eauto. done.
Qed.

Lemma scope_text_inj f w n :
  finding_ok f → is_identifier w = true → scope_text f = w +:+ "/" +:+ n ↔ finding_scope f = (w, n).
Proof.
  intros Hf Hw. unfold scope_text, finding_scope. split; [|by intros [= -> ->]].
  intros He. apply (f_equal (split_once "/")) in He.
  rewrite !split_scope in He by (done || apply (fo_workspace f Hf)). by injection He as -> ->.
Qed.

(** Recording a finding of another scope leaves the reads of this one alone. *)
Lemma push_other_scope s f caller w n :
  store_ok s → finding_scope f ≠ (w, n) → fs_by_id s !! sf_finding_id f = None →
  findings_for_scope caller w n (push_finding f s) = findings_for_scope caller w n s
  ∧ updates_for_scope caller w n (push_finding f s) = updates_for_scope caller w n s.
Proof.
  intros Hs Hne Hid. unfold findings_for_scope, updates_for_scope, validate_scope.
  destruct (_ && _); [|done]. cbn. destruct (caller_allows_scope _ _); [|done]. cbn. split; f_equal.
  - rewrite filter_app, filter_cons_False, filter_nil, app_nil_r; done.
  - apply filter_ext_in. intros u Hu. destruct (update_finding s u Hs Hu) as (g & _ & _ & Hg & Hgid).
    rewrite Hg. destruct (fs_by_id s !! su_finding_id u) as [i|] eqn:Hi; [|done]. cbn in Hg.
    rewrite lookup_insert_ne, Hi by congruence. cbn. by rewrite (lookup_app_l_Some _ _ _ g).
Qed.

(** Tenants are isolated in the finding store.  A caller reads a scope
    only if its credentials list that scope, and then exactly the findings of
    that scope and the updates of its findings, each made in the name of that
    scope; recording a finding of another scope changes neither; and a finding
    is refused for capacity only when the store is full or its own scope has
    used its own quota. *)
Theorem findings_isolated (scope_capacity global_capacity : N) (s0 : FindingStore) (ops : list FindingOp)
    (caller : Caller) (w n : string) :
  with_quotas scope_capacity global_capacity = Ok s0 →
  let s := finding_run ops s0 in
  (caller_allows_scope caller (w +:+ "/" +:+ n) = false →
     is_ok (findings_for_scope caller w n s) = false ∧ is_ok (updates_for_scope caller w n s) = false)
  ∧ (∀ fs, findings_for_scope caller w n s = Ok fs → ∀ f, f ∈ fs ↔ f ∈ fs_findings s ∧ finding_scope f = (w, n))
  ∧ (∀ us, updates_for_scope caller w n s = Ok us →
       ∀ u, u ∈ us ↔ u ∈ fs_updates s ∧ su_actor_scope u = w +:+ "/" +:+ n)
  ∧ (∀ f, finding_scope f ≠ (w, n) →
       findings_for_scope caller w n (append_finding f s).2 = findings_for_scope caller w n s
       ∧ updates_for_scope caller w n (append_finding f s).2 = updates_for_scope caller w n s)
  ∧ (∀ f, (append_finding f s).1 = Err FCapacity →
       fs_global_capacity s ≤ len (fs_findings s) ∨ fs_scope_capacity s ≤ len (in_scope (finding_scope f) s)).
Proof.
  intros [Hs0 _]%with_quotas_ok s. pose proof (finding_run_ok ops s0 Hs0) as Hs. fold s in Hs. split_and!.
  - intros Hc. unfold findings_for_scope, updates_for_scope, validate_scope. rewrite Hc.
    by destruct (_ && _).
  - unfold findings_for_scope, validate_scope. intros fs Hr f. destruct (_ && _); [|done]. cbn in Hr.
    destruct (caller_allows_scope _ _); [|done]. injection Hr as <-. rewrite list_elem_of_filter. naive_solver.
  - unfold updates_for_scope, validate_scope. intros us Hr u. destruct (is_identifier w) eqn:Hw; [|done].
    destruct (is_identifier n); [|done]. cbn in Hr. destruct (caller_allows_scope _ _); [|done].
    injection Hr as <-. rewrite list_elem_of_filter.
    assert (u ∈ fs_updates s → ∃ f, (fs_by_id s !! su_finding_id u ≫= λ i, fs_findings s !! i) = Some f
      ∧ (su_actor_scope u = w +:+ "/" +:+ n ↔ finding_scope f = (w, n))) as Hu.
    { intros Hu. destruct (update_finding s u Hs Hu) as (f & Hin & -> & Hf & _). exists f. split; [done|].
      apply scope_text_inj; [|done]. by apply (proj1 (Forall_forall _ _) (so_findings s Hs)). }
    split; [intros [Hx Hin]|intros [Hin Hx]]; destruct (Hu Hin) as (f & Hf & Hiff); rewrite Hf in *;
      cbn in *; tauto.
  - intros f Hne. destruct (append_spec f s Hs)
      as [[_ ->]|[_ [(g & _ & _ & ->)|[Hfresh [(g & _ & ->)|[_ Hr]]]]]]; [done..|].
    case_match; [by rewrite Hr|]. destruct Hr as [-> _]. apply push_other_scope; [done..|].
    by apply by_id_absent.
  - intros f Hcap. destruct (append_spec f s Hs)
      as [[_ Ha]|[_ [(g & _ & _ & Ha)|[_ [(g & _ & Ha)|[_ Hr]]]]]].
    1-3: rewrite Ha in Hcap; cbn in Hcap; by repeat case_match.
    case_match eqn:Hfull; [|by rewrite (proj1 Hr) in Hcap]. apply orb_true_iff in Hfull.
    rewrite !N.leb_le in Hfull. done.
Qed.
End laws.

(** ** Witnesses *)

Section demo.
(** A digest of 64 digits: the length of its input. *)
#[local] Instance demo_finding_digest : FindingDigest := λ x, hex_string (be_bytes 32 (str_len x)).

Lemma demo_digest_valid x : valid_hash (finding_sha256 x) = true.
Proof.
  unfold valid_hash, finding_sha256, demo_finding_digest. pose proof (be_bytes_length 32 (str_len x)) as Hl.
  generalize dependent (be_bytes 32 (str_len x)). intros b Hl. apply andb_true_iff. split.
  - apply N.eqb_eq. unfold str_len.
    assert (∀ b, String.length (hex_string b) = (2 * String.length b)%nat) as ->; [|lia].
    induction b0 as [|c b0 IH]; cbn; [done|]. rewrite IH. lia.
  - clear Hl. assert (∀ k, k < 16 → is_ascii_hexdigit (hex_digit k) && negb (in_range "A" "Z" (hex_digit k)) = true) as Hd.
    { intros k Hk. assert (k ∈ N.of_nat <$> seq 0 16) as Hin.
      { apply list_elem_of_fmap. exists (N.to_nat k). split; [lia|]. apply elem_of_seq. lia. }
      clear Hk. revert k Hin. apply (proj1 (Forall_forall _ _)). repeat constructor. }
    induction b as [|c b IH]; [done|]. cbn [hex_string str_all]. rewrite IH.
    pose proof (N_ascii_bounded c). rewrite !Hd by lia. done.
Qed.

Definition demo_finding_env : FindingEnv :=
  mkFindingEnv (Some "0123456789abcdef") (Some 1700000000000) (Some 1700000000001).
Definition demo_detection : DetectionInput :=
  mkDetection SigSecretExposure "acme" "prod" "01890a5d-ac96-774b-bcce-b302099a8057" "payload"
    "0000000000000000000000000000000000000000000000000000000000000000".
Definition demo_finding_caller : Caller := mkCaller true (Some "secops") (Some "agent") {["acme/prod"]}.

Definition demo_store : FindingStore := mkFindingStore 2 4 12 [] [] ∅ ∅ ∅.
Definition demo_found : SecurityFinding :=
  detected demo_detection (uuid7_text "0123456789abcdef" 1700000000000) 1700000000001.
#[local] Notation demo_recorded := (finding_run [OpDetect demo_finding_env demo_detection] demo_store).

Lemma demo_first : detect_and_record demo_finding_env demo_detection (finding_run [] demo_store) = (Ok true, demo_recorded).
Proof.
  rewrite (surjective_pairing (detect_and_record _ _ _)).
  assert ((detect_and_record demo_finding_env demo_detection (finding_run [] demo_store)).1 = Ok true) as ->
    by (vm_compute; reflexivity).
  unfold finding_run, foldl, run_finding. reflexivity.
Qed.
Lemma demo_findings : fs_findings demo_recorded = [demo_found].
Proof. vm_compute. reflexivity. Qed.
Lemma demo_second_fresh : fs_by_id demo_recorded !! uuid7_text "fedcba9876543210" (1700000000500 mod 2 ^ 64) = None.
Proof. vm_compute. reflexivity. Qed.
Lemma demo_open : current_status (sf_finding_id demo_found) demo_recorded = Ok FOpen.
Proof. vm_compute. reflexivity. Qed.

Lemma finding_lifecycle_witness :
  with_quotas 2 4 = Ok demo_store ∧ fs_findings demo_recorded = [demo_found]
  ∧ is_ok (transition demo_finding_env (sf_finding_id demo_found) FOpen FContained demo_finding_caller
      "acme/prod" (Some CAQuarantine) demo_recorded).1 = true.
Proof.
  split_and!; [done|apply demo_findings|].
  pose proof (finding_lifecycle 2 4 demo_store [OpDetect demo_finding_env demo_detection] eq_refl) as Hlife.
  cbv zeta in Hlife. destruct Hlife as (_ & _ & Hlife).
  destruct (Hlife demo_found FOpen) as [_ Hok]; [rewrite demo_findings; apply list_elem_of_here|apply demo_open|].
  change (scope_text demo_found) with "acme/prod" in Hok.
  destruct (Hok demo_finding_env FContained demo_finding_caller (Some CAQuarantine) 1700000000001)
    as (subject & _ & ->); done.
Defined.

Lemma detection_recorded_once_witness :
  with_quotas 2 4 = Ok demo_store
  ∧ detect_and_record demo_finding_env demo_detection demo_store = (Ok true, demo_recorded)
  ∧ detect_and_record (mkFindingEnv (Some "fedcba9876543210") (Some 1700000000500) (Some 1700000000501))
      demo_detection demo_recorded = (Ok false, demo_recorded).
Proof.
  split_and!; [done|apply demo_first|].
  apply (detection_recorded_once 2 4 demo_store demo_recorded [] demo_finding_env demo_detection true);
    [apply demo_digest_valid|done|by intros e [= <-]|apply demo_first|done|apply demo_second_fresh].
Defined.

Lemma findings_isolated_witness :
  with_quotas 2 4 = Ok demo_store
  ∧ ∀ fs, findings_for_scope demo_finding_caller "acme" "prod" demo_recorded = Ok fs →
      ∀ f, f ∈ fs ↔ f ∈ fs_findings demo_recorded ∧ finding_scope f = ("acme", "prod").
Proof.
  split; [done|].
  by destruct (findings_isolated 2 4 demo_store [OpDetect demo_finding_env demo_detection] demo_finding_caller
    "acme" "prod") as (_ & Hf & _).
Defined.
End demo.
