(* ===== verification/FindingJournal.v ===== *)
(** * The security finding journal

    [crates/apex-durability/src/persistence/journal.rs]: the finding store and
    its append-only journal of one JSON record per line.  The file is its bytes,
    and the bytes a failed write leaves in the [BufWriter] are kept beside it;
    the outcomes of the writes to come are a script.  The codec is the
    [LineCodec] interface of Journal.  The theorems are that a restart rebuilds
    the store up to the times of its updates, and what a failed [sync_data]
    does to a transition that is retried. *)
From Stdlib Require Import Ascii.
From S2P Require Import Prelude RustStr Journal Caller Findings FindingsLaws.

Open Scope N_scope.

Definition MAX_JOURNAL_LINE_BYTES : N := 1024 * 1024.
Definition MAX_JOURNAL_BYTES : N := 256 * 1024 * 1024.

Inductive JournalRecord :=
  | JFinding (f : SecurityFinding)
  | JStatus (u : FindingStatusUpdate).

Inductive FindingPersistenceError :=
  | FPIo | FPInvalidPath | FPOversizedJournal | FPMalformedRecord | FPStore (e : FindingErrorCode).

(** The outcome of the I/O of one [write_record]: [metadata()] fails; a write or
    the flush fails when [written] of the bytes to write have reached the file,
    and [kept] of the rest stay in the [BufWriter]; [sync_data] fails after all
    of them did; all succeeds. *)
Inductive JournalIo := JMetadataFails | JWriteFails (written kept : nat) | JSyncFails | JWriteOk.

Record FindingJournal := mkFindingJournal {
  fj_bytes : string;
  fj_buffer : string;
  fj_ios : list JournalIo;
  fj_store : FindingStore;
}.

Definition set_store (s : FindingStore) (j : FindingJournal) : FindingJournal :=
  mkFindingJournal (fj_bytes j) (fj_buffer j) (fj_ios j) s.

(** What follows the first [n] bytes. *)
Fixpoint str_drop (n : nat) (s : string) : string :=
  match n, s with
  | S n, String _ s => str_drop n s
  | _, _ => s
  end.

Section journal.
Context `{FindingDigest, LineCodec JournalRecord}.

(** ** Opening *)

(** The [match record] of [open]. *)
Definition replay_journal_record (now : option N) (r : JournalRecord) : ST FindingStore FindingErrorCode unit :=
  match r with
  | JFinding f => _ ← append_finding f; mret tt
  | JStatus u => transition_replayed (mkFindingEnv None None now) u
  end.

(** The loop of [open]: the store, and the length to cut the file to when its
    last line is torn; [clock i] is what [now_ms] reads at line [i]. *)
Fixpoint replay_lines (clock : nat → option N) (i : nat) (lines : list string) (good_bytes : N)
    (parsed_any : bool) (s : FindingStore) : result FindingPersistenceError (FindingStore * option N) :=
  match lines with
  | [] => Ok (s, None)
  | line :: rest =>
      let is_last_line := bool_decide (rest = []) in
      if negb (is_utf8 line) then Err FPIo
      else if str_is_empty line then
        if is_last_line then Ok (s, None) else Err FPMalformedRecord
      else
        let candidate_bytes := sat_add64 (sat_add64 good_bytes (str_len line)) 1 in
        if MAX_JOURNAL_BYTES <? candidate_bytes then Err FPOversizedJournal
        else if MAX_JOURNAL_LINE_BYTES <? str_len line then Err FPOversizedJournal
        else match decode_line line with
             | None => if is_last_line && parsed_any then Ok (s, Some good_bytes) else Err FPMalformedRecord
             | Some r =>
                 match replay_journal_record (clock i) r s with
                 | (Err e, _) => Err (FPStore e)
                 | (Ok _, s') => replay_lines clock (S i) rest candidate_bytes true s'
                 end
             end
  end.

(** [FindingJournal::open]; [path] is the verdict of the path and symlink
    checks, [truncates] the outcome of the truncation and [reopened] that of
    opening the writer. *)
Definition open_finding_journal (path : result FindingPersistenceError unit) (truncates : bool)
    (reopened : result FindingPersistenceError unit) (clock : nat → option N) (capacity : N)
    (disk : string) (ios : list JournalIo) : result FindingPersistenceError FindingJournal :=
  _ ← path;
  if MAX_JOURNAL_BYTES <? str_len disk then Err FPOversizedJournal
  else
    store ← map_err FPStore (with_quotas capacity MAX_FINDINGS);
    '(store, cut) ← replay_lines clock 0 (read_lines disk) 0 false store;
    bytes ← match cut with
            | None => Ok disk
            | Some good => if truncates then Ok (str_take (N.to_nat good) disk) else Err FPIo
            end;
    _ ← reopened;
    Ok (mkFindingJournal bytes EmptyString ios store).

(** ** Writing *)

(** [write_record]. *)
Definition write_record (r : JournalRecord) : ST FindingJournal FindingPersistenceError unit := λ j,
  let bytes := encode_line r in
  if MAX_JOURNAL_LINE_BYTES <? str_len bytes then (Err FPOversizedJournal, j)
  else
    let '(io, ios) := match fj_ios j with [] => (JWriteOk, []) | io :: ios => (io, ios) end in
    let stream := fj_buffer j +:+ bytes +:+ newline in
    let left bytes buffer := mkFindingJournal bytes buffer ios (fj_store j) in
    match io with
    | JMetadataFails => (Err FPIo, left (fj_bytes j) (fj_buffer j))
    | _ =>
        if MAX_JOURNAL_BYTES <? sat_add64 (str_len (fj_bytes j)) (sat_add64 (str_len bytes) 1)
        then (Err FPOversizedJournal, left (fj_bytes j) (fj_buffer j))
        else match io with
             | JWriteFails written kept =>
                 (Err FPIo, left (fj_bytes j +:+ str_take written stream)
                              (str_take kept (str_drop written stream)))
             | JSyncFails => (Err FPIo, left (fj_bytes j +:+ stream) EmptyString)
             | _ => (Ok tt, left (fj_bytes j +:+ stream) EmptyString)
             end
    end.

(** [append]: the store is put back when the record cannot be written. *)
Definition journal_append (f : SecurityFinding) : ST FindingJournal FindingPersistenceError bool := λ j,
  let before := fj_store j in
  match append_finding f (fj_store j) with
  | (Err e, s) => (Err (FPStore e), set_store s j)
  | (Ok false, s) => (Ok false, set_store s j)
  | (Ok true, s) =>
      match write_record (JFinding f) (set_store s j) with
      | (Err e, j') => (Err e, set_store before j')
      | (Ok _, j') => (Ok true, j')
      end
  end.

(** [record_detection]. *)
Definition record_detection (env : FindingEnv) (input : DetectionInput)
    : ST FindingJournal FindingPersistenceError bool :=
  finding ← st_lift (map_err FPStore (detection_finding env input));
  journal_append finding.

(** [transition]. *)
Definition journal_transition (env : FindingEnv) (finding_id : string) (expected to : FindingStatus)
    (caller : Caller) (actor_scope : string) (action : option ContainmentAction)
    : ST FindingJournal FindingPersistenceError unit := λ j,
  let before := fj_store j in
  match transition env finding_id expected to caller actor_scope action (fj_store j) with
  | (Err e, s) => (Err (FPStore e), set_store s j)
  | (Ok _, s) =>
      match last (fs_updates s) with
      | None => (Err FPMalformedRecord, set_store s j)
      | Some update =>
          match write_record (JStatus update) (set_store s j) with
          | (Err e, j') => (Err e, set_store before j')
          | (Ok _, j') => (Ok tt, j')
          end
      end
  end.
End journal.

(** ** Lemmas *)

(** What a restart does not keep: the times of the updates. *)
Definition erase (u : FindingStatusUpdate) : FindingStatusUpdate :=
  mkUpdate (su_finding_id u) (su_from u) (su_to u) (su_action u) (su_actor_scope u) (su_actor_subject u) 0.
Definition erase_times (s : FindingStore) : FindingStore := set_updates (erase <$> fs_updates s) s.

Lemma erase_times_eq s s' :
  erase_times s = erase_times s' →
  s' = set_updates (fs_updates s') s ∧ erase <$> fs_updates s = erase <$> fs_updates s'.
Proof. destruct s, s'. unfold erase_times, set_updates. cbn. by intros [= -> -> -> -> -> -> -> ->]. Qed.

Lemma erase_last id us us' :
  erase <$> us = erase <$> us' → su_to <$> last (history id us) = su_to <$> last (history id us').
Proof.
  assert (∀ us, erase <$> history id us = history id (erase <$> us)) as Hh.
  { induction us0 as [|u us0 IH]; [done|]. rewrite fmap_cons. unfold history in *. rewrite !filter_cons.
    cbn [erase su_finding_id]. case_decide; [rewrite fmap_cons|]; by rewrite IH. }
  intros He. assert (∀ us, su_to <$> last (history id us) = su_to <$> last (erase <$> history id us)) as Hl.
  { intros us0. rewrite fmap_last. by destruct (last _). }
  by rewrite Hl, (Hl us'), !Hh, He.
Qed.

Section laws.
Context `{FindingDigest}.

Lemma append_set_updates f us s :
  append_finding f (set_updates us s) = ((append_finding f s).1, set_updates us (append_finding f s).2).
Proof.
  unfold append_finding. cbn. destruct (validate_finding f); [|done]. destruct (fs_by_id s !! _); [done|].
  destruct (fs_by_scope_fingerprint s !! _); [done|]. by repeat case_match.
Qed.

Lemma append_refused f s : (append_finding f s).1 ≠ Ok true → (append_finding f s).2 = s.
Proof.
  unfold append_finding. destruct (validate_finding f); [|done]. destruct (fs_by_id s !! _); [done|].
  destruct (fs_by_scope_fingerprint s !! _); [done|]. by repeat case_match.
Qed.

Lemma append_updates f s : fs_updates (append_finding f s).2 = fs_updates s.
Proof.
  unfold append_finding. destruct (validate_finding f); [|done]. destruct (fs_by_id s !! _); [done|].
  destruct (fs_by_scope_fingerprint s !! _); [done|]. by repeat case_match.
Qed.

Lemma transition_internal_refused env id expected to scope subject action s e s1 :
  transition_internal env id expected to scope subject action s = (Err e, s1) → s1 = s.
Proof. unfold transition_internal. case_match; congruence. Qed.

Lemma current_status_erase id s us :
  erase <$> fs_updates s = erase <$> us → current_status id (set_updates us s) = current_status id s.
Proof.
  intros He. unfold current_status. cbn. destruct (fs_by_id s !! id); [|done]. f_equal.
  rewrite !last_update_history. apply (erase_last id) in He. destruct (last (history id us)),
    (last (history id (fs_updates s))); cbn in *; congruence.
Qed.

(** A transition and its replay at another time end in stores that differ only
    in times. *)
Lemma transition_internal_replay env env' id expected to scope subject action s s1 us :
  transition_internal env id expected to scope subject action s = (Ok tt, s1) →
  erase <$> fs_updates s = erase <$> us → is_Some (fe_clock env') →
  ∃ u u', s1 = set_updates (fs_updates s ++ [u]) s ∧ erase u = erase u'
    ∧ su_finding_id u = id ∧ su_from u = expected ∧ su_to u = to ∧ su_actor_scope u = scope
    ∧ su_actor_subject u = subject ∧ su_action u = action ∧ allowed_transition expected to = true
    ∧ transition_internal env' id expected to scope subject action (set_updates us s)
      = (Ok tt, set_updates (us ++ [u']) s).
Proof.
  intros Ht He [now' Hclock]. unfold transition_internal in *.
  rewrite (current_status_erase id s us He). cbn [fs_by_id fs_findings set_updates fs_max_updates fs_updates].
  assert (len us = len (fs_updates s)) as Hlen.
  { apply (f_equal length) in He. rewrite !length_fmap in He. unfold len. lia. }
  rewrite Hlen. destruct (fs_by_id s !! id); [|done]. cbn in *. destruct (fs_findings s !! n) as [f|]; [|done].
  cbn in *. destruct (validate_scope _ _); [|done]. cbn in *. destruct (negb (String.eqb _ _)); [done|].
  destruct (current_status id s) as [current|]; [|done]. cbn in *.
  destruct (decide (current = expected)) as [<-|Hne];
    [rewrite bool_decide_true in * by done|by rewrite bool_decide_false in * by done]. cbn in *.
  destruct (allowed_transition current to) eqn:Ha; [|done]. cbn in *.
  destruct (needs_action to && _); [done|]. destruct (_ <=? _); [done|].
  unfold now_ms in *. rewrite Hclock. destruct (fe_clock env) as [now|]; [|done]. cbn in *.
  injection Ht as <-. eexists _, _. split_and!; [done| |done..]. done.
Qed.

(** The same transition a second time. *)
Lemma transition_internal_twice env env' id expected to scope subject action s s1 us u :
  transition_internal env id expected to scope subject action s = (Ok tt, s1) →
  su_finding_id u = id → su_to u = to →
  (transition_internal env' id expected to scope subject action (set_updates (us ++ [u]) s)).1
  = Err FInvalidTransition.
Proof.
  intros Ht Hid Hto. unfold transition_internal in *.
  assert (is_Some (fs_by_id s !! id) → current_status id (set_updates (us ++ [u]) s) = Ok to) as Hcur.
  { intros [i Hi]. unfold current_status. cbn. rewrite Hi, last_update_history. unfold history.
    rewrite filter_app, filter_cons_True, filter_nil, last_snoc by done. cbn. by rewrite Hto. }
  cbn [fs_by_id fs_findings set_updates fs_max_updates fs_updates].
  destruct (fs_by_id s !! id); [|done]. rewrite Hcur by done. cbn in *.
  destruct (fs_findings s !! n) as [f|]; [|done]. cbn in *.
  destruct (validate_scope _ _); [|done]. cbn in *. destruct (negb (String.eqb _ _)); [done|].
  destruct (current_status id s) as [current|]; [|done]. cbn in *.
  destruct (decide (current = expected)) as [<-|Hne];
    [rewrite bool_decide_true in Ht by done|by rewrite bool_decide_false in Ht by done]. cbn in *.
  destruct (allowed_transition current to) eqn:Ha; [|done]. apply transition_lowers in Ha.
  rewrite bool_decide_false; [done|]. intros ->. lia.
Qed.

Context `{LineCodecLaws JournalRecord}.

(** Rust strings are UTF-8 and so is what [serde_json] writes, which is never
    empty. *)
Hypothesis encoded_text : ∀ r : JournalRecord, is_utf8 (encode_line r) = true ∧ encode_line r ≠ EmptyString.

Fixpoint replay_all (clock : nat → option N) (i : nat) (rs : list JournalRecord) (s : FindingStore)
    : result FindingErrorCode FindingStore :=
  match rs with
  | [] => Ok s
  | r :: rs =>
      match replay_journal_record (clock i) r s with
      | (Err e, _) => Err e
      | (Ok _, s') => replay_all clock (S i) rs s'
      end
  end.

Lemma replay_all_app clock i rs rs' s s' :
  replay_all clock i rs s = Ok s' →
  replay_all clock i (rs ++ rs') s = replay_all clock (i + length rs) rs' s'.
Proof.
  revert i s. induction rs as [|r rs IH]; intros i s Hr; cbn in *.
  - injection Hr as ->. by rewrite Nat.add_0_r.
  - destruct (replay_journal_record (clock i) r s) as [[[]|] s2]; [|done]. rewrite (IH _ _ Hr). f_equal. lia.
Qed.

Definition record_fits (r : JournalRecord) : Prop := str_len (encode_line r) ≤ MAX_JOURNAL_LINE_BYTES.

Lemma journal_record_bytes_len (r : JournalRecord) : str_len (record_bytes r) = str_len (encode_line r) + 1.
Proof. unfold record_bytes. by rewrite str_len_app. Qed.

(** Whole lines are replayed one after the other. *)
Lemma replay_lines_records clock i rs lines good any s :
  Forall record_fits rs → good + str_len (journal_bytes rs) ≤ MAX_JOURNAL_BYTES →
  replay_lines clock i ((encode_line <$> rs) ++ lines) good any s =
  match replay_all clock i rs s with
  | Err e => Err (FPStore e)
  | Ok s' => replay_lines clock (i + length rs) lines (good + str_len (journal_bytes rs))
               (any || negb (bool_decide (rs = []))) s'
  end.
Proof.
  intros Hfit. revert i good any s. induction Hfit as [|r rs Hr Hfit IH]; intros i good any s Hmax.
  { cbn. rewrite Nat.add_0_r, orb_false_r. by rewrite N.add_0_r. }
  assert (MAX_JOURNAL_BYTES < u64_max) as Hu by done.
  cbn [journal_bytes] in *. rewrite str_len_app, journal_record_bytes_len in *. destruct (encoded_text r) as [Hutf Hne].
  cbn [fmap list_fmap app replay_lines replay_all]. rewrite Hutf. cbn [negb].
  destruct (str_is_empty (encode_line r)) eqn:Hemp; [by destruct (encode_line r)|].
  assert (sat_add64 (sat_add64 good (str_len (encode_line r))) 1 = good + (str_len (encode_line r) + 1)) as ->.
  { unfold sat_add64. revert Hu Hmax. generalize MAX_JOURNAL_BYTES u64_max. lia. }
  rewrite (proj2 (N.ltb_ge _ _)) by lia. rewrite (proj2 (N.ltb_ge MAX_JOURNAL_LINE_BYTES _)) by done.
  rewrite decode_encode_line. destruct (replay_journal_record (clock i) r s) as [[[]|] s2]; [|done].
  rewrite IH by lia. destruct (replay_all clock (S i) rs s2); [|done].
  f_equal; [cbn [length]; lia|lia|]. by rewrite orb_true_r.
Qed.

(** The journal a store was written by. *)
Record journal_ok (cap : N) (rs : list JournalRecord) (j : FindingJournal) : Prop := {
  jo_buffer : fj_buffer j = EmptyString;
  jo_bytes : fj_bytes j = journal_bytes rs;
  jo_max : str_len (fj_bytes j) ≤ MAX_JOURNAL_BYTES;
  jo_fits : Forall record_fits rs;
  jo_replays : ∃ s0, with_quotas cap MAX_FINDINGS = Ok s0 ∧
    ∀ clock, (∀ i, is_Some (clock i)) →
    ∃ s, replay_all clock 0 rs s0 = Ok s ∧ erase_times s = erase_times (fj_store j);
}.

Lemma open_journal_ok cap rs j clock ios :
  journal_ok cap rs j → (∀ i, is_Some (clock i)) →
  ∃ j', open_finding_journal (Ok tt) true (Ok tt) clock cap (fj_bytes j) ios = Ok j'
    ∧ fj_bytes j' = fj_bytes j ∧ erase_times (fj_store j') = erase_times (fj_store j).
Proof.
  intros [Hbuf Hbytes Hmax Hfits (s0 & Hq & Hrep)] Hclock. destruct (Hrep clock Hclock) as (s & Hs & He).
  unfold open_finding_journal. cbn. rewrite (proj2 (N.ltb_ge _ _)) by done. rewrite Hq. cbn.
  rewrite Hbytes, <- (string_app_nil_r (journal_bytes rs)), read_lines_journal.
  rewrite replay_lines_records by (done || rewrite <- Hbytes; lia). rewrite Hs. cbn.
  eexists. split; [done|]. cbn. by rewrite string_app_nil_r.
Qed.

(** A failure that leaves nothing behind, in the file or in the buffer. *)
Definition clean_journal_io (io : JournalIo) : Prop :=
  match io with
  | JWriteFails written kept => written = 0%nat ∧ kept = 0%nat
  | JSyncFails => False
  | _ => True
  end.

Lemma write_record_spec r j res j' :
  fj_buffer j = EmptyString → Forall clean_journal_io (fj_ios j) → write_record r j = (res, j') →
  fj_store j' = fj_store j ∧ fj_buffer j' = EmptyString ∧ Forall clean_journal_io (fj_ios j')
  ∧ match res with
    | Err _ => fj_bytes j' = fj_bytes j
    | Ok _ => fj_bytes j' = fj_bytes j +:+ record_bytes r ∧ record_fits r
              ∧ str_len (fj_bytes j') ≤ MAX_JOURNAL_BYTES
    end.
Proof.
  intros Hbuf Hclean. unfold write_record, record_fits, record_bytes. rewrite Hbuf.
  destruct (N.ltb_spec MAX_JOURNAL_LINE_BYTES (str_len (encode_line r))) as [|Hfit];
    [by intros [= <- <-]|].
  assert (∃ io ios, match fj_ios j with [] => (JWriteOk, []) | io :: ios => (io, ios) end = (io, ios)
    ∧ clean_journal_io io ∧ Forall clean_journal_io ios) as (io & ios & -> & Hio & Hios).
  { destruct Hclean as [|io ios Hio Hios]; [by exists JWriteOk, []|by exists io, ios]. }
  change (EmptyString +:+ encode_line r +:+ newline) with (encode_line r +:+ newline).
  destruct (N.ltb_spec MAX_JOURNAL_BYTES (sat_add64 (str_len (fj_bytes j)) (sat_add64 (str_len (encode_line r)) 1)))
    as [|Hmax]; destruct io as [|written kept| |]; intros [= <- <-]; cbn; try done.
  - destruct Hio as [-> ->]. by rewrite string_app_nil_r.
  - split_and!; [done..|]. rewrite !str_len_app. change (str_len newline) with 1.
    assert (MAX_JOURNAL_BYTES < u64_max) as Hu by done. unfold sat_add64 in Hmax. revert Hu Hmax.
    generalize MAX_JOURNAL_BYTES u64_max. lia.
Qed.

(** Writing a record that replays keeps the journal in step with its store. *)
Lemma journal_write_ok cap rs j s r res j' :
  journal_ok cap rs j → Forall clean_journal_io (fj_ios j) →
  (∀ now us, is_Some now → erase <$> fs_updates (fj_store j) = erase <$> us →
     ∃ s', replay_journal_record now r (set_updates us (fj_store j)) = (Ok tt, s') ∧ erase_times s' = erase_times s) →
  write_record r (set_store s j) = (res, j') →
  Forall clean_journal_io (fj_ios j')
  ∧ match res with
    | Err _ => journal_ok cap rs (set_store (fj_store j) j')
    | Ok _ => journal_ok cap (rs ++ [r]) j'
    end.
Proof.
  intros [Hbuf Hbytes Hmax Hfits (s0 & Hq & Hrep)] Hclean Hr Hw.
  apply write_record_spec in Hw as (Hst & Hbuf' & Hios & Hres); [|done..]. split; [done|].
  destruct res as [[]|e].
  - destruct Hres as (Hb & Hfit & Hm). split; [done| |done| |].
    + rewrite Hb. cbn. rewrite Hbytes, journal_bytes_app. cbn. by rewrite string_app_nil_r.
    + apply Forall_app. split; [done|by constructor].
    + exists s0. split; [done|]. intros clock Hclock. destruct (Hrep clock Hclock) as (s1 & Hs1 & He).
      rewrite (replay_all_app _ _ _ _ _ _ Hs1). cbn. destruct (erase_times_eq _ _ (eq_sym He)) as [-> Hus].
      destruct (Hr (clock (length rs)) (fs_updates s1)) as (s2 & -> & He2); [done..|].
      exists s2. split; [done|]. by rewrite He2, Hst.
  - split; cbn; [done|by rewrite Hres|by rewrite Hres|done|eauto].
Qed.

(** ** Runs of the journal *)

Inductive JournalOp :=
  | JDetect (env : FindingEnv) (input : DetectionInput)
  | JTransition (env : FindingEnv) (id : string) (expected to : FindingStatus) (caller : Caller)
      (scope : string) (action : option ContainmentAction).

Definition run_journal_op (op : JournalOp) (j : FindingJournal) : FindingJournal :=
  match op with
  | JDetect env input => (record_detection env input j).2
  | JTransition env id expected to caller scope action =>
      (journal_transition env id expected to caller scope action j).2
  end.

Lemma append_journal_ok cap rs j f :
  journal_ok cap rs j → Forall clean_journal_io (fj_ios j) →
  Forall clean_journal_io (fj_ios (journal_append f j).2)
  ∧ ∃ rs', journal_ok cap rs' (journal_append f j).2.
Proof.
  intros Hj Hclean. unfold journal_append.
  destruct (append_finding f (fj_store j)) as [r s] eqn:Ha.
  pose proof (append_refused f (fj_store j)) as Hsame. rewrite Ha in Hsame. cbn in Hsame.
  destruct r as [[|]|e]; [|rewrite Hsame by done; destruct j; eauto..].
  destruct (write_record (JFinding f) (set_store s j)) as [res j'] eqn:Hw.
  eapply journal_write_ok in Hw as [Hios Hok]; [|done..|].
  - destruct res as [[]|e]; cbn; eauto.
  - intros now us Hnow He. cbn. unfold mbind, st_bind. rewrite append_set_updates, Ha. cbn.
    eexists. split; [done|].
    assert (fs_updates s = fs_updates (fj_store j)) as Hu.
    { pose proof (append_updates f (fj_store j)) as Hu. by rewrite Ha in Hu. }
    unfold erase_times, set_updates. cbn. by rewrite <- He, Hu.
Qed.

Lemma transition_journal_ok cap rs j env id expected to caller scope action :
  journal_ok cap rs j → Forall clean_journal_io (fj_ios j) →
  let j' := (journal_transition env id expected to caller scope action j).2 in
  Forall clean_journal_io (fj_ios j') ∧ ∃ rs', journal_ok cap rs' j'.
Proof.
  intros Hj Hclean. unfold journal_transition.
  destruct (transition_cases env id expected to caller scope action (fj_store j))
    as [->|(subject & _ & Hne & Hscope & _ & ->)]; [destruct j; cbn; eauto|].
  destruct (transition_internal _ _ _ _ _ _ _ _) as [[[]|e] s1] eqn:Ht; cycle 1.
  { apply transition_internal_refused in Ht as ->. destruct j; cbn; eauto. }
  destruct (transition_internal_replay env (mkFindingEnv None None (Some 0)) _ _ _ _ _ _ _ _ _ Ht eq_refl)
    as (u & _ & Hs1 & _ & Hid & Hfrom & Hto & Hsc & Hsub & Hact & _); [by eexists|].
  assert (last (fs_updates s1) = Some u) as -> by (rewrite Hs1; apply last_snoc).
  destruct (write_record (JStatus u) (set_store s1 j)) as [res j'] eqn:Hw.
  eapply journal_write_ok in Hw as [Hios Hok]; [|done..|].
  - destruct res as [[]|e]; cbn; eauto.
  - intros now us Hnow He. cbn. unfold transition_replayed. rewrite Hid, Hfrom, Hto, Hsc, Hsub, Hact, Hscope.
    destruct subject as [|c subject]; [done|]. cbn [str_is_empty orb negb].
    destruct (transition_internal_replay env (mkFindingEnv None None now) _ _ _ _ _ _ _ _ us Ht He)
      as (v & v' & Hv & Hvv & _ & _ & _ & _ & _ & _ & _ & ->); [done|].
    eexists. split; [done|]. rewrite Hv. unfold erase_times, set_updates. cbn.
    rewrite !fmap_app, He. change (erase <$> [v]) with [erase v]. by rewrite Hvv.
Qed.

Lemma run_journal_ok ops cap rs j :
  journal_ok cap rs j → Forall clean_journal_io (fj_ios j) →
  ∃ rs', journal_ok cap rs' (foldl (λ j op, run_journal_op op j) j ops).
Proof.
  revert rs j. induction ops as [|op ops IH]; intros rs j Hj Hclean; [by exists rs|]. cbn.
  assert (Forall clean_journal_io (fj_ios (run_journal_op op j))
    ∧ ∃ rs', journal_ok cap rs' (run_journal_op op j)) as [Hc (rs' & Hj')]; [|by eapply IH].
  destruct op as [env input|env id expected to caller scope action]; cbn.
  - unfold record_detection, mbind, st_bind, st_lift. destruct (detection_finding env input) as [f|e]; cbn;
      [by eapply append_journal_ok|eauto].
  - by eapply transition_journal_ok.
Qed.

Lemma open_empty_journal_ok clock cap ios j :
  open_finding_journal (Ok tt) true (Ok tt) clock cap EmptyString ios = Ok j →
  fj_ios j = ios ∧ journal_ok cap [] j.
Proof.
  unfold open_finding_journal. cbn. destruct (with_quotas cap MAX_FINDINGS) as [s0|] eqn:Hq; [|done]. cbn.
  intros [= <-]. split; [done|]. split; cbn; [done..|by constructor|]. eauto.
Qed.

(** A fragment of a record at the end of the file. *)
Lemma open_torn_journal cap rs j clock ios (r : JournalRecord) torn rest :
  journal_ok cap rs j → (∀ i, is_Some (clock i)) →
  encode_line r = torn +:+ rest → torn ≠ EmptyString → rest ≠ EmptyString →
  str_all is_ascii torn = true → record_fits r →
  str_len (fj_bytes j) + str_len (encode_line r) < MAX_JOURNAL_BYTES →
  let reopened := open_finding_journal (Ok tt) true (Ok tt) clock cap (fj_bytes j +:+ torn) ios in
  if bool_decide (rs = []) then reopened = Err FPMalformedRecord
  else ∃ j', reopened = Ok j' ∧ fj_bytes j' = fj_bytes j ∧ erase_times (fj_store j') = erase_times (fj_store j).
Proof.
  intros [Hbuf Hbytes Hmax Hfits (s0 & Hq & Hrep)] Hclock Henc Ht Hr Hascii Hfit Hroom reopened.
  destruct (Hrep clock Hclock) as (s & Hs & He).
  assert (str_len torn ≤ str_len (encode_line r)) as Hlen by (rewrite Henc, str_len_app; lia).
  pose proof (encode_line_no_nl r) as Hnl. rewrite Henc, str_all_app in Hnl. apply andb_true_iff in Hnl as [Hnl _].
  unfold reopened, open_finding_journal. cbn.
  rewrite (proj2 (N.ltb_ge _ _)) by (rewrite str_len_app; lia). rewrite Hq. cbn.
  rewrite Hbytes, read_lines_journal, replay_lines_records by (done || rewrite <- Hbytes; lia). rewrite Hs.
  assert (read_lines torn = [torn]) as ->.
  { unfold read_lines. rewrite split_nl_no_newline by done. by destruct torn. }
  cbn [replay_lines]. rewrite ascii_utf8 by done. cbn [negb]. destruct (str_is_empty torn) eqn:Hemp; [by destruct torn|].
  assert (MAX_JOURNAL_BYTES < u64_max) as Hu by done. rewrite <- Hbytes.
  rewrite (proj2 (N.ltb_ge _ _)).
  2:{ unfold sat_add64. revert Hu Hroom Hlen. generalize MAX_JOURNAL_BYTES u64_max. lia. }
  unfold record_fits in Hfit. rewrite (proj2 (N.ltb_ge _ _)) by lia.
  rewrite (decode_line_prefix r torn rest Henc Hr). rewrite (bool_decide_true ([] = [])) by done.
  cbn [orb andb]. case_bool_decide; [done|]. cbn. eexists. split; [done|]. cbn. split; [|done].
  rewrite N.add_0_l. unfold str_len. rewrite Nat2N.id, str_take_prefix by done. apply str_take_whole.
Qed.

(** The finding journal survives a restart.  From an empty journal,
    through any sequence of detections and transitions whose failed writes
    left nothing behind, reopening the file succeeds and rebuilds the same
    store - findings, indices, counts and status histories - except for the
    times of the status updates, which are those of the restart.  A crash in
    the middle of a further record, whatever it is, costs nothing: the torn
    line is cut off and the store is the same, unless that record was the
    first of the file, which is then refused as malformed. *)
Theorem finding_journal_restart (cap : N) (clock clock' : nat → option N) (ios ios' : list JournalIo)
    (ops : list JournalOp) (j0 : FindingJournal) :
  Forall clean_journal_io ios → (∀ i, is_Some (clock' i)) →
  open_finding_journal (Ok tt) true (Ok tt) clock cap EmptyString ios = Ok j0 →
  let j := foldl (λ j op, run_journal_op op j) j0 ops in
  (∃ j', open_finding_journal (Ok tt) true (Ok tt) clock' cap (fj_bytes j) ios' = Ok j'
     ∧ fj_bytes j' = fj_bytes j ∧ erase_times (fj_store j') = erase_times (fj_store j))
  ∧ ∀ (r : JournalRecord) (torn rest : string),
      encode_line r = torn +:+ rest → torn ≠ EmptyString → rest ≠ EmptyString →
      str_all is_ascii torn = true → record_fits r →
      str_len (fj_bytes j) + str_len (encode_line r) < MAX_JOURNAL_BYTES →
      if str_is_empty (fj_bytes j)
      then open_finding_journal (Ok tt) true (Ok tt) clock' cap torn ios' = Err FPMalformedRecord
      else ∃ j', open_finding_journal (Ok tt) true (Ok tt) clock' cap (fj_bytes j +:+ torn) ios' = Ok j'
        ∧ fj_bytes j' = fj_bytes j ∧ erase_times (fj_store j') = erase_times (fj_store j).
Proof.
  intros Hclean Hclock [Hios Hj0]%open_empty_journal_ok j.
  destruct (run_journal_ok ops cap [] j0 Hj0) as (rs & Hj); [by rewrite Hios|]. fold j in Hj. clearbody j.
  split; [by eapply open_journal_ok|]. intros r torn rest Henc Ht Hr Hascii Hfit Hroom.
  pose proof (open_torn_journal cap rs j clock' ios' r torn rest Hj Hclock Henc Ht Hr Hascii Hfit Hroom) as Hopen.
  cbn zeta in Hopen. rewrite (jo_bytes cap rs j Hj) in *. case_bool_decide as Hrs; [by subst rs|].
  assert (str_is_empty (journal_bytes rs) = false) as ->; [|done].
  destruct rs as [|r0 rs]; [done|]. destruct (encoded_text r0) as [_ Hne]. cbn [journal_bytes].
  unfold record_bytes. by destruct (encode_line r0).
Qed.

(** A transition that got as far as writing its record. *)
Lemma journal_transition_inv env id expected to caller scope action j res j' :
  journal_transition env id expected to caller scope action j = (res, j') → res ∈ [Ok tt; Err FPIo] →
  ∃ subject s1 u jw, subject ≠ EmptyString ∧ valid_actor_scope scope = true
    ∧ transition_internal env id expected to scope subject action (fj_store j) = (Ok tt, s1)
    ∧ ca_subject caller = Some subject ∧ last (fs_updates s1) = Some u
    ∧ write_record (JStatus u) (set_store s1 j) = (res, jw)
    ∧ j' = if is_ok res then jw else set_store (fj_store j) jw.
Proof.
  unfold journal_transition. intros Hj Hres.
  destruct (transition_cases env id expected to caller scope action (fj_store j))
    as [Ht|(subject & Hsub & Hne & Hscope & _ & Ht)]; rewrite Ht in Hj; [simplify_eq; set_solver|].
  destruct (transition_internal _ _ _ _ _ _ _ _) as [[[]|e] s1] eqn:Hti; [|simplify_eq; set_solver].
  destruct (last (fs_updates s1)) as [u|] eqn:Hu; [|simplify_eq; set_solver].
  destruct (write_record (JStatus u) (set_store s1 j)) as [[[]|e] jw] eqn:Hw;
    injection Hj as <- <-; by exists subject, s1, u, jw.
Qed.

Lemma write_record_lands r j res j' :
  fj_buffer j = EmptyString → write_record r j = (res, j') →
  (fj_ios j = [JSyncFails] ∧ res = Err FPIo) ∨ (fj_ios j = [] ∧ res = Ok tt) →
  j' = mkFindingJournal (fj_bytes j +:+ record_bytes r) EmptyString [] (fj_store j) ∧ record_fits r
  ∧ str_len (fj_bytes j +:+ record_bytes r) ≤ MAX_JOURNAL_BYTES.
Proof.
  intros Hbuf. unfold write_record, record_fits, record_bytes. rewrite Hbuf.
  change (EmptyString +:+ encode_line r +:+ newline) with (encode_line r +:+ newline).
  destruct (N.ltb_spec MAX_JOURNAL_LINE_BYTES (str_len (encode_line r))) as [|Hfit]; [naive_solver|].
  assert (MAX_JOURNAL_BYTES < u64_max) as Hu by done.
  rewrite !str_len_app. change (str_len newline) with 1.
  destruct (N.ltb_spec MAX_JOURNAL_BYTES (sat_add64 (str_len (fj_bytes j)) (sat_add64 (str_len (encode_line r)) 1)))
    as [|Hmax]; intros Hw [[Hios ->]|[Hios ->]]; rewrite Hios in Hw; simplify_eq; (split_and!; [done..|]);
    unfold sat_add64 in Hmax; revert Hu Hmax; generalize MAX_JOURNAL_BYTES u64_max; lia.
Qed.

(** The record of a transition carries its arguments. *)
Lemma transition_record env id expected to scope subject action s s1 u :
  transition_internal env id expected to scope subject action s = (Ok tt, s1) →
  last (fs_updates s1) = Some u → subject ≠ EmptyString → valid_actor_scope scope = true →
  su_finding_id u = id ∧ su_to u = to ∧
  ∀ now, replay_journal_record now (JStatus u)
         = transition_internal (mkFindingEnv None None now) id expected to scope subject action.
Proof.
  intros Ht Hu Hne Hscope.
  destruct (transition_internal_replay env (mkFindingEnv None None (Some 0)) _ _ _ _ _ _ _ _ _ Ht eq_refl)
    as (v & _ & -> & _ & Hid & Hfrom & Hto & Hsc & Hsub & Hact & _); [by eexists|].
  cbn in Hu. rewrite last_snoc in Hu. injection Hu as ->. split_and!; [done..|]. intros now.
  cbn. unfold transition_replayed. rewrite Hid, Hfrom, Hto, Hsc, Hsub, Hact, Hscope. by destruct subject.
Qed.

(** A failed [sync_data] can make the journal unreadable.  When the
    record of a transition reaches the file but the final [sync_data] fails,
    the transition is rolled back and reported as an I/O error while its
    record stays in the file; the caller's retry is accepted and writes the
    same transition again; from then on the journal cannot be opened, because
    the second record is replayed against a status that has already moved. *)
Theorem failed_sync_blocks_restart (cap : N) (clock clock' : nat → option N) (ios' : list JournalIo)
    (ops : list JournalOp) (j0 j2 j3 : FindingJournal) (env env' : FindingEnv) (id : string)
    (expected to : FindingStatus) (caller : Caller) (scope : string) (action : option ContainmentAction) :
  (∀ i, is_Some (clock' i)) →
  open_finding_journal (Ok tt) true (Ok tt) clock cap EmptyString [] = Ok j0 →
  let j := foldl (λ j op, run_journal_op op j) j0 ops in
  let j1 := mkFindingJournal (fj_bytes j) (fj_buffer j) [JSyncFails] (fj_store j) in
  journal_transition env id expected to caller scope action j1 = (Err FPIo, j2) →
  journal_transition env' id expected to caller scope action j2 = (Ok tt, j3) →
  fj_store j2 = fj_store j
  ∧ open_finding_journal (Ok tt) true (Ok tt) clock' cap (fj_bytes j3) ios' = Err (FPStore FInvalidTransition).
Proof.
  intros Hclock [Hios Hj0]%open_empty_journal_ok j j1 Ht1 Ht2.
  destruct (run_journal_ok ops cap [] j0 Hj0) as (rs & Hj); [by rewrite Hios|]. fold j in Hj. clearbody j.
  destruct Hj as [Hbuf Hbytes Hmax Hfits (s0 & Hq & Hrep)].
  apply journal_transition_inv in Ht1 as (subject & s1 & u & jw & Hne & Hscope & Hti & Hsub & Hu & Hw & Hj2);
    [|set_solver].
  apply write_record_lands in Hw as (Hjw & Hfu & _); [|done|by left]. cbn in Hj2. subst jw j2.
  apply journal_transition_inv in Ht2 as (subject' & s2 & u' & jw & _ & _ & Hti' & Hsub' & Hu' & Hw & Hj3);
    [|set_solver]. cbn in Hti'. assert (subject' = subject) as -> by congruence.
  apply write_record_lands in Hw as (Hjw & Hfu' & Hm); [|done|by right]. cbn in Hj3. subst jw j3.
  split; [done|]. cbn in Hm |- *. rewrite Hbytes in *.
  assert ((journal_bytes rs +:+ record_bytes (JStatus u)) +:+ record_bytes (JStatus u')
    = journal_bytes (rs ++ [JStatus u; JStatus u']) +:+ EmptyString) as Hall.
  { rewrite journal_bytes_app. cbn. by rewrite !string_app_nil_r, !string_app_assoc. }
  rewrite Hall in Hm |- *. unfold open_finding_journal. cbn.
  rewrite (proj2 (N.ltb_ge _ _)) by done. rewrite Hq. cbn. rewrite string_app_nil_r in Hm.
  rewrite read_lines_journal, replay_lines_records; [|by apply Forall_app; split; [|repeat constructor]|lia].
  destruct (Hrep clock' Hclock) as (s & Hs & He). rewrite (replay_all_app _ _ _ _ _ _ Hs). cbn [replay_all].
  destruct (erase_times_eq _ _ (eq_sym He)) as [Heq Hus]. clear Hs He. generalize dependent (fs_updates s).
  intros us -> Hus. cbn in Hti.
  destruct (transition_record _ _ _ _ _ _ _ _ _ _ Hti Hu Hne Hscope) as (_ & _ & ->).
  destruct (transition_record _ _ _ _ _ _ _ _ _ _ Hti' Hu' Hne Hscope) as (_ & _ & Hrec).
  destruct (transition_internal_replay env (mkFindingEnv None None (clock' (0 + length rs)%nat)) _ _ _ _ _ _ _ _
    _ Hti Hus) as (v & v' & _ & Hv & Hid & _ & Hto & _ & _ & _ & _ & ->); [apply Hclock|]. rewrite Hrec.
  pose proof (transition_internal_twice env (mkFindingEnv None None (clock' (S (0 + length rs)))) _ _ _ _ _ _ _ _
    us v' Hti) as Htwice.
  destruct (transition_internal _ _ _ _ _ _ _ (set_updates (us ++ [v']) _)) as [res s']; cbn in Htwice.
  rewrite Htwice; [done| |]; unfold erase in Hv; congruence.
Qed.
End laws.

(** ** Witnesses *)

Section demo.
#[local] Existing Instance demo_finding_digest.

(** Records as their strings and their numbers. *)
Definition all_types : list FindingType :=
  [FTTelemetryIntegrity; FTAgentTemplateNoncompliant; FTScopeIdentityDenied; FTUntrustedControlBoundary;
   FTSecretExposure; FTToolPolicyDenied; FTAuthAbuse; FTAdmissionAbuse; FTBacklogDegraded].
Definition all_severities : list FindingSeverity := [SevInfo; SevLow; SevMedium; SevHigh; SevCritical].
Definition all_confidences : list FindingConfidence := [Deterministic; Corroborated; Heuristic].
Definition all_statuses : list FindingStatus := [FOpen; FAcknowledged; FContained; FResolved; FFalsePositive].
Definition all_decisions : list PolicyDecision := [PDAllow; PDDeny; PDRequireApproval; PDContain].
Definition all_actions : list (option ContainmentAction) := [None; Some CAPause; Some CAQuarantine; Some CADisableTool].
Definition index_of {A} `{EqDecision A} (l : list A) (a : A) : N :=
  from_option (λ p, N.of_nat p.1) 0 (list_find (λ b, b = a) l).
Definition at_index {A} (l : list A) (n : N) : option A := l !! N.to_nat n.

Fixpoint flat_evidence (l : list EvidenceRef) : list string :=
  match l with [] => [] | mkEvidence a b c :: l => a :: b :: c :: flat_evidence l end.
Fixpoint read_evidence (l : list string) : list EvidenceRef :=
  match l with a :: b :: c :: l => mkEvidence a b c :: read_evidence l | _ => [] end.

Definition record_parts (r : JournalRecord) : list string * list N :=
  match r with
  | JFinding (mkFinding id t s c w n d es p fp ms) =>
      (id :: w :: n :: d :: fp :: flat_evidence es,
       [index_of all_types t; index_of all_severities s; index_of all_confidences c; index_of all_decisions p; ms])
  | JStatus (mkUpdate id from to a scope subject ms) =>
      ([id; scope; subject], [index_of all_statuses from; index_of all_statuses to; index_of all_actions a; ms])
  end.
Definition parts_record (p : list string * list N) : option JournalRecord :=
  match p with
  | (id :: w :: n :: d :: fp :: es, [t; s; c; p; ms]) =>
      t ← at_index all_types t; s ← at_index all_severities s; c ← at_index all_confidences c;
      p ← at_index all_decisions p; Some (JFinding (mkFinding id t s c w n d (read_evidence es) p fp ms))
  | ([id; scope; subject], [from; to; a; ms]) =>
      from ← at_index all_statuses from; to ← at_index all_statuses to; a ← at_index all_actions a;
      Some (JStatus (mkUpdate id from to a scope subject ms))
  | _ => None
  end.

Lemma parts_record_parts r : parts_record (record_parts r) = Some r.
Proof.
  assert (∀ es, read_evidence (flat_evidence es) = es) as He.
  { induction es as [|[] es IH]; cbn; [done|]. by rewrite IH. }
  destruct r as [[id [] [] [] w n d es [] fp ms]|[id [] [] [[]|] scope subject ms]]; cbn; by rewrite ?He.
Qed.

#[local] Instance JournalRecord_eq_dec : EqDecision JournalRecord.
Proof.
  refine (λ r r', cast_if (decide (record_parts r = record_parts r'))); [|congruence].
  apply (inj Some). rewrite <- !parts_record_parts. congruence.
Defined.
#[local] Instance JournalRecord_countable : Countable JournalRecord :=
  inj_countable record_parts parts_record parts_record_parts.
#[local] Instance finding_codec : LineCodec JournalRecord := bit_codec JournalRecord.
#[local] Instance finding_codec_laws : LineCodecLaws JournalRecord := bit_codec_laws JournalRecord.

Lemma demo_codec_text (r : JournalRecord) : is_utf8 (encode_line r) = true ∧ encode_line r ≠ EmptyString.
Proof.
  split; cbn; [apply ascii_utf8|]; by induction (encode r).
Qed.

#[local] Notation demo_ack := (journal_transition demo_finding_env (sf_finding_id demo_found) FOpen FAcknowledged
  demo_finding_caller "acme/prod" None).
#[local] Notation demo_ops := [JDetect demo_finding_env demo_detection].
Definition demo_journal : FindingJournal := mkFindingJournal EmptyString EmptyString []
  (mkFindingStore 2 MAX_FINDINGS 3000000 [] [] ∅ ∅ ∅).
Definition demo_clock (i : nat) : option N := Some 1700000900000.

Lemma finding_journal_restart_witness :
  open_finding_journal (Ok tt) true (Ok tt) demo_clock 2 EmptyString [] = Ok demo_journal
  ∧ let j := foldl (λ j op, run_journal_op op j) demo_journal demo_ops in
    fs_findings (fj_store j) = [demo_found]
    ∧ ∃ j', open_finding_journal (Ok tt) true (Ok tt) demo_clock 2 (fj_bytes j) [] = Ok j'
        ∧ erase_times (fj_store j') = erase_times (fj_store j).
Proof.
  split; [done|]. cbn zeta. split; [vm_compute; reflexivity|].
  destruct (finding_journal_restart demo_codec_text 2 demo_clock demo_clock [] [] demo_ops demo_journal)
    as [(j' & Hopen & _ & He) _]; [constructor|by eexists|done|].
  exists j'. exact (conj Hopen He).
Defined.

Lemma failed_sync_blocks_restart_witness :
  let j := foldl (λ j op, run_journal_op op j) demo_journal demo_ops in
  let j1 := mkFindingJournal (fj_bytes j) (fj_buffer j) [JSyncFails] (fj_store j) in
  let j2 := (demo_ack j1).2 in
  (demo_ack j1).1 = Err FPIo ∧ (demo_ack j2).1 = Ok tt
  ∧ open_finding_journal (Ok tt) true (Ok tt) demo_clock 2 (fj_bytes (demo_ack j2).2) [] = Err (FPStore FInvalidTransition).
Proof.
  intros j j1 j2.
  assert ((demo_ack j1).1 = Err FPIo) as H1 by (vm_compute; reflexivity).
  assert ((demo_ack j2).1 = Ok tt) as H2 by (vm_compute; reflexivity).
  split_and!; [done..|].
  eapply (failed_sync_blocks_restart demo_codec_text 2 demo_clock demo_clock [] demo_ops demo_journal j2
    (demo_ack j2).2 demo_finding_env demo_finding_env (sf_finding_id demo_found) FOpen FAcknowledged
    demo_finding_caller "acme/prod" None); [by eexists|done|..].
  - fold j. fold j1. unfold j2. rewrite <- H1. apply surjective_pairing.
  - rewrite <- H2. apply surjective_pairing.
Defined.
End demo.
