(* ===== verification/Idempotency.v ===== *)
(** * Idempotency stores

    [crates/apex-durability/src/idempotency]: the contract of [types.rs] as a
    type class with its laws over two tables - the fingerprints that are settled
    and the reservations that are held -, the in-memory store of [memory.rs] and
    the file store of [file.rs].  The file is its bytes and the outcomes of its
    appends and compactions are a script, as for the file outbox; the record
    codec is the [LineCodec] interface of Journal; clock readings are arguments.
    The path, symlink and lock checks of [open] are one verdict. *)
From S2P Require Import Prelude RustStr Time Journal Errors.

Open Scope N_scope.

Definition MAX_IN_MEMORY_IDEMPOTENCY : N := 1000000.
Definition MAX_IDEMPOTENCY_RECORD_BYTES : N := 4096.
Definition MAX_IDEMPOTENCY_FILE_BYTES : N := 256 * 1024 * 1024.

(** ** Data *)

Record IdempotencyKey := mkIdemKey {
  ik_workspace_id : string;
  ik_namespace_id : string;
  ik_event_id : string;
}.
#[global] Instance IdempotencyKey_eq_dec : EqDecision IdempotencyKey.
Proof. solve_decision. Defined.
#[global] Program Instance IdempotencyKey_countable : Countable IdempotencyKey :=
  inj_countable' (λ k, (ik_workspace_id k, ik_namespace_id k, ik_event_id k))
    (λ t, mkIdemKey t.1.1 t.1.2 t.2) _.
Next Obligation. by intros []. Qed.

(** [ReservationResult]; a reservation is its token. *)
Inductive ReservationResult := Reserved (token : N) | IdemDuplicate | IdemInProgress | IdemConflict.

(** [scope_capacity]. *)
Definition scope_capacity (capacity : N) : N := N.min capacity (N.max (capacity / 16) 2).

(** ** The contract *)

Class IdempotencyStore (S : Type) := {
  idem_readiness : string → string → bool → bool → bool → ST S GatewayErrorCode unit;
  reserve : IdempotencyKey → string → ST S GatewayErrorCode ReservationResult;
  commit : N → N → ST S GatewayErrorCode unit;
  abort : N → S → S;
  idem_maintain : N → N → ST S GatewayErrorCode unit;
}.

(** The reservation that holds a key. *)
Definition held_by (key : IdempotencyKey) (held : gmap N (IdempotencyKey * string)) : option string :=
  snd <$> (snd <$> list_find (λ p, p.1 = key) (map_to_list held).*2).

Class IdempotencyLaws (S : Type) `{IdempotencyStore S} := {
  settled : S → gmap IdempotencyKey string;
  held : S → gmap N (IdempotencyKey * string);
  idem_wf : S → Prop;

  (** A key is settled, held by one reservation, or neither. *)
  held_exclusive s token key hash : idem_wf s → held s !! token = Some (key, hash) →
    settled s !! key = None ∧ ∀ token' hash', held s !! token' = Some (key, hash') → token' = token;

  reserve_wf key hash s : idem_wf s → idem_wf (reserve key hash s).2;
  (** A key is answered from the settled fingerprints, then from the
      reservations; a new key is reserved under a new token, or refused. *)
  reserve_law key hash s : idem_wf s →
    let '(r, s') := reserve key hash s in
    settled s' = settled s ∧
    match settled s !! key, held_by key (held s) with
    | Some h, _ =>
        held s' = held s ∧ r = Ok (if String.eqb h hash then IdemDuplicate else IdemConflict)
    | None, Some h =>
        held s' = held s ∧ r = Ok (if String.eqb h hash then IdemInProgress else IdemConflict)
    | None, None =>
        (∃ e, r = Err e ∧ held s' = held s)
        ∨ (∃ token, r = Ok (Reserved token) ∧ held s !! token = None
                    ∧ held s' = <[token := (key, hash)]> (held s))
    end;

  commit_wf now token s : idem_wf s → idem_wf (commit now token s).2;
  commit_law now token s : idem_wf s →
    let '(r, s') := commit now token s in
    match r, held s !! token with
    | Ok _, Some (key, hash) => settled s' = <[key := hash]> (settled s) ∧ held s' = delete token (held s)
    | Ok _, None => False
    | Err _, _ => settled s' = settled s ∧ held s' = held s
    end;

  abort_wf token s : idem_wf s → idem_wf (abort token s);
  abort_law token s : idem_wf s →
    settled (abort token s) = settled s ∧ held (abort token s) = delete token (held s);

  (** A readiness check only looks. *)
  idem_readiness_law w n metadata_ok writable syncs s : (idem_readiness w n metadata_ok writable syncs s).2 = s;

  (** Retention only forgets. *)
  idem_maintain_wf now retention s : idem_wf s → idem_wf (idem_maintain now retention s).2;
  idem_maintain_law now retention s : idem_wf s →
    settled (idem_maintain now retention s).2 ⊆ settled s
    ∧ held (idem_maintain now retention s).2 = held s;
}.

(** ** The body both stores share *)

Definition in_key_scope (key key' : IdempotencyKey) : bool :=
  String.eqb (ik_workspace_id key') (ik_workspace_id key) && String.eqb (ik_namespace_id key') (ik_namespace_id key).

(** [scope_entries]: what a scope has settled and holds. *)
Definition scope_entries (key : IdempotencyKey) (committed : gmap IdempotencyKey string)
    (pending : gmap N (IdempotencyKey * string)) : N :=
  len (filter (λ k, in_key_scope key k) (map_to_list committed).*1)
  + len (filter (λ p, in_key_scope key p.1) (map_to_list pending).*2).

(** [reserve]: the answer, and whether the reservation is made. *)
Definition reserve_answer (capacity next_token : N) (committed : gmap IdempotencyKey string)
    (pending : gmap N (IdempotencyKey * string)) (key : IdempotencyKey) (hash : string)
    : result GatewayErrorCode ReservationResult :=
  match committed !! key with
  | Some existing => Ok (if String.eqb existing hash then IdemDuplicate else IdemConflict)
  | None =>
      match held_by key pending with
      | Some existing => Ok (if String.eqb existing hash then IdemInProgress else IdemConflict)
      | None =>
          if (scope_capacity capacity <=? scope_entries key committed pending)
             || (capacity <=? map_len committed + map_len pending)
          then Err GIdempotencyCapacity
          else if next_token =? u64_max then Err GIdempotencyCapacity
          else Ok (Reserved next_token)
      end
  end.

(** ** The in-memory store *)

Record InMemoryIdempotencyStore := mkMemIdem {
  mi_capacity : N;
  mi_next_token : N;
  mi_committed : gmap IdempotencyKey string;
  mi_pending : gmap N (IdempotencyKey * string);
}.

Definition mem_idem_new (capacity : N) : result GatewayErrorCode InMemoryIdempotencyStore :=
  if (capacity =? 0) || (MAX_IN_MEMORY_IDEMPOTENCY <? capacity) then Err GIdempotencyCapacity
  else Ok (mkMemIdem capacity 1 ∅ ∅).

Definition mem_reserve (key : IdempotencyKey) (hash : string)
    : ST InMemoryIdempotencyStore GatewayErrorCode ReservationResult := λ s,
  let r := reserve_answer (mi_capacity s) (mi_next_token s) (mi_committed s) (mi_pending s) key hash in
  (r, match r with
      | Ok (Reserved token) =>
          mkMemIdem (mi_capacity s) (mi_next_token s + 1) (mi_committed s)
            (<[token := (key, hash)]> (mi_pending s))
      | _ => s
      end).

Definition mem_commit (token : N) : ST InMemoryIdempotencyStore GatewayErrorCode unit := λ s,
  match mi_pending s !! token with
  | None => (Err GInternal, s)
  | Some (key, hash) =>
      (Ok tt, mkMemIdem (mi_capacity s) (mi_next_token s) (<[key := hash]> (mi_committed s))
                (delete token (mi_pending s)))
  end.

Definition mem_abort (token : N) (s : InMemoryIdempotencyStore) : InMemoryIdempotencyStore :=
  mkMemIdem (mi_capacity s) (mi_next_token s) (mi_committed s) (delete token (mi_pending s)).

(** The trait's defaults: readiness fails closed, retention does nothing. *)
#[global] Instance mem_idempotency : IdempotencyStore InMemoryIdempotencyStore := {
  idem_readiness _ _ _ _ _ := st_throw GInternal;
  reserve := mem_reserve;
  commit _ := mem_commit;
  abort := mem_abort;
  idem_maintain _ _ := mret tt;
}.

(** ** The file store *)

(** [IdempotencyRecord::Committed]. *)
Record IdempotencyRecord := mkIdemRecord {
  dr_key : IdempotencyKey;
  dr_payload_hash : string;
  dr_committed_at_millis : option N;
}.

Record FileIdempotencyStore := mkFileIdem {
  fi_open : bool;
  fi_bytes : string;
  fi_appends : list AppendIo;
  fi_compactions : list CompactIo;
  fi_capacity : N;
  fi_next_token : N;
  fi_committed : gmap IdempotencyKey string;
  fi_committed_at : gmap IdempotencyKey (option N);
  fi_pending : gmap N (IdempotencyKey * string);
}.

Section file.
Context `{LineCodec IdempotencyRecord}.

(** The body of the loop of [load]. *)
Definition load_idem_line (capacity : N) (line : string)
    (t : gmap IdempotencyKey string * gmap IdempotencyKey (option N))
    : result GatewayErrorCode (gmap IdempotencyKey string * gmap IdempotencyKey (option N)) :=
  let '(committed, committed_at) := t in
  if negb (is_utf8 line) then Err GInvalidIdempotencyConfiguration
  else if MAX_IDEMPOTENCY_RECORD_BYTES <? str_len line then Err GInvalidIdempotencyConfiguration
  else
    r ← ok_or (decode_line line) GInvalidIdempotencyConfiguration;
    let key := dr_key r in
    if negb (is_identifier (ik_workspace_id key)) || negb (is_identifier (ik_namespace_id key))
       || negb (is_lowercase_uuidv7 (ik_event_id key))
    then Err GInvalidIdempotencyConfiguration
    else
      committed' ← match committed !! key with
                   | Some existing =>
                       if String.eqb existing (dr_payload_hash r) then Ok committed else Err GIdempotencyConflict
                   | None => Ok (<[key := dr_payload_hash r]> committed)
                   end;
      if capacity <? map_len committed' then Err GIdempotencyCapacity
      else Ok (committed', <[key := dr_committed_at_millis r]> committed_at).

Fixpoint load_keys (capacity : N) (lines : list string)
    (t : gmap IdempotencyKey string * gmap IdempotencyKey (option N))
    : result GatewayErrorCode (gmap IdempotencyKey string * gmap IdempotencyKey (option N)) :=
  match lines with
  | [] => Ok t
  | line :: lines => t' ← load_idem_line capacity line t; load_keys capacity lines t'
  end.

(** [FileIdempotencyStore::open]. *)
Definition open_idempotency (path_ok : bool) (capacity : N) (disk : string) (appends : list AppendIo)
    (compactions : list CompactIo) : result GatewayErrorCode FileIdempotencyStore :=
  if (capacity =? 0) || (1000000 <? capacity) then Err GIdempotencyCapacity
  else if negb path_ok then Err GInvalidIdempotencyConfiguration
  else if MAX_IDEMPOTENCY_FILE_BYTES <? str_len disk then Err GInvalidIdempotencyConfiguration
  else
    '(committed, committed_at) ← load_keys capacity (read_lines disk) (∅, ∅);
    Ok (mkFileIdem true disk appends compactions capacity 1 committed committed_at ∅).

(** [append]. *)
Definition idem_append (r : IdempotencyRecord) : ST FileIdempotencyStore GatewayErrorCode unit := λ s,
  let encoded := record_bytes r in
  if MAX_IDEMPOTENCY_RECORD_BYTES <? str_len encoded then (Err GPayloadTooLarge, s)
  else if negb (fi_open s) then (Err GInvalidIdempotencyConfiguration, s)
  else
    let '(io, appends) := match fi_appends s with [] => (AppendOk, []) | io :: ios => (io, ios) end in
    let left bytes := mkFileIdem true bytes appends (fi_compactions s) (fi_capacity s) (fi_next_token s)
                        (fi_committed s) (fi_committed_at s) (fi_pending s) in
    let full := MAX_IDEMPOTENCY_FILE_BYTES <? sat_add64 (str_len (fi_bytes s)) (str_len encoded) in
    match io with
    | AppendMetadataFails => (Err GInvalidIdempotencyConfiguration, left (fi_bytes s))
    | AppendWriteFails n =>
        if full then (Err GIdempotencyCapacity, left (fi_bytes s))
        else (Err GInternal, left (fi_bytes s +:+ str_take n encoded))
    | AppendOk =>
        if full then (Err GIdempotencyCapacity, left (fi_bytes s))
        else (Ok tt, left (fi_bytes s +:+ encoded))
    end.

(** The records of [compact_journal], in the order of [map_to_list]. *)
Definition idem_records (s : FileIdempotencyStore) : list IdempotencyRecord :=
  (λ p, mkIdemRecord p.1 p.2 (mjoin (fi_committed_at s !! p.1))) <$> map_to_list (fi_committed s).

(** The loop that encodes them; [None] is its [IdempotencyCapacity]. *)
Fixpoint encode_keys (rs : list IdempotencyRecord) (encoded : string) : option string :=
  match rs with
  | [] => Some encoded
  | r :: rs =>
      if (MAX_IDEMPOTENCY_RECORD_BYTES <? str_len (record_bytes r))
         || (MAX_IDEMPOTENCY_FILE_BYTES <? sat_add64 (str_len encoded) (str_len (record_bytes r)))
      then None else encode_keys rs (encoded +:+ record_bytes r)
  end.

(** [compact_journal]. *)
Definition idem_compact : ST FileIdempotencyStore GatewayErrorCode unit := λ s,
  match encode_keys (idem_records s) EmptyString with
  | None => (Err GIdempotencyCapacity, s)
  | Some encoded =>
      let '(io, compactions) :=
        match fi_compactions s with [] => (CompactRenamed true, []) | io :: ios => (io, ios) end in
      let left opened bytes :=
        mkFileIdem opened bytes (fi_appends s) compactions (fi_capacity s) (fi_next_token s)
          (fi_committed s) (fi_committed_at s) (fi_pending s) in
      match io with
      | CompactTempFails => (Err GInternal, left (fi_open s) (fi_bytes s))
      | CompactRenameFails reopens =>
          if negb (fi_open s) then (Err GInvalidIdempotencyConfiguration, left false (fi_bytes s))
          else (Err (if reopens then GInternal else GInvalidIdempotencyConfiguration), left reopens (fi_bytes s))
      | CompactRenamed reopens =>
          if negb (fi_open s) then (Err GInvalidIdempotencyConfiguration, left false (fi_bytes s))
          else (if reopens then Ok tt else Err GInvalidIdempotencyConfiguration, left reopens encoded)
      end
  end.

(** [check_admission_readiness]; the last three arguments are the outcome of
    [metadata()], whether it shows a writable file, and that of [sync_data()]. *)
Definition file_idem_readiness (workspace_id namespace_id : string) (metadata_ok writable syncs : bool)
    : ST FileIdempotencyStore GatewayErrorCode unit := λ s,
  (if negb (is_identifier workspace_id) || negb (is_identifier namespace_id) then Err GScopeDenied
   else if (scope_capacity (fi_capacity s)
              <=? scope_entries (mkIdemKey workspace_id namespace_id EmptyString) (fi_committed s) (fi_pending s))
           || (fi_capacity s <=? map_len (fi_committed s) + map_len (fi_pending s))
           || (fi_next_token s =? u64_max)
   then Err GIdempotencyCapacity
   else if negb (fi_open s) || negb metadata_ok then Err GInternal
   else if negb writable || (MAX_IDEMPOTENCY_FILE_BYTES <=? str_len (fi_bytes s)) then Err GInternal
   else if syncs then Ok tt else Err GInternal, s).

Definition file_reserve (key : IdempotencyKey) (hash : string)
    : ST FileIdempotencyStore GatewayErrorCode ReservationResult := λ s,
  let r := reserve_answer (fi_capacity s) (fi_next_token s) (fi_committed s) (fi_pending s) key hash in
  (r, match r with
      | Ok (Reserved token) =>
          mkFileIdem (fi_open s) (fi_bytes s) (fi_appends s) (fi_compactions s) (fi_capacity s)
            (fi_next_token s + 1) (fi_committed s) (fi_committed_at s) (<[token := (key, hash)]> (fi_pending s))
      | _ => s
      end).

(** [commit]: the record is written before the reservation is released. *)
Definition file_commit (now token : N) : ST FileIdempotencyStore GatewayErrorCode unit := λ s,
  match fi_pending s !! token with
  | None => (Err GInternal, s)
  | Some (key, hash) =>
      match idem_append (mkIdemRecord key hash (Some now)) s with
      | (Err e, s') => (Err e, s')
      | (Ok _, s') =>
          (Ok tt, mkFileIdem (fi_open s') (fi_bytes s') (fi_appends s') (fi_compactions s') (fi_capacity s')
                    (fi_next_token s') (<[key := hash]> (fi_committed s'))
                    (<[key := Some now]> (fi_committed_at s')) (delete token (fi_pending s')))
      end
  end.

Definition file_abort (token : N) (s : FileIdempotencyStore) : FileIdempotencyStore :=
  mkFileIdem (fi_open s) (fi_bytes s) (fi_appends s) (fi_compactions s) (fi_capacity s) (fi_next_token s)
    (fi_committed s) (fi_committed_at s) (delete token (fi_pending s)).

Definition set_keys (committed : gmap IdempotencyKey string) (committed_at : gmap IdempotencyKey (option N))
    (s : FileIdempotencyStore) : FileIdempotencyStore :=
  mkFileIdem (fi_open s) (fi_bytes s) (fi_appends s) (fi_compactions s) (fi_capacity s) (fi_next_token s)
    committed committed_at (fi_pending s).

(** [maintain]: the expired keys are forgotten, and remembered again when the
    compaction fails. *)
Definition expired (cutoff : N) (committed_at : option N) : bool :=
  from_option (λ at_millis, at_millis <=? cutoff) false committed_at.
Definition file_idem_maintain (now retention : N) : ST FileIdempotencyStore GatewayErrorCode unit := λ s,
  let cutoff := now - retention in
  let keep k := negb (expired cutoff (mjoin (fi_committed_at s !! k))) in
  if bool_decide (filter (λ p, expired cutoff p.2 = true) (fi_committed_at s) = ∅) then (Ok tt, s)
  else
    let s1 := set_keys (filter (λ p, keep p.1 = true) (fi_committed s))
                (filter (λ p, keep p.1 = true ∨ fi_committed s !! p.1 = None) (fi_committed_at s)) s in
    match idem_compact s1 with
    | (Err e, s') => (Err e, set_keys (fi_committed s) (fi_committed_at s) s')
    | (Ok _, s') => (Ok tt, s')
    end.

#[global] Instance file_idempotency : IdempotencyStore FileIdempotencyStore := {
  idem_readiness := file_idem_readiness;
  reserve := file_reserve;
  commit := file_commit;
  abort := file_abort;
  idem_maintain := file_idem_maintain;
}.
End file.
