(* ===== verification/IdempotencyLaws.v ===== *)
(** * The idempotency stores meet their contract

    The invariant of both stores and their instances of [IdempotencyLaws]; the
    file store's journal, what a restart rebuilds from it, and what a torn line
    does to it. *)
From S2P Require Import Prelude RustStr Time Journal Errors Idempotency.

Open Scope N_scope.

(** ** Reservations *)

Lemma held_by_Some key m hash : held_by key m = Some hash → ∃ token, m !! token = Some (key, hash).
Proof.
  unfold held_by. destruct (list_find _ _) as [[i [k h]]|] eqn:Hf; [|done]. intros [= <-].
  apply list_find_Some in Hf as (Hi & Hk & _). cbn in Hk. subst k.
  apply list_elem_of_lookup_2, list_elem_of_fmap in Hi as ([t p] & Hp & Hin). cbn in Hp. subst p.
  exists t. by apply elem_of_map_to_list.
Qed.

Lemma held_by_None key m token hash : held_by key m = None → m !! token ≠ Some (key, hash).
Proof.
  unfold held_by. destruct (list_find _ _) as [p|] eqn:Hf; [done|]. intros _ Hm.
  apply list_find_None in Hf. rewrite Forall_forall in Hf. apply (Hf (key, hash)); [|done].
  apply list_elem_of_fmap. exists (token, (key, hash)). split; [done|]. by apply elem_of_map_to_list.
Qed.

Lemma held_by_unique key m token hash :
  (∀ t t' h h', m !! t = Some (key, h) → m !! t' = Some (key, h') → t = t') →
  m !! token = Some (key, hash) → held_by key m = Some hash.
Proof.
  intros Hu Hm. destruct (held_by key m) as [h|] eqn:Hh; [|by destruct (held_by_None _ _ token hash Hh)].
  apply held_by_Some in Hh as [t Ht]. rewrite (Hu _ _ _ _ Ht Hm) in Ht. congruence.
Qed.

(** The invariant of both stores. *)
Record tables_wf (next_token : N) (committed : gmap IdempotencyKey string)
    (pending : gmap N (IdempotencyKey * string)) : Prop := {
  tw_token t p : pending !! t = Some p → t < next_token;
  tw_settled t k h : pending !! t = Some (k, h) → committed !! k = None;
  tw_unique t t' k h h' : pending !! t = Some (k, h) → pending !! t' = Some (k, h') → t = t';
}.

Lemma tables_wf_empty n : tables_wf n ∅ ∅.
Proof. by split; intros *; rewrite lookup_empty. Qed.

Lemma tables_wf_forget n committed committed' pending :
  committed' ⊆ committed → tables_wf n committed pending → tables_wf n committed' pending.
Proof.
  intros Hsub [Ht Hs Hu]. split; [done| |done]. intros t k h Hp. eapply lookup_weaken_None; [by eapply Hs|done].
Qed.

Lemma tables_wf_abort n committed pending token :
  tables_wf n committed pending → tables_wf n committed (delete token pending).
Proof.
  intros [Ht Hs Hu]. split; intros *; rewrite ?lookup_delete_Some; [intros [? ?]..|]; [by eapply Ht|by eapply Hs|].
  intros [_ ?] [_ ?]. by eapply Hu.
Qed.

Lemma tables_wf_commit n committed pending token key hash :
  tables_wf n committed pending → pending !! token = Some (key, hash) →
  tables_wf n (<[key := hash]> committed) (delete token pending).
Proof.
  intros Hwf Hp. pose proof (tables_wf_abort _ _ _ token Hwf) as [Ht Hs Hu]. split; [done| |done].
  intros t k h Hk. rewrite lookup_insert_ne; [by eapply Hs|]. intros <-.
  apply lookup_delete_Some in Hk as [Hne Hk]. apply Hne. by eapply (tw_unique _ _ _ Hwf).
Qed.

Lemma tables_wf_reserve n committed pending key hash :
  tables_wf n committed pending → committed !! key = None → held_by key pending = None →
  pending !! n = None ∧ tables_wf (n + 1) committed (<[n := (key, hash)]> pending).
Proof.
  intros [Ht Hs Hu] Hc Hh.
  assert (pending !! n = None) as Hn.
  { apply eq_None_not_Some. intros [p Hp%Ht]. lia. }
  split; [done|]. split; intros *; rewrite ?lookup_insert_Some.
  - intros [[<- _]|[_ Hp%Ht]]; lia.
  - intros [[_ [= <- <-]]|[_ Hp]]; [done|by eapply Hs].
  - intros [[<- [= <- <-]]|[_ Hp]] [[<- Heq]|[_ Hp']]; [done| | |by eapply Hu].
    + by destruct (held_by_None _ _ t' h' Hh).
    + injection Heq as <- <-. by destruct (held_by_None _ _ t h Hh).
Qed.

(** What [reserve] answers. *)
Lemma reserve_answer_spec capacity n committed pending key hash :
  tables_wf n committed pending →
  match committed !! key, held_by key pending, reserve_answer capacity n committed pending key hash with
  | Some h, _, r => r = Ok (if String.eqb h hash then IdemDuplicate else IdemConflict)
  | None, Some h, r => r = Ok (if String.eqb h hash then IdemInProgress else IdemConflict)
  | None, None, Err _ => True
  | None, None, Ok r => r = Reserved n ∧ pending !! n = None
                        ∧ tables_wf (n + 1) committed (<[n := (key, hash)]> pending)
  end.
Proof.
  intros Hwf. unfold reserve_answer. destruct (committed !! key) eqn:Hc; [done|].
  destruct (held_by key pending) eqn:Hh; [done|]. destruct (_ || _); [done|]. destruct (n =? _); [done|].
  split; [done|]. by apply tables_wf_reserve.
Qed.

(** ** The in-memory store *)

#[global] Program Instance mem_idempotency_laws : IdempotencyLaws InMemoryIdempotencyStore := {
  settled := mi_committed;
  held := mi_pending;
  idem_wf s := tables_wf (mi_next_token s) (mi_committed s) (mi_pending s);
}.
Next Obligation.
  intros s token key hash [Ht Hs Hu] Hp. split; [by eapply Hs|]. intros. by eapply Hu.
Qed.
Next Obligation.
  intros key hash s Hwf. cbn. unfold mem_reserve. cbn.
  pose proof (reserve_answer_spec (mi_capacity s) _ _ _ key hash Hwf) as Hr.
  destruct (mi_committed s !! key), (held_by key (mi_pending s)), (reserve_answer _ _ _ _ _ _) as [[]|];
    repeat case_match; naive_solver.
Qed.
Next Obligation.
  intros key hash s Hwf. cbn. unfold mem_reserve.
  pose proof (reserve_answer_spec (mi_capacity s) _ _ _ key hash Hwf) as Hr.
  destruct (mi_committed s !! key); [rewrite Hr; by destruct (String.eqb _ _)|].
  destruct (held_by key (mi_pending s)); [rewrite Hr; by destruct (String.eqb _ _)|].
  destruct (reserve_answer _ _ _ _ _ _) as [r|e]; [|split; [done|left; eauto]].
  destruct Hr as (-> & Hn & _). cbn. split; [done|]. right. eauto.
Qed.
Next Obligation.
  intros now token s Hwf. cbn. unfold mem_commit. destruct (mi_pending s !! token) as [[key hash]|] eqn:Hp; [|done].
  by apply tables_wf_commit.
Qed.
Next Obligation.
  intros now token s Hwf. cbn. unfold mem_commit. by destruct (mi_pending s !! token) as [[key hash]|].
Qed.
Next Obligation. intros token s Hwf. by apply tables_wf_abort. Qed.
Next Obligation. done. Qed.
Next Obligation. done. Qed.
Next Obligation. done. Qed.
Next Obligation. done. Qed.

(** ** The file store *)

Section file.
Context `{LineCodec IdempotencyRecord}.

Definition file_tables_wf (s : FileIdempotencyStore) : Prop :=
  tables_wf (fi_next_token s) (fi_committed s) (fi_pending s).

(** What no write changes. *)
Lemma idem_append_tables r s res s' :
  idem_append r s = (res, s') →
  fi_capacity s' = fi_capacity s ∧ fi_next_token s' = fi_next_token s ∧ fi_committed s' = fi_committed s
  ∧ fi_committed_at s' = fi_committed_at s ∧ fi_pending s' = fi_pending s.
Proof. unfold idem_append. repeat case_match; by intros [= <- <-]. Qed.

Lemma idem_compact_tables s res s' :
  idem_compact s = (res, s') →
  fi_capacity s' = fi_capacity s ∧ fi_next_token s' = fi_next_token s ∧ fi_committed s' = fi_committed s
  ∧ fi_committed_at s' = fi_committed_at s ∧ fi_pending s' = fi_pending s.
Proof. unfold idem_compact. repeat case_match; by intros [= <- <-]. Qed.

Lemma file_idem_maintain_tables now retention s res s' :
  file_idem_maintain now retention s = (res, s') →
  fi_next_token s' = fi_next_token s ∧ fi_committed s' ⊆ fi_committed s ∧ fi_pending s' = fi_pending s.
Proof.
  unfold file_idem_maintain. case_match; [by intros [= <- <-]|].
  destruct (idem_compact _) as [[[]|e] s1] eqn:Hc; apply idem_compact_tables in Hc as (_ & Hn & Hk & _ & Hp);
    intros [= <- <-]; cbn in *; [|done]. rewrite Hn, Hk, Hp. split_and!; [done| |done]. apply map_filter_subseteq.
Qed.

#[global] Program Instance file_idempotency_laws : IdempotencyLaws FileIdempotencyStore := {
  settled := fi_committed;
  held := fi_pending;
  idem_wf := file_tables_wf;
}.
Next Obligation.
  intros s token key hash [Ht Hs Hu] Hp. split; [by eapply Hs|]. intros. by eapply Hu.
Qed.
Next Obligation.
  intros key hash s Hwf. cbn. unfold file_reserve. cbn.
  pose proof (reserve_answer_spec (fi_capacity s) _ _ _ key hash Hwf) as Hr.
  destruct (fi_committed s !! key), (held_by key (fi_pending s)), (reserve_answer _ _ _ _ _ _) as [[]|];
    repeat case_match; naive_solver.
Qed.
Next Obligation.
  intros key hash s Hwf. cbn. unfold file_reserve.
  pose proof (reserve_answer_spec (fi_capacity s) _ _ _ key hash Hwf) as Hr.
  destruct (fi_committed s !! key); [rewrite Hr; by destruct (String.eqb _ _)|].
  destruct (held_by key (fi_pending s)); [rewrite Hr; by destruct (String.eqb _ _)|].
  destruct (reserve_answer _ _ _ _ _ _) as [r|e]; [|split; [done|left; eauto]].
  destruct Hr as (-> & Hn & _). cbn. split; [done|]. right. eauto.
Qed.
Next Obligation.
  intros now token s Hwf. cbn. unfold file_commit. destruct (fi_pending s !! token) as [[key hash]|] eqn:Hp; [|done].
  destruct (idem_append _ s) as [[[]|e] s'] eqn:Ha; apply idem_append_tables in Ha as (_ & Hn & Hk & _ & Hq);
    unfold file_tables_wf; cbn; rewrite Hn, Hk, Hq; [by apply tables_wf_commit|done].
Qed.
Next Obligation.
  intros now token s Hwf. cbn. unfold file_commit. destruct (fi_pending s !! token) as [[key hash]|] eqn:Hp; [|done].
  destruct (idem_append _ s) as [[[]|e] s'] eqn:Ha; apply idem_append_tables in Ha as (_ & Hn & Hk & _ & Hq);
    cbn; by rewrite Hk, Hq.
Qed.
Next Obligation. intros token s Hwf. by apply tables_wf_abort. Qed.
Next Obligation. done. Qed.
Next Obligation. done. Qed.
Next Obligation.
  intros now retention s Hwf. cbn. destruct (file_idem_maintain now retention s) as [res s'] eqn:Hm.
  apply file_idem_maintain_tables in Hm as (Hn & Hk & Hp). unfold file_tables_wf. cbn. rewrite Hn, Hp.
  by eapply tables_wf_forget.
Qed.
Next Obligation.
  intros now retention s Hwf. cbn. destruct (file_idem_maintain now retention s) as [res s'] eqn:Hm.
  by apply file_idem_maintain_tables in Hm as (_ & ? & ?).
Qed.
End file.

(** ** The journal *)

Definition valid_key (key : IdempotencyKey) : bool :=
  is_identifier (ik_workspace_id key) && is_identifier (ik_namespace_id key)
  && is_lowercase_uuidv7 (ik_event_id key).

(** The tables a list of records files. *)
Definition file_key (t : gmap IdempotencyKey string * gmap IdempotencyKey (option N)) (r : IdempotencyRecord)
    : gmap IdempotencyKey string * gmap IdempotencyKey (option N) :=
  (<[dr_key r := dr_payload_hash r]> t.1, <[dr_key r := dr_committed_at_millis r]> t.2).
Definition file_keys (rs : list IdempotencyRecord)
    (t : gmap IdempotencyKey string * gmap IdempotencyKey (option N))
    : gmap IdempotencyKey string * gmap IdempotencyKey (option N) := foldl file_key t rs.

Lemma file_keys_cons r rs t : file_keys (r :: rs) t = file_keys rs (file_key t r).
Proof. done. Qed.

Lemma file_keys_other rs t k :
  k ∉ dr_key <$> rs → (file_keys rs t).1 !! k = t.1 !! k ∧ (file_keys rs t).2 !! k = t.2 !! k.
Proof.
  revert t. induction rs as [|r rs IH]; intros t Hk; [done|]. rewrite fmap_cons, not_elem_of_cons in Hk.
  destruct Hk as [Hne Hk]. rewrite file_keys_cons, (proj1 (IH _ Hk)), (proj2 (IH _ Hk)). cbn.
  by rewrite !lookup_insert_ne.
Qed.

Lemma file_keys_lookup rs t r :
  NoDup (dr_key <$> rs) → r ∈ rs →
  (file_keys rs t).1 !! dr_key r = Some (dr_payload_hash r)
  ∧ (file_keys rs t).2 !! dr_key r = Some (dr_committed_at_millis r).
Proof.
  revert t. induction rs as [|r0 rs IH]; intros t Hnd Hin; [by apply elem_of_nil in Hin|].
  rewrite fmap_cons in Hnd. apply NoDup_cons in Hnd as [Hn Hnd].
  rewrite file_keys_cons. apply elem_of_cons in Hin as [->|Hin]; [|by apply IH].
  destruct (file_keys_other rs (file_key t r0) _ Hn) as [-> ->]. cbn. by rewrite !lookup_insert_eq.
Qed.

Lemma file_keys_dom rs : dom (file_keys rs (∅, ∅)).1 = list_to_set (dr_key <$> rs).
Proof.
  assert (∀ t, dom (file_keys rs t).1 = dom t.1 ∪ list_to_set (dr_key <$> rs)) as Hd.
  { induction rs as [|r rs IH]; intros t; [cbn; set_solver|]. rewrite file_keys_cons, IH. cbn.
    rewrite dom_insert_L. set_solver. }
  rewrite Hd. cbn. rewrite dom_empty_L. set_solver.
Qed.

Section journal.
Context `{LineCodecLaws IdempotencyRecord}.
(** Rust strings are UTF-8 and so is what [serde_json] writes. *)
Hypothesis encoded_utf8 : ∀ r : IdempotencyRecord, is_utf8 (encode_line r) = true.

Definition idem_record_ok (r : IdempotencyRecord) : Prop :=
  str_len (record_bytes r) ≤ MAX_IDEMPOTENCY_RECORD_BYTES ∧ valid_key (dr_key r) = true.

Lemma load_records capacity rs lines t :
  Forall idem_record_ok rs → NoDup (dr_key <$> rs) → (∀ r, r ∈ rs → t.1 !! dr_key r = None) →
  map_len t.1 + len rs ≤ capacity →
  load_keys capacity ((encode_line <$> rs) ++ lines) t = load_keys capacity lines (file_keys rs t).
Proof.
  intros Hok. revert t. induction Hok as [|r rs [Hlen Hkey] Hok IH]; intros [c ca] Hnd Hfresh Hcap; [done|].
  rewrite fmap_cons in Hnd. apply NoDup_cons in Hnd as [Hn Hnd]. cbn [fst] in *.
  cbn [fmap list_fmap app load_keys]. unfold load_idem_line. rewrite encoded_utf8. cbn [negb].
  unfold record_bytes in Hlen. rewrite str_len_app in Hlen. rewrite (proj2 (N.ltb_ge _ _)) by lia.
  rewrite decode_encode_line. cbn. unfold valid_key in Hkey. rewrite !andb_true_iff in Hkey.
  destruct Hkey as [[-> ->] ->]. cbn. rewrite (Hfresh r) by set_solver. cbn.
  assert (map_len (<[dr_key r := dr_payload_hash r]> c) = map_len c + 1) as Hl.
  { unfold map_len. rewrite map_size_insert_None by (apply Hfresh; set_solver). lia. }
  rewrite Hl, (proj2 (N.ltb_ge _ _)) by (unfold len in *; cbn in *; lia). cbn.
  apply IH; [done| |cbn; rewrite Hl; unfold len in *; cbn in *; lia].
  intros r' Hr'. cbn. rewrite lookup_insert_ne; [apply Hfresh; set_solver|].
  intros Heq. apply Hn. rewrite Heq. by apply list_elem_of_fmap_2.
Qed.

(** The store and its journal in step. *)
Record in_step (s : FileIdempotencyStore) (rs : list IdempotencyRecord) : Prop := {
  is_wf : file_tables_wf s;
  is_capacity : 0 < fi_capacity s ≤ 1000000;
  is_room : map_len (fi_committed s) + map_len (fi_pending s) ≤ fi_capacity s;
  is_bytes : fi_bytes s = journal_bytes rs;
  is_size : str_len (fi_bytes s) ≤ MAX_IDEMPOTENCY_FILE_BYTES;
  is_records : Forall idem_record_ok rs;
  is_nodup : NoDup (dr_key <$> rs);
  is_tables : file_keys rs (∅, ∅) = (fi_committed s, fi_committed_at s);
  is_keys t k h : fi_pending s !! t = Some (k, h) → valid_key k = true;
}.

Lemma in_step_length s rs : in_step s rs → map_len (fi_committed s) = len rs.
Proof.
  intros Hs. pose proof (file_keys_dom rs) as Hd. rewrite (is_tables s rs Hs) in Hd. cbn in Hd.
  unfold map_len, len. rewrite <- size_dom, Hd, size_list_to_set by apply (is_nodup s rs Hs). by rewrite length_fmap.
Qed.

(** Reopening a journal, followed by anything. *)
Lemma load_journal_then s rs lines :
  in_step s rs →
  load_keys (fi_capacity s) ((encode_line <$> rs) ++ lines) (∅, ∅)
  = load_keys (fi_capacity s) lines (fi_committed s, fi_committed_at s).
Proof.
  intros Hs. pose proof (in_step_length s rs Hs) as Hl. pose proof (is_room s rs Hs).
  rewrite load_records; [by rewrite (is_tables s rs Hs)|apply (is_records s rs Hs)|apply (is_nodup s rs Hs)|done|].
  cbn. unfold map_len in *. rewrite map_size_empty. lia.
Qed.

Lemma reopen_idempotency s rs appends compactions :
  in_step s rs →
  open_idempotency true (fi_capacity s) (fi_bytes s) appends compactions
  = Ok (mkFileIdem true (fi_bytes s) appends compactions (fi_capacity s) 1 (fi_committed s)
          (fi_committed_at s) ∅).
Proof.
  intros Hs. pose proof (is_capacity s rs Hs) as Hc. unfold open_idempotency.
  rewrite (proj2 (N.eqb_neq _ _)), (proj2 (N.ltb_ge _ _)) by lia. cbn [orb negb].
  rewrite (proj2 (N.ltb_ge _ _)) by apply (is_size s rs Hs).
  rewrite (is_bytes s rs Hs), <- (string_app_nil_r (journal_bytes rs)), read_lines_journal.
  rewrite load_journal_then by done. done.
Qed.

Lemma in_step_at s rs : in_step s rs → dom (fi_committed_at s) = dom (fi_committed s).
Proof.
  intros Hs. assert (∀ t, dom t.1 = dom t.2 → dom (file_keys rs t).1 = dom (file_keys rs t).2) as Hd.
  { induction rs as [|r rs IH] in |- *; intros t Ht; [done|]. rewrite file_keys_cons. apply IH. cbn.
    by rewrite !dom_insert_L, Ht. }
  specialize (Hd (∅, ∅)). rewrite (is_tables s rs Hs) in Hd. cbn in Hd. rewrite Hd; [done|]. by rewrite !dom_empty_L.
Qed.

Lemma in_step_committed s rs k h :
  in_step s rs → fi_committed s !! k = Some h →
  ∃ r, r ∈ rs ∧ dr_key r = k ∧ dr_payload_hash r = h ∧ fi_committed_at s !! k = Some (dr_committed_at_millis r)
       ∧ valid_key k = true.
Proof.
  intros Hs Hk. pose proof (file_keys_dom rs) as Hd. rewrite (is_tables s rs Hs) in Hd. cbn in Hd.
  assert (k ∈ dr_key <$> rs) as (r & -> & Hr)%list_elem_of_fmap.
  { rewrite <- (elem_of_list_to_set (C:=gset IdempotencyKey)), <- Hd. by eapply elem_of_dom_2. }
  destruct (file_keys_lookup rs (∅, ∅) r (is_nodup s rs Hs) Hr) as [H1 H2].
  rewrite (is_tables s rs Hs) in H1, H2. cbn in H1, H2. exists r. split_and!; [done..| |done|].
  - congruence.
  - by apply (proj1 (Forall_forall _ _) (is_records s rs Hs) r).
Qed.

(** ** The operations keep them in step *)

(** Failures that leave no part of a record behind, and compactions that end
    with an open file or with the old one. *)
Definition clean_script (s : FileIdempotencyStore) : Prop :=
  Forall clean_io (fi_appends s) ∧ Forall (λ io, io ≠ CompactRenamed false) (fi_compactions s).

Lemma reserve_in_step s rs key hash :
  in_step s rs → valid_key key = true → clean_script s →
  in_step (file_reserve key hash s).2 rs ∧ clean_script (file_reserve key hash s).2.
Proof.
  intros Hs Hk Hc. pose proof (reserve_wf key hash s (is_wf s rs Hs)) as Hwf. cbn in Hwf.
  unfold file_reserve in *. cbn [snd] in *.
  destruct (reserve_answer _ _ _ _ _ _) as [[token| | |]|] eqn:Hr; [|done..]. split; [|done].
  unfold reserve_answer in Hr. destruct (fi_committed s !! key); [by case_match|].
  destruct (held_by key (fi_pending s)) eqn:Hh; [by case_match|].
  destruct (_ || _) eqn:Hfull; [done|]. destruct (_ =? u64_max); [done|]. injection Hr as <-. breflect.
  destruct Hs. split; cbn; try done.
  - unfold map_len in *. rewrite map_size_insert. case_match; unfold id; lia.
  - intros t k h. rewrite lookup_insert_Some. intros [[_ [= <- _]]|[_ ?]]; [done|by eapply is_keys0].
Qed.

Lemma abort_in_step s rs token :
  in_step s rs → clean_script s → in_step (file_abort token s) rs ∧ clean_script (file_abort token s).
Proof.
  intros Hs Hc. split; [|done]. destruct Hs. split; cbn; try done.
  - by apply tables_wf_abort.
  - unfold map_len in *. rewrite map_size_delete. case_match; unfold id; lia.
  - intros t k h [_ ?]%lookup_delete_Some. by eapply is_keys0.
Qed.

Lemma idem_append_clean r s res s' :
  clean_script s → idem_append r s = (res, s') →
  clean_script s' ∧
  match res with
  | Err _ => fi_bytes s' = fi_bytes s
  | Ok _ => fi_bytes s' = fi_bytes s +:+ record_bytes r ∧ str_len (record_bytes r) ≤ MAX_IDEMPOTENCY_RECORD_BYTES
            ∧ str_len (fi_bytes s') ≤ MAX_IDEMPOTENCY_FILE_BYTES
  end.
Proof.
  intros [Ha Hc]. unfold idem_append, clean_script.
  destruct (N.ltb_spec MAX_IDEMPOTENCY_RECORD_BYTES (str_len (record_bytes r))); [by intros [= <- <-]|].
  destruct (fi_open s); [|by intros [= <- <-]]. cbn [negb].
  assert (∃ io ios, match fi_appends s with [] => (AppendOk, []) | io :: ios => (io, ios) end = (io, ios)
    ∧ clean_io io ∧ Forall clean_io ios) as (io & ios & -> & Hio & Hios).
  { destruct Ha as [|io ios Hio Hios]; [by exists AppendOk, []|by exists io, ios]. }
  destruct (N.ltb_spec MAX_IDEMPOTENCY_FILE_BYTES (sat_add64 (str_len (fi_bytes s)) (str_len (record_bytes r))))
    as [|Hmax]; destruct io as [|n|]; intros [= <- <-]; cbn; try done.
  - cbn in Hio. subst n. by rewrite string_app_nil_r.
  - split_and!; [done..|]. rewrite str_len_app. unfold sat_add64 in Hmax.
    assert (MAX_IDEMPOTENCY_FILE_BYTES < u64_max) as Hu by done. revert Hu Hmax.
    generalize MAX_IDEMPOTENCY_FILE_BYTES u64_max. lia.
Qed.

Lemma commit_in_step s rs now token :
  in_step s rs → clean_script s →
  ∃ rs', in_step (file_commit now token s).2 rs' ∧ clean_script (file_commit now token s).2.
Proof.
  intros Hs Hc. pose proof (commit_wf now token s (is_wf s rs Hs)) as Hwf. cbn in Hwf.
  unfold file_commit in *. destruct (fi_pending s !! token) as [[key hash]|] eqn:Hp; [|eauto].
  set (r := mkIdemRecord key hash (Some now)) in *. destruct (idem_append r s) as [res s'] eqn:Ha.
  pose proof (idem_append_tables _ _ _ _ Ha) as (Hcap & Hn & Hk & Hat & Hpe).
  apply idem_append_clean in Ha as [Hc' Hres]; [|done].
  pose proof (tw_settled _ _ _ (is_wf s rs Hs) _ _ _ Hp) as Hnew.
  destruct res as [[]|e]; cbn in *; cycle 1.
  { exists rs. split; [|done]. destruct Hs. split; rewrite ?Hcap, ?Hk, ?Hat, ?Hpe, ?Hres; done. }
  destruct Hres as (Hb & Hlen & Hmax). exists (rs ++ [r]). split; [|done].
  pose proof (is_keys s rs Hs _ _ _ Hp) as Hvk. pose proof (file_keys_dom rs) as Hd.
  destruct Hs. split; cbn; rewrite ?Hcap, ?Hk, ?Hat, ?Hpe in *; try done.
  - assert (size (fi_pending s) ≠ 0%nat) by (intros He%map_size_empty_inv; by rewrite He in Hp).
    unfold map_len in *. rewrite map_size_insert_None, map_size_delete_Some by eauto. lia.
  - rewrite Hb, journal_bytes_app, is_bytes0. cbn. by rewrite string_app_nil_r.
  - apply Forall_app. split; [done|]. by repeat constructor.
  - rewrite fmap_app. apply NoDup_app. split_and!; [done| |by apply NoDup_singleton].
    intros k Hk' Hk2%list_elem_of_singleton. cbn in Hk2. subst k. rewrite is_tables0 in Hd. cbn in Hd.
    apply (not_elem_of_dom (fi_committed s) key) in Hnew. apply Hnew. rewrite Hd. by apply elem_of_list_to_set.
  - unfold file_keys in *. rewrite foldl_app, is_tables0. done.
  - intros t k h [_ ?]%lookup_delete_Some. by eapply is_keys0.
Qed.

Lemma encode_keys_spec rs acc encoded :
  encode_keys rs acc = Some encoded → str_len acc ≤ MAX_IDEMPOTENCY_FILE_BYTES →
  encoded = acc +:+ journal_bytes rs ∧ str_len encoded ≤ MAX_IDEMPOTENCY_FILE_BYTES
  ∧ Forall (λ r, str_len (record_bytes r) ≤ MAX_IDEMPOTENCY_RECORD_BYTES) rs.
Proof.
  revert acc. induction rs as [|r rs IH]; intros acc He Hacc; cbn [encode_keys] in He.
  { injection He as <-. cbn. by rewrite string_app_nil_r. }
  destruct (N.ltb_spec MAX_IDEMPOTENCY_RECORD_BYTES (str_len (record_bytes r))); [done|]. cbn [orb] in He.
  destruct (N.ltb_spec MAX_IDEMPOTENCY_FILE_BYTES (sat_add64 (str_len acc) (str_len (record_bytes r))))
    as [|Hmax]; [done|].
  apply IH in He as (-> & Hlen & Hall).
  - cbn [journal_bytes]. split_and!; [by rewrite string_app_assoc|done|by constructor].
  - rewrite str_len_app. unfold sat_add64 in Hmax. assert (MAX_IDEMPOTENCY_FILE_BYTES < u64_max) as Hu by done.
    revert Hu Hmax. generalize MAX_IDEMPOTENCY_FILE_BYTES u64_max. lia.
Qed.

Lemma idem_compact_clean s res s' :
  clean_script s → idem_compact s = (res, s') →
  clean_script s' ∧
  match res with
  | Err _ => fi_bytes s' = fi_bytes s
  | Ok _ => fi_bytes s' = journal_bytes (idem_records s)
            ∧ str_len (fi_bytes s') ≤ MAX_IDEMPOTENCY_FILE_BYTES
            ∧ Forall (λ r, str_len (record_bytes r) ≤ MAX_IDEMPOTENCY_RECORD_BYTES) (idem_records s)
  end.
Proof.
  intros [Ha Hc]. unfold idem_compact, clean_script.
  destruct (encode_keys _ _) as [encoded|] eqn:He; [|by intros [= <- <-]].
  apply encode_keys_spec in He as (Henc & Hlen & Hall); [|done].
  assert (∃ io ios, match fi_compactions s with [] => (CompactRenamed true, []) | io :: ios => (io, ios) end
    = (io, ios) ∧ io ≠ CompactRenamed false ∧ Forall (λ io, io ≠ CompactRenamed false) ios)
    as (io & ios & -> & Hio & Hios).
  { destruct Hc as [|io ios Hio Hios]; [by exists (CompactRenamed true), []|by exists io, ios]. }
  destruct io as [|reopens|[]], (fi_open s); cbn; intros [= <- <-]; cbn; done.
Qed.

(** The tables a compaction of a store whose two tables have the same keys
    writes are its own. *)
Lemma file_keys_records s :
  dom (fi_committed_at s) = dom (fi_committed s) →
  NoDup (dr_key <$> idem_records s)
  ∧ file_keys (idem_records s) (∅, ∅) = (fi_committed s, fi_committed_at s).
Proof.
  intros Hdom.
  assert (dr_key <$> idem_records s = (map_to_list (fi_committed s)).*1) as Hks.
  { unfold idem_records. rewrite <- list_fmap_compose. by apply list_fmap_ext. }
  assert (NoDup (dr_key <$> idem_records s)) as Hnd by (rewrite Hks; apply NoDup_fst_map_to_list).
  split; [done|]. apply injective_projections; cbn [fst snd]; apply map_eq; intros k.
  all: destruct (fi_committed s !! k) as [h|] eqn:Hk.
  1,3: assert (mkIdemRecord k h (mjoin (fi_committed_at s !! k)) ∈ idem_records s) as Hin
    by (apply list_elem_of_fmap; exists (k, h); split; [done|by apply elem_of_map_to_list]);
    apply (file_keys_lookup _ (∅, ∅) _ Hnd) in Hin as [H1 H2]; cbn in H1, H2.
  - by rewrite H1.
  - rewrite H2. assert (is_Some (fi_committed_at s !! k)) as [at_ Hat]
      by (apply elem_of_dom; rewrite Hdom; by eapply elem_of_dom_2). by rewrite Hat.
  - destruct (file_keys_other (idem_records s) (∅, ∅) k) as [-> _]; [|done].
    rewrite Hks. intros ((k' & h) & -> & Hin%elem_of_map_to_list)%list_elem_of_fmap. cbn in Hk. congruence.
  - destruct (file_keys_other (idem_records s) (∅, ∅) k) as [_ ->].
    + rewrite Hks. intros ((k' & h) & -> & Hin%elem_of_map_to_list)%list_elem_of_fmap. cbn in Hk. congruence.
    + cbn. symmetry. apply not_elem_of_dom. rewrite Hdom. by apply not_elem_of_dom.
Qed.

Lemma maintain_in_step s rs now retention :
  in_step s rs → clean_script s →
  ∃ rs', in_step (file_idem_maintain now retention s).2 rs' ∧ clean_script (file_idem_maintain now retention s).2.
Proof.
  intros Hs Hc. pose proof (idem_maintain_wf now retention s (is_wf s rs Hs)) as Hwf. cbn in Hwf.
  unfold file_idem_maintain in *. destruct (bool_decide _); [eauto|].
  set (keep k := negb (expired (now - retention) (mjoin (fi_committed_at s !! k)))) in *.
  set (s1 := set_keys _ _ s) in *.
  assert (dom (fi_committed_at s1) = dom (fi_committed s1)) as Hdom.
  { pose proof (in_step_at s rs Hs) as Hd. apply set_eq. intros k. unfold s1. cbn.
    rewrite !elem_of_dom. unfold is_Some. setoid_rewrite map_lookup_filter_Some. cbn.
    assert (k ∈ dom (fi_committed_at s) ↔ k ∈ dom (fi_committed s)) as Hk by by rewrite Hd.
    rewrite !elem_of_dom in Hk. unfold is_Some in Hk.
    split; [intros (a & Ha & [Hkeep|Hn])|intros (h & Hh & Hkeep)]; [|destruct (proj1 Hk) as [h Hh]; eauto; congruence|].
    - destruct (proj1 Hk) as [h Hh]; eauto.
    - destruct (proj2 Hk) as [a Ha]; eauto. }
  destruct (idem_compact s1) as [res s'] eqn:Hcm.
  pose proof (idem_compact_tables _ _ _ Hcm) as (Hcap & Hn & Hk & Hat & Hpe).
  apply idem_compact_clean in Hcm as [Hc' Hres]; [|done].
  destruct res as [[]|e]; cbn [snd] in *; cycle 1.
  { exists rs. split; [|done]. destruct Hs. cbn in *. split; cbn; rewrite ?Hcap, ?Hpe, ?Hres; done. }
  destruct Hres as (Hb & Hlen & Hsz). exists (idem_records s1). split; [|done].
  destruct (file_keys_records s1 Hdom) as [Hnd Htab].
  assert (fi_committed s1 ⊆ fi_committed s) as Hsub by apply map_filter_subseteq.
  split; [done|rewrite Hcap; apply (is_capacity s rs Hs)| |done|done| |done|by rewrite Hk, Hat|].
  - rewrite Hcap, Hk, Hpe. pose proof (is_room s rs Hs). pose proof (map_subseteq_size _ _ Hsub).
    unfold map_len in *. cbn [fi_pending fi_capacity s1 set_keys] in *. lia.
  - rewrite Forall_forall in Hsz |- *. intros r Hr. split; [by apply Hsz|].
    apply list_elem_of_fmap in Hr as ((k & h) & -> & Hin%elem_of_map_to_list). cbn.
    eapply lookup_weaken in Hin; [|done]. by destruct (in_step_committed s rs k h Hs Hin) as (_ & _ & _ & _ & _ & ?).
  - rewrite Hpe. apply (is_keys s rs Hs).
Qed.

(** ** Runs *)

Inductive IdemOp :=
  | IReserve (key : IdempotencyKey) (hash : string)
  | ICommit (now token : N)
  | IAbort (token : N)
  | IMaintain (now retention : N).

Definition run_idem (s : FileIdempotencyStore) (op : IdemOp) : FileIdempotencyStore :=
  match op with
  | IReserve key hash => (file_reserve key hash s).2
  | ICommit now token => (file_commit now token s).2
  | IAbort token => file_abort token s
  | IMaintain now retention => (file_idem_maintain now retention s).2
  end.

Definition idem_op_ok (op : IdemOp) : Prop :=
  match op with IReserve key _ => valid_key key = true | _ => True end.

Lemma run_in_step ops s rs :
  in_step s rs → clean_script s → Forall idem_op_ok ops → ∃ rs', in_step (foldl run_idem s ops) rs'.
Proof.
  intros Hs Hc Hops. revert s rs Hs Hc. induction Hops as [|op ops Hop Hops IH]; intros s rs Hs Hc; [by exists rs|].
  cbn. assert (∃ rs', in_step (run_idem s op) rs' ∧ clean_script (run_idem s op)) as (rs' & Hs' & Hc');
    [|by eapply IH].
  destruct op as [key hash|now token|token|now retention]; cbn in *.
  - exists rs. by apply reserve_in_step.
  - by eapply commit_in_step.
  - exists rs. by apply abort_in_step.
  - by eapply maintain_in_step.
Qed.

Lemma open_empty_in_step capacity appends compactions s :
  open_idempotency true capacity EmptyString appends compactions = Ok s →
  fi_appends s = appends ∧ fi_compactions s = compactions ∧ fi_capacity s = capacity ∧ in_step s [].
Proof.
  unfold open_idempotency. destruct (_ || _) eqn:Hcap; [done|]. cbn. intros [= <-]. breflect.
  split_and!; [done..|]. split; cbn; try done; [lia|unfold map_len; rewrite !map_size_empty; lia|constructor..].
Qed.


(** A torn commit makes the file store unreadable.  When a crash leaves
    any part of the last record in the file - some of its bytes, but not all -
    every later [open] fails with [InvalidIdempotencyConfiguration], whatever
    else the file holds: unlike the outbox and the finding journal, this store
    does not drop a torn last line. *)
Theorem torn_commit_blocks_restart (capacity : N) (appends : list AppendIo) (compactions : list CompactIo)
    (ops : list IdemOp) (s0 : FileIdempotencyStore) (r : IdempotencyRecord) (torn rest : string) :
  Forall clean_io appends → Forall (λ io, io ≠ CompactRenamed false) compactions → Forall idem_op_ok ops →
  open_idempotency true capacity EmptyString appends compactions = Ok s0 →
  encode_line r = torn +:+ rest → torn ≠ EmptyString → rest ≠ EmptyString →
  let s := foldl run_idem s0 ops in
  ∀ path_ok capacity' appends' compactions', 0 < capacity' ≤ 1000000 → fi_capacity s ≤ capacity' →
  open_idempotency path_ok capacity' (fi_bytes s +:+ torn) appends' compactions'
  = Err GInvalidIdempotencyConfiguration.
Proof.
  intros Ha Hc Hops Hopen Henc Ht Hr s path_ok capacity' appends' compactions' Hcap' Hle.
  apply open_empty_in_step in Hopen as (Hap & Hco & Hcap & Hs0).
  destruct (run_in_step ops s0 [] Hs0) as (rs & Hs); [by split; rewrite ?Hap, ?Hco|done|]. fold s in Hs. clearbody s.
  unfold open_idempotency. rewrite (proj2 (N.eqb_neq _ _)), (proj2 (N.ltb_ge _ _)) by lia. cbn [orb].
  destruct path_ok; [|done]. cbn [negb]. case_match; [done|].
  pose proof (encode_line_no_nl r) as Hnl. rewrite Henc, str_all_app in Hnl. apply andb_true_iff in Hnl as [Hnl _].
  assert (read_lines torn = [torn]) as Hread.
  { unfold read_lines. rewrite split_nl_no_newline by done. by destruct torn. }
  rewrite (is_bytes s rs Hs), read_lines_journal, Hread. pose proof (in_step_length s rs Hs). pose proof (is_room s rs Hs).
  rewrite load_records; [|apply (is_records s rs Hs)|apply (is_nodup s rs Hs)|done|].
  2:{ cbn. unfold map_len in *. rewrite map_size_empty. lia. }
  cbn. unfold load_idem_line. destruct (file_keys rs (∅, ∅)). destruct (is_utf8 torn); [|done]. cbn.
  case_match; [done|]. by rewrite (decode_line_prefix r torn rest Henc Hr).
Qed.
End journal.

(** ** Witnesses *)

Section demo.
Definition idem_parts (r : IdempotencyRecord) : list string * option N :=
  ([ik_workspace_id (dr_key r); ik_namespace_id (dr_key r); ik_event_id (dr_key r); dr_payload_hash r],
   dr_committed_at_millis r).
Definition parts_idem (p : list string * option N) : option IdempotencyRecord :=
  match p with
  | ([w; n; e; h], at_) => Some (mkIdemRecord (mkIdemKey w n e) h at_)
  | _ => None
  end.
Lemma parts_idem_parts r : parts_idem (idem_parts r) = Some r.
Proof. by destruct r as [[] ? ?]. Qed.
#[local] Instance IdempotencyRecord_eq_dec : EqDecision IdempotencyRecord.
Proof. solve_decision. Defined.
#[local] Instance IdempotencyRecord_countable : Countable IdempotencyRecord :=
  inj_countable idem_parts parts_idem parts_idem_parts.
#[local] Instance idem_codec : LineCodec IdempotencyRecord := bit_codec IdempotencyRecord.
#[local] Instance idem_codec_laws : LineCodecLaws IdempotencyRecord := bit_codec_laws IdempotencyRecord.

Lemma idem_codec_utf8 (r : IdempotencyRecord) : is_utf8 (encode_line r) = true.
Proof. apply ascii_utf8. cbn. by induction (encode r). Qed.

Definition demo_idem_key : IdempotencyKey := mkIdemKey "acme" "prod" "01890a5d-ac96-774b-bcce-b302099a8057".
Definition demo_idem : FileIdempotencyStore := mkFileIdem true EmptyString [] [] 4 1 ∅ ∅ ∅.
#[local] Notation demo_idem_ops := [IReserve demo_idem_key "digest"; ICommit 1700000000000 1].
#[local] Notation demo_idem_run := (foldl run_idem demo_idem demo_idem_ops).

Lemma demo_idem_settled : fi_committed demo_idem_run !! demo_idem_key = Some "digest".
Proof. vm_compute. reflexivity. Qed.


Lemma torn_commit_blocks_restart_witness :
  ∃ torn, torn ≠ EmptyString
    ∧ open_idempotency true 4 (fi_bytes demo_idem_run +:+ torn) [] [] = Err GInvalidIdempotencyConfiguration.
Proof.
  destruct (encode_line (mkIdemRecord demo_idem_key "digest" None)) as [|c rest] eqn:He; [by vm_compute in He|].
  exists (String c EmptyString). split; [done|].
  apply (torn_commit_blocks_restart idem_codec_utf8 4 [] [] demo_idem_ops demo_idem
    (mkIdemRecord demo_idem_key "digest" None) (String c EmptyString) rest); try done.
  - by repeat constructor.
  - intros ->. by vm_compute in He.
Defined.
End demo.
