(* ===== verification/DualApproval.v ===== *)
(** * The two-operator gate

    [DualApprovalGate] of [apps/control-plane-api/src/dual_approval.rs]: a
    process-local table of first approvals.  The monotonic clock reading of a
    call ([Instant::now()], in nanoseconds) is an argument. *)
From S2P Require Import Prelude RustStr Errors.

Open Scope N_scope.

Definition APPROVAL_TTL : N := from_secs (15 * 60).
Definition MAX_TRACKED_APPROVALS : N := 4096.

(** [ApprovalKey]. *)
Record ApprovalKey := mkApprovalKey {
  ak_workspace_id : string;
  ak_namespace_id : string;
  ak_command_id : string;
}.
#[global] Instance ApprovalKey_eq_dec : EqDecision ApprovalKey.
Proof. solve_decision. Defined.
#[global] Program Instance ApprovalKey_countable : Countable ApprovalKey :=
  inj_countable' (λ k, (ak_workspace_id k, ak_namespace_id k, ak_command_id k))
    (λ t, mkApprovalKey t.1.1 t.1.2 t.2) _.
Next Obligation. by intros []. Qed.

(** [PendingApproval]. *)
Record PendingApproval := mkPendingApproval {
  pa_fingerprint : string;
  pa_first_operator_subject : string;
  pa_created_at : N;
}.

(** [ApprovalOutcome]. *)
Inductive ApprovalOutcome :=
  | AwaitingSecond | AlreadyApprovedBySameOperator | Approved | FieldMismatch.
#[global] Instance ApprovalOutcome_eq_dec : EqDecision ApprovalOutcome.
Proof. solve_decision. Defined.

(** [DualApprovalGate]. *)
Abbreviation Approvals := (gmap ApprovalKey PendingApproval).
Abbreviation DualApprovalGate := (Mutex Approvals).

Definition gate_new : DualApprovalGate := mutex_new ∅.

(** [pending.retain(|_, entry| now.duration_since(created_at) < APPROVAL_TTL)]. *)
Definition unexpired (now : N) (pending : Approvals) : Approvals :=
  filter (λ p, now - pa_created_at p.2 < APPROVAL_TTL) pending.

(** [submit] under the lock. *)
Definition submit_locked (key : ApprovalKey) (fingerprint operator_subject : string) (now : N) :
    ST Approvals CommandError ApprovalOutcome := λ pending0,
  let pending := unexpired now pending0 in
  match pending !! key with
  | Some entry =>
      if negb (String.eqb (pa_fingerprint entry) fingerprint) then (Ok FieldMismatch, pending)
      else if String.eqb (pa_first_operator_subject entry) operator_subject
      then (Ok AlreadyApprovedBySameOperator, pending)
      else (Ok Approved, delete key pending)
  | None =>
      if MAX_TRACKED_APPROVALS <=? map_len pending then (Err rate_limited, pending)
      else (Ok AwaitingSecond,
            <[key := mkPendingApproval fingerprint operator_subject now]> pending)
  end.

(** [DualApprovalGate::submit]: a poisoned lock fails closed. *)
Definition gate_submit (key : ApprovalKey) (fingerprint operator_subject : string) (now : N) :
    ST DualApprovalGate CommandError ApprovalOutcome :=
  with_mutex internal (submit_locked key fingerprint operator_subject now).

(** ** Histories of a gate *)

Record submission := mkSubmission {
  sb_key : ApprovalKey;
  sb_fingerprint : string;
  sb_operator : string;
  sb_now : N;
}.

Definition submit_one (sb : submission) : ST DualApprovalGate CommandError ApprovalOutcome :=
  gate_submit (sb_key sb) (sb_fingerprint sb) (sb_operator sb) (sb_now sb).

(** The answers to a sequence of submissions, and the final gate. *)
Fixpoint run_gate (sbs : list submission) (g : DualApprovalGate) :
    list (result CommandError ApprovalOutcome) * DualApprovalGate :=
  match sbs with
  | [] => ([], g)
  | sb :: sbs =>
      let '(r, g1) := submit_one sb g in
      let '(rs, g2) := run_gate sbs g1 in
      (r :: rs, g2)
  end.

(** A history: submissions with their answers, oldest first. *)
Abbreviation history := (list (submission * result CommandError ApprovalOutcome)).

(** In [hist], [sj] opened a cycle for [key] that nothing has closed or
    reopened since. *)
Definition opened (hist : history) (key : ApprovalKey) (sj : submission) : Prop :=
  ∃ before since, hist = before ++ (sj, Ok AwaitingSecond) :: since ∧ sb_key sj = key ∧
    Forall (λ p, sb_key p.1 = key → p.2 ≠ Ok Approved ∧ p.2 ≠ Ok AwaitingSecond) since.

(** Every entry of the table was put there by the submission that opened the
    current cycle of its key. *)
Definition justified (hist : history) (pending : Approvals) : Prop :=
  ∀ key e, pending !! key = Some e →
    ∃ sj, opened hist key sj ∧ sb_fingerprint sj = pa_fingerprint e ∧
          sb_operator sj = pa_first_operator_subject e ∧ sb_now sj = pa_created_at e.

(** ** Lemmas *)

Lemma unexpired_lookup now pending k e :
  unexpired now pending !! k = Some e ↔
  pending !! k = Some e ∧ now - pa_created_at e < APPROVAL_TTL.
Proof. unfold unexpired. by rewrite map_lookup_filter_Some. Qed.

Lemma unexpired_size now pending : map_len (unexpired now pending) ≤ map_len pending.
Proof.
  unfold map_len. enough (size (unexpired now pending) ≤ size pending)%nat by lia.
  apply map_subseteq_size, map_filter_subseteq.
Qed.

(** The table never outgrows its bound. *)
Lemma submit_locked_bounded key fp op now pending :
  map_len pending ≤ MAX_TRACKED_APPROVALS →
  map_len (submit_locked key fp op now pending).2 ≤ MAX_TRACKED_APPROVALS.
Proof.
  intros Hb. pose proof (unexpired_size now pending) as Hu. unfold submit_locked.
  destruct (unexpired now pending !! key) as [e|] eqn:He.
  - case_match; [simpl; lia|]. case_match; [simpl; lia|]. simpl. unfold map_len in *.
    rewrite map_size_delete, He. lia.
  - destruct (N.leb_spec MAX_TRACKED_APPROVALS (map_len (unexpired now pending))); simpl; [lia|].
    unfold map_len in *. rewrite map_size_insert, He. lia.
Qed.

Lemma opened_snoc hist key sj sb r :
  opened hist key sj →
  (sb_key sb = key → r ≠ Ok Approved ∧ r ≠ Ok AwaitingSecond) →
  opened (hist ++ [(sb, r)]) key sj.
Proof.
  intros (before & since & -> & Hk & Hs) Hr. exists before, (since ++ [(sb, r)]).
  split; [by rewrite <- app_assoc|]. split; [done|]. apply Forall_app. split; [done|].
  constructor; [done|constructor].
Qed.

Lemma opened_here hist sb : opened (hist ++ [(sb, Ok AwaitingSecond)]) (sb_key sb) sb.
Proof. by exists hist, []. Qed.

Lemma justified_sub hist pending pending' :
  (∀ k e, pending' !! k = Some e → pending !! k = Some e) →
  justified hist pending → justified hist pending'.
Proof. intros Hs Hj k e He. by apply Hj, Hs. Qed.

(** Entries of other keys, and entries a submission did not touch, stay
    justified. *)
Lemma justified_keep hist pending sb r :
  justified hist pending →
  (r ≠ Ok Approved ∧ r ≠ Ok AwaitingSecond) ∨ pending !! sb_key sb = None →
  justified (hist ++ [(sb, r)]) pending.
Proof.
  intros Hj Hor k e He. destruct (Hj k e He) as (sj & Ho & Hrest).
  exists sj. split; [|done]. apply opened_snoc; [done|]. intros <-.
  destruct Hor as [?|Hn]; [done|congruence].
Qed.

Lemma submit_justified sb hist pending r pending' :
  justified hist pending →
  submit_locked (sb_key sb) (sb_fingerprint sb) (sb_operator sb) (sb_now sb) pending = (r, pending') →
  justified (hist ++ [(sb, r)]) pending'.
Proof.
  intros Hj Hs. unfold submit_locked in Hs.
  assert (Hju : justified hist (unexpired (sb_now sb) pending)).
  { eapply justified_sub; [|exact Hj]. by intros k e [? _]%unexpired_lookup. }
  destruct (unexpired (sb_now sb) pending !! sb_key sb) as [e|] eqn:He.
  - case_match; [by simplify_eq; apply justified_keep; [|left]|].
    case_match; [by simplify_eq; apply justified_keep; [|left]|]. simplify_eq.
    apply justified_keep; [|right; apply lookup_delete_eq].
    eapply justified_sub; [|exact Hju]. by intros k e' [_ ?]%lookup_delete_Some.
  - case_match; [by simplify_eq; apply justified_keep; [|left]|]. simplify_eq.
    intros k e. rewrite lookup_insert. case_decide as Hk.
    + intros [= <-]. subst. exists sb. split; [apply opened_here|done].
    + intros Hke. destruct (Hju k e Hke) as (sj & Ho & Hrest). exists sj. split; [|done].
      apply opened_snoc; [done|]. by intros ?.
Qed.

Lemma submit_approved sb hist pending pending' :
  justified hist pending →
  submit_locked (sb_key sb) (sb_fingerprint sb) (sb_operator sb) (sb_now sb) pending
    = (Ok Approved, pending') →
  ∃ sj, opened hist (sb_key sb) sj ∧ sb_fingerprint sj = sb_fingerprint sb ∧
        sb_operator sj ≠ sb_operator sb ∧ sb_now sb - sb_now sj < APPROVAL_TTL.
Proof.
  intros Hj Hs. unfold submit_locked in Hs.
  destruct (unexpired (sb_now sb) pending !! sb_key sb) as [e|] eqn:He; [|by case_match].
  case_match eqn:Hf; [done|]. case_match eqn:Ho; [done|]. breflect.
  apply unexpired_lookup in He as [He Ht].
  destruct (Hj _ _ He) as (sj & Hop & Hfp & Hsub & Hat). exists sj. split_and!; congruence.
Qed.

Lemma run_gate_approved sbs g hist pre si post :
  poisoned g = false → justified hist (guarded g) →
  zip sbs (run_gate sbs g).1 = pre ++ (si, Ok Approved) :: post →
  ∃ sj, opened (hist ++ pre) (sb_key si) sj ∧ sb_fingerprint sj = sb_fingerprint si ∧
        sb_operator sj ≠ sb_operator si ∧ sb_now si - sb_now sj < APPROVAL_TTL.
Proof.
  revert g hist pre. induction sbs as [|sb sbs IH]; intros g hist pre Hp Hj Hz; simpl in Hz.
  { by destruct pre. }
  unfold submit_one, gate_submit, with_mutex in Hz. rewrite Hp in Hz.
  destruct (submit_locked (sb_key sb) (sb_fingerprint sb) (sb_operator sb) (sb_now sb) (guarded g))
    as [r pending'] eqn:Hs.
  specialize (IH (mkMutex false pending') (hist ++ [(sb, r)])).
  destruct (run_gate sbs (mkMutex false pending')) as [rs g2]. simpl in Hz, IH.
  destruct pre as [|p pre]; simpl in Hz; apply cons_eq in Hz as [Hh Hz].
  - injection Hh as -> ->. rewrite app_nil_r. by eapply submit_approved.
  - subst p. destruct (IH pre) as (sj & Ho & Hrest); [done|by eapply submit_justified|done|].
    exists sj. split; [|done]. by rewrite <- app_assoc in Ho.
Qed.

(** ** Properties *)

(** No force stop on one operator's word: in any history of a gate, an
    [Approved] answer is preceded by an [AwaitingSecond] answer to a different
    operator for the same command and the same fields, less than fifteen
    minutes earlier, and no approval was granted or reopened in between. *)
Theorem approval_needs_two_operators (sbs : list submission) (pre : history) (si : submission)
    (post : history) :
  zip sbs (run_gate sbs gate_new).1 = pre ++ (si, Ok Approved) :: post →
  ∃ sj, opened pre (sb_key si) sj ∧ sb_fingerprint sj = sb_fingerprint si ∧
        sb_operator sj ≠ sb_operator si ∧ sb_now si - sb_now sj < APPROVAL_TTL.
Proof. intros Hz. by eapply (run_gate_approved sbs gate_new []). Qed.

Lemma run_gate_bounded sbs g :
  map_len (guarded g) ≤ MAX_TRACKED_APPROVALS →
  map_len (guarded (run_gate sbs g).2) ≤ MAX_TRACKED_APPROVALS.
Proof.
  revert g. induction sbs as [|sb sbs IH]; intros g Hb; simpl; [done|].
  unfold submit_one, gate_submit, with_mutex. destruct (poisoned g).
  - specialize (IH g Hb). by destruct (run_gate sbs g).
  - pose proof (submit_locked_bounded (sb_key sb) (sb_fingerprint sb) (sb_operator sb) (sb_now sb)
      (guarded g) Hb) as Hb'.
    destruct (submit_locked _ _ _ _ _) as [r p']. specialize (IH (mkMutex false p') Hb').
    by destruct (run_gate sbs (mkMutex false p')).
Qed.

(** The table's bound, as a property of histories. *)
Lemma gate_bounded (sbs : list submission) :
  map_len (guarded (run_gate sbs gate_new).2) ≤ MAX_TRACKED_APPROVALS.
Proof. by apply run_gate_bounded. Qed.

(** ** A second operator is answered *)

Definition entry_of (sj : submission) : PendingApproval :=
  mkPendingApproval (sb_fingerprint sj) (sb_operator sj) (sb_now sj).

(** At time [t] the table holds every open cycle inside the window. *)
Definition complete (hist : history) (pending : Approvals) (t : N) : Prop :=
  ∀ key sj, opened hist key sj → t - sb_now sj < APPROVAL_TTL →
    pending !! key = Some (entry_of sj).

Lemma opened_snoc_inv hist key sj sb r :
  opened (hist ++ [(sb, r)]) key sj →
  (sj = sb ∧ sb_key sb = key ∧ r = Ok AwaitingSecond) ∨
  (opened hist key sj ∧ (sb_key sb = key → r ≠ Ok Approved ∧ r ≠ Ok AwaitingSecond)).
Proof.
  intros (before & since & Heq & Hk & Hs).
  destruct since as [|p since _] using rev_ind.
  - apply app_inj_tail in Heq as [_ Heq]. simplify_eq. by left.
  - rewrite app_comm_cons, app_assoc in Heq. apply app_inj_tail in Heq as [-> <-].
    apply Forall_app in Hs as [Hs Hp]. apply Forall_cons in Hp as [Hp _]. right.
    split; [|done]. by exists before, since.
Qed.

Lemma submit_complete sb hist pending t r pending' :
  complete hist pending t → t ≤ sb_now sb →
  submit_locked (sb_key sb) (sb_fingerprint sb) (sb_operator sb) (sb_now sb) pending = (r, pending') →
  complete (hist ++ [(sb, r)]) pending' (sb_now sb).
Proof.
  intros Hc Ht Hs key sj Ho Hw. unfold submit_locked in Hs.
  apply opened_snoc_inv in Ho as [(-> & <- & ->)|[Ho Hr]].
  - destruct (unexpired (sb_now sb) pending !! sb_key sb); [by repeat case_match|].
    case_match; [done|]. simplify_eq. apply lookup_insert_eq.
  - assert (He : unexpired (sb_now sb) pending !! key = Some (entry_of sj)).
    { apply unexpired_lookup. split; [|done]. apply (Hc key sj Ho). lia. }
    destruct (decide (sb_key sb = key)) as [<-|Hne].
    + rewrite He in Hs. destruct (Hr eq_refl) as [Hr1 _].
      case_match; [by simplify_eq|]. case_match; [by simplify_eq|]. by simplify_eq.
    + destruct (unexpired (sb_now sb) pending !! sb_key sb);
        repeat case_match; simplify_eq; rewrite ?lookup_delete_ne, ?lookup_insert_ne by done; done.
Qed.

Lemma run_gate_completes sbs g hist t pre si r post sj :
  poisoned g = false → complete hist (guarded g) t →
  StronglySorted N.le (t :: (sb_now <$> sbs)) →
  zip sbs (run_gate sbs g).1 = pre ++ (si, r) :: post →
  opened (hist ++ pre) (sb_key si) sj → sb_fingerprint sj = sb_fingerprint si →
  sb_operator sj ≠ sb_operator si → sb_now si - sb_now sj < APPROVAL_TTL →
  r = Ok Approved.
Proof.
  intros Hp Hc Hso Hz Ho Hf Hop Hw. revert g hist t pre Hp Hc Hso Hz Ho.
  induction sbs as [|sb sbs IH]; intros g hist t pre Hp Hc Hso Hz Ho; simpl in Hz; [by destruct pre|].
  csimpl in Hso. apply StronglySorted_cons in Hso as [Hle Hso]. apply Forall_cons in Hle as [Hle _].
  unfold submit_one, gate_submit, with_mutex in Hz. rewrite Hp in Hz.
  destruct (submit_locked (sb_key sb) (sb_fingerprint sb) (sb_operator sb) (sb_now sb) (guarded g))
    as [r' pending'] eqn:Hs.
  specialize (IH (mkMutex false pending') (hist ++ [(sb, r')]) (sb_now sb)).
  destruct (run_gate sbs (mkMutex false pending')) as [rs g2]. simpl in Hz, IH.
  destruct pre as [|p pre]; simpl in Hz; apply cons_eq in Hz as [Hh Hz].
  - injection Hh as -> ->. rewrite app_nil_r in Ho. unfold submit_locked in Hs.
    assert (He : unexpired (sb_now si) (guarded g) !! sb_key si = Some (entry_of sj)).
    { apply unexpired_lookup. split; [|done]. apply (Hc _ sj Ho). lia. }
    rewrite He in Hs. simpl in Hs. rewrite Hf, String.eqb_refl in Hs. simpl in Hs.
    destruct (String.eqb_spec (sb_operator sj) (sb_operator si)); [done|]. by simplify_eq.
  - subst p. apply (IH pre); try done; [by eapply submit_complete|].
    by rewrite <- app_assoc.
Qed.

(** The gate does open: on a monotonic clock, once a submission has been
    answered [AwaitingSecond], a different operator who submits the same
    fields within fifteen minutes, before the cycle is closed, is answered
    [Approved], however many other submissions the gate handled in
    between. *)
Theorem second_operator_approves (sbs : list submission) (pre : history) (si sj : submission)
    (r : result CommandError ApprovalOutcome) (post : history) :
  StronglySorted N.le (sb_now <$> sbs) →
  zip sbs (run_gate sbs gate_new).1 = pre ++ (si, r) :: post →
  opened pre (sb_key si) sj → sb_fingerprint sj = sb_fingerprint si →
  sb_operator sj ≠ sb_operator si → sb_now si - sb_now sj < APPROVAL_TTL →
  r = Ok Approved.
Proof.
  intros Hso Hz Ho Hf Hop Hw. eapply (run_gate_completes sbs gate_new [] 0); try done.
  - intros key s (before & since & Heq & _). by destruct before.
  - constructor; [done|]. apply Forall_forall. intros. lia.
Qed.

(** ** Concrete histories *)
Definition demo_key : ApprovalKey := mkApprovalKey "acme" "prod" "cmd-1".
Definition alice_then_bob : list submission :=
  [mkSubmission demo_key "fp" "operator:alice" 0;
   mkSubmission demo_key "fp" "operator:alice" (from_secs 60);
   mkSubmission demo_key "fp" "operator:bob" (from_secs 120)].
Definition alice_asked : history :=
  [(mkSubmission demo_key "fp" "operator:alice" 0, Ok AwaitingSecond);
   (mkSubmission demo_key "fp" "operator:alice" (from_secs 60), Ok AlreadyApprovedBySameOperator)].

Example approval_needs_two_operators_witness :
  ∃ sj, opened alice_asked demo_key sj ∧ sb_operator sj ≠ "operator:bob".
Proof.
  destruct (approval_needs_two_operators alice_then_bob alice_asked
    (mkSubmission demo_key "fp" "operator:bob" (from_secs 120)) []) as (sj & Ho & _ & Hop & _).
  - vm_compute. reflexivity.
  - exists sj. split; [exact Ho|exact Hop].
Defined.

Example second_operator_approves_witness :
  (run_gate alice_then_bob gate_new).1 !! 2%nat = Some (Ok Approved).
Proof.
  destruct (zip alice_then_bob (run_gate alice_then_bob gate_new).1) as [|p0 [|p1 [|[si r] post]]]
    eqn:Hz; [vm_compute in Hz; discriminate Hz..|].
  assert (r = Ok Approved) as Hr.
  { apply (second_operator_approves alice_then_bob [p0; p1] si
      (mkSubmission demo_key "fp" "operator:alice" 0) r post).
    - apply (bool_decide_unpack _). vm_compute. exact I.
    - exact Hz.
    - vm_compute in Hz. simplify_eq. exists [], [(mkSubmission demo_key "fp" "operator:alice" (from_secs 60),
        Ok AlreadyApprovedBySameOperator)].
      split; [reflexivity|]. split; [reflexivity|]. constructor; [done|constructor].
    - vm_compute in Hz. by simplify_eq.
    - vm_compute in Hz. by simplify_eq.
    - vm_compute in Hz. by simplify_eq. }
  vm_compute in Hz. subst. simplify_eq. vm_compute. reflexivity.
Defined.
