(* ===== verification/Inbox.v ===== *)
(** * The command inbox

    [apps/control-plane-api/src/inbox.rs] and [inbox/state.rs]: the delivery
    state of every command, the operations that change it and the queries
    that read it.  [InboxState] is the state both backends share; the
    in-memory backend is this state alone, the file backend (InboxFile) is
    this state plus a journal.  The invariant, the delivery guarantees and
    the paging guarantees of the state are in InboxWf, InboxDelivery and
    InboxPaging. *)
From Stdlib Require Import Ascii.
From S2P Require Import Prelude RustStr Errors.

Open Scope N_scope.

(** ** Constants *)
Definition DEFAULT_REDELIVERY_AFTER : N := from_secs 30.
Definition DEFAULT_MAX_DELIVERY_ATTEMPTS : N := 8.
Definition DEFAULT_MAX_COMMANDS_PER_POLL : N := 16.
Definition MAX_COMMANDS_PER_POLL : N := 64.
Definition DEFAULT_LIST_COMMANDS_PAGE_SIZE : N := 50.
Definition MAX_LIST_COMMANDS_PAGE_SIZE : N := 200.
Definition DEFAULT_INBOX_CAPACITY : N := 1000000.
Definition DEFAULT_INBOX_SCOPE_QUOTA : N := 20000.
Definition MAX_INBOX_RECORD_BYTES : N := 512 * 1024.
Definition MAX_INBOX_FILE_BYTES : N := 256 * 1024 * 1024.
Definition INBOX_COMPACTION_THRESHOLD_BYTES : N := 8 * 1024 * 1024.
Definition INBOX_COMPACTION_DELIVERY_RECORDS : N := 1024.

(** ** Data *)

(** [PendingCommand]; [parameters] is a byte vector. *)
Record PendingCommand := mkPendingCommand {
  pc_command_id : string;
  pc_workspace_id : string;
  pc_namespace_id : string;
  pc_agent_id : string;
  pc_run_id : string;
  pc_trace_id : string;
  pc_action : string;
  pc_reason_code : option string;
  pc_parameters : string;
  pc_issued_at : string;
  pc_delivery_attempt : N;
}.

#[global] Instance PendingCommand_eq_dec : EqDecision PendingCommand.
Proof. solve_decision. Defined.

(** [InboxKey]. *)
Record InboxKey := mkInboxKey {
  ik_workspace_id : string;
  ik_namespace_id : string;
  ik_command_id : string;
}.

#[global] Instance InboxKey_eq_dec : EqDecision InboxKey.
Proof. solve_decision. Defined.
#[global] Program Instance InboxKey_countable : Countable InboxKey :=
  inj_countable' (λ k, (ik_workspace_id k, ik_namespace_id k, ik_command_id k))
    (λ t, mkInboxKey t.1.1 t.1.2 t.2) _.
Next Obligation. by intros []. Qed.

(** A [(workspace_id, namespace_id)] pair. *)
Abbreviation Scope := (string * string)%type.

(** [PollTarget]. *)
Record PollTarget := mkPollTarget { pt_agent_id : string; pt_limit : N }.

(** [DeliveryPolicy]. *)
Record DeliveryPolicy := mkDeliveryPolicy {
  redelivery_after : N;
  max_attempts : N;
}.
Definition default_policy : DeliveryPolicy :=
  mkDeliveryPolicy DEFAULT_REDELIVERY_AFTER DEFAULT_MAX_DELIVERY_ATTEMPTS.

Inductive RecordResult := Recorded | AlreadyRecorded.
Inductive AckResult := Acknowledged | AlreadyAcknowledged | AckNotFound.
Inductive CancelResult := Cancelled | AlreadyCancelled | CancelNotFound.
Inductive DeliveryStatus :=
  | StPending | StDelivered | StAcknowledged | StExhausted | StCancelled.

#[global] Instance RecordResult_eq_dec : EqDecision RecordResult.
Proof. solve_decision. Defined.
#[global] Instance DeliveryStatus_eq_dec : EqDecision DeliveryStatus.
Proof. solve_decision. Defined.

(** [CommandSummary], [ListCommandsQuery] and [ListCommandsPage]. *)
Record CommandSummary := mkCommandSummary {
  cs_command_id : string;
  cs_agent_id : string;
  cs_action : string;
  cs_state : DeliveryStatus;
  cs_delivery_attempt : N;
  cs_issued_at : string;
  cs_sequence : N;
}.
Record ListCommandsQuery := mkListCommandsQuery {
  lq_workspace_id : string;
  lq_namespace_id : string;
  lq_agent_id : option string;
  lq_state : option DeliveryStatus;
  lq_after_sequence : N;
  lq_limit : N;
  lq_max_attempts : N;
}.
Record ListCommandsPage := mkListCommandsPage {
  lp_commands : list CommandSummary;
  lp_has_more : bool;
}.

(** [Entry]: one tracked command. *)
Record Entry := mkEntry {
  en_command : PendingCommand;
  en_attempts : N;
  en_last_delivered : option N;
  en_acknowledged : bool;
  en_sequence : N;
  en_cancelled : bool;
  en_cancelled_at : option N;
}.

#[global] Instance Entry_eq_dec : EqDecision Entry.
Proof. solve_decision. Defined.

(** [InboxState]. *)
Record InboxState := mkInboxState {
  order : list InboxKey;
  entries : gmap InboxKey Entry;
  retired : gmap InboxKey N;
  capacity : N;
  scope_quota : N;
  scope_counts : gmap Scope N;
  next_sequence : N;
}.

Definition set_entries (m : gmap InboxKey Entry) (s : InboxState) : InboxState :=
  mkInboxState (order s) m (retired s) (capacity s) (scope_quota s) (scope_counts s)
    (next_sequence s).
Definition set_order (o : list InboxKey) (s : InboxState) : InboxState :=
  mkInboxState o (entries s) (retired s) (capacity s) (scope_quota s) (scope_counts s)
    (next_sequence s).

(** ** Status and grammar *)

(** [resolve_delivery_status]. *)
Definition resolve_delivery_status (cancelled acknowledged : bool) (attempts max : N) :
    DeliveryStatus :=
  if cancelled then StCancelled
  else if acknowledged then StAcknowledged
  else if attempts =? 0 then StPending
  else if max <=? attempts then StExhausted
  else StDelivered.

(** The actions a stored command may carry. *)
Definition is_recordable_action (a : string) : bool :=
  bool_decide (a ∈ ["stop"; "pause"; "resume"; "inject"; "set_budget"; "resolve_hold";
                    "force_stop"]).

(** [is_recordable]. *)
Definition is_recordable (c : PendingCommand) : bool :=
  is_identifier (pc_workspace_id c)
  && is_identifier (pc_namespace_id c)
  && is_identifier (pc_agent_id c)
  && is_identifier (pc_run_id c)
  && is_identifier (pc_trace_id c)
  && is_identifier (pc_command_id c)
  && is_recordable_action (pc_action c)
  && match pc_reason_code c with None => true | Some r => is_identifier r end
  && (str_len (pc_issued_at c) <=? 64)
  && str_all is_ascii (pc_issued_at c)
  && negb (str_any is_control (pc_issued_at c))
  && (str_len (pc_parameters c) <=? MAX_INBOX_RECORD_BYTES / 2).

(** ** Operations *)

(** [InboxState::new]. *)
Definition inbox_new (cap quota : N) : InboxState :=
  mkInboxState [] ∅ ∅ cap quota ∅ 1.

(** [InboxState::key] and [InboxState::scope]. *)
Definition key_of (c : PendingCommand) : InboxKey :=
  mkInboxKey (pc_workspace_id c) (pc_namespace_id c) (pc_command_id c).
Definition scope_of (c : PendingCommand) : Scope := (pc_workspace_id c, pc_namespace_id c).
Definition key_scope (k : InboxKey) : Scope := (ik_workspace_id k, ik_namespace_id k).

Definition inbox_full : CommandError := mkCommandError Capacity
  "The durable command inbox is at capacity. Retry after operator remediation.".
Definition scope_full : CommandError := mkCommandError Capacity
  "This workspace/namespace has reached its share of the durable command inbox. Retry after operator remediation.".

(** [InboxState::check_recordable]. *)
Definition check_recordable (s : InboxState) (c : PendingCommand) :
    result CommandError (option RecordResult) :=
  let key := key_of c in
  if bool_decide (is_Some (entries s !! key)) || bool_decide (is_Some (retired s !! key))
  then Ok (Some AlreadyRecorded)
  else if capacity s <=? sat_add64 (map_len (entries s)) (map_len (retired s))
  then Err inbox_full
  else if scope_quota s <=? default 0 (scope_counts s !! scope_of c)
  then Err scope_full
  else Ok None.

(** [InboxState::insert_recorded]. *)
Definition insert_recorded (s : InboxState) (c : PendingCommand) : InboxState :=
  let key := key_of c in
  let scope := scope_of c in
  mkInboxState
    (filter (λ k, k ≠ key) (order s) ++ [key])
    (<[key := mkEntry c 0 None false (next_sequence s) false None]> (entries s))
    (retired s)
    (capacity s)
    (scope_quota s)
    (<[scope := default 0 (scope_counts s !! scope) + 1]> (scope_counts s))
    (sat_add64 (next_sequence s) 1).

(** [InboxState::record]. *)
Definition record : PendingCommand → ST InboxState CommandError RecordResult := λ c s,
  match check_recordable s c with
  | Err e => (Err e, s)
  | Ok (Some r) => (Ok r, s)
  | Ok None => (Ok Recorded, insert_recorded s c)
  end.

(** [InboxState::apply_delivery]. *)
Definition apply_delivery (s : InboxState) (key : InboxKey) (attempt at_millis : N) :
    InboxState :=
  match entries s !! key with
  | None => s
  | Some e =>
      set_entries
        (<[key := mkEntry (en_command e) (N.max (en_attempts e) attempt)
                    (Some (match en_last_delivered e with
                           | None => at_millis
                           | Some previous => N.max previous at_millis
                           end))
                    (en_acknowledged e) (en_sequence e) (en_cancelled e)
                    (en_cancelled_at e)]> (entries s)) s
  end.

(** The redelivery window of [deliverable]. *)
Definition visible (e : Entry) (policy : DeliveryPolicy) (now_millis : N) : bool :=
  match en_last_delivered e with
  | None => true
  | Some delivered_at => as_millis_u64 (redelivery_after policy) <=? now_millis - delivered_at
  end.

(** The per-entry filter of [deliverable]. *)
Definition entry_deliverable (e : Entry) (target : PollTarget) (allows : string → string → bool)
    (policy : DeliveryPolicy) (now_millis : N) : bool :=
  bool_decide (pc_agent_id (en_command e) = pt_agent_id target)
  && allows (pc_workspace_id (en_command e)) (pc_namespace_id (en_command e))
  && negb (max_attempts policy <=? en_attempts e)
  && negb (en_acknowledged e)
  && negb (en_cancelled e)
  && visible e policy now_millis.

(** The [for key in &self.order] loop of [deliverable]; [selected] is the
    vector built so far. *)
Fixpoint deliverable_loop (m : gmap InboxKey Entry) (target : PollTarget)
    (allows : string → string → bool) (policy : DeliveryPolicy) (now_millis : N)
    (keys selected : list InboxKey) : list InboxKey :=
  match keys with
  | [] => selected
  | key :: rest =>
      if pt_limit target <=? len selected then selected
      else match m !! key with
           | None => deliverable_loop m target allows policy now_millis rest selected
           | Some e =>
               if entry_deliverable e target allows policy now_millis
               then deliverable_loop m target allows policy now_millis rest (selected ++ [key])
               else deliverable_loop m target allows policy now_millis rest selected
           end
  end.

(** [InboxState::deliverable]; [allows] is the [ScopeAuthorizer]. *)
Definition deliverable (s : InboxState) (target : PollTarget) (allows : string → string → bool)
    (policy : DeliveryPolicy) (now_millis : N) : list InboxKey :=
  deliverable_loop (entries s) target allows policy now_millis (order s) [].

(** [InboxState::mark_delivered]. *)
Definition mark_delivered (s : InboxState) (key : InboxKey) (now_millis : N) :
    option PendingCommand * InboxState :=
  match entries s !! key with
  | None => (None, s)
  | Some e =>
      let attempts := sat_add32 (en_attempts e) 1 in
      let e' := mkEntry (en_command e) attempts (Some now_millis) (en_acknowledged e)
                  (en_sequence e) (en_cancelled e) (en_cancelled_at e) in
      let c := en_command e in
      (Some (mkPendingCommand (pc_command_id c) (pc_workspace_id c) (pc_namespace_id c)
               (pc_agent_id c) (pc_run_id c) (pc_trace_id c) (pc_action c)
               (pc_reason_code c) (pc_parameters c) (pc_issued_at c) attempts),
       set_entries (<[key := e']> (entries s)) s)
  end.

(** [keys.iter().filter_map(mark_delivered)]. *)
Fixpoint mark_all (s : InboxState) (keys : list InboxKey) (now_millis : N) :
    list PendingCommand * InboxState :=
  match keys with
  | [] => ([], s)
  | key :: rest =>
      let '(c, s1) := mark_delivered s key now_millis in
      let '(cs, s2) := mark_all s1 rest now_millis in
      (match c with Some c => c :: cs | None => cs end, s2)
  end.

(** [InMemoryCommandInbox::claim]. *)
Definition claim (target : PollTarget) (allows : string → string → bool)
    (policy : DeliveryPolicy) (now_millis : N) (s : InboxState) :
    list PendingCommand * InboxState :=
  mark_all s (deliverable s target allows policy now_millis) now_millis.

(** [InboxState::undelivered_count]. *)
Definition undelivered_count (s : InboxState) : N :=
  map_len (filter (λ p, (en_attempts p.2 =? 0) && negb (en_cancelled p.2) = true) (entries s)).

(** [pending_count] of both local backends. *)
Definition pending_count (s : InboxState) : N := map_len (entries s).

(** [InboxState::acknowledge]. *)
Definition acknowledge (target : PollTarget) (key : InboxKey) (attempt : N) (s : InboxState) :
    AckResult * InboxState :=
  match entries s !! key with
  | None => (AckNotFound, s)
  | Some e =>
      if negb (bool_decide (pc_agent_id (en_command e) = pt_agent_id target))
         || (attempt =? 0) || (en_attempts e <? attempt)
      then (AckNotFound, s)
      else if en_acknowledged e then (AlreadyAcknowledged, s)
      else (Acknowledged,
            set_entries (<[key := mkEntry (en_command e) (en_attempts e) (en_last_delivered e)
                                    true (en_sequence e) (en_cancelled e)
                                    (en_cancelled_at e)]> (entries s)) s)
  end.

(** [InboxState::cancel]. *)
Definition cancel (key : InboxKey) (now_millis : N) : ST InboxState CommandError CancelResult :=
  λ s,
  match entries s !! key with
  | Some e =>
      if en_cancelled e then (Ok AlreadyCancelled, s)
      else if 0 <? en_attempts e then (Err already_delivered, s)
      else (Ok Cancelled,
            set_entries (<[key := mkEntry (en_command e) (en_attempts e) (en_last_delivered e)
                                    (en_acknowledged e) (en_sequence e) true
                                    (Some now_millis)]> (entries s)) s)
  | None =>
      if bool_decide (is_Some (retired s !! key)) then (Err already_delivered, s)
      else (Ok CancelNotFound, s)
  end.

(** [InboxState::status]. *)
Definition status (s : InboxState) (key : InboxKey) (max : N) : option (DeliveryStatus * N) :=
  match entries s !! key with
  | None => None
  | Some e =>
      Some (resolve_delivery_status (en_cancelled e) (en_acknowledged e) (en_attempts e) max,
            en_attempts e)
  end.

(** The filters of [InboxState::list], in the order the loop applies them. *)
Definition list_matches (q : ListCommandsQuery) (e : Entry) : bool :=
  negb (en_sequence e <=? lq_after_sequence q)
  && (bool_decide (pc_workspace_id (en_command e) = lq_workspace_id q)
      && bool_decide (pc_namespace_id (en_command e) = lq_namespace_id q))
  && match lq_agent_id q with
     | None => true
     | Some a => bool_decide (pc_agent_id (en_command e) = a)
     end
  && match lq_state q with
     | None => true
     | Some f => bool_decide (f = resolve_delivery_status (en_cancelled e) (en_acknowledged e)
                                    (en_attempts e) (lq_max_attempts q))
     end.

Definition summarize (q : ListCommandsQuery) (e : Entry) : CommandSummary :=
  mkCommandSummary (pc_command_id (en_command e)) (pc_agent_id (en_command e))
    (pc_action (en_command e))
    (resolve_delivery_status (en_cancelled e) (en_acknowledged e) (en_attempts e)
       (lq_max_attempts q))
    (en_attempts e) (pc_issued_at (en_command e)) (en_sequence e).

(** The [for key in &self.order] loop of [InboxState::list]. *)
Fixpoint list_loop (m : gmap InboxKey Entry) (q : ListCommandsQuery) (keys : list InboxKey)
    (collected : list CommandSummary) : list CommandSummary * bool :=
  match keys with
  | [] => (collected, false)
  | key :: rest =>
      match m !! key with
      | None => list_loop m q rest collected
      | Some e =>
          if list_matches q e then
            if lq_limit q <=? len collected then (collected, true)
            else list_loop m q rest (collected ++ [summarize q e])
          else list_loop m q rest collected
      end
  end.

(** [InboxState::list]. *)
Definition list_commands (s : InboxState) (q : ListCommandsQuery) : ListCommandsPage :=
  let '(commands, has_more) := list_loop (entries s) q (order s) [] in
  mkListCommandsPage commands has_more.

(** [InboxState::retire]. *)
Definition retire (s : InboxState) (key : InboxKey) (retired_at_millis : N) : InboxState :=
  mkInboxState (order s) (delete key (entries s)) (<[key := retired_at_millis]> (retired s))
    (capacity s) (scope_quota s) (scope_counts s) (next_sequence s).

(** Giving one scope's share back: the body of [remove_expired_retired]'s
    second loop. *)
Definition release_scope (counts : gmap Scope N) (scope : Scope) : gmap Scope N :=
  match counts !! scope with
  | None => counts
  | Some count => if count - 1 =? 0 then delete scope counts else <[scope := count - 1]> counts
  end.

(** [InboxState::remove_expired_retired]; the boolean says whether a tombstone
    was dropped.  The tombstones are visited in the map's own order, which is
    immaterial (see [release_scopes_lookup] in InboxWf). *)
Definition remove_expired_retired (s : InboxState) (cutoff_millis : N) : bool * InboxState :=
  let expired := filter (λ p, p.2 ≤ cutoff_millis) (retired s) in
  let kept := filter (λ p, ¬ (p.2 ≤ cutoff_millis)) (retired s) in
  let expired_scopes := (λ p, key_scope p.1) <$> map_to_list expired in
  (negb (map_len (retired s) =? map_len kept),
   mkInboxState (order s) (entries s) kept (capacity s) (scope_quota s)
     (foldl release_scope (scope_counts s) expired_scopes) (next_sequence s)).

(** ** The in-memory backend *)

(** [InMemoryCommandInbox::new]: both ceilings are clamped to at least one. *)
Definition in_memory_new (cap quota : N) : InboxState :=
  inbox_new (N.max cap 1) (N.max quota 1).

(** ** Retention *)

(** The [filter_map] closure of [FileCommandInbox::maintain]: whether an entry
    is settled, and the timestamp its tombstone carries. *)
Definition settled_at (e : Entry) (now_millis cutoff_millis max : N) : option N :=
  if en_cancelled e then
    match en_cancelled_at e with
    | Some cancelled_at => if cancelled_at <=? cutoff_millis then Some cancelled_at else None
    | None => None
    end
  else if (en_acknowledged e || (max <=? en_attempts e))
          && match en_last_delivered e with
             | Some delivered_at => delivered_at <=? cutoff_millis
             | None => false
             end
  then Some now_millis
  else None.

Definition settled (s : InboxState) (now_millis cutoff_millis max : N) : list (InboxKey * N) :=
  omap (λ p, pair p.1 <$> settled_at p.2 now_millis cutoff_millis max)
    (map_to_list (entries s)).

Definition retire_all (s : InboxState) (l : list (InboxKey * N)) : InboxState :=
  foldl (λ s p, retire s p.1 p.2) s l.

(** The in-memory half of [maintain]; the boolean is [changed]. *)
Definition maintain_state (now_millis retention_millis max : N) (s : InboxState) :
    bool * InboxState :=
  let cutoff_millis := now_millis - retention_millis in
  let l := settled s now_millis cutoff_millis max in
  let '(expired, s') := remove_expired_retired (retire_all s l) cutoff_millis in
  (negb (len l =? 0) || expired, s').

(** [state.order.retain(|key| state.entries.contains_key(key))], the tail of
    [compact]. *)
Definition retain_live (s : InboxState) : InboxState :=
  set_order (filter (λ k, is_Some (entries s !! k)) (order s)) s.
