(* ===== verification/Envelope.v ===== *)
(** * From an operator's command to its two records

    [apps/control-plane-api/src/envelope.rs]: a command becomes the audit event
    that goes to the outbox and the delivery record that goes to the inbox, and
    the delivery record can be rebuilt from the audit event.  The wire
    encodings, SHA-256 and the UUID library are parameters; a freshly generated
    identifier and the clock are arguments. *)
From Stdlib Require Import Ascii.
From S2P Require Import Prelude RustStr Errors Time Secrets Convert Domain Codecs Admission.
From S2P Require Import OperatorAuth Inbox.

Open Scope N_scope.

(** What [prost], [sha2] and [uuid] provide beyond [DomainDeps]: the encoding of
    a [Struct], the decoding of an envelope, the 32-byte digest, and
    [Builder::from_unix_timestamp_millis(..).into_uuid().hyphenated()]. *)
Class EnvelopeDeps := {
  struct_encode : Struct → string;
  envelope_decode : string → option EventEnvelope;
  sha256_bytes : string → string;
  uuid_from_millis : N → string → string;
}.

Definition GATEWAY_AGENT_CODE : string := "apex-control-gateway".
Definition GATEWAY_PROMPT_REVISION : string := "control-command-v1".
Definition GATEWAY_MODEL : string := "n-a".
Definition FORCE_STOP_AUDIT_MARKER : string := "apex.force_stop".
Definition FORCE_STOP_AUDIT_PREFIX : string := "apex.force_stop:".

(** [AcceptedCommand]. *)
Record AcceptedCommand := mkAccepted {
  ac_command_id : string;
  ac_request : IngestRequest;
  ac_delivery : PendingCommand;
}.

(** ** Identifiers and timestamps *)

Definition malformed_id (message : string) : CommandError := mkCommandError InvalidCommand message.

(** The identifier the caller supplied, or a fresh one. *)
Definition id_or_fresh (id : option string) (fresh : string) : string :=
  match id with
  | Some id => if str_is_empty id then fresh else id
  | None => fresh
  end.

(** [resolve_command_id_and_timestamp]. *)
Definition resolve_command_id_and_timestamp `{UuidApi} (command_id : option string)
    (fresh : string) (now_millis : N) : result CommandError (string * string) :=
  let command_id := id_or_fresh command_id fresh in
  command_millis ← ok_or (uuidv7_unix_millis command_id)
    (malformed_id "command_id must be a canonical lowercase UUIDv7.");
  if negb (command_millis_within_acceptance_window command_millis now_millis)
  then Err (malformed_id "command_id's embedded UUIDv7 timestamp is outside the accepted clock window. Generate the command_id at submission time.")
  else Ok (command_id, format_rfc3339_micros (command_millis * 1000)).

(** [validate_bulk_id]. *)
Definition validate_bulk_id `{UuidApi} (bulk_id : option string) (fresh : string) (now_millis : N)
    : result CommandError (string * N) :=
  let bulk_id := id_or_fresh bulk_id fresh in
  millis ← ok_or (uuidv7_unix_millis bulk_id)
    (malformed_id "bulk_id must be a canonical lowercase UUIDv7.");
  if negb (command_millis_within_acceptance_window millis now_millis)
  then Err (malformed_id "bulk_id's embedded UUIDv7 timestamp is outside the accepted clock window. Generate the bulk_id at submission time.")
  else Ok (bulk_id, millis).

(** [BulkCommandTarget]. *)
Record BulkCommandTarget := mkTarget {
  tg_workspace_id : string;
  tg_namespace_id : string;
  tg_agent_id : string;
  tg_run_id : string;
  tg_parent_run_id : option string;
  tg_trace_id : string;
}.

(** The bytes [derive_target_command_id] hashes. *)
Definition nul : string := String "000"%char EmptyString.
Definition target_preimage (bulk_id : string) (t : BulkCommandTarget) : string :=
  bulk_id +:+ nul +:+ tg_workspace_id t +:+ nul +:+ tg_namespace_id t +:+ nul +:+ tg_agent_id t
  +:+ nul +:+ tg_run_id t +:+ nul +:+ tg_trace_id t.

(** [derive_target_command_id]. *)
Definition derive_target_command_id `{EnvelopeDeps} (bulk_id : string) (bulk_millis : N)
    (t : BulkCommandTarget) : string :=
  uuid_from_millis bulk_millis (String.substring 0 10 (sha256_bytes (target_preimage bulk_id t))).

(** ** Building the event *)

Definition string_value (s : string) : Value := VString s.

(** [build_control_data]. *)
Definition build_control_data (action : string) (reason_code : option string)
    (parameters : option Struct) : Struct :=
  field_insert "parameters" (VStruct (default [] parameters))
    (field_insert "reason_code"
      match reason_code with Some value => string_value value | None => VNull 0 end
      (field_insert "enforcement" (string_value "cooperative")
        (field_insert "action" (string_value action) []))).

(** [envelope_with_placeholder_integrity]. *)
Definition with_integrity (e : EventEnvelope) (hash : string) : EventEnvelope :=
  mkEnvelope (event_id e) (timestamp e) (event_type e) (agent_id e) (run_id e) (parent_run_id e)
    (trace_id e) (scope e) (actor e) (version e) (data e) (Some (mkIntegrity None hash))
    (schema_version e).
Definition envelope_with_placeholder_integrity (e : EventEnvelope) : EventEnvelope :=
  with_integrity e EmptyString.

(** The action and the reason the audit event carries. *)
Definition audit_action_name (action_name : string) : string :=
  if String.eqb action_name "force_stop" then "stop" else action_name.
Definition audit_reason_code (action_name : string) (reason_code : option string) : option string :=
  if String.eqb action_name "force_stop"
  then Some match reason_code with
            | Some reason => FORCE_STOP_AUDIT_PREFIX +:+ reason
            | None => FORCE_STOP_AUDIT_MARKER
            end
  else reason_code.

(** The delivery record and the unsigned envelope of [build_control_request]. *)
Definition delivery_of `{EnvelopeDeps} (i : ControlCommandInput) (action_name command_id ts : string)
    : PendingCommand :=
  mkPendingCommand command_id (in_workspace_id i) (in_namespace_id i) (in_agent_id i) (in_run_id i)
    (in_trace_id i) action_name (in_reason_code i)
    (default EmptyString (struct_encode <$> in_parameters i)) ts 0.

Definition envelope_of (i : ControlCommandInput) (operator : OperatorCaller)
    (action_name command_id ts : string) : EventEnvelope :=
  mkEnvelope command_id ts 9 (in_agent_id i) (in_run_id i) (in_parent_run_id i) (in_trace_id i)
    (Some (mkScope (in_workspace_id i) (in_namespace_id i) []))
    (Some (mkActor 1 (subject operator)))
    (Some (mkVersion GATEWAY_AGENT_CODE GATEWAY_PROMPT_REVISION GATEWAY_MODEL))
    (Some (build_control_data (audit_action_name action_name)
             (audit_reason_code action_name (in_reason_code i)) (in_parameters i)))
    None 1.

(** [build_control_request]. *)
Definition build_control_request `{DomainDeps, EnvelopeDeps, UuidApi} (i : ControlCommandInput)
    (operator : OperatorCaller) (fresh : string) (now_millis : N)
    : result CommandError AcceptedCommand :=
  if negb (allows_scope operator (in_workspace_id i) (in_namespace_id i)) then Err scope_denied
  else
    name ← ok_or (action_name (in_action i))
      (malformed_id "action must be one of stop, pause, resume, inject, set_budget, resolve_hold, force_stop.");
    '(command_id, ts) ← resolve_command_id_and_timestamp (in_command_id i) fresh now_millis;
    let delivery := delivery_of i name command_id ts in
    let envelope := envelope_of i operator name command_id ts in
    event_hash ← map_err from_gateway_error
      (canonical_event_hash (envelope_with_placeholder_integrity envelope));
    request ← map_err from_gateway_error
      (from_validated_transport (with_integrity envelope event_hash));
    Ok (mkAccepted command_id request delivery).

(** ** Rebuilding the delivery record *)

Definition get_kind (key : string) (fields : Struct) : option Value :=
  match field_get key fields with Some VNone | None => None | Some v => Some v end.

(** The inverse of the substitution for [force_stop]. *)
Definition recover_action (action : string) (reason_code : option string) : string * option string :=
  if String.eqb action "stop" && bool_decide (reason_code = Some FORCE_STOP_AUDIT_MARKER)
  then ("force_stop", None)
  else match reason_code ≫= (λ value, if String.eqb action "stop"
                                      then strip_prefix FORCE_STOP_AUDIT_PREFIX value else None) with
       | Some original => ("force_stop", Some original)
       | None => (action, reason_code)
       end.

(** [pending_command_from_ingest_request]. *)
Definition pending_command_from_ingest_request `{EnvelopeDeps} (r : IngestRequest)
    : result CommandError PendingCommand :=
  e ← ok_or (envelope_decode (ir_envelope r)) internal;
  if negb (event_type e =? 9)%Z then Err internal
  else
    data ← ok_or (data e) internal;
    action ← match get_kind "action" data with
             | Some (VString value) => Ok value
             | _ => Err internal
             end;
    reason_code ← match get_kind "reason_code" data with
                  | Some (VString value) => Ok (Some value)
                  | Some (VNull _) | None => Ok None
                  | _ => Err internal
                  end;
    parameters ← match get_kind "parameters" data with
                 | Some (VStruct value) => Ok (struct_encode value)
                 | _ => Err internal
                 end;
    scope ← ok_or (scope e) internal;
    let '(action, reason_code) := recover_action action reason_code in
    Ok (mkPendingCommand (event_id e) (workspace_id scope) (namespace_id scope) (agent_id e)
          (run_id e) (trace_id e) action reason_code parameters (timestamp e) 0).

(** ** Lemmas *)

(** The documented behaviour of [prost]: decoding inverts encoding, and an
    empty message has an empty encoding. *)
Class EnvelopeLaws `{DomainDeps, EnvelopeDeps} := {
  decode_encode_envelope e : envelope_decode (encode_to_vec e) = Some e;
  struct_encode_empty : struct_encode [] = EmptyString;
}.

(** The reason code does not read as the mark of a [force_stop]. *)
Definition unmarked (reason_code : option string) : Prop :=
  reason_code ≠ Some FORCE_STOP_AUDIT_MARKER
  ∧ (reason_code ≫= strip_prefix FORCE_STOP_AUDIT_PREFIX) = None.

Definition marked (reason_code : option string) : Prop :=
  match reason_code with
  | Some r => r = FORCE_STOP_AUDIT_MARKER ∨ is_Some (strip_prefix FORCE_STOP_AUDIT_PREFIX r)
  | None => False
  end.
#[global] Instance marked_dec reason_code : Decision (marked reason_code).
Proof. destruct reason_code; apply _. Defined.

Lemma not_marked reason_code : ¬ marked reason_code → unmarked reason_code.
Proof.
  unfold marked, unmarked. destruct reason_code as [r|]; [|done]. intros Hn. split; [naive_solver|].
  cbn. destruct (strip_prefix FORCE_STOP_AUDIT_PREFIX r) eqn:Hs; [|done]. destruct Hn. right. eauto.
Qed.
Lemma recover_marked reason_code :
  marked reason_code → ∃ original, recover_action "stop" reason_code = ("force_stop", original).
Proof.
  unfold marked, recover_action. destruct reason_code as [r|]; [|done].
  change (String.eqb "stop" "stop") with true. cbn [andb].
  destruct (bool_decide_reflect (Some r = Some FORCE_STOP_AUDIT_MARKER)) as [|Hne]; [by eauto|].
  intros [->|[original Ho]]; [done|]. cbn [mbind option_bind]. rewrite Ho. eauto.
Qed.

Lemma recover_audit (a : ControlAction) (name : string) (reason_code : option string) :
  action_name a = Some name → (a = Stop → unmarked reason_code) →
  recover_action (audit_action_name name) (audit_reason_code name reason_code) = (name, reason_code).
Proof.
  intros Ha Hmark. destruct (decide (a = ForceStop)) as [->|Hf].
  { injection Ha as <-. unfold audit_action_name, audit_reason_code. simpl.
    destruct reason_code as [r|]; [|done]. unfold recover_action. rewrite String.eqb_refl. cbn [andb].
    rewrite bool_decide_eq_false_2.
    - cbn [mbind option_bind]. by rewrite strip_prefix_app.
    - intros E. apply (inj Some) in E. apply (f_equal (strip_prefix FORCE_STOP_AUDIT_PREFIX)) in E.
      rewrite strip_prefix_app in E. discriminate E. }
  assert (audit_action_name name = name ∧ audit_reason_code name reason_code = reason_code) as [-> ->].
  { destruct a; simplify_eq/=; done. }
  unfold recover_action. destruct (decide (a = Stop)) as [->|Hs].
  - injection Ha as <-. destruct (Hmark eq_refl) as [H1 H2].
    rewrite bool_decide_eq_false_2 by done. cbn [andb].
    destruct reason_code as [r|]; [|done]. cbn [mbind option_bind] in H2 |- *.
    change (String.eqb "stop" "stop") with true. by rewrite H2.
  - assert (String.eqb name "stop" = false) as -> by (destruct a; simplify_eq/=; done).
    simpl. by destruct reason_code.
Qed.

Lemma control_data_fields (action : string) (reason : option string) (ps : option Struct) :
  let d := build_control_data action reason ps in
  get_kind "action" d = Some (VString action)
  ∧ get_kind "reason_code" d = Some (from_option VString (VNull 0) reason)
  ∧ get_kind "parameters" d = Some (VStruct (default [] ps)).
Proof. by destruct reason. Qed.

Section build.
Context `{DomainDeps, EnvelopeDeps, UuidApi}.

(** What an accepted command is made of. *)
Lemma build_control_request_spec (i : ControlCommandInput) (op : OperatorCaller)
  (fresh : string) (now : N) (a : AcceptedCommand) :
  build_control_request i op fresh now = Ok a →
  ∃ name millis hash,
    let id := ac_command_id a in
    let ts := format_rfc3339_micros (millis * 1000) in
    let e := with_integrity (envelope_of i op name id ts) hash in
    allows_scope op (in_workspace_id i) (in_namespace_id i) = true
    ∧ action_name (in_action i) = Some name
    ∧ id = id_or_fresh (in_command_id i) fresh
    ∧ uuidv7_unix_millis id = Some millis
    ∧ command_millis_within_acceptance_window millis now = true
    ∧ canonical_event_hash (envelope_with_placeholder_integrity (envelope_of i op name id ts))
      = Ok hash
    ∧ from_validated_transport e = Ok (ac_request a)
    ∧ ac_delivery a = delivery_of i name id ts.
Proof.
  unfold build_control_request, resolve_command_id_and_timestamp. intros Hb.
  destruct (allows_scope _ _ _); [|done]. cbn [negb] in Hb.
  destruct (action_name (in_action i)) as [name|]; [|done]. cbn [ok_or mbind result_bind] in Hb.
  destruct (uuidv7_unix_millis _) as [millis|] eqn:Hm; [|done].
  cbn [ok_or mbind result_bind] in Hb.
  destruct (command_millis_within_acceptance_window _ _) eqn:Hw; [|done].
  cbn [negb mbind result_bind] in Hb.
  destruct (canonical_event_hash _) as [hash|] eqn:Hh; [|done].
  cbn [map_err mbind result_bind] in Hb.
  destruct (from_validated_transport _) as [r|] eqn:Hr; [|done].
  cbn [map_err mbind result_bind] in Hb. apply (inj Ok) in Hb as <-.
  exists name, millis, hash. by repeat (split; [done|]).
Qed.

(** The delivery record with another action and reason. *)
Definition with_action (action : string) (reason_code : option string) (c : PendingCommand)
    : PendingCommand :=
  mkPendingCommand (pc_command_id c) (pc_workspace_id c) (pc_namespace_id c) (pc_agent_id c)
    (pc_run_id c) (pc_trace_id c) action reason_code (pc_parameters c) (pc_issued_at c)
    (pc_delivery_attempt c).

Lemma rebuild_as `{!EnvelopeLaws} (i : ControlCommandInput) (op : OperatorCaller)
  (fresh : string) (now : N) (a : AcceptedCommand) :
  build_control_request i op fresh now = Ok a →
  ∃ name, action_name (in_action i) = Some name
    ∧ pc_action (ac_delivery a) = name ∧ pc_reason_code (ac_delivery a) = in_reason_code i
    ∧ pending_command_from_ingest_request (ac_request a)
      = let '(action, reason) :=
          recover_action (audit_action_name name) (audit_reason_code name (in_reason_code i)) in
        Ok (with_action action reason (ac_delivery a)).
Proof.
  intros (name & millis & hash & _ & Hn & _ & _ & _ & _ & Hr & Hd)%build_control_request_spec.
  exists name. rewrite Hd. split_and!; [done..|]. apply admitted_request in Hr as (s & [= <-] & ->).
  unfold pending_command_from_ingest_request, request_of. cbn [ir_envelope].
  rewrite decode_encode_envelope. cbn [ok_or mbind result_bind].
  set (d := build_control_data (audit_action_name name)
              (audit_reason_code name (in_reason_code i)) (in_parameters i)).
  destruct (control_data_fields (audit_action_name name)
    (audit_reason_code name (in_reason_code i)) (in_parameters i)) as (Hk1 & Hk2 & Hk3).
  fold d in Hk1, Hk2, Hk3. unfold with_integrity, envelope_of.
  cbn [event_type data scope event_id agent_id run_id trace_id timestamp workspace_id namespace_id
       ok_or mbind result_bind].
  change (9 =? 9)%Z with true. cbn [negb]. fold d. rewrite Hk1, Hk2, Hk3. cbn [mbind result_bind].
  assert (∀ o, match from_option VString (VNull 0) o with
               | VString value => Ok (Some value)
               | VNull _ => Ok None
               | _ => Err internal
               end = @Ok CommandError _ o) as -> by (by intros []).
  cbn [mbind result_bind]. destruct (recover_action _ _) as [action reason].
  unfold with_action, delivery_of. cbn. do 2 f_equal.
  destruct (in_parameters i); [done|]. apply struct_encode_empty.
Qed.

Lemma with_action_same c : with_action (pc_action c) (pc_reason_code c) c = c.
Proof. by destruct c. Qed.

Lemma rebuild_delivery `{!EnvelopeLaws} (i : ControlCommandInput) (op : OperatorCaller)
  (fresh : string) (now : N) (a : AcceptedCommand) :
  build_control_request i op fresh now = Ok a →
  (in_action i = Stop → unmarked (in_reason_code i)) →
  pending_command_from_ingest_request (ac_request a) = Ok (ac_delivery a).
Proof.
  intros (name & Hn & Ha & Hr & ->)%rebuild_as Hmark. rewrite (recover_audit (in_action i)) by done.
  by rewrite <-Ha, <-Hr, with_action_same.
Qed.

(** C38. The delivery record rebuilt from the audit event of a command is the
    record its agent was given, except for a [stop] whose reason code spells the
    internal mark of a [force_stop]: that [stop], which one operator may submit
    alone, is always rebuilt as a [force_stop] for the same agent. *)
Theorem stop_recovered_as_force_stop `{!EnvelopeLaws} (i : ControlCommandInput) (op : OperatorCaller)
  (fresh : string) (now : N) (a : AcceptedCommand) :
  build_control_request i op fresh now = Ok a →
  ∃ d, pending_command_from_ingest_request (ac_request a) = Ok d
    ∧ (d = ac_delivery a ↔ ¬ (in_action i = Stop ∧ marked (in_reason_code i)))
    ∧ (in_action i = Stop → marked (in_reason_code i) →
         pc_action (ac_delivery a) = "stop" ∧ pc_action d = "force_stop"
         ∧ pc_command_id d = ac_command_id a ∧ pc_agent_id d = in_agent_id i
         ∧ pc_workspace_id d = in_workspace_id i ∧ pc_namespace_id d = in_namespace_id i).
Proof.
  intros Hb. destruct (decide (in_action i = Stop ∧ marked (in_reason_code i))) as [[Hs Hm]|Hno].
  - pose proof Hb as (name & millis & hash & _ & _ & _ & _ & _ & _ & _ & Hd)%build_control_request_spec.
    apply rebuild_as in Hb as (name' & Hn & Ha & Hr & ->). rewrite Hs in Hn. injection Hn as <-.
    destruct (recover_marked _ Hm) as [reason Hrec].
    change (recover_action (audit_action_name "stop") (audit_reason_code "stop" (in_reason_code i)))
      with (recover_action "stop" (in_reason_code i)). rewrite Hrec. eexists. split; [done|]. split.
    + split; [|tauto]. intros He. apply (f_equal pc_action) in He. cbn in He. by rewrite Ha in He.
    + intros _ _. rewrite Ha, Hd. done.
  - exists (ac_delivery a). split; [|split; [done|tauto]]. eapply rebuild_delivery; [done|].
    intros Hs. apply not_marked. tauto.
Qed.

(** The two records of a command describe the same command.  Rebuilding the
    delivery record from the audit event yields exactly the record the target
    agent was given, [force_stop] and its reason included, provided a plain
    [stop] does not carry a reason code that spells the [force_stop] mark. *)
Theorem delivery_recovered `{!EnvelopeLaws} (i : ControlCommandInput) (op : OperatorCaller)
  (fresh : string) (now : N) (a : AcceptedCommand) :
  build_control_request i op fresh now = Ok a →
  (in_action i = Stop → unmarked (in_reason_code i)) →
  pending_command_from_ingest_request (ac_request a) = Ok (ac_delivery a).
Proof. apply rebuild_delivery. Qed.

(** An accepted command is bound to its operator, its scope and its clock.
    Its audit event passes the admission gate, names the operator as the actor
    and carries the command's identifier; the operator may act in the command's
    scope; and the timestamp of both records is the one in the identifier,
    which lies within the acceptance window of the gateway's clock. *)
Theorem accepted_command_bound (i : ControlCommandInput) (op : OperatorCaller)
  (fresh : string) (now : N) (a : AcceptedCommand) :
  build_control_request i op fresh now = Ok a →
  allows_scope op (in_workspace_id i) (in_namespace_id i) = true
  ∧ ∃ e millis,
      from_validated_transport e = Ok (ac_request a)
      ∧ event_id e = ac_command_id a ∧ event_type e = 9%Z
      ∧ scope e = Some (mkScope (in_workspace_id i) (in_namespace_id i) [])
      ∧ actor e = Some (mkActor 1 (subject op))
      ∧ timestamp e = format_rfc3339_micros (millis * 1000)
      ∧ timestamp e = pc_issued_at (ac_delivery a)
      ∧ pc_command_id (ac_delivery a) = ac_command_id a
      ∧ uuidv7_unix_millis (ac_command_id a) = Some millis
      ∧ millis ≤ now + MAX_COMMAND_ID_FUTURE_SKEW_MS ∧ now ≤ millis + MAX_COMMAND_ID_AGE_MS.
Proof.
  intros (name & millis & hash & Hs & Hn & _ & Hm & Hw & _ & Hr & Hd)%build_control_request_spec.
  split; [done|]. eexists _, millis. split; [exact Hr|].
  rewrite Hd. repeat (split; [done|]).
  unfold command_millis_within_acceptance_window in Hw.
  destruct (N.ltb_spec now millis); apply N.leb_le in Hw; lia.
Qed.

(** Resubmission is byte-identical.  A command with its own identifier that
    is submitted twice by the same operator, at any two moments it is accepted,
    yields the same audit event and the same delivery record, so that the
    stores recognise the second as a repeat. *)
Theorem resubmission_identical (i : ControlCommandInput) (op : OperatorCaller) (id : string)
  (fresh fresh' : string) (now now' : N) (a a' : AcceptedCommand) :
  in_command_id i = Some id → id ≠ EmptyString →
  build_control_request i op fresh now = Ok a →
  build_control_request i op fresh' now' = Ok a' → a = a'.
Proof.
  intros Hid Hne (name & m & h & _ & Hn & Hi & Hm & _ & Hh & Hr & Hd)%build_control_request_spec
    (name' & m' & h' & _ & Hn' & Hi' & Hm' & _ & Hh' & Hr' & Hd')%build_control_request_spec.
  assert (∀ f, id_or_fresh (in_command_id i) f = id) as Hfresh
    by (intros f; rewrite Hid; by destruct id).
  rewrite Hfresh in Hi, Hi'. destruct a as [c r d], a' as [c' r' d']. simpl in *. subst c c'.
  assert (m' = m) as -> by congruence. assert (name' = name) as -> by congruence.
  assert (h' = h) as -> by congruence. congruence.
Qed.
End build.

(** ** Bulk targets *)

Definition target_fields (t : BulkCommandTarget) : list string :=
  [tg_workspace_id t; tg_namespace_id t; tg_agent_id t; tg_run_id t; tg_trace_id t].

Lemma nul_free_split (a b a' b' : string) :
  no_char "000" a = true → no_char "000" a' = true →
  a +:+ nul +:+ b = a' +:+ nul +:+ b' → a = a' ∧ b = b'.
Proof.
  intros Ha Ha' Heq. apply (f_equal (split_once nul)) in Heq. unfold nul in Heq.
  rewrite !split_once_first in Heq by done. apply (inj Some) in Heq. by apply pair_eq in Heq.
Qed.

Lemma target_preimage_inj (bulk bulk' : string) (t t' : BulkCommandTarget) :
  Forall (λ s, no_char "000" s = true) (bulk :: target_fields t) →
  Forall (λ s, no_char "000" s = true) (bulk' :: target_fields t') →
  target_preimage bulk t = target_preimage bulk' t' →
  bulk = bulk' ∧ target_fields t = target_fields t'.
Proof.
  unfold target_fields, target_preimage. rewrite !Forall_cons.
  intros (? & ? & ? & ? & ? & ? & _) (? & ? & ? & ? & ? & ? & _) Heq.
  repeat (apply nul_free_split in Heq as [? Heq]; [|done..]). split; [done|]. congruence.
Qed.

(** Targets of bulk commands do not share identifiers.  The identifiers
    derived for two targets whose fields are identifiers (as the gateway
    requires) differ unless it is the same bulk and the same target, or the
    hash-derived bits of two different inputs collide. *)
Theorem derived_ids_distinct `{EnvelopeDeps} (bulk bulk' : string) (millis : N)
  (t t' : BulkCommandTarget) :
  no_char "000" bulk = true → no_char "000" bulk' = true →
  Forall (λ s, is_identifier s = true) (target_fields t) →
  Forall (λ s, is_identifier s = true) (target_fields t') →
  derive_target_command_id bulk millis t = derive_target_command_id bulk' millis t' →
  (bulk = bulk' ∧ target_fields t = target_fields t')
  ∨ ∃ x y, x ≠ y ∧ uuid_from_millis millis (String.substring 0 10 (sha256_bytes x))
                   = uuid_from_millis millis (String.substring 0 10 (sha256_bytes y)).
Proof.
  intros Hb Hb' Ht Ht' Heq.
  destruct (decide (target_preimage bulk t = target_preimage bulk' t')) as [Hp|Hp].
  - left. apply target_preimage_inj in Hp; [done|..]; (constructor; [done|]).
    all: eapply Forall_impl; [eassumption|]; intros s; by apply identifier_no_char.
  - right. by exists (target_preimage bulk t), (target_preimage bulk' t').
Qed.

(** ** Concrete commands *)

Definition demo_env : EnvelopeDeps := {|
  struct_encode := struct_bytes;
  envelope_decode s := tree_envelope <$> bytes_tree s;
  sha256_bytes := id;
  uuid_from_millis _ s := s;
|}.

#[global] Instance demo_env_laws : @EnvelopeLaws demo_deps demo_env.
Proof.
  split; [|done]. intros e. simpl. rewrite bytes_tree_bytes. simpl. by rewrite tree_envelope_tree.
Qed.

(** Version 7 identifiers, all of the first instant of 2026. *)
Definition demo_uuid : UuidApi := {|
  Uuid := string;
  uuid_parse_str s := if is_lowercase_uuidv7 s then Some s else None;
  uuid_version_num _ := 7;
  uuid_hyphenated s := s;
  uuid_timestamp _ := Some (1767225600, 0);
|}.

Definition demo_now : N := 1767225600123.
Definition demo_id : string := "0198c1a2-0000-7000-8000-000000000001".
Definition demo_input (a : ControlAction) (reason : option string) : ControlCommandInput :=
  mkInput (Some demo_id) "ws" "ns" "agent-1" "run-1" None "trace-1" a reason None.

Definition demo_build (a : ControlAction) (reason : option string)
    : result CommandError AcceptedCommand :=
  @build_control_request demo_deps demo_env demo_uuid (demo_input a reason)
    (mkOperator "alice" Global) EmptyString demo_now.

Definition demo_accepted (a : ControlAction) (reason : option string) : AcceptedCommand :=
  match demo_build a reason with
  | Ok c => c
  | Err _ => mkAccepted EmptyString (mkIngest EmptyString EmptyString EmptyString EmptyString
      EmptyString) (@delivery_of demo_env (demo_input a reason) EmptyString EmptyString EmptyString)
  end.

Lemma delivery_recovered_witness :
  @pending_command_from_ingest_request demo_env (ac_request (demo_accepted ForceStop (Some "runaway")))
  = Ok (ac_delivery (demo_accepted ForceStop (Some "runaway"))).
Proof.
  apply (@delivery_recovered demo_deps demo_env demo_uuid demo_env_laws
    (demo_input ForceStop (Some "runaway")) (mkOperator "alice" Global) EmptyString demo_now);
    [vm_compute; reflexivity|discriminate].
Defined.

Lemma accepted_command_bound_witness :
  allows_scope (mkOperator "alice" Global) "ws" "ns" = true.
Proof.
  apply (@accepted_command_bound demo_deps demo_env demo_uuid (demo_input Pause None)
    (mkOperator "alice" Global) EmptyString demo_now (demo_accepted Pause None)).
  vm_compute. reflexivity.
Defined.

Lemma resubmission_identical_witness :
  demo_accepted Pause None
  = match @build_control_request demo_deps demo_env demo_uuid (demo_input Pause None)
            (mkOperator "alice" Global) "fresh" (demo_now + 60000) with
    | Ok a => a
    | Err _ => demo_accepted Pause None
    end.
Proof.
  eapply (@resubmission_identical demo_deps demo_env demo_uuid (demo_input Pause None)
    (mkOperator "alice" Global) demo_id EmptyString "fresh" demo_now (demo_now + 60000));
    [reflexivity|discriminate|vm_compute; reflexivity|vm_compute; reflexivity].
Defined.

Definition demo_target (run : string) : BulkCommandTarget :=
  mkTarget "ws" "ns" "agent-1" run None "trace-1".

Lemma derived_ids_distinct_witness :
  (demo_id = demo_id ∧ target_fields (demo_target "run-1") = target_fields (demo_target "run-1"))
  ∨ ∃ x y, x ≠ y ∧ @uuid_from_millis demo_env 0 (String.substring 0 10 (@sha256_bytes demo_env x))
                   = @uuid_from_millis demo_env 0 (String.substring 0 10 (@sha256_bytes demo_env y)).
Proof.
  apply (@derived_ids_distinct demo_env demo_id demo_id 0); try reflexivity;
    repeat constructor.
Defined.

Lemma stop_recovered_as_force_stop_witness :
  let a := demo_accepted Stop (Some "apex.force_stop:calm") in
  ∃ d, @pending_command_from_ingest_request demo_env (ac_request a) = Ok d
    ∧ pc_action (ac_delivery a) = "stop" ∧ pc_action d = "force_stop".
Proof.
  cbv zeta.
  destruct (@stop_recovered_as_force_stop demo_deps demo_env demo_uuid demo_env_laws
    (demo_input Stop (Some "apex.force_stop:calm")) (mkOperator "alice" Global) EmptyString demo_now
    (demo_accepted Stop (Some "apex.force_stop:calm"))) as (d & Hd & _ & Hf).
  - vm_compute. reflexivity.
  - exists d. split; [exact Hd|]. destruct Hf as (Ha & Hf & _); [reflexivity|right; by eexists|].
    split; [exact Ha|exact Hf].
Defined.
