(* ===== verification/ProxyStore.v ===== *)
(** * The proxy store

    [apps/control-plane-api/src/proxy/store.rs] and [store/shared.rs],
    [store/transitions.rs], [store/publish_capabilities.rs],
    [store/memory.rs], [store/memory/lifecycle.rs]: the in-memory store of
    proxies, their draft and published revisions, the idempotency table and the
    lifecycle log.  The whole store is behind one mutex, which a panic of its
    holder poisons; fresh identifiers are arguments. *)
From Stdlib Require Import Ascii.
From stdpp Require Import sorting.
From S2P Require Import Prelude RustStr Digits ProxyText Time OperatorAuth ProxySpec ProxyWire ProxyLifecycle.

Open Scope N_scope.

(** ** Requests and answers *)

Record McpProxy := mkProxy {
  px_proxy_id : ProxyId;
  px_scope : ExactScope;
  px_display_name : string;
  px_slug : string;
  px_description : option string;
  px_owner : option string;
  px_lifecycle_state : ProxyLifecycleState;
  px_redaction_status : ProxyRedactionStatus;
  px_active_revision_id : option ProxyRevisionId;
  px_draft_revision_id : option ProxyRevisionId;
  px_spec : option ProxySpec;
}.

Record McpProxySummary := mkSummary {
  su_proxy_id : ProxyId;
  su_scope : ExactScope;
  su_display_name : string;
  su_slug : string;
  su_lifecycle_state : ProxyLifecycleState;
  su_redaction_status : ProxyRedactionStatus;
  su_active_revision_id : option ProxyRevisionId;
}.

Record CreateProxy := mkCreate {
  cr_request_id : string;
  cr_scope : ExactScope;
  cr_proxy_id : ProxyId;
  cr_display_name : string;
  cr_slug : string;
  cr_description : option string;
  cr_owner : option string;
}.

Record CreateProxyResult := mkCreateResult { co_proxy : McpProxy; co_duplicate : bool }.

Record UpdateProxyDraft := mkUpdate {
  up_request_id : string;
  up_scope : ExactScope;
  up_proxy_id : ProxyId;
  up_expected_revision_id : option ProxyRevisionId;
  up_actor_id : string;
  up_spec : ProxySpec;
}.

Record PublishRevision := mkPublish {
  pb_request_id : string;
  pb_scope : ExactScope;
  pb_proxy_id : ProxyId;
  pb_draft_revision_id : ProxyRevisionId;
  pb_expected_revision_id : option ProxyRevisionId;
  pb_actor_id : string;
}.

Record RetireProxy := mkRetire {
  re_request_id : string;
  re_scope : ExactScope;
  re_proxy_id : ProxyId;
  re_expected_revision_id : option ProxyRevisionId;
}.

Record TransitionProxyLifecycle := mkTransition {
  tr_request_id : string;
  tr_scope : ExactScope;
  tr_proxy_id : ProxyId;
  tr_revision_id : ProxyRevisionId;
  tr_expected_revision_id : option ProxyRevisionId;
  tr_actor_id : string;
  tr_reason_code : string;
  tr_command : LifecycleCommand;
  tr_approved : bool;
}.

Record RotateProxyCredentials := mkRotate {
  ro_request_id : string;
  ro_scope : ExactScope;
  ro_proxy_id : ProxyId;
  ro_revision_id : ProxyRevisionId;
  ro_expected_revision_id : option ProxyRevisionId;
  ro_actor_id : string;
  ro_reason_code : string;
  ro_secret_refs : list SecretRef;
}.

Record RollbackProxy := mkRollback {
  rb_request_id : string;
  rb_scope : ExactScope;
  rb_proxy_id : ProxyId;
  rb_revision_id : ProxyRevisionId;
  rb_target_revision_id : ProxyRevisionId;
  rb_expected_revision_id : option ProxyRevisionId;
  rb_actor_id : string;
  rb_reason_code : string;
}.

Record ListProxyActivity := mkListActivity {
  la_scope : ExactScope;
  la_proxy_id : ProxyId;
  la_page_size : N;
  la_page_token : string;
}.

Record ProxyActivity := mkActivity {
  ac_activity_id : string;
  ac_request_id : string;
  ac_scope : ExactScope;
  ac_proxy_id : ProxyId;
  ac_revision_id : option ProxyRevisionId;
  ac_occurred_at : string;
  ac_actor_id : option string;
  ac_operation : string;
  ac_prior_state : option ProxyLifecycleState;
  ac_next_state : ProxyLifecycleState;
  ac_reason_code : string;
  ac_status : string;
}.

Record ListProxyActivityPage := mkActivityPage {
  ap_activity : list ProxyActivity;
  ap_next_page_token : string;
}.

Record ListProxies := mkListProxies {
  lp_scope : ExactScope;
  lp_page_size : N;
  lp_page_token : string;
}.

Record ListProxiesPage := mkProxiesPage {
  pl_proxies : list McpProxySummary;
  pl_next_page_token : string;
}.

(** ** State *)

(** [transitions::LifecycleTransition]: one line of the lifecycle log. *)
Record TransitionRecord := mkTransitionRecord {
  tl_transition_id : string;
  tl_request_id : string;
  tl_occurred_at_micros : N;
  tl_operation : string;
  tl_scope : ExactScope;
  tl_proxy_id : ProxyId;
  tl_revision_id : option ProxyRevisionId;
  tl_prior_state : option ProxyLifecycleState;
  tl_next_state : ProxyLifecycleState;
  tl_actor_id : option string;
  tl_reason_code : string;
  tl_status : string;
}.

Record StoreProxy := mkStoreProxy {
  sp_proxy_id : ProxyId;
  sp_scope : ExactScope;
  sp_display_name : string;
  sp_slug : string;
  sp_description : option string;
  sp_owner : option string;
  sp_lifecycle_state : ProxyLifecycleState;
  sp_redaction_status : ProxyRedactionStatus;
  sp_active_revision_id : option ProxyRevisionId;
  sp_draft_revision_id : option ProxyRevisionId;
  sp_created_at_micros : N;
}.

Record StoredRevision := mkStored { sr_revision : McpProxyRevision; sr_published : bool }.

Record IdempotencyRecord := mkIdempotency {
  id_request_id : string;
  id_operation : string;
  id_payload_hash : string;
  id_proxy_id : string;
  id_revision_id : option string;
  id_scope : ExactScope;
}.

Record StoreState := mkStore {
  ss_proxies : gmap string StoreProxy;
  ss_revisions : gmap string StoredRevision;
  ss_idempotency : gmap (string * string) IdempotencyRecord;
  ss_transitions : list TransitionRecord;
}.

Definition store_default : StoreState := mkStore ∅ ∅ ∅ [].

Definition set_proxies (m : gmap string StoreProxy) (s : StoreState) : StoreState :=
  mkStore m (ss_revisions s) (ss_idempotency s) (ss_transitions s).
Definition set_revisions (m : gmap string StoredRevision) (s : StoreState) : StoreState :=
  mkStore (ss_proxies s) m (ss_idempotency s) (ss_transitions s).

Definition set_draft_revision (r : ProxyRevisionId) (p : StoreProxy) : StoreProxy :=
  mkStoreProxy (sp_proxy_id p) (sp_scope p) (sp_display_name p) (sp_slug p) (sp_description p)
    (sp_owner p) (sp_lifecycle_state p) (sp_redaction_status p) (sp_active_revision_id p)
    (Some r) (sp_created_at_micros p).
Definition set_active_revision (r : ProxyRevisionId) (p : StoreProxy) : StoreProxy :=
  mkStoreProxy (sp_proxy_id p) (sp_scope p) (sp_display_name p) (sp_slug p) (sp_description p)
    (sp_owner p) (sp_lifecycle_state p) (sp_redaction_status p) (Some r)
    (sp_draft_revision_id p) (sp_created_at_micros p).
Definition set_lifecycle_state (st : ProxyLifecycleState) (p : StoreProxy) : StoreProxy :=
  mkStoreProxy (sp_proxy_id p) (sp_scope p) (sp_display_name p) (sp_slug p) (sp_description p)
    (sp_owner p) st (sp_redaction_status p) (sp_active_revision_id p) (sp_draft_revision_id p)
    (sp_created_at_micros p).
Definition set_revision_state (st : ProxyLifecycleState) (r : StoredRevision) : StoredRevision :=
  let v := sr_revision r in
  mkStored (mkRevision (rv_proxy_id v) (rv_revision_id v) (rv_spec v) (rv_config_hash v) st
    (rv_redaction_status v) (rv_created_by v) (rv_created_at v)) (sr_published r).

(** How an operation ends without an answer: with an error, or unwinding. *)
Inductive StoreFault := Refused (e : ProxyError) | Unwinding.
Abbreviation SM := (ST StoreState StoreFault).

Definition refuse {S A} (e : ProxyError) : ST S StoreFault A := st_throw (Refused e).
Definition checked {S A} (r : result ProxyError A) : ST S StoreFault A := st_lift (map_err Refused r).
(** [expect] on a result. *)
Definition expect {S A} (r : result ProxyError A) : ST S StoreFault A :=
  st_lift (map_err (λ _, Unwinding) r).

Definition configuration_error : ProxyError := mkProxyError "PROXY_STORE_UNAVAILABLE"
  "The MCP proxy store failed to process the request.".

(** [self.state.lock()] and the rest of the method: a panic poisons the lock. *)
Definition with_state {A} (f : SM A) : ST (Mutex StoreState) StoreFault A := λ m,
  if poisoned m then (Err (Refused configuration_error), m)
  else match f (guarded m) with
       | (Err Unwinding, s) => (Err Unwinding, mkMutex true s)
       | (r, s) => (r, mkMutex false s)
       end.

(** ** Keys and cursors *)

Definition revision_key (proxy_id : ProxyId) (revision_id : ProxyRevisionId) : string :=
  proxy_id +:+ ":" +:+ revision_id.
Definition encode_cursor (created_at_micros : N) (proxy_id : ProxyId) : string :=
  decimal created_at_micros +:+ "|" +:+ proxy_id.
Definition parse_cursor (token : string) : result ProxyError (option (N * string)) :=
  if str_is_empty token then Ok None
  else
    match split_once "|" token with
    | None => Err invalid_cursor
    | Some (created_at, proxy_id) =>
        created_at_micros ← ok_or (parse_uint u128_max created_at) invalid_cursor;
        Ok (Some (created_at_micros, proxy_id))
    end.

(** ** Projections *)

(** [StoreProxy::to_proxy]. *)
Definition to_proxy (revisions : gmap string StoredRevision)
    (override_revision : option StoredRevision) (p : StoreProxy) : McpProxy :=
  let draft :=
    match override_revision with
    | Some r => Some r
    | None => sp_draft_revision_id p ≫= λ id, revisions !! revision_key (sp_proxy_id p) id
    end in
  let spec :=
    match draft with
    | Some r => Some (rv_spec (sr_revision r))
    | None =>
        id ← sp_active_revision_id p;
        r ← revisions !! revision_key (sp_proxy_id p) id;
        Some (rv_spec (sr_revision r))
    end in
  mkProxy (sp_proxy_id p) (sp_scope p) (sp_display_name p) (sp_slug p) (sp_description p)
    (sp_owner p) (sp_lifecycle_state p) (sp_redaction_status p) (sp_active_revision_id p)
    (match draft with
     | Some r => Some (rv_revision_id (sr_revision r))
     | None => sp_draft_revision_id p
     end) spec.

(** [StoreProxy::to_summary]. *)
Definition to_summary (p : StoreProxy) : McpProxySummary :=
  mkSummary (sp_proxy_id p) (sp_scope p) (sp_display_name p) (sp_slug p) (sp_lifecycle_state p)
    (sp_redaction_status p) (sp_active_revision_id p).

(** ** The table of requests *)

Definition CREATE_OPERATION : string := "create".
Definition UPDATE_DRAFT_OPERATION : string := "update_draft".
Definition PUBLISH_OPERATION : string := "publish_revision".
Definition RETIRE_OPERATION : string := "retire_proxy".
Definition ROTATE_OPERATION : string := "rotate_proxy_credentials".
Definition ROLLBACK_OPERATION : string := "rollback_proxy".

Definition ensure_scope_match (actual expected : ExactScope) : result ProxyError unit :=
  if bool_decide (actual = expected) then Ok tt else Err proxy_not_found.

Definition check_idempotency_record (record : IdempotencyRecord) (expected_hash : string)
    (expected_scope : ExactScope) : result ProxyError unit :=
  ensure_scope_match (id_scope record) expected_scope ;;
  if negb (String.eqb (id_payload_hash record) expected_hash) then Err idempotency_conflict
  else Ok tt.

(** [StoreState::check_idempotency]. *)
Definition check_idempotency (operation request_id payload_hash : string) (scope : ExactScope)
    (s : StoreState) : result ProxyError (option IdempotencyRecord) :=
  match ss_idempotency s !! (request_id, operation) with
  | None => Ok None
  | Some record => check_idempotency_record record payload_hash scope ;; Ok (Some record)
  end.

(** [StoreState::record_idempotency] and [record_transition]. *)
Definition record_idempotency (r : IdempotencyRecord) (s : StoreState) : StoreState :=
  mkStore (ss_proxies s) (ss_revisions s)
    (<[(id_request_id r, id_operation r) := r]> (ss_idempotency s)) (ss_transitions s).
Definition record_transition (t : TransitionRecord) (s : StoreState) : StoreState :=
  mkStore (ss_proxies s) (ss_revisions s) (ss_idempotency s) (ss_transitions s ++ [t]).

(** [StoreState::ensure_identity_available]. *)
Definition ensure_identity_available (scope : ExactScope) (proxy_id : ProxyId) (slug : string)
    (s : StoreState) : result ProxyError unit :=
  if bool_decide (is_Some (ss_proxies s !! proxy_id))
     || existsb (λ p, bool_decide (sp_scope p = scope) && String.eqb (sp_slug p) slug)
          (map_to_list (ss_proxies s)).*2
  then Err identity_conflict
  else Ok tt.

(** [StoreState::replay_proxy] and [replay_revision]. *)
Definition replay_proxy (record : IdempotencyRecord) (s : StoreState) : result ProxyError McpProxy :=
  proxy ← ok_or (ss_proxies s !! id_proxy_id record) proxy_not_found;
  let override_revision :=
    id_revision_id record ≫= λ r, ss_revisions s !! revision_key (id_proxy_id record) r in
  Ok (to_proxy (ss_revisions s) override_revision proxy).
Definition replay_revision (record : IdempotencyRecord) (s : StoreState)
    : result ProxyError McpProxyRevision :=
  revision_id ← ok_or (id_revision_id record) configuration_error;
  sr_revision <$> ok_or (ss_revisions s !! revision_key (id_proxy_id record) revision_id)
                    revision_not_found.

(** ** Checks of a request *)

(** [validate_request_id]: the microseconds its timestamp names. *)
Definition validate_request_id `{UuidApi} (request_id : string) : result ProxyError N :=
  uuid ← ok_or (uuid_parse_str request_id) invalid_request_id;
  if negb (uuid_version_num uuid =? 7) || negb (String.eqb (uuid_hyphenated uuid) request_id)
  then Err invalid_request_id
  else
    '(secs, nanos) ← ok_or (uuid_timestamp uuid) invalid_request_id;
    Ok (secs * 1000000 + nanos / 1000).

Definition validate_scope (scope : ExactScope) : result ProxyError unit :=
  if negb (is_identifier scope.1) || negb (is_identifier scope.2) then Err invalid_proxy_scope
  else Ok tt.

Definition optional_bounded (value : option string) : result ProxyError (option string) :=
  match value with
  | None => Ok None
  | Some v => Some <$> bounded_required_string v
  end.

Definition validate_create `{UuidApi} (input : CreateProxy)
    : result ProxyError (string * option string * option string) :=
  validate_request_id (cr_request_id input) ≫= λ _,
  validate_scope (cr_scope input) ;;
  display_name ← bounded_required_string (cr_display_name input);
  description ← optional_bounded (cr_description input);
  owner ← optional_bounded (cr_owner input);
  if negb (is_valid_slug (cr_slug input))
  then Err (invalid_proxy_draft "Proxy drafts require a non-empty bounded slug.")
  else Ok (display_name, description, owner).

Definition validate_update `{UuidApi} (input : UpdateProxyDraft)
    : result ProxyError (string * SpecJson) :=
  validate_request_id (up_request_id input) ≫= λ _,
  validate_scope (up_scope input) ;;
  actor_id ← bounded_required_string (up_actor_id input);
  validate_proxy_spec (up_spec input) ;;
  Ok (actor_id, spec_json (up_spec input)).

Definition validate_publish `{UuidApi} (input : PublishRevision) : result ProxyError string :=
  validate_request_id (pb_request_id input) ≫= λ _,
  validate_scope (pb_scope input) ;;
  bounded_required_string (pb_actor_id input).

Definition validate_retire `{UuidApi} (input : RetireProxy) : result ProxyError unit :=
  validate_request_id (re_request_id input) ≫= λ _, validate_scope (re_scope input).

Definition is_reason_byte (index : nat) (c : ascii) : bool :=
  in_range "a" "z" c || is_ascii_digit c || ascii_eqb c "_" || ascii_eqb c "." || ascii_eqb c "-"
  || ((0 <? index)%nat && ascii_eqb c "/").
Definition validate_reason_code (value : string) : result ProxyError string :=
  if str_is_empty value || (128 <? str_len value)
     || negb (forallb (λ p, is_reason_byte p.1 p.2) (imap pair (String.list_ascii_of_string value)))
  then Err (invalid_proxy_spec
    "Proxy lifecycle reason codes must use bounded lowercase domain values.")
  else Ok value.

(** [validate_publish_capabilities]. *)
Definition validate_publish_capabilities (spec : ProxySpec) : result ProxyError unit :=
  let ingress := ProxySpec.sp_ingress spec in
  let runtime := sp_runtime_profile spec in
  let supported :=
    bool_decide (in_transport ingress = StreamableHttp)
    && String.eqb (in_protocol_revision ingress) "2025-11-25"
    && in_authentication_required ingress
    && forallb (λ u, bool_decide (ub_transport u = StreamableHttp)) (sp_upstreams spec)
    && bool_decide (sp_cli_profiles spec = [])
    && forallb (λ t, String.eqb (et_tool_name t) "portfolio.read"
                     && String.eqb (et_alias t) "portfolio.read"
                     && bool_decide (et_classification t = ToolRead)) (sp_exposed_tools spec)
    && bool_decide (gb_approval_mode (sp_governance_binding spec) = ApproveNone)
    && rp_rootless runtime && String.eqb (rp_filesystem_policy runtime) "read-only-rootfs"
    && String.eqb (rp_network_policy runtime) "default-deny" in
  if negb supported
  then Err (invalid_proxy_spec "Publication supports only authenticated Streamable HTTP 2025-11-25, read-only portfolio.read without CLI or approvals, and confined runtime policies.")
  else Ok tt.

(** ** Hashes *)

Section hashes.
Context `{AuthDeps, WireCodec}.

Definition hash_hex (bytes : string) : string := hex_string (sha256_digest bytes).
Definition hash_json (value : SpecJson) : string := hash_hex (json_to_string value).

Definition optional_id (id : option string) : SpecJson :=
  match id with Some s => SString s | None => SNull end.
(** The first fields of every payload. *)
Definition request_fields (request_id : string) (scope : ExactScope) (proxy_id : ProxyId)
    : list (string * SpecJson) :=
  [("request_id", SString request_id); ("workspace_id", SString scope.1);
   ("namespace_id", SString scope.2); ("proxy_id", SString proxy_id)].

Definition create_payload (i : CreateProxy) (display_name : string)
    (description owner : option string) : SpecJson :=
  json_object (request_fields (cr_request_id i) (cr_scope i) (cr_proxy_id i)
    ++ [("display_name", SString display_name); ("slug", SString (cr_slug i));
        ("description", SString (default EmptyString description));
        ("owner", SString (default EmptyString owner))]).
Definition update_payload (i : UpdateProxyDraft) (actor_id : string) (spec : SpecJson) : SpecJson :=
  json_object (request_fields (up_request_id i) (up_scope i) (up_proxy_id i)
    ++ [("expected_revision_id", SString (default EmptyString (up_expected_revision_id i)));
        ("actor_id", SString actor_id); ("spec", SString (json_to_string spec))]).
Definition publish_payload (i : PublishRevision) (actor_id : string) : SpecJson :=
  json_object (request_fields (pb_request_id i) (pb_scope i) (pb_proxy_id i)
    ++ [("draft_revision_id", SString (pb_draft_revision_id i));
        ("expected_revision_id", SString (default EmptyString (pb_expected_revision_id i)));
        ("actor_id", SString actor_id)]).
Definition retire_payload (i : RetireProxy) : SpecJson :=
  json_object (request_fields (re_request_id i) (re_scope i) (re_proxy_id i)
    ++ [("expected_revision_id", SString (default EmptyString (re_expected_revision_id i)))]).
Definition lifecycle_payload (i : TransitionProxyLifecycle) (actor_id reason_code : string)
    : SpecJson :=
  json_object (request_fields (tr_request_id i) (tr_scope i) (tr_proxy_id i)
    ++ [("revision_id", SString (tr_revision_id i));
        ("expected_revision_id", optional_id (tr_expected_revision_id i));
        ("actor_id", SString actor_id); ("reason_code", SString reason_code);
        ("operation", SString (command_operation (tr_command i)));
        ("approved", SBool (tr_approved i))]).
Definition rotate_payload (i : RotateProxyCredentials) (actor_id : string) : SpecJson :=
  json_object (request_fields (ro_request_id i) (ro_scope i) (ro_proxy_id i)
    ++ [("revision_id", SString (ro_revision_id i));
        ("expected_revision_id", optional_id (ro_expected_revision_id i));
        ("actor_id", SString actor_id); ("reason_code", SString (ro_reason_code i));
        ("secret_refs", json_strings (ro_secret_refs i))]).
Definition rollback_payload (i : RollbackProxy) (actor_id : string) : SpecJson :=
  json_object (request_fields (rb_request_id i) (rb_scope i) (rb_proxy_id i)
    ++ [("revision_id", SString (rb_revision_id i));
        ("target_revision_id", SString (rb_target_revision_id i));
        ("expected_revision_id", optional_id (rb_expected_revision_id i));
        ("actor_id", SString actor_id); ("reason_code", SString (rb_reason_code i))]).

(** [build_revision]. *)
Definition build_revision (proxy_id : ProxyId) (revision_id : ProxyRevisionId) (spec : ProxySpec)
    (created_by : string) (lifecycle_state : ProxyLifecycleState)
    (redaction_status : ProxyRedactionStatus) (created_at_micros : N)
    : result ProxyError McpProxyRevision :=
  let config_hash := hash_json (spec_json spec) in
  r ← revision_new proxy_id revision_id spec config_hash lifecycle_state;
  Ok (mkRevision (rv_proxy_id r) (rv_revision_id r) (rv_spec r) (rv_config_hash r)
        (rv_lifecycle_state r) redaction_status created_by
        (format_rfc3339_micros created_at_micros)).

(** ** The operations *)

Context `{UuidApi}.

(** A committed entry of the log: [LifecycleTransition::new] and
    [with_identity], whose fresh identifier is an argument. *)
Definition committed (fresh request_id operation : string) (scope : ExactScope) (proxy_id : ProxyId)
    (revision_id : option ProxyRevisionId) (prior : option ProxyLifecycleState)
    (next : ProxyLifecycleState) (actor_id : option string) (reason_code : string) (micros : N)
    : TransitionRecord :=
  mkTransitionRecord fresh request_id micros operation scope proxy_id revision_id prior next
    actor_id reason_code "committed".

(** The lookup of a proxy the caller's scope owns. *)
Definition owned_proxy (proxy_id : ProxyId) (scope : ExactScope) : SM StoreProxy :=
  s ← st_get;
  proxy ← checked (ok_or (ss_proxies s !! proxy_id) proxy_not_found);
  checked (ensure_scope_match (sp_scope proxy) scope) ≫= λ _,
  mret proxy.

(** [get_mut] on a proxy that is there, and a change to it. *)
Definition update_proxy (proxy_id : ProxyId) (f : StoreProxy → StoreProxy) : SM StoreProxy :=
  s ← st_get;
  proxy ← checked (ok_or (ss_proxies s !! proxy_id) proxy_not_found);
  st_put (set_proxies (<[proxy_id := f proxy]> (ss_proxies s)) s) ≫= λ _,
  mret (f proxy).

Definition insert_revision (key : string) (r : StoredRevision) : SM unit :=
  st_modify (λ s, set_revisions (<[key := r]> (ss_revisions s)) s).

(** [create_with_outcome]. *)
Definition memory_create_with_outcome (fresh : string) (input : CreateProxy)
    : ST (Mutex StoreState) StoreFault CreateProxyResult :=
  '(display_name, description, owner) ← checked (validate_create input);
  created_at_micros ← checked (validate_request_id (cr_request_id input));
  let payload_hash := hash_json (create_payload input display_name description owner) in
  with_state (
    s ← st_get;
    seen ← checked (check_idempotency CREATE_OPERATION (cr_request_id input) payload_hash
                      (cr_scope input) s);
    match seen with
    | Some record => proxy ← checked (replay_proxy record s); mret (mkCreateResult proxy true)
    | None =>
        checked (ensure_identity_available (cr_scope input) (cr_proxy_id input) (cr_slug input) s)
        ≫= λ _,
        let proxy := mkStoreProxy (cr_proxy_id input) (cr_scope input) display_name (cr_slug input)
          description owner Draft Redacted None None created_at_micros in
        let response := to_proxy (ss_revisions s) None proxy in
        st_modify (λ s, set_proxies (<[px_proxy_id response := proxy]> (ss_proxies s)) s) ≫= λ _,
        st_modify (record_transition (committed fresh (cr_request_id input) CREATE_OPERATION
          (px_scope response) (px_proxy_id response) None None Draft None "proxy.created"
          created_at_micros)) ≫= λ _,
        st_modify (record_idempotency (mkIdempotency (cr_request_id input) CREATE_OPERATION
          payload_hash (px_proxy_id response) None (px_scope response))) ≫= λ _,
        mret (mkCreateResult response false)
    end).

(** [update_draft]. *)
Definition memory_update_draft (fresh : string) (input : UpdateProxyDraft)
    : ST (Mutex StoreState) StoreFault McpProxy :=
  '(actor_id, json) ← checked (validate_update input);
  created_at_micros ← checked (validate_request_id (up_request_id input));
  let payload_hash := hash_json (update_payload input actor_id json) in
  with_state (
    s ← st_get;
    seen ← checked (check_idempotency UPDATE_DRAFT_OPERATION (up_request_id input) payload_hash
                      (up_scope input) s);
    match seen with
    | Some record => checked (replay_proxy record s)
    | None =>
        let key := up_proxy_id input in
        current ← owned_proxy key (up_scope input);
        let prior_state := sp_lifecycle_state current in
        if negb (bool_decide (sp_draft_revision_id current = up_expected_revision_id input))
        then refuse revision_conflict
        else
          revision_id ← expect (proxy_revision_id_new (up_request_id input));
          revision ← checked (build_revision (up_proxy_id input) revision_id (up_spec input)
                                actor_id Draft Redacted created_at_micros);
          insert_revision (revision_key (up_proxy_id input) revision_id) (mkStored revision false)
          ≫= λ _,
          proxy ← update_proxy key (set_draft_revision revision_id);
          s ← st_get;
          let response := to_proxy (ss_revisions s) None proxy in
          st_modify (record_transition (committed fresh (up_request_id input)
            UPDATE_DRAFT_OPERATION (px_scope response) (px_proxy_id response) (Some revision_id)
            (Some prior_state) Draft (Some actor_id) "proxy.draft_updated" created_at_micros))
          ≫= λ _,
          st_modify (record_idempotency (mkIdempotency (up_request_id input)
            UPDATE_DRAFT_OPERATION payload_hash key (Some revision_id) (px_scope response)))
          ≫= λ _,
          mret response
    end).

(** [publish_revision]. *)
Definition memory_publish_revision (fresh : string) (input : PublishRevision)
    : ST (Mutex StoreState) StoreFault McpProxyRevision :=
  actor_id ← checked (validate_publish input);
  created_at_micros ← checked (validate_request_id (pb_request_id input));
  let payload_hash := hash_json (publish_payload input actor_id) in
  with_state (
    s ← st_get;
    seen ← checked (check_idempotency PUBLISH_OPERATION (pb_request_id input) payload_hash
                      (pb_scope input) s);
    match seen with
    | Some record => checked (replay_revision record s)
    | None =>
        let key := pb_proxy_id input in
        proxy ← owned_proxy key (pb_scope input);
        let prior_state := sp_lifecycle_state proxy in
        if negb (bool_decide (sp_active_revision_id proxy = pb_expected_revision_id input))
        then refuse revision_conflict
        else if bool_decide (sp_lifecycle_state proxy = Retired) then refuse identity_conflict
        else
          draft ← checked (ok_or (ss_revisions s !! revision_key (pb_proxy_id input)
                                                     (pb_draft_revision_id input))
                             revision_not_found);
          if sr_published draft then refuse immutable_revision
          else
            checked (validate_publish_capabilities (rv_spec (sr_revision draft))) ≫= λ _,
            revision_id ← expect (proxy_revision_id_new (pb_request_id input));
            revision ← checked (build_revision (pb_proxy_id input) revision_id
                                  (rv_spec (sr_revision draft)) actor_id Draft Redacted
                                  created_at_micros);
            insert_revision (revision_key (pb_proxy_id input) revision_id) (mkStored revision true)
            ≫= λ _,
            update_proxy key (set_active_revision revision_id) ≫= λ _,
            st_modify (record_transition (committed fresh (pb_request_id input) PUBLISH_OPERATION
              (pb_scope input) (pb_proxy_id input) (Some revision_id) (Some prior_state) Draft
              (Some actor_id) "proxy.revision_published" created_at_micros)) ≫= λ _,
            st_modify (record_idempotency (mkIdempotency (pb_request_id input) PUBLISH_OPERATION
              payload_hash key (Some revision_id) (pb_scope input))) ≫= λ _,
            mret revision
    end).

(** [get] and [get_revision]. *)
Definition memory_get (scope : ExactScope) (proxy_id : ProxyId)
    : ST (Mutex StoreState) StoreFault McpProxy :=
  checked (validate_scope scope) ≫= λ _,
  with_state (
    proxy ← owned_proxy proxy_id scope;
    s ← st_get;
    mret (to_proxy (ss_revisions s) None proxy)).
Definition memory_get_revision (scope : ExactScope) (proxy_id : ProxyId)
    (revision_id : ProxyRevisionId) : ST (Mutex StoreState) StoreFault McpProxyRevision :=
  checked (validate_scope scope) ≫= λ _,
  with_state (
    owned_proxy proxy_id scope ≫= λ _,
    s ← st_get;
    stored ← checked (ok_or (ss_revisions s !! revision_key proxy_id revision_id)
                        revision_not_found);
    mret (sr_revision stored)).

(** [retire]. *)
Definition memory_retire (fresh : string) (input : RetireProxy)
    : ST (Mutex StoreState) StoreFault McpProxy :=
  checked (validate_retire input) ≫= λ _,
  occurred_at_micros ← checked (validate_request_id (re_request_id input));
  let payload_hash := hash_json (retire_payload input) in
  with_state (
    s ← st_get;
    seen ← checked (check_idempotency RETIRE_OPERATION (re_request_id input) payload_hash
                      (re_scope input) s);
    match seen with
    | Some record => checked (replay_proxy record s)
    | None =>
        let key := re_proxy_id input in
        proxy ← owned_proxy key (re_scope input);
        if negb (bool_decide (sp_active_revision_id proxy = re_expected_revision_id input))
        then refuse revision_conflict
        else
          let prior_state := sp_lifecycle_state proxy in
          proxy ← update_proxy key (set_lifecycle_state Retired);
          s ← st_get;
          let response := to_proxy (ss_revisions s) None proxy in
          st_modify (record_transition (committed fresh (re_request_id input) RETIRE_OPERATION
            (re_scope input) (re_proxy_id input) (re_expected_revision_id input)
            (Some prior_state) Retired None "proxy.retired" occurred_at_micros)) ≫= λ _,
          st_modify (record_idempotency (mkIdempotency (re_request_id input) RETIRE_OPERATION
            payload_hash key None (re_scope input))) ≫= λ _,
          mret response
    end).

(** The check of [transition], [rotate_credentials] and [rollback] that the
    request names the active revision. *)
Definition names_active (proxy : StoreProxy) (expected : option ProxyRevisionId)
    (revision_id : ProxyRevisionId) : bool :=
  bool_decide (sp_active_revision_id proxy = expected)
  && bool_decide (sp_active_revision_id proxy = Some revision_id).

(** [transition]. *)
Definition memory_transition (fresh : string) (input : TransitionProxyLifecycle)
    : ST (Mutex StoreState) StoreFault McpProxy :=
  checked (validate_request_id (tr_request_id input)) ≫= λ occurred_at_micros,
  checked (validate_scope (tr_scope input)) ≫= λ _,
  actor_id ← checked (bounded_required_string (tr_actor_id input));
  reason_code ← checked (validate_reason_code (tr_reason_code input));
  let operation := command_operation (tr_command input) in
  let payload_hash := hash_json (lifecycle_payload input actor_id reason_code) in
  with_state (
    s ← st_get;
    seen ← checked (check_idempotency operation (tr_request_id input) payload_hash
                      (tr_scope input) s);
    match seen with
    | Some record => checked (replay_proxy record s)
    | None =>
        let key := tr_proxy_id input in
        current ← owned_proxy key (tr_scope input);
        if negb (names_active current (tr_expected_revision_id input) (tr_revision_id input))
        then refuse revision_conflict
        else
          transition ← checked (lifecycle_transition_new (sp_lifecycle_state current)
                                  (tr_command input) (tr_approved input));
          let revision_key := revision_key (tr_proxy_id input) (tr_revision_id input) in
          revision ← checked (ok_or (ss_revisions s !! revision_key) revision_not_found);
          if negb (sr_published revision) then refuse immutable_revision
          else
            insert_revision revision_key (set_revision_state (lt_next_state transition) revision)
            ≫= λ _,
            proxy ← update_proxy key (set_lifecycle_state (lt_next_state transition));
            s ← st_get;
            let response := to_proxy (ss_revisions s) None proxy in
            st_modify (record_transition (committed fresh (tr_request_id input) operation
              (tr_scope input) (tr_proxy_id input) (Some (tr_revision_id input))
              (Some (lt_prior_state transition)) (lt_next_state transition) (Some actor_id)
              reason_code occurred_at_micros)) ≫= λ _,
            st_modify (record_idempotency (mkIdempotency (tr_request_id input) operation
              payload_hash key None (tr_scope input))) ≫= λ _,
            mret response
    end).

(** The specification with every credential replaced. *)
Definition rotated_spec (secret_refs : list SecretRef) (spec : ProxySpec) : ProxySpec :=
  mkSpec (ProxySpec.sp_ingress spec)
    ((λ u, mkUpstream (ub_upstream_id u) (ub_display_name u) (ub_transport u) (ub_endpoint u)
             (head secret_refs) secret_refs (ub_server_identity u) (ub_tool_catalog_hash u))
       <$> sp_upstreams spec)
    (sp_exposed_tools spec)
    ((λ p, mkCli (cp_profile_id p) (cp_executable_ref p) (cp_executable_digest p)
             (cp_fixed_argv p) (cp_argv_schema p) (cp_working_directory p)
             (cp_environment_allowlist p) secret_refs (cp_filesystem_policy p)
             (cp_network_policy p) (cp_shell p) (cp_timeout_ms p) (cp_max_output_bytes p)
             (cp_allowed_exit_codes p)) <$> sp_cli_profiles spec)
    (sp_auth_bindings spec) (sp_governance_binding spec) (sp_runtime_profile spec).

(** [rotate_credentials]. *)
Definition memory_rotate_credentials (fresh : string) (input : RotateProxyCredentials)
    : ST (Mutex StoreState) StoreFault McpProxyRevision :=
  occurred_at_micros ← checked (validate_request_id (ro_request_id input));
  if bool_decide (ro_secret_refs input = []) || (MAX_SECRET_REFS <? len (ro_secret_refs input))
  then refuse (invalid_proxy_spec
    "Credential rotation requires a bounded non-empty secret reference set.")
  else
  actor_id ← checked (bounded_required_string (ro_actor_id input));
  reason_code ← checked (validate_reason_code (ro_reason_code input));
  let payload_hash := hash_json (rotate_payload input actor_id) in
  with_state (
    s ← st_get;
    seen ← checked (check_idempotency ROTATE_OPERATION (ro_request_id input) payload_hash
                      (ro_scope input) s);
    match seen with
    | Some record => checked (replay_revision record s)
    | None =>
        let key := ro_proxy_id input in
        current ← owned_proxy key (ro_scope input);
        if bool_decide (sp_lifecycle_state current = Retired)
           || negb (names_active current (ro_expected_revision_id input) (ro_revision_id input))
        then refuse revision_conflict
        else
          source ← checked (ok_or (ss_revisions s !! revision_key (ro_proxy_id input)
                                                      (ro_revision_id input)) revision_not_found);
          if negb (sr_published source) then refuse immutable_revision
          else
            let spec := rotated_spec (ro_secret_refs input) (rv_spec (sr_revision source)) in
            checked (validate_proxy_spec spec) ≫= λ _,
            revision_id ← expect (proxy_revision_id_new (ro_request_id input));
            revision ← checked (build_revision (ro_proxy_id input) revision_id spec actor_id
                                  (rv_lifecycle_state (sr_revision source)) Redacted
                                  occurred_at_micros);
            insert_revision (revision_key (ro_proxy_id input) revision_id) (mkStored revision true)
            ≫= λ _,
            update_proxy key (set_active_revision revision_id) ≫= λ _,
            st_modify (record_transition (committed fresh (ro_request_id input) ROTATE_OPERATION
              (ro_scope input) (ro_proxy_id input) (Some revision_id)
              (Some (rv_lifecycle_state (sr_revision source)))
              (rv_lifecycle_state (sr_revision source)) (Some actor_id) reason_code
              occurred_at_micros)) ≫= λ _,
            st_modify (record_idempotency (mkIdempotency (ro_request_id input) ROTATE_OPERATION
              payload_hash key (Some revision_id) (ro_scope input))) ≫= λ _,
            mret revision
    end).

(** [rollback]. *)
Definition memory_rollback (fresh : string) (input : RollbackProxy)
    : ST (Mutex StoreState) StoreFault McpProxy :=
  occurred_at_micros ← checked (validate_request_id (rb_request_id input));
  actor_id ← checked (bounded_required_string (rb_actor_id input));
  reason_code ← checked (validate_reason_code (rb_reason_code input));
  let payload_hash := hash_json (rollback_payload input actor_id) in
  with_state (
    s ← st_get;
    seen ← checked (check_idempotency ROLLBACK_OPERATION (rb_request_id input) payload_hash
                      (rb_scope input) s);
    match seen with
    | Some record => checked (replay_proxy record s)
    | None =>
        let key := rb_proxy_id input in
        current ← owned_proxy key (rb_scope input);
        if negb (names_active current (rb_expected_revision_id input) (rb_revision_id input))
        then refuse revision_conflict
        else
          target ← checked (ok_or (ss_revisions s !! revision_key (rb_proxy_id input)
                                                      (rb_target_revision_id input))
                              revision_not_found);
          if negb (sr_published target)
             || negb (bool_decide (rv_lifecycle_state (sr_revision target) = Ready))
          then refuse invalid_lifecycle_transition
          else
            let prior_state := sp_lifecycle_state current in
            proxy ← update_proxy key (λ p, set_lifecycle_state Ready
                                            (set_active_revision (rb_target_revision_id input) p));
            s ← st_get;
            let response := to_proxy (ss_revisions s) None proxy in
            st_modify (record_transition (committed fresh (rb_request_id input) ROLLBACK_OPERATION
              (rb_scope input) (rb_proxy_id input) (Some (rb_target_revision_id input))
              (Some prior_state) Ready (Some actor_id) reason_code occurred_at_micros)) ≫= λ _,
            st_modify (record_idempotency (mkIdempotency (rb_request_id input) ROLLBACK_OPERATION
              payload_hash key (Some (rb_target_revision_id input)) (rb_scope input))) ≫= λ _,
            mret response
    end).
End hashes.

(** ** Pages *)

(** [skip] and [take] with [usize] counts. *)
Definition skip {A} (n : N) (l : list A) : list A := if len l <=? n then [] else drop (N.to_nat n) l.
Definition take_n {A} (n : N) (l : list A) : list A := if len l <=? n then l else take (N.to_nat n) l.

(** The order of [list_from_rows]. *)
Definition row_le (a b : StoreProxy) : Prop :=
  sp_created_at_micros a < sp_created_at_micros b
  ∨ (sp_created_at_micros a = sp_created_at_micros b
     ∧ String.leb (sp_proxy_id a) (sp_proxy_id b) = true).
#[global] Instance row_le_dec a b : Decision (row_le a b).
Proof. apply _. Defined.

(** At or before the cursor. *)
Definition before_cursor (cursor : option (N * string)) (p : StoreProxy) : bool :=
  match cursor with
  | None => false
  | Some (created_at_micros, proxy_id) =>
      (sp_created_at_micros p <? created_at_micros)
      || ((sp_created_at_micros p =? created_at_micros) && String.leb (sp_proxy_id p) proxy_id)
  end.

(** The loop of [list_from_rows], with the rows listed so far in order. *)
Fixpoint list_rows (cursor : option (N * string)) (page_size : N) (listed rows : list StoreProxy)
    : list StoreProxy * bool :=
  match rows with
  | [] => (listed, false)
  | proxy :: rows =>
      if before_cursor cursor proxy then list_rows cursor page_size listed rows
      else if N.max page_size 1 <=? len listed then (listed, true)
      else list_rows cursor page_size (listed ++ [proxy]) rows
  end.

(** [size_of::<McpProxySummary>()] on a 64-bit target: two identifiers of 16
    bytes, one of them optional, four strings of 24 and two bytes of states,
    aligned to 8. *)
Definition SUMMARY_BYTES : N := 136.
Definition isize_max : N := 9223372036854775807.

(** [Vec::with_capacity]: it unwinds when the bytes asked for exceed
    [isize::MAX].  That the allocator has fewer ends the process, not the call,
    and is not modelled. *)
Definition with_capacity {S} (capacity bytes : N) : ST S StoreFault unit :=
  if isize_max <? capacity * bytes then st_throw Unwinding else mret tt.

(** [list_from_rows]; the last listed row is the next cursor. *)
Definition list_from_rows {S} (rows : list StoreProxy) (query : ListProxies)
    : ST S StoreFault ListProxiesPage :=
  let rows := merge_sort row_le rows in
  let cursor := match parse_cursor (lp_page_token query) with Ok c => c | Err _ => None end in
  with_capacity (N.max (lp_page_size query) 1) SUMMARY_BYTES ≫= λ _,
  let '(listed, has_more) := list_rows cursor (lp_page_size query) [] rows in
  let next_page_token :=
    if has_more then
      match last listed with
      | Some p => encode_cursor (sp_created_at_micros p) (sp_proxy_id p)
      | None => EmptyString
      end
    else EmptyString in
  mret (mkProxiesPage (to_summary <$> listed) next_page_token).

(** [list]. *)
Definition memory_list (query : ListProxies) : ST (Mutex StoreState) StoreFault ListProxiesPage :=
  checked (validate_scope (lp_scope query)) ≫= λ _,
  checked (parse_cursor (lp_page_token query)) ≫= λ _,
  with_state (
    s ← st_get;
    let rows := filter (λ p, sp_scope p = lp_scope query) (map_to_list (ss_proxies s)).*2 in
    list_from_rows rows query).

(** One entry of the activity list. *)
Definition activity_of (index : N) (entry : TransitionRecord) : ProxyActivity :=
  mkActivity
    (if str_is_empty (tl_transition_id entry) then "legacy-" +:+ decimal index
     else tl_transition_id entry)
    (tl_request_id entry) (tl_scope entry) (tl_proxy_id entry) (tl_revision_id entry)
    (if tl_occurred_at_micros entry =? 0 then EmptyString
     else format_rfc3339_micros (tl_occurred_at_micros entry))
    (tl_actor_id entry) (tl_operation entry) (tl_prior_state entry) (tl_next_state entry)
    (tl_reason_code entry) (tl_status entry).

(** [list_activity]. *)
Definition memory_list_activity (query : ListProxyActivity)
    : ST (Mutex StoreState) StoreFault ListProxyActivityPage :=
  checked (validate_scope (la_scope query)) ≫= λ _,
  start ← checked (if str_is_empty (la_page_token query) then Ok 0
                   else ok_or (parse_uint u64_max (la_page_token query)) invalid_cursor);
  with_state (
    owned_proxy (la_proxy_id query) (la_scope query) ≫= λ _,
    s ← st_get;
    let entries := filter (λ e, tl_proxy_id e = la_proxy_id query ∧ tl_scope e = la_scope query)
                     (ss_transitions s) in
    let page_size := N.max (la_page_size query) 1 in
    let page := imap (λ offset e, activity_of (start + N.of_nat offset) e)
                  (take_n page_size (skip start entries)) in
    let next_page_token :=
      if start + len page <? len entries then decimal (start + len page) else EmptyString in
    mret (mkActivityPage page next_page_token)).
