(* ===== verification/ProxyStoreSpec.v ===== *)
(** * What an operation of the proxy store does

    The mutations of the store as one type, the effect each of them has when it
    commits, and the theorem that an operation of [ProxyStore] ends in one of
    four ways: refused with the store as it was, unwinding with the store as it
    was but the lock poisoned, answered from the request table, or committed
    with exactly that effect. *)
From Stdlib Require Import Ascii.
From S2P Require Import Prelude RustStr Digits ProxyText Time OperatorAuth ProxySpec ProxyWire ProxyLifecycle ProxyStore.

Open Scope N_scope.

Inductive StoreOp :=
  | OpCreate (i : CreateProxy)
  | OpUpdate (i : UpdateProxyDraft)
  | OpPublish (i : PublishRevision)
  | OpRetire (i : RetireProxy)
  | OpTransition (i : TransitionProxyLifecycle)
  | OpRotate (i : RotateProxyCredentials)
  | OpRollback (i : RollbackProxy).

Definition op_request (op : StoreOp) : string :=
  match op with
  | OpCreate i => cr_request_id i | OpUpdate i => up_request_id i
  | OpPublish i => pb_request_id i | OpRetire i => re_request_id i
  | OpTransition i => tr_request_id i | OpRotate i => ro_request_id i
  | OpRollback i => rb_request_id i
  end.
Definition op_scope (op : StoreOp) : ExactScope :=
  match op with
  | OpCreate i => cr_scope i | OpUpdate i => up_scope i | OpPublish i => pb_scope i
  | OpRetire i => re_scope i | OpTransition i => tr_scope i | OpRotate i => ro_scope i
  | OpRollback i => rb_scope i
  end.
Definition op_proxy (op : StoreOp) : ProxyId :=
  match op with
  | OpCreate i => cr_proxy_id i | OpUpdate i => up_proxy_id i | OpPublish i => pb_proxy_id i
  | OpRetire i => re_proxy_id i | OpTransition i => tr_proxy_id i | OpRotate i => ro_proxy_id i
  | OpRollback i => rb_proxy_id i
  end.
Definition op_name (op : StoreOp) : string :=
  match op with
  | OpCreate _ => CREATE_OPERATION
  | OpUpdate _ => UPDATE_DRAFT_OPERATION
  | OpPublish _ => PUBLISH_OPERATION
  | OpRetire _ => RETIRE_OPERATION
  | OpTransition i => command_operation (tr_command i)
  | OpRotate _ => ROTATE_OPERATION
  | OpRollback _ => ROLLBACK_OPERATION
  end.

Inductive Answer :=
  | ACreated (r : CreateProxyResult)
  | AProxy (p : McpProxy)
  | ARevision (r : McpProxyRevision).

Section spec.
Context `{AuthDeps, WireCodec, UuidApi}.

Definition answer {S E A} (f : A → Answer) (m : ST S E A) : ST S E Answer := a ← m; mret (f a).

Definition apply_op (fresh : string) (op : StoreOp) : ST (Mutex StoreState) StoreFault Answer :=
  match op with
  | OpCreate i => answer ACreated (memory_create_with_outcome fresh i)
  | OpUpdate i => answer AProxy (memory_update_draft fresh i)
  | OpPublish i => answer ARevision (memory_publish_revision fresh i)
  | OpRetire i => answer AProxy (memory_retire fresh i)
  | OpTransition i => answer AProxy (memory_transition fresh i)
  | OpRotate i => answer ARevision (memory_rotate_credentials fresh i)
  | OpRollback i => answer AProxy (memory_rollback fresh i)
  end.

(** The object an operation's payload hash covers. *)
Definition op_payload (op : StoreOp) : SpecJson :=
  match op with
  | OpCreate i => create_payload i (cr_display_name i) (cr_description i) (cr_owner i)
  | OpUpdate i => update_payload i (up_actor_id i) (spec_json (up_spec i))
  | OpPublish i => publish_payload i (pb_actor_id i)
  | OpRetire i => retire_payload i
  | OpTransition i => lifecycle_payload i (tr_actor_id i) (tr_reason_code i)
  | OpRotate i => rotate_payload i (ro_actor_id i)
  | OpRollback i => rollback_payload i (rb_actor_id i)
  end.
Definition op_hash (op : StoreOp) : string := hash_json (op_payload op).

(** The answer to a repeated request. *)
Definition replay_answer (op : StoreOp) (record : IdempotencyRecord) (s : StoreState)
    : result ProxyError Answer :=
  match op with
  | OpCreate _ => (λ p, ACreated (mkCreateResult p true)) <$> replay_proxy record s
  | OpUpdate _ | OpRetire _ | OpTransition _ | OpRollback _ => AProxy <$> replay_proxy record s
  | OpPublish _ | OpRotate _ => ARevision <$> replay_revision record s
  end.

(** The revision an operation's record names. *)
Definition op_revision (op : StoreOp) : option ProxyRevisionId :=
  match op with
  | OpCreate _ | OpRetire _ | OpTransition _ => None
  | OpUpdate _ | OpPublish _ | OpRotate _ =>
      match proxy_revision_id_new (op_request op) with Ok r => Some r | Err _ => None end
  | OpRollback i => Some (rb_target_revision_id i)
  end.

(** The proxy an operation writes, and the revision it stores. *)
Inductive effect (s : StoreState) : StoreOp → StoreProxy → option (ProxyRevisionId * StoredRevision) → Prop :=
  | effect_create i micros :
      validate_request_id (cr_request_id i) = Ok micros →
      validate_scope (cr_scope i) = Ok tt →
      ensure_identity_available (cr_scope i) (cr_proxy_id i) (cr_slug i) s = Ok tt →
      effect s (OpCreate i) (mkStoreProxy (cr_proxy_id i) (cr_scope i) (cr_display_name i)
        (cr_slug i) (cr_description i) (cr_owner i) Draft Redacted None None micros) None
  | effect_update i p rid v micros :
      ss_proxies s !! up_proxy_id i = Some p → sp_scope p = up_scope i →
      sp_draft_revision_id p = up_expected_revision_id i →
      validate_proxy_spec (up_spec i) = Ok tt →
      validate_request_id (up_request_id i) = Ok micros →
      proxy_revision_id_new (up_request_id i) = Ok rid →
      build_revision (up_proxy_id i) rid (up_spec i) (up_actor_id i) Draft Redacted micros = Ok v →
      effect s (OpUpdate i) (set_draft_revision rid p) (Some (rid, mkStored v false))
  | effect_publish i p draft rid v micros :
      ss_proxies s !! pb_proxy_id i = Some p → sp_scope p = pb_scope i →
      sp_active_revision_id p = pb_expected_revision_id i → sp_lifecycle_state p ≠ Retired →
      ss_revisions s !! revision_key (pb_proxy_id i) (pb_draft_revision_id i) = Some draft →
      sr_published draft = false →
      validate_publish_capabilities (rv_spec (sr_revision draft)) = Ok tt →
      validate_request_id (pb_request_id i) = Ok micros →
      proxy_revision_id_new (pb_request_id i) = Ok rid →
      build_revision (pb_proxy_id i) rid (rv_spec (sr_revision draft)) (pb_actor_id i) Draft
        Redacted micros = Ok v →
      effect s (OpPublish i) (set_active_revision rid p) (Some (rid, mkStored v true))
  | effect_retire i p :
      ss_proxies s !! re_proxy_id i = Some p → sp_scope p = re_scope i →
      sp_active_revision_id p = re_expected_revision_id i →
      effect s (OpRetire i) (set_lifecycle_state Retired p) None
  | effect_transition i p r next :
      ss_proxies s !! tr_proxy_id i = Some p → sp_scope p = tr_scope i →
      sp_active_revision_id p = Some (tr_revision_id i) →
      transition_state (sp_lifecycle_state p) (tr_command i) (tr_approved i) = Ok next →
      ss_revisions s !! revision_key (tr_proxy_id i) (tr_revision_id i) = Some r →
      sr_published r = true →
      effect s (OpTransition i) (set_lifecycle_state next p)
        (Some (tr_revision_id i, set_revision_state next r))
  | effect_rotate i p source rid v micros :
      ss_proxies s !! ro_proxy_id i = Some p → sp_scope p = ro_scope i →
      sp_lifecycle_state p ≠ Retired → sp_active_revision_id p = Some (ro_revision_id i) →
      ss_revisions s !! revision_key (ro_proxy_id i) (ro_revision_id i) = Some source →
      sr_published source = true →
      validate_proxy_spec (rotated_spec (ro_secret_refs i) (rv_spec (sr_revision source))) = Ok tt →
      validate_request_id (ro_request_id i) = Ok micros →
      proxy_revision_id_new (ro_request_id i) = Ok rid →
      build_revision (ro_proxy_id i) rid
        (rotated_spec (ro_secret_refs i) (rv_spec (sr_revision source))) (ro_actor_id i)
        (rv_lifecycle_state (sr_revision source)) Redacted micros = Ok v →
      effect s (OpRotate i) (set_active_revision rid p) (Some (rid, mkStored v true))
  | effect_rollback i p target :
      ss_proxies s !! rb_proxy_id i = Some p → sp_scope p = rb_scope i →
      sp_active_revision_id p = Some (rb_revision_id i) →
      ss_revisions s !! revision_key (rb_proxy_id i) (rb_target_revision_id i) = Some target →
      sr_published target = true → rv_lifecycle_state (sr_revision target) = Ready →
      effect s (OpRollback i)
        (set_lifecycle_state Ready (set_active_revision (rb_target_revision_id i) p)) None.

(** The store after a commit. *)
Definition commit (op : StoreOp) (p : StoreProxy) (rev : option (ProxyRevisionId * StoredRevision))
    (t : TransitionRecord) (s : StoreState) : StoreState :=
  mkStore (<[op_proxy op := p]> (ss_proxies s))
    (match rev with
     | Some (rid, r) => <[revision_key (op_proxy op) rid := r]> (ss_revisions s)
     | None => ss_revisions s
     end)
    (<[(op_request op, op_name op) := mkIdempotency (op_request op) (op_name op) (op_hash op)
         (op_proxy op) (op_revision op) (op_scope op)]> (ss_idempotency s))
    (ss_transitions s ++ [t]).

(** The answer to a commit: a proxy as the store now shows it, or the revision
    just stored. *)
Definition commit_answer (op : StoreOp) (p : StoreProxy)
    (rev : option (ProxyRevisionId * StoredRevision)) (revisions : gmap string StoredRevision)
    : Answer :=
  match op, rev with
  | OpCreate _, _ => ACreated (mkCreateResult (to_proxy revisions None p) false)
  | (OpPublish _ | OpRotate _), Some (_, r) => ARevision (sr_revision r)
  | _, _ => AProxy (to_proxy revisions None p)
  end.

Inductive outcome (op : StoreOp) (s : StoreState) : result StoreFault Answer → Mutex StoreState → Prop :=
  | outcome_refused e : outcome op s (Err (Refused e)) (mkMutex false s)
  | outcome_unwinding :
      is_ok (validate_request_id (op_request op)) = true →
      (∀ r, proxy_revision_id_new (op_request op) ≠ Ok r) →
      outcome op s (Err Unwinding) (mkMutex true s)
  | outcome_replay record a :
      ss_idempotency s !! (op_request op, op_name op) = Some record →
      id_payload_hash record = op_hash op → id_scope record = op_scope op →
      replay_answer op record s = Ok a →
      outcome op s (Ok a) (mkMutex false s)
  | outcome_commit p rev t a :
      ss_idempotency s !! (op_request op, op_name op) = None →
      effect s op p rev →
      tl_request_id t = op_request op → tl_operation t = op_name op →
      tl_proxy_id t = op_proxy op → tl_scope t = op_scope op →
      a = commit_answer op p rev (ss_revisions (commit op p rev t s)) →
      outcome op s (Ok a) (mkMutex false (commit op p rev t s)).

(** ** Equations of the steps *)

Lemma bind_checked {S A B} (r : result ProxyError A) (k : A → ST S StoreFault B) (s : S) :
  (checked r ≫= k) s = match r with Ok a => k a s | Err e => (Err (Refused e), s) end.
Proof. by destruct r. Qed.
Lemma bind_expect {S A B} (r : result ProxyError A) (k : A → ST S StoreFault B) (s : S) :
  (expect r ≫= k) s = match r with Ok a => k a s | Err _ => (Err Unwinding, s) end.
Proof. by destruct r. Qed.
Lemma bind_get {S B} (k : S → ST S StoreFault B) (s : S) : (st_get ≫= k) s = k s s.
Proof. done. Qed.
Lemma bind_modify {S B} (f : S → S) (k : unit → ST S StoreFault B) (s : S) :
  (st_modify f ≫= k) s = k tt (f s).
Proof. done. Qed.
Lemma bind_insert {B} key r (k : unit → SM B) s :
  (insert_revision key r ≫= k) s = k tt (set_revisions (<[key := r]> (ss_revisions s)) s).
Proof. done. Qed.
Lemma bind_owned {B} id sc (k : StoreProxy → SM B) s :
  (owned_proxy id sc ≫= k) s =
  match ss_proxies s !! id with
  | Some p => if bool_decide (sp_scope p = sc) then k p s else (Err (Refused proxy_not_found), s)
  | None => (Err (Refused proxy_not_found), s)
  end.
Proof.
  unfold owned_proxy, mbind, st_bind, st_get, checked, st_lift, ensure_scope_match.
  destruct (ss_proxies s !! id); [|done]. simpl. by case_bool_decide.
Qed.
Lemma bind_update {B} id f (k : StoreProxy → SM B) s p :
  ss_proxies s !! id = Some p →
  (update_proxy id f ≫= k) s = k (f p) (set_proxies (<[id := f p]> (ss_proxies s)) s).
Proof.
  intros Hp. unfold update_proxy, mbind, st_bind, st_get, checked, st_lift.
  by rewrite Hp.
Qed.

Lemma run_with_state {A} (f : SM A) (s : StoreState) :
  with_state f (mkMutex false s) =
  match f s with
  | (Err Unwinding, s') => (Err Unwinding, mkMutex true s')
  | (r, s') => (r, mkMutex false s')
  end.
Proof. done. Qed.

Lemma answer_run {S A} (f : A → Answer) (m : ST S StoreFault A) (s : S) :
  answer f m s = match m s with (Ok a, s') => (Ok (f a), s') | (Err e, s') => (Err e, s') end.
Proof. done. Qed.

Lemma bounded_same (v v' : string) : bounded_required_string v = Ok v' → v' = v.
Proof. unfold bounded_required_string. case_match; naive_solver. Qed.
Lemma reason_same (v v' : string) : validate_reason_code v = Ok v' → v' = v.
Proof. unfold validate_reason_code. case_match; naive_solver. Qed.
Lemma optional_bounded_same (v v' : option string) : optional_bounded v = Ok v' → v' = v.
Proof.
  destruct v as [v|]; simpl; [|naive_solver].
  destruct (bounded_required_string v) as [w|] eqn:E; simpl; [|done].
  intros [= <-]. by rewrite (bounded_same _ _ E).
Qed.

(** What the checks of a request return: its own values. *)
Lemma validate_create_inv i x :
  validate_create i = Ok x →
  x = (cr_display_name i, cr_description i, cr_owner i)
  ∧ validate_scope (cr_scope i) = Ok tt ∧ ∃ micros, validate_request_id (cr_request_id i) = Ok micros.
Proof.
  intros Hv. unfold validate_create in Hv.
  apply result_bind_ok in Hv as (micros & Hm & Hv). apply result_seq_ok in Hv as (Hs & Hv).
  apply result_bind_ok in Hv as (name & Hn & Hv). apply result_bind_ok in Hv as (desc & Hd & Hv).
  apply result_bind_ok in Hv as (owner & Ho & Hv).
  destruct (is_valid_slug (cr_slug i)); [|done]. simpl in Hv. simplify_eq.
  apply bounded_same in Hn as ->. apply optional_bounded_same in Hd as ->, Ho as ->. eauto.
Qed.
Lemma validate_update_inv i x :
  validate_update i = Ok x →
  x = (up_actor_id i, spec_json (up_spec i)) ∧ validate_proxy_spec (up_spec i) = Ok tt
  ∧ ∃ micros, validate_request_id (up_request_id i) = Ok micros.
Proof.
  intros Hv. unfold validate_update in Hv.
  apply result_bind_ok in Hv as (micros & Hm & Hv). apply result_seq_ok in Hv as (_ & Hv).
  apply result_bind_ok in Hv as (actor & Hn & Hv). apply result_seq_ok in Hv as (Hspec & Hv).
  simplify_eq. apply bounded_same in Hn as ->. eauto.
Qed.
Lemma validate_publish_inv i x :
  validate_publish i = Ok x →
  x = pb_actor_id i ∧ ∃ micros, validate_request_id (pb_request_id i) = Ok micros.
Proof.
  intros Hv. unfold validate_publish in Hv.
  apply result_bind_ok in Hv as (micros & Hm & Hv). apply result_seq_ok in Hv as (_ & Hv).
  apply bounded_same in Hv as ->. eauto.
Qed.
Lemma validate_retire_inv i x :
  validate_retire i = Ok x → ∃ micros, validate_request_id (re_request_id i) = Ok micros.
Proof. intros Hv. unfold validate_retire in Hv. apply result_bind_ok in Hv as (micros & Hm & _). eauto. Qed.

(** The look at the request table, in front of every mutation. *)
Lemma check_idempotency_cases operation request_id hash scope s :
  (check_idempotency operation request_id hash scope s = Ok None
   ∧ ss_idempotency s !! (request_id, operation) = None)
  ∨ (∃ e, check_idempotency operation request_id hash scope s = Err e)
  ∨ (∃ record, check_idempotency operation request_id hash scope s = Ok (Some record)
     ∧ ss_idempotency s !! (request_id, operation) = Some record
     ∧ id_payload_hash record = hash ∧ id_scope record = scope).
Proof.
  unfold check_idempotency. destruct (ss_idempotency s !! _) as [record|]; [|by left]. right.
  unfold check_idempotency_record, ensure_scope_match.
  case_bool_decide as Hs; [|by left; eexists]. cbn [mbind result_bind].
  destruct (String.eqb_spec (id_payload_hash record) hash) as [Hh|]; [|by left; eexists].
  right. by exists record.
Qed.

Lemma check_idempotency_new operation request_id hash scope s :
  ss_idempotency s !! (request_id, operation) = None →
  check_idempotency operation request_id hash scope s = Ok None.
Proof. unfold check_idempotency. by intros ->. Qed.

(** Every proxy is filed under its own identifier. *)
Definition keyed (s : StoreState) : Prop :=
  ∀ id p, ss_proxies s !! id = Some p → sp_proxy_id p = id.

Definition ends (op : StoreOp) (s : StoreState) (x : result StoreFault Answer * Mutex StoreState) : Prop :=
  outcome op s x.1 x.2.

Lemma commit_ends op s p rev t a s' :
  ss_idempotency s !! (op_request op, op_name op) = None → effect s op p rev →
  tl_request_id t = op_request op → tl_operation t = op_name op →
  tl_proxy_id t = op_proxy op → tl_scope t = op_scope op →
  s' = commit op p rev t s → a = commit_answer op p rev (ss_revisions s') →
  ends op s (Ok a, mkMutex false s').
Proof. intros ? ? ? ? ? ? -> ->. by eapply outcome_commit. Qed.

End spec.

(** Runs a store operation in the goal up to its next decision. *)
Ltac store_run :=
  repeat first
    [ rewrite bind_get | rewrite bind_modify | rewrite bind_insert | rewrite bind_checked
    | rewrite bind_expect | rewrite bind_owned | rewrite run_with_state
    | progress cbv beta iota delta [negb orb andb] ].

(** The look at the request table, the repeated request answered. *)
Ltac store_seen :=
  match goal with |- context [check_idempotency ?o ?r ?h ?sc ?s] =>
    let Hr := fresh "Hr" in let Hh := fresh "Hh" in let Hs := fresh "Hs" in
    let record := fresh "record" in
    destruct (check_idempotency_cases o r h sc s)
      as [[-> Hr]|[[? ->]|(record & -> & Hr & Hh & Hs)]]; store_run;
    [ | by constructor
      | let Ha := fresh "Ha" in
        match goal with
        | |- context [replay_proxy ?r ?s] => destruct (replay_proxy r s) eqn:Ha
        | |- context [replay_revision ?r ?s] => destruct (replay_revision r s) eqn:Ha
        end;
        store_run; [|by constructor];
        apply (outcome_replay _ _ record); [done|done|done|by simpl; rewrite Ha] ]
  end.

(** The proxy an operation is about, which is the caller's. *)
Ltac store_owned p Hp Hs :=
  match goal with |- context [ss_proxies ?s !! ?id] =>
    destruct (ss_proxies s !! id) as [p|] eqn:Hp; [|by constructor];
    case_bool_decide as Hs; [|by constructor]; store_run
  end.

(** The commit whose log entry the goal shows. *)
Ltac store_commit E :=
  match goal with |- context [record_transition ?t] =>
    eapply (commit_ends _ _ _ _ t); [done|by apply E|done|done| | | |]; first [done|simpl; eauto|idtac]
  end.

Section outcomes.
Context `{AuthDeps, WireCodec, UuidApi}.

Lemma create_ends fresh i s : ends (OpCreate i) s (apply_op fresh (OpCreate i) (mkMutex false s)).
Proof.
  unfold apply_op. rewrite answer_run. unfold memory_create_with_outcome. store_run.
  destruct (validate_create i) as [x|] eqn:Hv; [|constructor].
  destruct (validate_create_inv i x Hv) as (-> & Hs & micros & Hm). rewrite Hm. store_run. store_seen.
  destruct (ensure_identity_available _ _ _ _) as [[]|] eqn:Ha; store_run; [|constructor].
  store_commit (effect_create s i micros).
Qed.

Lemma update_ends fresh i s :
  keyed s → ends (OpUpdate i) s (apply_op fresh (OpUpdate i) (mkMutex false s)).
Proof.
  intros Hk. unfold apply_op. rewrite answer_run. unfold memory_update_draft. store_run.
  destruct (validate_update i) as [x|] eqn:Hv; [|constructor].
  destruct (validate_update_inv i x Hv) as (-> & Hspec & micros & Hm). rewrite Hm. store_run. store_seen.
  store_owned p Hp Hsc. case_bool_decide as Hx; store_run; [|constructor].
  destruct (proxy_revision_id_new (up_request_id i)) as [rid|] eqn:Hrid; store_run;
    [|constructor; simpl; rewrite ?Hm, ?Hrid; done].
  destruct (build_revision _ _ _ _ _ _ _) as [v|] eqn:Hb; store_run; [|constructor].
  rewrite (bind_update _ _ _ _ p) by done. store_run.
  store_commit (effect_update s i p rid v micros).
  unfold commit, op_revision. simpl. by rewrite Hrid, Hsc.
Qed.

Lemma publish_ends fresh i s : ends (OpPublish i) s (apply_op fresh (OpPublish i) (mkMutex false s)).
Proof.
  unfold apply_op. rewrite answer_run. unfold memory_publish_revision. store_run.
  destruct (validate_publish i) as [x|] eqn:Hv; [|constructor].
  destruct (validate_publish_inv i x Hv) as (-> & micros & Hm). rewrite Hm. store_run. store_seen.
  store_owned p Hp Hsc. case_bool_decide as Hx; store_run; [|constructor].
  case_bool_decide as Hret; [constructor|].
  store_run. destruct (ss_revisions s !! _) as [draft|] eqn:Hd; simpl ok_or; store_run; [|constructor].
  destruct (sr_published draft) eqn:Hpub; [constructor|]. store_run.
  destruct (validate_publish_capabilities _) as [[]|] eqn:Hc; store_run; [|constructor].
  destruct (proxy_revision_id_new (pb_request_id i)) as [rid|] eqn:Hrid; store_run;
    [|constructor; simpl; rewrite ?Hm, ?Hrid; done].
  destruct (build_revision _ _ _ _ _ _ _) as [v|] eqn:Hb; store_run; [|constructor].
  rewrite (bind_update _ _ _ _ p) by done. store_run.
  store_commit (effect_publish s i p draft rid v micros).
  unfold commit, op_revision. simpl. by rewrite Hrid.
Qed.

Lemma retire_ends fresh i s : ends (OpRetire i) s (apply_op fresh (OpRetire i) (mkMutex false s)).
Proof.
  unfold apply_op. rewrite answer_run. unfold memory_retire. store_run.
  destruct (validate_retire i) as [x|] eqn:Hv; [|constructor].
  destruct (validate_retire_inv i x Hv) as (micros & Hm). rewrite Hm. store_run. store_seen.
  store_owned p Hp Hsc. case_bool_decide as Hx; store_run; [|constructor].
  rewrite (bind_update _ _ _ _ p) by done. store_run.
  store_commit (effect_retire s i p).
Qed.

Lemma names_active_true p expected r :
  names_active p expected r = true → sp_active_revision_id p = Some r.
Proof. unfold names_active. rewrite andb_true_iff. rewrite !bool_decide_eq_true. naive_solver. Qed.

Lemma transition_ends fresh i s :
  ends (OpTransition i) s (apply_op fresh (OpTransition i) (mkMutex false s)).
Proof.
  unfold apply_op. rewrite answer_run. unfold memory_transition. store_run.
  destruct (validate_request_id _) as [micros|] eqn:Hm; [|constructor]. store_run.
  destruct (validate_scope _) as [[]|] eqn:Hs; [|constructor]. store_run.
  destruct (bounded_required_string _) as [actor|] eqn:Hn; [|constructor].
  apply bounded_same in Hn as ->. store_run.
  destruct (validate_reason_code _) as [reason|] eqn:Hn; [|constructor].
  apply reason_same in Hn as ->. store_run. store_seen. store_owned p Hp Hsc.
  destruct (names_active _ _ _) eqn:Hx; store_run; [|constructor].
  apply names_active_true in Hx. unfold lifecycle_transition_new.
  destruct (transition_state _ _ _) as [next|] eqn:Ht; [|constructor]. cbn [mbind result_bind]. store_run.
  destruct (ss_revisions s !! _) as [r|] eqn:Hd; simpl ok_or; store_run; [|constructor].
  destruct (sr_published r) eqn:Hpub; store_run; [|constructor].
  rewrite (bind_update _ _ _ _ p) by done. store_run.
  store_commit (effect_transition s i p r next).
Qed.

Lemma rotate_ends fresh i s : ends (OpRotate i) s (apply_op fresh (OpRotate i) (mkMutex false s)).
Proof.
  unfold apply_op. rewrite answer_run. unfold memory_rotate_credentials. store_run.
  destruct (validate_request_id _) as [micros|] eqn:Hm; [|constructor]. store_run.
  case_bool_decide; store_run; [constructor|]. destruct (_ <? _); [constructor|]. store_run.
  destruct (bounded_required_string _) as [actor|] eqn:Hn; [|constructor].
  apply bounded_same in Hn as ->. store_run.
  destruct (validate_reason_code _) as [reason|] eqn:Hn; [|constructor].
  apply reason_same in Hn as ->. store_run. store_seen. store_owned p Hp Hsc.
  case_bool_decide as Hret; store_run; [constructor|].
  destruct (names_active _ _ _) eqn:Hx; store_run; [|constructor].
  apply names_active_true in Hx.
  destruct (ss_revisions s !! _) as [source|] eqn:Hd; simpl ok_or; store_run; [|constructor].
  destruct (sr_published source) eqn:Hpub; store_run; [|constructor].
  destruct (validate_proxy_spec _) as [[]|] eqn:Hspec; store_run; [|constructor].
  destruct (proxy_revision_id_new (ro_request_id i)) as [rid|] eqn:Hrid; store_run;
    [|constructor; simpl; rewrite ?Hm, ?Hrid; done].
  destruct (build_revision _ _ _ _ _ _ _) as [v|] eqn:Hb; store_run; [|constructor].
  rewrite (bind_update _ _ _ _ p) by done. store_run.
  store_commit (effect_rotate s i p source rid v micros).
  unfold commit, op_revision. simpl. by rewrite Hrid.
Qed.

Lemma rollback_ends fresh i s :
  ends (OpRollback i) s (apply_op fresh (OpRollback i) (mkMutex false s)).
Proof.
  unfold apply_op. rewrite answer_run. unfold memory_rollback. store_run.
  destruct (validate_request_id _) as [micros|] eqn:Hm; [|constructor]. store_run.
  destruct (bounded_required_string _) as [actor|] eqn:Hn; [|constructor].
  apply bounded_same in Hn as ->. store_run.
  destruct (validate_reason_code _) as [reason|] eqn:Hn; [|constructor].
  apply reason_same in Hn as ->. store_run. store_seen. store_owned p Hp Hsc.
  destruct (names_active _ _ _) eqn:Hx; store_run; [|constructor].
  apply names_active_true in Hx.
  destruct (ss_revisions s !! _) as [target|] eqn:Hd; simpl ok_or; store_run; [|constructor].
  destruct (sr_published target) eqn:Hpub; store_run; [|constructor].
  case_bool_decide as Hready; store_run; [|constructor].
  rewrite (bind_update _ _ _ _ p) by done. store_run.
  store_commit (effect_rollback s i p target).
Qed.

(** Every mutation of the store ends in one of the four ways. *)
Lemma apply_op_ends fresh op s : keyed s → ends op s (apply_op fresh op (mkMutex false s)).
Proof.
  destruct op; intros Hk; [apply create_ends|by apply update_ends|apply publish_ends
    |apply retire_ends|apply transition_ends|apply rotate_ends|apply rollback_ends].
Qed.
End outcomes.
