(* ===== verification/ProxyStoreWf.v ===== *)
(** * Well-formed proxy stores

    The invariant of the store of [ProxyStore]: every proxy is filed under its
    own identifier, draft and active revisions exist, every stored revision is
    of a valid specification and carries its hash, slugs are unique in a scope,
    every answered request names a proxy of its scope, and the log has exactly
    one entry per answered request. *)
From Stdlib Require Import Ascii.
From S2P Require Import Prelude RustStr Digits ProxyText Time OperatorAuth ProxySpec ProxySpecLaws ProxyLifecycle ProxyWire ProxyWireLaws ProxyStore ProxyStoreSpec Envelope.

Open Scope N_scope.

Definition is_id (s : string) : Prop := is_lowercase_uuidv7 s = true.

Lemma is_id_len s : is_id s → str_len s = 36.
Proof. unfold is_id, is_lowercase_uuidv7. rewrite !andb_true_iff, N.eqb_eq. tauto. Qed.

Lemma revision_key_inj a a' b b' :
  is_id a → is_id a' → revision_key a b = revision_key a' b' → a = a' ∧ b = b'.
Proof.
  intros Ha%is_id_len Ha'%is_id_len. unfold revision_key, str_len in *. revert a' Ha' Ha.
  intros a' Ha' Ha. assert (Hl : String.length a = String.length a') by lia. clear Ha Ha'.
  revert a' Hl. induction a as [|c a IH]; intros [|c' a']; simpl; try done.
  - intros _ [= He]. exact (conj eq_refl He).
  - intros [= Hl] [= -> He]. by destruct (IH a' Hl He) as [-> ->].
Qed.

Section wf.
Context `{AuthDeps, WireCodec, UuidApi}.

(** A stored revision. *)
Record revision_ok (key : string) (v : McpProxyRevision) : Prop := {
  ro_key : key = revision_key (rv_proxy_id v) (rv_revision_id v);
  ro_proxy : is_id (rv_proxy_id v);
  ro_revision : is_id (rv_revision_id v);
  ro_valid : validate_proxy_spec (rv_spec v) = Ok tt;
  ro_ports : Forall port_fits (rp_destinations (sp_runtime_profile (rv_spec v)));
  ro_hash : rv_config_hash v = hash_json (spec_json (rv_spec v));
}.

Definition log_key (t : TransitionRecord) : string * string := (tl_request_id t, tl_operation t).

(** The revision [r] of the proxy [id] is stored. *)
Definition holds (s : StoreState) (id r : string) : Prop :=
  is_id r ∧ is_Some (ss_revisions s !! revision_key id r).

(** An answered request is about a proxy of its scope, and a stored revision. *)
Definition request_ok (s : StoreState) (key : string * string) (r : IdempotencyRecord) : Prop :=
  key = (id_request_id r, id_operation r)
  ∧ (∃ p, ss_proxies s !! id_proxy_id r = Some p ∧ sp_scope p = id_scope r)
  ∧ (∀ rid, id_revision_id r = Some rid → holds s (id_proxy_id r) rid)
  ∧ (id_operation r = PUBLISH_OPERATION ∨ id_operation r = ROTATE_OPERATION → is_Some (id_revision_id r)).

Record wf (s : StoreState) : Prop := {
  wf_keyed : keyed s;
  wf_ids id p : ss_proxies s !! id = Some p → is_id id;
  wf_draft id p r : ss_proxies s !! id = Some p → sp_draft_revision_id p = Some r → holds s id r;
  wf_active id p r : ss_proxies s !! id = Some p → sp_active_revision_id p = Some r → holds s id r;
  wf_revisions key r : ss_revisions s !! key = Some r → revision_ok key (sr_revision r);
  wf_slugs id id' p p' :
    ss_proxies s !! id = Some p → ss_proxies s !! id' = Some p' →
    sp_scope p = sp_scope p' → sp_slug p = sp_slug p' → id = id';
  wf_requests key r : ss_idempotency s !! key = Some r → request_ok s key r;
  wf_log_once : NoDup (log_key <$> ss_transitions s);
  wf_log_all key : key ∈ log_key <$> ss_transitions s ↔ is_Some (ss_idempotency s !! key);
}.

(** What the types of a request say of its values: a [ProxyId] is a lowercase
    version 7 identifier, a port is a [u16]. *)
Definition op_typed (op : StoreOp) : Prop :=
  is_id (op_proxy op)
  ∧ match op with
    | OpUpdate i => Forall port_fits (rp_destinations (sp_runtime_profile (up_spec i)))
    | _ => True
    end.

Lemma holds_ids s id r v :
  wf s → is_id id → ss_revisions s !! revision_key id r = Some v →
  rv_proxy_id (sr_revision v) = id ∧ rv_revision_id (sr_revision v) = r ∧ is_id r.
Proof.
  intros Hwf Hid Hv. destruct (wf_revisions s Hwf _ _ Hv) as [Hk Hp Hr _ _ _].
  destruct (revision_key_inj _ _ _ _ Hid Hp Hk) as [-> ->]. done.
Qed.

(** The revision of a request identifier is that identifier. *)
Lemma request_revision r micros rid :
  validate_request_id r = Ok micros → proxy_revision_id_new r = Ok rid → rid = r ∧ is_id r.
Proof.
  unfold validate_request_id, proxy_revision_id_new, parse_uuid_v7, is_id.
  destruct (is_lowercase_uuidv7 r) eqn:Hl; [|done]. cbn [negb].
  destruct (uuid_parse_str r) as [u|]; [|done]. cbn [ok_or mbind result_bind fmap option_fmap option_map].
  destruct (uuid_version_num u =? 7); [|done]. simpl.
  destruct (String.eqb_spec (uuid_hyphenated u) r) as [He|]; [|done]. intros _ [= <-]. done.
Qed.

Lemma request_revision_new r micros :
  validate_request_id r = Ok micros → is_id r → proxy_revision_id_new r = Ok r.
Proof.
  unfold validate_request_id, proxy_revision_id_new, parse_uuid_v7, is_id. intros Hm ->.
  destruct (uuid_parse_str r) as [u|]; [|done]. simpl.
  simpl in Hm. destruct (uuid_version_num u =? 7); [|done]. simpl in Hm.
  by destruct (String.eqb_spec (uuid_hyphenated u) r) as [->|].
Qed.

Lemma build_revision_ok pid rid spec by_ state red micros v :
  is_id pid → is_id rid → Forall port_fits (rp_destinations (sp_runtime_profile spec)) →
  build_revision pid rid spec by_ state red micros = Ok v →
  revision_ok (revision_key pid rid) v ∧ rv_spec v = spec ∧ rv_lifecycle_state v = state.
Proof.
  intros Hp Hr Hf. unfold build_revision, revision_new. intros Hb.
  apply result_bind_ok in Hb as (w & Hw & [= <-]). apply result_seq_ok in Hw as (Hw & [= <-]).
  unfold validate_mcp_proxy_revision in Hw. apply result_seq_ok in Hw as (Hw & _). done.
Qed.

(** Where the digest has 32 bytes, a valid specification makes a revision. *)
Lemma build_revision_total pid rid spec by_ state red micros :
  (∀ bytes, str_len (sha256_digest bytes) = 32) → validate_proxy_spec spec = Ok tt →
  ∃ v, build_revision pid rid spec by_ state red micros = Ok v ∧ rv_spec v = spec.
Proof.
  intros Hd Hs. unfold build_revision, revision_new, validate_mcp_proxy_revision. cbn [rv_spec rv_config_hash].
  rewrite Hs. cbn [mbind result_bind].
  rewrite (proj2 (validate_hex_hash_ok _ _)); [by eexists|].
  unfold hex64_ok, hash_json, hash_hex. rewrite hex_string_len, Hd. split; [done|apply hex_string_lower].
Qed.

(** ** What a commit writes *)

(** A change to a proxy keeps what identifies it. *)
Definition same_identity (p p' : StoreProxy) : Prop :=
  sp_proxy_id p' = sp_proxy_id p ∧ sp_scope p' = sp_scope p ∧ sp_slug p' = sp_slug p
  ∧ sp_created_at_micros p' = sp_created_at_micros p.

Definition op_creates (op : StoreOp) : bool := match op with OpCreate _ => true | _ => false end.

Lemma effect_identity s op p rev :
  keyed s → effect s op p rev →
  sp_proxy_id p = op_proxy op ∧ sp_scope p = op_scope op
  ∧ if op_creates op
    then ensure_identity_available (op_scope op) (op_proxy op) (sp_slug p) s = Ok tt
    else ∃ p0, ss_proxies s !! op_proxy op = Some p0 ∧ same_identity p0 p.
Proof.
  intros Hk He. destruct He; simpl; (split; [by (apply Hk || done)|]); (split; [done|]); try done;
    eexists; (split; [eassumption|]); by repeat split.
Qed.

Lemma identity_available scope id slug s :
  ensure_identity_available scope id slug s = Ok tt →
  ss_proxies s !! id = None
  ∧ ∀ id' p, ss_proxies s !! id' = Some p → sp_scope p = scope → sp_slug p ≠ slug.
Proof.
  unfold ensure_identity_available. case_bool_decide as Hs; [done|].
  destruct (existsb _ _) eqn:He; [done|]. intros _. split; [by apply eq_None_not_Some|].
  intros id' p Hp Hsc Hsl. apply not_true_iff_false in He. apply He, existsb_exists.
  exists p. split; [|by rewrite bool_decide_true, Hsl, String.eqb_refl].
  apply list_elem_of_In, list_elem_of_fmap. exists (id', p). split; [done|]. by apply elem_of_map_to_list.
Qed.

(** The revision a commit stores is in order. *)
Lemma effect_stored s op p rid r :
  wf s → op_typed op → effect s op p (Some (rid, r)) →
  revision_ok (revision_key (op_proxy op) rid) (sr_revision r) ∧ is_id rid.
Proof.
  intros Hwf [Hid Hports] He. inversion He; subst; simpl in *.
  all: repeat match goal with
    | Hm : validate_request_id ?q = Ok _, Hr : proxy_revision_id_new ?q = Ok _ |- _ =>
        destruct (request_revision _ _ _ Hm Hr) as [-> ?]; clear Hm
    | Hd : ss_revisions _ !! _ = Some _ |- _ =>
        pose proof (wf_revisions s Hwf _ _ Hd) as []; clear Hd
    end.
  1-2, 4: by edestruct build_revision_ok as (? & _ & _); [..|eassumption|]; eauto.
  match goal with
  | Hp : is_id (rv_proxy_id _), Hk : revision_key _ _ = _ |- _ =>
      destruct (revision_key_inj _ _ _ _ Hid Hp Hk) as [_ E]
  end.
  by split; [constructor|rewrite E].
Qed.

Lemma holds_commit s op p rev t id r : holds s id r → holds (commit op p rev t s) id r.
Proof.
  intros [Hr Hs]. split; [done|]. destruct rev as [[rid v]|]; [|done]. simpl.
  by apply lookup_insert_is_Some'; right.
Qed.
Lemma holds_stored s op p t rid r :
  is_id rid → holds (commit op p (Some (rid, r)) t s) (op_proxy op) rid.
Proof. intros Hr. split; [done|]. by simpl; rewrite lookup_insert_eq. Qed.

(** The revisions a written proxy and its request record name are stored. *)
Lemma effect_pointers s op p rev t r :
  wf s → op_typed op → effect s op p rev →
  sp_draft_revision_id p = Some r ∨ sp_active_revision_id p = Some r ∨ op_revision op = Some r →
  holds (commit op p rev t s) (op_proxy op) r.
Proof.
  intros Hwf Ht He Hr.
  assert (Hnew : ∀ rid v, rev = Some (rid, v) → is_id rid).
  { intros rid v ->. by apply (effect_stored s op p rid v). }
  inversion He; subst; unfold op_revision in Hr; cbn in Hr;
    repeat match goal with Hq : proxy_revision_id_new _ = Ok _ |- _ => rewrite Hq in Hr end;
    destruct Hr as [Hr|[Hr|Hr]]; simplify_eq;
    first [ by apply holds_stored; eapply Hnew
          | by apply holds_commit; eauto using wf_draft, wf_active
          | apply holds_commit; split; [|by eexists]; destruct Ht; by eapply holds_ids ].
Qed.

(** The slug and the scope of a proxy never change, so its slug stays its own. *)
Lemma commit_slugs s op p rev id p' :
  wf s → effect s op p rev → ss_proxies s !! id = Some p' →
  sp_scope p = sp_scope p' → sp_slug p = sp_slug p' → op_proxy op = id.
Proof.
  intros Hwf He Hp' Hsc Hsl. destruct (effect_identity s op p rev) as (_ & Hs & Hi); [apply Hwf|done|].
  destruct (op_creates op).
  - destruct (identity_available _ _ _ _ Hi) as [_ Hfree].
    by destruct (Hfree id p' Hp'); congruence.
  - destruct Hi as (p0 & Hp0 & _ & Es & El & _).
    eapply (wf_slugs s Hwf); [done|done|congruence..].
Qed.

Lemma commit_proxy_scope s op p rev t id q :
  wf s → effect s op p rev → ss_proxies s !! id = Some q →
  ∃ q', ss_proxies (commit op p rev t s) !! id = Some q' ∧ sp_scope q' = sp_scope q.
Proof.
  intros Hwf He Hq. destruct (effect_identity s op p rev) as (_ & Hs & Hi); [apply Hwf|done|].
  simpl. destruct (decide (op_proxy op = id)) as [<-|Hn].
  - rewrite lookup_insert_eq. exists p. split; [done|]. destruct (op_creates op).
    + apply identity_available in Hi as [Hi _]. by rewrite Hi in Hq.
    + destruct Hi as (p0 & Hp0 & _ & Es & _). congruence.
  - rewrite lookup_insert_ne by done. by exists q.
Qed.

(** A publication and a rotation name the revision they store. *)
Lemma effect_revision s op p rev :
  effect s op p rev → op_name op = PUBLISH_OPERATION ∨ op_name op = ROTATE_OPERATION →
  is_Some (op_revision op).
Proof.
  intros He Hn. destruct He; unfold op_revision; simpl in *;
    repeat match goal with Hq : proxy_revision_id_new _ = Ok _ |- _ => rewrite Hq; clear Hq end;
    try done; by destruct Hn; try destruct (tr_command _).
Qed.

Lemma commit_requests s op p rev t key r :
  wf s → op_typed op → effect s op p rev →
  ss_idempotency (commit op p rev t s) !! key = Some r → request_ok (commit op p rev t s) key r.
Proof.
  intros Hwf Ht He. cbn [ss_idempotency commit]. intros [[<- <-]|[Hn Hr]]%lookup_insert_Some.
  - split; [done|]. split.
    + exists p. split; [by simpl; rewrite lookup_insert_eq|]. by eapply effect_identity; [apply Hwf|].
    + split; [intros rid Hr; eapply effect_pointers; eauto|by apply (effect_revision s op p rev)].
  - destruct (wf_requests s Hwf _ _ Hr) as (-> & (q & Hq & Hsc) & Hh & Hs). split; [done|]. split.
    + destruct (commit_proxy_scope s op p rev t _ q Hwf He Hq) as (q' & ? & ?).
      exists q'. split; [done|congruence].
    + split; [|done]. intros rid Hrid. by apply holds_commit, Hh.
Qed.

Lemma commit_lookup op p rev t s id q :
  ss_proxies (commit op p rev t s) !! id = Some q →
  (op_proxy op = id ∧ p = q) ∨ (op_proxy op ≠ id ∧ ss_proxies s !! id = Some q).
Proof. apply lookup_insert_Some. Qed.

Lemma commit_wf s op p rev t :
  wf s → op_typed op → ss_idempotency s !! (op_request op, op_name op) = None →
  effect s op p rev → tl_request_id t = op_request op → tl_operation t = op_name op →
  wf (commit op p rev t s).
Proof.
  intros Hwf Ht Hnone He Hq Ho.
  destruct (effect_identity s op p rev) as (Hid & Hsc & _); [apply Hwf|done|]. split.
  - intros id q [[<- <-]|[_ Hl]]%commit_lookup; [done|by apply Hwf].
  - intros id q [[<- <-]|[_ Hl]]%commit_lookup; [apply Ht|by eapply wf_ids].
  - intros id q r [[<- <-]|[_ Hl]]%commit_lookup Hr; [by eapply effect_pointers; eauto|].
    by eapply holds_commit, wf_draft.
  - intros id q r [[<- <-]|[_ Hl]]%commit_lookup Hr; [by eapply effect_pointers; eauto|].
    by eapply holds_commit, wf_active.
  - intros key r. destruct rev as [[rid v]|]; simpl; [|by apply Hwf].
    intros [[<- <-]|[_ Hl]]%lookup_insert_Some; [by eapply effect_stored|by apply Hwf].
  - intros id id' q q' [[<- <-]|[_ Hl]]%commit_lookup [[<- <-]|[_ Hl']]%commit_lookup Es El;
      [done|by eapply commit_slugs| |by eapply wf_slugs].
    by symmetry; eapply commit_slugs.
  - intros key r Hr. by apply commit_requests.
  - cbn [ss_transitions commit]. rewrite fmap_app. apply NoDup_app. split; [apply Hwf|]. split.
    + intros k Hk ->%list_elem_of_singleton. apply (wf_log_all s Hwf) in Hk.
      unfold log_key in Hk. rewrite Hq, Ho, Hnone in Hk. by destruct Hk.
    + apply NoDup_singleton.
  - intros key. cbn [ss_transitions ss_idempotency commit]. rewrite fmap_app, elem_of_app.
    rewrite (wf_log_all s Hwf), lookup_insert_is_Some'. cbn [fmap list_fmap].
    rewrite list_elem_of_singleton. unfold log_key. rewrite Hq, Ho. naive_solver.
Qed.

(** ** Runs *)

Definition new_store : Mutex StoreState := mkMutex false store_default.

(** A run of requests, each with the identifier its log entry gets. *)
Fixpoint run_store (l : list (string * StoreOp)) (m : Mutex StoreState) : Mutex StoreState :=
  match l with
  | [] => m
  | (fresh, op) :: l => run_store l (apply_op fresh op m).2
  end.

Lemma run_store_app l l' m : run_store (l ++ l') m = run_store l' (run_store l m).
Proof. revert m. induction l as [|[f op] l IH]; intros m; simpl; [done|apply IH]. Qed.

Lemma wf_default : wf store_default.
Proof. split; try done; [by constructor|]. intros key. by split; [intros ?%elem_of_nil|intros [? ?]]. Qed.

Lemma apply_op_wf fresh op m :
  poisoned m = false → wf (guarded m) → op_typed op → wf (guarded (apply_op fresh op m).2).
Proof.
  intros Hm Hwf Ht. destruct m as [poisoned s]. simpl in *. subst poisoned.
  pose proof (apply_op_ends fresh op s (wf_keyed s Hwf)) as He.
  destruct (apply_op fresh op (mkMutex false s)) as [r m']. unfold ends in He. simpl in *.
  destruct He; simpl; try done. by apply commit_wf.
Qed.

(** A poisoned store answers nothing and changes nothing. *)
Definition refuses {A} (f : ST (Mutex StoreState) StoreFault A) : Prop :=
  ∀ s, ∃ e, f (mkMutex true s) = (Err (Refused e), mkMutex true s).
Lemma refuses_locked {A} (f : SM A) : refuses (with_state f).
Proof. intros s. by eexists. Qed.
Lemma refuses_refuse {A} e : refuses (refuse (A:=A) e).
Proof. intros s. by eexists. Qed.
Lemma refuses_checked {A B} (r : result ProxyError A) (k : A → ST (Mutex StoreState) StoreFault B) :
  (∀ a, refuses (k a)) → refuses (checked r ≫= k).
Proof. intros Hk s. rewrite bind_checked. destruct r as [a|]; [apply Hk|by eexists]. Qed.

Lemma poisoned_refuses fresh op : refuses (apply_op fresh op).
Proof.
  assert (Ha : ∀ A (f : A → Answer) m, refuses m → refuses (answer f m)).
  { intros A f m Hm s. rewrite answer_run. destruct (Hm s) as [e ->]. by eexists. }
  destruct op; apply Ha;
    [unfold memory_create_with_outcome|unfold memory_update_draft|unfold memory_publish_revision
    |unfold memory_retire|unfold memory_transition|unfold memory_rotate_credentials|unfold memory_rollback];
    repeat first [ apply refuses_locked | apply refuses_refuse | apply refuses_checked; intros | case_match ].
Qed.

Lemma run_store_wf l m : Forall op_typed l.*2 → wf (guarded m) → wf (guarded (run_store l m)).
Proof.
  revert m. induction l as [|[fresh op] l IH]; intros m Hl Hwf; simpl; [done|].
  inversion_clear Hl as [|? ? Ht Hl']. apply IH; [done|].
  destruct (poisoned m) eqn:Hp; [|by apply apply_op_wf].
  destruct m as [b s]. simpl in Hp. subst b.
  destruct (poisoned_refuses fresh op s) as [e ->]. done.
Qed.

(** An identifier the check of requests accepts is one [ProxyRevisionId::new]
    accepts.  The two differ on version 7 identifiers of another variant. *)
Definition regular_id (op : StoreOp) : Prop :=
  is_ok (validate_request_id (op_request op)) = true →
  is_ok (proxy_revision_id_new (op_request op)) = true.

(** Requests with regular identifiers never unwind: the store stays usable. *)
Lemma store_usable l m :
  Forall op_typed l.*2 → Forall regular_id l.*2 → wf (guarded m) → poisoned m = false →
  poisoned (run_store l m) = false.
Proof.
  revert m. induction l as [|[fresh op] l IH]; intros m Hl Hr Hwf Hp; simpl; [done|].
  inversion_clear Hl as [|? ? Ht Hl']. inversion_clear Hr as [|? ? Hid Hr'].
  apply IH; [done..|by apply apply_op_wf|].
  destruct m as [b s]. simpl in *. subst b.
  pose proof (apply_op_ends fresh op s (wf_keyed s Hwf)) as He.
  destruct (apply_op fresh op (mkMutex false s)) as [r m']. unfold ends in He. simpl in *.
  destruct He as [|Hok Hno| |]; try done. specialize (Hid Hok).
  destruct (proxy_revision_id_new (op_request op)) as [x|]; [by destruct (Hno x)|done].
Qed.
End wf.

(** * A proxy's life, step by step

    Concrete requests to the store of [ProxyStore], from the creation of a
    proxy to its retirement, with concrete functions in the place of the hash,
    the JSON text and the [uuid] crate. *)

(** The first 32 bytes, where there are that many. *)
Fixpoint pad (n : nat) (s : string) : string :=
  match n with
  | O => EmptyString
  | S n => match s with
           | EmptyString => String "0" (pad n EmptyString)
           | String c s => String c (pad n s)
           end
  end.
Lemma pad_len n s : str_len (pad n s) = N.of_nat n.
Proof.
  unfold str_len. f_equal. revert s. induction n as [|n IH]; intros s; [done|].
  by destruct s; simpl; f_equal.
Qed.

#[global] Instance dm_auth : AuthDeps := {| header_to_str := Some; sha256_digest := pad 32 |}.
#[global] Instance dm_wire : WireCodec := demo_wire.
#[global] Instance dm_uuid : UuidApi := demo_uuid.

Definition dm_scope : ExactScope := ("acme", "prod").
Definition dm_id : ProxyId := "0198c1a2-0000-7000-8000-0000000000a1".
Definition dm_request (n : ascii) : string := "0198c1a2-0000-7000-8000-00000000000" +:+ String n EmptyString.

Definition dm_create : StoreOp :=
  OpCreate (mkCreate (dm_request "1") dm_scope dm_id "Portfolio" "portfolio" None None).
Definition dm_update : StoreOp :=
  OpUpdate (mkUpdate (dm_request "2") dm_scope dm_id None "alice" demo_spec).
Definition dm_publish : StoreOp :=
  OpPublish (mkPublish (dm_request "3") dm_scope dm_id (dm_request "2") None "alice").
Definition dm_step (n : ascii) (c : LifecycleCommand) : StoreOp :=
  OpTransition (mkTransition (dm_request n) dm_scope dm_id (dm_request "3") (Some (dm_request "3"))
    "alice" "operator.request" c true).
Definition dm_retire : StoreOp :=
  OpRetire (mkRetire (dm_request "8") dm_scope dm_id (Some (dm_request "3"))).

Definition dm_run (ops : list StoreOp) : list (string * StoreOp) := pair "log" <$> ops.
Definition dm_published : list (string * StoreOp) := dm_run [dm_create; dm_update; dm_publish].
Definition dm_served : list (string * StoreOp) :=
  dm_run [dm_create; dm_update; dm_publish; dm_step "4" Validate; dm_step "5" ValidationSucceeded;
          dm_step "6" Deploy; dm_step "7" MarkReady].

Lemma dm_typed (ops : list StoreOp) :
  forallb (λ op, String.eqb (op_proxy op) dm_id) ops = true →
  Forall (λ op, match op with OpUpdate i => up_spec i = demo_spec | _ => True end) ops →
  Forall op_typed ops.
Proof.
  intros Hid Hs. apply Forall_forall. intros op Hop. split.
  - pose proof (proj1 (forallb_forall _ _) Hid op (proj1 (list_elem_of_In _ _) Hop)) as He.
    apply String.eqb_eq in He. rewrite He. vm_compute. reflexivity.
  - rewrite Forall_forall in Hs. specialize (Hs op Hop). destruct op; try done. rewrite Hs. by repeat constructor.
Qed.
