(* ===== verification/ProxyStoreOnce.v ===== *)
(** * Requests to the proxy store take effect once

    A request answered by the store of [ProxyStore] is recorded with what it
    did.  Repeated at any later moment it is answered from that record, changes
    nothing and stays one line of the lifecycle log. *)
From Stdlib Require Import Ascii.
From S2P Require Import Prelude RustStr Digits ProxyText Time OperatorAuth ProxySpec ProxyWire ProxyWireLaws ProxyLifecycle ProxyStore ProxyStoreSpec ProxyStoreWf.

Open Scope N_scope.

Section once.
Context `{AuthDeps, WireCodec, UuidApi}.

(** The record a repeated request is answered from. *)
Definition answered (op : StoreOp) (record : IdempotencyRecord) (s : StoreState) : Prop :=
  ss_idempotency s !! (op_request op, op_name op) = Some record
  ∧ id_payload_hash record = op_hash op ∧ id_scope record = op_scope op.

Lemma check_idempotency_seen operation request_id hash scope s record :
  ss_idempotency s !! (request_id, operation) = Some record →
  id_payload_hash record = hash → id_scope record = scope →
  check_idempotency operation request_id hash scope s = Ok (Some record).
Proof.
  intros Hr <- <-. unfold check_idempotency. rewrite Hr.
  unfold check_idempotency_record, ensure_scope_match.
  by rewrite bool_decide_true, String.eqb_refl.
Qed.

(** A request is refused whatever the store holds, or its record answers it. *)
Definition replays (op : StoreOp) : Prop :=
  ∀ fresh record s, answered op record s →
    apply_op fresh op (mkMutex false s)
    = (map_err Refused (replay_answer op record s), mkMutex false s).
Definition invalid (op : StoreOp) : Prop :=
  ∀ fresh m, ∃ e, apply_op fresh op m = (Err (Refused e), m).

End once.

(** Answers a repeated request from its record. *)
Ltac store_replay record :=
  match goal with |- context [check_idempotency ?o ?r ?h ?sc ?s] =>
    rewrite (check_idempotency_seen o r h sc s record) by assumption; store_run;
    cbn [replay_answer];
    match goal with
    | |- context [replay_proxy ?r ?s] => by destruct (replay_proxy r s)
    | |- context [replay_revision ?r ?s] => by destruct (replay_revision r s)
    end
  end.

(** The refusal of a request by a check that fails. *)
Ltac store_invalid e :=
  left; intros ? ?; exists e; unfold apply_op; rewrite answer_run.

Section replay.
Context `{AuthDeps, WireCodec, UuidApi}.

Lemma create_replays i : invalid (OpCreate i) ∨ replays (OpCreate i).
Proof.
  destruct (validate_create i) as [x|e] eqn:Hv.
  - right. intros fresh record s (Hr & Hh & Hs). unfold apply_op. rewrite answer_run.
    unfold memory_create_with_outcome. store_run. rewrite Hv.
    destruct (validate_create_inv i x Hv) as (-> & _ & micros & ->). store_run. store_replay record.
  - store_invalid e. unfold memory_create_with_outcome. by rewrite bind_checked, Hv.
Qed.
Lemma update_replays i : invalid (OpUpdate i) ∨ replays (OpUpdate i).
Proof.
  destruct (validate_update i) as [x|e] eqn:Hv.
  - right. intros fresh record s (Hr & Hh & Hs). unfold apply_op. rewrite answer_run.
    unfold memory_update_draft. store_run. rewrite Hv.
    destruct (validate_update_inv i x Hv) as (-> & _ & micros & ->). store_run. store_replay record.
  - store_invalid e. unfold memory_update_draft. by rewrite bind_checked, Hv.
Qed.
Lemma publish_replays i : invalid (OpPublish i) ∨ replays (OpPublish i).
Proof.
  destruct (validate_publish i) as [x|e] eqn:Hv.
  - right. intros fresh record s (Hr & Hh & Hs). unfold apply_op. rewrite answer_run.
    unfold memory_publish_revision. store_run. rewrite Hv.
    destruct (validate_publish_inv i x Hv) as (-> & micros & ->). store_run. store_replay record.
  - store_invalid e. unfold memory_publish_revision. by rewrite bind_checked, Hv.
Qed.
Lemma retire_replays i : invalid (OpRetire i) ∨ replays (OpRetire i).
Proof.
  destruct (validate_retire i) as [x|e] eqn:Hv.
  - right. intros fresh record s (Hr & Hh & Hs). unfold apply_op. rewrite answer_run.
    unfold memory_retire. store_run. rewrite Hv.
    destruct (validate_retire_inv i x Hv) as (micros & ->). store_run. store_replay record.
  - store_invalid e. unfold memory_retire. by rewrite bind_checked, Hv.
Qed.
Lemma transition_replays i : invalid (OpTransition i) ∨ replays (OpTransition i).
Proof.
  unfold invalid, replays, apply_op. unfold memory_transition.
  destruct (validate_request_id _) as [micros|e]; [|left; intros; exists e; done].
  destruct (validate_scope _) as [[]|e]; [|left; intros; exists e; done].
  destruct (bounded_required_string _) as [actor|e] eqn:Hn; [|left; intros; exists e; done].
  apply bounded_same in Hn as ->.
  destruct (validate_reason_code _) as [reason|e] eqn:Hn; [|left; intros; exists e; done].
  apply reason_same in Hn as ->. right. intros fresh record s (Hr & Hh & Hs).
  rewrite answer_run. store_run. store_replay record.
Qed.
Lemma rotate_replays i : invalid (OpRotate i) ∨ replays (OpRotate i).
Proof.
  unfold invalid, replays, apply_op. unfold memory_rotate_credentials.
  destruct (validate_request_id _) as [micros|e]; [|left; intros; exists e; done].
  destruct (bool_decide _ || _) eqn:Hb; [left; intros; eexists; done|].
  destruct (bounded_required_string _) as [actor|e] eqn:Hn; [|left; intros; exists e; done].
  apply bounded_same in Hn as ->.
  destruct (validate_reason_code _) as [reason|e] eqn:Hn; [|left; intros; exists e; done].
  apply reason_same in Hn as ->. right. intros fresh record s (Hr & Hh & Hs).
  rewrite answer_run. store_run. store_replay record.
Qed.
Lemma rollback_replays i : invalid (OpRollback i) ∨ replays (OpRollback i).
Proof.
  unfold invalid, replays, apply_op. unfold memory_rollback.
  destruct (validate_request_id _) as [micros|e]; [|left; intros; exists e; done].
  destruct (bounded_required_string _) as [actor|e] eqn:Hn; [|left; intros; exists e; done].
  apply bounded_same in Hn as ->.
  destruct (validate_reason_code _) as [reason|e] eqn:Hn; [|left; intros; exists e; done].
  apply reason_same in Hn as ->. right. intros fresh record s (Hr & Hh & Hs).
  rewrite answer_run. store_run. store_replay record.
Qed.

Lemma invalid_or_replays op : invalid op ∨ replays op.
Proof.
  destruct op; [apply create_replays|apply update_replays|apply publish_replays|apply retire_replays
    |apply transition_replays|apply rotate_replays|apply rollback_replays].
Qed.

(** What an answer is about: a proxy, or one of its revisions. *)
Definition answer_subject (a : Answer) : ProxyId * option ProxyRevisionId :=
  match a with
  | ACreated r => (px_proxy_id (co_proxy r), None)
  | AProxy p => (px_proxy_id p, None)
  | ARevision v => (rv_proxy_id v, Some (rv_revision_id v))
  end.
Definition record_subject (op : StoreOp) (r : IdempotencyRecord) : ProxyId * option ProxyRevisionId :=
  (id_proxy_id r, match op with OpPublish _ | OpRotate _ => id_revision_id r | _ => None end).

Lemma replay_proxy_wf s key r :
  wf s → ss_idempotency s !! key = Some r →
  ∃ p, replay_proxy r s = Ok p ∧ px_proxy_id p = id_proxy_id r.
Proof.
  intros Hwf Hr. destruct (wf_requests s Hwf _ _ Hr) as (_ & (p & Hp & _) & _).
  unfold replay_proxy. rewrite Hp. eexists. split; [done|]. by apply (wf_keyed s Hwf).
Qed.
Lemma replay_revision_wf s key r :
  wf s → ss_idempotency s !! key = Some r →
  id_operation r = PUBLISH_OPERATION ∨ id_operation r = ROTATE_OPERATION →
  ∃ v, replay_revision r s = Ok v ∧ rv_proxy_id v = id_proxy_id r
       ∧ Some (rv_revision_id v) = id_revision_id r.
Proof.
  intros Hwf Hr Ho. destruct (wf_requests s Hwf _ _ Hr) as (_ & (p & Hp & _) & Hh & Hs).
  destruct (Hs Ho) as [rid Hrid]. destruct (Hh rid Hrid) as [_ [v Hv]].
  unfold replay_revision. rewrite Hrid. cbn [ok_or mbind result_bind]. rewrite Hv.
  destruct (holds_ids s (id_proxy_id r) rid v) as (<- & <- & _); [done|by eapply wf_ids|done|].
  by eexists.
Qed.

(** The record of an answered request answers it again. *)
Lemma replay_answer_wf s op r :
  wf s → answered op r s →
  ∃ a, replay_answer op r s = Ok a ∧ answer_subject a = record_subject op r.
Proof.
  intros Hwf (Hr & _ & _).
  assert (Ho : id_operation r = op_name op).
  { by destruct (wf_requests s Hwf _ _ Hr) as ([= _ <-] & _). }
  destruct op; simpl in Ho |- *;
    try (destruct (replay_proxy_wf s _ r Hwf Hr) as (p & -> & Hp);
         eexists; split; [done|]; unfold record_subject; simpl; by rewrite Hp);
    destruct (replay_revision_wf s _ r Hwf Hr) as (v & -> & Hp & Hv); auto;
    eexists; (split; [done|]); unfold record_subject; simpl; by rewrite Hp, Hv.
Qed.

(** The record of a commit is about what its answer is about. *)
Lemma commit_subject s op p rev revisions :
  wf s → op_typed op → effect s op p rev →
  answer_subject (commit_answer op p rev revisions)
  = record_subject op (mkIdempotency (op_request op) (op_name op) (op_hash op) (op_proxy op)
                         (op_revision op) (op_scope op)).
Proof.
  intros Hwf Ht He. destruct (effect_identity s op p rev) as (Hp & _); [apply Hwf|done|].
  assert (Hs : ∀ rid r, rev = Some (rid, r) →
    rv_proxy_id (sr_revision r) = op_proxy op ∧ rv_revision_id (sr_revision r) = rid).
  { intros rid r ->. destruct (effect_stored s op p rid r Hwf Ht He) as [[Hk Hq _ _ _ _] _].
    destruct (revision_key_inj _ _ _ _ (proj1 Ht) Hq Hk) as [-> ->]. done. }
  unfold record_subject. simpl.
  destruct He; simpl in *; unfold op_revision; try first [done|by rewrite Hp].
  all: destruct (Hs _ _ eq_refl) as [E1 E2]; simpl in *; rewrite E1, E2.
  all: by repeat match goal with Hq : proxy_revision_id_new _ = Ok _ |- _ => rewrite Hq; clear Hq end.
Qed.

Lemma answered_recorded fresh op s a m :
  wf s → op_typed op → apply_op fresh op (mkMutex false s) = (Ok a, m) →
  ∃ r s', m = mkMutex false s' ∧ answered op r s' ∧ answer_subject a = record_subject op r.
Proof.
  intros Hwf Ht Ha. pose proof (apply_op_ends fresh op s (wf_keyed s Hwf)) as He.
  rewrite Ha in He. unfold ends in He. simpl in He. inversion He; subst.
  - exists record, s. split; [done|]. assert (Han : answered op record s) by done.
    split; [done|]. destruct (replay_answer_wf s op record Hwf Han) as (a' & Ha' & <-). congruence.
  - eexists _, _. split; [done|]. split; [|by eapply commit_subject].
    split; [|done]. cbn [ss_idempotency commit]. by rewrite lookup_insert_eq.
Qed.

(** A record is never replaced or dropped. *)
Lemma record_kept fresh op m key r :
  wf (guarded m) → ss_idempotency (guarded m) !! key = Some r →
  ss_idempotency (guarded (apply_op fresh op m).2) !! key = Some r.
Proof.
  intros Hwf Hr. destruct m as [[] s]; simpl in *.
  { by destruct (poisoned_refuses fresh op s) as [e ->]. }
  pose proof (apply_op_ends fresh op s (wf_keyed s Hwf)) as He. unfold ends in He.
  destruct He as [| | |p rev t a Hn]; try done. cbn [ss_idempotency commit guarded].
  rewrite lookup_insert_ne; [done|congruence].
Qed.
Lemma run_records_kept l m key r :
  Forall op_typed l.*2 → wf (guarded m) → ss_idempotency (guarded m) !! key = Some r →
  ss_idempotency (guarded (run_store l m)) !! key = Some r.
Proof.
  revert m. induction l as [|[fresh op] l IH]; intros m Hl Hwf Hr; simpl; [done|].
  inversion_clear Hl as [|? ? Ht Hl']. apply IH; [done| |by apply record_kept].
  apply (run_store_wf [(fresh, op)] m); [by apply Forall_singleton|done].
Qed.

(** One line of the log. *)
Lemma logged_once s key :
  wf s → is_Some (ss_idempotency s !! key) →
  length (filter (λ t, log_key t = key) (ss_transitions s)) = 1%nat.
Proof.
  intros Hwf Hk%(wf_log_all s Hwf). pose proof (wf_log_once s Hwf) as Hn.
  induction (ss_transitions s) as [|t l IH]; [by apply elem_of_nil in Hk|].
  rewrite fmap_cons in Hk, Hn. apply NoDup_cons in Hn as [Ht Hn]. rewrite filter_cons.
  destruct (decide (log_key t = key)) as [<-|Hne].
  - simpl. f_equal. clear -Ht. induction l as [|u l IH]; [done|].
    apply not_elem_of_cons in Ht as [Hu Ht]. rewrite filter_cons_False by done. by apply IH.
  - apply elem_of_cons in Hk as [->|Hk]; [done|]. by apply IH.
Qed.

(** A request that was answered once is answered again from its record. *)
Lemma answered_again fresh fresh' op r m a m' s :
  apply_op fresh op m = (Ok a, m') → wf s → answered op r s →
  ∃ a', apply_op fresh' op (mkMutex false s) = (Ok a', mkMutex false s)
        ∧ answer_subject a' = record_subject op r.
Proof.
  intros Ha Hwf Han. destruct (invalid_or_replays op) as [Hi|Hrep].
  { destruct (Hi fresh m) as [e He]. congruence. }
  rewrite (Hrep fresh' r s Han). destruct (replay_answer_wf s op r Hwf Han) as (a' & -> & Ha'). eauto.
Qed.

(** C9. A request to the proxy store takes effect once.  Whatever requests came
    before and after, as long as none of them has unwound and poisoned the lock
    of the store, a request the store has answered is answered again each time
    it is repeated, about the same proxy or revision, changes nothing, and has
    exactly one line in the lifecycle log.  Requests with regular identifiers do
    not poison the lock ([store_usable]); one with an identifier of another
    variant can ([odd_variant_poisons]), and then every request is refused. *)
Theorem proxy_request_once before fresh op a m later fresh' :
  Forall op_typed (before.*2 ++ op :: later.*2) →
  apply_op fresh op (run_store before new_store) = (Ok a, m) →
  let m' := run_store later m in
  poisoned m' = false →
  (∃ a', apply_op fresh' op m' = (Ok a', m') ∧ answer_subject a' = answer_subject a)
  ∧ length (filter (λ t, log_key t = (op_request op, op_name op)) (ss_transitions (guarded m'))) = 1%nat.
Proof.
  intros [Hb [Ht Hl]%Forall_cons]%Forall_app Ha m' Hp.
  pose proof (run_store_wf before new_store Hb wf_default) as Hwf.
  destruct (run_store before new_store) as [[] s].
  { destruct (poisoned_refuses fresh op s) as [e He]. congruence. }
  destruct (answered_recorded fresh op s a m Hwf Ht Ha) as (r & s1 & -> & Han & Hs).
  assert (Hwf1 : wf s1).
  { pose proof (apply_op_wf fresh op (mkMutex false s) eq_refl Hwf Ht) as Hw. by rewrite Ha in Hw. }
  pose proof (run_store_wf later (mkMutex false s1) Hl Hwf1) as Hwf2. fold m' in Hwf2.
  destruct Han as (Hr & Hh & Hsc).
  pose proof (run_records_kept later (mkMutex false s1) _ r Hl Hwf1 Hr) as Hr2. fold m' in Hr2.
  destruct m' as [[] s2]; [done|]. simpl in *. split; [|by apply logged_once].
  rewrite Hs. by eapply answered_again.
Qed.
End replay.

Lemma proxy_request_once_witness :
  let later := dm_run [dm_publish; dm_step "4" Validate] in
  let m := run_store (dm_run [dm_create; dm_update]) new_store in
  ∃ a', apply_op "again" dm_update (run_store later m) = (Ok a', run_store later m)
        ∧ answer_subject a' = (dm_id, None).
Proof.
  destruct (apply_op "log" dm_update (run_store (dm_run [dm_create]) new_store)) as [[a|] m] eqn:E;
    [|by apply (f_equal (is_ok ∘ fst)) in E; vm_compute in E].
  pose proof (proxy_request_once (dm_run [dm_create]) "log" dm_update a m
    (dm_run [dm_publish; dm_step "4" Validate]) "again") as H.
  destruct H as [(a' & Ha & Hs) _].
  - by apply dm_typed; [|repeat constructor].
  - exact E.
  - rewrite <-(f_equal snd E : _ = m). vm_compute. reflexivity.
  - exists a'. assert (Hm : m = run_store (dm_run [dm_create; dm_update]) new_store).
    { symmetry. exact (f_equal snd E). }
    assert (Hsub : answer_subject a = (dm_id, None)).
    { assert (He : answer_subject <$> (apply_op "log" dm_update (run_store (dm_run [dm_create]) new_store)).1
                   = Ok (dm_id, None)) by (vm_compute; reflexivity).
      rewrite E in He. by injection He. }
    rewrite <-Hm. split; [exact Ha|]. by rewrite Hs.
Defined.
