(* ===== verification/ProxyPaging.v ===== *)
(** * Pages of the proxy list

    The pages [ProxyStore.memory_list] cuts: rows in the order of creation and
    identifier, a cursor naming the last row shown.  Following the tokens from
    the first page shows every proxy of the scope once, in order. *)
From Stdlib Require Import Ascii.
From stdpp Require Import sorting.
From S2P Require Import Prelude RustStr Digits ProxyText Time OperatorAuth ProxySpec ProxyWire ProxyLifecycle ProxyStore ProxyStoreSpec ProxyStoreWf ProxyStoreOnce.

Open Scope N_scope.

(** ** The order of the rows *)

#[global] Instance row_le_trans : Transitive row_le.
Proof.
  intros a b c. unfold row_le. rewrite !leb_le. intros [?|[? ?]] [?|[? ?]]; [left; lia..|].
  right. split; [congruence|]. by etrans.
Qed.
#[global] Instance row_le_total : Total row_le.
Proof.
  intros a b. unfold row_le.
  destruct (N.lt_trichotomy (sp_created_at_micros a) (sp_created_at_micros b)) as [?|[?|?]]; [by left; left| |by right; left].
  destruct (String.leb_total (sp_proxy_id a) (sp_proxy_id b)); [by left; right|by right; right].
Qed.
Lemma row_le_id a b : row_le a b → row_le b a → sp_proxy_id a = sp_proxy_id b.
Proof.
  unfold row_le. rewrite !leb_le. intros [?|[? ?]] [?|[? ?]]; try lia. by apply (anti_symm String.le).
Qed.

Lemma before_cursor_spec q p :
  before_cursor (Some (sp_created_at_micros q, sp_proxy_id q)) p = true ↔ row_le p q.
Proof.
  unfold before_cursor, row_le. rewrite orb_true_iff, andb_true_iff, N.ltb_lt, N.eqb_eq. done.
Qed.

(** Rows in order, each identifier once. *)
Definition in_order (rows : list StoreProxy) : Prop :=
  StronglySorted row_le rows ∧ NoDup (sp_proxy_id <$> rows).

Lemma sorted_in_order rows : NoDup (sp_proxy_id <$> rows) → in_order (merge_sort row_le rows).
Proof.
  intros Hn. split; [apply StronglySorted_merge_sort; apply _|].
  by rewrite (merge_sort_Permutation row_le rows).
Qed.

Lemma rows_unique rows rows' :
  NoDup (sp_proxy_id <$> rows) → rows ≡ₚ rows' → merge_sort row_le rows = merge_sort row_le rows'.
Proof.
  intros Hn Hp. apply (StronglySorted_unique_strong row_le).
  - intros x y Hx Hy H1 H2.
    rewrite merge_sort_Permutation in Hx. rewrite merge_sort_Permutation, <-Hp in Hy.
    pose proof (row_le_id _ _ H1 H2) as He.
    apply list_elem_of_lookup in Hx as [i Hi]. apply list_elem_of_lookup in Hy as [j Hj].
    assert (i = j) as ->; [|congruence].
    eapply (NoDup_lookup (sp_proxy_id <$> rows)); [done|rewrite list_lookup_fmap, Hi; done|].
    by rewrite list_lookup_fmap, Hj, He.
  - apply StronglySorted_merge_sort; apply _.
  - apply StronglySorted_merge_sort; apply _.
  - by rewrite !merge_sort_Permutation.
Qed.

(** ** One page *)

(** The reservation of a page whose size fits the message field. *)
Lemma with_capacity_fits {S} (n : N) (s : S) :
  n ≤ u32_max → with_capacity (N.max n 1) SUMMARY_BYTES s = (Ok tt, s).
Proof.
  intros Hn. unfold with_capacity. destruct (N.ltb_spec isize_max (N.max n 1 * SUMMARY_BYTES)); [|done].
  exfalso. revert Hn. unfold u32_max, isize_max, SUMMARY_BYTES in *. lia.
Qed.

(** The rows after the cursor. *)
Definition after (cursor : option (N * string)) (rows : list StoreProxy) : list StoreProxy :=
  filter (λ p, before_cursor cursor p = false) rows.
Definition page_rows (page_size : N) : nat := N.to_nat (N.max page_size 1).

Lemma list_rows_spec cursor page_size listed rows :
  list_rows cursor page_size listed rows
  = (listed ++ take (page_rows page_size - length listed) (after cursor rows),
     (page_rows page_size - length listed <? length (after cursor rows))%nat).
Proof.
  revert listed. induction rows as [|p rows IH]; intros listed; simpl.
  - change (after cursor []) with (@nil StoreProxy). by rewrite take_nil, app_nil_r.
  - unfold after. rewrite filter_cons. destruct (before_cursor cursor p) eqn:Hb.
    { rewrite decide_False by done. apply IH. }
    rewrite decide_True by done. fold (after cursor rows). unfold len.
    destruct (N.leb_spec (N.max page_size 1) (N.of_nat (length listed))) as [Hle|Hlt].
    + replace (page_rows page_size - length listed)%nat with 0%nat by (unfold page_rows; lia).
      by rewrite take_0, app_nil_r.
    + rewrite IH. rewrite length_app. simpl.
      replace (page_rows page_size - length listed)%nat
        with (S (page_rows page_size - (length listed + 1)))%nat by (unfold page_rows; lia).
      simpl. by rewrite <-app_assoc.
Qed.

(** The rows after the cursor of a row are the rows behind it. *)
Lemma after_row shown q rest :
  in_order (shown ++ q :: rest) →
  after (Some (sp_created_at_micros q, sp_proxy_id q)) (shown ++ q :: rest) = rest.
Proof.
  intros [Hs Hn]. unfold after. rewrite filter_app, filter_cons_False.
  2: { intros Hb. apply not_true_iff_false in Hb. apply Hb, before_cursor_spec.
       destruct (row_le_total q q); done. }
  apply StronglySorted_app in Hs as (Hx & _ & Hr). apply StronglySorted_inv in Hr as [_ Hr].
  rewrite filter_none, filter_all; [done| |].
  - rewrite Forall_forall in Hr. intros r Hin. apply not_true_iff_false. intros Hb%before_cursor_spec.
    pose proof (row_le_id _ _ Hb (Hr r Hin)) as He.
    rewrite fmap_app, fmap_cons in Hn. apply NoDup_app in Hn as (_ & _ & Hn).
    apply NoDup_cons in Hn as [Hn _]. apply Hn. rewrite <-He. by apply list_elem_of_fmap_2.
  - intros r Hin Hb. apply not_true_iff_false in Hb. apply Hb, before_cursor_spec.
    apply Hx; [done|left].
Qed.
Lemma after_nothing rows : after None rows = rows.
Proof. by apply filter_all. Qed.

Lemma parse_encode_cursor micros id :
  micros ≤ u128_max → parse_cursor (encode_cursor micros id) = Ok (Some (micros, id)).
Proof.
  intros Hm. unfold parse_cursor, encode_cursor.
  destruct (str_is_empty _) eqn:He.
  { apply (f_equal negb) in He. revert He. unfold str_is_empty.
    destruct (decimal micros +:+ _) eqn:E; [|done]. intros _.
    by destruct (decimal micros). }
  rewrite split_once_first by by apply decimal_no_char. cbn [ok_or].
  by rewrite parse_uint_decimal.
Qed.

(** ** All pages *)

Definition scope_rows (scope : ExactScope) (s : StoreState) : list StoreProxy :=
  filter (λ p, sp_scope p = scope) (map_to_list (ss_proxies s)).*2.

(** A client that follows the tokens, at most [fuel] pages after this one. *)
Fixpoint list_all (fuel : nat) (scope : ExactScope) (page_size : N) (token : string)
    (m : Mutex StoreState) : option (list McpProxySummary) :=
  match (memory_list (mkListProxies scope page_size token) m).1 with
  | Err _ => None
  | Ok page =>
      if str_is_empty (pl_next_page_token page) then Some (pl_proxies page)
      else match fuel with
           | O => None
           | S fuel => app (pl_proxies page) <$> list_all fuel scope page_size (pl_next_page_token page) m
           end
  end.

Lemma encode_cursor_nonempty micros id : str_is_empty (encode_cursor micros id) = false.
Proof. unfold encode_cursor. by destruct (decimal micros). Qed.

Section pages.
Context (scope : ExactScope) (page_size : N) (s : StoreState).
Context (Hscope : validate_scope scope = Ok tt) (Hfits : page_size ≤ u32_max).
Let rows := merge_sort row_le (scope_rows scope s).

Lemma list_page token c :
  parse_cursor token = Ok c →
  (memory_list (mkListProxies scope page_size token) (mkMutex false s)).1
  = Ok (mkProxiesPage (to_summary <$> take (page_rows page_size) (after c rows))
          (if (page_rows page_size <? length (after c rows))%nat
           then match last (take (page_rows page_size) (after c rows)) with
                | Some p => encode_cursor (sp_created_at_micros p) (sp_proxy_id p)
                | None => EmptyString
                end
           else EmptyString)).
Proof.
  intros Hc. unfold memory_list. cbn [lp_scope lp_page_token lp_page_size].
  rewrite bind_checked, Hscope, bind_checked, Hc, run_with_state, bind_get. simpl.
  unfold list_from_rows, mbind, st_bind. cbn [lp_scope lp_page_token lp_page_size].
  rewrite with_capacity_fits by done. rewrite Hc, list_rows_spec, Nat.sub_0_r. done.
Qed.

Context (Hids : NoDup (sp_proxy_id <$> scope_rows scope s)).
Context (Htimes : Forall (λ p, sp_created_at_micros p ≤ u128_max) (scope_rows scope s)).

Lemma list_all_rest fuel shown rest token c :
  rows = shown ++ rest → parse_cursor token = Ok c → after c rows = rest →
  (length rest ≤ fuel)%nat →
  list_all fuel scope page_size token (mkMutex false s) = Some (to_summary <$> rest).
Proof.
  revert shown rest token c. induction fuel as [|fuel IH]; intros shown rest token c Hr Hc Ha Hf;
    simpl; rewrite (list_page token c Hc), Ha; cbn [pl_next_page_token pl_proxies].
  { destruct rest; [|simpl in Hf; lia]. by rewrite take_nil. }
  destruct (Nat.ltb_spec (page_rows page_size) (length rest)) as [Hlt|Hge].
  2: { by rewrite take_ge. }
  assert (Hk : (0 < page_rows page_size)%nat) by (unfold page_rows; lia).
  destruct (last (take (page_rows page_size) rest)) as [q|] eqn:Hq.
  2: { apply last_None in Hq. apply (f_equal length) in Hq. rewrite length_take in Hq. simpl in Hq. lia. }
  apply last_Some in Hq as [l Hl]. rewrite encode_cursor_nonempty.
  pose proof (take_drop (page_rows page_size) rest) as Hd.
  assert (Hrows : rows = (shown ++ l) ++ q :: drop (page_rows page_size) rest).
  { rewrite Hr, <-Hd at 1. rewrite Hl, <-!app_assoc. done. }
  rewrite (IH (shown ++ l ++ [q]) (drop (page_rows page_size) rest) _
             (Some (sp_created_at_micros q, sp_proxy_id q))).
  - simpl. by rewrite <-fmap_app, Hd.
  - rewrite Hrows. by simplify_list_eq.
  - apply parse_encode_cursor. rewrite Forall_forall in Htimes. apply Htimes.
    rewrite <-(merge_sort_Permutation row_le). fold rows. rewrite Hrows.
    apply elem_of_app. right. left.
  - rewrite Hrows. apply after_row. rewrite <-Hrows. by apply sorted_in_order.
  - rewrite length_drop. lia.
Qed.

Lemma list_all_rows fuel :
  (length rows ≤ fuel)%nat →
  list_all fuel scope page_size EmptyString (mkMutex false s) = Some (to_summary <$> rows).
Proof. intros Hf. apply (list_all_rest fuel [] rows EmptyString None); try done. apply after_nothing. Qed.
End pages.

(** ** Reachable stores *)

Section reachable.
Context `{AuthDeps, WireCodec, UuidApi}.

(** The timestamps of the [uuid] crate: seconds as [u64], nanoseconds as [u32]. *)
Definition timestamps_fit : Prop :=
  ∀ u secs nanos, uuid_timestamp u = Some (secs, nanos) → secs ≤ u64_max ∧ nanos ≤ u32_max.

Definition times_fit (s : StoreState) : Prop :=
  ∀ id p, ss_proxies s !! id = Some p → sp_created_at_micros p ≤ u128_max.

Lemma request_micros_fit r micros :
  timestamps_fit → validate_request_id r = Ok micros → micros ≤ u128_max.
Proof.
  intros Ht. unfold validate_request_id. destruct (uuid_parse_str r) as [u|]; [|done].
  cbn [ok_or mbind result_bind]. case_match; [done|].
  destruct (uuid_timestamp u) as [[secs nanos]|] eqn:E; [|done].
  destruct (Ht _ _ _ E) as [Hs Hn]. intros [= <-]. clear E Ht.
  assert (nanos / 1000 ≤ nanos) by (apply N.Div0.div_le_upper_bound; lia).
  assert (Hb : u64_max * 1000000 + u32_max ≤ u128_max) by done.
  revert Hs Hn Hb. generalize u64_max u32_max u128_max. intros. lia.
Qed.

Lemma apply_op_times fresh op m :
  timestamps_fit → wf (guarded m) → times_fit (guarded m) →
  times_fit (guarded (apply_op fresh op m).2).
Proof.
  intros Hts Hwf Ht. destruct m as [[] s]; simpl in *.
  { by destruct (poisoned_refuses fresh op s) as [e ->]. }
  pose proof (apply_op_ends fresh op s (wf_keyed s Hwf)) as He. unfold ends in He.
  destruct He as [| | |p rev t a Hn He]; try done. simpl.
  intros id q [[<- <-]|[_ Hq]]%commit_lookup; [|by eapply Ht].
  destruct (effect_identity s op p rev (wf_keyed s Hwf) He) as (_ & _ & Hi).
  destruct op; try (destruct Hi as (p0 & Hp0 & _ & _ & _ & ->); by eapply Ht).
  inversion He; subst. simpl. by eapply request_micros_fit.
Qed.
Lemma run_store_times l m :
  timestamps_fit → Forall op_typed l.*2 → wf (guarded m) → times_fit (guarded m) →
  times_fit (guarded (run_store l m)).
Proof.
  intros Hts. revert m. induction l as [|[fresh op] l IH]; intros m Hl Hwf Ht; simpl; [done|].
  inversion_clear Hl as [|? ? Hop Hl']. apply IH; [done| |by apply apply_op_times].
  apply (run_store_wf [(fresh, op)] m); [by apply Forall_singleton|done].
Qed.

Lemma scope_rows_ids scope s : keyed s → NoDup (sp_proxy_id <$> scope_rows scope s).
Proof.
  intros Hk. eapply sublist_NoDup; [|apply fmap_sublist, sublist_filter].
  rewrite <-list_fmap_compose.
  erewrite (list_fmap_ext _ fst); [apply NoDup_fst_map_to_list|].
  intros i [id p] Hi. simpl. apply Hk, elem_of_map_to_list. by eapply list_elem_of_lookup_2.
Qed.

(** C15. The pages of the proxy list are complete.  In every store that any
    requests produce and no panic has poisoned ([store_usable] says when), for
    every page size the request can carry, which is 32 bits wide, a client that
    follows the page tokens of a scope ends after finitely many pages, having
    seen every proxy of the scope exactly once, in the order of creation and
    identifier.  The memory each page reserves is taken to be available. *)
Theorem proxy_pages_complete l scope page_size m :
  timestamps_fit → Forall op_typed l.*2 → m = run_store l new_store → poisoned m = false →
  validate_scope scope = Ok tt → page_size ≤ u32_max →
  ∃ rows, list_all (size (ss_proxies (guarded m))) scope page_size EmptyString m
            = Some (to_summary <$> rows)
    ∧ StronglySorted row_le rows ∧ NoDup (sp_proxy_id <$> rows)
    ∧ ∀ p, p ∈ rows ↔ ss_proxies (guarded m) !! sp_proxy_id p = Some p ∧ sp_scope p = scope.
Proof.
  intros Hts Hl Hm Hp Hs Hfits.
  assert (Hwf : wf (guarded m)) by (subst; by apply run_store_wf, wf_default).
  assert (Ht : times_fit (guarded m)) by (subst; by apply run_store_times; [..|apply wf_default|]).
  destruct m as [[] s]; [done|]. clear Hm. simpl in *.
  pose proof (scope_rows_ids scope s (wf_keyed s Hwf)) as Hids.
  assert (Hin : ∀ p, p ∈ scope_rows scope s ↔ ss_proxies s !! sp_proxy_id p = Some p ∧ sp_scope p = scope).
  { intros p. unfold scope_rows. rewrite list_elem_of_filter, list_elem_of_fmap. split.
    - intros [Hsc ([id q] & -> & Hq)]. apply elem_of_map_to_list in Hq. split; [|done].
      simpl. by rewrite (wf_keyed s Hwf _ _ Hq).
    - intros [Hq Hsc]. split; [done|]. exists (sp_proxy_id p, p). by rewrite elem_of_map_to_list. }
  exists (merge_sort row_le (scope_rows scope s)). split.
  - apply list_all_rows; [done..| |].
    + apply Forall_forall. intros p [Hq _]%Hin. by eapply Ht.
    + rewrite merge_sort_Permutation. unfold scope_rows.
      etrans; [apply length_filter|]. by rewrite length_fmap, length_map_to_list.
  - destruct (sorted_in_order _ Hids) as [? ?]. split; [done|]. split; [done|].
    intros p. by rewrite merge_sort_Permutation.
Qed.
End reachable.

Lemma proxy_pages_complete_witness :
  let m := run_store dm_served new_store in
  ∃ rows, list_all (size (ss_proxies (guarded m))) dm_scope 1 EmptyString m
            = Some (to_summary <$> rows)
    ∧ StronglySorted row_le rows ∧ NoDup (sp_proxy_id <$> rows)
    ∧ ∀ p, p ∈ rows ↔ ss_proxies (guarded m) !! sp_proxy_id p = Some p ∧ sp_scope p = dm_scope.
Proof.
  apply (proxy_pages_complete dm_served dm_scope 1 (run_store dm_served new_store)).
  - intros u secs nanos [= <- <-]. split; done.
  - by apply dm_typed; [|repeat constructor].
  - reflexivity.
  - vm_compute. reflexivity.
  - vm_compute. reflexivity.
  - done.
Defined.
