(* ===== verification/ProxyStoreScope.v ===== *)
(** * Scopes of the proxy store are isolated

    A mutation under one scope leaves every read under another scope with the
    same answer: the proxies, their revisions, the pages of the list and the
    activity log of the other scope are as they were. *)
From Stdlib Require Import Ascii.
From stdpp Require Import sorting.
From S2P Require Import Prelude RustStr Digits ProxyText Time OperatorAuth ProxySpec ProxyWire ProxyLifecycle ProxyStore ProxyStoreSpec ProxyStoreWf ProxyStoreOnce ProxyPaging.

Open Scope N_scope.

(** The reads of the store. *)
Inductive StoreQuery :=
  | QGet (scope : ExactScope) (proxy_id : ProxyId)
  | QRevision (scope : ExactScope) (proxy_id : ProxyId) (revision_id : ProxyRevisionId)
  | QList (q : ListProxies)
  | QActivity (q : ListProxyActivity).

Inductive QueryAnswer :=
  | QProxy (p : McpProxy)
  | QRev (r : McpProxyRevision)
  | QPage (p : ListProxiesPage)
  | QLog (p : ListProxyActivityPage).

Definition query_scope (q : StoreQuery) : ExactScope :=
  match q with
  | QGet scope _ | QRevision scope _ _ => scope
  | QList q => lp_scope q
  | QActivity q => la_scope q
  end.
Definition apply_query (q : StoreQuery) (m : Mutex StoreState) : result StoreFault QueryAnswer :=
  match q with
  | QGet scope id => QProxy <$> (memory_get scope id m).1
  | QRevision scope id r => QRev <$> (memory_get_revision scope id r m).1
  | QList q => QPage <$> (memory_list q m).1
  | QActivity q => QLog <$> (memory_list_activity q m).1
  end.

(** What a scope can see of a store. *)
Record same_view (scope : ExactScope) (s s' : StoreState) : Prop := {
  sv_proxy id p : sp_scope p = scope → ss_proxies s !! id = Some p ↔ ss_proxies s' !! id = Some p;
  sv_revision id p r : ss_proxies s !! id = Some p → sp_scope p = scope →
    ss_revisions s !! revision_key id r = ss_revisions s' !! revision_key id r;
  sv_rows : scope_rows scope s ≡ₚ scope_rows scope s';
  sv_log : filter (λ t, tl_scope t = scope) (ss_transitions s)
           = filter (λ t, tl_scope t = scope) (ss_transitions s');
}.

(** The lookup of a proxy by its owner, as one step. *)
Definition visible (scope : ExactScope) (id : ProxyId) (s : StoreState) : option StoreProxy :=
  p ← ss_proxies s !! id; guard (sp_scope p = scope);; Some p.

Lemma visible_some scope id s p :
  visible scope id s = Some p ↔ ss_proxies s !! id = Some p ∧ sp_scope p = scope.
Proof. unfold visible. destruct (ss_proxies s !! id); simpl; [case_guard|]; naive_solver. Qed.

Lemma visible_same scope id s s' : same_view scope s s' → visible scope id s = visible scope id s'.
Proof.
  intros Hv. apply option_eq. intros p. rewrite !visible_some. split; intros [Hp Hs]; (split; [|done]).
  - by apply (sv_proxy _ _ _ Hv).
  - by apply (sv_proxy _ _ _ Hv).
Qed.

Lemma bind_owned_visible {B} scope id (k : StoreProxy → SM B) s :
  (owned_proxy id scope ≫= k) s
  = match visible scope id s with Some p => k p s | None => (Err (Refused proxy_not_found), s) end.
Proof.
  rewrite bind_owned. unfold visible. destruct (ss_proxies s !! id) as [p|]; [|done]. simpl.
  case_bool_decide; case_guard; done.
Qed.

Lemma to_proxy_same scope s s' id p :
  same_view scope s s' → keyed s → visible scope id s = Some p →
  to_proxy (ss_revisions s) None p = to_proxy (ss_revisions s') None p.
Proof.
  intros Hv Hk Hp. apply visible_some in Hp as [Hp Hs].
  assert (He : ∀ r, ss_revisions s !! revision_key (sp_proxy_id p) r
                    = ss_revisions s' !! revision_key (sp_proxy_id p) r).
  { intros r. rewrite (Hk _ _ Hp). by eapply sv_revision. }
  unfold to_proxy. destruct (sp_draft_revision_id p) as [d|]; simpl;
    [rewrite <-(He d)|]; destruct (sp_active_revision_id p) as [a|]; simpl; [rewrite <-(He a)| |rewrite <-(He a)|]; done.
Qed.

Lemma filter_and {A} (P Q : A → Prop) `{∀ x, Decision (P x), ∀ x, Decision (Q x)} (l : list A) :
  filter (λ x, P x ∧ Q x) l = filter P (filter Q l).
Proof.
  induction l as [|x l IH]; [done|]. rewrite !filter_cons.
  destruct (decide (Q x)); [|by rewrite decide_False by tauto]. rewrite filter_cons.
  destruct (decide (P x)); [rewrite decide_True by tauto; by f_equal|by rewrite decide_False by tauto].
Qed.

(** The answer to a read depends on what its scope sees. *)
Lemma query_same q s s' :
  keyed s → same_view (query_scope q) s s' →
  apply_query q (mkMutex false s) = apply_query q (mkMutex false s').
Proof.
  intros Hk Hv. destruct q as [scope id|scope id r|q|q]; simpl in *; f_equal.
  - unfold memory_get. rewrite !bind_checked. destruct (validate_scope scope); [|done].
    rewrite !run_with_state, !bind_owned_visible, <-(visible_same _ id s s' Hv).
    destruct (visible scope id s) as [p|] eqn:Hp; [|done]. rewrite !bind_get. simpl.
    by rewrite (to_proxy_same scope s s' id p).
  - unfold memory_get_revision. rewrite !bind_checked. destruct (validate_scope scope); [|done].
    rewrite !run_with_state, !bind_owned_visible, <-(visible_same _ id s s' Hv).
    destruct (visible scope id s) as [p|] eqn:Hp; [|done]. rewrite !bind_get, !bind_checked.
    apply visible_some in Hp as [Hp Hs]. rewrite <-(sv_revision _ _ _ Hv id p r Hp Hs).
    by destruct (ss_revisions s !! _).
  - unfold memory_list. rewrite !bind_checked. destruct (validate_scope _); [|done].
    destruct (parse_cursor _); [|done]. rewrite !run_with_state, !bind_get. simpl.
    unfold list_from_rows. fold (scope_rows (lp_scope q) s) (scope_rows (lp_scope q) s').
    rewrite (rows_unique _ _ (scope_rows_ids _ s Hk) (sv_rows _ _ _ Hv)).
    unfold with_capacity, mbind, st_bind. destruct (isize_max <? _); [done|]. simpl.
    by destruct (list_rows _ _ _ _).
  - unfold memory_list_activity. rewrite !bind_checked. destruct (validate_scope _); [|done].
    case_match; [|done].
    rewrite !run_with_state, !bind_owned_visible, <-(visible_same _ _ s s' Hv).
    destruct (visible _ _ s) as [p|]; [|done]. rewrite !bind_get, !filter_and.
    by rewrite (sv_log _ _ _ Hv).
Qed.

Section isolation.
Context `{AuthDeps, WireCodec, UuidApi}.

Lemma scope_rows_delete scope id s q :
  ss_proxies s !! id = Some q → sp_scope q ≠ scope →
  scope_rows scope s
  ≡ₚ filter (λ p, sp_scope p = scope) (map_to_list (delete id (ss_proxies s))).*2.
Proof.
  intros Hq Hs. unfold scope_rows. rewrite <-(insert_delete_id (ss_proxies s) id q) at 1 by done.
  rewrite map_to_list_insert by apply lookup_delete_eq. rewrite fmap_cons, filter_cons_False; done.
Qed.

(** A commit under one scope is out of sight of the others. *)
Lemma commit_view s op p rev t scope :
  wf s → op_typed op → effect s op p rev → tl_scope t = op_scope op → scope ≠ op_scope op →
  same_view scope s (commit op p rev t s).
Proof.
  intros Hwf Ht He Htl Hn.
  destruct (effect_identity s op p rev (wf_keyed s Hwf) He) as (Hid & Hsc & Hi).
  assert (Hold : ∀ q, ss_proxies s !! op_proxy op = Some q → sp_scope q ≠ scope).
  { intros q Hq. destruct (commit_proxy_scope s op p rev t _ q Hwf He Hq) as (q' & Hq' & <-).
    simpl in Hq'. rewrite lookup_insert_eq in Hq'. congruence. }
  split.
  - intros id q Hq. split.
    + intros Hl. simpl. rewrite lookup_insert_ne; [done|]. intros <-. by apply (Hold q Hl).
    + intros [[<- <-]|[_ Hl]]%commit_lookup; [|done]. congruence.
  - intros id q r Hq Hqs. destruct rev as [[rid v]|]; [|done]. simpl.
    rewrite lookup_insert_ne; [done|]. intros Hk.
    destruct (revision_key_inj _ _ _ _ (proj1 Ht) (wf_ids s Hwf _ _ Hq) Hk) as [<- _].
    by apply (Hold q Hq).
  - rewrite (scope_rows_delete scope (op_proxy op) (commit op p rev t s) p);
      [|simpl; apply lookup_insert_eq|congruence].
    simpl. rewrite delete_insert_eq.
    destruct (ss_proxies s !! op_proxy op) as [q|] eqn:Hq.
    + apply (scope_rows_delete _ _ _ q); [done|by apply Hold].
    + by rewrite delete_id.
  - cbn [ss_transitions commit]. rewrite filter_app, filter_cons_False, filter_nil, app_nil_r; [done|].
    congruence.
Qed.

(** One request, and a run of them, under another scope. *)
Lemma step_isolated fresh op q m :
  op_typed op → wf (guarded m) → poisoned (apply_op fresh op m).2 = false →
  query_scope q ≠ op_scope op → apply_query q (apply_op fresh op m).2 = apply_query q m.
Proof.
  intros Ht Hwf Hp Hq. destruct m as [[] s]; simpl in *.
  { destruct (poisoned_refuses fresh op s) as [e He]. by rewrite He in Hp. }
  pose proof (apply_op_ends fresh op s (wf_keyed s Hwf)) as He. unfold ends in He.
  destruct He as [| | |p rev t a Hnone He Hr Ho Hpr Hs Ha]; [done|done|done|].
  symmetry. apply query_same; [apply Hwf|]. by apply commit_view.
Qed.
Lemma poisoned_stays l s : run_store l (mkMutex true s) = mkMutex true s.
Proof.
  induction l as [|[f op] l IH]; [done|]. simpl. by destruct (poisoned_refuses f op s) as [e ->].
Qed.
Lemma run_isolated before l q scope :
  Forall op_typed before.*2 → Forall (λ op, op_scope op = scope ∧ op_typed op) l.*2 →
  poisoned (run_store l (run_store before new_store)) = false → query_scope q ≠ scope →
  apply_query q (run_store l (run_store before new_store)) = apply_query q (run_store before new_store).
Proof.
  intros Hb. revert before Hb. induction l as [|[fresh op] l IH]; intros before Hb Hl Hp Hq; [done|].
  apply Forall_cons in Hl as [[Hs Ht] Hl]. simpl in Hp |- *.
  assert (Hstep : (apply_op fresh op (run_store before new_store)).2 = run_store (before ++ [(fresh, op)]) new_store).
  { by rewrite run_store_app. }
  assert (Hb' : Forall op_typed (before ++ [(fresh, op)]).*2).
  { rewrite fmap_app. apply Forall_app. split; [done|]. by apply Forall_singleton. }
  rewrite Hstep in Hp |- *. rewrite IH, <-Hstep by done. apply step_isolated; [done|..].
  - by apply run_store_wf, wf_default.
  - destruct (apply_op fresh op (run_store before new_store)).2 as [[] s] eqn:E; [|done].
    rewrite <-Hstep, poisoned_stays in Hp. done.
  - simpl in Hs. congruence.
Qed.

(** C11. Scopes are isolated.  In every store that any requests produce, a
    mutation under one scope that leaves the lock of the store unpoisoned changes
    the answer of no read under another scope: not of a proxy or a revision, not
    of a page of the list, not of a page of the activity log.  A mutation that
    unwinds poisons the lock, and every later read fails; requests with regular
    identifiers never do ([store_usable]), one with an identifier of another
    variant can ([odd_variant_poisons]). *)
Theorem proxy_scopes_isolated before fresh op q m m' :
  Forall op_typed (op :: before.*2) → m = run_store before new_store →
  m' = (apply_op fresh op m).2 → poisoned m' = false → query_scope q ≠ op_scope op →
  apply_query q m' = apply_query q m.
Proof.
  intros [Ht Hb]%Forall_cons -> -> Hp Hq. apply step_isolated; [done| |done|done].
  by apply run_store_wf, wf_default.
Qed.
End isolation.

Lemma proxy_scopes_isolated_witness :
  let m := run_store (dm_run [dm_create; dm_update]) new_store in
  apply_query (QList (mkListProxies ("acme", "test") 10 EmptyString)) (apply_op "log" dm_publish m).2
  = apply_query (QList (mkListProxies ("acme", "test") 10 EmptyString)) m.
Proof.
  apply (proxy_scopes_isolated (dm_run [dm_create; dm_update]) "log" dm_publish
    (QList (mkListProxies ("acme", "test") 10 EmptyString))
    (run_store (dm_run [dm_create; dm_update]) new_store)
    (apply_op "log" dm_publish (run_store (dm_run [dm_create; dm_update]) new_store)).2).
  - by apply dm_typed; [|repeat constructor].
  - reflexivity.
  - reflexivity.
  - vm_compute. reflexivity.
  - discriminate.
Defined.
