(* ===== verification/ProxyPublished.v ===== *)
(** * Published revisions

    What the store of [ProxyStore] keeps of a published revision.  Where no
    request identifier is used for two different operations, a published
    revision is never changed but for its lifecycle state, and the active
    revision of every proxy is published and passed the capability gate.
    Where one is, neither holds. *)
From Stdlib Require Import Ascii.
From S2P Require Import Prelude RustStr Digits ProxyText Time OperatorAuth ProxySpec ProxyLifecycle ProxyWire ProxyWireLaws ProxyStore ProxyStoreSpec ProxyStoreWf ProxyStoreOnce Envelope.

Open Scope N_scope.

(** What publication fixes. *)
Definition frozen (r : StoredRevision) :=
  let v := sr_revision r in
  (rv_proxy_id v, rv_revision_id v, rv_spec v, rv_config_hash v, rv_created_by v, rv_created_at v).

Lemma rotated_capable refs spec :
  validate_publish_capabilities (rotated_spec refs spec) = validate_publish_capabilities spec.
Proof.
  unfold validate_publish_capabilities. cbn [ProxySpec.sp_ingress sp_runtime_profile sp_upstreams
    sp_cli_profiles sp_exposed_tools sp_governance_binding rotated_spec].
  replace (forallb _ (_ <$> sp_upstreams spec))
    with (forallb (λ u, bool_decide (ub_transport u = StreamableHttp)) (sp_upstreams spec)).
  2: { induction (sp_upstreams spec) as [|u l IH]; [done|]. simpl. by rewrite IH. }
  by destruct (sp_cli_profiles spec).
Qed.

Section published.
Context `{AuthDeps, WireCodec, UuidApi}.

(** No identifier is used for two different operations. *)
Definition one_purpose (ops : list StoreOp) : Prop :=
  ∀ op op', op ∈ ops → op' ∈ ops → op_request op = op_request op' → op_name op = op_name op'.

Record pub (ops : list StoreOp) (s : StoreState) : Prop := {
  pub_requests key : is_Some (ss_idempotency s !! key) → ∃ op, op ∈ ops ∧ key = (op_request op, op_name op);
  pub_recorded key r : ss_revisions s !! key = Some r → sr_published r = true →
    ∃ name, is_Some (ss_idempotency s !! (rv_revision_id (sr_revision r), name));
  pub_capable key r : ss_revisions s !! key = Some r → sr_published r = true →
    validate_publish_capabilities (rv_spec (sr_revision r)) = Ok tt;
  pub_active id p a r : ss_proxies s !! id = Some p → sp_active_revision_id p = Some a →
    ss_revisions s !! revision_key id a = Some r → sr_published r = true;
}.

(** The revision a commit stores: a new one named by the request, or the active
    one in another state. *)
Lemma effect_revision_cases s op p rid r :
  wf s → op_typed op → effect s op p (Some (rid, r)) →
  (rid = op_request op
   ∧ (sr_published r = true → validate_publish_capabilities (rv_spec (sr_revision r)) = Ok tt
                              ∨ ∃ key r0, ss_revisions s !! key = Some r0 ∧ sr_published r0 = true
                                  ∧ validate_publish_capabilities (rv_spec (sr_revision r))
                                    = validate_publish_capabilities (rv_spec (sr_revision r0))))
  ∨ ∃ r0, ss_revisions s !! revision_key (op_proxy op) rid = Some r0
          ∧ sr_published r0 = true ∧ sr_published r = true ∧ frozen r = frozen r0.
Proof.
  intros Hwf [Hid Hports] He.
  inversion He as [| |? ? draft ? ? ? ? ? ? ? Hd ? ? ? ? Hb| | |? ? source ? ? ? ? ? ? ? Hd ? ? ? ? Hb|]; subst; simpl in *.
  all: repeat match goal with
    | Hm : validate_request_id ?q = Ok _, Hr : proxy_revision_id_new ?q = Ok _ |- _ =>
        destruct (request_revision _ _ _ Hm Hr) as [-> ?]; clear Hm
    end.
  - by left.
  - left. split; [done|]. intros _. left.
    destruct (wf_revisions s Hwf _ _ Hd) as [_ _ _ _ Hf _].
    eapply build_revision_ok in Hb as (_ & -> & _); done.
  - right. by eexists.
  - left. split; [done|]. intros _. right. eexists _, source. split; [done|]. split; [done|].
    destruct (wf_revisions s Hwf _ _ Hd) as [_ _ _ _ Hf _].
    eapply build_revision_ok in Hb as (_ & -> & _); [|done..]. apply rotated_capable.
Qed.

(** A commit that overwrites a published revision keeps what publication fixed. *)
Lemma commit_frozen ops s op p rev t key r :
  wf s → op_typed op → pub ops s → one_purpose ops → op ∈ ops →
  ss_idempotency s !! (op_request op, op_name op) = None → effect s op p rev →
  ss_revisions s !! key = Some r → sr_published r = true →
  ∃ r', ss_revisions (commit op p rev t s) !! key = Some r' ∧ sr_published r' = true
        ∧ frozen r' = frozen r.
Proof.
  intros Hwf Ht Hpub Hone Hop Hn He Hr Hp. destruct rev as [[rid v]|]; [|by exists r]. simpl.
  destruct (decide (revision_key (op_proxy op) rid = key)) as [<-|Hk].
  2: { rewrite lookup_insert_ne by done. by exists r. }
  rewrite lookup_insert_eq. exists v. split; [done|].
  destruct (effect_revision_cases s op p rid v Hwf Ht He) as [[-> _]|(r0 & Hr0 & _ & Hv & Hf)];
    [|rewrite Hr in Hr0; by injection Hr0 as <-].
  exfalso. destruct (holds_ids s _ _ _ Hwf (proj1 Ht) Hr) as (_ & Hrid & _).
  destruct (pub_recorded _ _ Hpub _ _ Hr Hp) as [name Hname]. rewrite Hrid in Hname.
  destruct (pub_requests _ _ Hpub _ Hname) as (op' & Hop' & [= Hreq ->]).
  rewrite <-(Hone op op' Hop Hop' Hreq), Hn in Hname. by destruct Hname.
Qed.

Lemma frozen_fields r r' : frozen r = frozen r' →
  rv_revision_id (sr_revision r) = rv_revision_id (sr_revision r')
  ∧ rv_spec (sr_revision r) = rv_spec (sr_revision r').
Proof. unfold frozen. by intros [=]. Qed.

(** A commit that makes a revision active stores it published. *)
Lemma effect_active ops s op p rev t a r :
  wf s → op_typed op → pub ops s → one_purpose ops → op ∈ ops →
  ss_idempotency s !! (op_request op, op_name op) = None → effect s op p rev →
  sp_active_revision_id p = Some a →
  ss_revisions (commit op p rev t s) !! revision_key (op_proxy op) a = Some r → sr_published r = true.
Proof.
  intros Hwf Ht Hpub Hone Hop Hn He Ha Hr.
  assert (Hkept : ∀ v, ss_revisions s !! revision_key (op_proxy op) a = Some v → sr_published v = true →
    sr_published r = true).
  { intros v Hv Hvp. destruct (commit_frozen ops s op p rev t _ v Hwf Ht Hpub Hone Hop Hn He Hv Hvp)
      as (r' & Hr' & ? & _). congruence. }
  assert (Hold : ∀ p0, ss_proxies s !! op_proxy op = Some p0 → sp_active_revision_id p0 = Some a →
    sr_published r = true).
  { intros p0 Hp0 Ha0. destruct (wf_active s Hwf _ _ _ Hp0 Ha0) as [_ [v Hv]].
    apply (Hkept v Hv). by eapply pub_active. }
  inversion He; subst; simpl in Ha; simplify_eq; try by eapply Hold.
  - simpl in Hr. rewrite lookup_insert_eq in Hr. by simplify_eq.
  - simpl in Hr. rewrite lookup_insert_eq in Hr. by simplify_eq.
  - by eapply Hkept.
Qed.

Lemma commit_pub ops s op p rev t :
  wf s → op_typed op → pub ops s → one_purpose ops → op ∈ ops →
  ss_idempotency s !! (op_request op, op_name op) = None → effect s op p rev →
  pub ops (commit op p rev t s).
Proof.
  intros Hwf Ht Hpub Hone Hop Hn He. split.
  - intros key. cbn [ss_idempotency commit]. rewrite lookup_insert_is_Some'.
    intros [<-|Hk]; [by exists op|by apply Hpub].
  - intros key r Hr Hp. cbn [ss_idempotency commit].
    destruct rev as [[rid v]|]; simpl in Hr; [apply lookup_insert_Some in Hr as [[<- <-]|[_ Hr]]|].
    2-3: destruct (pub_recorded _ _ Hpub _ _ Hr Hp) as [name Hname]; exists name;
         apply lookup_insert_is_Some'; by right.
    destruct (effect_stored s op p rid v Hwf Ht He) as [[Hk Hq _ _ _ _] _].
    destruct (revision_key_inj _ _ _ _ (proj1 Ht) Hq Hk) as [_ <-].
    destruct (effect_revision_cases s op p rid v Hwf Ht He) as [[-> _]|(r0 & Hr0 & Hp0 & _ & Hf)].
    { exists (op_name op). by rewrite lookup_insert_eq. }
    destruct (pub_recorded _ _ Hpub _ _ Hr0 Hp0) as [name Hname]. exists name.
    apply frozen_fields in Hf as [Hf _].
    destruct (holds_ids s _ _ _ Hwf (proj1 Ht) Hr0) as (_ & Hrid & _). rewrite Hrid in Hname.
    apply lookup_insert_is_Some'. by right.
  - intros key r Hr Hp.
    destruct rev as [[rid v]|]; simpl in Hr; [apply lookup_insert_Some in Hr as [[<- <-]|[_ Hr]]|];
      [|by eapply pub_capable..].
    destruct (effect_revision_cases s op p rid v Hwf Ht He)
      as [[_ Hc]|(r0 & Hr0 & Hp0 & _ & Hf)].
    + destruct (Hc Hp) as [Hc'|(key & r0 & Hr0 & Hp0 & ->)]; [done|by eapply pub_capable].
    + apply frozen_fields in Hf as [_ ->]. by eapply pub_capable.
  - intros id q a r [[<- <-]|[Hne Hq]]%commit_lookup Ha Hr; [by eapply effect_active|].
    destruct (wf_active s Hwf _ _ _ Hq Ha) as [_ [v Hv]].
    pose proof (pub_active _ _ Hpub _ _ _ _ Hq Ha Hv) as Hvp.
    destruct (commit_frozen ops s op p rev t _ v Hwf Ht Hpub Hone Hop Hn He Hv Hvp) as (r' & Hr' & ? & _).
    congruence.
Qed.

Lemma step_pub ops fresh op m :
  wf (guarded m) → op_typed op → pub ops (guarded m) → one_purpose ops → op ∈ ops →
  pub ops (guarded (apply_op fresh op m).2)
  ∧ ∀ key r, ss_revisions (guarded m) !! key = Some r → sr_published r = true →
      ∃ r', ss_revisions (guarded (apply_op fresh op m).2) !! key = Some r' ∧ sr_published r' = true
            ∧ frozen r' = frozen r.
Proof.
  intros Hwf Ht Hpub Hone Hop. destruct m as [[] s]; simpl in *.
  { destruct (poisoned_refuses fresh op s) as [e ->]. split; [done|]. eauto. }
  pose proof (apply_op_ends fresh op s (wf_keyed s Hwf)) as He. unfold ends in He.
  destruct He as [| | |p rev t a Hn He]; [by eauto..|]. split; [by apply commit_pub|].
  intros key r. by apply (commit_frozen ops s op p rev t).
Qed.

Lemma run_pub ops l m :
  wf (guarded m) → Forall op_typed l.*2 → pub ops (guarded m) → one_purpose ops → l.*2 ⊆ ops →
  pub ops (guarded (run_store l m))
  ∧ ∀ key r, ss_revisions (guarded m) !! key = Some r → sr_published r = true →
      ∃ r', ss_revisions (guarded (run_store l m)) !! key = Some r' ∧ sr_published r' = true
            ∧ frozen r' = frozen r.
Proof.
  intros Hwf Hl Hpub Hone Hsub. revert m Hwf Hpub.
  induction l as [|[fresh op] l IH]; intros m Hwf Hpub; simpl; [by eauto|].
  apply Forall_cons in Hl as [Ht Hl].
  assert (Hop : op ∈ ops) by (apply Hsub; left).
  destruct (step_pub ops fresh op m Hwf Ht Hpub Hone Hop) as [Hpub' Hkept].
  assert (Hwf' : wf (guarded (apply_op fresh op m).2)).
  { apply (run_store_wf [(fresh, op)] m); [by apply Forall_singleton|done]. }
  destruct (IH Hl (λ x Hx, Hsub x (list_elem_of_further _ _ _ Hx)) _ Hwf' Hpub') as [Hpub2 Hkept2].
  split; [done|]. intros key r Hr Hp.
  destruct (Hkept key r Hr Hp) as (r1 & Hr1 & Hp1 & <-). by apply Hkept2.
Qed.

Lemma pub_default ops : pub ops store_default.
Proof. split; try done. by intros key [? ?]. Qed.

(** C10. Published revisions are immutable.  Where no request identifier serves
    two different operations, whatever requests come before and after: a
    revision once published stays stored and published with the specification,
    hash, author and time it had, and the active revision of every proxy is a
    published one that the capability gate accepts. *)
Theorem proxy_published_immutable before later key r m m' :
  Forall op_typed (before ++ later).*2 → one_purpose (before ++ later).*2 →
  m = run_store before new_store → m' = run_store later m →
  ss_revisions (guarded m) !! key = Some r → sr_published r = true →
  (∃ r', ss_revisions (guarded m') !! key = Some r' ∧ sr_published r' = true ∧ frozen r' = frozen r)
  ∧ ∀ id p a, ss_proxies (guarded m') !! id = Some p → sp_active_revision_id p = Some a →
      ∃ v, ss_revisions (guarded m') !! revision_key id a = Some v ∧ sr_published v = true
           ∧ validate_publish_capabilities (rv_spec (sr_revision v)) = Ok tt.
Proof.
  intros Ht Hone Hm Hm' Hr Hp. set (ops := (before ++ later).*2) in *.
  assert (Hsub : before.*2 ⊆ ops ∧ later.*2 ⊆ ops).
  { subst ops. rewrite fmap_app. split; intros x Hx; apply elem_of_app; auto. }
  assert (Ht' : Forall op_typed before.*2 ∧ Forall op_typed later.*2).
  { subst ops. rewrite fmap_app in Ht. by apply Forall_app. }
  assert (Hwf : wf (guarded m)) by (subst m; apply run_store_wf; [apply Ht'|apply wf_default]).
  assert (Hpub : pub ops (guarded m)).
  { subst m. apply run_pub; [apply wf_default|apply Ht'|apply pub_default|done|apply Hsub]. }
  destruct (run_pub ops later m Hwf) as [Hpub' Hkept]; [apply Ht'|done|done|apply Hsub|].
  rewrite <-Hm' in Hpub', Hkept. split; [by apply Hkept|].
  assert (Hwf' : wf (guarded m')) by (subst m'; apply run_store_wf; [apply Ht'|done]).
  intros id p a Hq Ha. destruct (wf_active _ Hwf' _ _ _ Hq Ha) as [_ [v Hv]].
  exists v. split; [done|]. pose proof (pub_active _ _ Hpub' _ _ _ _ Hq Ha Hv).
  split; [done|by eapply pub_capable].
Qed.

(** C36. A published revision can be replaced by a draft.  The edit of a draft
    that carries the request identifier of an earlier publication stores its
    draft where the published revision is: the active revision of the proxy is
    then an unpublished one, with the specification of the edit, which no
    capability gate has seen. *)
Theorem reused_id_replaces_published fresh i s p v0 :
  is_ok (validate_update i) = true → is_lowercase_uuidv7 (up_request_id i) = true →
  ss_idempotency s !! (up_request_id i, UPDATE_DRAFT_OPERATION) = None →
  ss_proxies s !! up_proxy_id i = Some p → sp_scope p = up_scope i →
  sp_draft_revision_id p = up_expected_revision_id i →
  sp_active_revision_id p = Some (up_request_id i) →
  ss_revisions s !! revision_key (up_proxy_id i) (up_request_id i) = Some v0 → sr_published v0 = true →
  (∀ bytes, str_len (sha256_digest bytes) = 32) →
  let m := (apply_op fresh (OpUpdate i) (mkMutex false s)).2 in
  ∃ p' v, ss_proxies (guarded m) !! up_proxy_id i = Some p'
    ∧ sp_active_revision_id p' = Some (up_request_id i)
    ∧ ss_revisions (guarded m) !! revision_key (up_proxy_id i) (up_request_id i) = Some v
    ∧ sr_published v = false ∧ rv_spec (sr_revision v) = up_spec i.
Proof.
  intros Hv Hlow Hn Hp Hsc Hx Ha _ _ Hdig.
  destruct (validate_update i) as [x|] eqn:Hu; [|done].
  destruct (validate_update_inv i x Hu) as (-> & Hspec & micros & Hm).
  destruct (build_revision_total (up_proxy_id i) (up_request_id i) (up_spec i) (up_actor_id i) Draft
    Redacted micros Hdig Hspec) as (v & Hb & Hvs).
  unfold apply_op. rewrite answer_run. unfold memory_update_draft. store_run. rewrite Hu, Hm. store_run.
  rewrite check_idempotency_new by done. store_run. rewrite Hp, bool_decide_true by done. store_run.
  rewrite bool_decide_true by done. store_run.
  rewrite (request_revision_new _ _ Hm Hlow). store_run. rewrite Hb. store_run.
  rewrite (bind_update _ _ _ _ p) by done. store_run. simpl.
  exists (set_draft_revision (up_request_id i) p), (mkStored v false).
  by rewrite !lookup_insert_eq.
Qed.
End published.

(** The requests of a proxy's life each have their own identifier. *)
Lemma dm_served_purposes : one_purpose (dm_served).*2.
Proof.
  intros op op' Hop Hop' He.
  repeat (apply elem_of_cons in Hop as [->|Hop]; [|]); [..|by apply elem_of_nil in Hop];
    repeat (apply elem_of_cons in Hop' as [->|Hop']; [|]); try (by apply elem_of_nil in Hop');
    try reflexivity; discriminate He.
Qed.

Lemma proxy_published_immutable_witness :
  let m' := run_store (drop 3 dm_served) (run_store dm_published new_store) in
  ∃ r', ss_revisions (guarded m') !! revision_key dm_id (dm_request "3") = Some r'
        ∧ sr_published r' = true ∧ rv_spec (sr_revision r') = demo_spec.
Proof.
  destruct (ss_revisions (guarded (run_store dm_published new_store)) !! revision_key dm_id (dm_request "3"))
    as [r|] eqn:Hr; [|by vm_compute in Hr].
  assert (Hf : (λ r, (sr_published r, rv_spec (sr_revision r)))
    <$> ss_revisions (guarded (run_store dm_published new_store)) !! revision_key dm_id (dm_request "3")
    = Some (true, demo_spec)) by (vm_compute; reflexivity).
  rewrite Hr in Hf. injection Hf as Hp Hspec.
  destruct (proxy_published_immutable dm_published (drop 3 dm_served) (revision_key dm_id (dm_request "3"))
    r (run_store dm_published new_store) (run_store (drop 3 dm_served) (run_store dm_published new_store)))
    as [(r' & Hr' & Hp' & Hfz) _].
  - by apply dm_typed; [|repeat constructor].
  - exact dm_served_purposes.
  - reflexivity.
  - reflexivity.
  - exact Hr.
  - exact Hp.
  - exists r'. split; [exact Hr'|]. split; [exact Hp'|].
    destruct (frozen_fields _ _ Hfz) as [_ ->]. exact Hspec.
Defined.

(** The edit that reuses the identifier of the publication: a transport the gate refuses. *)
Definition dm_reused : UpdateProxyDraft :=
  mkUpdate (dm_request "3") dm_scope dm_id (Some (dm_request "2")) "mallory"
    (mkSpec (mkIngress Stdio ExposePrivate "portfolio.example.com" "/mcp"
               ["https://console.example.com"] "2025-11-25" true)
       (sp_upstreams demo_spec) (sp_exposed_tools demo_spec) [] [] (sp_governance_binding demo_spec)
       (sp_runtime_profile demo_spec)).

Lemma reused_id_replaces_published_witness :
  let m := (apply_op "log" (OpUpdate dm_reused) (run_store dm_published new_store)).2 in
  ∃ p' v, ss_proxies (guarded m) !! dm_id = Some p'
    ∧ sp_active_revision_id p' = Some (dm_request "3")
    ∧ ss_revisions (guarded m) !! revision_key dm_id (dm_request "3") = Some v
    ∧ sr_published v = false ∧ rv_spec (sr_revision v) = up_spec dm_reused.
Proof.
  destruct (run_store dm_published new_store) as [b s] eqn:Hs.
  assert (Hm : (λ m, (poisoned m, bool_decide (ss_idempotency (guarded m) !! (dm_request "3", UPDATE_DRAFT_OPERATION) = None),
      (λ p, (sp_scope p, sp_draft_revision_id p, sp_active_revision_id p)) <$> ss_proxies (guarded m) !! dm_id,
      sr_published <$> ss_revisions (guarded m) !! revision_key dm_id (dm_request "3")))
    (run_store dm_published new_store)
    = (false, true, Some (dm_scope, Some (dm_request "2"), Some (dm_request "3")), Some true)) by (vm_compute; reflexivity).
  rewrite Hs in Hm. cbn [poisoned guarded] in Hm.
  destruct (ss_proxies s !! dm_id) as [p|] eqn:Hp; [|done].
  destruct (ss_revisions s !! revision_key dm_id (dm_request "3")) as [v0|] eqn:Hv; [|done].
  injection Hm as -> Hn Hsc Hd Ha Hpub. apply bool_decide_eq_true in Hn.
  apply (reused_id_replaces_published "log" dm_reused s p v0).
  all: try (first [exact Hn|exact Hp|exact Hsc|exact Hd|exact Ha|exact Hv|exact Hpub]).
  - vm_compute. reflexivity.
  - vm_compute. reflexivity.
  - intros bytes. exact (pad_len 32 bytes).
Defined.

(** * Two ways past the checks of the proxy store

    A request identifier that is a version 7 UUID of another variant passes the
    check of requests and unwinds the thread that holds the lock of the store.
    A rollback brings a retired proxy back into service. *)

Section gaps.
Context `{AuthDeps, WireCodec, UuidApi}.

(** One request disables the store.  A draft edit of the caller's own
    proxy, whose request identifier the check of requests accepts and
    [ProxyRevisionId::new] does not, unwinds with the lock held.  The lock is
    then poisoned: every later request of every caller, whatever its scope, is
    refused. *)
Theorem odd_variant_poisons fresh i s p :
  is_ok (validate_update i) = true → (∀ r, proxy_revision_id_new (up_request_id i) ≠ Ok r) →
  ss_idempotency s !! (up_request_id i, UPDATE_DRAFT_OPERATION) = None →
  ss_proxies s !! up_proxy_id i = Some p → sp_scope p = up_scope i →
  sp_draft_revision_id p = up_expected_revision_id i →
  apply_op fresh (OpUpdate i) (mkMutex false s) = (Err Unwinding, mkMutex true s)
  ∧ ∀ later, run_store later (mkMutex true s) = mkMutex true s
      ∧ Forall (λ o, ∃ e, (apply_op o.1 o.2 (run_store later (mkMutex true s))).1 = Err (Refused e)) later.
Proof.
  intros Hv Hodd Hn Hp Hsc Hx. split.
  - destruct (validate_update i) as [x|] eqn:Hu; [|done].
    destruct (validate_update_inv i x Hu) as (-> & Hspec & micros & Hm).
    unfold apply_op. rewrite answer_run. unfold memory_update_draft. store_run. rewrite Hu, Hm. store_run.
    rewrite check_idempotency_new by done. store_run. rewrite Hp, bool_decide_true by done. store_run.
    rewrite bool_decide_true by done. store_run.
    destruct (proxy_revision_id_new (up_request_id i)) as [r|] eqn:Hr; [by destruct (Hodd r)|done].
  - intros later. assert (Hl : run_store later (mkMutex true s) = mkMutex true s).
    { induction later as [|[f op] later IH]; [done|]. simpl.
      by destruct (poisoned_refuses f op s) as [e ->]. }
    split; [done|]. rewrite Hl. apply Forall_forall. intros [f op] _.
    destruct (poisoned_refuses f op s) as [e He]. exists e. simpl. by rewrite He.
Qed.

(** Retirement is not final.  A rollback of a retired proxy to a published
    revision that was in service commits, and the proxy is ready again. *)
Theorem retired_proxy_returns fresh i s p target micros actor reason :
  validate_request_id (rb_request_id i) = Ok micros →
  bounded_required_string (rb_actor_id i) = Ok actor →
  validate_reason_code (rb_reason_code i) = Ok reason →
  ss_idempotency s !! (rb_request_id i, ROLLBACK_OPERATION) = None →
  ss_proxies s !! rb_proxy_id i = Some p → sp_scope p = rb_scope i →
  sp_lifecycle_state p = Retired →
  sp_active_revision_id p = rb_expected_revision_id i →
  sp_active_revision_id p = Some (rb_revision_id i) →
  ss_revisions s !! revision_key (rb_proxy_id i) (rb_target_revision_id i) = Some target →
  sr_published target = true → rv_lifecycle_state (sr_revision target) = Ready →
  ∃ answer s', memory_rollback fresh i (mkMutex false s) = (Ok answer, mkMutex false s')
    ∧ px_lifecycle_state answer = Ready
    ∧ sp_lifecycle_state <$> ss_proxies s' !! rb_proxy_id i = Some Ready.
Proof.
  intros Hm Ha Hr Hn Hp Hsc Hret He Hact Ht Hpub Hready. unfold memory_rollback. store_run.
  rewrite Hm. store_run. rewrite Ha. store_run. rewrite Hr. store_run.
  rewrite check_idempotency_new by done. store_run. rewrite Hp, bool_decide_true by done. store_run.
  assert (Hna : names_active p (rb_expected_revision_id i) (rb_revision_id i) = true).
  { unfold names_active. by rewrite !bool_decide_true. }
  rewrite Hna. store_run. rewrite Ht. cbn [ok_or]. store_run. rewrite Hpub. store_run.
  rewrite bool_decide_true by done. store_run. rewrite (bind_update _ _ _ _ p) by done. store_run.
  eexists _, _. split; [reflexivity|]. split; [done|]. simpl. by rewrite lookup_insert_eq.
Qed.
End gaps.

(** Identifiers of any variant: the version is the first digit of the third
    group. *)
Definition any_variant_uuid : UuidApi := {|
  Uuid := string;
  uuid_parse_str s := if str_len s =? 36 then Some s else None;
  uuid_version_num s := if at_is (String.list_ascii_of_string s) 14 "7" then 7 else 4;
  uuid_hyphenated s := s;
  uuid_timestamp _ := Some (1767225600, 0);
|}.
Definition dm_odd : UpdateProxyDraft :=
  mkUpdate "0198c1a2-0000-7000-0000-000000000002" dm_scope dm_id None "alice" demo_spec.
Definition dm_proxy : StoreProxy :=
  mkStoreProxy dm_id dm_scope "Portfolio" "portfolio" None None Draft Redacted None None 1767225600000000.

Lemma odd_variant_poisons_witness :
  let m := @run_store dm_auth dm_wire any_variant_uuid (dm_run [dm_create]) new_store in
  (@apply_op dm_auth dm_wire any_variant_uuid "log" (OpUpdate dm_odd) m).1 = Err Unwinding.
Proof.
  cbv zeta.
  destruct (@run_store dm_auth dm_wire any_variant_uuid (dm_run [dm_create]) new_store) as [b s] eqn:Hs.
  assert (Hm : (λ m, (poisoned m, bool_decide (ss_idempotency (guarded m) !! (up_request_id dm_odd, UPDATE_DRAFT_OPERATION) = None),
      ss_proxies (guarded m) !! dm_id))
    (@run_store dm_auth dm_wire any_variant_uuid (dm_run [dm_create]) new_store)
    = (false, true, Some dm_proxy)) by (vm_compute; reflexivity).
  rewrite Hs in Hm. cbn [poisoned guarded] in Hm. injection Hm as -> Hn Hp.
  apply bool_decide_eq_true in Hn.
  destruct (@odd_variant_poisons dm_auth dm_wire any_variant_uuid "log" dm_odd s dm_proxy) as [-> _].
  - vm_compute. reflexivity.
  - intros r Hr. vm_compute in Hr. discriminate Hr.
  - exact Hn.
  - exact Hp.
  - reflexivity.
  - reflexivity.
  - reflexivity.
Defined.

Definition dm_rollback : RollbackProxy :=
  mkRollback (dm_request "9") dm_scope dm_id (dm_request "3") (dm_request "3") (Some (dm_request "3"))
    "alice" "operator.request".

Lemma retired_proxy_returns_witness :
  ∃ answer s', memory_rollback "log" dm_rollback
      (run_store (dm_served ++ dm_run [dm_retire]) new_store) = (Ok answer, mkMutex false s')
    ∧ px_lifecycle_state answer = Ready
    ∧ sp_lifecycle_state <$> ss_proxies s' !! dm_id = Some Ready.
Proof.
  destruct (run_store (dm_served ++ dm_run [dm_retire]) new_store) as [b s] eqn:Hs.
  assert (Hm : (λ m, (poisoned m, bool_decide (ss_idempotency (guarded m) !! (dm_request "9", ROLLBACK_OPERATION) = None),
      (λ p, (sp_scope p, sp_lifecycle_state p, sp_active_revision_id p)) <$> ss_proxies (guarded m) !! dm_id,
      (λ r, (sr_published r, rv_lifecycle_state (sr_revision r)))
        <$> ss_revisions (guarded m) !! revision_key dm_id (dm_request "3")))
    (run_store (dm_served ++ dm_run [dm_retire]) new_store)
    = (false, true, Some (dm_scope, Retired, Some (dm_request "3")), Some (true, Ready)))
    by (vm_compute; reflexivity).
  rewrite Hs in Hm. cbn [poisoned guarded] in Hm.
  destruct (ss_proxies s !! dm_id) as [p|] eqn:Hp; [|done].
  destruct (ss_revisions s !! revision_key dm_id (dm_request "3")) as [v|] eqn:Hv; [|done].
  injection Hm as -> Hn Hsc Hret Ha Hpub Hready. apply bool_decide_eq_true in Hn.
  apply (retired_proxy_returns "log" dm_rollback s p v 1767225600000000 "alice" "operator.request").
  all: try (first [exact Hn|exact Hp|exact Hsc|exact Hret|exact Ha|exact Hv|exact Hpub|exact Hready]).
  all: vm_compute; reflexivity.
Defined.
