(* ===== verification/Outbox.v ===== *)
(** * The command outbox

    [crates/apex-durability/src/outbox/types.rs] (the [EventOutbox] contract) and
    [memory.rs] (the in-memory store), and the gateway's side of it in
    [apps/control-plane-api/src/outbox.rs].  The contract is a type class with
    its laws over an abstract table of rows; SHA-256 is a parameter and the
    clock's reading an argument. *)
From S2P Require Import Prelude RustStr Errors Domain.

Open Scope N_scope.

(** ** Data *)

Record OutboxKey := mkOutboxKey {
  ok_workspace_id : string;
  ok_namespace_id : string;
  ok_event_id : string;
}.

#[global] Instance OutboxKey_eq_dec : EqDecision OutboxKey.
Proof. solve_decision. Defined.
#[global] Program Instance OutboxKey_countable : Countable OutboxKey :=
  inj_countable' (λ k, (ok_workspace_id k, ok_namespace_id k, ok_event_id k))
    (λ t, mkOutboxKey t.1.1 t.1.2 t.2) _.
Next Obligation. by intros []. Qed.

#[global] Instance IngestRequest_eq_dec : EqDecision IngestRequest.
Proof. solve_decision. Defined.

(** The key every operation derives from an event. *)
Definition key_of (e : IngestRequest) : OutboxKey :=
  mkOutboxKey (ir_workspace_id e) (ir_namespace_id e) (ir_event_id e).

Inductive EnqueueResult := Enqueued | AlreadyPending | AlreadyComplete.

(** [payload_fingerprint]. *)
Class PayloadDigest := payload_fingerprint : string → string.

(** ** The contract *)

(** The operations of [EventOutbox] the gateway calls, on a store [O]; a
    leading [N] is the clock's reading in milliseconds. *)
Class EventOutbox (O : Type) := {
  enqueue : N → IngestRequest → ST O GatewayErrorCode EnqueueResult;
  mark_complete_many : N → list OutboxKey → ST O GatewayErrorCode unit;
  pending_batch : N → N → ST O GatewayErrorCode (list IngestRequest);
  pending_reconciliation_batch : N → ST O GatewayErrorCode (list IngestRequest);
  recent_completed_batch : N → N → ST O GatewayErrorCode (list IngestRequest);
  reschedule : N → list OutboxKey → N → ST O GatewayErrorCode unit;
  quarantine : N → string → list OutboxKey → ST O GatewayErrorCode unit;
  requeue_quarantined : N → list OutboxKey → ST O GatewayErrorCode unit;
}.

(** What a row can be: awaiting fanout, withdrawn from it, or settled. *)
Inductive Row :=
  | Pending (e : IngestRequest)
  | Quarantined (e : IngestRequest)
  | Complete (e : IngestRequest).

Definition row_event (r : Row) : IngestRequest :=
  match r with Pending e | Quarantined e | Complete e => e end.

(** The row of a key after the operations that settle and withdraw rows. *)
Definition settle_row (r : Row) : Row := match r with Pending e => Complete e | r => r end.
Definition withdraw_row (r : Row) : Row := match r with Pending e => Quarantined e | r => r end.

(** The laws, against the table of rows of a well-formed store.  A call that
    fails leaves the rows as they were, unless it says otherwise; a store may
    or may not compare an event with a quarantined one. *)
Class OutboxLaws (O : Type) `{EventOutbox O, PayloadDigest} := {
  rows : O → gmap OutboxKey Row;
  outbox_wf : O → Prop;

  (** Every row is filed under its own key. *)
  rows_keyed o k r : outbox_wf o → rows o !! k = Some r → key_of (row_event r) = k;

  enqueue_wf now e o : outbox_wf o → outbox_wf (enqueue now e o).2;
  enqueue_law now e o : outbox_wf o →
    match rows o !! key_of e, enqueue now e o with
    | None, (Ok r, o') => r = Enqueued ∧ rows o' = <[key_of e := Pending e]> (rows o)
    | None, (Err _, o') => rows o' = rows o
    | Some (Pending e0), (r, o') =>
        rows o' = rows o ∧ r = if String.eqb (ir_envelope e0) (ir_envelope e)
                               then Ok AlreadyPending else Err GIdempotencyConflict
    | Some (Quarantined e0), (r, o') =>
        rows o' = rows o ∧ (r = Ok AlreadyPending
                            ∨ r = Err GIdempotencyConflict ∧ ir_envelope e0 ≠ ir_envelope e)
    | Some (Complete e0), (r, o') =>
        rows o' = rows o ∧ r = if String.eqb (payload_fingerprint (ir_envelope e0))
                                    (payload_fingerprint (ir_envelope e))
                               then Ok AlreadyComplete else Err GIdempotencyConflict
    end;

  mark_wf now ks o : outbox_wf o → outbox_wf (mark_complete_many now ks o).2;
  (** A group that is settled is settled whole; a failure settles some of it. *)
  mark_ok now ks o : outbox_wf o → (mark_complete_many now ks o).1 = Ok tt →
    ∀ k, rows (mark_complete_many now ks o).2 !! k
         = if bool_decide (k ∈ ks) then settle_row <$> rows o !! k else rows o !! k;
  mark_some now ks o : outbox_wf o →
    ∀ k, rows (mark_complete_many now ks o).2 !! k = rows o !! k
         ∨ k ∈ ks ∧ rows (mark_complete_many now ks o).2 !! k = settle_row <$> rows o !! k;

  batch_wf now limit o : outbox_wf o → outbox_wf (pending_batch now limit o).2;
  batch_rows now limit o : outbox_wf o → rows (pending_batch now limit o).2 = rows o;
  batch_law now limit o es : outbox_wf o → (pending_batch now limit o).1 = Ok es →
    len es ≤ limit ∧ NoDup (key_of <$> es)
    ∧ ∀ e, e ∈ es → rows o !! key_of e = Some (Pending e);

  reschedule_wf now ks d o : outbox_wf o → outbox_wf (reschedule now ks d o).2;
  (** A store may withdraw a row that was rescheduled too often. *)
  reschedule_law now ks d o : outbox_wf o →
    ∀ k, rows (reschedule now ks d o).2 !! k = rows o !! k
         ∨ k ∈ ks ∧ rows (reschedule now ks d o).2 !! k = withdraw_row <$> rows o !! k;

  quarantine_wf now why ks o : outbox_wf o → outbox_wf (quarantine now why ks o).2;
  quarantine_law now why ks o : outbox_wf o →
    ∀ k, rows (quarantine now why ks o).2 !! k = rows o !! k
         ∨ k ∈ ks ∧ rows (quarantine now why ks o).2 !! k = withdraw_row <$> rows o !! k;

  reconciliation_law limit o es : outbox_wf o → (pending_reconciliation_batch limit o).1 = Ok es →
    (pending_reconciliation_batch limit o).2 = o ∧ len es ≤ limit
    ∧ ∀ e, e ∈ es → rows o !! key_of e = Some (Pending e);
  completed_law since limit o es : outbox_wf o → (recent_completed_batch since limit o).1 = Ok es →
    (recent_completed_batch since limit o).2 = o ∧ len es ≤ limit
    ∧ ∀ e, e ∈ es → rows o !! key_of e = Some (Complete e);
}.

(** ** The in-memory store *)

Record InMemoryOutbox := mkMemory {
  m_capacity : N;
  m_pending : gmap OutboxKey IngestRequest;
  m_complete : gmap OutboxKey string;
  m_complete_events : gmap OutboxKey IngestRequest;
  m_completed_at : gmap OutboxKey N;
  m_next_attempt : gmap OutboxKey N;
  m_quarantined : gmap OutboxKey IngestRequest;
  m_pending_since : gmap OutboxKey N;
}.

(** [InMemoryOutbox::new]. *)
Definition memory_new (capacity : N) : result GatewayErrorCode InMemoryOutbox :=
  if (capacity =? 0) || (1000000 <? capacity) then Err GIdempotencyCapacity
  else Ok (mkMemory capacity ∅ ∅ ∅ ∅ ∅ ∅ ∅).

Section memory.
Context `{PayloadDigest}.

Definition memory_enqueue (now : N) (event : IngestRequest)
    : ST InMemoryOutbox GatewayErrorCode EnqueueResult := λ o,
  let key := key_of event in
  match m_complete o !! key with
  | Some fingerprint =>
      (if String.eqb fingerprint (payload_fingerprint (ir_envelope event))
       then Ok AlreadyComplete else Err GIdempotencyConflict, o)
  | None =>
      match m_quarantined o !! key with
      | Some _ => (Ok AlreadyPending, o)
      | None =>
          match m_pending o !! key with
          | Some existing =>
              (if String.eqb (ir_envelope existing) (ir_envelope event)
               then Ok AlreadyPending else Err GIdempotencyConflict, o)
          | None =>
              if m_capacity o <=? map_len (m_pending o) + map_len (m_complete o)
              then (Err GIdempotencyCapacity, o)
              else (Ok Enqueued,
                    mkMemory (m_capacity o) (<[key := event]> (m_pending o)) (m_complete o)
                      (m_complete_events o) (m_completed_at o) (m_next_attempt o) (m_quarantined o)
                      (<[key := now]> (m_pending_since o)))
          end
      end
  end.

Definition memory_mark_complete (now : N) (key : OutboxKey)
    : ST InMemoryOutbox GatewayErrorCode unit := λ o,
  match m_pending o !! key with
  | Some event =>
      (Ok tt,
       mkMemory (m_capacity o) (delete key (m_pending o))
         (<[key := payload_fingerprint (ir_envelope event)]> (m_complete o))
         (<[key := event]> (m_complete_events o)) (<[key := now]> (m_completed_at o))
         (delete key (m_next_attempt o)) (m_quarantined o) (delete key (m_pending_since o)))
  | None => if bool_decide (is_Some (m_complete o !! key)) then (Ok tt, o) else (Err GInternal, o)
  end.

(** The trait's default: one key after the other, until one fails. *)
Fixpoint memory_mark_complete_many (now : N) (keys : list OutboxKey)
    : ST InMemoryOutbox GatewayErrorCode unit :=
  match keys with
  | [] => mret tt
  | key :: keys => memory_mark_complete now key ≫= λ _, memory_mark_complete_many now keys
  end.

(** A [HashMap] is iterated in an order that is not specified; the model takes
    the order of [map_to_list]. *)
Definition memory_pending_batch (now limit : N)
    : ST InMemoryOutbox GatewayErrorCode (list IngestRequest) := λ o,
  (Ok (take (N.to_nat limit)
         (filter (λ kv, default 0 (m_next_attempt o !! kv.1) ≤ now) (map_to_list (m_pending o))).*2),
   o).

Definition memory_pending_reconciliation_batch (limit : N)
    : ST InMemoryOutbox GatewayErrorCode (list IngestRequest) := λ o,
  (Ok (take (N.to_nat limit) (map_to_list (m_pending o)).*2), o).

Definition memory_recent_completed_batch (since_millis limit : N)
    : ST InMemoryOutbox GatewayErrorCode (list IngestRequest) := λ o,
  (Ok (take (N.to_nat limit)
         (omap (λ kv, m_complete_events o !! kv.1)
            (filter (λ kv, since_millis ≤ kv.2) (map_to_list (m_completed_at o))))), o).

Definition memory_reschedule (now : N) (keys : list OutboxKey) (after : N)
    : ST InMemoryOutbox GatewayErrorCode unit := mret tt.

Definition memory_quarantine_one (key : OutboxKey) (o : InMemoryOutbox) : InMemoryOutbox :=
  let next_attempt := delete key (m_next_attempt o) in
  let pending_since := delete key (m_pending_since o) in
  match m_pending o !! key with
  | Some event =>
      mkMemory (m_capacity o) (delete key (m_pending o)) (m_complete o) (m_complete_events o)
        (m_completed_at o) next_attempt (<[key := event]> (m_quarantined o)) pending_since
  | None =>
      mkMemory (m_capacity o) (m_pending o) (m_complete o) (m_complete_events o)
        (m_completed_at o) next_attempt (m_quarantined o) pending_since
  end.
Definition memory_quarantine (keys : list OutboxKey) : ST InMemoryOutbox GatewayErrorCode unit := λ o,
  (Ok tt, foldl (λ o key, memory_quarantine_one key o) o keys).

Definition memory_requeue_one (now : N) (key : OutboxKey) (o : InMemoryOutbox) : InMemoryOutbox :=
  match m_quarantined o !! key with
  | Some event =>
      mkMemory (m_capacity o) (<[key := event]> (m_pending o)) (m_complete o) (m_complete_events o)
        (m_completed_at o) (m_next_attempt o) (delete key (m_quarantined o))
        (<[key := now]> (m_pending_since o))
  | None => o
  end.
Definition memory_requeue_quarantined (now : N) (keys : list OutboxKey)
    : ST InMemoryOutbox GatewayErrorCode unit := λ o,
  (Ok tt, foldl (λ o key, memory_requeue_one now key o) o keys).

(** [oldest_pending_millis] and the counts. *)
Definition memory_oldest_pending_millis (now : N) (o : InMemoryOutbox) : option N :=
  match (map_to_list (m_pending_since o)).*2 with
  | [] => None
  | t :: ts => Some (now - foldr N.min t ts)
  end.
Definition memory_quarantined_batch (limit : N) (o : InMemoryOutbox) : list OutboxKey :=
  take (N.to_nat limit) (map_to_list (m_quarantined o)).*1.
(** The trait's default of [check_admission_readiness]: a store that is not
    durable fails closed. *)
Definition memory_check_admission_readiness (workspace_id namespace_id : string) (o : InMemoryOutbox)
    : result GatewayErrorCode unit := Err GInternal.
Definition memory_pending_count (o : InMemoryOutbox) : N := map_len (m_pending o).
Definition memory_quarantined_count (o : InMemoryOutbox) : N := map_len (m_quarantined o).

#[global] Instance memory_outbox : EventOutbox InMemoryOutbox := {
  enqueue := memory_enqueue;
  mark_complete_many := memory_mark_complete_many;
  pending_batch := memory_pending_batch;
  pending_reconciliation_batch := memory_pending_reconciliation_batch;
  recent_completed_batch := memory_recent_completed_batch;
  reschedule := memory_reschedule;
  quarantine _ _ := memory_quarantine;
  requeue_quarantined := memory_requeue_quarantined;
}.
End memory.
