(* ===== verification/OutboxLaws.v ===== *)
(** * The in-memory outbox meets the contract

    The invariant of [InMemoryOutbox], its table of rows, and the instance of
    [OutboxLaws]. *)
From S2P Require Import Prelude RustStr Errors Domain Outbox.

Open Scope N_scope.

Section memory_laws.
Context `{PayloadDigest}.

(** A key is filed in at most one of the three tables, under its own event; the
    fingerprints are those of the completed events; the timestamps belong to
    rows that are there. *)
Record memory_wf (o : InMemoryOutbox) : Prop := {
  mw_pending k e : m_pending o !! k = Some e → key_of e = k;
  mw_quarantined k e : m_quarantined o !! k = Some e → key_of e = k;
  mw_complete k e : m_complete_events o !! k = Some e → key_of e = k;
  mw_fingerprints :
    m_complete o = (λ e, payload_fingerprint (ir_envelope e)) <$> m_complete_events o;
  mw_pending_quarantined : dom (m_pending o) ## dom (m_quarantined o);
  mw_pending_complete : dom (m_pending o) ## dom (m_complete_events o);
  mw_quarantined_complete : dom (m_quarantined o) ## dom (m_complete_events o);
  mw_completed_at : dom (m_completed_at o) = dom (m_complete_events o);
  mw_pending_since : dom (m_pending_since o) = dom (m_pending o);
}.

Definition memory_rows (o : InMemoryOutbox) : gmap OutboxKey Row :=
  (Pending <$> m_pending o) ∪ ((Quarantined <$> m_quarantined o) ∪ (Complete <$> m_complete_events o)).

Lemma memory_rows_lookup (o : InMemoryOutbox) (k : OutboxKey) :
  memory_rows o !! k =
    match m_pending o !! k, m_quarantined o !! k, m_complete_events o !! k with
    | Some e, _, _ => Some (Pending e)
    | None, Some e, _ => Some (Quarantined e)
    | None, None, Some e => Some (Complete e)
    | None, None, None => None
    end.
Proof.
  unfold memory_rows. rewrite !lookup_union, !lookup_fmap.
  by destruct (m_pending o !! k), (m_quarantined o !! k), (m_complete_events o !! k).
Qed.

(** Tables that are disjoint share no key. *)
Lemma disjoint_lookup {A B} (m : gmap OutboxKey A) (m' : gmap OutboxKey B) k a :
  dom m ## dom m' → m !! k = Some a → m' !! k = None.
Proof.
  intros Hd Hk. apply not_elem_of_dom. intros Hk'. apply (Hd k); [by eapply elem_of_dom_2|done].
Qed.

(** ** Enqueueing *)

Lemma memory_enqueue_wf now e o : memory_wf o → memory_wf (memory_enqueue now e o).2.
Proof.
  intros Hwf. unfold memory_enqueue.
  destruct (m_complete o !! key_of e) eqn:Hc; [done|].
  destruct (m_quarantined o !! key_of e) eqn:Hq; [done|].
  destruct (m_pending o !! key_of e) eqn:Hp; [done|].
  destruct (m_capacity o <=? _); [done|]. destruct Hwf.
  rewrite mw_fingerprints0, lookup_fmap, fmap_None in Hc.
  split; simpl; try done.
  - intros k e'. rewrite lookup_insert_Some. intros [[<- <-]|[_ ?]]; [done|eauto].
  - rewrite dom_insert_L. apply disjoint_union_l. split; [|done].
    apply disjoint_singleton_l. by apply not_elem_of_dom.
  - rewrite dom_insert_L. apply disjoint_union_l. split; [|done].
    apply disjoint_singleton_l. by apply not_elem_of_dom.
  - by rewrite !dom_insert_L, mw_pending_since0.
Qed.

Lemma memory_enqueue_law now e o : memory_wf o →
  match memory_rows o !! key_of e, memory_enqueue now e o with
  | None, (Ok r, o') => r = Enqueued ∧ memory_rows o' = <[key_of e := Pending e]> (memory_rows o)
  | None, (Err _, o') => memory_rows o' = memory_rows o
  | Some (Pending e0), (r, o') =>
      memory_rows o' = memory_rows o ∧ r = if String.eqb (ir_envelope e0) (ir_envelope e)
                             then Ok AlreadyPending else Err GIdempotencyConflict
  | Some (Quarantined e0), (r, o') =>
      memory_rows o' = memory_rows o
      ∧ (r = Ok AlreadyPending ∨ r = Err GIdempotencyConflict ∧ ir_envelope e0 ≠ ir_envelope e)
  | Some (Complete e0), (r, o') =>
      memory_rows o' = memory_rows o
      ∧ r = if String.eqb (payload_fingerprint (ir_envelope e0))
                 (payload_fingerprint (ir_envelope e))
            then Ok AlreadyComplete else Err GIdempotencyConflict
  end.
Proof.
  intros Hwf. rewrite memory_rows_lookup. unfold memory_enqueue.
  rewrite (mw_fingerprints _ Hwf), lookup_fmap.
  destruct (m_complete_events o !! key_of e) as [c|] eqn:Hc; simpl.
  { destruct (m_pending o !! key_of e) as [p|] eqn:Hp.
    { by rewrite (disjoint_lookup _ _ _ _ (mw_pending_complete _ Hwf) Hp) in Hc. }
    destruct (m_quarantined o !! key_of e) as [q|] eqn:Hq; [|done].
    by rewrite (disjoint_lookup _ _ _ _ (mw_quarantined_complete _ Hwf) Hq) in Hc. }
  destruct (m_pending o !! key_of e) as [p|] eqn:Hp; simpl.
  { by rewrite (disjoint_lookup _ _ _ _ (mw_pending_quarantined _ Hwf) Hp). }
  destruct (m_quarantined o !! key_of e) as [q|] eqn:Hq; simpl; [by auto|].
  destruct (m_capacity o <=? _); [done|]. split; [done|].
  unfold memory_rows. simpl. by rewrite fmap_insert, insert_union_l.
Qed.

(** ** Settling *)

Lemma dom_delete_disjoint {A B} (m : gmap OutboxKey A) (m' : gmap OutboxKey B) k b :
  dom m ## dom m' → dom (delete k m) ## dom (<[k := b]> m').
Proof.
  intros Hd. rewrite dom_delete_L, dom_insert_L. intros x [Hx Hk]%elem_of_difference.
  intros [?|Hx']%elem_of_union; [done|]. by apply (Hd x).
Qed.

Lemma memory_mark_wf now k o : memory_wf o → memory_wf (memory_mark_complete now k o).2.
Proof.
  intros Hwf. unfold memory_mark_complete. destruct (m_pending o !! k) as [e|] eqn:Hp.
  2: by destruct (bool_decide _).
  pose proof (mw_pending _ Hwf _ _ Hp) as Hk.
  pose proof (disjoint_lookup _ _ _ _ (mw_pending_quarantined _ Hwf) Hp) as Hq.
  destruct Hwf. split; simpl; try done.
  - intros k' e' [_ ?]%lookup_delete_Some. eauto.
  - intros k' e'. rewrite lookup_insert_Some. intros [[<- <-]|[_ ?]]; [done|eauto].
  - by rewrite fmap_insert, mw_fingerprints0.
  - rewrite dom_delete_L. intros x [Hx _]%elem_of_difference. by apply mw_pending_quarantined0.
  - by apply dom_delete_disjoint.
  - rewrite dom_insert_L. apply disjoint_union_r. split; [|done].
    apply disjoint_singleton_r. by apply not_elem_of_dom.
  - by rewrite !dom_insert_L, mw_completed_at0.
  - by rewrite !dom_delete_L, mw_pending_since0.
Qed.

Lemma memory_mark_rows now k o : memory_wf o →
  (memory_mark_complete now k o).1 = Ok tt →
  memory_rows (memory_mark_complete now k o).2 = alter settle_row k (memory_rows o).
Proof.
  intros Hwf. unfold memory_mark_complete. destruct (m_pending o !! k) as [e|] eqn:Hp; simpl.
  - intros _. apply map_eq. intros k'. rewrite memory_rows_lookup. simpl.
    destruct (decide (k = k')) as [<-|Hne].
    + rewrite lookup_alter_eq, memory_rows_lookup, Hp, lookup_delete_eq, lookup_insert_eq.
      by rewrite (disjoint_lookup _ _ _ _ (mw_pending_quarantined _ Hwf) Hp).
    + by rewrite lookup_alter_ne, memory_rows_lookup, lookup_delete_ne, lookup_insert_ne.
  - case_bool_decide as Hc; [simpl|done]. intros _. apply map_eq. intros k'.
    destruct (decide (k = k')) as [<-|Hne]; [|by rewrite lookup_alter_ne].
    rewrite lookup_alter_eq, !memory_rows_lookup, Hp.
    rewrite (mw_fingerprints _ Hwf), lookup_fmap in Hc.
    destruct (m_complete_events o !! k) as [c|] eqn:Hce; [|by destruct Hc].
    by destruct (m_quarantined o !! k).
Qed.

Lemma memory_mark_err now k o e :
  (memory_mark_complete now k o).1 = Err e → (memory_mark_complete now k o).2 = o.
Proof.
  unfold memory_mark_complete. destruct (m_pending o !! k); [done|]. by case_bool_decide.
Qed.

Lemma settle_row_idemp r : settle_row (settle_row r) = settle_row r.
Proof. by destruct r. Qed.

Lemma memory_mark_many_wf now ks o : memory_wf o → memory_wf (memory_mark_complete_many now ks o).2.
Proof.
  revert o. induction ks as [|k ks IH]; intros o Hwf; [done|].
  cbn [memory_mark_complete_many]. unfold mbind, st_bind.
  pose proof (memory_mark_wf now k o Hwf) as Hwf'.
  destruct (memory_mark_complete now k o) as [[[]|e] o']; [by apply IH|done].
Qed.

Lemma memory_mark_many_ok now ks o : memory_wf o → (memory_mark_complete_many now ks o).1 = Ok tt →
  ∀ k, memory_rows (memory_mark_complete_many now ks o).2 !! k
       = if bool_decide (k ∈ ks) then settle_row <$> memory_rows o !! k else memory_rows o !! k.
Proof.
  revert o. induction ks as [|k0 ks IH]; intros o Hwf Hok k.
  { by rewrite bool_decide_eq_false_2 by apply not_elem_of_nil. }
  cbn [memory_mark_complete_many] in *. unfold mbind, st_bind in *.
  pose proof (memory_mark_wf now k0 o Hwf) as Hwf'. pose proof (memory_mark_rows now k0 o Hwf) as Hr.
  destruct (memory_mark_complete now k0 o) as [[[]|e] o']; [|done]. simpl in Hwf', Hr.
  rewrite (IH o' Hwf' Hok k), (Hr eq_refl).
  destruct (decide (k = k0)) as [->|Hne].
  - rewrite lookup_alter_eq, (bool_decide_eq_true_2 (k0 ∈ k0 :: ks)) by (by left).
    destruct (bool_decide (k0 ∈ ks)); [|done].
    destruct (memory_rows o !! k0); simpl; [by rewrite settle_row_idemp|done].
  - rewrite lookup_alter_ne by done. erewrite bool_decide_ext; [done|].
    rewrite elem_of_cons. tauto.
Qed.

Lemma memory_mark_many_some now ks o : memory_wf o →
  ∀ k, memory_rows (memory_mark_complete_many now ks o).2 !! k = memory_rows o !! k
       ∨ k ∈ ks ∧ memory_rows (memory_mark_complete_many now ks o).2 !! k
                  = settle_row <$> memory_rows o !! k.
Proof.
  revert o. induction ks as [|k0 ks IH]; intros o Hwf k; [by left|].
  cbn [memory_mark_complete_many]. unfold mbind, st_bind.
  pose proof (memory_mark_wf now k0 o Hwf) as Hwf'. pose proof (memory_mark_rows now k0 o Hwf) as Hr.
  pose proof (memory_mark_err now k0 o) as He.
  destruct (memory_mark_complete now k0 o) as [[[]|e] o']; simpl in *;
    [|left; by rewrite (He e eq_refl)].
  specialize (IH o' Hwf' k). rewrite (Hr eq_refl) in IH.
  destruct (decide (k = k0)) as [->|Hne].
  - rewrite lookup_alter_eq in IH. right. split; [by left|].
    destruct IH as [->|[_ ->]]; [done|].
    destruct (memory_rows o !! k0); simpl; [by rewrite settle_row_idemp|done].
  - rewrite lookup_alter_ne in IH by done. destruct IH as [?|[? ?]]; [by left|].
    right. split; [by right|done].
Qed.

(** ** Withdrawing *)

Lemma memory_quarantine_one_wf k o : memory_wf o → memory_wf (memory_quarantine_one k o).
Proof.
  intros Hwf. unfold memory_quarantine_one. destruct (m_pending o !! k) as [e|] eqn:Hp.
  - pose proof (mw_pending _ Hwf _ _ Hp) as Hk.
    pose proof (disjoint_lookup _ _ _ _ (mw_pending_complete _ Hwf) Hp) as Hc.
    destruct Hwf. split; simpl; try done.
    + intros k' e' [_ ?]%lookup_delete_Some. eauto.
    + intros k' e'. rewrite lookup_insert_Some. intros [[<- <-]|[_ ?]]; [done|eauto].
    + by apply dom_delete_disjoint.
    + rewrite dom_delete_L. intros x [Hx _]%elem_of_difference. by apply mw_pending_complete0.
    + rewrite dom_insert_L. apply disjoint_union_l. split; [|done].
      apply disjoint_singleton_l. by apply not_elem_of_dom.
    + by rewrite !dom_delete_L, mw_pending_since0.
  - destruct Hwf. split; simpl; try done.
    rewrite dom_delete_L, mw_pending_since0. apply difference_disjoint_L, disjoint_singleton_r.
    by apply not_elem_of_dom.
Qed.

Lemma memory_quarantine_one_rows k o : memory_wf o →
  memory_rows (memory_quarantine_one k o) = alter withdraw_row k (memory_rows o).
Proof.
  intros Hwf. apply map_eq. intros k'. unfold memory_quarantine_one.
  destruct (m_pending o !! k) as [e|] eqn:Hp; rewrite memory_rows_lookup; simpl.
  - destruct (decide (k = k')) as [<-|Hne].
    + by rewrite lookup_alter_eq, memory_rows_lookup, Hp, lookup_delete_eq, lookup_insert_eq.
    + by rewrite lookup_alter_ne, memory_rows_lookup, lookup_delete_ne, lookup_insert_ne.
  - rewrite <-memory_rows_lookup. destruct (decide (k = k')) as [<-|Hne];
      [|by rewrite lookup_alter_ne].
    rewrite lookup_alter_eq, memory_rows_lookup, Hp.
    by destruct (m_quarantined o !! k), (m_complete_events o !! k).
Qed.

Lemma withdraw_row_idemp r : withdraw_row (withdraw_row r) = withdraw_row r.
Proof. by destruct r. Qed.

Lemma memory_quarantine_wf ks o : memory_wf o → memory_wf (memory_quarantine ks o).2.
Proof.
  simpl. revert o. induction ks as [|k ks IH]; intros o Hwf; [done|].
  simpl. by apply IH, memory_quarantine_one_wf.
Qed.

(** Exactly the named rows are withdrawn. *)
Lemma memory_quarantine_rows ks o : memory_wf o →
  ∀ k, memory_rows (memory_quarantine ks o).2 !! k
       = if bool_decide (k ∈ ks) then withdraw_row <$> memory_rows o !! k else memory_rows o !! k.
Proof.
  simpl. revert o. induction ks as [|k0 ks IH]; intros o Hwf k.
  { by rewrite bool_decide_eq_false_2 by apply not_elem_of_nil. }
  simpl. rewrite (IH _ (memory_quarantine_one_wf k0 o Hwf)), (memory_quarantine_one_rows k0 o Hwf).
  destruct (decide (k = k0)) as [->|Hne].
  - rewrite lookup_alter_eq, (bool_decide_eq_true_2 (k0 ∈ k0 :: ks)) by (by left).
    destruct (bool_decide (k0 ∈ ks)); [|done].
    destruct (memory_rows o !! k0); simpl; [by rewrite withdraw_row_idemp|done].
  - rewrite lookup_alter_ne by done. erewrite bool_decide_ext; [done|].
    rewrite elem_of_cons. tauto.
Qed.

(** ** Batches *)

Lemma len_take {A} (limit : N) (l : list A) : len (take (N.to_nat limit) l) ≤ limit.
Proof. unfold len. rewrite length_take. lia. Qed.

Lemma pending_list_row o k e : memory_wf o → (k, e) ∈ map_to_list (m_pending o) →
  k = key_of e ∧ memory_rows o !! key_of e = Some (Pending e).
Proof.
  intros Hwf Hin%elem_of_map_to_list. pose proof (mw_pending _ Hwf _ _ Hin) as <-.
  split; [done|]. by rewrite memory_rows_lookup, Hin.
Qed.

Lemma pending_keys_nodup (P : OutboxKey * IngestRequest → Prop) `{!∀ x, Decision (P x)} o n :
  memory_wf o → NoDup (key_of <$> take n (filter P (map_to_list (m_pending o))).*2).
Proof.
  intros Hwf. rewrite fmap_take. eapply sublist_NoDup; [|apply sublist_take].
  assert (∀ l, l `sublist_of` map_to_list (m_pending o) → key_of <$> l.*2 = l.*1) as Hkeys.
  { intros l Hl. rewrite <-list_fmap_compose. apply list_fmap_ext. intros i [k e] Hi.
    simpl. apply list_elem_of_lookup_2 in Hi. eapply elem_of_sublist in Hi; [|done].
    by apply pending_list_row in Hi as [? _]. }
  rewrite Hkeys by apply sublist_filter.
  eapply sublist_NoDup; [|apply fmap_sublist, sublist_filter]. apply NoDup_fst_map_to_list.
Qed.

Lemma batch_elem {A B} (P : A * B → Prop) `{!∀ x, Decision (P x)} (l : list (A * B)) n b :
  b ∈ take n (filter P l).*2 → ∃ a, (a, b) ∈ l ∧ P (a, b).
Proof.
  intros Hb. eapply elem_of_sublist in Hb; [|apply sublist_take].
  apply list_elem_of_fmap in Hb as ([a b'] & -> & Hf). apply list_elem_of_filter in Hf as [? ?].
  by exists a.
Qed.

#[global] Instance memory_laws : OutboxLaws InMemoryOutbox.
Proof.
  refine {| rows := memory_rows; outbox_wf := memory_wf |}.
  - intros o k r Hwf. rewrite memory_rows_lookup.
    destruct (m_pending o !! k) eqn:Hp; [intros [= <-]; by eapply mw_pending|].
    destruct (m_quarantined o !! k) eqn:Hq; [intros [= <-]; by eapply mw_quarantined|].
    destruct (m_complete_events o !! k) eqn:Hc; [intros [= <-]; by eapply mw_complete|done].
  - intros. by apply memory_enqueue_wf.
  - intros. by apply memory_enqueue_law.
  - intros. by apply memory_mark_many_wf.
  - intros. by apply memory_mark_many_ok.
  - intros. by apply memory_mark_many_some.
  - done.
  - done.
  - intros now limit o es Hwf [= <-]. split; [apply len_take|]. split.
    + by apply pending_keys_nodup.
    + intros e (k & Hin & _)%batch_elem. by eapply pending_list_row.
  - done.
  - intros. by left.
  - intros. by apply memory_quarantine_wf.
  - intros now why ks o Hwf k. cbn [quarantine memory_outbox]. rewrite memory_quarantine_rows by done.
    case_bool_decide; [by right|by left].
  - intros limit o es Hwf [= <-]. split; [done|]. split; [apply len_take|].
    intros e He. eapply elem_of_sublist in He; [|apply sublist_take].
    apply list_elem_of_fmap in He as ([k e'] & -> & Hin). by eapply pending_list_row.
  - intros since limit o es Hwf [= <-]. split; [done|]. split; [apply len_take|].
    intros e He. eapply elem_of_sublist in He; [|apply sublist_take].
    apply list_elem_of_omap in He as ([k t] & _ & Hc). simpl in Hc.
    pose proof (mw_complete _ Hwf _ _ Hc) as <-. rewrite memory_rows_lookup, Hc.
    destruct (m_pending o !! key_of e) as [p|] eqn:Hp.
    { by rewrite (disjoint_lookup _ _ _ _ (mw_pending_complete _ Hwf) Hp) in Hc. }
    destruct (m_quarantined o !! key_of e) as [q|] eqn:Hq; [|done].
    by rewrite (disjoint_lookup _ _ _ _ (mw_quarantined_complete _ Hwf) Hq) in Hc.
Defined.

Lemma memory_new_wf (capacity : N) (o : InMemoryOutbox) :
  memory_new capacity = Ok o → memory_wf o ∧ rows o = ∅.
Proof.
  unfold memory_new. destruct (_ || _); [done|]. intros [= <-]. split; [|done].
  split; simpl; try done; try apply disjoint_empty_l.
Qed.
End memory_laws.
