(* ===== verification/OutboxFile.v ===== *)
(** * The file outbox

    [crates/apex-durability/src/outbox/file.rs] and [file_ops.rs]: the outbox of
    the runnable gateway, three tables and an append-only journal of them.  The
    journal file is its bytes.  The outcomes of the I/O calls to come are part of
    the device, as a script that each call reads the head of, so a theorem about
    every device covers every pattern of failures; an empty script means that
    nothing fails any more.  Paths, symlinks and the writer lock are one verdict of
    [open_outbox].  The record codec is the [LineCodec] interface of Journal.
    An operation is given one reading of the clock; [mark_complete_many] takes
    one per key. *)
From S2P Require Import Prelude RustStr Digits Journal Errors Convert Domain Envelope Outbox.

Open Scope N_scope.

Definition MAX_OUTBOX_RECORD_BYTES : N := MAX_ENVELOPE_BYTES * 4.
Definition MAX_OUTBOX_FILE_BYTES : N := 256 * 1024 * 1024.
Definition MAX_PERSISTED_ATTEMPTS : N := 8.

(** ** Records *)

(** [FileOutboxRecord]; the three identity fields of a record are an
    [OutboxKey]. *)
Inductive FileOutboxRecord :=
  | FPending (key : OutboxKey) (envelope : string)
      (next_attempt_at_millis attempts created_at_millis : option N)
  | FComplete (key : OutboxKey) (envelope_sha256 : option string)
      (completed_at_millis : option N) (envelope : option string)
  | FQuarantined (key : OutboxKey) (envelope reason : string) (quarantined_at_millis : N).

(** ** State *)

(** The maps of [FileOutbox]. *)
Record Tables := mkTables {
  ft_pending : gmap OutboxKey IngestRequest;
  ft_complete : gmap OutboxKey (option string);
  ft_complete_events : gmap OutboxKey IngestRequest;
  ft_completed_at : gmap OutboxKey N;
  ft_next_attempt : gmap OutboxKey N;
  ft_attempts : gmap OutboxKey N;
  ft_quarantined : gmap OutboxKey IngestRequest;
  ft_pending_since : gmap OutboxKey N;
}.

Definition no_rows : Tables := mkTables ∅ ∅ ∅ ∅ ∅ ∅ ∅ ∅.

(** The journal: whether it is open, its bytes, and the outcomes of the appends
    and compactions to come. *)
Record Device := mkDevice {
  dv_open : bool;
  dv_bytes : string;
  dv_appends : list AppendIo;
  dv_compactions : list CompactIo;
}.

(** [FileOutbox]. *)
Record FileOutbox := mkFileOutbox {
  fo_device : Device;
  fo_capacity : N;
  fo_tables : Tables;
}.

Definition set_tables (t : Tables) (o : FileOutbox) : FileOutbox :=
  mkFileOutbox (fo_device o) (fo_capacity o) t.
Definition set_retries (next_attempt attempts : gmap OutboxKey N) (t : Tables) : Tables :=
  mkTables (ft_pending t) (ft_complete t) (ft_complete_events t) (ft_completed_at t) next_attempt
    attempts (ft_quarantined t) (ft_pending_since t).

(** The rows that count against the capacity. *)
Definition total_rows (t : Tables) : N :=
  map_len (ft_pending t) + map_len (ft_complete t) + map_len (ft_quarantined t).

(** An optional field of a record, as it is filed. *)
Definition file_option {A} (key : OutboxKey) (o : option A) (m : gmap OutboxKey A) : gmap OutboxKey A :=
  match o with Some a => <[key := a]> m | None => delete key m end.

Section file.
Context `{DomainDeps, EnvelopeDeps, PayloadDigest}.

(** ** Replaying the journal *)

(** An envelope on disk is decoded and admitted again. *)
Definition reload (bytes : string) : result GatewayErrorCode IngestRequest :=
  decoded ← ok_or (envelope_decode bytes) GInvalidOutboxConfiguration;
  map_err (λ _, GInvalidOutboxConfiguration) (from_validated_transport decoded).

(** The [match record] of [load]; [now] is the clock, for records that carry
    no creation time. *)
Definition load_record (now : N) (r : FileOutboxRecord) (t : Tables)
    : result GatewayErrorCode Tables :=
  match r with
  | FPending key envelope next_attempt_at attempts created_at =>
      if str_is_empty envelope || (MAX_ENVELOPE_BYTES <? str_len envelope)
      then Err GInvalidOutboxConfiguration
      else
        event ← reload envelope;
        if negb (bool_decide (key_of event = key)) || negb (String.eqb (ir_envelope event) envelope)
        then Err GInvalidOutboxConfiguration
        else
          '(pending, quarantined) ←
            match ft_pending t !! key with
            | Some existing =>
                if negb (String.eqb (ir_envelope existing) (ir_envelope event))
                then Err GIdempotencyConflict else Ok (ft_pending t, ft_quarantined t)
            | None => Ok (<[key := event]> (ft_pending t), delete key (ft_quarantined t))
            end;
          Ok (mkTables pending (ft_complete t) (ft_complete_events t) (ft_completed_at t)
                (file_option key next_attempt_at (ft_next_attempt t))
                (file_option key attempts (ft_attempts t)) quarantined
                (<[key := default (default now (ft_pending_since t !! key)) created_at]>
                   (ft_pending_since t)))
  | FComplete key envelope_sha256 completed_at envelope =>
      reconstructed ←
        match envelope with
        | Some bytes =>
            event ← reload bytes;
            if negb (bool_decide (key_of event = key)) || negb (String.eqb (ir_envelope event) bytes)
            then Err GInvalidOutboxConfiguration else Ok (Some event)
        | None => Ok None
        end;
      fingerprint ←
        match envelope_sha256 with
        | Some hex => Some <$> ok_or (parse_digest hex) GInvalidOutboxConfiguration
        | None => Ok ((λ e, payload_fingerprint (ir_envelope e)) <$> ft_pending t !! key)
        end;
      Ok (mkTables (delete key (ft_pending t)) (<[key := fingerprint]> (ft_complete t))
            (match union reconstructed (ft_pending t !! key) with
             | Some event => <[key := event]> (ft_complete_events t)
             | None => ft_complete_events t
             end)
            (match completed_at with
             | Some at_millis => <[key := at_millis]> (ft_completed_at t)
             | None => ft_completed_at t
             end)
            (ft_next_attempt t) (ft_attempts t) (ft_quarantined t) (delete key (ft_pending_since t)))
  | FQuarantined key envelope _ _ =>
      event ← reload envelope;
      if negb (bool_decide (key_of event = key)) then Err GInvalidOutboxConfiguration
      else Ok (mkTables (delete key (ft_pending t)) (ft_complete t) (ft_complete_events t)
                 (ft_completed_at t) (ft_next_attempt t) (ft_attempts t)
                 (<[key := event]> (ft_quarantined t)) (delete key (ft_pending_since t)))
  end.

(** One record, and the capacity check after it. *)
Definition load_step (cap now : N) (r : FileOutboxRecord) (t : Tables)
    : result GatewayErrorCode Tables :=
  t' ← load_record now r t;
  if cap <? total_rows t' then Err GIdempotencyCapacity else Ok t'.

Context `{LineCodec FileOutboxRecord}.

(** The loop of [load]: the tables, and the length to cut the file to when its
    last line is torn. *)
Fixpoint load_loop (cap now : N) (lines : list string) (good_bytes : N) (parsed_any : bool)
    (t : Tables) : result GatewayErrorCode (Tables * option N) :=
  match lines with
  | [] => Ok (t, None)
  | line :: rest =>
      let is_last_line := bool_decide (rest = []) in
      if negb (is_utf8 line) then Err GInvalidOutboxConfiguration
      else if str_is_empty line then
        if is_last_line then Ok (t, None) else Err GInvalidOutboxConfiguration
      else if MAX_OUTBOX_RECORD_BYTES <? str_len line then Err GInvalidOutboxConfiguration
      else match decode_line line with
           | None => if is_last_line && parsed_any then Ok (t, Some good_bytes)
                     else Err GInvalidOutboxConfiguration
           | Some r =>
               t' ← load_step cap now r t;
               load_loop cap now rest (sat_add64 (sat_add64 good_bytes (str_len line)) 1) true t'
           end
  end.

(** [FileOutbox::open]; [path_ok] is the verdict of the path, symlink, file
    type and lock checks, and [truncates] the outcome of [truncate_to]. *)
Definition open_outbox (path_ok truncates : bool) (now cap : N) (disk : string)
    (appends : list AppendIo) (compactions : list CompactIo) : result GatewayErrorCode FileOutbox :=
  if (cap =? 0) || (1000000 <? cap) then Err GIdempotencyCapacity
  else if negb path_ok then Err GInvalidOutboxConfiguration
  else if MAX_OUTBOX_FILE_BYTES <? str_len disk then Err GInvalidOutboxConfiguration
  else
    '(t, cut) ← load_loop cap now (read_lines disk) 0 false no_rows;
    match cut with
    | None => Ok (mkFileOutbox (mkDevice true disk appends compactions) cap t)
    | Some good_bytes =>
        if truncates
        then Ok (mkFileOutbox (mkDevice true (str_take (N.to_nat good_bytes) disk) appends compactions)
                   cap t)
        else Err GInvalidOutboxConfiguration
    end.

(** ** Appending *)

Fixpoint encode_batch (rs : list FileOutboxRecord) (encoded : string) : result GatewayErrorCode string :=
  match rs with
  | [] => Ok encoded
  | r :: rs =>
      if MAX_OUTBOX_RECORD_BYTES <? str_len (record_bytes r) then Err GPayloadTooLarge
      else encode_batch rs (encoded +:+ record_bytes r)
  end.

(** [append_batch]; [append] is its one-record case. *)
Definition append_records (rs : list FileOutboxRecord) : ST Device GatewayErrorCode unit := λ d,
  match rs with
  | [] => (Ok tt, d)
  | _ =>
      match encode_batch rs EmptyString with
      | Err e => (Err e, d)
      | Ok encoded =>
          if negb (dv_open d) then (Err GInvalidOutboxConfiguration, d)
          else
            let '(io, appends) :=
              match dv_appends d with [] => (AppendOk, []) | io :: appends => (io, appends) end in
            let left bytes := mkDevice true bytes appends (dv_compactions d) in
            let full := MAX_OUTBOX_FILE_BYTES <? sat_add64 (str_len (dv_bytes d)) (str_len encoded) in
            match io with
            | AppendMetadataFails => (Err GInvalidOutboxConfiguration, left (dv_bytes d))
            | AppendWriteFails n =>
                if full then (Err GIdempotencyCapacity, left (dv_bytes d))
                else (Err GInternal, left (dv_bytes d +:+ str_take n encoded))
            | AppendOk =>
                if full then (Err GIdempotencyCapacity, left (dv_bytes d))
                else (Ok tt, left (dv_bytes d +:+ encoded))
            end
      end
  end.

(** The shape of every operation that writes: the records are appended first,
    and the tables follow when that succeeded. *)
Definition journalled {A} (rs : list FileOutboxRecord) (a : A) (f : Tables → Tables)
    : ST FileOutbox GatewayErrorCode A := λ o,
  match append_records rs (fo_device o) with
  | (Err e, d) => (Err e, mkFileOutbox d (fo_capacity o) (fo_tables o))
  | (Ok _, d) => (Ok a, mkFileOutbox d (fo_capacity o) (f (fo_tables o)))
  end.

(** ** Compacting *)

(** The records of [compact_journal]; a [HashMap] is iterated in an order that
    is not specified, and the model takes the order of [map_to_list]. *)
Definition compaction_records (now : N) (t : Tables) : list FileOutboxRecord :=
  ((λ p, FPending p.1 (ir_envelope p.2) (ft_next_attempt t !! p.1) (ft_attempts t !! p.1)
           (ft_pending_since t !! p.1)) <$> map_to_list (ft_pending t))
  ++ ((λ p, FComplete p.1 (hex_string <$> p.2) (ft_completed_at t !! p.1)
              (ir_envelope <$> ft_complete_events t !! p.1)) <$> map_to_list (ft_complete t))
  ++ ((λ p, FQuarantined p.1 (ir_envelope p.2) "replay_attempts_exhausted" now)
        <$> map_to_list (ft_quarantined t)).

(** [compact_journal]: the file is replaced by the records of the tables. *)
Definition compact_journal (now : N) : ST FileOutbox GatewayErrorCode unit := λ o,
  let encoded := journal_bytes (compaction_records now (fo_tables o)) in
  if MAX_OUTBOX_FILE_BYTES <? str_len encoded then (Err GIdempotencyCapacity, o)
  else
    let d := fo_device o in
    let '(io, compactions) :=
      match dv_compactions d with [] => (CompactRenamed true, []) | io :: ios => (io, ios) end in
    let left opened bytes :=
      mkFileOutbox (mkDevice opened bytes (dv_appends d) compactions) (fo_capacity o) (fo_tables o) in
    match io with
    | CompactTempFails => (Err GInternal, left (dv_open d) (dv_bytes d))
    | CompactRenameFails reopens =>
        if negb (dv_open d) then (Err GInvalidOutboxConfiguration, left false (dv_bytes d))
        else (Err (if reopens then GInternal else GInvalidOutboxConfiguration),
              left reopens (dv_bytes d))
    | CompactRenamed reopens =>
        if negb (dv_open d) then (Err GInvalidOutboxConfiguration, left false (dv_bytes d))
        else (if reopens then Ok tt else Err GInvalidOutboxConfiguration, left reopens encoded)
    end.

(** ** The trait implementation *)

(** [check_admission_readiness]; the last three arguments are the outcome of
    [metadata()], whether it shows a writable file, and that of [sync_data()]. *)
Definition file_check_admission_readiness (workspace_id namespace_id : string)
    (metadata_ok writable syncs : bool) (o : FileOutbox) : result GatewayErrorCode unit :=
  if negb (is_identifier workspace_id) || negb (is_identifier namespace_id) then Err GScopeDenied
  else if fo_capacity o <=? total_rows (fo_tables o) then Err GIdempotencyCapacity
  else if negb (dv_open (fo_device o)) || negb metadata_ok then Err GInternal
  else if negb writable || (MAX_OUTBOX_FILE_BYTES <=? str_len (dv_bytes (fo_device o)))
  then Err GInternal
  else if syncs then Ok tt else Err GInternal.

(** [enqueue]. *)
Definition enqueue_row (now : N) (event : IngestRequest) (t : Tables) : Tables :=
  mkTables (<[key_of event := event]> (ft_pending t)) (ft_complete t) (ft_complete_events t)
    (ft_completed_at t) (ft_next_attempt t) (ft_attempts t) (ft_quarantined t)
    (<[key_of event := now]> (ft_pending_since t)).
Definition file_enqueue (now : N) (event : IngestRequest)
    : ST FileOutbox GatewayErrorCode EnqueueResult := λ o,
  let key := key_of event in
  let t := fo_tables o in
  match ft_complete t !! key with
  | Some (Some stored) =>
      (if String.eqb stored (payload_fingerprint (ir_envelope event))
       then Ok AlreadyComplete else Err GIdempotencyConflict, o)
  | Some None => (Ok AlreadyComplete, o)
  | None =>
      match union (ft_quarantined t !! key) (ft_pending t !! key) with
      | Some existing =>
          (if String.eqb (ir_envelope existing) (ir_envelope event)
           then Ok AlreadyPending else Err GIdempotencyConflict, o)
      | None =>
          if fo_capacity o <=? total_rows t then (Err GIdempotencyCapacity, o)
          else
            journalled [FPending key (ir_envelope event) None None (Some now)] Enqueued
              (enqueue_row now event) o
      end
  end.

(** A pending row that is settled, in the journal and in the tables. *)
Definition complete_record (now : N) (p : OutboxKey * IngestRequest) : FileOutboxRecord :=
  FComplete p.1 (Some (hex_string (payload_fingerprint (ir_envelope p.2)))) (Some now)
    (Some (ir_envelope p.2)).
Definition complete_row (now : N) (t : Tables) (p : OutboxKey * IngestRequest) : Tables :=
  mkTables (delete p.1 (ft_pending t))
    (<[p.1 := Some (payload_fingerprint (ir_envelope p.2))]> (ft_complete t))
    (<[p.1 := p.2]> (ft_complete_events t)) (<[p.1 := now]> (ft_completed_at t))
    (delete p.1 (ft_next_attempt t)) (delete p.1 (ft_attempts t)) (ft_quarantined t)
    (delete p.1 (ft_pending_since t)).

(** [mark_complete]. *)
Definition file_mark_complete (now : N) (key : OutboxKey) : ST FileOutbox GatewayErrorCode unit := λ o,
  match ft_complete (fo_tables o) !! key, ft_pending (fo_tables o) !! key with
  | Some _, _ => (Ok tt, o)
  | None, Some event =>
      journalled [complete_record now (key, event)] tt (λ t, complete_row now t (key, event)) o
  | None, None => (Err GInternal, o)
  end.

(** The rows [mark_complete_many] settles: a key that is neither pending nor
    complete refuses the whole group. *)
Fixpoint to_complete (t : Tables) (keys : list OutboxKey)
    : result GatewayErrorCode (list (OutboxKey * IngestRequest)) :=
  match keys with
  | [] => Ok []
  | key :: keys =>
      match ft_complete t !! key, ft_pending t !! key with
      | Some _, _ => to_complete t keys
      | None, None => Err GInternal
      | None, Some event => cons (key, event) <$> to_complete t keys
      end
  end.

(** [mark_complete_many].  The code reads the clock once per key; [now] stands
    for these readings, taken to agree within one call. *)
Definition file_mark_complete_many (now : N) (keys : list OutboxKey)
    : ST FileOutbox GatewayErrorCode unit := λ o,
  match to_complete (fo_tables o) keys with
  | Err e => (Err e, o)
  | Ok completed =>
      journalled (complete_record now <$> completed) tt (λ t, foldl (complete_row now) t completed) o
  end.

(** [pending_batch], [pending_reconciliation_batch], [recent_completed_batch]
    and the other reads. *)
Definition file_pending_batch (now limit : N)
    : ST FileOutbox GatewayErrorCode (list IngestRequest) := λ o,
  let t := fo_tables o in
  (Ok (take (N.to_nat limit)
         (filter (λ kv, default 0 (ft_next_attempt t !! kv.1) ≤ now) (map_to_list (ft_pending t))).*2),
   o).
Definition file_pending_reconciliation_batch (limit : N)
    : ST FileOutbox GatewayErrorCode (list IngestRequest) := λ o,
  (Ok (take (N.to_nat limit) (map_to_list (ft_pending (fo_tables o))).*2), o).
Definition file_recent_completed_batch (since_millis limit : N)
    : ST FileOutbox GatewayErrorCode (list IngestRequest) := λ o,
  let t := fo_tables o in
  (Ok (take (N.to_nat limit)
         (omap (λ kv, ft_complete_events t !! kv.1)
            (filter (λ kv, since_millis ≤ kv.2) (map_to_list (ft_completed_at t))))), o).
Definition file_quarantined_batch (limit : N) (o : FileOutbox) : list OutboxKey :=
  take (N.to_nat limit) (map_to_list (ft_quarantined (fo_tables o))).*1.
Definition file_pending_count (o : FileOutbox) : N := map_len (ft_pending (fo_tables o)).
Definition file_quarantined_count (o : FileOutbox) : N := map_len (ft_quarantined (fo_tables o)).
Definition file_oldest_pending_millis (now : N) (o : FileOutbox) : option N :=
  match (map_to_list (ft_pending_since (fo_tables o))).*2 with
  | [] => None
  | t :: ts => Some (now - foldr N.min t ts)
  end.

(** A pending row that is withdrawn, in the journal and in the tables. *)
Definition quarantine_record (now : N) (reason : string) (t : Tables) (key : OutboxKey)
    : option FileOutboxRecord :=
  (λ event, FQuarantined key (ir_envelope event) reason now) <$> ft_pending t !! key.
Definition quarantine_row (t : Tables) (key : OutboxKey) : Tables :=
  match ft_pending t !! key with
  | None => t
  | Some event =>
      mkTables (delete key (ft_pending t)) (ft_complete t) (ft_complete_events t) (ft_completed_at t)
        (delete key (ft_next_attempt t)) (delete key (ft_attempts t))
        (<[key := event]> (ft_quarantined t)) (delete key (ft_pending_since t))
  end.

(** The first loop of [reschedule]: the retries it files, the records it will
    append, and the rows that have used up their attempts. *)
Record Resched := mkResched {
  rs_tables : Tables;
  rs_records : list FileOutboxRecord;
  rs_quarantine : list OutboxKey;
}.
Definition reschedule_one (next : N) (s : Resched) (key : OutboxKey) : Resched :=
  let t := rs_tables s in
  match ft_pending t !! key with
  | None => s
  | Some event =>
      let attempts := sat_add32 (default 0 (ft_attempts t !! key)) 1 in
      if MAX_PERSISTED_ATTEMPTS <=? attempts
      then mkResched t (rs_records s) (rs_quarantine s ++ [key])
      else
        mkResched (set_retries (<[key := next]> (ft_next_attempt t)) (<[key := attempts]> (ft_attempts t)) t)
          (rs_records s
           ++ [FPending key (ir_envelope event) (Some next) (Some attempts) (ft_pending_since t !! key)])
          (rs_quarantine s)
  end.

(** [reschedule]: the retries stay filed when the append fails. *)
Definition file_reschedule (now : N) (keys : list OutboxKey) (after : N)
    : ST FileOutbox GatewayErrorCode unit := λ o,
  let next := sat_add64 now (N.min (after / 1000000) u64_max) in
  let s := foldl (reschedule_one next) (mkResched (fo_tables o) [] []) keys in
  let records := rs_records s
    ++ omap (quarantine_record now "replay_attempts_exhausted" (rs_tables s)) (rs_quarantine s) in
  journalled records tt (λ t, foldl quarantine_row t (rs_quarantine s)) (set_tables (rs_tables s) o).

(** [quarantine]. *)
Definition file_quarantine (now : N) (reason : string) (keys : list OutboxKey)
    : ST FileOutbox GatewayErrorCode unit := λ o,
  journalled (omap (quarantine_record now reason (fo_tables o)) keys) tt
    (λ t, foldl quarantine_row t keys) o.

(** [requeue_quarantined]. *)
Definition requeue_record (now : N) (t : Tables) (key : OutboxKey) : option FileOutboxRecord :=
  (λ event, FPending key (ir_envelope event) None None (Some now)) <$> ft_quarantined t !! key.
Definition requeue_row (now : N) (t : Tables) (key : OutboxKey) : Tables :=
  match ft_quarantined t !! key with
  | None => t
  | Some event =>
      mkTables (<[key := event]> (ft_pending t)) (ft_complete t) (ft_complete_events t)
        (ft_completed_at t) (ft_next_attempt t) (ft_attempts t) (delete key (ft_quarantined t))
        (<[key := now]> (ft_pending_since t))
  end.
Definition file_requeue_quarantined (now : N) (keys : list OutboxKey)
    : ST FileOutbox GatewayErrorCode unit := λ o,
  journalled (omap (requeue_record now (fo_tables o)) keys) tt (λ t, foldl (requeue_row now) t keys) o.

(** [maintain]: completed rows expire; a failed compaction puts them back. *)
Definition expired_rows (cutoff : N) (t : Tables) : list OutboxKey :=
  (filter (λ p, p.2 ≤ cutoff) (map_to_list (ft_completed_at t))).*1.
Definition forget_row (t : Tables) (key : OutboxKey) : Tables :=
  mkTables (ft_pending t) (delete key (ft_complete t)) (delete key (ft_complete_events t))
    (delete key (ft_completed_at t)) (ft_next_attempt t) (ft_attempts t) (ft_quarantined t)
    (ft_pending_since t).
Definition file_maintain_outbox (now retention_millis : N) : ST FileOutbox GatewayErrorCode unit := λ o,
  let cutoff := now - retention_millis in
  match expired_rows cutoff (fo_tables o) with
  | [] => (Ok tt, o)
  | expired =>
      match compact_journal now (set_tables (foldl forget_row (fo_tables o) expired) o) with
      | (Err e, o') => (Err e, set_tables (fo_tables o) o')
      | (Ok _, o') => (Ok tt, o')
      end
  end.

#[global] Instance file_outbox : EventOutbox FileOutbox := {
  enqueue := file_enqueue;
  mark_complete_many := file_mark_complete_many;
  pending_batch := file_pending_batch;
  pending_reconciliation_batch := file_pending_reconciliation_batch;
  recent_completed_batch := file_recent_completed_batch;
  reschedule := file_reschedule;
  quarantine := file_quarantine;
  requeue_quarantined := file_requeue_quarantined;
}.
End file.

Arguments append_records : simpl never.
Arguments load_record : simpl never.
