(* ===== verification/OutboxFileLaws.v ===== *)
(** * The file outbox meets the contract

    The tables of [FileOutbox] are those of the in-memory outbox, so the
    invariant and the table of rows are borrowed from it; the instance of
    [OutboxLaws] says that every theorem about the fanout worker, the gateway
    and reconciliation holds with the file outbox, whatever I/O fails. *)
From S2P Require Import Prelude RustStr Digits Journal Errors Convert Domain Envelope Outbox OutboxLaws OutboxFile.

Open Scope N_scope.

(** ** Folds over rows *)

(** Steps that each change the row of one key by an idempotent [f] change, all
    together, the rows of exactly the keys they were given. *)
Lemma foldl_rows {T X} (wf : T → Prop) (rows : T → gmap OutboxKey Row) (f : Row → Row)
    (step : T → X → T) (key : X → OutboxKey) (ok : T → X → Prop) (xs : list X) (t : T) :
  (∀ r, f (f r) = f r) →
  (∀ t x, wf t → ok t x → wf (step t x) ∧ rows (step t x) = alter f (key x) (rows t)
                          ∧ ∀ y, ok t y → ok (step t x) y) →
  wf t → Forall (ok t) xs →
  wf (foldl step t xs)
  ∧ ∀ k, rows (foldl step t xs) !! k
         = if bool_decide (k ∈ key <$> xs) then f <$> rows t !! k else rows t !! k.
Proof.
  intros Hf Hstep. revert t. induction xs as [|x xs IH]; intros t Hwf Hok.
  { split; [done|]. intros k. by rewrite bool_decide_eq_false_2 by apply not_elem_of_nil. }
  inversion_clear Hok as [|? ? Hx Hxs]. destruct (Hstep t x Hwf Hx) as (Hwf' & Hr & Hmono).
  destruct (IH (step t x)) as [Hwf2 Hr2]; [done|by eapply Forall_impl|].
  split; [done|]. intros k. cbn [foldl]. rewrite Hr2, Hr.
  destruct (decide (k = key x)) as [->|Hne].
  - rewrite lookup_alter_eq, (bool_decide_eq_true_2 (key x ∈ key <$> x :: xs)) by (by left).
    destruct (bool_decide (key x ∈ key <$> xs)); [|done].
    destruct (rows t !! key x); simpl; [by rewrite Hf|done].
  - rewrite lookup_alter_ne by done. erewrite bool_decide_ext; [done|].
    rewrite fmap_cons, elem_of_cons. tauto.
Qed.

Section laws.
Context `{DomainDeps, EnvelopeDeps, PayloadDigest, LineCodec FileOutboxRecord}.

(** ** The tables as an in-memory outbox *)

Definition view (t : Tables) : InMemoryOutbox :=
  mkMemory 0 (ft_pending t) ((λ e, payload_fingerprint (ir_envelope e)) <$> ft_complete_events t)
    (ft_complete_events t) (ft_completed_at t) ∅ (ft_quarantined t) (ft_pending_since t).

(** Every completed row has its fingerprint: only journals of older versions
    hold completions without content. *)
Record tables_wf (t : Tables) : Prop := {
  tw_memory : memory_wf (view t);
  tw_complete :
    ft_complete t = (λ e, Some (payload_fingerprint (ir_envelope e))) <$> ft_complete_events t;
}.

Definition table_rows (t : Tables) : gmap OutboxKey Row := memory_rows (view t).

Lemma table_rows_lookup (t : Tables) (k : OutboxKey) :
  table_rows t !! k =
    match ft_pending t !! k, ft_quarantined t !! k, ft_complete_events t !! k with
    | Some e, _, _ => Some (Pending e)
    | None, Some e, _ => Some (Quarantined e)
    | None, None, Some e => Some (Complete e)
    | None, None, None => None
    end.
Proof. apply memory_rows_lookup. Qed.

Lemma no_rows_wf : tables_wf no_rows.
Proof.
  split; [|done]. split; simpl; try done; try apply disjoint_empty_l.
Qed.

(** A key is in one of the tables only. *)
Lemma pending_only t k e :
  tables_wf t → ft_pending t !! k = Some e → ft_quarantined t !! k = None ∧ ft_complete_events t !! k = None.
Proof.
  intros [Hm _] Hk. split.
  - exact (disjoint_lookup _ _ _ _ (mw_pending_quarantined _ Hm) Hk).
  - exact (disjoint_lookup _ _ _ _ (mw_pending_complete _ Hm) Hk).
Qed.

Lemma quarantined_only t k e :
  tables_wf t → ft_quarantined t !! k = Some e → ft_pending t !! k = None ∧ ft_complete_events t !! k = None.
Proof.
  intros Hwf Hk. split.
  - destruct (ft_pending t !! k) as [p|] eqn:Hp; [|done].
    apply (pending_only _ _ _ Hwf) in Hp as [Hq _]. by rewrite Hk in Hq.
  - exact (disjoint_lookup _ _ _ _ (mw_quarantined_complete _ (tw_memory _ Hwf)) Hk).
Qed.

Lemma complete_only t k e :
  tables_wf t → ft_complete_events t !! k = Some e → ft_pending t !! k = None ∧ ft_quarantined t !! k = None.
Proof.
  intros Hwf Hk. split.
  - destruct (ft_pending t !! k) as [p|] eqn:Hp; [|done].
    apply (pending_only _ _ _ Hwf) in Hp as [_ Hc]. by rewrite Hk in Hc.
  - destruct (ft_quarantined t !! k) as [p|] eqn:Hp; [|done].
    apply (quarantined_only _ _ _ Hwf) in Hp as [_ Hc]. by rewrite Hk in Hc.
Qed.

Lemma since_pending t : tables_wf t → dom (ft_pending_since t) = dom (ft_pending t).
Proof. intros [Hm _]. exact (mw_pending_since _ Hm). Qed.

(** ** Journalled operations *)

Lemma journalled_tables {A} rs (a : A) f o :
  match (journalled rs a f o).1 with
  | Ok a' => a' = a ∧ fo_tables (journalled rs a f o).2 = f (fo_tables o)
  | Err _ => fo_tables (journalled rs a f o).2 = fo_tables o
  end.
Proof. unfold journalled. by destruct (append_records rs (fo_device o)) as [[[]|e] d]. Qed.

(** The rows after a journalled operation that changes some of them by [f]. *)
Lemma journalled_rows {A} rs (a : A) g o (f : Row → Row) (ks : list OutboxKey) :
  tables_wf (fo_tables o) → tables_wf (g (fo_tables o)) →
  (∀ k, table_rows (g (fo_tables o)) !! k
        = if bool_decide (k ∈ ks) then f <$> table_rows (fo_tables o) !! k
          else table_rows (fo_tables o) !! k) →
  tables_wf (fo_tables (journalled rs a g o).2)
  ∧ ∀ k, table_rows (fo_tables (journalled rs a g o).2) !! k = table_rows (fo_tables o) !! k
         ∨ k ∈ ks ∧ table_rows (fo_tables (journalled rs a g o).2) !! k
                    = f <$> table_rows (fo_tables o) !! k.
Proof.
  intros Hwf Hwf' Hr. pose proof (journalled_tables rs a g o) as Ht.
  destruct (journalled rs a g o).1; [destruct Ht as [_ Ht]|]; rewrite Ht; (split; [done|]); intros k;
    [rewrite Hr|by left].
  case_bool_decide; auto.
Qed.

(** ** Enqueueing *)

Lemma complete_lookup t k :
  tables_wf t → ft_complete t !! k = (λ e, Some (payload_fingerprint (ir_envelope e)))
                                       <$> ft_complete_events t !! k.
Proof. intros [_ ->]. apply lookup_fmap. Qed.

(** The key is in no table. *)
Definition unfiled (t : Tables) (k : OutboxKey) : Prop :=
  ft_complete t !! k = None ∧ ft_quarantined t !! k = None ∧ ft_pending t !! k = None.

Lemma file_enqueue_tables now e o :
  fo_tables (file_enqueue now e o).2 = fo_tables o
  ∨ fo_tables (file_enqueue now e o).2 = enqueue_row now e (fo_tables o)
    ∧ unfiled (fo_tables o) (key_of e) ∧ total_rows (fo_tables o) < fo_capacity o.
Proof.
  unfold file_enqueue.
  destruct (ft_complete _ !! _) as [[?|]|] eqn:Hc; [by left..|].
  destruct (union _ _) eqn:Hu; [by left|]. apply union_None in Hu as [Hq Hp].
  destruct (N.leb_spec (fo_capacity o) (total_rows (fo_tables o))); [by left|].
  match goal with |- context [journalled ?rs ?a ?f o] =>
    pose proof (journalled_tables rs a f o) as Ht; destruct (journalled rs a f o).1 end;
    [right; by destruct Ht|by left].
Qed.

Lemma enqueue_row_wf now e t : tables_wf t → unfiled t (key_of e) → tables_wf (enqueue_row now e t).
Proof.
  intros Hwf (Hc & Hq & Hp).
  rewrite (complete_lookup _ _ Hwf), fmap_None in Hc. destruct Hwf as [Hm Hcomp].
  split; [|done]. destruct Hm. split; simpl; try done.
  - intros k e'. rewrite lookup_insert_Some. intros [[<- <-]|[_ ?]]; [done|eauto].
  - rewrite dom_insert_L. apply disjoint_union_l. split; [|done].
    apply disjoint_singleton_l. by apply not_elem_of_dom.
  - rewrite dom_insert_L. apply disjoint_union_l. split; [|done].
    apply disjoint_singleton_l. by apply not_elem_of_dom.
  - simpl in *. by rewrite !dom_insert_L, mw_pending_since.
Qed.

Lemma file_enqueue_wf now e o : tables_wf (fo_tables o) → tables_wf (fo_tables (file_enqueue now e o).2).
Proof.
  intros Hwf. destruct (file_enqueue_tables now e o) as [->|(-> & Hu & _)]; [done|].
  by apply enqueue_row_wf.
Qed.

Lemma file_enqueue_law now e o : tables_wf (fo_tables o) →
  let rows o := table_rows (fo_tables o) in
  match rows o !! key_of e, file_enqueue now e o with
  | None, (Ok r, o') => r = Enqueued ∧ rows o' = <[key_of e := Pending e]> (rows o)
  | None, (Err _, o') => rows o' = rows o
  | Some (Pending e0), (r, o') =>
      rows o' = rows o ∧ r = if String.eqb (ir_envelope e0) (ir_envelope e)
                             then Ok AlreadyPending else Err GIdempotencyConflict
  | Some (Quarantined e0), (r, o') =>
      rows o' = rows o
      ∧ (r = Ok AlreadyPending ∨ r = Err GIdempotencyConflict ∧ ir_envelope e0 ≠ ir_envelope e)
  | Some (Complete e0), (r, o') =>
      rows o' = rows o
      ∧ r = if String.eqb (payload_fingerprint (ir_envelope e0))
                 (payload_fingerprint (ir_envelope e))
            then Ok AlreadyComplete else Err GIdempotencyConflict
  end.
Proof.
  intros Hwf. cbv zeta beta. rewrite table_rows_lookup. unfold file_enqueue.
  rewrite (complete_lookup _ _ Hwf). set (t := fo_tables o) in *.
  destruct (ft_pending t !! key_of e) as [p|] eqn:Hp.
  { by destruct (pending_only _ _ _ Hwf Hp) as [-> ->]. }
  destruct (ft_quarantined t !! key_of e) as [q|] eqn:Hq.
  { destruct (quarantined_only _ _ _ Hwf Hq) as [_ ->]. cbn. split; [done|].
    destruct (String.eqb_spec (ir_envelope q) (ir_envelope e)); auto. }
  destruct (ft_complete_events t !! key_of e) as [c|] eqn:Hc; [done|]. cbn [fmap option_fmap option_map].
  change (union None None) with (@None IngestRequest). cbv iota beta.
  destruct (_ <=? _); [done|].
  match goal with |- context [journalled ?rs ?a ?f o] =>
    pose proof (journalled_tables rs a f o) as Ht; destruct (journalled rs a f o) as [[r|er] o'] end;
    cbn [fst snd] in Ht; [|by rewrite Ht].
  destruct Ht as [-> ->]. split; [done|]. apply map_eq. intros k. rewrite table_rows_lookup. simpl.
  destruct (decide (k = key_of e)) as [->|Hne]; [by rewrite !lookup_insert_eq|].
  rewrite !lookup_insert_ne by done. symmetry. apply table_rows_lookup.
Qed.

(** ** Settling *)

(** The row [p] stands for is pending or settled. *)
Definition settleable (t : Tables) (p : OutboxKey * IngestRequest) : Prop :=
  key_of p.2 = p.1
  ∧ (table_rows t !! p.1 = Some (Pending p.2) ∨ table_rows t !! p.1 = Some (Complete p.2)).

Lemma settleable_not_quarantined t p :
  tables_wf t → settleable t p → ft_quarantined t !! p.1 = None.
Proof.
  intros Hwf [_ Hp]. rewrite table_rows_lookup in Hp.
  destruct (ft_pending t !! p.1) as [e|] eqn:E; [by apply (pending_only _ _ _ Hwf) in E as [? _]|].
  destruct (ft_quarantined t !! p.1); [|done]. by destruct Hp.
Qed.

Lemma complete_row_rows now t p :
  tables_wf t → settleable t p → table_rows (complete_row now t p) = alter settle_row p.1 (table_rows t).
Proof.
  intros Hwf Hs. pose proof (settleable_not_quarantined t p Hwf Hs) as Hq. destruct Hs as [Hk Hp]. apply map_eq. intros k. rewrite table_rows_lookup. simpl.
  destruct (decide (k = p.1)) as [->|Hne].
  - rewrite lookup_alter_eq, lookup_delete_eq, lookup_insert_eq, Hq. by destruct Hp as [-> | ->].
  - rewrite lookup_alter_ne, lookup_delete_ne, lookup_insert_ne by done.
    symmetry. apply table_rows_lookup.
Qed.

Lemma complete_row_wf now t p : tables_wf t → settleable t p → tables_wf (complete_row now t p).
Proof.
  intros Hwf Hs. pose proof (settleable_not_quarantined t p Hwf Hs) as Hq.
  destruct Hwf as [Hm Hc], Hs as [Hk Hp].
  split; [|simpl; by rewrite fmap_insert, Hc]. destruct Hm. split; simpl in *; try done.
  - intros k' e' [_ ?]%lookup_delete_Some. eauto.
  - intros k' e'. rewrite lookup_insert_Some. intros [[<- <-]|[_ ?]]; [done|eauto].
  - rewrite dom_delete_L. intros x [Hx _]%elem_of_difference. by apply mw_pending_quarantined.
  - by apply dom_delete_disjoint.
  - rewrite dom_insert_L. apply disjoint_union_r. split; [|done].
    apply disjoint_singleton_r. by apply not_elem_of_dom.
  - by rewrite !dom_insert_L, mw_completed_at.
  - by rewrite !dom_delete_L, mw_pending_since.
Qed.

Lemma settleable_mono now t p p' :
  tables_wf t → settleable t p → settleable t p' → settleable (complete_row now t p) p'.
Proof.
  intros Hwf Hp [Hk' Hp']. split; [done|]. rewrite complete_row_rows by done.
  destruct (decide (p.1 = p'.1)) as [->|Hne]; [|by rewrite lookup_alter_ne].
  rewrite lookup_alter_eq. destruct Hp' as [-> | ->]; by right.
Qed.

Lemma to_complete_spec t keys ps : tables_wf t → to_complete t keys = Ok ps →
  Forall (settleable t) ps ∧ (∀ p, p ∈ ps → p.1 ∈ keys)
  ∧ ∀ k, k ∈ keys → k ∈ ps.*1 ∨ ∃ e, table_rows t !! k = Some (Complete e).
Proof.
  intros Hwf. revert ps. induction keys as [|k keys IH]; intros ps; cbn [to_complete].
  { intros [= <-]. split; [constructor|]. split; [intros p Hp; by apply elem_of_nil in Hp|].
    intros k Hk. by apply elem_of_nil in Hk. }
  rewrite (complete_lookup _ _ Hwf).
  destruct (ft_complete_events t !! k) as [c|] eqn:Hc; cbn [fmap option_fmap option_map].
  - intros Hps. destruct (IH _ Hps) as (HF & Hsub & Hall). split; [done|].
    split; [intros p Hp; right; by apply Hsub|].
    intros k' [->|Hk']%elem_of_cons; [right|by apply Hall]. exists c. rewrite table_rows_lookup, Hc.
    by destruct (complete_only _ _ _ Hwf Hc) as [-> ->].
  - destruct (ft_pending t !! k) as [e|] eqn:E; [|done].
    destruct (to_complete t keys) as [ps'|]; [|done]. cbn. intros [= <-].
    destruct (IH _ eq_refl) as (HF & Hsub & Hall). split_and!.
    + constructor; [|done]. split; [by apply (mw_pending _ (tw_memory _ Hwf))|]. left. cbn.
      by rewrite table_rows_lookup, E.
    + intros p [->|Hp]%elem_of_cons; [by left|right; by apply Hsub].
    + intros k' [->|Hk']%elem_of_cons; [left; by left|].
      destruct (Hall _ Hk'); [left; by right|by right].
Qed.

(** The rows after [mark_complete_many]: all of the group, or none of it. *)
Lemma file_mark_rows now ks o : tables_wf (fo_tables o) →
  tables_wf (fo_tables (file_mark_complete_many now ks o).2)
  ∧ match (file_mark_complete_many now ks o).1 with
    | Ok _ => ∀ k, table_rows (fo_tables (file_mark_complete_many now ks o).2) !! k
                   = if bool_decide (k ∈ ks) then settle_row <$> table_rows (fo_tables o) !! k
                     else table_rows (fo_tables o) !! k
    | Err _ => table_rows (fo_tables (file_mark_complete_many now ks o).2) = table_rows (fo_tables o)
    end.
Proof.
  intros Hwf. unfold file_mark_complete_many.
  destruct (to_complete (fo_tables o) ks) as [ps|e] eqn:Hps; [|done].
  destruct (to_complete_spec _ _ _ Hwf Hps) as (HF & Hsub & Hall).
  destruct (foldl_rows tables_wf table_rows settle_row (complete_row now) fst settleable ps (fo_tables o))
    as [Hwf' Hr]; [apply settle_row_idemp| |done..|].
  { intros t p Ht Hp. split; [by apply complete_row_wf|]. split; [by apply complete_row_rows|].
    intros p' Hp'. by apply settleable_mono. }
  match goal with |- context [journalled ?rs ?a ?f o] =>
    pose proof (journalled_tables rs a f o) as Ht; destruct (journalled rs a f o).1 end;
    [destruct Ht as [_ ->]|by rewrite Ht].
  split; [done|]. intros k. rewrite Hr. case_bool_decide as Hk; case_bool_decide as Hk'; try done.
  - apply list_elem_of_fmap in Hk as (p & -> & Hp). by destruct Hk'; apply Hsub.
  - destruct (Hall k Hk') as [?|[e ->]]; done.
Qed.

(** ** Withdrawing *)

Lemma quarantine_row_spec t k : tables_wf t →
  tables_wf (quarantine_row t k) ∧ table_rows (quarantine_row t k) = alter withdraw_row k (table_rows t).
Proof.
  intros Hwf. unfold quarantine_row. destruct (ft_pending t !! k) as [e|] eqn:Hp.
  - split.
    + destruct (pending_only _ _ _ Hwf Hp) as [_ Hc], Hwf as [Hm Hcomp].
      pose proof (mw_pending _ Hm _ _ Hp) as Hk. split; [|done].
      destruct Hm. split; simpl in *; try done.
      * intros k' e' [_ ?]%lookup_delete_Some. eauto.
      * intros k' e'. rewrite lookup_insert_Some. intros [[<- <-]|[_ ?]]; [done|eauto].
      * by apply dom_delete_disjoint.
      * rewrite dom_delete_L. intros x [Hx _]%elem_of_difference. by apply mw_pending_complete.
      * rewrite dom_insert_L. apply disjoint_union_l. split; [|done].
        apply disjoint_singleton_l. by apply not_elem_of_dom.
      * by rewrite !dom_delete_L, mw_pending_since.
    + apply map_eq. intros k'. rewrite table_rows_lookup. simpl. destruct (decide (k = k')) as [<-|Hne].
      * by rewrite lookup_alter_eq, table_rows_lookup, Hp, lookup_delete_eq, lookup_insert_eq.
      * by rewrite lookup_alter_ne, table_rows_lookup, lookup_delete_ne, lookup_insert_ne.
  - split; [done|]. apply map_eq. intros k'. destruct (decide (k = k')) as [<-|Hne];
      [|by rewrite lookup_alter_ne].
    rewrite lookup_alter_eq, table_rows_lookup, Hp.
    by destruct (ft_quarantined t !! k), (ft_complete_events t !! k).
Qed.

Lemma quarantine_rows_spec ks t : tables_wf t →
  tables_wf (foldl quarantine_row t ks)
  ∧ ∀ k, table_rows (foldl quarantine_row t ks) !! k
         = if bool_decide (k ∈ ks) then withdraw_row <$> table_rows t !! k else table_rows t !! k.
Proof.
  intros Hwf.
  destruct (foldl_rows tables_wf table_rows withdraw_row quarantine_row id (λ _ _, True) ks t)
    as [Hwf' Hr]; [apply withdraw_row_idemp| |done|by apply Forall_true|].
  { intros t' k Ht _. destruct (quarantine_row_spec t' k Ht). auto. }
  rewrite list_fmap_id in Hr. done.
Qed.

Lemma file_quarantine_rows now why ks o : tables_wf (fo_tables o) →
  tables_wf (fo_tables (file_quarantine now why ks o).2)
  ∧ ∀ k, table_rows (fo_tables (file_quarantine now why ks o).2) !! k = table_rows (fo_tables o) !! k
         ∨ k ∈ ks ∧ table_rows (fo_tables (file_quarantine now why ks o).2) !! k
                    = withdraw_row <$> table_rows (fo_tables o) !! k.
Proof.
  intros Hwf. destruct (quarantine_rows_spec ks (fo_tables o) Hwf) as [Hwf' Hr].
  by apply journalled_rows.
Qed.

(** ** Rescheduling *)

(** The first loop files retries and nothing else. *)
Lemma reschedule_loop next keys s :
  let s' := foldl (reschedule_one next) s keys in
  (∃ next_attempt attempts, rs_tables s' = set_retries next_attempt attempts (rs_tables s))
  ∧ ∀ k, k ∈ rs_quarantine s' → k ∈ rs_quarantine s ∨ k ∈ keys.
Proof.
  revert s. induction keys as [|k0 keys IH]; intros s s'.
  { split; [|by left]. exists (ft_next_attempt (rs_tables s)), (ft_attempts (rs_tables s)).
    unfold s'. cbn. by destruct (rs_tables s). }
  subst s'. cbn [foldl]. destruct (IH (reschedule_one next s k0)) as [(na & at_ & Ht) Hq]. clear IH.
  assert ((∃ na at_, rs_tables (reschedule_one next s k0) = set_retries na at_ (rs_tables s))
          ∧ ∀ k, k ∈ rs_quarantine (reschedule_one next s k0) → k ∈ rs_quarantine s ∨ k = k0)
    as [(na0 & at0 & Ht0) Hq0].
  { unfold reschedule_one. destruct (ft_pending _ !! k0); [case_match|]; cbn.
    - split; [|intros k [?|?%list_elem_of_singleton]%elem_of_app; auto].
      exists (ft_next_attempt (rs_tables s)), (ft_attempts (rs_tables s)). by destruct (rs_tables s).
    - split; [by eexists _, _|auto].
    - split; [|auto]. exists (ft_next_attempt (rs_tables s)), (ft_attempts (rs_tables s)).
      by destruct (rs_tables s). }
  split.
  - exists na, at_. by rewrite Ht, Ht0.
  - intros k [[?| ->]%Hq0|?]%Hq; [by left|right; by left|right; by right].
Qed.

Lemma set_retries_rows na at_ t : table_rows (set_retries na at_ t) = table_rows t.
Proof. done. Qed.

Lemma set_retries_wf na at_ t : tables_wf t → tables_wf (set_retries na at_ t).
Proof. intros [Hm Hc]. by split. Qed.

Lemma file_reschedule_rows now ks after o : tables_wf (fo_tables o) →
  tables_wf (fo_tables (file_reschedule now ks after o).2)
  ∧ ∀ k, table_rows (fo_tables (file_reschedule now ks after o).2) !! k = table_rows (fo_tables o) !! k
         ∨ k ∈ ks ∧ table_rows (fo_tables (file_reschedule now ks after o).2) !! k
                    = withdraw_row <$> table_rows (fo_tables o) !! k.
Proof.
  intros Hwf. unfold file_reschedule.
  match goal with |- context [foldl (reschedule_one ?n) ?s0 ks] =>
    destruct (reschedule_loop n ks s0) as [(na & at_ & Ht) Hq];
    set (s := foldl (reschedule_one n) s0 ks) in * end.
  cbn [rs_tables rs_quarantine] in Ht, Hq.
  pose proof (set_retries_wf na at_ _ Hwf) as Hwf1.
  destruct (quarantine_rows_spec (rs_quarantine s) _ Hwf1) as [Hwf2 Hr]. rewrite Ht.
  match goal with |- context [journalled ?rs ?a ?f ?o'] =>
    destruct (journalled_rows rs a f o' withdraw_row (rs_quarantine s) Hwf1 Hwf2 Hr) as [Hw Hk] end.
  split; [done|]. intros k. destruct (Hk k) as [?|[Hin ?]]; [by left|right]. split; [|done].
  apply Hq in Hin as [Hin|]; [by apply elem_of_nil in Hin|done].
Qed.

(** ** Requeueing *)

(** The row of a key after it was given back to the fanout. *)
Definition requeued_row (r : Row) : Row := match r with Quarantined e => Pending e | r => r end.

Lemma requeue_row_spec now t k : tables_wf t →
  tables_wf (requeue_row now t k) ∧ table_rows (requeue_row now t k) = alter requeued_row k (table_rows t).
Proof.
  intros Hwf. unfold requeue_row. destruct (ft_quarantined t !! k) as [e|] eqn:Hq.
  - destruct (quarantined_only _ _ _ Hwf Hq) as [Hp Hc]. split.
    + destruct Hwf as [Hm Hcomp]. pose proof (mw_quarantined _ Hm _ _ Hq) as Hk. split; [|done].
      destruct Hm. split; simpl in *; try done.
      * intros k' e'. rewrite lookup_insert_Some. intros [[<- <-]|[_ ?]]; [done|eauto].
      * intros k' e' [_ ?]%lookup_delete_Some. eauto.
      * symmetry. by apply dom_delete_disjoint.
      * rewrite dom_insert_L. apply disjoint_union_l. split; [|done].
        apply disjoint_singleton_l. by apply not_elem_of_dom.
      * rewrite dom_delete_L. intros x [Hx _]%elem_of_difference. by apply mw_quarantined_complete.
      * by rewrite !dom_insert_L, mw_pending_since.
    + apply map_eq. intros k'. rewrite table_rows_lookup. simpl. destruct (decide (k = k')) as [<-|Hne].
      * by rewrite lookup_alter_eq, table_rows_lookup, Hp, Hq, lookup_insert_eq.
      * by rewrite lookup_alter_ne, table_rows_lookup, lookup_delete_ne, lookup_insert_ne.
  - split; [done|]. apply map_eq. intros k'. destruct (decide (k = k')) as [<-|Hne];
      [|by rewrite lookup_alter_ne].
    rewrite lookup_alter_eq, table_rows_lookup, Hq.
    by destruct (ft_pending t !! k), (ft_complete_events t !! k).
Qed.

Lemma requeue_rows_spec now ks t : tables_wf t →
  tables_wf (foldl (requeue_row now) t ks)
  ∧ ∀ k, table_rows (foldl (requeue_row now) t ks) !! k
         = if bool_decide (k ∈ ks) then requeued_row <$> table_rows t !! k else table_rows t !! k.
Proof.
  intros Hwf.
  destruct (foldl_rows tables_wf table_rows requeued_row (requeue_row now) id (λ _ _, True) ks t)
    as [Hwf' Hr]; [by intros []| |done|by apply Forall_true|].
  { intros t' k Ht _. destruct (requeue_row_spec now t' k Ht). auto. }
  rewrite list_fmap_id in Hr. done.
Qed.

(** ** Expiry *)

Lemma foldl_forget_fields ks t :
  foldl forget_row t ks
  = mkTables (ft_pending t) (foldl (λ m k, delete k m) (ft_complete t) ks)
      (foldl (λ m k, delete k m) (ft_complete_events t) ks)
      (foldl (λ m k, delete k m) (ft_completed_at t) ks) (ft_next_attempt t) (ft_attempts t)
      (ft_quarantined t) (ft_pending_since t).
Proof. revert t. induction ks as [|k ks IH]; intros t; [by destruct t|]. apply IH. Qed.

Lemma foldl_delete_lookup {A} ks (m : gmap OutboxKey A) k :
  foldl (λ m k, delete k m) m ks !! k = if bool_decide (k ∈ ks) then None else m !! k.
Proof.
  revert m. induction ks as [|k0 ks IH]; intros m; cbn [foldl].
  { by rewrite bool_decide_eq_false_2 by apply not_elem_of_nil. }
  rewrite IH. destruct (decide (k = k0)) as [->|Hne].
  - rewrite lookup_delete_eq, (bool_decide_eq_true_2 (k0 ∈ k0 :: ks)) by (by left). by case_match.
  - rewrite lookup_delete_ne by done. erewrite bool_decide_ext; [done|].
    rewrite elem_of_cons. tauto.
Qed.

(** A completed row is forgotten once it is older than the retention, and
    nothing else is. *)
Lemma expired_rows_elem cutoff t k :
  k ∈ expired_rows cutoff t ↔ ∃ at_millis, ft_completed_at t !! k = Some at_millis ∧ at_millis ≤ cutoff.
Proof.
  unfold expired_rows. rewrite list_elem_of_fmap. split.
  - intros ([k' a] & -> & [Ha Hin]%list_elem_of_filter). exists a. split; [|done].
    by apply elem_of_map_to_list.
  - intros (a & Hin & Ha). exists (k, a). split; [done|]. apply list_elem_of_filter.
    split; [done|]. by apply elem_of_map_to_list.
Qed.

Lemma forget_rows_wf ks t : tables_wf t → tables_wf (foldl forget_row t ks).
Proof.
  intros [Hm Hc]. rewrite foldl_forget_fields.
  assert (∀ k e, foldl (λ m k, delete k m) (ft_complete_events t) ks !! k = Some e →
                 ft_complete_events t !! k = Some e) as Hsub.
  { intros k e. rewrite foldl_delete_lookup. by case_bool_decide. }
  split; simpl.
  - destruct Hm. split; simpl in *; try done.
    + intros k e Hk. eauto.
    + intros k Hk [e Hk']%elem_of_dom. apply (mw_pending_complete k Hk), elem_of_dom. eauto.
    + intros k Hk [e Hk']%elem_of_dom. apply (mw_quarantined_complete k Hk), elem_of_dom. eauto.
    + apply set_eq. intros k. rewrite !elem_of_dom, !foldl_delete_lookup.
      case_bool_decide; [done|]. by rewrite <- !elem_of_dom, mw_completed_at.
  - apply map_eq. intros k. rewrite lookup_fmap, !foldl_delete_lookup, Hc, lookup_fmap.
    by case_bool_decide.
Qed.

Lemma compact_journal_tables now o : fo_tables (compact_journal now o).2 = fo_tables o.
Proof.
  unfold compact_journal. destruct (_ <? _); [done|]. destruct (dv_compactions _) as [|[] ios]; cbn;
    by destruct (dv_open (fo_device o)).
Qed.

(** [maintain] expires rows, or leaves the tables as they were. *)
Lemma file_maintain_tables now retention o :
  match file_maintain_outbox now retention o with
  | (Ok _, o') =>
      fo_tables o' = foldl forget_row (fo_tables o) (expired_rows (now - retention) (fo_tables o))
  | (Err _, o') => fo_tables o' = fo_tables o
  end.
Proof.
  unfold file_maintain_outbox. destruct (expired_rows _ _) as [|k ks]; [done|].
  match goal with |- context [compact_journal now ?o1] =>
    pose proof (compact_journal_tables now o1) as Ht;
    destruct (compact_journal now o1) as [[[]|e] o'] end; [exact Ht|done].
Qed.

#[global] Instance file_outbox_laws : OutboxLaws FileOutbox.
Proof.
  refine {| rows := λ o, table_rows (fo_tables o); outbox_wf := λ o, tables_wf (fo_tables o) |}.
  - intros o k r [Hm _]. exact (@rows_keyed InMemoryOutbox _ _ memory_laws (view (fo_tables o)) k r Hm).
  - intros. by apply file_enqueue_wf.
  - intros. by apply file_enqueue_law.
  - intros now ks o Hwf. by apply file_mark_rows.
  - intros now ks o Hwf Hok. destruct (file_mark_rows now ks o Hwf) as [_ Hr].
    change ((file_mark_complete_many now ks o).1 = Ok tt) in Hok. by rewrite Hok in Hr.
  - intros now ks o Hwf k. destruct (file_mark_rows now ks o Hwf) as [_ Hr]. cbn.
    destruct (file_mark_complete_many now ks o).1; [|left; by rewrite Hr].
    rewrite Hr. case_bool_decide; auto.
  - done.
  - done.
  - intros now limit o es Hwf [= <-]. split; [apply len_take|].
    split; [by apply (pending_keys_nodup _ (view (fo_tables o))), Hwf|].
    intros e (k & Hin & _)%batch_elem. by apply (pending_list_row (view (fo_tables o)) k e (tw_memory _ Hwf)).
  - intros now ks d o Hwf. by apply file_reschedule_rows.
  - intros now ks d o Hwf. by apply file_reschedule_rows.
  - intros now why ks o Hwf. by apply file_quarantine_rows.
  - intros now why ks o Hwf. by apply file_quarantine_rows.
  - intros limit o es Hwf [= <-]. split; [done|]. split; [apply len_take|].
    intros e He. eapply elem_of_sublist in He; [|apply sublist_take].
    apply list_elem_of_fmap in He as ([k e'] & -> & Hin).
    by apply (pending_list_row (view (fo_tables o)) k e' (tw_memory _ Hwf)).
  - intros since limit o es Hwf [= <-]. split; [done|]. split; [apply len_take|].
    intros e He. eapply elem_of_sublist in He; [|apply sublist_take].
    apply list_elem_of_omap in He as ([k t] & _ & Hc). simpl in Hc.
    pose proof (mw_complete _ (tw_memory _ Hwf) _ _ Hc) as <-. rewrite table_rows_lookup, Hc.
    by destruct (complete_only _ _ _ Hwf Hc) as [-> ->].
Defined.
End laws.
