(* ===== verification/OutboxReplay.v ===== *)
(** * Replaying the outbox journal

    What the records of the file outbox do to the tables when a restart reads
    them back: each operation's records, replayed on what the journal so far
    stands for, stand for the tables the operation left. *)
From S2P Require Import Prelude RustStr Digits Time Journal Errors Convert Domain Envelope Outbox OutboxLaws OutboxFile OutboxFileLaws.

Open Scope N_scope.

(** [prost] writes a field that is not the default, and SHA-256 digests have 32
    bytes. *)
Class OutboxDepsLaws `{DomainDeps, PayloadDigest} := {
  encode_nonempty e : event_id e ≠ EmptyString → encode_to_vec e ≠ EmptyString;
  payload_fingerprint_len x : str_len (payload_fingerprint x) = 32;
}.

(** ** Folds over a map's entries *)

Lemma foldl_proj {S T X} (f : S → T) (step : S → X → S) (step' : T → X → T) xs s :
  (∀ s x, f (step s x) = step' (f s) x) → f (foldl step s xs) = foldl step' (f s) xs.
Proof. intros Hf. revert s. induction xs as [|x xs IH]; intros s; [done|]. cbn. by rewrite IH, Hf. Qed.

(** Setting, for every entry of [m], the value of its key. *)
Lemma foldl_entries_lookup {A B} (v : OutboxKey → A → option B) (m : gmap OutboxKey A)
    (m0 : gmap OutboxKey B) (k : OutboxKey) :
  foldl (λ acc p, partial_alter (λ _, v p.1 p.2) p.1 acc) m0 (map_to_list m) !! k
  = match m !! k with Some a => v k a | None => m0 !! k end.
Proof.
  rewrite <- (list_to_map_to_list m) at 2. pose proof (NoDup_fst_map_to_list m) as Hnd.
  revert m0 Hnd. induction (map_to_list m) as [|[k0 a] l IH]; intros m0 Hnd; [done|].
  cbn [foldl fst snd]. rewrite fmap_cons in Hnd. apply NoDup_cons in Hnd as [Hk0 Hnd]. cbn in Hk0.
  rewrite IH by done. cbn [list_to_map foldr]. destruct (decide (k = k0)) as [->|Hne].
  - rewrite lookup_insert_eq, lookup_partial_alter_eq.
    by rewrite (proj1 (not_elem_of_list_to_map _ _) Hk0).
  - by rewrite lookup_insert_ne, lookup_partial_alter_ne.
Qed.

Section replay.
Context `{DomainDeps, EnvelopeDeps, PayloadDigest, !EnvelopeLaws, !OutboxDepsLaws}.
Implicit Types (t r : Tables) (e : IngestRequest) (k : OutboxKey).

(** ** Events on disk *)

Definition key_ascii (k : OutboxKey) : bool :=
  str_all is_ascii (ok_workspace_id k) && str_all is_ascii (ok_namespace_id k)
  && str_all is_ascii (ok_event_id k).

(** The event is what its envelope reads back as. *)
Record reloads (e : IngestRequest) : Prop := {
  rl_event : reload (ir_envelope e) = Ok e;
  rl_nonempty : str_is_empty (ir_envelope e) = false;
  rl_size : str_len (ir_envelope e) ≤ MAX_ENVELOPE_BYTES;
  rl_ascii : key_ascii (key_of e) = true;
}.

(** Every event that was admitted is. *)
Lemma admitted_reloads env e : from_validated_transport env = Ok e → reloads e.
Proof.
  intros Hr. pose proof Hr as Hr'. apply admitted_request in Hr' as (s & Hs & ->).
  assert (is_lowercase_uuidv7 (event_id env) = true ∧ structure_ok env s = true
          ∧ str_len (encode_to_vec env) ≤ MAX_ENVELOPE_BYTES) as (Hid & Hst & Hlen).
  { unfold from_validated_transport in Hr. rewrite Hs in Hr. destruct (_ <? encoded_len env); [done|].
    destruct (is_lowercase_uuidv7 (event_id env)); [split; [done|]|done]. cbn [negb] in Hr.
    unfold mbind, result_bind, ok_or in Hr.
    repeat match type of Hr with
           | (if ?b then _ else _) = _ => destruct b eqn:?; [done|]
           | match ?m with _ => _ end = _ => destruct m; [|done]
           end. split; [by apply negb_false_iff|by apply N.ltb_ge]. }
  assert (∀ x, is_identifier x = true → str_all is_ascii x = true) as Hident.
  { intros x Hx%is_identifier_bytes. eapply str_all_impl; [|done].
    intros c. destruct c as [[] [] [] [] [] [] [] []]; by vm_compute. }
  split; cbn [request_of ir_envelope]; [|unfold str_is_empty|done|].
  3: { unfold structure_ok in Hst. repeat (apply andb_true_iff in Hst as [Hst ?]).
       unfold key_ascii, key_of, request_of. cbn [ok_workspace_id ok_namespace_id ok_event_id
         ir_workspace_id ir_namespace_id ir_event_id].
       by rewrite !Hident, (uuid_ascii (event_id env)) by done. }
  - unfold reload. rewrite decode_encode_envelope. cbn. by rewrite Hr.
  - destruct (encode_to_vec env) eqn:E; [|done]. exfalso. apply (encode_nonempty env); [|done].
    intros Hn. by rewrite Hn in Hid.
Qed.

Record tables_reload (t : Tables) : Prop := {
  tr_pending : map_Forall (λ _, reloads) (ft_pending t);
  tr_quarantined : map_Forall (λ _, reloads) (ft_quarantined t);
  tr_complete : map_Forall (λ _, reloads) (ft_complete_events t);
}.

(** ** Records that can be read back *)

(** Text in the record is ASCII, as the identifiers of an admitted event are. *)
Definition record_ascii (rec : FileOutboxRecord) : bool :=
  match rec with
  | FPending key _ _ _ _ => key_ascii key
  | FComplete key envelope_sha256 _ _ => key_ascii key && option_ok (str_all is_ascii) envelope_sha256
  | FQuarantined key _ reason _ => key_ascii key && str_all is_ascii reason
  end.

(** The record carries its creation time, so replaying it does not ask the
    clock. *)
Definition dated (rec : FileOutboxRecord) : Prop :=
  match rec with FPending _ _ _ _ created_at => is_Some created_at | _ => True end.

Definition readable (rec : FileOutboxRecord) : Prop := record_ascii rec = true ∧ dated rec.

(** ** What a restart restores *)

(** [r] restores [t]: the same rows with the same times, and no more attempts
    counted for a pending row.  Retries are kept in memory when journalling them
    fails, so a restart may know of fewer. *)
Record restores (r t : Tables) : Prop := {
  re_pending : ft_pending r = ft_pending t;
  re_complete : ft_complete r = ft_complete t;
  re_complete_events : ft_complete_events r = ft_complete_events t;
  re_completed_at : ft_completed_at r = ft_completed_at t;
  re_quarantined : ft_quarantined r = ft_quarantined t;
  re_pending_since : ft_pending_since r = ft_pending_since t;
  re_attempts k : is_Some (ft_pending t !! k) →
    default 0 (ft_attempts r !! k) ≤ default 0 (ft_attempts t !! k);
}.

Lemma restores_refl t : restores t t.
Proof. by split. Qed.

Lemma restores_rows r t : restores r t → table_rows r = table_rows t.
Proof.
  intros Hr. apply map_eq. intros k. rewrite !table_rows_lookup.
  by rewrite (re_pending _ _ Hr), (re_quarantined _ _ Hr), (re_complete_events _ _ Hr).
Qed.

Lemma restores_total r t : restores r t → total_rows r = total_rows t.
Proof.
  intros Hr. unfold total_rows.
  by rewrite (re_pending _ _ Hr), (re_quarantined _ _ Hr), (re_complete _ _ Hr).
Qed.

(** The records of a journal, with the capacity check after each, and without
    it. *)
Fixpoint replay_journal (cap now : N) (rs : list FileOutboxRecord) (t : Tables)
    : result GatewayErrorCode Tables :=
  match rs with
  | [] => Ok t
  | r :: rs => t' ← load_step cap now r t; replay_journal cap now rs t'
  end.

Lemma replay_journal_app cap now rs rs' t :
  replay_journal cap now (rs ++ rs') t
  = (t' ← replay_journal cap now rs t; replay_journal cap now rs' t').
Proof.
  revert t. induction rs as [|r rs IH]; intros t; [done|]. cbn [app replay_journal].
  destruct (load_step cap now r t); cbn; [apply IH|done].
Qed.

(** ** Counting rows *)

Lemma map_len_insert {A} (m : gmap OutboxKey A) k a : map_len (<[k := a]> m) ≤ map_len m + 1.
Proof. unfold map_len. rewrite map_size_insert. case_match; unfold id; lia. Qed.

Lemma map_len_delete {A} (m : gmap OutboxKey A) k : map_len (delete k m) ≤ map_len m.
Proof. unfold map_len. rewrite map_size_delete. case_match; unfold id; lia. Qed.

(** A record adds at most one row. *)
Lemma load_record_total now rec t t' : load_record now rec t = Ok t' → total_rows t' ≤ total_rows t + 1.
Proof.
  unfold load_record, mbind, result_bind. destruct rec; intros Hl;
    repeat match type of Hl with
           | (if ?b then _ else _) = _ => destruct b; [done|]
           | match ?m with _ => _ end = _ => destruct m eqn:?; try done
           end; apply (inj Ok) in Hl as <-; unfold total_rows; cbn;
    repeat match goal with
           | p : _ * _ |- _ => destruct p
           | H : match ?o with _ => _ end = Ok _ |- _ => destruct o eqn:?; try done
           | H : (if ?b then _ else _) = Ok _ |- _ => destruct b; try done
           | H : Ok _ = Ok _ |- _ => apply (inj Ok) in H; simplify_eq
           end;
    repeat match goal with
           | |- context [map_len (insert ?k ?a ?m)] =>
               pose proof (map_len_insert m k a); generalize dependent (map_len (insert k a m)); intros
           | |- context [map_len (delete ?k ?m)] =>
               pose proof (map_len_delete m k); generalize dependent (map_len (delete k m)); intros
           end; lia.
Qed.

(** The rows of well-formed tables are counted once. *)
Lemma total_rows_size t : tables_wf t → total_rows t = map_len (table_rows t).
Proof.
  intros [[] Hc]. unfold total_rows, table_rows, memory_rows, map_len. simpl in *. rewrite Hc.
  assert (∀ {A B} (f : A → Row) (g : B → Row) (m : gmap OutboxKey A) (m' : gmap OutboxKey B),
            dom m ## dom m' → f <$> m ##ₘ g <$> m') as Hd.
  { intros A B f g m m' Hd. apply map_disjoint_dom. by rewrite !dom_fmap. }
  rewrite !map_size_disj_union, !map_size_fmap; [lia|by apply Hd|].
  apply map_disjoint_union_r. split; by apply Hd.
Qed.

Lemma total_rows_alter f k t t' :
  tables_wf t → tables_wf t' → table_rows t' = alter f k (table_rows t) → total_rows t' = total_rows t.
Proof.
  intros Hwf Hwf' Hr. rewrite !total_rows_size, Hr by done. unfold map_len.
  rewrite <- !size_dom. by rewrite dom_alter_L.
Qed.

(** Tables a journal can stand for. *)
Record healthy (cap : N) (t : Tables) : Prop := {
  he_wf : tables_wf t;
  he_reload : tables_reload t;
  he_total : total_rows t ≤ cap;
}.

Lemma restores_view r t : restores r t → view r = view t.
Proof. intros []. unfold view. congruence. Qed.

Lemma restores_wf r t : restores r t → tables_wf t → tables_wf r.
Proof.
  intros Hr [Hm Hc]. split; [by rewrite (restores_view r t Hr)|].
  by rewrite (re_complete _ _ Hr), (re_complete_events _ _ Hr).
Qed.

(** ** One record *)

Lemma load_pending now k e na at_ created t :
  tables_wf t → reloads e → key_of e = k → (∀ e0, ft_pending t !! k = Some e0 → e0 = e) →
  load_record now (FPending k (ir_envelope e) na at_ (Some created)) t
  = Ok (mkTables (<[k := e]> (ft_pending t)) (ft_complete t) (ft_complete_events t) (ft_completed_at t)
          (file_option k na (ft_next_attempt t)) (file_option k at_ (ft_attempts t))
          (delete k (ft_quarantined t)) (<[k := created]> (ft_pending_since t))).
Proof.
  intros Hwf [Hl Hne Hlen _] Hk Hsame. unfold load_record. rewrite Hne, (proj2 (N.ltb_ge _ _) Hlen), Hl.
  cbn [orb mbind result_bind default]. rewrite bool_decide_true, String.eqb_refl by done. cbn [negb orb].
  destruct (ft_pending t !! k) as [e0|] eqn:Hp; [|done].
  rewrite (Hsame e0 eq_refl), String.eqb_refl. cbn [negb]. rewrite (Hsame e0 eq_refl) in Hp.
  rewrite (insert_id _ _ _ Hp), delete_id; [done|]. by apply (pending_only _ _ _ Hwf Hp).
Qed.

Lemma load_complete now at_millis k e t :
  reloads e → key_of e = k →
  load_record now (complete_record at_millis (k, e)) t
  = Ok (mkTables (delete k (ft_pending t))
          (<[k := Some (payload_fingerprint (ir_envelope e))]> (ft_complete t))
          (<[k := e]> (ft_complete_events t)) (<[k := at_millis]> (ft_completed_at t))
          (ft_next_attempt t) (ft_attempts t) (ft_quarantined t) (delete k (ft_pending_since t))).
Proof.
  intros [Hl Hne Hlen _] Hk. unfold load_record, complete_record. cbn [fst snd].
  rewrite Hl. cbn [mbind result_bind]. rewrite bool_decide_true, String.eqb_refl by done.
  cbn [negb orb]. rewrite parse_digest_hex by apply payload_fingerprint_len. cbn.
  by destruct (ft_pending t !! k).
Qed.

Lemma load_quarantined now k e reason at_millis t :
  reloads e → key_of e = k →
  load_record now (FQuarantined k (ir_envelope e) reason at_millis) t
  = Ok (mkTables (delete k (ft_pending t)) (ft_complete t) (ft_complete_events t) (ft_completed_at t)
          (ft_next_attempt t) (ft_attempts t) (<[k := e]> (ft_quarantined t))
          (delete k (ft_pending_since t))).
Proof.
  intros [Hl Hne Hlen _] Hk. unfold load_record. rewrite Hl. cbn [mbind result_bind].
  by rewrite bool_decide_true.
Qed.

(** A record whose result restores tables within the capacity passes the
    capacity check. *)
Lemma load_step_ok cap now rec r r' t' :
  load_record now rec r = Ok r' → restores r' t' → total_rows t' ≤ cap → load_step cap now rec r = Ok r'.
Proof.
  intros Hl Hr Ht. unfold load_step. rewrite Hl. cbn [mbind result_bind].
  rewrite (restores_total _ _ Hr). by rewrite (proj2 (N.ltb_ge _ _) Ht).
Qed.

(** ** Runs of records *)

(** If each record restores its step, a run of them restores the fold. *)
Lemma replay_fold {X} (cap now : N) (rec : X → FileOutboxRecord) (step : Tables → X → Tables)
    (ok : Tables → X → Prop) (xs : list X) (r t : Tables) :
  (∀ r t x, healthy cap t → ok t x → restores r t →
     healthy cap (step t x) ∧ (∀ y, ok t y → ok (step t x) y)
     ∧ ∃ r', load_record now (rec x) r = Ok r' ∧ restores r' (step t x)) →
  healthy cap t → Forall (ok t) xs → restores r t →
  healthy cap (foldl step t xs)
  ∧ ∃ r', replay_journal cap now (rec <$> xs) r = Ok r' ∧ restores r' (foldl step t xs).
Proof.
  intros Hstep. revert r t. induction xs as [|x xs IH]; intros r t Hh Hok Hr.
  { split; [done|]. by exists r. }
  inversion_clear Hok as [|? ? Hx Hxs].
  destruct (Hstep r t x Hh Hx Hr) as (Hh' & Hmono & r' & Hl & Hr').
  destruct (IH r' (step t x)) as (Hh2 & r2 & Hl2 & Hr2); [done|by eapply Forall_impl|done|].
  split; [done|]. exists r2. split; [|done]. rewrite fmap_cons. cbn [replay_journal].
  by rewrite (load_step_ok _ _ _ _ _ _ Hl Hr' (he_total _ _ Hh')).
Qed.

(** ** The operations *)

(** Enqueueing. *)
Lemma enqueue_restores cap now now' e r t :
  healthy cap t → reloads e → unfiled t (key_of e) → total_rows t < cap → restores r t →
  healthy cap (enqueue_row now e t)
  ∧ ∃ r', load_record now' (FPending (key_of e) (ir_envelope e) None None (Some now)) r = Ok r'
          ∧ restores r' (enqueue_row now e t).
Proof.
  intros [Hwf Hre Htot] He Hu Hlt Hr. split.
  - split; [by apply enqueue_row_wf| |].
    + destruct Hre. split; [|done..]. by apply map_Forall_insert_2.
    + unfold total_rows in *. cbn. pose proof (map_len_insert (ft_pending t) (key_of e) e). lia.
  - pose proof Hu as (_ & Hq & Hp). eexists. split.
    + apply load_pending; [by apply (restores_wf r t)|done..|].
      intros e0. by rewrite (re_pending _ _ Hr), Hp.
    + destruct Hr. split; cbn; try congruence.
      * rewrite delete_id; congruence.
      * intros k [e0 Hk]. destruct (decide (k = key_of e)) as [->|Hne]; [rewrite lookup_delete_eq; cbn; lia|].
        rewrite lookup_delete_ne by done. rewrite lookup_insert_ne in Hk by done. by apply re_attempts; eexists.
Qed.

(** Settling. *)
Lemma complete_restores cap now now' r t p :
  healthy cap t → settleable t p → restores r t →
  healthy cap (complete_row now t p)
  ∧ ∃ r', load_record now' (complete_record now p) r = Ok r' ∧ restores r' (complete_row now t p).
Proof.
  intros [Hwf Hre Htot] Hs Hr. destruct p as [k e].
  assert (reloads e) as He.
  { destruct Hs as [_ Hs]. cbn in Hs. rewrite table_rows_lookup in Hs. destruct Hre as [Rp Rq Rc].
    destruct (ft_pending t !! k) eqn:E1; [|destruct (ft_quarantined t !! k) eqn:E2;
      [|destruct (ft_complete_events t !! k) eqn:E3]]; destruct Hs; simplify_eq;
      [by eapply Rp|by eapply Rc]. }
  split.
  - split; [by apply complete_row_wf| |].
    + destruct Hre. split; cbn; [by apply map_Forall_delete|done|by apply map_Forall_insert_2].
    + rewrite (total_rows_alter settle_row k t); [done..|by apply complete_row_wf|by apply (complete_row_rows now t (k, e))].
  - eexists. split; [apply load_complete; [done|apply Hs]|].
    destruct Hr. split; cbn; try congruence.
    intros k' [e0 [Hne Hk']%lookup_delete_Some]. rewrite lookup_delete_ne by done. by apply re_attempts; eexists.
Qed.

(** Withdrawing; a key that is named twice is withdrawn once. *)
Definition withdrawable (t : Tables) (p : OutboxKey * IngestRequest) : Prop :=
  ft_pending t !! p.1 = Some p.2 ∨ ft_quarantined t !! p.1 = Some p.2.

Lemma quarantine_restores cap now now' reason r t p :
  healthy cap t → withdrawable t p → restores r t →
  healthy cap (quarantine_row t p.1)
  ∧ ∃ r', load_record now' (FQuarantined p.1 (ir_envelope p.2) reason now) r = Ok r'
          ∧ restores r' (quarantine_row t p.1).
Proof.
  intros [Hwf Hre Htot] Hs Hr. destruct p as [k e]. cbn [fst snd] in *.
  assert (reloads e ∧ key_of e = k) as [He Hk].
  { destruct Hre as [Rp Rq Rc], Hwf as [[] _]. destruct Hs as [Hs|Hs]; cbn in Hs; eauto. }
  destruct (quarantine_row_spec t k Hwf) as [Hwf' Hrows]. split.
  - split; [done| |by rewrite (total_rows_alter withdraw_row k t)].
    unfold quarantine_row. destruct (ft_pending t !! k) as [e0|] eqn:E; [|done].
    destruct Hre as [Rp Rq Rc]. split; cbn; [by apply map_Forall_delete|apply map_Forall_insert_2; [by eapply Rp|done]|done].
  - eexists. split; [by apply load_quarantined|]. pose proof (re_pending_since _ _ Hr) as Hsince.
    destruct Hr. unfold quarantine_row.
    destruct Hs as [Hs|Hs]; cbn in Hs.
    + rewrite Hs. split; cbn; try congruence.
      intros k' [e0 [Hne Hk']%lookup_delete_Some]. rewrite lookup_delete_ne by done. by apply re_attempts; eexists.
    + destruct (quarantined_only _ _ _ Hwf Hs) as [Hp _]. rewrite Hp. split; cbn; try congruence.
      * rewrite delete_id; congruence.
      * by rewrite insert_id by congruence.
      * rewrite delete_id; [done|]. rewrite Hsince. apply not_elem_of_dom.
        rewrite (since_pending _ Hwf). by apply not_elem_of_dom.
      * done.
Qed.

(** Requeueing; a key that is named twice is requeued once. *)
Definition requeueable (now : N) (t : Tables) (p : OutboxKey * IngestRequest) : Prop :=
  ft_quarantined t !! p.1 = Some p.2
  ∨ ft_pending t !! p.1 = Some p.2 ∧ ft_pending_since t !! p.1 = Some now.

Lemma requeue_restores cap now now' r t p :
  healthy cap t → requeueable now t p → restores r t →
  healthy cap (requeue_row now t p.1)
  ∧ ∃ r', load_record now' (FPending p.1 (ir_envelope p.2) None None (Some now)) r = Ok r'
          ∧ restores r' (requeue_row now t p.1).
Proof.
  intros [Hwf Hre Htot] Hs Hr. destruct p as [k e]. cbn [fst snd] in *.
  assert (reloads e ∧ key_of e = k) as [He Hk].
  { destruct Hre as [Rp Rq Rc], Hwf as [[] _]. destruct Hs as [Hs|[Hs _]]; cbn in Hs; eauto. }
  destruct (requeue_row_spec now t k Hwf) as [Hwf' Hrows]. split.
  - split; [done| |by rewrite (total_rows_alter requeued_row k t)].
    unfold requeue_row. destruct (ft_quarantined t !! k) as [e0|] eqn:E; [|done].
    destruct Hre as [Rp Rq Rc].
    split; cbn; [apply map_Forall_insert_2; [by eapply Rq|done]|by apply map_Forall_delete|done].
  - eexists. split.
    + apply load_pending; [by apply (restores_wf r t)|done..|]. intros e0.
      rewrite (re_pending _ _ Hr). destruct Hs as [Hs|[Hs _]]; cbn in Hs; [|congruence].
      by destruct (quarantined_only _ _ _ Hwf Hs) as [-> _].
    + assert (∀ k', is_Some (<[k := e]> (ft_pending t) !! k') →
                default 0 (delete k (ft_attempts r) !! k') ≤ default 0 (ft_attempts t !! k')) as Hatt.
      { intros k' [e0 Hk']. destruct (decide (k' = k)) as [->|Hne]; [rewrite lookup_delete_eq; cbn; lia|].
        rewrite lookup_delete_ne by done. rewrite lookup_insert_ne in Hk' by done.
        by apply (re_attempts _ _ Hr); eexists. }
      destruct Hr. unfold requeue_row. destruct Hs as [Hs|[Hs Hsince]]; cbn in Hs.
      * rewrite Hs. split; cbn; try congruence. done.
      * destruct (pending_only _ _ _ Hwf Hs) as [Hq _]. rewrite Hq. rewrite insert_id in Hatt by done.
        split; cbn; try congruence; [rewrite insert_id; congruence|rewrite delete_id; congruence|
          |by intros k' Hk'; apply Hatt].
        cbn in Hsince. rewrite insert_id; congruence.
Qed.

(** ** Groups *)

(** The rows of a table that a group of keys names. *)
Definition filed (m : gmap OutboxKey IngestRequest) (keys : list OutboxKey)
    : list (OutboxKey * IngestRequest) :=
  omap (λ k, pair k <$> m !! k) keys.

Lemma filed_elem m keys p : p ∈ filed m keys → p.1 ∈ keys ∧ m !! p.1 = Some p.2.
Proof.
  unfold filed. rewrite list_elem_of_omap. intros (k & Hk & Hp).
  destruct (m !! k) as [e|] eqn:E; [|done]. by injection Hp as <-.
Qed.

(** A step that does nothing to keys outside the table skips them. *)
Lemma foldl_filed (step : Tables → OutboxKey → Tables) (table : Tables → gmap OutboxKey IngestRequest)
    (m : gmap OutboxKey IngestRequest) keys t :
  (∀ t k, table t !! k = None → step t k = t) →
  (∀ t k k', table t !! k' = None → table (step t k) !! k' = None) →
  (∀ k, m !! k = None → table t !! k = None) →
  foldl step t keys = foldl (λ t p, step t p.1) t (filed m keys).
Proof.
  intros Hskip Hgone. revert t. induction keys as [|k keys IH]; intros t Hm; [done|].
  unfold filed in *. csimpl. destruct (m !! k) as [e|] eqn:E; cbn.
  - apply IH. intros k' Hk'. by apply Hgone, Hm.
  - rewrite (Hskip t k (Hm k E)). by apply IH.
Qed.

Lemma complete_group cap now now' ps r t :
  healthy cap t → Forall (settleable t) ps → restores r t →
  healthy cap (foldl (complete_row now) t ps)
  ∧ ∃ r', replay_journal cap now' (complete_record now <$> ps) r = Ok r'
          ∧ restores r' (foldl (complete_row now) t ps).
Proof.
  intros Hh HF Hr. eapply replay_fold; [|done..]. intros r0 t0 p Hh0 Hp Hr0.
  destruct (complete_restores cap now now' r0 t0 p Hh0 Hp Hr0) as [Hh' Hr'].
  split; [done|]. split; [|done]. intros p' Hp'. apply settleable_mono; [apply Hh0|done..].
Qed.

Lemma quarantine_row_pending t k k' :
  ft_pending t !! k' = None → ft_pending (quarantine_row t k) !! k' = None.
Proof.
  intros Hk. unfold quarantine_row. destruct (ft_pending t !! k); [|done]. cbn.
  by apply lookup_delete_None; right.
Qed.

Lemma withdrawable_mono t k p :
  tables_wf t → withdrawable t p → withdrawable (quarantine_row t k) p.
Proof.
  intros Hwf. unfold withdrawable, quarantine_row. destruct (ft_pending t !! k) as [e|] eqn:E; [|done]. cbn.
  destruct (decide (k = p.1)) as [->|Hne].
  - rewrite lookup_delete_eq, lookup_insert_eq. destruct (pending_only _ _ _ Hwf E) as [-> _].
    intros [|]; right; congruence.
  - by rewrite lookup_delete_ne, lookup_insert_ne.
Qed.

Lemma quarantine_filed now reason keys t :
  foldl quarantine_row t keys = foldl (λ t p, quarantine_row t p.1) t (filed (ft_pending t) keys)
  ∧ omap (quarantine_record now reason t) keys
    = (λ p, FQuarantined p.1 (ir_envelope p.2) reason now) <$> filed (ft_pending t) keys.
Proof.
  split.
  - apply (foldl_filed quarantine_row ft_pending);
      [by intros t0 k Hk; unfold quarantine_row; rewrite Hk|apply quarantine_row_pending|done].
  - unfold filed, quarantine_record. induction keys as [|k keys IH]; [done|]. csimpl.
    destruct (ft_pending t !! k); csimpl; by rewrite IH.
Qed.

Lemma quarantine_group cap now now' reason ps r t :
  healthy cap t → Forall (withdrawable t) ps → restores r t →
  healthy cap (foldl (λ t p, quarantine_row t p.1) t ps)
  ∧ ∃ r', replay_journal cap now' ((λ p, FQuarantined p.1 (ir_envelope p.2) reason now) <$> ps) r = Ok r'
          ∧ restores r' (foldl (λ t p, quarantine_row t p.1) t ps).
Proof.
  intros Hh HF Hr. eapply replay_fold; [|done..].
  intros r0 t0 p Hh0 Hp Hr0. destruct (quarantine_restores cap now now' reason r0 t0 p Hh0 Hp Hr0).
  split; [done|]. split; [|done]. intros p'. apply withdrawable_mono, Hh0.
Qed.

Lemma requeue_row_quarantined now t k k' :
  ft_quarantined t !! k' = None → ft_quarantined (requeue_row now t k) !! k' = None.
Proof.
  intros Hk. unfold requeue_row. destruct (ft_quarantined t !! k); [|done]. cbn.
  by apply lookup_delete_None; right.
Qed.

Lemma requeueable_mono now t k p :
  tables_wf t → requeueable now t p → requeueable now (requeue_row now t k) p.
Proof.
  intros Hwf. unfold requeueable, requeue_row. destruct (ft_quarantined t !! k) as [e|] eqn:E; [|done]. cbn.
  destruct (decide (k = p.1)) as [->|Hne].
  - rewrite lookup_delete_eq, !lookup_insert_eq. destruct (quarantined_only _ _ _ Hwf E) as [-> _].
    intros [?|[? ?]]; right; split; congruence.
  - by rewrite lookup_delete_ne, !lookup_insert_ne.
Qed.

Lemma requeue_filed now keys t :
  foldl (requeue_row now) t keys = foldl (λ t p, requeue_row now t p.1) t (filed (ft_quarantined t) keys)
  ∧ omap (requeue_record now t) keys
    = (λ p, FPending p.1 (ir_envelope p.2) None None (Some now)) <$> filed (ft_quarantined t) keys.
Proof.
  split.
  - apply (foldl_filed (requeue_row now) ft_quarantined);
      [by intros t0 k Hk; unfold requeue_row; rewrite Hk|apply requeue_row_quarantined|done].
  - unfold filed, requeue_record. induction keys as [|k keys IH]; [done|]. csimpl.
    destruct (ft_quarantined t !! k); csimpl; by rewrite IH.
Qed.

Lemma requeue_group cap now now' ps r t :
  healthy cap t → Forall (requeueable now t) ps → restores r t →
  healthy cap (foldl (λ t p, requeue_row now t p.1) t ps)
  ∧ ∃ r', replay_journal cap now' ((λ p, FPending p.1 (ir_envelope p.2) None None (Some now)) <$> ps) r = Ok r'
          ∧ restores r' (foldl (λ t p, requeue_row now t p.1) t ps).
Proof.
  intros Hh HF Hr. eapply replay_fold; [|done..].
  intros r0 t0 p Hh0 Hp Hr0. destruct (requeue_restores cap now now' r0 t0 p Hh0 Hp Hr0).
  split; [done|]. split; [|done]. intros p'. apply requeueable_mono, Hh0.
Qed.

(** ** Rescheduling *)

Lemma set_retries_healthy cap na at_ t : healthy cap t → healthy cap (set_retries na at_ t).
Proof. intros [Hwf [Rp Rq Rc] Ht]. split; [by apply set_retries_wf|by split|exact Ht]. Qed.

Lemma retries_restored r t na at_ :
  restores r t →
  (∀ k, is_Some (ft_pending t !! k) → default 0 (ft_attempts r !! k) ≤ default 0 (at_ !! k)) →
  restores r (set_retries na at_ t).
Proof. intros [] Hle. by split. Qed.

Lemma retry_restores now k e next att since r t :
  tables_wf t → tables_reload t → restores r t →
  ft_pending t !! k = Some e → ft_pending_since t !! k = Some since →
  ∃ r', load_record now (FPending k (ir_envelope e) (Some next) (Some att) (Some since)) r = Ok r'
        ∧ restores r' (set_retries (<[k := next]> (ft_next_attempt t)) (<[k := att]> (ft_attempts t)) t).
Proof.
  intros Hwf Hre Hr Hp Hsince. eexists. split.
  - apply load_pending; [by eapply restores_wf|by eapply (tr_pending _ Hre)| |].
    + by apply (mw_pending _ (tw_memory _ Hwf)).
    + intros e0. rewrite (re_pending _ _ Hr), Hp. by intros [= <-].
  - destruct (pending_only _ _ _ Hwf Hp) as [Hq _]. destruct Hr.
    split; cbn; try congruence; try (rewrite insert_id; congruence).
    + rewrite delete_id; congruence.
    + intros k' Hk'. destruct (decide (k' = k)) as [->|Hne]; [by rewrite !lookup_insert_eq|].
      rewrite !lookup_insert_ne by done. by apply re_attempts0.
Qed.

(** A key is left alone, or its retry is filed with one more attempt. *)
Lemma reschedule_one_cases next s k :
  let t := rs_tables s in
  rs_tables (reschedule_one next s k) = t ∧ rs_records (reschedule_one next s k) = rs_records s
  ∨ ∃ e a, ft_pending t !! k = Some e ∧ default 0 (ft_attempts t !! k) ≤ a
      ∧ rs_tables (reschedule_one next s k)
        = set_retries (<[k := next]> (ft_next_attempt t)) (<[k := a]> (ft_attempts t)) t
      ∧ rs_records (reschedule_one next s k)
        = rs_records s
          ++ [FPending k (ir_envelope e) (Some next) (Some a) (ft_pending_since t !! k)].
Proof.
  cbn zeta. unfold reschedule_one. destruct (ft_pending (rs_tables s) !! k) as [e|]; [|by left].
  destruct (N.leb_spec MAX_PERSISTED_ATTEMPTS (sat_add32 (default 0 (ft_attempts (rs_tables s) !! k)) 1))
    as [_|Hlt]; [by left|].
  right. exists e, (sat_add32 (default 0 (ft_attempts (rs_tables s) !! k)) 1).
  split; [done|]. split; [|by split]. revert Hlt. generalize (default 0 (ft_attempts (rs_tables s) !! k)).
  intros n. unfold sat_add32, MAX_PERSISTED_ATTEMPTS, u32_max. lia.
Qed.

Lemma reschedule_one_restores cap next s k :
  healthy cap (rs_tables s) →
  healthy cap (rs_tables (reschedule_one next s k))
  ∧ (∀ r, restores r (rs_tables s) → restores r (rs_tables (reschedule_one next s k)))
  ∧ ∃ new, rs_records (reschedule_one next s k) = rs_records s ++ new ∧ Forall readable new
      ∧ ∀ now j r, restores r (rs_tables s) →
          ∃ r', replay_journal cap now (take j new) r = Ok r'
                ∧ restores r' (rs_tables (reschedule_one next s k)).
Proof.
  intros Hh. destruct (reschedule_one_cases next s k) as [[-> ->]|(e & a & Hp & Ha & -> & ->)].
  { split; [done|]. split; [done|]. exists []. rewrite app_nil_r. split; [done|]. split; [constructor|].
    intros now j r Hr. exists r. by rewrite take_nil. }
  revert Hh Hp Ha. generalize (rs_tables s). intros t Hh Hp Ha.
  assert (is_Some (ft_pending_since t !! k)) as [since Hsince].
  { apply elem_of_dom. rewrite (since_pending _ (he_wf _ _ Hh)). by eapply elem_of_dom_2. }
  pose proof (set_retries_healthy cap (<[k := next]> (ft_next_attempt t)) (<[k := a]> (ft_attempts t)) t Hh)
    as Hh'.
  assert (∀ r, restores r t →
            restores r (set_retries (<[k := next]> (ft_next_attempt t)) (<[k := a]> (ft_attempts t)) t)) as Hkeep.
  { intros r Hr. apply retries_restored; [done|]. intros k' Hk'.
    pose proof (re_attempts _ _ Hr k' Hk') as Hle.
    destruct (decide (k' = k)) as [->|Hne]; [|by rewrite lookup_insert_ne].
    rewrite lookup_insert_eq. cbn [default]. by etransitivity. }
  split; [exact Hh'|]. split; [exact Hkeep|]. rewrite Hsince.
  exists [FPending k (ir_envelope e) (Some next) (Some a) (Some since)]. split; [done|]. split.
  { apply Forall_singleton. split; [|by eexists]. cbn [record_ascii].
    rewrite <- (mw_pending _ (tw_memory _ (he_wf _ _ Hh)) k e Hp).
    apply rl_ascii. by eapply (tr_pending _ (he_reload _ _ Hh)). }
  intros now [|j] r Hr; [by exists r; split; [|apply Hkeep]|]. rewrite firstn_cons, take_nil.
  destruct (retry_restores now k e next a since r t (he_wf _ _ Hh) (he_reload _ _ Hh) Hr Hp Hsince)
    as (r' & Hl & Hr').
  exists r'. split; [|exact Hr']. cbn [replay_journal].
  by rewrite (load_step_ok _ _ _ _ _ _ Hl Hr' (he_total _ _ Hh')).
Qed.

(** The first loop: any part of what it journals restores what it leaves. *)
Lemma reschedule_loop_restores cap next keys s :
  healthy cap (rs_tables s) →
  let s' := foldl (reschedule_one next) s keys in
  healthy cap (rs_tables s')
  ∧ (∀ r, restores r (rs_tables s) → restores r (rs_tables s'))
  ∧ ∃ new, rs_records s' = rs_records s ++ new ∧ Forall readable new
      ∧ ∀ now j r, restores r (rs_tables s) →
          ∃ r', replay_journal cap now (take j new) r = Ok r' ∧ restores r' (rs_tables s').
Proof.
  revert s. induction keys as [|k keys IH]; intros s Hh.
  { split; [done|]. split; [done|]. exists []. rewrite app_nil_r. split; [done|]. split; [constructor|].
    intros now j r Hr. exists r. by rewrite take_nil. }
  destruct (reschedule_one_restores cap next s k Hh) as (Hh1 & Hk1 & new & Hn & Hd & Hp).
  destruct (IH _ Hh1) as (Hh2 & Hk2 & new' & Hn' & Hd' & Hp').
  split; [done|]. split; [auto|]. exists (new ++ new'). cbn [foldl].
  rewrite Hn', Hn, app_assoc. split; [done|]. split; [by apply Forall_app|]. intros now j r Hr.
  destruct (Hp now j r Hr) as (r1 & Hl & Hr1). rewrite take_app, replay_journal_app, Hl.
  exact (Hp' now _ r1 Hr1).
Qed.
End replay.

(** * Compacting the outbox journal

    The records [compact_journal] writes, replayed on empty tables, restore the
    tables they were written from, whatever order the maps were iterated in. *)

Section compaction.
Context `{DomainDeps, EnvelopeDeps, PayloadDigest, !EnvelopeLaws, !OutboxDepsLaws}.
Implicit Types (t r T : Tables) (k : OutboxKey).

(** ** Without the capacity check *)

Fixpoint load_all (now : N) (rs : list FileOutboxRecord) (T : Tables) : result GatewayErrorCode Tables :=
  match rs with
  | [] => Ok T
  | rec :: rs => T' ← load_record now rec T; load_all now rs T'
  end.

(** A journal with no more records than the capacity never fails the check. *)
Lemma load_all_replay cap now rs T T' :
  load_all now rs T = Ok T' → total_rows T + len rs ≤ cap → replay_journal cap now rs T = Ok T'.
Proof.
  revert T. induction rs as [|rec rs IH]; intros T Hl Ht; [done|].
  cbn [load_all replay_journal] in *. destruct (load_record now rec T) as [T1|e] eqn:E; [|done].
  cbn [mbind result_bind] in Hl. unfold load_step. rewrite E. cbn [mbind result_bind].
  pose proof (load_record_total _ _ _ _ E) as Hle. unfold len in *. cbn [length] in Ht.
  rewrite (proj2 (N.ltb_ge _ _)) by lia. apply IH; [done|]. lia.
Qed.

Lemma load_all_app now rs rs' T :
  load_all now (rs ++ rs') T = (T' ← load_all now rs T; load_all now rs' T').
Proof.
  revert T. induction rs as [|rec rs IH]; intros T; [done|]. cbn [app load_all].
  destruct (load_record now rec T); cbn [mbind result_bind]; [apply IH|done].
Qed.

(** Records that each amount to a step amount to the fold of it. *)
Lemma load_all_fold {X} now (rec : X → FileOutboxRecord) (step : Tables → X → Tables)
    (ok : Tables → X → Prop) xs T :
  (∀ T x, ok T x → load_record now (rec x) T = Ok (step T x)) →
  (∀ T x y, ok T x → ok T y → ok (step T x) y) →
  Forall (ok T) xs → load_all now (rec <$> xs) T = Ok (foldl step T xs).
Proof.
  intros Hl Hmono. revert T. induction xs as [|x xs IH]; intros T Hok; [done|].
  inversion_clear Hok as [|? ? Hx Hxs]. rewrite fmap_cons. cbn [load_all foldl]. rewrite (Hl T x Hx).
  apply IH. eapply Forall_impl; [done|]. intros y. by apply Hmono.
Qed.

(** ** The three sections of a compacted journal *)

Definition adopt_pending t T (p : OutboxKey * IngestRequest) : Tables :=
  mkTables (partial_alter (λ _, Some p.2) p.1 (ft_pending T)) (ft_complete T) (ft_complete_events T)
    (ft_completed_at T) (partial_alter (λ _, ft_next_attempt t !! p.1) p.1 (ft_next_attempt T))
    (partial_alter (λ _, ft_attempts t !! p.1) p.1 (ft_attempts T)) (ft_quarantined T)
    (partial_alter (λ _, ft_pending_since t !! p.1) p.1 (ft_pending_since T)).

Definition adopt_complete t T (p : OutboxKey * option string) : Tables :=
  mkTables (partial_alter (λ _, None) p.1 (ft_pending T))
    (partial_alter (λ _, Some p.2) p.1 (ft_complete T))
    (partial_alter (λ _, ft_complete_events t !! p.1) p.1 (ft_complete_events T))
    (partial_alter (λ _, ft_completed_at t !! p.1) p.1 (ft_completed_at T))
    (ft_next_attempt T) (ft_attempts T) (ft_quarantined T)
    (partial_alter (λ _, None) p.1 (ft_pending_since T)).

Definition adopt_quarantined T (p : OutboxKey * IngestRequest) : Tables :=
  mkTables (partial_alter (λ _, None) p.1 (ft_pending T)) (ft_complete T) (ft_complete_events T)
    (ft_completed_at T) (ft_next_attempt T) (ft_attempts T)
    (partial_alter (λ _, Some p.2) p.1 (ft_quarantined T))
    (partial_alter (λ _, None) p.1 (ft_pending_since T)).

Lemma file_option_alter {A} k (o : option A) m : file_option k o m = partial_alter (λ _, o) k m.
Proof. by destruct o. Qed.

(** Nothing is quarantined yet, and what is filed under the key is [p]. *)
Definition fresh_for t T (p : OutboxKey * IngestRequest) : Prop :=
  ft_pending t !! p.1 = Some p.2 ∧ ft_quarantined T = ∅
  ∧ ∀ e0, ft_pending T !! p.1 = Some e0 → e0 = p.2.

Lemma load_adopt_pending now t T p :
  tables_wf t → tables_reload t → fresh_for t T p →
  load_record now (FPending p.1 (ir_envelope p.2) (ft_next_attempt t !! p.1) (ft_attempts t !! p.1)
                     (ft_pending_since t !! p.1)) T = Ok (adopt_pending t T p).
Proof.
  intros Hwf Hre (Hp & Hq & Hsame). destruct p as [k e]. cbn [fst snd] in *.
  destruct (tr_pending _ Hre _ _ Hp) as [Hl Hne Hlen _].
  pose proof (mw_pending _ (tw_memory _ Hwf) _ _ Hp) as Hk.
  assert (is_Some (ft_pending_since t !! k)) as [since Hsince].
  { apply elem_of_dom. rewrite (since_pending _ Hwf). by eapply elem_of_dom_2. }
  unfold load_record, adopt_pending. cbn [fst snd]. rewrite Hne, (proj2 (N.ltb_ge _ _) Hlen), Hl, Hsince.
  cbn [orb mbind result_bind default]. rewrite bool_decide_true, String.eqb_refl by done. cbn [negb orb].
  rewrite !file_option_alter. destruct (ft_pending T !! k) as [e0|] eqn:E.
  - rewrite (Hsame e0 eq_refl), String.eqb_refl in *. cbn [negb].
    change (partial_alter (λ _, Some e) k (ft_pending T)) with (<[k := e]> (ft_pending T)).
    by rewrite (insert_id (ft_pending T)).
  - rewrite Hq, delete_empty. done.
Qed.

Lemma fresh_for_mono t T x y : fresh_for t T x → fresh_for t T y → fresh_for t (adopt_pending t T x) y.
Proof.
  intros (Hx & _ & _) (Hy & Hq & Hsame). split; [done|]. split; [done|]. cbn. intros e0.
  destruct (decide (x.1 = y.1)) as [Heq|Hne].
  - rewrite Heq, lookup_partial_alter_eq. congruence.
  - rewrite lookup_partial_alter_ne by done. apply Hsame.
Qed.

Lemma load_adopt_complete now t T p :
  tables_wf t → tables_reload t → ft_complete t !! p.1 = Some p.2 →
  load_record now (FComplete p.1 (hex_string <$> p.2) (ft_completed_at t !! p.1)
                     (ir_envelope <$> ft_complete_events t !! p.1)) T = Ok (adopt_complete t T p).
Proof.
  intros Hwf Hre Hp. destruct p as [k fp]. cbn [fst snd] in *.
  rewrite (complete_lookup _ _ Hwf) in Hp.
  destruct (ft_complete_events t !! k) as [e|] eqn:He; [|done]. injection Hp as <-.
  assert (is_Some (ft_completed_at t !! k)) as [a Ha].
  { apply elem_of_dom. pose proof (mw_completed_at _ (tw_memory _ Hwf)) as Hd. cbn in Hd. rewrite Hd.
    by eapply elem_of_dom_2. }
  unfold adopt_complete. cbn [fst snd]. rewrite Ha, He. cbn [fmap option_fmap option_map].
  apply (load_complete now a k e T); [by eapply (tr_complete _ Hre)|].
  by apply (mw_complete _ (tw_memory _ Hwf)).
Qed.

Lemma load_adopt_quarantined now reason at_ t T p :
  tables_wf t → tables_reload t → ft_quarantined t !! p.1 = Some p.2 →
  load_record now (FQuarantined p.1 (ir_envelope p.2) reason at_) T = Ok (adopt_quarantined T p).
Proof.
  intros Hwf Hre Hp. apply load_quarantined; [by eapply (tr_quarantined _ Hre)|].
  by apply (mw_quarantined _ (tw_memory _ Hwf)).
Qed.

(** What a compacted journal reads back as. *)
Definition adopted t : Tables :=
  foldl adopt_quarantined
    (foldl (adopt_complete t) (foldl (adopt_pending t) no_rows (map_to_list (ft_pending t)))
       (map_to_list (ft_complete t)))
    (map_to_list (ft_quarantined t)).

Lemma compaction_loads now now' t :
  tables_wf t → tables_reload t → load_all now' (compaction_records now t) no_rows = Ok (adopted t).
Proof.
  intros Hwf Hre. unfold compaction_records. rewrite !load_all_app.
  rewrite (load_all_fold now' _ (adopt_pending t) (fresh_for t)).
  2: { intros T p. by apply load_adopt_pending. }
  2: { intros T x y. apply fresh_for_mono. }
  2: { apply Forall_forall. intros [k e] Hin%elem_of_map_to_list. by split. }
  cbn [mbind result_bind]. rewrite load_all_app.
  rewrite (load_all_fold now' _ (adopt_complete t) (λ _ p, ft_complete t !! p.1 = Some p.2)).
  2: { intros T p. by apply load_adopt_complete. }
  2: { done. }
  2: { apply Forall_forall. by intros [k e] Hin%elem_of_map_to_list. }
  cbn [mbind result_bind].
  apply (load_all_fold now' _ adopt_quarantined (λ _ p, ft_quarantined t !! p.1 = Some p.2)).
  - intros T p. by apply load_adopt_quarantined.
  - done.
  - apply Forall_forall. by intros [k e] Hin%elem_of_map_to_list.
Qed.

Lemma foldl_same {A X} (xs : list X) (a : A) : foldl (λ a _, a) a xs = a.
Proof. by induction xs. Qed.

(** One field of the tables through the three folds; [v1], [v2] and [v3] are
    what the sections do to it. *)
Lemma adopted_field {A} (f : Tables → A) (t : Tables)
    (v1 : A → OutboxKey * IngestRequest → A) (v2 : A → OutboxKey * option string → A)
    (v3 : A → OutboxKey * IngestRequest → A) :
  (∀ T p, f (adopt_pending t T p) = v1 (f T) p) → (∀ T p, f (adopt_complete t T p) = v2 (f T) p) →
  (∀ T p, f (adopt_quarantined T p) = v3 (f T) p) →
  f (adopted t)
  = foldl v3 (foldl v2 (foldl v1 (f no_rows) (map_to_list (ft_pending t))) (map_to_list (ft_complete t)))
      (map_to_list (ft_quarantined t)).
Proof.
  intros E1 E2 E3. unfold adopted.
  by rewrite (foldl_proj f _ v3), (foldl_proj f _ v2), (foldl_proj f _ v1).
Qed.

(** Filing, dropping or skipping an entry. *)
Abbreviation put := (λ m p, partial_alter (λ _, Some p.2) p.1 m).
Abbreviation drop_ := (λ m p, partial_alter (λ _, None) p.1 m).
Abbreviation skip := (λ m _, m).

Lemma adopted_restores t : tables_wf t → restores (adopted t) t.
Proof.
  intros Hwf. pose proof (complete_lookup t) as Hc. split.
  - apply map_eq. intros k. rewrite (adopted_field ft_pending t put drop_ drop_) by done.
    rewrite (foldl_entries_lookup (λ _ _, None)), (foldl_entries_lookup (λ _ _, None)).
    rewrite (foldl_entries_lookup (λ _ e, Some e)), (Hc k Hwf).
    destruct (ft_pending t !! k) as [e|] eqn:Hp.
    + by destruct (pending_only _ _ _ Hwf Hp) as [-> ->].
    + by destruct (ft_quarantined t !! k), (ft_complete_events t !! k).
  - apply map_eq. intros k. rewrite (adopted_field ft_complete t skip put skip) by done.
    rewrite !foldl_same, (foldl_entries_lookup (λ _ e, Some e)). by destruct (ft_complete t !! k).
  - apply map_eq. intros k. rewrite (adopted_field ft_complete_events t skip
      (λ m p, partial_alter (λ _, ft_complete_events t !! p.1) p.1 m) skip) by done.
    rewrite !foldl_same, (foldl_entries_lookup (λ k _, ft_complete_events t !! k)), (Hc k Hwf).
    by destruct (ft_complete_events t !! k).
  - apply map_eq. intros k. rewrite (adopted_field ft_completed_at t skip
      (λ m p, partial_alter (λ _, ft_completed_at t !! p.1) p.1 m) skip) by done.
    rewrite !foldl_same, (foldl_entries_lookup (λ k _, ft_completed_at t !! k)), (Hc k Hwf).
    destruct (ft_complete_events t !! k) eqn:E; [done|]. symmetry. apply not_elem_of_dom.
    pose proof (mw_completed_at _ (tw_memory _ Hwf)) as Hd. cbn in Hd. rewrite Hd.
    by apply not_elem_of_dom.
  - apply map_eq. intros k. rewrite (adopted_field ft_quarantined t skip skip put) by done.
    rewrite !foldl_same, (foldl_entries_lookup (λ _ e, Some e)). by destruct (ft_quarantined t !! k).
  - apply map_eq. intros k. rewrite (adopted_field ft_pending_since t
      (λ m p, partial_alter (λ _, ft_pending_since t !! p.1) p.1 m) drop_ drop_) by done.
    rewrite (foldl_entries_lookup (λ _ _, None)), (foldl_entries_lookup (λ _ _, None)).
    rewrite (foldl_entries_lookup (λ k _, ft_pending_since t !! k)), (Hc k Hwf).
    destruct (ft_pending t !! k) as [e|] eqn:Hp; [by destruct (pending_only _ _ _ Hwf Hp) as [-> ->]|].
    assert (ft_pending_since t !! k = None) as ->.
    { apply not_elem_of_dom. rewrite (since_pending _ Hwf). by apply not_elem_of_dom. }
    by destruct (ft_quarantined t !! k), (ft_complete_events t !! k).
  - intros k [e Hp]. rewrite (adopted_field ft_attempts t
      (λ m p, partial_alter (λ _, ft_attempts t !! p.1) p.1 m) skip skip) by done.
    rewrite !foldl_same, (foldl_entries_lookup (λ k _, ft_attempts t !! k)), Hp. done.
Qed.

Lemma compaction_len now t : len (compaction_records now t) = total_rows t.
Proof.
  unfold compaction_records, len, total_rows, map_len.
  rewrite !length_app, !length_fmap, !length_map_to_list. lia.
Qed.

(** A compacted journal restores the tables it was written from. *)
Lemma compaction_restores cap now now' t :
  healthy cap t →
  ∃ r, replay_journal cap now' (compaction_records now t) no_rows = Ok r ∧ restores r t.
Proof.
  intros [Hwf Hre Htot]. exists (adopted t). split; [|by apply adopted_restores].
  apply load_all_replay; [by apply compaction_loads|]. rewrite compaction_len.
  change (total_rows no_rows) with 0. lia.
Qed.
End compaction.
