(* ===== verification/OutboxRecovery.v ===== *)
(** * The file outbox survives restarts

    The journal on disk always stands for the tables in memory, so reopening it
    restores them; an append that is cut short leaves each row as it was or as
    the operation would have made it.  Two flaws of the recovery are proved as
    well: an append that fails half way and is followed by another one, and
    the attempts of a row that is requeued after a restart. *)
From S2P Require Import Prelude RustStr Digits Time Journal Errors Convert Domain Codecs Admission Envelope Outbox OutboxLaws OutboxFile OutboxFileLaws OutboxReplay.

Open Scope N_scope.

(** ** Records that can be read back *)

(** [serde_json] writes ASCII text as it is and bytes as numbers. *)
Class AsciiLines `{LineCodec FileOutboxRecord} :=
  encode_line_ascii rec : record_ascii rec = true → str_all is_ascii (encode_line rec) = true.

Section recovery.
Context `{DomainDeps, EnvelopeDeps, PayloadDigest, !EnvelopeLaws, !OutboxDepsLaws}.
Context `{LineCodec FileOutboxRecord, !LineCodecLaws FileOutboxRecord, !AsciiLines}.
Implicit Types (t r : Tables) (o : FileOutbox) (rs : list FileOutboxRecord).

Lemma replay_dated cap now now' rs t :
  Forall dated rs → replay_journal cap now rs t = replay_journal cap now' rs t.
Proof.
  intros HF. revert t. induction HF as [|rec rs Hrec _ IH]; intros t; [done|].
  cbn [replay_journal]. assert (load_step cap now rec t = load_step cap now' rec t) as ->.
  { unfold load_step, load_record. destruct rec as [????? |????|????]; [|done..].
    cbn in Hrec. by destruct Hrec as [? ->]. }
  destruct (load_step cap now' rec t); [apply IH|done].
Qed.

(** No record is written as an empty line. *)
Lemma encode_line_nonempty (rec : FileOutboxRecord) : str_is_empty (encode_line rec) = false.
Proof.
  destruct (encode_line rec) eqn:E; [exfalso|done].
  assert (∃ rec' : FileOutboxRecord, rec' ≠ rec) as [rec' Hne].
  { destruct rec as [k env ???| |]; [by eexists (FQuarantined k env EmptyString 0)|..];
      by exists (FPending (mkOutboxKey EmptyString EmptyString EmptyString) EmptyString None None None). }
  pose proof (decode_encode_line rec) as Hd. rewrite E in Hd.
  destruct (encode_line rec') eqn:E'.
  - apply Hne. pose proof (decode_encode_line rec') as Hd'. rewrite E' in Hd'. congruence.
  - pose proof (decode_line_prefix rec' EmptyString _ E') as Hn.
    rewrite Hd in Hn. by discriminate Hn.
Qed.

Definition fits (rec : FileOutboxRecord) : Prop :=
  str_len (record_bytes rec) ≤ MAX_OUTBOX_RECORD_BYTES.

Lemma record_bytes_len (rec : FileOutboxRecord) :
  str_len (record_bytes rec) = str_len (encode_line rec) + 1.
Proof. unfold record_bytes. by rewrite str_len_app. Qed.

(** Loading a journal replays its records and counts its bytes. *)
Lemma load_outbox_journal cap now rs rest t t' good any :
  Forall readable rs → Forall fits rs → replay_journal cap now rs t = Ok t' →
  good + str_len (journal_bytes rs) ≤ u64_max →
  load_loop cap now ((encode_line <$> rs) ++ rest) good any t
  = load_loop cap now rest (good + str_len (journal_bytes rs)) (any || bool_decide (rs ≠ [])) t'.
Proof.
  intros Hread Hfit. revert t good any.
  induction rs as [|rec rs IH]; intros t good any Hl Hb.
  { cbn in Hl. injection Hl as <-. cbn. by rewrite N.add_0_r, orb_false_r. }
  apply Forall_cons in Hread as [[Ha Hd] Hread], Hfit as [Hf Hfit].
  cbn [journal_bytes] in Hb. rewrite str_len_app, record_bytes_len in Hb.
  unfold fits in Hf. rewrite record_bytes_len in Hf.
  rewrite fmap_cons. cbn [app load_loop].
  rewrite ascii_utf8 by (by apply encode_line_ascii). cbn [negb].
  rewrite encode_line_nonempty, (proj2 (N.ltb_ge _ _)), decode_encode_line by lia.
  cbn [replay_journal] in Hl. destruct (load_step cap now rec t) as [t1|e]; [|done].
  cbn [mbind result_bind] in *. rewrite (IH Hread Hfit t1) by (done || (unfold sat_add64; lia)).
  cbn [journal_bytes]. rewrite str_len_app, record_bytes_len.
  rewrite (bool_decide_true (rec :: rs ≠ [])) by done. rewrite orb_true_r. cbn [orb].
  f_equal. unfold sat_add64. lia.
Qed.

(** ** The journal stands for the tables *)

(** The bytes on disk are a journal that replays, at any time, to tables that
    restore [t]. *)
Definition journal_of (cap : N) (bytes : string) (t : Tables) : Prop :=
  ∃ rs r, bytes = journal_bytes rs ∧ Forall readable rs ∧ Forall fits rs
    ∧ str_len bytes ≤ MAX_OUTBOX_FILE_BYTES
    ∧ (∀ now, replay_journal cap now rs no_rows = Ok r) ∧ restores r t.

(** An append that fails leaves nothing behind, and a compacted journal is
    reopened; the second is what the process needs to go on at all. *)
Definition clean (d : Device) : Prop :=
  Forall clean_io (dv_appends d) ∧ Forall (λ io, io ≠ CompactRenamed false) (dv_compactions d).

Record outbox_ok (cap : N) (o : FileOutbox) : Prop := {
  oo_healthy : healthy cap (fo_tables o);
  oo_capacity : fo_capacity o = cap;
  oo_journal : journal_of cap (dv_bytes (fo_device o)) (fo_tables o);
  oo_clean : clean (fo_device o);
}.

Lemma journal_of_mono cap bytes t t' :
  (∀ r, restores r t → restores r t') → journal_of cap bytes t → journal_of cap bytes t'.
Proof. intros Hr (rs & r & ? & ? & ? & ? & ? & ?). exists rs, r. auto 10. Qed.

(** [encode_batch] writes the records one after the other, if each fits. *)
Lemma encode_batch_spec rs acc :
  match encode_batch rs acc with
  | Ok encoded => encoded = acc +:+ journal_bytes rs ∧ Forall fits rs
  | Err _ => True
  end.
Proof.
  revert acc. induction rs as [|rec rs IH]; intros acc; cbn [encode_batch journal_bytes].
  { by rewrite string_app_nil_r. }
  destruct (N.ltb_spec MAX_OUTBOX_RECORD_BYTES (str_len (record_bytes rec))); [done|].
  specialize (IH (acc +:+ record_bytes rec)). destruct (encode_batch rs _); [|done].
  destruct IH as [-> HF]. rewrite string_app_assoc. by split; [|constructor].
Qed.

Lemma not_full a b :
  (MAX_OUTBOX_FILE_BYTES <? sat_add64 a b) = false → a + b ≤ MAX_OUTBOX_FILE_BYTES.
Proof.
  intros Hf%N.ltb_ge. assert (MAX_OUTBOX_FILE_BYTES < u64_max) as Hmax by done.
  revert Hf Hmax. unfold sat_add64. generalize MAX_OUTBOX_FILE_BYTES u64_max. lia.
Qed.

(** What an append leaves: all of the records, or nothing, or an initial part
    of their bytes. *)
Lemma append_records_spec rs d :
  let bounded := str_len (dv_bytes d) + str_len (journal_bytes rs) ≤ MAX_OUTBOX_FILE_BYTES in
  match append_records rs d with
  | (Ok _, d') => dv_bytes d' = dv_bytes d +:+ journal_bytes rs ∧ Forall fits rs ∧ (rs = [] ∨ bounded)
  | (Err _, d') =>
      dv_bytes d' = dv_bytes d
      ∨ ∃ n ios, dv_appends d = AppendWriteFails n :: ios
          ∧ dv_bytes d' = dv_bytes d +:+ str_take n (journal_bytes rs) ∧ Forall fits rs ∧ bounded
  end.
Proof.
  cbn zeta. unfold append_records. destruct rs as [|rec rs'].
  { cbn. by rewrite string_app_nil_r; split_and!; [| |left]. }
  pose proof (encode_batch_spec (rec :: rs') EmptyString) as Henc. set (rs := rec :: rs') in *.
  destruct (encode_batch rs EmptyString) as [encoded|e]; [|by left]. destruct Henc as [Henc HF].
  change (EmptyString +:+ journal_bytes rs) with (journal_bytes rs) in Henc. subst encoded.
  destruct (dv_open d); cbn [negb]; [|by left].
  pose proof (not_full (str_len (dv_bytes d)) (str_len (journal_bytes rs))) as Hfull. revert Hfull.
  generalize (MAX_OUTBOX_FILE_BYTES <? sat_add64 (str_len (dv_bytes d)) (str_len (journal_bytes rs))).
  generalize (str_len (dv_bytes d) + str_len (journal_bytes rs) ≤ MAX_OUTBOX_FILE_BYTES).
  intros bounded full Hfull.
  destruct (dv_appends d) as [|[|n|] ios]; [|by left|..]; (destruct full; [by left|]);
    cbn [dv_bytes]; specialize (Hfull eq_refl).
  - split_and!; [done..|by right].
  - right. by exists n, ios.
  - split_and!; [done..|by right].
Qed.

Lemma append_records_clean rs d : clean d → clean (append_records rs d).2.
Proof.
  intros [Ha Hc]. unfold append_records. destruct rs as [|rec rs]; [done|].
  destruct (encode_batch _ _); [|done]. destruct (dv_open d); cbn [negb]; [|done].
  destruct (dv_appends d) as [|io ios]; cbn.
  - by destruct (_ <? _).
  - apply Forall_cons in Ha as [_ Ha]. destruct io; cbn; try destruct (_ <? _); by split.
Qed.

(** A clean append keeps the journal in step with the tables. *)
Lemma append_records_journal cap rs d t t' :
  journal_of cap (dv_bytes d) t → clean d → Forall readable rs →
  (∀ now r, restores r t → ∃ r', replay_journal cap now rs r = Ok r' ∧ restores r' t') →
  match append_records rs d with
  | (Ok _, d') => journal_of cap (dv_bytes d') t'
  | (Err _, d') => journal_of cap (dv_bytes d') t
  end.
Proof.
  intros Hj [Hclean _] Hread Hrep. pose proof (append_records_spec rs d) as Hspec. cbn zeta in Hspec.
  destruct (append_records rs d) as [[u|e] d'].
  - destruct Hspec as (-> & Hfit & Hb). destruct Hj as (rs0 & r0 & Hd & Hr0 & Hf0 & Hlen & Hl & Hre).
    destruct (Hrep 0 r0 Hre) as (r' & Hl' & Hr'). exists (rs0 ++ rs), r'.
    rewrite Hd, journal_bytes_app, str_len_app, <- Hd.
    split_and!; [done|by apply Forall_app|by apply Forall_app| | |done].
    + destruct Hb as [->|Hb]; [|done]. by rewrite N.add_0_r.
    + intros now. rewrite replay_journal_app, Hl. cbn [mbind result_bind]. rewrite <- Hl'.
      apply replay_dated. eapply Forall_impl; [exact Hread|]. by intros ? [_ ?].
  - destruct Hspec as [->|(n & ios & Hios & -> & _)]; [done|]. rewrite Hios in Hclean.
    apply Forall_cons in Hclean as [Hn _]. cbn in Hn. subst n.
    cbn [str_take]. by rewrite string_app_nil_r.
Qed.

(** ** The operations that write *)

Inductive Op :=
  | OpEnqueue (now : N) (event : IngestRequest)
  | OpComplete (now : N) (key : OutboxKey)
  | OpCompleteMany (now : N) (keys : list OutboxKey)
  | OpReschedule (now : N) (keys : list OutboxKey) (after : N)
  | OpQuarantine (now : N) (reason : string) (keys : list OutboxKey)
  | OpRequeue (now : N) (keys : list OutboxKey).

Definition run (op : Op) (o : FileOutbox) : FileOutbox :=
  match op with
  | OpEnqueue now event => (file_enqueue now event o).2
  | OpComplete now key => (file_mark_complete now key o).2
  | OpCompleteMany now keys => (file_mark_complete_many now keys o).2
  | OpReschedule now keys after => (file_reschedule now keys after o).2
  | OpQuarantine now reason keys => (file_quarantine now reason keys o).2
  | OpRequeue now keys => (file_requeue_quarantined now keys o).2
  end.

(** What the gateway passes: events it admitted, and reasons it has written
    down itself. *)
Definition op_ok (op : Op) : Prop :=
  match op with
  | OpEnqueue _ event => ∃ env, from_validated_transport env = Ok event
  | OpQuarantine _ reason _ => str_all is_ascii reason = true
  | _ => True
  end.

(** Each row of [t'] is as [t] or as [t2] has it. *)
Definition between (t t2 t' : Tables) : Prop :=
  ∀ k, table_rows t' !! k = table_rows t !! k ∨ table_rows t' !! k = table_rows t2 !! k.

(** What makes an operation on [t] recoverable: it appends [rs] with the tables
    at [t1] and leaves [t2]; replaying all of [rs] gives [t2], and replaying a
    part of it gives rows of [t] and of [t2]. *)
Record plan (cap : N) (t : Tables) (rs : list FileOutboxRecord) (t1 t2 : Tables) : Prop := {
  pl_readable : Forall readable rs;
  pl_mid : healthy cap t1;
  pl_final : healthy cap t2;
  pl_mid_rows : table_rows t1 = table_rows t;
  pl_kept r : restores r t → restores r t1;
  pl_whole now r : restores r t → ∃ r', replay_journal cap now rs r = Ok r' ∧ restores r' t2;
  pl_part now j r : restores r t →
    ∃ r', replay_journal cap now (take j rs) r = Ok r' ∧ between t t2 r';
}.

(** A plan that files nothing before it appends. *)
Lemma plan_direct cap t rs t2 :
  healthy cap t → Forall readable rs → healthy cap t2 →
  (∀ now j r, restores r t →
     ∃ r' t', replay_journal cap now (take j rs) r = Ok r' ∧ restores r' t' ∧ between t t2 t'
              ∧ ((length rs ≤ j)%nat → t' = t2)) →
  plan cap t rs t t2.
Proof.
  intros Hh Hd Hh2 Hp. split; try done.
  - intros now r Hr. destruct (Hp now (length rs) r Hr) as (r' & t' & Hl & Hr' & _ & Ht).
    rewrite take_ge in Hl by done. rewrite Ht in Hr' by done. eauto.
  - intros now j r Hr. destruct (Hp now j r Hr) as (r' & t' & Hl & Hr' & Hb & _).
    exists r'. split; [done|]. intros k. rewrite (restores_rows _ _ Hr'). apply Hb.
Qed.

Lemma between_refl t t2 : between t t2 t.
Proof. by left. Qed.

Lemma plan_nothing cap t : healthy cap t → plan cap t [] t t.
Proof.
  intros Hh. apply plan_direct; [done|constructor|done|]. intros now j r Hr. exists r, t.
  rewrite take_nil. split_and!; [done..|apply between_refl|done].
Qed.

(** A plan that applies an idempotent change to a list of rows, one record
    each. *)
Lemma plan_group {X} cap t (rec : X → FileOutboxRecord) (step : Tables → X → Tables) (key : X → OutboxKey)
    (f : Row → Row) (ok : Tables → X → Prop) (xs : list X) :
  (∀ row, f (f row) = f row) →
  (∀ t x, tables_wf t → ok t x → tables_wf (step t x)
            ∧ table_rows (step t x) = alter f (key x) (table_rows t) ∧ ∀ y, ok t y → ok (step t x) y) →
  (∀ now' r ys, Forall (ok t) ys → restores r t →
     healthy cap (foldl step t ys)
     ∧ ∃ r', replay_journal cap now' (rec <$> ys) r = Ok r' ∧ restores r' (foldl step t ys)) →
  healthy cap t → Forall (ok t) xs → Forall (readable ∘ rec) xs →
  plan cap t (rec <$> xs) t (foldl step t xs).
Proof.
  intros Hf Hstep Hrep Hh Hok Hread. apply plan_direct; [done|by apply Forall_fmap| |].
  { by eapply (Hrep 0 t); [|apply restores_refl]. }
  intros now j r Hr. rewrite <- fmap_take.
  destruct (Hrep now r (take j xs)) as (_ & r' & Hl & Hr'); [by apply Forall_take|done|].
  exists r', (foldl step t (take j xs)). split; [done|]. split; [done|]. split.
  - intros k.
    destruct (foldl_rows tables_wf table_rows f step key ok xs t) as [_ ->]; [done..|apply Hh|done|].
    destruct (foldl_rows tables_wf table_rows f step key ok (take j xs) t) as [_ ->];
      [done..|apply Hh|by apply Forall_take|].
    case_bool_decide as Hin; [|by left]. right. rewrite bool_decide_true; [done|].
    apply list_elem_of_fmap in Hin as (x & -> & Hx). apply list_elem_of_fmap_2.
    eapply elem_of_take in Hx as (i & Hi & _). by eapply list_elem_of_lookup_2.
  - intros Hj. rewrite length_fmap in Hj. by rewrite take_ge.
Qed.

(** Keys and envelopes in the tables are ASCII identifiers of admitted
    events. *)
Lemma row_ascii t k row : tables_wf t → tables_reload t → table_rows t !! k = Some row → key_ascii k = true.
Proof.
  intros [Hm _] [Rp Rq Rc]. rewrite table_rows_lookup. destruct Hm as [Mp Mq Mc _ _ _ _ _]. cbn in *.
  destruct (ft_pending t !! k) as [e|] eqn:Ep; [intros _; rewrite <- (Mp _ _ Ep); by eapply rl_ascii, Rp|].
  destruct (ft_quarantined t !! k) as [e|] eqn:Eq; [intros _; rewrite <- (Mq _ _ Eq); by eapply rl_ascii, Rq|].
  destruct (ft_complete_events t !! k) as [e|] eqn:Ec; [|done].
  intros _. rewrite <- (Mc _ _ Ec). by eapply rl_ascii, Rc.
Qed.

Lemma plan_enqueue cap now e t :
  healthy cap t → reloads e → unfiled t (key_of e) → total_rows t < cap →
  plan cap t [FPending (key_of e) (ir_envelope e) None None (Some now)] t (enqueue_row now e t).
Proof.
  intros Hh He Hu Hlt.
  destruct (enqueue_restores cap now 0 e t t Hh He Hu Hlt (restores_refl t)) as [Hh2 _].
  apply plan_direct; [done| |done|].
  { apply Forall_singleton. split; [by apply rl_ascii|by eexists]. }
  intros now' [|j] r Hr; [by exists r, t; split_and!; [| |apply between_refl|cbn; lia]|].
  destruct (enqueue_restores cap now now' e r t Hh He Hu Hlt Hr) as (_ & r' & Hl & Hr').
  exists r', (enqueue_row now e t). rewrite firstn_cons, take_nil. cbn [replay_journal].
  rewrite (load_step_ok _ _ _ _ _ _ Hl Hr' (he_total _ _ Hh2)).
  split; [done|]. split; [done|]. by split; [right|].
Qed.

Lemma plan_complete cap now ps t :
  healthy cap t → Forall (settleable t) ps →
  plan cap t (complete_record now <$> ps) t (foldl (complete_row now) t ps).
Proof.
  intros Hh HF. apply (plan_group cap t _ _ fst settle_row settleable); try done; [by intros []|..].
  - intros t0 p Hwf Hp. split; [by apply complete_row_wf|]. split; [by apply complete_row_rows|].
    intros p' Hp'. by apply settleable_mono.
  - intros now' r ys Hys Hr. by apply complete_group.
  - eapply Forall_impl; [exact HF|]. intros p Hp. split; [|done]. cbn [record_ascii compose complete_record].
    apply andb_true_iff. split; [|apply hex_string_ascii].
    destruct Hp as [_ [Hp|Hp]]; by eapply (row_ascii t); [apply Hh..|].
Qed.

Lemma plan_quarantine cap now reason keys t :
  healthy cap t → str_all is_ascii reason = true →
  plan cap t (omap (quarantine_record now reason t) keys) t (foldl quarantine_row t keys).
Proof.
  intros Hh Hreason. destruct (quarantine_filed now reason keys t) as [-> ->].
  assert (Forall (λ p, ft_pending t !! p.1 = Some p.2) (filed (ft_pending t) keys)) as HF.
  { apply Forall_forall. by intros p [_ ?]%filed_elem. }
  apply (plan_group cap t _ _ fst withdraw_row withdrawable); try done; [by intros []|..].
  - intros t0 p Hwf Hp. destruct (quarantine_row_spec t0 p.1 Hwf). split; [done|]. split; [done|].
    intros p'. by apply withdrawable_mono.
  - intros now' r ys Hys Hr. by apply quarantine_group.
  - eapply Forall_impl; [exact HF|]. by left.
  - eapply Forall_impl; [exact HF|]. intros p Hp. split; [|done]. cbn [record_ascii compose].
    rewrite Hreason, andb_true_r. apply (row_ascii t _ (Pending p.2)); [apply Hh..|].
    by rewrite table_rows_lookup, Hp.
Qed.

Lemma plan_requeue cap now keys t :
  healthy cap t → plan cap t (omap (requeue_record now t) keys) t (foldl (requeue_row now) t keys).
Proof.
  intros Hh. destruct (requeue_filed now keys t) as [-> ->].
  assert (Forall (λ p, ft_quarantined t !! p.1 = Some p.2) (filed (ft_quarantined t) keys)) as HF.
  { apply Forall_forall. by intros p [_ ?]%filed_elem. }
  apply (plan_group cap t _ _ fst requeued_row (requeueable now)); try done; [by intros []|..].
  - intros t0 p Hwf Hp. destruct (requeue_row_spec now t0 p.1 Hwf). split; [done|]. split; [done|].
    intros p'. by apply requeueable_mono.
  - intros now' r ys Hys Hr. by apply requeue_group.
  - eapply Forall_impl; [exact HF|]. by left.
  - eapply Forall_impl; [exact HF|]. intros p Hp. split; [|by eexists]. cbn [record_ascii compose].
    apply (row_ascii t _ (Quarantined p.2)); [apply Hh..|]. rewrite table_rows_lookup, Hp.
    by destruct (quarantined_only _ _ _ (he_wf _ _ Hh) Hp) as [-> _].
Qed.

(** Retries, then withdrawals. *)
Lemma plan_reschedule cap now next keys t :
  healthy cap t →
  let s := foldl (reschedule_one next) (mkResched t [] []) keys in
  plan cap t
    (rs_records s ++ omap (quarantine_record now "replay_attempts_exhausted" (rs_tables s)) (rs_quarantine s))
    (rs_tables s) (foldl quarantine_row (rs_tables s) (rs_quarantine s)).
Proof.
  intros Hh s. destruct (reschedule_loop_restores cap next keys (mkResched t [] []) Hh)
    as (Hh1 & Hkeep & new & Hn & Hd & Hp). cbn [rs_records rs_tables app] in *. fold s in Hh1, Hkeep, Hn, Hp.
  destruct (reschedule_loop next keys (mkResched t [] [])) as [(na & at_ & Ht) _]. fold s in Ht.
  assert (table_rows (rs_tables s) = table_rows t) as Hrows by (by rewrite Ht).
  destruct (plan_quarantine cap now "replay_attempts_exhausted" (rs_quarantine s) (rs_tables s) Hh1 eq_refl)
    as [Hq _ Hfin _ _ Hw Hpart].
  rewrite Hn. split; [by apply Forall_app|done..| |].
  - intros now' r Hr. destruct (Hp now' (length new) r Hr) as (r1 & Hl & Hr1). rewrite take_ge in Hl by done.
    destruct (Hw now' r1 Hr1) as (r2 & Hl2 & Hr2). exists r2. split; [|done].
    rewrite replay_journal_app, Hl. exact Hl2.
  - intros now' j r Hr. destruct (Hp now' j r Hr) as (r1 & Hl & Hr1).
    destruct (Hpart now' (j - length new)%nat r1 Hr1) as (r2 & Hl2 & Hb). exists r2.
    rewrite take_app, replay_journal_app, Hl. split; [exact Hl2|].
    intros k. rewrite <- Hrows. apply Hb.
Qed.

Lemma journalled_unit {A} rs (a : A) f o : (journalled rs a f o).2 = (journalled rs tt f o).2.
Proof. unfold journalled. by destruct (append_records rs (fo_device o)) as [[u|e] d]. Qed.

(** Every operation follows a plan that does not depend on the device. *)
Lemma run_plan cap op t :
  healthy cap t → op_ok op →
  ∃ rs t1 f, (∀ d, run op (mkFileOutbox d cap t) = (journalled rs tt f (mkFileOutbox d cap t1)).2)
             ∧ plan cap t rs t1 (f t1).
Proof.
  intros Hh Hop.
  assert (∀ same : Device → FileOutbox, (∀ d, same d = mkFileOutbox d cap t) →
            ∃ rs t1 f, (∀ d, same d = (journalled rs tt f (mkFileOutbox d cap t1)).2)
                       ∧ plan cap t rs t1 (f t1)) as Hnone.
  { intros same Hsame. exists [], t, id. split; [done|by apply plan_nothing]. }
  destruct op as [now e|now key|now keys|now keys after|now reason keys|now keys]; cbn [run].
  - unfold file_enqueue. cbn [fo_tables fo_capacity].
    destruct (ft_complete t !! key_of e) as [[?|]|] eqn:Hc; [by apply Hnone..|].
    destruct (union _ _) eqn:Hu; [by apply Hnone|]. apply union_None in Hu as [Hq Hp].
    destruct (N.leb_spec cap (total_rows t)); [by apply Hnone|]. destruct Hop as [env Henv].
    eexists _, t, (enqueue_row now e). split; [intros d; apply journalled_unit|].
    apply plan_enqueue; try done. by eapply admitted_reloads.
  - unfold file_mark_complete. cbn [fo_tables].
    destruct (ft_complete t !! key) eqn:Hc; [by apply Hnone|].
    destruct (ft_pending t !! key) as [e|] eqn:Hp; [|by apply Hnone].
    eexists _, t, (λ t, complete_row now t (key, e)). split; [done|].
    apply (plan_complete cap now [(key, e)]); [done|]. apply Forall_singleton. split; cbn.
    + by apply (mw_pending _ (tw_memory _ (he_wf _ _ Hh))).
    + left. by rewrite table_rows_lookup, Hp.
  - unfold file_mark_complete_many. cbn [fo_tables].
    destruct (to_complete t keys) as [ps|err] eqn:Hps; [|by apply Hnone].
    destruct (to_complete_spec t keys ps (he_wf _ _ Hh) Hps) as [HF _].
    eexists _, t, (λ t, foldl (complete_row now) t ps). split; [done|]. by apply plan_complete.
  - pose proof (plan_reschedule cap now (sat_add64 now (N.min (after / 1000000) u64_max)) keys t Hh) as Hp.
    cbn zeta in Hp. unfold file_reschedule. cbn [fo_tables].
    generalize dependent (foldl (reschedule_one (sat_add64 now (N.min (after / 1000000) u64_max)))
                            (mkResched t [] []) keys).
    intros s Hp. eexists _, (rs_tables s), (λ t1, foldl quarantine_row t1 (rs_quarantine s)).
    split; [|exact Hp]. reflexivity.
  - unfold file_quarantine. cbn [fo_tables]. eexists _, t, (λ t1, foldl quarantine_row t1 keys). split; [done|]. by apply plan_quarantine.
  - unfold file_requeue_quarantined. cbn [fo_tables]. eexists _, t, (λ t1, foldl (requeue_row now) t1 keys). split; [done|]. by apply plan_requeue.
Qed.

Lemma run_ok cap op o : outbox_ok cap o → op_ok op → outbox_ok cap (run op o).
Proof.
  intros [Hh Hcap Hj Hcl] Hop. destruct o as [d cap' t]. cbn in *. subst cap'.
  destruct (run_plan cap op t Hh Hop) as (rs & t1 & f & -> & [Hread Hmid Hfin _ Hkept Hwhole _]).
  unfold journalled. cbn [fo_device fo_capacity fo_tables].
  pose proof (append_records_journal cap rs d t (f t1) Hj Hcl Hread Hwhole) as Hj'.
  pose proof (append_records_clean rs d Hcl) as Hcl'.
  destruct (append_records rs d) as [[u|e] d']; split; try done.
  by eapply journal_of_mono.
Qed.

(** ** Compaction *)

Lemma compaction_readable cap now t : healthy cap t → Forall readable (compaction_records now t).
Proof.
  intros [Hwf Hre _]. unfold compaction_records. rewrite !Forall_app, !Forall_fmap, !Forall_forall.
  split_and!; intros [k x] Hin%elem_of_map_to_list; cbn; split; cbn [record_ascii dated]; try done.
  - apply (row_ascii t _ (Pending x)); [done..|]. by rewrite table_rows_lookup, Hin.
  - apply elem_of_dom. rewrite (since_pending _ Hwf). by eapply elem_of_dom_2.
  - rewrite (complete_lookup _ _ Hwf) in Hin.
    destruct (ft_complete_events t !! k) as [e|] eqn:He; [|done]. injection Hin as <-.
    destruct (complete_only _ _ _ Hwf He) as [Hp Hq]. cbn [fmap option_fmap option_map option_ok].
    rewrite hex_string_ascii, andb_true_r. apply (row_ascii t _ (Complete e)); [done..|].
    by rewrite table_rows_lookup, Hp, Hq, He.
  - destruct (quarantined_only _ _ _ Hwf Hin) as [Hp _]. rewrite andb_true_iff. split; [|done].
    apply (row_ascii t _ (Quarantined x)); [done..|]. by rewrite table_rows_lookup, Hp, Hin.
Qed.

Lemma forget_healthy cap ks t : healthy cap t → healthy cap (foldl forget_row t ks).
Proof.
  intros [Hwf [Rp Rq Rc] Htot]. split; [by apply forget_rows_wf| |].
  - rewrite foldl_forget_fields. split; cbn; [done..|]. intros k e.
    rewrite foldl_delete_lookup. case_bool_decide; [done|]. apply Rc.
  - etransitivity; [|exact Htot]. clear. revert t. induction ks as [|k ks IH]; intros t; [done|].
    cbn [foldl]. etransitivity; [apply IH|]. unfold total_rows. cbn.
    pose proof (map_len_delete (ft_complete t) k). lia.
Qed.

(** A compaction whose records fit leaves a journal of the new tables; one that
    fails leaves the old journal. *)
Lemma compact_journal_ok cap now d t t' :
  healthy cap t' → clean d → journal_of cap (dv_bytes d) t → Forall fits (compaction_records now t') →
  match compact_journal now (mkFileOutbox d cap t') with
  | (Ok _, o') => journal_of cap (dv_bytes (fo_device o')) t' ∧ clean (fo_device o') ∧ fo_capacity o' = cap
  | (Err _, o') => journal_of cap (dv_bytes (fo_device o')) t ∧ clean (fo_device o') ∧ fo_capacity o' = cap
  end.
Proof.
  intros Hh [Ha Hc] Hj Hfits. unfold compact_journal. cbn [fo_tables fo_device fo_capacity].
  destruct (N.ltb_spec MAX_OUTBOX_FILE_BYTES (str_len (journal_bytes (compaction_records now t'))))
    as [_|Hlen]; [done|].
  assert (journal_of cap (journal_bytes (compaction_records now t')) t') as Hj'.
  { destruct (compaction_restores cap now 0 t' Hh) as (r & Hl & Hr). exists (compaction_records now t'), r.
    split_and!; try done; [by eapply compaction_readable|].
    intros now'. rewrite <- Hl. apply replay_dated.
    eapply Forall_impl; [by eapply compaction_readable|]. by intros ? [_ ?]. }
  revert Hj'. clear Hlen Hfits. generalize (journal_bytes (compaction_records now t')). intros encoded Hj'.
  destruct (dv_compactions d) as [|io ios]; [|apply Forall_cons in Hc as [Hio Hc]; destruct io as [|b|b]];
    cbn [dv_open fo_device negb]; try destruct (dv_open d); cbn [dv_open fo_device negb]; try done.
  by destruct b.
Qed.

Lemma maintain_ok cap now retention o :
  outbox_ok cap o →
  Forall fits (compaction_records now
    (foldl forget_row (fo_tables o) (expired_rows (now - retention) (fo_tables o)))) →
  outbox_ok cap (file_maintain_outbox now retention o).2.
Proof.
  intros [Hh Hcap Hj Hcl] Hfits. destruct o as [d cap' t]. cbn in *. subst cap'.
  unfold file_maintain_outbox. cbn [fo_tables].
  destruct (expired_rows (now - retention) t) as [|k ks] eqn:Hks; [by split|].
  unfold set_tables. cbn [fo_device fo_capacity fo_tables]. rewrite <- Hks in *.
  pose proof (forget_healthy cap (expired_rows (now - retention) t) t Hh) as Hh'.
  set (t' := foldl forget_row t (expired_rows (now - retention) t)) in *.
  pose proof (compact_journal_ok cap now d t t' Hh' Hcl Hj Hfits) as Hc.
  pose proof (compact_journal_tables now (mkFileOutbox d cap t')) as Ht. cbn [fo_tables] in Ht.
  destruct (compact_journal now (mkFileOutbox d cap t')) as [[u|e] o']; destruct Hc as (Hj' & Hcl' & Hcap').
  - cbn in *. split; rewrite ?Ht; done.
  - cbn in *. by split.
Qed.

(** ** Reopening *)

Lemma restores_healthy cap r t : restores r t → healthy cap t → healthy cap r.
Proof.
  intros Hr [Hwf [Rp Rq Rc] Ht]. split; [by eapply restores_wf| |by rewrite (restores_total _ _ Hr)].
  destruct Hr as [Ep _ Ec _ Eq _ _]. split; [by rewrite Ep|by rewrite Eq|by rewrite Ec].
Qed.

Lemma open_journal cap bytes t truncates now appends compactions :
  0 < cap ≤ 1000000 → journal_of cap bytes t →
  ∃ r, open_outbox true truncates now cap bytes appends compactions
       = Ok (mkFileOutbox (mkDevice true bytes appends compactions) cap r)
       ∧ restores r t ∧ journal_of cap bytes r.
Proof.
  intros Hcap (rs & r & Hb & Hread & Hfit & Hlen & Hl & Hr). exists r. split; [|split; [done|]].
  2: { by exists rs, r. }
  unfold open_outbox. destruct (N.eqb_spec cap 0); [lia|]. destruct (N.ltb_spec 1000000 cap); [lia|].
  cbn [orb negb]. rewrite (proj2 (N.ltb_ge _ _) Hlen). rewrite Hb at 1.
  rewrite <- (string_app_nil_r (journal_bytes rs)), read_lines_journal.
  rewrite (load_outbox_journal _ _ _ _ _ _ _ _ Hread Hfit (Hl now)); [done|].
  rewrite <- Hb. assert (MAX_OUTBOX_FILE_BYTES < u64_max) as Hmax by done.
  revert Hlen Hmax. generalize MAX_OUTBOX_FILE_BYTES u64_max. lia.
Qed.

(** ** Reachable outboxes *)

(** Opened on an empty file, and then operated on, maintained and restarted, in
    any order and with any outcomes of the I/O that are [clean].  A compaction
    does not check the size of its records, so that they fit is a premise. *)
Inductive outbox_reachable (cap : N) : FileOutbox → Prop :=
  | reach_new truncates now appends compactions o :
      clean (mkDevice true EmptyString appends compactions) →
      open_outbox true truncates now cap EmptyString appends compactions = Ok o → outbox_reachable cap o
  | reach_run op o : outbox_reachable cap o → op_ok op → outbox_reachable cap (run op o)
  | reach_maintain now retention o :
      outbox_reachable cap o →
      Forall fits (compaction_records now
        (foldl forget_row (fo_tables o) (expired_rows (now - retention) (fo_tables o)))) →
      outbox_reachable cap (file_maintain_outbox now retention o).2
  | reach_restart truncates now appends compactions o o' :
      outbox_reachable cap o → clean (mkDevice true EmptyString appends compactions) →
      open_outbox true truncates now cap (dv_bytes (fo_device o)) appends compactions = Ok o' →
      outbox_reachable cap o'.

Lemma open_capacity path truncates now cap disk appends compactions o :
  open_outbox path truncates now cap disk appends compactions = Ok o → 0 < cap ≤ 1000000.
Proof.
  unfold open_outbox. destruct (N.eqb_spec cap 0); [done|]. destruct (N.ltb_spec 1000000 cap); [done|].
  intros _. lia.
Qed.

Lemma journal_of_nothing cap : journal_of cap EmptyString no_rows.
Proof. by exists [], no_rows. Qed.

Lemma reachable_ok cap o : outbox_reachable cap o → 0 < cap ≤ 1000000 ∧ outbox_ok cap o.
Proof.
  induction 1 as [truncates now appends compactions o Hcl Ho|op o _ [Hc IH] Hop|now retention o _ [Hc IH] Hf
    |truncates now appends compactions o o' _ [Hc IH] Hcl Ho].
  - pose proof (open_capacity _ _ _ _ _ _ _ _ Ho) as Hc. split; [done|].
    destruct (open_journal cap EmptyString no_rows truncates now appends compactions Hc)
      as (r & Ho' & Hr & Hj); [apply journal_of_nothing|].
    rewrite Ho in Ho'. injection Ho' as ->. split; cbn; try done.
    apply (restores_healthy _ _ _ Hr). split; [apply no_rows_wf|by split|apply N.le_0_l].
  - split; [done|]. by apply run_ok.
  - split; [done|]. by apply maintain_ok.
  - split; [done|]. destruct IH as [Hh _ Hj _].
    destruct (open_journal cap _ (fo_tables o) truncates now appends compactions Hc Hj)
      as (r & Ho' & Hr & Hj').
    rewrite Ho in Ho'. injection Ho' as ->. split; cbn; try done. by apply (restores_healthy _ _ _ Hr).
Qed.
End recovery.


(** ** A concrete outbox *)

Definition demo_payload_digest : PayloadDigest := λ _, "0123456789abcdef0123456789abcdef".

#[global] Instance demo_outbox_laws : @OutboxDepsLaws demo_deps demo_payload_digest.
Proof.
  split; [|done]. intros e _. cbn. pose proof (tree_bytes_nonempty (envelope_tree e)) as Hn.
  by destruct (tree_bytes (envelope_tree e)).
Qed.

#[global] Instance FileOutboxRecord_eq_dec : EqDecision FileOutboxRecord.
Proof. solve_decision. Defined.

(** The demonstration envelopes are strings of bits, which the codec packs. *)
Definition pack (s : string) : positive + string := match bits_pos s with Some p => inl p | None => inr s end.
Definition unpack (x : positive + string) : string := match x with inl p => pos_bits p | inr s => s end.
Lemma unpack_pack s : unpack (pack s) = s.
Proof. unfold pack. destruct (bits_pos s) eqn:E; [|done]. by apply pos_bits_bits. Qed.

#[global] Instance FileOutboxRecord_countable : Countable FileOutboxRecord.
Proof.
  refine (inj_countable'
    (λ r, match r with
          | FPending k env next att created => inl (pack env, (k, next, att, created))
          | FComplete k sha at_ env => inr (inl (pack <$> env, (k, sha, at_)))
          | FQuarantined k env why at_ => inr (inr (pack env, (k, why, at_)))
          end)
    (λ t, match t with
          | inl (env, (k, next, att, created)) => FPending k (unpack env) next att created
          | inr (inl (env, (k, sha, at_))) => FComplete k sha at_ (unpack <$> env)
          | inr (inr (env, (k, why, at_))) => FQuarantined k (unpack env) why at_
          end) _).
  intros [k env next att created|k sha at_ [env|]|k env why at_]; cbn; by rewrite ?unpack_pack.
Defined.

Definition outbox_codec : LineCodec FileOutboxRecord := bit_codec FileOutboxRecord.
Lemma outbox_codec_laws : @LineCodecLaws FileOutboxRecord outbox_codec.
Proof. apply bit_codec_laws. Qed.
Lemma outbox_codec_ascii : @AsciiLines outbox_codec.
Proof. intros rec _. cbn. by induction (encode rec). Qed.

(** The demonstration envelope under another identifier, and its request. *)
Definition identified (id : string) : EventEnvelope :=
  let e := demo_envelope in
  mkEnvelope id (timestamp e) (event_type e) (agent_id e) (run_id e) (parent_run_id e) (trace_id e)
    (scope e) (actor e) (version e) (data e) (integrity e) (schema_version e).
Definition demo_request (id : string) : IngestRequest :=
  mkIngest id "ws" "ns" "ws/ns" (@encode_to_vec demo_deps (identified id)).
Definition first_id : string := "0198c1a2-0000-7000-8000-000000000001".
Definition second_id : string := "0198c1a2-0000-7000-8000-000000000002".

Lemma demo_admitted : @from_validated_transport demo_deps (identified first_id) = Ok (demo_request first_id)
  ∧ @from_validated_transport demo_deps (identified second_id) = Ok (demo_request second_id).
Proof. split; vm_compute; reflexivity. Qed.

Section demo.
#[local] Existing Instances demo_deps demo_env demo_payload_digest outbox_codec outbox_codec_laws
  outbox_codec_ascii.

(** One event pending and one settled, with a failure in between. *)
Definition demo_new : FileOutbox :=
  mkFileOutbox (mkDevice true EmptyString [AppendOk; AppendWriteFails 0] []) 10 no_rows.
Definition demo_one : FileOutbox := run (OpEnqueue 1000 (demo_request first_id)) demo_new.
Definition demo_outbox : FileOutbox :=
  run (OpComplete 4000 (key_of (demo_request first_id)))
    (run (OpEnqueue 3000 (demo_request second_id)) (run (OpEnqueue 2000 (demo_request second_id)) demo_one)).

Lemma demo_one_reachable : outbox_reachable 10 demo_one.
Proof.
  apply reach_run; [|by exists (identified first_id); apply demo_admitted].
  apply (reach_new 10 true 0 [AppendOk; AppendWriteFails 0] []); [|reflexivity].
  split; repeat constructor.
Qed.

Lemma demo_outbox_reachable : outbox_reachable 10 demo_outbox.
Proof.
  assert (op_ok (OpEnqueue 2000 (demo_request second_id)) ∧ op_ok (OpEnqueue 3000 (demo_request second_id)))
    as [H2 H3] by (split; exists (identified second_id); apply demo_admitted).
  do 3 (apply reach_run; [|done]). apply demo_one_reachable.
Qed.

End demo.
