(* ===== verification/OutboxCrash.v ===== *)
(** * The file outbox survives crashes

    An append that is cut short by a crash leaves each row as it was or as the
    operation would have made it, once the file is reopened.  The recovery has
    a gap, which is proved as well: an append that fails half way in a process
    that goes on takes the next acknowledged record with it. *)
From S2P Require Import Prelude RustStr Digits Time Journal Errors Convert Domain Codecs Admission Envelope Outbox OutboxLaws OutboxFile OutboxFileLaws OutboxReplay OutboxRecovery.

Open Scope N_scope.

(** The outbox with the outcomes of the appends to come replaced. *)
Definition scripted (appends : list AppendIo) (o : FileOutbox) : FileOutbox :=
  mkFileOutbox (mkDevice (dv_open (fo_device o)) (dv_bytes (fo_device o)) appends
                  (dv_compactions (fo_device o))) (fo_capacity o) (fo_tables o).

Section crash.
Context `{DomainDeps, EnvelopeDeps, PayloadDigest, !EnvelopeLaws, !OutboxDepsLaws}.
Context `{LineCodec FileOutboxRecord, !LineCodecLaws FileOutboxRecord, !AsciiLines}.
Implicit Types (t r : Tables) (o : FileOutbox) (rs : list FileOutboxRecord).

(** An append that fails after [n] bytes: it wrote nothing, or a part of what
    the append would have written. *)
Lemma append_records_torn n rs opened bytes compactions :
  let d appends := mkDevice opened bytes appends compactions in
  dv_bytes (append_records rs (d [AppendWriteFails n])).2 = bytes
  ∨ dv_bytes (append_records rs (d [AppendWriteFails n])).2 = bytes +:+ str_take n (journal_bytes rs)
    ∧ (append_records rs (d [])).1 = Ok tt ∧ Forall fits rs
    ∧ str_len bytes + str_len (journal_bytes rs) ≤ MAX_OUTBOX_FILE_BYTES.
Proof.
  cbn zeta. unfold append_records. destruct rs as [|rec rs']; [by left|].
  pose proof (encode_batch_spec (rec :: rs') EmptyString) as Henc. set (rs := rec :: rs') in *.
  destruct (encode_batch rs EmptyString) as [encoded|e]; [|by left]. destruct Henc as [Henc HF].
  change (EmptyString +:+ journal_bytes rs) with (journal_bytes rs) in Henc. subst encoded.
  cbn [dv_open dv_bytes dv_appends dv_compactions]. destruct opened; cbn [negb]; [|by left].
  pose proof (not_full (str_len bytes) (str_len (journal_bytes rs))) as Hfull. revert Hfull.
  generalize (MAX_OUTBOX_FILE_BYTES <? sat_add64 (str_len bytes) (str_len (journal_bytes rs))).
  generalize (str_len bytes + str_len (journal_bytes rs) ≤ MAX_OUTBOX_FILE_BYTES).
  intros bounded [] Hfull; [by left|]. right. cbn [dv_bytes fst]. auto.
Qed.

(** Reading a line without its line break. *)
Lemma read_lines_last (line : string) :
  str_all (λ c, negb (ascii_eqb c nl)) line = true → line ≠ EmptyString → read_lines line = [line].
Proof.
  intros Hn Hne. unfold read_lines. rewrite split_nl_no_newline by done. by destruct line.
Qed.

(** Loading a journal whose last append was cut short: the whole records are
    replayed, then one that only lacks its line break; a fragment is cut off. *)
Lemma load_torn_journal cap now rs next tail t r0 :
  rs ≠ [] → Forall readable rs → Forall fits rs → Forall readable next → Forall fits next →
  torn_tail next tail → str_len (journal_bytes rs) ≤ u64_max → replay_journal cap now rs t = Ok r0 →
  let loaded := load_loop cap now (read_lines (journal_bytes rs +:+ tail)) 0 false t in
  loaded = Ok (r0, None) ∧ tail = EmptyString
  ∨ (∃ rec rest, next = rec :: rest ∧ loaded = (r ← load_step cap now rec r0; Ok (r, None)))
  ∨ loaded = Ok (r0, Some (str_len (journal_bytes rs))).
Proof.
  intros Hne Hread Hfit Hread' Hfit' Htail Hlen Hl. cbn zeta. rewrite read_lines_journal.
  rewrite (load_outbox_journal _ _ _ _ _ _ _ _ Hread Hfit Hl), N.add_0_l by (by rewrite N.add_0_l).
  rewrite (bool_decide_true (rs ≠ [])) by done. cbn [orb].
  destruct Htail as [->|[(rec & rest & -> & ->)|(Hd & Hn & Hne' & rec & rest & q & -> & Hq)]]; [by left|..];
    right; apply Forall_cons in Hread' as [[Ha _] _], Hfit' as [Hf _];
    apply encode_line_ascii in Ha; unfold fits in Hf; rewrite record_bytes_len in Hf.
  - left. exists rec, rest. split; [done|]. rewrite read_lines_last; [|apply encode_line_no_nl|].
    2: { pose proof (encode_line_nonempty rec) as Hx. by intros E; rewrite E in Hx. }
    cbn [load_loop]. rewrite ascii_utf8 by done. cbn [negb].
    rewrite encode_line_nonempty, (proj2 (N.ltb_ge _ _)), decode_encode_line by lia. done.
  - right. rewrite read_lines_last by done. rewrite Hq, str_all_app in Ha. apply andb_true_iff in Ha as [Ha _].
    rewrite Hq, str_len_app in Hf. cbn [load_loop]. rewrite ascii_utf8 by done. cbn [negb].
    rewrite (proj2 (N.ltb_ge _ _)), Hd by lia. by destruct tail.
Qed.

(** Reopening after a torn append: rows of before and of after. *)
Lemma open_torn cap now bytes t rs t1 t2 n :
  0 < cap ≤ 1000000 → journal_of cap bytes t → bytes ≠ EmptyString →
  plan cap t rs t1 t2 → Forall fits rs →
  str_len bytes + str_len (journal_bytes rs) ≤ MAX_OUTBOX_FILE_BYTES →
  ∃ o', open_outbox true true now cap (bytes +:+ str_take n (journal_bytes rs)) [] [] = Ok o'
        ∧ between t t2 (fo_tables o').
Proof.
  intros Hcap (rs0 & r0 & Hb & Hread & Hfit & Hlen & Hl & Hr) Hne Hplan Hfits Hmax.
  destruct (str_take_journal n rs) as (d & next & tail & -> & Htk & Htail).
  pose proof (pl_readable _ _ _ _ _ Hplan) as Hread'. apply Forall_app in Hread' as [Hrd Hrn], Hfits as [Hfd Hfn].
  rewrite Htk, Hb, <- string_app_assoc, <- journal_bytes_app.
  assert (str_len (journal_bytes (rs0 ++ d) +:+ tail) ≤ MAX_OUTBOX_FILE_BYTES) as Hsize.
  { rewrite journal_bytes_app, string_app_assoc, <- Htk, <- Hb, str_len_app.
    etransitivity; [|exact Hmax]. apply N.add_le_mono_l. destruct (str_take_app n (journal_bytes (d ++ next))) as [q Hq].
    rewrite Hq at 2. rewrite str_len_app. apply N.le_add_r. }
  destruct (pl_part _ _ _ _ _ Hplan now (length d) r0 Hr) as (r1 & Hl1 & Hb1). rewrite take_app_length in Hl1.
  assert (replay_journal cap now (rs0 ++ d) no_rows = Ok r1) as Hl01 by (rewrite replay_journal_app, Hl; exact Hl1).
  destruct (load_torn_journal cap now (rs0 ++ d) next tail no_rows r1) as [[Hx _]|[(rec & rest & -> & Hx)|Hx]];
    try done; try (by apply Forall_app).
  { intros [-> ->]%app_eq_nil. by apply Hne. }
  { etransitivity; [|exact (N.lt_le_incl MAX_OUTBOX_FILE_BYTES u64_max eq_refl)].
    etransitivity; [|exact Hsize]. rewrite str_len_app. apply N.le_add_r. }
  all: unfold open_outbox; destruct (N.eqb_spec cap 0); [lia|]; destruct (N.ltb_spec 1000000 cap); [lia|];
    cbn [orb negb]; rewrite (proj2 (N.ltb_ge _ _) Hsize), Hx.
  - by eexists.
  - destruct (pl_part _ _ _ _ _ Hplan now (length d + 1) r0 Hr) as (r2 & Hl2 & Hb2).
    rewrite take_app_add, firstn_cons, take_0, replay_journal_app, Hl1 in Hl2.
    cbn [mbind result_bind replay_journal] in Hl2 |- *.
    destruct (load_step cap now rec r1) as [r2'|e]; [|done]. cbn in Hl2. injection Hl2 as ->. by eexists.
  - by eexists.
Qed.

(** ** The next record after a failed append *)

Lemma unfiled_rows t k : tables_wf t → table_rows t !! k = None → unfiled t k.
Proof.
  intros Hwf. rewrite table_rows_lookup. unfold unfiled. rewrite (complete_lookup _ _ Hwf), fmap_None.
  by destruct (ft_pending t !! k), (ft_quarantined t !! k), (ft_complete_events t !! k).
Qed.

(** The record of an event that is enqueued. *)
Definition enqueued_record (now : N) (e : IngestRequest) : FileOutboxRecord :=
  FPending (key_of e) (ir_envelope e) None None (Some now).

Lemma enqueue_unfiled now e d cap t :
  unfiled t (key_of e) → total_rows t < cap →
  file_enqueue now e (mkFileOutbox d cap t)
  = journalled [enqueued_record now e] Enqueued (enqueue_row now e) (mkFileOutbox d cap t).
Proof.
  intros (Hc & Hq & Hp) Hcap. unfold file_enqueue. cbn [fo_tables fo_capacity]. rewrite Hc, Hq, Hp.
  by rewrite (proj2 (N.leb_gt _ _) Hcap).
Qed.

Lemma append_one rec bytes appends compactions :
  fits rec → str_len bytes + str_len (record_bytes rec) ≤ MAX_OUTBOX_FILE_BYTES →
  append_records [rec] (mkDevice true bytes appends compactions)
  = match appends with
    | [] => (Ok tt, mkDevice true (bytes +:+ record_bytes rec) [] compactions)
    | AppendMetadataFails :: ios => (Err GInvalidOutboxConfiguration, mkDevice true bytes ios compactions)
    | AppendWriteFails n :: ios =>
        (Err GInternal, mkDevice true (bytes +:+ str_take n (record_bytes rec)) ios compactions)
    | AppendOk :: ios => (Ok tt, mkDevice true (bytes +:+ record_bytes rec) ios compactions)
    end.
Proof.
  intros Hf Hmax. unfold append_records. cbn [encode_batch]. rewrite (proj2 (N.ltb_ge _ _) Hf).
  change (EmptyString +:+ record_bytes rec) with (record_bytes rec).
  cbn [dv_open dv_bytes dv_appends dv_compactions negb].
  assert ((MAX_OUTBOX_FILE_BYTES <? sat_add64 (str_len bytes) (str_len (record_bytes rec))) = false) as ->.
  { apply N.ltb_ge. unfold sat_add64. lia. }
  by destruct appends as [|[] ios].
Qed.

(** A journal followed by one line that is no record loses that line. *)
Lemma open_glued cap now bytes t line :
  0 < cap ≤ 1000000 → journal_of cap bytes t → bytes ≠ EmptyString →
  str_all is_ascii line = true → str_all (λ c, negb (ascii_eqb c nl) && negb (ascii_eqb c cr)) line = true →
  line ≠ EmptyString → decode_line line = None → str_len line ≤ MAX_OUTBOX_RECORD_BYTES →
  str_len bytes + str_len line + 1 ≤ MAX_OUTBOX_FILE_BYTES →
  ∃ o', open_outbox true true now cap (bytes +:+ line +:+ newline) [] [] = Ok o'
        ∧ restores (fo_tables o') t.
Proof.
  intros Hcap (rs & r & Hb & Hread & Hfit & Hlen & Hl & Hr) Hne Ha Hplain Hline Hd Hsize Hmax.
  assert (read_lines (line +:+ newline) = [line]) as Hrl.
  { unfold read_lines. rewrite <- (string_app_nil_r newline), split_nl_line.
    - cbn. rewrite strip_cr_plain; [done|]. eapply str_all_impl; [|exact Hplain]. by intros c [_ ?]%andb_true_iff.
    - eapply str_all_impl; [|exact Hplain]. by intros c [? _]%andb_true_iff. }
  unfold open_outbox. destruct (N.eqb_spec cap 0); [lia|]. destruct (N.ltb_spec 1000000 cap); [lia|].
  cbn [orb negb]. rewrite !str_len_app. change (str_len newline) with 1.
  rewrite N.add_assoc, (proj2 (N.ltb_ge _ _) Hmax).
  subst bytes. rewrite read_lines_journal, Hrl.
  rewrite (load_outbox_journal _ _ _ _ _ _ _ _ Hread Hfit (Hl now)), N.add_0_l.
  2: { rewrite N.add_0_l. etransitivity; [exact Hlen|].
       exact (N.lt_le_incl MAX_OUTBOX_FILE_BYTES u64_max eq_refl). }
  rewrite bool_decide_true by (intros ->; by apply Hne). cbn [load_loop orb].
  rewrite ascii_utf8, (proj2 (N.ltb_ge _ _) Hsize), Hd by done. destruct line; [done|]. cbn. by eexists.
Qed.
End crash.

(** C27. A crash in the middle of a write loses nothing that was there before
    and invents nothing.  Take an outbox with at least one record on disk that
    [outbox_reachable] allows, that is, whose file no earlier failed append has
    left a fragment in (a fragment can cost a later event) and whose compactions
    wrote no record longer than [MAX_OUTBOX_RECORD_BYTES].  Let the process die
    while any of the operations that write is appending its records, after any
    number of bytes, and start it again with truncation of a torn tail allowed.
    The file can be reopened, and each row is then as it was before the
    operation or as the operation would have made it. *)
Theorem outbox_crash_recovers `{DomainDeps, EnvelopeDeps, PayloadDigest, !EnvelopeLaws, !OutboxDepsLaws,
    LineCodec FileOutboxRecord, !LineCodecLaws FileOutboxRecord, !AsciiLines}
    (cap now : N) (op : Op) (n : nat) (o : FileOutbox) :
  outbox_reachable cap o → dv_bytes (fo_device o) ≠ EmptyString → op_ok op →
  ∃ o', open_outbox true true now cap
          (dv_bytes (fo_device (run op (scripted [AppendWriteFails n] o)))) [] [] = Ok o'
        ∧ ∀ k, rows o' !! k = rows o !! k ∨ rows o' !! k = rows (run op (scripted [] o)) !! k.
Proof.
  intros [Hc [Hh Hcap Hj _]]%reachable_ok Hne Hop. destruct o as [[opened bytes appends compactions] cap' t].
  unfold scripted. cbn in *. subst cap'.
  destruct (run_plan cap op t Hh Hop) as (rs & t1 & f & Hrun & Hplan). rewrite !Hrun. unfold journalled.
  cbn [fo_device fo_capacity fo_tables].
  destruct (append_records_torn n rs opened bytes compactions) as [Hx|(Hx & Hok & Hfits & Hmax)].
  - destruct (append_records rs (mkDevice opened bytes [AppendWriteFails n] compactions)) as [[u|e] d1];
      cbn [snd fo_device dv_bytes] in Hx |- *; rewrite Hx;
      destruct (open_journal cap bytes t true now [] [] Hc Hj) as (r & -> & Hr & _); eexists; (split; [done|]);
      intros k; left; cbn; by rewrite (restores_rows _ _ Hr).
  - destruct (open_torn cap now bytes t rs t1 (f t1) n Hc Hj Hne Hplan Hfits Hmax) as (o' & Ho & Hb).
    destruct (append_records rs (mkDevice opened bytes [] compactions)) as [[u|e] d2]; [|done].
    destruct (append_records rs (mkDevice opened bytes [AppendWriteFails n] compactions)) as [[u1|e] d1];
      cbn [snd fo_device dv_bytes] in Hx |- *; rewrite Hx, Ho; eexists; (split; [done|]); exact Hb.
Qed.

(** C37. An acknowledged event can be lost.  An enqueue fails after some bytes of
    its record reached the file (a full disk, say), and the process goes on.
    The next enqueue succeeds and is acknowledged, but its record is glued to
    the fragment before it.  At the next restart the line is taken for a torn
    write and cut off, and the event is gone, although the comment at
    the recovery says that such a line was never acknowledged. *)
Theorem acknowledged_event_lost `{DomainDeps, EnvelopeDeps, PayloadDigest, !EnvelopeLaws, !OutboxDepsLaws,
    LineCodec FileOutboxRecord, !LineCodecLaws FileOutboxRecord, !AsciiLines}
    (cap now1 now2 now3 : N) (e1 e2 : IngestRequest) (n : nat) (o : FileOutbox) :
  let record1 := enqueued_record now1 e1 in
  let record2 := enqueued_record now2 e2 in
  let glued := str_take n (encode_line record1) +:+ encode_line record2 in
  let size := str_len (dv_bytes (fo_device o)) in
  outbox_reachable cap o → dv_open (fo_device o) = true → dv_bytes (fo_device o) ≠ EmptyString →
  op_ok (OpEnqueue now1 e1) → op_ok (OpEnqueue now2 e2) →
  rows o !! key_of e1 = None → rows o !! key_of e2 = None → total_rows (fo_tables o) < cap →
  fits record1 → fits record2 → str_len glued ≤ MAX_OUTBOX_RECORD_BYTES →
  size + str_len (record_bytes record1) ≤ MAX_OUTBOX_FILE_BYTES →
  size + str_len glued + 1 ≤ MAX_OUTBOX_FILE_BYTES →
  (n ≤ String.length (encode_line record1))%nat → decode_line glued = None →
  let failed := (file_enqueue now1 e1 (scripted [AppendWriteFails n] o)).2 in
  let after := (file_enqueue now2 e2 failed).2 in
  (file_enqueue now2 e2 failed).1 = Ok Enqueued
  ∧ rows after !! key_of e2 = Some (Pending e2)
  ∧ ∃ o', open_outbox true true now3 cap (dv_bytes (fo_device after)) [] [] = Ok o'
          ∧ rows o' !! key_of e2 = None.
Proof.
  cbn zeta. destruct o as [[opened bytes appends compactions] cap' t]. unfold scripted.
  cbn [fo_device fo_capacity fo_tables dv_open dv_bytes dv_compactions].
  intros [Hc [Hh Hcap Hj _]]%reachable_ok Hopen Hne [env1 He1] [env2 He2] Hr1 Hr2 Htot Hf1 Hf2 Hg Hm1 Hm2 Hn Hd.
  cbn in Hh, Hcap, Hj, Hopen, Hne, Hr1, Hr2. subst cap' opened.
  pose proof (unfiled_rows t _ (he_wf _ _ Hh) Hr1) as Hu1. pose proof (unfiled_rows t _ (he_wf _ _ Hh) Hr2) as Hu2.
  rewrite enqueue_unfiled by done. unfold journalled. cbn [fo_device fo_capacity fo_tables].
  rewrite append_one by done. cbn [snd]. unfold record_bytes. rewrite str_take_prefix by done.
  rewrite enqueue_unfiled by done. unfold journalled. cbn [fo_device fo_capacity fo_tables].
  rewrite append_one; [|done|].
  2: { rewrite str_len_app, record_bytes_len. rewrite str_len_app in Hm2. lia. }
  cbn [fst snd fo_device dv_bytes fo_tables]. split; [done|]. split.
  { cbn. rewrite table_rows_lookup. cbn. by rewrite lookup_insert_eq. }
  unfold record_bytes. rewrite string_app_assoc, <- (string_app_assoc _ _ newline).
  destruct (open_glued cap now3 bytes t (str_take n (encode_line (enqueued_record now1 e1))
              +:+ encode_line (enqueued_record now2 e2))) as (o' & Ho & Hr); try done.
  - rewrite str_all_app, andb_true_iff. split; [apply str_take_all|]; apply encode_line_ascii; cbn;
      by eapply rl_ascii, admitted_reloads.
  - rewrite str_all_app, andb_true_iff. split; [apply str_take_all|]; apply encode_line_plain.
  - pose proof (encode_line_nonempty (enqueued_record now2 e2)) as Hx.
    by destruct (str_take n _), (encode_line (enqueued_record now2 e2)).
  - exists o'. split; [exact Ho|]. cbn. by rewrite (restores_rows _ _ Hr).
Qed.

Section demo.
#[local] Existing Instances demo_deps demo_env demo_payload_digest outbox_codec outbox_codec_laws
  outbox_codec_ascii.

Lemma nonempty (s : string) : str_is_empty s = false → s ≠ EmptyString.
Proof. by intros Hs ->. Qed.

Lemma demo_one_bytes : dv_bytes (fo_device demo_one) ≠ EmptyString.
Proof. apply nonempty. vm_compute. reflexivity. Qed.

Lemma demo_op_ok now : op_ok (OpEnqueue now (demo_request second_id)).
Proof. exists (identified second_id). apply demo_admitted. Qed.

Example outbox_crash_recovers_witness :
  ∃ o', open_outbox true true 9000 10
          (dv_bytes (fo_device (run (OpEnqueue 5000 (demo_request second_id))
                                  (scripted [AppendWriteFails 70] demo_one)))) [] [] = Ok o'
        ∧ ∀ k, rows o' !! k = rows demo_one !! k
               ∨ rows o' !! k = rows (run (OpEnqueue 5000 (demo_request second_id)) (scripted [] demo_one)) !! k.
Proof.
  apply (outbox_crash_recovers 10 9000 (OpEnqueue 5000 (demo_request second_id)) 70 demo_one);
    [apply demo_one_reachable|apply demo_one_bytes|apply demo_op_ok].
Defined.

(** The second event is enqueued once in vain, all but the line break of its
    record being written, and then again. *)
Definition demo_lost : IngestRequest := demo_request second_id.
Definition demo_lost_bits : nat := String.length (encode_line (enqueued_record 5000 demo_lost)).

Lemma demo_lost_sizes :
  let glued := str_take demo_lost_bits (encode_line (enqueued_record 5000 demo_lost))
               +:+ encode_line (enqueued_record 6000 demo_lost) in
  let size := str_len (dv_bytes (fo_device demo_one)) in
  fits (enqueued_record 5000 demo_lost) ∧ fits (enqueued_record 6000 demo_lost)
  ∧ str_len glued ≤ MAX_OUTBOX_RECORD_BYTES
  ∧ size + str_len (record_bytes (enqueued_record 5000 demo_lost)) ≤ MAX_OUTBOX_FILE_BYTES
  ∧ size + str_len glued + 1 ≤ MAX_OUTBOX_FILE_BYTES.
Proof. cbn zeta. unfold fits. split_and!; apply N.leb_le; vm_compute; reflexivity. Qed.

Lemma demo_one_row : rows demo_one !! key_of demo_lost = None ∧ total_rows (fo_tables demo_one) < 10
  ∧ dv_open (fo_device demo_one) = true.
Proof. split_and!; vm_compute; reflexivity. Qed.


Lemma demo_lost_glued :
  decode_line (str_take demo_lost_bits (encode_line (enqueued_record 5000 demo_lost))
               +:+ encode_line (enqueued_record 6000 demo_lost)) = (None : option FileOutboxRecord).
Proof.
  unfold demo_lost_bits. rewrite str_take_whole. cbn [decode_line encode_line outbox_codec bit_codec].
  rewrite bits_pos_glued; [done|]. by destruct (encode (enqueued_record 6000 demo_lost)).
Qed.

Example acknowledged_event_lost_witness :
  let failed := (file_enqueue 5000 demo_lost (scripted [AppendWriteFails demo_lost_bits] demo_one)).2 in
  let after := (file_enqueue 6000 demo_lost failed).2 in
  (file_enqueue 6000 demo_lost failed).1 = Ok Enqueued
  ∧ rows after !! key_of demo_lost = Some (Pending demo_lost)
  ∧ ∃ o', open_outbox true true 9000 10 (dv_bytes (fo_device after)) [] [] = Ok o'
          ∧ rows o' !! key_of demo_lost = None.
Proof.
  destruct demo_lost_sizes as (H1 & H2 & H3 & H4 & H5). destruct demo_one_row as (Hrow & Htot & Hopen).
  apply (acknowledged_event_lost 10 5000 6000 9000 demo_lost demo_lost demo_lost_bits demo_one);
    [apply demo_one_reachable|exact Hopen|apply demo_one_bytes|apply demo_op_ok|apply demo_op_ok
    |exact Hrow|exact Hrow|exact Htot|exact H1|exact H2|exact H3|exact H4|exact H5|reflexivity
    |apply demo_lost_glued].
Defined.
End demo.
