(* ===== verification/Replay.v ===== *)
(** * The fanout worker

    [apps/control-plane-api/src/replay.rs]: one iteration of the loop of
    [spawn_fanout_worker_with_metrics_and_shutdown], over any outbox that meets
    the contract of Outbox.  The publisher is a parameter (the primary trace),
    as is SHA-256; clock readings are arguments. *)
From Stdlib Require Import Ascii.
From S2P Require Import Prelude RustStr Errors Backend Domain Outbox OutboxLaws.

Open Scope N_scope.

(** ** Submitting through the backend *)

(** The [??] of the backend's methods. *)
Definition flatten_lock {A} (r : result CommandError (result GatewayErrorCode A))
    : result CommandError A :=
  r ≫= map_err from_gateway_error.

Record SubmitOutcome := mkSubmitOutcome { so_duplicate : bool; so_delivered : bool }.

(** [submit_outcome]. *)
Definition submit_outcome (r : EnqueueResult) : SubmitOutcome :=
  match r with
  | Enqueued => mkSubmitOutcome false false
  | AlreadyPending => mkSubmitOutcome true false
  | AlreadyComplete => mkSubmitOutcome true true
  end.

(** [submit_command]. *)
Definition submit_command {O} `{EventOutbox O} (now : N) (request : IngestRequest)
    : ST (Backend O) CommandError SubmitOutcome := λ b,
  let '(r, b') := with_lock (enqueue now request) b in
  (submit_outcome <$> flatten_lock r, b').

Section submit.
Context {O : Type} `{OutboxLaws O}.

(** A submission adds the row, or finds it there, or fails and changes
    nothing. *)
Lemma submit_command_rows (now : N) (r : IngestRequest) (o : O) :
  outbox_wf o → ∃ o', (submit_command now r (single o)).2 = single o' ∧ outbox_wf o'
    ∧ (rows o' = rows o ∨ rows o !! key_of r = None
                          ∧ rows o' = <[key_of r := Pending r]> (rows o))
    ∧ ∀ out, (submit_command now r (single o)).1 = Ok out →
        is_Some (rows o' !! key_of r)
        ∧ (so_duplicate out = false → rows o !! key_of r = None
                                      ∧ rows o' !! key_of r = Some (Pending r)).
Proof.
  intros Hwf. unfold submit_command. rewrite with_lock_single.
  pose proof (enqueue_law now r o Hwf) as Hlaw. pose proof (enqueue_wf now r o Hwf) as Hwf'.
  destruct (enqueue now r o) as [res o']. cbn [fst snd] in *. exists o'. split; [done|].
  split; [done|]. destruct (rows o !! key_of r) as [[e|e|e]|] eqn:Hr.
  1-3: destruct Hlaw as [Hrows Hres]; rewrite Hrows; split; [by left|]; intros out Hout;
       (split; [by rewrite Hr|]); intros Hdup; exfalso;
       try (destruct Hres as [Hres|[Hres _]]); rewrite Hres in Hout;
       try (destruct (String.eqb _ _); [|done]); cbn in Hout; by simplify_eq.
  destruct res as [q|e]; [|split; [by left|done]].
  destruct Hlaw as [-> ->]. split; [by right|]. rewrite lookup_insert_eq. intros out _. by split.
Qed.
End submit.

(** ** The worker *)

Definition FANOUT_BATCH_SIZE : N := 256.
Definition MIN_RETRY_DELAY : N := from_secs 5.
Definition MAX_RETRY_DELAY : N := from_secs 60.
Definition MAX_REPLAY_ATTEMPTS : N := 8.

(** The first two bytes of SHA-256, as a 16-bit number. *)
Class JitterDigest := digest_u16 : string → N.

(** [retry_delay]. *)
Definition retry_delay `{JitterDigest} (key : OutboxKey) (attempts : N) : N :=
  let multiplier := N.shiftl 1 (N.min attempts 4) in
  let base := N.min (MIN_RETRY_DELAY * multiplier) MAX_RETRY_DELAY in
  let zero := String "000"%char EmptyString in
  let input := ok_workspace_id key +:+ zero +:+ ok_namespace_id key +:+ zero +:+ ok_event_id key in
  base + from_millis (digest_u16 input mod 1000).

(** [GatewayRuntimeMetrics], the counters this loop writes. *)
Record Metrics := mkMetrics {
  storage_healthy : bool;
  fanout_healthy : bool;
  outbox_read_failures : N;
  outbox_write_failures : N;
  fanout_successes : N;
  fanout_failures : N;
  quarantined_rows : N;
}.

Definition metrics_read_ok (m : Metrics) : Metrics :=
  mkMetrics true (fanout_healthy m) (outbox_read_failures m) (outbox_write_failures m)
    (fanout_successes m) (fanout_failures m) (quarantined_rows m).
Definition metrics_read_failed (m : Metrics) : Metrics :=
  mkMetrics false false (outbox_read_failures m + 1) (outbox_write_failures m)
    (fanout_successes m) (fanout_failures m) (quarantined_rows m).
Definition metrics_published (m : Metrics) : Metrics :=
  mkMetrics (storage_healthy m) true (outbox_read_failures m) (outbox_write_failures m)
    (fanout_successes m + 1) (fanout_failures m) (quarantined_rows m).
Definition metrics_not_published (m : Metrics) : Metrics :=
  mkMetrics (storage_healthy m) false (outbox_read_failures m) (outbox_write_failures m)
    (fanout_successes m) (fanout_failures m + 1) (quarantined_rows m).
Definition metrics_write_failed (m : Metrics) : Metrics :=
  mkMetrics false (fanout_healthy m) (outbox_read_failures m) (outbox_write_failures m + 1)
    (fanout_successes m) (fanout_failures m) (quarantined_rows m).
Definition metrics_storage_down (m : Metrics) : Metrics :=
  mkMetrics false (fanout_healthy m) (outbox_read_failures m) (outbox_write_failures m)
    (fanout_successes m) (fanout_failures m) (quarantined_rows m).
Definition metrics_quarantined (n : N) (m : Metrics) : Metrics :=
  mkMetrics (storage_healthy m) (fanout_healthy m) (outbox_read_failures m)
    (outbox_write_failures m) (fanout_successes m) (fanout_failures m) (quarantined_rows m + n).

(** What [catch_unwind(publish)] yields: the event is durable downstream, or an
    error, or a panic. *)
Inductive PublishResult := Published | PublishFailed (e : GatewayErrorCode) | PublishPanicked.

Definition is_published (r : PublishResult) : bool :=
  match r with Published => true | _ => false end.

Section worker.
Context {O P : Type} `{EventOutbox O, JitterDigest}.
Variable publish : IngestRequest → P → PublishResult * P.

(** The state of the loop. *)
Record Worker := mkWorker {
  w_backend : Backend O;
  w_publisher : P;
  w_failures : gmap OutboxKey N;
  w_not_before : gmap OutboxKey N;
  w_metrics : option Metrics;
  w_draining : bool;
  w_wait_for_tick : bool;
}.

(** The publishing loop: the result of each event, in order. *)
Fixpoint publish_all (events : list IngestRequest) (p : P)
    : list (IngestRequest * PublishResult) * P :=
  match events with
  | [] => ([], p)
  | e :: events =>
      let '(r, p1) := publish e p in
      let '(rs, p2) := publish_all events p1 in
      ((e, r) :: rs, p2)
  end.

Definition published_keys (rs : list (IngestRequest * PublishResult)) : list OutboxKey :=
  map (λ er, key_of er.1) (filter (λ er, is_published er.2 = true) rs).
Definition failed_keys (rs : list (IngestRequest * PublishResult)) : list OutboxKey :=
  map (λ er, key_of er.1) (filter (λ er, is_published er.2 = false) rs).
Definition publish_metrics (rs : list (IngestRequest * PublishResult)) (m : Metrics) : Metrics :=
  foldl (λ m er, if is_published er.2 then metrics_published m else metrics_not_published m) m rs.

(** Settles the published rows: the keys that remain failed, and whether the
    lock was obtained.  The operation's own result is not looked at. *)
Definition settle (now : N) (completed : list OutboxKey) (b : Backend O) : bool * Backend O :=
  let '(r, b') := with_lock (mark_complete_many now completed) b in (is_ok r, b').

(** The failure loop: each failed key is counted, and either scheduled or
    listed for quarantine; [later] is the clock when the key is scheduled. *)
Record Retry := mkRetry {
  r_failures : gmap OutboxKey N;
  r_not_before : gmap OutboxKey N;
  r_groups : gmap N (list OutboxKey);
  r_quarantine : list OutboxKey;
}.

Definition retry_one (later : OutboxKey → N) (r : Retry) (key : OutboxKey) : Retry :=
  let attempts := sat_add32 (default 0 (r_failures r !! key)) 1 in
  let failures := <[key := attempts]> (r_failures r) in
  if MAX_REPLAY_ATTEMPTS <=? attempts
  then mkRetry failures (r_not_before r) (r_groups r) (r_quarantine r ++ [key])
  else
    let delay := retry_delay key attempts in
    mkRetry failures (<[key := later key + delay]> (r_not_before r))
      (<[delay := default [] (r_groups r !! delay) ++ [key]]> (r_groups r)) (r_quarantine r).

(** The reschedule loop over the groups, in the map's order. *)
Fixpoint reschedule_groups (now : N) (groups : list (N * list OutboxKey)) (b : Backend O)
    (m : option Metrics) : Backend O * option Metrics :=
  match groups with
  | [] => (b, m)
  | (delay, keys) :: groups =>
      let '(r, b1) := with_lock (reschedule now keys delay) b in
      reschedule_groups now groups b1
        (if is_ok (flatten_lock r) then m else metrics_write_failed <$> m)
  end.

(** One iteration, after the wait: [now] and [now_millis] are the clocks, and
    [shutdown] whether a shutdown has been requested.  The second component is
    what was published, the third whether the loop ends. *)
Definition fanout_cycle (now now_millis : N) (later : OutboxKey → N) (shutdown : bool) (w : Worker)
    : Worker * list (IngestRequest * PublishResult) * bool :=
  let '(r, b1) := with_lock (pending_batch now_millis FANOUT_BATCH_SIZE) (w_backend w) in
  match r with
  | Err _ | Ok (Err _) =>
      (mkWorker b1 (w_publisher w) (w_failures w) (w_not_before w)
         (metrics_read_failed <$> w_metrics w) (w_draining w) true, [], w_draining w)
  | Ok (Ok batch) =>
      let m1 := metrics_read_ok <$> w_metrics w in
      let pending :=
        filter (λ e, default 0 (w_not_before w !! key_of e) ≤ now) batch in
      match pending with
      | [] =>
          (mkWorker b1 (w_publisher w) (w_failures w) (w_not_before w) m1 (w_draining w) true, [],
           w_draining w)
      | _ =>
          let draining := w_draining w || shutdown in
          let was_full_batch := len pending =? FANOUT_BATCH_SIZE in
          let '(rs, p) := publish_all pending (w_publisher w) in
          let m2 := publish_metrics rs <$> m1 in
          let completed := published_keys rs in
          let failed := failed_keys rs in
          let '(settled, b2) :=
            match completed with [] => (true, b1) | _ => settle now_millis completed b1 end in
          let m3 := if settled then m2 else metrics_write_failed <$> m2 in
          let failed := if settled then failed else failed ++ completed in
          let forget m := if settled then foldl (λ m k, delete k m) m completed else m in
          let failures1 := forget (w_failures w) in
          let not_before1 := forget (w_not_before w) in
          match failed with
          | [] =>
              (mkWorker b2 p failures1 not_before1 m3 draining (negb was_full_batch), rs, draining)
          | _ =>
              let retry := foldl (retry_one later) (mkRetry failures1 not_before1 ∅ []) failed in
              let '(b3, m4) :=
                reschedule_groups now_millis (map_to_list (r_groups retry)) b2 m3 in
              let quarantined := r_quarantine retry in
              match quarantined with
              | [] =>
                  (mkWorker b3 p (r_failures retry) (r_not_before retry) m4 draining true, rs,
                   draining)
              | _ =>
                  let '(r, b4) := with_lock
                    (quarantine now_millis "replay_attempts_exhausted" quarantined) b3 in
                  if is_ok (flatten_lock r)
                  then (mkWorker b4 p (foldl (λ m k, delete k m) (r_failures retry) quarantined)
                          (foldl (λ m k, delete k m) (r_not_before retry) quarantined)
                          (metrics_quarantined (len quarantined) <$> m4) draining true, rs, draining)
                  else (mkWorker b4 p (r_failures retry) (r_not_before retry)
                          (metrics_storage_down <$> m4) draining true, rs, draining)
              end
          end
      end
  end.
End worker.
Arguments Worker O P : clear implicits.
