(* ===== verification/ProxyEvents.v ===== *)
(** * Evidence of proxy changes

    [apps/control-plane-api/src/proxy/events.rs]: a lifecycle event becomes a
    workflow event of the ingest schema, which passes the admission gate and is
    enqueued in the outbox of the control plane.  The identifier of the event is
    the identifier of the request, so that a retry enqueues the same event; the
    second event of a validation gets one derived from it. *)
From Stdlib Require Import Ascii.
From S2P Require Import Prelude RustStr Digits ProxyText Time Secrets Errors Backend OperatorAuth ProxySpec Convert ProxyWire Domain Envelope ProxyLifecycle ProxyStore Outbox OutboxLaws Replay.

Open Scope N_scope.

(** [service::ProxyLifecycleEvent]. *)
Record ProxyLifecycleEvent := mkLifecycleEvent {
  le_request_id : string;
  le_operation : string;
  le_scope : ExactScope;
  le_proxy_id : ProxyId;
  le_revision_id : option ProxyRevisionId;
  le_actor_id : string;
  le_reason_code : string;
}.

Definition PRODUCER_AGENT_ID : string := "apex-control-gateway".
Definition PRODUCER_ACTOR_ID : string := "apex-control-plane".
Definition PRODUCER_PROMPT_REVISION : string := "proxy-lifecycle-v1".
Definition PRODUCER_MODEL : string := "n-a".

(** The [uuid] crate on bytes: [Uuid::as_bytes], and [Uuid::from_bytes] with
    [to_string]. *)
Class UuidBytes `{UuidApi} := {
  uuid_as_bytes : Uuid → string;
  uuid_from_bytes : string → string;
}.

Definition event_refused : ProxyError :=
  invalid_proxy_spec "Proxy lifecycle event was rejected safely.".

(** [validate_event]. *)
Definition validate_event (event : ProxyLifecycleEvent) : result ProxyError unit :=
  if negb (is_lowercase_uuidv7 (le_request_id event))
     || negb (is_identifier (le_scope event).1)
     || negb (is_identifier (le_scope event).2)
     || negb (is_identifier (le_operation event))
     || negb (is_ok (bounded_required_string (le_actor_id event)))
     || negb (is_ok (bounded_required_string (le_reason_code event)))
  then Err (invalid_proxy_spec "Proxy lifecycle events require bounded metadata identifiers.")
  else Ok tt.

(** [lifecycle_data]. *)
Definition lifecycle_data (event : ProxyLifecycleEvent) : Struct :=
  let fields :=
    Convert.field_insert "reason_code" (string_value (le_reason_code event))
      (Convert.field_insert "proxy_id" (string_value (le_proxy_id event))
        (Convert.field_insert "operation" (string_value (le_operation event))
          (Convert.field_insert "actor_id" (string_value (le_actor_id event)) []))) in
  match le_revision_id event with
  | Some revision_id => Convert.field_insert "revision_id" (string_value revision_id) fields
  | None => fields
  end.

(** The unsigned envelope of [encode_at]. *)
Definition lifecycle_envelope (event : ProxyLifecycleEvent) (event_id timestamp : string)
    : EventEnvelope :=
  mkEnvelope event_id timestamp 7 PRODUCER_AGENT_ID (le_request_id event) None
    (le_request_id event) (Some (mkScope (le_scope event).1 (le_scope event).2 []))
    (Some (mkActor 3 PRODUCER_ACTOR_ID))
    (Some (mkVersion PRODUCER_AGENT_ID PRODUCER_PROMPT_REVISION PRODUCER_MODEL))
    (Some (lifecycle_data event)) (Some (mkIntegrity None EmptyString)) 1.

(** The byte at [i], changed. *)
Fixpoint change_byte (i : nat) (f : N → N) (s : string) : string :=
  match s with
  | EmptyString => EmptyString
  | String c s =>
      match i with
      | O => String (ascii_of_N (f (N_of_ascii c))) s
      | S i => String c (change_byte i f s)
      end
  end.

Section events.
Context `{DomainDeps, AuthDeps, UuidApi, !UuidBytes}.

(** [DurableProxyEventSink::encode_at]. *)
Definition encode_at (event : ProxyLifecycleEvent) (event_id timestamp : string)
    : result ProxyError IngestRequest :=
  validate_event event ;;
  let envelope := lifecycle_envelope event event_id timestamp in
  event_hash ← map_err (λ _, event_refused) (canonical_event_hash envelope);
  map_err (λ _, event_refused) (from_validated_transport (with_integrity envelope event_hash)).

(** The identifier of the second event of a validation. *)
Definition validation_event_id (request_id : string) : result ProxyError string :=
  let digest := sha256_digest ("proxy-validation-succeeded:" +:+ request_id) in
  uuid ← ok_or (uuid_parse_str request_id) invalid_request_id;
  let bytes := String.substring 0 6 (uuid_as_bytes uuid) +:+ String.substring 0 10 digest in
  let bytes := change_byte 6 (λ b, N.lor (N.land b 15) 112) bytes in
  let bytes := change_byte 8 (λ b, N.lor (N.land b 63) 128) bytes in
  Ok (uuid_from_bytes bytes).

(** [DurableProxyEventSink::encode]. *)
Definition encode (event : ProxyLifecycleEvent) : result ProxyError IngestRequest :=
  validate_event event ;;
  timestamp ← ok_or (rfc3339_from_uuidv7 (le_request_id event))
    (invalid_proxy_spec "Proxy lifecycle IDs must be UUIDv7 values.");
  event_id ← (if String.eqb (le_operation event) "validation_succeeded"
              then validation_event_id (le_request_id event)
              else Ok (le_request_id event));
  encode_at event event_id timestamp.

(** [ProxyEventSink::emit] of the durable sink. *)
Definition emit {O} `{EventOutbox O} (now : N) (event : ProxyLifecycleEvent)
    : ST (Backend O) ProxyError unit := λ b,
  match encode event with
  | Err e => (Err e, b)
  | Ok request =>
      let '(r, b') := submit_command now request b in
      (match r with Ok _ => Ok tt | Err _ => Err event_sink_unavailable end, b')
  end.
End events.
