(* ===== verification/ProxyService.v ===== *)
(** * The proxy service

    [apps/control-plane-api/src/proxy/service.rs], [service/operations.rs] and
    [service/operations/lifecycle.rs], [inspection.rs], [managed.rs]: every
    handler of the [McpProxyService], over the in-memory store of ProxyStore and
    the durable event sink of ProxyEvents, as the program is built without the
    [postgres] feature.  A panic of a blocking task is an internal error of the
    call.  The operator resolver and the runtime provider are parameters. *)
From Stdlib Require Import Ascii.
From S2P Require Import Prelude RustStr Digits ProxyText Time Errors Backend OperatorAuth ProxySpec ProxyWire Convert Domain ProxyLifecycle ProxyStore Outbox OutboxLaws Replay ProxyEvents.

Open Scope N_scope.

(** ** Messages *)

Record CreateProxyRequest := mkCreateRequest {
  cq_request_id : string;
  cq_workspace_id : string;
  cq_namespace_id : string;
  cq_proxy_id : string;
  cq_display_name : string;
  cq_slug : string;
  cq_description : option string;
  cq_owner : option string;
}.
Record GetProxyRequest := mkGetRequest {
  gq_workspace_id : string;
  gq_namespace_id : string;
  gq_proxy_id : string;
}.
Record ListProxiesRequest := mkListRequest {
  lr_workspace_id : string;
  lr_namespace_id : string;
  lr_page_size : N;
  lr_page_token : string;
}.
(** [UpdateProxyDraftRequest] and [ValidateProxyRequest] have the same fields. *)
Record DraftRequest := mkDraftRequest {
  dq_request_id : string;
  dq_workspace_id : string;
  dq_namespace_id : string;
  dq_proxy_id : string;
  dq_expected_revision_id : option string;
  dq_draft : option PSpec;
}.
Record PublishProxyRevisionRequest := mkPublishRequest {
  pr_request_id : string;
  pr_workspace_id : string;
  pr_namespace_id : string;
  pr_proxy_id : string;
  pr_draft_revision_id : string;
  pr_expected_revision_id : option string;
}.
(** [DiscoverUpstreamRequest] and [TestProxyConnectionRequest]. *)
Record UpstreamRequest := mkUpstreamRequest {
  ur_request_id : string;
  ur_workspace_id : string;
  ur_namespace_id : string;
  ur_proxy_id : string;
  ur_revision_id : string;
  ur_upstream_id : string;
}.
Record ListProxyActivityRequest := mkActivityRequest {
  ay_workspace_id : string;
  ay_namespace_id : string;
  ay_proxy_id : string;
  ay_page_size : N;
  ay_page_token : string;
}.
(** [DeployProxyRequest], [PauseProxyRequest], [ResumeProxyRequest] and
    [RetireProxyRequest]; two of them have no reason code. *)
Record ManagedRequest := mkManagedRequest {
  mq_request_id : string;
  mq_workspace_id : string;
  mq_namespace_id : string;
  mq_proxy_id : string;
  mq_revision_id : string;
  mq_expected_revision_id : option string;
  mq_reason_code : option string;
}.
(** What [RotateProxyCredentialsRequest] and [RollbackProxyRequest] add. *)
Record RotateProxyCredentialsRequest := mkRotateRequest {
  tq_common : ManagedRequest;
  tq_secret_refs : list string;
}.
Record RollbackProxyRequest := mkRollbackRequest {
  kq_common : ManagedRequest;
  kq_target_revision_id : string;
}.
(** [GetProxyOperationRequest]: the scope, where there is one, as workspace,
    namespace and proxy. *)
Record GetProxyOperationRequest := mkOperationRequest {
  oq_scope : option (string * string * string);
  oq_operation_id : string;
}.

(** [ManagedLifecycleAction] and [ManagedLifecycleInput]. *)
Inductive ManagedLifecycleAction :=
  | MDeploy | MResume | MPause | MRetire
  | MRotate (secret_refs : list SecretRef)
  | MRollback (target_revision_id : ProxyRevisionId).
Record ManagedLifecycleInput := mkManagedInput {
  mi_scope : ExactScope;
  mi_proxy_id : ProxyId;
  mi_request_id : string;
  mi_revision_id : ProxyRevisionId;
  mi_expected_revision_id : option ProxyRevisionId;
  mi_actor_id : string;
  mi_reason_code : string;
  mi_action : ManagedLifecycleAction;
  mi_approved : bool;
}.

(** [proto::McpProxy], [McpProxySummary], [McpProxyRevision] and
    [McpProxyActivityEntry]. *)
Record PProxy := mkPProxy {
  pp_proxy_id : string; pp_workspace_id : string; pp_namespace_id : string;
  pp_display_name : string; pp_slug : string; pp_description : option string;
  pp_owner : option string; pp_lifecycle_state : Z; pp_redaction_status : Z;
  pp_active_revision_id : string; pp_draft_revision_id : string; pp_spec : option PSpec;
}.
Record PSummary := mkPSummary {
  ps_proxy_id : string; ps_display_name : string; ps_slug : string; ps_workspace_id : string;
  ps_namespace_id : string; ps_lifecycle_state : Z; ps_redaction_status : Z;
  ps_active_revision_id : string;
}.
Record PRevision := mkPRevision {
  pv_revision_id : string; pv_proxy_id : string; pv_config_hash : string; pv_lifecycle_state : Z;
  pv_redaction_status : Z; pv_spec : option PSpec; pv_created_by : string; pv_created_at : string;
}.
Record PActivity := mkPActivity {
  pa_activity_id : string; pa_proxy_id : string; pa_revision_id : string; pa_occurred_at : string;
  pa_actor_id : string; pa_activity_type : string; pa_reason_code : option string;
  pa_lifecycle_state : Z; pa_redaction_status : Z; pa_summary : string;
}.

Definition state_to_proto (s : ProxyLifecycleState) : Z :=
  match s with
  | Draft => 1 | Validating => 2 | AwaitingApproval => 3 | Provisioning => 4 | Ready => 5
  | Degraded => 6 | Paused => 7 | Retiring => 8 | Retired => 9 | Failed => 10
  end.
Definition redaction_to_proto (s : ProxyRedactionStatus) : Z :=
  match s with Redacted => 1 | PartiallyRedacted => 2 end.

Definition proxy_to_proto (p : McpProxy) : PProxy :=
  mkPProxy (px_proxy_id p) (px_scope p).1 (px_scope p).2 (px_display_name p) (px_slug p)
    (px_description p) (px_owner p) (state_to_proto (px_lifecycle_state p))
    (redaction_to_proto (px_redaction_status p)) (default EmptyString (px_active_revision_id p))
    (default EmptyString (px_draft_revision_id p)) (proxy_spec_to_proto <$> px_spec p).
Definition summary_to_proto (p : McpProxySummary) : PSummary :=
  mkPSummary (su_proxy_id p) (su_display_name p) (su_slug p) (su_scope p).1 (su_scope p).2
    (state_to_proto (su_lifecycle_state p)) (redaction_to_proto (su_redaction_status p))
    (default EmptyString (su_active_revision_id p)).
Definition revision_to_proto (r : McpProxyRevision) : PRevision :=
  mkPRevision (rv_revision_id r) (rv_proxy_id r) (rv_config_hash r)
    (state_to_proto (rv_lifecycle_state r)) (redaction_to_proto (rv_redaction_status r))
    (Some (proxy_spec_to_proto (rv_spec r))) (rv_created_by r) (rv_created_at r).
Definition activity_to_proto (a : ProxyActivity) : PActivity :=
  mkPActivity (ac_activity_id a) (ac_proxy_id a) (default EmptyString (ac_revision_id a))
    (ac_occurred_at a) (default EmptyString (ac_actor_id a)) (ac_operation a)
    (if str_is_empty (ac_reason_code a) then None else Some (ac_reason_code a))
    (state_to_proto (ac_next_state a)) (redaction_to_proto Redacted) (ac_status a).

(** ** Statuses *)

Definition rejected (code : GrpcCode) (name : string) : Status :=
  mkStatus code (name +:+ ": request rejected safely").
Definition invalid_status : Status := rejected GrpcInvalidArgument "INVALID_PROXY_REQUEST".
Definition internal_status : Status := mkStatus GrpcInternal "PROXY_INTERNAL: request failed safely".
Definition proxy_scope_denied : Status := rejected GrpcPermissionDenied "PROXY_SCOPE_DENIED".
Definition runtime_unavailable_status : Status :=
  rejected GrpcFailedPrecondition "PROXY_RUNTIME_UNAVAILABLE".

Definition one_of (code : string) (codes : list string) : bool := existsb (String.eqb code) codes.
(** [proxy_status]; [Display] of an error is its code, a colon and its message. *)
Definition proxy_status (e : ProxyError) : Status :=
  let code := pe_code e in
  if one_of code ["PROXY_NOT_FOUND"; "PROXY_REVISION_NOT_FOUND"]
  then rejected GrpcNotFound "PROXY_NOT_FOUND"
  else if one_of code ["PROXY_IDENTITY_CONFLICT"]
  then rejected GrpcAlreadyExists "PROXY_IDENTITY_CONFLICT"
  else if one_of code ["PROXY_REVISION_CONFLICT"; "PROXY_IDEMPOTENCY_CONFLICT"]
  then rejected GrpcAborted "PROXY_REVISION_CONFLICT"
  else if one_of code ["PROXY_RUNTIME_UNAVAILABLE"; "PROXY_STORE_UNAVAILABLE";
                       "PROXY_EVENT_SINK_UNAVAILABLE"; "PROXY_ACTIVITY_UNAVAILABLE"]
  then rejected GrpcUnavailable "PROXY_DEPENDENCY_UNAVAILABLE"
  else if one_of code ["PROXY_APPROVAL_REQUIRED"; "INVALID_PROXY_LIFECYCLE_TRANSITION";
                       "IMMUTABLE_PROXY_REVISION"]
  then rejected GrpcFailedPrecondition "PROXY_PRECONDITION_FAILED"
  else if one_of code ["PROXY_PROVIDER_FAILED"]
  then rejected GrpcUnavailable "PROXY_PROVIDER_FAILED"
  else invalid_status.
Definition fault_status (f : StoreFault) : Status :=
  match f with Refused e => proxy_status e | Unwinding => internal_status end.

(** ** The service *)

(** [McpProxyService]; the resolver and the runtime provider are arguments. *)
Record ProxyService (O : Type) := mkProxyService {
  sv_auth : Mutex FailureMap;
  sv_store : Mutex StoreState;
  sv_events : option (Backend O);
}.
Arguments mkProxyService {O} _ _ _.
Arguments sv_auth {O} _.
Arguments sv_store {O} _.
Arguments sv_events {O} _.

(** What a call finds: its [authorization] headers, the two clock readings of
    authentication, and for each of the two events a call may emit the fresh
    identifier of its log entry and the clock of the outbox. *)
Record CallEnv := mkCallEnv {
  ev_values : list string;
  ev_now : N;
  ev_later : N;
  ev_fresh : string;
  ev_outbox : N;
  ev_fresh2 : string;
  ev_outbox2 : N;
}.

Section service.
Context `{AuthDeps, WireCodec, DomainDeps, UuidApi, !UuidBytes} {O : Type} `{EventOutbox O}.
Context (resolve : string → result CommandError OperatorCaller).
Abbreviation P := (ProxyService O).

Definition on_auth {A} (m : ST (Mutex FailureMap) CommandError A) : ST P Status A :=
  st_map_err into_status
    (st_zoom sv_auth (λ x g, mkProxyService x (sv_store g) (sv_events g)) m).
(** [spawn_blocking] on the store: a panic is an internal error. *)
Definition on_store {A} (m : ST (Mutex StoreState) StoreFault A) : ST P Status A :=
  st_map_err fault_status
    (st_zoom sv_store (λ x g, mkProxyService (sv_auth g) x (sv_events g)) m).

(** [require_event_sink]. *)
Definition require_event_sink : ST P Status unit := λ g,
  (match sv_events g with
   | Some _ => Ok tt
   | None => Err (proxy_status event_sink_unavailable)
   end, g).
(** [emit_event]. *)
Definition emit_event (now : N) (event : ProxyLifecycleEvent) : ST P Status unit := λ g,
  match sv_events g with
  | None => (Err (proxy_status event_sink_unavailable), g)
  | Some b =>
      let '(r, b') := emit now event b in
      (map_err proxy_status r, mkProxyService (sv_auth g) (sv_store g) (Some b'))
  end.

(** [authenticate_scope]. *)
Definition authenticate_scope (env : CallEnv) (scope : ExactScope) : ST P Status string :=
  operator ← on_auth (authenticate resolve (ev_values env) (ev_now env) (ev_later env));
  if negb (allows_scope operator scope.1 scope.2) then st_throw proxy_scope_denied
  else mret (subject operator).

(** An identifier read with [map_err(proxy_status)], and [invalid_status]. *)
Definition parsed {A} (r : result ProxyError A) : ST P Status A := st_lift (map_err proxy_status r).
Definition required {A} (o : option A) : ST P Status A := st_lift (ok_or o invalid_status).

(** [service::validate_request_id]. *)
Definition check_request_id (value : string) : result Status unit :=
  uuid ← ok_or (uuid_parse_str value) invalid_status;
  if negb (uuid_version_num uuid =? 7) || negb (String.eqb (uuid_hyphenated uuid) value)
  then Err invalid_status
  else Ok tt.
(** [parse_optional_revision]. *)
Definition parse_optional_revision (value : option string) : ST P Status (option ProxyRevisionId) :=
  match value with
  | None => mret None
  | Some v => r ← parsed (proxy_revision_id_new v); mret (Some r)
  end.

(** [create_proxy]. *)
Definition create_proxy (env : CallEnv) (input : CreateProxyRequest) : ST P Status (PProxy * bool) :=
  let scope := (cq_workspace_id input, cq_namespace_id input) in
  actor_id ← authenticate_scope env scope;
  require_event_sink ≫= λ _,
  proxy_id ← parsed (proxy_id_new (cq_proxy_id input));
  outcome ← on_store (memory_create_with_outcome (ev_fresh env)
    (mkCreate (cq_request_id input) scope proxy_id (cq_display_name input) (cq_slug input)
       (cq_description input) (cq_owner input)));
  emit_event (ev_outbox env) (mkLifecycleEvent (cq_request_id input) "create_proxy"
    (px_scope (co_proxy outcome)) (px_proxy_id (co_proxy outcome)) None actor_id "proxy.created")
  ≫= λ _,
  mret (proxy_to_proto (co_proxy outcome), co_duplicate outcome).

(** [get_proxy]. *)
Definition get_proxy (env : CallEnv) (input : GetProxyRequest) : ST P Status PProxy :=
  let scope := (gq_workspace_id input, gq_namespace_id input) in
  authenticate_scope env scope ≫= λ _,
  proxy_id ← parsed (proxy_id_new (gq_proxy_id input));
  proxy ← on_store (memory_get scope proxy_id);
  mret (proxy_to_proto proxy).

(** [list_proxies]; a [u32] fits in [usize]. *)
Definition list_proxies (env : CallEnv) (input : ListProxiesRequest)
    : ST P Status (list PSummary * string) :=
  let scope := (lr_workspace_id input, lr_namespace_id input) in
  authenticate_scope env scope ≫= λ _,
  page ← on_store (memory_list (mkListProxies scope (lr_page_size input) (lr_page_token input)));
  mret (summary_to_proto <$> pl_proxies page, pl_next_page_token page).

(** [update_proxy_draft]. *)
Definition update_proxy_draft (env : CallEnv) (input : DraftRequest)
    : ST P Status (PProxy * PRevision) :=
  let scope := (dq_workspace_id input, dq_namespace_id input) in
  actor_id ← authenticate_scope env scope;
  require_event_sink ≫= λ _,
  proxy_id ← parsed (proxy_id_new (dq_proxy_id input));
  expected_revision_id ← parse_optional_revision (dq_expected_revision_id input);
  draft ← required (dq_draft input);
  spec ← parsed (spec_try_from draft);
  proxy ← on_store (memory_update_draft (ev_fresh env)
    (mkUpdate (dq_request_id input) scope proxy_id expected_revision_id actor_id spec));
  revision_id ← st_lift (ok_or (px_draft_revision_id proxy) internal_status);
  revision ← on_store (memory_get_revision (px_scope proxy) (px_proxy_id proxy) revision_id);
  emit_event (ev_outbox env) (mkLifecycleEvent (dq_request_id input) "update_proxy_draft"
    (px_scope proxy) (px_proxy_id proxy) (Some (rv_revision_id revision)) actor_id
    "proxy.draft_updated") ≫= λ _,
  mret (proxy_to_proto proxy, revision_to_proto revision).

(** [publish_proxy_revision]. *)
Definition publish_proxy_revision (env : CallEnv) (input : PublishProxyRevisionRequest)
    : ST P Status PRevision :=
  let scope := (pr_workspace_id input, pr_namespace_id input) in
  actor_id ← authenticate_scope env scope;
  require_event_sink ≫= λ _,
  proxy_id ← parsed (proxy_id_new (pr_proxy_id input));
  draft_revision_id ← parsed (proxy_revision_id_new (pr_draft_revision_id input));
  expected_revision_id ← parse_optional_revision (pr_expected_revision_id input);
  revision ← on_store (memory_publish_revision (ev_fresh env)
    (mkPublish (pr_request_id input) scope proxy_id draft_revision_id expected_revision_id actor_id));
  emit_event (ev_outbox env) (mkLifecycleEvent (pr_request_id input) "publish_proxy_revision"
    scope (rv_proxy_id revision) (Some (rv_revision_id revision)) actor_id
    "proxy.revision_published") ≫= λ _,
  mret (revision_to_proto revision).

(** [lifecycle]. *)
Definition lifecycle (fresh : string) (now : N) (scope : ExactScope) (actor_id request_id : string)
    (proxy_id : ProxyId) (revision_id : ProxyRevisionId)
    (expected_revision_id : option ProxyRevisionId) (reason_code : string)
    (command : LifecycleCommand) (approved : bool) : ST P Status McpProxy :=
  require_event_sink ≫= λ _,
  proxy ← on_store (memory_transition fresh
    (mkTransition request_id scope proxy_id revision_id expected_revision_id actor_id reason_code
       command approved));
  emit_event now (mkLifecycleEvent request_id (command_operation command) scope proxy_id
    (Some revision_id) actor_id reason_code) ≫= λ _,
  mret proxy.

(** [require_revision]. *)
Definition require_revision (scope : ExactScope) (proxy_id : ProxyId)
    (revision_id : ProxyRevisionId) : ST P Status McpProxyRevision :=
  on_store (memory_get_revision scope proxy_id revision_id).

(** [validate_proxy]; its answer is the same whenever it succeeds. *)
Definition validate_proxy (env : CallEnv) (input : DraftRequest) : ST P Status unit :=
  let scope := (dq_workspace_id input, dq_namespace_id input) in
  actor_id ← authenticate_scope env scope;
  proxy_id ← parsed (proxy_id_new (dq_proxy_id input));
  expected ← parse_optional_revision (dq_expected_revision_id input);
  revision_id ← required expected;
  stored ← require_revision scope proxy_id revision_id;
  draft ← required (dq_draft input);
  spec ← parsed (spec_try_from draft);
  if negb (bool_decide (spec = rv_spec stored))
  then st_throw (rejected GrpcAborted "PROXY_REVISION_CONFLICT")
  else
    parsed (validate_proxy_spec (rv_spec stored)) ≫= λ _,
    st_lift (check_request_id (dq_request_id input)) ≫= λ _,
    lifecycle (ev_fresh env) (ev_outbox env) scope actor_id (dq_request_id input) proxy_id
      revision_id (Some revision_id) "proxy.validation_started" Validate false ≫= λ _,
    lifecycle (ev_fresh2 env) (ev_outbox2 env) scope actor_id (dq_request_id input) proxy_id
      revision_id (Some revision_id) "proxy.validation_succeeded" ValidationSucceeded false ≫= λ _,
    mret tt.

(** [discover_upstream] and [test_proxy_connection], which differ in what they
    ask of the runtime provider. *)
Definition inspect_upstream {D}
    (runtime : option (McpProxyRevision → string → result ProxyError D))
    (env : CallEnv) (input : UpstreamRequest) : ST P Status D :=
  st_lift (check_request_id (ur_request_id input)) ≫= λ _,
  let scope := (ur_workspace_id input, ur_namespace_id input) in
  authenticate_scope env scope ≫= λ _,
  proxy_id ← parsed (proxy_id_new (ur_proxy_id input));
  revision_id ← parsed (proxy_revision_id_new (ur_revision_id input));
  revision ← require_revision scope proxy_id revision_id;
  match runtime with
  | None => st_throw runtime_unavailable_status
  | Some ask => parsed (ask revision (ur_upstream_id input))
  end.

(** [list_proxy_activity]. *)
Definition list_proxy_activity (env : CallEnv) (input : ListProxyActivityRequest)
    : ST P Status (list PActivity * string) :=
  let scope := (ay_workspace_id input, ay_namespace_id input) in
  authenticate_scope env scope ≫= λ _,
  proxy_id ← parsed (proxy_id_new (ay_proxy_id input));
  page ← on_store (memory_list_activity (mkListActivity scope proxy_id (ay_page_size input)
                                           (ay_page_token input)));
  mret (activity_to_proto <$> ap_activity page, ap_next_page_token page).

(** [accept_managed], of a build that has no managed store. *)
Definition accept_managed (input : ManagedLifecycleInput) : ST P Status unit :=
  st_lift (check_request_id (mi_request_id input)) ≫= λ _,
  st_throw runtime_unavailable_status.

(** What the handlers of the managed lifecycle share: the caller is
    authenticated, and the fields of the request are read in order, that of the
    action last. *)
Definition managed_input (env : CallEnv) (input : ManagedRequest) (reason_code : string)
    (action : result ProxyError ManagedLifecycleAction) : ST P Status ManagedLifecycleInput :=
  let scope := (mq_workspace_id input, mq_namespace_id input) in
  actor ← authenticate_scope env scope;
  proxy_id ← parsed (proxy_id_new (mq_proxy_id input));
  revision_id ← parsed (proxy_revision_id_new (mq_revision_id input));
  expected_revision_id ← parse_optional_revision (mq_expected_revision_id input);
  action ← parsed action;
  mret (mkManagedInput scope proxy_id (mq_request_id input) revision_id expected_revision_id actor
          reason_code action false).

Definition deploy_proxy (env : CallEnv) (input : ManagedRequest) : ST P Status unit :=
  managed_input env input "proxy.deploy" (Ok MDeploy) ≫= accept_managed.
Definition pause_proxy (env : CallEnv) (input : ManagedRequest) : ST P Status unit :=
  managed_input env input (default "proxy.pause" (mq_reason_code input)) (Ok MPause) ≫= accept_managed.
Definition resume_proxy (env : CallEnv) (input : ManagedRequest) : ST P Status unit :=
  managed_input env input "proxy.resume" (Ok MResume) ≫= accept_managed.
Definition rotate_proxy_credentials (env : CallEnv) (input : RotateProxyCredentialsRequest)
    : ST P Status unit :=
  let common := tq_common input in
  managed_input env common (default "proxy.rotate_credentials" (mq_reason_code common))
    (refs ← collect secret_ref_new (tq_secret_refs input); Ok (MRotate refs)) ≫= accept_managed.
Definition rollback_proxy (env : CallEnv) (input : RollbackProxyRequest) : ST P Status unit :=
  let common := kq_common input in
  managed_input env common (default "proxy.rollback" (mq_reason_code common))
    (target ← proxy_revision_id_new (kq_target_revision_id input); Ok (MRollback target))
  ≫= accept_managed.
Definition retire_proxy (env : CallEnv) (input : ManagedRequest) : ST P Status unit :=
  managed_input env input (default "proxy.retire" (mq_reason_code input)) (Ok MRetire) ≫= accept_managed.

(** [get_proxy_operation], of the same build. *)
Definition get_proxy_operation (env : CallEnv) (input : GetProxyOperationRequest) : ST P Status unit :=
  resource ← required (oq_scope input);
  let '(workspace_id, namespace_id, proxy_id) := resource in
  authenticate_scope env (workspace_id, namespace_id) ≫= λ _,
  parsed (proxy_id_new proxy_id) ≫= λ _,
  st_lift (check_request_id (oq_operation_id input)) ≫= λ _,
  st_throw runtime_unavailable_status.

(** ** Calls *)

Inductive ProxyCall :=
  | CallCreate (q : CreateProxyRequest)
  | CallGet (q : GetProxyRequest)
  | CallList (q : ListProxiesRequest)
  | CallUpdate (q : DraftRequest)
  | CallPublish (q : PublishProxyRevisionRequest)
  | CallValidate (q : DraftRequest)
  | CallInspect (q : UpstreamRequest)
  | CallActivity (q : ListProxyActivityRequest)
  | CallDeploy (q : ManagedRequest)
  | CallPause (q : ManagedRequest)
  | CallResume (q : ManagedRequest)
  | CallRetire (q : ManagedRequest)
  | CallRotate (q : RotateProxyCredentialsRequest)
  | CallRollback (q : RollbackProxyRequest)
  | CallOperation (q : GetProxyOperationRequest).

Inductive CallAnswer (D : Type) :=
  | RCreated (a : PProxy * bool)
  | RProxy (a : PProxy)
  | RList (a : list PSummary * string)
  | RUpdated (a : PProxy * PRevision)
  | RRevision (a : PRevision)
  | RDone
  | RInspected (d : D)
  | RActivity (a : list PActivity * string).
Arguments RCreated {D} a.
Arguments RProxy {D} a.
Arguments RList {D} a.
Arguments RUpdated {D} a.
Arguments RRevision {D} a.
Arguments RDone {D}.
Arguments RInspected {D} d.
Arguments RActivity {D} a.

Definition serve {D} (runtime : option (McpProxyRevision → string → result ProxyError D))
    (env : CallEnv) (c : ProxyCall) : ST P Status (CallAnswer D) :=
  match c with
  | CallCreate q => a ← create_proxy env q; mret (RCreated a)
  | CallGet q => a ← get_proxy env q; mret (RProxy a)
  | CallList q => a ← list_proxies env q; mret (RList a)
  | CallUpdate q => a ← update_proxy_draft env q; mret (RUpdated a)
  | CallPublish q => a ← publish_proxy_revision env q; mret (RRevision a)
  | CallValidate q => validate_proxy env q ≫= λ _, mret RDone
  | CallInspect q => a ← inspect_upstream runtime env q; mret (RInspected a)
  | CallActivity q => a ← list_proxy_activity env q; mret (RActivity a)
  | CallDeploy q => deploy_proxy env q ≫= λ _, mret RDone
  | CallPause q => pause_proxy env q ≫= λ _, mret RDone
  | CallResume q => resume_proxy env q ≫= λ _, mret RDone
  | CallRetire q => retire_proxy env q ≫= λ _, mret RDone
  | CallRotate q => rotate_proxy_credentials env q ≫= λ _, mret RDone
  | CallRollback q => rollback_proxy env q ≫= λ _, mret RDone
  | CallOperation q => get_proxy_operation env q ≫= λ _, mret RDone
  end.
End service.
