(* ===== verification/ProxyServiceLaws.v ===== *)
(** * What a call of the proxy service can do

    Theorems about the handlers of ProxyService: a call acts only under the
    scope its operator may act in and out of sight of every other scope, a
    change that is acknowledged has its evidence in the outbox, and a change
    whose evidence failed is completed by repeating the call.  The store is any
    that requests can produce; the outbox is any that meets its contract. *)
From Stdlib Require Import Ascii.
From S2P Require Import Prelude RustStr Digits ProxyText Time Errors Backend OperatorAuth ProxySpec ProxyWire ProxyWireLaws Convert Domain Codecs Admission Envelope ProxyLifecycle ProxyStore ProxyStoreSpec ProxyStoreWf ProxyStoreOnce ProxyPaging ProxyStoreScope ProxyPublished Outbox OutboxLaws Replay ProxyEvents ProxyService.

Open Scope N_scope.

(** What is used of the [uuid] crate: it writes a lowercase hyphenated
    identifier the way it was read. *)
Class UuidLaws `{UuidApi} :=
  uuid_round_trip s u : is_lowercase_uuidv7 s = true → uuid_parse_str s = Some u → uuid_hyphenated u = s.

Lemma parse_uuid_v7_same `{UuidLaws} v x : parse_uuid_v7 v = Some x → x = v ∧ is_lowercase_uuidv7 v = true.
Proof.
  unfold parse_uuid_v7. destruct (is_lowercase_uuidv7 v) eqn:Hv; [|done].
  cbn [negb]. destruct (uuid_parse_str v) as [u|] eqn:Hu; [|done]. intros [= <-].
  by rewrite (uuid_round_trip v u).
Qed.
Lemma proxy_id_new_ok `{UuidLaws} v x : proxy_id_new v = Ok x → x = v ∧ is_id x.
Proof.
  unfold proxy_id_new. destruct (parse_uuid_v7 v) as [y|] eqn:Hv; [|done]. intros [= <-].
  by apply parse_uuid_v7_same in Hv as [-> ?].
Qed.
Lemma proxy_revision_id_ok `{UuidLaws} v x : proxy_revision_id_new v = Ok x → x = v.
Proof.
  unfold proxy_revision_id_new. destruct (parse_uuid_v7 v) as [y|] eqn:Hv; [|done]. intros [= <-].
  by apply parse_uuid_v7_same in Hv as [-> ?].
Qed.

Lemma collect_forall {A B E} (f : A → result E B) (P : B → Prop) l l' :
  (∀ a b, f a = Ok b → P b) → collect f l = Ok l' → Forall P l'.
Proof.
  intros Hf. revert l'. induction l as [|a l IH]; simpl; intros l' Hl.
  - injection Hl as <-. constructor.
  - apply result_bind_ok in Hl as (b & Hb & Hl). apply result_bind_ok in Hl as (bs & Hbs & Hl).
    injection Hl as <-. constructor; eauto.
Qed.

(** A specification read from a message has 16-bit ports. *)
Lemma spec_try_from_ports m spec :
  spec_try_from m = Ok spec → Forall port_fits (rp_destinations (sp_runtime_profile spec)).
Proof.
  intros Hs. unfold spec_try_from in Hs.
  do 10 (apply result_bind_ok in Hs as (? & ? & Hs)).
  apply result_seq_ok in Hs as [_ [= <-]]. simpl.
  match goal with Hr : runtime_try_from _ = Ok _ |- _ => unfold runtime_try_from in Hr; rename Hr into Ht end.
  do 5 (apply result_bind_ok in Ht as (? & _ & Ht)).
  apply result_bind_ok in Ht as (ds & Hd & [= <-]). simpl.
  eapply collect_forall; [|exact Hd]. intros d e He. unfold destination_try_from in He.
  apply result_bind_ok in He as (port & Hp & He). apply result_bind_ok in He as (host & _ & He).
  apply result_bind_ok in He as (al & _ & [= <-]). unfold port_fits. simpl.
  destruct (u16_max <? pd_port d) eqn:Hlt; [done|]. injection Hp as <-. by apply N.ltb_ge in Hlt.
Qed.

Section laws.
Context `{AuthDeps, WireCodec, DomainDeps, UuidApi, !UuidBytes, !UuidLaws} {O : Type} `{OutboxLaws O}.
Context (resolve : string → result CommandError OperatorCaller).
Abbreviation P := (ProxyService O).

(** ** The store *)

(** A step that leaves the store, or changes it by requests under one scope. *)
Definition moves (scope : ExactScope) (g g' : P) : Prop :=
  ∃ l, sv_store g' = run_store l (sv_store g)
       ∧ Forall (λ op, op_scope op = scope ∧ op_typed op) l.*2.
Definition confined {A} (scope : ExactScope) (m : ST P Status A) : Prop := ∀ g, moves scope g (m g).2.

Lemma moves_stay scope (g g' : P) : sv_store g' = sv_store g → moves scope g g'.
Proof. intros Hs. exists []. by split; [|constructor]. Qed.
Lemma moves_trans scope (g g1 g2 : P) : moves scope g g1 → moves scope g1 g2 → moves scope g g2.
Proof.
  intros (l1 & Hl1 & F1) (l2 & Hl2 & F2). exists (l1 ++ l2). rewrite run_store_app, <-Hl1.
  split; [done|]. rewrite fmap_app. by apply Forall_app.
Qed.
Lemma confined_bind {A B} scope (m : ST P Status A) (k : A → ST P Status B) :
  confined scope m → (∀ a, confined scope (k a)) → confined scope (m ≫= k).
Proof.
  intros Hm Hk g. specialize (Hm g). unfold mbind, st_bind.
  destruct (m g) as [[a|e] g1]; [|done]. eapply moves_trans; [exact Hm|apply Hk].
Qed.
Lemma confined_parsed {A B} scope (r : result ProxyError A) (k : A → ST P Status B) :
  (∀ a, r = Ok a → confined scope (k a)) → confined scope (parsed r ≫= k).
Proof. intros Hk g. destruct r as [a|e]; [by apply Hk|by apply moves_stay]. Qed.

(** A computation that leaves the store alone. *)
Lemma confined_stay {A} scope (m : ST P Status A) :
  (∀ g, sv_store (m g).2 = sv_store g) → confined scope m.
Proof. intros Hm g. by apply moves_stay. Qed.

Lemma confined_op {A} scope (m : ST (Mutex StoreState) StoreFault A) fresh op :
  op_scope op = scope → op_typed op →
  (∀ s, (m s).2 = (apply_op fresh op s).2) → confined scope (on_store m).
Proof.
  intros Hs Ht Hm g. exists [(fresh, op)]. split; [|by apply Forall_singleton].
  unfold on_store, st_map_err, st_zoom. specialize (Hm (sv_store g)).
  destruct (m (sv_store g)) as [r s]. simpl in *. by subst.
Qed.
Lemma confined_read {A} scope (m : ST (Mutex StoreState) StoreFault A) :
  (∀ s, (m s).2 = s) → confined scope (on_store m).
Proof.
  intros Hm. apply confined_stay. intros g. unfold on_store, st_map_err, st_zoom.
  specialize (Hm (sv_store g)). destruct (m (sv_store g)) as [r s]. simpl in *. by subst.
Qed.

(** Reads do not write. *)
Lemma with_state_read {A} (f : SM A) :
  (∀ s, (f s).2 = s) → (∀ s, (f s).1 ≠ Err Unwinding) → ∀ m, (with_state f m).2 = m.
Proof.
  intros Hf Hu [[] s]; [done|]. specialize (Hf s). specialize (Hu s). unfold with_state. simpl.
  destruct (f s) as [[a|[e|]] s']; simpl in *; by subst.
Qed.
Lemma owned_read {A} id scope (k : StoreProxy → SM A) :
  (∀ p s, (k p s).2 = s ∧ (k p s).1 ≠ Err Unwinding) →
  ∀ s, ((owned_proxy id scope ≫= k) s).2 = s ∧ ((owned_proxy id scope ≫= k) s).1 ≠ Err Unwinding.
Proof.
  intros Hk s. rewrite bind_owned. destruct (ss_proxies s !! id); [|done]. case_bool_decide; [apply Hk|done].
Qed.
Lemma checked_read {A B} (r : result ProxyError A) (k : A → ST (Mutex StoreState) StoreFault B) :
  (∀ a m, (k a m).2 = m) → ∀ m, ((checked r ≫= k) m).2 = m.
Proof. intros Hk m. rewrite bind_checked. destruct r; [apply Hk|done]. Qed.

Lemma memory_get_read scope id m : (memory_get scope id m).2 = m.
Proof.
  unfold memory_get. apply checked_read. intros _.
  apply with_state_read; intros s; by apply owned_read.
Qed.
Lemma memory_get_revision_read scope id r m : (memory_get_revision scope id r m).2 = m.
Proof.
  unfold memory_get_revision. apply checked_read. intros _.
  apply with_state_read; intros s; apply owned_read; intros _ s'; rewrite bind_get, bind_checked;
    by destruct (ss_revisions s' !! _).
Qed.
Lemma memory_list_read q m : lp_page_size q ≤ u32_max → (memory_list q m).2 = m.
Proof.
  intros Hq. unfold memory_list. apply checked_read. intros _. apply checked_read. intros _.
  apply with_state_read; intros s; rewrite bind_get; unfold list_from_rows, mbind, st_bind;
    rewrite with_capacity_fits by done; by destruct (list_rows _ _ _ _).
Qed.
Lemma memory_list_activity_read q m : (memory_list_activity q m).2 = m.
Proof.
  unfold memory_list_activity. apply checked_read. intros _. apply checked_read. intros start.
  apply with_state_read; intros s; by apply owned_read.
Qed.

Lemma confined_emit scope now event : confined scope (emit_event now event).
Proof.
  apply confined_stay. intros g. unfold emit_event. destruct (sv_events g); [|done].
  by destruct (emit now event _).
Qed.
Lemma confined_auth scope env asked : confined scope (authenticate_scope resolve env asked).
Proof.
  apply confined_stay. intros g. unfold authenticate_scope, on_auth, st_map_err, st_zoom, mbind, st_bind.
  destruct (authenticate _ _ _ _ _) as [[op|] a]; simpl; [|done]. by destruct (allows_scope _ _ _).
Qed.
Lemma confined_ret {A} scope (a : A) : confined scope (mret a).
Proof. by apply confined_stay. Qed.
Lemma confined_throw {A} scope e : confined scope (st_throw e : ST P Status A).
Proof. by apply confined_stay. Qed.
Lemma confined_lift {A} scope (r : result Status A) : confined scope (st_lift r : ST P Status A).
Proof. by apply confined_stay. Qed.
Lemma confined_sink scope : confined scope require_event_sink.
Proof. by apply confined_stay. Qed.
Lemma confined_optional scope value : confined scope (parse_optional_revision value).
Proof.
  apply confined_stay. intros g. unfold parse_optional_revision. destruct value as [v|]; [|done].
  unfold parsed. unfold mbind, st_bind, st_lift. by destruct (proxy_revision_id_new v).
Qed.

Lemma answer_keeps_state {S E A} (f : A → Answer) (m : ST S E A) s : (m s).2 = (answer f m s).2.
Proof. unfold answer, mbind, st_bind. by destruct (m s) as [[]]. Qed.

Lemma lifecycle_confined fresh now scope actor request id rid expected reason command approved :
  is_id id →
  confined scope (lifecycle (O:=O) fresh now scope actor request id rid expected reason command approved).
Proof.
  intros Hid. unfold lifecycle. apply confined_bind; [apply confined_sink|intros _].
  apply confined_bind; [|intros; apply confined_bind; [apply confined_emit|intros; apply confined_ret]].
  eapply (confined_op _ _ fresh (OpTransition _)); [| |intros s; exact (answer_keeps_state AProxy _ s)];
    [done|by split].
Qed.

Lemma proxy_id_is_id v x : proxy_id_new v = Ok x → is_id x.
Proof. apply proxy_id_new_ok. Qed.
End laws.

Create HintDb confined.
#[export] Hint Resolve confined_emit confined_auth confined_ret confined_throw confined_lift
  confined_sink confined_optional proxy_id_is_id lifecycle_confined : confined.

(** Walks through a handler. *)
Ltac confine :=
  repeat first
    [ progress eauto with confined
    | apply confined_read; intros;
      first [apply memory_get_read|apply memory_get_revision_read|by apply memory_list_read
            |apply memory_list_activity_read]
    | apply confined_parsed; intros
    | apply confined_bind; intros
    | case_match ].

Section calls.
Context `{AuthDeps, WireCodec, DomainDeps, UuidApi, !UuidBytes, !UuidLaws} {O : Type} `{OutboxLaws O}.
Context (resolve : string → result CommandError OperatorCaller).
Context {D : Type} (runtime : option (McpProxyRevision → string → result ProxyError D)).
Abbreviation P := (ProxyService O).

Definition call_scope (c : ProxyCall) : ExactScope :=
  match c with
  | CallCreate q => (cq_workspace_id q, cq_namespace_id q)
  | CallGet q => (gq_workspace_id q, gq_namespace_id q)
  | CallList q => (lr_workspace_id q, lr_namespace_id q)
  | CallUpdate q | CallValidate q => (dq_workspace_id q, dq_namespace_id q)
  | CallPublish q => (pr_workspace_id q, pr_namespace_id q)
  | CallInspect q => (ur_workspace_id q, ur_namespace_id q)
  | CallActivity q => (ay_workspace_id q, ay_namespace_id q)
  | CallDeploy q | CallPause q | CallResume q | CallRetire q => (mq_workspace_id q, mq_namespace_id q)
  | CallRotate q => (mq_workspace_id (tq_common q), mq_namespace_id (tq_common q))
  | CallRollback q => (mq_workspace_id (kq_common q), mq_namespace_id (kq_common q))
  | CallOperation q =>
      match oq_scope q with Some (w, n, _) => (w, n) | None => (EmptyString, EmptyString) end
  end.

Lemma managed_confined env scope q reason action :
  confined scope (managed_input (O:=O) resolve env q reason action ≫= accept_managed).
Proof. unfold managed_input, accept_managed. confine. Qed.
#[local] Hint Resolve managed_confined : confined.

(** The page size of a list request is a [u32]. *)
Definition call_typed (c : ProxyCall) : Prop :=
  match c with CallList q => lr_page_size q ≤ u32_max | _ => True end.

Lemma serve_confined env c :
  call_typed c → confined (call_scope c) (serve (O:=O) resolve runtime env c).
Proof.
  intros Hc. destruct c as [q|q|q|q|q|q|q|q|q|q|q|q|q|q|q]; cbn [serve call_scope].
  - unfold create_proxy. confine.
    eapply (confined_op _ _ (ev_fresh env) (OpCreate _)); [| |intros s; exact (answer_keeps_state ACreated _ s)];
      [done|by split; [eapply proxy_id_new_ok|]].
  - unfold get_proxy. confine.
  - unfold list_proxies. confine.
  - unfold update_proxy_draft. confine.
    eapply (confined_op _ _ (ev_fresh env) (OpUpdate _)); [| |intros s; exact (answer_keeps_state AProxy _ s)];
      [done|split; [by eapply proxy_id_new_ok|by eapply spec_try_from_ports]].
  - unfold publish_proxy_revision. confine.
    eapply (confined_op _ _ (ev_fresh env) (OpPublish _)); [| |intros s; exact (answer_keeps_state ARevision _ s)];
      [done|by split; [eapply proxy_id_new_ok|]].
  - unfold validate_proxy. confine.
  - unfold inspect_upstream. confine.
  - unfold list_proxy_activity. confine.
  - unfold deploy_proxy. confine.
  - unfold pause_proxy. confine.
  - unfold resume_proxy. confine.
  - unfold retire_proxy. confine.
  - unfold rotate_proxy_credentials. confine.
  - unfold rollback_proxy. confine.
  - unfold get_proxy_operation. confine.
Qed.

(** ** Authority *)

(** The credential of the call resolves to an operator who may act there. *)
Definition authorised (env : CallEnv) (scope : ExactScope) (g : P) : bool :=
  match (authenticate resolve (ev_values env) (ev_now env) (ev_later env) (sv_auth g)).1 with
  | Ok operator => allows_scope operator scope.1 scope.2
  | Err _ => false
  end.

(** Refused with everything but the failure budget as it was. *)
Definition turned_away {A} (m : ST P Status A) (g : P) : Prop :=
  is_ok (m g).1 = false ∧ sv_store (m g).2 = sv_store g ∧ sv_events (m g).2 = sv_events g.

Lemma turned_away_bind {A B} (m : ST P Status A) (k : A → ST P Status B) g :
  turned_away m g → turned_away (m ≫= k) g.
Proof.
  unfold turned_away, mbind, st_bind. destruct (m g) as [[a|e] g1]; [by intros [? _]|done].
Qed.
Lemma turned_away_lift {A B} (r : result Status A) (k : A → ST P Status B) g :
  (∀ a, r = Ok a → turned_away (k a) g) → turned_away (st_lift r ≫= k) g.
Proof. intros Hk. destruct r as [a|e]; [by apply (Hk a)|done]. Qed.
Lemma auth_turned_away env scope g :
  authorised env scope g = false → turned_away (authenticate_scope resolve env scope) g.
Proof.
  unfold authorised, turned_away, authenticate_scope, on_auth, st_map_err, st_zoom, mbind, st_bind.
  destruct (authenticate _ _ _ _ _) as [[op|] a]; simpl; [|done]. by intros ->.
Qed.
Lemma serve_turned_away env c g :
  authorised env (call_scope c) g = false → turned_away (serve resolve runtime env c) g.
Proof.
  intros Ha%auth_turned_away. destruct c as [q|q|q|q|q|q|q|q|q|q|q|q|q|q|q]; cbn [serve call_scope] in *;
    apply turned_away_bind; try (by apply turned_away_bind); try (by do 2 apply turned_away_bind).
  - apply turned_away_lift. intros _ _. by apply turned_away_bind.
  - apply turned_away_lift. intros [[w n] id] Hq. destruct (oq_scope q) as [[[? ?] ?]|]; [|done].
    injection Hq as -> -> ->. by apply turned_away_bind.
Qed.

(** C12. A call acts under its own scope, and only for an operator who may act
    there.  In every state the service can reach: a call whose credential does
    not resolve to such an operator is refused and changes neither the store nor
    the outbox; and whatever else a call does, as long as it does not unwind and
    poison the lock of the store, no read under another scope has a different
    answer after it.  Store requests with regular identifiers do not poison the
    lock ([store_usable]); a draft edit with an identifier of another variant
    does ([odd_variant_poisons]). *)
Theorem proxy_call_confined before env c g g' q :
  Forall op_typed before.*2 → sv_store g = run_store before new_store → call_typed c →
  g' = (serve resolve runtime env c g).2 →
  (authorised env (call_scope c) g = false →
     is_ok (serve resolve runtime env c g).1 = false
     ∧ sv_store g' = sv_store g ∧ sv_events g' = sv_events g)
  ∧ (poisoned (sv_store g') = false → query_scope q ≠ call_scope c →
     apply_query q (sv_store g') = apply_query q (sv_store g)).
Proof.
  intros Hb Hs Hc ->. split; [apply serve_turned_away|]. intros Hp Hq.
  destruct (serve_confined env c Hc g) as (l & Hl & Hf). rewrite Hl in Hp |- *. rewrite Hs in *.
  clear Hl Hs. eapply run_isolated; [exact Hb|exact Hf|done|done].
Qed.

(** ** Evidence *)

Lemma auth_ok env scope (g : P) actor g' :
  authenticate_scope resolve env scope g = (Ok actor, g') →
  sv_events g' = sv_events g ∧ sv_store g' = sv_store g
  ∧ ∃ operator, (authenticate resolve (ev_values env) (ev_now env) (ev_later env) (sv_auth g)).1 = Ok operator
      ∧ actor = subject operator.
Proof.
  unfold authenticate_scope, on_auth, st_map_err, st_zoom, mbind, st_bind.
  destruct (authenticate _ _ _ _ _) as [[op|] a]; simpl; [|done].
  destruct (allows_scope _ _ _); [|done]. intros [= <- <-]. eauto.
Qed.

(** The outbox [o'] holds the record [r], and did not take it for another: the
    row under its key has the same envelope while it waits, the same fingerprint
    once it is delivered, or is one that was withdrawn before, in [o]. *)
Definition holds (r : IngestRequest) (o o' : O) : Prop :=
  ∃ row, rows o' !! key_of r = Some row
    ∧ match row with
      | Pending e => ir_envelope e = ir_envelope r
      | Complete e => payload_fingerprint (ir_envelope e) = payload_fingerprint (ir_envelope r)
      | Quarantined e => rows o !! key_of r = Some (Quarantined e)
      end.

(** What is withdrawn in [o'] was withdrawn in [o]. *)
Definition withdraws_none (o o' : O) : Prop :=
  ∀ k e, rows o' !! k = Some (Quarantined e) → rows o !! k = Some (Quarantined e).

(** An event of the request, by the operator, is in the outbox. *)
Definition evidenced (request_id : string) (scope : ExactScope) (env : CallEnv) (o : O) (g g' : P)
    : Prop :=
  ∃ operator event r o', (authenticate resolve (ev_values env) (ev_now env) (ev_later env) (sv_auth g)).1
      = Ok operator
    ∧ le_request_id event = request_id ∧ le_actor_id event = subject operator ∧ le_scope event = scope
    ∧ encode event = Ok r ∧ sv_events g' = Some (single o') ∧ holds r o o'.

Lemma submit_command_holds now r (o : O) out b :
  outbox_wf o → submit_command now r (single o) = (Ok out, b) →
  ∃ o', b = single o' ∧ outbox_wf o' ∧ holds r o o' ∧ withdraws_none o o'.
Proof.
  intros Hwf. unfold submit_command. rewrite with_lock_single.
  pose proof (enqueue_law now r o Hwf) as Hlaw. pose proof (enqueue_wf now r o Hwf) as Hwf'.
  destruct (enqueue now r o) as [[q|e] o']; [|done]. cbn [fst snd] in *. intros [= _ <-].
  exists o'. split; [done|]. split; [done|]. unfold holds, withdraws_none.
  destruct (rows o !! key_of r) as [[e|e|e]|] eqn:Hr; destruct Hlaw as [Hq Hrows].
  - rewrite Hq, Hr. split; [|done]. eexists. split; [done|]. simpl.
    destruct (String.eqb_spec (ir_envelope e) (ir_envelope r)); done.
  - rewrite Hq, Hr. split; [|done]. by eexists.
  - rewrite Hq, Hr. split; [|done]. eexists. split; [done|]. simpl.
    by destruct (String.eqb_spec (payload_fingerprint (ir_envelope e)) (payload_fingerprint (ir_envelope r))).
  - rewrite Hrows. split; [eexists; split; [apply lookup_insert_eq|done]|].
    intros k e. rewrite lookup_insert. by case_decide.
Qed.

Lemma holds_from r (o o1 o2 : O) : withdraws_none o o1 → holds r o1 o2 → holds r o o2.
Proof.
  intros Hw (row & Hrow & Hcase). exists row. split; [done|]. destruct row; [done|by apply Hw|done].
Qed.

Lemma emit_event_ok now event g o g' u :
  sv_events g = Some (single o) → outbox_wf o → emit_event now event g = (Ok u, g') →
  ∃ r o', encode event = Ok r ∧ sv_events g' = Some (single o') ∧ outbox_wf o'
          ∧ holds r o o' ∧ withdraws_none o o'.
Proof.
  intros Ho Hwf. unfold emit_event. rewrite Ho. unfold emit.
  destruct (encode event) as [r|] eqn:He; [|done].
  destruct (submit_command now r (single o)) as [[out|] b] eqn:Hs; [|done].
  destruct (submit_command_holds now r o out b Hwf Hs) as (o' & -> & Hwf' & Hh & Hw).
  intros [= <- <-]. by exists r, o'.
Qed.

(** The request identifier of a call that can change the store. *)
Definition call_request (c : ProxyCall) : option string :=
  match c with
  | CallCreate q => Some (cq_request_id q)
  | CallUpdate q | CallValidate q => Some (dq_request_id q)
  | CallPublish q => Some (pr_request_id q)
  | _ => None
  end.
End calls.

Lemma on_store_ok {O A : Type} (m : ST (Mutex StoreState) StoreFault A) (g : ProxyService O) a g' :
  on_store m g = (Ok a, g') → m (sv_store g) = (Ok a, sv_store g') ∧ sv_events g' = sv_events g.
Proof.
  unfold on_store, st_map_err, st_zoom. destruct (m (sv_store g)) as [[x|e] s]; [|done].
  by intros [= <- <-].
Qed.
Lemma parsed_ok {O A} (r : result ProxyError A) (g : ProxyService O) a g' :
  parsed r g = (Ok a, g') → r = Ok a ∧ g' = g.
Proof. unfold parsed, st_lift. destruct r as [x|e]; [|done]. by intros [= -> ->]. Qed.
Lemma required_ok {O A} (x : option A) (g : ProxyService O) a g' :
  required x g = (Ok a, g') → x = Some a ∧ g' = g.
Proof. unfold required, st_lift. destruct x as [x|]; [|done]. by intros [= -> ->]. Qed.
Lemma optional_ok `{UuidApi} {O} value (g : ProxyService O) a g' :
  parse_optional_revision value g = (Ok a, g') → g' = g.
Proof.
  unfold parse_optional_revision. destruct value as [v|]; [|by intros [= _ ->]].
  unfold parsed, mbind, st_bind, st_lift. destruct (proxy_revision_id_new v); [|done].
  by intros [= _ ->].
Qed.
Lemma sink_ok {O} (g : ProxyService O) a g' : require_event_sink g = (Ok a, g') → g' = g.
Proof. unfold require_event_sink. by intros [= _ ->]. Qed.

(** Follows a handler that answered, one step. *)
Ltac answered_step H :=
  let m := fresh "Hm" in let g := fresh "g" in let a := fresh "a" in
  apply st_bind_ok in H as (a & g & m & H);
  first [ apply parsed_ok in m as [? ->] | apply required_ok in m as [? ->]
        | apply optional_ok in m as -> | apply sink_ok in m as ->
        | apply st_lift_ok in m as [? ->]
        | apply auth_ok in m as (? & ? & ? & ? & ->)
        | apply on_store_ok in m as [m ?]
        | idtac ].

Section evidence.
Context `{AuthDeps, WireCodec, DomainDeps, UuidApi, !UuidBytes, !UuidLaws} {O : Type} `{OutboxLaws O}.
Context (resolve : string → result CommandError OperatorCaller).
Context {D : Type} (runtime : option (McpProxyRevision → string → result ProxyError D)).
Abbreviation P := (ProxyService O).

(** The store answers with a proxy of the scope it was asked under. *)
Definition answer_scope (a : Answer) (scope : ExactScope) : Prop :=
  match a with
  | ACreated r => px_scope (co_proxy r) = scope
  | AProxy p => px_scope p = scope
  | ARevision _ => True
  end.
Lemma replay_proxy_scope s key r p :
  wf s → ss_idempotency s !! key = Some r → replay_proxy r s = Ok p → px_scope p = id_scope r.
Proof.
  intros Hwf Hr. destruct (wf_requests s Hwf _ _ Hr) as (_ & (q & Hq & <-) & _).
  unfold replay_proxy. rewrite Hq. by intros [= <-].
Qed.
Lemma apply_op_scope fresh op m a m' :
  wf (guarded m) → apply_op fresh op m = (Ok a, m') → answer_scope a (op_scope op).
Proof.
  intros Hwf Ha. destruct m as [[] s]; simpl in *.
  { destruct (poisoned_refuses fresh op s) as [e He]. congruence. }
  pose proof (apply_op_ends fresh op s (wf_keyed s Hwf)) as He. rewrite Ha in He.
  unfold ends in He. simpl in He.
  inversion He as [| |record a' Hr Hh Hs Hrep|p rev lt a' Hn Heff _ _ _ _ Hans]; subst.
  - rewrite <-Hs. destruct op; simpl in Hrep |- *; destruct (replay_proxy record s) as [p|] eqn:Hp;
      try done; try (injection Hrep as <-; simpl; by eapply replay_proxy_scope);
      by destruct (replay_revision record s); [injection Hrep as <-|].
  - destruct (effect_identity s op p rev (wf_keyed s Hwf) Heff) as (_ & Hs & _).
    destruct op; simpl; try done; by destruct rev as [[? ?]|].
Qed.

Lemma created_scope fresh i m r m' :
  wf (guarded m) → memory_create_with_outcome fresh i m = (Ok r, m') → px_scope (co_proxy r) = cr_scope i.
Proof.
  intros Hwf Hm. apply (apply_op_scope fresh (OpCreate i) m (ACreated r) m' Hwf).
  unfold apply_op. rewrite answer_run. by rewrite Hm.
Qed.
Lemma updated_scope fresh i m p m' :
  wf (guarded m) → memory_update_draft fresh i m = (Ok p, m') → px_scope p = up_scope i.
Proof.
  intros Hwf Hm. apply (apply_op_scope fresh (OpUpdate i) m (AProxy p) m' Hwf).
  unfold apply_op. rewrite answer_run. by rewrite Hm.
Qed.

Lemma evidence_emitted {B} request_id scope env (g g1 gx : P) now event (y x : B) o operator :
  (authenticate resolve (ev_values env) (ev_now env) (ev_later env) (sv_auth g)).1 = Ok operator →
  sv_events g1 = Some (single o) → outbox_wf o →
  le_request_id event = request_id → le_actor_id event = subject operator → le_scope event = scope →
  (emit_event now event ≫= λ _, mret y) g1 = (Ok x, gx) →
  evidenced resolve request_id scope env o g gx.
Proof.
  intros Hop Ho Hwf Hr Ha Hs He. apply st_bind_ok in He as (u & g2 & He & Hret). injection Hret as _ <-.
  destruct (emit_event_ok now event g1 o g2 u Ho Hwf He) as (r & o' & Henc & Ho' & _ & Hrow & _).
  by exists operator, event, r, o'.
Qed.

(** A lifecycle step that answers leaves its evidence in the outbox. *)
Lemma lifecycle_ok fresh now scope actor request id rid expected reason command approved g p g' (o : O) :
  sv_events g = Some (single o) → outbox_wf o →
  lifecycle fresh now scope actor request id rid expected reason command approved g = (Ok p, g') →
  ∃ event r o', encode event = Ok r ∧ le_request_id event = request ∧ le_actor_id event = actor
    ∧ le_scope event = scope ∧ sv_events g' = Some (single o') ∧ outbox_wf o'
    ∧ holds r o o' ∧ withdraws_none o o'.
Proof.
  intros Ho Hwf Hs. unfold lifecycle in Hs. do 2 answered_step Hs.
  apply st_bind_ok in Hs as (u & g2 & He & Hret). injection Hret as _ <-.
  assert (Hg : sv_events g0 = Some (single o)) by congruence.
  destruct (emit_event_ok now _ g0 o g2 u Hg Hwf He) as (r & o' & Henc & Ho' & Hwf' & Hrow & Hw).
  by eexists _, r, o'; split; [exact Henc|].
Qed.

(** C13. An acknowledged change has its evidence.  When the service answers a
    call that can change the store, there is an event with the identifier of the
    request, the scope of the call and the subject of the operator who made it,
    and the outbox holds that event: the row under the event's key has its very
    envelope while it waits for delivery, and an envelope of the same fingerprint
    once it was delivered.  The one exception is a row under that key which
    quarantine had withdrawn before the call: it stays as it was, and an outbox
    that does not compare with withdrawn rows answers all the same. *)
Theorem proxy_change_evidenced before env c request_id g a g' o :
  Forall op_typed before.*2 → sv_store g = run_store before new_store →
  sv_events g = Some (single o) → outbox_wf o →
  call_request c = Some request_id → serve resolve runtime env c g = (Ok a, g') →
  evidenced resolve request_id (call_scope c) env o g g'.
Proof.
  intros Hb Hst Ho Hwf Hc Hs.
  assert (Hwfs : wf (guarded (sv_store g))) by (rewrite Hst; by apply run_store_wf, wf_default).
  clear Hst. destruct c as [q|q|q|q|q|q|q|q|q|q|q|q|q|q|q]; try done; injection Hc as <-;
    cbn [serve call_scope] in *; apply st_bind_ok in Hs as (x & gx & Hs & Hret); injection Hret as _ <-.
  - unfold create_proxy in Hs. do 4 answered_step Hs.
    eapply evidence_emitted; [done| |done|..|exact Hs]; [congruence|done|done|].
    refine (created_scope _ _ _ _ _ _ Hm). congruence.
  - unfold update_proxy_draft in Hs. do 9 answered_step Hs.
    eapply evidence_emitted; [done| |done|..|exact Hs]; [congruence|done|done|].
    refine (updated_scope _ _ _ _ _ _ Hm). congruence.
  - unfold publish_proxy_revision in Hs. do 6 answered_step Hs.
    eapply evidence_emitted; [done| |done|..|exact Hs]; [congruence|done..].
  - unfold validate_proxy in Hs. do 7 answered_step Hs.
    destruct (negb _); [done|]. do 2 answered_step Hs.
    answered_step Hs. answered_step Hs. injection Hs as _ <-.
    assert (Hg : sv_events g1 = Some (single o)) by congruence.
    destruct (lifecycle_ok _ _ _ _ _ _ _ _ _ _ _ _ _ _ o Hg Hwf Hm0)
      as (_ & _ & o1 & _ & _ & _ & _ & Ho1 & Hwf1 & _ & Hw).
    destruct (lifecycle_ok _ _ _ _ _ _ _ _ _ _ _ _ _ _ o1 Ho1 Hwf1 Hm1)
      as (event & r & o2 & He & Hr & Ha & Hsc & Ho2 & _ & Hrow & _).
    eexists _, event, r, o2. split_and!; [done..|by eapply holds_from].
Qed.

(** ** Repeated calls *)

Lemma parsed_err {A} (r : result ProxyError A) (g : P) e g' : parsed r g = (Err e, g') → g' = g.
Proof. unfold parsed, st_lift. by intros [= _ ->]. Qed.
Lemma optional_some value (g : P) a :
  parse_optional_revision value g = (Ok a, g) → ∀ g', parse_optional_revision (O:=O) value g' = (Ok a, g').
Proof.
  unfold parse_optional_revision. destruct value as [v|]; [|by intros [= <-]].
  unfold parsed, mbind, st_bind, st_lift. destruct (proxy_revision_id_new v); [|done]. by intros [= <-].
Qed.
Lemma auth_store env scope (g : P) : sv_store (authenticate_scope resolve env scope g).2 = sv_store g.
Proof.
  unfold authenticate_scope, on_auth, st_map_err, st_zoom, mbind, st_bind.
  destruct (authenticate _ _ _ _ _) as [[op|] a]; simpl; [|done]. by destruct (allows_scope _ _ _).
Qed.
Lemma optional_store value (g : P) : (parse_optional_revision value g).2 = g.
Proof.
  unfold parse_optional_revision. destruct value as [v|]; [|done].
  unfold parsed, mbind, st_bind, st_lift. by destruct (proxy_revision_id_new v).
Qed.
Lemma emit_event_store now event (g : P) : sv_store (emit_event now event g).2 = sv_store g.
Proof. unfold emit_event. destruct (sv_events g); [|done]. by destruct (emit now event _). Qed.

Definition publish_input (q : PublishProxyRevisionRequest) (draft : ProxyRevisionId)
    (expected : option ProxyRevisionId) (actor : string) : PublishRevision :=
  mkPublish (pr_request_id q) (pr_workspace_id q, pr_namespace_id q) (pr_proxy_id q) draft expected actor.

(** A publication that changed the store asked it to publish. *)
Lemma publish_reached env q (g : P) e g1 :
  publish_proxy_revision resolve env q g = (Err e, g1) → sv_store g1 ≠ sv_store g →
  ∃ operator draft expected r,
    (authenticate resolve (ev_values env) (ev_now env) (ev_later env) (sv_auth g)).1 = Ok operator
    ∧ proxy_id_new (pr_proxy_id q) = Ok (pr_proxy_id q)
    ∧ proxy_revision_id_new (pr_draft_revision_id q) = Ok draft
    ∧ (∀ g', parse_optional_revision (O:=O) (pr_expected_revision_id q) g' = (Ok expected, g'))
    ∧ memory_publish_revision (ev_fresh env) (publish_input q draft expected (subject operator)) (sv_store g)
      = (r, sv_store g1).
Proof.
  intros Hs Hne. unfold publish_proxy_revision in Hs.
  apply st_bind_err in Hs as [Ha|(actor & ga & Ha & Hs)].
  { destruct Hne. pose proof (auth_store env (pr_workspace_id q, pr_namespace_id q) g) as Hg. by rewrite Ha in Hg. }
  apply auth_ok in Ha as (_ & Hst & operator & Hop & ->).
  apply st_bind_err in Hs as [Hk|(? & ? & Hk & Hs)].
  { destruct Hne. unfold require_event_sink in Hk. injection Hk as _ <-. done. }
  apply sink_ok in Hk as ->.
  apply st_bind_err in Hs as [Hk%parsed_err|(? & ? & Hk & Hs)]; [destruct Hne; congruence|].
  apply parsed_ok in Hk as [Hid ->]. destruct (proxy_id_new_ok _ _ Hid) as [-> _].
  apply st_bind_err in Hs as [Hk%parsed_err|(draft & ? & Hk & Hs)]; [destruct Hne; congruence|].
  apply parsed_ok in Hk as [Hd ->].
  apply st_bind_err in Hs as [Hk|(expected & gx & Hk & Hs)].
  { destruct Hne. pose proof (optional_store (pr_expected_revision_id q) ga) as Hg. rewrite Hk in Hg.
    simpl in Hg. congruence. }
  pose proof (optional_ok _ _ _ _ Hk) as ->. pose proof (optional_some _ _ _ Hk) as Hx.
  exists operator, draft, expected. rewrite <-Hst.
  assert (Hon : ∀ r g', on_store (memory_publish_revision (ev_fresh env)
      (publish_input q draft expected (subject operator))) ga = (r, g') →
    ∃ r', memory_publish_revision (ev_fresh env) (publish_input q draft expected (subject operator))
      (sv_store ga) = (r', sv_store g')).
  { intros r g'. unfold on_store, st_map_err, st_zoom.
    destruct (memory_publish_revision _ _ _) as [r' s']. intros [= _ <-]. by exists r'. }
  apply st_bind_err in Hs as [Hk'|(v & g' & Hk' & Hs)].
  - destruct (Hon _ _ Hk') as [r Hr]. by exists r.
  - destruct (Hon _ _ Hk') as [r Hr]. exists r. split_and!; try done. rewrite Hr. f_equal.
    apply st_bind_err in Hs as [He|(? & ? & He & Hs)]; [|done].
    match type of He with emit_event ?n ?ev _ = _ => pose proof (emit_event_store n ev g') as Hg end.
    by rewrite He in Hg.
Qed.

(** A request that changed the store, and left it usable, was committed. *)
Lemma changed_commits fresh op m r m' :
  wf (guarded m) → apply_op fresh op m = (r, m') → m' ≠ m → poisoned m' = false →
  ∃ s' a, m' = mkMutex false s' ∧ r = Ok a
    ∧ answered op (mkIdempotency (op_request op) (op_name op) (op_hash op) (op_proxy op)
                     (op_revision op) (op_scope op)) s'.
Proof.
  intros Hwf Ha Hne Hp. destruct m as [[] s]; simpl in *.
  { destruct (poisoned_refuses fresh op s) as [e He]. congruence. }
  pose proof (apply_op_ends fresh op s (wf_keyed s Hwf)) as He. rewrite Ha in He.
  unfold ends in He. simpl in He. inversion He; subst; try done.
  eexists _, _. split; [done|]. split; [done|]. split; [|done].
  cbn [ss_idempotency commit]. by rewrite lookup_insert_eq.
Qed.

Definition publish_event (q : PublishProxyRevisionRequest) (actor : string) : ProxyLifecycleEvent :=
  mkLifecycleEvent (pr_request_id q) "publish_proxy_revision" (pr_workspace_id q, pr_namespace_id q)
    (pr_proxy_id q) (Some (pr_request_id q)) actor "proxy.revision_published".

(** A published request is answered again with the revision it stored. *)
Lemma publish_again fresh fresh' q draft expected actor m r m1 later s2 :
  wf (guarded m) → is_id (pr_proxy_id q) →
  memory_publish_revision fresh (publish_input q draft expected actor) m = (r, m1) → m1 ≠ m →
  Forall op_typed later.*2 → run_store later m1 = mkMutex false s2 →
  ∃ v, memory_publish_revision fresh' (publish_input q draft expected actor) (mkMutex false s2)
       = (Ok v, mkMutex false s2)
    ∧ rv_proxy_id v = pr_proxy_id q ∧ rv_revision_id v = pr_request_id q.
Proof.
  intros Hwf Hid Hr Hne Hl Hs2. set (op := OpPublish (publish_input q draft expected actor)).
  assert (Ht : op_typed op) by (by split).
  assert (Happ : ∀ f n, apply_op f op n = answer ARevision
    (memory_publish_revision f (publish_input q draft expected actor)) n) by done.
  assert (Hp : poisoned m1 = false).
  { destruct m1 as [[] s1]; [|done]. by rewrite poisoned_stays in Hs2. }
  assert (Ha : apply_op fresh op m = (ARevision <$> r, m1)).
  { rewrite Happ, answer_run, Hr. by destruct r. }
  destruct (changed_commits fresh op m _ m1 Hwf Ha Hne Hp) as (s1 & a & -> & Hok & Han).
  rewrite Hok in Ha.
  pose proof (run_store_wf [(fresh, op)] m (proj2 (Forall_singleton _ _) Ht) Hwf) as Hw.
  cbn [run_store] in Hw. rewrite Ha in Hw.
  pose proof (run_store_wf later (mkMutex false s1) Hl Hw) as Hw2. rewrite Hs2 in Hw2.
  pose proof Han as (Hrec & Hh & Hsc).
  pose proof (run_records_kept later (mkMutex false s1) _ _ Hl Hw Hrec) as Hrec2. rewrite Hs2 in Hrec2.
  destruct (answered_again fresh fresh' op _ m a _ s2 Ha Hw2 (conj Hrec2 (conj Hh Hsc))) as (a' & Ha' & Hsub).
  destruct (wf_requests s2 Hw2 _ _ Hrec2) as (_ & _ & _ & Hrev).
  destruct (Hrev (or_introl eq_refl)) as [rid Hrid]. cbn in Hrid.
  destruct (proxy_revision_id_new (pr_request_id q)) as [rid'|] eqn:Hn; [|done].
  rewrite Happ, answer_run in Ha'.
  destruct (memory_publish_revision fresh' _ (mkMutex false s2)) as [[v|] m3]; [|done].
  injection Ha' as <- ->. exists v. split; [done|]. cbn in Hsub. rewrite Hn in Hsub.
  injection Hsub as -> ->. split; [done|]. by apply proxy_revision_id_ok.
Qed.

Lemma auth_grant env scope (g : P) operator :
  (authenticate resolve (ev_values env) (ev_now env) (ev_later env) (sv_auth g)).1 = Ok operator →
  allows_scope operator scope.1 scope.2 = true →
  ∃ a, authenticate_scope resolve env scope g
       = (Ok (subject operator), mkProxyService a (sv_store g) (sv_events g)).
Proof.
  unfold authenticate_scope, on_auth, st_map_err, st_zoom, mbind, st_bind.
  destruct (authenticate _ _ _ _ _) as [[op|] a]; [|done]. simpl. intros [= ->] ->. by exists a.
Qed.

(** C14. Repeating a publication whose evidence failed completes it.  Where a
    publication changed the store and was answered with an error, and the store
    is still usable after whatever requests came since, the same request by an
    operator of the same subject publishes nothing again: once the outbox takes
    the event, the call answers with the revision the first one published. *)
Theorem proxy_retry_completes before env q g e g1 later env' g2 first operator b b' :
  Forall op_typed before.*2 → Forall op_typed later.*2 → sv_store g = run_store before new_store →
  publish_proxy_revision resolve env q g = (Err e, g1) → sv_store g1 ≠ sv_store g →
  sv_store g2 = run_store later (sv_store g1) → poisoned (sv_store g2) = false →
  (authenticate resolve (ev_values env) (ev_now env) (ev_later env) (sv_auth g)).1 = Ok first →
  (authenticate resolve (ev_values env') (ev_now env') (ev_later env') (sv_auth g2)).1 = Ok operator →
  subject operator = subject first →
  allows_scope operator (pr_workspace_id q) (pr_namespace_id q) = true →
  sv_events g2 = Some b →
  emit (ev_outbox env') (publish_event q (subject operator)) b = (Ok tt, b') →
  ∃ v a, publish_proxy_revision resolve env' q g2 = (Ok v, mkProxyService a (sv_store g2) (Some b'))
    ∧ pv_proxy_id v = pr_proxy_id q ∧ pv_revision_id v = pr_request_id q.
Proof.
  intros Hb Hl Hst Hs Hne Hst2 Hp Hfirst Hop Hsub Hal Hev Hem.
  destruct (publish_reached env q g e g1 Hs Hne) as (op1 & draft & expected & r & Hop1 & Hid & Hd & Hx & Hr).
  assert (op1 = first) as -> by congruence. rewrite <-Hsub in Hr.
  assert (Hwf : wf (guarded (sv_store g))) by (rewrite Hst; by apply run_store_wf, wf_default).
  destruct (sv_store g2) as [[] s2] eqn:Hg2; [done|].
  destruct (publish_again _ (ev_fresh env') _ _ _ _ _ _ _ _ _ Hwf (proj2 (proxy_id_new_ok _ _ Hid)) Hr Hne Hl
    (eq_sym Hst2)) as (v & Hv & Hvp & Hvr).
  destruct (auth_grant env' (pr_workspace_id q, pr_namespace_id q) g2 operator Hop Hal) as [a Ha].
  exists (revision_to_proto v), a. split; [|done].
  unfold publish_proxy_revision. unfold mbind at 1, st_bind at 1. rewrite Ha, Hg2, Hev.
  unfold mbind, st_bind, parsed, st_lift. rewrite Hid, Hd. cbn [map_err require_event_sink sv_events].
  rewrite Hx.
  unfold on_store, st_map_err, st_zoom. cbn [sv_store]. unfold publish_input in Hv. rewrite Hv.
  unfold emit_event. cbn [map_err sv_events sv_auth sv_store]. rewrite Hvp, Hvr.
  unfold publish_event in Hem. rewrite Hem. done.
Qed.

(** A proxy can be created without evidence.  The store accepts a request
    identifier of version 7 and any variant, the event sink only those of the
    RFC variant: a creation under any other is committed and then refused as
    invalid, and the outbox has no event of it. *)
Theorem created_without_evidence env q (g : P) operator b outcome m :
  (authenticate resolve (ev_values env) (ev_now env) (ev_later env) (sv_auth g)).1 = Ok operator →
  allows_scope operator (cq_workspace_id q) (cq_namespace_id q) = true →
  sv_events g = Some b → is_lowercase_uuidv7 (cq_request_id q) = false →
  is_ok (proxy_id_new (cq_proxy_id q)) = true →
  memory_create_with_outcome (ev_fresh env)
    (mkCreate (cq_request_id q) (cq_workspace_id q, cq_namespace_id q) (cq_proxy_id q)
       (cq_display_name q) (cq_slug q) (cq_description q) (cq_owner q)) (sv_store g) = (Ok outcome, m) →
  ∃ a, create_proxy resolve env q g = (Err invalid_status, mkProxyService a m (Some b)).
Proof.
  intros Hop Hal Hev Hodd Hid Hm.
  destruct (auth_grant env (cq_workspace_id q, cq_namespace_id q) g operator Hop Hal) as [a Ha].
  destruct (proxy_id_new (cq_proxy_id q)) as [id|] eqn:Hn; [|done].
  pose proof (proj1 (proxy_id_new_ok _ _ Hn)) as ->. exists a.
  unfold create_proxy. unfold mbind at 1, st_bind at 1. rewrite Ha, Hev.
  unfold mbind, st_bind, parsed, st_lift. rewrite Hn. cbn [map_err require_event_sink sv_events].
  unfold on_store, st_map_err, st_zoom. cbn [sv_store]. rewrite Hm.
  unfold emit_event, emit, encode, validate_event. cbn [sv_events le_request_id]. by rewrite Hodd.
Qed.
End evidence.

(** ** Concrete calls

    The life of the proxy of ProxyStoreWf, asked for over the service. *)
#[local] Instance dm_deps : DomainDeps := demo_deps.
#[local] Instance dm_digest : PayloadDigest := id.
#[local] Instance dm_bytes : UuidBytes :=
  {| uuid_as_bytes := pad 16; uuid_from_bytes _ := "0198c1a2-0000-7000-8000-0000000000ee" |}.
Lemma dm_uuid_laws : @UuidLaws dm_uuid.
Proof. intros s u Hs. unfold uuid_parse_str, dm_uuid, demo_uuid. rewrite Hs. by intros [= <-]. Defined.
#[local] Existing Instance dm_uuid_laws.

(** Alice may act everywhere, Bob in [acme/prod] only. *)
Definition dm_resolve (token : string) : result CommandError OperatorCaller :=
  if String.eqb token "alice-token" then Ok (mkOperator "alice" Global)
  else if String.eqb token "bob-token" then Ok (mkOperator "bob" (Scoped {["acme/prod"]}))
  else Err unauthenticated.
Definition dm_runtime : option (McpProxyRevision → string → result ProxyError unit) := None.
Definition dm_env (token : string) : CallEnv :=
  mkCallEnv ["Bearer " +:+ token] (from_secs 1) (from_secs 1) "log" demo_now "log" demo_now.
Definition dm_outbox (capacity : N) : InMemoryOutbox := mkMemory capacity ∅ ∅ ∅ ∅ ∅ ∅ ∅.
Definition dm_service (ops : list StoreOp) (capacity : N) : ProxyService InMemoryOutbox :=
  mkProxyService (mutex_new ∅) (run_store (dm_run ops) new_store) (Some (single (dm_outbox capacity))).
Definition dm_publish_call : PublishProxyRevisionRequest :=
  mkPublishRequest (dm_request "3") "acme" "prod" dm_id (dm_request "2") None.
Definition dm_create_call (request_id workspace : string) : CreateProxyRequest :=
  mkCreateRequest request_id workspace "prod" dm_id "Portfolio" "portfolio" None None.

Lemma proxy_call_confined_witness :
  let g := dm_service [dm_create] 10 in
  let c := CallCreate (dm_create_call (dm_request "9") "other") in
  is_ok (serve dm_resolve dm_runtime (dm_env "bob-token") c g).1 = false
  ∧ sv_store (serve dm_resolve dm_runtime (dm_env "bob-token") c g).2 = sv_store g.
Proof.
  cbv zeta. set (g := dm_service [dm_create] 10).
  set (c := CallCreate (dm_create_call (dm_request "9") "other")).
  destruct (proxy_call_confined dm_resolve dm_runtime (dm_run [dm_create]) (dm_env "bob-token") c g
    (serve dm_resolve dm_runtime (dm_env "bob-token") c g).2 (QGet dm_scope dm_id)) as [H _].
  - by apply dm_typed; [|repeat constructor].
  - reflexivity.
  - reflexivity.
  - vm_compute. reflexivity.
  - destruct H as (Hr & Hs & _); [vm_compute; reflexivity|]. by split.
Defined.

Lemma proxy_change_evidenced_witness :
  ∃ a g', serve dm_resolve dm_runtime (dm_env "bob-token") (CallPublish dm_publish_call)
            (dm_service [dm_create; dm_update] 10) = (Ok a, g')
    ∧ evidenced dm_resolve (dm_request "3") dm_scope (dm_env "bob-token") (dm_outbox 10)
        (dm_service [dm_create; dm_update] 10) g'.
Proof.
  destruct (serve dm_resolve dm_runtime (dm_env "bob-token") (CallPublish dm_publish_call)
    (dm_service [dm_create; dm_update] 10)) as [[a|] g'] eqn:E;
    [|by apply (f_equal (is_ok ∘ fst)) in E; vm_compute in E].
  exists a, g'. split; [done|].
  apply (proxy_change_evidenced dm_resolve dm_runtime (dm_run [dm_create; dm_update]) (dm_env "bob-token")
    (CallPublish dm_publish_call) (dm_request "3") (dm_service [dm_create; dm_update] 10) a g' (dm_outbox 10)).
  - by apply dm_typed; [|repeat constructor].
  - reflexivity.
  - reflexivity.
  - by apply (memory_new_wf 10).
  - reflexivity.
  - exact E.
Defined.

(** The outbox is full at first. *)
Definition dm_refill (g : ProxyService InMemoryOutbox) : ProxyService InMemoryOutbox :=
  mkProxyService (sv_auth g) (sv_store g) (Some (single (dm_outbox 10))).

Lemma proxy_retry_completes_witness :
  let g := dm_service [dm_create; dm_update] 0 in
  let publish := publish_proxy_revision dm_resolve (dm_env "bob-token") dm_publish_call in
  (publish g).1 = Err (proxy_status event_sink_unavailable)
  ∧ ∃ v, (publish (dm_refill (publish g).2)).1 = Ok v ∧ pv_revision_id v = dm_request "3".
Proof.
  cbv zeta. set (g := dm_service [dm_create; dm_update] 0).
  set (publish := publish_proxy_revision dm_resolve (dm_env "bob-token") dm_publish_call).
  assert (H1 : (publish g).1 = Err (proxy_status event_sink_unavailable)) by (vm_compute; reflexivity).
  assert (Hn : bool_decide (size (ss_idempotency (guarded (sv_store (publish g).2))) = 3%nat)
               && bool_decide (size (ss_idempotency (guarded (sv_store g))) = 2%nat) = true)
    by (vm_compute; reflexivity).
  split; [exact H1|]. destruct (publish g) as [r g1] eqn:Hp. cbn [fst snd] in *. subst r.
  apply andb_true_iff in Hn as [Hn1%bool_decide_eq_true Hn2%bool_decide_eq_true].
  destruct (emit (ev_outbox (dm_env "bob-token")) (publish_event dm_publish_call "bob") (single (dm_outbox 10)))
    as [u b'] eqn:He.
  assert (Hu : (emit (ev_outbox (dm_env "bob-token")) (publish_event dm_publish_call "bob")
    (single (dm_outbox 10))).1 = Ok tt) by (vm_compute; reflexivity).
  rewrite He in Hu. cbn in Hu. subst u.
  destruct (proxy_retry_completes dm_resolve (dm_run [dm_create; dm_update]) (dm_env "bob-token")
    dm_publish_call g (proxy_status event_sink_unavailable) g1 [] (dm_env "bob-token") (dm_refill g1) (mkOperator "bob" (Scoped {["acme/prod"]}))
    (mkOperator "bob" (Scoped {["acme/prod"]})) (single (dm_outbox 10)) b') as (v & a & Hv & _ & Hr).
  - by apply dm_typed; [|repeat constructor].
  - constructor.
  - reflexivity.
  - exact Hp.
  - intros Heq. rewrite Heq, Hn2 in Hn1. discriminate Hn1.
  - reflexivity.
  - change g1 with (Err (A:=PRevision) (proxy_status event_sink_unavailable), g1).2. rewrite <-Hp.
    vm_compute. reflexivity.
  - vm_compute. reflexivity.
  - change g1 with (Err (A:=PRevision) (proxy_status event_sink_unavailable), g1).2. rewrite <-Hp.
    vm_compute. reflexivity.
  - reflexivity.
  - vm_compute. reflexivity.
  - reflexivity.
  - exact He.
  - exists v. split; [exact (f_equal fst Hv)|exact Hr].
Defined.

Lemma created_without_evidence_witness :
  let deps := @Build_UuidBytes any_variant_uuid (pad 16) (λ _, EmptyString) in
  let g := mkProxyService (mutex_new ∅) new_store (Some (single (dm_outbox 10))) in
  ∃ g', @create_proxy dm_auth dm_wire dm_deps any_variant_uuid deps _ _ dm_resolve (dm_env "bob-token")
          (dm_create_call (up_request_id dm_odd) "acme") g = (Err invalid_status, g')
    ∧ sv_events g' = sv_events g ∧ is_Some (ss_proxies (guarded (sv_store g')) !! dm_id).
Proof.
  cbv zeta. set (deps := @Build_UuidBytes any_variant_uuid (pad 16) (λ _, EmptyString)).
  set (g := mkProxyService (mutex_new ∅) new_store (Some (single (dm_outbox 10)))).
  assert (Hl : @UuidLaws any_variant_uuid).
  { intros s u _. unfold uuid_parse_str, any_variant_uuid. destruct (_ =? _); by intros [= <-]. }
  set (i := mkCreate (up_request_id dm_odd) ("acme", "prod") dm_id "Portfolio" "portfolio" None None).
  destruct (@memory_create_with_outcome dm_auth dm_wire any_variant_uuid "log" i (sv_store g)) as [[out|] m] eqn:Hm;
    [|by apply (f_equal (is_ok ∘ fst)) in Hm; vm_compute in Hm].
  assert (Hs : is_Some (ss_proxies (guarded m) !! dm_id)).
  { apply (f_equal snd) in Hm. cbn in Hm. rewrite <-Hm. vm_compute. by eexists. }
  destruct (@created_without_evidence dm_auth dm_wire dm_deps any_variant_uuid deps Hl _ _ dm_resolve
    (dm_env "bob-token") (dm_create_call (up_request_id dm_odd) "acme") g
    (mkOperator "bob" (Scoped {["acme/prod"]})) (single (dm_outbox 10)) out m) as [a Ha].
  - vm_compute. reflexivity.
  - vm_compute. reflexivity.
  - reflexivity.
  - vm_compute. reflexivity.
  - vm_compute. reflexivity.
  - exact Hm.
  - eexists. split; [exact Ha|]. by split.
Defined.
