(* ===== verification/Governance.v ===== *)
(** * The policy authority

    [apps/control-plane-api/src/governance.rs] over the types of the crate
    [apex-policy]: the service that answers the tool gateway.  It takes a
    dedicated credential, reads a request into an authenticated caller, an exact
    scope and validated names, and evaluates one immutable read-only policy. *)
From Stdlib Require Import Ascii.
From S2P Require Import Prelude RustStr Digits ProxyText Time Errors OperatorAuth Caller Convert.

Open Scope N_scope.

(** ** apex-policy *)

(** [IdentifierKind]. *)
Inductive IdentifierKind :=
  | KToolName | KActionName | KResourceName | KPolicyId | KReasonCode | KBackendName | KFieldPath
  | KTraceId | KSpanId | KRunId | KEventId | KUnknown.
(** [GovernanceInputError]. *)
Inductive GovernanceInputError :=
  | InvalidScope
  | InvalidPrincipal
  | ScopeNotAllowed
  | InvalidIdentifier (kind : IdentifierKind).

(** [validated_identifier!]: the constructor of each name type. *)
Definition identifier_new (kind : IdentifierKind) (value : string)
    : result GovernanceInputError string :=
  if is_identifier value then Ok value else Err (InvalidIdentifier kind).

Record GovernanceScope := mkGovernanceScope {
  gs_workspace_id : string;
  gs_namespace_id : string;
}.
#[global] Instance GovernanceScope_eq_dec : EqDecision GovernanceScope.
Proof. solve_decision. Defined.
#[global] Program Instance GovernanceScope_countable : Countable GovernanceScope :=
  inj_countable' (λ s, (gs_workspace_id s, gs_namespace_id s))
    (λ '(w, n), mkGovernanceScope w n) _.
Next Obligation. by intros []. Qed.

(** [GovernanceScope::new] and [GovernanceScope::key]. *)
Definition governance_scope_new (workspace_id namespace_id : string)
    : result GovernanceInputError GovernanceScope :=
  if negb (is_identifier workspace_id) || negb (is_identifier namespace_id) then Err InvalidScope
  else Ok (mkGovernanceScope workspace_id namespace_id).
Definition governance_key (s : GovernanceScope) : string :=
  gs_workspace_id s +:+ "/" +:+ gs_namespace_id s.

Record TraceContext := mkTraceContext {
  tc_trace_id : string;
  tc_span_id : option string;
  tc_parent_span_id : option string;
  tc_run_id : option string;
}.
(** [Option::map(..).transpose()]. *)
Definition optional_identifier (kind : IdentifierKind) (value : option string)
    : result GovernanceInputError (option string) :=
  match value with
  | None => Ok None
  | Some v => v ← identifier_new kind v; Ok (Some v)
  end.
(** [TraceContext::new]. *)
Definition trace_context_new (trace_id : string) (span_id parent_span_id run_id : option string)
    : result GovernanceInputError TraceContext :=
  trace_id ← identifier_new KTraceId trace_id;
  span_id ← optional_identifier KSpanId span_id;
  parent_span_id ← optional_identifier KSpanId parent_span_id;
  run_id ← optional_identifier KRunId run_id;
  Ok (mkTraceContext trace_id span_id parent_span_id run_id).

(** [apex_policy::DataClassification]. *)
Inductive PolicyClassification := PPublic | PInternal | PConfidential | PRestricted.
#[global] Instance PolicyClassification_eq_dec : EqDecision PolicyClassification.
Proof. solve_decision. Defined.

Record AuthorizationRequest := mkAuthorization {
  az_caller : Caller;
  az_scope : GovernanceScope;
  az_tool : string;
  az_action : string;
  az_resource : string;
  az_classification : PolicyClassification;
  az_trace : TraceContext;
}.
(** [AuthorizationRequest::new]. *)
Definition authorization_new (caller : Caller) (scope : GovernanceScope) (tool action resource : string)
    (classification : PolicyClassification) (trace : TraceContext)
    : result GovernanceInputError AuthorizationRequest :=
  if negb (caller_is_valid caller) then Err InvalidPrincipal
  else if negb (caller_allows_scope caller (governance_key scope)) then Err ScopeNotAllowed
  else Ok (mkAuthorization caller scope tool action resource classification trace).

(** ** Messages *)

(** [GovernanceCaller], [GovernanceScope] and [GovernanceTrace] as pairs of
    their two fields. *)
Record GovernanceAuthorizationRequest := mkGovernanceRequest {
  gr_caller : option (string * string);
  gr_scope : option (string * string);
  gr_tool : string;
  gr_action : string;
  gr_resource : string;
  gr_classification : string;
  gr_trace : option (string * string);
}.
(** [GovernanceOutcome]. *)
Inductive GovernanceOutcome := OutcomeUnspecified | OutcomeAllowed | OutcomeDenied | OutcomeRequiresApproval.
Record GovernanceAuthorizationDecision := mkDecision {
  gd_outcome : GovernanceOutcome;
  gd_policy_id : string;
  gd_reason_code : string;
  gd_field_restrictions : list string;
}.
Record GovernancePolicySnapshot := mkSnapshot {
  gn_scope : option (string * string);
  gn_policy_id : string;
  gn_revision : N;
}.

(** ** The policy *)

Definition TOOL : string := "portfolio.read".
Definition ACTION : string := "read".
Definition CLASSIFICATION : string := "confidential".
Definition ALLOWED_REASON : string := "policy.allowed".
Definition DENIED_REASON : string := "policy.denied".

Record GovernanceConfig := mkGovernanceConfig {
  gc_allowed_resources : gset string;
  gc_allowed_scopes : gset GovernanceScope;
  gc_policy_id : string;
  gc_revision : N;
  gc_field_restrictions : list string;
}.

(** [invalid_config] and [invalid_request]. *)
Definition invalid_config : string := "invalid governance configuration".
Definition invalid_request : Status :=
  mkStatus GrpcInvalidArgument "INVALID_GOVERNANCE_REQUEST: request rejected safely".
Definition governance_scope_denied : Status :=
  mkStatus GrpcPermissionDenied "GOVERNANCE_SCOPE_DENIED: request rejected safely".

(** [is_portfolio_id]. *)
Definition is_portfolio_byte (c : ascii) : bool :=
  in_range "a" "z" c || is_ascii_digit c || ascii_eqb c "-" || ascii_eqb c "_".
Definition is_portfolio_id (value : string) : bool :=
  negb (str_is_empty value) && (str_len value <=? 64) && str_all is_portfolio_byte value.

Section policy.
Context `{AuthDeps}.

(** [portfolio_resource_reference]. *)
Definition portfolio_resource_reference (portfolio_id : string) : string :=
  "portfolio:sha256:" +:+ hex_string (sha256_digest portfolio_id).

(** The two loops of [GovernanceConfig::new]. *)
Fixpoint config_resources (resources : gset string) (portfolio_ids : list string)
    : result string (gset string) :=
  match portfolio_ids with
  | [] => Ok resources
  | portfolio_id :: portfolio_ids =>
      if negb (is_portfolio_id portfolio_id) then Err invalid_config
      else
        resource ← map_err (λ _, invalid_config)
          (identifier_new KResourceName (portfolio_resource_reference portfolio_id));
        config_resources ({[resource]} ∪ resources) portfolio_ids
  end.
Fixpoint config_scopes (allowed : gset GovernanceScope) (scopes : list string)
    : result string (gset GovernanceScope) :=
  match scopes with
  | [] => Ok allowed
  | scope :: scopes =>
      pair ← ok_or (split_once "/" scope) invalid_config;
      scope ← map_err (λ _, invalid_config) (governance_scope_new pair.1 pair.2);
      config_scopes ({[scope]} ∪ allowed) scopes
  end.

(** [GovernanceConfig::new]. *)
Definition governance_config_new (portfolio_ids scopes : list string) (policy_id : string)
    (revision : N) (field_restrictions : list string) : result string GovernanceConfig :=
  allowed_resources ← config_resources ∅ portfolio_ids;
  if bool_decide (allowed_resources = ∅) then Err invalid_config
  else
    allowed_scopes ← config_scopes ∅ scopes;
    if bool_decide (allowed_scopes = ∅) then Err invalid_config
    else
      policy_id ← map_err (λ _, invalid_config) (identifier_new KPolicyId policy_id);
      field_restrictions ←
        collect (λ f, map_err (λ _, invalid_config) (identifier_new KFieldPath f)) field_restrictions;
      if revision =? 0 then Err invalid_config
      else Ok (mkGovernanceConfig allowed_resources allowed_scopes policy_id revision field_restrictions).

(** [GovernanceConfig::allows]. *)
Definition governance_allows (c : GovernanceConfig) (request : AuthorizationRequest) : bool :=
  bool_decide (az_scope request ∈ gc_allowed_scopes c)
  && bool_decide (az_resource request ∈ gc_allowed_resources c)
  && String.eqb (az_tool request) TOOL
  && String.eqb (az_action request) ACTION
  && bool_decide (az_classification request = PConfidential).

Definition classification_of (value : string) : option PolicyClassification :=
  if String.eqb value "public" then Some PPublic
  else if String.eqb value "internal" then Some PInternal
  else if String.eqb value CLASSIFICATION then Some PConfidential
  else if String.eqb value "restricted" then Some PRestricted
  else None.

(** [map_err(|_| invalid_request())]. *)
Definition or_invalid {E A} (r : result E A) : result Status A := map_err (λ _, invalid_request) r.

(** [parse_authorization_request]. *)
Definition parse_authorization_request (input : GovernanceAuthorizationRequest)
    : result Status AuthorizationRequest :=
  caller ← ok_or (gr_caller input) invalid_request;
  scope ← ok_or (gr_scope input) invalid_request;
  trace ← ok_or (gr_trace input) invalid_request;
  scope ← or_invalid (governance_scope_new scope.1 scope.2);
  caller ← or_invalid (authenticated_for_agent caller.1 caller.2 [governance_key scope]);
  tool ← or_invalid (identifier_new KToolName (gr_tool input));
  action ← or_invalid (identifier_new KActionName (gr_action input));
  resource ← or_invalid (identifier_new KResourceName (gr_resource input));
  classification ← ok_or (classification_of (gr_classification input)) invalid_request;
  trace ← or_invalid (trace_context_new trace.1 (Some trace.2) None None);
  or_invalid (authorization_new caller scope tool action resource classification trace).

(** [GovernanceConfig::evaluate], with [restrictions]. *)
Definition evaluate (c : GovernanceConfig) (input : GovernanceAuthorizationRequest)
    : result Status GovernanceAuthorizationDecision :=
  request ← parse_authorization_request input;
  let allowed := governance_allows c request in
  Ok (mkDecision (if allowed then OutcomeAllowed else OutcomeDenied) (gc_policy_id c)
        (if allowed then ALLOWED_REASON else DENIED_REASON)
        (if allowed then gc_field_restrictions c else [])).

(** [GovernanceConfig::snapshot]. *)
Definition snapshot (c : GovernanceConfig) (scope : string * string)
    : result Status GovernancePolicySnapshot :=
  scope ← or_invalid (governance_scope_new scope.1 scope.2);
  if negb (bool_decide (scope ∈ gc_allowed_scopes c)) then Err governance_scope_denied
  else Ok (mkSnapshot (Some (gs_workspace_id scope, gs_namespace_id scope)) (gc_policy_id c)
             (gc_revision c)).

(** [GovernanceGatewayService::authorize] and [get_policy]; the state is the
    authenticator's. *)
Definition authorize (c : GovernanceConfig) (values : list string) (now later : N)
    (input : GovernanceAuthorizationRequest)
    : ST GatewayAuthenticator Status GovernanceAuthorizationDecision :=
  st_map_err into_status (gateway_authenticate values now later) ≫= λ _,
  st_lift (evaluate c input).
Definition get_policy (c : GovernanceConfig) (values : list string) (now later : N)
    (scope : option (string * string)) : ST GatewayAuthenticator Status GovernancePolicySnapshot :=
  st_map_err into_status (gateway_authenticate values now later) ≫= λ _,
  scope ← st_lift (ok_or scope invalid_request);
  st_lift (snapshot c scope).
End policy.

(** ** What the policy grants *)

(** A request the authority can read. *)
Definition well_formed (q : GovernanceAuthorizationRequest) : bool :=
  match gr_caller q, gr_scope q, gr_trace q with
  | Some (principal, agent), Some (workspace, namespace), Some (trace, span) =>
      caller_subject_ok principal
      && forallb is_identifier
           [agent; workspace; namespace; gr_tool q; gr_action q; gr_resource q; trace; span]
      && bool_decide (gr_classification q ∈ ["public"; "internal"; CLASSIFICATION; "restricted"])
  | _, _, _ => false
  end.

Section exact.
Context `{AuthDeps}.

(** What the configuration grants: reading a listed portfolio, as confidential
    data, in a listed scope. *)
Definition granted (portfolio_ids scopes : list string) (q : GovernanceAuthorizationRequest) : bool :=
  match gr_scope q with
  | Some (workspace, namespace) => bool_decide (workspace +:+ "/" +:+ namespace ∈ scopes)
  | None => false
  end
  && bool_decide (gr_resource q ∈ portfolio_resource_reference <$> portfolio_ids)
  && String.eqb (gr_tool q) TOOL && String.eqb (gr_action q) ACTION
  && String.eqb (gr_classification q) CLASSIFICATION.

(** The answer to it. *)
Definition verdict (policy_id : string) (field_restrictions : list string) (allowed : bool)
    : GovernanceAuthorizationDecision :=
  if allowed then mkDecision OutcomeAllowed policy_id ALLOWED_REASON field_restrictions
  else mkDecision OutcomeDenied policy_id DENIED_REASON [].

(** The request carries the credential, up to its digest. *)
Definition presents (token : string) (values : list string) : bool :=
  match extract_bearer_token values with
  | Ok presented => String.eqb (sha256_digest presented) (sha256_digest token)
  | Err _ => false
  end.

Lemma identifier_new_ok kind v x : identifier_new kind v = Ok x ↔ is_identifier v = true ∧ x = v.
Proof. unfold identifier_new. destruct (is_identifier v); naive_solver. Qed.
Lemma governance_scope_new_ok w n s :
  governance_scope_new w n = Ok s ↔
  is_identifier w = true ∧ is_identifier n = true ∧ s = mkGovernanceScope w n.
Proof.
  unfold governance_scope_new. destruct (is_identifier w), (is_identifier n); simpl; naive_solver.
Qed.

Lemma config_resources_spec R R' l :
  config_resources R l = Ok R' → R' = list_to_set (portfolio_resource_reference <$> l) ∪ R.
Proof.
  revert R. induction l as [|p l IH]; intros R Hc; cbn [config_resources] in Hc.
  - injection Hc as <-. by rewrite fmap_nil, list_to_set_nil, (left_id_L ∅ (∪)).
  - destruct (is_portfolio_id p); [|done]. cbn [negb] in Hc.
    apply result_bind_ok in Hc as (r & Hr & Hc). unfold map_err in Hr.
    destruct (identifier_new _ _) as [x|] eqn:Hx; [|done]. injection Hr as <-.
    apply identifier_new_ok in Hx as [_ ->]. apply IH in Hc as ->. rewrite fmap_cons, list_to_set_cons. set_solver.
Qed.

Lemma config_scopes_spec A A' l s :
  config_scopes A l = Ok A' → is_identifier (gs_workspace_id s) = true →
  s ∈ A' ↔ governance_key s ∈ l ∨ s ∈ A.
Proof.
  intros Hc Hi. revert A Hc. induction l as [|x l IH]; intros A Hc; simpl in Hc.
  - injection Hc as <-. set_solver.
  - apply result_bind_ok in Hc as ([w n] & Hp%ok_or_ok & Hc). cbn [fst snd] in Hc.
    apply result_bind_ok in Hc as (y & Hy & Hc). unfold map_err in Hy.
    destruct (governance_scope_new w n) as [z|] eqn:Hz; [|done]. injection Hy as <-.
    apply governance_scope_new_ok in Hz as (Hw & Hn & ->).
    rewrite (IH _ Hc), elem_of_cons, elem_of_union, elem_of_singleton.
    apply split_once_join in Hp as ->. split; [intros [?|[->|?]]; auto|].
    intros [[He|?]|?]; auto. right. left. destruct s as [w' n']. unfold governance_key in He. cbn in *.
    pose proof (split_scope w n Hw) as H1. rewrite <-He, (split_scope w' n' Hi) in H1. congruence.
Qed.

Lemma caller_for_scope principal agent s :
  caller_subject_ok principal = true → is_identifier agent = true →
  is_identifier (gs_workspace_id s) = true → is_identifier (gs_namespace_id s) = true →
  ∃ c, authenticated_for_agent principal agent [governance_key s] = Ok c
       ∧ caller_is_valid c = true ∧ caller_allows_scope c (governance_key s) = true.
Proof.
  intros Hp Ha Hw Hn. destruct (authenticated_for_agent principal agent [governance_key s]) as [c|e] eqn:Hc.
  - destruct (authenticated_for_agent_spec _ _ _ _ Hc) as (_ & Hv & _ & Hs). exists c.
    split_and!; [done..|]. apply Hs. by apply list_elem_of_singleton.
  - exfalso. unfold authenticated_for_agent, caller_build in Hc. rewrite Hp in Hc. cbn in Hc. rewrite Ha in Hc.
    cbn in Hc. unfold scope_ok, governance_key in Hc. rewrite (split_scope _ _ Hw), Hw, Hn in Hc. cbn in Hc.
    rewrite (right_id_L ∅ (∪)), size_singleton in Hc. done.
Qed.

Lemma or_invalid_ok {E A} (r : result E A) (a : A) : or_invalid r = Ok a ↔ r = Ok a.
Proof. unfold or_invalid, map_err. destruct r; split; naive_solver. Qed.
Lemma trace_new_ok t s x :
  trace_context_new t (Some s) None None = Ok x ↔
  is_identifier t = true ∧ is_identifier s = true ∧ x = mkTraceContext t (Some s) None None.
Proof.
  unfold trace_context_new, optional_identifier, identifier_new.
  destruct (is_identifier t), (is_identifier s); cbn; naive_solver.
Qed.
Lemma classification_known v :
  bool_decide (v ∈ ["public"; "internal"; CLASSIFICATION; "restricted"]) = true
  ↔ is_Some (classification_of v).
Proof.
  rewrite bool_decide_eq_true, !elem_of_cons, elem_of_nil. unfold classification_of.
  destruct (String.eqb_spec v "public"); [naive_solver|].
  destruct (String.eqb_spec v "internal"); [naive_solver|].
  destruct (String.eqb_spec v CLASSIFICATION); [naive_solver|].
  destruct (String.eqb_spec v "restricted"); [naive_solver|].
  split; [naive_solver|by intros []].
Qed.

(** Reading succeeds exactly on well-formed requests, and keeps their fields. *)
Lemma parse_well_formed q :
  match parse_authorization_request q with
  | Ok r => well_formed q = true
      ∧ gr_scope q = Some (gs_workspace_id (az_scope r), gs_namespace_id (az_scope r))
      ∧ is_identifier (gs_workspace_id (az_scope r)) = true
      ∧ az_tool r = gr_tool q ∧ az_action r = gr_action q ∧ az_resource r = gr_resource q
      ∧ classification_of (gr_classification q) = Some (az_classification r)
  | Err e => well_formed q = false ∧ e = invalid_request
  end.
Proof.
  unfold parse_authorization_request, well_formed.
  destruct (gr_caller q) as [[principal agent]|]; [|done]. destruct (gr_scope q) as [[w n]|]; [|done].
  destruct (gr_trace q) as [[t s]|]; [|done]. cbn [ok_or fst snd forallb]. unfold mbind, result_bind.
  cbn [fst snd]. unfold governance_scope_new. destruct (is_identifier w) eqn:Hw;
    [|by cbn [negb orb andb or_invalid map_err]; rewrite !andb_false_r].
  destruct (is_identifier n) eqn:Hn;
    [|by cbn [negb orb andb or_invalid map_err]; rewrite !andb_false_r].
  cbn [negb orb or_invalid map_err].
  destruct (caller_subject_ok principal) eqn:Hp.
  2: { unfold authenticated_for_agent, caller_build. by rewrite Hp. }
  destruct (is_identifier agent) eqn:Ha.
  2: { unfold authenticated_for_agent, caller_build. rewrite Hp. cbn. by rewrite Ha. }
  destruct (caller_for_scope principal agent (mkGovernanceScope w n)) as (c & -> & Hv & Hal); [done..|].
  cbn [or_invalid map_err]. unfold identifier_new.
  destruct (is_identifier (gr_tool q)); [|done]. destruct (is_identifier (gr_action q)); [|done].
  destruct (is_identifier (gr_resource q)); [|done]. cbn [or_invalid map_err].
  pose proof (classification_known (gr_classification q)) as Hk.
  destruct (classification_of (gr_classification q)) as [k|]; cbn [ok_or].
  2: { destruct (bool_decide _); [by destruct (proj1 Hk eq_refl)|by rewrite andb_false_r]. }
  rewrite (proj2 Hk) by eauto. unfold trace_context_new, optional_identifier, identifier_new.
  destruct (is_identifier t); [|done]. destruct (is_identifier s); [|done]. cbn.
  unfold authorization_new. rewrite Hv, Hal. cbn. naive_solver.
Qed.

Lemma gateway_authenticated values now later g :
  is_ok (gateway_authenticate values now later g).1
  = match extract_bearer_token values with
    | Ok presented => String.eqb (sha256_digest presented) (expected_digest g)
    | Err _ => false
    end.
Proof.
  unfold gateway_authenticate. destruct (extract_bearer_token values) as [presented|]; [|done].
  destruct (String.eqb _ _); [done|]. unfold with_mutex. destruct (gateway_failures g) as [[] b]; [done|].
  by destruct (_ <=? _).
Qed.

Lemma config_grants portfolio_ids scopes policy_id revision fields c q r :
  governance_config_new portfolio_ids scopes policy_id revision fields = Ok c →
  parse_authorization_request q = Ok r →
  governance_allows c r = granted portfolio_ids scopes q
  ∧ gc_policy_id c = policy_id ∧ gc_field_restrictions c = fields ∧ gc_revision c = revision.
Proof.
  intros Hc Hr. pose proof (parse_well_formed q) as Hq. rewrite Hr in Hq.
  destruct Hq as (_ & Hs & Hi & Ht & Ha & Hre & Hk). unfold governance_config_new in Hc.
  apply result_bind_ok in Hc as (R & HR & Hc). apply if_err_then in Hc as [_ Hc].
  apply result_bind_ok in Hc as (A & HA & Hc). apply if_err_then in Hc as [_ Hc].
  apply result_bind_ok in Hc as (p & Hp & Hc). apply result_bind_ok in Hc as (fs & Hf & Hc).
  apply if_err_then in Hc as [_ [= <-]]. cbn [gc_policy_id gc_field_restrictions gc_revision].
  split_and!; [| | |done].
  - unfold governance_allows, granted. rewrite Hs, Ht, Ha, Hre.
    cbn [gc_allowed_scopes gc_allowed_resources]. f_equal; [do 3 f_equal|].
    + apply bool_decide_ext. rewrite (config_scopes_spec _ _ _ _ HA Hi). unfold governance_key. set_solver.
    + apply config_resources_spec in HR as ->. apply bool_decide_ext. set_solver.
    + unfold classification_of in Hk. revert Hk.
      destruct (String.eqb_spec (gr_classification q) "public") as [->|]; [by intros [= <-]|].
      destruct (String.eqb_spec (gr_classification q) "internal") as [->|]; [by intros [= <-]|].
      destruct (String.eqb_spec (gr_classification q) CLASSIFICATION); [by intros [= <-]|].
      destruct (String.eqb _ "restricted"); [by intros [= <-]|done].
  - unfold map_err in Hp. destruct (identifier_new _ policy_id) as [x|] eqn:Hx; [|done].
    injection Hp as <-. by apply identifier_new_ok in Hx as [_ ->].
  - clear -Hf. revert fs Hf. induction fields as [|f l IH]; intros fs Hf; cbn [collect] in Hf.
    { by injection Hf as <-. }
    apply result_bind_ok in Hf as (x & Hx & Hf). apply result_bind_ok in Hf as (xs & Hxs & Hf).
    injection Hf as <-. f_equal; [|by apply IH]. unfold map_err in Hx.
    destruct (identifier_new _ f) as [y|] eqn:Hy; [|done]. injection Hx as <-.
    by apply identifier_new_ok in Hy as [_ ->].
Qed.

(** An evaluation answers well-formed requests, with the verdict. *)
Lemma evaluate_verdict portfolio_ids scopes policy_id revision fields c q d :
  governance_config_new portfolio_ids scopes policy_id revision fields = Ok c →
  evaluate c q = Ok d ↔
  well_formed q = true ∧ d = verdict policy_id fields (granted portfolio_ids scopes q).
Proof.
  intros Hc. pose proof (parse_well_formed q) as Hq. unfold evaluate, mbind, result_bind.
  destruct (parse_authorization_request q) as [r|e] eqn:Hr.
  - destruct (config_grants _ _ _ _ _ c q r Hc Hr) as (-> & -> & -> & _). destruct Hq as [-> _].
    unfold verdict. destruct (granted _ _ _); (split; [by intros [= <-]|by intros (_ & ->)]).
  - destruct Hq as [-> _]. by split; [|intros (? & _)].
Qed.

(** C25. The policy authority decides exactly by its configuration.  With a
    policy and a credential that were accepted, whatever calls came before, a
    call is answered exactly when it carries the credential and is well formed;
    it is allowed exactly when it reads a listed portfolio, as confidential
    data, in a listed scope, and a denial discloses no field restrictions. *)
Theorem governance_exact portfolio_ids scopes policy_id revision fields c token started g0 g
    values now later q d :
  governance_config_new portfolio_ids scopes policy_id revision fields = Ok c →
  gateway_auth_new token started = Ok g0 → expected_digest g = expected_digest g0 →
  (authorize c values now later q g).1 = Ok d ↔
  presents token values = true ∧ well_formed q = true
  ∧ d = verdict policy_id fields (granted portfolio_ids scopes q).
Proof.
  intros Hc Hg Hd. pose proof (gateway_authenticated values now later g) as Hau.
  assert (Hpr : is_ok (gateway_authenticate values now later g).1 = presents token values).
  { rewrite Hau. unfold presents. destruct (extract_bearer_token values); [|done]. rewrite Hd.
    unfold gateway_auth_new in Hg. do 2 apply if_err_then in Hg as [_ Hg]. by injection Hg as <-. }
  unfold authorize, st_map_err, mbind, st_bind. rewrite <-Hpr.
  destruct (gateway_authenticate values now later g) as [[u|] g']; cbn [fst is_ok map_err];
    [|by split; [|intros [? _]]].
  unfold st_lift. cbn [fst]. rewrite (evaluate_verdict _ _ _ _ _ c q d Hc). naive_solver.
Qed.
End exact.

(** A concrete policy: one portfolio, in one scope. *)
Definition demo_policy_auth : AuthDeps := {| header_to_str := Some; sha256_digest s := s |}.
Definition demo_policy_token : string := "0123456789abcdef0123456789abcdef".
Definition demo_governance_request : GovernanceAuthorizationRequest :=
  mkGovernanceRequest (Some ("gateway", "agent-1")) (Some ("acme", "prod")) TOOL ACTION
    (@portfolio_resource_reference demo_policy_auth "alpha") CLASSIFICATION (Some ("trace-1", "span-1")).

Lemma governance_exact_witness :
  ∃ c g, @governance_config_new demo_policy_auth ["alpha"] ["acme/prod"] "policy-1" 1 ["ssn"] = Ok c
    ∧ @gateway_auth_new demo_policy_auth demo_policy_token 0 = Ok g
    ∧ (@authorize demo_policy_auth c ["Bearer " +:+ demo_policy_token] 1 1 demo_governance_request g).1
      = Ok (mkDecision OutcomeAllowed "policy-1" ALLOWED_REASON ["ssn"]).
Proof.
  destruct (@governance_config_new demo_policy_auth ["alpha"] ["acme/prod"] "policy-1" 1 ["ssn"]) as [c|] eqn:Hc;
    [|by apply (f_equal is_ok) in Hc; vm_compute in Hc].
  destruct (@gateway_auth_new demo_policy_auth demo_policy_token 0) as [g|] eqn:Hg;
    [|by apply (f_equal is_ok) in Hg; vm_compute in Hg].
  exists c, g. split_and!; [done..|].
  apply (@governance_exact demo_policy_auth ["alpha"] ["acme/prod"] "policy-1" 1 ["ssn"] c
    demo_policy_token 0 g g).
  - exact Hc.
  - exact Hg.
  - reflexivity.
  - split_and!; vm_compute; reflexivity.
Defined.
