(* ===== verification/ManagedProfile.v ===== *)
(** * Workload credentials of managed proxies

    [apps/control-plane-api/src/proxy/managed_authority/profile.rs] with
    [profile/launch.rs] up to [LaunchEnrollment::validate], [presentation.rs] and
    [state.rs]: the protected document that says which credential speaks for
    which deployment, what a caller presents, and the publication of the document
    as it is read again and again.  The JSON decoder, the [url] crate and SHA-256
    are parameters. *)
From Stdlib Require Import Ascii.
From S2P Require Import Prelude RustStr Digits ProxyText Time Errors OperatorAuth Verifier.

Open Scope N_scope.

(** [managed_authority::Refused]. *)
Inductive Refused := RefusedManaged.
Abbreviation Checked := (result Refused).
Definition refuse {A} : Checked A := Err RefusedManaged.

(** ** The document *)

(** [launch::Material] and [LaunchEnrollment]. *)
Record Material := mkMaterial {
  ml_role : string;
  ml_reference : string;
  ml_version : string;
}.
Record LaunchEnrollment := mkLaunch {
  le_config_hash : string;
  le_host_policy_version : string;
  le_deployment_bindings_version : string;
  le_image_ref : string;
  le_image_id : string;
  le_materials : list Material;
}.
(** [profile::Credential], [Entry], [Document] and [Profile]. *)
Record Credential := mkCredential {
  cd_certificate_sha256 : string;
  cd_token_sha256 : string;
}.
Record Entry := mkEntry {
  en_installation_id : string;
  en_workspace_id : string;
  en_namespace_id : string;
  en_proxy_id : string;
  en_revision_id : string;
  en_authority_profile_ref : string;
  en_authority_profile_version : string;
  en_evidence_agent_id : string;
  en_credentials : list Credential;
  en_launch : option LaunchEnrollment;
}.
Record Document := mkDocument {
  dc_schema_version : N;
  dc_version : string;
  dc_valid_from_unix_us : string;
  dc_expires_at_unix_us : string;
  dc_profiles : list Entry;
}.
Record Profile := mkProfile {
  pf_version : string;
  pf_valid_from : N;
  pf_expires : N;
  pf_entries : list Entry;
}.

(** What [url::Url::parse] finds in a text: scheme, host, user, password, query,
    fragment, path, and the ASCII form of the origin. *)
Record UrlParts := mkUrl {
  url_scheme : string;
  url_host : option string;
  url_username : string;
  url_password : option string;
  url_query : option string;
  url_fragment : option string;
  url_path : string;
  url_origin : string;
}.

(** Code outside the program: [parse_unique_json] with [serde_json::from_value]
    on the document, and [Url::parse]. *)
Class ProfileDeps := {
  parse_document : string → option Document;
  url_parse : string → option UrlParts;
}.

(** [profile::epoch]. *)
Definition i64_max : N := 9223372036854775807.
Definition epoch (text : string) : Checked N :=
  if str_is_empty text || (19 <? str_len text) || str_starts_with "0" text
     || negb (str_all is_ascii_digit text)
  then refuse
  else match parse_u64 text with
       | Some n => if n <=? i64_max then Ok n else refuse
       | None => refuse
       end.
(** [profile::identifier]. *)
Definition profile_identifier (value : string) : bool :=
  (str_len value <=? 128) && is_identifier value.
(** [profile::digest]. *)
Definition digest (text : string) : Checked string :=
  if negb (str_len text =? 64) || negb (str_all is_lower_hex text) then refuse
  else Ok (hex_bytes text).

(** [Credential::matches]; the comparisons are on 32 bytes. *)
Definition credential_matches (c : Credential) (certificate token : string) : bool :=
  match digest (cd_certificate_sha256 c), digest (cd_token_sha256 c) with
  | Ok expected_certificate, Ok expected_token =>
      String.eqb expected_certificate certificate && String.eqb expected_token token
  | _, _ => false
  end.

(** [launch::reference]. *)
Definition first_alphanumeric (s : string) : bool :=
  match s with String c _ => is_ascii_alphanumeric c | EmptyString => false end.
Definition reference (value : string) : bool :=
  (str_len value <=? 256)
  && match strip_prefix "secret://" value with
     | None => false
     | Some tail =>
         first_alphanumeric tail
         && forallb (λ part, negb (String.eqb part ".") && is_identifier part) (split "/" tail)
     end.
(** [launch::image_id]. *)
Definition image_id (value : string) : bool :=
  match strip_prefix "sha256:" value with None => false | Some v => is_ok (digest v) end.

(** [RuntimeMaterialRole::from_str_name], as the number of the role. *)
Definition material_roles : list string :=
  ["RUNTIME_MATERIAL_ROLE_UNSPECIFIED"; "RUNTIME_MATERIAL_ROLE_HEALTH_TOKEN";
   "RUNTIME_MATERIAL_ROLE_GOVERNANCE_CA"; "RUNTIME_MATERIAL_ROLE_GOVERNANCE_CERT";
   "RUNTIME_MATERIAL_ROLE_GOVERNANCE_KEY"; "RUNTIME_MATERIAL_ROLE_GOVERNANCE_TOKEN";
   "RUNTIME_MATERIAL_ROLE_EVIDENCE_CA"; "RUNTIME_MATERIAL_ROLE_EVIDENCE_CERT";
   "RUNTIME_MATERIAL_ROLE_EVIDENCE_KEY"; "RUNTIME_MATERIAL_ROLE_EVIDENCE_TOKEN";
   "RUNTIME_MATERIAL_ROLE_INBOUND_JWKS"; "RUNTIME_MATERIAL_ROLE_WORKLOAD_CA";
   "RUNTIME_MATERIAL_ROLE_WORKLOAD_CERT"; "RUNTIME_MATERIAL_ROLE_WORKLOAD_KEY"].
Definition role_from_str_name (name : string) : option nat :=
  fst <$> list_find (eq name) material_roles.

Section document.
Context `{ProfileDeps}.

(** [launch::image_ref]. *)
Definition repository_part (part : string) : bool :=
  negb (str_is_empty part) && negb (str_contains ".." part) && first_alphanumeric part
  && str_all (λ c, in_range "a" "z" c || is_ascii_digit c || ascii_eqb c "." || ascii_eqb c "_"
                   || ascii_eqb c "-") part.
Definition image_ref (value : string) : bool :=
  if 512 <? str_len value then false
  else match split_once "@" value with
  | None => false
  | Some (name, digest) =>
  match split_once "/" name with
  | None => false
  | Some (registry, repository) =>
      let registry_url := "https://" +:+ registry +:+ "/" in
      if negb (image_id digest) || negb (str_contains "." registry) || (512 <? str_len registry_url)
         || str_has_whitespace registry_url || str_has_control registry_url
         || str_contains "\" registry_url
      then false
      else match url_parse registry_url with
      | None => false
      | Some url =>
          String.eqb (url_scheme url) "https" && bool_decide (is_Some (url_host url))
          && str_is_empty (url_username url) && bool_decide (url_password url = None)
          && bool_decide (url_query url = None) && bool_decide (url_fragment url = None)
          && String.eqb (url_path url) "/" && String.eqb (url_origin url) ("https://" +:+ registry)
          && forallb repository_part (split "/" repository)
      end
  end end.

(** The loop of [LaunchEnrollment::validate]. *)
Fixpoint validate_materials (roles : gset nat) (references : gset string) (materials : list Material)
    : Checked unit :=
  match materials with
  | [] => Ok tt
  | material :: materials =>
      role ← ok_or (role_from_str_name (ml_role material)) RefusedManaged;
      if negb ((1 <=? role)%nat && (role <=? 13)%nat) || bool_decide (role ∈ roles)
         || bool_decide (ml_reference material ∈ references)
         || negb (reference (ml_reference material)) || negb (profile_identifier (ml_version material))
      then refuse
      else validate_materials ({[role]} ∪ roles) ({[ml_reference material]} ∪ references) materials
  end.
(** [LaunchEnrollment::validate]. *)
Definition launch_validate (l : LaunchEnrollment) : Checked unit :=
  digest (le_config_hash l) ≫= λ _,
  if negb (profile_identifier (le_host_policy_version l))
     || negb (profile_identifier (le_deployment_bindings_version l))
     || negb (image_ref (le_image_ref l)) || negb (image_id (le_image_id l))
     || negb (length (le_materials l) =? 13)%nat
  then refuse
  else validate_materials ∅ ∅ (le_materials l).

(** The owner of an entry: installation, workspace, namespace and proxy. *)
Definition Owner : Type := string * string * string * string.
Definition entry_owner (e : Entry) : Owner :=
  (en_installation_id e, en_workspace_id e, en_namespace_id e, en_proxy_id e).

(** [BTreeMap::insert(..).is_some_and(|old| old != owner)]. *)
Definition taken {K} `{Countable K} (key : K) (owner : Owner) (m : gmap K Owner) : bool :=
  match m !! key with Some old => negb (bool_decide (old = owner)) | None => false end.

(** The credentials of one entry. *)
Fixpoint parse_credentials (owner : Owner) (local_pairs : gset (string * string))
    (owners : gmap (string * string) Owner) (credentials : list Credential)
    : Checked (gmap (string * string) Owner) :=
  match credentials with
  | [] => Ok owners
  | credential :: credentials =>
      certificate ← digest (cd_certificate_sha256 credential);
      token ← digest (cd_token_sha256 credential);
      let pair := (certificate, token) in
      if bool_decide (pair ∈ local_pairs) || taken pair owner owners then refuse
      else parse_credentials owner ({[pair]} ∪ local_pairs) (<[pair := owner]> owners) credentials
  end.

(** The loop of [Profile::parse] over the entries. *)
Fixpoint parse_entries (selectors : gset (Owner * string)) (agents : gmap string Owner)
    (owners : gmap (string * string) Owner) (entries : list Entry) : Checked unit :=
  match entries with
  | [] => Ok tt
  | entry :: entries =>
      match en_launch entry with Some launch => launch_validate launch | None => Ok tt end ≫= λ _,
      if existsb (λ id, negb (is_lowercase_uuidv7 id))
           [en_installation_id entry; en_proxy_id entry; en_revision_id entry]
         || existsb (λ id, negb (is_identifier id))
              [en_workspace_id entry; en_namespace_id entry; en_evidence_agent_id entry]
         || negb (profile_identifier (en_authority_profile_ref entry))
         || negb (profile_identifier (en_authority_profile_version entry))
         || negb ((1 <=? length (en_credentials entry))%nat && (length (en_credentials entry) <=? 2)%nat)
      then refuse
      else
        let owner := entry_owner entry in
        if bool_decide ((owner, en_revision_id entry) ∈ selectors)
           || taken (en_evidence_agent_id entry) owner agents
        then refuse
        else
          owners ← parse_credentials owner ∅ owners (en_credentials entry);
          parse_entries ({[(owner, en_revision_id entry)]} ∪ selectors)
            (<[en_evidence_agent_id entry := owner]> agents) owners entries
  end.

(** [Profile::parse]. *)
Definition profile_parse (bytes : string) : Checked Profile :=
  if str_is_empty bytes || (262144 <? str_len bytes) then refuse
  else
    document ← ok_or (parse_document bytes) RefusedManaged;
    from ← epoch (dc_valid_from_unix_us document);
    expires ← epoch (dc_expires_at_unix_us document);
    if negb (dc_schema_version document =? 1) || negb (profile_identifier (dc_version document))
       || (expires <=? from) || (64 <? N.of_nat (length (dc_profiles document)))
    then refuse
    else
      parse_entries ∅ ∅ ∅ (dc_profiles document) ≫= λ _,
      Ok (mkProfile (dc_version document) from expires (dc_profiles document)).
End document.

(** ** What a caller presents *)

Record Presentation := mkPresentation {
  pn_certificate : string;
  pn_token : string;
  pn_proof : string;
}.

(** [RuntimeTarget] and [ManagedDeploymentBinding]. *)
Record RuntimeTarget := mkTarget {
  rt_workspace_id : string;
  rt_namespace_id : string;
  rt_proxy_id : string;
  rt_revision_id : string;
  rt_generation : N;
  rt_fencing_token : N;
}.
Record ManagedDeploymentBinding := mkBinding {
  mb_installation_id : string;
  mb_target : option RuntimeTarget;
  mb_process_instance_id : string;
  mb_config_hash : string;
  mb_launch_context_hash : string;
}.

(** The metadata of a call: the [authorization] values, and the
    [apex-instance-proof-bin] values as their encoded text. *)
Record Metadata := mkMetadata {
  md_authorization : list string;
  md_proof : list string;
}.
(** [MetadataValue<Binary>::to_bytes]. *)
Class BinaryMetadata := decode_bin : string → option string.

(** [str::trim_end_matches('=')]. *)
Fixpoint trim_padding (s : string) : string :=
  match s with
  | EmptyString => EmptyString
  | String c s =>
      let rest := trim_padding s in
      if ascii_eqb c "=" && str_is_empty rest then EmptyString else String c rest
  end.
Definition is_token_byte (c : ascii) : bool :=
  is_ascii_alphanumeric c || ascii_eqb c "." || ascii_eqb c "_" || ascii_eqb c "~"
  || ascii_eqb c "+" || ascii_eqb c "/" || ascii_eqb c "-".

Section presentation.
Context `{AuthDeps, BinaryMetadata}.

(** [Presentation::parse]. *)
Definition presentation_parse (metadata : Metadata) (certificate : string) : Checked Presentation :=
  match md_authorization metadata, md_proof metadata with
  | [authorization], [encoded] =>
      value ← ok_or (header_to_str authorization) RefusedManaged;
      token ← ok_or (strip_prefix "Bearer " value) RefusedManaged;
      let payload := trim_padding token in
      if negb ((16 <=? str_len payload) && (str_len payload <=? 4096))
         || (2 <? str_len token - str_len payload) || negb (str_all is_token_byte payload)
      then refuse
      else if negb ((43 <=? str_len encoded) && (str_len encoded <=? 44)) then refuse
      else
        proof ← ok_or (decode_bin encoded) RefusedManaged;
        if negb (str_len proof =? 32) then refuse
        else Ok (mkPresentation certificate (sha256_digest token) (sha256_digest proof))
  | _, _ => refuse
  end.
(** [Presentation::from_request]. *)
Definition presentation_from_request (metadata : Metadata) (peer : option PeerIdentity)
    : Checked Presentation :=
  peer ← ok_or peer RefusedManaged;
  presentation_parse metadata (certificate_sha256 peer).
End presentation.

(** The test of [Presentation::select]. *)
Definition entry_selected (p : Presentation) (binding : ManagedDeploymentBinding)
    (target : RuntimeTarget) (entry : Entry) : bool :=
  String.eqb (en_installation_id entry) (mb_installation_id binding)
  && String.eqb (en_workspace_id entry) (rt_workspace_id target)
  && String.eqb (en_namespace_id entry) (rt_namespace_id target)
  && String.eqb (en_proxy_id entry) (rt_proxy_id target)
  && String.eqb (en_revision_id entry) (rt_revision_id target)
  && existsb (λ key, credential_matches key (pn_certificate p) (pn_token p)) (en_credentials entry).
(** [Presentation::select]. *)
Definition presentation_select (p : Presentation) (profile : Profile)
    (binding : ManagedDeploymentBinding) (now : N) : Checked Entry :=
  if (now <? pf_valid_from profile) || (pf_expires profile <=? now) then refuse
  else
    target ← ok_or (mb_target binding) RefusedManaged;
    ok_or (List.find (entry_selected p binding target) (pf_entries profile)) RefusedManaged.

(** ** Publication *)

Record Selection := mkSelection {
  sl_profile : Profile;
  sl_serial : N;
}.
(** [state::State]; instants are nanoseconds. *)
Record State := mkState {
  sa_active : option (Selection * N);
  sa_last : option (string * string);
  sa_serial : N;
}.
Definition state_new : State := mkState None None 0.

(** [state::fresh]. *)
Definition fresh (started now : N) : bool := (started <=? now) && (now - started <? from_secs 5).

Section publication.
Context `{AuthDeps, ProfileDeps}.

(** [State::publish_checked]. *)
Definition publish_checked (bytes : string) (started now : N) : ST State Refused unit := λ s,
  if negb (fresh started now) then (refuse, s)
  else match profile_parse bytes with
  | Err e => (Err e, s)
  | Ok profile =>
      let content := sha256_digest bytes in
      let same := match sa_last s with
                  | Some (version, previous) => String.eqb version (pf_version profile)
                  | None => false
                  end in
      let previous := match sa_last s with Some (_, previous) => previous | None => EmptyString end in
      if same && negb (String.eqb previous content) then (refuse, s)
      else
        let install :=
          if u64_max <? sa_serial s + 1 then (refuse, s)
          else (Ok tt, mkState (Some (mkSelection profile (sa_serial s + 1), started))
                         (Some (pf_version profile, content)) (sa_serial s + 1)) in
        match sa_active s with
        | Some (selection, previous_start) =>
            if started <? previous_start then (refuse, s)
            else if same && String.eqb previous content
            then (Ok tt, mkState (Some (selection, started)) (sa_last s) (sa_serial s))
            else install
        | None => install
        end
  end.
(** [State::disable]. *)
Definition disable (s : State) : State := mkState None (sa_last s) (sa_serial s).
(** [State::publish]. *)
Definition publish (bytes : string) (started now : N) : ST State Refused unit := λ s,
  match publish_checked bytes started now s with
  | (Ok u, s') => (Ok u, s')
  | (Err e, s') => (Err e, disable s')
  end.
End publication.

(** [State::current] and [State::recheck]. *)
Definition current (s : State) (now : N) : Checked Selection :=
  active ← ok_or (sa_active s) RefusedManaged;
  if fresh active.2 now then Ok active.1 else refuse.
Definition recheck (s : State) (selected : Selection) (now : N) : Checked unit :=
  selection ← current s now;
  if sl_serial selection =? sl_serial selected then Ok tt else refuse.

(** ** What a parsed document guarantees *)

Section isolation.
Context `{ProfileDeps}.

(** The pair of digests a credential stands for. *)
Definition credential_pair (c : Credential) : option (string * string) :=
  match digest (cd_certificate_sha256 c), digest (cd_token_sha256 c) with
  | Ok certificate, Ok token => Some (certificate, token)
  | _, _ => None
  end.
Lemma credential_matches_pair c certificate token :
  credential_matches c certificate token = true ↔ credential_pair c = Some (certificate, token).
Proof.
  unfold credential_matches, credential_pair.
  destruct (digest (cd_certificate_sha256 c)) as [a|], (digest (cd_token_sha256 c)) as [b|]; try done.
  rewrite andb_true_iff, !String.eqb_eq. naive_solver.
Qed.

(** Inserting what is not taken by another owner keeps the rest. *)
Lemma taken_kept {K} `{Countable K} (key : K) owner (m : gmap K Owner) :
  taken key owner m = false → m ⊆ <[key := owner]> m.
Proof.
  unfold taken. intros Ht. destruct (m !! key) as [old|] eqn:Hm.
  - apply negb_false_iff, bool_decide_eq_true in Ht as ->. by rewrite insert_id.
  - by apply insert_subseteq.
Qed.

Lemma parse_credentials_owner owner L O O' creds :
  parse_credentials owner L O creds = Ok O' →
  O ⊆ O' ∧ Forall (λ c, ∃ pair, credential_pair c = Some pair ∧ O' !! pair = Some owner) creds.
Proof.
  revert L O. induction creds as [|c creds IH]; intros L O Hp; cbn [parse_credentials] in Hp.
  { injection Hp as <-. by split. }
  apply result_bind_ok in Hp as (ce & Hce & Hp). apply result_bind_ok in Hp as (tk & Htk & Hp).
  apply if_err_then in Hp as [[_ Ht]%orb_false_iff Hp]. apply IH in Hp as [Hsub Hall].
  split; [by etrans; [apply taken_kept|]|]. constructor; [|done].
  exists (ce, tk). unfold credential_pair. rewrite Hce, Htk. split; [done|].
  eapply lookup_weaken; [|exact Hsub]. by rewrite lookup_insert_eq.
Qed.

(** Every entry owns its agent and its credentials; no two have one selector. *)
Lemma parse_entries_owners S A O entries :
  parse_entries S A O entries = Ok tt →
  (∃ A' O', A ⊆ A' ∧ O ⊆ O' ∧ Forall (λ e, A' !! en_evidence_agent_id e = Some (entry_owner e)
      ∧ Forall (λ c, ∃ pair, credential_pair c = Some pair ∧ O' !! pair = Some (entry_owner e))
          (en_credentials e)) entries)
  ∧ NoDup ((λ e, (entry_owner e, en_revision_id e)) <$> entries)
  ∧ Forall (λ e, (entry_owner e, en_revision_id e) ∉ S) entries.
Proof.
  revert S A O. induction entries as [|e entries IH]; intros S A O Hp; cbn [parse_entries] in Hp.
  { split; [by exists A, O|]. split; constructor. }
  apply result_bind_ok in Hp as (u & _ & Hp). apply if_err_then in Hp as [_ Hp].
  apply if_err_then in Hp as [[Hs Hta]%orb_false_iff Hp]. apply bool_decide_eq_false in Hs.
  apply result_bind_ok in Hp as (O1 & Hc & Hp). apply parse_credentials_owner in Hc as [Hsub Hcs].
  apply IH in Hp as ((A' & O' & HA & HO & Hall) & Hnd & Hfr). split.
  - exists A', O'. split; [by etrans; [apply taken_kept|]|]. split; [by etrans|]. constructor; [|done].
    split; [by eapply lookup_weaken; [rewrite lookup_insert_eq|]|].
    eapply Forall_impl; [exact Hcs|]. intros c (pair & Hpair & Ho). exists pair. split; [done|].
    by eapply lookup_weaken.
  - rewrite fmap_cons. split; [constructor; [|done]|constructor; [done|]].
    + intros (e' & He & Hin)%list_elem_of_fmap. rewrite Forall_forall in Hfr.
      apply (Hfr e' Hin). rewrite <-He. set_solver.
    + eapply Forall_impl; [exact Hfr|]. set_solver.
Qed.

Lemma profile_parse_entries bytes p :
  profile_parse bytes = Ok p → parse_entries ∅ ∅ ∅ (pf_entries p) = Ok tt ∧ pf_valid_from p < pf_expires p.
Proof.
  unfold profile_parse. intros [_ Hp]%if_err_then. apply result_bind_ok in Hp as (d & _ & Hp).
  apply result_bind_ok in Hp as (from & _ & Hp). apply result_bind_ok in Hp as (expires & _ & Hp).
  apply if_err_then in Hp as [Hc Hp]. apply result_bind_ok in Hp as ([] & He & [= <-]).
  split; [done|]. simpl. rewrite !orb_false_iff in Hc. destruct Hc as [[_ Hc%N.leb_gt] _]. done.
Qed.

Lemma find_unique {A B} (f : A → bool) (key : A → B) (l : list A) a :
  NoDup (key <$> l) → (∀ x y, f x = true → f y = true → key x = key y) →
  List.find f l = Some a ↔ a ∈ l ∧ f a = true.
Proof.
  intros Hnd Hk. split; [intros [? ?]%find_some; by rewrite list_elem_of_In|].
  induction l as [|x l IH]; intros [Hin Ha]; [by apply elem_of_nil in Hin|].
  rewrite fmap_cons in Hnd. apply NoDup_cons in Hnd as [Hx Hnd]. simpl.
  apply elem_of_cons in Hin as [->|Hin]; [by rewrite Ha|].
  destruct (f x) eqn:Hf; [|by apply IH]. destruct Hx. rewrite (Hk x a Hf Ha).
  by apply list_elem_of_fmap_2.
Qed.

(** C23. A workload is who its credential says.  In a document that was accepted,
    a call selects an entry exactly when the document is in force and the entry
    is the one of the deployment the call names, with the certificate and the
    token it presents; two entries one credential pair opens, or that carry one
    evidence agent, belong to one proxy of one installation. *)
Theorem managed_credential_exact bytes p (presented : Presentation) (binding : ManagedDeploymentBinding) now e :
  profile_parse bytes = Ok p →
  (presentation_select presented p binding now = Ok e ↔
     pf_valid_from p ≤ now < pf_expires p ∧ e ∈ pf_entries p
     ∧ ∃ target, mb_target binding = Some target
         ∧ entry_owner e = (mb_installation_id binding, rt_workspace_id target, rt_namespace_id target,
                            rt_proxy_id target)
         ∧ en_revision_id e = rt_revision_id target
         ∧ ∃ c, c ∈ en_credentials e
             ∧ credential_pair c = Some (pn_certificate presented, pn_token presented))
  ∧ ∀ e1 e2, e1 ∈ pf_entries p → e2 ∈ pf_entries p →
      en_evidence_agent_id e1 = en_evidence_agent_id e2
      ∨ (∃ c1 c2, c1 ∈ en_credentials e1 ∧ c2 ∈ en_credentials e2
           ∧ credential_pair c1 = credential_pair c2) →
      entry_owner e1 = entry_owner e2.
Proof.
  intros [He Hv]%profile_parse_entries.
  destruct (parse_entries_owners _ _ _ _ He) as ((A & O & _ & _ & Hall) & Hnd & _). split.
  - unfold presentation_select, refuse. rewrite if_err_then, orb_false_iff, N.ltb_ge, N.leb_gt, result_bind_ok.
    split.
    + intros [Hw (target & Ht%ok_or_ok & Hf%ok_or_ok)]. apply find_some in Hf as [Hin Hs].
      rewrite <-list_elem_of_In in Hin. split_and!; [lia..|done|]. exists target. split; [done|].
      unfold entry_selected in Hs. rewrite !andb_true_iff, !String.eqb_eq in Hs.
      destruct Hs as [[[[[Hi Hwk] Hn] Hp] Hr] (c & Hc & Hm)%existsb_exists].
      unfold entry_owner. split; [congruence|]. split; [done|]. exists c.
      by rewrite list_elem_of_In, <-credential_matches_pair.
    + intros (Hw & Hin & target & Ht & Ho & Hr & c & Hc & Hm). split; [lia|]. exists target.
      rewrite !ok_or_ok. split; [done|]. apply (find_unique _ _ _ _ Hnd).
      { intros x y. unfold entry_selected. rewrite !andb_true_iff, !String.eqb_eq. unfold entry_owner.
        intros Hx Hy. naive_solver congruence. }
      split; [done|]. unfold entry_selected. injection Ho as -> -> -> ->. rewrite Hr, !String.eqb_refl.
      simpl. apply existsb_exists. exists c. by rewrite <-list_elem_of_In, credential_matches_pair.
  - rewrite Forall_forall in Hall. intros e1 e2 H1 H2.
    destruct (Hall e1 H1) as [Ha1 Hc1], (Hall e2 H2) as [Ha2 Hc2]. rewrite Forall_forall in Hc1, Hc2.
    intros [Heq|(c1 & c2 & Hi1 & Hi2 & Heq)]; [congruence|].
    destruct (Hc1 c1 Hi1) as (p1 & Hp1 & Ho1), (Hc2 c2 Hi2) as (p2 & Hp2 & Ho2). congruence.
Qed.
End isolation.

(** ** The publication over time *)

(** A turn of [refresh::run]: the document was read, or could not be. *)
Inductive RefreshEvent :=
  | Reread (bytes : string) (started now : N)
  | Unreadable.

Section refresh.
Context `{AuthDeps, ProfileDeps}.

Definition refresh_step (s : State) (ev : RefreshEvent) : State :=
  match ev with
  | Reread bytes started now => (publish bytes started now s).2
  | Unreadable => disable s
  end.
Definition refresh_run (s : State) (evs : list RefreshEvent) : State := foldl refresh_step s evs.

(** The document in force is the last one published. *)
Definition published (s : State) : Prop :=
  ∀ sel started, sa_active s = Some (sel, started) →
    sl_serial sel = sa_serial s
    ∧ ∃ content, sa_last s = Some (pf_version (sl_profile sel), content).

(** The document read again is the one in force. *)
Definition same_document (s s' : State) (ev : RefreshEvent) : Prop :=
  ∃ sel old bytes started now content, ev = Reread bytes started now
    ∧ sa_active s = Some (sel, old) ∧ sa_active s' = Some (sel, started)
    ∧ sa_last s = Some (pf_version (sl_profile sel), content) ∧ sa_last s' = sa_last s
    ∧ sha256_digest bytes = content.

Lemma refresh_step_spec s ev :
  published s →
  let s' := refresh_step s ev in
  published s' ∧ (sa_serial s < sa_serial s'
    ∨ sa_serial s' = sa_serial s ∧ (sa_active s' = None ∨ same_document s s' ev)).
Proof.
  intros Hp. destruct ev as [bytes started now|]; simpl; [|split; [done|right; by split; [|left]]].
  assert (Hoff : ∀ s1, sa_serial s1 = sa_serial s → published (disable s1)
    ∧ (sa_serial s < sa_serial (disable s1) ∨ sa_serial (disable s1) = sa_serial s
       ∧ (sa_active (disable s1) = None ∨ same_document s (disable s1) (Reread bytes started now)))).
  { intros s1 Hs1. split; [done|]. right. by split; [|left]. }
  unfold publish, publish_checked. destruct (negb _); [by apply Hoff|].
  destruct (profile_parse bytes) as [profile|]; [|by apply Hoff].
  set (same := match sa_last s with Some (v, _) => String.eqb v (pf_version profile) | None => false end).
  set (prev := match sa_last s with Some (_, c) => c | None => EmptyString end). cbv zeta.
  destruct (same && negb _) eqn:Hc; [by apply Hoff|].
  assert (Hnew : ∀ r s1, (if u64_max <? sa_serial s + 1 then (refuse, s)
      else (Ok tt, mkState (Some (mkSelection profile (sa_serial s + 1), started))
                     (Some (pf_version profile, sha256_digest bytes)) (sa_serial s + 1))) = (r, s1) →
    let s' := match r with Ok _ => s1 | Err _ => disable s1 end in
    published s' ∧ (sa_serial s < sa_serial s' ∨ sa_serial s' = sa_serial s
       ∧ (sa_active s' = None ∨ same_document s s' (Reread bytes started now)))).
  { intros r s1. destruct (_ <? _); intros [= <- <-]; [by apply Hoff|]. simpl. split; [|left; lia].
    intros sel st [= <- <-]. simpl. split; [done|by eexists]. }
  destruct (sa_active s) as [[sel old]|] eqn:Ha.
  - destruct (started <? old); [by apply Hoff|]. destruct (same && String.eqb _ _) eqn:Hsm.
    + destruct (Hp sel old Ha) as (Hser & content & Hl). simpl. split.
      { intros sel' st [= <- <-]. eauto. }
      right. split; [done|]. right. exists sel, old, bytes, started, now, content. split_and!; try done.
      apply andb_true_iff in Hsm as [_ Heq%String.eqb_eq]. unfold prev in Heq. by rewrite Hl in Heq.
    + destruct (if u64_max <? _ then _ else _) as [r s1] eqn:Hi. specialize (Hnew r s1 eq_refl).
      by destruct r.
  - destruct (if u64_max <? _ then _ else _) as [r s1] eqn:Hi. specialize (Hnew r s1 eq_refl).
    by destruct r.
Qed.

Lemma refresh_run_cons s ev evs : refresh_run s (ev :: evs) = refresh_run (refresh_step s ev) evs.
Proof. done. Qed.
Lemma refresh_run_published s evs :
  published s → published (refresh_run s evs) ∧ sa_serial s ≤ sa_serial (refresh_run s evs).
Proof.
  revert s. induction evs as [|ev evs IH]; intros s Hp; [done|]. rewrite refresh_run_cons.
  destruct (refresh_step_spec s ev Hp) as [Hp1 Hs]. destruct (IH _ Hp1) as [Hp2 Hs2].
  split; [done|]. destruct Hs as [Hs|[Hs _]]; lia.
Qed.
(** Once nothing is in force, only a new publication is again. *)
Lemma inactive_stays s evs :
  published s → sa_active s = None → sa_serial (refresh_run s evs) = sa_serial s →
  sa_active (refresh_run s evs) = None.
Proof.
  revert s. induction evs as [|ev evs IH]; intros s Hp Ha Hs; [done|]. rewrite refresh_run_cons in *.
  destruct (refresh_step_spec s ev Hp) as [Hp1 Hcase].
  destruct (refresh_run_published _ evs Hp1) as [_ Hle].
  destruct Hcase as [Hlt|[Heq [Hn|Hsame]]]; [lia| |].
  - apply IH; [done..|congruence].
  - destruct Hsame as (sel & old & ? & ? & ? & ? & _ & Hact & _). congruence.
Qed.
Lemma unchanged_run s evs sel old content :
  published s → sa_active s = Some (sel, old) →
  sa_last s = Some (pf_version (sl_profile sel), content) →
  sa_serial (refresh_run s evs) = sa_serial s → sa_active (refresh_run s evs) ≠ None →
  Forall (λ ev, ∃ bytes started now, ev = Reread bytes started now ∧ sha256_digest bytes = content) evs
  ∧ ∃ started, sa_active (refresh_run s evs) = Some (sel, started)
      ∧ (evs = [] ∧ started = old ∨ ∃ bytes now, last evs = Some (Reread bytes started now)).
Proof.
  revert s old. induction evs as [|ev evs IH]; intros s old Hp Ha Hl Hs Hn.
  { split; [constructor|]. exists old. split; [done|by left]. }
  rewrite refresh_run_cons in *.
  destruct (refresh_step_spec s ev Hp) as [Hp1 Hcase].
  destruct (refresh_run_published _ evs Hp1) as [_ Hle].
  destruct Hcase as [Hlt|[Heq [Hnone|Hsame]]]; [lia| |].
  { destruct Hn. apply inactive_stays; [done..|congruence]. }
  destruct Hsame as (sel' & old' & bytes & started & now & c & -> & Ha' & Ha1 & Hl' & Hl1 & Hc).
  assert (sel' = sel) as -> by congruence. assert (c = content) as -> by congruence.
  destruct (IH (refresh_step s (Reread bytes started now)) started) as (Hall & st & Hst & Hlast);
    [done..|congruence|congruence|done|].
  split; [constructor; eauto|]. exists st. split; [done|]. right.
  destruct Hlast as [[-> ->]|(b & n & Hb)]; [by eexists _, _|].
  exists b, n. by destruct evs.
Qed.

End refresh.

(** ** A concrete document

    One deployment with one credential. *)
Definition mz_hash (s : string) : string :=
  String.substring 0 32 (s +:+ "................................").
Definition mz_auth : AuthDeps := {| header_to_str := Some; sha256_digest := mz_hash |}.
Definition mz_id (c : ascii) : string := "0198c1a2-0000-7000-8000-00000000000" +:+ String c EmptyString.
Definition mz_token : string := "workload-token-0123456789".
Definition mz_certificate : string := mz_hash "certificate".
Definition mz_target : RuntimeTarget := mkTarget "acme" "prod" (mz_id "2") (mz_id "3") 1 1.
Definition mz_entry : Entry :=
  mkEntry (mz_id "1") "acme" "prod" (mz_id "2") (mz_id "3") "profile" "v1" "agent-1"
    [mkCredential (hex_string mz_certificate) (hex_string (mz_hash mz_token))] None.
Definition mz_profile : ProfileDeps := {|
  parse_document _ := Some (mkDocument 1 "v1" "1" "9223372036854775807" [mz_entry]);
  url_parse _ := None;
|}.
#[local] Existing Instances mz_auth mz_profile.

Definition mz_presentation : Presentation :=
  mkPresentation mz_certificate (mz_hash mz_token) (mz_hash "proof").
Definition mz_named : ManagedDeploymentBinding :=
  mkBinding (mz_id "1") (Some mz_target) (mz_id "4") EmptyString EmptyString.

Lemma managed_credential_exact_witness :
  ∃ p, profile_parse "document" = Ok p ∧ presentation_select mz_presentation p mz_named 5 = Ok mz_entry.
Proof.
  destruct (profile_parse "document") as [p|] eqn:Hp; [|by apply (f_equal is_ok) in Hp; vm_compute in Hp].
  exists p. split; [done|].
  apply (managed_credential_exact "document" p mz_presentation mz_named 5 mz_entry Hp).
  assert (Hq : p = mkProfile "v1" 1 9223372036854775807 [mz_entry]).
  { assert (Hx : profile_parse "document" = Ok (mkProfile "v1" 1 9223372036854775807 [mz_entry]))
      by (vm_compute; reflexivity).
    congruence. }
  rewrite Hq. split; [cbn; lia|]. split; [by apply list_elem_of_singleton|]. exists mz_target.
  split_and!; try reflexivity. eexists. split; [by apply list_elem_of_singleton|]. vm_compute. reflexivity.
Defined.

