(* ===== verification/ManagedCall.v ===== *)
(** * Admission of a managed call

    [apps/control-plane-api/src/proxy/managed_authority/call.rs], [service.rs],
    [service/business.rs], [pool.rs] and the verification of
    [presentation.rs]: a workload asks, under its certificate, its token and the
    proof of its instance, whether one call of one tool may start; the answer is
    the policy of Governance on the configuration its deployment was registered
    with, checked again and again while the answer is made.  The Postgres store,
    the protobuf encoder and the clocks are parameters. *)
From Stdlib Require Import Ascii.
From S2P Require Import Prelude RustStr Digits ProxyText Time Errors OperatorAuth Verifier ProxySpec ProxyWire Findings FindingsLaws Envelope Governance ManagedProfile.

Open Scope N_scope.

(** ** Messages *)

(** [ManagedCallAuthorizationRequest]; caller, scope and trace as the pairs of
    Governance. *)
Record ManagedCallAuthorizationRequest := mkManagedCall {
  mc_caller : option (string * string);
  mc_scope : option (string * string);
  mc_proxy_id : string;
  mc_revision_id : string;
  mc_generation : N;
  mc_call_id : string;
  mc_tool_alias : string;
  mc_action : string;
  mc_resource : string;
  mc_classification : string;
  mc_arguments_hash : string;
  mc_trace : option (string * string);
  mc_approval_id : string;
  mc_binding : option ManagedDeploymentBinding;
}.
(** [RuntimeConfiguration], the fields that admission reads. *)
Record RuntimeConfiguration := mkConfiguration {
  rc_workspace_id : string;
  rc_namespace_id : string;
  rc_proxy_id : string;
  rc_revision_id : string;
  rc_config_hash : string;
  rc_generation : N;
  rc_spec : option PSpec;
}.
(** [ManagedCallAuthorizationDecision]; its [approval] is never set. *)
Record ManagedCallAuthorizationDecision := mkManagedDecision {
  md_decision : option GovernanceAuthorizationDecision;
  md_admission_id : string;
  md_expires_at_unix_us : N;
  md_policy_revision : N;
  md_valid_for_us : N;
  md_epoch : N;
}.
(** [ManagedGrantAcknowledgement] and [ManagedDeploymentRenewal];
    [ManagedPolicyRequest] and its answer. *)
Record ManagedGrantAcknowledgement := mkAcknowledgement {
  mk_decision_id : string;
  mk_epoch : N;
  mk_admitting : bool;
  mk_active_calls : N;
}.
Record ManagedDeploymentRenewal := mkRenewal {
  mw_binding : option ManagedDeploymentBinding;
  mw_nonce : string;
  mw_applied : option ManagedGrantAcknowledgement;
  mw_renewal_sequence : N;
}.
Record ManagedPolicyRequest := mkPolicyRequest {
  my_binding : option ManagedDeploymentBinding;
  my_nonce : string;
}.
Record ManagedPolicySnapshot := mkPolicySnapshot {
  mv_binding : ManagedDeploymentBinding;
  mv_nonce : string;
  mv_policy_id : string;
  mv_revision : N;
  mv_field_restrictions : list string;
}.
Record ManagedCallCompletion := mkCompletion {
  mp_binding : option ManagedDeploymentBinding;
  mp_admission_id : string;
  mp_call_id : string;
}.
Record ManagedCallCompletionReceipt := mkReceipt {
  mx_binding : option ManagedDeploymentBinding;
  mx_admission_id : string;
  mx_call_id : string;
  mx_released : bool;
}.

(** [DeploymentRegistration], [ManagedCallReservation] and
    [ManagedCallAdmission] of the store; identifiers as their text. *)
Record DeploymentRegistration := mkRegistration {
  dr_binding : ManagedDeploymentBinding;
  dr_configuration : RuntimeConfiguration;
  dr_authority_profile_ref : string;
  dr_authority_profile_version : string;
  dr_proof_sha256 : string;
}.
(** [ManagedGrantMode], and [DeploymentRecord] up to the fields the calls read. *)
Inductive ManagedGrantMode := GrantUnspecified | GrantPrepare | GrantServe | GrantClosed.
Record DeploymentRecord := mkRecord {
  dp_registration : DeploymentRegistration;
  dp_mode : ManagedGrantMode;
}.
Record ManagedCallAdmission := mkAdmission {
  ma_admission_id : string;
  ma_epoch : N;
  ma_policy_revision : N;
  ma_expires_at_unix_us : N;
  ma_valid_for_us : N;
}.

Section messages.
Context `{UuidApi}.
Record ManagedCallReservation := mkReservation {
  mr_binding : ManagedDeploymentBinding;
  mr_call_id : Uuid;
  mr_semantic_sha256 : string;
  mr_policy_id : string;
  mr_policy_revision : N;
}.
End messages.

(** The encoder of [prost]. *)
Class ManagedCodec := {
  call_encode : ManagedCallAuthorizationRequest → string;
  call_encoded_len : ManagedCallAuthorizationRequest → N;
  binding_encoded_len : ManagedDeploymentBinding → N;
  completion_encoded_len : ManagedCallCompletion → N;
  renewal_encoded_len : ManagedDeploymentRenewal → N;
  policy_request_encoded_len : ManagedPolicyRequest → N;
}.

(** ** The decision *)

(** [call::Evaluation]. *)
Record Evaluation := mkEvaluation {
  ev_decision : GovernanceAuthorizationDecision;
  ev_policy_revision : N;
  ev_semantic_sha256 : string;
}.

(** [iter().filter(..)], [next()] and [next().is_some()]: the only one. *)
Definition only {A} (f : A → bool) (l : list A) : Checked A :=
  match List.filter f l with
  | [a] => Ok a
  | _ => refuse
  end.

Section call.
Context `{AuthDeps, ManagedCodec}.

(** The comparison of the request with the registered configuration. *)
Definition call_mismatch (input : ManagedCallAuthorizationRequest) (config : RuntimeConfiguration)
    (evidence_agent : string) (caller scope : string * string) (binding : ManagedDeploymentBinding)
    (target : RuntimeTarget) : bool :=
  (16384 <? call_encoded_len input)
  || negb (is_lowercase_uuidv7 (mc_call_id input))
  || negb (str_is_empty (mc_approval_id input))
  || negb (is_ok (digest (mc_arguments_hash input)))
  || negb (String.eqb caller.2 evidence_agent)
  || negb (String.eqb scope.1 (rc_workspace_id config))
  || negb (String.eqb scope.2 (rc_namespace_id config))
  || negb (String.eqb (mc_proxy_id input) (rc_proxy_id config))
  || negb (String.eqb (mc_revision_id input) (rc_revision_id config))
  || negb (mc_generation input =? rc_generation config)
  || negb (String.eqb (rt_workspace_id target) scope.1)
  || negb (String.eqb (rt_namespace_id target) scope.2)
  || negb (String.eqb (rt_proxy_id target) (mc_proxy_id input))
  || negb (String.eqb (rt_revision_id target) (mc_revision_id input))
  || negb (rt_generation target =? mc_generation input)
  || negb (String.eqb (mb_config_hash binding) (rc_config_hash config)).

(** The bytes that are hashed: each part after its length. *)
Definition call_semantics (input : ManagedCallAuthorizationRequest) (upstream : PUpstream) (tool : PTool)
    : string :=
  foldr (λ part rest, component part +:+ rest) EmptyString
    ["apex-managed-call-v1"; call_encode input; pu_upstream_id upstream; pt_tool_name tool].

(** [call::evaluate]. *)
Definition managed_evaluate (input : ManagedCallAuthorizationRequest) (config : RuntimeConfiguration)
    (evidence_agent : string) (policy : GovernanceConfig) : Checked Evaluation :=
  binding ← ok_or (mc_binding input) RefusedManaged;
  target ← ok_or (mb_target binding) RefusedManaged;
  scope ← ok_or (mc_scope input) RefusedManaged;
  caller ← ok_or (mc_caller input) RefusedManaged;
  if call_mismatch input config evidence_agent caller scope binding target then refuse
  else
    spec ← ok_or (rc_spec config) RefusedManaged;
    governance ← ok_or (pp_governance_binding spec) RefusedManaged;
    snapshot ← map_err (λ _, RefusedManaged) (snapshot policy scope);
    if negb (String.eqb (pg_policy_id governance) (gn_policy_id snapshot))
       || negb (String.eqb (pg_approval_mode governance) "none")
       || negb (bool_decide (length (pp_cli_profiles spec) = 0%nat))
       || negb (String.eqb (mc_classification input) (pg_data_classification governance))
    then refuse
    else
      tool ← only (λ tool, String.eqb (pt_alias tool) (mc_tool_alias input)) (pp_exposed_tools spec);
      if negb (pt_classification tool =? 1)%Z || negb (String.eqb (pt_tool_name tool) "portfolio.read")
         || negb (String.eqb (pt_alias tool) "portfolio.read")
         || negb (String.eqb (mc_action input) "read")
      then refuse
      else
        upstream ← only (λ upstream, String.eqb (pu_upstream_id upstream) (pt_upstream_id tool))
          (pp_upstreams spec);
        if negb (pu_transport upstream =? 1)%Z then refuse
        else
          decision ← map_err (λ _, RefusedManaged) (evaluate policy
            (mkGovernanceRequest (Some caller) (Some scope) (pt_tool_name tool) "read"
               (mc_resource input) (pg_data_classification governance) (mc_trace input)));
          Ok (mkEvaluation decision (gn_revision snapshot)
                (sha256_digest (call_semantics input upstream tool))).
End call.

(** [Presentation::verify]. *)
Definition presentation_verify (p : Presentation) (profile : Profile)
    (registration : DeploymentRegistration) (now : N) : Checked Entry :=
  if negb (String.eqb (pn_proof p) (dr_proof_sha256 registration)) then refuse
  else
    selected ← presentation_select p profile (dr_binding registration) now;
    if negb (String.eqb (en_authority_profile_ref selected) (dr_authority_profile_ref registration))
       || negb (String.eqb (en_authority_profile_version selected)
                  (dr_authority_profile_version registration))
    then refuse
    else Ok selected.

(** [Backend::policy_for]. *)
Definition policy_for (policy : GovernanceConfig) (config : RuntimeConfiguration)
    : Checked GovernancePolicySnapshot :=
  snapshot ← map_err (λ _, RefusedManaged)
    (snapshot policy (rc_workspace_id config, rc_namespace_id config));
  spec ← ok_or (rc_spec config) RefusedManaged;
  binding ← ok_or (pp_governance_binding spec) RefusedManaged;
  if negb (String.eqb (gn_policy_id snapshot) (pg_policy_id binding)) then refuse else Ok snapshot.

(** ** The time a call has *)

Definition digits_number (s : string) : N := digits_value (String.list_ascii_of_string s).
Definition timeout_scale (unit : ascii) : option N :=
  if ascii_eqb unit "H" then Some 3600000000000
  else if ascii_eqb unit "M" then Some 60000000000
  else if ascii_eqb unit "S" then Some 1000000000
  else if ascii_eqb unit "m" then Some 1000000
  else if ascii_eqb unit "u" then Some 1000
  else if ascii_eqb unit "n" then Some 1
  else None.
(** [service::budget], on the [grpc-timeout] values, in nanoseconds. *)
Definition call_budget `{AuthDeps} (values : list string) : Checked N :=
  match values with
  | [] => Ok (from_secs 10)
  | [value] =>
      text ← ok_or (header_to_str value) RefusedManaged;
      let n := String.length text in
      if negb ((2 <=? n)%nat && (n <=? 9)%nat) then refuse
      else
        let digits := String.substring 0 (n - 1) text in
        unit ← ok_or (String.get (n - 1) text) RefusedManaged;
        if negb (str_all is_ascii_digit digits) then refuse
        else
          scale ← ok_or (timeout_scale unit) RefusedManaged;
          let nanos := digits_number digits * scale in
          if nanos =? 0 then refuse else Ok (N.min nanos 10000000000)
  | _ => refuse
  end.

(** ** The service *)

(** What a check of [service::context] and [pool::Client::request] sees when it
    runs: the two stop flags, whether the lock of the publication is free, the
    publication, the instant, and the wall clock where it can be read. *)
Record Moment := mkMoment {
  mo_pool_stopped : bool;
  mo_refresh_stopped : bool;
  mo_unlocked : bool;
  mo_state : State;
  mo_now : N;
  mo_unix_us : option N;
}.
(** [refresh::Shared::current] and [Shared::recheck]. *)
Definition shared_current (m : Moment) : Checked Selection :=
  if mo_refresh_stopped m || negb (mo_unlocked m) then refuse else current (mo_state m) (mo_now m).
Definition shared_recheck (m : Moment) (selected : Selection) : Checked unit :=
  if mo_refresh_stopped m || negb (mo_unlocked m) then refuse
  else recheck (mo_state m) selected (mo_now m).

(** [service::Context]; the check is a function of the moment. *)
Record Context := mkContext {
  cx_presentation : Presentation;
  cx_selected : Selection;
  cx_started : N;
  cx_budget : N;
}.
(** The closure [fresh] of [Service::context]. *)
Definition context_fresh (c : Context) (m : Moment) : Checked unit :=
  if cx_budget c <=? mo_now m - cx_started c then refuse
  else
    shared_recheck m (cx_selected c) ≫= λ _,
    now ← ok_or (mo_unix_us m) RefusedManaged;
    let profile := sl_profile (cx_selected c) in
    if (now <? pf_valid_from profile) || (pf_expires profile <=? now) then refuse else Ok tt.
(** The closure [current] of [pool::Client::request]. *)
Definition pool_current (c : Context) (m : Moment) : Checked unit :=
  let budget := N.min (cx_budget c) (from_secs 10) in
  if mo_pool_stopped m || (mo_now m <? cx_started c) || (budget <=? mo_now m - cx_started c) then refuse
  else context_fresh c m.

(** The five moments a request is checked at, and what else may go wrong: no
    free slot, a full queue, a caller that went away before the job began, during
    it or before its last check, and no reply in time. *)
Record PoolEnv := mkPoolEnv {
  pe_before : Moment;
  pe_slot : bool;
  pe_queued : bool;
  pe_begin : Moment;
  pe_begin_cancelled : bool;
  pe_middle : Moment;
  pe_middle_cancelled : bool;
  pe_end : Moment;
  pe_end_cancelled : bool;
  pe_replied : bool;
  pe_after : Moment;
}.
(** The closure [check] of a job. *)
Definition job_check (c : Context) (cancelled : bool) (m : Moment) : Checked unit :=
  if cancelled then refuse else pool_current c m.
(** [pool::Client::request]: the operation is given its own check. *)
Definition pool_request {W A} (env : PoolEnv) (c : Context)
    (operation : Checked unit → ST W Refused A) : ST W Refused A := λ w,
  match pool_current c (pe_before env) with
  | Err e => (Err e, w)
  | Ok _ =>
  if negb (pe_slot env) || negb (pe_queued env) then (refuse, w)
  else
    let '(r, w') :=
      match job_check c (pe_begin_cancelled env) (pe_begin env) with
      | Err e => (Err e, w)
      | Ok _ => operation (job_check c (pe_middle_cancelled env) (pe_middle env)) w
      end in
    let r := job_check c (pe_end_cancelled env) (pe_end env) ≫= λ _, r in
    (pool_current c (pe_after env) ≫= λ _, (if pe_replied env then r else refuse), w')
  end.

(** The operations of the Postgres store the calls use.  The store is given the
    check of the job too, and may refuse for it at any point. *)
Class ManagedStore (W : Type) `{UuidApi} := {
  ManagedDeploymentGrant : Type;
  read_admittable_deployment : ManagedDeploymentBinding → ST W Refused DeploymentRecord;
  read_eligible_deployment : ManagedDeploymentBinding → ST W Refused DeploymentRecord;
  read_deployment : ManagedDeploymentBinding → ST W Refused DeploymentRecord;
  renew_deployment : ManagedDeploymentRenewal → ST W Refused ManagedDeploymentGrant;
  reserve_managed_call : ManagedCallReservation → ST W Refused ManagedCallAdmission;
  complete_managed_call : ManagedDeploymentBinding → Uuid → Uuid → ST W Refused unit;
}.

(** What a call comes with: its metadata, the identity of its TLS peer, the
    [grpc-timeout] values, the instant it started at and what its checks see. *)
Record ManagedEnv := mkManagedEnv {
  me_metadata : Metadata;
  me_peer : option PeerIdentity;
  me_timeout : list string;
  me_started : N;
  me_arrival : Moment;
  me_verified_us : option N;
  me_pool : PoolEnv;
}.

Definition managed_refused : Status := mkStatus GrpcPermissionDenied "MANAGED_AUTHORITY_REFUSED".

Section service.
Context `{AuthDeps, BinaryMetadata, ManagedCodec, UuidApi} {W : Type} `{!ManagedStore W}.

(** [Service::context]. *)
Definition service_context (env : ManagedEnv) (binding : ManagedDeploymentBinding) : Checked Context :=
  present ← presentation_from_request (me_metadata env) (me_peer env);
  target ← ok_or (mb_target binding) RefusedManaged;
  if (4096 <? binding_encoded_len binding)
     || negb (is_lowercase_uuidv7 (mb_process_instance_id binding))
     || negb (is_ok (digest (mb_config_hash binding)))
     || negb (is_ok (digest (mb_launch_context_hash binding)))
     || (rt_generation target =? 0) || (i64_max <? rt_generation target)
     || (rt_fencing_token target =? 0) || (i64_max <? rt_fencing_token target)
  then refuse
  else
    selected ← shared_current (me_arrival env);
    now ← ok_or (mo_unix_us (me_arrival env)) RefusedManaged;
    presentation_select present (sl_profile selected) binding now ≫= λ _,
    budget ← call_budget (me_timeout env);
    Ok (mkContext present selected (me_started env) budget).

(** [authorize_managed_call], inside the pool. *)
Definition authorize_operation (policy : GovernanceConfig) (context : Context) (unix_us : option N)
    (input : ManagedCallAuthorizationRequest) (check : Checked unit)
    : ST W Refused ManagedCallAuthorizationDecision :=
  binding ← st_lift (ok_or (mc_binding input) RefusedManaged);
  record ← read_admittable_deployment binding;
  let registration := dp_registration record in
  now ← st_lift (ok_or unix_us RefusedManaged);
  profile ← st_lift (presentation_verify (cx_presentation context)
    (sl_profile (cx_selected context)) registration now);
  evaluated ← st_lift (managed_evaluate input (dr_configuration registration)
    (en_evidence_agent_id profile) policy);
  st_lift check ≫= λ _,
  match gd_outcome (ev_decision evaluated) with
  | OutcomeAllowed =>
      call_id ← st_lift (ok_or (uuid_parse_str (mc_call_id input)) RefusedManaged);
      admission ← reserve_managed_call (mkReservation binding call_id (ev_semantic_sha256 evaluated)
        (gd_policy_id (ev_decision evaluated)) (ev_policy_revision evaluated));
      mret (mkManagedDecision (Some (ev_decision evaluated)) (ma_admission_id admission)
              (ma_expires_at_unix_us admission) (ma_policy_revision admission)
              (ma_valid_for_us admission) (ma_epoch admission))
  | _ => mret (mkManagedDecision (Some (ev_decision evaluated)) EmptyString 0
                 (ev_policy_revision evaluated) 0 0)
  end.
(** [authorize_managed_call]. *)
Definition authorize_managed_call (policy : GovernanceConfig) (env : ManagedEnv)
    (input : ManagedCallAuthorizationRequest) : ST W Status ManagedCallAuthorizationDecision :=
  st_map_err (λ _, managed_refused) (
    if (16384 <? call_encoded_len input) || negb (is_lowercase_uuidv7 (mc_call_id input))
    then st_throw RefusedManaged
    else
      binding ← st_lift (ok_or (mc_binding input) RefusedManaged);
      context ← st_lift (service_context env binding);
      pool_request (me_pool env) context
        (authorize_operation policy context (me_verified_us env) input)).

(** [business::complete]. *)
Definition complete_operation (context : Context) (unix_us : option N) (input : ManagedCallCompletion)
    (check : Checked unit) : ST W Refused ManagedCallCompletionReceipt :=
  binding ← st_lift (ok_or (mp_binding input) RefusedManaged);
  record ← read_deployment binding;
  now ← st_lift (ok_or unix_us RefusedManaged);
  st_lift (presentation_verify (cx_presentation context)
    (sl_profile (cx_selected context)) (dp_registration record) now) ≫= λ _,
  admission_id ← st_lift (ok_or (uuid_parse_str (mp_admission_id input)) RefusedManaged);
  call_id ← st_lift (ok_or (uuid_parse_str (mp_call_id input)) RefusedManaged);
  complete_managed_call binding admission_id call_id ≫= λ _,
  mret (mkReceipt (mp_binding input) (mp_admission_id input) (mp_call_id input) true).
Definition complete_call (env : ManagedEnv) (input : ManagedCallCompletion)
    : ST W Status ManagedCallCompletionReceipt :=
  st_map_err (λ _, managed_refused) (
    if (8192 <? completion_encoded_len input) || negb (is_lowercase_uuidv7 (mp_call_id input))
       || negb (is_lowercase_uuidv7 (mp_admission_id input))
    then st_throw RefusedManaged
    else
      binding ← st_lift (ok_or (mp_binding input) RefusedManaged);
      context ← st_lift (service_context env binding);
      pool_request (me_pool env) context (complete_operation context (me_verified_us env) input)).

(** [renew_deployment]. *)
Definition renew_operation (policy : GovernanceConfig) (context : Context) (unix_us : option N)
    (input : ManagedDeploymentRenewal) (check : Checked unit)
    : ST W Refused (ManagedDeploymentGrant (W:=W)) :=
  binding ← st_lift (ok_or (mw_binding input) RefusedManaged);
  record ← read_deployment binding;
  now ← st_lift (ok_or unix_us RefusedManaged);
  st_lift (presentation_verify (cx_presentation context)
    (sl_profile (cx_selected context)) (dp_registration record) now) ≫= λ _,
  st_lift match dp_mode record with
          | GrantClosed => Ok tt
          | _ => policy_for policy (dr_configuration (dp_registration record)) ≫= λ _, Ok tt
          end ≫= λ _,
  st_lift check ≫= λ _,
  renew_deployment input.
Definition renew_call (policy : GovernanceConfig) (env : ManagedEnv) (input : ManagedDeploymentRenewal)
    : ST W Status (ManagedDeploymentGrant (W:=W)) :=
  st_map_err (λ _, managed_refused) (
    if (8192 <? renewal_encoded_len input) || negb (str_len (mw_nonce input) =? 32)
       || (mw_renewal_sequence input =? 0) || (i64_max <? mw_renewal_sequence input)
    then st_throw RefusedManaged
    else
      binding ← st_lift (ok_or (mw_binding input) RefusedManaged);
      context ← st_lift (service_context env binding);
      pool_request (me_pool env) context (renew_operation policy context (me_verified_us env) input)).

(** [get_managed_policy]. *)
Definition policy_operation (policy : GovernanceConfig) (context : Context) (unix_us : option N)
    (input : ManagedPolicyRequest) (check : Checked unit) : ST W Refused ManagedPolicySnapshot :=
  binding ← st_lift (ok_or (my_binding input) RefusedManaged);
  record ← read_eligible_deployment binding;
  now ← st_lift (ok_or unix_us RefusedManaged);
  st_lift (presentation_verify (cx_presentation context)
    (sl_profile (cx_selected context)) (dp_registration record) now) ≫= λ _,
  snapshot ← st_lift (policy_for policy (dr_configuration (dp_registration record)));
  st_lift check ≫= λ _,
  mret (mkPolicySnapshot binding (my_nonce input) (gn_policy_id snapshot) (gn_revision snapshot)
          (gc_field_restrictions policy)).
Definition get_managed_policy (policy : GovernanceConfig) (env : ManagedEnv) (input : ManagedPolicyRequest)
    : ST W Status ManagedPolicySnapshot :=
  st_map_err (λ _, managed_refused) (
    if (8192 <? policy_request_encoded_len input) || negb (str_len (my_nonce input) =? 32)
    then st_throw RefusedManaged
    else
      binding ← st_lift (ok_or (my_binding input) RefusedManaged);
      context ← st_lift (service_context env binding);
      pool_request (me_pool env) context (policy_operation policy context (me_verified_us env) input)).
End service.

(** ** What an answer proves *)

Lemma map_err_ok {E F A} (f : E → F) (r : result E A) (a : A) : map_err f r = Ok a ↔ r = Ok a.
Proof. destruct r; split; naive_solver. Qed.
Lemma st_map_err_ok {S E F A} (f : E → F) (m : ST S E A) s a s' :
  st_map_err f m s = (Ok a, s') → m s = (Ok a, s').
Proof. unfold st_map_err. destruct (m s) as [[x|] s1]; [|done]. by intros [= -> ->]. Qed.
Lemma only_ok {A} (f : A → bool) l a : only f l = Ok a ↔ List.filter f l = [a].
Proof. unfold only. destruct (List.filter f l) as [|x [|y l']]; split; naive_solver. Qed.

(** The workload the call speaks for: a credential of an entry of the document,
    and the proof the deployment was registered with. *)
Definition identified `{AuthDeps, BinaryMetadata} (env : ManagedEnv) (profile : Profile)
    (registration : DeploymentRegistration) (entry : Entry) : Prop :=
  ∃ present target, presentation_from_request (me_metadata env) (me_peer env) = Ok present
    ∧ pn_proof present = dr_proof_sha256 registration
    ∧ mb_target (dr_binding registration) = Some target
    ∧ entry ∈ pf_entries profile ∧ entry_selected present (dr_binding registration) target entry = true
    ∧ en_authority_profile_ref entry = dr_authority_profile_ref registration
    ∧ en_authority_profile_version entry = dr_authority_profile_version registration.

(** The call is the one the registered configuration allows: its agent, its
    deployment, and the one tool that reads, over the one upstream that serves
    it. *)
Record in_bounds (input : ManagedCallAuthorizationRequest) (config : RuntimeConfiguration)
    (agent : string) (principal : string) (tool : PTool) (upstream : PUpstream) : Prop := {
  ib_caller : mc_caller input = Some (principal, agent);
  ib_scope : mc_scope input = Some (rc_workspace_id config, rc_namespace_id config);
  ib_proxy : mc_proxy_id input = rc_proxy_id config;
  ib_revision : mc_revision_id input = rc_revision_id config;
  ib_generation : mc_generation input = rc_generation config;
  ib_no_approval : mc_approval_id input = EmptyString;
  ib_action : mc_action input = "read";
  ib_tool : ∃ spec, rc_spec config = Some spec
    ∧ List.filter (λ t, String.eqb (pt_alias t) (mc_tool_alias input)) (pp_exposed_tools spec) = [tool]
    ∧ List.filter (λ u, String.eqb (pu_upstream_id u) (pt_upstream_id tool)) (pp_upstreams spec) = [upstream]
    ∧ pp_cli_profiles spec = [];
  ib_reads : pt_tool_name tool = "portfolio.read" ∧ pt_classification tool = 1%Z
             ∧ pu_transport upstream = 1%Z;
}.

Section answers.
Context `{AuthDeps, BinaryMetadata, ManagedCodec, UuidApi} {W : Type} `{!ManagedStore W}.

Lemma str_is_empty_true s : str_is_empty s = true → s = EmptyString.
Proof. by destruct s. Qed.

Lemma managed_evaluate_ok input config agent policy ev :
  managed_evaluate input config agent policy = Ok ev →
  ∃ principal tool upstream classification,
    in_bounds input config agent principal tool upstream
    ∧ mc_classification input = classification
    ∧ evaluate policy (mkGovernanceRequest (mc_caller input) (mc_scope input) "portfolio.read" "read"
        (mc_resource input) classification (mc_trace input)) = Ok (ev_decision ev)
    ∧ ev_semantic_sha256 ev = sha256_digest (call_semantics input upstream tool)
    ∧ snapshot policy (rc_workspace_id config, rc_namespace_id config)
      = Ok (mkSnapshot (Some (rc_workspace_id config, rc_namespace_id config)) (gc_policy_id policy)
              (ev_policy_revision ev)).
Proof.
  intros He. unfold managed_evaluate, refuse in He.
  apply result_bind_ok in He as (binding & Hb%ok_or_ok & He).
  apply result_bind_ok in He as (target & Ht%ok_or_ok & He).
  apply result_bind_ok in He as ([w n] & Hs%ok_or_ok & He).
  apply result_bind_ok in He as ([principal a] & Hc%ok_or_ok & He).
  apply if_err_then in He as [Hm He]. unfold call_mismatch in Hm. cbn [fst snd] in Hm.
  rewrite !orb_false_iff, !negb_false_iff, !String.eqb_eq, !N.eqb_eq in Hm.
  destruct Hm as [[[[[[[[[[[[[[[_ _] Hap] _] Hag] Hw] Hn] Hp] Hr] Hg] _] _] _] _] _] _].
  apply result_bind_ok in He as (spec & Hsp%ok_or_ok & He).
  apply result_bind_ok in He as (gov & Hgv%ok_or_ok & He).
  apply result_bind_ok in He as (snap & Hsn%map_err_ok & He).
  apply if_err_then in He as [Hm He]. rewrite !orb_false_iff, !negb_false_iff, !String.eqb_eq in Hm.
  destruct Hm as [[[Hpol Hmode] Hcli%bool_decide_eq_true] Hcl].
  apply result_bind_ok in He as (tool & Htl%only_ok & He).
  apply if_err_then in He as [Hm He]. rewrite !orb_false_iff, !negb_false_iff, !String.eqb_eq, Z.eqb_eq in Hm.
  destruct Hm as [[[Hk Htn] Hal] Hact].
  apply result_bind_ok in He as (up & Hup%only_ok & He).
  apply if_err_then in He as [Htr%negb_false_iff%Z.eqb_eq He].
  apply result_bind_ok in He as (dec & Hd%map_err_ok & [= <-]). subst w n a.
  exists principal, tool, up, (mc_classification input). split_and!.
  - split; try done.
    + by apply str_is_empty_true.
    + exists spec. split_and!; try done. by apply nil_length_inv.
  - done.
  - cbn [ev_decision]. rewrite Hc, Hs, Hcl, <-Htn. done.
  - done.
  - rewrite Hsn. f_equal. unfold snapshot in Hsn. apply result_bind_ok in Hsn as (sc & Hsc & Hsn).
    apply or_invalid_ok, governance_scope_new_ok in Hsc as (_ & _ & ->).
    apply if_err_then in Hsn as [_ [= <-]]. done.
Qed.

Lemma pool_request_ok {A} env c (op : Checked unit → ST W Refused A) w a w' :
  pool_request env c op w = (Ok a, w') →
  (∃ check, op check w = (Ok a, w')) ∧ pool_current c (pe_after env) = Ok tt.
Proof.
  unfold pool_request. destruct (pool_current c (pe_before env)) as [u|]; [|done].
  destruct (_ || _); [done|]. destruct (job_check c _ (pe_begin env)) as [v|].
  - destruct (op _ w) as [r w1] eqn:Ho. intros [= Hr <-]. apply result_bind_ok in Hr as ([] & Hc & Hr).
    split; [|done]. destruct (pe_replied env); [|done]. apply result_bind_ok in Hr as (? & _ & ->). eauto.
  - intros [= Hr <-]. apply result_bind_ok in Hr as ([] & _ & Hr). destruct (pe_replied env); [|done].
    by apply result_bind_ok in Hr as (? & _ & ?).
Qed.
Lemma pool_current_ok c m :
  pool_current c m = Ok tt →
  shared_recheck m (cx_selected c) = Ok tt ∧ cx_started c ≤ mo_now m < cx_started c + from_secs 10.
Proof.
  unfold pool_current, refuse. intros [Hb Hc]%if_err_then. rewrite !orb_false_iff in Hb.
  destruct Hb as [[_ Hs%N.ltb_ge] Hx%N.leb_gt]. unfold context_fresh, refuse in Hc.
  apply if_err_then in Hc as [_ Hc]. apply result_bind_ok in Hc as ([] & Hr & _). split; [done|lia].
Qed.
Lemma presentation_verify_ok present profile registration now entry :
  presentation_verify present profile registration now = Ok entry →
  ∃ target, pn_proof present = dr_proof_sha256 registration
    ∧ mb_target (dr_binding registration) = Some target
    ∧ entry ∈ pf_entries profile ∧ entry_selected present (dr_binding registration) target entry = true
    ∧ en_authority_profile_ref entry = dr_authority_profile_ref registration
    ∧ en_authority_profile_version entry = dr_authority_profile_version registration.
Proof.
  unfold presentation_verify, presentation_select, refuse. intros [Hp%negb_false_iff%String.eqb_eq Hv]%if_err_then.
  apply result_bind_ok in Hv as (e & Hs & Hv). apply if_err_then in Hs as [_ Hs].
  apply result_bind_ok in Hs as (target & Ht%ok_or_ok & Hf%ok_or_ok). apply find_some in Hf as [Hin Hf].
  apply if_err_then in Hv as [Hr [= <-]]. rewrite orb_false_iff, !negb_false_iff, !String.eqb_eq in Hr.
  exists target. rewrite list_elem_of_In. naive_solver.
Qed.
Lemma service_context_ok env binding c :
  service_context env binding = Ok c →
  presentation_from_request (me_metadata env) (me_peer env) = Ok (cx_presentation c)
  ∧ shared_current (me_arrival env) = Ok (cx_selected c) ∧ cx_started c = me_started env.
Proof.
  unfold service_context, refuse. intros Hc. apply result_bind_ok in Hc as (present & Hp & Hc).
  apply result_bind_ok in Hc as (target & _ & Hc). apply if_err_then in Hc as [_ Hc].
  apply result_bind_ok in Hc as (sel & Hs & Hc). apply result_bind_ok in Hc as (now & _ & Hc).
  apply result_bind_ok in Hc as (e & _ & Hc). apply result_bind_ok in Hc as (budget & _ & [= <-]). done.
Qed.

(** What the policy is asked about a call. *)
Definition policy_request (input : ManagedCallAuthorizationRequest) : GovernanceAuthorizationRequest :=
  mkGovernanceRequest (mc_caller input) (mc_scope input) "portfolio.read" "read" (mc_resource input)
    (mc_classification input) (mc_trace input).

(** C22. What an answered managed call means.  The document the caller was found
    in was in force when the call arrived and, unchanged, when it was answered,
    less than ten seconds later; the caller holds a credential of an entry of it
    and the proof its deployment was registered with; the call is within the
    registered configuration.  It is allowed exactly when the policy grants it,
    and then, and only then, exactly this call has been reserved in the store. *)
Theorem managed_call_authorised portfolio_ids scopes policy_id revision fields policy env input w d w' :
  governance_config_new portfolio_ids scopes policy_id revision fields = Ok policy →
  authorize_managed_call policy env input w = (Ok d, w') →
  ∃ sel binding record entry principal tool upstream w1,
    shared_current (me_arrival env) = Ok sel
    ∧ shared_recheck (pe_after (me_pool env)) sel = Ok tt
    ∧ me_started env ≤ mo_now (pe_after (me_pool env)) < me_started env + from_secs 10
    ∧ mc_binding input = Some binding
    ∧ read_admittable_deployment binding w = (Ok record, w1)
    ∧ identified env (sl_profile sel) (dp_registration record) entry
    ∧ in_bounds input (dr_configuration (dp_registration record)) (en_evidence_agent_id entry) principal
        tool upstream
    ∧ md_decision d = Some (verdict policy_id fields (granted portfolio_ids scopes (policy_request input)))
    ∧ if granted portfolio_ids scopes (policy_request input) then
        ∃ call_id admission, uuid_parse_str (mc_call_id input) = Some call_id
          ∧ reserve_managed_call (mkReservation binding call_id
              (sha256_digest (call_semantics input upstream tool)) policy_id revision) w1
            = (Ok admission, w')
          ∧ md_admission_id d = ma_admission_id admission
      else w' = w1 ∧ md_admission_id d = EmptyString.
Proof.
  intros Hpol Ha. unfold authorize_managed_call in Ha. apply st_map_err_ok in Ha.
  destruct (_ || _); [done|]. apply st_bind_ok in Ha as (binding & ? & Hb & Ha).
  apply st_lift_ok in Hb as [Hb%ok_or_ok ->]. apply st_bind_ok in Ha as (c & ? & Hc & Ha).
  apply st_lift_ok in Hc as [Hc ->]. apply service_context_ok in Hc as (Hpres & Hcur & Hst).
  apply pool_request_ok in Ha as [[check Ha] Hpool]. apply pool_current_ok in Hpool as [Hrec Htime].
  unfold authorize_operation in Ha. apply st_bind_ok in Ha as (b' & ? & Hb' & Ha).
  apply st_lift_ok in Hb' as [Hb'%ok_or_ok ->]. assert (b' = binding) as -> by congruence.
  apply st_bind_ok in Ha as (record & w1 & Hr & Ha).
  apply st_bind_ok in Ha as (now & ? & Hnow & Ha). apply st_lift_ok in Hnow as [_ ->].
  apply st_bind_ok in Ha as (entry & ? & Hv & Ha). apply st_lift_ok in Hv as [Hv ->].
  apply st_bind_ok in Ha as (ev & ? & He & Ha). apply st_lift_ok in He as [He ->].
  apply st_bind_ok in Ha as (u & ? & Hck & Ha). apply st_lift_ok in Hck as [_ ->].
  apply presentation_verify_ok in Hv as (target & Hv).
  apply managed_evaluate_ok in He as (principal & tool & up & cl & Hin & Hcl & Hev & Hsem & Hsn).
  pose proof (proj1 (evaluate_verdict _ _ _ _ _ policy _ _ Hpol) Hev) as [Hwf Hd].
  assert (Hrv : ev_policy_revision ev = revision).
  { unfold evaluate in Hev. apply result_bind_ok in Hev as (q & Hq & _).
    destruct (config_grants _ _ _ _ _ policy _ _ Hpol Hq) as (_ & _ & _ & <-). unfold snapshot in Hsn.
    apply result_bind_ok in Hsn as (? & _ & Hsn). apply if_err_then in Hsn as [_ [= _ _ ->]]. done. }
  exists (cx_selected c), binding, record, entry, principal, tool, up, w1. rewrite <-Hst. subst cl.
  change (mkGovernanceRequest _ _ _ _ _ _ _) with (policy_request input) in Hd.
  rewrite Hd, Hsem, Hrv in Ha. split_and!; try done; try lia.
  - exists (cx_presentation c), target. tauto.
  - destruct (granted _ _ _); cbn [verdict gd_outcome] in Ha; [|by injection Ha as <- _].
    apply st_bind_ok in Ha as (? & ? & _ & Ha). apply st_bind_ok in Ha as (? & ? & _ & Ha).
    by injection Ha as <- _.
  - destruct (granted _ _ _); cbn [verdict gd_outcome gd_policy_id] in Ha; [|by injection Ha as <- <-].
    apply st_bind_ok in Ha as (call_id & ? & Hid & Ha). apply st_lift_ok in Hid as [Hid%ok_or_ok ->].
    apply st_bind_ok in Ha as (admission & w2 & Hres & Ha). injection Ha as <- <-. eauto.
Qed.
End answers.

(** ** A concrete call

    One deployment, whose workload reads one portfolio. *)
#[local] Existing Instances mz_auth mz_profile.
#[local] Instance mz_binary : BinaryMetadata := λ s, Some (String.substring 0 32 s).
#[local] Instance mz_codec : ManagedCodec := {|
  call_encode := mc_call_id;
  call_encoded_len _ := 100;
  binding_encoded_len _ := 100;
  completion_encoded_len _ := 100;
  renewal_encoded_len _ := 100;
  policy_request_encoded_len _ := 100;
|}.
#[local] Instance mz_uuid : UuidApi := demo_uuid.

Definition mz_proof : string := "proof-of-the-instance-0123456789-0123456789".
Definition mz_config_hash : string := hex_string (mz_hash "configuration").
Definition mz_binding : ManagedDeploymentBinding :=
  mkBinding (mz_id "1") (Some mz_target) (mz_id "4") mz_config_hash mz_config_hash.
Definition mz_spec : PSpec :=
  mkPSpec None [mkPUpstream "u1" "Portfolio" 1 "https://portfolio" EmptyString [] EmptyString EmptyString]
    [mkPTool "u1" TOOL TOOL 1] [] []
    (Some (mkPGovernance "policy-1" "none" CLASSIFICATION EmptyString EmptyString EmptyString EmptyString))
    None.
Definition mz_configuration : RuntimeConfiguration :=
  mkConfiguration "acme" "prod" (mz_id "2") (mz_id "3") mz_config_hash 1 (Some mz_spec).
Definition mz_record : DeploymentRecord :=
  mkRecord (mkRegistration mz_binding mz_configuration "profile" "v1" (mz_hash (String.substring 0 32 mz_proof)))
    GrantServe.

(** The store: what has been reserved. *)
#[local] Instance mz_store : ManagedStore (list ManagedCallReservation) := {|
  ManagedDeploymentGrant := unit;
  read_admittable_deployment _ w := (Ok mz_record, w);
  read_eligible_deployment _ w := (Ok mz_record, w);
  read_deployment _ w := (Ok mz_record, w);
  renew_deployment _ w := (Ok tt, w);
  reserve_managed_call r w := (Ok (mkAdmission (mz_id "9") 1 1 20 10), r :: w);
  complete_managed_call _ _ _ w := (Ok tt, w);
|}.

Definition mz_moment (n : N) : Moment :=
  mkMoment false false true (refresh_run state_new [Reread "document" (from_secs 1) (from_secs 1)])
    (from_secs n) (Some 1767225600000000).
Definition mz_env : ManagedEnv :=
  mkManagedEnv (mkMetadata ["Bearer " +:+ mz_token] [mz_proof]) (Some (mkPeer mz_certificate)) ["5S"]
    (from_secs 1) (mz_moment 1) (Some 1767225600000000)
    (mkPoolEnv (mz_moment 1) true true (mz_moment 2) false (mz_moment 2) false (mz_moment 3) false true
       (mz_moment 3)).
Definition mz_call : ManagedCallAuthorizationRequest :=
  mkManagedCall (Some ("workload", "agent-1")) (Some ("acme", "prod")) (mz_id "2") (mz_id "3") 1 (mz_id "5")
    TOOL "read" (portfolio_resource_reference "alpha") CLASSIFICATION mz_config_hash
    (Some ("trace-1", "span-1")) EmptyString (Some mz_binding).

Lemma managed_call_authorised_witness :
  ∃ policy d w' sel,
    governance_config_new ["alpha"] ["acme/prod"] "policy-1" 1 ["ssn"] = Ok policy
    ∧ authorize_managed_call policy mz_env mz_call [] = (Ok d, w')
    ∧ length w' = 1%nat ∧ gd_outcome <$> md_decision d = Some OutcomeAllowed
    ∧ shared_recheck (mz_moment 3) sel = Ok tt.
Proof.
  destruct (governance_config_new ["alpha"] ["acme/prod"] "policy-1" 1 ["ssn"]) as [policy|] eqn:Hp;
    [|by apply (f_equal is_ok) in Hp; vm_compute in Hp].
  destruct (authorize_managed_call policy mz_env mz_call []) as [[d|] w'] eqn:Ha.
  2: { exfalso. assert (Hx : is_ok (policy ← governance_config_new ["alpha"] ["acme/prod"] "policy-1" 1 ["ssn"];
      map_err (λ _, EmptyString) (authorize_managed_call policy mz_env mz_call []).1) = true)
      by (vm_compute; reflexivity).
    rewrite Hp in Hx. cbn [mbind result_bind] in Hx. by rewrite Ha in Hx. }
  destruct (managed_call_authorised ["alpha"] ["acme/prod"] "policy-1" 1 ["ssn"] policy mz_env mz_call [] d w')
    as (sel & b & r & e & pr & tl & up & w1 & _ & Hrec & _ & _ & Hr & _ & _ & Hd & Hg).
  - exact Hp.
  - exact Ha.
  - exists policy, d, w', sel.
    assert (Hgr : granted ["alpha"] ["acme/prod"] (policy_request mz_call) = true) by (vm_compute; reflexivity).
    rewrite Hgr in Hd, Hg. destruct Hg as (cid & adm & _ & Hres & _). injection Hr as _ <-. injection Hres as _ <-.
    rewrite Hd. split_and!; try done.
Defined.
