(* ===== verification/ProxyRuntime.v ===== *)
(** * Running proxies

    [apps/control-plane-api/src/proxy/reconciler.rs] and [provider.rs]: the
    reconciler keeps one runtime per proxy, through whatever provider starts and
    stops them; the Docker provider does so by the commands it runs.  The world
    the commands act on is a parameter.  A provider is taken not to panic, so
    that the mutex of the reconciler is never poisoned and is its content. *)
From Stdlib Require Import Ascii.
From S2P Require Import Prelude RustStr Digits ProxyText Time Errors ProxySpec ProxyWireLaws Fingerprint ProxyStoreWf.

Open Scope N_scope.

Record RuntimeHandle := mkHandle {
  rh_container_name : string;
  rh_container_id : string;
  rh_proxy_id : string;
  rh_revision_id : string;
}.
Inductive Readiness := RuntimeReady | RuntimeStarting | RuntimeFailed.
#[global] Instance Readiness_eq_dec : EqDecision Readiness.
Proof. solve_decision. Defined.

(** [RuntimeOperations], on a world the operations act on. *)
Class RuntimeOperations (W : Type) := {
  provision : McpProxyRevision → ST W ProxyError RuntimeHandle;
  readiness : RuntimeHandle → ST W ProxyError Readiness;
  drain : RuntimeHandle → ST W ProxyError unit;
  terminate : RuntimeHandle → ST W ProxyError unit;
}.

(** ** The reconciler *)

(** [RuntimeKey]: proxy and revision. *)
Definition RuntimeKey : Type := ProxyId * ProxyRevisionId.
(** [ProxyRuntimeReconciler], with the world of its provider. *)
Record Reconciler (W : Type) := mkReconciler {
  rr_active : gmap RuntimeKey RuntimeHandle;
  rr_world : W;
}.
Arguments mkReconciler {W} _ _.
Arguments rr_active {W} _.
Arguments rr_world {W} _.

Section reconciler.
Context {W : Type} `{!RuntimeOperations W}.
Abbreviation R := (Reconciler W).

Definition on_world {A} (m : ST W ProxyError A) : ST R ProxyError A :=
  st_zoom rr_world (λ w r, mkReconciler (rr_active r) w) m.
Definition on_active {A} (f : gmap RuntimeKey RuntimeHandle → A * gmap RuntimeKey RuntimeHandle)
    : ST R ProxyError A :=
  st_state (λ r, let '(a, m) := f (rr_active r) in (a, mkReconciler m (rr_world r))).

(** Drains and terminates, in order, up to the first failure. *)
Fixpoint stop_all (handles : list RuntimeHandle) : ST W ProxyError unit :=
  match handles with
  | [] => mret tt
  | h :: handles => drain h ≫= λ _, terminate h ≫= λ _, stop_all handles
  end.

(** The exchange under the lock: the runtimes of other revisions of the proxy
    leave the map, the new one enters it. *)
Definition other_revision (key : RuntimeKey) (candidate : RuntimeKey) : Prop :=
  candidate.1 = key.1 ∧ candidate.2 ≠ key.2.
#[global] Instance other_revision_dec key candidate : Decision (other_revision key candidate).
Proof. unfold other_revision. apply _. Defined.
Definition replace_runtime (key : RuntimeKey) (handle : RuntimeHandle)
    (active : gmap RuntimeKey RuntimeHandle) : list RuntimeHandle * gmap RuntimeKey RuntimeHandle :=
  ((map_to_list (filter (λ kh, other_revision key kh.1) active)).*2,
   <[key := handle]> (filter (λ kh, ¬ other_revision key kh.1) active)).

(** [reconcile], from the point where the runtime has to be started. *)
Definition start_runtime (revision : McpProxyRevision) : ST R ProxyError RuntimeHandle :=
  let key := (rv_proxy_id revision, rv_revision_id revision) in
  handle ← on_world (provision revision);
  ready ← on_world (readiness handle);
  if negb (bool_decide (ready = RuntimeReady)) then st_throw provider_failed
  else
    old ← on_active (replace_runtime key handle);
    on_world (stop_all old) ≫= λ _,
    mret handle.
(** [reconcile]. *)
Definition reconcile (revision : McpProxyRevision) : ST R ProxyError RuntimeHandle :=
  let key := (rv_proxy_id revision, rv_revision_id revision) in
  found ← on_active (λ m, (m !! key, m));
  match found with
  | Some handle =>
      ready ← on_world (readiness handle);
      if bool_decide (ready = RuntimeReady) then mret handle else start_runtime revision
  | None => start_runtime revision
  end.
(** [pause]. *)
Definition pause (proxy_id : ProxyId) (revision_id : ProxyRevisionId) : ST R ProxyError unit :=
  found ← on_active (λ m, (m !! (proxy_id, revision_id), m));
  handle ← st_lift (ok_or found provider_failed);
  on_world (drain handle).
(** [retire]. *)
Definition retire (proxy_id : ProxyId) (revision_id : ProxyRevisionId) : ST R ProxyError unit :=
  found ← on_active (λ m, (m !! (proxy_id, revision_id), delete (proxy_id, revision_id) m));
  handle ← st_lift (ok_or found provider_failed);
  on_world (drain handle) ≫= λ _,
  on_world (terminate handle).
(** [active_count]. *)
Definition active_count (r : R) : nat := size (rr_active r).
End reconciler.

(** ** The Docker provider *)

Record RuntimeCommandOutput := mkOutput { co_status : Z; co_stdout : string }.
(** [RuntimeCommandRunner]. *)
Class RuntimeCommandRunner (W : Type) := run_command : list string → ST W ProxyError RuntimeCommandOutput.

Definition RUNTIME_USER : string := "10001:10001".
Definition TMPFS : string := "/tmp:rw,noexec,nosuid,size=64m".

(** [DockerProxyProvider::with_network], as the check of the name. *)
Definition docker_with_network (network : string) : result ProxyError string :=
  if str_is_empty network || (64 <? str_len network)
     || negb (str_all (λ c, is_ascii_alphanumeric c || ascii_eqb c "-" || ascii_eqb c "_") network)
  then Err (invalid_proxy_spec "Proxy runtime network must be a bounded provider-owned name.")
  else Ok network.

(** [identity]: the name of the container. *)
Definition container_name (proxy_id revision_id : string) : string :=
  "apex-mcp-proxy-" +:+ proxy_id +:+ "-" +:+ revision_id.
(** [bounded_id]. *)
Definition bounded_id (value : string) : result ProxyError string :=
  let value := trim value in
  if str_is_empty value || (128 <? str_len value) || str_has_control value then Err provider_failed
  else Ok value.

(** [run_args]. *)
Definition run_args (network : string) (revision : McpProxyRevision) (name : string) : list string :=
  let runtime := sp_runtime_profile (rv_spec revision) in
  ["run"; "--detach"; "--name"; name;
   "--label"; "apex.proxy.id=" +:+ rv_proxy_id revision;
   "--label"; "apex.proxy.revision=" +:+ rv_revision_id revision;
   "--label"; "apex.proxy.config_hash=" +:+ rv_config_hash revision;
   "--user"; RUNTIME_USER; "--read-only";
   "--security-opt"; "no-new-privileges:true"; "--cap-drop"; "ALL";
   "--tmpfs"; TMPFS; "--cpus"; rp_cpu_limit runtime;
   "--memory"; rp_memory_limit runtime; "--pids-limit"; "128";
   "--network"; network; rp_image_digest runtime].

Section docker.
Context {W : Type} `{!RuntimeCommandRunner W} (network : string).

(** A failure of the inspection counts as an absent container. *)
Definition docker_provision (revision : McpProxyRevision) : ST W ProxyError RuntimeHandle := λ w,
  let name := container_name (rv_proxy_id revision) (rv_revision_id revision) in
  let handle id := mkHandle name id (rv_proxy_id revision) (rv_revision_id revision) in
  let '(inspect, w) := run_command ["container"; "inspect"; name] w in
  match inspect with
  | Ok (mkOutput 0 stdout) => (handle <$> bounded_id stdout, w)
  | _ =>
      (output ← run_command (run_args network revision name);
       if negb (co_status output =? 0)%Z then st_throw provider_failed
       else st_lift (handle <$> bounded_id (co_stdout output))) w
  end.
Definition docker_readiness (handle : RuntimeHandle) : ST W ProxyError Readiness :=
  output ← run_command ["container"; "inspect"; "--format"; "{{.State.Status}}"; rh_container_name handle];
  if negb (co_status output =? 0)%Z then st_throw provider_failed
  else if String.eqb (co_stdout output) "running" then mret RuntimeReady
  else if String.eqb (co_stdout output) "created" || String.eqb (co_stdout output) "restarting"
  then mret RuntimeStarting
  else mret RuntimeFailed.
(** The end of [drain] and [terminate]. *)
Definition gone_or_done (output : RuntimeCommandOutput) : result ProxyError unit :=
  if (co_status output =? 0)%Z || str_contains "No such container" (co_stdout output) then Ok tt
  else Err provider_failed.
Definition docker_drain (handle : RuntimeHandle) : ST W ProxyError unit :=
  output ← run_command ["container"; "stop"; "--timeout"; "5"; rh_container_name handle];
  st_lift (gone_or_done output).
Definition docker_terminate (handle : RuntimeHandle) : ST W ProxyError unit :=
  output ← run_command ["container"; "rm"; "--force"; rh_container_name handle];
  st_lift (gone_or_done output).

Definition docker_provider : RuntimeOperations W := {|
  provision := docker_provision;
  readiness := docker_readiness;
  drain := docker_drain;
  terminate := docker_terminate;
|}.
End docker.

(** ** What a provider promises *)

(** Which containers there are: starting a runtime adds its own, terminating
    it takes it away, nothing else changes.  What fails may have been done. *)
Class RuntimeLaws (W : Type) `{!RuntimeOperations W} := {
  containers : W → gset string;
  provisioned r w h w' : provision r w = (Ok h, w') →
    rh_container_name h = container_name (rv_proxy_id r) (rv_revision_id r)
    ∧ containers w' = {[rh_container_name h]} ∪ containers w;
  provision_failed r w e w' : provision r w = (Err e, w') →
    containers w ⊆ containers w';
  readiness_kept h w : containers (readiness h w).2 = containers w;
  drain_kept h w : containers (drain h w).2 = containers w;
  terminated h w w' : terminate h w = (Ok tt, w') → containers w' = containers w ∖ {[rh_container_name h]};
  terminate_failed h w e w' : terminate h w = (Err e, w') →
    containers w ∖ {[rh_container_name h]} ⊆ containers w';
}.

(** The calls of a reconciler. *)
Inductive RuntimeCall :=
  | CallReconcile (revision : McpProxyRevision)
  | CallPauseRuntime (proxy_id : ProxyId) (revision_id : ProxyRevisionId)
  | CallRetireRuntime (proxy_id : ProxyId) (revision_id : ProxyRevisionId).
Definition runtime_call {W} `{!RuntimeOperations W} (c : RuntimeCall) : ST (Reconciler W) ProxyError unit :=
  match c with
  | CallReconcile revision => reconcile revision ≫= λ _, mret tt
  | CallPauseRuntime p r => pause p r
  | CallRetireRuntime p r => retire p r
  end.
(** Identifiers are well formed, as their types promise. *)
Definition call_typed (c : RuntimeCall) : Prop :=
  match c with
  | CallReconcile revision => is_id (rv_proxy_id revision) ∧ is_id (rv_revision_id revision)
  | CallPauseRuntime p r | CallRetireRuntime p r => is_id p ∧ is_id r
  end.

Definition key_name (key : RuntimeKey) : string := container_name key.1 key.2.
Lemma key_name_inj k k' : is_id k.1 → is_id k'.1 → key_name k = key_name k' → k = k'.
Proof.
  destruct k as [p r], k' as [p' r']. unfold key_name, container_name. cbn [fst snd]. intros Hp Hp' He.
  apply str_app_inj in He as [_ He]; [|done].
  apply is_id_len in Hp, Hp'. unfold str_len in Hp, Hp'.
  apply str_app_inj in He as [-> He]; [|lia]. by apply str_app_inj in He as [_ ->].
Qed.

Lemma swap_names (X A O N : gset string) n :
  {[n]} ∪ A = O ∪ N → O ## N → X ## O → ({[n]} ∪ (X ∪ A)) ∖ O = X ∪ N.
Proof.
  intros He HN HX. apply set_eq. intros x. rewrite elem_of_difference, !elem_of_union.
  assert (Hx : x ∈ {[n]} ∪ A ↔ x ∈ O ∪ N) by (by rewrite He). rewrite !elem_of_union in Hx.
  specialize (HN x). specialize (HX x). tauto.
Qed.

Section laws.
Context {W : Type} `{RuntimeLaws W}.
Abbreviation R := (Reconciler W).

(** The names of the runtimes of a map. *)
Definition active_names (m : gmap RuntimeKey RuntimeHandle) : gset string :=
  list_to_set (key_name <$> (map_to_list m).*1).
Lemma elem_of_active_names m n : n ∈ active_names m ↔ ∃ k, is_Some (m !! k) ∧ key_name k = n.
Proof.
  unfold active_names. rewrite elem_of_list_to_set, list_elem_of_fmap. split.
  - intros (k & -> & Hk). exists k. split; [|done]. apply list_elem_of_fmap in Hk as ([k' h] & -> & Hk).
    apply elem_of_map_to_list in Hk. by exists h.
  - intros (k & [h Hk] & <-). exists k. split; [done|]. apply list_elem_of_fmap. exists (k, h).
    by rewrite elem_of_map_to_list.
Qed.

(** One runtime per proxy, each under its own name. *)
Record one_each (m : gmap RuntimeKey RuntimeHandle) : Prop := {
  oe_named k h : m !! k = Some h → rh_container_name h = key_name k ∧ is_id k.1;
  oe_single k k' : is_Some (m !! k) → is_Some (m !! k') → k.1 = k'.1 → k = k';
}.

(** What is running: [before], which is none of ours, and what is active. *)
Definition accounted (before : gset string) (r : R) : Prop :=
  one_each (rr_active r)
  ∧ (∀ p v, is_id p → container_name p v ∉ before)
  ∧ containers (rr_world r) = before ∪ active_names (rr_active r).

Lemma replace_one_each key h m :
  one_each m → is_id key.1 → rh_container_name h = key_name key → one_each (replace_runtime key h m).2.
Proof.
  intros [Hn Hs] Hk Hh. unfold replace_runtime. cbn [snd]. split.
  - intros k h' [[<- <-]|[_ Hf]]%lookup_insert_Some; [done|]. apply map_lookup_filter_Some in Hf as [Hf _]. eauto.
  - assert (Hall : ∀ k, is_Some ((<[key := h]> (filter (λ kh, ¬ other_revision key kh.1) m)) !! k) →
      k = key ∨ is_Some (m !! k) ∧ ¬ other_revision key k).
    { intros k [x [[-> _]|[_ [Hf Hx]%map_lookup_filter_Some]]%lookup_insert_Some]; [by left|right].
      split; [by exists x|done]. }
    intros k k' [->|[Hk1 Ho1]]%Hall [->|[Hk2 Ho2]]%Hall Heq; try done; try by apply Hs.
    + destruct k' as [p v]. unfold other_revision in Ho2. cbn in *. destruct key as [p0 v0]. cbn in *.
      destruct (decide (v = v0)) as [->|]; [congruence|]. by destruct Ho2.
    + destruct k as [p v]. unfold other_revision in Ho1. cbn in *. destruct key as [p0 v0]. cbn in *.
      destruct (decide (v = v0)) as [->|]; [congruence|]. by destruct Ho1.
Qed.

Lemma stop_all_ok hs w u w' :
  stop_all hs w = (Ok u, w') → containers w' = containers w ∖ list_to_set (rh_container_name <$> hs).
Proof.
  revert w. induction hs as [|h hs IH]; intros w Hs; cbn [stop_all] in Hs.
  { injection Hs as _ <-. simpl. set_solver. }
  apply st_bind_ok in Hs as ([] & w1 & Hd & Hs). apply st_bind_ok in Hs as ([] & w2 & Ht & Hs).
  apply IH in Hs as ->. apply terminated in Ht as ->. pose proof (drain_kept h w) as Hk. rewrite Hd in Hk.
  cbn [snd] in Hk. rewrite Hk, fmap_cons, list_to_set_cons. set_solver.
Qed.

Lemma old_names key h m :
  one_each m →
  list_to_set (rh_container_name <$> (replace_runtime key h m).1)
  = active_names (filter (λ kh, other_revision key kh.1) m).
Proof.
  intros [Hn _]. apply set_eq. intros n. rewrite elem_of_active_names. unfold replace_runtime. cbn [fst].
  rewrite elem_of_list_to_set, list_elem_of_fmap. split.
  - intros (h' & -> & ([k h0] & -> & Hk%elem_of_map_to_list)%list_elem_of_fmap). exists k.
    apply map_lookup_filter_Some in Hk as Hf. destruct Hf as [Hm _].
    split; [by exists h0|]. symmetry. by apply (Hn k h0).
  - intros (k & [h' Hk] & <-). exists h'. pose proof Hk as [Hm _]%map_lookup_filter_Some.
    split; [symmetry; by apply (Hn k h')|]. apply list_elem_of_fmap. exists (k, h').
    by rewrite elem_of_map_to_list.
Qed.
Lemma replace_names key h m :
  one_each m → is_id key.1 →
  let old := active_names (filter (λ kh, other_revision key kh.1) m) in
  old ## active_names (replace_runtime key h m).2
  ∧ {[key_name key]} ∪ active_names m = old ∪ active_names (replace_runtime key h m).2.
Proof.
  intros [Hn Hs] Hk old. unfold old, replace_runtime. cbn [snd]. split.
  - intros n (k & [x [Hm Ho]%map_lookup_filter_Some] & <-)%elem_of_active_names
      (k' & [y Hy] & He)%elem_of_active_names.
    assert (Hid : is_id k.1) by (by eapply Hn).
    apply lookup_insert_Some in Hy as [[<- _]|[_ [Hm' Ho']%map_lookup_filter_Some]].
    + apply key_name_inj in He as <-; [|done..]. by destruct Ho.
    + apply key_name_inj in He as ->; [|by eapply Hn|done]. done.
  - apply set_eq. intros n. rewrite !elem_of_union, elem_of_singleton, !elem_of_active_names. split.
    + intros [->|(k & [x Hm] & <-)].
      { right. exists key. split; [|done]. by rewrite lookup_insert_eq. }
      destruct (decide (other_revision key k)) as [Ho|Ho].
      { left. exists k. split; [|done]. exists x. by apply map_lookup_filter_Some. }
      right. exists k. split; [|done]. destruct (decide (k = key)) as [->|]; [by rewrite lookup_insert_eq|].
      rewrite lookup_insert_ne by done. exists x. by apply map_lookup_filter_Some.
    + intros [(k & [x [Hm _]%map_lookup_filter_Some] & <-)|(k & [x Hx] & <-)].
      { right. exists k. by split; [exists x|]. }
      apply lookup_insert_Some in Hx as [[-> _]|[_ [Hm _]%map_lookup_filter_Some]]; [by left|right].
      exists k. by split; [exists x|].
Qed.

Lemma on_world_ok {A} (m : ST W ProxyError A) (r : R) a r' :
  on_world m r = (Ok a, r') → m (rr_world r) = (Ok a, rr_world r') ∧ rr_active r' = rr_active r.
Proof.
  unfold on_world, st_zoom. destruct (m (rr_world r)) as [x w]. by intros [= -> <-].
Qed.
Lemma on_active_ok {A} f (r : R) a r' :
  on_active (A:=A) f r = (Ok a, r') → f (rr_active r) = (a, rr_active r') ∧ rr_world r' = rr_world r.
Proof.
  unfold on_active, st_state. destruct (f (rr_active r)) as [x m]. by intros [= -> <-].
Qed.

Lemma start_accounted before revision r h r' :
  accounted before r → is_id (rv_proxy_id revision) →
  start_runtime revision r = (Ok h, r') → accounted before r'.
Proof.
  intros (Hone & Hfree & Hw) Hid Hs. unfold start_runtime in Hs.
  apply st_bind_ok in Hs as (h' & r1 & Hp & Hs). apply on_world_ok in Hp as [Hp Ha1].
  apply provisioned in Hp as [Hname Hc1].
  apply st_bind_ok in Hs as (rd & r2 & Hr & Hs). apply on_world_ok in Hr as [Hr Ha2].
  pose proof (readiness_kept h' (rr_world r1)) as Hc2. rewrite Hr in Hc2. cbn [snd] in Hc2.
  destruct (negb _); [done|]. apply st_bind_ok in Hs as (old & r3 & Ho & Hs).
  apply on_active_ok in Ho as [Ho Hw3]. rewrite Ha2, Ha1 in Ho.
  apply st_bind_ok in Hs as ([] & r4 & Hst & [= _ <-]). apply on_world_ok in Hst as [Hst Ha4].
  apply stop_all_ok in Hst. set (key := (rv_proxy_id revision, rv_revision_id revision)) in *.
  assert (Hold : old = (replace_runtime key h' (rr_active r)).1) by (by rewrite Ho).
  assert (Hnew : rr_active r4 = (replace_runtime key h' (rr_active r)).2) by (by rewrite Ha4, Ho).
  destruct (replace_names key h' (rr_active r) Hone Hid) as [Hdisj Heq].
  split; [|split; [done|]].
  - rewrite Hnew. by apply replace_one_each.
  - rewrite Hst, Hold, old_names, Hw3, Hc2, Hc1, Hw, Hname, Hnew by done.
    change (container_name _ _) with (key_name key).
    assert (Hx : before ## active_names (filter (λ kh, other_revision key kh.1) (rr_active r))).
    { intros n Hn (k & [x [Hm _]%map_lookup_filter_Some] & <-)%elem_of_active_names.
      apply (Hfree k.1 k.2); [|done]. by eapply oe_named. }
    by apply swap_names.
Qed.

Lemma reconcile_cases revision r :
  let key := (rv_proxy_id revision, rv_revision_id revision) in
  reconcile revision r =
  match rr_active r !! key with
  | Some h =>
      (ready ← on_world (readiness h);
       if bool_decide (ready = RuntimeReady) then mret h else start_runtime revision) r
  | None => start_runtime revision r
  end.
Proof.
  cbv zeta. unfold reconcile, on_active, st_state. unfold mbind at 1, st_bind at 1. cbn.
  destruct r as [m w]. cbn [rr_active rr_world].
  by destruct (m !! (rv_proxy_id revision, rv_revision_id revision)).
Qed.

Lemma call_accounted before c r u r' :
  accounted before r → call_typed c → runtime_call c r = (Ok u, r') → accounted before r'.
Proof.
  intros Hacc Ht Hc. destruct c as [revision|p v|p v]; cbn [runtime_call call_typed] in *; destruct Ht as [Ht1 Ht2].
  - apply st_bind_ok in Hc as (h & r1 & Hc & [= _ <-]). rewrite reconcile_cases in Hc.
    destruct (rr_active r !! _) as [h0|]; [|by eapply start_accounted; [..|exact Hc]].
    apply st_bind_ok in Hc as (rd & r2 & Hr & Hc). apply on_world_ok in Hr as [Hr Ha].
    assert (Hacc2 : accounted before r2).
    { destruct Hacc as (? & ? & Hw). pose proof (readiness_kept h0 (rr_world r)) as Hk. rewrite Hr in Hk.
      cbn [snd] in Hk. split_and!; rewrite ?Ha, ?Hk; done. }
    destruct (bool_decide _); [by injection Hc as _ <-|by eapply start_accounted; [..|exact Hc]].
  - unfold pause in Hc. apply st_bind_ok in Hc as (f & r1 & Hf & Hc). apply on_active_ok in Hf as [[= _ Ha1] Hw1].
    apply st_bind_ok in Hc as (h & r2 & Hl & Hc). apply st_lift_ok in Hl as [_ ->].
    apply on_world_ok in Hc as [Hd Ha]. destruct Hacc as (? & ? & Hw).
    pose proof (drain_kept h (rr_world r1)) as Hk. rewrite Hd in Hk. cbn [snd] in Hk.
    split_and!; rewrite ?Ha, <-?Ha1, ?Hk, ?Hw1; done.
  - unfold retire in Hc. apply st_bind_ok in Hc as (f & r1 & Hf & Hc).
    apply on_active_ok in Hf as [[= <- Ha1] Hw1].
    apply st_bind_ok in Hc as (h & r2 & Hl & Hc). apply st_lift_ok in Hl as [Hl%ok_or_ok ->].
    apply st_bind_ok in Hc as ([] & r2 & Hd & Hc). apply on_world_ok in Hd as [Hd Ha2].
    apply on_world_ok in Hc as [Hc Ha3]. destruct u. apply terminated in Hc.
    pose proof (drain_kept h (rr_world r1)) as Hk. rewrite Hd in Hk. cbn [snd] in Hk.
    destruct Hacc as ([Hn Hs] & Hfree & Hw). destruct (Hn _ _ Hl) as [Hname Hid]. rewrite Ha2, <-Ha1 in Ha3.
    split_and!; rewrite ?Ha3; [split|done|].
    + intros k h' [_ Hk']%lookup_delete_Some. by apply Hn.
    + intros k k' [x [_ Hx]%lookup_delete_Some] [y [_ Hy]%lookup_delete_Some]. apply Hs; eauto.
    + rewrite Hc, Hk, Hw1, Hw, Hname. apply set_eq. intros n.
      rewrite elem_of_difference, !elem_of_union, !elem_of_active_names, not_elem_of_singleton. split.
      * intros [[Hb|(k & Hk' & <-)] Hne]; [by left|right]. exists k. split; [|done].
        rewrite lookup_delete_ne; [done|congruence].
      * intros [Hb|(k & [x [Hkne Hx]%lookup_delete_Some] & <-)].
        { split; [by left|]. intros ->. by apply (Hfree p v). }
        split; [right; eauto|]. intros He%key_name_inj; [congruence|by eapply Hn|done].
Qed.

(** Every call of a sequence was answered. *)
Fixpoint all_answered (l : list RuntimeCall) (r r' : R) : Prop :=
  match l with
  | [] => r = r'
  | c :: l => ∃ r1, runtime_call c r = (Ok tt, r1) ∧ all_answered l r1 r'
  end.

(** C19. The reconciler runs one runtime per proxy and leaves nothing behind.
    Started on a world without runtimes of its own, after any calls that were
    all answered, the containers are those that were there before and those of
    the active runtimes; no proxy has two. *)
Theorem runtimes_accounted (w : W) l r :
  Forall call_typed l → (∀ p v, is_id p → container_name p v ∉ containers w) →
  all_answered l (mkReconciler ∅ w) r →
  containers (rr_world r) = containers w ∪ active_names (rr_active r)
  ∧ ∀ k k', is_Some (rr_active r !! k) → is_Some (rr_active r !! k') → k.1 = k'.1 → k = k'.
Proof.
  intros Hl Hfree Ha.
  assert (Hacc : accounted (containers w) r).
  { assert (H0 : accounted (containers w) (mkReconciler ∅ w)).
    { split; [|split; [done|]]; [split; [by intros k h|by intros k k' [x Hx]]|]. simpl. unfold active_names.
      rewrite map_to_list_empty. set_solver. }
    revert H0 Ha. generalize (mkReconciler (W:=W) ∅ w). induction Hl as [|c l Hc Hl IH]; intros r0 H0 Ha.
    - by simpl in Ha; subst.
    - destruct Ha as (r1 & Hr & Ha). by apply (IH r1); [eapply call_accounted|]. }
  destruct Hacc as ([_ Hs] & _ & Hw). done.
Qed.

(** ** Runtimes that are lost *)

Definition run_calls (l : list RuntimeCall) (r : R) : R := foldl (λ r c, (runtime_call c r).2) r l.
Definition named (m : gmap RuntimeKey RuntimeHandle) : Prop :=
  ∀ k h, m !! k = Some h → rh_container_name h = key_name k ∧ is_id k.1.

(** A container nothing refers to any more. *)
Definition orphaned (k : RuntimeKey) (r : R) : Prop :=
  named (rr_active r) ∧ rr_active r !! k = None ∧ key_name k ∈ containers (rr_world r).

Lemma stop_all_keeps n hs w :
  n ∉ rh_container_name <$> hs → n ∈ containers w → n ∈ containers (stop_all hs w).2.
Proof.
  revert w. induction hs as [|h hs IH]; intros w Hn Hw; [done|]. rewrite fmap_cons in Hn.
  apply not_elem_of_cons in Hn as [Hh Hn]. cbn [stop_all]. unfold mbind, st_bind.
  pose proof (drain_kept h w) as Hd. destruct (drain h w) as [[[]|e] w1]; cbn [snd] in *; [|by rewrite Hd].
  destruct (terminate h w1) as [[[]|e] w2] eqn:Ht; cbn [snd].
  - apply IH; [done|]. rewrite (terminated _ _ _ Ht), Hd. set_solver.
  - apply terminate_failed in Ht. rewrite Hd in Ht. set_solver.
Qed.

Lemma start_orphaned k revision r :
  orphaned k r → is_id (rv_proxy_id revision) → is_id k.1 →
  k ≠ (rv_proxy_id revision, rv_revision_id revision) → orphaned k (start_runtime revision r).2.
Proof.
  intros (Hn & Hk & Hin) Hid Hidk Hne. unfold start_runtime, on_world, on_active, st_zoom, st_state, mbind, st_bind.
  set (key := (rv_proxy_id revision, rv_revision_id revision)) in *.
  destruct (provision revision (rr_world r)) as [[h|e] w1] eqn:Hp; cbn [rr_world rr_active snd].
  2: { split_and!; [done..|]. apply provision_failed in Hp. set_solver. }
  apply provisioned in Hp as [Hname Hc1]. pose proof (readiness_kept h w1) as Hc2.
  assert (Hin1 : key_name k ∈ containers w1) by (rewrite Hc1; set_solver).
  destruct (readiness h w1) as [[rd|e] w2]; cbn [rr_world rr_active snd] in *.
  2: { split_and!; [done..|]. cbn [rr_world]. by rewrite Hc2. }
  destruct (negb _); [split_and!; [done..|]; unfold st_throw; cbn [snd rr_world]; by rewrite Hc2|].
  cbn [rr_world rr_active].
  destruct (replace_runtime key h (rr_active r)) as [old m] eqn:Hr. cbn [rr_world rr_active].
  assert (Hm : named m ∧ m !! k = None).
  { injection Hr as _ <-. split.
    - intros k' h' [[<- <-]|[_ [Hf _]%map_lookup_filter_Some]]%lookup_insert_Some; [by split|by apply Hn].
    - rewrite lookup_insert_ne by done. apply map_lookup_filter_None. by left. }
  assert (Ho : key_name k ∉ rh_container_name <$> old).
  { injection Hr as <- _. intros (h' & He & ([k' h0] & -> & Hx%elem_of_map_to_list)%list_elem_of_fmap)%list_elem_of_fmap.
    apply map_lookup_filter_Some in Hx as [Hx _]. destruct (Hn _ _ Hx) as [Hnm Hid']. cbn [snd] in He.
    rewrite Hnm in He. apply key_name_inj in He as ->; [congruence|done..]. }
  pose proof (stop_all_keeps _ old w2 Ho) as Hk2. rewrite Hc2 in Hk2. specialize (Hk2 Hin1).
  destruct Hm as [Hm1 Hm2]. by destruct (stop_all old w2) as [[[]|e] w3].
Qed.

Lemma call_orphaned k c r :
  orphaned k r → call_typed c → is_id k.1 →
  (∀ revision, c = CallReconcile revision → k ≠ (rv_proxy_id revision, rv_revision_id revision)) →
  orphaned k (runtime_call c r).2.
Proof.
  intros Horp Ht Hidk Hc. destruct c as [revision|p v|p v]; cbn [runtime_call call_typed] in *;
    destruct Ht as [Ht1 Ht2].
  - assert (Hx : orphaned k (reconcile revision r).2).
    { rewrite reconcile_cases. destruct (rr_active r !! _) as [h|]; [|by apply start_orphaned; [..|apply Hc]].
      unfold on_world, st_zoom. unfold mbind, st_bind. pose proof (readiness_kept h (rr_world r)) as Hr.
      destruct (readiness h (rr_world r)) as [[rd|e] w1]; cbn [snd] in *;
        destruct Horp as (Hn & Hk & Hin); rewrite <-Hr in Hin; [|done].
      destruct (bool_decide _); [done|]. by apply start_orphaned; [..|apply Hc]. }
    unfold mbind, st_bind. by destruct (reconcile revision r) as [[h|e] r1].
  - unfold pause, on_world, on_active, st_zoom, st_state, st_lift, mbind, st_bind.
    destruct r as [m w]. cbn [rr_active rr_world]. destruct (m !! (p, v)) as [h|]; cbn [ok_or rr_world]; [|done].
    pose proof (drain_kept h w) as Hd. destruct Horp as (Hn & Hk & Hin).
    destruct (drain h w) as [x w1]. cbn [snd rr_active rr_world] in *. rewrite <-Hd in Hin. done.
  - unfold retire, on_world, on_active, st_zoom, st_state, st_lift, mbind, st_bind.
    destruct r as [m w]. destruct Horp as (Hn & Hk & Hin). cbn [rr_active rr_world] in *.
    assert (Hdel : ∀ w', key_name k ∈ containers w' → orphaned k (mkReconciler (delete (p, v) m) w')).
    { intros w' Hw'. split_and!; [|by apply lookup_delete_None; right|done].
      cbn [rr_active]. intros k' h' [_ Hx]%lookup_delete_Some. by apply Hn. }
    destruct (m !! (p, v)) as [h|] eqn:Hm; cbn [ok_or rr_world]; [|by apply Hdel].
    pose proof (drain_kept h w) as Hd. destruct (drain h w) as [[u|e] w1]; cbn [snd rr_world rr_active] in *;
      rewrite <-Hd in Hin; [|by apply Hdel].
    assert (Hne : key_name k ≠ rh_container_name h).
    { destruct (Hn _ _ Hm) as [-> Hid]. intros He. apply key_name_inj in He as ->; [|done..].
      pose proof (eq_trans (eq_sym Hk) Hm) as Hx. discriminate Hx. }
    destruct (terminate h w1) as [[[]|e] w2] eqn:Htm; cbn [snd]; apply Hdel.
    + rewrite (terminated _ _ _ Htm). set_solver.
    + apply terminate_failed in Htm. set_solver.
Qed.
Lemma run_orphaned k l r :
  orphaned k r → Forall call_typed l → is_id k.1 →
  (∀ revision, CallReconcile revision ∈ l → k ≠ (rv_proxy_id revision, rv_revision_id revision)) →
  orphaned k (run_calls l r).
Proof.
  intros Ho Hl Hid. revert r Ho. induction Hl as [|c l Hc Hl IH]; intros r Ho Hne; [done|]. simpl.
  apply IH; [|set_solver]. apply call_orphaned; [done..|]. intros revision ->. apply Hne. set_solver.
Qed.

(** A runtime whose drain fails is lost.  Where the drain of the old
    revision fails while a proxy moves to a new one, the reconciler has already
    forgotten the old runtime: whatever is asked later, short of deploying that
    old revision again, its container is never stopped. *)
Theorem failed_drain_orphans revision r k h h' w1 w2 w3 e :
  one_each (rr_active r) → is_id (rv_proxy_id revision) →
  rr_active r !! k = Some h → key_name k ∈ containers (rr_world r) →
  k.1 = rv_proxy_id revision → k.2 ≠ rv_revision_id revision →
  provision revision (rr_world r) = (Ok h', w1) → readiness h' w1 = (Ok RuntimeReady, w2) →
  drain h w2 = (Err e, w3) →
  ∃ r1, reconcile revision r = (Err e, r1)
    ∧ ∀ later, Forall call_typed later →
        (∀ revision, CallReconcile revision ∈ later → k ≠ (rv_proxy_id revision, rv_revision_id revision)) →
        rr_active (run_calls later r1) !! k = None
        ∧ key_name k ∈ containers (rr_world (run_calls later r1)).
Proof.
  intros [Hn Hs] Hid Hk Hin Hp Hv Hprov Hread Hdrain.
  set (key := (rv_proxy_id revision, rv_revision_id revision)).
  assert (Hnone : rr_active r !! key = None).
  { destruct (rr_active r !! key) as [x|] eqn:Hx; [|done]. destruct Hv.
    by rewrite (Hs k key) by eauto. }
  assert (Hf : filter (λ kh, other_revision key kh.1) (rr_active r) = {[k := h]}).
  { apply map_eq. intros k'. apply option_eq. intros x. rewrite map_lookup_filter_Some, lookup_singleton_Some.
    cbn [fst]. split.
    - intros [Hx [Ho _]]. assert (k = k') as <- by (apply Hs; [by eexists|by eexists|by rewrite Ho]).
      split; [done|congruence].
    - intros [<- <-]. by split. }
  pose proof (provisioned _ _ _ _ Hprov) as [Hname Hc1].
  pose proof (readiness_kept h' w1) as Hc2. rewrite Hread in Hc2. cbn [snd] in Hc2.
  pose proof (drain_kept h w2) as Hc3. rewrite Hdrain in Hc3. cbn [snd] in Hc3.
  set (r1 := mkReconciler (replace_runtime key h' (rr_active r)).2 w3).
  assert (Hr : reconcile revision r = (Err e, r1)).
  { rewrite reconcile_cases. fold key. rewrite Hnone.
    unfold start_runtime, on_world, on_active, st_zoom, st_state, mbind, st_bind. rewrite Hprov. cbn [rr_world].
    rewrite Hread. cbn [bool_decide]. rewrite bool_decide_true by done. cbn [negb rr_active rr_world].
    fold key. unfold replace_runtime. rewrite Hf, map_to_list_singleton. cbn [fmap list_fmap snd stop_all].
    unfold mbind, st_bind. cbn [rr_world]. by rewrite Hdrain. }
  exists r1. split; [done|]. intros later Hl Hne.
  destruct (run_orphaned k later r1) as (_ & Ha & Hc); [|done|by rewrite Hp|done|done].
  split_and!; unfold r1; cbn [rr_active rr_world].
  - unfold replace_runtime. cbn [snd]. intros k' x [[<- <-]|[_ [Hx _]%map_lookup_filter_Some]]%lookup_insert_Some; [by split|by apply Hn].
  - unfold replace_runtime. cbn [snd]. rewrite lookup_insert_ne.
    + apply map_lookup_filter_None. right. intros x _ Hno. apply Hno. by split.
    + intros <-. by apply Hv.
  - rewrite Hc3, Hc2, Hc1. set_solver.
Qed.
End laws.

(** ** What Docker promises *)

(** Which containers there are, over the commands the provider runs. *)
Class DockerLaws (W : Type) `{!RuntimeCommandRunner W} := {
  docker_containers : W → gset string;
  docker_inspected n w :
    docker_containers (run_command ["container"; "inspect"; n] w).2 = docker_containers w;
  docker_found n w s w' : run_command ["container"; "inspect"; n] w = (Ok (mkOutput 0 s), w') →
    n ∈ docker_containers w;
  docker_status n w :
    docker_containers (run_command ["container"; "inspect"; "--format"; "{{.State.Status}}"; n] w).2
    = docker_containers w;
  docker_stopped n w :
    docker_containers (run_command ["container"; "stop"; "--timeout"; "5"; n] w).2 = docker_containers w;
  docker_removed n w o w' : run_command ["container"; "rm"; "--force"; n] w = (Ok o, w') →
    gone_or_done o = Ok tt → docker_containers w' = docker_containers w ∖ {[n]};
  docker_remove_failed n w :
    docker_containers w ∖ {[n]} ⊆ docker_containers (run_command ["container"; "rm"; "--force"; n] w).2;
  docker_started network revision n w o w' :
    run_command (run_args network revision n) w = (Ok o, w') → co_status o = 0%Z →
    docker_containers w' = {[n]} ∪ docker_containers w;
  docker_start_failed network revision n w :
    docker_containers w ⊆ docker_containers (run_command (run_args network revision n) w).2;
}.

(** The Docker provider keeps the promises the reconciler relies on. *)
Lemma docker_laws {W} `{DockerLaws W} (network : string) : @RuntimeLaws W (docker_provider network).
Proof.
  refine {| containers := docker_containers |}; cbn [provision readiness drain terminate docker_provider].
  - intros r w h w'. unfold docker_provision. set (n := container_name _ _).
    pose proof (docker_inspected n w) as Hi.
    destruct (run_command ["container"; "inspect"; n] w) as [ins w1] eqn:Hr. cbn [snd] in Hi.
    assert (Hrun : ∀ x y, (output ← run_command (run_args network r n);
      if negb (co_status output =? 0)%Z then st_throw provider_failed
      else st_lift ((λ id, mkHandle n id (rv_proxy_id r) (rv_revision_id r)) <$> bounded_id (co_stdout output))) w1
      = (Ok x, y) → rh_container_name x = n ∧ docker_containers y = {[n]} ∪ docker_containers w).
    { intros x y Hx. apply st_bind_ok in Hx as (o & w2 & Ho & Hx).
      destruct (Z.eqb_spec (co_status o) 0) as [Hz|]; [|done]. apply st_lift_ok in Hx as [Hx ->].
      rewrite (docker_started _ _ _ _ _ _ Ho Hz), Hi. split; [|done].
      by destruct (bounded_id _); [injection Hx as <-|]. }
    destruct ins as [[[|z|z] s]|e]; intros Hp; try (destruct (Hrun h w' Hp) as [-> ->]; done).
    injection Hp as Hb <-. destruct (bounded_id s) as [id|]; [|done]. injection Hb as <-. cbn [rh_container_name].
    split; [done|]. apply docker_found in Hr. set_solver.
  - intros r w e w'. unfold docker_provision. set (n := container_name _ _).
    pose proof (docker_inspected n w) as Hi.
    destruct (run_command ["container"; "inspect"; n] w) as [ins w1] eqn:Hr. cbn [snd] in Hi. rewrite <-Hi.
    assert (Hrun : ∀ x y, (output ← run_command (run_args network r n);
      if negb (co_status output =? 0)%Z then st_throw provider_failed
      else st_lift ((λ id, mkHandle n id (rv_proxy_id r) (rv_revision_id r)) <$> bounded_id (co_stdout output))) w1
      = (x, y) → docker_containers w1 ⊆ docker_containers y).
    { intros x y. pose proof (docker_start_failed network r n w1) as Hf. unfold mbind, st_bind.
      destruct (run_command (run_args network r n) w1) as [[o|e'] w2]; cbn [snd] in Hf; [|by intros [= _ <-]].
      destruct (negb _); [by intros [= _ <-]|]. by intros [= _ <-]. }
    destruct ins as [[[|z|z] s]|e']; intros Hp; try (exact (Hrun _ _ Hp)). by injection Hp as _ <-.
  - intros h w. unfold docker_readiness, mbind, st_bind. pose proof (docker_status (rh_container_name h) w) as Hs.
    destruct (run_command _ w) as [[o|e] w1]; cbn [snd] in *; [|done]. by repeat case_match.
  - intros h w. unfold docker_drain, mbind, st_bind. pose proof (docker_stopped (rh_container_name h) w) as Hs.
    by destruct (run_command _ w) as [[o|e] w1].
  - intros h w w' Ht. unfold docker_terminate in Ht. apply st_bind_ok in Ht as (o & w1 & Ho & Ht).
    apply st_lift_ok in Ht as [Ht ->]. by apply (docker_removed _ _ _ _ Ho).
  - intros h w e w'. unfold docker_terminate, mbind, st_bind.
    pose proof (docker_remove_failed (rh_container_name h) w) as Hs.
    destruct (run_command _ w) as [[o|e'] w1]; cbn [snd] in Hs; by intros [= _ <-].
Defined.

(** ** A concrete engine

    The containers, and whether stopping one fails. *)
Definition demo_engine : Type := list string * bool.
#[local] Instance demo_runner : RuntimeCommandRunner demo_engine := λ args w,
  let at_ i := nth i args EmptyString in
  if String.eqb (at_ 0%nat) "run" then (Ok (mkOutput 0 "id"), (at_ 3%nat :: w.1, w.2))
  else if String.eqb (at_ 1%nat) "stop" then (Ok (mkOutput (if w.2 then 1 else 0) EmptyString), w)
  else if String.eqb (at_ 1%nat) "rm"
  then (Ok (mkOutput 0 EmptyString), (filter (λ n, n ≠ at_ 3%nat) w.1, w.2))
  else if (length args =? 3)%nat
  then (Ok (mkOutput (if decide (at_ 2%nat ∈ w.1) then 0 else 1) "id"), w)
  else (Ok (mkOutput 0 "running"), w).
Lemma demo_docker : DockerLaws demo_engine.
Proof.
  assert (Hrm : ∀ n (l : list string),
    list_to_set (filter (λ x, x ≠ n) l) = list_to_set l ∖ {[n]} :> gset string).
  { intros n l. apply set_eq. intros x. rewrite elem_of_difference, !elem_of_list_to_set, list_elem_of_filter.
    set_solver. }
  refine {| docker_containers w := list_to_set w.1 |}.
  - done.
  - intros n w s w'. cbn. destruct (decide (n ∈ w.1)); [set_solver|]. by intros [= ?].
  - done.
  - done.
  - intros n w o w' [= <- <-] _. apply Hrm.
  - intros n w. cbn. by rewrite Hrm.
  - intros network revision n w o w' [= <- <-] _. done.
  - intros network revision n w. cbn. set_solver.
Defined.
#[local] Existing Instance demo_docker.
#[local] Instance demo_provider : RuntimeOperations demo_engine := docker_provider "apex-mcp-proxy-egress".
#[local] Instance demo_provider_laws : RuntimeLaws demo_engine := docker_laws "apex-mcp-proxy-egress".

Definition demo_revision (n : ascii) : McpProxyRevision :=
  mkRevision dm_id (dm_request n) demo_spec "hash" Ready Redacted "alice" "now".

Lemma answered_next c (r : Reconciler demo_engine) :
  (runtime_call c r).1 = Ok tt → runtime_call c r = (Ok tt, (runtime_call c r).2).
Proof. intros <-. apply surjective_pairing. Qed.

Lemma runtimes_accounted_witness :
  ∃ r, all_answered [CallReconcile (demo_revision "1"); CallReconcile (demo_revision "2")]
         (mkReconciler ∅ ([], false)) r
    ∧ containers (rr_world r) = ∅ ∪ active_names (rr_active r) ∧ active_count r = 1%nat.
Proof.
  set (r0 := mkReconciler ∅ ([], false) : Reconciler demo_engine).
  set (r1 := (runtime_call (CallReconcile (demo_revision "1")) r0).2).
  set (r2 := (runtime_call (CallReconcile (demo_revision "2")) r1).2).
  assert (Ha : all_answered [CallReconcile (demo_revision "1"); CallReconcile (demo_revision "2")] r0 r2).
  { exists r1. split; [apply answered_next; vm_compute; reflexivity|].
    exists r2. split; [apply answered_next; vm_compute; reflexivity|done]. }
  exists r2. split; [done|]. split; [|vm_compute; reflexivity].
  destruct (runtimes_accounted ([], false) [CallReconcile (demo_revision "1"); CallReconcile (demo_revision "2")] r2)
    as [Hc _].
  - by repeat constructor.
  - intros p v _. cbn. set_solver.
  - exact Ha.
  - exact Hc.
Defined.

Lemma failed_drain_orphans_witness :
  let r := mkReconciler {[(dm_id, dm_request "1") := mkHandle (container_name dm_id (dm_request "1"))
             "id" dm_id (dm_request "1")]}
             ([container_name dm_id (dm_request "1")], true) : Reconciler demo_engine in
  ∃ r1, reconcile (demo_revision "2") r = (Err provider_failed, r1)
    ∧ container_name dm_id (dm_request "1") ∈ containers (rr_world r1).
Proof.
  cbv zeta. set (k := (dm_id, dm_request "1") : RuntimeKey).
  set (h := mkHandle (container_name dm_id (dm_request "1")) "id" dm_id (dm_request "1")).
  set (r := mkReconciler _ _).
  set (w1 := (provision (demo_revision "2") (rr_world r)).2).
  destruct (failed_drain_orphans (demo_revision "2") r k h
    (mkHandle (container_name dm_id (dm_request "2")) "id" dm_id (dm_request "2"))
    w1 w1 w1 provider_failed) as (r1 & Hr & Hl).
  - split; unfold r; cbn [rr_active].
    + intros k' h' [<- <-]%lookup_singleton_Some. by split.
    + intros k1 k2 [x [<- _]%lookup_singleton_Some] [y [<- _]%lookup_singleton_Some]. done.
  - reflexivity.
  - reflexivity.
  - cbn. set_solver.
  - reflexivity.
  - intros He. vm_compute in He. discriminate He.
  - vm_compute. reflexivity.
  - vm_compute. reflexivity.
  - vm_compute. reflexivity.
  - exists r1. split; [exact Hr|]. apply (Hl []); [constructor|]. intros v Hv. exact (False_ind _ (not_elem_of_nil _ Hv)).
Defined.
