(* ===== verification/Publisher.v ===== *)
(** * The outboxed publisher

    [crates/apex-durability/src/outbox/publisher.rs]: admission only enqueues;
    the fanout worker replays what is pending through the downstream publisher
    and settles it.  The outbox is any store that meets the contract of Outbox;
    the downstream publisher is a parameter, and it may panic; SHA-256 is a
    parameter and clock readings are arguments. *)
From S2P Require Import Prelude RustStr Errors Backend Domain Envelope Journal Outbox OutboxLaws OutboxFile Replay.

Open Scope N_scope.

Definition REPLAY_BATCH_SIZE : N := 256.

(** [PublishOutcome]. *)
Inductive PublishOutcome := OutcomePublished | OutcomeAlreadyComplete.

(** The operations of [EventOutbox] that only this publisher calls. *)
Class OutboxAdmin (O : Type) := {
  outbox_readiness : string → string → bool → bool → bool → O → result GatewayErrorCode unit;
  outbox_pending_count : O → N;
  outbox_oldest_pending : N → O → option N;
  outbox_maintain_rows : N → N → ST O GatewayErrorCode unit;
}.
#[global] Instance memory_admin : OutboxAdmin InMemoryOutbox := {
  outbox_readiness w n _ _ _ := memory_check_admission_readiness w n;
  outbox_pending_count := memory_pending_count;
  outbox_oldest_pending := memory_oldest_pending_millis;
  outbox_maintain_rows _ _ := mret tt;
}.
#[global] Instance file_admin `{LineCodec FileOutboxRecord} : OutboxAdmin FileOutbox := {
  outbox_readiness := file_check_admission_readiness;
  outbox_pending_count := file_pending_count;
  outbox_oldest_pending := file_oldest_pending_millis;
  outbox_maintain_rows := file_maintain_outbox;
}.

Record OutboxedPublisher (P O : Type) := mkOutboxed {
  op_publisher : P;
  op_outbox : O;
  op_retry_attempts : gmap OutboxKey N;
}.
Arguments mkOutboxed {P O}.
Arguments op_publisher {P O}.
Arguments op_outbox {P O}.
Arguments op_retry_attempts {P O}.

(** How a call that may panic ends. *)
Inductive Unwound (A : Type) := Returned (a : A) | Panicked.
Arguments Returned {A} a.
Arguments Panicked {A}.

Section publisher.
Context {O P : Type} `{EventOutbox O, JitterDigest}.

Definition outboxed_new (publisher : P) (outbox : O) : OutboxedPublisher P O := mkOutboxed publisher outbox ∅.

(** ** Admission *)

(** [EventPublisher::publish]: enqueue, and nothing downstream. *)
Definition outboxed_publish (now : N) (event : IngestRequest)
    : ST (OutboxedPublisher P O) GatewayErrorCode PublishOutcome := λ w,
  let '(r, o) := enqueue now event (op_outbox w) in
  (r' ← r;
   match r' with
   | AlreadyComplete => Ok OutcomeAlreadyComplete
   | AlreadyPending => Err GIdempotencyInProgress
   | Enqueued => Ok OutcomePublished
   end, mkOutboxed (op_publisher w) o (op_retry_attempts w)).

(** [can_reconcile_commit_failure]. *)
Definition can_reconcile_commit_failure (w : OutboxedPublisher P O) : bool := true.

(** [check_admission_readiness], [backlog_stats] and [maintain_outbox] forward
    to the outbox. *)
Definition outboxed_readiness `{OutboxAdmin O} (workspace_id namespace_id : string)
    (metadata_ok writable syncs : bool) (w : OutboxedPublisher P O) : result GatewayErrorCode unit :=
  outbox_readiness workspace_id namespace_id metadata_ok writable syncs (op_outbox w).
Definition backlog_stats `{OutboxAdmin O} (now : N) (w : OutboxedPublisher P O) : N * option N :=
  (outbox_pending_count (op_outbox w), outbox_oldest_pending now (op_outbox w)).
Definition maintain_outbox `{OutboxAdmin O} (now retention : N)
    : ST (OutboxedPublisher P O) GatewayErrorCode unit := λ w,
  let '(r, o) := outbox_maintain_rows now retention (op_outbox w) in
  (r, mkOutboxed (op_publisher w) o (op_retry_attempts w)).

(** ** Replay *)

Variable publish : IngestRequest → P → PublishResult * P.

(** The publishing loop of [replay_pending_inner]: the published and the failed
    keys, or a panic of the downstream publisher. *)
Fixpoint publish_batch (events : list IngestRequest) (completed failed : list OutboxKey) (p : P)
    : Unwound (list OutboxKey * list OutboxKey) * P :=
  match events with
  | [] => (Returned (completed, failed), p)
  | event :: events =>
      match publish event p with
      | (Published, p') => publish_batch events (completed ++ [key_of event]) failed p'
      | (PublishFailed _, p') => publish_batch events completed (failed ++ [key_of event]) p'
      | (PublishPanicked, p') => (Panicked, p')
      end
  end.

(** Settling what was published: whether anything was settled, the error, the
    counters, the keys that remain failed and the outbox. *)
Definition settle_completed (now : N) (completed failed : list OutboxKey) (attempts : gmap OutboxKey N) (o : O)
    : bool * option GatewayErrorCode * gmap OutboxKey N * list OutboxKey * O :=
  match completed with
  | [] => (false, None, attempts, failed, o)
  | _ =>
      match mark_complete_many now completed o with
      | (Ok _, o') => (true, None, foldl (λ m k, delete k m) attempts completed, failed, o')
      | (Err e, o') => (false, Some e, attempts, failed ++ completed, o')
      end
  end.

(** The loop over the failed keys: their counters and their groups. *)
Definition count_failure (t : gmap OutboxKey N * gmap N (list OutboxKey)) (key : OutboxKey)
    : gmap OutboxKey N * gmap N (list OutboxKey) :=
  let '(retry_attempts, groups) := t in
  let attempts := sat_add32 (default 0 (retry_attempts !! key)) 1 in
  let delay := retry_delay key attempts in
  (if MAX_REPLAY_ATTEMPTS <=? attempts then delete key retry_attempts else <[key := attempts]> retry_attempts,
   <[delay := default [] (groups !! delay) ++ [key]]> groups).

(** The loop over the groups: the outbox, and the first error. *)
Fixpoint reschedule_all (now : N) (groups : list (N * list OutboxKey)) (first_error : option GatewayErrorCode)
    (o : O) : option GatewayErrorCode * O :=
  match groups with
  | [] => (first_error, o)
  | (delay, keys) :: groups =>
      match reschedule now keys delay o with
      | (Ok _, o') => reschedule_all now groups first_error o'
      | (Err e, o') =>
          reschedule_all now groups (match first_error with None => Some e | Some e' => Some e' end) o'
      end
  end.

(** [replay_pending_inner]. *)
Definition replay_pending (now : N) (w : OutboxedPublisher P O)
    : Unwound (result GatewayErrorCode bool) * OutboxedPublisher P O :=
  match pending_batch now REPLAY_BATCH_SIZE (op_outbox w) with
  | (Err e, o) => (Returned (Err e), mkOutboxed (op_publisher w) o (op_retry_attempts w))
  | (Ok pending, o) =>
      match publish_batch pending [] [] (op_publisher w) with
      | (Panicked, p) => (Panicked, mkOutboxed p o (op_retry_attempts w))
      | (Returned (completed, failed), p) =>
          let '(settled_any, first_error, retry_attempts, failed, o) :=
            settle_completed now completed failed (op_retry_attempts w) o in
          let '(retry_attempts, groups) := foldl count_failure (retry_attempts, ∅) failed in
          let '(first_error, o) := reschedule_all now (map_to_list groups) first_error o in
          (Returned (match first_error with Some e => Err e | None => Ok settled_any end),
           mkOutboxed p o retry_attempts)
      end
  end.

(** One turn of the loop of [spawn_fanout_worker]: [true] when it goes round
    again without sleeping. *)
Definition fanout_turn (now : N) (w : OutboxedPublisher P O) : bool * OutboxedPublisher P O :=
  match replay_pending now w with
  | (Returned (Ok did_settle_work), w') => (did_settle_work, w')
  | (Returned (Err _), w') | (Panicked, w') => (false, w')
  end.
End publisher.

(** ** Theorems *)

Section laws.
Context {O P : Type} `{OutboxLaws O, JitterDigest}.
Variable publish : IngestRequest → P → PublishResult * P.

(** The keys that await fanout. *)
Definition is_pending (r : Row) : bool := match r with Pending _ => true | _ => false end.
Definition pending_keys (o : O) : gset OutboxKey :=
  dom (filter (λ p : OutboxKey * Row, is_pending p.2 = true) (rows o)).

Lemma elem_of_pending_keys o k : k ∈ pending_keys o ↔ ∃ e, rows o !! k = Some (Pending e).
Proof.
  unfold pending_keys. rewrite elem_of_dom. unfold is_Some. setoid_rewrite map_lookup_filter_Some. split.
  - intros ([] & ? & ?); [eauto|done..].
  - intros [e He]. by exists (Pending e).
Qed.

(** What the downstream publisher has taken, by its state: what it says it
    published stays taken. *)
Variable taken : IngestRequest → P → Prop.
Hypothesis taken_now : ∀ e p p', publish e p = (Published, p') → taken e p'.
Hypothesis taken_later : ∀ e e' p r p', publish e p = (r, p') → taken e' p → taken e' p'.

Lemma publish_batch_later es c f p res p' e :
  publish_batch publish es c f p = (res, p') → taken e p → taken e p'.
Proof.
  revert c f p. induction es as [|e0 es IH]; intros c f p Hp Ht; cbn [publish_batch] in Hp; [congruence|].
  destruct (publish e0 p) as [[|er|] p1] eqn:He; [| |injection Hp as <- <-]; eauto.
Qed.

Lemma publish_batch_keys es c f p c' f' p' k :
  publish_batch publish es c f p = (Returned (c', f'), p') → k ∈ c' →
  k ∈ c ∨ ∃ e, e ∈ es ∧ key_of e = k ∧ taken e p'.
Proof.
  revert c f p. induction es as [|e es IH]; intros c f p Hp Hk; cbn [publish_batch] in Hp; [naive_solver|].
  destruct (publish e p) as [[|er|] p1] eqn:He; [| |done].
  - pose proof (publish_batch_later _ _ _ _ _ _ e Hp (taken_now _ _ _ He)).
    apply IH in Hp as [[Hc|Hc%list_elem_of_singleton]%elem_of_app|(e' & ? & ? & ?)]; [by left|right..|done].
    + exists e. split; [by left|done].
    + exists e'. split; [by right|done].
  - apply IH in Hp as [?|(e' & ? & ? & ?)]; [by left|right|done]. exists e'. split; [by right|done].
Qed.

(** What a row can become in a cycle, without being settled. *)
Definition deferred (r r' : option Row) : Prop := r' = r ∨ r' = withdraw_row <$> r.

Lemma deferred_trans r r' r'' : deferred r r' → deferred r' r'' → deferred r r''.
Proof. destruct r as [[]|]; unfold deferred; naive_solver. Qed.

Lemma reschedule_all_rows now groups err o err' o' :
  outbox_wf o → reschedule_all now groups err o = (err', o') →
  outbox_wf o' ∧ ∀ k, deferred (rows o !! k) (rows o' !! k).
Proof.
  revert err o. induction groups as [|[delay keys] groups IH]; intros err o Hwf Hr; cbn [reschedule_all] in Hr.
  { injection Hr as <- <-. split; [done|]. intros k. by left. }
  pose proof (reschedule_wf now keys delay o Hwf) as Hwf'. pose proof (reschedule_law now keys delay o Hwf) as Hl.
  destruct (reschedule now keys delay o) as [[u|e] o1]; cbn [snd] in *;
    (apply IH in Hr as [Hw Hd]; [|done]); (split; [done|]); intros k;
    (eapply deferred_trans; [|apply Hd]); destruct (Hl k) as [Hk|[_ Hk]]; [by left|by right|by left|by right].
Qed.

Lemma reschedule_all_error now groups err o err' o' :
  reschedule_all now groups err o = (err', o') → err' = None → err = None.
Proof.
  revert err o. induction groups as [|[delay keys] groups IH]; intros err o Hr He; cbn [reschedule_all] in Hr.
  { congruence. }
  destruct (reschedule now keys delay o) as [[u|e] o1]; apply IH in Hr; [done..| |done]. by destruct err.
Qed.

Lemma settle_completed_rows now completed failed attempts o settled err ra fl o' :
  outbox_wf o → settle_completed now completed failed attempts o = (settled, err, ra, fl, o') →
  outbox_wf o'
  ∧ (∀ k, rows o' !! k = rows o !! k ∨ k ∈ completed ∧ rows o' !! k = settle_row <$> rows o !! k)
  ∧ (settled = true → completed ≠ [] ∧ ∀ k, k ∈ completed → rows o' !! k = settle_row <$> rows o !! k).
Proof.
  intros Hwf. unfold settle_completed. pose proof (mark_wf now completed o Hwf) as Hw2.
  pose proof (mark_ok now completed o Hwf) as Hok. pose proof (mark_some now completed o Hwf) as Hsome.
  destruct completed as [|k0 ks]; [intros [= <- <- <- <- <-]; split_and!; [done| |done]; intros k; by left|].
  destruct (mark_complete_many now (k0 :: ks) o) as [[[]|e] o2]; cbn [fst snd] in *;
    intros [= <- <- <- <- <-]; (split_and!; [done..|]); [|done].
  intros _. split; [done|]. intros k Hk. by rewrite (Hok eq_refl), bool_decide_true.
Qed.

(** What one cycle does to the rows: a row is settled only when the publisher
    took it in this cycle, and only when the cycle settles anything at all. *)
Lemma replay_rows now w res w' :
  outbox_wf (op_outbox w) → replay_pending publish now w = (res, w') →
  outbox_wf (op_outbox w') ∧
  ∃ completed : list OutboxKey,
    (∀ k, k ∈ completed → ∃ e, rows (op_outbox w) !! k = Some (Pending e) ∧ taken e (op_publisher w'))
    ∧ (∀ e, taken e (op_publisher w) → taken e (op_publisher w'))
    ∧ (∀ k, ∃ r, deferred r (rows (op_outbox w') !! k)
                 ∧ (r = rows (op_outbox w) !! k ∨ k ∈ completed ∧ r = settle_row <$> rows (op_outbox w) !! k))
    ∧ (res = Returned (Ok true) → completed ≠ []
       ∧ ∀ k, k ∈ completed → k ∉ pending_keys (op_outbox w')).
Proof.
  intros Hwf. unfold replay_pending.
  pose proof (batch_wf now REPLAY_BATCH_SIZE _ Hwf) as Hw1.
  pose proof (batch_rows now REPLAY_BATCH_SIZE _ Hwf) as Hr1.
  pose proof (batch_law now REPLAY_BATCH_SIZE (op_outbox w)) as Hbl.
  destruct (pending_batch now REPLAY_BATCH_SIZE (op_outbox w)) as [[pending|e] o1]; cbn [snd fst] in *; cycle 1.
  { intros [= <- <-]. split; [done|]. exists []. cbn. rewrite Hr1. split_and!; [set_solver|done| |done].
    intros k. exists (rows (op_outbox w) !! k). split; by left. }
  destruct (Hbl pending Hwf eq_refl) as (_ & _ & Hpend). clear Hbl.
  destruct (publish_batch publish pending [] [] (op_publisher w)) as [[[completed failed]|] p] eqn:Hpub; cycle 1.
  { intros [= <- <-]. split; [done|]. exists []. cbn. rewrite Hr1. split_and!; [set_solver| | |done].
    - intros e. by apply (publish_batch_later _ _ _ _ _ _ e Hpub).
    - intros k. exists (rows (op_outbox w) !! k). split; by left. }
  assert (∀ k, k ∈ completed → ∃ e, rows (op_outbox w) !! k = Some (Pending e) ∧ taken e p) as Hcp.
  { intros k Hk. destruct (publish_batch_keys _ _ _ _ _ _ _ k Hpub Hk) as [?|(e & He & <- & Ht)]; [set_solver|].
    exists e. split; [by apply Hpend|done]. }
  assert (∀ e, taken e (op_publisher w) → taken e p) as Hlater
    by (intros e; by apply (publish_batch_later _ _ _ _ _ _ e Hpub)). clear Hpub Hpend.
  destruct (settle_completed now completed failed (op_retry_attempts w) o1) as [[[[settled err] ra] fl] o2] eqn:Hset.
  apply settle_completed_rows in Hset as (Hw & Hrows & Hset); [|done]. rewrite Hr1 in Hrows, Hset. intros Hres.
  destruct (foldl count_failure (ra, ∅) fl) as [ra' groups].
  destruct (reschedule_all now (map_to_list groups) err o2) as [err' o3] eqn:Hra. injection Hres as <- <-.
  apply (reschedule_all_rows _ _ _ _ _ _ Hw) in Hra as [Hw3 Hdef]. cbn. split; [done|].
  exists completed. split_and!; [done|done| |].
  - intros k. exists (rows o2 !! k). split; [apply Hdef|apply Hrows].
  - intros Hr. assert (settled = true) as Hs by (destruct err'; congruence).
    destruct (Hset Hs) as [Hne Hall]. split; [done|]. intros k Hk [e He]%elem_of_pending_keys.
    pose proof (Hdef k) as Hd. rewrite (Hall k Hk), He in Hd.
    destruct (rows (op_outbox w) !! k) as [[]|]; unfold deferred in Hd; cbn in Hd; naive_solver.
Qed.

Lemma turn_pending now w b w' :
  outbox_wf (op_outbox w) → fanout_turn publish now w = (b, w') →
  outbox_wf (op_outbox w') ∧ pending_keys (op_outbox w') ⊆ pending_keys (op_outbox w)
  ∧ (b = true → pending_keys (op_outbox w') ⊂ pending_keys (op_outbox w)).
Proof.
  intros Hwf Ht. unfold fanout_turn in Ht. destruct (replay_pending publish now w) as [res w1] eqn:Hr.
  destruct (replay_rows _ _ _ _ Hwf Hr) as (Hw & completed & Hc & _ & Hrows & Htrue).
  assert (w1 = w') as -> by (destruct res as [[]|]; congruence).
  assert (pending_keys (op_outbox w') ⊆ pending_keys (op_outbox w)) as Hsub.
  { intros k. rewrite !elem_of_pending_keys. intros [e He]. destruct (Hrows k) as (r & Hd & Hr'). rewrite He in Hd.
    destruct (rows (op_outbox w) !! k) as [[]|], Hr' as [->|[_ ->]], Hd as [Hd|Hd]; naive_solver. }
  split_and!; [done..|]. intros ->. assert (res = Returned (Ok true)) as -> by (destruct res as [[]|]; congruence).
  destruct (Htrue eq_refl) as [Hne Hgone]. destruct completed as [|k ks]; [done|].
  destruct (Hc k) as (e & He & _); [by left|].
  split; [done|]. intros Hback. apply (Hgone k); [by left|]. apply Hback, elem_of_pending_keys. eauto.
Qed.

(** The loop of the worker up to its next sleep, if [fuel] turns are enough:
    the number of turns that settled something. *)
Fixpoint fanout_drain (clock : nat → N) (fuel i : nat) (w : OutboxedPublisher P O)
    : option (nat * OutboxedPublisher P O) :=
  match fuel with
  | 0%nat => None
  | S fuel =>
      match fanout_turn publish (clock i) w with
      | (false, w') => Some (i, w')
      | (true, w') => fanout_drain clock fuel (S i) w'
      end
  end.

Lemma fanout_drain_bound clock fuel i w :
  outbox_wf (op_outbox w) → (size (pending_keys (op_outbox w)) < fuel)%nat →
  ∃ n w', fanout_drain clock fuel i w = Some (n, w') ∧ (n ≤ i + size (pending_keys (op_outbox w)))%nat.
Proof.
  revert i w. induction fuel as [|fuel IH]; intros i w Hwf Hfuel; [lia|]. cbn [fanout_drain].
  destruct (fanout_turn publish (clock i) w) as [[] w1] eqn:Ht; cycle 1.
  { exists i, w1. split; [done|lia]. }
  destruct (turn_pending _ _ _ _ Hwf Ht) as (Hw1 & _ & Hstrict).
  pose proof (subset_size _ _ (Hstrict eq_refl)) as Hlt.
  destruct (IH (S i) w1 Hw1) as (n & w2 & Hd & Hn); [lia|]. exists n, w2. split; [done|lia].
Qed.
End laws.

Section theorems.
Context {O P : Type} `{OutboxLaws O, JitterDigest}.
Variable publish : IngestRequest → P → PublishResult * P.

(** The fanout worker's busy loop ends.  Whatever the downstream
    publisher answers (including panics), whatever the clock reads and whichever
    storage calls fail, the worker that goes round without sleeping after every
    cycle that settled something comes to its sleep after at most as many such
    cycles as there were pending rows. *)
Theorem fanout_worker_sleeps (clock : nat → N) (w : OutboxedPublisher P O) :
  outbox_wf (op_outbox w) →
  ∃ n w', fanout_drain publish clock (S (size (pending_keys (op_outbox w)))) 0 w = Some (n, w')
    ∧ (n ≤ size (pending_keys (op_outbox w)))%nat.
Proof.
  intros Hwf. destruct (fanout_drain_bound publish (λ _ _, True) ltac:(done) ltac:(done) clock
    (S (size (pending_keys (op_outbox w)))) 0 w Hwf) as (n & w' & Hd & Hn); [lia|]. by exists n, w'.
Qed.

(** A publisher that keeps the list of what it published. *)
Definition logged (e : IngestRequest) (p : P * list IngestRequest) : PublishResult * (P * list IngestRequest) :=
  let '(r, p') := publish e p.1 in (r, (p', if is_published r then e :: p.2 else p.2)).

(** What happens to an outboxed publisher: admissions and turns of its worker. *)
Inductive PublisherOp := PAdmit (now : N) (e : IngestRequest) | PTurn (now : N).
Definition run_publisher (w : OutboxedPublisher (P * list IngestRequest) O) (op : PublisherOp)
    : OutboxedPublisher (P * list IngestRequest) O :=
  match op with
  | PAdmit now e => (outboxed_publish now e w).2
  | PTurn now => (fanout_turn logged now w).2
  end.

Lemma logged_now e p p' : logged e p = (Published, p') → e ∈ p'.2.
Proof. unfold logged. destruct (publish e p.1) as [[] p1]; intros [= <-]; cbn; set_solver. Qed.
Lemma logged_later e e' p r p' : logged e p = (r, p') → e' ∈ p.2 → e' ∈ p'.2.
Proof. unfold logged. destruct (publish e p.1) as [[] p1]; intros [= <- <-]; cbn; set_solver. Qed.

Lemma run_publisher_step w op :
  outbox_wf (op_outbox w) → let w' := run_publisher w op in
  outbox_wf (op_outbox w') ∧ (∀ e, e ∈ (op_publisher w).2 → e ∈ (op_publisher w').2)
  ∧ (∀ k r, rows (op_outbox w) !! k = Some r → ∃ r', rows (op_outbox w') !! k = Some r' ∧ row_event r' = row_event r)
  ∧ (∀ k e, rows (op_outbox w') !! k = Some (Complete e) →
       rows (op_outbox w) !! k = Some (Complete e) ∨ e ∈ (op_publisher w').2).
Proof.
  intros Hwf. destruct op as [now e|now]; cbn.
  - unfold outboxed_publish. pose proof (enqueue_wf now e _ Hwf) as Hw. pose proof (enqueue_law now e _ Hwf) as Hl.
    destruct (enqueue now e (op_outbox w)) as [r o] eqn:He. cbn in *. split_and!; [done..| |].
    + intros k r0 Hk. destruct (rows (op_outbox w) !! key_of e) as [[]|] eqn:Hke;
        [destruct Hl as [-> _]; eauto..|]. destruct r; [|rewrite Hl; eauto]. destruct Hl as [_ ->].
      exists r0. rewrite lookup_insert_ne; [done|congruence].
    + intros k e' Hk. left. destruct (rows (op_outbox w) !! key_of e) as [[]|] eqn:Hke;
        [destruct Hl as [Hl _]; by rewrite Hl in Hk..|]. destruct r; [|by rewrite Hl in Hk].
      destruct Hl as [_ Hl]. rewrite Hl, lookup_insert_Some in Hk. naive_solver.
  - assert ((fanout_turn logged now w).2 = (replay_pending logged now w).2) as ->
      by (unfold fanout_turn; by destruct (replay_pending logged now w) as [[[]|]]).
    destruct (replay_pending logged now w) as [res w1] eqn:Hr.
    destruct (replay_rows logged (λ e p, e ∈ p.2) logged_now logged_later now w res w1 Hwf Hr)
      as (Hw & completed & Hc & Hlog & Hrows & _). cbn.
    split_and!; [done|done| |].
    + intros k r Hk. destruct (Hrows k) as (r1 & Hd & Hr1). rewrite Hk in Hr1.
      destruct Hr1 as [->|[_ ->]], Hd as [->| ->]; destruct r; cbn; eauto.
    + intros k e Hk. destruct (Hrows k) as (r1 & Hd & Hr1). rewrite Hk in Hd.
      destruct (rows (op_outbox w) !! k) as [[]|] eqn:Hk0, Hr1 as [->|[Hin ->]], Hd as [Hd|Hd]; cbn in Hd;
        try done; simplify_eq; try (by left); right; destruct (Hc k Hin) as (e' & He' & Ht); naive_solver.
Qed.

(** Nothing that is enqueued is lost or settled unpublished.  Over any
    sequence of admissions and worker turns, with any failures and panics of
    the downstream publisher and of the storage, a row once enqueued stays in
    the table with the event it was enqueued with - pending, withdrawn or
    settled -, and a row is settled only after the downstream publisher said
    that it published exactly that event. *)
Theorem outboxed_no_loss (w : OutboxedPublisher (P * list IngestRequest) O) (ops : list PublisherOp) :
  outbox_wf (op_outbox w) → (∀ k e, rows (op_outbox w) !! k ≠ Some (Complete e)) →
  let w' := foldl run_publisher w ops in
  (∀ k r, rows (op_outbox w) !! k = Some r → ∃ r', rows (op_outbox w') !! k = Some r' ∧ row_event r' = row_event r)
  ∧ ∀ k e, rows (op_outbox w') !! k = Some (Complete e) → e ∈ (op_publisher w').2.
Proof.
  intros Hwf Hnone w'.
  assert ((∀ k r, rows (op_outbox w) !! k = Some r → ∃ r', rows (op_outbox w') !! k = Some r' ∧ row_event r' = row_event r)
    ∧ (∀ e, e ∈ (op_publisher w).2 → e ∈ (op_publisher w').2)
    ∧ ∀ k e, rows (op_outbox w') !! k = Some (Complete e) →
        rows (op_outbox w) !! k = Some (Complete e) ∨ e ∈ (op_publisher w').2) as (Hkeep & _ & Hset).
  { clear Hnone. unfold w'. clear w'. revert w Hwf.
    induction ops as [|op ops IH]; intros w Hwf; [cbn; split_and!; eauto|]. cbn.
    destruct (run_publisher_step w op Hwf) as (Hw & Hlog & Hk & Hs). destruct (IH _ Hw) as (Hk' & Hlog' & Hs').
    split_and!; [|auto|].
    - intros k r (r1 & Hr1 & He1)%Hk. apply Hk' in Hr1 as (r2 & Hr2 & He2). exists r2. split; congruence.
    - intros k e [[?|?]%Hs|?]%Hs'; auto. }
  split; [done|]. intros k e Hk. destruct (Hset k e Hk) as [Hold|]; [|done]. by destruct (Hnone k e).
Qed.
End theorems.

(** ** Witnesses *)

Section demo.
#[local] Instance demo_publisher_digest : PayloadDigest := λ s, s.
#[local] Instance demo_publisher_jitter : JitterDigest := str_len.

Definition demo_event : IngestRequest :=
  mkIngest "01890a5d-ac96-774b-bcce-b302099a8057" "acme" "prod" "acme/prod" "envelope".
Definition demo_memory : InMemoryOutbox := mkMemory 4 ∅ ∅ ∅ ∅ ∅ ∅ ∅.
Definition demo_sink (e : IngestRequest) (p : unit) : PublishResult * unit := (Published, p).
Definition demo_backlog : OutboxedPublisher unit InMemoryOutbox :=
  (outboxed_publish 7 demo_event (outboxed_new tt demo_memory)).2.

Lemma demo_publisher_memory_wf : outbox_wf demo_memory.
Proof. split; cbn; try set_solver; intros k e Hk; by rewrite lookup_empty in Hk. Qed.

Lemma fanout_worker_sleeps_witness :
  outbox_wf (op_outbox demo_backlog) ∧ size (pending_keys (op_outbox demo_backlog)) = 1%nat
  ∧ ∃ n w', fanout_drain demo_sink (λ _, 9) 2 0 demo_backlog = Some (n, w') ∧ (n ≤ 1)%nat.
Proof.
  assert (outbox_wf (op_outbox demo_backlog)) as Hwf.
  { exact (enqueue_wf 7 demo_event demo_memory demo_publisher_memory_wf). }
  split_and!; [done|done|]. exact (fanout_worker_sleeps demo_sink (λ _, 9) demo_backlog Hwf).
Defined.

Lemma outboxed_no_loss_witness :
  let w' := foldl (run_publisher demo_sink) (outboxed_new (tt, []) demo_memory) [PAdmit 7 demo_event; PTurn 9] in
  rows (op_outbox w') !! key_of demo_event = Some (Complete demo_event) ∧ demo_event ∈ (op_publisher w').2.
Proof.
  intros w'. split; [done|].
  refine (proj2 (outboxed_no_loss demo_sink (outboxed_new (tt, []) demo_memory) [PAdmit 7 demo_event; PTurn 9] _ _)
    (key_of demo_event) demo_event _); [apply demo_publisher_memory_wf|done|done].
Defined.
End demo.
