(* ===== verification/Ingest.v ===== *)
(** * The ingest gateway

    [apps/event-ingest/src]: the admission gateway of [gateway/core.rs] and
    [gateway/adapter.rs], over any idempotency store and any publisher.  The
    security findings it records go to one backend that every gateway of the
    pool shares; a finding's clock readings and entropy are arguments, and so
    are the clock readings of the publisher and of the stores.  A publisher may
    panic. *)
From S2P Require Import Prelude RustStr Digits Time Errors Caller Domain Envelope Journal Outbox OutboxFile Replay.
From S2P Require Import Findings FindingJournal Idempotency Publisher.

Open Scope N_scope.

Definition OPERATIONAL_WORKSPACE_ID : string := "apex-operations".
Definition OPERATIONAL_NAMESPACE_ID : string := "ingest-backlog".

Inductive IngestOutcome := Accepted | Duplicate.

(** [EventPublisher]. *)
Class EventPublisher (W : Type) := {
  ev_publish : N → IngestRequest → W → Unwound (result GatewayErrorCode PublishOutcome) * W;
  ev_can_reconcile : W → bool;
  ev_readiness : string → string → bool → bool → bool → W → result GatewayErrorCode unit;
}.
#[global] Instance outboxed_publisher {O P} `{EventOutbox O, OutboxAdmin O}
    : EventPublisher (OutboxedPublisher P O) := {
  ev_publish now event w := let '(r, w') := outboxed_publish now event w in (Returned r, w');
  ev_can_reconcile := can_reconcile_commit_failure;
  ev_readiness := outboxed_readiness;
}.

(** ** Security alerts *)

(** [SecurityAlertBackend], behind the one lock of [SharedSecurityStore]. *)
Inductive SecurityAlertBackend :=
  | AlertMemory (store : FindingStore)
  | AlertJournal (journal : FindingJournal).

Section alerts.
Context `{FindingDigest, PayloadDigest, LineCodec JournalRecord}.

Definition backend_store (b : SecurityAlertBackend) : FindingStore :=
  match b with AlertMemory store => store | AlertJournal journal => fj_store journal end.

(** [SharedSecurityStore::findings_for_scope]. *)
Definition shared_findings_for_scope (caller : Caller) (workspace_id namespace_id : string)
    (b : SecurityAlertBackend) : result FindingErrorCode (list SecurityFinding) :=
  findings_for_scope caller workspace_id namespace_id (backend_store b).

(** [record_signal_parts]: the outcome of the detection is dropped. *)
Definition record_signal_parts (env : FindingEnv) (signal : SecuritySignal)
    (workspace_id namespace_id event_id field_path envelope : string)
    (b : SecurityAlertBackend) : SecurityAlertBackend :=
  let value_hash := hex_string (payload_fingerprint envelope) in
  let input := mkDetection signal workspace_id namespace_id event_id field_path value_hash in
  match b with
  | AlertMemory store => AlertMemory (detect_and_record env input store).2
  | AlertJournal journal => AlertJournal (record_detection env input journal).2
  end.

(** [SharedSecurityStore::record_rejected_envelope_signal]. *)
Definition record_rejected_envelope_signal `{DomainDeps} (env : FindingEnv) (signal : SecuritySignal)
    (e : EventEnvelope) (b : SecurityAlertBackend) : SecurityAlertBackend :=
  match scope e with
  | None => b
  | Some scope =>
      if negb (is_lowercase_uuidv7 (event_id e)) || negb (is_identifier (workspace_id scope))
         || negb (is_identifier (namespace_id scope))
      then b
      else record_signal_parts env signal (workspace_id scope) (namespace_id scope) (event_id e)
             "event.envelope" (encode_to_vec e) b
  end.

(** [synthetic_operational_event_id]; [None] is a clock before the epoch. *)
Definition synthetic_operational_event_id (entropy : option string) (clock : option N)
    : result GatewayErrorCode string :=
  entropy ← ok_or entropy GInternal;
  Ok (uuid7_text entropy (from_option (N.min u64_max) 0 clock)).

(** [record_backlog_alert]. *)
Definition record_backlog_alert (env : FindingEnv) (entropy : option string) (clock : option N)
    (depth : N) (oldest_pending_millis : option N) (alert_depth alert_age_millis : N)
    (b : SecurityAlertBackend) : SecurityAlertBackend :=
  match synthetic_operational_event_id entropy clock with
  | Err _ => b
  | Ok event_id =>
      let detail := "depth=" +:+ decimal depth
        +:+ " oldest_pending_ms=" +:+ from_option decimal "unknown" oldest_pending_millis
        +:+ " alert_depth=" +:+ decimal alert_depth
        +:+ " alert_age_ms=" +:+ decimal alert_age_millis in
      record_signal_parts env SigBacklogDegraded OPERATIONAL_WORKSPACE_ID OPERATIONAL_NAMESPACE_ID
        event_id "outbox.backlog" detail b
  end.
End alerts.

(** ** The gateway *)

(** [IngestGateway]; the idempotency store and the publisher are of any type. *)
Record IngestGateway (I W : Type) := mkIngestGateway {
  ig_publisher : W;
  ig_idempotency : I;
  ig_security_store : option SecurityAlertBackend;
}.
Arguments mkIngestGateway {I W}.
Arguments ig_publisher {I W}.
Arguments ig_idempotency {I W}.
Arguments ig_security_store {I W}.

(** What one call reads from its surroundings: the clock of the publisher, of
    the commit, and what the two detections it may make read. *)
Record IngestEnv := mkIngestEnv {
  ie_publish_clock : N;
  ie_commit_clock : N;
  ie_inner_finding : FindingEnv;
  ie_outer_finding : FindingEnv;
}.

Definition signal_for_error (code : GatewayErrorCode) : option SecuritySignal :=
  match code with
  | GIdempotencyCapacity | GPayloadTooLarge => Some SigAdmissionAbuse
  | GIdempotencyConflict => Some SigTelemetryIntegrity
  | GScopeDenied => Some SigScopeIdentityDenied
  | _ => None
  end.

Definition validation_signal_for_error (code : GatewayErrorCode) : option SecuritySignal :=
  match code with
  | GSecretExposure => Some SigSecretExposure
  | GPayloadTooLarge | GInvalidEnvelope | GInvalidStructure => Some SigAdmissionAbuse
  | _ => None
  end.

(** [IdempotencyKey { .. }] of an event. *)
Definition idempotency_key (event : IngestRequest) : IdempotencyKey :=
  mkIdemKey (ir_workspace_id event) (ir_namespace_id event) (ir_event_id event).

Section gateway.
Context {I W : Type} `{IdempotencyStore I, EventPublisher W}.
Context `{FindingDigest, PayloadDigest, LineCodec JournalRecord, EnvelopeDeps, DomainDeps}.

Abbreviation Gateway := (IngestGateway I W).

Definition set_publisher (w : W) (g : Gateway) : Gateway :=
  mkIngestGateway w (ig_idempotency g) (ig_security_store g).
Definition set_idempotency (i : I) (g : Gateway) : Gateway :=
  mkIngestGateway (ig_publisher g) i (ig_security_store g).
Definition on_security (f : SecurityAlertBackend → SecurityAlertBackend) (g : Gateway) : Gateway :=
  mkIngestGateway (ig_publisher g) (ig_idempotency g) (f <$> ig_security_store g).

(** [with_idempotency_store], [with_security_store] and [with_security_journal]. *)
Definition with_idempotency_store (publisher : W) (idempotency : I) : Gateway :=
  mkIngestGateway publisher idempotency None.
Definition with_security_store (capacity : N) (g : Gateway) : result GatewayErrorCode Gateway :=
  store ← map_err (λ _, GInternal) (with_quotas capacity MAX_FINDINGS);
  Ok (mkIngestGateway (ig_publisher g) (ig_idempotency g) (Some (AlertMemory store))).
Definition with_security_journal (journal : FindingJournal) (g : Gateway) : Gateway :=
  mkIngestGateway (ig_publisher g) (ig_idempotency g) (Some (AlertJournal journal)).

(** [security_findings_for_scope]. *)
Definition security_findings_for_scope (caller : Caller) (workspace_id namespace_id : string) (g : Gateway)
    : result FindingErrorCode (option (list SecurityFinding)) :=
  match ig_security_store g with
  | None => Ok None
  | Some store => fs ← shared_findings_for_scope caller workspace_id namespace_id store; Ok (Some fs)
  end.

(** [record_security_signal]. *)
Definition record_security_signal (env : FindingEnv) (signal : SecuritySignal) (event : IngestRequest)
    : Gateway → Gateway :=
  on_security (record_signal_parts env signal (ir_workspace_id event) (ir_namespace_id event)
                 (ir_event_id event) "event.envelope" (ir_envelope event)).

(** [check_admission_readiness]. *)
Definition check_admission_readiness (caller : Caller) (workspace_id namespace_id agent_id : string)
    (idem_io outbox_io : bool * bool * bool) : ST Gateway GatewayErrorCode unit := λ g,
  if negb (caller_is_valid caller) || bool_decide (ca_bound_agent_id caller = None)
  then (Err GUnauthenticated, g)
  else if negb (is_identifier workspace_id) || negb (is_identifier namespace_id)
          || negb (is_identifier agent_id) || negb (bool_decide (ca_bound_agent_id caller = Some agent_id))
          || negb (caller_allows_scope caller (workspace_id +:+ "/" +:+ namespace_id))
  then (Err GScopeDenied, g)
  else
    let '(m, w, s) := idem_io in
    match idem_readiness workspace_id namespace_id m w s (ig_idempotency g) with
    | (Err e, i) => (Err e, set_idempotency i g)
    | (Ok _, i) =>
        let '(m, w, s) := outbox_io in
        (ev_readiness workspace_id namespace_id m w s (ig_publisher g), set_idempotency i g)
    end.

(** [maintain_idempotency]. *)
Definition maintain_idempotency (now retention : N) : ST Gateway GatewayErrorCode unit :=
  st_zoom ig_idempotency set_idempotency (idem_maintain now retention).

(** The actor of the envelope is the agent the caller is bound to. *)
Definition agent_actor_matches (bound_agent_id : string) (e : EventEnvelope) : bool :=
  from_option (λ a, (actor_type a =? 2)%Z && String.eqb (actor_id a) bound_agent_id) false (actor e).

(** [ingest_inner] after the reservation. *)
Definition publish_reserved (env : IngestEnv) (token : N) (event : IngestRequest)
    : ST Gateway GatewayErrorCode IngestOutcome := λ g,
  match ev_publish (ie_publish_clock env) event (ig_publisher g) with
  | (Panicked, w) => (Err GInternal, set_publisher w g)
  | (Returned (Err e), w) =>
      (Err e, set_idempotency (abort token (ig_idempotency g)) (set_publisher w g))
  | (Returned (Ok outcome), w) =>
      let g := set_publisher w g in
      match commit (ie_commit_clock env) token (ig_idempotency g) with
      | (Err e, i) =>
          (Err e, set_idempotency (if ev_can_reconcile (ig_publisher g) then abort token i else i) g)
      | (Ok _, i) =>
          (Ok match outcome with OutcomePublished => Accepted | OutcomeAlreadyComplete => Duplicate end,
           set_idempotency i g)
      end
  end.

(** [ingest_inner]. *)
Definition ingest_inner (env : IngestEnv) (caller : Caller) (event : IngestRequest)
    : ST Gateway GatewayErrorCode IngestOutcome := λ g,
  match ca_bound_agent_id caller with
  | None => (Err GUnauthenticated, g)
  | Some bound_agent_id =>
  if negb (caller_is_valid caller) then (Err GUnauthenticated, g)
  else if negb (is_identifier (ir_workspace_id event)) || negb (is_identifier (ir_namespace_id event))
  then (Err GScopeDenied, g)
  else if negb (caller_allows_scope caller (ir_scope_key event))
  then (Err GScopeDenied, record_security_signal (ie_inner_finding env) SigScopeIdentityDenied event g)
  else if negb (is_lowercase_uuidv7 (ir_event_id event)) then (Err GInvalidEventId, g)
  else if str_is_empty (ir_envelope event) then (Err GInvalidEnvelope, g)
  else if MAX_ENVELOPE_BYTES <? str_len (ir_envelope event) then (Err GPayloadTooLarge, g)
  else
  match envelope_decode (ir_envelope event) with
  | None => (Err GInvalidEnvelope, g)
  | Some envelope =>
  if negb (String.eqb (agent_id envelope) bound_agent_id)
     || negb (agent_actor_matches bound_agent_id envelope)
  then (Err GScopeDenied, record_security_signal (ie_inner_finding env) SigScopeIdentityDenied event g)
  else
  match reserve (idempotency_key event) (payload_fingerprint (ir_envelope event)) (ig_idempotency g) with
  | (Err e, i) => (Err e, set_idempotency i g)
  | (Ok IdemDuplicate, i) => (Ok Duplicate, set_idempotency i g)
  | (Ok IdemInProgress, i) => (Err GIdempotencyInProgress, set_idempotency i g)
  | (Ok IdemConflict, i) =>
      (Err GIdempotencyConflict,
       record_security_signal (ie_inner_finding env) SigTelemetryIntegrity event (set_idempotency i g))
  | (Ok (Reserved token), i) => publish_reserved env token event (set_idempotency i g)
  end
  end
  end.

(** [ingest]. *)
Definition ingest (env : IngestEnv) (caller : Caller) (event : IngestRequest)
    : ST Gateway GatewayErrorCode IngestOutcome := λ g,
  match ingest_inner env caller event g with
  | (Ok outcome, g') => (Ok outcome, g')
  | (Err e, g') =>
      (Err e, match signal_for_error e with
              | Some signal => record_security_signal (ie_outer_finding env) signal event g'
              | None => g'
              end)
  end.

(** [ingest_envelope] of the adapter: whether the event is a duplicate. *)
Definition ingest_envelope (env : IngestEnv) (caller : Caller) (e : EventEnvelope)
    : ST Gateway GatewayErrorCode bool := λ g,
  match from_validated_transport e with
  | Err error =>
      (Err error, match validation_signal_for_error error with
                  | Some signal =>
                      on_security (record_rejected_envelope_signal (ie_inner_finding env) signal e) g
                  | None => g
                  end)
  | Ok request =>
      let '(r, g') := ingest env caller request g in
      (outcome ← r; Ok match outcome with Duplicate => true | Accepted => false end, g')
  end.
End gateway.
