(* ===== verification/IngestLaws.v ===== *)
(** * What the ingest gateway guarantees

    The gateway of Ingest over any idempotency store and any outbox that meet
    their contracts: an acknowledged event is durable and acknowledged as new
    once, alerts never decide, and what a panicking publisher leaves behind. *)
From S2P Require Import Prelude RustStr Digits Time Errors Caller Domain Envelope Journal Outbox OutboxLaws OutboxFile Replay.
From S2P Require Import Findings FindingsLaws FindingJournal Idempotency IdempotencyLaws Publisher Ingest.

Open Scope N_scope.

(** ** Alerts *)

Section alerts.
Context {I W : Type} `{IdempotencyStore I, EventPublisher W}.
Context `{FindingDigest, PayloadDigest, LineCodec JournalRecord, EnvelopeDeps, DomainDeps}.

(** The same gateway, as far as its stores go. *)
Definition same_stores (g g' : IngestGateway I W) : Prop :=
  ig_publisher g = ig_publisher g' ∧ ig_idempotency g = ig_idempotency g'.
(** The same surroundings, as far as its stores go. *)
Definition same_clocks (env env' : IngestEnv) : Prop :=
  ie_publish_clock env = ie_publish_clock env' ∧ ie_commit_clock env = ie_commit_clock env'.

#[global] Instance same_stores_equiv : Equivalence same_stores.
Proof. unfold same_stores. split; [done|intros ?? []; done|intros ??? [] []; split; congruence]. Qed.

Lemma same_stores_signal env signal e g : same_stores (record_security_signal env signal e g) g.
Proof. done. Qed.
Lemma same_stores_on f g : same_stores (on_security f g) g.
Proof. done. Qed.

Lemma publish_reserved_same env env' token e g g' :
  same_clocks env env' → same_stores g g' →
  (publish_reserved env token e g).1 = (publish_reserved env' token e g').1
  ∧ same_stores (publish_reserved env token e g).2 (publish_reserved env' token e g').2.
Proof.
  intros [Hp Hc] [Hw Hi]. unfold publish_reserved, same_stores, set_publisher, set_idempotency.
  rewrite Hp, Hc, Hw, Hi. cbn. destruct (ev_publish _ e (ig_publisher g')) as [[[]|] w]; cbn; [|done..].
  by destruct (commit _ token _) as [[] i].
Qed.

Lemma ingest_inner_same env env' c e g g' :
  same_clocks env env' → same_stores g g' →
  (ingest_inner env c e g).1 = (ingest_inner env' c e g').1
  ∧ same_stores (ingest_inner env c e g).2 (ingest_inner env' c e g').2.
Proof.
  intros Hc Hg. unfold ingest_inner. destruct (ca_bound_agent_id c) as [agent|]; [|done].
  repeat (match goal with |- context [if ?b then _ else _] => destruct b; [done|] end).
  destruct (envelope_decode _) as [envelope|]; [|done]. destruct (_ || _); [done|].
  rewrite (proj2 Hg). destruct (reserve _ _ _) as [[[]|] i]; cbn.
  1: apply publish_reserved_same; [done|]. all: repeat split; try done; apply Hg.
Qed.

Lemma ingest_same_inner env c e g :
  (ingest env c e g).1 = (ingest_inner env c e g).1
  ∧ same_stores (ingest env c e g).2 (ingest_inner env c e g).2.
Proof.
  unfold ingest. destruct (ingest_inner env c e g) as [[]]; cbn; [done|]. by destruct (signal_for_error _).
Qed.

(** Alerts never decide.  Whether a gateway records security alerts, in
    memory or in a journal, in whatever state that store is, full, failing or
    absent, and whatever its detections read: the answer to an envelope and what
    happens to the outbox and to the idempotency store are the same. *)
Theorem alerts_never_decide (env env' : IngestEnv) (c : Caller) (e : EventEnvelope) (g g' : IngestGateway I W) :
  same_clocks env env' → same_stores g g' →
  (ingest_envelope env c e g).1 = (ingest_envelope env' c e g').1
  ∧ same_stores (ingest_envelope env c e g).2 (ingest_envelope env' c e g').2.
Proof.
  intros Hc Hg. unfold ingest_envelope. destruct (from_validated_transport e) as [request|error]; cycle 1.
  { by destruct (validation_signal_for_error error). }
  destruct (ingest_same_inner env c request g) as [Hr Hs], (ingest_same_inner env' c request g') as [Hr' Hs'].
  destruct (ingest_inner_same env env' c request g g' Hc Hg) as [Hri Hsi].
  destruct (ingest env c request g) as [r g1], (ingest env' c request g') as [r' g1']. cbn in *.
  split; [congruence|]. by rewrite Hs, Hsi, Hs'.
Qed.
End alerts.

(** ** Exactly once *)

(** The outbox's name of a key. *)
Definition outbox_key (k : IdempotencyKey) : OutboxKey :=
  mkOutboxKey (ik_workspace_id k) (ik_namespace_id k) (ik_event_id k).

Section once.
Context {I O P : Type} `{IdempotencyLaws I, OutboxLaws O, !OutboxAdmin O}.
Context `{FindingDigest, LineCodec JournalRecord, EnvelopeDeps, DomainDeps, JitterDigest}.
Variable downstream : IngestRequest → P → PublishResult * P.

Abbreviation Gateway := (IngestGateway I (OutboxedPublisher P O)).
Definition g_rows (g : Gateway) : gmap OutboxKey Row := rows (op_outbox (ig_publisher g)).
Definition g_settled (g : Gateway) : gmap IdempotencyKey string := settled (ig_idempotency g).
Definition g_held (g : Gateway) : gmap N (IdempotencyKey * string) := held (ig_idempotency g).

(** The stores satisfy the invariants their classes promise to keep. *)
Record stores_wf (g : Gateway) : Prop := {
  sw_idem : idem_wf (ig_idempotency g);
  sw_outbox : outbox_wf (op_outbox (ig_publisher g));
}.
(** The stores are well formed and agree: a settled key has a row, whose
    envelope has the settled fingerprint. *)
Record coherent (g : Gateway) : Prop := {
  co_idem : idem_wf (ig_idempotency g);
  co_outbox : outbox_wf (op_outbox (ig_publisher g));
  co_rows k h : g_settled g !! k = Some h →
    ∃ r, g_rows g !! outbox_key k = Some r ∧ payload_fingerprint (ir_envelope (row_event r)) = h;
}.

(** Nothing that was settled or enqueued is forgotten or replaced. *)
Record extends (g g' : Gateway) : Prop := {
  ex_settled : g_settled g ⊆ g_settled g';
  ex_rows k e : row_event <$> g_rows g !! k = Some e → row_event <$> g_rows g' !! k = Some e;
}.

#[global] Instance extends_preorder : PreOrder extends.
Proof. split; [intros g; by split|]. intros g1 g2 g3 [] []. split; [by etrans|auto]. Qed.

Lemma extends_same g g' : g_settled g' = g_settled g → g_rows g' = g_rows g → extends g g'.
Proof. intros Hs Hr. split; [by rewrite Hs|by rewrite Hr]. Qed.

Lemma coherent_same g g' :
  coherent g → idem_wf (ig_idempotency g') → outbox_wf (op_outbox (ig_publisher g')) →
  g_settled g' = g_settled g → extends g g' → coherent g'.
Proof.
  intros [] ?? Hs []. split; [done..|]. intros k h Hk. rewrite Hs in Hk.
  destruct (co_rows0 k h Hk) as (r & Hr & Hf). specialize (ex_rows0 (outbox_key k) (row_event r)).
  rewrite Hr in ex_rows0. destruct (g_rows g' !! _) as [r'|]; [|by specialize (ex_rows0 eq_refl)].
  specialize (ex_rows0 eq_refl). cbn in ex_rows0. exists r'. split; [done|]. congruence.
Qed.

(** What a turn of publishing does to the rows. *)
Lemma outboxed_publish_rows now e (w : OutboxedPublisher P O) :
  outbox_wf (op_outbox w) →
  let '(r, w') := outboxed_publish now e w in
  outbox_wf (op_outbox w')
  ∧ match r with
    | Ok OutcomePublished =>
        rows (op_outbox w) !! key_of e = None
        ∧ rows (op_outbox w') = <[key_of e := Pending e]> (rows (op_outbox w))
    | Ok OutcomeAlreadyComplete =>
        rows (op_outbox w') = rows (op_outbox w)
        ∧ ∃ e0, rows (op_outbox w) !! key_of e = Some (Complete e0)
                ∧ payload_fingerprint (ir_envelope e0) = payload_fingerprint (ir_envelope e)
    | Err _ => rows (op_outbox w') = rows (op_outbox w)
    end.
Proof.
  intros Hwf. unfold outboxed_publish. pose proof (enqueue_wf now e _ Hwf) as Hw.
  pose proof (enqueue_law now e _ Hwf) as Hl. destruct (enqueue now e (op_outbox w)) as [r o]. cbn in *.
  split; [done|]. destruct (rows (op_outbox w) !! key_of e) as [[e0|e0|e0]|] eqn:Hrow.
  - destruct Hl as [Hrows ->]. by destruct (String.eqb _ _).
  - by destruct Hl as [Hrows [->|[-> _]]].
  - destruct Hl as [Hrows ->]. destruct (String.eqb_spec (payload_fingerprint (ir_envelope e0))
      (payload_fingerprint (ir_envelope e))); cbn; [|done]. eauto.
  - destruct r as [r|]; [|done]. by destruct Hl as [-> Hrows].
Qed.

Lemma coherent_wf g : coherent g → stores_wf g.
Proof. by intros []. Qed.

(** What one submission does to the stores and what its answer means: an event
    reported as new was in neither store and is in both; one reported as a
    duplicate was settled under its fingerprint, or completed in the outbox. *)
Definition acknowledged_as (outcome : IngestOutcome) (e : IngestRequest) (g g' : Gateway) : Prop :=
  g_settled g' = <[idempotency_key e := payload_fingerprint (ir_envelope e)]> (g_settled g)
  ∧ match outcome with
    | Accepted => g_settled g !! idempotency_key e = None
                  ∧ g_rows g !! key_of e = None ∧ g_rows g' !! key_of e = Some (Pending e)
    | Duplicate => g_settled g !! idempotency_key e = Some (payload_fingerprint (ir_envelope e))
                   ∨ ∃ e0, g_rows g !! key_of e = Some (Complete e0)
                       ∧ payload_fingerprint (ir_envelope e0) = payload_fingerprint (ir_envelope e)
    end.
Definition submitted (c : Caller) (e : IngestRequest) (r : result GatewayErrorCode IngestOutcome)
    (g g' : Gateway) : Prop :=
  stores_wf g' ∧ extends g g' ∧ g_held g' = g_held g
  ∧ match r with
    | Ok outcome => caller_allows_scope c (ir_scope_key e) = true ∧ acknowledged_as outcome e g g'
    | Err _ => g_settled g' = g_settled g
    end.

Lemma submitted_coherent c e r g g' : coherent g → submitted c e r g g' → coherent g'.
Proof.
  intros Hco ([Hi Ho] & Hex & _ & Hr). destruct r as [outcome|]; [|by apply (coherent_same g)].
  destruct Hr as (_ & Hs & Hwhich).
  assert (∀ k row, g_rows g !! k = Some row → ∃ row', g_rows g' !! k = Some row' ∧ row_event row' = row_event row)
    as Hkept.
  { intros k row Hk. pose proof (ex_rows _ _ Hex k (row_event row)) as Hx. rewrite Hk in Hx. specialize (Hx eq_refl).
    destruct (g_rows g' !! k) as [row'|]; [|done]. injection Hx as Hx. eauto. }
  split; [done..|]. intros k h. rewrite Hs. intros [[<- <-]|[_ Hk]]%lookup_insert_Some; cycle 1.
  { destruct (co_rows _ Hco k h Hk) as (row & Hrow & <-).
    destruct (Hkept _ _ Hrow) as (row' & Hrow' & Heq). exists row'. by rewrite Heq. }
  change (outbox_key (idempotency_key e)) with (key_of e).
  destruct outcome; [destruct Hwhich as (_ & _ & ->); by eexists|].
  destruct Hwhich as [Hold|(e0 & He0 & Hf)].
  - destruct (co_rows _ Hco _ _ Hold) as (row & Hrow & Hf).
    destruct (Hkept _ _ Hrow) as (row' & Hrow' & Heq). exists row'. by rewrite Heq.
  - destruct (Hkept _ _ He0) as (row' & Hrow' & Heq). exists row'. by rewrite Heq.
Qed.

Lemma submitted_same c e r g g' g'' :
  same_stores g'' g' → submitted c e r g g' → submitted c e r g g''.
Proof.
  intros [Hw Hi] ([] & [] & Hh & Hr). unfold submitted, acknowledged_as, g_held, g_settled, g_rows in *.
  split_and!; [split|split|..]; unfold g_settled, g_rows in *; rewrite ?Hw, ?Hi; done.
Qed.

Lemma submitted_error c e er g0 g :
  idem_wf (ig_idempotency g) → outbox_wf (op_outbox (ig_publisher g)) →
  g_settled g = g_settled g0 → g_held g = g_held g0 →
  (∀ k e', row_event <$> g_rows g0 !! k = Some e' → row_event <$> g_rows g !! k = Some e') →
  submitted c e (Err er) g0 g.
Proof.
  intros Hi Hw Hs Hh Hk. assert (extends g0 g) as Hex by (split; [by rewrite Hs|done]).
  by split_and!.
Qed.

(** A key that was reserved: settled when the event is published, released
    otherwise. *)
Lemma publish_reserved_spec env token c e g0 i :
  let fingerprint := payload_fingerprint (ir_envelope e) in
  outbox_wf (op_outbox (ig_publisher g0)) → caller_allows_scope c (ir_scope_key e) = true →
  idem_wf i → settled i = g_settled g0 → g_settled g0 !! idempotency_key e = None →
  g_held g0 !! token = None → held i = <[token := (idempotency_key e, fingerprint)]> (g_held g0) →
  let '(r, g') := publish_reserved env token e (set_idempotency i g0) in submitted c e r g0 g'.
Proof.
  intros fp Hco Hallow Hi Hs Hnone Hfresh Hheld.
  assert (∀ i', held i' = delete token (held i) → held i' = g_held g0) as Hback.
  { intros i' ->. rewrite Hheld, delete_insert_id; done. }
  unfold publish_reserved. cbn [ev_publish outboxed_publisher set_idempotency ig_publisher].
  pose proof (outboxed_publish_rows (ie_publish_clock env) e _ Hco) as Hpub.
  destruct (outboxed_publish _ e _) as [[outcome|er] w]; cbn; cycle 1.
  { destruct Hpub as [Hw Hrows]. destruct (abort_law token i Hi) as [Has Hah].
    apply submitted_error; cbn; [by apply abort_wf|done|by etrans|by apply Hback|].
    intros k e'. unfold g_rows. cbn. by rewrite Hrows. }
  pose proof (commit_wf (ie_commit_clock env) token i Hi) as Hcw.
  pose proof (commit_law (ie_commit_clock env) token i Hi) as Hcl. unfold set_publisher. cbn.
  destruct Hpub as [Hw Hrows].
  assert (∀ k e', row_event <$> g_rows g0 !! k = Some e' → row_event <$> rows (op_outbox w) !! k = Some e') as Hkeep.
  { intros k e' Hk. unfold g_rows in *. destruct outcome; destruct Hrows as [Hrow Hrows]; [|by rewrite Hrow].
    rewrite Hrows, lookup_insert_ne; [done|]. intros <-. by rewrite Hrow in Hk. }
  destruct (commit _ token i) as [[u|er] i1] eqn:Hcm; cbn in Hcw; cycle 1.
  { destruct Hcl as [Hcs Hch], (abort_law token i1 Hcw) as [Has Hah].
    apply submitted_error; cbn; [by apply abort_wf|done| |apply (Hback (abort token i1)); by rewrite Hah, Hch|done].
    by rewrite <- Hs, <- Hcs. }
  rewrite Hheld, lookup_insert_eq in Hcl. destruct Hcl as [Hcs Hch]. cbn.
  assert (extends g0 (mkIngestGateway w i1 (ig_security_store g0))) as Hex.
  { split; [|done]. unfold g_settled at 2. cbn. rewrite Hcs, Hs. by apply insert_subseteq. }
  split_and!; [done|done|by apply Hback; rewrite Hheld|done|]. split.
  - unfold g_settled. cbn. by rewrite Hcs, Hs.
  - destruct outcome; destruct Hrows as [Hrow Hrows]; [|by right]. unfold g_rows. cbn.
    by rewrite Hrows, lookup_insert_eq.
Qed.

Lemma unchanged c e er g : stores_wf g → submitted c e (Err er) g g.
Proof. intros []. by apply submitted_error. Qed.

Lemma ingest_inner_spec env c e g r g' :
  stores_wf g → ingest_inner env c e g = (r, g') → submitted c e r g g'.
Proof.
  intros Hco. unfold ingest_inner.
  destruct (ca_bound_agent_id c) as [agent|]; [|intros [= <- <-]; by apply unchanged].
  destruct (negb _); [intros [= <- <-]; by apply unchanged|].
  destruct (_ || _); [intros [= <- <-]; by apply unchanged|].
  destruct (caller_allows_scope c (ir_scope_key e)) eqn:Hallow; cbn [negb]; cycle 1.
  { intros [= <- <-]. by apply (submitted_same _ _ _ _ g), unchanged. }
  do 3 (match goal with |- context [if ?b then _ else _] =>
          destruct b; [intros [= <- <-]; by apply unchanged|] end).
  destruct (envelope_decode _) as [envelope|]; [|intros [= <- <-]; by apply unchanged].
  destruct (_ || _); [intros [= <- <-]; by apply (submitted_same _ _ _ _ g), unchanged|].
  set (key := idempotency_key e). set (fp := payload_fingerprint (ir_envelope e)).
  pose proof (reserve_wf key fp _ (sw_idem _ Hco)) as Hw. pose proof (reserve_law key fp _ (sw_idem _ Hco)) as Hl.
  destruct (reserve key fp (ig_idempotency g)) as [answer i]. cbn in Hw. destruct Hl as [Hs Hl].
  assert (∀ er, held i = g_held g → submitted c e (Err er) g (set_idempotency i g)) as Herr
    by (intros er Hh; apply submitted_error; cbn; try apply Hco; done).
  assert (∀ er, held i = g_held g →
    submitted c e (Err er) g (record_security_signal (ie_inner_finding env) SigTelemetryIntegrity e (set_idempotency i g)))
    as Herr' by (intros er Hh; by apply (submitted_same _ _ _ _ (set_idempotency i g)), Herr).
  destruct (settled (ig_idempotency g) !! key) as [h|] eqn:Hset;
    [|destruct (held_by key (held (ig_idempotency g))) as [h|] eqn:Hby].
  - destruct Hl as [Hh ->]. destruct (String.eqb_spec h fp) as [->|]; intros [= <- <-]; [|by apply Herr'].
    split_and!; [|by apply extends_same|done|done|].
    + split; [done|apply Hco].
    + split; [|by left]. unfold g_settled. cbn. rewrite Hs. symmetry. by apply insert_id.
  - destruct Hl as [Hh ->]. destruct (String.eqb h fp); intros [= <- <-]; [by apply Herr|by apply Herr'].
  - destruct Hl as [(er & -> & Hh)|(token & -> & Hfresh & Hh)]; [intros [= <- <-]; by apply Herr|].
    intros Heq. pose proof (publish_reserved_spec env token c e g i (sw_outbox _ Hco) Hallow Hw Hs Hset Hfresh Hh) as Hsub.
    by rewrite Heq in Hsub.
Qed.

Lemma ingest_spec env c e g r g' : stores_wf g → ingest env c e g = (r, g') → submitted c e r g g'.
Proof.
  intros Hco Heq. destruct (ingest_same_inner env c e g) as [Hr Hg]. rewrite Heq in Hr, Hg. cbn in Hr, Hg.
  eapply submitted_same; [exact Hg|]. destruct (ingest_inner env c e g) as [r1 g1] eqn:Hin.
  cbn in *. subst r1. by eapply ingest_inner_spec.
Qed.

(** The fanout worker's cycles, beside the submissions. *)
Definition gateway_replay (now : N) (g : Gateway) : Gateway :=
  set_publisher (replay_pending downstream now (ig_publisher g)).2 g.

Lemma gateway_replay_spec now g :
  coherent g → coherent (gateway_replay now g) ∧ extends g (gateway_replay now g).
Proof.
  intros Hco. unfold gateway_replay. destruct (replay_pending downstream now (ig_publisher g)) as [res w] eqn:Hr.
  destruct (replay_rows downstream (λ _ _, True) ltac:(done) ltac:(done) now _ res w (co_outbox _ Hco) Hr)
    as (Hw & completed & _ & _ & Hrows & _). cbn.
  assert (extends g (set_publisher w g)) as Hex.
  { split; [done|]. intros k e. unfold g_rows. cbn. destruct (Hrows k) as (r & Hd & Hk).
    destruct Hk as [->|[_ ->]], Hd as [->| ->]; by destruct (rows _ !! k) as [[]|]. }
  split; [|done]. apply (coherent_same g); try done. apply (co_idem _ Hco).
Qed.

(** What happens to a gateway, and its answers. *)
Inductive GatewayOp :=
  | GIngest (env : IngestEnv) (caller : Caller) (event : IngestRequest)
  | GReplay (now : N).
Definition run_gateway (op : GatewayOp) (g : Gateway) : option (result GatewayErrorCode IngestOutcome) * Gateway :=
  match op with
  | GIngest env c e => let '(r, g') := ingest env c e g in (Some r, g')
  | GReplay now => (None, gateway_replay now g)
  end.
Fixpoint gateway_run (ops : list GatewayOp) (g : Gateway)
    : list (option (result GatewayErrorCode IngestOutcome)) * Gateway :=
  match ops with
  | [] => ([], g)
  | op :: ops =>
      let '(a, g1) := run_gateway op g in
      let '(answers, g2) := gateway_run ops g1 in (a :: answers, g2)
  end.

Lemma run_gateway_spec op g a g' :
  coherent g → run_gateway op g = (a, g') → coherent g' ∧ extends g g'.
Proof.
  intros Hco. destruct op as [env c e|now]; cbn; [|intros [= <- <-]; by apply gateway_replay_spec].
  destruct (ingest env c e g) as [r g1] eqn:Hi. intros [= <- <-].
  pose proof (ingest_spec _ _ _ _ _ _ (coherent_wf _ Hco) Hi) as Hsub.
  split; [by eapply submitted_coherent|apply Hsub].
Qed.

Lemma gateway_run_spec ops g answers g' :
  coherent g → gateway_run ops g = (answers, g') → coherent g' ∧ extends g g'.
Proof.
  revert g answers. induction ops as [|op ops IH]; intros g answers Hco; cbn; [by intros [= <- <-]|].
  destruct (run_gateway op g) as [a g1] eqn:Hone, (gateway_run ops g1) as [as' g2] eqn:Htwo. intros [= <- <-].
  destruct (run_gateway_spec _ _ _ _ Hco Hone) as [Hco1 Hex1]. destruct (IH _ _ Hco1 Htwo) as [Hco2 Hex2].
  split; [done|by etrans].
Qed.

(** A settled key is never acknowledged as new. *)
Lemma settled_not_new ops g answers g' i env c e :
  coherent g → gateway_run ops g = (answers, g') → is_Some (g_settled g !! idempotency_key e) →
  ops !! i = Some (GIngest env c e) → answers !! i ≠ Some (Some (Ok Accepted)).
Proof.
  revert g answers i. induction ops as [|op ops IH]; intros g answers i Hco; cbn; [done|].
  destruct (run_gateway op g) as [a g1] eqn:Hone, (gateway_run ops g1) as [as' g2] eqn:Htwo. intros [= <- <-].
  destruct (run_gateway_spec _ _ _ _ Hco Hone) as [Hco1 Hex1]. intros [h Hk].
  destruct i as [|i]; cbn; [|apply (IH g1); [done..|]; exists h; by eapply lookup_weaken, ex_settled].
  intros [= ->] [= ->]. cbn in Hone. destruct (ingest env c e g) as [r g1'] eqn:Hi. injection Hone as -> ->.
  destruct (ingest_spec _ _ _ _ _ _ (coherent_wf _ Hco) Hi) as (_ & _ & _ & _ & _ & Hnew & _). congruence.
Qed.

Lemma acknowledged ops g answers g' i env c e outcome :
  coherent g → gateway_run ops g = (answers, g') →
  ops !! i = Some (GIngest env c e) → answers !! i = Some (Some (Ok outcome)) →
  caller_allows_scope c (ir_scope_key e) = true
  ∧ (∃ e', row_event <$> g_rows g' !! key_of e = Some e'
           ∧ payload_fingerprint (ir_envelope e') = payload_fingerprint (ir_envelope e)
           ∧ (outcome = Accepted → e' = e))
  ∧ ∀ j env' c' e', outcome = Accepted → (i < j)%nat → ops !! j = Some (GIngest env' c' e') →
      key_of e' = key_of e → answers !! j ≠ Some (Some (Ok Accepted)).
Proof.
  revert g answers i. induction ops as [|op ops IH]; intros g answers i Hco; cbn; [done|].
  destruct (run_gateway op g) as [a g1] eqn:Hone, (gateway_run ops g1) as [as' g2] eqn:Htwo. intros [= <- <-].
  destruct (run_gateway_spec _ _ _ _ Hco Hone) as [Hco1 Hex1].
  destruct i as [|i]; cbn; intros Hop Ha; cycle 1.
  { destruct (IH g1 as' i Hco1 Htwo Hop Ha) as (? & ? & Hlater). split_and!; [done..|].
    intros [|j] env' c' e' Ho Hlt; [lia|]. cbn. apply (Hlater j env' c' e' Ho). lia. }
  injection Hop as ->. injection Ha as ->. cbn in Hone. destruct (ingest env c e g) as [r g1'] eqn:Hi.
  injection Hone as -> ->. destruct (ingest_spec _ _ _ _ _ _ (coherent_wf _ Hco) Hi) as (_ & _ & _ & Hallow & Hall & Hnew).
  assert (g_settled g1 !! idempotency_key e = Some (payload_fingerprint (ir_envelope e))) as Hset
    by (by rewrite Hall, lookup_insert_eq).
  destruct (gateway_run_spec _ _ _ _ Hco1 Htwo) as [Hco2 Hex2]. split_and!; [done| |].
  - destruct (co_rows _ Hco1 _ _ Hset) as (r & Hr & Hf). exists (row_event r).
    split_and!; [apply (ex_rows _ _ Hex2); by rewrite <- (fmap_Some_2 row_event _ _ Hr)|done|].
    intros ->. destruct Hnew as (_ & _ & Hr'). change (outbox_key (idempotency_key e)) with (key_of e) in Hr.
    by simplify_eq.
  - intros [|j] env' c' e' -> Hlt; [lia|]. cbn. intros Hop Hkey.
    assert (idempotency_key e' = idempotency_key e) as Hkey'.
    { unfold key_of in Hkey. unfold idempotency_key. by injection Hkey as -> -> ->. }
    eapply (settled_not_new ops g1); [done..| |done]. rewrite Hkey'. eauto.
Qed.

(** C4. Exactly once, end to end.  From stores that agree (every settled key has
    its row, as in empty ones), over any interleaving of submissions and of
    the fanout worker's cycles, with any storage failures (a commit that fails
    after the event was enqueued included) and any behaviour of the downstream
    publisher: an event that is acknowledged, as new or as a duplicate, was
    submitted by a caller whose scopes include the event's, and at the end the
    outbox holds a row for its key whose envelope has the same fingerprint - the
    very event, if it was acknowledged as new -; and of all the submissions
    under one key at most one is acknowledged as new. *)
Theorem ingest_exactly_once (ops : list GatewayOp) (g : Gateway) :
  coherent g →
  let '(answers, g') := gateway_run ops g in
  ∀ i env c e outcome, ops !! i = Some (GIngest env c e) → answers !! i = Some (Some (Ok outcome)) →
  caller_allows_scope c (ir_scope_key e) = true
  ∧ (∃ e', row_event <$> g_rows g' !! key_of e = Some e'
           ∧ payload_fingerprint (ir_envelope e') = payload_fingerprint (ir_envelope e)
           ∧ (outcome = Accepted → e' = e))
  ∧ ∀ j env' c' e', outcome = Accepted → i ≠ j → ops !! j = Some (GIngest env' c' e') →
      key_of e' = key_of e → answers !! j ≠ Some (Some (Ok Accepted)).
Proof.
  intros Hco. destruct (gateway_run ops g) as [answers g'] eqn:Hrun. intros i env c e outcome Hop Ha.
  destruct (acknowledged _ _ _ _ _ _ _ _ _ Hco Hrun Hop Ha) as (Hallow & Hrow & Hlater). split_and!; [done..|].
  intros j env' c' e' -> Hne Hop' Hkey Ha'. destruct (decide (i < j)%nat); [by eapply Hlater|].
  destruct (acknowledged _ _ _ _ _ _ _ _ _ Hco Hrun Hop' Ha') as (_ & _ & Hbefore).
  apply (Hbefore i env c e); [done|lia|done|done|done].
Qed.
End once.

(** ** A publisher that panics *)

Section panic.
Context {I W : Type} `{IdempotencyLaws I, EventPublisher W}.
Context `{FindingDigest, PayloadDigest, LineCodec JournalRecord, EnvelopeDeps, DomainDeps}.

(** A submission that passes every check before the reservation. *)
Definition presentable (c : Caller) (e : IngestRequest) : bool :=
  match ca_bound_agent_id c, envelope_decode (ir_envelope e) with
  | Some agent, Some envelope =>
      caller_is_valid c && is_identifier (ir_workspace_id e) && is_identifier (ir_namespace_id e)
      && caller_allows_scope c (ir_scope_key e) && is_lowercase_uuidv7 (ir_event_id e)
      && negb (str_is_empty (ir_envelope e)) && negb (MAX_ENVELOPE_BYTES <? str_len (ir_envelope e))
      && String.eqb (agent_id envelope) agent && agent_actor_matches agent envelope
  | _, _ => false
  end.

Lemma ingest_presentable env c e g :
  presentable c e = true →
  ingest_inner env c e g
  = match reserve (idempotency_key e) (payload_fingerprint (ir_envelope e)) (ig_idempotency g) with
    | (Err er, i) => (Err er, set_idempotency i g)
    | (Ok IdemDuplicate, i) => (Ok Duplicate, set_idempotency i g)
    | (Ok IdemInProgress, i) => (Err GIdempotencyInProgress, set_idempotency i g)
    | (Ok IdemConflict, i) =>
        (Err GIdempotencyConflict,
         record_security_signal (ie_inner_finding env) SigTelemetryIntegrity e (set_idempotency i g))
    | (Ok (Reserved token), i) => publish_reserved env token e (set_idempotency i g)
    end.
Proof.
  unfold presentable, ingest_inner.
  destruct (ca_bound_agent_id c) as [agent|]; [|done].
  destruct (envelope_decode (ir_envelope e)) as [envelope|]; [|done].
  rewrite !andb_true_iff, !negb_true_iff. intros ((((((((-> & ->) & ->) & ->) & ->) & ->) & ->) & ->) & ->). done.
Qed.

(** The answers to a sequence of submissions. *)
Definition submit_all (calls : list (IngestEnv * Caller * IngestRequest)) (g : IngestGateway I W)
    : list (result GatewayErrorCode IngestOutcome) * IngestGateway I W :=
  foldl (λ t call, let '(r, g') := ingest call.1.1 call.1.2 call.2 t.2 in (t.1 ++ [r], g')) ([], g) calls.

(** A reservation that stays held. *)
Definition wedged (token : N) (key : IdempotencyKey) (hash : string) (g : IngestGateway I W) : Prop :=
  idem_wf (ig_idempotency g) ∧ held (ig_idempotency g) !! token = Some (key, hash).

Lemma wedged_same token key hash g g' : same_stores g g' → wedged token key hash g → wedged token key hash g'.
Proof. intros [_ Hi]. unfold wedged. by rewrite Hi. Qed.

Lemma publish_reserved_wedged env token' e i token key hash g :
  idem_wf i → held i !! token = Some (key, hash) → token ≠ token' →
  wedged token key hash (publish_reserved env token' e (set_idempotency i g)).2.
Proof.
  intros Hi Hh Hne. unfold publish_reserved, wedged. cbn.
  assert (∀ i', idem_wf i' → held i' !! token = Some (key, hash) →
    idem_wf (abort token' i') ∧ held (abort token' i') !! token = Some (key, hash)) as Habort.
  { intros i' Hi' Hh'. split; [by apply abort_wf|]. by rewrite (proj2 (abort_law token' i' Hi')), lookup_delete_ne. }
  destruct (ev_publish _ e _) as [[[outcome|er]|] w]; cbn; [|by apply Habort|done].
  pose proof (commit_wf (ie_commit_clock env) token' i Hi) as Hw.
  pose proof (commit_law (ie_commit_clock env) token' i Hi) as Hl.
  destruct (commit _ token' i) as [[u|er] i1]; cbn in *.
  - destruct (held i !! token') as [[]|]; [|done]. destruct Hl as [_ ->]. by rewrite lookup_delete_ne.
  - destruct Hl as [_ Hl]. destruct (ev_can_reconcile w); [apply Habort; [done|congruence]|]. by rewrite Hl.
Qed.

Lemma held_by_some key (m : gmap N (IdempotencyKey * string)) token hash :
  m !! token = Some (key, hash) → is_Some (held_by key m).
Proof.
  intros Hm. unfold held_by. destruct (list_find (λ p, p.1 = key) (map_to_list m).*2) as [[j p]|] eqn:Hf; [by eexists|].
  apply list_find_None in Hf. rewrite Forall_forall in Hf. exfalso. apply (Hf (key, hash)); [|done].
  apply list_elem_of_fmap. exists (token, (key, hash)). split; [done|]. by apply elem_of_map_to_list.
Qed.

(** While the reservation is held, no submission under its key succeeds. *)
Lemma wedged_ingest env c e token key hash g :
  wedged token key hash g →
  wedged token key hash (ingest env c e g).2
  ∧ (idempotency_key e = key → is_ok (ingest env c e g).1 = false).
Proof.
  intros Hg. destruct (ingest_same_inner env c e g) as [-> Hsame].
  assert (wedged token key hash (ingest_inner env c e g).2
    ∧ (idempotency_key e = key → is_ok (ingest_inner env c e g).1 = false)) as [Hw Hok]; cycle 1.
  { split; [|done]. eapply wedged_same; [symmetry; exact Hsame|done]. }
  unfold ingest_inner. destruct (ca_bound_agent_id c) as [agent|]; [|done].
  repeat (match goal with |- context [if ?b then _ else _] => destruct b; [done|] end).
  destruct (envelope_decode _) as [envelope|]; [|done]. destruct (_ || _); [done|].
  destruct Hg as [Hi Hh]. set (fp := payload_fingerprint _).
  pose proof (reserve_wf (idempotency_key e) fp _ Hi) as Hw. pose proof (reserve_law (idempotency_key e) fp _ Hi) as Hl.
  destruct (reserve (idempotency_key e) fp (ig_idempotency g)) as [answer i]. cbn in Hw. destruct Hl as [_ Hl].
  pose proof (held_exclusive _ _ _ _ Hi Hh) as [Hns _].
  destruct (settled (ig_idempotency g) !! idempotency_key e) as [h|] eqn:Hset.
  { destruct Hl as [Hl ->]. split; [|congruence]. destruct (String.eqb h fp); (split; cbn; [done|by rewrite Hl]). }
  destruct (held_by (idempotency_key e) (held (ig_idempotency g))) as [h|] eqn:Hby.
  { destruct Hl as [Hl ->]. destruct (String.eqb h fp); cbn; (split; [split; cbn; [done|by rewrite Hl]|done]). }
  assert (idempotency_key e ≠ key) as Hne.
  { intros He. destruct (held_by_some key _ _ _ Hh). congruence. }
  destruct Hl as [(er & -> & Hl)|(token' & -> & Hfresh & Hl)]; cbn; (split; [|done]).
  - split; cbn; [done|by rewrite Hl].
  - apply publish_reserved_wedged; [done|rewrite Hl, lookup_insert_ne; [done|congruence]|congruence].
Qed.

Lemma submit_all_snoc calls call g :
  submit_all (calls ++ [call]) g
  = let '(rs, g1) := submit_all calls g in
    let '(r, g2) := ingest call.1.1 call.1.2 call.2 g1 in (rs ++ [r], g2).
Proof. unfold submit_all. rewrite foldl_app. cbn. by destruct (foldl _ _ calls) as [rs g1]. Qed.

Lemma wedged_run calls token key hash g :
  wedged token key hash g →
  wedged token key hash (submit_all calls g).2
  ∧ length (submit_all calls g).1 = length calls
  ∧ ∀ j call r, calls !! j = Some call → (submit_all calls g).1 !! j = Some r →
      idempotency_key call.2 = key → is_ok r = false.
Proof.
  intros Hg. induction calls as [|call calls IH] using rev_ind; [done|].
  rewrite submit_all_snoc. destruct (submit_all calls g) as [rs g1]. cbn in IH. destruct IH as (Hw & Hlen & Hall).
  destruct (wedged_ingest call.1.1 call.1.2 call.2 token key hash g1 Hw) as [Hw' Hok].
  destruct (ingest call.1.1 call.1.2 call.2 g1) as [r g2]. cbn in *.
  split_and!; [done|by rewrite !length_app, Hlen|]. intros j call' r'.
  rewrite !lookup_app_Some. intros [Hc|[Hge Hc]] [Hr|[Hge' Hr]] Hkey.
  - by apply (Hall j call').
  - apply lookup_lt_Some in Hc. lia.
  - apply lookup_lt_Some in Hr. lia.
  - apply list_lookup_singleton_Some in Hc as [_ <-]. apply list_lookup_singleton_Some in Hr as [_ <-]. auto.
Qed.

(** A panic of the publisher wedges the event.  A submission that passes
    every check, whose key is reserved and whose publishing panics is answered
    with an internal error, and the reservation is not released: whatever is
    submitted afterwards, by whichever callers, no submission under that key is
    ever acknowledged by this process. *)
Theorem publish_panic_wedges (env : IngestEnv) (c : Caller) (token : N) (e : IngestRequest) (i : I)
    (g : IngestGateway I W) (calls : list (IngestEnv * Caller * IngestRequest)) :
  idem_wf (ig_idempotency g) → presentable c e = true →
  reserve (idempotency_key e) (payload_fingerprint (ir_envelope e)) (ig_idempotency g) = (Ok (Reserved token), i) →
  (ev_publish (ie_publish_clock env) e (ig_publisher g)).1 = Panicked →
  let '(r, g') := ingest env c e g in
  r = Err GInternal
  ∧ ∀ j call r', calls !! j = Some call → (submit_all calls g').1 !! j = Some r' →
      idempotency_key call.2 = idempotency_key e → is_ok r' = false.
Proof.
  intros Hi Hok Hres Hpanic. unfold ingest. rewrite (ingest_presentable _ _ _ _ Hok), Hres.
  pose proof (reserve_wf (idempotency_key e) (payload_fingerprint (ir_envelope e)) _ Hi) as Hw.
  pose proof (reserve_law (idempotency_key e) (payload_fingerprint (ir_envelope e)) _ Hi) as Hl.
  rewrite Hres in Hw, Hl. cbn in Hw. destruct Hl as [_ Hl]. unfold publish_reserved. cbn.
  destruct (ev_publish _ e _) as [res w]. cbn in Hpanic. subst res. cbn. split; [done|].
  assert (held i !! token = Some (idempotency_key e, payload_fingerprint (ir_envelope e))) as Hh.
  { destruct (settled (ig_idempotency g) !! idempotency_key e), (held_by (idempotency_key e) (held (ig_idempotency g)));
      [by destruct Hl as [_ Hl]; destruct (String.eqb _ _)..|].
    destruct Hl as [(? & ? & _)|(token' & [= <-] & _ & ->)]; [done|by rewrite lookup_insert_eq]. }
  by apply (wedged_run calls token (idempotency_key e) (payload_fingerprint (ir_envelope e))).
Qed.
End panic.

(** ** Witnesses *)

(** An envelope, and third-party code for which it is the encoding of itself:
    one text, one canonical form and one digest. *)
Definition demo_hash : string := "aaaaaaaaaaaaaaaaaaaaaaaaaaaaaaaaaaaaaaaaaaaaaaaaaaaaaaaaaaaaaaaa".
Definition demo_turn : EventEnvelope :=
  mkEnvelope "01890a5d-ac96-774b-bcce-b302099a8057" "2026-01-01T00:00:00.000000Z" 1 "agent-1" "run-1"
    None "trace-1" (Some (mkScope "acme" "prod" [])) (Some (mkActor 2 "agent-1"))
    (Some (mkVersion "code-1" "prompt-1" "model-1")) (Some []) (Some (mkIntegrity None demo_hash)) 1.
Definition ingest_deps : DomainDeps := {|
  encode_to_vec _ := "envelope";
  encoded_len _ := 8;
  jcs_to_vec _ := Some "json";
  sha256_hex _ := demo_hash;
|}.
Definition ingest_env : EnvelopeDeps := {|
  struct_encode _ := EmptyString;
  envelope_decode s := if String.eqb s "envelope" then Some demo_turn else None;
  sha256_bytes := id;
  uuid_from_millis _ s := s;
|}.
Definition demo_agent : Caller := mkCaller true (Some "svc") (Some "agent-1") {["acme/prod"]}.
Definition demo_no_finding : FindingEnv := mkFindingEnv None None None.
Definition demo_call_env : IngestEnv := mkIngestEnv 7 8 demo_no_finding demo_no_finding.
Definition demo_idem_memory : InMemoryIdempotencyStore :=
  match mem_idem_new 4 with Ok s => s | Err _ => mkMemIdem 4 1 ∅ ∅ end.

Section demo.
#[local] Existing Instances demo_finding_digest demo_publisher_digest demo_publisher_jitter ingest_deps ingest_env.
#[local] Instance no_journal_codec : LineCodec JournalRecord := {| encode_line _ := EmptyString; decode_line _ := None |}.

Definition demo_gateway : IngestGateway InMemoryIdempotencyStore (OutboxedPublisher unit InMemoryOutbox) :=
  with_idempotency_store (outboxed_new tt demo_memory) demo_idem_memory.
Definition demo_traffic : list GatewayOp :=
  [GIngest demo_call_env demo_agent demo_event; GReplay 9; GIngest demo_call_env demo_agent demo_event].

Lemma demo_gateway_coherent : coherent demo_gateway.
Proof.
  split; [|apply demo_publisher_memory_wf|intros k h Hk; unfold g_settled in Hk; cbn in Hk; by rewrite lookup_empty in Hk].
  split; cbn; intros *; rewrite ?lookup_empty; done.
Qed.

Lemma ingest_exactly_once_witness :
  let '(answers, g') := gateway_run demo_sink demo_traffic demo_gateway in
  answers = [Some (Ok Accepted); None; Some (Ok Duplicate)]
  ∧ ∃ e', row_event <$> g_rows g' !! key_of demo_event = Some e'
      ∧ ir_envelope e' = ir_envelope demo_event ∧ (Accepted = Accepted → e' = demo_event).
Proof.
  pose proof (ingest_exactly_once demo_sink demo_traffic demo_gateway demo_gateway_coherent) as Honce.
  assert ((gateway_run demo_sink demo_traffic demo_gateway).1 = [Some (Ok Accepted); None; Some (Ok Duplicate)]) as Ha
    by (vm_compute; reflexivity).
  destruct (gateway_run demo_sink demo_traffic demo_gateway) as [answers g']. cbn in Ha. subst answers.
  split; [done|]. by destruct (Honce 0%nat demo_call_env demo_agent demo_event Accepted eq_refl eq_refl) as (_ & ? & _).
Defined.

(** The same gateway with an alert store, on an envelope it accepts. *)
Lemma alerts_never_decide_witness :
  (ingest_envelope demo_call_env demo_agent demo_turn demo_gateway).1 = Ok false
  ∧ same_stores
      (ingest_envelope demo_call_env demo_agent demo_turn
         (mkIngestGateway (ig_publisher demo_gateway) (ig_idempotency demo_gateway) (Some (AlertMemory demo_store)))).2
      (ingest_envelope demo_call_env demo_agent demo_turn demo_gateway).2.
Proof.
  split; [vm_compute; reflexivity|]. apply (alerts_never_decide demo_call_env demo_call_env); done.
Defined.

(** A publisher that always panics, and a submission that is retried. *)
#[local] Instance panicking : EventPublisher unit := {
  ev_publish _ _ w := (Panicked, w);
  ev_can_reconcile _ := false;
  ev_readiness _ _ _ _ _ _ := Ok tt;
}.
Definition panicking_gateway : IngestGateway InMemoryIdempotencyStore unit := with_idempotency_store tt demo_idem_memory.

Lemma publish_panic_wedges_witness :
  let '(r, g') := ingest demo_call_env demo_agent demo_event panicking_gateway in
  r = Err GInternal
  ∧ (submit_all [(demo_call_env, demo_agent, demo_event)] g').1 = [Err GIdempotencyInProgress]
  ∧ ∀ r', (submit_all [(demo_call_env, demo_agent, demo_event)] g').1 !! 0%nat = Some r' → is_ok r' = false.
Proof.
  pose proof (publish_panic_wedges demo_call_env demo_agent 1 demo_event
    (reserve (idempotency_key demo_event) (payload_fingerprint (ir_envelope demo_event)) demo_idem_memory).2
    panicking_gateway [(demo_call_env, demo_agent, demo_event)] (co_idem _ demo_gateway_coherent) eq_refl eq_refl eq_refl)
    as Hwedge.
  assert ((submit_all [(demo_call_env, demo_agent, demo_event)]
    (ingest demo_call_env demo_agent demo_event panicking_gateway).2).1 = [Err GIdempotencyInProgress]) as Hagain
    by (vm_compute; reflexivity).
  destruct (ingest demo_call_env demo_agent demo_event panicking_gateway) as [r g']. destruct Hwedge as [-> Hall].
  split_and!; [done|exact Hagain|]. intros r' Hr. by apply (Hall 0%nat (demo_call_env, demo_agent, demo_event) r').
Defined.
End demo.
