(* ===== verification/IngestService.v ===== *)
(** * The ingest service

    [apps/event-ingest/src/auth]: [AuthenticatedGrpcService] of [service.rs] with
    the admission ceilings of [admission.rs], the pool scan, the [ingest] call
    and the backlog monitor of [grpc.rs] and [admission.rs], and the readiness
    probe of [admission_readiness.rs].  A call's clock readings, free permits,
    and the pool members other calls hold are its environment.  The gateways of
    the pool share one alert backend, as [startup/service.rs] builds them.  A
    panic of the verifier or of the accelerator is not modelled. *)
From Stdlib Require Import Ascii.
From S2P Require Import Prelude RustStr Digits Time Errors OperatorAuth Ephemeral Caller Verifier Admit Domain Envelope.
From S2P Require Import Journal Outbox Replay Findings FindingJournal Idempotency Publisher Ingest.

Open Scope N_scope.

Definition MAX_ADMISSION_REQUESTS_PER_SECOND : N := 256.
Definition MAX_ADMISSION_BYTES_PER_SECOND : N := 32 * 1024 * 1024.
Definition MAX_ADMISSION_SCOPES : N := 4096.
Definition ADMISSION_BUCKET_RETENTION : N := from_secs 60.
Definition BACKLOG_RE_ALERT_TICKS : N := 20.

(** ** Admission ceilings *)

(** [AdmissionBucket] of [auth/service.rs]. *)
Record IngestBucket := mkIngestBucket {
  ib_window_started : N;
  ib_requests : N;
  ib_bytes : N;
}.
Abbreviation IngestBuckets := (gmap string IngestBucket).

Definition bucket_delimiter : string := String (ascii_of_N 31) EmptyString.

(** The caller's part of a bucket's name. *)
Definition admission_identity (caller : Caller) : string :=
  let identity := match ca_bound_agent_id caller, ca_subject caller with
                  | Some agent, _ => agent
                  | None, Some subject => subject
                  | None, None => "authenticated"
                  end in
  if (str_len identity <=? 256) && str_all is_ascii identity && negb (str_contains bucket_delimiter identity)
  then identity else "__invalid_identity__".

(** The name of a request's bucket: the caller, and the scope the envelope
    claims. *)
Definition admission_scope (caller : Caller) (e : EventEnvelope) : string :=
  match scope e with
  | Some scope =>
      if is_identifier (workspace_id scope) && is_identifier (namespace_id scope)
      then admission_identity caller +:+ bucket_delimiter +:+ workspace_id scope
           +:+ bucket_delimiter +:+ namespace_id scope
      else "__invalid_scope__"
  | None => "__invalid_scope__"
  end.

(** The shared bucket of a request: the workspace the envelope claims. *)
Definition shared_admission_key (e : EventEnvelope) : RateLimitKey :=
  let namespace := match scope e with
                   | Some scope => if is_identifier (workspace_id scope) then workspace_id scope else "unscoped"
                   | None => "unscoped"
                   end in
  mkRateKey namespace "admission".

(** [limits.iter().min_by_key(..)]. *)
Fixpoint oldest_bucket (l : list (string * IngestBucket)) : option (string * IngestBucket) :=
  match l with
  | [] => None
  | (k, b) :: l =>
      match oldest_bucket l with
      | Some (k', b') =>
          if ib_window_started b <=? ib_window_started b' then Some (k, b) else Some (k', b')
      | None => Some (k, b)
      end
  end.

(** The process-local ceiling, under its lock; [now] and [later] are its clock
    readings. *)
Definition admit_local_bucket (scope : string) (bytes now later : N)
    : ST IngestBuckets GatewayErrorCode unit := λ m,
  let m := filter (λ p, later - ib_window_started p.2 < ADMISSION_BUCKET_RETENTION) m in
  let room :=
    if bool_decide (m !! scope = None) && (MAX_ADMISSION_SCOPES <=? map_len m)
    then match oldest_bucket (map_to_list m) with
         | Some (eviction, _) => Some (delete eviction m)
         | None => None
         end
    else Some m in
  match room with
  | None => (Err GRateLimited, m)
  | Some m =>
      let b := default (mkIngestBucket now 0 0) (m !! scope) in
      let b := if from_secs 1 <=? later - ib_window_started b then mkIngestBucket now 0 0 else b in
      if (MAX_ADMISSION_REQUESTS_PER_SECOND <=? ib_requests b)
         || (MAX_ADMISSION_BYTES_PER_SECOND <? sat_add64 (ib_bytes b) bytes)
      then (Err GRateLimited, <[scope := b]> m)
      else (Ok tt, <[scope := mkIngestBucket (ib_window_started b) (ib_requests b + 1)
                                (sat_add64 (ib_bytes b) bytes)]> m)
  end.

(** [admit_request_with_encoded_len]. *)
Definition admit_request {S} `{EphemeralStore S} (env : AdmitEnv) (caller : Caller) (e : EventEnvelope) (bytes : N)
    : ST (option (Mutex S) * Mutex IngestBuckets) GatewayErrorCode unit := λ s,
  let scope := admission_scope caller e in
  let '(decision, store) := shared_decision env (shared_admission_key e) MAX_ADMISSION_REQUESTS_PER_SECOND
                              (from_secs 1) s.1 in
  if from_option (λ d, negb (allowed d)) false decision then (Err GRateLimited, (store, s.2))
  else let '(r, m) := with_mutex GInternal (admit_local_bucket scope bytes (adm_now env) (adm_later env)) s.2 in
       (r, (store, m)).

(** ** The pool *)

(** [try_lock_pool]: the member to use, from a round-robin start; [held] says
    which members other calls hold.  The counter wraps at 64 bits. *)
Definition try_slot {A} (held : nat → bool) (adapters : list (Mutex A)) (index : nat)
    : option (result GatewayErrorCode nat) :=
  match adapters !! index with
  | Some m => if held index then None else if poisoned m then Some (Err GInternal) else Some (Ok index)
  | None => None
  end.
Fixpoint scan_pool {A} (held : nat → bool) (adapters : list (Mutex A)) (start : nat) (offsets : list nat)
    : result GatewayErrorCode nat :=
  match offsets with
  | [] => Err GAdmissionBusy
  | offset :: offsets =>
      match try_slot held adapters ((start + offset) mod length adapters)%nat with
      | Some r => r
      | None => scan_pool held adapters start offsets
      end
  end.
Definition try_lock_pool {A} (held : nat → bool) (adapters : list (Mutex A)) (next_adapter : N)
    : result GatewayErrorCode nat * N :=
  let start := N.to_nat (next_adapter mod len adapters) in
  (scan_pool held adapters start (seq 0 (length adapters)), (next_adapter + 1) mod (u64_max + 1)).

(** ** The backlog monitor *)

Definition backlog_is_breached (depth : N) (oldest_pending_millis : option N) (alert_depth alert_age_millis : N) : bool :=
  (alert_depth <? depth) || from_option (λ age, alert_age_millis <? age) false oldest_pending_millis.

Definition backlog_should_alert (breached was_breached : bool) (ticks_since_last_alert cadence : N) : bool :=
  breached && (negb was_breached || (cadence <=? ticks_since_last_alert)).

(** What the loop of [spawn_backlog_monitor] keeps. *)
Record Monitor := mkMonitor { mo_was_breached : bool; mo_ticks_since_alert : N }.
Definition monitor_start : Monitor := mkMonitor false 0.

(** One turn of the loop: the sample is [None] when the member is busy or fails;
    whether it alerts, and what it keeps. *)
Definition monitor_tick (alert_depth alert_age_millis : N) (sample : option (N * option N)) (m : Monitor)
    : bool * Monitor :=
  match sample with
  | None => (false, m)
  | Some (depth, oldest) =>
      let breached := backlog_is_breached depth oldest alert_depth alert_age_millis in
      let ticks := sat_add64 (mo_ticks_since_alert m) 1 in
      let alert := backlog_should_alert breached (mo_was_breached m) ticks BACKLOG_RE_ALERT_TICKS in
      (alert, mkMonitor breached (if alert then 0 else ticks))
  end.

(** ** The service *)

(** The members of the pool hold a publisher and an idempotency store each. *)
Record IngestService (I W S : Type) := mkService {
  sv_adapters : list (Mutex (I * W));
  sv_next_adapter : N;
  sv_security_store : option SecurityAlertBackend;
  sv_verifier : Verifier S;
  sv_admission_limits : Mutex IngestBuckets;
  sv_ephemeral : option (Mutex S);
}.
Arguments mkService {I W S}.
Arguments sv_adapters {I W S}.
Arguments sv_next_adapter {I W S}.
Arguments sv_security_store {I W S}.
Arguments sv_verifier {I W S}.
Arguments sv_admission_limits {I W S}.
Arguments sv_ephemeral {I W S}.

(** How waiting for a blocking slot ends. *)
Inductive PermitOutcome := PermitGranted | PermitTimeout | PermitClosed.

(** The surroundings of one call. *)
Record RpcEnv := mkRpcEnv {
  re_auth : Env;
  re_admit : AdmitEnv;
  re_permit : PermitOutcome;
  re_held : nat → bool;
  re_finding : FindingEnv;
  re_ingest : IngestEnv;
}.

#[global] Instance Caller_eq_dec : EqDecision Caller.
Proof. solve_decision. Defined.

Section service.
Context {I W S : Type} `{IdempotencyStore I, EventPublisher W, AuthDeps, EphemeralStore S}.
Context `{FindingDigest, PayloadDigest, LineCodec JournalRecord, EnvelopeDeps, DomainDeps}.

Abbreviation Service := (IngestService I W S).

(** Whether the verifier demands a peer certificate. *)
Variable strict : bool.

(** [with_pool], for a pool that is not empty. *)
Definition with_pool (adapters : list (I * W)) (security : option SecurityAlertBackend) (verifier : Verifier S)
    : Service := mkService (map mutex_new adapters) 0 security verifier (mutex_new ∅) None.
Definition with_ephemeral_store (store : S) (s : Service) : Service :=
  mkService (sv_adapters s) (sv_next_adapter s) (sv_security_store s) (sv_verifier s)
    (sv_admission_limits s) (Some (mutex_new store)).

(** [record_security_signal] of the service. *)
Definition service_signal (env : FindingEnv) (signal : SecuritySignal) (e : EventEnvelope) (s : Service) : Service :=
  mkService (sv_adapters s) (sv_next_adapter s) (record_rejected_envelope_signal env signal e <$> sv_security_store s)
    (sv_verifier s) (sv_admission_limits s) (sv_ephemeral s).

Definition set_verifier (v : Verifier S) (s : Service) : Service :=
  mkService (sv_adapters s) (sv_next_adapter s) (sv_security_store s) v (sv_admission_limits s) (sv_ephemeral s).
Definition set_limits (t : option (Mutex S) * Mutex IngestBuckets) (s : Service) : Service :=
  mkService (sv_adapters s) (sv_next_adapter s) (sv_security_store s) (sv_verifier s) t.2 t.1.

(** The blocking task of [ingest]: a member of the pool does the work. *)
Definition ingest_on_pool (env : RpcEnv) (caller : Caller) (e : EventEnvelope) : ST Service GatewayErrorCode bool := λ s,
  let '(slot, next) := try_lock_pool (re_held env) (sv_adapters s) (sv_next_adapter s) in
  let with_adapters adapters security :=
    mkService adapters next security (sv_verifier s) (sv_admission_limits s) (sv_ephemeral s) in
  match slot ≫= λ index, ok_or ((index,.) <$> sv_adapters s !! index) GInternal with
  | Err error => (Err error, with_adapters (sv_adapters s) (sv_security_store s))
  | Ok (index, adapter) =>
      let '(i, w) := guarded adapter in
      let '(r, g) := ingest_envelope (re_ingest env) caller e (mkIngestGateway w i (sv_security_store s)) in
      (r, with_adapters (<[index := mutex_new (ig_idempotency g, ig_publisher g)]> (sv_adapters s))
            (ig_security_store g))
  end.

(** [EventIngest::ingest]; [resolve] is the verifier's resolver, [values] the
    [authorization] headers. *)
Definition service_ingest (resolve : string → option PeerIdentity → result GatewayErrorCode Caller)
    (env : RpcEnv) (values : list string) (peer : option PeerIdentity) (e : EventEnvelope)
    : ST Service GatewayErrorCode bool := λ s,
  if MAX_ENVELOPE_BYTES <? encoded_len e
  then (Err GPayloadTooLarge, service_signal (re_finding env) SigAdmissionAbuse e s)
  else
  match verify_with_peer strict resolve (re_auth env) values peer (sv_verifier s) with
  | (Err error, v) =>
      let s := set_verifier v s in
      (Err error, match error with
                  | GUnauthenticated | GInvalidAuthorization | GRateLimited =>
                      service_signal (re_finding env) SigAuthAbuse e s
                  | _ => s
                  end)
  | (Ok caller, v) =>
      let s := set_verifier v s in
      match admit_request (re_admit env) caller e (encoded_len e) (sv_ephemeral s, sv_admission_limits s) with
      | (Err error, t) =>
          (Err error, service_signal (re_finding env) SigAdmissionAbuse e (set_limits t s))
      | (Ok _, t) =>
          let s := set_limits t s in
          match re_permit env with
          | PermitTimeout => (Err GRateLimited, service_signal (re_finding env) SigAdmissionAbuse e s)
          | PermitClosed => (Err GInternal, s)
          | PermitGranted => ingest_on_pool env caller e s
          end
      end
  end.

(** ** The readiness probe *)

(** [EvidenceAdmissionProbeRequest] and its response. *)
Record ProbeRequest := mkProbe {
  pr_schema_version : N;
  pr_request_nonce : string;
  pr_workspace_id : string;
  pr_namespace_id : string;
  pr_agent_id : string;
}.
Record ProbeResponse := mkProbeResponse {
  po_request_nonce : string;
  po_workspace_id : string;
  po_namespace_id : string;
  po_agent_id : string;
  po_valid_for_us : N;
}.

(** The surroundings of one probe: the slots, the encoded length of the request,
    when it started and what the clock reads at each check of its deadline, what
    the resolver says at each of its two verifications, and what the stores'
    files answer. *)
Record ProbeEnv := mkProbeEnv {
  pe_slot : bool;
  pe_permit : bool;
  pe_encoded_len : N;
  pe_started : N;
  pe_clock : nat → N;
  pe_auth : Env * Env;
  pe_resolve : bool → string → option PeerIdentity → result GatewayErrorCode Caller;
  pe_held : nat → bool;
  pe_io : bool * bool * bool;
  pe_outbox_io : bool * bool * bool;
}.

(** [Instant::now() >= deadline], at the [n]-th check. *)
Definition overdue (env : ProbeEnv) (n : nat) : bool := pe_started env + from_secs 2 <=? pe_clock env n.

Definition probe_error (code : GatewayErrorCode) : GrpcCode :=
  match code with
  | GUnauthenticated => GrpcUnauthenticated
  | GScopeDenied => GrpcPermissionDenied
  | _ => GrpcUnavailable
  end.

(** The pool member's part of [check_peer]. *)
Definition probe_stores (env : ProbeEnv) (caller : Caller) (p : ProbeRequest) : ST Service GrpcCode unit := λ s,
  let '(slot, next) := try_lock_pool (pe_held env) (sv_adapters s) (sv_next_adapter s) in
  let with_adapters adapters :=
    mkService adapters next (sv_security_store s) (sv_verifier s) (sv_admission_limits s) (sv_ephemeral s) in
  match slot ≫= λ index, ok_or ((index,.) <$> sv_adapters s !! index) GInternal with
  | Err _ => (Err GrpcUnavailable, with_adapters (sv_adapters s))
  | Ok (index, adapter) =>
      if overdue env 2 then (Err GrpcUnavailable, with_adapters (sv_adapters s))
      else
        let '(i, w) := guarded adapter in
        let '(r, g) := check_admission_readiness caller (pr_workspace_id p) (pr_namespace_id p) (pr_agent_id p)
                         (pe_io env) (pe_outbox_io env) (mkIngestGateway w i (sv_security_store s)) in
        (map_err probe_error r,
         with_adapters (<[index := mutex_new (ig_idempotency g, ig_publisher g)]> (sv_adapters s)))
  end.

(** One verification of [check_peer]. *)
Definition probe_verify (env : ProbeEnv) (again : bool) (values : list string) (peer : PeerIdentity)
    : ST Service GrpcCode Caller :=
  st_map_err (λ _, GrpcUnauthenticated)
    (st_zoom sv_verifier set_verifier
       (verify_with_peer strict (pe_resolve env again) (if again then (pe_auth env).2 else (pe_auth env).1)
          values (Some peer))).

(** [check_peer]; the last reading of the clock also decides the timeout. *)
Definition check_peer (env : ProbeEnv) (values : list string) (peer : PeerIdentity) (p : ProbeRequest)
    : ST Service GrpcCode ProbeResponse :=
  if negb (pe_slot env) || negb (pe_permit env) then st_throw GrpcUnavailable
  else if (1024 <? pe_encoded_len env) || negb (pr_schema_version p =? 1)
          || negb (str_len (pr_request_nonce p) =? 32) || negb (is_identifier (pr_workspace_id p))
          || negb (is_identifier (pr_namespace_id p)) || negb (is_identifier (pr_agent_id p))
  then st_throw GrpcInvalidArgument
  else if overdue env 0 then st_throw GrpcUnavailable
  else
    caller ← probe_verify env false values peer;
    if overdue env 1 then st_throw GrpcUnavailable
    else
      _ ← probe_stores env caller p;
      if overdue env 3 then st_throw GrpcUnavailable
      else
        again ← probe_verify env true values peer;
        if negb (bool_decide (again = caller)) || overdue env 4 || overdue env 5 then st_throw GrpcUnavailable
        else mret (mkProbeResponse (pr_request_nonce p) (pr_workspace_id p) (pr_namespace_id p)
                     (pr_agent_id p) 10000000).

(** The monitor's alert: recorded through the shared backend. *)
Definition monitor_turn (env : FindingEnv) (entropy : option string) (clock : option N)
    (alert_depth alert_age_millis : N) (sample : option (N * option N)) (t : Monitor * option SecurityAlertBackend)
    : Monitor * option SecurityAlertBackend :=
  let '(alert, m) := monitor_tick alert_depth alert_age_millis sample t.1 in
  (m, match sample with
      | Some (depth, oldest) =>
          if alert then record_backlog_alert env entropy clock depth oldest alert_depth alert_age_millis <$> t.2
          else t.2
      | None => t.2
      end).
End service.
