(* ===== verification/IngestServiceLaws.v ===== *)
(** * What the ingest service guarantees

    The pool scan, the admission ceilings, the backlog monitor, the readiness
    probe and the [ingest] call of IngestService. *)
From S2P Require Import Prelude RustStr Digits Time Errors OperatorAuth Window Ephemeral Caller Verifier Admit Domain.
From S2P Require Import Envelope Journal Outbox OutboxLaws OutboxFile Replay Findings FindingsLaws FindingJournal.
From S2P Require Import Idempotency IdempotencyLaws Publisher Ingest IngestLaws IngestService.

Open Scope N_scope.

(** ** The pool *)

Section pool.
Context {A : Type}.
Implicit Types (adapters : list (Mutex A)).

Lemma scan_pool_found held adapters start offsets index :
  scan_pool held adapters start offsets = Ok index →
  held index = false ∧ ∃ m, adapters !! index = Some m ∧ poisoned m = false.
Proof.
  induction offsets as [|offset offsets IH]; cbn [scan_pool]; [done|]. unfold try_slot.
  set (j := ((start + offset) mod length adapters)%nat).
  destruct (adapters !! j) as [m|] eqn:Hm; [|apply IH]. destruct (held j) eqn:Hh; [apply IH|].
  destruct (poisoned m) eqn:Hp; [done|]. intros [= <-]. eauto.
Qed.

Lemma scan_pool_busy held adapters start offsets offset m :
  (∀ m, m ∈ adapters → poisoned m = false) → offset ∈ offsets →
  adapters !! ((start + offset) mod length adapters)%nat = Some m →
  held ((start + offset) mod length adapters)%nat = false →
  is_ok (scan_pool held adapters start offsets) = true.
Proof.
  intros Hclean Hin Hm Hh. induction offsets as [|o offsets IH]; cbn [scan_pool]; [set_solver|].
  unfold try_slot. apply elem_of_cons in Hin as [<-|Hin].
  - by rewrite Hm, Hh, (Hclean m) by (by eapply list_elem_of_lookup_2).
  - destruct (adapters !! ((start + o) mod _)%nat) as [m'|] eqn:Hm'; [|by apply IH]. destruct (held ((start + o) mod _)%nat); [by apply IH|].
    by rewrite (Hclean m') by (by eapply list_elem_of_lookup_2).
Qed.

(** Every member is tried, from whichever one the scan starts. *)
Lemma offset_of (n start index : nat) :
  (index < n)%nat → (start < n)%nat → ∃ offset, (offset < n)%nat ∧ ((start + offset) mod n)%nat = index.
Proof.
  intros Hi Hs. destruct (decide (start ≤ index)%nat).
  - exists (index - start)%nat. split; [lia|].
    replace (start + (index - start))%nat with index by lia. by apply Nat.mod_small.
  - exists (n + index - start)%nat. split; [lia|].
    replace (start + (n + index - start))%nat with (index + 1 * n)%nat by lia.
    rewrite Nat.Div0.mod_add. by apply Nat.mod_small.
Qed.

(** A request is turned away as busy only when every member of the pool is
    in use.  When no member's lock is poisoned, whatever the round-robin counter
    says, the scan finds a free member if there is one, and answers
    [AdmissionBusy] if there is none; it never indexes outside the pool. *)
Theorem pool_scan_complete (held : nat → bool) (adapters : list (Mutex A)) (next : N) :
  (∀ m, m ∈ adapters → poisoned m = false) → adapters ≠ [] →
  match (try_lock_pool held adapters next).1 with
  | Ok index => held index = false ∧ (index < length adapters)%nat
  | Err error => error = GAdmissionBusy ∧ ∀ index, (index < length adapters)%nat → held index = true
  end.
Proof.
  intros Hclean Hne. unfold try_lock_pool. set (start := N.to_nat (next mod len adapters)).
  assert (start < length adapters)%nat as Hstart.
  { unfold start, len. destruct adapters; [done|]. cbn.
    pose proof (N.mod_lt next (N.of_nat (S (length adapters)))). lia. }
  cbn [fst]. destruct (scan_pool held adapters start _) as [index|error] eqn:Hscan.
  - apply scan_pool_found in Hscan as (? & m & Hm & _). split; [done|]. by eapply lookup_lt_Some.
  - split; cycle 1.
    + intros index Hi. destruct (held index) eqn:Hh; [done|exfalso].
      destruct (offset_of _ start index Hi Hstart) as (offset & Ho & Heq).
      destruct (lookup_lt_is_Some_2 adapters index Hi) as [m Hm].
      assert (is_ok (scan_pool held adapters start (seq 0 (length adapters))) = true) as Hok; [|by rewrite Hscan in Hok].
      apply (scan_pool_busy _ _ _ _ offset m); [done|apply elem_of_seq; lia|by rewrite Heq..].
    + revert Hscan. generalize (seq 0 (length adapters)). intros l. clear Hstart. clearbody start.
      induction l as [|o l IH]; cbn [scan_pool]; [congruence|]. unfold try_slot.
      destruct (adapters !! _) as [m|] eqn:Hm; [|apply IH]. destruct (held _); [apply IH|].
      by rewrite (Hclean m) by (by eapply list_elem_of_lookup_2).
Qed.
End pool.

(** ** The backlog monitor *)

Section monitor.
Variables alert_depth alert_age : N.

Definition breach (sample : N * option N) : bool := backlog_is_breached sample.1 sample.2 alert_depth alert_age.

(** The alerts over a sequence of samples. *)
Fixpoint monitor_run (samples : list (option (N * option N))) (m : Monitor) : list bool :=
  match samples with
  | [] => []
  | sample :: samples => let '(alert, m') := monitor_tick alert_depth alert_age sample m in alert :: monitor_run samples m'
  end.

(** A breach that lasts: its samples, the monitor's counter at its start. *)
Lemma monitor_breach samples m n :
  mo_was_breached m = true → mo_ticks_since_alert m = n → n < BACKLOG_RE_ALERT_TICKS →
  Forall (λ s, breach s = true) samples →
  ∀ i alert, monitor_run (Some <$> samples) m !! i = Some alert →
    alert = bool_decide ((N.of_nat i + n + 1) mod BACKLOG_RE_ALERT_TICKS = 0).
Proof.
  intros Hwas Hn Hlt Hall. revert m n Hwas Hn Hlt.
  induction Hall as [|[depth oldest] samples Hs _ IH]; intros m n Hwas Hn Hlt i alert; [done|].
  cbn [fmap list_fmap monitor_run monitor_tick]. unfold breach in Hs. cbn in Hs. rewrite Hs, Hwas, Hn.
  unfold backlog_should_alert. cbn [andb negb orb].
  assert (sat_add64 n 1 = n + 1) as -> by (unfold sat_add64, u64_max, BACKLOG_RE_ALERT_TICKS in *; lia).
  destruct (N.leb_spec BACKLOG_RE_ALERT_TICKS (n + 1)) as [Hge|Hlt'].
  - assert (n + 1 = BACKLOG_RE_ALERT_TICKS) as Hn1 by lia. destruct i as [|i]; cbn.
    + intros [= <-]. rewrite bool_decide_true; [done|].
      replace (N.of_nat 0 + n + 1) with BACKLOG_RE_ALERT_TICKS by lia. apply N.Div0.mod_same.
    + intros Hi. rewrite (IH (mkMonitor true 0) 0 eq_refl eq_refl eq_refl i alert Hi).
      apply bool_decide_ext. replace (N.of_nat (S i) + n + 1) with (N.of_nat i + 0 + 1 + 1 * BACKLOG_RE_ALERT_TICKS) by lia.
      by rewrite N.Div0.mod_add.
  - destruct i as [|i]; cbn.
    + intros [= <-]. rewrite bool_decide_false; [done|]. rewrite N.mod_small by lia. lia.
    + intros Hi. rewrite (IH (mkMonitor true (n + 1)) (n + 1) eq_refl eq_refl Hlt' i alert Hi).
      apply bool_decide_ext. f_equiv. f_equiv. lia.
Qed.

Definition monitor_after (samples : list (option (N * option N))) (m : Monitor) : Monitor :=
  foldl (λ m sample, (monitor_tick alert_depth alert_age sample m).2) m samples.

Lemma monitor_run_app samples samples' m :
  monitor_run (samples ++ samples') m = monitor_run samples m ++ monitor_run samples' (monitor_after samples m).
Proof.
  revert m. induction samples as [|sample samples IH]; intros m; [done|]. cbn [monitor_run app].
  unfold monitor_after. cbn [foldl]. destruct (monitor_tick alert_depth alert_age sample m) as [alert m']. cbn.
  f_equal. apply IH.
Qed.
Lemma monitor_run_length samples m : length (monitor_run samples m) = length samples.
Proof.
  revert m. induction samples as [|sample samples IH]; intros m; [done|]. cbn [monitor_run].
  destruct (monitor_tick alert_depth alert_age sample m). cbn. by rewrite IH.
Qed.

(** The monitor remembers whether its last sample was in breach. *)
Lemma monitor_after_breached samples :
  mo_was_breached (monitor_after samples monitor_start) = from_option breach false (last (omap id samples)).
Proof.
  induction samples as [|sample samples IH] using rev_ind; [done|]. unfold monitor_after in *.
  rewrite foldl_app, omap_app. cbn. destruct sample as [[depth oldest]|]; cbn; [by rewrite last_snoc|].
  by rewrite app_nil_r.
Qed.

(** A backlog in breach is alerted when the breach begins and every twenty
    samples from then on, and at no other time.  Whatever was sampled before, as
    long as the last sample was not in breach: the [i]-th sample of a breach
    that lasts raises an alert exactly when twenty divides [i], and a sample
    that is not in breach raises none. *)
Theorem backlog_alert_cadence (earlier : list (option (N * option N))) (samples : list (N * option N))
    (calm : N * option N) :
  from_option breach false (last (omap id earlier)) = false → Forall (λ s, breach s = true) samples →
  breach calm = false →
  let alerts := monitor_run (earlier ++ (Some <$> samples) ++ [Some calm]) monitor_start in
  (∀ i, (i < length samples)%nat →
     alerts !! (length earlier + i)%nat = Some (bool_decide (N.of_nat i mod BACKLOG_RE_ALERT_TICKS = 0)))
  ∧ alerts !! (length earlier + length samples)%nat = Some false.
Proof.
  intros Hcalm Hall Hend. cbn. rewrite !monitor_run_app, <- monitor_after_breached in *.
  set (m := monitor_after earlier monitor_start) in *. clearbody m.
  set (rest := monitor_run _ (monitor_after (Some <$> samples) m)).
  assert (rest !! 0%nat = Some false) as Hrest.
  { unfold rest. cbn [monitor_run monitor_tick]. destruct calm as [depth oldest]. unfold breach in Hend. cbn in Hend.
    cbn. by rewrite Hend. }
  clearbody rest. split; cycle 1.
  { rewrite lookup_app_r, monitor_run_length by (rewrite monitor_run_length; lia).
    rewrite lookup_app_r; rewrite monitor_run_length, length_fmap; [|lia].
    by replace (_ - _)%nat with 0%nat by lia. }
  intros i Hi. rewrite lookup_app_r, monitor_run_length by (rewrite monitor_run_length; lia).
  replace (length earlier + i - length earlier)%nat with i by lia.
  rewrite lookup_app_l by (by rewrite monitor_run_length, length_fmap).
  destruct Hall as [|[depth oldest] samples Hs Hall]; [cbn in Hi; lia|].
  unfold breach in Hs. cbn in Hs. cbn [fmap list_fmap monitor_run monitor_tick]. rewrite Hs, Hcalm.
  destruct i as [|i]; [done|]. cbn [backlog_should_alert andb orb negb lookup list_lookup].
  destruct (lookup_lt_is_Some_2 (monitor_run (Some <$> samples) (mkMonitor true 0)) i) as [alert Ha].
  { rewrite monitor_run_length, length_fmap. cbn in Hi. lia. }
  etrans; [exact Ha|]. rewrite (monitor_breach samples (mkMonitor true 0) 0 eq_refl eq_refl eq_refl Hall i alert Ha).
  do 2 f_equal. apply bool_decide_ext. by replace (N.of_nat i + 0 + 1) with (N.of_nat (S i)) by lia.
Qed.
End monitor.

(** ** The admission ceilings *)

(** Starting a window over gives nothing back, and taking [n] uses [n] up. *)
Lemma refresh_spare (window limit t now later : N) (o : option WindowBucket) :
  in_window window t now later →
  window_spare limit t (Some (window_refresh window now later (default (now, 0) o))) ≤ window_spare limit t o.
Proof.
  intros (Hn & Hl & Hw). unfold window_refresh, window_spare. destruct o as [[st c]|]; simpl;
    repeat (match goal with |- context [?a <=? ?b] => destruct (N.leb_spec a b) end; simpl); simpl in *; lia.
Qed.
Lemma take_spare (limit t n : N) (b : WindowBucket) :
  b.2 + n ≤ limit → window_spare limit t (Some (b.1, b.2 + n)) + n ≤ window_spare limit t (Some b).
Proof. intros Hle. unfold window_spare. cbn. destruct (t <=? b.1); lia. Qed.

Section ceiling.
Context {S : Type} `{EphemeralStore S}.

(** A call, and the bucket it counts in. *)
Record AdmissionCall := mkCall { ac_env : AdmitEnv; ac_caller : Caller; ac_envelope : EventEnvelope; ac_bytes : N }.
Definition ac_scope (call : AdmissionCall) : string := admission_scope (ac_caller call) (ac_envelope call).

Abbreviation Ceilings := (option (Mutex S) * Mutex IngestBuckets)%type.

Fixpoint admission_run (calls : list AdmissionCall) (s : Ceilings) : list (result GatewayErrorCode unit) * Ceilings :=
  match calls with
  | [] => ([], s)
  | call :: calls =>
      let '(r, s1) := admit_request (ac_env call) (ac_caller call) (ac_envelope call) (ac_bytes call) s in
      let '(rs, s2) := admission_run calls s1 in (r :: rs, s2)
  end.

(** What a bucket let through: [weight] is one for each request, or its bytes. *)
Fixpoint let_through (weight : AdmissionCall → N) (scope : string) (calls : list AdmissionCall)
    (rs : list (result GatewayErrorCode unit)) : N :=
  match calls, rs with
  | call :: calls, r :: rs =>
      (if bool_decide (ac_scope call = scope) && is_ok r then weight call else 0) + let_through weight scope calls rs
  | _, _ => 0
  end.

(** What a bucket counts, and its ceiling. *)
Inductive Meter := Requests | Bytes.
Definition metered (k : Meter) (b : IngestBucket) : WindowBucket :=
  (ib_window_started b, match k with Requests => ib_requests b | Bytes => ib_bytes b end).
Definition ceiling (k : Meter) : N :=
  match k with Requests => MAX_ADMISSION_REQUESTS_PER_SECOND | Bytes => MAX_ADMISSION_BYTES_PER_SECOND end.
Definition amount (k : Meter) (call : AdmissionCall) : N :=
  match k with Requests => 1 | Bytes => ac_bytes call end.

Lemma local_refresh k now later (o : option IngestBucket) :
  metered k (let b := default (mkIngestBucket now 0 0) o in
             if from_secs 1 <=? later - ib_window_started b then mkIngestBucket now 0 0 else b)
  = window_refresh (from_secs 1) now later (default (now, 0) (metered k <$> o)).
Proof.
  unfold window_refresh. destruct o as [b|]; cbn [default from_option fmap option_fmap option_map metered fst ib_window_started];
    by destruct (_ <=? _), k.
Qed.

Lemma filter_spare k t later scope (m : IngestBuckets) :
  later < t + from_secs 1 →
  window_spare (ceiling k) t
    (metered k <$> filter (λ p : string * IngestBucket, later - ib_window_started p.2 < ADMISSION_BUCKET_RETENTION) m !! scope)
  ≤ window_spare (ceiling k) t (metered k <$> m !! scope).
Proof.
  intros Hl. rewrite map_lookup_filter. destruct (m !! scope) as [b|]; [|done]. cbn [mbind option_bind].
  case_guard as Hg; cbn; [done|]. apply (window_spare_forget _ _ (metered k b)). cbn in *.
  unfold ADMISSION_BUCKET_RETENTION, from_secs in *. lia.
Qed.

Lemma sat_fits (a b limit : N) : sat_add64 a b ≤ limit → (limit <? u64_max) = true → sat_add64 a b = a + b.
Proof. intros Hle Hlt%N.ltb_lt. unfold sat_add64 in *. revert Hle Hlt. generalize u64_max. lia. Qed.

Lemma no_eviction (X : gset string) scope (m : IngestBuckets) :
  dom m ⊆ X → scope ∈ X → N.of_nat (size X) ≤ MAX_ADMISSION_SCOPES →
  bool_decide (m !! scope = None) && (MAX_ADMISSION_SCOPES <=? map_len m) = false.
Proof.
  intros Hdom Hin HX. apply andb_false_iff. destruct (m !! scope) eqn:Hs; [left; by rewrite bool_decide_false|right].
  apply N.leb_gt. apply not_elem_of_dom in Hs. unfold map_len. rewrite <- size_dom.
  assert (size (dom m) < size X)%nat; [|lia]. apply subset_size. split; [done|set_solver].
Qed.

Lemma local_step (k : Meter) (X : gset string) t scope scope' bytes now later (m : IngestBuckets) :
  dom m ⊆ X → scope ∈ X → N.of_nat (size X) ≤ MAX_ADMISSION_SCOPES →
  in_window (from_secs 1) t now later →
  let '(r, m') := admit_local_bucket scope bytes now later m in
  dom m' ⊆ X
  ∧ window_spare (ceiling k) t (metered k <$> m' !! scope')
    + (if bool_decide (scope = scope') && is_ok r then match k with Requests => 1 | Bytes => bytes end else 0)
    ≤ window_spare (ceiling k) t (metered k <$> m !! scope').
Proof.
  intros Hdom Hin HX Hwin. unfold admit_local_bucket.
  set (m1 := filter _ m).
  assert (dom m1 ⊆ X) as Hdom1 by (etrans; [apply dom_filter_subseteq|done]).
  pose proof (filter_spare k t later scope' m (proj2 (proj2 Hwin))) as Hspare. fold m1 in Hspare. clearbody m1.
  rewrite (no_eviction X scope m1 Hdom1 Hin HX). cbv zeta.
  set (b := if from_secs 1 <=? later - _ then mkIngestBucket now 0 0 else _).
  pose proof (local_refresh k now later (m1 !! scope)) as Hb. cbv zeta in Hb. fold b in Hb.
  pose proof (refresh_spare (from_secs 1) (ceiling k) t now later (metered k <$> m1 !! scope) Hwin) as Hr.
  rewrite <- Hb in Hr. clearbody b.
  destruct (N.leb_spec MAX_ADMISSION_REQUESTS_PER_SECOND (ib_requests b)) as [Hreq|Hreq]; cbn [orb]; [|
    destruct (N.ltb_spec MAX_ADMISSION_BYTES_PER_SECOND (sat_add64 (ib_bytes b) bytes)) as [Hby|Hby]].
  1,2: split; [rewrite dom_insert_L; set_solver|]; cbn [is_ok]; rewrite andb_false_r, N.add_0_r;
    (destruct (decide (scope = scope')) as [<-|Hne]; [rewrite lookup_insert_eq; cbn [fmap option_fmap option_map]; lia|by rewrite lookup_insert_ne]).
  split; [rewrite dom_insert_L; set_solver|]. cbn [is_ok]. rewrite andb_true_r.
  destruct (decide (scope = scope')) as [<-|Hne]; cycle 1.
  { rewrite bool_decide_false, lookup_insert_ne by done. lia. }
  rewrite bool_decide_true, lookup_insert_eq by done. cbn [fmap option_fmap option_map].
  pose proof (sat_fits _ _ _ Hby eq_refl) as Hsat. rewrite Hsat in Hby |- *. etrans; [|exact Hspare]. etrans; [|exact Hr].
  destruct k; [apply (take_spare _ _ 1 (metered Requests b))|apply (take_spare _ _ bytes (metered Bytes b))];
    cbn [metered snd ceiling]; [clear -Hreq|exact Hby]. revert Hreq. generalize MAX_ADMISSION_REQUESTS_PER_SECOND. lia.
Qed.

Lemma admit_local_dom (X : gset string) scope bytes now later (m m' : IngestBuckets) r :
  admit_local_bucket scope bytes now later m = (r, m') → dom m ⊆ X → scope ∈ X → dom m' ⊆ X.
Proof.
  unfold admit_local_bucket. set (m1 := filter _ m). intros Hl Hdom Hin.
  assert (dom m1 ⊆ X) as Hdom1 by (etrans; [apply dom_filter_subseteq|done]). clearbody m1.
  destruct (_ && _).
  - destruct (oldest_bucket _) as [[eviction b]|]; cbn zeta in Hl; [|by injection Hl as _ <-].
    destruct (_ || _); injection Hl as _ <-; rewrite dom_insert_L, dom_delete_L; set_solver.
  - cbn zeta in Hl. destruct (_ || _); injection Hl as _ <-; rewrite dom_insert_L; set_solver.
Qed.

(** The accelerator can refuse a call; the local ceiling decides the rest. *)
Lemma admit_request_local call (store : option (Mutex S)) (m : IngestBuckets) :
  let '(r, (_, m')) := admit_request (ac_env call) (ac_caller call) (ac_envelope call) (ac_bytes call)
                         (store, mutex_new m) in
  r = Err GRateLimited ∧ m' = mutex_new m
  ∨ (r, m') = (let '(r, m') := admit_local_bucket (ac_scope call) (ac_bytes call) (adm_now (ac_env call))
                                 (adm_later (ac_env call)) m in (r, mutex_new m')).
Proof.
  unfold admit_request, with_mutex, ac_scope. cbn [fst snd mutex_new poisoned guarded].
  destruct (shared_decision _ _ _ _ _) as [decision store'].
  destruct (from_option (λ d, negb (allowed d)) false decision); [by left|].
  destruct (admit_local_bucket (admission_scope _ _) _ _ _ m) as [r m']. by right.
Qed.

Lemma admission_run_spare (k : Meter) (X : gset string) t scope calls store (m : IngestBuckets) :
  dom m ⊆ X → N.of_nat (size X) ≤ MAX_ADMISSION_SCOPES →
  Forall (λ c, ac_scope c ∈ X ∧ in_window (from_secs 1) t (adm_now (ac_env c)) (adm_later (ac_env c))) calls →
  let_through (amount k) scope calls (admission_run calls (store, mutex_new m)).1
  ≤ window_spare (ceiling k) t (metered k <$> m !! scope).
Proof.
  intros Hdom HX Hall. revert store m Hdom. induction Hall as [|call calls [Hin Hwin] _ IH]; intros store m Hdom.
  { cbn. lia. }
  cbn [admission_run]. pose proof (admit_request_local call store m) as Hloc.
  pose proof (local_step k X t (ac_scope call) scope (ac_bytes call) _ _ m Hdom Hin HX Hwin) as Hstep.
  destruct (admit_request _ _ _ _ _) as [r [store1 m1]]. destruct Hloc as [[-> ->]|Hloc].
  - specialize (IH store1 m Hdom). destruct (admission_run calls _) as [rs s2].
    cbn [fst let_through is_ok] in *. rewrite andb_false_r. lia.
  - destruct (admit_local_bucket _ _ _ _ m) as [r' m1']. injection Hloc as -> ->. destruct Hstep as [Hdom1 Hstep].
    specialize (IH store1 m1' Hdom1). destruct (admission_run calls _) as [rs s2].
    cbn [fst let_through] in *. unfold amount at 1. destruct k; lia.
Qed.

Lemma admission_run_dom (X : gset string) calls store (m : IngestBuckets) :
  dom m ⊆ X → Forall (λ c, ac_scope c ∈ X) calls →
  ∃ store' m', (admission_run calls (store, mutex_new m)).2 = (store', mutex_new m') ∧ dom m' ⊆ X.
Proof.
  intros Hdom Hall. revert store m Hdom. induction Hall as [|call calls Hin _ IH]; intros store m Hdom.
  { by exists store, m. }
  cbn [admission_run]. pose proof (admit_request_local call store m) as Hloc.
  destruct (admit_request _ _ _ _ _) as [r [store1 m1]].
  assert (∃ m1', m1 = mutex_new m1' ∧ dom m1' ⊆ X) as (m1' & -> & Hdom1).
  { destruct Hloc as [[_ ->]|Hloc]; [by exists m|].
    destruct (admit_local_bucket _ _ _ _ m) as [r' m1'] eqn:Hl. injection Hloc as _ ->. exists m1'. split; [done|].
    by eapply admit_local_dom. }
  destruct (IH store1 m1' Hdom1) as (store2 & m2 & Heq & Hm2).
  destruct (admission_run calls _) as [rs s2]. cbn in *. subst. by exists store2, m2.
Qed.

(** One caller cannot flood one scope.  As long as the requests of the
    process name at most 4096 buckets, whatever came before and whatever the
    shared accelerator answers or fails to answer: within any second the
    requests of one bucket - one caller identity and one claimed scope - that are
    let through are at most twice 256, and their bytes at most twice 32 MiB. *)
Theorem ingest_ceiling (k : Meter) (X : gset string) (t : N) (scope : string)
    (earlier recent : list AdmissionCall) (store : option (Mutex S)) :
  N.of_nat (size X) ≤ MAX_ADMISSION_SCOPES → Forall (λ c, ac_scope c ∈ X) (earlier ++ recent) →
  Forall (λ c, in_window (from_secs 1) t (adm_now (ac_env c)) (adm_later (ac_env c))) recent →
  let_through (amount k) scope recent
    (admission_run recent (admission_run earlier (store, mutex_new ∅)).2).1
  ≤ 2 * ceiling k.
Proof.
  intros HX [He Hr]%Forall_app Hwin.
  destruct (admission_run_dom X earlier store ∅) as (store' & m' & -> & Hdom); [set_solver|done|].
  etrans; [|apply window_spare_bound]. apply (admission_run_spare k X); [done..|].
  by apply Forall_and.
Qed.
End ceiling.

(** ** The shared ceiling *)

(** The envelope claims a workspace. *)
Definition claims (workspace : string) (e : EventEnvelope) : Prop :=
  ∃ s, scope e = Some s ∧ workspace_id s = workspace.

(** The calls that reach the accelerator in the second from [t]. *)
Definition reaches (t : N) (workspace : string) (call : AdmissionCall) : Prop :=
  claims workspace (ac_envelope call) ∧ adm_slot (ac_env call) = true
  ∧ t ≤ started_at (adm_shared (ac_env call)) < t + from_secs 1.

(** The accelerator has counted [n] requests of the workspace since [t]. *)
Definition counted (t n : N) (workspace : string) (s : InMemoryEphemeralStore) : Prop :=
  let key := mkRateKey workspace "admission" in
  if n =? 0 then rates s !! key = None ∧ total_keys s < MAX_KEYS
  else ∃ start, rates s !! key = Some (start, n) ∧ t ≤ start.

Lemma counted_step t n workspace call (s : InMemoryEphemeralStore) :
  is_identifier workspace = true → reaches t workspace call → counted t n workspace s →
  let '(d, s') := shared_decision (ac_env call) (shared_admission_key (ac_envelope call))
                    MAX_ADMISSION_REQUESTS_PER_SECOND (from_secs 1) (Some (mutex_new s)) in
  ∃ s1, s' = Some (mutex_new s1)
  ∧ if n <? MAX_ADMISSION_REQUESTS_PER_SECOND then counted t (n + 1) workspace s1
    else counted t n workspace s1 ∧ d = Some (mkDecision false 0).
Proof.
  intros Hid ((sc & Hsc & <-) & Hslot & Hlo & Hhi) Hc. unfold shared_decision, shared_admission_key.
  rewrite Hsc, Hid, Hslot. cbn [negb orb poisoned mutex_new guarded check_rate_limit ephemeral_store].
  unfold ephemeral_check_rate_limit, validate_rate_key. cbn [rk_namespace rk_bucket]. rewrite Hid.
  set (key := mkRateKey (workspace_id sc) "admission") in *.
  change (negb true || negb (is_identifier "admission")) with false. cbn iota.
  change ((MAX_ADMISSION_REQUESTS_PER_SECOND =? 0) || negb (is_ok (window_secs (from_secs 1)))) with false. cbn iota.
  set (now := started_at _) in *. unfold counted in Hc. fold key in Hc.
  destruct (N.eqb_spec n 0) as [->|Hn].
  - destruct Hc as [Hk Htot]. rewrite Hk, bool_decide_true by done.
    rewrite (proj2 (N.leb_gt _ _) Htot). cbn [andb default from_option id fst snd].
    assert ((if from_secs 1 <=? now - now then (now, 0) else (now, 0)) = (now, 0)) as -> by (by destruct (_ <=? _)).
    eexists. split; [done|]. change (0 <? MAX_ADMISSION_REQUESTS_PER_SECOND) with true. cbn iota.
    unfold counted. fold key. cbn. exists now. by rewrite lookup_insert_eq.
  - destruct Hc as (start & Hk & Hst). rewrite Hk, bool_decide_false by done. cbn [andb default from_option id fst snd].
    rewrite (proj2 (N.leb_gt (from_secs 1) (now - start))) by lia. cbn [fst snd].
    rewrite (N.ltb_antisym MAX_ADMISSION_REQUESTS_PER_SECOND n). destruct (N.leb_spec MAX_ADMISSION_REQUESTS_PER_SECOND n) as [Hge|Hlt]; cbn [negb].
    + eexists. split; [done|]. split; [|done]. unfold counted. fold key.
      rewrite (proj2 (N.eqb_neq n 0)) by done. exists start. cbn. by rewrite lookup_insert_eq.
    + eexists. split; [done|]. unfold counted. fold key. rewrite (proj2 (N.eqb_neq (n + 1) 0)) by lia.
      exists start. cbn. by rewrite lookup_insert_eq.
Qed.

Lemma counted_run t n workspace calls (s : InMemoryEphemeralStore) (m : Mutex IngestBuckets) :
  is_identifier workspace = true → Forall (reaches t workspace) calls → counted t n workspace s →
  n ≤ MAX_ADMISSION_REQUESTS_PER_SECOND →
  ∃ s' m', (admission_run calls (Some (mutex_new s), m)).2 = (Some (mutex_new s'), m')
    ∧ counted t (N.min (n + len calls) MAX_ADMISSION_REQUESTS_PER_SECOND) workspace s'.
Proof.
  intros Hid Hall. revert n s m. induction Hall as [|call calls Hcall _ IH]; intros n s m Hc Hn; cbn [admission_run].
  { exists s, m. split; [done|]. unfold len. cbn. by rewrite N.add_0_r, N.min_l. }
  pose proof (counted_step t n workspace call s Hid Hcall Hc) as Hstep. unfold admit_request. cbn [fst snd].
  destruct (shared_decision _ _ _ _ _) as [d s']. destruct Hstep as (s1 & -> & Hstep).
  assert (∃ n1, counted t n1 workspace s1 ∧ n1 ≤ MAX_ADMISSION_REQUESTS_PER_SECOND
    ∧ N.min (n1 + len calls) MAX_ADMISSION_REQUESTS_PER_SECOND
      = N.min (n + len (call :: calls)) MAX_ADMISSION_REQUESTS_PER_SECOND) as (n1 & Hc1 & Hn1 & <-).
  { unfold len. cbn [length]. destruct (N.ltb_spec n MAX_ADMISSION_REQUESTS_PER_SECOND).
    - exists (n + 1). split_and!; [done|lia|f_equal; lia].
    - exists n. split_and!; [apply Hstep|lia|lia]. }
  destruct (from_option (λ d, negb (allowed d)) false d).
  - destruct (IH n1 s1 m Hc1 Hn1) as (s2 & m2 & Heq & Hc2). destruct (admission_run calls _) as [rs t2].
    cbn in *. subst. eauto.
  - destruct (with_mutex _ _ m) as [r m1]. destruct (IH n1 s1 m1 Hc1 Hn1) as (s2 & m2 & Heq & Hc2).
    destruct (admission_run calls _) as [rs t2]. cbn in *. subst. eauto.
Qed.

(** The shared ceiling is one tenant's to spend and another's to run out
    of.  It counts by the workspace an envelope claims, before the caller's
    scopes are looked at: once 256 requests that claim a workspace have reached
    the accelerator within a second, from whichever callers and whether or not
    any of them may write there, every further request for that workspace in
    that second is refused, whoever makes it. *)
Theorem shared_ceiling_crosses_tenants (t : N) (workspace : string) (attack : list AdmissionCall)
    (victim : AdmissionCall) (m : Mutex IngestBuckets) :
  is_identifier workspace = true → Forall (reaches t workspace) (attack ++ [victim]) →
  MAX_ADMISSION_REQUESTS_PER_SECOND ≤ len attack →
  (admit_request (ac_env victim) (ac_caller victim) (ac_envelope victim) (ac_bytes victim)
     (admission_run attack (Some (mutex_new ephemeral_new), m)).2).1 = Err GRateLimited.
Proof.
  intros Hid [Hall [Hv _]%Forall_cons]%Forall_app Hlen.
  destruct (counted_run t 0 workspace attack ephemeral_new m Hid Hall) as (s & m' & -> & Hc); [done|done|].
  rewrite N.add_0_l, N.min_r in Hc by done.
  pose proof (counted_step t _ workspace victim s Hid Hv Hc) as Hstep. unfold admit_request. cbn [fst snd].
  destruct (shared_decision _ _ _ _ _) as [d s']. destruct Hstep as (s1 & -> & Hstep).
  rewrite N.ltb_irrefl in Hstep. by destruct Hstep as [_ ->].
Qed.

(** ** The calls *)

Section calls.
Context {I O P S : Type} `{IdempotencyLaws I, OutboxLaws O, !OutboxAdmin O, AuthDeps, EphemeralStore S}.
Context `{FindingDigest, LineCodec JournalRecord, EnvelopeDeps, DomainDeps}.

Abbreviation Service := (IngestService I (OutboxedPublisher P O) S).
Implicit Types s : Service.

(** The stores of a pool member. *)
Definition member (m : Mutex (I * OutboxedPublisher P O)) : IngestGateway I (OutboxedPublisher P O) :=
  mkIngestGateway (guarded m).2 (guarded m).1 None.
(** Every store of the pool satisfies the invariant its class promises to keep. *)
Definition service_wf s : Prop := Forall (λ m, stores_wf (member m)) (sv_adapters s).

Lemma ingest_envelope_spec env c e (g : IngestGateway I (OutboxedPublisher P O)) r g' :
  stores_wf g → ingest_envelope env c e g = (r, g') →
  ∀ duplicate, r = Ok duplicate → ∃ request,
    from_validated_transport e = Ok request ∧ caller_allows_scope c (ir_scope_key request) = true
    ∧ extends g g' ∧ acknowledged_as (if duplicate then Duplicate else Accepted) request g g'.
Proof.
  intros Hwf. unfold ingest_envelope. destruct (from_validated_transport e) as [request|error];
    [|by intros [= <- <-]].
  destruct (ingest env c request g) as [r1 g1] eqn:Hi. intros [= <- <-].
  destruct (ingest_spec _ _ _ _ _ _ Hwf Hi) as (_ & Hex & _ & Hr).
  intros duplicate Hd. destruct r1 as [outcome|]; [|done]. cbn in Hd. injection Hd as <-.
  destruct Hr as [Hallow Hack]. exists request. split_and!; [done..|]. by destruct outcome.
Qed.

Lemma ingest_on_pool_spec env c e s r s' :
  service_wf s → ingest_on_pool env c e s = (r, s') →
  ∀ duplicate, r = Ok duplicate → ∃ index request m m',
    sv_adapters s !! index = Some m ∧ sv_adapters s' !! index = Some m' ∧ re_held env index = false
    ∧ extends (member m) (member m')
    ∧ from_validated_transport e = Ok request ∧ caller_allows_scope c (ir_scope_key request) = true
    ∧ acknowledged_as (if duplicate then Duplicate else Accepted) request (member m) (member m').
Proof.
  intros Hok. unfold ingest_on_pool.
  destruct (try_lock_pool _ _ _) as [slot next] eqn:Hpool. unfold try_lock_pool in Hpool. injection Hpool as Hslot _.
  destruct slot as [index|error]; cbn; [|by intros [= <- <-]].
  destruct (sv_adapters s !! index) as [m|] eqn:Hm; cbn; [|by intros [= <- <-]].
  destruct (guarded m) as [i w] eqn:Hg.
  set (g := mkIngestGateway w i (sv_security_store s)).
  assert (stores_wf g) as Hwf.
  { pose proof (proj1 (Forall_lookup _ _) Hok index m Hm) as []. unfold member in *. rewrite Hg in *.
    by split. }
  destruct (ingest_envelope (re_ingest env) c e g) as [r1 g1] eqn:Hi. intros [= <- <-].
  intros duplicate Hd.
  destruct (ingest_envelope_spec _ _ _ _ _ _ Hwf Hi duplicate Hd) as (request & Hv & Hallow & Hex & Hack).
  exists index, request, m, (mutex_new (ig_idempotency g1, ig_publisher g1)). cbn.
  rewrite list_lookup_insert_eq by (by eapply lookup_lt_Some).
  pose proof (scan_pool_found _ _ _ _ _ Hslot) as [Hheld _]. unfold member in *. rewrite Hg.
  split_and!; [done..| |done|done|done]. destruct Hex. by split.
Qed.

(** C5. What the service acknowledges is authenticated, admissible, authorized
    and durable.  In a service whose stores are well formed - nothing is assumed
    about whether they agree, so retention may have dropped rows -, an [Ingest]
    call is answered with success only if exactly one bearer token was presented
    and the resolver made a caller of it, the envelope passed the validation of
    admission, and the caller's scopes include the scope the envelope names.  A
    free member of the pool then holds its key as settled, under its
    fingerprint.  If the answer is not a duplicate, the key was neither settled
    nor in the outbox before, and this very request is now a pending row there;
    if it is, the key had been settled with the same fingerprint, or the outbox
    held a completed row with it. *)
Theorem service_acknowledges strict resolve (env : RpcEnv) (values : list string) (peer : option PeerIdentity)
    (e : EventEnvelope) (s : Service) (duplicate : bool) :
  service_wf s → (service_ingest strict resolve env values peer e s).1 = Ok duplicate →
  let s' := (service_ingest strict resolve env values peer e s).2 in
  ∃ value token c index request m m',
    let key := idempotency_key request in
    let fingerprint := payload_fingerprint (ir_envelope request) in
    values = [value] ∧ bearer_value value = Some token ∧ resolve token peer = Ok c
    ∧ from_validated_transport e = Ok request ∧ caller_allows_scope c (ir_scope_key request) = true
    ∧ sv_adapters s !! index = Some m ∧ sv_adapters s' !! index = Some m' ∧ re_held env index = false
    ∧ g_settled (member m') = <[key := fingerprint]> (g_settled (member m))
    ∧ if duplicate
      then g_settled (member m) !! key = Some fingerprint
           ∨ ∃ e0, g_rows (member m) !! key_of request = Some (Complete e0)
               ∧ payload_fingerprint (ir_envelope e0) = fingerprint
      else g_settled (member m) !! key = None ∧ g_rows (member m) !! key_of request = None
           ∧ g_rows (member m') !! key_of request = Some (Pending request).
Proof.
  intros Hok. unfold service_ingest. destruct (MAX_ENVELOPE_BYTES <? encoded_len e); [done|].
  destruct (verify_with_peer strict resolve (re_auth env) values peer (sv_verifier s)) as [[c|error] v] eqn:Hv; [|done].
  destruct (admit_request _ c e _ _) as [[u|error] t]; [|done]. destruct (re_permit env); [|done..].
  set (s1 := set_limits t (set_verifier v s)).
  destruct (ingest_on_pool env c e s1) as [r s2] eqn:Hp. intros Hr. cbn in Hr. subst r. cbn.
  destruct (ingest_on_pool_spec env c e s1 _ _ Hok Hp duplicate eq_refl)
    as (index & request & m & m' & Hm & Hm' & Hheld & _ & Hval & Hallow & Hset & Hrow).
  destruct (verify_sound strict resolve (re_auth env) values peer (sv_verifier s) c) as (value & token & ? & ? & ? & _);
    [by rewrite Hv|]. exists value, token, c, index, request, m, m'. split_and!; try done. by destruct duplicate.
Qed.

(** What a probe may not change. *)
Definition untouched s s' : Prop :=
  guarded <$> sv_adapters s' = guarded <$> sv_adapters s ∧ sv_security_store s' = sv_security_store s
  ∧ sv_admission_limits s' = sv_admission_limits s ∧ sv_ephemeral s' = sv_ephemeral s.

#[local] Instance untouched_preorder : PreOrder untouched.
Proof. unfold untouched. split; [done|]. intros s1 s2 s3 (?&?&?&?) (?&?&?&?). split_and!; congruence. Qed.

Lemma probe_verify_spec strict env again values peer s r s' :
  probe_verify strict env again values peer s = (r, s') →
  untouched s s' ∧ ∀ c, r = Ok c → ∃ value token,
    values = [value] ∧ bearer_value value = Some token ∧ pe_resolve env again token (Some peer) = Ok c.
Proof.
  unfold probe_verify, st_map_err, st_zoom.
  destruct (verify_with_peer _ _ _ _ _ (sv_verifier s)) as [r1 v] eqn:Hv. intros [= <- <-]. split; [done|].
  intros c Hc. destruct r1 as [c1|]; [|done]. injection Hc as ->.
  destruct (verify_sound _ _ _ _ _ _ _ (f_equal fst Hv)) as (value & token & ? & ? & ? & _). by exists value, token.
Qed.

Lemma readiness_spec c w n a io io' (g : IngestGateway I (OutboxedPublisher P O)) r g' :
  check_admission_readiness c w n a io io' g = (r, g') →
  same_stores g' g ∧ (r = Ok tt → ca_bound_agent_id c = Some a ∧ caller_allows_scope c (w +:+ "/" +:+ n) = true).
Proof.
  unfold check_admission_readiness. destruct (_ || _); [by intros [= <- <-]|].
  destruct (ca_bound_agent_id c) as [a'|] eqn:Ha; cycle 1.
  { rewrite (bool_decide_false (None = Some a)) by done. cbn. rewrite !orb_true_r. by intros [= <- <-]. }
  destruct (bool_decide_reflect (Some a' = Some a)) as [[= ->]|]; cbn [negb]; cycle 1.
  { rewrite !orb_true_r. by intros [= <- <-]. }
  destruct (caller_allows_scope c (w +:+ "/" +:+ n)); cbn [negb]; cycle 1.
  { rewrite !orb_true_r. by intros [= <- <-]. }
  destruct (_ || _); [by intros [= <- <-]|]. destruct io as [[m wr] sy].
  pose proof (idem_readiness_law w n m wr sy (ig_idempotency g)) as Hlaw.
  destruct (idem_readiness w n m wr sy (ig_idempotency g)) as [[u|er] i]; cbn in Hlaw; subst i;
    [destruct io' as [[m' wr'] sy']|]; by intros [= <- <-].
Qed.

Lemma probe_stores_spec env c p s r s' :
  probe_stores env c p s = (r, s') →
  untouched s s' ∧ (r = Ok tt → ca_bound_agent_id c = Some (pr_agent_id p)
    ∧ caller_allows_scope c (pr_workspace_id p +:+ "/" +:+ pr_namespace_id p) = true).
Proof.
  unfold probe_stores. destruct (try_lock_pool _ _ _) as [slot next].
  destruct slot as [index|error]; cbn; [|by intros [= <- <-]].
  destruct (sv_adapters s !! index) as [m|] eqn:Hm; cbn; [|by intros [= <- <-]].
  destruct (overdue env 2); [by intros [= <- <-]|]. destruct (guarded m) as [i w] eqn:Hg.
  destruct (check_admission_readiness _ _ _ _ _ _ _) as [r1 g1] eqn:Hr. intros [= <- <-].
  apply readiness_spec in Hr as [[Hw Hi] Hr]. cbn in Hw, Hi. split; [|destruct r1 as [[]|]; [auto|done]].
  split_and!; try done. cbn. rewrite list_fmap_insert. cbn. rewrite Hw, Hi.
  apply list_insert_id. by rewrite list_lookup_fmap, Hm; cbn; rewrite Hg.
Qed.

(** A readiness probe vouches for exactly what it checked, and only looks.
    Whatever a probe answers, the stores of every pool member, the alerts and
    the ceilings are as they were.  A probe that answers "ready" echoes the
    request's nonce and identifiers, was answered within two seconds, and was
    made by a caller that two verifications - before and after the stores were
    asked - resolved to the same identity, bound to the agent and allowed the
    scope it names. *)
Theorem probe_vouches strict (env : ProbeEnv) (values : list string) (peer : PeerIdentity) (p : ProbeRequest) (s : Service) :
  let '(r, s') := check_peer strict env values peer p s in
  untouched s s' ∧ ∀ resp, r = Ok resp →
    po_request_nonce resp = pr_request_nonce p ∧ po_workspace_id resp = pr_workspace_id p
    ∧ po_namespace_id resp = pr_namespace_id p ∧ po_agent_id resp = pr_agent_id p
    ∧ pe_clock env 5 < pe_started env + from_secs 2
    ∧ ∃ token c, pe_resolve env false token (Some peer) = Ok c ∧ pe_resolve env true token (Some peer) = Ok c
        ∧ ca_bound_agent_id c = Some (pr_agent_id p)
        ∧ caller_allows_scope c (pr_workspace_id p +:+ "/" +:+ pr_namespace_id p) = true.
Proof.
  unfold check_peer, mbind, st_bind. destruct (_ || _); [done|]. destruct (_ || _); [done|]. destruct (overdue env 0); [done|].
  destruct (probe_verify strict env false values peer s) as [r1 s1] eqn:Hv1.
  apply probe_verify_spec in Hv1 as [Hu1 Hc1]. destruct r1 as [c|]; [|by split].
  destruct (Hc1 c eq_refl) as (value & token & Hval & Hb & Hres). destruct (overdue env 1); [by split|].
  destruct (probe_stores env c p s1) as [r2 s2] eqn:Hs. apply probe_stores_spec in Hs as [Hu2 Hok].
  assert (untouched s s2) as Hu by (by etrans). destruct r2 as [[]|]; [|by split]. destruct (Hok eq_refl) as [Hbound Hallow].
  destruct (overdue env 3); [by split|].
  destruct (probe_verify strict env true values peer s2) as [r3 s3] eqn:Hv2. apply probe_verify_spec in Hv2 as [Hu3 Hc3].
  assert (untouched s s3) as Hu' by (by etrans). destruct r3 as [c'|]; [|by split].
  destruct (Hc3 c' eq_refl) as (value' & token' & Hval' & Hb' & Hres').
  destruct (bool_decide_reflect (c' = c)) as [->|]; cbn [negb orb]; [|by split]. destruct (overdue env 4); [by split|].
  destruct (overdue env 5) eqn:Hover; [by split|]. cbn. split; [done|]. intros resp [= <-]. cbn. split_and!; [done..| |].
  { unfold overdue in Hover. by apply N.leb_gt. }
  exists token, c. split_and!; try done. congruence.
Qed.
End calls.

(** ** Witnesses *)

(** A pool of three whose member 2 is free, scanned from member 1. *)
Lemma pool_scan_complete_witness :
  (∀ m, m ∈ [mutex_new tt; mutex_new tt; mutex_new tt] → poisoned m = false)
  ∧ (try_lock_pool (λ i, negb (Nat.eqb i 2)) [mutex_new tt; mutex_new tt; mutex_new tt] 7).1 = Ok 2%nat
  ∧ negb (Nat.eqb 2 2) = false.
Proof.
  assert (∀ m, m ∈ [mutex_new tt; mutex_new tt; mutex_new tt] → poisoned m = false) as Hclean by set_solver.
  split_and!; [done|done|].
  exact (proj1 (pool_scan_complete (λ i, negb (Nat.eqb i 2)) [mutex_new tt; mutex_new tt; mutex_new tt] 7 Hclean
    ltac:(done))).
Defined.

(** A backlog that stays twenty-one samples above its depth. *)
Lemma backlog_alert_cadence_witness :
  let alerts := monitor_run 10 60000 ([None; Some (3, None)] ++ (Some <$> replicate 21 (11, Some 5)) ++ [Some (4, None)])
                  monitor_start in
  alerts !! 22%nat = Some true ∧ alerts !! 23%nat = Some false ∧ alerts !! 2%nat = Some true.
Proof.
  cbv zeta. destruct (backlog_alert_cadence 10 60000 [None; Some (3, None)] (replicate 21 (11, Some 5)) (4, None))
    as [Hin Hend]; [done|by apply Forall_replicate|done|].
  split_and!; [exact (Hin 20%nat ltac:(cbn; lia))|exact Hend|exact (Hin 0%nat ltac:(cbn; lia))].
Defined.

Definition demo_admit_env (at_ms : N) : AdmitEnv :=
  mkAdmitEnv (mkReadings (from_millis at_ms) (from_millis at_ms)) true (from_millis at_ms) (from_millis at_ms).
Definition demo_admission (subject : string) (at_ms : N) : AdmissionCall :=
  mkCall (demo_admit_env at_ms) (mkCaller true (Some subject) None ∅) demo_turn 8.

(** Three requests of one bucket in the first second. *)
Lemma ingest_ceiling_witness :
  let calls := [demo_admission "svc" 1; demo_admission "svc" 2; demo_admission "svc" 3] in
  let_through (amount Bytes) (ac_scope (demo_admission "svc" 1)) calls
    (admission_run calls (admission_run [] (None : option (Mutex InMemoryEphemeralStore), mutex_new ∅)).2).1
  ≤ 2 * MAX_ADMISSION_BYTES_PER_SECOND.
Proof.
  cbv zeta. apply (ingest_ceiling Bytes {[ac_scope (demo_admission "svc" 1)]} 0).
  - rewrite size_singleton. done.
  - repeat constructor; by apply elem_of_singleton.
  - repeat (apply Forall_cons; split; [split_and!; by vm_compute|]). apply Forall_nil. done.
Defined.

(** 256 requests of a stranger, and then one of the tenant. *)
Lemma shared_ceiling_crosses_tenants_witness :
  let victim := demo_admission "tenant" 999 in
  (admit_request (ac_env victim) (ac_caller victim) (ac_envelope victim) (ac_bytes victim)
     (admission_run (replicate 256 (demo_admission "stranger" 500)) (Some (mutex_new ephemeral_new), mutex_new ∅)).2).1
  = Err GRateLimited.
Proof.
  cbv zeta. apply (shared_ceiling_crosses_tenants 0 "acme" (replicate 256 (demo_admission "stranger" 500))); [done| |done].
  apply Forall_app. split; [apply Forall_replicate|apply Forall_singleton];
    (split_and!; [eexists; done|done|done..]).
Defined.

Section demo.
#[local] Existing Instances demo_finding_digest demo_publisher_digest ingest_deps ingest_env.
#[local] Instance no_codec : LineCodec JournalRecord := {| encode_line _ := EmptyString; decode_line _ := None |}.
#[local] Instance plain_auth_deps : AuthDeps := {| header_to_str := Some; sha256_digest := id |}.

Definition demo_service : IngestService InMemoryIdempotencyStore (OutboxedPublisher unit InMemoryOutbox) InMemoryEphemeralStore :=
  with_pool [(demo_idem_memory, outboxed_new tt demo_memory)] None (verifier_new None).
Definition demo_resolve (token : string) (peer : option PeerIdentity) : result GatewayErrorCode Caller :=
  if String.eqb token "secret" then Ok demo_agent else Err GUnauthenticated.
Definition demo_rpc : RpcEnv :=
  mkRpcEnv (mkEnv (mkReadings 0 0) true) (demo_admit_env 1) PermitGranted (λ _, false) demo_no_finding demo_call_env.

Lemma service_acknowledges_witness :
  (service_ingest false demo_resolve demo_rpc ["Bearer secret"] None demo_turn demo_service).1 = Ok false
  ∧ let s' := (service_ingest false demo_resolve demo_rpc ["Bearer secret"] None demo_turn demo_service).2 in
    ∃ index m', sv_adapters s' !! index = Some m' ∧ g_rows (member m') !! key_of demo_event ≠ None.
Proof.
  assert (service_wf demo_service) as Hok.
  { apply Forall_singleton. destruct demo_gateway_coherent. by split. }
  assert ((service_ingest false demo_resolve demo_rpc ["Bearer secret"] None demo_turn demo_service).1 = Ok false) as Hr
    by (vm_compute; reflexivity).
  split; [exact Hr|].
  destruct (service_acknowledges false demo_resolve demo_rpc ["Bearer secret"] None demo_turn demo_service false Hok Hr)
    as (value & token & c & index & request & m & m' & _ & _ & _ & Hval & _ & _ & Hm' & _ & _ & _ & _ & Hrow).
  exists index, m'. split; [exact Hm'|]. assert (request = demo_event) as -> by (vm_compute in Hval; by injection Hval as <-).
  intros Hno. by rewrite Hno in Hrow.
Defined.
End demo.
