(* ===== verification/FanoutSafety.v ===== *)
(** * The fanout worker loses nothing

    What the worker of Replay does to the rows of the outbox, for any store that
    meets the contract and any publisher; and what a submission does. *)
From S2P Require Import Prelude RustStr Errors Backend Domain Outbox OutboxLaws Replay.

Open Scope N_scope.

(** ** Submitting *)

Section submit.
Context {O : Type} `{OutboxLaws O}.

(** A command is recorded once.  When a submission succeeds its row is in
    the outbox; submitting again under the same key never changes the outbox
    and succeeds, as a duplicate, exactly when the row carries the same
    envelope (the same fingerprint, once settled); otherwise it is an
    idempotency conflict.  Only for a row that has been withdrawn a store may
    answer that it is a duplicate without comparing the envelopes. *)
Theorem submit_once (now now' : N) (r r' : IngestRequest) (o : O) (out : SubmitOutcome) (b1 : Backend O) :
  outbox_wf o → submit_command now r (single o) = (Ok out, b1) → key_of r' = key_of r →
  ∃ o1 row, b1 = single o1 ∧ outbox_wf o1 ∧ rows o1 !! key_of r = Some row
    ∧ (so_duplicate out = false → row = Pending r ∧ rows o !! key_of r = None)
    ∧ ∃ o2, (submit_command now' r' b1).2 = single o2 ∧ rows o2 = rows o1
        ∧ let answer := (submit_command now' r' b1).1 in
          let conflict := Err (from_gateway_error GIdempotencyConflict) in
          match row with
          | Pending e => answer = if String.eqb (ir_envelope e) (ir_envelope r')
                                  then Ok (mkSubmitOutcome true false) else conflict
          | Quarantined e => answer = Ok (mkSubmitOutcome true false)
                             ∨ answer = conflict ∧ ir_envelope e ≠ ir_envelope r'
          | Complete e => answer = if String.eqb (payload_fingerprint (ir_envelope e))
                                        (payload_fingerprint (ir_envelope r'))
                                   then Ok (mkSubmitOutcome true true) else conflict
          end.
Proof.
  intros Hwf Hs Hk. unfold submit_command in *. rewrite with_lock_single in Hs.
  pose proof (enqueue_law now r o Hwf) as Hlaw. pose proof (enqueue_wf now r o Hwf) as Hwf1.
  destruct (enqueue now r o) as [res o1]. simpl in Hs, Hwf1.
  destruct res as [q|e]; [|done]. simpl in Hs. injection Hs as <- <-.
  assert (∃ row, rows o1 !! key_of r = Some row
          ∧ (so_duplicate (submit_outcome q) = false → row = Pending r ∧ rows o !! key_of r = None))
    as (row & Hrow & Hnew).
  { destruct (rows o !! key_of r) as [[e|e|e]|] eqn:Hr.
    - destruct Hlaw as [-> Hq]. exists (Pending e). split; [done|].
      destruct (String.eqb _ _); [|done]. by injection Hq as ->.
    - destruct Hlaw as [-> [[= ->]|[[=] _]]]. by exists (Quarantined e).
    - destruct Hlaw as [-> Hq]. exists (Complete e). split; [done|].
      destruct (String.eqb _ _); [|done]. by injection Hq as ->.
    - destruct Hlaw as [-> ->]. exists (Pending r). by rewrite lookup_insert_eq. }
  exists o1, row. split_and!; [done..|]. rewrite with_lock_single.
  pose proof (enqueue_law now' r' o1 Hwf1) as Hlaw'. rewrite Hk, Hrow in Hlaw'.
  destruct (enqueue now' r' o1) as [res' o2]. simpl. exists o2. split; [done|].
  destruct row as [e|e|e].
  - destruct Hlaw' as [-> ->]. split; [done|]. by destruct (String.eqb _ _).
  - destruct Hlaw' as [-> [->|[-> Hne]]]; (split; [done|]); auto.
  - destruct Hlaw' as [-> ->]. split; [done|]. by destruct (String.eqb _ _).
Qed.
End submit.

(** ** One cycle *)

(** Some of the rows named by [ks] have been withdrawn, nothing else changed. *)
Definition withdrawn (ks : list OutboxKey) (m m' : gmap OutboxKey Row) : Prop :=
  ∀ k, m' !! k = m !! k ∨ k ∈ ks ∧ m' !! k = withdraw_row <$> m !! k.

Lemma withdrawn_refl ks m : withdrawn ks m m.
Proof. intros k. by left. Qed.

Lemma withdrawn_trans ks m m' m'' : withdrawn ks m m' → withdrawn ks m' m'' → withdrawn ks m m''.
Proof.
  intros H1 H2 k. destruct (H1 k) as [E1|[Hk E1]], (H2 k) as [E2|[Hk' E2]]; rewrite E2, ?E1; auto.
  right. split; [done|]. destruct (m !! k) as [r|]; [|done]. simpl. by rewrite withdraw_row_idemp.
Qed.

Lemma withdrawn_mono ks ks' m m' : (∀ k, k ∈ ks → k ∈ ks') → withdrawn ks m m' → withdrawn ks' m m'.
Proof. intros Hsub H k. destruct (H k) as [?|[? ?]]; auto. Qed.

Section cycle.
Context {O P : Type} `{OutboxLaws O, JitterDigest}.
Variable publish : IngestRequest → P → PublishResult * P.

Lemma publish_all_events (es : list IngestRequest) (p : P) : (publish_all publish es p).1.*1 = es.
Proof.
  revert p. induction es as [|e es IH]; intros p; [done|]. simpl.
  destruct (publish e p) as [r p1]. specialize (IH p1).
  destruct (publish_all publish es p1) as [rs p2]. cbn [fst] in IH |- *. by rewrite <-IH.
Qed.

Lemma elem_of_published (rs : list (IngestRequest * PublishResult)) (k : OutboxKey) :
  k ∈ published_keys rs ↔ ∃ e, (e, Published) ∈ rs ∧ key_of e = k.
Proof.
  unfold published_keys. rewrite list_elem_of_fmap. split.
  - intros ([e r] & -> & [Hr Hin]%list_elem_of_filter). exists e. simpl in *. by destruct r.
  - intros (e & Hin & <-). exists (e, Published). split; [done|]. by apply list_elem_of_filter.
Qed.

Lemma elem_of_failed (rs : list (IngestRequest * PublishResult)) (k : OutboxKey) :
  k ∈ failed_keys rs ↔ ∃ e r, (e, r) ∈ rs ∧ is_published r = false ∧ key_of e = k.
Proof.
  unfold failed_keys. rewrite list_elem_of_fmap. split.
  - intros ([e r] & -> & [Hr Hin]%list_elem_of_filter). by exists e, r.
  - intros (e & r & Hin & Hr & <-). exists (e, r). split; [done|]. by apply list_elem_of_filter.
Qed.

(** The failure loop only names keys it was given. *)
Lemma retry_keys (later : OutboxKey → N) (failed : list OutboxKey) (r : Retry) (ks : list OutboxKey) :
  (∀ d l k, r_groups r !! d = Some l → k ∈ l → k ∈ ks) → (∀ k, k ∈ r_quarantine r → k ∈ ks) →
  (∀ k, k ∈ failed → k ∈ ks) →
  let r' := foldl (retry_one later) r failed in
  (∀ d l k, r_groups r' !! d = Some l → k ∈ l → k ∈ ks) ∧ (∀ k, k ∈ r_quarantine r' → k ∈ ks).
Proof.
  revert r. induction failed as [|k0 failed IH]; intros r Hg Hq Hf; [done|]. simpl.
  apply IH; [..|intros k Hk; apply Hf; by right]; unfold retry_one; case_match; simpl; try done.
  - intros d l k. rewrite lookup_insert_Some. intros [[<- <-]|[_ ?]]; [|by eapply Hg].
    intros [Hk|Hk]%elem_of_app.
    + destruct (r_groups r !! _) eqn:E; [by eapply Hg|]. by apply elem_of_nil in Hk.
    + apply list_elem_of_singleton in Hk as ->. apply Hf. by left.
  - intros k [Hk|Hk]%elem_of_app; [by apply Hq|].
    apply list_elem_of_singleton in Hk as ->. apply Hf. by left.
Qed.

Lemma reschedule_groups_rows (now : N) (groups : list (N * list OutboxKey)) (o : O)
  (m : option Metrics) (ks : list OutboxKey) :
  outbox_wf o → (∀ d l k, (d, l) ∈ groups → k ∈ l → k ∈ ks) →
  ∃ o', (reschedule_groups now groups (single o) m).1 = single o' ∧ outbox_wf o'
        ∧ withdrawn ks (rows o) (rows o').
Proof.
  revert o m. induction groups as [|[d l] groups IH]; intros o m Hwf Hg.
  { exists o. split_and!; [done..|apply withdrawn_refl]. }
  cbn [reschedule_groups]. rewrite with_lock_single.
  destruct (IH (reschedule now l d o).2
              (if is_ok (flatten_lock (Ok (reschedule now l d o).1))
               then m else metrics_write_failed <$> m)) as (o' & Ho' & Hwf' & Hr).
  { by apply reschedule_wf. }
  { intros d' l' k Hin. apply (Hg d'). by right. }
  exists o'. split_and!; [done..|]. eapply withdrawn_trans; [|exact Hr].
  eapply withdrawn_mono; [|exact (reschedule_law now l d o Hwf)]. intros k. apply (Hg d). by left.
Qed.

(** What a cycle may do to one row. *)
Inductive row_step (rs : list (IngestRequest * PublishResult)) : option Row → option Row → Prop :=
  | row_same r : row_step rs r r
  | row_settled e : (e, Published) ∈ rs → row_step rs (Some (Pending e)) (Some (Complete e))
  | row_withdrawn e r : (e, r) ∈ rs → is_published r = false →
      row_step rs (Some (Pending e)) (Some (Quarantined e)).

(** The results of a cycle: each event once, each the pending row of its key. *)
Record cycle_results (m : gmap OutboxKey Row) (rs : list (IngestRequest * PublishResult)) : Prop := {
  cr_nodup : NoDup (key_of <$> rs.*1);
  cr_pending e r : (e, r) ∈ rs → m !! key_of e = Some (Pending e);
}.

Lemma cycle_results_unique m rs e e' r r' :
  cycle_results m rs → (e, r) ∈ rs → (e', r') ∈ rs → key_of e = key_of e' → (e, r) = (e', r').
Proof.
  intros [Hnd _] Hin Hin' Hk. apply list_elem_of_lookup in Hin as [i Hi], Hin' as [j Hj].
  assert (i = j) as ->; [|congruence].
  eapply (NoDup_lookup (key_of <$> rs.*1)); [done|..]; rewrite !list_lookup_fmap.
  - by rewrite Hi.
  - rewrite Hj. simpl. by rewrite Hk.
Qed.

Lemma settled_rows (now : N) (o : O) (rs : list (IngestRequest * PublishResult)) :
  outbox_wf o → cycle_results (rows o) rs →
  ∀ k, rows (mark_complete_many now (published_keys rs) o).2 !! k = rows o !! k
       ∨ ∃ e, (e, Published) ∈ rs ∧ key_of e = k ∧ rows o !! k = Some (Pending e)
           ∧ rows (mark_complete_many now (published_keys rs) o).2 !! k = Some (Complete e).
Proof.
  intros Hwf Hcr k. destruct (mark_some now (published_keys rs) o Hwf k) as [?|[Hk Hr]]; [by left|].
  right. apply elem_of_published in Hk as (e & Hin & <-). exists e. split_and!; [done..| |].
  - by eapply cr_pending.
  - rewrite Hr, (cr_pending _ _ Hcr _ _ Hin). done.
Qed.

(** Settling and then withdrawing failed rows is a step of every row. *)
Lemma steps_of_stages m m1 m2 rs :
  cycle_results m rs →
  (∀ k, m1 !! k = m !! k
        ∨ ∃ e, (e, Published) ∈ rs ∧ key_of e = k ∧ m !! k = Some (Pending e)
            ∧ m1 !! k = Some (Complete e)) →
  withdrawn (failed_keys rs) m1 m2 →
  ∀ k, row_step rs (m !! k) (m2 !! k).
Proof.
  intros Hcr Hm1 Hm2 k. destruct (Hm2 k) as [->|[Hk ->]].
  - destruct (Hm1 k) as [->|(e & ? & _ & -> & ->)]; by constructor.
  - apply elem_of_failed in Hk as (e & r & Hin & Hr & Hk).
    destruct (Hm1 k) as [->|(e' & Hin' & Hk' & _)].
    + pose proof (cr_pending _ _ Hcr _ _ Hin) as Hp. rewrite Hk in Hp. rewrite Hp. by econstructor.
    + assert ((e, r) = (e', Published)) as [= -> ->];
        [eapply cycle_results_unique; [done..|congruence]|done].
Qed.

Lemma batch_results (now now_millis : N) (o : O) (batch : list IngestRequest)
  (P0 : IngestRequest → Prop) `{!∀ e, Decision (P0 e)} (p : P) :
  outbox_wf o → (pending_batch now_millis FANOUT_BATCH_SIZE o).1 = Ok batch →
  cycle_results (rows o) (publish_all publish (filter P0 batch) p).1.
Proof.
  intros Hwf Hb. destruct (batch_law _ _ _ _ Hwf Hb) as (_ & Hnd & Hp).
  split; rewrite ?publish_all_events.
  - eapply sublist_NoDup; [done|]. apply fmap_sublist, sublist_filter.
  - intros e r Hin. apply (list_elem_of_fmap_2 fst) in Hin. rewrite publish_all_events in Hin.
    apply list_elem_of_filter in Hin as [_ Hin]. by apply Hp.
Qed.

Lemma fanout_cycle_steps (now now_millis : N) (later : OutboxKey → N) (shutdown : bool)
  (w : Worker O P) (o : O) :
  w_backend w = single o → outbox_wf o →
  let '(w', rs, _) := fanout_cycle publish now now_millis later shutdown w in
  ∃ o', w_backend w' = single o' ∧ outbox_wf o' ∧ cycle_results (rows o) rs
    ∧ ∀ k, row_step rs (rows o !! k) (rows o' !! k).
Proof.
  intros Hb Hwf. unfold fanout_cycle. rewrite Hb, with_lock_single.
  set (o1 := (pending_batch now_millis FANOUT_BATCH_SIZE o).2).
  assert (outbox_wf o1) as Hwf1 by apply batch_wf, Hwf.
  assert (rows o1 = rows o) as Hr1 by apply batch_rows, Hwf.
  assert (∀ k, row_step [] (rows o !! k) (rows o1 !! k)) as Hsame
    by (intros k; rewrite Hr1; constructor).
  assert (cycle_results (rows o) []) as Hnil by (split; [constructor|by intros ? ? ?%elem_of_nil]).
  destruct (pending_batch now_millis FANOUT_BATCH_SIZE o).1 as [batch|e] eqn:Hbatch; [|by exists o1].
  destruct (filter _ batch) as [|e0 es] eqn:Hf; [by exists o1|]. rewrite <-Hf. clear Hf e0 es.
  pose proof (batch_results now now_millis o batch
    (λ e, default 0 (w_not_before w !! key_of e) ≤ now) (w_publisher w) Hwf Hbatch) as Hcr.
  destruct (publish_all publish (filter _ batch) (w_publisher w)) as [rs p]. cbn [fst] in Hcr.
  assert (∃ o2, match published_keys rs with
                | [] => (true, single o1)
                | _ => settle now_millis (published_keys rs) (single o1)
                end = (true, single o2)
          ∧ outbox_wf o2
          ∧ ∀ k, rows o2 !! k = rows o !! k
              ∨ ∃ e, (e, Published) ∈ rs ∧ key_of e = k ∧ rows o !! k = Some (Pending e)
                   ∧ rows o2 !! k = Some (Complete e)) as (o2 & -> & Hwf2 & Hr2).
  { destruct (published_keys rs) as [|k0 ks] eqn:Hk.
    - exists o1. rewrite Hr1. auto.
    - rewrite <-Hk. unfold settle. rewrite with_lock_single. eexists. split; [done|].
      split; [by apply mark_wf|]. rewrite <-Hr1 in Hcr |- *. by apply settled_rows. }
  destruct (failed_keys rs) as [|k0 ks] eqn:Hfail.
  { exists o2. split_and!; [done..|]. eapply steps_of_stages; [done..|apply withdrawn_refl]. }
  rewrite <-Hfail.
  set (retry := foldl (retry_one later) _ (failed_keys rs)).
  assert ((∀ d l k, r_groups retry !! d = Some l → k ∈ l → k ∈ failed_keys rs)
          ∧ (∀ k, k ∈ r_quarantine retry → k ∈ failed_keys rs)) as [Hg Hq].
  { apply retry_keys; [intros d l k Hd|intros k Hk|done].
    - cbn [r_groups] in Hd. by rewrite lookup_empty in Hd.
    - cbn [r_quarantine] in Hk. by apply elem_of_nil in Hk. }
  destruct (reschedule_groups_rows now_millis (map_to_list (r_groups retry)) o2
    (publish_metrics rs <$> (metrics_read_ok <$> w_metrics w)) (failed_keys rs) Hwf2)
    as (o3 & Ho3 & Hwf3 & Hr3).
  { intros d l k Hd%elem_of_map_to_list. by apply Hg with d. }
  destruct (reschedule_groups _ _ _ _) as [b3 m4] eqn:Hrg in |- *.
  assert (b3 = single o3) as -> by (rewrite <-Ho3; simpl in Hrg |- *; by rewrite Hrg).
  destruct (r_quarantine retry) as [|k1 ks1] eqn:Hquar.
  { exists o3. split_and!; [done..|]. by eapply steps_of_stages. }
  rewrite with_lock_single.
  assert (withdrawn (failed_keys rs) (rows o2) (rows (quarantine now_millis "replay_attempts_exhausted" (k1 :: ks1) o3).2)) as Hr4.
  { eapply withdrawn_trans; [done|]. eapply withdrawn_mono; [exact Hq|].
    exact (quarantine_law _ _ (k1 :: ks1) o3 Hwf3). }
  destruct (is_ok _); eexists (quarantine _ _ (k1 :: ks1) o3).2; split_and!; try done;
    try (by apply quarantine_wf); by eapply steps_of_stages.
Qed.

(** ** Any number of cycles *)

Record CycleInput := mkCycle {
  ci_now : N; ci_millis : N; ci_later : OutboxKey → N; ci_shutdown : bool;
}.

(** The worker after the cycles, and everything it published. *)
Fixpoint fanout_run (w : Worker O P) (l : list CycleInput)
    : Worker O P * list (IngestRequest * PublishResult) :=
  match l with
  | [] => (w, [])
  | c :: l =>
      let '(w1, rs, _) :=
        fanout_cycle publish (ci_now c) (ci_millis c) (ci_later c) (ci_shutdown c) w in
      let '(w2, rs') := fanout_run w1 l in (w2, rs ++ rs')
  end.

Lemma row_step_trans rs rs' r r' r'' :
  row_step rs r r' → row_step rs' r' r'' → row_step (rs ++ rs') r r''.
Proof.
  intros [] Hs; inversion Hs; subst; try (by constructor; apply elem_of_app; auto);
    by econstructor; [apply elem_of_app; eauto|].
Qed.

Lemma fanout_run_steps (w : Worker O P) (l : list CycleInput) (o : O) :
  w_backend w = single o → outbox_wf o →
  ∃ o', w_backend (fanout_run w l).1 = single o' ∧ outbox_wf o'
    ∧ ∀ k, row_step (fanout_run w l).2 (rows o !! k) (rows o' !! k).
Proof.
  revert w o. induction l as [|c l IH]; intros w o Hb Hwf; simpl.
  { exists o. split_and!; [done..|constructor]. }
  pose proof (fanout_cycle_steps (ci_now c) (ci_millis c) (ci_later c) (ci_shutdown c) w o Hb Hwf)
    as Hc.
  destruct (fanout_cycle _ _ _ _ _ w) as [[w1 rs] stop].
  destruct Hc as (o1 & Hb1 & Hwf1 & _ & Hs1). destruct (IH w1 o1 Hb1 Hwf1) as (o2 & Hb2 & Hwf2 & Hs2).
  destruct (fanout_run w1 l) as [w2 rs']. exists o2. split_and!; [done..|].
  intros k. by eapply row_step_trans.
Qed.

(** C32. The worker loses no command.  Over any number of cycles, with any
    publisher, any clock and any store that meets the contract, a row only ever
    moves from pending to complete, and then only if the publisher accepted
    that very event, or from pending to quarantined, and then only if it
    refused it; every other row stays as it was. *)
Theorem fanout_loses_nothing (w : Worker O P) (l : list CycleInput) (o : O) (k : OutboxKey) :
  w_backend w = single o → outbox_wf o →
  ∃ o', w_backend (fanout_run w l).1 = single o'
    ∧ row_step (fanout_run w l).2 (rows o !! k) (rows o' !! k).
Proof. intros Hb Hwf. destruct (fanout_run_steps w l o Hb Hwf) as (o' & ? & _ & ?). eauto. Qed.

(** A publisher that accepts everything. *)
Lemma publish_all_ok (es : list IngestRequest) (p : P) :
  (∀ ev p, (publish ev p).1 = Published) →
  published_keys (publish_all publish es p).1 = map key_of es
  ∧ failed_keys (publish_all publish es p).1 = []
  ∧ ∀ m, storage_healthy (publish_metrics (publish_all publish es p).1 m) = storage_healthy m
       ∧ outbox_write_failures (publish_metrics (publish_all publish es p).1 m)
         = outbox_write_failures m.
Proof.
  intros Hpub. revert p. induction es as [|ev es IH]; intros p; [done|]. simpl.
  specialize (Hpub ev p). destruct (publish ev p) as [r p1]. cbn [fst] in Hpub. subst r.
  specialize (IH p1). destruct (publish_all publish es p1) as [rs p2].
  destruct IH as (IH1 & IH2 & IH3). cbn [fst] in *.
  change (published_keys ((ev, Published) :: rs)) with (key_of ev :: published_keys rs).
  change (failed_keys ((ev, Published) :: rs)) with (failed_keys rs). rewrite IH1, IH2.
  split_and!; [done..|]. intros m0. apply (IH3 (metrics_published m0)).
Qed.

(** A failure to settle goes unnoticed.  When every event of a cycle is
    published but the store then refuses to mark the rows complete, the worker
    carries on as if they were settled: it reports healthy storage and no write
    failure, and schedules no retry. *)
Theorem settle_failure_unnoticed (now now_millis : N) (later : OutboxKey → N) (w : Worker O P)
  (o : O) (batch : list IngestRequest) (m : Metrics) (e : GatewayErrorCode) :
  w_backend w = single o → w_metrics w = Some m → w_not_before w = ∅ →
  (∀ ev p, (publish ev p).1 = Published) →
  (pending_batch now_millis FANOUT_BATCH_SIZE o).1 = Ok batch → batch ≠ [] →
  (mark_complete_many now_millis (map key_of batch)
     (pending_batch now_millis FANOUT_BATCH_SIZE o).2).1 = Err e →
  let w' := (fanout_cycle publish now now_millis later false w).1.1 in
  w_not_before w' = ∅
  ∧ ∃ m', w_metrics w' = Some m' ∧ storage_healthy m' = true
      ∧ outbox_write_failures m' = outbox_write_failures m.
Proof.
  intros Hb Hm Hnb Hpub Hbatch Hne Hmark. unfold fanout_cycle. rewrite Hb, with_lock_single, Hbatch.
  assert (filter (λ e, default 0 (w_not_before w !! key_of e) ≤ now) batch = batch) as Hf.
  { apply filter_all. intros ev _. rewrite Hnb, lookup_empty. simpl. lia. }
  rewrite Hf. destruct batch as [|e0 es] eqn:Hbe; [done|]. rewrite <-Hbe in *.
  pose proof (publish_all_ok batch (w_publisher w) Hpub) as Hall.
  destruct (publish_all publish batch (w_publisher w)) as [rs p].
  destruct Hall as (H1' & H2' & H3'). cbn [fst] in *. rewrite H1', H2'.
  assert (map key_of batch ≠ []) as Hk by (by rewrite Hbe).
  destruct (map key_of batch) as [|k0 ks] eqn:Hkeys; [done|]. unfold settle.
  rewrite with_lock_single. cbn [is_ok]. cbn. split.
  - rewrite Hnb, delete_empty. clear. induction ks as [|k ks IH]; [done|]. simpl. by rewrite delete_empty.
  - rewrite Hm. simpl. eexists. split; [done|]. by rewrite (proj1 (H3' _)), (proj2 (H3' _)).
Qed.
End cycle.

(** ** Concrete workers *)

Section demo.
#[local] Instance demo_digest : PayloadDigest := id.
#[local] Instance demo_jitter : JitterDigest := λ s, str_len s.

Definition demo_event (id env : string) : IngestRequest := mkIngest id "ws" "ns" "ws/ns" env.

Definition demo_memory : InMemoryOutbox :=
  match memory_new 10 with
  | Ok o => (enqueue 1 (demo_event "b" "beta") (enqueue 0 (demo_event "a" "alpha") o).2).2
  | Err _ => mkMemory 0 ∅ ∅ ∅ ∅ ∅ ∅ ∅
  end.

Lemma demo_memory_wf : memory_wf demo_memory.
Proof.
  unfold demo_memory. destruct (memory_new 10) as [o|] eqn:Ho; [|done].
  apply memory_new_wf in Ho as [Hwf _]. by apply memory_enqueue_wf, memory_enqueue_wf.
Qed.

Lemma submit_once_witness :
  (submit_command 3 (demo_event "a" "altered") (single demo_memory)).1
  = Err (from_gateway_error GIdempotencyConflict).
Proof.
  destruct (submit_once 2 3 (demo_event "a" "alpha") (demo_event "a" "altered") demo_memory
              (mkSubmitOutcome true false) (single demo_memory))
    as (o1 & row & Ho1 & _ & Hrow & _ & o2 & _ & _ & Ha);
    [apply demo_memory_wf|vm_compute; reflexivity|reflexivity|].
  apply single_inj in Ho1 as <-. vm_compute in Hrow. apply (inj Some) in Hrow as <-.
  cbn zeta iota in Ha. rewrite Ha. vm_compute. reflexivity.
Defined.

(** A publisher that refuses one event and accepts the others. *)
Definition demo_publish (e : IngestRequest) (p : unit) : PublishResult * unit :=
  (if String.eqb (ir_event_id e) "b" then PublishFailed GPublishFailed else Published, p).

Definition fresh_worker {O P} (o : O) (p : P) : Worker O P :=
  mkWorker (single o) p ∅ ∅ (Some (mkMetrics true true 0 0 0 0 0)) false true.

Definition demo_cycles (n : nat) : list CycleInput :=
  map (λ i, let t := from_secs (100 * N.of_nat i) in mkCycle t (100000 * N.of_nat i) (λ _, t) false)
    (seq 0 n).

Lemma fanout_loses_nothing_witness :
  ∃ o', w_backend (fanout_run demo_publish (fresh_worker demo_memory ()) (demo_cycles 2)).1 = single o'
    ∧ row_step (fanout_run demo_publish (fresh_worker demo_memory ()) (demo_cycles 2)).2
        (rows demo_memory !! mkOutboxKey "ws" "ns" "a") (rows o' !! mkOutboxKey "ws" "ns" "a").
Proof. apply fanout_loses_nothing; [reflexivity|apply demo_memory_wf]. Defined.

(** A store whose settlement always fails. *)
#[local] Instance unsettled_outbox : EventOutbox InMemoryOutbox := {
  enqueue := memory_enqueue;
  mark_complete_many _ _ := λ o, (Err GInternal, o);
  pending_batch := memory_pending_batch;
  pending_reconciliation_batch := memory_pending_reconciliation_batch;
  recent_completed_batch := memory_recent_completed_batch;
  reschedule := memory_reschedule;
  quarantine _ _ := memory_quarantine;
  requeue_quarantined := memory_requeue_quarantined;
}.

Definition accept_all (e : IngestRequest) (p : unit) : PublishResult * unit := (Published, p).

Lemma settle_failure_unnoticed_witness :
  let w' := (@fanout_cycle _ _ unsettled_outbox _ accept_all 0 0 (λ _, 0) false
               (fresh_worker demo_memory ())).1.1 in
  w_not_before w' = ∅
  ∧ ∃ m', w_metrics w' = Some m' ∧ storage_healthy m' = true ∧ outbox_write_failures m' = 0.
Proof.
  pose (batch := match (memory_pending_batch 0 FANOUT_BATCH_SIZE demo_memory).1 with
                 | Ok l => l
                 | Err _ => []
                 end).
  exact (@settle_failure_unnoticed _ _ unsettled_outbox _ accept_all 0 0 (λ _, 0)
    (fresh_worker demo_memory ()) demo_memory batch (mkMetrics true true 0 0 0 0 0) GInternal
    eq_refl eq_refl eq_refl (λ _ _, eq_refl) eq_refl ltac:(vm_compute; discriminate) eq_refl).
Defined.
End demo.
