(* ===== verification/FanoutProgress.v ===== *)
(** * The fanout worker makes progress

    The worker of Replay on the in-memory outbox: a healthy publisher drains the
    backlog, a command is withdrawn only after eight refusals, and retry delays
    are bounded. *)
From S2P Require Import Prelude RustStr Errors Backend Domain Outbox OutboxLaws Replay FanoutSafety.

Open Scope N_scope.

Section progress.
Context {P : Type} `{PayloadDigest, JitterDigest}.
Variable publish : IngestRequest → P → PublishResult * P.

(** ** Draining *)

(** Settling rows that are all pending. *)
Lemma mark_pending_many (now : N) (ks : list OutboxKey) (o : InMemoryOutbox) :
  NoDup ks → (∀ k, k ∈ ks → is_Some (m_pending o !! k)) →
  (memory_mark_complete_many now ks o).1 = Ok tt
  ∧ size (m_pending (memory_mark_complete_many now ks o).2) = (size (m_pending o) - length ks)%nat
  ∧ (m_next_attempt o = ∅ → m_next_attempt (memory_mark_complete_many now ks o).2 = ∅).
Proof.
  intros Hnd. revert o. induction Hnd as [|k ks Hk _ IH]; intros o Hp.
  { simpl. split_and!; [done|lia|done]. }
  cbn [memory_mark_complete_many]. unfold mbind, st_bind, memory_mark_complete.
  destruct (Hp k) as [e He]; [by left|]. rewrite He.
  match goal with |- context [memory_mark_complete_many now ks ?o'] => set (o1 := o') end.
  assert (m_pending o1 = delete k (m_pending o)) as Hp1 by done.
  destruct (IH o1) as (Hok & Hsize & Hnext).
  { intros k' Hk'. rewrite Hp1, lookup_delete_ne by (intros ->; done). apply Hp. by right. }
  split_and!; [done| |].
  - rewrite Hsize, Hp1, map_size_delete, He. simpl. lia.
  - intros Hn. apply Hnext. simpl. rewrite Hn. apply delete_empty.
Qed.

Lemma foldl_delete_empty {V} (ks : list OutboxKey) :
  foldl (λ (m : gmap OutboxKey V) k, delete k m) ∅ ks = ∅.
Proof. induction ks as [|k ks IH]; [done|]. simpl. by rewrite delete_empty. Qed.

(** A worker with nothing deferred, on a store with nothing deferred. *)
Definition undeferred (w : Worker InMemoryOutbox P) (o : InMemoryOutbox) : Prop :=
  w_backend w = single o ∧ memory_wf o ∧ w_not_before w = ∅ ∧ m_next_attempt o = ∅.

Lemma undeferred_batch (now : N) (o : InMemoryOutbox) :
  memory_wf o → m_next_attempt o = ∅ →
  ∃ es, (memory_pending_batch now FANOUT_BATCH_SIZE o).1 = Ok es
    ∧ NoDup (map key_of es) ∧ (∀ k, k ∈ map key_of es → is_Some (m_pending o !! k))
    ∧ length es = Nat.min 256 (size (m_pending o)).
Proof.
  intros Hwf Hn. eexists. split; [done|].
  assert (filter (λ kv : OutboxKey * IngestRequest, default 0 (m_next_attempt o !! kv.1) ≤ now)
            (map_to_list (m_pending o)) = map_to_list (m_pending o)) as Hf.
  { apply filter_all. intros kv _. rewrite Hn, lookup_empty. simpl. lia. }
  split_and!.
  - by apply pending_keys_nodup.
  - intros k (e & -> & (k0 & Hin & _)%batch_elem)%list_elem_of_fmap.
    apply elem_of_map_to_list in Hin. pose proof (mw_pending _ Hwf _ _ Hin) as <-. by eexists.
  - rewrite Hf, length_take, length_fmap, length_map_to_list. done.
Qed.

Lemma drain_cycle (now now_millis : N) (later : OutboxKey → N) (shutdown : bool)
  (w : Worker InMemoryOutbox P) (o : InMemoryOutbox) :
  (∀ ev p, (publish ev p).1 = Published) → undeferred w o →
  ∃ o', undeferred (fanout_cycle publish now now_millis later shutdown w).1.1 o'
    ∧ size (m_pending o') = (size (m_pending o) - 256)%nat.
Proof.
  intros Hpub (Hb & Hwf & Hnb & Hn). unfold fanout_cycle. rewrite Hb, with_lock_single.
  cbn [pending_batch memory_outbox].
  destruct (undeferred_batch now_millis o Hwf Hn) as (es & Hes & Hnd & Hin & Hlen). rewrite Hes.
  change (memory_pending_batch now_millis FANOUT_BATCH_SIZE o).2 with o.
  assert (filter (λ e, default 0 (w_not_before w !! key_of e) ≤ now) es = es) as Hf.
  { apply filter_all. intros ev _. rewrite Hnb, lookup_empty. simpl. lia. }
  rewrite Hf. clear Hf. destruct es as [|e0 es'] eqn:Hcase.
  { exists o. split; [done|]. cbn [length] in Hlen. lia. }
  rewrite <-Hcase in *. pose proof (publish_all_ok publish es (w_publisher w) Hpub) as Hall.
  destruct (publish_all publish es (w_publisher w)) as [rs p]. cbn [fst] in Hall.
  destruct Hall as (-> & -> & _).
  destruct (mark_pending_many now_millis (map key_of es) o Hnd Hin) as (Hok & Hsize & Hnext).
  destruct (map key_of es) as [|k0 ks] eqn:Hkeys; [by subst es|]. rewrite <-Hkeys in *.
  unfold settle. rewrite with_lock_single. cbn [is_ok mark_complete_many memory_outbox].
  exists (memory_mark_complete_many now_millis (map key_of es) o).2. split.
  - split_and!; [done|by apply memory_mark_many_wf| |by apply Hnext].
    cbn. rewrite Hnb. apply foldl_delete_empty.
  - rewrite Hsize, length_map, Hlen. lia.
Qed.

Lemma drain_run (w : Worker InMemoryOutbox P) (o : InMemoryOutbox) (l : list CycleInput) :
  (∀ ev p, (publish ev p).1 = Published) → undeferred w o →
  ∃ o', undeferred (fanout_run publish w l).1 o'
    ∧ size (m_pending o') = (size (m_pending o) - 256 * length l)%nat.
Proof.
  intros Hpub. revert w o. induction l as [|c l IH]; intros w o Hw; simpl.
  { exists o. split; [done|]. lia. }
  destruct (drain_cycle (ci_now c) (ci_millis c) (ci_later c) (ci_shutdown c) w o Hpub Hw)
    as (o1 & Hw1 & Hs1).
  destruct (fanout_cycle _ _ _ _ _ w) as [[w1 rs] stop]. destruct (IH w1 o1 Hw1) as (o2 & Hw2 & Hs2).
  destruct (fanout_run publish w1 l) as [w2 rs']. exists o2. split; [done|]. lia.
Qed.

Lemma cycle_publishes (now now_millis : N) (later : OutboxKey → N) (shutdown : bool)
  (w : Worker InMemoryOutbox P) :
  ∃ es p, (fanout_cycle publish now now_millis later shutdown w).1.2 = (publish_all publish es p).1.
Proof.
  unfold fanout_cycle. destruct (with_lock _ _) as [[[batch|]|] b1]; try (by exists [], (w_publisher w)).
  destruct (filter _ batch) as [|e0 es] eqn:Hf; [by exists [], (w_publisher w)|].
  rewrite <-Hf. exists (filter (λ e, default 0 (w_not_before w !! key_of e) ≤ now) batch), (w_publisher w).
  destruct (publish_all publish (filter _ batch) (w_publisher w)) as [rs p].
  destruct (match published_keys rs with [] => _ | _ => _ end) as [settled b2].
  destruct (if settled then failed_keys rs else _); [done|]. destruct (reschedule_groups _ _ _ _).
  destruct (r_quarantine _); [done|]. destruct (with_lock _ _) as [r b4]. by destruct (is_ok _).
Qed.

Lemma accepted_results (w : Worker InMemoryOutbox P) (l : list CycleInput) (e : IngestRequest)
  (r : PublishResult) :
  (∀ ev p, (publish ev p).1 = Published) → (e, r) ∈ (fanout_run publish w l).2 → r = Published.
Proof.
  intros Hpub. revert w. induction l as [|c l IH]; intros w; simpl; [by intros ?%elem_of_nil|].
  destruct (fanout_cycle _ _ _ _ _ w) as [[w1 rs] stop] eqn:Hc.
  specialize (IH w1). destruct (fanout_run publish w1 l) as [w2 rs'].
  intros [Hin|Hin]%elem_of_app; [|by apply IH]. clear IH.
  assert (∀ es p, (e, r) ∈ (publish_all publish es p).1 → r = Published) as Hall.
  { induction es as [|ev es IHes]; intros p; simpl; [by intros ?%elem_of_nil|].
    specialize (Hpub ev p). destruct (publish ev p) as [r1 p1]. specialize (IHes p1).
    destruct (publish_all publish es p1). intros [Heq|Hin']%elem_of_cons; [|by apply IHes].
    cbn [fst] in Hpub. congruence. }
  destruct (cycle_publishes (ci_now c) (ci_millis c) (ci_later c) (ci_shutdown c) w) as (es & p & Hrs).
  rewrite Hc in Hrs. cbn [fst snd] in Hrs. apply (Hall es p). by rewrite <-Hrs.
Qed.

(** A healthy publisher drains the backlog.  When the publisher accepts
    every event, each cycle settles 256 pending commands, so that a backlog of
    [n] is gone after [n / 256] cycles (rounded up), with every command that
    was pending complete. *)
Theorem backlog_drains (w : Worker InMemoryOutbox P) (o : InMemoryOutbox) (l : list CycleInput) :
  (∀ ev p, (publish ev p).1 = Published) → undeferred w o →
  map_len (m_pending o) ≤ 256 * len l →
  ∃ o', w_backend (fanout_run publish w l).1 = single o' ∧ m_pending o' = ∅
    ∧ ∀ k e, m_pending o !! k = Some e → rows o' !! k = Some (Complete e).
Proof.
  intros Hpub Hw Hlen. destruct (drain_run w o l Hpub Hw) as (o' & (Hb' & Hwf' & _) & Hsize).
  exists o'. assert (m_pending o' = ∅) as Hempty.
  { apply map_size_empty_inv. unfold map_len, len in Hlen. lia. }
  split_and!; [done..|]. intros k e Hk. destruct Hw as (Hb & Hwf & _).
  destruct (@fanout_run_steps _ _ _ _ memory_laws _ publish w l o Hb Hwf) as (o2 & Hb2 & _ & Hs).
  rewrite Hb' in Hb2. apply single_inj in Hb2 as <-. specialize (Hs k).
  cbn [rows memory_laws] in *. rewrite (memory_rows_lookup o), Hk in Hs.
  remember (memory_rows o' !! k) as r' eqn:Hr'.
  inversion Hs as [r Heq1 Heq2|e' Hin|e' r Hin Hr]; subst; try done.
  - rewrite memory_rows_lookup, Hempty, lookup_empty in Heq2. by repeat case_match.
  - by rewrite (accepted_results w l e r Hpub Hin) in Hr.
Qed.

(** ** Withdrawing *)

(** The failed attempts recorded against a key. *)
Definition recorded (m : gmap OutboxKey N) (k : OutboxKey) : N := default 0 (m !! k).

Lemma retry_counts (later : OutboxKey → N) (failed : list OutboxKey) (r : Retry) (k : OutboxKey) :
  NoDup failed →
  let r' := foldl (retry_one later) r failed in
  recorded (r_failures r') k ≤ recorded (r_failures r) k + (if bool_decide (k ∈ failed) then 1 else 0)
  ∧ (k ∈ r_quarantine r' →
     k ∈ r_quarantine r ∨ k ∈ failed ∧ MAX_REPLAY_ATTEMPTS ≤ recorded (r_failures r) k + 1).
Proof.
  intros Hnd. revert r. induction Hnd as [|k0 failed Hk0 _ IH]; intros r; simpl.
  { split; [lia|by left]. }
  destruct (IH (retry_one later r k0)) as [IH1 IH2].
  assert (r_failures (retry_one later r k0)
          = <[k0 := sat_add32 (recorded (r_failures r) k0) 1]> (r_failures r)) as Hf
    by (unfold retry_one, recorded; by destruct (MAX_REPLAY_ATTEMPTS <=? _)).
  assert (r_quarantine (retry_one later r k0) = r_quarantine r
          ∨ r_quarantine (retry_one later r k0) = r_quarantine r ++ [k0]
            ∧ MAX_REPLAY_ATTEMPTS ≤ recorded (r_failures r) k0 + 1) as Hq.
  { unfold retry_one. destruct (N.leb_spec MAX_REPLAY_ATTEMPTS
      (sat_add32 (default 0 (r_failures r !! k0)) 1)); [right|by left]. split; [done|].
    unfold sat_add32, recorded in *. lia. }
  rewrite Hf in IH1, IH2. unfold recorded in *.
  destruct (decide (k = k0)) as [->|Hne].
  - rewrite lookup_insert_eq in IH1, IH2. simpl in IH1, IH2.
    rewrite bool_decide_eq_false_2 in IH1 by done.
    rewrite bool_decide_eq_true_2 by (by left). split; [unfold sat_add32 in IH1; lia|].
    intros Hin. destruct (IH2 Hin) as [Hin'|[? _]]; [|done].
    destruct Hq as [Hq|[Hq Hm]]; rewrite Hq in Hin'; [by left|].
    apply elem_of_app in Hin' as [?|_]; [by left|].
    right. split; [by left|]. done.
  - rewrite lookup_insert_ne in IH1, IH2 by done.
    assert (bool_decide (k ∈ k0 :: failed) = bool_decide (k ∈ failed)) as ->
      by (apply bool_decide_ext; rewrite elem_of_cons; tauto).
    split; [done|]. intros Hin. destruct (IH2 Hin) as [Hin'|[? ?]]; [|right; split; [by right|done]].
    destruct Hq as [Hq|[Hq _]]; rewrite Hq in Hin'; [by left|].
    apply elem_of_app in Hin' as [?|Hin']; [by left|]. by apply list_elem_of_singleton in Hin'.
Qed.

Lemma foldl_delete_recorded (m : gmap OutboxKey N) (ks : list OutboxKey) (k : OutboxKey) :
  recorded (foldl (λ m k, delete k m) m ks) k ≤ recorded m k.
Proof.
  revert m. induction ks as [|k0 ks IH]; intros m; [done|]. simpl. etrans; [apply IH|].
  unfold recorded. destruct (decide (k = k0)) as [->|Hne];
    [rewrite lookup_delete_eq; simpl; lia|by rewrite lookup_delete_ne].
Qed.

(** The in-memory store does not act on a reschedule. *)
Lemma reschedule_groups_memory (now : N) (groups : list (N * list OutboxKey)) (o : InMemoryOutbox)
  (m : option Metrics) : (reschedule_groups now groups (single o) m).1 = single o.
Proof.
  revert m. induction groups as [|[d l] groups IH]; intros m; [done|].
  cbn [reschedule_groups]. rewrite with_lock_single. apply IH.
Qed.

(** How often the publisher refused the event of a key. *)
Definition refusals (rs : list (IngestRequest * PublishResult)) (k : OutboxKey) : N :=
  len (filter (λ k', k' = k) (failed_keys rs)).

Lemma refusals_app rs rs' k : refusals (rs ++ rs') k = refusals rs k + refusals rs' k.
Proof.
  unfold refusals, failed_keys, len. rewrite filter_app, map_app, filter_app, length_app. lia.
Qed.

Lemma refusals_elem rs k : k ∈ failed_keys rs → 1 ≤ refusals rs k.
Proof.
  intros Hin. unfold refusals, len. destruct (filter _ (failed_keys rs)) eqn:Hf; [|simpl; lia].
  assert (k ∈ filter (λ k', k' = k) (failed_keys rs)) as Hk by (by apply list_elem_of_filter).
  rewrite Hf in Hk. by apply elem_of_nil in Hk.
Qed.

Lemma failed_nodup (m : gmap OutboxKey Row) (rs : list (IngestRequest * PublishResult)) :
  cycle_results m rs → NoDup (failed_keys rs).
Proof.
  intros [Hnd _]. unfold failed_keys.
  assert (map (λ er, key_of er.1) rs = key_of <$> rs.*1) as Hmap
    by (by rewrite <-list_fmap_compose).
  rewrite <-Hmap in Hnd. eapply sublist_NoDup; [exact Hnd|].
  apply (fmap_sublist (λ er, key_of er.1)), sublist_filter.
Qed.

(** Whatever the failure loop does, it records at most the refusals of this
    cycle, and lists a key for quarantine only at the eighth. *)
Lemma retry_refusals (later : OutboxKey → N) (rs : list (IngestRequest * PublishResult))
  (m : gmap OutboxKey Row) (failures not_before : gmap OutboxKey N) (ks : list OutboxKey) (k : OutboxKey) :
  cycle_results m rs →
  let retry := foldl (retry_one later)
    (mkRetry (foldl (λ m k, delete k m) failures ks) not_before ∅ []) (failed_keys rs) in
  recorded (r_failures retry) k ≤ recorded failures k + refusals rs k
  ∧ (k ∈ r_quarantine retry → MAX_REPLAY_ATTEMPTS ≤ recorded failures k + refusals rs k).
Proof.
  intros Hcr retry.
  destruct (retry_counts later (failed_keys rs)
    (mkRetry (foldl (λ m k, delete k m) failures ks) not_before ∅ []) k (failed_nodup m rs Hcr))
    as [H1' H2'].
  pose proof (foldl_delete_recorded failures ks k) as Hd. cbn [r_failures r_quarantine] in *.
  fold retry in H1', H2'. split.
  - case_bool_decide as Hk; [pose proof (refusals_elem rs k Hk)|]; lia.
  - intros Hin. destruct (H2' Hin) as [Hnil|[Hk Hm]]; [by apply elem_of_nil in Hnil|].
    pose proof (refusals_elem rs k Hk). lia.
Qed.

(** Settling withdraws nothing. *)
Lemma settle_not_withdrawn (now : N) (ks : list OutboxKey) (o : InMemoryOutbox) (k : OutboxKey)
  (e e' : IngestRequest) :
  memory_wf o → memory_rows o !! k = Some (Pending e) →
  memory_rows (memory_mark_complete_many now ks o).2 !! k ≠ Some (Quarantined e').
Proof.
  intros Hwf Hk. destruct (memory_mark_many_some now ks o Hwf k) as [->|[_ ->]]; by rewrite Hk.
Qed.

Lemma cycle_refusals (now now_millis : N) (later : OutboxKey → N) (shutdown : bool)
  (w : Worker InMemoryOutbox P) (o o' : InMemoryOutbox) (k : OutboxKey) :
  w_backend w = single o → memory_wf o →
  let '(w', rs, _) := fanout_cycle publish now now_millis later shutdown w in
  w_backend w' = single o' →
  recorded (w_failures w') k ≤ recorded (w_failures w) k + refusals rs k
  ∧ ∀ e, memory_rows o !! k = Some (Pending e) → memory_rows o' !! k = Some (Quarantined e) →
      MAX_REPLAY_ATTEMPTS ≤ recorded (w_failures w) k + refusals rs k.
Proof.
  intros Hb Hwf. unfold fanout_cycle. rewrite Hb, with_lock_single.
  change (pending_batch now_millis FANOUT_BATCH_SIZE o).2 with o.
  destruct (pending_batch now_millis FANOUT_BATCH_SIZE o).1 as [batch|] eqn:Hbatch.
  2:{ intros <-%single_inj. split; [simpl; lia|]. intros e0 E1 E2. congruence. }
  pose proof (@batch_results _ _ _ _ memory_laws publish now now_millis o batch
    (λ e, default 0 (w_not_before w !! key_of e) ≤ now) _ (w_publisher w) Hwf Hbatch) as Hcr.
  destruct (filter _ batch) as [|e0 es] eqn:Hf in |- *.
  { intros <-%single_inj. split; [simpl; lia|]. intros e0 E1 E2. congruence. }
  rewrite Hf in Hcr. destruct (publish_all publish (e0 :: es) (w_publisher w)) as [rs p].
  cbn [fst] in Hcr.
  assert (∃ o2, match published_keys rs with
                | [] => (true, single o)
                | _ => settle now_millis (published_keys rs) (single o)
                end = (true, single o2)
          ∧ memory_wf o2
          ∧ ∀ e e', memory_rows o !! k = Some (Pending e) →
              memory_rows o2 !! k ≠ Some (Quarantined e')) as (o2 & -> & Hwf2 & Hr2).
  { destruct (published_keys rs) as [|k0 ks]; [exists o; split_and!; [done..|congruence]|].
    unfold settle. rewrite with_lock_single. eexists. split; [done|].
    split; [by apply memory_mark_many_wf|]. intros. by eapply settle_not_withdrawn. }
  destruct (failed_keys rs) as [|k0 ks] eqn:Hfail.
  { intros <-%single_inj. cbn [w_failures]. split; [|intros e E1 E2; by destruct (Hr2 e e)].
    etrans; [apply foldl_delete_recorded|lia]. }
  rewrite <-Hfail.
  destruct (retry_refusals later rs (rows o) (w_failures w)
    (foldl (λ m k, delete k m) (w_not_before w) (published_keys rs)) (published_keys rs) k Hcr)
    as [Hrec Hq].
  set (retry := foldl (retry_one later) _ (failed_keys rs)) in *.
  pose proof (reschedule_groups_memory now_millis (map_to_list (r_groups retry)) o2
    (publish_metrics rs <$> (metrics_read_ok <$> w_metrics w))) as Hb3.
  destruct (reschedule_groups _ _ _ _) as [b3 m4]. cbn [fst] in Hb3. subst b3.
  destruct (r_quarantine retry) as [|k1 ks1] eqn:Hquar.
  { intros <-%single_inj. cbn [w_failures]. split; [done|intros e E1 E2; by destruct (Hr2 e e)]. }
  rewrite with_lock_single. cbn [quarantine memory_outbox is_ok].
  intros <-%single_inj. cbn [w_failures]. split; [etrans; [apply foldl_delete_recorded|done]|].
  intros e E1. rewrite memory_quarantine_rows by done. case_bool_decide as Hk; [by intros _; apply Hq|].
  intros E2. by destruct (Hr2 e e).
Qed.

(** A command is withdrawn only after eight refusals.  On the in-memory
    outbox, over any number of cycles of a worker that starts with no recorded
    failures, a row that was pending ends up quarantined only if the publisher
    refused its event at least eight times. *)
Theorem withdrawn_after_eight (w : Worker InMemoryOutbox P) (l : list CycleInput)
  (o o' : InMemoryOutbox) (k : OutboxKey) (e : IngestRequest) :
  w_backend w = single o → memory_wf o → w_failures w = ∅ →
  w_backend (fanout_run publish w l).1 = single o' →
  rows o !! k = Some (Pending e) → rows o' !! k = Some (Quarantined e) →
  MAX_REPLAY_ATTEMPTS ≤ refusals (fanout_run publish w l).2 k.
Proof.
  intros Hb Hwf Hf. enough (Hgen : ∀ w o, w_backend w = single o → memory_wf o →
      w_backend (fanout_run publish w l).1 = single o' →
      memory_rows o !! k = Some (Pending e) → memory_rows o' !! k = Some (Quarantined e) →
      MAX_REPLAY_ATTEMPTS ≤ recorded (w_failures w) k + refusals (fanout_run publish w l).2 k).
  { intros Hb' Hp Hq. specialize (Hgen w o Hb Hwf Hb' Hp Hq). rewrite Hf in Hgen.
    unfold recorded in Hgen. rewrite lookup_empty in Hgen. done. }
  clear w o Hb Hwf Hf. induction l as [|c l IH]; intros w o Hb Hwf Hb' Hp Hq.
  { simpl in Hb'. rewrite Hb in Hb'. apply single_inj in Hb' as ->. congruence. }
  simpl in *. pose proof (@fanout_cycle_steps _ _ _ _ memory_laws _ publish (ci_now c) (ci_millis c)
    (ci_later c) (ci_shutdown c) w o Hb Hwf) as Hs.
  pose proof (λ o1, cycle_refusals (ci_now c) (ci_millis c) (ci_later c) (ci_shutdown c) w o o1 k Hb Hwf)
    as Hc.
  destruct (fanout_cycle _ _ _ _ _ w) as [[w1 rs] stop].
  destruct Hs as (o1 & Hb1 & Hwf1 & _ & Hs). specialize (Hc o1 Hb1) as [Hc1 Hc2].
  specialize (Hs k). cbn [rows memory_laws] in Hs. rewrite Hp in Hs.
  specialize (IH w1 o1 Hb1 Hwf1).
  destruct (@fanout_run_steps _ _ _ _ memory_laws _ publish w1 l o1 Hb1 Hwf1) as (o2 & Hb2 & _ & Hs2).
  destruct (fanout_run publish w1 l) as [w2 rs']. cbn [fst snd] in *.
  rewrite Hb' in Hb2. apply single_inj in Hb2 as <-. rewrite refusals_app. specialize (Hs2 k).
  cbn [rows memory_laws] in Hs2. rewrite Hq in Hs2.
  destruct (memory_rows o1 !! k) as [[e1|e1|e1]|] eqn:Hk1; inversion Hs; subst.
  - specialize (IH Hb' eq_refl Hq). lia.
  - specialize (Hc2 _ Hp eq_refl). lia.
  - inversion Hs2.
Qed.
End progress.

(** Retry delays are bounded.  A failed command is retried after 10 to 61
    seconds, whatever the number of attempts, and never sooner after more
    attempts. *)
Theorem retry_delay_bounds `{JitterDigest} (key : OutboxKey) (attempts attempts' : N) :
  (1 ≤ attempts → from_secs 10 ≤ retry_delay key attempts)
  ∧ retry_delay key attempts < from_secs 61
  ∧ (attempts ≤ attempts' → retry_delay key attempts ≤ retry_delay key attempts').
Proof.
  unfold retry_delay. set (j := digest_u16 _ mod 1000).
  assert (j < 1000) as Hj by (by apply N.mod_lt). unfold from_millis, MIN_RETRY_DELAY, MAX_RETRY_DELAY.
  rewrite !N.shiftl_1_l.
  assert (∀ n, 2 ^ N.min n 4 ≤ 16) as Hmax
    by (intros n; change 16 with (2 ^ 4); apply N.pow_le_mono_r; lia).
  unfold from_secs. split_and!.
  - intros Ha. assert (2 ^ 1 ≤ 2 ^ N.min attempts 4) by (apply N.pow_le_mono_r; lia). lia.
  - lia.
  - intros Ha. assert (2 ^ N.min attempts 4 ≤ 2 ^ N.min attempts' 4) by (apply N.pow_le_mono_r; lia).
    lia.
Qed.

(** ** Concrete runs *)

Section progress_demo.
#[local] Existing Instance demo_digest.
#[local] Existing Instance demo_jitter.

Lemma backlog_drains_witness :
  ∃ o', w_backend (fanout_run accept_all (fresh_worker demo_memory ()) (demo_cycles 1)).1 = single o'
    ∧ m_pending o' = ∅
    ∧ ∀ k e, m_pending demo_memory !! k = Some e → rows o' !! k = Some (Complete e).
Proof.
  apply (backlog_drains accept_all).
  - intros ev p. reflexivity.
  - split; [reflexivity|]. split; [apply demo_memory_wf|]. split; reflexivity.
  - vm_compute. discriminate.
Defined.

(** Eight cycles a hundred seconds apart: the refused command is withdrawn. *)
Lemma withdrawn_after_eight_witness :
  MAX_REPLAY_ATTEMPTS
  ≤ refusals (fanout_run demo_publish (fresh_worker demo_memory ()) (demo_cycles 8)).2
      (mkOutboxKey "ws" "ns" "b").
Proof.
  pose (o' := match w_backend (fanout_run demo_publish (fresh_worker demo_memory ()) (demo_cycles 8)).1
              with
              | Single m => guarded m
              | Pool _ _ => demo_memory
              end).
  apply (withdrawn_after_eight demo_publish (fresh_worker demo_memory ()) (demo_cycles 8) demo_memory o'
    (mkOutboxKey "ws" "ns" "b") (demo_event "b" "beta"));
    [reflexivity|apply demo_memory_wf|reflexivity|vm_compute; reflexivity..].
Defined.
End progress_demo.
