(* ===== verification/InboxWf.v ===== *)
(** * The inbox invariant

    What the fields of [InboxState] promise one another, and that every
    operation of [inbox/state.rs] keeps the promise: one live record per
    identity, the per-scope counters equal to the number of tracked commands
    of the scope, both ceilings respected, and sequence numbers that follow
    the insertion order. *)
From S2P Require Import Prelude RustStr Errors Inbox.

Open Scope N_scope.

(** ** The invariant *)

(** The identities an inbox tracks: live entries and tombstones. *)
Definition tracked (s : InboxState) : gset InboxKey := dom (entries s) ∪ dom (retired s).

(** How many of them belong to one scope. *)
Definition scope_share (s : InboxState) (sc : Scope) : N :=
  N.of_nat (size (filter (λ k, key_scope k = sc) (tracked s))).

(** The sequence numbers of the live entries, in insertion order. *)
Definition live_sequences (m : gmap InboxKey Entry) (keys : list InboxKey) : list N :=
  omap (λ k, en_sequence <$> m !! k) keys.

Record entry_ok (k : InboxKey) (e : Entry) : Prop := {
  eo_key : key_of (en_command e) = k;
  eo_attempts : en_attempts e ≤ u32_max;
  eo_delivered : en_attempts e = 0 ↔ en_last_delivered e = None;
  eo_acknowledged : en_acknowledged e = true → 0 < en_attempts e;
  eo_cancelled : en_cancelled e = true → en_attempts e = 0;
  eo_cancelled_at : en_cancelled e = true ↔ is_Some (en_cancelled_at e);
}.

Record inbox_wf (s : InboxState) : Prop := {
  wf_entries : map_Forall entry_ok (entries s);
  wf_order_nodup : NoDup (order s);
  wf_order_live : ∀ k, is_Some (entries s !! k) → k ∈ order s;
  wf_disjoint : dom (entries s) ## dom (retired s);
  wf_counts : ∀ sc, default 0 (scope_counts s !! sc) = scope_share s sc;
  wf_counts_pos : ∀ sc, scope_counts s !! sc ≠ Some 0;
  wf_capacity_width : capacity s ≤ u64_max;
  wf_capacity : N.of_nat (size (tracked s)) ≤ capacity s;
  wf_quota : ∀ sc, scope_share s sc ≤ scope_quota s;
  wf_next : 1 ≤ next_sequence s ≤ u64_max;
  wf_sequences : next_sequence s < u64_max →
    StronglySorted N.lt (live_sequences (entries s) (order s)) ∧
    Forall (λ q, 1 ≤ q < next_sequence s) (live_sequences (entries s) (order s));
}.

(** ** Shared lemmas *)

Lemma tracked_size s :
  dom (entries s) ## dom (retired s) →
  N.of_nat (size (tracked s)) = map_len (entries s) + map_len (retired s).
Proof.
  intros Hd. unfold tracked, map_len.
  rewrite size_union by done. rewrite !size_dom. lia.
Qed.

Lemma elem_of_tracked s k :
  k ∈ tracked s ↔ is_Some (entries s !! k) ∨ is_Some (retired s !! k).
Proof. unfold tracked. by rewrite elem_of_union, !elem_of_dom. Qed.

Lemma live_sequences_elem m keys q :
  q ∈ live_sequences m keys ↔ ∃ k e, k ∈ keys ∧ m !! k = Some e ∧ en_sequence e = q.
Proof.
  unfold live_sequences. rewrite list_elem_of_omap. split.
  - intros (k & Hk & (e & He & ->)%fmap_Some). eauto 10.
  - intros (k & e & Hk & He & <-). exists k. by rewrite He.
Qed.

Lemma live_sequences_ext m m' keys :
  (∀ k, k ∈ keys → en_sequence <$> m !! k = en_sequence <$> m' !! k) →
  live_sequences m keys = live_sequences m' keys.
Proof.
  unfold live_sequences. induction keys as [|k keys IH]; intros H; [done|].
  csimpl. rewrite (H k) by left. rewrite IH; [done|].
  intros k' Hk'. apply H. by right.
Qed.

Lemma live_sequences_app m keys keys' :
  live_sequences m (keys ++ keys') = live_sequences m keys ++ live_sequences m keys'.
Proof. unfold live_sequences. apply omap_app. Qed.

(** Dropping identities that are not live changes nothing. *)
Lemma live_sequences_filter m keys (P : InboxKey → Prop) `{∀ k, Decision (P k)} :
  (∀ k, k ∈ keys → is_Some (m !! k) → P k) →
  live_sequences m (filter P keys) = live_sequences m keys.
Proof.
  unfold live_sequences. induction keys as [|k keys IH]; intros HP; [done|].
  rewrite filter_cons. case_decide as Hk; csimpl.
  - rewrite IH; [done|]. intros ???. apply HP; [by right|done].
  - rewrite IH by (intros ???; apply HP; [by right|done]).
    destruct (m !! k) eqn:E; [|done]. destruct Hk. apply HP; [left|eauto].
Qed.

(** Removing a live identity leaves a sublist. *)
Lemma live_sequences_delete m keys k :
  live_sequences (delete k m) keys `sublist_of` live_sequences m keys.
Proof.
  unfold live_sequences. induction keys as [|k' keys IH]; csimpl; [done|].
  destruct (decide (k = k')) as [->|Hne].
  - rewrite lookup_delete_eq. simpl. destruct (m !! k'); simpl; [by constructor|done].
  - rewrite lookup_delete_ne by done. destruct (m !! k'); simpl; [by constructor|done].
Qed.

(** ** Updating one live entry

    Delivery, acknowledgement and cancellation all replace one entry by
    another for the same command and sequence. *)
Lemma update_entry_wf s k e e' :
  inbox_wf s → entries s !! k = Some e → entry_ok k e' → en_sequence e' = en_sequence e →
  inbox_wf (set_entries (<[k := e']> (entries s)) s).
Proof.
  intros [] He Hok Hseq.
  assert (Hdom : dom (<[k := e']> (entries s)) = dom (entries s)).
  { apply dom_insert_lookup_L. eauto. }
  assert (Ht : tracked (set_entries (<[k := e']> (entries s)) s) = tracked s).
  { unfold tracked; simpl. by rewrite Hdom. }
  assert (Hlive : live_sequences (<[k := e']> (entries s)) (order s)
                  = live_sequences (entries s) (order s)).
  { apply live_sequences_ext. intros k' _. rewrite lookup_insert. case_decide as Hk; [|done].
    subst. by rewrite He; simpl; rewrite Hseq. }
  split; simpl; try done.
  - by apply map_Forall_insert_2.
  - intros k'. rewrite lookup_insert. case_decide as Hk; [subst|]; eauto.
  - by rewrite Hdom.
  - intros sc. unfold scope_share. rewrite Ht. apply wf_counts0.
  - by rewrite Ht.
  - intros sc. unfold scope_share. rewrite Ht. apply wf_quota0.
  - intros Hn. rewrite Hlive. auto.
Qed.

Lemma inbox_new_wf cap quota : cap ≤ u64_max → inbox_wf (inbox_new cap quota).
Proof.
  intros Hcap. split; simpl; try done.
  - constructor.
  - intros k [? Hk]. by rewrite lookup_empty in Hk.
  - apply N.le_0_l.
  - intros sc. apply N.le_0_l.
  - intros _. split; constructor.
Qed.

(** ** Recording *)

Lemma check_recordable_fresh s c :
  check_recordable s c = Ok None →
  entries s !! key_of c = None ∧ retired s !! key_of c = None ∧
  sat_add64 (map_len (entries s)) (map_len (retired s)) < capacity s ∧
  default 0 (scope_counts s !! scope_of c) < scope_quota s.
Proof.
  unfold check_recordable. intros H. repeat case_match; simplify_eq. breflect.
  rewrite !eq_None_not_Some. auto.
Qed.

Lemma insert_recorded_tracked s c :
  tracked (insert_recorded s c) = {[key_of c]} ∪ tracked s.
Proof. unfold tracked. simpl. rewrite dom_insert_L. by rewrite union_assoc_L. Qed.

Lemma key_scope_key_of c : key_scope (key_of c) = scope_of c.
Proof. done. Qed.

(** A fresh identity adds one to the share of its own scope only. *)
Lemma insert_recorded_share s c sc :
  key_of c ∉ tracked s →
  scope_share (insert_recorded s c) sc
  = scope_share s sc + (if decide (scope_of c = sc) then 1 else 0).
Proof.
  intros Hk. unfold scope_share. rewrite insert_recorded_tracked, gset_filter_union.
  case_decide as Hsc.
  - rewrite gset_filter_singleton_True by done. rewrite size_union, size_singleton; [lia|].
    intros k. rewrite elem_of_singleton, elem_of_filter. by intros -> [_ ?].
  - rewrite gset_filter_singleton_False by done. rewrite union_empty_l_L. lia.
Qed.

Lemma insert_recorded_sequences s c :
  inbox_wf s → entries s !! key_of c = None →
  live_sequences (entries (insert_recorded s c)) (order (insert_recorded s c))
  = live_sequences (entries s) (order s) ++ [next_sequence s].
Proof.
  intros Hwf Hk. simpl. rewrite live_sequences_app. f_equal.
  - rewrite <- (live_sequences_filter (entries s) (order s) (λ k, k ≠ key_of c)).
    + apply live_sequences_ext. intros k [Hne _]%list_elem_of_filter.
      by rewrite lookup_insert_ne by done.
    + intros k _ [e He] ->. congruence.
  - unfold live_sequences. csimpl. by rewrite lookup_insert_eq.
Qed.

Lemma insert_recorded_wf s c :
  inbox_wf s → check_recordable s c = Ok None → inbox_wf (insert_recorded s c).
Proof.
  intros Hwf (He & Hr & Hcap & Hq)%check_recordable_fresh.
  assert (Hk : key_of c ∉ tracked s).
  { rewrite elem_of_tracked, He, Hr. by intros [[]|[]]. }
  pose proof (insert_recorded_sequences s c Hwf He) as Hseq.
  pose proof (insert_recorded_share s c) as Hshare.
  pose proof (insert_recorded_tracked s c) as Htr.
  pose proof Hwf as [].
  split; try done.
  - simpl. apply map_Forall_insert_2; [|done]. by split; simpl.
  - simpl. apply NoDup_app. split_and!; [by apply NoDup_filter| |apply NoDup_singleton].
    intros k [Hne _]%list_elem_of_filter. by rewrite list_elem_of_singleton.
  - simpl. intros k. rewrite elem_of_app, list_elem_of_filter, list_elem_of_singleton.
    destruct (decide (k = key_of c)) as [->|Hne]; [by right|].
    rewrite lookup_insert_ne by done. left. split; [done|auto].
  - simpl. rewrite dom_insert_L. apply not_elem_of_dom in Hr.
    apply disjoint_union_l. split; [by apply disjoint_singleton_l|done].
  - intros sc. rewrite Hshare by done. simpl. rewrite lookup_insert.
    case_decide as Hsc; [|by rewrite wf_counts0, N.add_0_r].
    subst. by rewrite <- wf_counts0.
  - intros sc. simpl. rewrite lookup_insert. case_decide; [|done]. intros [=]. lia.
  - rewrite Htr, size_union, size_singleton by (by apply disjoint_singleton_l).
    simpl. pose proof (tracked_size s wf_disjoint0).
    unfold sat_add64 in Hcap. lia.
  - intros sc. rewrite Hshare by done. simpl. specialize (wf_quota0 sc).
    specialize (wf_counts0 sc). case_decide; subst; lia.
  - simpl. unfold sat_add64. lia.
  - intros Hn. rewrite Hseq. simpl in *. unfold sat_add64 in *.
    destruct wf_sequences0 as [Hs Hf]; [lia|]. split.
    + apply StronglySorted_snoc; [done|]. eapply Forall_impl; [done|]. simpl; lia.
    + apply Forall_app. split; [|by repeat constructor; lia].
      eapply Forall_impl; [done|]. simpl; lia.
Qed.

Lemma record_wf c s : inbox_wf s → inbox_wf (record c s).2.
Proof.
  intros Hwf. unfold record. destruct (check_recordable s c) as [[]|] eqn:E; [done| |done].
  by apply insert_recorded_wf.
Qed.

(** ** Delivering *)

(** What [mark_delivered] writes and what it hands back. *)
Definition bump (now : N) (e : Entry) : Entry :=
  mkEntry (en_command e) (sat_add32 (en_attempts e) 1) (Some now) (en_acknowledged e)
    (en_sequence e) (en_cancelled e) (en_cancelled_at e).
Definition handed (e : Entry) : PendingCommand :=
  let c := en_command e in
  mkPendingCommand (pc_command_id c) (pc_workspace_id c) (pc_namespace_id c)
    (pc_agent_id c) (pc_run_id c) (pc_trace_id c) (pc_action c)
    (pc_reason_code c) (pc_parameters c) (pc_issued_at c) (sat_add32 (en_attempts e) 1).

Lemma mark_delivered_spec s k now :
  mark_delivered s k now =
  match entries s !! k with
  | None => (None, s)
  | Some e => (Some (handed e), set_entries (<[k := bump now e]> (entries s)) s)
  end.
Proof. done. Qed.

(** Marking distinct identities touches each of them once and nothing else. *)
Lemma mark_all_spec s keys now :
  NoDup keys →
  (mark_all s keys now).1 = omap (λ k, handed <$> entries s !! k) keys ∧
  (∀ k, entries (mark_all s keys now).2 !! k =
        if decide (k ∈ keys) then bump now <$> entries s !! k else entries s !! k) ∧
  order (mark_all s keys now).2 = order s ∧
  retired (mark_all s keys now).2 = retired s ∧
  capacity (mark_all s keys now).2 = capacity s ∧
  scope_quota (mark_all s keys now).2 = scope_quota s ∧
  scope_counts (mark_all s keys now).2 = scope_counts s ∧
  next_sequence (mark_all s keys now).2 = next_sequence s.
Proof.
  revert s. induction keys as [|k keys IH]; intros s Hnd.
  { split_and!; try done. }
  apply NoDup_cons in Hnd as [Hk Hnd]. csimpl. rewrite mark_delivered_spec.
  destruct (entries s !! k) as [e|] eqn:He.
  - destruct (IH (set_entries (<[k := bump now e]> (entries s)) s) Hnd)
      as (H1 & H2 & H3 & H4 & H5 & H6 & H7 & H8).
    destruct (mark_all _ keys now) as [cs s2] eqn:E; simpl in *.
    split_and!; try done.
    + f_equal. rewrite H1. apply omap_ext_in. intros k' Hk'.
      rewrite lookup_insert_ne; [done|]. by intros ->.
    + intros k'. rewrite H2. destruct (decide (k = k')) as [->|Hne].
      * rewrite decide_False by done. rewrite lookup_insert_eq.
        rewrite decide_True by left. by rewrite He.
      * rewrite lookup_insert_ne by done.
        destruct (decide (k' ∈ keys)); [rewrite decide_True by (by right); done|].
        rewrite decide_False; [done|]. by intros [?|?]%elem_of_cons.
  - destruct (IH s Hnd) as (H1 & H2 & H3 & H4 & H5 & H6 & H7 & H8).
    destruct (mark_all _ keys now) as [cs s2] eqn:E; simpl in *.
    split_and!; try done.
    intros k'. rewrite H2. destruct (decide (k = k')) as [->|Hne].
    + rewrite decide_False, decide_True by (try left; done). by rewrite He.
    + destruct (decide (k' ∈ keys)); [rewrite decide_True by (by right); done|].
      rewrite decide_False; [done|]. by intros [?|?]%elem_of_cons.
Qed.

(** Which identities a poll would select, without the limit. *)
Definition selects (m : gmap InboxKey Entry) (target : PollTarget)
    (allows : string → string → bool) (policy : DeliveryPolicy) (now : N) (k : InboxKey) : bool :=
  match m !! k with
  | None => false
  | Some e => entry_deliverable e target allows policy now
  end.

Lemma deliverable_loop_spec m target allows policy now keys selected :
  deliverable_loop m target allows policy now keys selected =
  selected ++ take (N.to_nat (pt_limit target) - length selected)
                (filter (λ k, selects m target allows policy now k = true) keys).
Proof.
  revert selected. induction keys as [|k keys IH]; intros selected; simpl.
  { by rewrite filter_nil, take_nil, app_nil_r. }
  unfold len. destruct (N.leb_spec (pt_limit target) (N.of_nat (length selected))) as [Hl|Hl].
  { replace (N.to_nat (pt_limit target) - length selected)%nat with 0%nat by lia.
    by rewrite take_0, app_nil_r. }
  assert (Hs : selects m target allows policy now k =
    match m !! k with None => false
    | Some e => entry_deliverable e target allows policy now end) by done.
  rewrite filter_cons. destruct (m !! k) as [e|].
  2: { rewrite Hs, decide_False by done. apply IH. }
  rewrite Hs. destruct (entry_deliverable e target allows policy now).
  - rewrite decide_True by done. rewrite IH, length_app, <- (assoc (++)). simpl.
    destruct (N.to_nat (pt_limit target) - length selected)%nat as [|n] eqn:En; [lia|].
    simpl. do 3 f_equal. lia.
  - rewrite decide_False by done. apply IH.
Qed.

(** [deliverable] returns the first [limit] selected identities, oldest first. *)
Lemma deliverable_spec s target allows policy now :
  deliverable s target allows policy now =
  take (N.to_nat (pt_limit target))
    (filter (λ k, selects (entries s) target allows policy now k = true) (order s)).
Proof. unfold deliverable. rewrite deliverable_loop_spec. by rewrite Nat.sub_0_r. Qed.

Lemma elem_of_deliverable s target allows policy now k :
  k ∈ deliverable s target allows policy now →
  k ∈ order s ∧ ∃ e, entries s !! k = Some e ∧ entry_deliverable e target allows policy now = true.
Proof.
  rewrite deliverable_spec. intros Hk.
  eapply elem_of_sublist in Hk; [|apply sublist_take].
  apply list_elem_of_filter in Hk as [Hsel Ho].
  split; [done|]. unfold selects in Hsel. destruct (entries s !! k); [eauto|done].
Qed.

Lemma deliverable_nodup s target allows policy now :
  NoDup (order s) → NoDup (deliverable s target allows policy now).
Proof.
  intros Hnd. rewrite deliverable_spec.
  eapply sublist_NoDup; [|apply sublist_take]. by apply NoDup_filter.
Qed.

Lemma entry_deliverable_true e target allows policy now :
  entry_deliverable e target allows policy now = true →
  pc_agent_id (en_command e) = pt_agent_id target ∧
  allows (pc_workspace_id (en_command e)) (pc_namespace_id (en_command e)) = true ∧
  en_attempts e < max_attempts policy ∧ en_acknowledged e = false ∧ en_cancelled e = false ∧
  visible e policy now = true.
Proof. unfold entry_deliverable. intros H. breflect. split_and!; auto. Qed.

(** Delivering a command that is not cancelled keeps its entry consistent. *)
Lemma bump_ok k e now : entry_ok k e → en_cancelled e = false → entry_ok k (bump now e).
Proof.
  intros [] Hc. split; simpl; try done; unfold sat_add32, u32_max in *.
  - lia.
  - split; [|done]. intros. exfalso. lia.
  - intros _. lia.
  - by rewrite Hc.
Qed.

Lemma mark_all_wf s keys now :
  inbox_wf s →
  (∀ k e, k ∈ keys → entries s !! k = Some e → en_cancelled e = false) →
  inbox_wf (mark_all s keys now).2.
Proof.
  revert s. induction keys as [|k keys IH]; intros s Hwf Hc; [done|]. simpl.
  rewrite mark_delivered_spec. destruct (entries s !! k) as [e|] eqn:He.
  - specialize (IH (set_entries (<[k := bump now e]> (entries s)) s)).
    destruct (mark_all _ keys now) as [cs s2]. simpl in *. apply IH.
    + eapply update_entry_wf; [done..| |done].
      apply bump_ok; [by apply (wf_entries _ Hwf)|]. eapply Hc; [left|done].
    + intros k' e' Hk'. rewrite lookup_insert. case_decide as Hkk.
      * subst. intros [= <-]. simpl. eapply Hc; [by right|done].
      * intros. eapply Hc; [by right|done].
  - specialize (IH s Hwf). destruct (mark_all s keys now) as [cs s2]. simpl in *.
    apply IH. intros k' e' Hk'. apply Hc. by right.
Qed.

Lemma claim_wf target allows policy now s :
  inbox_wf s → inbox_wf (claim target allows policy now s).2.
Proof.
  intros Hwf. apply mark_all_wf; [done|].
  intros k e (_ & e' & He' & Hd)%elem_of_deliverable He. simplify_eq.
  apply entry_deliverable_true in Hd. tauto.
Qed.

(** ** Acknowledging and cancelling *)

Lemma acknowledge_wf target key attempt s :
  inbox_wf s → inbox_wf (acknowledge target key attempt s).2.
Proof.
  intros Hwf. unfold acknowledge. destruct (entries s !! key) as [e|] eqn:He; [|done].
  case_match eqn:Hb; [done|]. case_match eqn:Hack; [done|]. simpl.
  eapply update_entry_wf; [done..| |done].
  pose proof (wf_entries _ Hwf _ _ He) as []. breflect. split; simpl; try done. intros _. lia.
Qed.

Lemma cancel_wf key now s : inbox_wf s → inbox_wf (cancel key now s).2.
Proof.
  intros Hwf. unfold cancel. destruct (entries s !! key) as [e|] eqn:He; [|by case_match].
  case_match eqn:Hc; [done|]. case_match eqn:Ha; [done|]. simpl.
  eapply update_entry_wf; [done..| |done].
  pose proof (wf_entries _ Hwf _ _ He) as []. breflect. split; simpl; try done.
  intros _. lia.
Qed.

(** ** Retirement *)

(** Settling a live command moves it between the two tables. *)
Lemma retire_tracked s k at_ms :
  is_Some (entries s !! k) → tracked (retire s k at_ms) = tracked s.
Proof.
  intros Hk. apply set_eq. intros k'. rewrite !elem_of_tracked. simpl.
  destruct (decide (k = k')) as [<-|Hne].
  - rewrite lookup_delete_eq, lookup_insert_eq.
    split; [by left|by right; eauto].
  - by rewrite lookup_delete_ne, lookup_insert_ne.
Qed.

Lemma scope_share_tracked s s' sc : tracked s' = tracked s → scope_share s' sc = scope_share s sc.
Proof. unfold scope_share. by intros ->. Qed.

Lemma retire_wf s k at_ms :
  inbox_wf s → is_Some (entries s !! k) → inbox_wf (retire s k at_ms).
Proof.
  intros Hwf Hk. pose proof (retire_tracked s k at_ms Hk) as Ht.
  pose proof (λ sc, scope_share_tracked _ _ sc Ht) as Hs. destruct Hwf.
  split; simpl; try done.
  - by apply map_Forall_delete.
  - intros k' [_ He']%lookup_delete_is_Some. by apply wf_order_live0.
  - intros k' [Hne He']%elem_of_dom%lookup_delete_is_Some Hr'.
    apply elem_of_dom in Hr'. rewrite lookup_insert_ne in Hr' by done.
    by apply (wf_disjoint0 k'); apply elem_of_dom.
  - intros sc. by rewrite Hs.
  - by rewrite Ht.
  - intros sc. by rewrite Hs.
  - intros Hn. destruct (wf_sequences0 Hn) as [Hs1 Hs2].
    pose proof (live_sequences_delete (entries s) (order s) k) as Hsub.
    split; [by eapply StronglySorted_sublist|by eapply Forall_sublist].
Qed.

(** ** Tombstone expiry *)

(** How many of the released scopes are [sc]. *)
Definition occurrences (sc : Scope) (l : list Scope) : N := len (filter (λ x, x = sc) l).

Definition nonzero (n : N) : option N := if n =? 0 then None else Some n.

Lemma release_scope_lookup counts sc sc' :
  counts !! sc' ≠ Some 0 →
  release_scope counts sc !! sc' =
  nonzero (default 0 (counts !! sc') - (if decide (sc = sc') then 1 else 0)).
Proof.
  intros Hz. unfold release_scope, nonzero. case_decide as Hsc.
  - subst. destruct (counts !! sc') as [n|] eqn:Hn; simpl; [|done].
    case_match; [by rewrite lookup_delete_eq|by rewrite lookup_insert_eq].
  - rewrite N.sub_0_r.
    assert (Hsame : release_scope counts sc !! sc' = counts !! sc').
    { unfold release_scope. case_goal; [by rewrite lookup_delete_ne|by rewrite lookup_insert_ne]. }
    unfold release_scope in Hsame. rewrite Hsame.
    destruct (counts !! sc') as [n|]; simpl; [|done].
    destruct (N.eqb_spec n 0); [by subst|done].
Qed.

(** The order in which the expired tombstones are visited is immaterial: the
    counters depend on the multiset of released scopes alone. *)
Lemma release_scopes_lookup counts l sc :
  (∀ sc', counts !! sc' ≠ Some 0) →
  foldl release_scope counts l !! sc =
  nonzero (default 0 (counts !! sc) - occurrences sc l).
Proof.
  revert counts. induction l as [|sc0 l IH]; intros counts Hz; simpl.
  - unfold occurrences, nonzero. rewrite filter_nil, N.sub_0_r.
    specialize (Hz sc). destruct (counts !! sc) as [n|]; simpl; [|done].
    destruct (N.eqb_spec n 0); [by subst|done].
  - assert (Hz' : ∀ sc', release_scope counts sc0 !! sc' ≠ Some 0).
    { intros sc'. rewrite release_scope_lookup by apply Hz. unfold nonzero.
      case_match eqn:E; [done|]. breflect. congruence. }
    rewrite IH, release_scope_lookup by auto.
    unfold occurrences, len. rewrite filter_cons. f_equal. unfold nonzero.
    repeat case_match; breflect; simpl; lia.
Qed.

(** The tombstones that survive a cutoff. *)
Definition kept_retired (s : InboxState) (cutoff : N) : gmap InboxKey N :=
  filter (λ p, ¬ (p.2 ≤ cutoff)) (retired s).
Definition expired_retired (s : InboxState) (cutoff : N) : gmap InboxKey N :=
  filter (λ p, p.2 ≤ cutoff) (retired s).

Lemma retired_split s cutoff k :
  is_Some (retired s !! k) ↔
  is_Some (kept_retired s cutoff !! k) ∨ is_Some (expired_retired s cutoff !! k).
Proof.
  unfold kept_retired, expired_retired, is_Some. setoid_rewrite map_lookup_filter_Some. simpl.
  split.
  - intros [t Ht]. destruct (decide (t ≤ cutoff)); [right|left]; by exists t.
  - by intros [(t & ? & _)|(t & ? & _)]; exists t.
Qed.

Lemma kept_not_expired s cutoff k :
  is_Some (kept_retired s cutoff !! k) → ¬ is_Some (expired_retired s cutoff !! k).
Proof.
  intros [t [Ht Hn]%map_lookup_filter_Some] [t' [Ht' Hy]%map_lookup_filter_Some].
  simplify_eq/=. done.
Qed.

Lemma expired_occurrences s cutoff sc :
  occurrences sc ((λ p, key_scope p.1) <$> map_to_list (expired_retired s cutoff)) =
  N.of_nat (size (filter (λ k, key_scope k = sc) (dom (expired_retired s cutoff)))).
Proof.
  unfold occurrences, len.
  rewrite (gset_filter_size _ _ (map_to_list (expired_retired s cutoff)).*1).
  - f_equal. induction (map_to_list (expired_retired s cutoff)) as [|[k t] l IH]; [done|].
    csimpl. rewrite !filter_cons. simpl. case_decide; simpl; by rewrite IH.
  - apply NoDup_fst_map_to_list.
  - intros k. rewrite elem_of_dom, list_elem_of_fmap. split.
    + intros [t Ht]. exists (k, t). split; [done|]. by apply elem_of_map_to_list.
    + intros ([k' t] & -> & Ht%elem_of_map_to_list). eauto.
Qed.

(** Expiry forgets exactly the expired tombstones. *)
Lemma remove_expired_tracked s cutoff :
  inbox_wf s →
  tracked s = tracked (remove_expired_retired s cutoff).2 ∪ dom (expired_retired s cutoff) ∧
  tracked (remove_expired_retired s cutoff).2 ## dom (expired_retired s cutoff).
Proof.
  intros Hwf. pose proof (wf_disjoint _ Hwf) as Hd.
  assert (Hd' : ∀ k, is_Some (entries s !! k) → ¬ is_Some (expired_retired s cutoff !! k)).
  { intros k Hk He. apply (Hd k); apply elem_of_dom; [done|].
    by apply (retired_split s cutoff); right. }
  split.
  - apply set_eq. intros k. rewrite elem_of_union, !elem_of_tracked, elem_of_dom. simpl.
    rewrite (retired_split s cutoff). fold (kept_retired s cutoff). tauto.
  - intros k. rewrite elem_of_tracked, elem_of_dom. simpl. fold (kept_retired s cutoff).
    intros [Hk|Hk]; [by apply Hd'|by apply kept_not_expired].
Qed.

Lemma remove_expired_share s cutoff sc :
  inbox_wf s →
  scope_share s sc =
  scope_share (remove_expired_retired s cutoff).2 sc +
  occurrences sc ((λ p, key_scope p.1) <$> map_to_list (expired_retired s cutoff)).
Proof.
  intros Hwf. destruct (remove_expired_tracked s cutoff Hwf) as [Hu Hd].
  rewrite expired_occurrences. unfold scope_share. rewrite Hu, gset_filter_union.
  rewrite size_union; [lia|]. intros k. rewrite !elem_of_filter. intros [_ ?] [_ ?].
  by apply (Hd k).
Qed.

Lemma remove_expired_wf s cutoff :
  inbox_wf s → inbox_wf (remove_expired_retired s cutoff).2.
Proof.
  intros Hwf. pose proof (λ sc, remove_expired_share s cutoff sc Hwf) as Hs.
  destruct (remove_expired_tracked s cutoff Hwf) as [Hu Hd]. destruct Hwf.
  assert (Hc : ∀ sc, scope_counts (remove_expired_retired s cutoff).2 !! sc =
                     nonzero (scope_share (remove_expired_retired s cutoff).2 sc)).
  { intros sc. unfold remove_expired_retired at 1. cbn [snd scope_counts].
    fold (expired_retired s cutoff). rewrite release_scopes_lookup by done.
    rewrite wf_counts0, Hs. f_equal. lia. }
  split; try done.
  - intros k Hk Hr%elem_of_dom. apply (wf_disjoint0 k); [done|]. simpl in Hr.
    apply elem_of_dom, (retired_split s cutoff). by left.
  - intros sc. rewrite Hc. unfold nonzero. by destruct (N.eqb_spec
      (scope_share (remove_expired_retired s cutoff).2 sc) 0) as [->|].
  - intros sc. rewrite Hc. unfold nonzero. case_match eqn:E; [done|].
    breflect. congruence.
  - etrans; [|apply wf_capacity0]. rewrite Hu, size_union by done. lia.
  - intros sc. etrans; [|apply (wf_quota0 sc)]. rewrite (Hs sc). lia.
Qed.

(** ** The retention sweep *)

Lemma retire_all_wf s l :
  inbox_wf s → NoDup l.*1 → (∀ k, k ∈ l.*1 → is_Some (entries s !! k)) →
  inbox_wf (retire_all s l).
Proof.
  revert s. induction l as [|[k t] l IH]; intros s Hwf Hnd Hl; [done|].
  csimpl in *. apply NoDup_cons in Hnd as [Hk Hnd].
  apply IH; [|done|].
  - apply retire_wf; [done|]. apply Hl. by left.
  - intros k' Hk'. simpl. rewrite lookup_delete_ne by (intros ->; done).
    apply Hl. by right.
Qed.

Lemma settled_keys s now cutoff max :
  (settled s now cutoff max).*1 `sublist_of` (map_to_list (entries s)).*1.
Proof.
  unfold settled. induction (map_to_list (entries s)) as [|[k e] l IH]; [done|].
  csimpl. destruct (settled_at e now cutoff max); csimpl; by constructor.
Qed.

Lemma settled_live s now cutoff max k :
  k ∈ (settled s now cutoff max).*1 → is_Some (entries s !! k).
Proof.
  intros Hk. eapply elem_of_sublist in Hk; [|apply settled_keys].
  apply list_elem_of_fmap in Hk as ([k' e] & -> & He%elem_of_map_to_list). eauto.
Qed.

Lemma maintain_wf now retention max s :
  inbox_wf s → inbox_wf (maintain_state now retention max s).2.
Proof.
  intros Hwf. apply remove_expired_wf, retire_all_wf; [done| |].
  - eapply sublist_NoDup; [|apply settled_keys]. apply (NoDup_fst_map_to_list (entries s)).
  - intros k. apply settled_live.
Qed.

Lemma retain_live_wf s : inbox_wf s → inbox_wf (retain_live s).
Proof.
  intros []. split; try done; simpl.
  - by apply NoDup_filter.
  - intros k Hk. apply list_elem_of_filter. auto.
  - rewrite live_sequences_filter by done. done.
Qed.

(** ** Reachability

    One operation of the inbox trait, with the wall-clock reading the caller
    passes, and the states a gateway can drive an inbox into. *)
Inductive inbox_op :=
  | OpRecord (c : PendingCommand)
  | OpClaim (target : PollTarget) (allows : string → string → bool) (policy : DeliveryPolicy)
      (now : N)
  | OpAcknowledge (target : PollTarget) (key : InboxKey) (attempt : N)
  | OpCancel (key : InboxKey) (now : N)
  | OpMaintain (now retention max : N)
  | OpRetain.

Definition run_op (op : inbox_op) (s : InboxState) : InboxState :=
  match op with
  | OpRecord c => (record c s).2
  | OpClaim target allows policy now => (claim target allows policy now s).2
  | OpAcknowledge target key attempt => (acknowledge target key attempt s).2
  | OpCancel key now => (cancel key now s).2
  | OpMaintain now retention max => (maintain_state now retention max s).2
  | OpRetain => retain_live s
  end.

Inductive reachable (cap quota : N) : InboxState → Prop :=
  | reach_new : reachable cap quota (in_memory_new cap quota)
  | reach_op s op : reachable cap quota s → reachable cap quota (run_op op s).

#[export] Hint Resolve record_wf claim_wf acknowledge_wf cancel_wf maintain_wf retain_live_wf :
  apex.

Lemma run_op_wf op s : inbox_wf s → inbox_wf (run_op op s).
Proof. destruct op; cbn [run_op]; auto with apex. Qed.

(** Every state an inbox can be driven into by recording, polling,
    acknowledging, cancelling and retention sweeps, in any order and with any
    clock, is well formed: live entries and tombstones are disjoint and
    together within [capacity]; each scope's counter equals the number of
    identities the scope occupies, never above [scope_quota]; acknowledged
    entries were delivered, cancelled ones never were; and sequence numbers
    follow the insertion order. *)
Theorem inbox_reachable_wf (cap quota : N) (s : InboxState) :
  cap ≤ u64_max → reachable cap quota s → inbox_wf s.
Proof.
  intros Hcap. induction 1 as [|s op _ IH]; [|by apply run_op_wf].
  apply inbox_new_wf. unfold u64_max in *. lia.
Qed.

(** An inbox with room for four commands, two per scope. *)
Definition demo_command (ws id agent : string) : PendingCommand :=
  mkPendingCommand id ws "prod" agent "run-1" "trace-1" "stop" None "" "2026-01-01T00:00:00Z" 0.
Definition demo_inbox : InboxState :=
  run_op (OpClaim (mkPollTarget "agent-a" 16) (λ _ _, true) default_policy 1000)
    (run_op (OpRecord (demo_command "acme" "cmd-2" "agent-b"))
       (run_op (OpRecord (demo_command "acme" "cmd-1" "agent-a")) (in_memory_new 4 2))).

Lemma demo_inbox_reachable : reachable 4 2 demo_inbox.
Proof. repeat constructor. Qed.

Lemma demo_inbox_wf : inbox_wf demo_inbox.
Proof. unfold demo_inbox. do 3 apply run_op_wf. by apply inbox_new_wf. Qed.

Example inbox_reachable_wf_witness : inbox_wf demo_inbox.
Proof. apply (inbox_reachable_wf 4 2); [done|]. apply demo_inbox_reachable. Defined.
