(* ===== verification/InboxDelivery.v ===== *)
(** * Delivery guarantees of the inbox

    The contract [inbox.rs] documents, proved of the state operations: the
    per-scope fairness of [record], the isolation, order and bound of one
    poll, starvation freedom of repeated polls, suppression inside the
    redelivery window, the bound on redelivery, and the finality of an
    acknowledgement and of a cancellation. *)
From S2P Require Import Prelude RustStr Errors Inbox InboxWf.

Open Scope N_scope.

(** ** Runs of operations *)

(** Whether one operation hands [k] out. *)
Definition hands_out (op : inbox_op) (s : InboxState) (k : InboxKey) : bool :=
  match op with
  | OpClaim target allows policy now =>
      bool_decide (k ∈ deliverable s target allows policy now)
  | _ => false
  end.

Fixpoint run_ops (ops : list inbox_op) (s : InboxState) : InboxState :=
  match ops with
  | [] => s
  | op :: ops => run_ops ops (run_op op s)
  end.

(** How many operations of a run hand [k] out. *)
Fixpoint deliveries (k : InboxKey) (ops : list inbox_op) (s : InboxState) : N :=
  match ops with
  | [] => 0
  | op :: ops => (if hands_out op s k then 1 else 0) + deliveries k ops (run_op op s)
  end.

(** Operations other than the retention sweep: the sweep may forget an
    identity altogether, after which the same identity is a new command. *)
Definition is_sweep (op : inbox_op) : bool :=
  match op with OpMaintain _ _ _ => true | _ => false end.
Definition no_sweep (ops : list inbox_op) : Prop := Forall (λ op, is_sweep op = false) ops.

(** The polls of a run use clocks no earlier than [t]. *)
Definition claims_from (t : N) (op : inbox_op) : Prop :=
  match op with OpClaim _ _ _ now => t ≤ now | _ => True end.
(** The polls of a run use attempt ceilings no larger than [m]. *)
Definition attempts_within (m : N) (op : inbox_op) : Prop :=
  match op with OpClaim _ _ policy _ => max_attempts policy ≤ m | _ => True end.

(** The identities a poll could be answered with, oldest first. *)
Definition eligible (s : InboxState) (target : PollTarget) (allows : string → string → bool)
    (policy : DeliveryPolicy) (now : N) : list InboxKey :=
  filter (λ k, selects (entries s) target allows policy now k = true) (order s).

(** [n] polls by one caller at one instant: the commands each returned, and
    the final state. *)
Fixpoint polls (n : nat) (target : PollTarget) (allows : string → string → bool)
    (policy : DeliveryPolicy) (now : N) (s : InboxState) :
    list (list PendingCommand) * InboxState :=
  match n with
  | O => ([], s)
  | S n =>
      let '(cs, s1) := claim target allows policy now s in
      let '(rest, s2) := polls n target allows policy now s1 in
      (cs :: rest, s2)
  end.

(** What a poll returns for one selected identity. *)
Definition response (s : InboxState) (k : InboxKey) : option PendingCommand :=
  handed <$> entries s !! k.

(** ** Recording *)

(** Every outcome of [record] on a well-formed inbox, as a decision on the
    set of tracked identities: a tracked identity is [AlreadyRecorded]; an
    untracked one is refused only when the whole inbox is at capacity, or
    else when its own scope is at its quota; otherwise it is recorded as a
    fresh, undelivered command.  No other scope's share is ever consulted. *)
Theorem record_outcome (c : PendingCommand) (s : InboxState) :
  inbox_wf s →
  record c s =
  if decide (key_of c ∈ tracked s) then (Ok AlreadyRecorded, s)
  else if decide (capacity s ≤ N.of_nat (size (tracked s))) then (Err inbox_full, s)
  else if decide (scope_quota s ≤ scope_share s (scope_of c)) then (Err scope_full, s)
  else (Ok Recorded, insert_recorded s c).
Proof.
  intros Hwf. pose proof (wf_capacity _ Hwf) as Hcap. pose proof (wf_capacity_width _ Hwf) as Hw.
  unfold record, check_recordable. rewrite (wf_counts _ Hwf).
  pose proof (tracked_size s (wf_disjoint _ Hwf)) as Ht.
  assert (Hs : sat_add64 (map_len (entries s)) (map_len (retired s)) =
               N.of_nat (size (tracked s))).
  { unfold sat_add64. rewrite <- Ht. lia. }
  rewrite Hs. destruct (decide (key_of c ∈ tracked s)) as [Hk|Hk]; rewrite elem_of_tracked in Hk.
  - destruct Hk as [Hk|Hk]; rewrite (bool_decide_true _ Hk); [done|].
    by rewrite orb_true_r.
  - rewrite !bool_decide_false by tauto. simpl.
    repeat case_match; simplify_eq; breflect; try done; exfalso; lia.
Qed.

(** ** One poll *)

Lemma claim_spec target allows policy now s :
  inbox_wf s →
  (claim target allows policy now s).1 =
    omap (response s) (deliverable s target allows policy now) ∧
  (∀ k, entries (claim target allows policy now s).2 !! k =
     if decide (k ∈ deliverable s target allows policy now)
     then bump now <$> entries s !! k else entries s !! k) ∧
  order (claim target allows policy now s).2 = order s.
Proof.
  intros Hwf. unfold claim.
  destruct (mark_all_spec s (deliverable s target allows policy now) now) as (H1 & H2 & H3 & _).
  { apply deliverable_nodup, Hwf. }
  done.
Qed.

(** A selected identity always produces a response. *)
Lemma omap_response_length s keys :
  (∀ k, k ∈ keys → is_Some (entries s !! k)) → length (omap (response s) keys) = length keys.
Proof.
  induction keys as [|k keys IH]; intros Hk; [done|]. csimpl. unfold response at 1.
  destruct (Hk k) as [e ->]; [by left|]. simpl. f_equal. apply IH. intros. apply Hk. by right.
Qed.

Lemma deliverable_live s target allows policy now k :
  k ∈ deliverable s target allows policy now → is_Some (entries s !! k).
Proof. intros (_ & e & -> & _)%elem_of_deliverable. eauto. Qed.

(** Membership in a poll's answer. *)
Lemma elem_of_claim target allows policy now s c :
  inbox_wf s → c ∈ (claim target allows policy now s).1 →
  ∃ k e, k ∈ deliverable s target allows policy now ∧ entries s !! k = Some e ∧
         entry_deliverable e target allows policy now = true ∧ c = handed e.
Proof.
  intros Hwf. rewrite (proj1 (claim_spec target allows policy now s Hwf)).
  rewrite list_elem_of_omap. intros (k & Hk & (e & He & ->)%fmap_Some).
  exists k, e. split_and!; try done.
  apply elem_of_deliverable in Hk as (_ & e' & He' & Hd). by simplify_eq.
Qed.

(** One poll is isolated and bounded.  It returns at most [limit]
    commands, no identity twice; each is a recorded command addressed to the
    polling agent, in a scope the caller is authorised for, neither
    acknowledged nor cancelled, and the attempt number it carries is one more
    than before and never above the policy's ceiling. *)
Theorem claim_isolated (target : PollTarget) (allows : string → string → bool)
    (policy : DeliveryPolicy) (now : N) (s : InboxState) :
  inbox_wf s → max_attempts policy ≤ u32_max →
  len (claim target allows policy now s).1 ≤ pt_limit target ∧
  NoDup (key_of <$> (claim target allows policy now s).1) ∧
  ∀ c, c ∈ (claim target allows policy now s).1 →
    pc_agent_id c = pt_agent_id target ∧
    allows (pc_workspace_id c) (pc_namespace_id c) = true ∧
    ∃ e, entries s !! key_of c = Some e ∧ en_acknowledged e = false ∧
         en_cancelled e = false ∧ pc_action c = pc_action (en_command e) ∧
         pc_parameters c = pc_parameters (en_command e) ∧
         pc_delivery_attempt c = en_attempts e + 1 ∧
         pc_delivery_attempt c ≤ max_attempts policy.
Proof.
  intros Hwf Hmax. split_and!.
  - rewrite (proj1 (claim_spec target allows policy now s Hwf)).
    unfold len. rewrite omap_response_length by (intros k; apply deliverable_live).
    rewrite deliverable_spec, length_take. lia.
  - rewrite (proj1 (claim_spec target allows policy now s Hwf)).
    replace (key_of <$> _) with (deliverable s target allows policy now).
    { apply deliverable_nodup, Hwf. }
    assert (Hlive : ∀ k, k ∈ deliverable s target allows policy now → is_Some (entries s !! k))
      by (intros; by eapply deliverable_live).
    induction (deliverable s target allows policy now) as [|k keys IH]; [done|].
    csimpl. unfold response at 1. destruct (Hlive k) as [e He]; [by left|]. rewrite He. csimpl.
    rewrite <- IH by (intros; apply Hlive; by right). f_equal.
    by rewrite <- (eo_key _ _ (wf_entries _ Hwf _ _ He)).
  - intros c (k & e & Hk & He & Hd & ->)%elem_of_claim; [|done].
    apply entry_deliverable_true in Hd as (Ha & Hs & Hm & Hack & Hc & _).
    split; [done|]. split; [done|]. exists e.
    rewrite <- (eo_key _ _ (wf_entries _ Hwf _ _ He)) in He. split_and!; try done.
    + simpl. unfold sat_add32. lia.
    + simpl. unfold sat_add32. lia.
Qed.

(** ** Repeated polls *)

Lemma bump_not_deliverable e target allows policy now :
  0 < as_millis_u64 (redelivery_after policy) →
  entry_deliverable (bump now e) target allows policy now = false.
Proof.
  intros Hw. unfold entry_deliverable, visible. simpl. rewrite N.sub_diag.
  destruct (N.leb_spec (as_millis_u64 (redelivery_after policy)) 0); [lia|].
  by rewrite andb_false_r.
Qed.

(** A poll consumes exactly the oldest [limit] eligible commands. *)
Lemma eligible_after_claim target allows policy now s :
  inbox_wf s → 0 < as_millis_u64 (redelivery_after policy) →
  eligible (claim target allows policy now s).2 target allows policy now =
  drop (N.to_nat (pt_limit target)) (eligible s target allows policy now).
Proof.
  intros Hwf Hw. destruct (claim_spec target allows policy now s Hwf) as (_ & He & Ho).
  unfold eligible. rewrite Ho.
  transitivity (filter (λ k, k ∉ deliverable s target allows policy now)
                  (eligible s target allows policy now)).
  { unfold eligible. rewrite list_filter_filter. apply list_filter_iff. intros k.
    unfold selects. rewrite He. case_decide as Hk.
    - split; [|by intros []]. destruct (entries s !! k); simpl; [|done].
      by rewrite bump_not_deliverable.
    - tauto. }
  rewrite deliverable_spec. fold (eligible s target allows policy now).
  apply filter_not_take. apply NoDup_filter, Hwf.
Qed.

(** Repeated polls drain the backlog oldest first and exactly once: at one
    instant, [n] polls return, in order, the first [n * limit] commands that
    were eligible when the first poll started.  No eligible command is
    skipped, starved or handed out twice. *)
Theorem polls_drain_backlog (n : nat) (target : PollTarget) (allows : string → string → bool)
    (policy : DeliveryPolicy) (now : N) (s : InboxState) :
  inbox_wf s → 0 < as_millis_u64 (redelivery_after policy) →
  concat (polls n target allows policy now s).1 =
  omap (response s)
    (take (n * N.to_nat (pt_limit target)) (eligible s target allows policy now)).
Proof.
  intros Hwf Hw. revert s Hwf. induction n as [|n IH]; intros s Hwf; [done|]. simpl.
  destruct (claim_spec target allows policy now s Hwf) as (Hc & He & _).
  pose proof (IH _ (claim_wf target allows policy now s Hwf)) as Hr.
  rewrite eligible_after_claim in Hr by done.
  rewrite deliverable_spec in Hc, He. fold (eligible s target allows policy now) in Hc, He.
  destruct (claim target allows policy now s) as [cs s1]. simpl in *.
  destruct (polls n target allows policy now s1) as [rest s2]. simpl in *.
  rewrite Hr, Hc, <- take_take_drop, omap_app. f_equal. apply omap_ext_in. intros k Hk.
  eapply elem_of_sublist in Hk; [|apply sublist_take].
  unfold response. rewrite He, decide_False; [done|]. intros Hk'.
  assert (Hnd : NoDup (eligible s target allows policy now)) by apply NoDup_filter, Hwf.
  rewrite <- (take_drop (N.to_nat (pt_limit target))) in Hnd.
  apply NoDup_app in Hnd as (_ & Hdis & _). by apply (Hdis k).
Qed.

(** ** How one live entry evolves *)

Definition acked (e : Entry) : Entry :=
  mkEntry (en_command e) (en_attempts e) (en_last_delivered e) true (en_sequence e)
    (en_cancelled e) (en_cancelled_at e).
Definition cancelled_with (now : N) (e : Entry) : Entry :=
  mkEntry (en_command e) (en_attempts e) (en_last_delivered e) (en_acknowledged e)
    (en_sequence e) true (Some now).

(** The case of [run_op_entry] in which the entry [e] is left alone. *)
Ltac unchanged e := exists e; split; [try done|left; split; [done|by left]].

(** Outside retention sweeps a live entry stays live, and each operation
    leaves it alone, hands it out, acknowledges it or cancels it. *)
Lemma run_op_entry op s k e :
  inbox_wf s → is_sweep op = false → entries s !! k = Some e →
  ∃ e', entries (run_op op s) !! k = Some e' ∧
    ((hands_out op s k = false ∧
      (e' = e ∨ e' = acked e ∨ ∃ now, en_attempts e = 0 ∧ e' = cancelled_with now e)) ∨
     (hands_out op s k = true ∧ ∃ target allows policy now,
        op = OpClaim target allows policy now ∧ e' = bump now e ∧
        entry_deliverable e target allows policy now = true)).
Proof.
  intros Hwf Hsw He. destruct op as [c|target allows policy now|target key att|key now| |];
    simpl in *; try done.
  - unfold record. destruct (check_recordable s c) as [[]|] eqn:Hc; simpl; [by unchanged e| |].
    2: by unchanged e.
    apply check_recordable_fresh in Hc as (Hn & _). unchanged e.
    rewrite lookup_insert_ne; [done|]. intros Hkk. rewrite Hkk in Hn. congruence.
  - destruct (claim_spec target allows policy now s Hwf) as (_ & Hl & _). rewrite Hl, He.
    case_decide as Hk; simpl.
    + eexists. split; [done|]. right. split; [by rewrite bool_decide_true|].
      do 4 eexists. split_and!; [done..|].
      apply elem_of_deliverable in Hk as (_ & e' & ? & ?). by simplify_eq.
    + exists e. split; [done|]. left. rewrite bool_decide_false by done. split; [done|by left].
  - unfold acknowledge. destruct (entries s !! key) as [e0|] eqn:Hk; [|by unchanged e].
    case_match; [by unchanged e|]. case_match; [by unchanged e|]. simpl.
    rewrite lookup_insert. destruct (decide (key = k)) as [->|]; simplify_eq; [|by unchanged e].
    eexists. split; [done|]. left. split; [done|]. by right; left.
  - unfold cancel. destruct (entries s !! key) as [e0|] eqn:Hk; [|by case_match; unchanged e].
    case_match; [by unchanged e|]. case_match; [by unchanged e|]. breflect. simpl.
    rewrite lookup_insert. destruct (decide (key = k)) as [->|]; simplify_eq; [|by unchanged e].
    eexists. split; [done|]. left. split; [done|]. right. right. exists now. split; [lia|done].
  - by unchanged e.
Qed.

(** Suppression: once a poll at [t] has handed [k] out, no poll inside its
    own redelivery window of [t] hands it out again, whatever records, polls,
    acknowledgements and cancellations happen in between. *)
Theorem no_redelivery_in_window (k : InboxKey) (t : N) (target target' : PollTarget)
    (allows allows' : string → string → bool) (policy policy' : DeliveryPolicy)
    (ops : list inbox_op) (now : N) (s : InboxState) :
  inbox_wf s →
  k ∈ deliverable s target allows policy t →
  no_sweep ops → Forall (claims_from t) ops →
  now - t < as_millis_u64 (redelivery_after policy') →
  k ∉ deliverable (run_ops ops (run_op (OpClaim target allows policy t) s))
        target' allows' policy' now.
Proof.
  intros Hwf Hk Hns Hcl Hwin.
  pose proof (run_op_wf (OpClaim target allows policy t) s Hwf) as Hwf1.
  assert (Hinv : ∃ e d, entries (run_op (OpClaim target allows policy t) s) !! k = Some e ∧
                        en_last_delivered e = Some d ∧ t ≤ d).
  { cbn [run_op]. destruct (claim_spec target allows policy t s Hwf) as (_ & He & _).
    destruct (deliverable_live _ _ _ _ _ _ Hk) as [e Hke].
    exists (bump t e), t. rewrite He, decide_True, Hke by done. done. }
  revert Hwf1 Hinv. generalize (run_op (OpClaim target allows policy t) s) as s1.
  clear Hwf Hk s. induction ops as [|op ops IH]; intros s1 Hwf (e & d & He & Hd & Ht); simpl.
  - intros (_ & e' & He' & Hdel)%elem_of_deliverable. simplify_eq.
    apply entry_deliverable_true in Hdel as (_ & _ & _ & _ & _ & Hv).
    unfold visible in Hv. rewrite Hd in Hv. breflect. lia.
  - apply Forall_cons in Hns as [Hs Hns], Hcl as [Hc Hcl].
    apply IH; [done..|by apply run_op_wf|].
    destruct (run_op_entry op s1 k e Hwf Hs He) as (e' & He' & [[_ Hcase]|(_ & Hcase)]).
    + exists e', d. split; [done|]. by destruct Hcase as [->|[->|(? & _ & ->)]].
    + destruct Hcase as (tg & al & po & nw & -> & -> & _). exists (bump nw e), nw. by simpl in Hc.
Qed.

(** ** Settled commands *)

Lemma settled_not_delivered k ops s e :
  inbox_wf s → no_sweep ops → entries s !! k = Some e →
  en_acknowledged e || en_cancelled e = true → deliveries k ops s = 0.
Proof.
  revert s e. induction ops as [|op ops IH]; intros s e Hwf Hns He Hset; [done|]. simpl.
  apply Forall_cons in Hns as [Hs Hns].
  destruct (run_op_entry op s k e Hwf Hs He) as (e' & He' & [[-> Hcase]|(_ & Hcase)]).
  - rewrite (IH _ e'); [done|by apply run_op_wf|done..|].
    destruct Hcase as [->|[->|(? & _ & ->)]]; simpl; [done|done|apply orb_true_r].
  - destruct Hcase as (tg & al & po & nw & -> & -> & Hd).
    apply entry_deliverable_true in Hd as (_ & _ & _ & Ha & Hc & _). by rewrite Ha, Hc in Hset.
Qed.

(** A cancellation is a promise: when [cancel] answers [Cancelled] the
    command had never been handed out, and no later run of records, polls,
    acknowledgements and cancellations hands it out; its status is [Cancelled]
    from then on for every attempt ceiling. *)
Theorem cancel_is_final (key : InboxKey) (now : N) (s s' : InboxState) (ops : list inbox_op) :
  inbox_wf s → cancel key now s = (Ok Cancelled, s') → no_sweep ops →
  (∀ max, status s key max = Some (StPending, 0)) ∧
  (∀ max, status s' key max = Some (StCancelled, 0)) ∧
  deliveries key ops s' = 0.
Proof.
  intros Hwf Hc Hns. pose proof (cancel_wf key now s Hwf) as Hwf'. rewrite Hc in Hwf'.
  unfold cancel in Hc. destruct (entries s !! key) as [e|] eqn:He; [|by case_match].
  case_match eqn:Hcan; [done|]. case_match eqn:Hat; [done|]. breflect. simplify_eq.
  assert (Ha : en_attempts e = 0) by lia.
  assert (Hack : en_acknowledged e = false).
  { destruct (en_acknowledged e) eqn:E; [|done].
    pose proof (eo_acknowledged _ _ (wf_entries _ Hwf _ _ He) E). lia. }
  split_and!.
  - intros max. unfold status. by rewrite He, Hcan, Hack, Ha.
  - intros max. unfold status. simpl. by rewrite lookup_insert_eq, Ha.
  - eapply settled_not_delivered; [done..| |].
    + simpl. apply lookup_insert_eq.
    + simpl. apply orb_true_r.
Qed.

(** An acknowledgement is accepted only from the agent the command was
    handed to and only for an attempt that happened; it leaves every other
    command untouched, and the command is never handed out again. *)
Theorem acknowledge_is_final (target : PollTarget) (key : InboxKey) (attempt : N)
    (s s' : InboxState) (ops : list inbox_op) :
  inbox_wf s → acknowledge target key attempt s = (Acknowledged, s') → no_sweep ops →
  (∃ e, entries s !! key = Some e ∧ pc_agent_id (en_command e) = pt_agent_id target ∧
        1 ≤ attempt ≤ en_attempts e ∧ is_Some (en_last_delivered e)) ∧
  (∀ k, k ≠ key → entries s' !! k = entries s !! k) ∧
  deliveries key ops s' = 0.
Proof.
  intros Hwf Ha Hns. pose proof (acknowledge_wf target key attempt s Hwf) as Hwf'.
  rewrite Ha in Hwf'. unfold acknowledge in Ha.
  destruct (entries s !! key) as [e|] eqn:He; [|done].
  case_match eqn:Hg; [done|]. case_match; [done|]. simplify_eq. breflect.
  pose proof (wf_entries _ Hwf _ _ He) as Hok. split_and!.
  - exists e. split_and!; [done|done|lia|lia|].
    destruct (en_last_delivered e) eqn:E; [eauto|]. apply Hok in E. lia.
  - intros k Hk. simpl. by rewrite lookup_insert_ne.
  - eapply settled_not_delivered; [done..| |].
    + simpl. apply lookup_insert_eq.
    + done.
Qed.

(** ** The redelivery bound *)

Definition attempts_of (s : InboxState) (k : InboxKey) : N :=
  match entries s !! k with None => 0 | Some e => en_attempts e end.

Lemma run_op_absent op s k :
  inbox_wf s → is_sweep op = false → entries s !! k = None →
  hands_out op s k = false ∧ attempts_of (run_op op s) k = 0.
Proof.
  intros Hwf Hs Hk. unfold attempts_of. split.
  - destruct op; simpl; try done. apply bool_decide_eq_false. intros Hd.
    apply deliverable_live in Hd as [? ?]. congruence.
  - destruct op as [c|target allows policy now|target key att|key now| |]; simpl in *; try done.
    + unfold record. destruct (check_recordable s c) as [[]|]; simpl; [by rewrite Hk| |by rewrite Hk].
      rewrite lookup_insert. destruct (decide (key_of c = k)); [done|by rewrite Hk].
    + destruct (claim_spec target allows policy now s Hwf) as (_ & Hl & _). rewrite Hl, Hk.
      by case_decide.
    + assert (Hn : entries (acknowledge target key att s).2 !! k = None); [|by rewrite Hn].
      unfold acknowledge. destruct (entries s !! key) eqn:E; [|done].
      do 2 (case_match; [done|]). simpl. by rewrite lookup_insert_ne by congruence.
    + assert (Hn : entries (cancel key now s).2 !! k = None); [|by rewrite Hn].
      unfold cancel. destruct (entries s !! key) eqn:E; [|by case_match].
      do 2 (case_match; [done|]). simpl. by rewrite lookup_insert_ne by congruence.
    + by rewrite Hk.
Qed.

(** Redelivery is bounded: over any run of records, polls,
    acknowledgements and cancellations whose policies allow at most [m]
    attempts, a command is handed out at most [m] times in all, counting the
    attempts already made. *)
Theorem redelivery_bounded (k : InboxKey) (m : N) (ops : list inbox_op) (s : InboxState) :
  inbox_wf s → no_sweep ops → m ≤ u32_max → Forall (attempts_within m) ops →
  deliveries k ops s ≤ m - attempts_of s k.
Proof.
  intros Hwf Hns Hm Hop. revert s Hwf. induction ops as [|op ops IH]; intros s Hwf; simpl; [lia|].
  apply Forall_cons in Hns as [Hs Hns], Hop as [Ho Hop].
  specialize (IH Hns Hop (run_op op s) (run_op_wf op s Hwf)).
  destruct (entries s !! k) as [e|] eqn:He.
  - destruct (run_op_entry op s k e Hwf Hs He) as (e' & He' & [[-> Hcase]|(-> & Hcase)]);
      unfold attempts_of in *; rewrite He, He' in *.
    + destruct Hcase as [->|[->|(? & _ & ->)]]; simpl in *; lia.
    + destruct Hcase as (tg & al & po & nw & -> & -> & Hd).
      apply entry_deliverable_true in Hd as (_ & _ & Hlt & _). simpl in *.
      unfold sat_add32 in IH. lia.
  - destruct (run_op_absent op s k Hwf Hs He) as [-> Ha]. rewrite Ha in IH.
    unfold attempts_of. rewrite He. lia.
Qed.

(** ** Concrete runs

    [demo_inbox] holds two commands of scope [acme/prod], whose quota is two:
    [cmd-1] for [agent-a], already delivered once at 1000, and [cmd-2] for
    [agent-b], still pending. *)
Definition agent_a : PollTarget := mkPollTarget "agent-a" 16.
Definition agent_b : PollTarget := mkPollTarget "agent-b" 1.
Definition any_scope : string → string → bool := λ _ _, true.
Definition cmd_1 : InboxKey := mkInboxKey "acme" "prod" "cmd-1".
Definition cmd_2 : InboxKey := mkInboxKey "acme" "prod" "cmd-2".

Example record_outcome_witness :
  (record (demo_command "acme" "cmd-3" "agent-a") demo_inbox).1 = Err scope_full ∧
  (record (demo_command "zeta" "cmd-3" "agent-a") demo_inbox).1 = Ok Recorded.
Proof. split; rewrite (record_outcome _ _ demo_inbox_wf); vm_compute; reflexivity. Defined.

Example claim_isolated_witness :
  len (claim agent_b any_scope default_policy 2000 demo_inbox).1 = 1 ∧
  NoDup (key_of <$> (claim agent_b any_scope default_policy 2000 demo_inbox).1).
Proof.
  split; [vm_compute; reflexivity|].
  apply (claim_isolated agent_b any_scope default_policy 2000 demo_inbox demo_inbox_wf).
  vm_compute. discriminate.
Defined.

Example polls_drain_backlog_witness :
  concat (polls 2 agent_b any_scope default_policy 2000 demo_inbox).1 =
  omap (response demo_inbox) [cmd_2].
Proof.
  rewrite (polls_drain_backlog 2 agent_b any_scope default_policy 2000 demo_inbox demo_inbox_wf).
  - vm_compute. reflexivity.
  - vm_compute. reflexivity.
Defined.

Example no_redelivery_in_window_witness :
  cmd_2 ∉ deliverable
            (run_ops [OpRecord (demo_command "zeta" "cmd-9" "agent-b")]
               (run_op (OpClaim agent_b any_scope default_policy 2000) demo_inbox))
            agent_b any_scope default_policy 31999.
Proof.
  apply (no_redelivery_in_window cmd_2 2000 agent_b agent_b any_scope any_scope default_policy
           default_policy _ 31999 demo_inbox demo_inbox_wf).
  - apply (bool_decide_unpack _). vm_compute. exact I.
  - by repeat constructor.
  - by repeat constructor.
  - vm_compute. reflexivity.
Defined.

Example cancel_is_final_witness :
  deliveries cmd_2 [OpClaim agent_b any_scope default_policy 5000]
    (cancel cmd_2 3000 demo_inbox).2 = 0.
Proof.
  apply (cancel_is_final cmd_2 3000 demo_inbox _ _ demo_inbox_wf).
  - vm_compute. reflexivity.
  - by repeat constructor.
Defined.

Example acknowledge_is_final_witness :
  deliveries cmd_1 [OpClaim agent_a any_scope default_policy 900000]
    (acknowledge agent_a cmd_1 1 demo_inbox).2 = 0.
Proof.
  apply (acknowledge_is_final agent_a cmd_1 1 demo_inbox _ _ demo_inbox_wf).
  - vm_compute. reflexivity.
  - by repeat constructor.
Defined.

Example redelivery_bounded_witness :
  deliveries cmd_1 [OpClaim agent_a any_scope default_policy 40000;
                    OpClaim agent_a any_scope default_policy 80000] demo_inbox ≤ 7.
Proof.
  apply (redelivery_bounded cmd_1 8 _ demo_inbox demo_inbox_wf).
  - by repeat constructor.
  - vm_compute. discriminate.
  - by repeat constructor.
Defined.
