(* ===== verification/InboxPaging.v ===== *)
(** * Paging through an inbox

    [InboxState::list] and the cursor loop a [ListCommands] client runs: each
    page resumes strictly after the last sequence number of the page before,
    while commands are recorded, polled, acknowledged and cancelled in
    between. *)
From S2P Require Import Prelude RustStr Errors Inbox InboxWf InboxDelivery.

Open Scope N_scope.

(** The query with its cursor moved. *)
Definition q_after (q : ListCommandsQuery) (after : N) : ListCommandsQuery :=
  mkListCommandsQuery (lq_workspace_id q) (lq_namespace_id q) (lq_agent_id q) (lq_state q)
    after (lq_limit q) (lq_max_attempts q).

(** The cursor [do_list_commands] returns: none when the listing is complete,
    otherwise the last sequence number of the page. *)
Definition next_cursor (page : ListCommandsPage) : option N :=
  if lp_has_more page then cs_sequence <$> last (lp_commands page) else None.

(** A client walking the pages; [runs] are the operations other callers run
    between two page requests.  The boolean says the listing was completed. *)
Fixpoint browse (q : ListCommandsQuery) (after : N) (s : InboxState)
    (runs : list (list inbox_op)) : list CommandSummary * bool :=
  let page := list_commands s (q_after q after) in
  match next_cursor page with
  | None => (lp_commands page, true)
  | Some cursor =>
      match runs with
      | [] => (lp_commands page, false)
      | ops :: runs =>
          let '(rest, complete) := browse q cursor (run_ops ops s) runs in
          (lp_commands page ++ rest, complete)
      end
  end.

(** The entries a query selects, in insertion order. *)
Definition matching (s : InboxState) (q : ListCommandsQuery) : list Entry :=
  omap (λ k, e ← entries s !! k; if list_matches q e then Some e else None) (order s).

(** The state at the end of a browse. *)
Definition final_state (s : InboxState) (runs : list (list inbox_op)) : InboxState :=
  foldl (λ s ops, run_ops ops s) s runs.

(** ** One page *)

Lemma list_loop_spec m q keys collected :
  len collected ≤ lq_limit q →
  let all := collected ++ (summarize q <$>
    omap (λ k, e ← m !! k; if list_matches q e then Some e else None) keys) in
  list_loop m q keys collected =
  (take (N.to_nat (lq_limit q)) all, bool_decide (lq_limit q < len all)).
Proof.
  unfold len. revert collected. induction keys as [|k keys IH]; intros collected Hc; csimpl.
  { rewrite app_nil_r, take_ge by lia. rewrite bool_decide_false by lia. done. }
  destruct (m !! k) as [e|]; csimpl; [|by apply IH].
  destruct (list_matches q e); csimpl; [|by apply IH].
  destruct (N.leb_spec (lq_limit q) (len collected)) as [Hl|Hl]; unfold len in Hl.
  - rewrite take_app_le by lia. rewrite take_ge by lia.
    rewrite bool_decide_true; [done|]. rewrite length_app. simpl. lia.
  - rewrite IH by (rewrite length_app; simpl; lia). rewrite <- app_assoc. done.
Qed.

(** A page is the first [limit] selected entries; [has_more] says whether
    there are others. *)
Lemma list_commands_spec s q :
  list_commands s q =
  mkListCommandsPage (summarize q <$> take (N.to_nat (lq_limit q)) (matching s q))
    (bool_decide (lq_limit q < len (matching s q))).
Proof.
  unfold list_commands. rewrite list_loop_spec by (unfold len; simpl; lia). simpl.
  unfold len. by rewrite length_fmap, fmap_take.
Qed.

Lemma elem_of_matching s q e :
  e ∈ matching s q ↔ ∃ k, k ∈ order s ∧ entries s !! k = Some e ∧ list_matches q e = true.
Proof.
  unfold matching. rewrite list_elem_of_omap. split.
  - intros (k & Hk & (e' & He & Hm)%bind_Some). case_match; simplify_eq. eauto.
  - intros (k & Hk & He & Hm). exists k. rewrite He. simpl. by rewrite Hm.
Qed.

Lemma matching_sequences s q :
  (en_sequence <$> matching s q) `sublist_of` live_sequences (entries s) (order s).
Proof.
  unfold matching, live_sequences. induction (order s) as [|k keys IH]; csimpl; [done|].
  destruct (entries s !! k) as [e|]; csimpl; [|done].
  destruct (list_matches q e); csimpl; by constructor.
Qed.

Lemma matching_sorted s q :
  inbox_wf s → next_sequence s < u64_max → StronglySorted N.lt (en_sequence <$> matching s q).
Proof.
  intros Hwf Hn. eapply StronglySorted_sublist; [apply matching_sequences|].
  by apply (wf_sequences _ Hwf).
Qed.


(** Moving the cursor forward drops what it has passed. *)
Lemma matching_advance s q a b :
  a ≤ b →
  matching s (q_after q b) = filter (λ e, b < en_sequence e) (matching s (q_after q a)).
Proof.
  intros Hab. unfold matching. induction (order s) as [|k keys IH]; [done|]. csimpl.
  destruct (entries s !! k) as [e|]; csimpl; [|done].
  assert (Hb : list_matches (q_after q b) e =
               bool_decide (b < en_sequence e) && list_matches (q_after q a) e).
  { unfold list_matches. simpl. rewrite (bool_decide_decide (b < en_sequence e)).
    destruct (N.leb_spec (en_sequence e) b), (decide (b < en_sequence e)); try (exfalso; lia); [done|].
    destruct (N.leb_spec (en_sequence e) a); [exfalso; lia|done]. }
  rewrite Hb. destruct (list_matches (q_after q a) e).
  - rewrite andb_true_r, filter_cons. rewrite IH. by repeat case_decide; case_bool_decide.
  - by rewrite andb_false_r.
Qed.

(** In a list sorted by a key, the elements above the key of the [n]-th are
    the rest of the list. *)
Lemma sorted_cut {A} (f : A → N) (l : list A) (n : nat) x :
  StronglySorted N.lt (f <$> l) → last (take n l) = Some x →
  filter (λ y, f x < f y) l = drop n l.
Proof.
  intros Hs Hlast. apply last_Some in Hlast as [l1 Hl1].
  rewrite <- (take_drop n l) in Hs |- * at 1. rewrite Hl1 in *.
  rewrite fmap_app, fmap_app in Hs. csimpl in Hs.
  apply StronglySorted_app in Hs as (Hcross & Hs1 & _).
  apply StronglySorted_app in Hs1 as (Hcross1 & _ & _).
  rewrite filter_app. rewrite filter_none, filter_all; [done| |].
  - intros y Hy. apply Hcross; [|by apply list_elem_of_fmap_2].
    apply elem_of_app. right. by left.
  - intros y [Hy| ->%list_elem_of_singleton]%elem_of_app; [|lia].
    enough (f y < f x) by lia. apply Hcross1; [by apply list_elem_of_fmap_2|by left].
Qed.

Lemma next_cursor_spec s q cursor :
  next_cursor (list_commands s q) = Some cursor →
  ∃ e, last (take (N.to_nat (lq_limit q)) (matching s q)) = Some e ∧ cursor = en_sequence e.
Proof.
  rewrite list_commands_spec. unfold next_cursor. simpl. case_match; [|done].
  rewrite fmap_last. intros (c & (e & He & ->)%fmap_Some & ->)%fmap_Some. eauto.
Qed.

Lemma next_cursor_none s q :
  1 ≤ lq_limit q → next_cursor (list_commands s q) = None →
  take (N.to_nat (lq_limit q)) (matching s q) = matching s q.
Proof.
  rewrite list_commands_spec. unfold next_cursor, len. simpl. intros Hl Hn.
  case_bool_decide as Hb; [|apply take_ge; lia]. exfalso.
  rewrite fmap_last in Hn. destruct (last (take _ _)) eqn:E; [done|].
  apply last_None in E. apply (f_equal length) in E. rewrite length_take in E. simpl in E. lia.
Qed.

(** The page after the cursor of a page is the next slice of the selection. *)
Lemma matching_next s q after cursor :
  inbox_wf s → next_sequence s < u64_max →
  next_cursor (list_commands s (q_after q after)) = Some cursor →
  after < cursor ∧
  matching s (q_after q cursor) = drop (N.to_nat (lq_limit q)) (matching s (q_after q after)).
Proof.
  intros Hwf Hn Hc. apply next_cursor_spec in Hc as (e & He & ->).
  assert (Ha : after < en_sequence e).
  { apply last_Some_elem_of in He.
    eapply elem_of_sublist in He; [|apply sublist_take].
    apply elem_of_matching in He as (_ & _ & _ & Hm). unfold list_matches in Hm. simpl in Hm.
    breflect. done. }
  split; [done|]. rewrite (matching_advance s q after) by lia.
  apply sorted_cut; [by apply matching_sorted|done].
Qed.

(** Paging is exact on a quiet inbox: walking the pages from any cursor
    returns every selected command once, in the order it was recorded, and
    the walk ends after at most as many pages as there are commands. *)
Theorem browse_exact (q : ListCommandsQuery) (after : N) (s : InboxState) (n : nat) :
  inbox_wf s → next_sequence s < u64_max → 1 ≤ lq_limit q →
  (length (matching s (q_after q after)) ≤ n)%nat →
  browse q after s (replicate n []) = (summarize q <$> matching s (q_after q after), true).
Proof.
  intros Hwf Hn Hl. revert after. induction n as [|n IH]; intros after Hlen; simpl.
  all: destruct (next_cursor _) as [cursor|] eqn:Hc.
  2,4: pose proof (next_cursor_none s (q_after q after) Hl Hc) as Ht; simpl in Ht;
       by rewrite list_commands_spec; simpl; rewrite Ht.
  - apply next_cursor_spec in Hc as (e & He & _).
    destruct (matching s (q_after q after)); [by rewrite take_nil in He|simpl in Hlen; lia].
  - destruct (matching_next s q after cursor Hwf Hn Hc) as [_ Hm]. rewrite IH.
    + rewrite Hm, list_commands_spec. simpl. by rewrite <- fmap_app, take_drop.
    + rewrite Hm, length_drop. apply next_cursor_spec in Hc as (e & He & _).
      destruct (matching s (q_after q after)); [by rewrite take_nil in He|]. simpl in *. lia.
Qed.

(** ** Pages interleaved with other operations *)

Lemma run_op_next_sequence op s : inbox_wf s → next_sequence s ≤ next_sequence (run_op op s).
Proof.
  intros Hwf. destruct op; simpl.
  - unfold record. destruct (check_recordable s c) as [[]|]; simpl; try lia.
    pose proof (wf_next _ Hwf). unfold sat_add64. lia.
  - unfold claim. destruct (mark_all_spec s (deliverable s target allows policy now) now)
      as (_ & _ & _ & _ & _ & _ & _ & ->); [|done]. apply deliverable_nodup, Hwf.
  - unfold acknowledge. destruct (entries s !! key); [|done]. by repeat case_match.
  - unfold cancel. by repeat case_match.
  - induction (settled s now (now - retention) max) as [|p l IH] using rev_ind; [done|].
    unfold retire_all in *. by rewrite foldl_app.
  - done.
Qed.

Lemma run_ops_wf ops s : inbox_wf s → inbox_wf (run_ops ops s).
Proof. revert s. induction ops; intros s Hwf; simpl; auto using run_op_wf. Qed.

Lemma run_ops_next_sequence ops s :
  inbox_wf s → next_sequence s ≤ next_sequence (run_ops ops s).
Proof.
  revert s. induction ops as [|op ops IH]; intros s Hwf; simpl; [done|].
  etrans; [by apply (run_op_next_sequence op)|]. apply IH. by apply run_op_wf.
Qed.

Lemma final_state_next_sequence runs s :
  inbox_wf s → next_sequence s ≤ next_sequence (final_state s runs).
Proof.
  revert s. induction runs as [|ops runs IH]; intros s Hwf; simpl; [done|].
  etrans; [by apply (run_ops_next_sequence ops)|]. apply IH. by apply run_ops_wf.
Qed.

(** Outside sweeps an entry keeps its command and its sequence number. *)
Lemma run_ops_identity ops s k e :
  inbox_wf s → no_sweep ops → entries s !! k = Some e →
  ∃ e', entries (run_ops ops s) !! k = Some e' ∧
        en_command e' = en_command e ∧ en_sequence e' = en_sequence e.
Proof.
  revert s e. induction ops as [|op ops IH]; intros s e Hwf Hns He; simpl; [eauto|].
  apply Forall_cons in Hns as [Hs Hns].
  destruct (run_op_entry op s k e Hwf Hs He) as (e' & He' & Hcase).
  destruct (IH (run_op op s) e' (run_op_wf op s Hwf) Hns He') as (e2 & He2 & Hc & Hq).
  exists e2. rewrite Hc, Hq. split; [done|].
  by destruct Hcase as [[_ [->|[->|(? & _ & ->)]]]|(_ & ? & ? & ? & ? & _ & -> & _)].
Qed.

(** Without a state filter, whether an entry is selected depends on its
    command and its sequence number alone. *)
Lemma matching_persists ops s q e :
  inbox_wf s → no_sweep ops → lq_state q = None → e ∈ matching s q →
  ∃ e', e' ∈ matching (run_ops ops s) q ∧
        en_command e' = en_command e ∧ en_sequence e' = en_sequence e.
Proof.
  intros Hwf Hns Hst (k & _ & He & Hm)%elem_of_matching.
  destruct (run_ops_identity ops s k e Hwf Hns He) as (e' & He' & Hc & Hq).
  exists e'. split; [|done]. apply elem_of_matching. exists k. split_and!; [|done|].
  - apply (wf_order_live _ (run_ops_wf ops s Hwf)). by rewrite He'.
  - unfold list_matches in *. by rewrite Hc, Hq, Hst in *.
Qed.

Lemma page_above q after s :
  Forall (λ c, after < cs_sequence c) (lp_commands (list_commands s (q_after q after))).
Proof.
  rewrite list_commands_spec. simpl. apply Forall_fmap, Forall_take, Forall_forall.
  intros e (_ & _ & _ & Hm)%elem_of_matching. unfold list_matches in Hm. simpl in *.
  breflect. done.
Qed.

Lemma page_sorted s q :
  inbox_wf s → next_sequence s < u64_max →
  StronglySorted N.lt (cs_sequence <$> lp_commands (list_commands s q)).
Proof.
  intros Hwf Hn. rewrite list_commands_spec. simpl. rewrite <- list_fmap_compose.
  eapply (StronglySorted_sublist _ _ (en_sequence <$> matching s q)); [|by apply matching_sorted].
  rewrite fmap_take. apply sublist_take.
Qed.

(** A page ends at its cursor. *)
Lemma page_below_cursor s q cursor :
  inbox_wf s → next_sequence s < u64_max → next_cursor (list_commands s q) = Some cursor →
  Forall (λ c, cs_sequence c ≤ cursor) (lp_commands (list_commands s q)).
Proof.
  intros Hwf Hn Hc. pose proof (page_sorted s q Hwf Hn) as Hs.
  unfold next_cursor in Hc. case_match; [|done].
  apply fmap_Some in Hc as (c & [l Hl]%last_Some & ->). rewrite Hl in *.
  rewrite fmap_app in Hs. apply StronglySorted_app in Hs as (Hx & _ & _).
  apply Forall_app. split; [|by repeat constructor]. apply Forall_forall. intros c' Hc'.
  apply N.lt_le_incl, Hx; [by apply list_elem_of_fmap_2|by left].
Qed.

Lemma browse_sorted q after s runs :
  inbox_wf s → next_sequence (final_state s runs) < u64_max →
  Forall (λ c, after < cs_sequence c) (browse q after s runs).1 ∧
  StronglySorted N.lt (cs_sequence <$> (browse q after s runs).1).
Proof.
  revert after s. induction runs as [|ops runs IH]; intros after s Hwf Hn; simpl.
  all: pose proof (page_above q after s) as Ha.
  all: destruct (next_cursor _) as [cursor|] eqn:Hc; simpl.
  1-2: by split; [|apply page_sorted].
  - assert (Hns : next_sequence s < u64_max).
    { eapply N.le_lt_trans; [|exact Hn]. by apply (final_state_next_sequence (ops :: runs)). }
    destruct (IH cursor (run_ops ops s)) as [Hab Hso]; [by apply run_ops_wf|done|].
    pose proof (page_below_cursor s _ cursor Hwf Hns Hc) as Hbe.
    destruct (matching_next s q after cursor Hwf Hns Hc) as [Hlt _].
    destruct (browse q cursor (run_ops ops s) runs) as [rest complete]. simpl in *.
    rewrite Forall_forall in Hab, Hbe. split.
    + apply Forall_app. split; [done|]. apply Forall_forall. intros c Hcr.
      specialize (Hab c Hcr). simpl in Hab. lia.
    + rewrite fmap_app. apply StronglySorted_app_2; [|by apply page_sorted|done].
      intros x y (c & -> & H1)%list_elem_of_fmap (c' & -> & H2)%list_elem_of_fmap.
      specialize (Hbe c H1). specialize (Hab c' H2). simpl in *. lia.
  - split; [done|]. apply page_sorted; [done|].
    eapply N.le_lt_trans; [|exact Hn]. by apply (final_state_next_sequence (ops :: runs)).
Qed.

Lemma browse_finds q after s runs e :
  inbox_wf s → next_sequence (final_state s runs) < u64_max → 1 ≤ lq_limit q →
  lq_state q = None → Forall no_sweep runs → (browse q after s runs).2 = true →
  e ∈ matching s (q_after q after) →
  ∃ c, c ∈ (browse q after s runs).1 ∧ cs_sequence c = en_sequence e ∧
       cs_command_id c = pc_command_id (en_command e).
Proof.
  intros Hwf Hn Hl Hst Hns. revert after s e Hwf Hn.
  induction runs as [|ops runs IH]; intros after s e Hwf Hn Hdone He; simpl in *.
  all: destruct (next_cursor _) as [cursor|] eqn:Hc; simpl in *; [try done|].
  1,3: exists (summarize q e); split; [|done]; rewrite list_commands_spec;
       rewrite (next_cursor_none s (q_after q after) Hl Hc); simpl;
       by apply (list_elem_of_fmap_2 (summarize q)).
  apply Forall_cons in Hns as [Hns Hnss].
  assert (Hnx : next_sequence s < u64_max).
  { eapply N.le_lt_trans; [|exact Hn]. by apply (final_state_next_sequence (ops :: runs)). }
  destruct (matching_next s q after cursor Hwf Hnx Hc) as [_ Hm].
  specialize (IH Hnss cursor (run_ops ops s)).
  destruct (browse q cursor (run_ops ops s) runs) as [rest complete]. simpl in *.
  rewrite <- (take_drop (N.to_nat (lq_limit q))) in He. rewrite <- Hm in He.
  apply elem_of_app in He as [He|He].
  - exists (summarize q e). split; [|done]. apply elem_of_app. left.
    rewrite list_commands_spec. simpl. by apply (list_elem_of_fmap_2 (summarize q)).
  - destruct (matching_persists ops s (q_after q cursor) e Hwf Hns Hst He) as (e' & He' & Hcmd & Hseq).
    destruct (IH e') as (c & Hcr & Hcs & Hci); [by apply run_ops_wf|done..|].
    exists c. rewrite <- Hcmd, <- Hseq. split; [|done]. apply elem_of_app. by right.
Qed.

(** Paging is stable under concurrent use: whatever the other callers do
    between two page requests (short of a retention sweep), a completed walk
    without a state filter returns every command that was selected when it
    started, and its sequence numbers increase strictly, so no command is
    returned twice. *)
Theorem browse_stable (q : ListCommandsQuery) (after : N) (s : InboxState)
    (runs : list (list inbox_op)) :
  inbox_wf s → next_sequence (final_state s runs) < u64_max → 1 ≤ lq_limit q →
  lq_state q = None → Forall no_sweep runs → (browse q after s runs).2 = true →
  StronglySorted N.lt (cs_sequence <$> (browse q after s runs).1) ∧
  ∀ e, e ∈ matching s (q_after q after) →
    ∃ c, c ∈ (browse q after s runs).1 ∧ cs_sequence c = en_sequence e ∧
         cs_command_id c = pc_command_id (en_command e).
Proof.
  intros. split; [by apply browse_sorted|]. intros e He. by eapply browse_finds.
Qed.

(** ** Concrete pages *)
Definition acme_page : ListCommandsQuery :=
  mkListCommandsQuery "acme" "prod" None None 0 1 DEFAULT_MAX_DELIVERY_ATTEMPTS.

Example browse_exact_witness :
  cs_command_id <$> (browse acme_page 0 demo_inbox (replicate 2 [])).1 = ["cmd-1"; "cmd-2"].
Proof.
  rewrite (browse_exact acme_page 0 demo_inbox 2 demo_inbox_wf); vm_compute; done || lia.
Defined.

Example browse_stable_witness :
  StronglySorted N.lt
    (cs_sequence <$> (browse acme_page 0 demo_inbox
       [[OpClaim agent_b any_scope default_policy 2000]; []; []]).1).
Proof.
  apply (browse_stable acme_page 0 demo_inbox _ demo_inbox_wf).
  - vm_compute. reflexivity.
  - vm_compute. discriminate.
  - reflexivity.
  - by repeat constructor.
  - vm_compute. reflexivity.
Defined.
