(* ===== verification/InboxFile.v ===== *)
(** * The file-backed inbox

    [apps/control-plane-api/src/inbox/file.rs]: the inbox state of
    [Inbox] plus an append-only journal of it.  The journal file is its
    bytes; every I/O call that can fail takes its outcome as an argument, so a
    theorem that quantifies over outcomes covers every failure.  Paths,
    symlinks and the writer lock are one boolean of [open_inbox].  The record
    codec is the [LineCodec] interface of Journal. *)
From S2P Require Import Prelude RustStr Journal Errors Inbox InboxWf InboxDelivery.

Open Scope N_scope.

(** ** Records *)

(** [InboxRecord]; the three identity fields of a record are an [InboxKey]. *)
Inductive InboxRecord :=
  | RCommand (c : PendingCommand)
  | RDelivered (key : InboxKey) (attempt at_millis : N)
  | RAcknowledged (key : InboxKey) (at_millis : N)
  | RRetired (key : InboxKey) (retired_at_millis : N)
  | RCancelled (key : InboxKey) (at_millis : N).

(** [configuration_error]. *)
Definition configuration_error : CommandError := mkCommandError Internal
  "The control gateway failed to process the request.".

Definition malformed_command : CommandError := mkCommandError InvalidCommand
  "The command was malformed: check target identifiers, action, and required parameters for the requested action.".

(** [if let Some(entry) = entries.get_mut(key)] with an update of the entry. *)
Definition update_entry (key : InboxKey) (f : Entry → Entry) (s : InboxState) : InboxState :=
  match entries s !! key with
  | None => s
  | Some e => set_entries (<[key := f e]> (entries s)) s
  end.

Definition set_acknowledged (b : bool) (e : Entry) : Entry :=
  mkEntry (en_command e) (en_attempts e) (en_last_delivered e) b (en_sequence e)
    (en_cancelled e) (en_cancelled_at e).
Definition set_cancelled (b : bool) (at_millis : option N) (e : Entry) : Entry :=
  mkEntry (en_command e) (en_attempts e) (en_last_delivered e) (en_acknowledged e)
    (en_sequence e) b at_millis.

(** The [match record] of [load]. *)
Definition replay_record (r : InboxRecord) (s : InboxState) : result CommandError InboxState :=
  match r with
  | RCommand c =>
      if negb (is_recordable c) then Err configuration_error
      else match record c s with
           | (Ok _, s') => Ok s'
           | (Err e, _) => Err e
           end
  | RDelivered key attempt at_millis => Ok (apply_delivery s key attempt at_millis)
  | RAcknowledged key _ => Ok (update_entry key (set_acknowledged true) s)
  | RRetired key retired_at_millis => Ok (retire s key retired_at_millis)
  | RCancelled key at_millis => Ok (update_entry key (set_cancelled true (Some at_millis)) s)
  end.

(** [snapshot_records]: the records of one live entry, then of every
    tombstone.  The tombstones are written in the map's own order, which
    [replay_retired] of InboxReplay shows to be immaterial. *)
Definition entry_records (key : InboxKey) (e : Entry) : list InboxRecord :=
  RCommand (en_command e)
  :: (if 0 <? en_attempts e
      then [RDelivered key (en_attempts e) (default 0 (en_last_delivered e))] else [])
  ++ (if en_acknowledged e then [RAcknowledged key (default 0 (en_last_delivered e))] else [])
  ++ (if en_cancelled e then [RCancelled key (default 0 (en_cancelled_at e))] else []).

Definition live_records (m : gmap InboxKey Entry) (keys : list InboxKey) : list InboxRecord :=
  k ← keys; match m !! k with None => [] | Some e => entry_records k e end.

Definition retired_records (l : list (InboxKey * N)) : list InboxRecord :=
  (λ p, RRetired p.1 p.2) <$> l.

Definition snapshot_records (s : InboxState) : list InboxRecord :=
  live_records (entries s) (order s) ++ retired_records (map_to_list (retired s)).

(** ** The journal *)

(** [FileCommandInbox]: [file.is_some()], the bytes on disk, the state and
    [delivery_records_since_compaction]. *)
Record FileCommandInbox := mkFileCommandInbox {
  fi_open : bool;
  fi_disk : string;
  fi_state : InboxState;
  fi_since : N;
}.

Definition set_state (s : InboxState) (fi : FileCommandInbox) : FileCommandInbox :=
  mkFileCommandInbox (fi_open fi) (fi_disk fi) s (fi_since fi).

Section file.
Context `{LineCodec InboxRecord}.

(** The body of the [for line in reader.lines()] loop. *)
Definition load_line (line : string) (s : InboxState) : result CommandError InboxState :=
  if MAX_INBOX_RECORD_BYTES <? str_len line then Err configuration_error
  else match decode_line line with
       | None => Err configuration_error
       | Some r => replay_record r s
       end.

Fixpoint load_lines (ls : list string) (s : InboxState) : result CommandError InboxState :=
  match ls with
  | [] => Ok s
  | line :: ls => s' ← load_line line s; load_lines ls s'
  end.

(** [FileCommandInbox::open]; [path_ok] is the verdict of the path, symlink,
    file type and lock checks, which read nothing but the file system. *)
Definition open_inbox (path_ok : bool) (cap quota : N) (disk : string) :
    result CommandError FileCommandInbox :=
  if (cap =? 0) || (DEFAULT_INBOX_CAPACITY <? cap) then Err configuration_error
  else if (quota =? 0) || (cap <? quota) then Err configuration_error
  else if negb path_ok then Err configuration_error
  else if MAX_INBOX_FILE_BYTES <? str_len disk then Err configuration_error
  else s ← load_lines (read_lines disk) (inbox_new cap quota);
       Ok (mkFileCommandInbox true disk s 0).

(** [encode_records]. *)
Fixpoint encode_loop (rs : list InboxRecord) (encoded : string) : result CommandError string :=
  match rs with
  | [] => Ok encoded
  | r :: rs =>
      if MAX_INBOX_RECORD_BYTES <? str_len (record_bytes r) then Err inbox_full
      else encode_loop rs (encoded +:+ record_bytes r)
  end.
Definition encode_records (rs : list InboxRecord) : result CommandError string :=
  encoded ← encode_loop rs EmptyString;
  if MAX_INBOX_FILE_BYTES <? str_len encoded then Err inbox_full else Ok encoded.

(** [append_batch]; [append] is its one-record case. *)
Definition append_batch (io : AppendIo) (rs : list InboxRecord) :
    ST FileCommandInbox CommandError unit := λ fi,
  match rs with
  | [] => (Ok tt, fi)
  | _ =>
      match encode_records rs with
      | Err e => (Err e, fi)
      | Ok encoded =>
          if negb (fi_open fi) then (Err configuration_error, fi)
          else match io with
               | AppendMetadataFails => (Err configuration_error, fi)
               | AppendWriteFails n =>
                   if MAX_INBOX_FILE_BYTES <? sat_add64 (str_len (fi_disk fi)) (str_len encoded)
                   then (Err inbox_full, fi)
                   else (Err internal,
                         mkFileCommandInbox true (fi_disk fi +:+ str_take n encoded)
                           (fi_state fi) (fi_since fi))
               | AppendOk =>
                   if MAX_INBOX_FILE_BYTES <? sat_add64 (str_len (fi_disk fi)) (str_len encoded)
                   then (Err inbox_full, fi)
                   else (Ok tt, mkFileCommandInbox true (fi_disk fi +:+ encoded) (fi_state fi)
                                  (fi_since fi))
               end
      end
  end.

(** [compact]. *)
Definition compact (io : CompactIo) : ST FileCommandInbox CommandError unit := λ fi,
  match encode_records (snapshot_records (fi_state fi)) with
  | Err e => (Err e, fi)
  | Ok encoded =>
      match io with
      | CompactTempFails => (Err internal, fi)
      | CompactRenameFails reopens =>
          if negb (fi_open fi) then (Err configuration_error, fi)
          else (Err internal,
                mkFileCommandInbox reopens (fi_disk fi) (fi_state fi) (fi_since fi))
      | CompactRenamed reopens =>
          if negb (fi_open fi) then (Err configuration_error, fi)
          else if negb reopens then
            (Err configuration_error,
             mkFileCommandInbox false encoded (fi_state fi) (fi_since fi))
          else (Ok tt, mkFileCommandInbox true encoded (retain_live (fi_state fi)) 0)
      end
  end.

(** [compact_if_needed]; [metadata_ok] is the outcome of [metadata()]. *)
Definition compact_if_needed (metadata_ok : bool) (io : CompactIo) (fi : FileCommandInbox) :
    FileCommandInbox :=
  if negb (fi_open fi) || negb metadata_ok then fi
  else if (str_len (fi_disk fi) <? INBOX_COMPACTION_THRESHOLD_BYTES)
          || (fi_since fi <? INBOX_COMPACTION_DELIVERY_RECORDS)
  then fi
  else (compact io fi).2.

(** ** The trait implementation *)

(** [record]. *)
Definition file_record (io : AppendIo) (c : PendingCommand) :
    ST FileCommandInbox CommandError RecordResult := λ fi,
  if negb (is_recordable c) then (Err malformed_command, fi)
  else match check_recordable (fi_state fi) c with
       | Err e => (Err e, fi)
       | Ok (Some r) => (Ok r, fi)
       | Ok None =>
           match append_batch io [RCommand c] fi with
           | (Err e, fi') => (Err e, fi')
           | (Ok _, fi') => (Ok Recorded, set_state (insert_recorded (fi_state fi') c) fi')
           end
       end.

(** The records a claim journals, one per selected identity. *)
Definition delivery_record (s : InboxState) (now_millis : N) (key : InboxKey) : InboxRecord :=
  RDelivered key
    (sat_add32 (match entries s !! key with None => 0 | Some e => en_attempts e end) 1) now_millis.

(** [claim]. *)
Definition file_claim (io : AppendIo) (metadata_ok : bool) (cio : CompactIo)
    (target : PollTarget) (allows : string → string → bool) (policy : DeliveryPolicy)
    (now_millis : N) : ST FileCommandInbox CommandError (list PendingCommand) := λ fi,
  let keys := deliverable (fi_state fi) target allows policy now_millis in
  let records := delivery_record (fi_state fi) now_millis <$> keys in
  match append_batch io records fi with
  | (Err e, fi') => (Err e, fi')
  | (Ok _, fi') =>
      let '(delivered, s') := mark_all (fi_state fi') keys now_millis in
      (Ok delivered,
       compact_if_needed metadata_ok cio
         (mkFileCommandInbox (fi_open fi') (fi_disk fi') s'
            (sat_add64 (fi_since fi') (len records))))
  end.

(** [acknowledge]: the flag is set first and taken back when the append
    fails. *)
Definition file_acknowledge (io : AppendIo) (target : PollTarget) (key : InboxKey)
    (attempt now_millis : N) : ST FileCommandInbox CommandError AckResult := λ fi,
  let '(result, s') := acknowledge target key attempt (fi_state fi) in
  match result with
  | Acknowledged =>
      match append_batch io [RAcknowledged key now_millis] (set_state s' fi) with
      | (Err e, fi') =>
          (Err e, set_state (update_entry key (set_acknowledged false) (fi_state fi')) fi')
      | (Ok _, fi') => (Ok result, fi')
      end
  | _ => (Ok result, set_state s' fi)
  end.

(** [cancel]. *)
Definition file_cancel (io : AppendIo) (key : InboxKey) (now_millis : N) :
    ST FileCommandInbox CommandError CancelResult := λ fi,
  match cancel key now_millis (fi_state fi) with
  | (Err e, s') => (Err e, set_state s' fi)
  | (Ok Cancelled, s') =>
      match append_batch io [RCancelled key now_millis] (set_state s' fi) with
      | (Err e, fi') =>
          (Err e, set_state (update_entry key (set_cancelled false None) (fi_state fi')) fi')
      | (Ok _, fi') => (Ok Cancelled, fi')
      end
  | (Ok result, s') => (Ok result, set_state s' fi)
  end.

(** [maintain]: a failed compaction puts the previous state back. *)
Definition file_maintain (cio : CompactIo) (now_millis retention_millis max : N) :
    ST FileCommandInbox CommandError unit := λ fi,
  let '(changed, s') := maintain_state now_millis retention_millis max (fi_state fi) in
  if negb changed then (Ok tt, set_state s' fi)
  else match compact cio (set_state s' fi) with
       | (Err e, fi') => (Err e, set_state (fi_state fi) fi')
       | (Ok _, fi') => (Ok tt, fi')
       end.

(** ** What a restart recovers *)

(** The journal records a command's history, not the sequence number the
    process drew for it. *)
Definition unsequenced (e : Entry) : Entry :=
  mkEntry (en_command e) (en_attempts e) (en_last_delivered e) (en_acknowledged e) 0
    (en_cancelled e) (en_cancelled_at e).

Definition live_order (s : InboxState) : list InboxKey :=
  filter (λ k, is_Some (entries s !! k)) (order s).

(** [r] recovers [s]: the same commands with the same delivery history in the
    same order, the same tombstones and ceilings, and per-scope counters that
    never overcount. *)
Record recovers (r s : InboxState) : Prop := {
  rc_entries : ∀ k, unsequenced <$> entries r !! k = unsequenced <$> entries s !! k;
  rc_retired : retired r = retired s;
  rc_order : live_order r = live_order s;
  rc_capacity : capacity r = capacity s;
  rc_quota : scope_quota r = scope_quota s;
  rc_counts : ∀ sc, default 0 (scope_counts r !! sc) ≤ default 0 (scope_counts s !! sc);
}.

Fixpoint replay (rs : list InboxRecord) (s : InboxState) : result CommandError InboxState :=
  match rs with
  | [] => Ok s
  | r :: rs => s' ← replay_record r s; replay rs s'
  end.

Definition recordable_entries (s : InboxState) : Prop :=
  ∀ k e, entries s !! k = Some e → is_recordable (en_command e) = true.

(** A journal of records each within the record limit. *)
Definition journal_ok (rs : list InboxRecord) : Prop :=
  Forall (λ r, str_len (record_bytes r) ≤ MAX_INBOX_RECORD_BYTES) rs ∧
  str_len (journal_bytes rs) ≤ MAX_INBOX_FILE_BYTES.

(** The invariant of a running file inbox: its state is well formed and the
    journal on disk replays to it. *)
Record file_ok (cap quota : N) (fi : FileCommandInbox) : Prop := {
  fo_wf : inbox_wf (fi_state fi);
  fo_recordable : recordable_entries (fi_state fi);
  fo_capacity : capacity (fi_state fi) = cap;
  fo_quota : scope_quota (fi_state fi) = quota;
  fo_journal : ∃ rs r, fi_disk fi = journal_bytes rs ∧ journal_ok rs ∧
    replay rs (inbox_new cap quota) = Ok r ∧ recovers r (fi_state fi);
}.

(** No delivery is stamped later than [now]: the clock has not stepped back. *)
Definition clock_reached (s : InboxState) (now : N) : Prop :=
  ∀ k e d, entries s !! k = Some e → en_last_delivered e = Some d → d ≤ now.

(** One call on a running file inbox. *)
Inductive file_step : FileCommandInbox → FileCommandInbox → Prop :=
  | fs_record fi io c : clean_io io → file_step fi (file_record io c fi).2
  | fs_claim fi io meta cio target allows policy now :
      clean_io io → clock_reached (fi_state fi) now →
      file_step fi (file_claim io meta cio target allows policy now fi).2
  | fs_acknowledge fi io target key attempt now :
      clean_io io → file_step fi (file_acknowledge io target key attempt now fi).2
  | fs_cancel fi io key now : clean_io io → file_step fi (file_cancel io key now fi).2
  | fs_maintain fi cio now retention max :
      cio ≠ CompactRenamed false → file_step fi (file_maintain cio now retention max fi).2.

(** The states of a process that opened an empty journal. *)
Inductive file_reachable (cap quota : N) : FileCommandInbox → Prop :=
  | fr_open fi : open_inbox true cap quota EmptyString = Ok fi → file_reachable cap quota fi
  | fr_step fi fi' : file_reachable cap quota fi → file_step fi fi' → file_reachable cap quota fi'.
End file.

Arguments append_batch : simpl never.
Arguments compact : simpl never.
Arguments encode_records : simpl never.
