(* ===== verification/InboxReplay.v ===== *)
(** * Replaying an inbox journal

    What the records of InboxFile rebuild: each record of a running inbox
    replays to the operation it journals, and a snapshot replays to the state
    it was taken of. *)
From S2P Require Import Prelude RustStr Journal Errors Inbox InboxWf InboxDelivery InboxFile.

Open Scope N_scope.

(** ** Replaying single records *)

Lemma replay_app rs rs' s : replay (rs ++ rs') s = s' ← replay rs s; replay rs' s'.
Proof.
  revert s. induction rs as [|r rs IH]; intros s; [done|]. csimpl.
  by destruct (replay_record r s); simpl.
Qed.

Lemma recovers_live r s k : recovers r s → is_Some (entries r !! k) ↔ is_Some (entries s !! k).
Proof.
  intros Hr. rewrite <- (fmap_is_Some unsequenced (entries r !! k)), (rc_entries _ _ Hr k).
  by rewrite fmap_is_Some.
Qed.

Lemma recovers_absent r s k : recovers r s → entries s !! k = None → entries r !! k = None.
Proof.
  intros Hr Hs. apply eq_None_not_Some. rewrite (recovers_live r s k Hr), Hs. by intros [].
Qed.

Lemma recovers_map_len r s : recovers r s → map_len (entries r) = map_len (entries s).
Proof.
  intros Hr. unfold map_len. rewrite <- !(size_dom (D := gset InboxKey)). do 2 f_equal.
  apply set_eq. intros k. rewrite !elem_of_dom. by apply recovers_live.
Qed.

(** A command the live state accepts is accepted on replay. *)
Lemma recovers_check r s c :
  recovers r s → check_recordable s c = Ok None → check_recordable r c = Ok None.
Proof.
  intros Hr (He & Ht & Hcap & Hq)%check_recordable_fresh. pose proof Hr as [].
  unfold check_recordable.
  rewrite (recovers_absent r s _ Hr He), rc_retired, Ht, rc_capacity, rc_quota.
  rewrite (recovers_map_len r s Hr). simpl.
  destruct (N.leb_spec (capacity s) (sat_add64 (map_len (entries s)) (map_len (retired s))));
    [lia|].
  specialize (rc_counts (scope_of c)).
  destruct (N.leb_spec (scope_quota s) (default 0 (scope_counts r !! scope_of c))); [lia|done].
Qed.

Lemma live_order_ext s s' :
  order s' = order s → (∀ k, is_Some (entries s' !! k) ↔ is_Some (entries s !! k)) →
  live_order s' = live_order s.
Proof. unfold live_order. intros -> Hl. by apply list_filter_iff. Qed.

Lemma live_order_insert s c :
  entries s !! key_of c = None →
  live_order (insert_recorded s c) = live_order s ++ [key_of c].
Proof.
  intros Hn. unfold live_order. simpl. rewrite filter_app, filter_cons, filter_nil.
  rewrite decide_True by (rewrite lookup_insert_eq; eauto). f_equal.
  rewrite list_filter_filter. apply list_filter_iff. intros k. split.
  - intros [Hk Hne]. by rewrite lookup_insert_ne in Hk by done.
  - intros Hk. assert (k ≠ key_of c) by (intros ->; rewrite Hn in Hk; by destruct Hk).
    by rewrite lookup_insert_ne.
Qed.

Lemma recovers_insert r s c :
  recovers r s → entries s !! key_of c = None →
  recovers (insert_recorded r c) (insert_recorded s c).
Proof.
  intros Hr Hn. pose proof (recovers_absent r s _ Hr Hn) as Hn'. pose proof Hr as [].
  split; try done.
  - intros k. simpl. rewrite !lookup_insert. by case_decide.
  - rewrite !live_order_insert by done. by rewrite rc_order.
  - intros sc. simpl. rewrite !lookup_insert. case_decide as Hsc; simpl; [|done].
    subst. specialize (rc_counts (scope_of c)). lia.
Qed.

Lemma replay_command r s c :
  recovers r s → is_recordable c = true → check_recordable s c = Ok None →
  ∃ r', replay_record (RCommand c) r = Ok r' ∧ recovers r' (insert_recorded s c).
Proof.
  intros Hr Hc Hs. exists (insert_recorded r c). simpl. rewrite Hc. unfold record.
  rewrite (recovers_check r s c Hr Hs). split; [done|].
  apply recovers_insert; [done|]. by apply check_recordable_fresh in Hs as [? _].
Qed.

Lemma update_entry_lookup k f s k' :
  entries (update_entry k f s) !! k' =
  if decide (k = k') then f <$> entries s !! k' else entries s !! k'.
Proof.
  unfold update_entry. case_decide as Hk; [subst|].
  - destruct (entries s !! k') eqn:E; simpl; [by rewrite lookup_insert_eq|done].
  - destruct (entries s !! k); simpl; [by rewrite lookup_insert_ne|done].
Qed.

Lemma update_entry_live k f s k' :
  is_Some (entries (update_entry k f s) !! k') ↔ is_Some (entries s !! k').
Proof. rewrite update_entry_lookup. case_decide; [apply fmap_is_Some|done]. Qed.

Lemma update_entry_fields k f s :
  order (update_entry k f s) = order s ∧ retired (update_entry k f s) = retired s ∧
  capacity (update_entry k f s) = capacity s ∧
  scope_quota (update_entry k f s) = scope_quota s ∧
  scope_counts (update_entry k f s) = scope_counts s.
Proof. unfold update_entry. by destruct (entries s !! k). Qed.

(** Updates that agree up to sequence numbers keep a recovery. *)
Lemma recovers_update r s k f g :
  recovers r s →
  (∀ er es, entries s !! k = Some es → unsequenced er = unsequenced es →
            unsequenced (f er) = unsequenced (g es)) →
  recovers (update_entry k f r) (update_entry k g s).
Proof.
  intros Hr Hfg. destruct (update_entry_fields k f r) as (Ho & Ht & Hc & Hq & Hn).
  destruct (update_entry_fields k g s) as (Ho' & Ht' & Hc' & Hq' & Hn'). pose proof Hr as [].
  split; try congruence.
  - intros k'. rewrite !update_entry_lookup. specialize (rc_entries k').
    case_decide as Hk; [subst|done].
    destruct (entries r !! k') as [er|], (entries s !! k') as [es|] eqn:Es;
      try discriminate rc_entries; [|done].
    apply (inj Some) in rc_entries. cbn [fmap option_fmap option_map]. f_equal.
    by apply Hfg.
  - rewrite (live_order_ext r (update_entry k f r)), (live_order_ext s (update_entry k g s));
      try done; intros; apply update_entry_live.
Qed.

Lemma apply_delivery_update s k a t :
  apply_delivery s k a t =
  update_entry k (λ e, mkEntry (en_command e) (N.max (en_attempts e) a)
    (Some (match en_last_delivered e with None => t | Some p => N.max p t end))
    (en_acknowledged e) (en_sequence e) (en_cancelled e) (en_cancelled_at e)) s.
Proof. done. Qed.

Lemma mark_delivered_update s k now : (mark_delivered s k now).2 = update_entry k (bump now) s.
Proof. rewrite mark_delivered_spec. unfold update_entry. by destruct (entries s !! k). Qed.

(** One delivery record replays to one delivery. *)
Lemma replay_delivered r s k now :
  recovers r s → inbox_wf s → clock_reached s now →
  ∃ r', replay_record (delivery_record s now k) r = Ok r' ∧
        recovers r' (mark_delivered s k now).2.
Proof.
  intros Hr Hwf Hclk. eexists. split; [done|]. rewrite apply_delivery_update, mark_delivered_update.
  apply recovers_update; [done|]. intros er es Hk Heq. rewrite Hk.
  assert (Hd : ∀ d, en_last_delivered es = Some d → d ≤ now) by (intros d; by apply (Hclk k)).
  pose proof (eo_attempts _ _ (wf_entries _ Hwf _ _ Hk)) as Hat.
  unfold unsequenced in *. simpl. injection Heq as -> -> -> -> -> ->.
  f_equal.
  - unfold sat_add32. lia.
  - f_equal. destruct (en_last_delivered es) as [d|]; [|done]. specialize (Hd d eq_refl). lia.
Qed.

Lemma mark_delivered_clock s k now :
  clock_reached s now → clock_reached (mark_delivered s k now).2 now.
Proof.
  intros Hclk k' e d. rewrite mark_delivered_update, update_entry_lookup. case_decide.
  - intros (e0 & He0 & ->)%fmap_Some. simpl. by intros [= <-].
  - apply Hclk.
Qed.

(** A claim's batch replays to the claim. *)
Lemma replay_deliveries r s keys now :
  recovers r s → inbox_wf s → clock_reached s now → NoDup keys →
  (∀ k e, k ∈ keys → entries s !! k = Some e → en_cancelled e = false) →
  ∃ r', replay (delivery_record s now <$> keys) r = Ok r' ∧
        recovers r' (mark_all s keys now).2.
Proof.
  revert r s. induction keys as [|k keys IH]; intros r s Hr Hwf Hclk Hnd Hc; [by exists r|].
  apply NoDup_cons in Hnd as [Hk Hnd]. cbn [fmap list_fmap replay mark_all].
  destruct (replay_delivered r s k now Hr Hwf Hclk) as (r1 & -> & Hr1). cbn [mbind result_bind].
  pose proof (mark_all_wf s [k] now Hwf) as Hwf1. cbn [mark_all] in Hwf1.
  pose proof (mark_delivered_clock s k now Hclk) as Hclk1.
  pose proof (mark_delivered_update s k now) as Hup.
  destruct (mark_delivered s k now) as [c s1]. simpl in Hr1, Hwf1, Hclk1, Hup.
  destruct (IH r1 s1) as (r' & Hrep & Hr'); [done| |done..| |].
  - apply Hwf1. intros k' e ->%list_elem_of_singleton. apply Hc. by left.
  - intros k' e Hk'. rewrite Hup, update_entry_lookup, decide_False by (by intros ->).
    apply Hc. by right.
  - exists r'. destruct (mark_all s1 keys now) as [cs s2]. split; [|done].
    rewrite <- Hrep. f_equal. apply list_fmap_ext. intros i k' Hk'%list_elem_of_lookup_2.
    unfold delivery_record. by rewrite Hup, update_entry_lookup, decide_False by (by intros ->).
Qed.

(** ** Replaying a snapshot *)

(** [e] under the sequence number a replay draws for it. *)
Definition resequenced (n : N) (e : Entry) : Entry :=
  mkEntry (en_command e) (en_attempts e) (en_last_delivered e) (en_acknowledged e) n
    (en_cancelled e) (en_cancelled_at e).

Lemma update_entry_set k f m s e :
  m !! k = Some e → update_entry k f (set_entries m s) = set_entries (<[k := f e]> m) s.
Proof. unfold update_entry. simpl. by intros ->. Qed.

(** The records of one entry rebuild it. *)
Lemma replay_entry k e r :
  entry_ok k e → is_recordable (en_command e) = true →
  check_recordable r (en_command e) = Ok None →
  replay (entry_records k e) r =
  Ok (set_entries (<[k := resequenced (next_sequence r) e]> (entries r))
        (insert_recorded r (en_command e))).
Proof.
  intros [Hkey _ Hdel _ _ Hcan] Hrec Hchk. unfold entry_records.
  cbn [replay replay_record]. rewrite Hrec. unfold record. rewrite Hchk.
  cbn [negb mbind result_bind].
  assert (Hins : insert_recorded r (en_command e) =
    set_entries (<[k := mkEntry (en_command e) 0 None false (next_sequence r) false None]>
                   (entries r)) (insert_recorded r (en_command e))).
  { unfold insert_recorded. by rewrite Hkey. }
  rewrite Hins at 1. rewrite replay_app.
  assert (H1 : replay (if 0 <? en_attempts e
      then [RDelivered k (en_attempts e) (default 0 (en_last_delivered e))] else [])
      (set_entries (<[k := mkEntry (en_command e) 0 None false (next_sequence r) false None]>
         (entries r)) (insert_recorded r (en_command e))) =
    Ok (set_entries (<[k := mkEntry (en_command e) (en_attempts e) (en_last_delivered e) false
                        (next_sequence r) false None]> (entries r))
          (insert_recorded r (en_command e)))).
  { destruct (N.ltb_spec 0 (en_attempts e)) as [Ha|Ha]; cbn [replay replay_record].
    - rewrite apply_delivery_update. erewrite update_entry_set by apply lookup_insert_eq.
      rewrite insert_insert_eq. cbn [mbind result_bind]. do 4 f_equal.
      + simpl. lia.
      + destruct (en_last_delivered e); [done|]. assert (en_attempts e = 0) by tauto. lia.
    - replace (en_attempts e) with 0 by lia. rewrite (proj1 Hdel) by lia. done. }
  rewrite H1. cbn [mbind result_bind]. clear H1 Hins. unfold resequenced.
  assert (Hat : en_cancelled_at e =
                if en_cancelled e then Some (default 0 (en_cancelled_at e)) else None).
  { destruct (en_cancelled e), (en_cancelled_at e); try done; exfalso.
    - by destruct (proj1 Hcan eq_refl).
    - by discriminate (proj2 Hcan (mk_is_Some _ _ eq_refl)). }
  destruct (en_acknowledged e), (en_cancelled e);
    cbn [replay replay_record app mbind result_bind];
    repeat (erewrite update_entry_set by apply lookup_insert_eq; rewrite insert_insert_eq);
    unfold set_acknowledged, set_cancelled; simpl; by rewrite <- Hat || rewrite Hat.
Qed.

(** What the replay of the records of [keys] has rebuilt. *)
Record rebuilt (s : InboxState) (keys : list InboxKey) (r : InboxState) : Prop := {
  rb_order : order r = keys;
  rb_entries : ∀ k, unsequenced <$> entries r !! k =
    if decide (k ∈ keys) then unsequenced <$> entries s !! k else None;
  rb_retired : retired r = ∅;
  rb_capacity : capacity r = capacity s;
  rb_quota : scope_quota r = scope_quota s;
  rb_counts : ∀ sc, default 0 (scope_counts r !! sc) = len (filter (λ k, key_scope k = sc) keys);
}.

Lemma rebuilt_live s keys r k :
  rebuilt s keys r → (∀ k, k ∈ keys → is_Some (entries s !! k)) →
  is_Some (entries r !! k) ↔ k ∈ keys.
Proof.
  intros Hb Hl. rewrite <- (fmap_is_Some unsequenced), (rb_entries _ _ _ Hb).
  case_decide as Hk; [|by split; [intros []|]]. rewrite fmap_is_Some. split; auto.
Qed.

(** There is room for one more live command of the original state. *)
Lemma rebuilt_check s keys r k e :
  inbox_wf s → rebuilt s keys r → NoDup (keys ++ [k]) →
  (∀ k', k' ∈ keys ++ [k] → is_Some (entries s !! k')) →
  entries s !! k = Some e → check_recordable r (en_command e) = Ok None.
Proof.
  intros Hwf Hb Hnd Hl He. pose proof (eo_key _ _ (wf_entries _ Hwf _ _ He)) as Hk.
  assert (Hlk : ∀ k', k' ∈ keys → is_Some (entries s !! k')).
  { intros k' Hk'. apply Hl, elem_of_app. by left. }
  assert (Hlen : map_len (entries r) = len keys).
  { unfold map_len, len. f_equal. apply NoDup_length_dom.
    - by apply NoDup_app in Hnd as [? _].
    - intros k'. by apply (rebuilt_live s). }
  assert (Hcap : len (keys ++ [k]) ≤ capacity s).
  { etrans; [|apply (wf_capacity _ Hwf)]. unfold len.
    enough (length (keys ++ [k]) ≤ size (tracked s))%nat by lia.
    apply NoDup_length_size; [done|]. intros k' Hk'. apply elem_of_tracked. left. auto. }
  assert (Hquota : len (filter (λ k', key_scope k' = key_scope k) (keys ++ [k])) ≤ scope_quota s).
  { etrans; [|apply (wf_quota _ Hwf (key_scope k))]. unfold scope_share, len.
    enough (length (filter (λ k', key_scope k' = key_scope k) (keys ++ [k])) ≤
            size (filter (λ k', key_scope k' = key_scope k) (tracked s)))%nat by lia.
    apply NoDup_length_size; [by apply NoDup_filter|]. intros k' [Hsc Hk']%list_elem_of_filter.
    apply elem_of_filter. split; [done|]. apply elem_of_tracked. left. auto. }
  unfold check_recordable. rewrite Hk, (rb_retired _ _ _ Hb), lookup_empty, Hlen.
  destruct (decide (is_Some (entries r !! k))) as [Hin|Hin].
  { apply (rebuilt_live s keys r k Hb Hlk) in Hin. apply NoDup_app in Hnd as (_ & Hnd & _).
    by destruct (Hnd k Hin (list_elem_of_here _ _)). }
  rewrite !bool_decide_false by (done || by intros []). simpl.
  rewrite (rb_capacity _ _ _ Hb), (rb_quota _ _ _ Hb), (rb_counts _ _ _ Hb).
  replace (scope_of (en_command e)) with (key_scope k) by (rewrite <- Hk; done).
  unfold len, sat_add64 in *. rewrite filter_app, filter_cons, decide_True in Hquota by done.
  rewrite length_app in Hcap, Hquota. simpl in *. unfold map_len. rewrite map_size_empty.
  do 2 (match goal with |- context [N.leb ?a ?b] => destruct (N.leb_spec a b); [lia|] end). done.
Qed.

(** Extending a rebuilt state by one entry. *)
Lemma rebuilt_snoc s keys r k e :
  inbox_wf s → rebuilt s keys r → k ∉ keys → entries s !! k = Some e →
  rebuilt s (keys ++ [k])
    (set_entries (<[k := resequenced (next_sequence r) e]> (entries r))
       (insert_recorded r (en_command e))).
Proof.
  intros Hwf Hb Hk He. pose proof (eo_key _ _ (wf_entries _ Hwf _ _ He)) as Hkey.
  pose proof Hb as []. split; simpl; try done.
  - rewrite Hkey, rb_order0. f_equal. apply filter_all. by intros k' Hk' ->.
  - intros k'. rewrite lookup_insert. destruct (decide (k = k')) as [->|Hne].
    + rewrite decide_True by (apply elem_of_app; right; by left). by rewrite He.
    + rewrite rb_entries0. destruct (decide (k' ∈ keys)).
      * rewrite decide_True by (apply elem_of_app; by left). done.
      * rewrite decide_False; [done|]. by intros [?|?%list_elem_of_singleton]%elem_of_app.
  - intros sc. unfold len. rewrite filter_app, length_app, filter_cons, filter_nil.
    rewrite lookup_insert. replace (scope_of (en_command e)) with (key_scope k) by (by rewrite <- Hkey).
    rewrite rb_counts0. unfold len.
    destruct (decide (key_scope k = sc)) as [<-|]; simpl; rewrite ?rb_counts0; unfold len; lia.
Qed.

Lemma replay_live s keys :
  inbox_wf s → recordable_entries s → NoDup keys →
  (∀ k, k ∈ keys → is_Some (entries s !! k)) →
  ∃ r, replay (live_records (entries s) keys) (inbox_new (capacity s) (scope_quota s)) = Ok r ∧
       rebuilt s keys r.
Proof.
  intros Hwf Hrec. induction keys as [|k keys IH] using rev_ind; intros Hnd Hl.
  { exists (inbox_new (capacity s) (scope_quota s)). split; [done|].
    by split. }
  destruct IH as (r & Hr & Hb).
  { by apply NoDup_app in Hnd as [? _]. }
  { intros k' Hk'. apply Hl, elem_of_app. by left. }
  destruct (Hl k) as [e He]; [apply elem_of_app; right; by left|].
  unfold live_records. rewrite bind_app, replay_app.
  fold (live_records (entries s) keys). rewrite Hr. csimpl. rewrite He, app_nil_r.
  rewrite replay_entry.
  - eexists. split; [done|]. apply rebuilt_snoc; try done.
    apply NoDup_app in Hnd as (_ & Hnd & _). intros Hk. by apply (Hnd k Hk), list_elem_of_here.
  - by apply (wf_entries _ Hwf).
  - by apply (Hrec k).
  - by eapply rebuilt_check.
Qed.

(** Identities that are not live contribute no record. *)
Lemma live_records_live_order s : live_records (entries s) (order s) = live_records (entries s) (live_order s).
Proof.
  unfold live_records, live_order. induction (order s) as [|k keys IH]; [done|].
  rewrite filter_cons. csimpl. destruct (entries s !! k) as [e|] eqn:He.
  - rewrite decide_True by eauto. csimpl. by rewrite He, IH.
  - rewrite decide_False by (by intros []). apply IH.
Qed.

(** Tombstone records rebuild the tombstones and nothing else, in whatever
    order they come. *)
Lemma replay_retired l r :
  NoDup l.*1 → (∀ k, k ∈ l.*1 → entries r !! k = None) →
  replay (retired_records l) r =
  Ok (mkInboxState (order r) (entries r) (list_to_map l ∪ retired r) (capacity r)
        (scope_quota r) (scope_counts r) (next_sequence r)).
Proof.
  revert r. induction l as [|[k t] l IH]; intros r Hnd Hl; csimpl.
  { rewrite map_empty_union. by destruct r. }
  csimpl in Hnd. apply NoDup_cons in Hnd as [Hk Hnd].
  rewrite IH; [|done|]; simpl.
  - rewrite delete_id by (apply Hl; by left). f_equal. f_equal.
    rewrite <- insert_union_l, <- insert_union_r; [done|].
    by apply not_elem_of_list_to_map_1.
  - intros k' Hk'. rewrite delete_id by (apply Hl; by left). apply Hl. by right.
Qed.

(** A snapshot replays to the state it was taken of. *)
Lemma replay_snapshot s :
  inbox_wf s → recordable_entries s →
  ∃ r, replay (snapshot_records s) (inbox_new (capacity s) (scope_quota s)) = Ok r ∧
       recovers r s.
Proof.
  intros Hwf Hrec. unfold snapshot_records. rewrite live_records_live_order, replay_app.
  assert (Hlive : ∀ k, k ∈ live_order s → is_Some (entries s !! k)).
  { intros k [? _]%list_elem_of_filter. done. }
  destruct (replay_live s (live_order s)) as (r & -> & Hb); [done..| |done|].
  { apply NoDup_filter, Hwf. }
  cbn [mbind result_bind]. pose proof (λ k, rebuilt_live s _ r k Hb Hlive) as Hin.
  assert (Hall : ∀ k, is_Some (entries s !! k) ↔ k ∈ live_order s).
  { intros k. split; [|apply Hlive]. intros Hk. apply list_elem_of_filter.
    split; [done|]. by apply (wf_order_live _ Hwf). }
  rewrite replay_retired.
  - eexists. split; [done|]. pose proof Hb as []. split; simpl; try done.
    + intros k. rewrite rb_entries0. case_decide as Hk; [done|].
      rewrite <- Hall, <- eq_None_not_Some in Hk. by rewrite Hk.
    + by rewrite rb_retired0, list_to_map_to_list, map_union_empty.
    + unfold live_order at 1. simpl. rewrite rb_order0. apply filter_all. intros k. apply Hin.
    + intros sc. rewrite rb_counts0, (wf_counts _ Hwf). unfold scope_share, len.
      enough (length (filter (λ k, key_scope k = sc) (live_order s)) ≤
              size (filter (λ k, key_scope k = sc) (tracked s)))%nat by lia.
      apply NoDup_length_size; [apply NoDup_filter, NoDup_filter, Hwf|].
      intros k [Hsc Hk]%list_elem_of_filter. apply elem_of_filter. split; [done|].
      apply elem_of_tracked. left. by apply Hlive.
  - apply NoDup_fst_map_to_list.
  - intros k ([k' t] & -> & Ht%elem_of_map_to_list)%list_elem_of_fmap.
    apply eq_None_not_Some. rewrite Hin, <- Hall. intros He. simpl in He.
    by apply (wf_disjoint _ Hwf k'); apply elem_of_dom; [|rewrite Ht].
Qed.
