(* ===== verification/InboxRecovery.v ===== *)
(** * Recovery of the file-backed inbox

    Every operation of InboxFile keeps a journal that replays to the running
    state, so a restart recovers it; an interrupted append is refused or read
    back as a prefix.  The last section follows concrete lifetimes across
    restarts and compactions, where the per-scope counters and the page
    cursors are not preserved. *)
From S2P Require Import Prelude RustStr Journal Errors Inbox InboxWf InboxDelivery InboxFile.
From S2P Require Import InboxReplay.

Open Scope N_scope.

(** ** The journal on disk *)
Section proofs.
Context `{LineCodecLaws InboxRecord}.

Lemma load_line_record r s :
  str_len (record_bytes r) ≤ MAX_INBOX_RECORD_BYTES →
  load_line (encode_line r) s = replay_record r s.
Proof.
  intros Hr. unfold load_line. unfold record_bytes in Hr. rewrite str_len_app in Hr.
  destruct (N.ltb_spec MAX_INBOX_RECORD_BYTES (str_len (encode_line r))); [lia|].
  by rewrite decode_encode_line.
Qed.

Lemma load_lines_app ls ls' s : load_lines (ls ++ ls') s = s' ← load_lines ls s; load_lines ls' s'.
Proof.
  revert s. induction ls as [|l ls IH]; intros s; [done|]. simpl.
  by destruct (load_line l s); simpl.
Qed.

(** Reading a journal back replays its records. *)
Lemma load_journal rs tail s :
  Forall (λ r, str_len (record_bytes r) ≤ MAX_INBOX_RECORD_BYTES) rs →
  load_lines (read_lines (journal_bytes rs +:+ tail)) s =
  s' ← replay rs s; load_lines (read_lines tail) s'.
Proof.
  intros Hrs. rewrite read_lines_journal, load_lines_app.
  revert s. induction Hrs as [|r rs Hr Hrs IH]; intros s; [done|]. csimpl.
  rewrite load_line_record by done. by destruct (replay_record r s); simpl.
Qed.

Lemma encode_loop_spec rs acc encoded :
  encode_loop rs acc = Ok encoded →
  encoded = acc +:+ journal_bytes rs ∧
  Forall (λ r, str_len (record_bytes r) ≤ MAX_INBOX_RECORD_BYTES) rs.
Proof.
  revert acc. induction rs as [|r rs IH]; intros acc He; simpl in *.
  - simplify_eq. by rewrite string_app_nil_r.
  - destruct (N.ltb_spec MAX_INBOX_RECORD_BYTES (str_len (record_bytes r))); [done|].
    apply IH in He as [-> HF]. rewrite string_app_assoc. by split; [|constructor].
Qed.

Lemma encode_records_spec rs encoded :
  encode_records rs = Ok encoded → encoded = journal_bytes rs ∧ journal_ok rs.
Proof.
  unfold encode_records. destruct (encode_loop rs EmptyString) as [out|] eqn:E; [|done]. simpl.
  apply encode_loop_spec in E as [-> HF]. change (EmptyString +:+ journal_bytes rs) with (journal_bytes rs).
  destruct (N.ltb_spec MAX_INBOX_FILE_BYTES (str_len (journal_bytes rs))); [done|].
  intros [= <-]. done.
Qed.

Lemma file_size_checked a b :
  (MAX_INBOX_FILE_BYTES <? sat_add64 a b) = false → a + b ≤ MAX_INBOX_FILE_BYTES.
Proof.
  intros Hs%N.ltb_ge. unfold sat_add64 in Hs. apply N.min_le in Hs as [?|Hs]; [done|].
  by exfalso; apply Hs.
Qed.

(** A clean append writes the whole batch or changes nothing. *)
Lemma append_batch_spec io rs fi res fi' :
  clean_io io → append_batch io rs fi = (res, fi') →
  (is_ok res = false ∧ fi' = fi) ∨
  (res = Ok tt ∧ fi' = mkFileCommandInbox (fi_open fi) (fi_disk fi +:+ journal_bytes rs)
                         (fi_state fi) (fi_since fi) ∧
   Forall (λ r, str_len (record_bytes r) ≤ MAX_INBOX_RECORD_BYTES) rs ∧
   (rs = [] ∨ str_len (fi_disk fi +:+ journal_bytes rs) ≤ MAX_INBOX_FILE_BYTES)).
Proof.
  intros Hio Hap. unfold append_batch in Hap. destruct rs as [|r rs'].
  { simplify_eq. right. simpl. rewrite string_app_nil_r. destruct fi'. by split_and!; auto. }
  destruct (encode_records (r :: rs')) as [encoded|] eqn:E; [|by simplify_eq; left].
  apply encode_records_spec in E as [-> [HF _]].
  destruct (fi_open fi) eqn:Ho; [|by simpl in Hap; simplify_eq; left]. simpl negb in Hap.
  destruct io as [|n|]; [by simplify_eq; left| |]; simpl in Hio;
    (destruct (MAX_INBOX_FILE_BYTES <? _) eqn:Hsz; [by simplify_eq; left|]).
  - subst. injection Hap as <- <-. left. split; [done|]. cbn [str_take].
    rewrite string_app_nil_r. destruct fi. simpl in *. by subst.
  - injection Hap as <- <-. right. split_and!; [done..|]. right. rewrite str_len_app.
    by apply file_size_checked.
Qed.

(** ** Steps keep the invariant *)

(** An appended batch that replays to the new state keeps the invariant. *)
Lemma file_ok_append cap quota io rs fi fi' s' n :
  file_ok cap quota fi → clean_io io → append_batch io rs fi = (Ok tt, fi') →
  inbox_wf s' → recordable_entries s' → capacity s' = cap → scope_quota s' = quota →
  (∀ r, recovers r (fi_state fi) → ∃ r', replay rs r = Ok r' ∧ recovers r' s') →
  file_ok cap quota (mkFileCommandInbox (fi_open fi') (fi_disk fi') s' n).
Proof.
  intros [_ _ _ _ (rs0 & r & Hd & [HF Hlen] & Hrep & Hrec)] Hio Hap Hwf Hre Hcap Hq Hstep.
  apply append_batch_spec in Hap as [[Hf _]|(_ & -> & HF' & Hsz)]; [done| |done].
  split; simpl; try done.
  destruct (Hstep r Hrec) as (r' & Hrep' & Hrec'). exists (rs0 ++ rs), r'.
  rewrite Hd, journal_bytes_app, replay_app, Hrep. split_and!; try done.
  split; [by apply Forall_app|]. rewrite journal_bytes_app, <- Hd.
  destruct Hsz as [->|Hsz]; [|done]. simpl. rewrite string_app_nil_r. by rewrite Hd.
Qed.

Lemma live_order_retain s : live_order (retain_live s) = live_order s.
Proof.
  unfold live_order, retain_live. simpl. rewrite list_filter_filter.
  apply list_filter_iff. intros k. tauto.
Qed.

Lemma recovers_retain r s : recovers r s → recovers r (retain_live s).
Proof. intros []. split; try done. by rewrite live_order_retain. Qed.

(** A written snapshot is a journal of the state it was taken of. *)
Lemma snapshot_journal s encoded :
  inbox_wf s → recordable_entries s → encode_records (snapshot_records s) = Ok encoded →
  ∃ rs r, encoded = journal_bytes rs ∧ journal_ok rs ∧
    replay rs (inbox_new (capacity s) (scope_quota s)) = Ok r ∧ recovers r s.
Proof.
  intros Hwf Hre [-> Hok]%encode_records_spec. destruct (replay_snapshot s Hwf Hre) as (r & Hr & Hrc).
  by exists (snapshot_records s), r.
Qed.

Lemma compact_ok cap quota io fi :
  file_ok cap quota fi → file_ok cap quota (compact io fi).2.
Proof.
  intros Hok. pose proof Hok as [Hwf Hre Hcap Hq Hj]. unfold compact.
  destruct (encode_records _) as [encoded|] eqn:E; [|done].
  apply snapshot_journal in E as (rs & r & -> & Hjo & Hrep & Hrec); [|done..].
  rewrite Hcap, Hq in Hrep.
  destruct io as [|reopens|reopens]; [done| |]; destruct (fi_open fi); simpl; try done.
  destruct reopens; simpl; split; simpl; try done; eauto 10.
  - by apply retain_live_wf.
  - exists rs, r. split_and!; try done. by apply recovers_retain.
Qed.

Lemma set_state_ok cap quota fi : file_ok cap quota fi → file_ok cap quota (set_state (fi_state fi) fi).
Proof. by destruct fi. Qed.

Lemma file_record_ok cap quota io c fi :
  file_ok cap quota fi → clean_io io → file_ok cap quota (file_record io c fi).2.
Proof.
  intros Hok Hio. pose proof Hok as [Hwf Hre Hcap Hq _]. unfold file_record.
  destruct (is_recordable c) eqn:Hc; simpl; [|done].
  destruct (check_recordable (fi_state fi) c) as [[r|]|] eqn:Hchk; simpl; try done.
  destruct (append_batch io [RCommand c] fi) as [[[]|e] fi'] eqn:Hap; simpl.
  - assert (Hst : fi_state fi' = fi_state fi).
    { apply append_batch_spec in Hap as [[_ ->]|(_ & -> & _)]; done. }
    eapply file_ok_append; try done; rewrite Hst.
    + by apply insert_recorded_wf.
    + intros k e. simpl. rewrite lookup_insert. case_decide; [by intros [= <-]|apply Hre].
    + done.
    + done.
    + intros r Hr. destruct (replay_command r (fi_state fi) c Hr Hc Hchk) as (r' & Hr' & ?).
      exists r'. cbn [replay]. by rewrite Hr'.
  - by apply append_batch_spec in Hap as [[_ ->]|(? & _)].
Qed.

Lemma mark_all_commands s keys now k e :
  entries (mark_all s keys now).2 !! k = Some e →
  ∃ e0, entries s !! k = Some e0 ∧ en_command e = en_command e0.
Proof.
  revert s. induction keys as [|k' keys IH]; intros s; simpl; [eauto|].
  pose proof (mark_delivered_update s k' now) as Hup.
  destruct (mark_delivered s k' now) as [c s1]. simpl in Hup. subst.
  specialize (IH (update_entry k' (bump now) s)).
  destruct (mark_all (update_entry k' (bump now) s) keys now) as [cs s2]. simpl in *. intros He.
  destruct (IH He) as (e1 & He1 & ->). rewrite update_entry_lookup in He1.
  case_decide; [|eauto]. apply fmap_Some in He1 as (e0 & He0 & ->). eauto.
Qed.

Lemma file_claim_ok cap quota io meta cio target allows policy now fi :
  file_ok cap quota fi → clean_io io → clock_reached (fi_state fi) now →
  file_ok cap quota (file_claim io meta cio target allows policy now fi).2.
Proof.
  intros Hok Hio Hclk. pose proof Hok as [Hwf Hre Hcap Hq _]. unfold file_claim.
  set (keys := deliverable (fi_state fi) target allows policy now).
  destruct (append_batch io _ fi) as [[[]|e] fi'] eqn:Hap; simpl.
  2: { by apply append_batch_spec in Hap as [[_ ->]|(? & _)]. }
  assert (Hst : fi_state fi' = fi_state fi).
  { apply append_batch_spec in Hap as [[_ ->]|(_ & -> & _)]; done. }
  rewrite Hst. assert (Hnd : NoDup keys) by apply deliverable_nodup, Hwf.
  pose proof (claim_wf target allows policy now (fi_state fi) Hwf) as Hwf'.
  unfold claim in Hwf'. fold keys in Hwf'.
  pose proof (mark_all_commands (fi_state fi) keys now) as Hcm.
  destruct (mark_all_spec (fi_state fi) keys now Hnd) as (_ & _ & _ & _ & Hcap' & Hq' & _).
  assert (Hrp : ∀ r, recovers r (fi_state fi) → ∃ r',
    replay (delivery_record (fi_state fi) now <$> keys) r = Ok r' ∧
    recovers r' (mark_all (fi_state fi) keys now).2).
  { intros r Hr. apply replay_deliveries; try done. intros k e Hk He.
    apply elem_of_deliverable in Hk as (_ & e' & ? & Hd%entry_deliverable_true).
    simplify_eq. tauto. }
  destruct (mark_all (fi_state fi) keys now) as [delivered s'] eqn:Hm. simpl in *.
  assert (Hok' : file_ok cap quota (mkFileCommandInbox (fi_open fi') (fi_disk fi') s'
    (sat_add64 (fi_since fi') (len (delivery_record (fi_state fi) now <$> keys))))).
  { eapply file_ok_append; try done; [|congruence..].
    intros k e He. destruct (Hcm k e He) as (e0 & He0 & ->). by apply (Hre k). }
  unfold compact_if_needed. do 2 (case_match; [done|]). by apply compact_ok.
Qed.

(** A flag that is set and taken back leaves the state as it was. *)
Lemma update_entry_undo k f g s e :
  entries s !! k = Some e → f (g e) = e →
  update_entry k f (set_entries (<[k := g e]> (entries s)) s) = s.
Proof.
  intros Hk Hfg. erewrite update_entry_set by apply lookup_insert_eq.
  rewrite insert_insert_eq, Hfg, insert_id by done. by destruct s.
Qed.

Lemma acknowledge_update target key attempt s s' :
  acknowledge target key attempt s = (Acknowledged, s') →
  s' = update_entry key (set_acknowledged true) s ∧
  ∃ e, entries s !! key = Some e ∧ en_acknowledged e = false.
Proof.
  unfold acknowledge, update_entry. destruct (entries s !! key) as [e|]; [|done].
  case_match; [done|]. case_match eqn:Ha; [done|]. intros [= <-]. eauto.
Qed.

Lemma cancel_update key now s s' :
  cancel key now s = (Ok Cancelled, s') →
  s' = update_entry key (set_cancelled true (Some now)) s ∧
  ∃ e, entries s !! key = Some e ∧ en_cancelled e = false.
Proof.
  unfold cancel, update_entry. destruct (entries s !! key) as [e|]; [|by case_match].
  case_match eqn:Ha; [done|]. case_match; [done|]. intros [= <-]. eauto.
Qed.

Lemma acknowledge_other target key attempt s :
  (acknowledge target key attempt s).1 ≠ Acknowledged → (acknowledge target key attempt s).2 = s.
Proof.
  unfold acknowledge. destruct (entries s !! key) as [e|]; [|done].
  destruct (negb _ || _ || _); [done|]. by destruct (en_acknowledged e).
Qed.

Lemma cancel_other key now s :
  (cancel key now s).1 ≠ Ok Cancelled → (cancel key now s).2 = s.
Proof.
  unfold cancel. destruct (entries s !! key) as [e|].
  - destruct (en_cancelled e); [done|]. by destruct (0 <? en_attempts e).
  - by destruct (bool_decide _).
Qed.

Lemma update_entry_recordable k f s :
  (∀ e, en_command (f e) = en_command e) → recordable_entries s →
  recordable_entries (update_entry k f s).
Proof.
  intros Hf Hre k' e. rewrite update_entry_lookup. case_decide; [|apply Hre].
  intros (e0 & He0 & ->)%fmap_Some. rewrite Hf. by apply (Hre k').
Qed.

(** A journalled update of one entry, rolled back when the append fails: the
    common shape of [acknowledge] and [cancel]. *)
Lemma journalled_update_ok cap quota io rec fi key f undo e0 res fi' :
  file_ok cap quota fi → clean_io io →
  (∀ e, en_command (f e) = en_command e) →
  (∀ er es, unsequenced er = unsequenced es → unsequenced (f er) = unsequenced (f es)) →
  (∀ r, replay_record rec r = Ok (update_entry key f r)) →
  inbox_wf (update_entry key f (fi_state fi)) →
  entries (fi_state fi) !! key = Some e0 → undo (f e0) = e0 →
  append_batch io [rec] (set_state (update_entry key f (fi_state fi)) fi) = (res, fi') →
  file_ok cap quota
    (if is_ok res then fi' else set_state (update_entry key undo (fi_state fi')) fi').
Proof.
  intros Hok Hio Hcmd Hf Hrep Hwf' He Hundo Hap. pose proof Hok as [Hwf Hre Hcap Hq Hj].
  apply append_batch_spec in Hap as [[-> ->]|(-> & -> & HF & Hsz)]; [| |done]; simpl.
  - unfold set_state. simpl. unfold update_entry at 2. rewrite He.
    rewrite (update_entry_undo key undo f (fi_state fi) e0 He Hundo). by destruct fi.
  - destruct (update_entry_fields key f (fi_state fi)) as (_ & _ & Hc' & Hq' & _).
    destruct Hj as (rs & r & Hd & [HF0 Hlen] & Hrp & Hrc). split; simpl; try done.
    + by apply update_entry_recordable.
    + by rewrite Hc'.
    + by rewrite Hq'.
    + exists (rs ++ [rec]), (update_entry key f r). simpl in Hsz.
      rewrite Hd, journal_bytes_app, replay_app, Hrp. cbn [mbind result_bind replay].
      rewrite Hrep. split_and!; try done.
      * split; [by apply Forall_app|]. rewrite journal_bytes_app, <- Hd. by destruct Hsz.
      * apply recovers_update; auto.
Qed.

Lemma unsequenced_inj_fields er es :
  unsequenced er = unsequenced es →
  en_command er = en_command es ∧ en_attempts er = en_attempts es ∧
  en_last_delivered er = en_last_delivered es ∧ en_acknowledged er = en_acknowledged es ∧
  en_cancelled er = en_cancelled es ∧ en_cancelled_at er = en_cancelled_at es.
Proof. unfold unsequenced. intros [=]. done. Qed.

Lemma file_acknowledge_ok cap quota io target key attempt now fi :
  file_ok cap quota fi → clean_io io →
  file_ok cap quota (file_acknowledge io target key attempt now fi).2.
Proof.
  intros Hok Hio. unfold file_acknowledge.
  pose proof (acknowledge_wf target key attempt (fi_state fi) (fo_wf _ _ _ Hok)) as Hwf'.
  destruct (acknowledge target key attempt (fi_state fi)) as [res s'] eqn:Hack.
  destruct res.
  - apply acknowledge_update in Hack as [-> (e & He & Ha)].
    destruct (append_batch io _ _) as [res fi'] eqn:Hap.
    pose proof (journalled_update_ok cap quota io (RAcknowledged key now) fi key
      (set_acknowledged true) (set_acknowledged false) e res fi' Hok Hio) as Hj.
    assert (Hgoal : file_ok cap quota (if is_ok res then fi'
      else set_state (update_entry key (set_acknowledged false) (fi_state fi')) fi')).
    { apply Hj; try done.
      - intros er es (? & ? & ? & ? & ? & ?)%unsequenced_inj_fields.
        unfold unsequenced, set_acknowledged; simpl; congruence.
      - unfold set_acknowledged. destruct e. simpl in *. by subst. }
    by destruct res as [[]|]; simpl in *.
  - pose proof (acknowledge_other target key attempt (fi_state fi)) as Ho. rewrite Hack in Ho.
    simpl in *. rewrite Ho by done. by apply set_state_ok.
  - pose proof (acknowledge_other target key attempt (fi_state fi)) as Ho. rewrite Hack in Ho.
    simpl in *. rewrite Ho by done. by apply set_state_ok.
Qed.

Lemma file_cancel_ok cap quota io key now fi :
  file_ok cap quota fi → clean_io io → file_ok cap quota (file_cancel io key now fi).2.
Proof.
  intros Hok Hio. unfold file_cancel.
  pose proof (cancel_wf key now (fi_state fi) (fo_wf _ _ _ Hok)) as Hwf'.
  pose proof (fo_wf _ _ _ Hok) as Hwf. pose proof (cancel_other key now (fi_state fi)) as Ho.
  destruct (cancel key now (fi_state fi)) as [[res|e] s'] eqn:Hcan; simpl in Ho.
  2: { rewrite Ho by done. by apply set_state_ok. }
  destruct res; [|simpl; rewrite Ho by done; by apply set_state_ok..].
  apply cancel_update in Hcan as [-> (e & He & Hc)].
  destruct (append_batch io _ _) as [res fi'] eqn:Hap.
  pose proof (journalled_update_ok cap quota io (RCancelled key now) fi key
    (set_cancelled true (Some now)) (set_cancelled false None) e res fi' Hok Hio) as Hj.
  assert (Hgoal : file_ok cap quota (if is_ok res then fi'
    else set_state (update_entry key (set_cancelled false None) (fi_state fi')) fi')).
  { apply Hj; try done.
    - intros er es (? & ? & ? & ? & ? & ?)%unsequenced_inj_fields.
      unfold unsequenced, set_cancelled; simpl; congruence.
    - pose proof (eo_cancelled_at _ _ (wf_entries _ Hwf _ _ He)) as Hca.
      unfold set_cancelled. destruct e as [? ? ? ? ? cn ca]. simpl in *. subst. f_equal.
      destruct ca; [|done]. by discriminate (proj2 Hca (mk_is_Some _ _ eq_refl)). }
  by destruct res as [[]|]; simpl in *.
Qed.

Lemma retire_all_fields s l :
  capacity (retire_all s l) = capacity s ∧ scope_quota (retire_all s l) = scope_quota s ∧
  ∀ k e, entries (retire_all s l) !! k = Some e → entries s !! k = Some e.
Proof.
  revert s. induction l as [|[k t] l IH]; intros s; [done|].
  destruct (IH (retire s k t)) as (Hc & Hq & He). simpl in *. split_and!; [done..|].
  intros k' e Hk'. apply He in Hk'. by apply lookup_delete_Some in Hk' as [_ ?].
Qed.

(** A sweep that settles and expires nothing leaves the state as it was. *)
Lemma maintain_unchanged now retention max s :
  (maintain_state now retention max s).1 = false → (maintain_state now retention max s).2 = s.
Proof.
  unfold maintain_state. destruct (settled s now (now - retention) max) as [|p l] eqn:El; [|done].
  simpl. intros Hb. breflect.
  assert (Hk : filter (λ p : InboxKey * N, ¬ p.2 ≤ now - retention) (retired s) = retired s).
  { apply map_subseteq_size_eq; [apply map_filter_subseteq|]. unfold map_len in Hb. lia. }
  assert (He : filter (λ p : InboxKey * N, p.2 ≤ now - retention) (retired s) = ∅).
  { apply map_empty. intros k. apply eq_None_not_Some. intros [t [Ht Hle]%map_lookup_filter_Some].
    rewrite <- Hk in Ht. by apply map_lookup_filter_Some in Ht as [_ ?]. }
  rewrite Hk, He, map_to_list_empty. simpl. by destruct s.
Qed.

Lemma file_maintain_ok cap quota cio now retention max fi :
  file_ok cap quota fi → cio ≠ CompactRenamed false →
  file_ok cap quota (file_maintain cio now retention max fi).2.
Proof.
  intros Hok Hcio. pose proof Hok as [Hwf Hre Hcap Hq Hj]. unfold file_maintain.
  pose proof (maintain_unchanged now retention max (fi_state fi)) as Hun.
  pose proof (maintain_wf now retention max (fi_state fi) Hwf) as Hwf'.
  destruct (retire_all_fields (fi_state fi)
    (settled (fi_state fi) now (now - retention) max)) as (Hc' & Hq' & He').
  assert (Hs' : capacity (maintain_state now retention max (fi_state fi)).2 = cap ∧
                scope_quota (maintain_state now retention max (fi_state fi)).2 = quota ∧
                recordable_entries (maintain_state now retention max (fi_state fi)).2).
  { unfold maintain_state. simpl. split_and!; [congruence..|].
    intros k e He. simpl in He. apply (Hre k). by apply He'. }
  destruct (maintain_state now retention max (fi_state fi)) as [changed s']. simpl in *.
  destruct changed; simpl; [|rewrite Hun by done; by apply set_state_ok].
  destruct Hs' as (Hcs & Hqs & Hrs). unfold compact. simpl.
  destruct (encode_records (snapshot_records s')) as [encoded|] eqn:E; simpl;
    [|by destruct fi].
  apply snapshot_journal in E as (rs & r & -> & Hjo & Hrep & Hrec); [|done..].
  destruct cio as [|reopens|[]]; simpl; [by destruct fi| | |done];
    destruct (fi_open fi) eqn:Eo; simpl; try (by destruct fi; simpl in *; subst).
  split; simpl; try done; [by apply retain_live_wf|].
  exists rs, r. rewrite <- Hcs, <- Hqs. split_and!; try done. by apply recovers_retain.
Qed.

Lemma file_step_ok cap quota fi fi' : file_ok cap quota fi → file_step fi fi' → file_ok cap quota fi'.
Proof.
  intros Hok. destruct 1; eauto using file_record_ok, file_claim_ok, file_acknowledge_ok,
    file_cancel_ok, file_maintain_ok.
Qed.

(** Opening a journal the invariant describes succeeds and recovers. *)
Lemma open_ok_journal cap quota fi :
  0 < cap ≤ DEFAULT_INBOX_CAPACITY → 0 < quota ≤ cap → file_ok cap quota fi →
  ∃ fi', open_inbox true cap quota (fi_disk fi) = Ok fi' ∧
         recovers (fi_state fi') (fi_state fi) ∧ fi_disk fi' = fi_disk fi.
Proof.
  intros Hc Hq [_ _ _ _ (rs & r & Hd & [HF Hlen] & Hrep & Hrec)]. unfold open_inbox.
  destruct (N.eqb_spec cap 0); [lia|]. destruct (N.ltb_spec DEFAULT_INBOX_CAPACITY cap); [lia|].
  destruct (N.eqb_spec quota 0); [lia|]. destruct (N.ltb_spec cap quota); [lia|]. simpl.
  rewrite Hd. destruct (N.ltb_spec MAX_INBOX_FILE_BYTES (str_len (journal_bytes rs))); [lia|].
  pose proof (load_journal rs EmptyString (inbox_new cap quota) HF) as Hl.
  rewrite string_app_nil_r, Hrep in Hl. rewrite Hl. simpl. by eexists.
Qed.

Lemma open_empty_ok cap quota fi :
  open_inbox true cap quota EmptyString = Ok fi →
  0 < cap ≤ DEFAULT_INBOX_CAPACITY ∧ 0 < quota ≤ cap ∧ file_ok cap quota fi.
Proof.
  unfold open_inbox.
  destruct (N.eqb_spec cap 0); [done|].
  destruct (N.ltb_spec DEFAULT_INBOX_CAPACITY cap) as [|Hc]; [done|].
  destruct (N.eqb_spec quota 0); [done|]. destruct (N.ltb_spec cap quota); [done|]. simpl.
  intros [= <-]. split; [lia|]. split; [lia|]. split; simpl; try done.
  - apply inbox_new_wf. unfold DEFAULT_INBOX_CAPACITY, u64_max in *. lia.
  - by exists [], (inbox_new cap quota).
Qed.

Lemma file_reachable_ok cap quota fi :
  file_reachable cap quota fi →
  0 < cap ≤ DEFAULT_INBOX_CAPACITY ∧ 0 < quota ≤ cap ∧ file_ok cap quota fi.
Proof.
  induction 1 as [fi Ho|fi fi' _ (Hc & Hq & Hf) Hs]; [by apply open_empty_ok|].
  eauto using file_step_ok.
Qed.
End proofs.

(** C28. The journal is a faithful record of the inbox.  Start a file inbox on
    an empty journal and run any sequence of records, polls, acknowledgements,
    cancellations and retention sweeps, with compactions at any point, under the
    conditions of [file_step]: an append that fails leaves no bytes behind, a
    poll reads a clock that has reached every delivery time on record, and a
    sweep's compacted journal that was renamed into place is opened again.  Then
    reopening the journal always succeeds, and recovers every command with its
    exact delivery history, in the same order, together with every tombstone. *)
Theorem restart_recovers `{LineCodecLaws InboxRecord} (cap quota : N) (fi : FileCommandInbox) :
  file_reachable cap quota fi →
  ∃ fi', open_inbox true cap quota (fi_disk fi) = Ok fi' ∧
         recovers (fi_state fi') (fi_state fi).
Proof.
  intros (Hc & Hq & Hf)%file_reachable_ok.
  destruct (open_ok_journal cap quota fi Hc Hq Hf) as (fi' & Ho & Hrec & _). eauto.
Qed.

(** ** Interrupted appends *)
Section torn.
Context `{LineCodecLaws InboxRecord}.

(** A torn batch reads back as a prefix of its records, or not at all. *)
Lemma load_torn rs batch n s :
  Forall (λ r, str_len (record_bytes r) ≤ MAX_INBOX_RECORD_BYTES) (rs ++ batch) →
  is_ok (load_lines (read_lines (journal_bytes rs +:+ str_take n (journal_bytes batch))) s) = false ∨
  ∃ j, load_lines (read_lines (journal_bytes rs +:+ str_take n (journal_bytes batch))) s =
       replay (rs ++ take j batch) s.
Proof.
  intros HF. destruct (str_take_journal n batch) as (d & nx & tail & -> & -> & Ht).
  rewrite <- string_app_assoc, <- journal_bytes_app, load_journal.
  2: { rewrite (assoc (++)) in HF. by apply Forall_app in HF as [? _]. }
  rewrite (assoc (++)) in HF. apply Forall_app in HF as [_ HFn].
  apply read_lines_torn in Ht as [->|[(r & rest & -> & ->)|(line & -> & Hl)]].
  - right. exists (length d). rewrite take_app_length. by destruct (replay (rs ++ d) s).
  - right. exists (length d + 1)%nat. rewrite take_app_add. cbn [take]. rewrite (assoc (++)), (replay_app (rs ++ d) [r]).
    apply Forall_cons in HFn as [Hr _].
    destruct (replay (rs ++ d) s); cbn [mbind result_bind load_lines replay]; [|done].
    by rewrite load_line_record.
  - left. destruct (replay (rs ++ d) s); [|done]. cbn [mbind result_bind load_lines].
    unfold load_line. case_match; [done|]. by rewrite Hl.
Qed.

(** A failed append of [rs] wrote nothing, or a prefix of its bytes. *)
Lemma append_batch_torn n rs fi :
  (append_batch (AppendWriteFails n) rs fi).2 = fi ∨
  (fi_disk (append_batch (AppendWriteFails n) rs fi).2 =
     fi_disk fi +:+ str_take n (journal_bytes rs) ∧
   Forall (λ r, str_len (record_bytes r) ≤ MAX_INBOX_RECORD_BYTES) rs ∧ rs ≠ []).
Proof.
  unfold append_batch. destruct rs as [|r rs]; [by left|].
  destruct (encode_records (r :: rs)) as [encoded|] eqn:E; [|by left].
  apply encode_records_spec in E as [-> [HF _]].
  destruct (negb (fi_open fi)); [by left|].
  destruct (MAX_INBOX_FILE_BYTES <? _); [by left|]. right. done.
Qed.

Lemma file_claim_torn_state n meta cio target allows policy now fi :
  deliverable (fi_state fi) target allows policy now ≠ [] →
  (file_claim (AppendWriteFails n) meta cio target allows policy now fi).2 =
  (append_batch (AppendWriteFails n)
     (delivery_record (fi_state fi) now <$> deliverable (fi_state fi) target allows policy now)
     fi).2.
Proof.
  intros Hne. unfold file_claim.
  destruct (deliverable (fi_state fi) target allows policy now) as [|k keys]; [done|].
  unfold append_batch. csimpl. destruct (encode_records _); [|done].
  destruct (negb (fi_open fi)); [done|]. by destruct (MAX_INBOX_FILE_BYTES <? _).
Qed.
End torn.

(** A poll whose journal write is torn, at any byte, never loses or invents
    a command: reopening the journal either is refused or recovers the inbox
    as it was, with the deliveries of a prefix of the poll's commands
    recorded. *)
Theorem torn_claim_recovers `{LineCodecLaws InboxRecord} (cap quota : N) (fi : FileCommandInbox)
    (n : nat) (meta : bool) (cio : CompactIo) (target : PollTarget)
    (allows : string → string → bool) (policy : DeliveryPolicy) (now : N) :
  file_reachable cap quota fi → clock_reached (fi_state fi) now →
  let keys := deliverable (fi_state fi) target allows policy now in
  let fi' := (file_claim (AppendWriteFails n) meta cio target allows policy now fi).2 in
  keys ≠ [] →
  is_ok (open_inbox true cap quota (fi_disk fi')) = false ∨
  ∃ fi'' j, open_inbox true cap quota (fi_disk fi') = Ok fi'' ∧
            recovers (fi_state fi'') (mark_all (fi_state fi) (take j keys) now).2.
Proof.
  intros Hr Hclk keys fi' Hne. subst fi'. rewrite file_claim_torn_state by done. fold keys.
  apply file_reachable_ok in Hr as (Hc & Hq & Hf).
  destruct (append_batch_torn n (delivery_record (fi_state fi) now <$> keys) fi)
    as [->|(-> & HF & _)].
  { right. destruct (open_ok_journal cap quota fi Hc Hq Hf) as (fi'' & Ho & Hrec & _).
    by exists fi'', 0%nat. }
  pose proof Hf as [Hwf _ _ _ (rs & r & -> & [HF0 _] & Hrep & Hrec)].
  destruct (is_ok (open_inbox true cap quota _)) eqn:Hopen; [right|by left].
  unfold open_inbox in *. do 4 (case_match; [done|]).
  destruct (load_torn rs (delivery_record (fi_state fi) now <$> keys) n (inbox_new cap quota))
    as [Hbad|[j Hj]].
  { by apply Forall_app. }
  { destruct (load_lines _ _); done. }
  rewrite Hj, replay_app, Hrep, <- fmap_take. cbn [mbind result_bind].
  destruct (replay_deliveries r (fi_state fi) (take j keys) now Hrec Hwf Hclk) as (r' & -> & Hr').
  - eapply sublist_NoDup; [|apply sublist_take]. apply deliverable_nodup, Hwf.
  - intros k e Hk He. eapply elem_of_sublist in Hk; [|apply sublist_take].
    apply elem_of_deliverable in Hk as (_ & e' & ? & Hd%entry_deliverable_true). simplify_eq. tauto.
  - eexists _, j. split; [done|]. done.
Qed.

(** ** Concrete journals

    The bit codec of Journal, and a process that opens an empty journal with
    room for four commands, two per scope, and records one command. *)
#[global] Instance PendingCommand_countable : Countable PendingCommand.
Proof.
  refine (inj_countable'
    (λ c, ([pc_command_id c; pc_workspace_id c; pc_namespace_id c; pc_agent_id c; pc_run_id c;
            pc_trace_id c; pc_action c; pc_parameters c; pc_issued_at c],
           pc_reason_code c, pc_delivery_attempt c))
    (λ t, let f i := default EmptyString (t.1.1 !! i) in
          mkPendingCommand (f 0%nat) (f 1%nat) (f 2%nat) (f 3%nat) (f 4%nat) (f 5%nat) (f 6%nat)
            t.1.2 (f 7%nat) (f 8%nat) t.2) _).
  by intros [].
Defined.

#[global] Instance InboxRecord_eq_dec : EqDecision InboxRecord.
Proof. solve_decision. Defined.

#[global] Instance InboxRecord_countable : Countable InboxRecord.
Proof.
  refine (inj_countable'
    (λ r, match r with
          | RCommand c => inl c
          | RDelivered k a t => inr (0%nat, k, a, t)
          | RAcknowledged k t => inr (1%nat, k, 0, t)
          | RRetired k t => inr (2%nat, k, 0, t)
          | RCancelled k t => inr (3%nat, k, 0, t)
          end)
    (λ t, match t with
          | inl c => RCommand c
          | inr (0%nat, k, a, t) => RDelivered k a t
          | inr (1%nat, k, _, t) => RAcknowledged k t
          | inr (2%nat, k, _, t) => RRetired k t
          | inr (_, k, _, t) => RCancelled k t
          end) _).
  by intros [].
Defined.

Definition inbox_codec : LineCodec InboxRecord := bit_codec InboxRecord.
Lemma inbox_codec_laws : @LineCodecLaws InboxRecord inbox_codec.
Proof. apply bit_codec_laws. Qed.

Definition demo_empty (cap quota : N) : FileCommandInbox :=
  mkFileCommandInbox true EmptyString (inbox_new cap quota) 0.
Definition demo_file : FileCommandInbox :=
  (@file_record inbox_codec AppendOk (demo_command "acme" "cmd-1" "agent-a") (demo_empty 4 2)).2.

Lemma demo_file_reachable : @file_reachable inbox_codec 4 2 demo_file.
Proof. eapply fr_step; [by apply fr_open|]. by apply fs_record. Qed.

Example restart_recovers_witness :
  ∃ fi', @open_inbox inbox_codec true 4 2 (fi_disk demo_file) = Ok fi' ∧
         recovers (fi_state fi') (fi_state demo_file).
Proof. apply (@restart_recovers inbox_codec inbox_codec_laws), demo_file_reachable. Defined.

Example torn_claim_recovers_witness :
  is_ok (@open_inbox inbox_codec true 4 2 (fi_disk
    (@file_claim inbox_codec (AppendWriteFails 10) true CompactTempFails agent_a any_scope
       default_policy 1000 demo_file).2)) = false ∨
  ∃ fi'' j, @open_inbox inbox_codec true 4 2 (fi_disk
      (@file_claim inbox_codec (AppendWriteFails 10) true CompactTempFails agent_a any_scope
         default_policy 1000 demo_file).2) = Ok fi'' ∧
    recovers (fi_state fi'') (mark_all (fi_state demo_file) (take j
      (deliverable (fi_state demo_file) agent_a any_scope default_policy 1000)) 1000).2.
Proof.
  apply (@torn_claim_recovers inbox_codec inbox_codec_laws 4 2 demo_file).
  - apply demo_file_reachable.
  - intros k e d He Hd.
    assert (Hz : map_Forall (λ _ e, en_last_delivered e = None) (entries (fi_state demo_file))).
    { apply (bool_decide_unpack _). vm_compute. exact I. }
    rewrite (Hz k e He) in Hd. discriminate Hd.
  - vm_compute. discriminate.
Defined.

(** ** Restarts after compaction

    Lifetimes of a file inbox whose I/O always succeeds. *)
Inductive file_op :=
  | FRecord (c : PendingCommand)
  | FClaim (target : PollTarget) (now : N)
  | FAcknowledge (target : PollTarget) (key : InboxKey) (attempt now : N)
  | FMaintain (now retention : N)
  | FRestart.

Section lifetimes.
Context `{LineCodec InboxRecord}.

Definition run_file_op (cap quota : N) (op : file_op) (fi : FileCommandInbox) :
    result CommandError FileCommandInbox :=
  match op with
  | FRecord c => Ok (file_record AppendOk c fi).2
  | FClaim target now =>
      Ok (file_claim AppendOk true (CompactRenamed true) target any_scope default_policy now fi).2
  | FAcknowledge target key attempt now => Ok (file_acknowledge AppendOk target key attempt now fi).2
  | FMaintain now retention =>
      Ok (file_maintain (CompactRenamed true) now retention (max_attempts default_policy) fi).2
  | FRestart => open_inbox true cap quota (fi_disk fi)
  end.

Fixpoint run_file (cap quota : N) (ops : list file_op) (fi : FileCommandInbox) :
    result CommandError FileCommandInbox :=
  match ops with
  | [] => Ok fi
  | op :: ops => fi' ← run_file_op cap quota op fi; run_file cap quota ops fi'
  end.
End lifetimes.

Definition acme_key (id : string) : InboxKey := mkInboxKey "acme" "prod" id.
Definition acme_cmd (id : string) : PendingCommand := demo_command "acme" id "agent-a".

(** Two commands fill a scope's quota of two; one is delivered, acknowledged
    and retired by a sweep, which compacts; the process restarts. *)
Definition refill : list file_op :=
  [FRecord (acme_cmd "a"); FRecord (acme_cmd "b"); FClaim agent_a 1000;
   FAcknowledge agent_a (acme_key "a") 1 1100; FMaintain 2000 500; FRestart].

(** A restart loses the tombstones' share of the scope quota, and the loss
    can make the journal unreadable.  A scope with quota two holds one live
    command and one tombstone, so it is full; after a restart it accepts a
    third command; when the tombstone expires the counter is decremented
    although the replay never counted it, a fourth command is accepted, and
    the journal of three live commands is refused by every later start. *)
Theorem restart_quota_bypass :
  let run ops := @run_file inbox_codec 10 2 ops (demo_empty 10 2) in
  match run refill with
  | Err _ => False
  | Ok fi =>
      scope_quota (fi_state fi) = 2 ∧ scope_share (fi_state fi) ("acme", "prod") = 2 ∧
      (@file_record inbox_codec AppendOk (acme_cmd "c") fi).1 = Ok Recorded
  end ∧
  match run (refill ++ [FRecord (acme_cmd "c"); FMaintain 3000 500; FRecord (acme_cmd "d")]) with
  | Err _ => False
  | Ok fi =>
      scope_share (fi_state fi) ("acme", "prod") = 3 ∧
      @open_inbox inbox_codec true 10 2 (fi_disk fi) = Err scope_full
  end.
Proof. vm_compute. repeat split. Qed.

(** Page cursors do not survive a restart.  Of four commands two have been
    retired; a client lists one command per page and is told to resume after
    sequence 3.  A restart renumbers the remaining commands from 1, so
    resuming returns an empty, complete page: the last command is skipped. *)
Theorem cursor_lost_on_restart :
  let ops := [FRecord (acme_cmd "a"); FRecord (acme_cmd "b"); FRecord (acme_cmd "c");
              FRecord (acme_cmd "d"); FClaim (mkPollTarget "agent-a" 2) 1000;
              FAcknowledge agent_a (acme_key "a") 1 1100;
              FAcknowledge agent_a (acme_key "b") 1 1100; FMaintain 2000 500] in
  let q after := mkListCommandsQuery "acme" "prod" None None after 1 8 in
  let page fi after := list_commands (fi_state fi) (q after) in
  match @run_file inbox_codec 10 10 ops (demo_empty 10 10) with
  | Err _ => False
  | Ok fi =>
      cs_command_id <$> lp_commands (page fi 0) = ["c"] ∧
      cs_sequence <$> lp_commands (page fi 0) = [3] ∧ lp_has_more (page fi 0) = true ∧
      cs_command_id <$> lp_commands (page fi 3) = ["d"]
  end ∧
  match @run_file inbox_codec 10 10 (ops ++ [FRestart]) (demo_empty 10 10) with
  | Err _ => False
  | Ok fi =>
      bool_decide (is_Some (entries (fi_state fi) !! acme_key "d")) = true ∧
      lp_commands (page fi 3) = [] ∧ lp_has_more (page fi 3) = false
  end.
Proof. vm_compute. repeat split. Qed.
