(* ===== verification/CommandInbox.v ===== *)
(** * The inbox contract

    The trait [CommandInbox] of [apps/control-plane-api/src/inbox.rs] as a type
    class, what an implementation promises against the inbox state of Inbox, and
    the two local implementations ([InMemoryCommandInbox] and
    [FileCommandInbox]) that keep the promise.  [ControlInboxBackend] of
    [inbox/backend.rs] puts an implementation behind the lock of Backend. *)
From S2P Require Import Prelude RustStr Journal Errors Backend Inbox InboxWf InboxDelivery InboxFile.
From S2P Require Import InboxReplay InboxRecovery.

Open Scope N_scope.

(** ** The trait *)

(** The trait's methods; [ci_io] describes what the input and output of one call
    come to. *)
Class CommandInbox (I : Type) := {
  ci_io : Type;
  ci_record : ci_io → PendingCommand → ST I CommandError RecordResult;
  ci_claim : ci_io → PollTarget → (string → string → bool) → DeliveryPolicy → N →
    ST I CommandError (list PendingCommand);
  ci_try_undelivered_count : ci_io → ST I CommandError N;
  ci_try_pending_count : ci_io → ST I CommandError N;
  ci_acknowledge : ci_io → PollTarget → InboxKey → N → N → ST I CommandError AckResult;
  ci_status : ci_io → InboxKey → N → ST I CommandError (option (DeliveryStatus * N));
  ci_list_commands : ci_io → ListCommandsQuery → ST I CommandError ListCommandsPage;
  ci_cancel : ci_io → InboxKey → N → ST I CommandError CancelResult;
  ci_maintain : ci_io → N → N → N → ST I CommandError unit;
}.
Arguments ci_io I {_}.

(** A call that succeeds answers what [op] answers on the state it shows and
    leaves what [op] leaves, up to dead identities in the order; one that fails
    leaves the state as it was. *)
Definition answers {I A} (view : I → InboxState)
    (op : InboxState → result CommandError A * InboxState) (m : ST I CommandError A) (i : I) : Prop :=
  match m i with
  | (Ok a, i') => ∃ s', op (view i) = (Ok a, s') ∧ (view i' = s' ∨ view i' = retain_live s')
  | (Err _, i') => view i' = view i
  end.

(** An operation that cannot fail. *)
Definition infallible {A} (op : InboxState → A * InboxState) :
    InboxState → result CommandError A * InboxState := λ s, let '(a, s') := op s in (Ok a, s').
(** An operation that only reads. *)
Definition reading {A} (op : InboxState → A) : InboxState → result CommandError A * InboxState :=
  λ s, (Ok (op s), s).

(** The promise, of an inbox whose state is well formed. *)
Class InboxLaws (I : Type) `{CommandInbox I} := {
  inbox_view : I → InboxState;
  record_law io c i : inbox_wf (inbox_view i) → answers inbox_view (record c) (ci_record io c) i;
  claim_law io target allows policy now i : inbox_wf (inbox_view i) →
    answers inbox_view (infallible (claim target allows policy now))
      (ci_claim io target allows policy now) i;
  undelivered_law io i : inbox_wf (inbox_view i) →
    answers inbox_view (reading undelivered_count) (ci_try_undelivered_count io) i;
  pending_law io i : inbox_wf (inbox_view i) →
    answers inbox_view (reading pending_count) (ci_try_pending_count io) i;
  acknowledge_law io target key attempt now i : inbox_wf (inbox_view i) →
    answers inbox_view (infallible (acknowledge target key attempt))
      (ci_acknowledge io target key attempt now) i;
  status_law io key max i : inbox_wf (inbox_view i) →
    answers inbox_view (reading (λ s, status s key max)) (ci_status io key max) i;
  list_law io q i : inbox_wf (inbox_view i) →
    answers inbox_view (reading (λ s, list_commands s q)) (ci_list_commands io q) i;
  cancel_law io key now i : inbox_wf (inbox_view i) →
    answers inbox_view (cancel key now) (ci_cancel io key now) i;
  (** An implementation need not sweep. *)
  maintain_law io now retention max i : inbox_wf (inbox_view i) →
    let i' := (ci_maintain io now retention max i).2 in
    inbox_view i' = inbox_view i
    ∨ inbox_view i' = (maintain_state now retention max (inbox_view i)).2
    ∨ inbox_view i' = retain_live (maintain_state now retention max (inbox_view i)).2;
}.

(** What follows for any implementation: every call keeps the state well
    formed. *)
Lemma answers_wf {I A} (view : I → InboxState) op (m : ST I CommandError A) (i : I) :
  answers view op m i → inbox_wf (view i) → inbox_wf (op (view i)).2 → inbox_wf (view (m i).2).
Proof.
  unfold answers. intros Ha Hwf Hop. destruct (m i) as [[a|e] i']; simpl in *; [|by rewrite Ha].
  destruct Ha as (s' & Hs' & [->| ->]); rewrite Hs' in Hop; simpl in Hop; auto with apex.
Qed.

Section laws.
Context {I : Type} `{InboxLaws I}.

Lemma ci_record_wf io c i : inbox_wf (inbox_view i) → inbox_wf (inbox_view (ci_record io c i).2).
Proof. intros Hwf. eapply answers_wf; [by apply record_law|done|by apply record_wf]. Qed.

Lemma ci_claim_wf io target allows policy now i :
  inbox_wf (inbox_view i) → inbox_wf (inbox_view (ci_claim io target allows policy now i).2).
Proof.
  intros Hwf. eapply answers_wf; [by apply claim_law|done|]. unfold infallible.
  pose proof (claim_wf target allows policy now _ Hwf) as Hc.
  by destruct (claim target allows policy now (inbox_view i)).
Qed.

Lemma ci_acknowledge_wf io target key attempt now i :
  inbox_wf (inbox_view i) → inbox_wf (inbox_view (ci_acknowledge io target key attempt now i).2).
Proof.
  intros Hwf. eapply answers_wf; [by apply acknowledge_law|done|]. unfold infallible.
  pose proof (acknowledge_wf target key attempt _ Hwf) as Hc.
  by destruct (acknowledge target key attempt (inbox_view i)).
Qed.

Lemma ci_cancel_wf io key now i :
  inbox_wf (inbox_view i) → inbox_wf (inbox_view (ci_cancel io key now i).2).
Proof. intros Hwf. eapply answers_wf; [by apply cancel_law|done|by apply cancel_wf]. Qed.

Lemma ci_status_wf io key max i :
  inbox_wf (inbox_view i) → inbox_wf (inbox_view (ci_status io key max i).2).
Proof. intros Hwf. eapply answers_wf; [by apply status_law|done|done]. Qed.

Lemma ci_list_wf io q i :
  inbox_wf (inbox_view i) → inbox_wf (inbox_view (ci_list_commands io q i).2).
Proof. intros Hwf. eapply answers_wf; [by apply list_law|done|done]. Qed.

Lemma ci_maintain_wf io now retention max i :
  inbox_wf (inbox_view i) → inbox_wf (inbox_view (ci_maintain io now retention max i).2).
Proof.
  intros Hwf. destruct (maintain_law io now retention max i Hwf) as [->|[->| ->]]; auto with apex.
Qed.
End laws.

#[export] Hint Resolve ci_record_wf ci_claim_wf ci_acknowledge_wf ci_cancel_wf ci_status_wf
  ci_list_wf ci_maintain_wf : apex.

(** The inbox knows an identity: live, or as a tombstone. *)
Definition known (s : InboxState) (k : InboxKey) : Prop :=
  is_Some (entries s !! k) ∨ is_Some (retired s !! k).

Lemma record_known c s r s' : record c s = (Ok r, s') → known s' (Inbox.key_of c).
Proof.
  unfold record, check_recordable. intros Hr. unfold known.
  destruct (bool_decide_reflect (is_Some (entries s !! Inbox.key_of c))) as [Hin|];
    [simplify_eq/=; by left|].
  destruct (bool_decide_reflect (is_Some (retired s !! Inbox.key_of c))) as [Hin|];
    [simplify_eq/=; by right|].
  cbn [orb] in Hr. destruct (capacity s <=? _); [done|]. destruct (scope_quota s <=? _); [done|].
  simplify_eq/=. left. rewrite lookup_insert_eq. eauto.
Qed.

(** An entry that waits for its first delivery. *)
Definition undelivered (e : Entry) : Prop :=
  en_attempts e = 0 ∧ en_last_delivered e = None ∧ en_acknowledged e = false ∧ en_cancelled e = false.

(** ** The in-memory inbox *)

Record InMemoryCommandInbox := mkInMemory { im_state : InboxState }.

Definition in_memory {A} (op : InboxState → result CommandError A * InboxState) :
    ST InMemoryCommandInbox CommandError A := λ i,
  let '(r, s') := op (im_state i) in (r, mkInMemory s').

#[global] Instance in_memory_inbox : CommandInbox InMemoryCommandInbox := {
  ci_io := unit;
  ci_record _ c := in_memory (record c);
  ci_claim _ target allows policy now := in_memory (infallible (claim target allows policy now));
  ci_try_undelivered_count _ := in_memory (reading undelivered_count);
  ci_try_pending_count _ := in_memory (reading pending_count);
  ci_acknowledge _ target key attempt _ := in_memory (infallible (acknowledge target key attempt));
  ci_status _ key max := in_memory (reading (λ s, status s key max));
  ci_list_commands _ q := in_memory (reading (λ s, list_commands s q));
  ci_cancel _ key now := in_memory (cancel key now);
  ci_maintain _ _ _ _ := mret tt;
}.

Lemma in_memory_answers {A} (op : InboxState → result CommandError A * InboxState)
    (i : InMemoryCommandInbox) :
  (∀ e, (op (im_state i)).1 = Err e → (op (im_state i)).2 = im_state i) →
  answers im_state op (in_memory op) i.
Proof.
  unfold answers, in_memory. intros He. destruct (op (im_state i)) as [[a|e] s']; simpl in *.
  - exists s'. auto.
  - by apply (He e).
Qed.

Lemma record_fails c s e : (record c s).1 = Err e → (record c s).2 = s.
Proof. unfold record. by destruct (check_recordable s c) as [[]|]. Qed.

Lemma infallible_ok {A} (op : InboxState → A * InboxState) s e : (infallible op s).1 ≠ Err e.
Proof. unfold infallible. by destruct (op s). Qed.

#[global] Instance in_memory_laws : InboxLaws InMemoryCommandInbox.
Proof.
  refine {| inbox_view := im_state |}; intros; try apply in_memory_answers; try done.
  - intros e. apply record_fails.
  - intros e He. by apply infallible_ok in He.
  - intros e He. by apply infallible_ok in He.
  - intros e He. apply cancel_other. by rewrite He.
  - by left.
Defined.

(** ** The file-backed inbox *)

(** The outcomes of the I/O a call may perform. *)
Record FileIo := mkFileIo { io_append : AppendIo; io_metadata : bool; io_compact : CompactIo }.

Section file.
Context `{LineCodec InboxRecord}.

(** A method that reads [self.state]. *)
Definition file_read {A} (op : InboxState → A) : ST FileCommandInbox CommandError A := λ fi,
  (Ok (op (fi_state fi)), fi).

#[global] Instance file_inbox : CommandInbox FileCommandInbox := {
  ci_io := FileIo;
  ci_record io c := file_record (io_append io) c;
  ci_claim io target allows policy now :=
    file_claim (io_append io) (io_metadata io) (io_compact io) target allows policy now;
  ci_try_undelivered_count _ := file_read undelivered_count;
  ci_try_pending_count _ := file_read pending_count;
  ci_acknowledge io target key attempt now := file_acknowledge (io_append io) target key attempt now;
  ci_status _ key max := file_read (λ s, status s key max);
  ci_list_commands _ q := file_read (λ s, list_commands s q);
  ci_cancel io key now := file_cancel (io_append io) key now;
  ci_maintain io now retention max := file_maintain (io_compact io) now retention max;
}.

(** Whatever becomes of its I/O, an append leaves the state in memory alone. *)
Lemma append_batch_state io rs fi : fi_state (append_batch io rs fi).2 = fi_state fi.
Proof.
  unfold append_batch. destruct rs as [|r rs]; [done|].
  destruct (encode_records (r :: rs)); [|done]. destruct (fi_open fi); [|done]. simpl.
  destruct io as [|n|]; [done|by case_match..].
Qed.

(** A compaction drops dead identities from the order, or does nothing. *)
Lemma compact_state io fi :
  fi_state (compact io fi).2 = fi_state fi
  ∨ fi_state (compact io fi).2 = retain_live (fi_state fi).
Proof.
  unfold compact. destruct (encode_records _); [|by left].
  destruct io as [|[]|[]], (fi_open fi); simpl; auto.
Qed.

Lemma file_read_answers {A} (op : InboxState → A) (fi : FileCommandInbox) :
  answers fi_state (reading op) (file_read op) fi.
Proof. unfold answers. simpl. eexists. split; [done|]. by left. Qed.

Lemma file_record_answers io c fi : answers fi_state (record c) (file_record io c) fi.
Proof.
  unfold answers, file_record, record. destruct (is_recordable c); [|done]. cbn [negb].
  destruct (check_recordable (fi_state fi) c) as [[r|]|]; [eauto| |done].
  pose proof (append_batch_state io [RCommand c] fi) as Hst.
  destruct (append_batch io [RCommand c] fi) as [[]]; simpl in *; [|done]. rewrite Hst. eauto.
Qed.

Lemma file_claim_answers io meta cio target allows policy now fi :
  answers fi_state (infallible (claim target allows policy now))
    (file_claim io meta cio target allows policy now) fi.
Proof.
  unfold answers, file_claim, infallible, claim.
  set (keys := deliverable (fi_state fi) target allows policy now).
  pose proof (append_batch_state io (delivery_record (fi_state fi) now <$> keys) fi) as Hst.
  destruct (append_batch io _ fi) as [[] fi']; simpl in *; [|done]. rewrite Hst.
  destruct (mark_all (fi_state fi) keys now) as [delivered s']. eexists. split; [done|].
  unfold compact_if_needed. do 2 (case_match; [by left|]).
  match goal with |- context [compact cio ?f] => apply (compact_state cio f) end.
Qed.

Lemma file_acknowledge_answers io target key attempt now fi :
  answers fi_state (infallible (acknowledge target key attempt))
    (file_acknowledge io target key attempt now) fi.
Proof.
  unfold answers, file_acknowledge, infallible.
  destruct (acknowledge target key attempt (fi_state fi)) as [r s'] eqn:Hr.
  destruct r; [|eexists; split; [done|by left]..].
  pose proof (append_batch_state io [RAcknowledged key now] (set_state s' fi)) as Hst.
  destruct (append_batch io _ _) as [[|err] fi']; simpl in *; [by eauto|]. rewrite Hst.
  apply acknowledge_update in Hr as [-> (e & He & Ha)]. unfold update_entry at 2. rewrite He.
  apply update_entry_undo; [done|]. destruct e; simpl in *. by subst.
Qed.

Lemma file_cancel_answers io key now fi :
  inbox_wf (fi_state fi) → answers fi_state (cancel key now) (file_cancel io key now) fi.
Proof.
  intros Hwf. unfold answers, file_cancel.
  pose proof (cancel_other key now (fi_state fi)) as Hother.
  destruct (cancel key now (fi_state fi)) as [[r|e] s'] eqn:Hr; [|by apply Hother].
  destruct r; [|eexists; split; [done|by left]..].
  pose proof (append_batch_state io [RCancelled key now] (set_state s' fi)) as Hst.
  destruct (append_batch io _ _) as [[|err] fi']; simpl in *; [by eauto|]. rewrite Hst.
  apply cancel_update in Hr as [-> (e & He & Ha)]. unfold update_entry at 2. rewrite He.
  apply update_entry_undo; [done|].
  pose proof (eo_cancelled_at _ _ (wf_entries _ Hwf _ _ He)) as Hat. destruct e as [?????? [t|]]; simpl in *.
  - subst. destruct Hat as [_ Hat]. by specialize (Hat (ex_intro _ t eq_refl)).
  - by subst.
Qed.

Lemma file_maintain_state cio now retention max fi :
  let fi' := (file_maintain cio now retention max fi).2 in
  fi_state fi' = fi_state fi
  ∨ fi_state fi' = (maintain_state now retention max (fi_state fi)).2
  ∨ fi_state fi' = retain_live (maintain_state now retention max (fi_state fi)).2.
Proof.
  unfold file_maintain. destruct (maintain_state now retention max (fi_state fi)) as [changed s'].
  destruct changed; simpl; [|by auto]. pose proof (compact_state cio (set_state s' fi)) as Hc.
  destruct (compact cio (set_state s' fi)) as [[] fi']; simpl in *; [|by left]. auto.
Qed.

#[global] Instance file_laws : InboxLaws FileCommandInbox.
Proof.
  refine {| inbox_view := fi_state |}; intros; try apply file_read_answers.
  - apply file_record_answers.
  - apply file_claim_answers.
  - apply file_acknowledge_answers.
  - by apply file_cancel_answers.
  - apply file_maintain_state.
Defined.
End file.

(** ** Behind the lock *)

(** The methods of [ControlInboxBackend]. *)
Section backend.
Context {I : Type} `{CommandInbox I}.

Definition backend_pending_count (io : ci_io I) : ST (Backend I) CommandError N :=
  locked (ci_try_pending_count io).
Definition backend_undelivered_count (io : ci_io I) : ST (Backend I) CommandError N :=
  locked (ci_try_undelivered_count io).
Definition backend_record (io : ci_io I) (c : PendingCommand)
    : ST (Backend I) CommandError RecordResult := locked (ci_record io c).
Definition backend_claim (io : ci_io I) (target : PollTarget) (allows : string → string → bool)
    (policy : DeliveryPolicy) (now_millis : N) : ST (Backend I) CommandError (list PendingCommand) :=
  locked (ci_claim io target allows policy now_millis).
Definition backend_acknowledge (io : ci_io I) (target : PollTarget) (key : InboxKey)
    (delivery_attempt now_millis : N) : ST (Backend I) CommandError AckResult :=
  locked (ci_acknowledge io target key delivery_attempt now_millis).
Definition backend_status (io : ci_io I) (key : InboxKey) (max : N)
    : ST (Backend I) CommandError (option (DeliveryStatus * N)) := locked (ci_status io key max).
Definition backend_list_commands (io : ci_io I) (q : ListCommandsQuery)
    : ST (Backend I) CommandError ListCommandsPage := locked (ci_list_commands io q).
Definition backend_cancel (io : ci_io I) (key : InboxKey) (now_millis : N)
    : ST (Backend I) CommandError CancelResult := locked (ci_cancel io key now_millis).
End backend.
