(* ===== verification/Reconcile.v ===== *)
(** * Retention and reconciliation

    One round of each of the two workers that keep outbox and inbox in step
    ([apps/control-plane-api/src/startup/service/workers.rs]): the retention
    sweep, and the reconciliation that rebuilds delivery records lost between
    the two writes of an accepted command. *)
From S2P Require Import Prelude RustStr Errors Journal Backend Convert Domain Codecs Admission OperatorAuth.
From S2P Require Import Time Envelope Inbox InboxWf InboxDelivery InboxFile InboxReplay InboxRecovery.
From S2P Require Import CommandInbox Outbox OutboxFile OutboxLaws OutboxFileLaws Replay.

Open Scope N_scope.

Definition INBOX_RECONCILIATION_BATCH : N := 256.

(** [EventOutbox::maintain]; the in-memory store has the trait's default. *)
Class OutboxMaintain (O : Type) := outbox_maintain : N → N → ST O GatewayErrorCode unit.
#[global] Instance memory_maintain : OutboxMaintain InMemoryOutbox := λ _ _, mret tt.
#[global] Instance file_outbox_maintain `{LineCodec FileOutboxRecord} : OutboxMaintain FileOutbox :=
  file_maintain_outbox.

(** The counters these workers write. *)
Record WorkerMetrics := mkWorkerMetrics {
  wm_retention_failures : N;
  wm_repairs : N;
  wm_failures : N;
}.
Definition wm_retention (m : WorkerMetrics) : WorkerMetrics :=
  mkWorkerMetrics (wm_retention_failures m + 1) (wm_repairs m) (wm_failures m).
Definition wm_repair (m : WorkerMetrics) : WorkerMetrics :=
  mkWorkerMetrics (wm_retention_failures m) (wm_repairs m + 1) (wm_failures m).
Definition wm_failure (m : WorkerMetrics) : WorkerMetrics :=
  mkWorkerMetrics (wm_retention_failures m) (wm_repairs m) (wm_failures m + 1).

Section workers.
Context {O I : Type} `{EventOutbox O, OutboxMaintain O, CommandInbox I, EnvelopeDeps}.

(** The two stores and the counters. *)
Record Stores := mkStores {
  ws_outbox : Backend O;
  ws_inbox : Backend I;
  ws_metrics : WorkerMetrics;
}.

(** A round of [spawn_inbox_retention_worker]: the inbox first, then the
    outbox, whatever became of the inbox. *)
Definition retention_sweep (io : ci_io I) (now retention_millis : N) (w : Stores) : Stores :=
  let '(r1, ib) :=
    with_lock (ci_maintain io now retention_millis DEFAULT_MAX_DELIVERY_ATTEMPTS) (ws_inbox w) in
  let inbox_failed := match r1 with Ok (Ok _) => false | _ => true end in
  let '(r2, ob) := with_lock (outbox_maintain now retention_millis) (ws_outbox w) in
  let outbox_failed := negb (is_ok (flatten_lock r2)) in
  mkStores ob ib (if outbox_failed || inbox_failed then wm_retention (ws_metrics w) else ws_metrics w).

(** The [for event in events] loop; [io n] is the I/O of the [n]th record. *)
Fixpoint reconcile_events (io : nat → ci_io I) (n : nat) (events : list IngestRequest)
    (ib : Backend I) (m : WorkerMetrics) : Backend I * WorkerMetrics :=
  match events with
  | [] => (ib, m)
  | event :: events =>
      match pending_command_from_ingest_request event with
      | Err _ => reconcile_events io (S n) events ib (wm_failure m)
      | Ok delivery =>
          let '(r, ib) := with_lock (ci_record (io n) delivery) ib in
          reconcile_events io (S n) events ib
            match r with
            | Ok (Ok Recorded) => wm_repair m
            | Ok (Ok AlreadyRecorded) => m
            | Ok (Err _) | Err _ => wm_failure m
            end
      end
  end.

(** A round of [spawn_inbox_reconciliation_worker]. *)
Definition reconcile (io : nat → ci_io I) (now retention_millis : N) (w : Stores) : Stores :=
  let since := now - retention_millis in
  let '(r1, ob) := with_lock (pending_reconciliation_batch INBOX_RECONCILIATION_BATCH) (ws_outbox w) in
  match flatten_lock r1 with
  | Err _ => mkStores ob (ws_inbox w) (wm_failure (ws_metrics w))
  | Ok events =>
      let '(r2, ob) := with_lock (recent_completed_batch since INBOX_RECONCILIATION_BATCH) ob in
      match flatten_lock r2 with
      | Err _ => mkStores ob (ws_inbox w) (wm_failure (ws_metrics w))
      | Ok completed =>
          let '(ib, m) := reconcile_events io 0 (events ++ completed) (ws_inbox w) (ws_metrics w) in
          mkStores ob ib m
      end
  end.
End workers.
Arguments Stores O I : clear implicits.
Arguments mkStores {O I}.
Arguments ws_outbox {O I}.
Arguments ws_inbox {O I}.
Arguments ws_metrics {O I}.

(** ** What reconciliation repairs *)

Section laws.
Context {O I : Type} `{OutboxLaws O, OutboxMaintain O, InboxLaws I, EnvelopeDeps}.

(** A record leaves every entry and tombstone there was. *)
Lemma record_keeps c s k :
  (∀ e, entries s !! k = Some e → entries (record c s).2 !! k = Some e)
  ∧ retired (record c s).2 = retired s.
Proof.
  unfold record. destruct (check_recordable s c) as [[]|] eqn:Hc; [done| |done].
  apply check_recordable_fresh in Hc as [Hn _]. split; [|done]. intros e He. cbn.
  rewrite lookup_insert_ne; [done|]. intros <-. congruence.
Qed.

(** What a sequence of records adds to an inbox state. *)
Definition recorded_more (s s' : InboxState) : Prop :=
  inbox_wf s' ∧ retired s' = retired s
  ∧ (∀ k e, entries s !! k = Some e → entries s' !! k = Some e).

Lemma ci_record_more io c (i : I) :
  inbox_wf (inbox_view i) →
  recorded_more (inbox_view i) (inbox_view (ci_record io c i).2)
  ∧ ∀ r, (ci_record io c i).1 = Ok r →
      known (inbox_view (ci_record io c i).2) (Inbox.key_of c)
      ∧ (r = Recorded → entries (inbox_view (ci_record io c i).2) !! Inbox.key_of c
                        = Some (mkEntry c 0 None false (next_sequence (inbox_view i)) false None)).
Proof.
  intros Hwf. pose proof (ci_record_wf io c i Hwf) as Hwf'. pose proof (record_law io c i Hwf) as Ha.
  unfold answers in Ha. pose proof (record_keeps c (inbox_view i)) as Hk.
  destruct (ci_record io c i) as [[r|e] i']; cbn [fst snd] in *.
  - destruct Ha as (s' & Hr & Hv). rewrite Hr in Hk. cbn [snd] in Hk.
    assert (entries (inbox_view i') = entries s' ∧ retired (inbox_view i') = retired s') as [He Hret]
      by (by destruct Hv as [->| ->]).
    split; [split_and!; [done|rewrite Hret; apply (Hk (Inbox.key_of c))|]|].
    { intros k e Hek. rewrite He. by apply Hk. }
    intros r' [= <-]. unfold known. rewrite He, Hret. split; [by eapply record_known|].
    intros ->. unfold record in Hr. destruct (check_recordable _ c) as [[[]|]|] eqn:Hc; simplify_eq.
    + unfold check_recordable in Hc. by repeat case_match.
    + cbn. by rewrite lookup_insert_eq.
  - split; [|done]. by rewrite Ha.
Qed.

Lemma known_more s s' k : recorded_more s s' → known s k → known s' k.
Proof.
  intros (_ & Hr & He) [[e Hk]|Hk]; [left; rewrite (He k e Hk); eauto|right; by rewrite Hr].
Qed.

Lemma recorded_more_trans s1 s2 s3 : recorded_more s1 s2 → recorded_more s2 s3 → recorded_more s1 s3.
Proof. intros (Hw1 & Hr1 & He1) (Hw2 & Hr2 & He2). split_and!; [done|congruence|eauto]. Qed.

Lemma reconcile_events_failures io n events ib m :
  wm_failures m ≤ wm_failures (reconcile_events (I := I) io n events ib m).2.
Proof.
  revert n ib m. induction events as [|e events IH]; intros n ib m; [done|]. cbn [reconcile_events].
  destruct (pending_command_from_ingest_request e) as [d|].
  - destruct (with_lock _ ib) as [r ib']. etrans; [|apply IH].
    destruct r as [[[]|]|]; simpl; lia.
  - etrans; [|apply IH]. simpl. lia.
Qed.

(** Every entry is an old one, or a fresh one rebuilt from an event. *)
Definition rebuilt (events : list IngestRequest) (s s' : InboxState) : Prop :=
  ∀ k e, entries s' !! k = Some e →
    entries s !! k = Some e
    ∨ entries s !! k = None ∧ Inbox.key_of (en_command e) = k ∧ undelivered e
      ∧ ∃ ev, ev ∈ events ∧ pending_command_from_ingest_request ev = Ok (en_command e).

Lemma ci_record_rebuilt io (i : I) ev d :
  inbox_wf (inbox_view i) → pending_command_from_ingest_request ev = Ok d →
  rebuilt [ev] (inbox_view i) (inbox_view (ci_record io d i).2).
Proof.
  intros Hwf Hd k e. pose proof (record_law io d i Hwf) as Ha. unfold answers in Ha.
  destruct (ci_record io d i) as [[r|err] i']; cbn [snd]; [|rewrite Ha; by left].
  destruct Ha as (s' & Hr & Hv).
  assert (entries (inbox_view i') = entries s') as -> by (by destruct Hv as [->| ->]).
  unfold record in Hr. destruct (check_recordable _ d) as [[]|] eqn:Hc; simplify_eq; [by left|].
  apply check_recordable_fresh in Hc as [Hn _]. cbn. rewrite lookup_insert.
  case_decide as Hk; [|by left]. intros [= <-]. right. subst k. split_and!; try done.
  exists ev. split; [by apply list_elem_of_here|done].
Qed.

Lemma rebuilt_trans evs1 evs2 s1 s2 s3 :
  recorded_more s1 s2 → rebuilt evs1 s1 s2 → rebuilt evs2 s2 s3 → rebuilt (evs1 ++ evs2) s1 s3.
Proof.
  intros (_ & _ & Hkeep) Hr1 Hr2 k e He.
  destruct (Hr2 k e He) as [He2|(Hn2 & Hk & Ha & ev & Hev & Hd)].
  - destruct (Hr1 k e He2) as [?|(Hn1 & Hk & Ha & ev & Hev & Hd)]; [by left|]. right.
    split_and!; [done..|]. exists ev. split; [by apply elem_of_app; left|done].
  - right. split_and!; [|done..|exists ev; split; [by apply elem_of_app; right|done]].
    destruct (entries s1 !! k) as [e1|] eqn:He1; [|done]. by rewrite (Hkeep k e1 He1) in Hn2.
Qed.

Lemma reconcile_events_spec io n events (i : I) m :
  inbox_wf (inbox_view i) →
  ∃ i', (reconcile_events io n events (single i) m).1 = single i'
    ∧ recorded_more (inbox_view i) (inbox_view i')
    ∧ rebuilt events (inbox_view i) (inbox_view i')
    ∧ (wm_failures (reconcile_events io n events (single i) m).2 = wm_failures m →
       Forall (λ ev, ∃ d, pending_command_from_ingest_request ev = Ok d
                          ∧ known (inbox_view i') (Inbox.key_of d)) events).
Proof.
  revert n i m. induction events as [|ev events IH]; intros n i m Hwf.
  { exists i. split_and!; [done|by split_and!|by left|by constructor]. }
  cbn [reconcile_events]. destruct (pending_command_from_ingest_request ev) as [d|e] eqn:Hd.
  - rewrite with_lock_single. destruct (ci_record_more (io n) d i Hwf) as [Hmore Hknown].
    pose proof (ci_record_rebuilt (io n) i ev d Hwf Hd) as Hreb.
    destruct (ci_record (io n) d i) as [r i1]. cbn [fst snd] in *.
    pose proof (proj1 Hmore) as Hwf1.
    set (m1 := match r with Ok Recorded => wm_repair m | Ok AlreadyRecorded => m
                          | Err _ => wm_failure m end).
    destruct (IH (S n) i1 m1 Hwf1) as (i' & Hi' & Hmore' & Hreb' & Hall).
    exists i'. split; [exact Hi'|]. split; [by eapply recorded_more_trans|].
    split; [by apply (rebuilt_trans [ev] events _ (inbox_view i1))|]. intros Hf.
    pose proof (reconcile_events_failures io (S n) events (single i1) m1) as Hle.
    change (match r with Ok Recorded => wm_repair m | Ok AlreadyRecorded => m
                       | Err _ => wm_failure m end) with m1 in Hf.
    destruct r as [r|err]; [|simpl in Hle; simpl in Hf; lia].
    constructor; [|apply Hall; rewrite Hf; by destruct r].
    exists d. split; [done|]. eapply known_more; [done|]. by apply (Hknown r).
  - destruct (IH (S n) i (wm_failure m) Hwf) as (i' & Hi' & Hmore' & Hreb' & Hall).
    exists i'. split; [exact Hi'|]. split; [done|]. split.
    + intros k e' He'. destruct (Hreb' k e' He') as [?|(? & ? & ? & ev' & ? & ?)]; [by left|].
      right. split_and!; try done. exists ev'. split; [by right|done].
    + intros Hf. pose proof (reconcile_events_failures io (S n) events (single i) (wm_failure m)) as Hle.
      simpl in Hle. lia.
Qed.

Lemma reconcile_repaired (io : nat → ci_io I) (now retention : N) (o : O) (i : I) (m : WorkerMetrics) :
  outbox_wf o → inbox_wf (inbox_view i) →
  let w := reconcile io now retention (mkStores (single o) (single i) m) in
  ∃ i' events, ws_inbox w = single i'
    ∧ recorded_more (inbox_view i) (inbox_view i') ∧ rebuilt events (inbox_view i) (inbox_view i')
    ∧ Forall (λ ev, rows o !! Outbox.key_of ev = Some (Pending ev)
                    ∨ rows o !! Outbox.key_of ev = Some (Complete ev)) events
    ∧ (wm_failures (ws_metrics w) = wm_failures m →
       ∃ pending completed,
         (pending_reconciliation_batch INBOX_RECONCILIATION_BATCH o).1 = Ok pending
         ∧ (recent_completed_batch (now - retention) INBOX_RECONCILIATION_BATCH o).1 = Ok completed
         ∧ Forall (λ ev, ∃ d, pending_command_from_ingest_request ev = Ok d
                              ∧ known (inbox_view i') (Inbox.key_of d)) (pending ++ completed)).
Proof.
  intros Hwfo Hwfi. unfold reconcile, flatten_lock. cbn [ws_outbox ws_inbox ws_metrics]. rewrite with_lock_single.
  assert (recorded_more (inbox_view i) (inbox_view i)) as Hid by done.
  assert (rebuilt [] (inbox_view i) (inbox_view i)) as Hreb0 by (by left).
  pose proof (reconciliation_law INBOX_RECONCILIATION_BATCH o) as Hp.
  destruct (pending_reconciliation_batch _ o) as [[pending|e] o1]; cbn [fst snd mbind result_bind map_err] in *.
  2: { exists i, []. cbn. split_and!; try done. intros Hf. simpl in Hf. lia. }
  destruct (Hp pending Hwfo eq_refl) as (-> & _ & Hpend). rewrite with_lock_single.
  pose proof (completed_law (now - retention) INBOX_RECONCILIATION_BATCH o) as Hc.
  cbn [mbind result_bind map_err].
  destruct (recent_completed_batch _ _ o) as [[completed|e] o2]; cbn [fst snd mbind result_bind map_err] in *.
  2: { exists i, []. cbn. split_and!; try done. intros Hf. simpl in Hf. lia. }
  destruct (Hc completed Hwfo eq_refl) as (-> & _ & Hcomp). cbn [mbind result_bind map_err].
  destruct (reconcile_events_spec io 0 (pending ++ completed) i m Hwfi)
    as (i' & Hi' & Hmore & Hreb & Hall).
  destruct (reconcile_events io 0 (pending ++ completed) (single i) m) as [ib m'].
  cbn [fst snd] in *. subst ib. exists i', (pending ++ completed). cbn [ws_inbox ws_metrics].
  split_and!; try done.
  - apply Forall_forall. intros ev [Hev|Hev]%elem_of_app; auto.
  - intros Hf. exists pending, completed. auto.
Qed.
(** Reconciliation repairs what a crash left half done, and nothing else.  A
    round keeps every entry and tombstone of the inbox; every entry it adds is
    undelivered and rebuilt from a row of the outbox that is pending or was
    recently completed; and a round that counts no new failure has read both
    batches and left the inbox knowing the command of every row in them. *)
Theorem reconcile_repairs (io : nat → ci_io I) (now retention : N) (o : O) (i : I) (m : WorkerMetrics) :
  outbox_wf o → inbox_wf (inbox_view i) →
  let w := reconcile io now retention (mkStores (single o) (single i) m) in
  ∃ i' events, ws_inbox w = single i'
    ∧ recorded_more (inbox_view i) (inbox_view i') ∧ rebuilt events (inbox_view i) (inbox_view i')
    ∧ Forall (λ ev, rows o !! Outbox.key_of ev = Some (Pending ev)
                    ∨ rows o !! Outbox.key_of ev = Some (Complete ev)) events
    ∧ (wm_failures (ws_metrics w) = wm_failures m →
       ∃ pending completed,
         (pending_reconciliation_batch INBOX_RECONCILIATION_BATCH o).1 = Ok pending
         ∧ (recent_completed_batch (now - retention) INBOX_RECONCILIATION_BATCH o).1 = Ok completed
         ∧ Forall (λ ev, ∃ d, pending_command_from_ingest_request ev = Ok d
                              ∧ known (inbox_view i') (Inbox.key_of d)) (pending ++ completed)).
Proof. apply reconcile_repaired. Qed.
End laws.

(** ** Commands that were only half accepted *)

(** The pending rows of a table. *)
Definition pending_rows (m : gmap OutboxKey Row) : gmap OutboxKey IngestRequest :=
  omap (λ row, match row with Pending e => Some e | _ => None end) m.

(** A batch for reconciliation that has room for every pending row has them all. *)
Class ReconciliationLaws (O : Type) `{OutboxLaws O} :=
  reconciliation_complete limit o es e :
    outbox_wf o → (pending_reconciliation_batch limit o).1 = Ok es →
    map_len (pending_rows (rows o)) ≤ limit → rows o !! Outbox.key_of e = Some (Pending e) → e ∈ es.

Lemma take_all_values {V} (m : gmap OutboxKey V) limit k v :
  map_len m ≤ limit → m !! k = Some v → v ∈ take (N.to_nat limit) (map_to_list m).*2.
Proof.
  unfold map_len. intros Hlen Hk. rewrite take_ge by (rewrite length_fmap, length_map_to_list; lia).
  apply list_elem_of_fmap. exists (k, v). by rewrite elem_of_map_to_list.
Qed.
Lemma memory_pending_rows `{PayloadDigest} (o : InMemoryOutbox) :
  pending_rows (memory_rows o) = m_pending o.
Proof.
  apply map_eq. intros k. unfold pending_rows. rewrite lookup_omap, memory_rows_lookup.
  by destruct (m_pending o !! k), (m_quarantined o !! k), (m_complete_events o !! k).
Qed.
Lemma pending_row_lookup (m : gmap OutboxKey Row) k e :
  m !! k = Some (Pending e) → pending_rows m !! k = Some e.
Proof. intros Hk. unfold pending_rows. by rewrite lookup_omap, Hk. Qed.

#[global] Instance memory_reconciliation `{PayloadDigest} : ReconciliationLaws InMemoryOutbox.
Proof.
  intros limit o es e _ [= <-] Hlen Hk. apply pending_row_lookup in Hk. change (rows o) with (memory_rows o) in *.
  rewrite memory_pending_rows in *. by eapply take_all_values.
Qed.
#[global] Instance file_reconciliation `{PayloadDigest, LineCodec FileOutboxRecord} : ReconciliationLaws FileOutbox.
Proof.
  intros limit o es e _ [= <-] Hlen Hk. apply pending_row_lookup in Hk.
  change (rows o) with (memory_rows (view (fo_tables o))) in *.
  rewrite memory_pending_rows in *. by eapply take_all_values.
Qed.

Section half.
Context {O I : Type} `{ReconciliationLaws O, OutboxMaintain O, InboxLaws I, DomainDeps, EnvelopeDeps}.
Context `{!EnvelopeLaws, !UuidApi}.

(** The key of a command's row and its identity in the inbox agree. *)
Lemma accepted_keys i op fresh now a :
  build_control_request i op fresh now = Ok a →
  Outbox.key_of (ac_request a)
  = mkOutboxKey (ik_workspace_id (Inbox.key_of (ac_delivery a)))
      (ik_namespace_id (Inbox.key_of (ac_delivery a))) (ik_command_id (Inbox.key_of (ac_delivery a))).
Proof.
  intros (name & m & h & _ & _ & _ & _ & _ & _ & Hr & ->)%build_control_request_spec.
  by apply admitted_request in Hr as (s & [= <-] & ->).
Qed.

(** A request the gateway built, whose [stop] does not spell the mark of a
    [force_stop]. *)
Definition plainly_built (r : IngestRequest) (d : PendingCommand) : Prop :=
  ∃ i op fresh now a, build_control_request i op fresh now = Ok a
    ∧ (in_action i = Stop → unmarked (in_reason_code i)) ∧ r = ac_request a ∧ d = ac_delivery a.

Lemma plainly_built_rebuilds r d :
  plainly_built r d → pending_command_from_ingest_request r = Ok d
    ∧ Outbox.key_of r = mkOutboxKey (ik_workspace_id (Inbox.key_of d)) (ik_namespace_id (Inbox.key_of d))
                          (ik_command_id (Inbox.key_of d)).
Proof.
  intros (i & op & fresh & now & a & Hb & Hm & -> & ->).
  split; [by eapply rebuild_delivery|by eapply accepted_keys].
Qed.

Lemma half_accepted (io : nat → ci_io I) (now retention : N) (o : O) (i : I)
    (m : WorkerMetrics) (r : IngestRequest) (d : PendingCommand) :
  outbox_wf o → inbox_wf (inbox_view i) →
  map_Forall (λ _ row, ∃ d, plainly_built (row_event row) d) (rows o) →
  map_len (pending_rows (rows o)) ≤ INBOX_RECONCILIATION_BATCH →
  plainly_built r d → rows o !! Outbox.key_of r = Some (Pending r) →
  ¬ known (inbox_view i) (Inbox.key_of d) →
  let w := reconcile io now retention (mkStores (single o) (single i) m) in
  wm_failures (ws_metrics w) = wm_failures m →
  ∃ i' e, ws_inbox w = single i' ∧ entries (inbox_view i') !! Inbox.key_of d = Some e
    ∧ en_command e = d ∧ undelivered e.
Proof.
  intros Hwfo Hwfi Hrows Hlen Hr Hpend Hunk w Hfail.
  destruct (reconcile_repaired io now retention o i m Hwfo Hwfi)
    as (i' & events & Hi' & Hmore & Hreb & Hev & Hall).
  destruct (Hall Hfail) as (pending & completed & Hp & _ & HF). clear Hall. exists i'.
  pose proof (plainly_built_rebuilds r d Hr) as [Hdec Hkey].
  pose proof (reconciliation_complete _ o _ r Hwfo Hp Hlen Hpend) as Hin.
  rewrite Forall_app, Forall_forall in HF. destruct HF as [HF _].
  destruct (HF r Hin) as (d' & Hd' & Hknown). assert (d' = d) as -> by congruence.
  assert (is_Some (entries (inbox_view i') !! Inbox.key_of d)) as [e He].
  { destruct Hknown as [?|Hret]; [done|]. destruct Hunk. right. by destruct Hmore as (_ & <- & _). }
  exists e. split; [done|]. split; [done|].
  destruct (Hreb _ _ He) as [Hold|(_ & Hk & Hatt & ev & Hev' & Hdec')].
  { destruct Hunk. left. by rewrite Hold. }
  split; [|done]. rewrite Forall_forall in Hev.
  assert (∃ row, rows o !! Outbox.key_of ev = Some row ∧ row_event row = ev) as (row & Hrow & Hre)
    by (by destruct (Hev ev Hev'); eexists).
  destruct (Hrows _ _ Hrow) as (d2 & Hb2). rewrite Hre in Hb2.
  apply plainly_built_rebuilds in Hb2 as [Hdec2 Hkey2].
  assert (en_command e = d2) as Hd2 by congruence. rewrite Hd2 in Hk.
  assert (Outbox.key_of ev = Outbox.key_of r) as Heq by congruence.
  rewrite Heq, Hpend in Hrow. injection Hrow as <-. simpl in Hre. congruence.
Qed.

(** C6. A command that was only half accepted reaches its agent.  When the
    process died, or the inbox failed, after the outbox - the in-memory or the
    file one - had taken a command, its row is pending and the inbox does not
    know it.  If the outbox holds nothing but commands the gateway built, none
    of them a [stop] whose reason code spells the mark of a [force_stop], and no
    more than a batch is pending, the next reconciliation that counts no failure
    puts exactly that command into the inbox, undelivered. *)
Theorem half_accepted_repaired (io : nat → ci_io I) (now retention : N) (o : O) (i : I)
    (m : WorkerMetrics) (r : IngestRequest) (d : PendingCommand) :
  outbox_wf o → inbox_wf (inbox_view i) →
  map_Forall (λ _ row, ∃ d, plainly_built (row_event row) d) (rows o) →
  map_len (pending_rows (rows o)) ≤ INBOX_RECONCILIATION_BATCH →
  plainly_built r d → rows o !! Outbox.key_of r = Some (Pending r) →
  ¬ known (inbox_view i) (Inbox.key_of d) →
  let w := reconcile io now retention (mkStores (single o) (single i) m) in
  wm_failures (ws_metrics w) = wm_failures m →
  ∃ i' e, ws_inbox w = single i' ∧ entries (inbox_view i') !! Inbox.key_of d = Some e
    ∧ en_command e = d ∧ undelivered e.
Proof. apply half_accepted. Qed.
End half.

(** ** A cancelled command comes back *)

Lemma undelivered_deliverable e target allows policy now :
  undelivered e → pt_agent_id target = pc_agent_id (en_command e) →
  allows (pc_workspace_id (en_command e)) (pc_namespace_id (en_command e)) = true →
  0 < max_attempts policy → entry_deliverable e target allows policy now = true.
Proof.
  intros (Ha & Hl & Hk & Hc) Hid Hs Hm. unfold entry_deliverable, visible.
  rewrite Ha, Hl, Hk, Hc, Hs, bool_decide_true by done.
  by destruct (N.leb_spec (max_attempts policy) 0); [lia|].
Qed.

(** What retiring a list of entries does to one of them. *)
Lemma retire_all_lookup s l k t :
  NoDup l.*1 → (k, t) ∈ l →
  entries (retire_all s l) !! k = None ∧ retired (retire_all s l) !! k = Some t.
Proof.
  assert (Hkept : ∀ l s, k ∉ l.*1 →
    entries (retire_all s l) !! k = entries s !! k ∧ retired (retire_all s l) !! k = retired s !! k).
  { clear s l. induction l as [|[k' t'] l IH]; intros s Hk; [done|].
    rewrite fmap_cons in Hk. apply not_elem_of_cons in Hk as [Hne Hk]. cbn [fst] in Hne.
    destruct (IH (retire s k' t') Hk) as [He Hr]. cbn [retire_all foldl fst snd] in *. unfold retire_all in He, Hr.
    rewrite He, Hr. cbn. by rewrite lookup_delete_ne, lookup_insert_ne. }
  revert s. induction l as [|[k' t'] l IH]; intros s Hnd Hin; [by apply elem_of_nil in Hin|].
  rewrite fmap_cons in Hnd. apply NoDup_cons in Hnd as [Hk Hnd]. apply elem_of_cons in Hin as [[= <- <-]|Hin].
  - destruct (Hkept l (retire s k t) Hk) as [He Hr]. cbn [retire_all foldl fst snd]. unfold retire_all in He, Hr.
    rewrite He, Hr. cbn. by rewrite lookup_delete_eq, lookup_insert_eq.
  - by apply IH.
Qed.

(** The sweep that ends the retention of a cancelled command forgets it. *)
Lemma cancelled_forgotten now retention max s k e t :
  entries s !! k = Some e → en_cancelled e = true → en_cancelled_at e = Some t → t ≤ now - retention →
  ¬ known (maintain_state now retention max s).2 k.
Proof.
  intros He Hc Ht Hle. unfold maintain_state. cbn [snd].
  destruct (retire_all_lookup s (settled s now (now - retention) max) k t) as [Hn Hr].
  - eapply sublist_NoDup; [|apply settled_keys]. apply (NoDup_fst_map_to_list (entries s)).
  - apply list_elem_of_omap. exists (k, e). split; [by apply elem_of_map_to_list|].
    unfold settled_at. cbn [fst snd]. rewrite Hc, Ht. by destruct (N.leb_spec t (now - retention)); [|lia].
  - intros [[x Hx]|[x Hx]]; cbn in Hx; [congruence|].
    apply map_lookup_filter_Some in Hx as [Hx Hgt]. cbn [snd] in Hgt. simplify_eq. lia.
Qed.

Section resurrection.
Context {O : Type} `{ReconciliationLaws O, OutboxMaintain O, LineCodec InboxRecord, DomainDeps, EnvelopeDeps}.
Context `{!EnvelopeLaws, !UuidApi}.

(** C39. A cancelled command can come back.  Take a command the operator
    cancelled in the file inbox whose row is still pending in the outbox, and
    the first sweep after its retention: the sweep, if it succeeds, forgets the
    cancellation at once.  Where the outbox then holds nothing but plainly built
    commands, no more than a batch of them pending, the next reconciliation that
    counts no failure records the command again, and it is deliverable at every
    poll of its agent. *)
Theorem cancelled_command_returns sweep_io (io : nat → ci_io FileCommandInbox) (now now' retention : N)
    (ob : Backend O) (fi fi' : FileCommandInbox) (o : O) m m' (r : IngestRequest) (d : PendingCommand) e t :
  inbox_wf (inbox_view fi) →
  entries (inbox_view fi) !! Inbox.key_of d = Some e → en_cancelled e = true → en_cancelled_at e = Some t →
  t + retention ≤ now →
  retention_sweep sweep_io now retention (mkStores ob (single fi) m) = mkStores (single o) (single fi') m' →
  wm_retention_failures m' = wm_retention_failures m →
  outbox_wf o → map_Forall (λ _ row, ∃ d, plainly_built (row_event row) d) (rows o) →
  map_len (pending_rows (rows o)) ≤ INBOX_RECONCILIATION_BATCH →
  plainly_built r d → rows o !! Outbox.key_of r = Some (Pending r) →
  let w := reconcile io now' retention (mkStores (single o) (single fi') m') in
  wm_failures (ws_metrics w) = wm_failures m' →
  ∃ i' e', ws_inbox w = single i' ∧ entries (inbox_view i') !! Inbox.key_of d = Some e' ∧ en_command e' = d
    ∧ ∀ target allows policy later,
        pt_agent_id target = pc_agent_id d → allows (pc_workspace_id d) (pc_namespace_id d) = true →
        0 < max_attempts policy → entry_deliverable e' target allows policy later = true.
Proof.
  change (inbox_view fi) with (fi_state fi). intros Hwf He Hc Ht Hle Hsweep Hok Hwo Hrows Hlen Hr Hpend w Hfail.
  assert (Hfi : inbox_wf (fi_state fi') ∧ ¬ known (fi_state fi') (Inbox.key_of d)).
  { unfold retention_sweep in Hsweep. cbn [ws_inbox ws_outbox ws_metrics] in Hsweep.
    rewrite with_lock_single in Hsweep. cbn [ci_maintain file_inbox] in Hsweep.
    assert (Hforget : ¬ known (maintain_state now retention DEFAULT_MAX_DELIVERY_ATTEMPTS (fi_state fi)).2
      (Inbox.key_of d)) by (eapply cancelled_forgotten; [done..|lia]).
    pose proof (maintain_wf now retention DEFAULT_MAX_DELIVERY_ATTEMPTS _ Hwf) as Hw.
    unfold file_maintain in Hsweep.
    destruct (maintain_state now retention DEFAULT_MAX_DELIVERY_ATTEMPTS (fi_state fi)) as [changed s'].
    cbn [snd] in *. destruct changed; cbn [negb] in Hsweep; cycle 1.
    { destruct (with_lock (outbox_maintain _ _) ob) as [r2 ob']. injection Hsweep as _ <- _. done. }
    unfold compact in Hsweep. destruct (encode_records _) as [enc|]; cycle 1.
    { destruct (with_lock (outbox_maintain _ _) ob) as [r2 ob'].
      injection Hsweep as _ _ <-. rewrite orb_true_r in Hok. cbn in Hok. lia. }
    cbn [set_state fi_open fi_state] in Hsweep.
    destruct (io_compact sweep_io) as [|b|b]; [..|destruct b];
      destruct (fi_open fi); cbn [negb] in Hsweep;
      destruct (with_lock (outbox_maintain _ _) ob) as [r2 ob']; injection Hsweep as _ <- <-;
      try (rewrite orb_true_r in Hok; cbn in Hok; lia).
    split; [by apply retain_live_wf|done]. }
  change (fi_state fi') with (inbox_view fi') in Hfi. destruct Hfi as [Hwf' Hunk].
  destruct (half_accepted (I:=FileCommandInbox) io now' retention o fi' m' r d Hwo Hwf' Hrows Hlen Hr Hpend Hunk Hfail)
    as (i' & e' & Hi & He' & Hd & Hu).
  exists i', e'. split_and!; [done..|]. intros target allows policy later Hid Ha Hm.
  rewrite <-Hd in Hid, Ha. by apply undelivered_deliverable.
Qed.
End resurrection.

(** ** A repaired command *)

Section repaired.
Local Instance rep_digest : PayloadDigest := id.
Local Instance rep_deps : DomainDeps := demo_deps.
Local Instance rep_env : EnvelopeDeps := demo_env.
Local Instance rep_uuid : UuidApi := demo_uuid.

(** The [pause] in the outbox alone. *)
Definition demo_pause : AcceptedCommand := demo_accepted Pause None.
Definition demo_half_outbox : InMemoryOutbox :=
  (memory_enqueue demo_now (ac_request demo_pause) (mkMemory 10 ∅ ∅ ∅ ∅ ∅ ∅ ∅)).2.
Definition demo_new_inbox : InMemoryCommandInbox := mkInMemory (in_memory_new 4 2).

Definition no_io : nat → ci_io InMemoryCommandInbox := λ _, tt.

Lemma demo_half_outbox_wf : outbox_wf demo_half_outbox.
Proof. apply memory_enqueue_wf. by apply (memory_new_wf 10). Qed.
Lemma demo_new_inbox_wf : inbox_wf (inbox_view demo_new_inbox).
Proof. by apply inbox_new_wf. Qed.

Lemma reconcile_repairs_witness :
  let w := reconcile no_io demo_now 0
             (mkStores (single demo_half_outbox) (single demo_new_inbox) (mkWorkerMetrics 0 0 0)) in
  ∃ i' events, ws_inbox w = single i'
    ∧ recorded_more (inbox_view demo_new_inbox) (inbox_view i')
    ∧ rebuilt events (inbox_view demo_new_inbox) (inbox_view i')
    ∧ Forall (λ ev, rows demo_half_outbox !! Outbox.key_of ev = Some (Pending ev)
                    ∨ rows demo_half_outbox !! Outbox.key_of ev = Some (Complete ev)) events
    ∧ (wm_failures (ws_metrics w) = 0 →
       ∃ pending completed,
         (pending_reconciliation_batch INBOX_RECONCILIATION_BATCH demo_half_outbox).1 = Ok pending
         ∧ (recent_completed_batch (demo_now - 0) INBOX_RECONCILIATION_BATCH demo_half_outbox).1
           = Ok completed
         ∧ Forall (λ ev, ∃ d, pending_command_from_ingest_request ev = Ok d
                              ∧ known (inbox_view i') (Inbox.key_of d)) (pending ++ completed)).
Proof.
  apply (reconcile_repairs no_io demo_now 0 demo_half_outbox demo_new_inbox (mkWorkerMetrics 0 0 0)).
  - apply demo_half_outbox_wf.
  - apply demo_new_inbox_wf.
Defined.

Lemma demo_half_rows :
  rows demo_half_outbox = {[Outbox.key_of (ac_request demo_pause) := Pending (ac_request demo_pause)]}.
Proof. reflexivity. Qed.
Lemma demo_half_pending :
  m_pending demo_half_outbox = {[Outbox.key_of (ac_request demo_pause) := ac_request demo_pause]}.
Proof. reflexivity. Qed.

Lemma demo_half_one : map_len (pending_rows (rows demo_half_outbox)) ≤ INBOX_RECONCILIATION_BATCH.
Proof.
  change (rows demo_half_outbox) with (memory_rows demo_half_outbox).
  rewrite memory_pending_rows, demo_half_pending. unfold map_len. by rewrite map_size_singleton.
Qed.

Lemma demo_pause_built : plainly_built (ac_request demo_pause) (ac_delivery demo_pause).
Proof.
  exists (demo_input Pause None), (mkOperator "alice" Global), EmptyString, demo_now, demo_pause.
  split; [vm_compute; reflexivity|done].
Qed.

Lemma half_accepted_repaired_witness :
  let w := reconcile no_io demo_now 0
             (mkStores (single demo_half_outbox) (single demo_new_inbox) (mkWorkerMetrics 0 0 0)) in
  ∃ i' e, ws_inbox w = single i'
    ∧ entries (inbox_view i') !! Inbox.key_of (ac_delivery demo_pause) = Some e
    ∧ en_command e = ac_delivery demo_pause ∧ undelivered e.
Proof.
  apply (half_accepted_repaired no_io demo_now 0 demo_half_outbox demo_new_inbox
    (mkWorkerMetrics 0 0 0) (ac_request demo_pause) (ac_delivery demo_pause)).
  - apply demo_half_outbox_wf.
  - apply demo_new_inbox_wf.
  - rewrite demo_half_rows. apply map_Forall_singleton. eexists. apply demo_pause_built.
  - apply demo_half_one.
  - apply demo_pause_built.
  - rewrite demo_half_rows. apply lookup_singleton_eq.
  - intros [[e He]|[e He]]; cbn in He; by rewrite lookup_empty in He.
  - vm_compute. reflexivity.
Defined.

(** The same row, and an inbox in which the [pause] was recorded and cancelled;
    an hour later its retention ends. *)
Local Instance res_codec : LineCodec InboxRecord := inbox_codec.
Definition healthy_io : ci_io FileCommandInbox := mkFileIo AppendOk true (CompactRenamed true).
Definition demo_retention : N := 3600000.
Definition demo_recorded : FileCommandInbox :=
  (ci_record healthy_io (ac_delivery demo_pause) (demo_empty 4 2)).2.
Definition demo_cancelled : FileCommandInbox :=
  (ci_cancel healthy_io (Inbox.key_of (ac_delivery demo_pause)) demo_now demo_recorded).2.
Definition demo_swept : FileCommandInbox :=
  (ci_maintain healthy_io (demo_now + demo_retention) demo_retention DEFAULT_MAX_DELIVERY_ATTEMPTS
     demo_cancelled).2.

Lemma demo_cancelled_wf : inbox_wf (inbox_view demo_cancelled).
Proof. apply ci_cancel_wf, ci_record_wf. by apply inbox_new_wf. Qed.
Lemma demo_sweep :
  retention_sweep healthy_io (demo_now + demo_retention) demo_retention
    (mkStores (single demo_half_outbox) (single demo_cancelled) (mkWorkerMetrics 0 0 0))
  = mkStores (single demo_half_outbox) (single demo_swept) (mkWorkerMetrics 0 0 0).
Proof.
  unfold retention_sweep. cbn [ws_inbox ws_outbox ws_metrics]. rewrite !with_lock_single.
  assert ((ci_maintain healthy_io (demo_now + demo_retention) demo_retention DEFAULT_MAX_DELIVERY_ATTEMPTS
     demo_cancelled).1 = Ok tt) as Hm by (vm_compute; reflexivity).
  unfold demo_swept. destruct (ci_maintain _ _ _ _ demo_cancelled) as [r fi]. cbn in Hm. subst r. reflexivity.
Qed.

Lemma cancelled_command_returns_witness :
  let w := reconcile (λ _, healthy_io) (demo_now + demo_retention) demo_retention
             (mkStores (single demo_half_outbox) (single demo_swept) (mkWorkerMetrics 0 0 0)) in
  ∃ i' e', ws_inbox w = single i'
    ∧ entries (inbox_view i') !! Inbox.key_of (ac_delivery demo_pause) = Some e'
    ∧ entry_deliverable e' (mkPollTarget "agent-1" 1) (λ _ _, true) default_policy (demo_now + demo_retention) = true.
Proof.
  destruct (cancelled_command_returns healthy_io (λ _, healthy_io) (demo_now + demo_retention)
    (demo_now + demo_retention) demo_retention (single demo_half_outbox) demo_cancelled demo_swept demo_half_outbox
    (mkWorkerMetrics 0 0 0) (mkWorkerMetrics 0 0 0) (ac_request demo_pause) (ac_delivery demo_pause)
    (mkEntry (ac_delivery demo_pause) 0 None false 1 true (Some demo_now)) demo_now)
    as (i' & e' & Hi & He & Hd & Hall).
  - apply demo_cancelled_wf.
  - vm_compute. reflexivity.
  - reflexivity.
  - reflexivity.
  - reflexivity.
  - apply demo_sweep.
  - reflexivity.
  - apply demo_half_outbox_wf.
  - rewrite demo_half_rows. apply map_Forall_singleton. eexists. apply demo_pause_built.
  - apply demo_half_one.
  - apply demo_pause_built.
  - rewrite demo_half_rows. apply lookup_singleton_eq.
  - vm_compute. reflexivity.
  - exists i', e'. split_and!; [exact Hi|exact He|].
    apply Hall; [vm_compute; reflexivity|done|done].
Defined.
End repaired.
