(* ===== verification/Gateway.v ===== *)
(** * The gateway's remote calls

    [ControlGatewayService] of [apps/control-plane-api/src/service.rs] and its
    handlers in [service/submit.rs], [service/poll.rs] and [service/query.rs],
    with the mappings of [service/proto_mapping.rs].  A handler is one stateful
    computation over the service: it authenticates, admits, validates and
    writes, in the order of the code.  The clock, fresh identifiers, free
    permits and the outcome of I/O are the call's environment; a blocking task
    that panics is not modelled. *)
From S2P Require Import Prelude RustStr Digits Time Errors Backend Ephemeral OperatorAuth Caller Verifier.
From S2P Require Import AgentAuth Admit Convert Domain Codecs Admission Fingerprint DualApproval Envelope.
From S2P Require Import Inbox CommandInbox Outbox Replay.

Open Scope N_scope.

Definition MAX_BULK_COMMAND_TARGETS : N := 64.

(** ** Messages *)

Record ControlCommandRequest := mkCommandRequest {
  rq_command_id : option string;
  rq_workspace_id : string;
  rq_namespace_id : string;
  rq_agent_id : string;
  rq_run_id : string;
  rq_parent_run_id : option string;
  rq_trace_id : string;
  rq_action : Z;
  rq_reason_code : option string;
  rq_parameters : option Struct;
}.
Record ControlCommandResponse := mkCommandResponse {
  cr_duplicate : bool;
  cr_command_id : string;
  cr_delivered : bool;
  cr_awaiting_second_approval : bool;
}.

Record SubmitBulkCommandRequest := mkBulkRequest {
  bq_bulk_id : option string;
  bq_action : Z;
  bq_reason_code : option string;
  bq_parameters : option Struct;
  bq_targets : list BulkCommandTarget;
}.
Record BulkCommandResult := mkBulkResult {
  br_workspace_id : string;
  br_namespace_id : string;
  br_agent_id : string;
  br_accepted : bool;
  br_command_id : option string;
  br_duplicate : option bool;
  br_delivered : option bool;
  br_error_code : option string;
  br_error_message : option string;
}.
Record SubmitBulkCommandResponse := mkBulkResponse {
  bs_bulk_id : string;
  bs_results : list BulkCommandResult;
}.

Record PendingControlCommand := mkPendingControl {
  pp_command_id : string;
  pp_workspace_id : string;
  pp_namespace_id : string;
  pp_agent_id : string;
  pp_run_id : string;
  pp_trace_id : string;
  pp_action : ControlAction;
  pp_reason_code : option string;
  pp_parameters : option Struct;
  pp_issued_at : string;
  pp_delivery_attempt : N;
}.
Record PollCommandsResponse := mkPollResponse {
  ps_commands : list PendingControlCommand;
  ps_agent_id : string;
  ps_min_poll_interval_seconds : N;
}.

(** [AckCommandRequest], and the one message of [GetCommandStatus] and
    [CancelCommand]. *)
Record AckCommandRequest := mkAckRequest {
  aq_workspace_id : string;
  aq_namespace_id : string;
  aq_command_id : string;
  aq_delivery_attempt : N;
}.
Record AckCommandResponse := mkAckResponse {
  as_command_id : string;
  as_acknowledged : bool;
  as_already_acknowledged : bool;
}.
Record CommandKeyRequest := mkKeyRequest {
  kq_workspace_id : string;
  kq_namespace_id : string;
  kq_command_id : string;
}.
Record CancelCommandResponse := mkCancelResponse {
  xs_command_id : string;
  xs_cancelled : bool;
  xs_already_cancelled : bool;
}.

Inductive CommandDeliveryState :=
  | StateUnspecified | CommandDeliveryPending | CommandDeliveryDelivered
  | CommandDeliveryAcknowledged | CommandDeliveryExhausted | CommandDeliveryCancelled.

Record GetCommandStatusResponse := mkStatusResponse {
  gs_command_id : string;
  gs_state : CommandDeliveryState;
  gs_delivery_attempt : N;
}.

Record ListCommandsRequest := mkListRequest {
  lr_workspace_id : string;
  lr_namespace_id : string;
  lr_agent_id : option string;
  lr_state : Z;
  lr_page_size : N;
  lr_page_token : string;
}.
Record ProtoCommandSummary := mkProtoSummary {
  su_command_id : string;
  su_agent_id : string;
  su_action : ControlAction;
  su_state : CommandDeliveryState;
  su_delivery_attempt : N;
  su_issued_at : string;
}.
Record ListCommandsResponse := mkListResponse {
  ls_commands : list ProtoCommandSummary;
  ls_next_page_token : string;
}.

(** ** Mappings *)

(** [delivery_status_to_proto] and its inverse on [try_from]. *)
Definition delivery_status_to_proto (status : DeliveryStatus) : CommandDeliveryState :=
  match status with
  | StPending => CommandDeliveryPending
  | StDelivered => CommandDeliveryDelivered
  | StAcknowledged => CommandDeliveryAcknowledged
  | StExhausted => CommandDeliveryExhausted
  | StCancelled => CommandDeliveryCancelled
  end.
Definition proto_state_to_delivery_status (state : CommandDeliveryState) : option DeliveryStatus :=
  match state with
  | StateUnspecified => None
  | CommandDeliveryPending => Some StPending
  | CommandDeliveryDelivered => Some StDelivered
  | CommandDeliveryAcknowledged => Some StAcknowledged
  | CommandDeliveryExhausted => Some StExhausted
  | CommandDeliveryCancelled => Some StCancelled
  end.

(** [CommandDeliveryState::try_from] and [ControlAction::try_from] of an
    [i32], the latter with [unwrap_or(Unspecified)]. *)
Definition state_from_number (n : Z) : option CommandDeliveryState :=
  match n with
  | 0%Z => Some StateUnspecified
  | 1%Z => Some CommandDeliveryPending
  | 2%Z => Some CommandDeliveryDelivered
  | 3%Z => Some CommandDeliveryAcknowledged
  | 4%Z => Some CommandDeliveryExhausted
  | 5%Z => Some CommandDeliveryCancelled
  | _ => None
  end.
Definition action_from_i32 (n : Z) : ControlAction :=
  if (n <? 0)%Z then Unspecified else action_from_number (Z.to_N n).

(** [ControlCommandInput::from_request]. *)
Definition from_request (r : ControlCommandRequest) : ControlCommandInput :=
  mkInput (rq_command_id r) (rq_workspace_id r) (rq_namespace_id r) (rq_agent_id r) (rq_run_id r)
    (rq_parent_run_id r) (rq_trace_id r) (action_from_i32 (rq_action r)) (rq_reason_code r)
    (rq_parameters r).

(** [prost]'s decoding of a [Struct]. *)
Class StructDecode := struct_decode : string → option Struct.

(** [pending_to_proto]. *)
Definition pending_to_proto `{StructDecode} (c : PendingCommand) : PendingControlCommand :=
  mkPendingControl (pc_command_id c) (pc_workspace_id c) (pc_namespace_id c) (pc_agent_id c)
    (pc_run_id c) (pc_trace_id c) (action_to_proto (pc_action c)) (pc_reason_code c)
    (if str_is_empty (pc_parameters c) then None else struct_decode (pc_parameters c))
    (pc_issued_at c) (pc_delivery_attempt c).

(** [command_summary_to_proto]. *)
Definition command_summary_to_proto (s : CommandSummary) : ProtoCommandSummary :=
  mkProtoSummary (cs_command_id s) (cs_agent_id s) (action_to_proto (cs_action s))
    (delivery_status_to_proto (cs_state s)) (cs_delivery_attempt s) (cs_issued_at s).

(** [accepted_bulk_result] and [rejected_bulk_result]. *)
Definition accepted_bulk_result (t : BulkCommandTarget) (command_id : string)
    (outcome : SubmitOutcome) (record : RecordResult) : BulkCommandResult :=
  mkBulkResult (tg_workspace_id t) (tg_namespace_id t) (tg_agent_id t) true (Some command_id)
    (Some (so_duplicate outcome))
    (Some (so_delivered outcome && bool_decide (record = AlreadyRecorded))) None None.
Definition rejected_bulk_result (t : BulkCommandTarget) (e : CommandError) : BulkCommandResult :=
  mkBulkResult (tg_workspace_id t) (tg_namespace_id t) (tg_agent_id t) false None None None
    (Some (as_str (ce_code e))) (Some (ce_message e)).

(** ** The service *)

(** The counters of [GatewayRuntimeMetrics] the handlers write. *)
Record GatewayMetrics := mkGatewayMetrics {
  gm_submissions : N;
  gm_duplicate_submissions : N;
  gm_polls : N;
  gm_storage_healthy : bool;
}.

(** [AtomicU64::fetch_add(1)]. *)
Definition bump64 (n : N) : N := (n + 1) mod (u64_max + 1).

Definition metrics_health (healthy : bool) (m : GatewayMetrics) : GatewayMetrics :=
  mkGatewayMetrics (gm_submissions m) (gm_duplicate_submissions m) (gm_polls m) healthy.
Definition metrics_submission (duplicate : bool) (m : GatewayMetrics) : GatewayMetrics :=
  mkGatewayMetrics (bump64 (gm_submissions m))
    (if duplicate then bump64 (gm_duplicate_submissions m) else gm_duplicate_submissions m)
    (gm_polls m) (gm_storage_healthy m).
Definition metrics_poll (m : GatewayMetrics) : GatewayMetrics :=
  mkGatewayMetrics (gm_submissions m) (gm_duplicate_submissions m) (bump64 (gm_polls m))
    (gm_storage_healthy m).

(** What never changes: the two credential resolvers, the ceilings and the
    delivery policy.  The agents' resolver sees the monotonic clock, against
    which it ages its revocation list. *)
Record GatewayConfig := mkConfig {
  cf_resolve : string → result CommandError OperatorCaller;
  cf_agent_resolve : N → string → option PeerIdentity → result GatewayErrorCode Caller;
  cf_limit : N;
  cf_window : N;
  cf_poll_limit : N;
  cf_delivery_policy : DeliveryPolicy;
}.

(** [with_inbox]'s ceilings. *)
Definition default_config (resolve : string → result CommandError OperatorCaller)
    (agent_resolve : N → string → option PeerIdentity → result GatewayErrorCode Caller) :
    GatewayConfig :=
  mkConfig resolve agent_resolve DEFAULT_MAX_COMMANDS_PER_WINDOW DEFAULT_ADMISSION_WINDOW
    DEFAULT_MAX_POLLS_PER_WINDOW default_policy.

Record ControlGatewayService (O I St : Type) := mkService {
  g_auth : Mutex FailureMap;
  g_agent_auth : Verifier St;
  g_outbox : Backend O;
  g_inbox : Backend I;
  g_dual_approval : DualApprovalGate;
  g_admission : Mutex AdmissionMap;
  g_polls : Mutex AdmissionMap;
  g_ephemeral : option (Mutex St);
  g_metrics : GatewayMetrics;
}.
Arguments mkService {O I St}.
Arguments g_auth {O I St} _.
Arguments g_agent_auth {O I St} _.
Arguments g_outbox {O I St} _.
Arguments g_inbox {O I St} _.
Arguments g_dual_approval {O I St} _.
Arguments g_admission {O I St} _.
Arguments g_polls {O I St} _.
Arguments g_ephemeral {O I St} _.
Arguments g_metrics {O I St} _.

(** [ControlGatewayService::with_inbox]. *)
Definition with_inbox {O I St} (outbox : Backend O) (inbox : Backend I)
    (ephemeral : option (Mutex St)) : ControlGatewayService O I St :=
  mkService (mutex_new ∅) (verifier_new None) outbox inbox gate_new (mutex_new ∅) (mutex_new ∅)
    ephemeral (mkGatewayMetrics 0 0 0 true).

(** What a bulk call keeps per target: its slot, what awaits its write, and what
    became of the write. *)
Abbreviation Slots := (list (option BulkCommandResult)).
Abbreviation PendingTarget := (nat * BulkCommandTarget * AcceptedCommand)%type.
Abbreviation WriteResult :=
  (nat * BulkCommandTarget * string * result CommandError (SubmitOutcome * RecordResult))%type.

(** ** Handlers

    Errors are the gateway's; each leaves the process as its [into_status]. *)

Section handlers.
Context {O I St : Type} `{AuthDeps, DomainDeps, EnvelopeDeps, UuidApi, StructDecode}.
Context `{EventOutbox O, CommandInbox I, EphemeralStore St}.

Abbreviation G := (ControlGatewayService O I St).

(** What one call finds: its readings of the clocks, the identifier a generator
    would give it, whether permits are free, and the outcomes of its I/O.  A
    reading or an outcome that a call takes several times is indexed. *)
Record CallEnv := mkCallEnv {
  cv_auth : Readings;
  cv_agent : Env;
  cv_admit : nat → AdmitEnv;
  cv_approval : N;
  cv_millis : nat → N;
  cv_fresh : string;
  cv_status_slot : bool;
  cv_slot : bool;
  cv_outbox : nat → N;
  cv_status_io : ci_io I;
  cv_io : nat → ci_io I;
}.
Implicit Types (env : CallEnv) (cf : GatewayConfig).

(** Running a component's operation on its part of the service. *)
Definition on_auth {A} : ST (Mutex FailureMap) CommandError A → ST G CommandError A :=
  st_zoom g_auth (λ x g, mkService x (g_agent_auth g) (g_outbox g) (g_inbox g) (g_dual_approval g)
                           (g_admission g) (g_polls g) (g_ephemeral g) (g_metrics g)).
Definition on_agent_auth {A} : ST (Verifier St) CommandError A → ST G CommandError A :=
  st_zoom g_agent_auth (λ x g, mkService (g_auth g) x (g_outbox g) (g_inbox g) (g_dual_approval g)
                                 (g_admission g) (g_polls g) (g_ephemeral g) (g_metrics g)).
Definition on_outbox {A} : ST (Backend O) CommandError A → ST G CommandError A :=
  st_zoom g_outbox (λ x g, mkService (g_auth g) (g_agent_auth g) x (g_inbox g) (g_dual_approval g)
                             (g_admission g) (g_polls g) (g_ephemeral g) (g_metrics g)).
Definition on_inbox {A} : ST (Backend I) CommandError A → ST G CommandError A :=
  st_zoom g_inbox (λ x g, mkService (g_auth g) (g_agent_auth g) (g_outbox g) x (g_dual_approval g)
                            (g_admission g) (g_polls g) (g_ephemeral g) (g_metrics g)).
Definition on_gate {A} : ST DualApprovalGate CommandError A → ST G CommandError A :=
  st_zoom g_dual_approval
    (λ x g, mkService (g_auth g) (g_agent_auth g) (g_outbox g) (g_inbox g) x
              (g_admission g) (g_polls g) (g_ephemeral g) (g_metrics g)).
Definition on_admission {A} :
    ST (option (Mutex St) * Mutex AdmissionMap) CommandError A → ST G CommandError A :=
  st_zoom (λ g, (g_ephemeral g, g_admission g))
    (λ x g, mkService (g_auth g) (g_agent_auth g) (g_outbox g) (g_inbox g) (g_dual_approval g)
              x.2 (g_polls g) x.1 (g_metrics g)).
Definition on_polls {A} :
    ST (option (Mutex St) * Mutex AdmissionMap) CommandError A → ST G CommandError A :=
  st_zoom (λ g, (g_ephemeral g, g_polls g))
    (λ x g, mkService (g_auth g) (g_agent_auth g) (g_outbox g) (g_inbox g) (g_dual_approval g)
              (g_admission g) x.2 x.1 (g_metrics g)).
Definition count (f : GatewayMetrics → GatewayMetrics) : ST G CommandError unit :=
  st_modify (λ g, mkService (g_auth g) (g_agent_auth g) (g_outbox g) (g_inbox g)
                    (g_dual_approval g) (g_admission g) (g_polls g) (g_ephemeral g)
                    (f (g_metrics g))).

(** [try_acquire_owned] of a storage permit. *)
Definition acquire (free : bool) : ST G CommandError unit :=
  if free then mret tt else st_throw rate_limited.

(** [self.auth.authenticate(request.metadata())]. *)
Definition operator_caller cf env (values : list string) : ST G CommandError OperatorCaller :=
  on_auth (authenticate (cf_resolve cf) values (started_at (cv_auth env)) (done_at (cv_auth env))).

(** [self.admit(subject)]; a bulk call admits several times. *)
Definition admit_operator cf env (n : nat) (subject : string) : ST G CommandError unit :=
  on_admission (admit_subject (cv_admit env n) (cf_limit cf) (cf_window cf) subject).

(** *** The write path *)

(** The two writes of an accepted command, the outbox first. *)
Definition write_both env (n : nat) (request : IngestRequest) (delivery : PendingCommand)
    : ST G CommandError (SubmitOutcome * RecordResult) :=
  outcome ← on_outbox (submit_command (cv_outbox env n) request);
  record ← on_inbox (backend_record (cv_io env n) delivery);
  mret (outcome, record).

(** [accept_and_record]. *)
Definition accept_and_record env (a : AcceptedCommand) : ST G CommandError ControlCommandResponse :=
  acquire (cv_slot env) ≫= λ _,
  st_try (write_both env 0 (ac_request a) (ac_delivery a)) (λ r,
  match r with
  | Err e => count (metrics_health false) ≫= λ _, st_throw e
  | Ok (outcome, record) =>
      count (metrics_health true) ≫= λ _,
      count (metrics_submission (so_duplicate outcome)) ≫= λ _,
      mret (mkCommandResponse (so_duplicate outcome) (ac_command_id a)
              (so_delivered outcome && bool_decide (record = AlreadyRecorded)) false)
  end).

(** [inbox_status]. *)
Definition inbox_status env (key : InboxKey) : ST G CommandError (option (DeliveryStatus * N)) :=
  acquire (cv_status_slot env) ≫= λ _,
  on_inbox (backend_status (cv_status_io env) key DEFAULT_MAX_DELIVERY_ATTEMPTS).

Definition with_command_id (i : ControlCommandInput) (command_id : string) : ControlCommandInput :=
  mkInput (Some command_id) (in_workspace_id i) (in_namespace_id i) (in_agent_id i) (in_run_id i)
    (in_parent_run_id i) (in_trace_id i) (in_action i) (in_reason_code i) (in_parameters i).

Definition approval_conflict : CommandError := mkCommandError IdempotencyConflict
  "command_id was already approved once with different fields. Use a new command_id for a genuinely different force_stop.".

(** The end of both submit paths: build the two records and write them. *)
Definition build_and_accept env (n : nat) (input : ControlCommandInput) (operator : OperatorCaller)
    : ST G CommandError ControlCommandResponse :=
  a ← st_lift (build_control_request input operator (cv_fresh env) (cv_millis env n));
  accept_and_record env a.

(** The approval gate: [true] when the command may go on. *)
Definition approve env (input : ControlCommandInput) (command_id : string)
    (operator : OperatorCaller) : ST G CommandError bool :=
  outcome ← on_gate (gate_submit
    (mkApprovalKey (in_workspace_id input) (in_namespace_id input) command_id)
    (fingerprint sha256_bytes input) (subject operator) (cv_approval env));
  match outcome with
  | AwaitingSecond | AlreadyApprovedBySameOperator => mret false
  | FieldMismatch => st_throw approval_conflict
  | Approved => mret true
  end.

(** [submit_force_stop]. *)
Definition submit_force_stop env (input : ControlCommandInput) (operator : OperatorCaller)
    : ST G CommandError ControlCommandResponse :=
  if negb (allows_scope operator (in_workspace_id input) (in_namespace_id input))
  then st_throw scope_denied
  else
    '(command_id, _) ← st_lift
      (resolve_command_id_and_timestamp (in_command_id input) (cv_fresh env) (cv_millis env 0));
    recorded ← inbox_status env
      (mkInboxKey (in_workspace_id input) (in_namespace_id input) command_id);
    let input := with_command_id input command_id in
    go_on ← (if bool_decide (is_Some recorded) then mret true
             else approve env input command_id operator);
    if negb go_on then mret (mkCommandResponse false command_id false true)
    else build_and_accept env 1 input operator.

(** [do_submit_command]; [values] are the values of the [authorization]
    header. *)
Definition do_submit_command cf env (values : list string) (request : ControlCommandRequest)
    : ST G CommandError ControlCommandResponse :=
  operator ← operator_caller cf env values;
  admit_operator cf env 0 (subject operator) ≫= λ _,
  let input := from_request request in
  if bool_decide (in_action input = ForceStop) then submit_force_stop env input operator
  else build_and_accept env 0 input operator.

(** *** The bulk write path *)

Definition no_targets : CommandError := mkCommandError InvalidCommand
  "SubmitBulkCommand requires at least one target.".
Definition too_many_targets : CommandError := mkCommandError InvalidCommand
  "SubmitBulkCommand exceeds the maximum number of targets allowed in one call.".
Definition bulk_action_unknown : CommandError := mkCommandError InvalidCommand
  "action must be one of stop, pause, resume, inject, set_budget.".

(** The command one target stands for. *)
Definition target_input (bulk_id : string) (bulk_millis : N) (action : ControlAction)
    (request : SubmitBulkCommandRequest) (t : BulkCommandTarget) : ControlCommandInput :=
  mkInput (Some (derive_target_command_id bulk_id bulk_millis t)) (tg_workspace_id t)
    (tg_namespace_id t) (tg_agent_id t) (tg_run_id t) (tg_parent_run_id t) (tg_trace_id t) action
    (bq_reason_code request) (bq_parameters request).

(** Phase 1: the slots, and what goes on with the slot it will fill.  The
    target's number indexes the clock readings of its admission and build. *)
Fixpoint bulk_admit cf env (bulk_id : string) (bulk_millis : N) (action : ControlAction)
    (request : SubmitBulkCommandRequest) (operator : OperatorCaller) (n : nat)
    (targets : list BulkCommandTarget) (slots : Slots) (pending : list PendingTarget) (g : G)
    : Slots * list PendingTarget * G :=
  match targets with
  | [] => (slots, pending, g)
  | t :: targets =>
      let go slots pending g :=
        bulk_admit cf env bulk_id bulk_millis action request operator (S n) targets slots pending g in
      match admit_operator cf env n (subject operator) g with
      | (Err e, g) => go (slots ++ [Some (rejected_bulk_result t e)]) pending g
      | (Ok _, g) =>
          match build_control_request (target_input bulk_id bulk_millis action request t) operator
                  (cv_fresh env) (cv_millis env (S n)) with
          | Ok a => go (slots ++ [None]) (pending ++ [(length slots, t, a)]) g
          | Err e => go (slots ++ [Some (rejected_bulk_result t e)]) pending g
          end
      end
  end.

(** Phase 2: the writes, in one blocking task. *)
Fixpoint bulk_write env (pending : list PendingTarget) (g : G) : list WriteResult * G :=
  match pending with
  | [] => ([], g)
  | (slot, t, a) :: pending =>
      let '(r, g) := write_both env slot (ac_request a) (ac_delivery a) g in
      let '(rs, g) := bulk_write env pending g in
      ((slot, t, ac_command_id a, r) :: rs, g)
  end.

(** The loop over the results: the counters, the slots, and whether a write
    failed. *)
Definition bulk_fill_one (acc : GatewayMetrics * Slots * bool) (w : WriteResult)
    : GatewayMetrics * Slots * bool :=
  let '(m, slots, failed) := acc in
  let '(slot, t, command_id, r) := w in
  match r with
  | Ok (outcome, record) =>
      (metrics_submission (so_duplicate outcome) m,
       <[slot := Some (accepted_bulk_result t command_id outcome record)]> slots, failed)
  | Err e => (m, <[slot := Some (rejected_bulk_result t e)]> slots, true)
  end.

(** [do_submit_bulk_command]; a slot left empty would be the [expect] of the
    code, which [bulk_one_by_one] of GatewayBulk.v shows cannot happen. *)
Definition do_submit_bulk_command cf env (values : list string) (request : SubmitBulkCommandRequest)
    : ST G CommandError SubmitBulkCommandResponse :=
  operator ← operator_caller cf env values;
  if bool_decide (bq_targets request = []) then st_throw no_targets
  else if MAX_BULK_COMMAND_TARGETS <? len (bq_targets request) then st_throw too_many_targets
  else
    let action := action_from_i32 (bq_action request) in
    if bool_decide (action_name action = None) then st_throw bulk_action_unknown
    else
      '(bulk_id, bulk_millis) ← st_lift
        (validate_bulk_id (bq_bulk_id request) (cv_fresh env) (cv_millis env 0));
      '(slots, pending) ← st_state (bulk_admit cf env bulk_id bulk_millis action request operator 0
                                      (bq_targets request) [] []);
      slots ← match pending with
              | [] => mret slots
              | _ =>
                  acquire (cv_slot env) ≫= λ _,
                  written ← st_state (bulk_write env pending);
                  g ← st_get;
                  let '(m, slots, failed) := foldl bulk_fill_one (g_metrics g, slots, false) written in
                  count (λ _, metrics_health (negb failed) m) ≫= λ _, mret slots
              end;
      st_lift (ok_or (mkBulkResponse bulk_id <$> mapM id slots) internal).

(** *** The agents' path *)

(** [self.agent_auth.authenticate(..)], the agent it is bound to and its poll
    ceiling: the common beginning of [do_poll_commands] and
    [do_ack_command]. *)
Definition agent_caller cf env (values : list string) (peer : option PeerIdentity)
    : ST G CommandError (Caller * string) :=
  caller ← on_agent_auth
    (agent_authenticate (cf_agent_resolve cf (started_at (env_t (cv_agent env)))) (cv_agent env)
       values peer);
  agent_id ← st_lift (ok_or (ca_bound_agent_id caller) unauthenticated);
  on_polls (admit_poll (cv_admit env 0) (cf_poll_limit cf) (cf_window cf)
              (default agent_id (ca_subject caller))) ≫= λ _,
  mret (caller, agent_id).

(** [CallerScopes::allows]. *)
Definition caller_scopes (caller : Caller) (workspace_id namespace_id : string) : bool :=
  caller_allows_scope caller (workspace_id +:+ "/" +:+ namespace_id).

(** [do_poll_commands]. *)
Definition do_poll_commands cf env (values : list string) (peer : option PeerIdentity)
    (max_commands : N) : ST G CommandError PollCommandsResponse :=
  '(caller, agent_id) ← agent_caller cf env values peer;
  let limit := if max_commands =? 0 then DEFAULT_MAX_COMMANDS_PER_POLL
               else N.min max_commands MAX_COMMANDS_PER_POLL in
  acquire (cv_slot env) ≫= λ _,
  st_try (on_inbox (backend_claim (cv_io env 0) (mkPollTarget agent_id limit) (caller_scopes caller)
                      (cf_delivery_policy cf) (cv_millis env 0))) (λ r,
  match r with
  | Err e => count (metrics_health false) ≫= λ _, st_throw e
  | Ok claimed =>
      count (metrics_health true) ≫= λ _,
      count metrics_poll ≫= λ _,
      mret (mkPollResponse (pending_to_proto <$> claimed) agent_id
              (min_poll_interval_seconds (cf_poll_limit cf) (cf_window cf)))
  end).

(** [do_ack_command]. *)
Definition do_ack_command cf env (values : list string) (peer : option PeerIdentity)
    (request : AckCommandRequest) : ST G CommandError AckCommandResponse :=
  '(caller, agent_id) ← agent_caller cf env values peer;
  if str_is_empty (aq_workspace_id request) || str_is_empty (aq_namespace_id request)
     || str_is_empty (aq_command_id request) || (aq_delivery_attempt request =? 0)
  then st_throw invalid_command
  else if negb (caller_scopes caller (aq_workspace_id request) (aq_namespace_id request))
  then st_throw scope_denied
  else
    acquire (cv_slot env) ≫= λ _,
    result ← on_inbox (backend_acknowledge (cv_io env 0) (mkPollTarget agent_id 1)
      (mkInboxKey (aq_workspace_id request) (aq_namespace_id request) (aq_command_id request))
      (aq_delivery_attempt request) (cv_millis env 0));
    let '(acknowledged, already) :=
      match result with
      | Acknowledged => (true, false)
      | AlreadyAcknowledged => (false, true)
      | AckNotFound => (false, false)
      end in
    mret (mkAckResponse (aq_command_id request) acknowledged already).

(** *** The operators' queries *)

(** The common beginning of the three queries. *)
Definition admitted_operator cf env (values : list string) : ST G CommandError OperatorCaller :=
  operator ← operator_caller cf env values;
  admit_operator cf env 0 (subject operator) ≫= λ _, mret operator.

Definition key_request_empty (r : CommandKeyRequest) : bool :=
  str_is_empty (kq_workspace_id r) || str_is_empty (kq_namespace_id r)
  || str_is_empty (kq_command_id r).
Definition request_key (r : CommandKeyRequest) : InboxKey :=
  mkInboxKey (kq_workspace_id r) (kq_namespace_id r) (kq_command_id r).

(** [do_get_command_status]. *)
Definition do_get_command_status cf env (values : list string) (request : CommandKeyRequest)
    : ST G CommandError GetCommandStatusResponse :=
  operator ← admitted_operator cf env values;
  if key_request_empty request then st_throw invalid_command
  else if negb (allows_scope operator (kq_workspace_id request) (kq_namespace_id request))
  then st_throw scope_denied
  else
    acquire (cv_slot env) ≫= λ _,
    result ← on_inbox (backend_status (cv_io env 0) (request_key request)
                         DEFAULT_MAX_DELIVERY_ATTEMPTS);
    let '(state, delivery_attempt) :=
      match result with
      | Some (status, attempt) => (delivery_status_to_proto status, attempt)
      | None => (StateUnspecified, 0)
      end in
    mret (mkStatusResponse (kq_command_id request) state delivery_attempt).

(** The query of a [ListCommands] request. *)
Definition list_query (r : ListCommandsRequest) (after_sequence : N) : ListCommandsQuery :=
  mkListCommandsQuery (lr_workspace_id r) (lr_namespace_id r)
    (a ← lr_agent_id r; if str_is_empty a then None else Some a)
    (state_from_number (lr_state r) ≫= proto_state_to_delivery_status)
    after_sequence
    (if lr_page_size r =? 0 then DEFAULT_LIST_COMMANDS_PAGE_SIZE
     else N.min (lr_page_size r) MAX_LIST_COMMANDS_PAGE_SIZE)
    DEFAULT_MAX_DELIVERY_ATTEMPTS.

Definition page_cursor (token : string) : result CommandError N :=
  if str_is_empty token then Ok 0 else ok_or (parse_u64 token) invalid_command.

(** [next_page_token]. *)
Definition next_page_token (page : ListCommandsPage) : string :=
  if lp_has_more page
  then default EmptyString ((λ c, decimal (cs_sequence c)) <$> last (lp_commands page))
  else EmptyString.

(** [do_list_commands]. *)
Definition do_list_commands cf env (values : list string) (request : ListCommandsRequest)
    : ST G CommandError ListCommandsResponse :=
  operator ← admitted_operator cf env values;
  if str_is_empty (lr_workspace_id request) || str_is_empty (lr_namespace_id request)
  then st_throw invalid_command
  else if negb (allows_scope operator (lr_workspace_id request) (lr_namespace_id request))
  then st_throw scope_denied
  else
    after_sequence ← st_lift (page_cursor (lr_page_token request));
    acquire (cv_slot env) ≫= λ _,
    page ← on_inbox (backend_list_commands (cv_io env 0) (list_query request after_sequence));
    mret (mkListResponse (command_summary_to_proto <$> lp_commands page) (next_page_token page)).

(** [do_cancel_command]. *)
Definition do_cancel_command cf env (values : list string) (request : CommandKeyRequest)
    : ST G CommandError CancelCommandResponse :=
  operator ← admitted_operator cf env values;
  if key_request_empty request then st_throw invalid_command
  else if negb (allows_scope operator (kq_workspace_id request) (kq_namespace_id request))
  then st_throw scope_denied
  else
    acquire (cv_slot env) ≫= λ _,
    result ← on_inbox (backend_cancel (cv_io env 0) (request_key request) (cv_millis env 0));
    let '(cancelled, already) :=
      match result with
      | Cancelled => (true, false)
      | AlreadyCancelled => (false, true)
      | CancelNotFound => (false, false)
      end in
    mret (mkCancelResponse (kq_command_id request) cancelled already).
End handlers.
Arguments CallEnv I {_}.
