(* ===== verification/GatewayLaws.v ===== *)
(** * What the gateway's calls do to its stores

    Every remote call of Gateway acts on the inbox by operations its credentials
    allow, and on the outbox by adding rows it may add: a refinement of the
    inbox machine of InboxWf, proved against the contracts of the two stores
    and for any outcome of clocks, permits and I/O. *)
From S2P Require Import Prelude RustStr Digits Time Errors Backend Ephemeral OperatorAuth Caller Verifier AgentAuth Admit Convert Domain Codecs Admission Fingerprint DualApproval Inbox Envelope Outbox OutboxLaws Replay InboxWf InboxDelivery CommandInbox Gateway.

Open Scope N_scope.

(** ** Computations that keep a predicate *)

Section preserves.
Context {S E : Type}.
Implicit Types P : S → Prop.

Definition preserves {A} P (m : ST S E A) : Prop := ∀ s, P s → P (m s).2.
(** [a] is an answer [m] can give. *)
Definition returns {A} (m : ST S E A) (a : A) : Prop := ∃ s, (m s).1 = Ok a.

Lemma preserves_ret {A} P (a : A) : preserves P (mret a : ST S E A).
Proof. by intros s Hs. Qed.
Lemma preserves_throw {A} P (e : E) : preserves P (st_throw e : ST S E A).
Proof. by intros s Hs. Qed.
Lemma preserves_lift {A} P (r : result E A) : preserves P (st_lift r : ST S E A).
Proof. by intros s Hs. Qed.
Lemma preserves_get P : preserves P (st_get : ST S E S).
Proof. by intros s Hs. Qed.

Lemma preserves_bind {A B} P (m : ST S E A) (f : A → ST S E B) :
  preserves P m → (∀ a, returns m a → preserves P (f a)) → preserves P (m ≫= f).
Proof.
  intros Hm Hf s Hs. specialize (Hm s Hs). unfold mbind, st_bind.
  destruct (m s) as [[a|e] s'] eqn:Ha; simpl in *; [|done].
  apply (Hf a); [by exists s; rewrite Ha|done].
Qed.

Lemma preserves_try {A B} P (m : ST S E A) (k : result E A → ST S E B) :
  preserves P m → (∀ r, preserves P (k r)) → preserves P (st_try m k).
Proof.
  intros Hm Hk s Hs. specialize (Hm s Hs). unfold st_try. destruct (m s) as [r s']. by apply Hk.
Qed.

Lemma preserves_zoom {T A} P (get : S → T) (set : T → S → S) (m : ST T E A) :
  (∀ s, P s → P (set (m (get s)).2 s)) → preserves P (st_zoom get set m).
Proof. intros HP s Hs. unfold st_zoom. specialize (HP s Hs). by destruct (m (get s)). Qed.
End preserves.
#[export] Hint Resolve preserves_ret preserves_throw preserves_lift preserves_get : apex.

(** Gets past the guards that refuse a request. *)
Ltac guards :=
  repeat (cbv beta zeta;
          match goal with
          | |- preserves _ (if ?b then st_throw _ else _) => destruct b; [apply preserves_throw|]
          end).

Lemma returns_bind {S E A B} (m : ST S E A) (f : A → ST S E B) (b : B) :
  returns (m ≫= f) b → ∃ a, returns m a ∧ returns (f a) b.
Proof.
  intros [s Hs]. unfold mbind, st_bind in Hs. destruct (m s) as [[a|e] s'] eqn:Ha; [|done].
  exists a. split; [by exists s; rewrite Ha|by exists s'].
Qed.

Lemma returns_zoom {S T E A} (get : S → T) (set : T → S → S) (m : ST T E A) (a : A) :
  returns (st_zoom get set m) a → returns m a.
Proof. intros [s Hs]. exists (get s). unfold st_zoom in Hs. by destruct (m (get s)). Qed.

Lemma returns_lift {S E A} (r : result E A) (a : A) :
  returns (st_lift r : ST S E A) a → r = Ok a.
Proof. by intros [s Hs]. Qed.

Lemma returns_ret {S E A} (a b : A) : returns (mret a : ST S E A) b → b = a.
Proof. intros [s Hs]. by apply (inj Ok) in Hs. Qed.

(** ** Credentials *)

(** The operator a call's [authorization] values stand for. *)
Definition operator_credential `{AuthDeps} (cf : GatewayConfig) (values : list string)
    (op : OperatorCaller) : Prop :=
  ∃ token, extract_bearer_token values = Ok token ∧ cf_resolve cf token = Ok op.

(** The agent a call's token and certificate stand for. *)
Definition agent_credential `{AuthDeps} (cf : GatewayConfig) (now : N) (values : list string)
    (peer : option PeerIdentity) (caller : Caller) (agent_id : string) : Prop :=
  ∃ value token, values = [value] ∧ bearer_value value = Some token ∧ peer ≠ None
    ∧ cf_agent_resolve cf now token peer = Ok caller ∧ ca_bound_agent_id caller = Some agent_id.

(** ** Rows *)

(** The only change to the rows is new pending rows that satisfy [ok]. *)
Definition rows_extend (ok : IngestRequest → Prop) (m m' : gmap OutboxKey Row) : Prop :=
  ∀ k, m' !! k = m !! k
       ∨ m !! k = None ∧ ∃ r, ok r ∧ Outbox.key_of r = k ∧ m' !! k = Some (Pending r).

Lemma rows_extend_refl ok m : rows_extend ok m m.
Proof. by left. Qed.

Lemma rows_extend_trans ok m m' m'' :
  rows_extend ok m m' → rows_extend ok m' m'' → rows_extend ok m m''.
Proof.
  intros H1 H2 k. destruct (H1 k) as [E1|(N1 & r1 & ? & ? & E1)], (H2 k) as [E2|(N2 & r2 & ? & ? & E2)].
  - left. congruence.
  - right. split; [congruence|eauto].
  - right. split; [done|]. rewrite E2. eauto.
  - congruence.
Qed.

Lemma rows_extend_impl (ok ok' : IngestRequest → Prop) m m' :
  (∀ r, ok r → ok' r) → rows_extend ok m m' → rows_extend ok' m m'.
Proof. intros Hok Hm k. destruct (Hm k) as [?|(? & r & ? & ? & ?)]; [by left|right; eauto 10]. Qed.

(** ** Calls and what they may do *)

Inductive gateway_call :=
  | CallSubmit (values : list string) (request : ControlCommandRequest)
  | CallBulk (values : list string) (request : SubmitBulkCommandRequest)
  | CallPoll (values : list string) (peer : option PeerIdentity) (max_commands : N)
  | CallAck (values : list string) (peer : option PeerIdentity) (request : AckCommandRequest)
  | CallStatus (values : list string) (request : CommandKeyRequest)
  | CallList (values : list string) (request : ListCommandsRequest)
  | CallCancel (values : list string) (request : CommandKeyRequest).

Section calls.
Context {O I St : Type} `{AuthDeps, DomainDeps, EnvelopeDeps, !UuidApi, StructDecode}.
Context `{OutboxLaws O, InboxLaws I, EphemeralStore St}.
Implicit Types (env : CallEnv I) (cf : GatewayConfig) (g : ControlGatewayService O I St).

(** The service after a call. *)
Definition serve cf env (call : gateway_call) g : ControlGatewayService O I St :=
  match call with
  | CallSubmit values request => (do_submit_command cf env values request g).2
  | CallBulk values request => (do_submit_bulk_command cf env values request g).2
  | CallPoll values peer max_commands => (do_poll_commands cf env values peer max_commands g).2
  | CallAck values peer request => (do_ack_command cf env values peer request g).2
  | CallStatus values request => (do_get_command_status cf env values request g).2
  | CallList values request => (do_list_commands cf env values request g).2
  | CallCancel values request => (do_cancel_command cf env values request g).2
  end.

(** The commands a call can produce: of its own request, by its own operator,
    within that operator's scopes. *)
Inductive builds cf env : gateway_call → AcceptedCommand → Prop :=
  | builds_submit values request op input n a :
      operator_credential cf values op →
      (input = from_request request ∨ ∃ id, input = with_command_id (from_request request) id) →
      build_control_request input op (cv_fresh env) (cv_millis env n) = Ok a →
      builds cf env (CallSubmit values request) a
  | builds_bulk values request op bulk_id bulk_millis t n a :
      operator_credential cf values op → t ∈ bq_targets request →
      build_control_request
        (target_input bulk_id bulk_millis (action_from_i32 (bq_action request)) request t)
        op (cv_fresh env) (cv_millis env n) = Ok a →
      builds cf env (CallBulk values request) a.

(** The inbox operations a call's credentials grant it. *)
Inductive granted cf env : gateway_call → inbox_op → Prop :=
  | grant_record call a : builds cf env call a → granted cf env call (OpRecord (ac_delivery a))
  | grant_claim values peer max_commands caller agent_id limit :
      agent_credential cf (started_at (env_t (cv_agent env))) values peer caller agent_id →
      limit ≤ MAX_COMMANDS_PER_POLL →
      granted cf env (CallPoll values peer max_commands)
        (OpClaim (mkPollTarget agent_id limit) (caller_scopes caller) (cf_delivery_policy cf)
           (cv_millis env 0))
  | grant_acknowledge values peer request caller agent_id :
      agent_credential cf (started_at (env_t (cv_agent env))) values peer caller agent_id →
      caller_scopes caller (aq_workspace_id request) (aq_namespace_id request) = true →
      granted cf env (CallAck values peer request)
        (OpAcknowledge (mkPollTarget agent_id 1)
           (mkInboxKey (aq_workspace_id request) (aq_namespace_id request) (aq_command_id request))
           (aq_delivery_attempt request))
  | grant_cancel values request op :
      operator_credential cf values op →
      allows_scope op (kq_workspace_id request) (kq_namespace_id request) = true →
      granted cf env (CallCancel values request) (OpCancel (request_key request) (cv_millis env 0))
  | grant_retain call : granted cf env call OpRetain.

(** The stores behind healthy single locks, well formed. *)
Definition stores (o : O) (i : I) g : Prop :=
  g_outbox g = single o ∧ g_inbox g = single i ∧ outbox_wf o ∧ inbox_wf (inbox_view i).

(** From the stores [o] and [i], the service has got to [g] by the granted
    operations and rows. *)
Definition evolves (ok_op : inbox_op → Prop) (ok_row : IngestRequest → Prop) (o : O) (i : I) g
    : Prop :=
  ∃ o' i' ops, stores o' i' g ∧ inbox_view i' = run_ops ops (inbox_view i)
    ∧ Forall ok_op ops ∧ rows_extend ok_row (rows o) (rows o').

Lemma run_ops_app ops ops' s : run_ops (ops ++ ops') s = run_ops ops' (run_ops ops s).
Proof. revert s. induction ops as [|op ops IH]; intros s; [done|]. apply IH. Qed.

Lemma evolves_here ok_op ok_row o i g : stores o i g → evolves ok_op ok_row o i g.
Proof. intros Hs. exists o, i, []. split_and!; [done..|]. apply rows_extend_refl. Qed.

(** One more step of the inbox. *)
Lemma evolves_inbox ok_op ok_row o i g {A} op (m : ST I CommandError A)
    (model : InboxState → result CommandError A * InboxState) :
  ok_op op → ok_op OpRetain →
  (∀ i, inbox_wf (inbox_view i) → answers inbox_view model m i) →
  (∀ s, (model s).2 = run_op op s) →
  evolves ok_op ok_row o i g → evolves ok_op ok_row o i (on_inbox (locked m) g).2.
Proof.
  intros Hop Hret Hans Hmodel (o' & i' & ops & (Ho & Hi & Hwfo & Hwfi) & Hv & Hops & Hrows).
  unfold on_inbox, st_zoom. rewrite Hi, locked_single.
  pose proof (Hans i' Hwfi) as Ha.
  pose proof (answers_wf _ _ _ _ Ha Hwfi) as Hwf'. rewrite Hmodel in Hwf'.
  specialize (Hwf' (run_op_wf op _ Hwfi)).
  unfold answers in Ha. destruct (m i') as [r i2]. cbn [fst snd] in *.
  assert (∃ ops', inbox_view i2 = run_ops ops' (inbox_view i') ∧ Forall ok_op ops')
    as (ops' & Hv' & Hops').
  { destruct r as [a|e]; [|by exists []]. destruct Ha as (s' & Hs' & Hcase).
    pose proof (Hmodel (inbox_view i')) as Hm. rewrite Hs' in Hm. cbn [snd] in Hm. subst s'.
    destruct Hcase as [-> | ->]; [by exists [op]; auto|]. exists [op; OpRetain]. auto. }
  exists o', i2, (ops ++ ops'). split_and!; [done..| |by apply Forall_app|done].
  by rewrite run_ops_app, <- Hv.
Qed.

(** A read of the inbox. *)
Lemma evolves_inbox_read (ok_op : inbox_op → Prop) ok_row o i g {A} (m : ST I CommandError A)
    (f : InboxState → A) :
  ok_op OpRetain → (∀ i, inbox_wf (inbox_view i) → answers inbox_view (reading f) m i) →
  evolves ok_op ok_row o i g → evolves ok_op ok_row o i (on_inbox (locked m) g).2.
Proof.
  intros Hret Hans (o' & i' & ops & (Ho & Hi & Hwfo & Hwfi) & Hv & Hops & Hrows).
  unfold on_inbox, st_zoom. rewrite Hi, locked_single. pose proof (Hans i' Hwfi) as Ha.
  pose proof (answers_wf _ _ _ _ Ha Hwfi Hwfi) as Hwf'.
  unfold answers, reading in Ha. destruct (m i') as [r i2]. cbn [fst snd] in *.
  assert (∃ ops', inbox_view i2 = run_ops ops' (inbox_view i') ∧ Forall ok_op ops')
    as (ops' & Hv' & Hops').
  { destruct r as [a|e]; [|by exists []]. destruct Ha as (s' & [= _ <-] & [->| ->]); [by exists []|].
    exists [OpRetain]. auto. }
  exists o', i2, (ops ++ ops'). split_and!; [done..| |by apply Forall_app|done].
  by rewrite run_ops_app, <- Hv.
Qed.

(** A submission to the outbox. *)
Lemma evolves_outbox ok_op (ok_row : IngestRequest → Prop) o i g now r :
  ok_row r → evolves ok_op ok_row o i g →
  evolves ok_op ok_row o i (on_outbox (submit_command now r) g).2.
Proof.
  intros Hr (o' & i' & ops & (Ho & Hi & Hwfo & Hwfi) & Hv & Hops & Hrows).
  unfold on_outbox, st_zoom. rewrite Ho.
  destruct (submit_command_rows now r o' Hwfo) as (o2 & Hb & Hwf2 & Hcase & _).
  destruct (submit_command now r (single o')) as [res b2]. cbn [snd] in Hb. subst b2.
  exists o2, i', ops. split_and!; [done..|]. eapply rows_extend_trans; [done|].
  destruct Hcase as [->|[Hnone ->]]; [apply rows_extend_refl|]. intros k.
  destruct (decide (Outbox.key_of r = k)) as [<-|Hne];
    [rewrite lookup_insert_eq; right; eauto|left; by rewrite lookup_insert_ne].
Qed.

(** Everything else leaves the stores alone. *)
Lemma evolves_same ok_op ok_row o i g g' :
  g_outbox g' = g_outbox g → g_inbox g' = g_inbox g →
  evolves ok_op ok_row o i g → evolves ok_op ok_row o i g'.
Proof.
  intros Ho Hi (o' & i' & ops & (Ho' & Hi' & Hwf) & Hrest). exists o', i', ops.
  split; [|done]. unfold stores. by rewrite Ho, Hi.
Qed.
(** ** Credentials are checked *)

Lemma operator_caller_returns cf env values op :
  returns (operator_caller (O := O) (I := I) (St := St) cf env values) op →
  operator_credential cf values op.
Proof.
  intros [m Hm]%returns_zoom. unfold authenticate in Hm.
  destruct (extract_bearer_token values) as [token|] eqn:Ht; [|done]. exists token. split; [done|].
  destruct (check_and_record_attempt _ _ _ m) as [[] m1]; [|done].
  by destruct (cf_resolve cf token).
Qed.

Lemma admitted_operator_returns cf env values op :
  returns (admitted_operator (O := O) (I := I) (St := St) cf env values) op →
  operator_credential cf values op.
Proof.
  intros (op' & Hop' & (_ & _ & Hr)%returns_bind)%returns_bind. apply returns_ret in Hr as ->.
  by eapply operator_caller_returns.
Qed.

Lemma agent_caller_returns cf env values peer caller agent_id :
  returns (agent_caller (O := O) (I := I) (St := St) cf env values peer) (caller, agent_id) →
  agent_credential cf (started_at (env_t (cv_agent env))) values peer caller agent_id.
Proof.
  intros (c & Hc & (a & Ha & (_ & _ & Hr)%returns_bind)%returns_bind)%returns_bind.
  apply returns_ret in Hr. injection Hr as -> ->. apply returns_lift in Ha.
  apply returns_zoom in Hc as [v Hv]. apply agent_authenticate_ok, verify_sound in Hv
    as (value & token & -> & Hb & Hres & Hpeer).
  exists value, token. split_and!; [done..|by apply Hpeer|done|].
  by destruct (ca_bound_agent_id c); simplify_eq/=.
Qed.

(** ** Going through the handlers

    What a handler keeps, given what its accesses to the stores keep: [P] is any
    predicate that looks at the stores and the approval gate only. *)

Section traversal.
Variables (P : ControlGatewayService O I St → Prop) (cf : GatewayConfig) (env : CallEnv I).
Hypothesis P_frame : ∀ g g', g_outbox g' = g_outbox g → g_inbox g' = g_inbox g →
  g_dual_approval g' = g_dual_approval g → P g → P g'.

Lemma on_auth_keeps {A} (m : ST (Mutex FailureMap) CommandError A) : preserves P (on_auth m).
Proof. apply preserves_zoom. intros g Hg. by apply (P_frame g). Qed.
Lemma on_agent_auth_keeps {A} (m : ST (Verifier St) CommandError A) : preserves P (on_agent_auth m).
Proof. apply preserves_zoom. intros g Hg. by apply (P_frame g). Qed.
Lemma on_admission_keeps {A} (m : ST (option (Mutex St) * Mutex AdmissionMap) CommandError A) :
  preserves P (on_admission m).
Proof. apply preserves_zoom. intros g Hg. by apply (P_frame g). Qed.
Lemma on_polls_keeps {A} (m : ST (option (Mutex St) * Mutex AdmissionMap) CommandError A) :
  preserves P (on_polls m).
Proof. apply preserves_zoom. intros g Hg. by apply (P_frame g). Qed.
Lemma count_keeps f : preserves P (count f).
Proof. intros g Hg. by apply (P_frame g). Qed.
Lemma acquire_keeps b : preserves P (acquire b).
Proof. by destruct b; intros g Hg. Qed.
#[local] Hint Resolve on_auth_keeps on_agent_auth_keeps on_admission_keeps on_polls_keeps
  count_keeps acquire_keeps : apex.

Lemma operator_caller_keeps values : preserves P (operator_caller cf env values).
Proof. apply on_auth_keeps. Qed.
Lemma admit_operator_keeps n subject : preserves P (admit_operator cf env n subject).
Proof. apply on_admission_keeps. Qed.
Lemma admitted_operator_keeps values : preserves P (admitted_operator cf env values).
Proof.
  apply preserves_bind; [apply operator_caller_keeps|]. intros op _.
  apply preserves_bind; [apply admit_operator_keeps|auto with apex].
Qed.
Lemma agent_caller_keeps values peer : preserves P (agent_caller cf env values peer).
Proof.
  apply preserves_bind; [auto with apex|]. intros caller _.
  apply preserves_bind; [auto with apex|]. intros agent_id _.
  apply preserves_bind; auto with apex.
Qed.

(** A command both of whose writes keep [P]. *)
Definition writable (a : AcceptedCommand) : Prop :=
  ∀ n, preserves P (write_both env n (ac_request a) (ac_delivery a)).

Lemma accept_and_record_keeps a : writable a → preserves P (accept_and_record env a).
Proof.
  intros Ha. apply preserves_bind; [auto with apex|]. intros _ _.
  apply preserves_try; [by apply Ha|]. intros [[out rec]|e].
  - do 2 (apply preserves_bind; [auto with apex|]; intros _ _). auto with apex.
  - apply preserves_bind; auto with apex.
Qed.

Lemma build_and_accept_keeps n input op :
  (∀ a, build_control_request input op (cv_fresh env) (cv_millis env n) = Ok a → writable a) →
  preserves P (build_and_accept env n input op).
Proof.
  intros Hw. apply preserves_bind; [auto with apex|]. intros a Ha%returns_lift.
  apply accept_and_record_keeps. by apply Hw.
Qed.

Lemma submit_force_stop_keeps input op :
  (∀ n (id : string) a, build_control_request (with_command_id input id) op (cv_fresh env)
                          (cv_millis env n) = Ok a → writable a) →
  (∀ key, preserves P (on_inbox (backend_status (cv_status_io env) key
                                   DEFAULT_MAX_DELIVERY_ATTEMPTS))) →
  (∀ A (m : ST DualApprovalGate CommandError A), preserves P (on_gate m)) →
  preserves P (submit_force_stop env input op).
Proof.
  intros Hw Hst Hgate. unfold submit_force_stop. destruct (negb _); [auto with apex|].
  apply preserves_bind; [auto with apex|]. intros [id ts] _. apply preserves_bind.
  { apply preserves_bind; [auto with apex|]. intros _ _. apply Hst. }
  intros recorded _. apply preserves_bind.
  - destruct (bool_decide _); [auto with apex|]. apply preserves_bind; [apply Hgate|].
    intros outcome _. destruct outcome; auto with apex.
  - intros go_on _. destruct go_on; cbn [negb]; [|auto with apex].
    apply build_and_accept_keeps. apply Hw.
Qed.

Lemma submit_keeps values request :
  (∀ a, builds cf env (CallSubmit values request) a → writable a) →
  (∀ key, preserves P (on_inbox (backend_status (cv_status_io env) key
                                   DEFAULT_MAX_DELIVERY_ATTEMPTS))) →
  (∀ A (m : ST DualApprovalGate CommandError A), preserves P (on_gate m)) →
  preserves P (do_submit_command cf env values request).
Proof.
  intros Hw Hst Hgate.
  apply preserves_bind; [apply operator_caller_keeps|]. intros op Hop%operator_caller_returns.
  apply preserves_bind; [apply admit_operator_keeps|]. intros _ _.
  cbv beta zeta. destruct (bool_decide (in_action (from_request request) = ForceStop)).
  - apply submit_force_stop_keeps; [|done..]. intros n id a Ha. apply Hw.
    eapply builds_submit; [done| |done]. right. by exists id.
  - apply build_and_accept_keeps. intros a Ha. apply Hw. eapply builds_submit; [done|by left|done].
Qed.

Lemma bulk_admit_keeps bulk_id bulk_millis action request op n targets slots pending g :
  P g → let '(_, pending', g') := bulk_admit cf env bulk_id bulk_millis action request op n targets
                                    slots pending g in
  P g' ∧ ∀ p, p ∈ pending' → p ∈ pending ∨ p.1.2 ∈ targets
         ∧ ∃ n', build_control_request (target_input bulk_id bulk_millis action request p.1.2) op
                   (cv_fresh env) (cv_millis env n') = Ok p.2.
Proof.
  revert n slots pending g. induction targets as [|t targets IH]; intros n slots pending g Hg.
  { cbn [bulk_admit]. auto. }
  cbn [bulk_admit]. pose proof (admit_operator_keeps n (subject op) g Hg) as Hg1.
  assert (∀ slots' pending' g', P g' → (∀ p, p ∈ pending' → p ∈ pending ∨ p.1.2 = t
         ∧ ∃ n', build_control_request (target_input bulk_id bulk_millis action request p.1.2) op
                   (cv_fresh env) (cv_millis env n') = Ok p.2) →
     let '(_, pending2, g2) := bulk_admit cf env bulk_id bulk_millis action request op (S n) targets
                                 slots' pending' g' in
     P g2 ∧ ∀ p, p ∈ pending2 → p ∈ pending ∨ p.1.2 ∈ t :: targets
         ∧ ∃ n', build_control_request (target_input bulk_id bulk_millis action request p.1.2) op
                   (cv_fresh env) (cv_millis env n') = Ok p.2) as Hgo.
  { intros slots' pending' g' Hg' Hp'. specialize (IH (S n) slots' pending' g' Hg').
    destruct (bulk_admit _ _ _ _ _ _ _ (S n) _ _ _ _) as [[slots2 pending2] g2].
    destruct IH as [Hg2 Hp2]. split; [done|]. intros p [Hp|[Ht Hn]]%Hp2.
    - destruct (Hp' p Hp) as [?|[-> Hn]]; [by left|]. right. split; [by left|done].
    - right. split; [by right|done]. }
  destruct (admit_operator cf env n (subject op) g) as [[[]|e] g1]; cbn [snd] in Hg1.
  - destruct (build_control_request _ _ _ _) as [a|e] eqn:Ha; apply Hgo; auto.
    intros p [Hp|Hp%list_elem_of_singleton]%elem_of_app; [by left|]. subst p. right. eauto.
  - apply Hgo; auto.
Qed.

Lemma bulk_write_keeps pending g :
  (∀ p, p ∈ pending → writable p.2) → P g → P (bulk_write env pending g).2.
Proof.
  revert g. induction pending as [|[[slot t] a] pending IH]; intros g Hw Hg; [done|].
  cbn [bulk_write]. assert (writable a) as Ha by apply (Hw (slot, t, a)), list_elem_of_here.
  pose proof (Ha slot g Hg) as Hg1.
  destruct (write_both env slot (ac_request a) (ac_delivery a) g) as [r g1]. cbn [snd] in Hg1.
  specialize (IH g1 ltac:(intros p Hp; apply Hw; by right) Hg1).
  by destruct (bulk_write env pending g1).
Qed.

Lemma bulk_keeps values request :
  (∀ a, builds cf env (CallBulk values request) a → writable a) →
  preserves P (do_submit_bulk_command cf env values request).
Proof.
  intros Hw.
  apply preserves_bind; [apply operator_caller_keeps|]. intros op Hop%operator_caller_returns.
  guards. apply preserves_bind; [auto with apex|]. intros [bulk_id bulk_millis] _ g Hg.
  unfold mbind, st_bind, st_state.
  pose proof (bulk_admit_keeps bulk_id bulk_millis (action_from_i32 (bq_action request))
    request op 0 (bq_targets request) [] [] g Hg) as Hadm.
  destruct (bulk_admit _ _ _ _ _ _ _ _ _ _ _ _) as [[slots pending] g1].
  destruct Hadm as [Hg1 Hp].
  assert (∀ p, p ∈ pending → writable p.2) as Hwp.
  { intros p [[]%not_elem_of_nil|(Ht & n & Ha)]%Hp. apply Hw. by eapply builds_bulk. }
  clear Hp. destruct pending as [|p pending]; [done|]. unfold acquire.
  destruct (cv_slot env); [|done]. cbn [mret st_ret].
  pose proof (bulk_write_keeps (p :: pending) g1 Hwp Hg1) as Hg2.
  destruct (bulk_write env (p :: pending) g1) as [written g2]. cbn [snd st_get] in *.
  destruct (foldl bulk_fill_one _ written) as [[m slots'] failed]. simpl.
  by apply (P_frame g2).
Qed.

Lemma poll_keeps values peer max_commands :
  (∀ caller agent_id limit,
     agent_credential cf (started_at (env_t (cv_agent env))) values peer caller agent_id →
     limit ≤ MAX_COMMANDS_PER_POLL →
     preserves P (on_inbox (backend_claim (cv_io env 0) (mkPollTarget agent_id limit)
       (caller_scopes caller) (cf_delivery_policy cf) (cv_millis env 0)))) →
  preserves P (do_poll_commands cf env values peer max_commands).
Proof.
  intros Hclaim. apply preserves_bind; [apply agent_caller_keeps|].
  intros [caller agent_id] Hc%agent_caller_returns.
  apply preserves_bind; [auto with apex|]. intros _ _. apply preserves_try.
  - eapply Hclaim; [done|]. destruct (max_commands =? 0); [done|apply N.le_min_r].
  - intros [claimed|e].
    + do 2 (apply preserves_bind; [auto with apex|]; intros _ _). auto with apex.
    + apply preserves_bind; auto with apex.
Qed.

Lemma ack_keeps values peer request :
  (∀ caller agent_id,
     agent_credential cf (started_at (env_t (cv_agent env))) values peer caller agent_id →
     caller_scopes caller (aq_workspace_id request) (aq_namespace_id request) = true →
     preserves P (on_inbox (backend_acknowledge (cv_io env 0) (mkPollTarget agent_id 1)
       (mkInboxKey (aq_workspace_id request) (aq_namespace_id request) (aq_command_id request))
       (aq_delivery_attempt request) (cv_millis env 0)))) →
  preserves P (do_ack_command cf env values peer request).
Proof.
  intros Hack. apply preserves_bind; [apply agent_caller_keeps|].
  intros [caller agent_id] Hc%agent_caller_returns.
  destruct (_ || _ || _ || _); [auto with apex|].
  destruct (caller_scopes _ _ _) eqn:Hsc; cbn [negb]; [|auto with apex].
  apply preserves_bind; [auto with apex|]. intros _ _.
  apply preserves_bind; [by eapply Hack|]. intros r _. destruct r; auto with apex.
Qed.

Lemma get_status_keeps values request :
  preserves P (on_inbox (backend_status (cv_io env 0) (request_key request)
                           DEFAULT_MAX_DELIVERY_ATTEMPTS)) →
  preserves P (do_get_command_status cf env values request).
Proof.
  intros Hst. apply preserves_bind; [apply admitted_operator_keeps|]. intros op _.
  guards. apply preserves_bind; [auto with apex|]. intros _ _. apply preserves_bind; [done|].
  intros [[status attempt]|] _; auto with apex.
Qed.

Lemma list_keeps values request :
  (∀ after, preserves P (on_inbox (backend_list_commands (cv_io env 0) (list_query request after)))) →
  preserves P (do_list_commands cf env values request).
Proof.
  intros Hls. apply preserves_bind; [apply admitted_operator_keeps|]. intros op _. guards.
  apply preserves_bind; [auto with apex|]. intros after _.
  apply preserves_bind; [auto with apex|]. intros _ _. apply preserves_bind; auto with apex.
Qed.

Lemma cancel_keeps values request :
  (∀ op, operator_credential cf values op →
     allows_scope op (kq_workspace_id request) (kq_namespace_id request) = true →
     preserves P (on_inbox (backend_cancel (cv_io env 0) (request_key request) (cv_millis env 0)))) →
  preserves P (do_cancel_command cf env values request).
Proof.
  intros Hcancel. apply preserves_bind; [apply admitted_operator_keeps|].
  intros op Hop%admitted_operator_returns. destruct (key_request_empty request); [auto with apex|].
  destruct (allows_scope op _ _) eqn:Hsc; cbn [negb]; [|auto with apex].
  apply preserves_bind; [auto with apex|]. intros _ _.
  apply preserves_bind; [by eapply Hcancel|]. intros r _. destruct r; auto with apex.
Qed.
End traversal.

(** ** The refinement *)

Section refinement.
Variables (cf : GatewayConfig) (env : CallEnv I) (o : O) (i : I).
Abbreviation ok_row call := (λ r, ∃ a, builds cf env call a ∧ r = ac_request a).
Abbreviation within call := (evolves (granted cf env call) (ok_row call) o i).

Lemma within_frame call g g' :
  g_outbox g' = g_outbox g → g_inbox g' = g_inbox g → g_dual_approval g' = g_dual_approval g →
  within call g → within call g'.
Proof. intros Ho Hi _. by apply evolves_same. Qed.

Lemma builds_writable call a : builds cf env call a → writable (within call) env a.
Proof.
  intros Ha n. apply preserves_bind.
  { intros g. apply evolves_outbox. eauto. }
  intros out _. apply preserves_bind; [|auto with apex].
  intros g. apply (evolves_inbox _ _ _ _ _ (OpRecord (ac_delivery a)) _ (record (ac_delivery a)));
    [by apply grant_record|apply grant_retain| |done]. intros i' Hwf. by apply record_law.
Qed.

Lemma status_within call io key max :
  preserves (within call) (on_inbox (backend_status io key max)).
Proof.
  intros g. apply (evolves_inbox_read _ _ _ _ _ _ (λ s, status s key max)); [apply grant_retain|].
  intros i' Hwf. by apply status_law.
Qed.

Lemma serve_within call g : stores o i g → within call (serve cf env call g).
Proof.
  intros Hg%(evolves_here (granted cf env call) (ok_row call)).
  pose proof (within_frame call) as Hf. pose proof (grant_retain cf env call) as Hret.
  destruct call as [values request|values request|values peer mx|values peer request|values request
    |values request|values request]; simpl; revert g Hg.
  - apply submit_keeps; [done|apply builds_writable|intros; apply status_within|].
    intros A m. apply preserves_zoom. intros g. by apply evolves_same.
  - apply bulk_keeps; [done|apply builds_writable].
  - apply poll_keeps; [done|]. intros caller agent limit Hc Hl g.
    eapply (evolves_inbox _ _ _ _ _ (OpClaim (mkPollTarget agent limit) (caller_scopes caller)
      (cf_delivery_policy cf) (cv_millis env 0)) _ (infallible (claim _ _ _ _))); [|done|..].
    + by eapply grant_claim.
    + intros i' Hwf. by apply claim_law.
    + intros s. unfold infallible. simpl. by destruct (claim _ _ _ _ s).
  - apply ack_keeps; [done|]. intros caller agent Hc Hsc g.
    eapply (evolves_inbox _ _ _ _ _ (OpAcknowledge (mkPollTarget agent 1) _
      (aq_delivery_attempt request)) _ (infallible (acknowledge _ _ _))); [|done|..].
    + by eapply grant_acknowledge.
    + intros i' Hwf. by apply acknowledge_law.
    + intros s. unfold infallible. simpl. by destruct (acknowledge _ _ _ s).
  - apply get_status_keeps; [done|apply status_within].
  - apply list_keeps; [done|]. intros after g. apply (evolves_inbox_read _ _ _ _ _ _
      (λ s, list_commands s (list_query request after))); [done|].
    intros i' Hwf. by apply list_law.
  - apply cancel_keeps; [done|]. intros op Hop Hsc g.
    eapply (evolves_inbox _ _ _ _ _ (OpCancel (request_key request) (cv_millis env 0)) _
      (cancel (request_key request) (cv_millis env 0))); [by eapply grant_cancel|done| |done].
    intros i' Hwf. by apply cancel_law.
Qed.
End refinement.
End calls.

(** * A concrete gateway

    The libraries instantiated, an in-memory outbox and inbox, two operators and
    one agent: what the concrete runs of the following files start from. *)

#[global] Instance gw_auth : AuthDeps := {| header_to_str := Some; sha256_digest := id |}.
#[global] Instance gw_deps : DomainDeps := demo_deps.
#[global] Instance gw_env : EnvelopeDeps := {|
  struct_encode := @struct_encode demo_env;
  envelope_decode := @envelope_decode demo_env;
  sha256_bytes := id;
  uuid_from_millis _ _ := "0198c1a2-0000-7000-8000-0000000b01d1";
|}.
#[global] Instance gw_uuid : UuidApi := demo_uuid.
#[global] Instance gw_struct : StructDecode := λ _, None.
#[global] Instance gw_digest : PayloadDigest := id.

(** Alice may act everywhere, Bob in [ws/ns] only. *)
Definition demo_resolve (token : string) : result CommandError OperatorCaller :=
  if String.eqb token "alice-token" then Ok (mkOperator "alice" Global)
  else if String.eqb token "bob-token" then Ok (mkOperator "bob" (Scoped {["ws/ns"]}))
  else Err unauthenticated.
Definition demo_agent_resolve (now : N) (token : string) (peer : option PeerIdentity)
    : result GatewayErrorCode Caller :=
  if String.eqb token "agent-token" then Ok (mkCaller true (Some "agent-1") (Some "agent-1") {["ws/ns"]})
  else Err GUnauthenticated.
Definition demo_config : GatewayConfig := default_config demo_resolve demo_agent_resolve.

Definition demo_outbox : InMemoryOutbox := mkMemory 10 ∅ ∅ ∅ ∅ ∅ ∅ ∅.
Definition demo_inbox : InMemoryCommandInbox := mkInMemory (in_memory_new 10 5).
Definition demo_gateway
    : ControlGatewayService InMemoryOutbox InMemoryCommandInbox InMemoryEphemeralStore :=
  with_inbox (single demo_outbox) (single demo_inbox) None.

Lemma demo_stores : stores demo_outbox demo_inbox demo_gateway.
Proof.
  split_and!; [done|done| |].
  - by apply (memory_new_wf 10).
  - by apply inbox_new_wf.
Qed.

(** A call in second [n], on a healthy machine. *)
Definition demo_call (n : N) : CallEnv InMemoryCommandInbox :=
  let t := mkReadings (from_secs n) (from_secs n) in
  mkCallEnv t (mkEnv t true) (λ _, mkAdmitEnv t true (from_secs n) (from_secs n)) (from_secs n)
    (λ _, demo_now + 1000 * n) "0198c1a2-0000-7000-8000-00000000ffff" true true (λ _, demo_now + 1000 * n)
    tt (λ _, tt).

Definition demo_request (id : string) (action : Z) (reason : option string) : ControlCommandRequest :=
  mkCommandRequest (Some id) "ws" "ns" "agent-1" "run-1" None "trace-1" action reason None.

(** One target of a bulk call. *)
Definition demo_bulk (action : Z) : SubmitBulkCommandRequest :=
  mkBulkRequest (Some "0198c1a2-0000-7000-8000-0000000000bb") action (Some "runaway") None
    [mkTarget "ws" "ns" "agent-1" "run-1" None "trace-1"].

(** The agent's certificate, and its poll. *)
Definition demo_peer : option PeerIdentity := Some (mkPeer "agent-certificate").
Definition demo_poll : gateway_call := CallPoll ["Bearer agent-token"] demo_peer 0.
