(* ===== verification/GatewayAuthority.v ===== *)
(** * No call reaches past its credentials

    The refinement of GatewayLaws over whole runs, and what it means for one
    call: nothing outside the scopes of its credential changes. *)
From S2P Require Import Prelude RustStr Digits Time Errors Backend Ephemeral OperatorAuth Caller Verifier.
From S2P Require Import AgentAuth Admit Convert Domain Codecs Admission Fingerprint DualApproval Envelope.
From S2P Require Import Inbox InboxWf InboxDelivery CommandInbox Outbox OutboxLaws Replay Gateway GatewayLaws.

Open Scope N_scope.

Section runs.
Context {O I St : Type} `{AuthDeps, DomainDeps, EnvelopeDeps, !UuidApi, StructDecode}.
Context `{OutboxLaws O, InboxLaws I, EphemeralStore St}.
Implicit Types (env : CallEnv I) (cf : GatewayConfig) (g : ControlGatewayService O I St).

(** A run of calls, each in its environment. *)
Definition serve_all cf (calls : list (CallEnv I * gateway_call)) g : ControlGatewayService O I St :=
  foldl (λ g c, serve cf c.1 c.2 g) g calls.

(** C2. The gateway implements the inbox machine.  Whatever calls arrive, with
    whatever credentials, clocks, permits and storage failures, the inbox after
    a run is the inbox before it under a sequence of inbox operations each of
    which the credentials of one of the calls grant, and the outbox has gained
    nothing but pending rows of commands that one of the calls was allowed to
    build.  Both stores stay well formed. *)
Theorem gateway_refines (cf : GatewayConfig) (calls : list (CallEnv I * gateway_call)) (o : O) (i : I)
    (g : ControlGatewayService O I St) :
  stores o i g →
  ∃ o' i' ops, stores o' i' (serve_all cf calls g)
    ∧ inbox_view i' = run_ops ops (inbox_view i)
    ∧ Forall (λ op, ∃ c, c ∈ calls ∧ granted cf c.1 c.2 op) ops
    ∧ rows_extend (λ r, ∃ c a, c ∈ calls ∧ builds cf c.1 c.2 a ∧ r = ac_request a) (rows o) (rows o').
Proof.
  revert o i g. induction calls as [|[env call] calls IH]; intros o i g Hg.
  { exists o, i, []. split_and!; [done..|]. apply rows_extend_refl. }
  destruct (serve_within cf env o i call g Hg) as (o1 & i1 & ops1 & Hg1 & Hv1 & Hops1 & Hrows1).
  destruct (IH o1 i1 _ Hg1) as (o2 & i2 & ops2 & Hg2 & Hv2 & Hops2 & Hrows2).
  exists o2, i2, (ops1 ++ ops2). split; [done|]. split; [by rewrite Hv2, Hv1, run_ops_app|]. split.
  - apply Forall_app. split; (eapply Forall_impl; [eassumption|]).
    + intros op Hop. exists (env, call). split; [left|done].
    + intros op (c & Hc & Hop). exists c. split; [by right|done].
  - eapply rows_extend_trans; [eapply rows_extend_impl, Hrows1|eapply rows_extend_impl, Hrows2].
    + intros r (a & Ha & ->). exists (env, call), a. split; [left|done].
    + intros r (c & a & Hc & Ha). exists c, a. split; [by right|done].
Qed.

(** ** Authority *)

(** The principals a call speaks for. *)
Definition call_operator cf (call : gateway_call) (op : OperatorCaller) : Prop :=
  match call with
  | CallSubmit values _ | CallBulk values _ | CallStatus values _ | CallList values _
  | CallCancel values _ => operator_credential cf values op
  | CallPoll _ _ _ | CallAck _ _ _ => False
  end.
Definition call_agent cf env (call : gateway_call) (caller : Caller) (agent_id : string) : Prop :=
  match call with
  | CallPoll values peer _ | CallAck values peer _ =>
      agent_credential cf (started_at (env_t (cv_agent env))) values peer caller agent_id
  | _ => False
  end.

(** What an operator may write to. *)
Definition operator_may cf call (workspace_id namespace_id : string) : Prop :=
  ∃ op, call_operator cf call op ∧ allows_scope op workspace_id namespace_id = true.
(** What an agent may mark: the commands recorded for it in its scopes. *)
Definition agent_may cf env call (k : InboxKey) (s : InboxState) : Prop :=
  ∃ caller agent_id e, call_agent cf env call caller agent_id ∧ entries s !! k = Some e
    ∧ pc_agent_id (en_command e) = agent_id
    ∧ caller_scopes caller (ik_workspace_id k) (ik_namespace_id k) = true.

Lemma builds_scope cf env call a :
  builds cf env call a →
  operator_may cf call (ik_workspace_id (Inbox.key_of (ac_delivery a)))
    (ik_namespace_id (Inbox.key_of (ac_delivery a)))
  ∧ Outbox.key_of (ac_request a)
    = mkOutboxKey (ik_workspace_id (Inbox.key_of (ac_delivery a)))
        (ik_namespace_id (Inbox.key_of (ac_delivery a)))
        (ik_command_id (Inbox.key_of (ac_delivery a))).
Proof.
  assert (∀ input op n, call_operator cf call op →
    build_control_request input op (cv_fresh env) (cv_millis env n) = Ok a →
    operator_may cf call (ik_workspace_id (Inbox.key_of (ac_delivery a)))
      (ik_namespace_id (Inbox.key_of (ac_delivery a)))
    ∧ Outbox.key_of (ac_request a)
      = mkOutboxKey (ik_workspace_id (Inbox.key_of (ac_delivery a)))
          (ik_namespace_id (Inbox.key_of (ac_delivery a)))
          (ik_command_id (Inbox.key_of (ac_delivery a)))) as Hgen.
  { intros input op n Hop (name & m & h & Hs & _ & _ & _ & _ & _ & Hr & ->)%build_control_request_spec.
    split; [by exists op|]. by apply admitted_request in Hr as (s & [= <-] & ->). }
  intros Hb. destruct Hb; by eapply Hgen.
Qed.

(** One granted operation changes only what the call may touch. *)
Lemma granted_confined cf env call op s k :
  inbox_wf s → granted cf env call op →
  retired (run_op op s) = retired s
  ∧ (entries (run_op op s) !! k = entries s !! k
     ∨ operator_may cf call (ik_workspace_id k) (ik_namespace_id k) ∨ agent_may cf env call k s).
Proof.
  intros Hwf Hg. destruct Hg as [call a Ha|values peer mx caller agent limit Hc _
    |values peer request caller agent Hc Hsc|values request op Hop Hsc|]; simpl.
  - apply builds_scope in Ha as [Hmay _]. unfold record.
    destruct (check_recordable s (ac_delivery a)) as [[]|]; simpl; [by auto| |by auto].
    split; [done|]. destruct (decide (k = Inbox.key_of (ac_delivery a))) as [->|Hne]; [by auto|].
    rewrite lookup_insert_ne by done. auto.
  - destruct (claim_spec (mkPollTarget agent limit) (caller_scopes caller) (cf_delivery_policy cf)
      (cv_millis env 0) s Hwf) as (_ & -> & _). split.
    + unfold claim. apply mark_all_spec, deliverable_nodup, Hwf.
    + case_decide as Hk; [|by left]. right. right.
      apply elem_of_deliverable in Hk as (_ & e & He & Hd). apply entry_deliverable_true in Hd.
      pose proof (eo_key _ _ (wf_entries _ Hwf _ _ He)) as <-.
      exists caller, agent, e. simpl in *. tauto.
  - unfold acknowledge. destruct (entries s !! _) as [e|] eqn:He; [|by auto].
    destruct (negb _ || _ || _) eqn:Hg; [by auto|]. destruct (en_acknowledged e); [by auto|].
    split; [done|]. simpl.
    destruct (decide (k = mkInboxKey (aq_workspace_id request) (aq_namespace_id request)
                            (aq_command_id request))) as [->|Hne]; [|by rewrite lookup_insert_ne; auto].
    right. right. exists caller, agent, e. split_and!; try done. breflect. done.
  - unfold cancel. destruct (entries s !! request_key request) as [e|] eqn:He; [|by case_match; auto].
    do 2 (case_match; [by auto|]). split; [done|]. simpl.
    destruct (decide (k = request_key request)) as [->|Hne]; [|by rewrite lookup_insert_ne; auto].
    right. left. by exists op.
  - by auto.
Qed.

Lemma granted_ops_confined cf env call ops s k :
  inbox_wf s → Forall (granted cf env call) ops →
  retired (run_ops ops s) = retired s
  ∧ (entries (run_ops ops s) !! k = entries s !! k
     ∨ operator_may cf call (ik_workspace_id k) (ik_namespace_id k) ∨ agent_may cf env call k s).
Proof.
  intros Hwf Hops. revert s Hwf. induction Hops as [|op ops Hop _ IH]; intros s Hwf; [by auto|].
  cbn [run_ops]. destruct (granted_confined cf env call op s k Hwf Hop) as [Hr1 Hs1].
  destruct (IH (run_op op s) (run_op_wf op s Hwf)) as [Hr2 Hs2].
  split; [congruence|]. destruct Hs1 as [Hs1|[Hs1|Hs1]]; [|by auto..].
  destruct Hs2 as [Hs2|[Hs2|(caller & agent & e & Hc & He & Ha)]]; [left; congruence|by auto|].
  right. right. exists caller, agent, e. split; [done|]. split; [congruence|done].
Qed.

(** C3. Authority.  A call changes an inbox entry only in a scope its operator is
    allowed, or, when it speaks for an agent, only an entry recorded for that
    very agent in a scope of its credential; tombstones are never touched; and
    it adds an outbox row only in a scope its operator is allowed.  A call
    without a valid credential changes no entry and no row. *)
Theorem call_confined (cf : GatewayConfig) (env : CallEnv I) (call : gateway_call) (o : O) (i : I)
    (g : ControlGatewayService O I St) :
  stores o i g →
  ∃ o' i', stores o' i' (serve cf env call g)
    ∧ retired (inbox_view i') = retired (inbox_view i)
    ∧ (∀ k, entries (inbox_view i') !! k = entries (inbox_view i) !! k
            ∨ operator_may cf call (ik_workspace_id k) (ik_namespace_id k)
            ∨ agent_may cf env call k (inbox_view i))
    ∧ ∀ k, rows o' !! k = rows o !! k
           ∨ rows o !! k = None ∧ operator_may cf call (ok_workspace_id k) (ok_namespace_id k).
Proof.
  intros Hg. destruct (serve_within cf env o i call g Hg) as (o1 & i1 & ops & Hg1 & Hv & Hops & Hrows).
  destruct Hg as (_ & _ & _ & Hwf). exists o1, i1. rewrite Hv. split; [done|]. split.
  { by apply (granted_ops_confined cf env call ops _ (mkInboxKey EmptyString EmptyString EmptyString)). }
  split; [intros k; by apply granted_ops_confined|].
  intros k. destruct (Hrows k) as [?|(Hnone & r & (a & Ha & ->) & <- & _)]; [by left|].
  right. split; [done|]. by apply builds_scope in Ha as [Hmay ->].
Qed.
End runs.

(** ** Concrete runs *)

(** Alice pauses an agent; a stranger asks to cancel it. *)
Definition demo_calls : list (CallEnv InMemoryCommandInbox * gateway_call) :=
  [(demo_call 1, CallSubmit ["Bearer alice-token"] (demo_request demo_id 2 None));
   (demo_call 2, CallCancel ["Bearer mallory"] (mkKeyRequest "ws" "ns" demo_id))].

Lemma gateway_refines_witness :
  ∃ o' i' ops, stores o' i' (serve_all demo_config demo_calls demo_gateway)
    ∧ inbox_view i' = run_ops ops (inbox_view demo_inbox)
    ∧ Forall (λ op, ∃ c, c ∈ demo_calls ∧ granted demo_config c.1 c.2 op) ops
    ∧ rows_extend (λ r, ∃ c a, c ∈ demo_calls ∧ builds demo_config c.1 c.2 a ∧ r = ac_request a)
        (rows demo_outbox) (rows o').
Proof. apply gateway_refines. apply demo_stores. Defined.

Lemma call_confined_witness :
  ∃ o' i', stores o' i' (serve demo_config (demo_call 2)
      (CallCancel ["Bearer mallory"] (mkKeyRequest "ws" "ns" demo_id)) demo_gateway)
    ∧ retired (inbox_view i') = retired (inbox_view demo_inbox)
    ∧ (∀ k, entries (inbox_view i') !! k = entries (inbox_view demo_inbox) !! k
            ∨ operator_may demo_config (CallCancel ["Bearer mallory"] (mkKeyRequest "ws" "ns" demo_id))
                (ik_workspace_id k) (ik_namespace_id k)
            ∨ agent_may demo_config (demo_call 2)
                (CallCancel ["Bearer mallory"] (mkKeyRequest "ws" "ns" demo_id)) k
                (inbox_view demo_inbox))
    ∧ ∀ k, rows o' !! k = rows demo_outbox !! k
           ∨ rows demo_outbox !! k = None
             ∧ operator_may demo_config (CallCancel ["Bearer mallory"] (mkKeyRequest "ws" "ns" demo_id))
                 (ok_workspace_id k) (ok_namespace_id k).
Proof. apply call_confined. apply demo_stores. Defined.
