(* ===== verification/GatewayApproval.v ===== *)
(** * Forced stops need two operators, end to end

    The two-operator rule of DualApproval carried through the whole service: no
    sequence of remote calls other than bulk calls records a [force_stop] for
    an agent unless two operators with different subjects asked for it. *)
From S2P Require Import Prelude RustStr Digits Time Errors Backend Ephemeral OperatorAuth Caller Verifier.
From S2P Require Import AgentAuth Admit Convert Domain Codecs Admission Fingerprint DualApproval Envelope.
From S2P Require Import Inbox InboxWf InboxDelivery CommandInbox Outbox OutboxLaws Replay Gateway GatewayLaws.
From S2P Require Import GatewayLaws GatewayAuthority.

Open Scope N_scope.

Section approval.
Context {O I St : Type} `{AuthDeps, DomainDeps, EnvelopeDeps, !UuidApi, StructDecode}.
Context `{OutboxLaws O, InboxLaws I, EphemeralStore St}.
Implicit Types (env : CallEnv I) (g : ControlGatewayService O I St).
Implicit Types (hist : list (CallEnv I * gateway_call)).
Variable cf : GatewayConfig.

(** ** Asking for a forced stop *)

(** The call is a [SubmitCommand] by which [op] asks for the forced stop [key]
    with these fields. *)
Definition asks (c : CallEnv I * gateway_call) (op : OperatorCaller) (key : InboxKey)
    (fp : string) : Prop :=
  ∃ values request, c.2 = CallSubmit values request ∧ operator_credential cf values op
    ∧ in_action (from_request request) = ForceStop
    ∧ key = mkInboxKey (rq_workspace_id request) (rq_namespace_id request)
              (id_or_fresh (rq_command_id request) (cv_fresh c.1))
    ∧ fp = fingerprint sha256_bytes (from_request request).

(** Two operators asked for the command, in calls that agree on its fields, and
    the command is the one the second call describes. *)
Definition two_asked hist (key : InboxKey) (command : PendingCommand) : Prop :=
  ∃ c1 c2 op1 op2 fp, c1 ∈ hist ∧ c2 ∈ hist ∧ asks c1 op1 key fp ∧ asks c2 op2 key fp
    ∧ subject op1 ≠ subject op2 ∧ ∃ a, builds cf c2.1 c2.2 a ∧ ac_delivery a = command.

(** Every [force_stop] of the inbox was asked for by two operators, and every
    entry of the gate by one. *)
Definition approved_entries hist (s : InboxState) : Prop :=
  ∀ k e, entries s !! k = Some e → pc_action (en_command e) = "force_stop" →
         two_asked hist k (en_command e).
Definition asked_entries hist (pending : Approvals) : Prop :=
  ∀ key e, pending !! key = Some e →
    ∃ c op, c ∈ hist ∧ subject op = pa_first_operator_subject e
      ∧ asks c op (mkInboxKey (ak_workspace_id key) (ak_namespace_id key) (ak_command_id key))
          (pa_fingerprint e).

Definition sound hist g : Prop :=
  (∃ o i, stores o i g ∧ approved_entries hist (inbox_view i))
  ∧ asked_entries hist (guarded (g_dual_approval g)).

(** The same, and the identity is already recorded. *)
Definition sound_recorded hist (key : InboxKey) g : Prop :=
  (∃ o i, stores o i g ∧ approved_entries hist (inbox_view i)
          ∧ is_Some (entries (inbox_view i) !! key))
  ∧ asked_entries hist (guarded (g_dual_approval g)).

Lemma two_asked_mono hist hist' key command :
  hist ⊆ hist' → two_asked hist key command → two_asked hist' key command.
Proof.
  intros Hsub (c1 & c2 & op1 & op2 & fp & Hc1 & Hc2 & Hrest).
  exists c1, c2, op1, op2, fp. split; [by apply Hsub|]. split; [by apply Hsub|]. done.
Qed.

Lemma sound_mono hist hist' g : hist ⊆ hist' → sound hist g → sound hist' g.
Proof.
  intros Hsub [(o & i & Hs & He) Hg]. split.
  - exists o, i. split; [done|]. intros k e Hk Ha. eapply two_asked_mono; eauto.
  - intros key e Hk. destruct (Hg key e Hk) as (c & op & Hc & Hrest). exists c, op. auto.
Qed.

(** ** Parts of the service that do not matter *)

Lemma sound_same hist g g' :
  g_outbox g' = g_outbox g → g_inbox g' = g_inbox g → g_dual_approval g' = g_dual_approval g →
  sound hist g → sound hist g'.
Proof.
  intros Ho Hi Hd [(o & i & (Hg1 & Hg2 & Hwf) & He) Hg]. split; [|by rewrite Hd].
  exists o, i. split; [|done]. unfold stores. by rewrite Ho, Hi.
Qed.

Lemma sound_recorded_same hist key g g' :
  g_outbox g' = g_outbox g → g_inbox g' = g_inbox g → g_dual_approval g' = g_dual_approval g →
  sound_recorded hist key g → sound_recorded hist key g'.
Proof.
  intros Ho Hi Hd [(o & i & (Hg1 & Hg2 & Hwf) & He) Hg]. split; [|by rewrite Hd].
  exists o, i. split; [|done]. unfold stores. by rewrite Ho, Hi.
Qed.

Lemma sound_recorded_sound hist key g : sound_recorded hist key g → sound hist g.
Proof. intros [(o & i & Hs & He & _) Hg]. split; [by exists o, i|done]. Qed.

(** ** Inbox operations *)

Lemma on_inbox_answers {A} (model : InboxState → result CommandError A * InboxState)
    (m : ST I CommandError A) (o : O) (i : I) g :
  stores o i g → answers inbox_view model m i →
  (inbox_wf (model (inbox_view i)).2) →
  ∃ i', stores o i' (on_inbox (locked m) g).2
    ∧ g_dual_approval (on_inbox (locked m) g).2 = g_dual_approval g
    ∧ match (on_inbox (locked m) g).1 with
      | Ok a => ∃ s', model (inbox_view i) = (Ok a, s') ∧ entries (inbox_view i') = entries s'
                      ∧ retired (inbox_view i') = retired s'
      | Err _ => inbox_view i' = inbox_view i
      end.
Proof.
  intros (Ho & Hi & Hwfo & Hwfi) Ha Hm. unfold on_inbox, st_zoom. rewrite Hi, locked_single.
  pose proof (answers_wf _ _ _ _ Ha Hwfi Hm) as Hwf'. unfold answers in Ha.
  destruct (m i) as [r i']. cbn [fst snd] in *. exists i'. split; [done|]. split; [done|].
  destruct r as [a|e]; [|done]. destruct Ha as (s' & Hs' & [->| ->]); by exists s'.
Qed.

(** Outside records, an entry's command is what it was. *)
Lemma run_op_commands op s k e :
  inbox_wf s → (∀ c, op ≠ OpRecord c) → entries (run_op op s) !! k = Some e →
  ∃ e0, entries s !! k = Some e0 ∧ en_command e = en_command e0.
Proof.
  intros Hwf Hop He. destruct op as [c|target allows policy now|target key attempt|key now|now ret mx|];
    simpl in He.
  - by destruct (Hop c).
  - destruct (claim_spec target allows policy now s Hwf) as (_ & Hl & _). rewrite Hl in He.
    case_decide; [|by eauto]. apply fmap_Some in He as (e0 & He0 & ->). by exists e0.
  - unfold acknowledge in He. destruct (entries s !! key) as [e0|] eqn:Hk; [|by eauto].
    do 2 (case_match; [by eauto|]). simpl in He. rewrite lookup_insert in He.
    case_decide; simplify_eq; eauto.
  - unfold cancel in He. destruct (entries s !! key) as [e0|] eqn:Hk; [|by case_match; eauto].
    do 2 (case_match; [by eauto|]). simpl in He. rewrite lookup_insert in He.
    case_decide; simplify_eq; eauto.
  - exists e. split; [|done]. unfold maintain_state in He. simpl in He.
    revert He. generalize (settled s now (now - ret) mx) as l. clear. intros l.
    revert s. induction l as [|p l IH]; intros s He; [done|]. apply IH in He. simpl in He.
    by apply lookup_delete_Some in He as [_ He].
  - by eauto.
Qed.

(** ** Calls that submit nothing *)

Lemma run_ops_commands ops s k e :
  inbox_wf s → Forall (λ op, ∀ c, op ≠ OpRecord c) ops → entries (run_ops ops s) !! k = Some e →
  ∃ e0, entries s !! k = Some e0 ∧ en_command e = en_command e0.
Proof.
  intros Hwf Hops. revert s Hwf. induction Hops as [|op ops Hop _ IH]; intros s Hwf He; [by eauto|].
  destruct (IH _ (run_op_wf op s Hwf) He) as (e1 & He1 & ->). by apply (run_op_commands op s k e1).
Qed.

(** The gate is asked by [SubmitCommand] alone. *)
Lemma serve_gate env call g :
  (∀ values request, call ≠ CallSubmit values request) →
  g_dual_approval (serve cf env call g) = g_dual_approval g.
Proof.
  intros Hcall. set (P g' := g_dual_approval g' = g_dual_approval g).
  change (P (serve cf env call g)).
  assert (∀ A (m : ST (Backend I) CommandError A), preserves P (on_inbox m)) as Hinbox.
  { intros A m. by apply preserves_zoom. }
  assert (∀ a, writable P env a) as Hw.
  { intros a n. apply preserves_bind; [by apply preserves_zoom|]. intros out _.
    apply preserves_bind; [apply Hinbox|auto with apex]. }
  assert (∀ g1 g2, g_outbox g2 = g_outbox g1 → g_inbox g2 = g_inbox g1 →
            g_dual_approval g2 = g_dual_approval g1 → P g1 → P g2) as Hframe.
  { intros g1 g2 _ _ Hg. unfold P. congruence. }
  destruct call as [values request|values request|values peer mx|values peer request|values request
    |values request|values request].
  - by destruct (Hcall values request).
  - by apply (bulk_keeps P cf env Hframe values request).
  - apply (poll_keeps P cf env Hframe values peer mx); auto. done.
  - apply (ack_keeps P cf env Hframe values peer request); auto. done.
  - apply (get_status_keeps P cf env Hframe values request); auto. done.
  - apply (list_keeps P cf env Hframe values request); auto. done.
  - apply (cancel_keeps P cf env Hframe values request); auto. done.
Qed.
Lemma approved_run_ops hist ops s :
  inbox_wf s → Forall (λ op, ∀ c, op = OpRecord c → pc_action c ≠ "force_stop") ops →
  approved_entries hist s → approved_entries hist (run_ops ops s).
Proof.
  intros Hwf Hops. revert s Hwf. induction Hops as [|op ops Hop _ IH]; intros s Hwf Ha; [done|].
  cbn [run_ops]. apply IH; [by apply run_op_wf|]. intros k e He Hforce.
  assert ((∃ c, op = OpRecord c) ∨ ∀ c, op ≠ OpRecord c) as [[c ->]|Hne].
  { destruct op; [left; eauto|by right..]. }
  - specialize (Hop c eq_refl). simpl in He. unfold record in He.
    destruct (check_recordable s c) as [[]|]; simpl in He; [by eauto| |by eauto].
    rewrite lookup_insert in He. case_decide; simplify_eq. by eauto.
  - destruct (run_op_commands op s k e Hwf Hne He) as (e0 & He0 & Heq).
    rewrite Heq in Hforce |- *. by apply Ha.
Qed.

Lemma serve_quiet hist env call g :
  (∀ a, builds cf env call a → pc_action (ac_delivery a) ≠ "force_stop") →
  g_dual_approval (serve cf env call g) = g_dual_approval g →
  sound hist g → sound hist (serve cf env call g).
Proof.
  intros Hb Hgate [(o & i & Hs & Ha) Hg]. split; [|by rewrite Hgate].
  pose proof Hs as (_ & _ & _ & Hwf).
  destruct (serve_within cf env o i call g Hs) as (o' & i' & ops & Hs' & Hv & Hops & _).
  exists o', i'. split; [done|]. rewrite Hv. apply approved_run_ops; [done| |done].
  eapply Forall_impl; [exact Hops|]. intros op Hop c ->. inversion Hop; subst. by apply Hb.
Qed.

(** ** Submissions *)

(** The action and the identity of what a submission builds. *)
Lemma build_action input op fresh now a :
  build_control_request input op fresh now = Ok a →
  action_name (in_action input) = Some (pc_action (ac_delivery a))
  ∧ Inbox.key_of (ac_delivery a)
    = mkInboxKey (in_workspace_id input) (in_namespace_id input) (id_or_fresh (in_command_id input) fresh).
Proof.
  intros (name & m & h & _ & Hn & Hid & _ & _ & _ & _ & ->)%build_control_request_spec.
  split; [done|]. unfold Inbox.key_of, delivery_of. simpl. by rewrite Hid.
Qed.

Lemma id_or_fresh_idemp c fresh : id_or_fresh (Some (id_or_fresh c fresh)) fresh = id_or_fresh c fresh.
Proof.
  destruct c as [c|]; simpl; [destruct (str_is_empty c) eqn:Hc; [|by rewrite Hc]|];
    by destruct (str_is_empty fresh).
Qed.

Lemma submit_outbox_sound hist now r : preserves (sound hist) (on_outbox (submit_command now r)).
Proof.
  intros g [(o & i & (Ho & Hi & Hwfo & Hwfi) & Ha) Hg]. unfold on_outbox, st_zoom. rewrite Ho.
  destruct (submit_command_rows now r o Hwfo) as (o' & Hb & Hwf' & _).
  destruct (submit_command now r (single o)) as [res b]. simpl in Hb. subst b.
  split; [by exists o', i|done].
Qed.

Lemma submit_outbox_recorded hist key now r :
  preserves (sound_recorded hist key) (on_outbox (submit_command now r)).
Proof.
  intros g [(o & i & (Ho & Hi & Hwfo & Hwfi) & Ha) Hg]. unfold on_outbox, st_zoom. rewrite Ho.
  destruct (submit_command_rows now r o Hwfo) as (o' & Hb & Hwf' & _).
  destruct (submit_command now r (single o)) as [res b]. simpl in Hb. subst b.
  split; [by exists o', i|done].
Qed.

(** An approved command may be recorded. *)
Lemma writable_approved hist env a :
  two_asked hist (Inbox.key_of (ac_delivery a)) (ac_delivery a) → writable (sound hist) env a.
Proof.
  intros Htwo n. apply preserves_bind; [apply submit_outbox_sound|]. intros out _.
  apply preserves_bind; [|auto with apex]. intros g [(o & i & Hs & Ha) Hg].
  pose proof Hs as (_ & _ & _ & Hwf).
  destruct (on_inbox_answers (record (ac_delivery a)) (ci_record (cv_io env n) (ac_delivery a)) o i g)
    as (i' & Hs' & Hgate & Hres); [done|by apply record_law|by apply record_wf|].
  split; [|unfold backend_record; by rewrite Hgate]. exists o, i'. split; [done|].
  destruct (on_inbox _ g).1 as [r|e]; [|by rewrite Hres]. destruct Hres as (s' & Hs2 & He & _).
  intros k e Hk Hforce. rewrite He in Hk. unfold record in Hs2.
  destruct (check_recordable (inbox_view i) (ac_delivery a)) as [[]|]; simplify_eq; [by eauto|].
  simpl in Hk. rewrite lookup_insert in Hk. case_decide as Hkk; [|by eauto]. simplify_eq. done.
Qed.

(** A command whose identity is recorded changes nothing. *)
Lemma writable_recorded hist env a :
  writable (sound_recorded hist (Inbox.key_of (ac_delivery a))) env a.
Proof.
  intros n. apply preserves_bind; [apply submit_outbox_recorded|]. intros out _.
  apply preserves_bind; [|auto with apex]. intros g [(o & i & Hs & Ha & Hin) Hg].
  pose proof Hs as (_ & _ & _ & Hwf).
  destruct (on_inbox_answers (record (ac_delivery a)) (ci_record (cv_io env n) (ac_delivery a)) o i g)
    as (i' & Hs' & Hgate & Hres); [done|by apply record_law|by apply record_wf|].
  split; [|unfold backend_record; by rewrite Hgate]. exists o, i'. split; [done|].
  assert (entries (inbox_view i') = entries (inbox_view i)) as He.
  { destruct (on_inbox _ g).1 as [r|e]; [|by rewrite Hres]. destruct Hres as (s' & Hs2 & -> & _).
    unfold record, check_recordable in Hs2. rewrite (bool_decide_true _ Hin) in Hs2.
    simpl in Hs2. by simplify_eq. }
  split; [|by rewrite He]. intros k e. rewrite He. apply Ha.
Qed.

(** ** The gate *)

Lemma gate_submit_asked hist c op key fp now (gate : DualApprovalGate) :
  c ∈ hist →
  asks c op (mkInboxKey (ak_workspace_id key) (ak_namespace_id key) (ak_command_id key)) fp →
  asked_entries hist (guarded gate) →
  asked_entries hist (guarded (gate_submit key fp (subject op) now gate).2)
  ∧ ((gate_submit key fp (subject op) now gate).1 = Ok Approved →
     ∃ c1 op1, c1 ∈ hist ∧ subject op1 ≠ subject op
       ∧ asks c1 op1 (mkInboxKey (ak_workspace_id key) (ak_namespace_id key) (ak_command_id key)) fp).
Proof.
  intros Hc Hasks Hg. unfold gate_submit, with_mutex. destruct (poisoned gate); [done|].
  assert (asked_entries hist (unexpired now (guarded gate))) as Hu.
  { intros k e [He _]%unexpired_lookup. by apply Hg. }
  unfold submit_locked. destruct (unexpired now (guarded gate) !! key) as [e|] eqn:He; cbn.
  - destruct (String.eqb_spec (pa_fingerprint e) fp) as [<-|]; [|by split]. cbn [negb].
    destruct (String.eqb_spec (pa_first_operator_subject e) (subject op)) as [|Hne]; [by split|].
    split; cbn.
    + intros k e' [_ Hk]%lookup_delete_Some. by apply Hu.
    + intros _. destruct (Hu key e He) as (c1 & op1 & Hc1 & Hs1 & Ha1). exists c1, op1.
      split; [done|]. split; [congruence|done].
  - destruct (_ <=? _); [by split|]. split; [|done]. cbn. intros k e'. rewrite lookup_insert.
    case_decide as Hk; [|apply Hu]. subst. intros [= <-]. by exists c, op.
Qed.

Section force_stop.
Variables (hist : list (CallEnv I * gateway_call)) (env : CallEnv I) (values : list string)
  (request : ControlCommandRequest) (op : OperatorCaller).
Hypothesis call_in : (env, CallSubmit values request) ∈ hist.
Hypothesis op_ok : operator_credential cf values op.
Hypothesis is_force : in_action (from_request request) = ForceStop.
Let input := from_request request.
Let id := id_or_fresh (in_command_id input) (cv_fresh env).
Let key := mkInboxKey (in_workspace_id input) (in_namespace_id input) id.

Lemma asks_here : asks (env, CallSubmit values request) op key (fingerprint sha256_bytes input).
Proof. by exists values, request. Qed.

Lemma forced_key n a :
  build_control_request (with_command_id input id) op (cv_fresh env) (cv_millis env n) = Ok a →
  Inbox.key_of (ac_delivery a) = key.
Proof.
  intros [_ ->]%build_action. unfold key, with_command_id. simpl.
  f_equal. apply id_or_fresh_idemp.
Qed.

(** The gate's verdict. *)
Lemma approve_sound g :
  sound hist g →
  let '(r, g') := approve env (with_command_id input id) id op g in
  sound hist g'
  ∧ (r = Ok true → ∃ c1 op1, c1 ∈ hist ∧ subject op1 ≠ subject op
                     ∧ asks c1 op1 key (fingerprint sha256_bytes input)).
Proof.
  intros [Hstores Hgate]. unfold approve, mbind, st_bind, on_gate, st_zoom.
  pose proof (gate_submit_asked hist _ op
    (mkApprovalKey (in_workspace_id input) (in_namespace_id input) id)
    (fingerprint sha256_bytes input) (cv_approval env) (g_dual_approval g) call_in asks_here Hgate)
    as [Hg' Hok].
  change (fingerprint sha256_bytes (with_command_id input id)) with (fingerprint sha256_bytes input).
  cbn [with_command_id in_workspace_id in_namespace_id].
  destruct (gate_submit _ _ _ _ _) as [[outcome|e] gate']; cbn [fst snd] in Hg', Hok; [|by split].
  assert (∀ o i g1, stores o i g → g_outbox g1 = g_outbox g → g_inbox g1 = g_inbox g →
            stores (St := St) o i g1) as Hst.
  { intros o i g1 (? & ? & ?) Ho Hi. unfold stores. by rewrite Ho, Hi. }
  destruct outcome; (split; [split; [|done]|]); try done;
    (destruct Hstores as (o & i & Hs & Ha); exists o, i; split; [by eapply Hst|done])
    || (intros _; by apply Hok).
Qed.

Lemma submit_force_stop_sound g :
  sound hist g → sound hist (submit_force_stop env input op g).2.
Proof.
  intros Hg. unfold submit_force_stop. destruct (negb _); [done|].
  unfold mbind, st_bind, st_lift, resolve_command_id_and_timestamp. fold id.
  destruct (ok_or (uuidv7_unix_millis id) _) as [millis|]; [|done]. cbn [mbind result_bind].
  destruct (negb _); [done|]. unfold inbox_status, mbind, st_bind, acquire.
  destruct (cv_status_slot env); [|done]. cbn [mret st_ret]. fold key.
  pose proof Hg as [(o & i & Hs & Ha) Hgate]. pose proof Hs as (_ & _ & _ & Hwf).
  destruct (on_inbox_answers (reading (λ s, status s key DEFAULT_MAX_DELIVERY_ATTEMPTS))
    (ci_status (cv_status_io env) key DEFAULT_MAX_DELIVERY_ATTEMPTS) o i g)
    as (i' & Hs' & Hg' & Hres); [done|by apply status_law|done|].
  unfold backend_status. destruct (on_inbox _ g) as [[recorded|e] g1]; cbn [fst snd] in *.
  2: { split; [|by rewrite Hg']. exists o, i'. by rewrite Hres. }
  destruct Hres as (s' & Hrec & He' & _). injection Hrec as Hrec <-.
  assert (sound hist g1) as Hg1.
  { split; [|by rewrite Hg']. exists o, i'. split; [done|]. intros k e. rewrite He'. apply Ha. }
  destruct (bool_decide_reflect (is_Some recorded)) as [Hin|Hnone]; cbn [mret st_ret negb].
  - apply (sound_recorded_sound hist key).
    apply (build_and_accept_keeps (sound_recorded hist key) env (sound_recorded_same hist key)).
    + intros a Ha'. rewrite <- (forced_key 1 a Ha'). apply writable_recorded.
    + split; [|by rewrite Hg']. exists o, i'. split; [done|].
      split; [intros k e; rewrite He'; apply Ha|].
      rewrite He'. subst recorded. unfold status in Hin. destruct (entries _ !! key); [done|].
      by apply is_Some_None in Hin.
  - pose proof (approve_sound g1 Hg1) as Hap.
    destruct (approve env (with_command_id input id) id op g1) as [[go_on|e] g2];
      destruct Hap as [Hg2 Hok]; [|done]. destruct go_on; cbn [negb]; [|done].
    destruct (Hok eq_refl) as (c1 & op1 & Hc1 & Hne & Ha1).
    apply (build_and_accept_keeps (sound hist) env (sound_same hist)); [|done].
    intros a Ha'. apply writable_approved. rewrite (forced_key 1 a Ha').
    exists c1, (env, CallSubmit values request), op1, op, (fingerprint sha256_bytes input).
    split_and!; [done..|apply asks_here|done|]. exists a. split; [|done].
    eapply builds_submit; [done|right; by exists id|done].
Qed.
End force_stop.

Lemma submit_sound hist env values request g :
  (env, CallSubmit values request) ∈ hist → sound hist g →
  sound hist (do_submit_command cf env values request g).2.
Proof.
  intros Hin Hg. destruct (decide (in_action (from_request request) = ForceStop)) as [Hf|Hf].
  - revert g Hg. apply preserves_bind; [apply operator_caller_keeps, sound_same|].
    intros op Hop%operator_caller_returns.
    apply preserves_bind; [apply admit_operator_keeps, sound_same|]. intros _ _.
    cbv beta zeta. rewrite bool_decide_true by done. intros g Hg. by eapply submit_force_stop_sound.
  - apply (serve_quiet hist env (CallSubmit values request) g); [| |done].
    + intros a Ha. inversion Ha as [v r op input n a' Hop Hinput Hb|]; subst.
      apply build_action in Hb as [Hn _]. intros Hforce. rewrite Hforce in Hn.
      assert (in_action input = in_action (from_request request)) as Heq
        by (by destruct Hinput as [->|[id ->]]).
      rewrite Heq in Hn. by apply Hf, (action_name_inj _ _ _ Hn).
    + set (P g' := g_dual_approval g' = g_dual_approval g). change (P (serve cf env (CallSubmit values request) g)).
      assert (∀ g1 g2, g_outbox g2 = g_outbox g1 → g_inbox g2 = g_inbox g1 →
            g_dual_approval g2 = g_dual_approval g1 → P g1 → P g2) as Hframe.
      { intros g1 g2 _ _ Hg2. unfold P. congruence. }
      assert (preserves P (do_submit_command cf env values request)) as Hp; [|by apply Hp].
      apply preserves_bind; [by apply operator_caller_keeps|]. intros op _.
      apply preserves_bind; [by apply admit_operator_keeps|]. intros _ _.
      cbv beta zeta. rewrite bool_decide_false by done. apply build_and_accept_keeps; [done|].
      intros a _ n. apply preserves_bind; [by apply preserves_zoom|]. intros out _.
      apply preserves_bind; [by apply preserves_zoom|auto with apex].
Qed.

Lemma serve_sound hist env call g :
  (env, call) ∈ hist → (∀ values request, call ≠ CallBulk values request) →
  sound hist g → sound hist (serve cf env call g).
Proof.
  intros Hin Hbulk Hg.
  assert ((∃ values request, call = CallSubmit values request)
          ∨ ∀ values request, call ≠ CallSubmit values request) as [(values & request & ->)|Hne].
  { destruct call; [left; eauto|by right..]. }
  - by apply submit_sound.
  - apply serve_quiet; [|by apply serve_gate|done]. intros a Ha.
    destruct Ha; [by destruct (Hne values request)|by destruct (Hbulk values request)].
Qed.

(** C1. A forced stop needs two operators, through the whole service.  Start a
    gateway whose inbox holds no [force_stop] and serve it any sequence of
    calls other than bulk calls, from anyone, in any environment: a
    [force_stop] in the inbox at the end was asked for in two [SubmitCommand]
    calls by operators with different subjects, for the same identity and with
    the same fields, and it is the command the later approval describes. *)
Theorem force_stop_needs_two (calls : list (CallEnv I * gateway_call)) (o : O) (i : I)
    (g : ControlGatewayService O I St) :
  stores o i g → g_dual_approval g = gate_new →
  (∀ k e, entries (inbox_view i) !! k = Some e → pc_action (en_command e) ≠ "force_stop") →
  Forall (λ c, ∀ values request, c.2 ≠ CallBulk values request) calls →
  ∃ o' i', stores o' i' (serve_all cf calls g)
    ∧ ∀ k e, entries (inbox_view i') !! k = Some e → pc_action (en_command e) = "force_stop" →
             two_asked calls k (en_command e).
Proof.
  intros Hs Hgate Hnone Hbulk.
  assert (sound calls g) as Hg.
  { split; [exists o, i; split; [done|]; intros k e He Hf; by destruct (Hnone k e He)|].
    rewrite Hgate. intros key e He. simpl in He. by rewrite lookup_empty in He. }
  enough (∀ cs, cs ⊆ calls → ∀ g, sound calls g → sound calls (serve_all cf cs g)) as Hrun.
  { destruct (Hrun calls (reflexivity calls) g Hg) as [(o' & i' & Hs' & Ha) _]. by exists o', i'. }
  clear g Hs Hgate Hg. induction cs as [|[env call] cs IH]; intros Hsub g Hg; [done|].
  assert ((env, call) ∈ calls) as Hin by (apply Hsub; left).
  apply IH; [intros c Hc; apply Hsub; by right|]. apply serve_sound; [done| |done].
  rewrite Forall_forall in Hbulk. apply (Hbulk _ Hin).
Qed.
End approval.

(** ** A concrete run *)

(** Alice and Bob force-stop the agent's run. *)
Definition demo_force_calls : list (CallEnv InMemoryCommandInbox * gateway_call) :=
  [(demo_call 1, CallSubmit ["Bearer alice-token"] (demo_request demo_id 7 (Some "runaway")));
   (demo_call 2, CallSubmit ["Bearer bob-token"] (demo_request demo_id 7 (Some "runaway")))].

Definition demo_forced_inbox : InboxState :=
  match g_inbox (serve_all demo_config demo_force_calls demo_gateway) with
  | Single m => im_state (guarded m)
  | Pool _ _ => im_state demo_inbox
  end.

Lemma force_stop_needs_two_witness :
  match entries demo_forced_inbox !! mkInboxKey "ws" "ns" demo_id with
  | Some e => two_asked demo_config demo_force_calls (mkInboxKey "ws" "ns" demo_id) (en_command e)
  | None => False
  end.
Proof.
  destruct (force_stop_needs_two demo_config demo_force_calls demo_outbox demo_inbox demo_gateway)
    as (o' & i' & (_ & Hi & _) & Hall).
  - apply demo_stores.
  - done.
  - intros k e. unfold inbox_view. cbn. by rewrite lookup_empty.
  - by repeat constructor.
  - assert (im_state i' = demo_forced_inbox) as Heq by (unfold demo_forced_inbox; by rewrite Hi).
    cbn [inbox_view in_memory_laws] in Hall. rewrite Heq in Hall.
    destruct (entries demo_forced_inbox !! mkInboxKey "ws" "ns" demo_id) as [e|] eqn:He.
    + apply Hall; [done|]. clear Hall Heq Hi. revert He. vm_compute. by intros [= <-].
    + revert He. by vm_compute.
Defined.
