(* ===== verification/GatewayBulk.v ===== *)
(** * Bulk commands

    [do_submit_bulk_command] admits and validates every target before it writes
    any of them, and reports through numbered slots.  It answers every target,
    exactly as processing them one after the other would, and asks the approval
    gate for none of them. *)
From S2P Require Import Prelude RustStr Digits Time Errors Backend Ephemeral OperatorAuth Caller Verifier.
From S2P Require Import AgentAuth Admit Convert Domain Codecs Admission Fingerprint DualApproval Envelope.
From S2P Require Import Inbox InboxWf CommandInbox Outbox OutboxLaws Replay Gateway GatewayLaws.
From S2P Require Import GatewayApproval.

Open Scope N_scope.

Section bulk.
Context {O I St : Type} `{AuthDeps, DomainDeps, EnvelopeDeps, !UuidApi, StructDecode}.
Context `{EventOutbox O, CommandInbox I, EphemeralStore St}.
Implicit Types (env : CallEnv I) (cf : GatewayConfig) (g : ControlGatewayService O I St).
Implicit Types (t : BulkCommandTarget) (n : nat).

(** ** The reference: one target after the other *)

(** The write of one target, with its counters. *)
Definition write_target env n t (a : AcceptedCommand) g : BulkCommandResult * ControlGatewayService O I St :=
  match write_both env n (ac_request a) (ac_delivery a) g with
  | (Ok (outcome, record), g) =>
      (accepted_bulk_result t (ac_command_id a) outcome record,
       (count (metrics_submission (so_duplicate outcome)) g).2)
  | (Err e, g) => (rejected_bulk_result t e, g)
  end.

Section reference.
Variables (cf : GatewayConfig) (env : CallEnv I) (bulk_id : string) (bulk_millis : N)
  (action : ControlAction) (request : SubmitBulkCommandRequest) (op : OperatorCaller).

(** Admission and validation of one target: what becomes of it. *)
Definition decide_target n t g : result CommandError AcceptedCommand * ControlGatewayService O I St :=
  match admit_operator cf env n (subject op) g with
  | (Err e, g) => (Err e, g)
  | (Ok _, g) =>
      (build_control_request (target_input bulk_id bulk_millis action request t) op
         (cv_fresh env) (cv_millis env (S n)), g)
  end.

Definition perform_target n t (d : result CommandError AcceptedCommand) g
    : BulkCommandResult * ControlGatewayService O I St :=
  match d with
  | Err e => (rejected_bulk_result t e, g)
  | Ok a => write_target env n t a g
  end.

(** Each target in turn: admitted, built and written, without the approval
    gate. *)
Fixpoint one_by_one n (targets : list BulkCommandTarget) g
    : list BulkCommandResult * ControlGatewayService O I St :=
  match targets with
  | [] => ([], g)
  | t :: targets =>
      let '(d, g) := decide_target n t g in
      let '(r, g) := perform_target n t d g in
      let '(rs, g) := one_by_one (S n) targets g in
      (r :: rs, g)
  end.

(** ** The two phases *)

Abbreviation Decision := (BulkCommandTarget * result CommandError AcceptedCommand)%type.

Fixpoint decide_all n (targets : list BulkCommandTarget) g
    : list Decision * ControlGatewayService O I St :=
  match targets with
  | [] => ([], g)
  | t :: targets =>
      let '(d, g) := decide_target n t g in
      let '(ds, g) := decide_all (S n) targets g in
      ((t, d) :: ds, g)
  end.

Fixpoint perform_all n (ds : list Decision) g : list BulkCommandResult * ControlGatewayService O I St :=
  match ds with
  | [] => ([], g)
  | (t, d) :: ds =>
      let '(r, g) := perform_target n t d g in
      let '(rs, g) := perform_all (S n) ds g in
      (r :: rs, g)
  end.

(** Deciding and performing touch different parts of the service. *)
Definition set_stores (ob : Backend O) (ib : Backend I) (m : GatewayMetrics) g
    : ControlGatewayService O I St :=
  mkService (g_auth g) (g_agent_auth g) ob ib (g_dual_approval g) (g_admission g) (g_polls g)
    (g_ephemeral g) m.

Lemma set_stores_id g : set_stores (g_outbox g) (g_inbox g) (g_metrics g) g = g.
Proof. by destruct g. Qed.

Lemma decide_target_stores n t ob ib m g :
  decide_target n t (set_stores ob ib m g)
  = let '(d, g1) := decide_target n t g in (d, set_stores ob ib m g1).
Proof.
  unfold decide_target, admit_operator, on_admission, st_zoom. simpl.
  by destruct (admit_subject _ _ _ _ _) as [[] x].
Qed.

Lemma decide_target_frame n t g :
  g_outbox (decide_target n t g).2 = g_outbox g ∧ g_inbox (decide_target n t g).2 = g_inbox g
  ∧ g_metrics (decide_target n t g).2 = g_metrics g.
Proof.
  unfold decide_target, admit_operator, on_admission, st_zoom.
  by destruct (admit_subject _ _ _ _ _) as [[] x].
Qed.

Lemma decide_all_stores n ts ob ib m g :
  decide_all n ts (set_stores ob ib m g)
  = let '(ds, g1) := decide_all n ts g in (ds, set_stores ob ib m g1).
Proof.
  revert n g. induction ts as [|t ts IH]; intros n g; [done|]. cbn [decide_all].
  rewrite decide_target_stores. destruct (decide_target n t g) as [d g1]. rewrite IH.
  by destruct (decide_all (S n) ts g1).
Qed.

Lemma decide_all_frame n ts g :
  g_outbox (decide_all n ts g).2 = g_outbox g ∧ g_inbox (decide_all n ts g).2 = g_inbox g
  ∧ g_metrics (decide_all n ts g).2 = g_metrics g.
Proof.
  revert n g. induction ts as [|t ts IH]; intros n g; [done|]. cbn [decide_all].
  destruct (decide_target_frame n t g) as (<- & <- & <-).
  destruct (decide_target n t g) as [d g1]. specialize (IH (S n) g1).
  by destruct (decide_all (S n) ts g1).
Qed.

(** What a performed target leaves depends only on the stores and counters. *)
Lemma perform_target_frame n t d g g' :
  g_outbox g' = g_outbox g → g_inbox g' = g_inbox g → g_metrics g' = g_metrics g →
  perform_target n t d g'
  = let '(r, g1) := perform_target n t d g in
    (r, set_stores (g_outbox g1) (g_inbox g1) (g_metrics g1) g').
Proof.
  intros Ho Hi Hm. destruct d as [a|e]; cbn [perform_target].
  2: { by rewrite <- Ho, <- Hi, <- Hm, set_stores_id. }
  unfold write_target, write_both, mbind, st_bind, on_outbox, on_inbox, st_zoom. rewrite Ho.
  destruct (submit_command _ _ (g_outbox g)) as [[out|e] ob]; cbn.
  2: { by rewrite Hi, Hm. }
  rewrite Hi. destruct (backend_record _ _ (g_inbox g)) as [[rec|e] ib]; cbn; by rewrite Hm.
Qed.

Lemma one_by_one_phases n ts g :
  one_by_one n ts g = let '(ds, g1) := decide_all n ts g in perform_all n ds g1.
Proof.
  revert n g. induction ts as [|t ts IH]; intros n g; [done|]. cbn [one_by_one decide_all].
  destruct (decide_target n t g) as [d g1]. destruct (perform_target n t d g1) as [r g2] eqn:Hp.
  rewrite IH. pose proof (decide_all_frame (S n) ts g1) as (Ho & Hi & Hm).
  pose proof (perform_target_frame n t d g1 (decide_all (S n) ts g1).2 Ho Hi Hm) as Hp'.
  rewrite Hp in Hp'.
  assert (g2 = set_stores (g_outbox g2) (g_inbox g2) (g_metrics g2) g1) as Hg2.
  { pose proof (perform_target_frame n t d g1 g1 eq_refl eq_refl eq_refl) as Hs. rewrite Hp in Hs.
    by injection Hs. }
  rewrite Hg2, decide_all_stores. clear Hg2.
  destruct (decide_all (S n) ts g1) as [ds g3]. cbn [snd] in Hp'. cbn [perform_all].
  by rewrite Hp'.
Qed.

(** The slots and the pending list of phase 1, from the decisions. *)
Definition slot_of (d : Decision) : option BulkCommandResult :=
  match d.2 with Ok _ => None | Err e => Some (rejected_bulk_result d.1 e) end.
Fixpoint pend (k : nat) (ds : list Decision) : list PendingTarget :=
  match ds with
  | [] => []
  | (t, Ok a) :: ds => (k, t, a) :: pend (S k) ds
  | (_, Err _) :: ds => pend (S k) ds
  end.

Lemma bulk_admit_decides n ts slots pending g :
  n = length slots →
  bulk_admit cf env bulk_id bulk_millis action request op n ts slots pending g
  = let '(ds, g1) := decide_all n ts g in
    (slots ++ (slot_of <$> ds), pending ++ pend (length slots) ds, g1).
Proof.
  revert n slots pending g. induction ts as [|t ts IH]; intros n slots pending g ->.
  { cbn. by rewrite !app_nil_r. }
  cbn [bulk_admit decide_all]. unfold decide_target.
  assert (∀ x, length (slots ++ [x]) = S (length slots)) as Hlen.
  { intros x. rewrite length_app. simpl. lia. }
  destruct (admit_operator _ _ _ _ g) as [[[]|e] g1]; [destruct (build_control_request _ _ _ _) as [a|e]|];
    rewrite IH by done; rewrite Hlen; destruct (decide_all (S (length slots)) ts g1) as [ds g2];
    rewrite fmap_cons, <- app_assoc; [by rewrite <- app_assoc|done..].
Qed.

Lemma write_both_stores n r d g :
  ∃ res ob ib, ∀ m, write_both env n r d (set_stores (g_outbox g) (g_inbox g) m g)
                    = (res, set_stores ob ib m g).
Proof.
  unfold write_both, mbind, st_bind, on_outbox, on_inbox, st_zoom. cbn.
  destruct (submit_command _ _ (g_outbox g)) as [[out|e] ob]; [|by eexists _, ob, (g_inbox g)].
  destruct (backend_record (cv_io env n) d (g_inbox g)) as [[rec|e] ib] eqn:Hb;
    eexists _, ob, ib; intros m; cbn;
    by rewrite Hb.
Qed.

(** One write, the result it reports and the slot it fills. *)
Lemma write_target_fills k t a g :
  ∃ res ob ib r (f : GatewayMetrics → GatewayMetrics),
    (∀ m, write_both env k (ac_request a) (ac_delivery a) (set_stores (g_outbox g) (g_inbox g) m g)
          = (res, set_stores ob ib m g))
    ∧ (∀ m, write_target env k t a (set_stores (g_outbox g) (g_inbox g) m g)
            = (r, set_stores ob ib (f m) g))
    ∧ ∀ m slots failed, ∃ failed',
        bulk_fill_one (m, slots, failed) (k, t, ac_command_id a, res)
        = (f m, <[k := Some r]> slots, failed').
Proof.
  destruct (write_both_stores k (ac_request a) (ac_delivery a) g) as (res & ob & ib & Hw).
  exists res, ob, ib. destruct res as [[out rec]|e].
  - exists (accepted_bulk_result t (ac_command_id a) out rec), (metrics_submission (so_duplicate out)).
    split; [done|]. split; [intros m; unfold write_target; by rewrite Hw|]. intros. by eexists.
  - exists (rejected_bulk_result t e), id.
    split; [done|]. split; [intros m; unfold write_target; by rewrite Hw|]. intros. by eexists.
Qed.

Lemma slot_step (s0 l : Slots) (k : nat) (x : option BulkCommandResult) (r : BulkCommandResult) :
  length s0 = k → <[k := Some r]> (s0 ++ x :: l) = (s0 ++ [Some r]) ++ l.
Proof. intros <-. rewrite insert_app_r_alt by lia. rewrite Nat.sub_diag. by rewrite <- app_assoc. Qed.

(** Filling the slots performs the decisions. *)
Lemma bulk_write_performs k ds g s0 m0 f0 :
  length s0 = k →
  let '(rs, g') := perform_all k ds (set_stores (g_outbox g) (g_inbox g) m0 g) in
  let '(written, g1) := bulk_write env (pend k ds) g in
  ∃ failed, foldl bulk_fill_one (m0, s0 ++ (slot_of <$> ds), f0) written
            = (g_metrics g', s0 ++ (Some <$> rs), failed)
  ∧ g' = set_stores (g_outbox g1) (g_inbox g1) (g_metrics g') g
  ∧ g1 = set_stores (g_outbox g1) (g_inbox g1) (g_metrics g) g.
Proof.
  revert k g s0 m0 f0. induction ds as [|[t d] ds IH]; intros k g s0 m0 f0 Hk.
  { cbn. exists f0. by rewrite set_stores_id. }
  assert (∀ r : BulkCommandResult, length (s0 ++ [Some r]) = S k) as Hlen.
  { intros r. rewrite length_app. simpl. lia. }
  destruct d as [a|e]; cbn [perform_all perform_target pend].
  - destruct (write_target_fills k t a g) as (res & ob & ib & r & f & Hw & Ht & Hf). cbn [bulk_write].
    rewrite Ht. pose proof (Hw (g_metrics g)) as Hw'. rewrite set_stores_id in Hw'. rewrite Hw'.
    destruct (Hf m0 (s0 ++ (slot_of <$> (t, Ok a) :: ds)) f0) as [f1 Hf1].
    specialize (IH (S k) (set_stores ob ib (g_metrics g) g) (s0 ++ [Some r]) (f m0) f1 (Hlen r)).
    cbn [set_stores g_outbox g_inbox] in IH.
    change (set_stores ob ib (f m0) (set_stores ob ib (g_metrics g) g))
      with (set_stores ob ib (f m0) g) in IH.
    destruct (perform_all (S k) ds (set_stores ob ib (f m0) g)) as [rs g'].
    destruct (bulk_write env (pend (S k) ds) _) as [written g1].
    destruct IH as (failed & Hfold & Hg' & Hg1). exists failed. split; [|by split].
    cbn [foldl]. rewrite Hf1, fmap_cons, slot_step by done. rewrite Hfold, fmap_cons.
    by rewrite <- app_assoc.
  - specialize (IH (S k) g (s0 ++ [Some (rejected_bulk_result t e)]) m0 f0 (Hlen _)).
    destruct (perform_all (S k) ds _) as [rs g'].
    destruct (bulk_write env (pend (S k) ds) g) as [written g1].
    destruct IH as (failed & Hfold & Hg' & Hg1). exists failed. split; [|by split].
    rewrite !fmap_cons. rewrite <- !app_assoc in Hfold. exact Hfold.
Qed.
End reference.

Lemma mapM_Some {A} (l : list A) : mapM id (Some <$> l) = Some l.
Proof. induction l as [|x l IH]; [done|]. rewrite fmap_cons. cbn [mapM]. by rewrite IH. Qed.

(** Nothing pending: every target was refused, and nothing is left to
    perform. *)
Lemma pend_nil env k ds g :
  pend k ds = [] → ∃ rs, perform_all env k ds g = (rs, g) ∧ slot_of <$> ds = Some <$> rs.
Proof.
  revert k. induction ds as [|[t [a|e]] ds IH]; intros k Hp; [by exists []|done|].
  destruct (IH (S k) Hp) as (rs & Hrs & Hs). exists (rejected_bulk_result t e :: rs).
  cbn [perform_all perform_target]. rewrite Hrs, !fmap_cons. by rewrite Hs.
Qed.

(** The two phases of a well-formed call. *)
Lemma bulk_phases cf env values request (op : OperatorCaller) bulk_id bulk_millis g g0 :
  operator_caller cf env values g = (Ok op, g0) →
  bq_targets request ≠ [] → len (bq_targets request) ≤ MAX_BULK_COMMAND_TARGETS →
  action_name (action_from_i32 (bq_action request)) ≠ None →
  validate_bulk_id (bq_bulk_id request) (cv_fresh env) (cv_millis env 0) = Ok (bulk_id, bulk_millis) →
  cv_slot env = true →
  ∃ healthy,
    do_submit_bulk_command cf env values request g
    = let '(rs, g1) := one_by_one cf env bulk_id bulk_millis (action_from_i32 (bq_action request))
                         request op 0 (bq_targets request) g0 in
      (Ok (mkBulkResponse bulk_id rs), (count (metrics_health healthy) g1).2).
Proof.
  intros Hop Hne Hlen Hact Hid Hslot. unfold do_submit_bulk_command, mbind, st_bind. rewrite Hop.
  rewrite bool_decide_false by done. rewrite (proj2 (N.ltb_ge _ _) Hlen).
  rewrite bool_decide_false by done. unfold st_lift. rewrite Hid. unfold st_state.
  rewrite bulk_admit_decides by done. rewrite one_by_one_phases.
  destruct (decide_all cf _ _ _ _ _ _ _ _ g0) as [ds g1]. cbn [app length].
  pose proof (bulk_write_performs env 0 ds g1 [] (g_metrics g1) false eq_refl) as Hfill.
  rewrite set_stores_id in Hfill. destruct (pend 0 ds) as [|p pending] eqn:Hp.
  - destruct (pend_nil env 0 ds g1 Hp) as (rs & -> & ->). exists (gm_storage_healthy (g_metrics g1)).
    cbn [mret st_ret]. rewrite mapM_Some. cbn. do 2 f_equal. destruct g1 as [????????[]]. done.
  - unfold acquire. rewrite Hslot. cbn [mret st_ret].
    destruct (perform_all env 0 ds g1) as [rs g'].
    destruct (bulk_write env (p :: pending) g1) as [written g2]. cbn [st_get].
    destruct Hfill as (failed & Hfold & Hg' & Hg2). exists (negb failed).
    assert (g_metrics g2 = g_metrics g1) as -> by (by rewrite Hg2).
    cbn [app] in Hfold. rewrite Hfold. cbn [count st_modify mret st_ret]. rewrite mapM_Some.
    cbn [fmap option_fmap option_map ok_or]. f_equal. rewrite Hg', Hg2. reflexivity.
Qed.

(** C8. A bulk call is its targets, one after the other.  For an authenticated
    operator, a well-formed request and a free storage permit,
    [SubmitBulkCommand] answers: one result per target, in their order, and
    results and service are those of admitting, building and writing the
    targets one at a time, of which only the storage-health flag is set for the
    batch as a whole.  In particular no slot is left empty.  What one target
    goes through is the admission, building and two writes of [SubmitCommand]
    without its approval gate, which bulk calls do not ask, for a [force_stop]
    either. *)
Theorem bulk_one_by_one (cf : GatewayConfig) (env : CallEnv I) (values : list string)
    (request : SubmitBulkCommandRequest) (op : OperatorCaller) (bulk_id : string) (bulk_millis : N)
    (g g0 : ControlGatewayService O I St) :
  operator_caller cf env values g = (Ok op, g0) →
  bq_targets request ≠ [] → len (bq_targets request) ≤ MAX_BULK_COMMAND_TARGETS →
  action_name (action_from_i32 (bq_action request)) ≠ None →
  validate_bulk_id (bq_bulk_id request) (cv_fresh env) (cv_millis env 0) = Ok (bulk_id, bulk_millis) →
  cv_slot env = true →
  ∃ healthy,
    do_submit_bulk_command cf env values request g
    = let '(rs, g1) := one_by_one cf env bulk_id bulk_millis (action_from_i32 (bq_action request))
                         request op 0 (bq_targets request) g0 in
      (Ok (mkBulkResponse bulk_id rs), (count (metrics_health healthy) g1).2).
Proof. apply bulk_phases. Qed.
End bulk.

(** ** The approval gate *)

Section unapproved.
Context {O I St : Type} `{AuthDeps, DomainDeps, EnvelopeDeps, !UuidApi, StructDecode}.
Context `{OutboxLaws O, InboxLaws I, EphemeralStore St}.
Implicit Types (env : CallEnv I) (cf : GatewayConfig) (g : ControlGatewayService O I St).

(** An entry waits to be delivered as a [force_stop]. *)
Definition force_stop_waits (s : InboxState) (k : InboxKey) : Prop :=
  ∃ e, entries s !! k = Some e ∧ undelivered e ∧ pc_action (en_command e) = "force_stop".

(** From [s] to [s'] the inbox has only gained waiting [force_stop]s. *)
Definition gained (s s' : InboxState) : Prop :=
  retired s' = retired s ∧ entries s ⊆ entries s'
  ∧ ∀ k, is_Some (entries s' !! k) → known s k ∨ force_stop_waits s' k.

(** The identity an accepted result reports. *)
Definition result_key (r : BulkCommandResult) : InboxKey :=
  mkInboxKey (br_workspace_id r) (br_namespace_id r) (default EmptyString (br_command_id r)).

Lemma gained_refl s s' : entries s' = entries s → retired s' = retired s → gained s s'.
Proof. intros He Hr. split; [done|]. rewrite He. split; [done|]. intros k Hk. by left; left. Qed.

Lemma gained_trans s1 s2 s3 : gained s1 s2 → gained s2 s3 → gained s1 s3.
Proof.
  intros (Hr1 & Hs1 & Hk1) (Hr2 & Hs2 & Hk2).
  split; [by rewrite Hr2|]. split; [by etrans|]. intros k Hk.
  destruct (Hk2 k Hk) as [[Hin|Hret]|?]; [|left; right; by rewrite <- Hr1|by right].
  destruct (Hk1 k Hin) as [?|(e & He & ?)]; [by left|right].
  exists e. split; [by eapply lookup_weaken|done].
Qed.

Lemma record_gained c s r s' s'' :
  pc_action c = "force_stop" → record c s = (Ok r, s') →
  entries s'' = entries s' → retired s'' = retired s' → gained s s''.
Proof.
  intros Hc Hr He Hret. apply (gained_trans _ s'); [|by apply gained_refl]. clear He Hret.
  unfold record, check_recordable in Hr.
  destruct (bool_decide_reflect (is_Some (entries s !! Inbox.key_of c))) as [|Hnew];
    [simplify_eq/=; by apply gained_refl|].
  destruct (bool_decide_reflect (is_Some (retired s !! Inbox.key_of c))) as [|];
    [simplify_eq/=; by apply gained_refl|].
  cbn [orb] in Hr. destruct (capacity s <=? _); [done|]. destruct (scope_quota s <=? _); [done|].
  simplify_eq/=. split; [done|]. split; [by apply insert_subseteq, eq_None_not_Some|].
  intros k. simpl. rewrite lookup_insert_is_Some. intros [<-|[_ Hk]]; [right|by left; left].
  eexists. split; [apply lookup_insert_eq|]. done.
Qed.

(** The write of one [force_stop]. *)
Lemma write_target_force env n t a o i g :
  stores o i g → pc_action (ac_delivery a) = "force_stop" →
  let '(r, g') := write_target env n t a g in
  ∃ o' i', stores o' i' g' ∧ g_dual_approval g' = g_dual_approval g
    ∧ gained (inbox_view i) (inbox_view i')
    ∧ (br_accepted r = true → known (inbox_view i') (Inbox.key_of (ac_delivery a))).
Proof.
  intros (Ho & Hi & Hwfo & Hwfi) Ha. unfold write_target, write_both, mbind, st_bind, on_outbox, st_zoom.
  rewrite Ho. destruct (submit_command_rows (cv_outbox env n) (ac_request a) o Hwfo)
    as (o' & Hb & Hwf' & _).
  destruct (submit_command (cv_outbox env n) (ac_request a) (single o)) as [[out|e] b];
    cbn [snd] in Hb; subst b.
  2: { exists o', i. split_and!; [done..|by apply gained_refl|done]. }
  set (g1 := mkService (g_auth g) (g_agent_auth g) (single o') (g_inbox g) (g_dual_approval g)
               (g_admission g) (g_polls g) (g_ephemeral g) (g_metrics g)).
  destruct (on_inbox_answers (record (ac_delivery a)) (ci_record (cv_io env n) (ac_delivery a)) o' i g1)
    as (i' & Hs' & Hgate & Hres); [done|by apply record_law|by apply record_wf|].
  unfold backend_record. destruct (on_inbox _ g1) as [[rec|e] g2]; cbn [fst snd] in *.
  - exists o', i'. split; [exact Hs'|]. split; [exact Hgate|].
    destruct Hres as (s' & Hrec & He & Hret). split; [by eapply record_gained|]. intros _.
    apply record_known in Hrec. unfold known. by rewrite He, Hret.
  - exists o', i'. split; [exact Hs'|]. split; [exact Hgate|]. rewrite Hres.
    split; [by apply gained_refl|done].
Qed.

(** One target of a bulk [force_stop]. *)
Lemma target_force cf env bulk_id bulk_millis request op n t o i g :
  stores o i g →
  let '(d, g1) := decide_target cf env bulk_id bulk_millis ForceStop request op n t g in
  let '(r, g2) := perform_target env n t d g1 in
  ∃ o2 i2, stores o2 i2 g2 ∧ g_dual_approval g2 = g_dual_approval g
    ∧ gained (inbox_view i) (inbox_view i2)
    ∧ (br_accepted r = true → known (inbox_view i2) (result_key r)).
Proof.
  intros Hs. unfold decide_target, admit_operator, on_admission, st_zoom.
  destruct (admit_subject _ _ _ _ _) as [[[]|e] x];
    [|exists o, i; split_and!; [done..|by apply gained_refl|done]].
  destruct (build_control_request _ _ _ _) as [a|e] eqn:Hb; cbn [perform_target];
    [|exists o, i; split_and!; [done..|by apply gained_refl|done]].
  pose proof (build_action _ _ _ _ _ Hb) as [Hact _].
  apply build_control_request_spec in Hb as (name & m & h & _ & _ & _ & _ & _ & _ & _ & Hdel).
  match goal with |- context [write_target env n t a ?g1] => set (g' := g1) end.
  pose proof (write_target_force env n t a o i g' Hs) as Hw.
  destruct (write_target env n t a g') as [r g2] eqn:Hr.
  destruct Hw as (o2 & i2 & Hs2 & Hg2 & Hgain & Hk); [by injection Hact|].
  exists o2, i2. split_and!; [done..|]. intros Hacc. specialize (Hk Hacc).
  enough (result_key r = Inbox.key_of (ac_delivery a)) as -> by done.
  unfold write_target in Hr. destruct (write_both _ _ _ _ _) as [[[out rec]|e] g3]; simplify_eq.
  by rewrite Hdel.
Qed.

Lemma one_by_one_force cf env bulk_id bulk_millis request op n ts o i g :
  stores o i g →
  let '(rs, g') := one_by_one cf env bulk_id bulk_millis ForceStop request op n ts g in
  ∃ o' i', stores o' i' g' ∧ g_dual_approval g' = g_dual_approval g
    ∧ gained (inbox_view i) (inbox_view i')
    ∧ Forall (λ r, br_accepted r = true → known (inbox_view i') (result_key r)) rs.
Proof.
  revert n o i g. induction ts as [|t ts IH]; intros n o i g Hs.
  { exists o, i. split_and!; [done..|by apply gained_refl|constructor]. }
  cbn [one_by_one]. pose proof (target_force cf env bulk_id bulk_millis request op n t o i g Hs) as Ht.
  destruct (decide_target _ _ _ _ _ _ _ _ _ g) as [d g1].
  destruct (perform_target env n t d g1) as [r g2]. destruct Ht as (o2 & i2 & Hs2 & Hg2 & Hgain & Hr).
  specialize (IH (S n) o2 i2 g2 Hs2). destruct (one_by_one _ _ _ _ _ _ _ _ _ g2) as [rs g3].
  destruct IH as (o3 & i3 & Hs3 & Hg3 & Hgain3 & Hrs). exists o3, i3.
  split; [done|]. split; [by rewrite Hg3|]. split; [by eapply gained_trans|]. constructor; [|done].
  intros Hacc. destruct (Hr Hacc) as [[e He]|Hret]; destruct Hgain3 as (Hret3 & Hsub & _).
  - left. exists e. by eapply lookup_weaken.
  - right. by rewrite Hret3.
Qed.

(** C40. Bulk calls go round the two-operator rule.  For an authenticated
    operator, a well-formed bulk [force_stop] and a free storage permit, the
    call answers without having asked the approval gate, which is left as it
    was.  Every target it reports as accepted and whose identity the inbox did
    not know before is in the inbox when the call returns, as a [force_stop]
    that waits for its first delivery; it took one operator, where the same
    [force_stop] through [SubmitCommand] takes two. *)
Theorem bulk_force_stop_unapproved (cf : GatewayConfig) (env : CallEnv I) (values : list string)
    (request : SubmitBulkCommandRequest) (op : OperatorCaller) (bulk_id : string) (bulk_millis : N)
    (o : O) (i : I) (g : ControlGatewayService O I St) :
  stores o i g → (operator_caller cf env values g).1 = Ok op →
  bq_targets request ≠ [] → len (bq_targets request) ≤ MAX_BULK_COMMAND_TARGETS →
  action_from_i32 (bq_action request) = ForceStop →
  validate_bulk_id (bq_bulk_id request) (cv_fresh env) (cv_millis env 0) = Ok (bulk_id, bulk_millis) →
  cv_slot env = true →
  ∃ rs g' o' i',
    do_submit_bulk_command cf env values request g = (Ok (mkBulkResponse bulk_id rs), g')
    ∧ g_dual_approval g' = g_dual_approval g ∧ stores o' i' g'
    ∧ Forall (λ r, br_accepted r = true → ¬ known (inbox_view i) (result_key r) →
                   force_stop_waits (inbox_view i') (result_key r)) rs.
Proof.
  intros Hs Hop Hne Hlen Hact Hid Hslot.
  assert (preserves (λ g', stores o i g' ∧ g_dual_approval g' = g_dual_approval g)
            (operator_caller cf env values)) as Hkeep.
  { apply operator_caller_keeps. intros g1 g2 Ho Hi Hg [Hs1 Hg1]. unfold stores.
    by rewrite Ho, Hi, Hg. }
  destruct (Hkeep g (conj Hs eq_refl)) as [Hs0 Hg0].
  destruct (operator_caller cf env values g) as [r g0] eqn:Hcall. cbn [fst snd] in *. subst r.
  destruct (bulk_phases cf env values request op bulk_id bulk_millis g g0) as [healthy Hrun];
    [done..|by rewrite Hact|done|done|].
  rewrite Hact in Hrun.
  pose proof (one_by_one_force cf env bulk_id bulk_millis request op 0 (bq_targets request) o i g0 Hs0)
    as Hforce.
  destruct (one_by_one _ _ _ _ _ _ _ _ _ g0) as [rs g1].
  destruct Hforce as (o' & i' & Hs' & Hg' & (Hret & _ & Hnew) & Hrs).
  eexists rs, _, o', i'. split; [exact Hrun|]. split; [by rewrite <- Hg0|]. split; [exact Hs'|].
  eapply Forall_impl; [exact Hrs|]. intros r Hk Hacc Hun.
  destruct (Hk Hacc) as [Hin|Htomb]; [by destruct (Hnew _ Hin)|].
  destruct Hun. right. by rewrite <- Hret.
Qed.
End unapproved.

(** ** Concrete runs *)

Lemma bulk_one_by_one_witness :
  ∃ healthy,
    do_submit_bulk_command demo_config (demo_call 1) ["Bearer bob-token"] (demo_bulk 2) demo_gateway
    = let '(rs, g1) := one_by_one demo_config (demo_call 1) "0198c1a2-0000-7000-8000-0000000000bb"
                         1767225600000 Pause (demo_bulk 2)
                         (mkOperator "bob" (Scoped {["ws/ns"]})) 0 (bq_targets (demo_bulk 2))
                         (operator_caller demo_config (demo_call 1) ["Bearer bob-token"] demo_gateway).2 in
      (Ok (mkBulkResponse "0198c1a2-0000-7000-8000-0000000000bb" rs),
       (count (metrics_health healthy) g1).2).
Proof.
  apply (bulk_one_by_one demo_config (demo_call 1) ["Bearer bob-token"] (demo_bulk 2)
    (mkOperator "bob" (Scoped {["ws/ns"]})) "0198c1a2-0000-7000-8000-0000000000bb" 1767225600000
    demo_gateway); try done; vm_compute; reflexivity.
Defined.


(** Bob alone force-stops the agent's run, and the agent's next poll is handed
    the command. *)
Lemma bulk_force_stop_unapproved_witness :
  ∃ rs g' o' i',
    do_submit_bulk_command demo_config (demo_call 1) ["Bearer bob-token"] (demo_bulk 7) demo_gateway
    = (Ok (mkBulkResponse "0198c1a2-0000-7000-8000-0000000000bb" rs), g')
    ∧ map br_accepted rs = [true]
    ∧ g_dual_approval g' = gate_new ∧ stores o' i' g'
    ∧ Forall (λ r, force_stop_waits (inbox_view i') (result_key r)) rs
    ∧ match (do_poll_commands demo_config (demo_call 2) ["Bearer agent-token"] demo_peer 0 g').1 with
      | Ok resp => map pp_action (ps_commands resp) = [ForceStop]
      | Err _ => False
      end.
Proof.
  destruct (bulk_force_stop_unapproved demo_config (demo_call 1) ["Bearer bob-token"] (demo_bulk 7)
    (mkOperator "bob" (Scoped {["ws/ns"]})) "0198c1a2-0000-7000-8000-0000000000bb" 1767225600000
    demo_outbox demo_inbox demo_gateway demo_stores) as (rs & g' & o' & i' & Hrun & Hgate & Hs & Hrs);
    [vm_compute; reflexivity|done|done|done|vm_compute; reflexivity|done|].
  assert (let '(r, g) := do_submit_bulk_command demo_config (demo_call 1) ["Bearer bob-token"]
                           (demo_bulk 7) demo_gateway in
          match r with Ok resp => map br_accepted (bs_results resp) = [true] | Err _ => False end
          ∧ match (do_poll_commands demo_config (demo_call 2) ["Bearer agent-token"] demo_peer 0 g).1 with
            | Ok resp => map pp_action (ps_commands resp) = [ForceStop]
            | Err _ => False
            end) as Hc by (vm_compute; split; reflexivity).
  rewrite Hrun in Hc. destruct Hc as [Hacc Hpoll]. cbn [bs_results] in Hacc.
  exists rs, g', o', i'. split_and!; [done..| |done].
  destruct rs as [|r [|]]; [done| |done]. rewrite Forall_singleton in Hrs. constructor; [|constructor].
  injection Hacc as Hr. apply Hrs; [done|]. intros [[e He]|[e He]]; cbn in He; by rewrite lookup_empty in He.
Defined.
