(* ===== verification/GatewaySubmit.v ===== *)
(** * What an answered submission means

    [SubmitCommand] from the caller's side: an accepted command is in both
    stores, a refused one left the inbox alone, and one that awaits its second
    approval leaves both as they were. *)
From S2P Require Import Prelude RustStr Digits Time Errors Backend Ephemeral OperatorAuth Caller Verifier.
From S2P Require Import AgentAuth Admit Convert Domain Codecs Admission Fingerprint DualApproval Envelope.
From S2P Require Import Inbox InboxWf InboxDelivery CommandInbox Outbox OutboxLaws Replay Gateway GatewayLaws.
From S2P Require Import GatewayLaws GatewayAuthority GatewayApproval.

Open Scope N_scope.

Section submit.
Context {O I St : Type} `{AuthDeps, DomainDeps, EnvelopeDeps, !UuidApi, StructDecode}.
Context `{OutboxLaws O, InboxLaws I, EphemeralStore St}.
Implicit Types (env : CallEnv I) (cf : GatewayConfig) (g : ControlGatewayService O I St).

(** The key of an accepted command in the outbox, and its identity in the
    inbox. *)
Abbreviation row_key a := (Outbox.key_of (ac_request a)).
Abbreviation inbox_key a := (Inbox.key_of (ac_delivery a)).

(** The stores after an accepted command. *)
Definition both_recorded (a : AcceptedCommand) (resp : ControlCommandResponse) (o o' : O) (i' : I)
    : Prop :=
  cr_command_id resp = ac_command_id a
  ∧ is_Some (rows o' !! row_key a) ∧ known (inbox_view i') (inbox_key a)
  ∧ (cr_duplicate resp = false →
       rows o !! row_key a = None ∧ rows o' !! row_key a = Some (Pending (ac_request a)))
  ∧ (cr_delivered resp = true → ∃ e, rows o !! row_key a = Some (Complete e)).

(** The stores after a refusal: the inbox as it was, the outbox as it was or
    with the audit row of a command that may be built. *)
Definition nothing_delivered (may_build : AcceptedCommand → Prop) (o o' : O) (i i' : I) : Prop :=
  entries (inbox_view i') = entries (inbox_view i)
  ∧ (rows o' = rows o
     ∨ ∃ a, may_build a ∧ rows o' = <[row_key a := Pending (ac_request a)]> (rows o)).

Lemma submit_command_complete now r (o : O) out :
  outbox_wf o → (submit_command now r (single o)).1 = Ok out → so_delivered out = true →
  ∃ e, rows o !! Outbox.key_of r = Some (Complete e).
Proof.
  intros Hwf. unfold submit_command. rewrite with_lock_single.
  pose proof (enqueue_law now r o Hwf) as Hlaw. destruct (enqueue now r o) as [res o'].
  cbn [fst snd]. intros Hout Hdel. destruct res as [q|e]; [|done]. injection Hout as <-.
  destruct q; try done. destruct (rows o !! Outbox.key_of r) as [[e|e|e]|]; [| |by exists e|].
  - destruct Hlaw as [_ Hq]. by case_match.
  - by destruct Hlaw as [_ [[=]|[[=] _]]].
  - by destruct Hlaw.
Qed.

(** The two writes. *)
Lemma accept_spec env a o i g :
  stores o i g → ∃ o' i', stores o' i' (accept_and_record env a g).2
    ∧ match (accept_and_record env a g).1 with
      | Ok resp => both_recorded a resp o o' i' ∧ cr_awaiting_second_approval resp = false
      | Err _ => nothing_delivered (eq a) o o' i i'
      end.
Proof.
  intros Hs. unfold accept_and_record, mbind, st_bind, acquire.
  destruct (cv_slot env); [|by exists o, i; split; [|split; [|left]]]. cbn [mret st_ret].
  unfold st_try, write_both, mbind, st_bind. destruct Hs as (Ho & Hi & Hwfo & Hwfi).
  unfold on_outbox, st_zoom. rewrite Ho.
  destruct (submit_command_rows (cv_outbox env 0) (ac_request a) o Hwfo)
    as (o' & Hb & Hwf' & Hcase & Hout).
  pose proof (submit_command_complete (cv_outbox env 0) (ac_request a) o) as Hdel.
  destruct (submit_command (cv_outbox env 0) (ac_request a) (single o)) as [[out|e] b].
  2: { cbn [snd] in Hb. subst b. exists o', i. split; [done|]. split; [done|].
       destruct Hcase as [?|[_ ?]]; [by left|right; eauto]. }
  cbn [fst snd] in *. subst b. destruct (Hout out eq_refl) as [Hrow Hnew].
  set (g1 := mkService (g_auth g) (g_agent_auth g) (single o') (g_inbox g) (g_dual_approval g)
               (g_admission g) (g_polls g) (g_ephemeral g) (g_metrics g)).
  destruct (on_inbox_answers (record (ac_delivery a)) (ci_record (cv_io env 0) (ac_delivery a)) o' i g1)
    as (i' & Hs' & _ & Hres); [done|by apply record_law|by apply record_wf|].
  unfold backend_record. destruct (on_inbox _ g1) as [[rec|e] g2]; cbn [fst snd] in *.
  - exists o', i'. split; [by destruct Hs'|]. split; [|done]. destruct Hres as (s' & Hrec & He & Hret).
    split; [done|]. split; [done|]. split_and!; [|done|].
    + apply record_known in Hrec. unfold known. by rewrite He, Hret.
    + simpl. intros [Hd _]%andb_true_iff. by apply (Hdel out).
  - exists o', i'. split; [by destruct Hs'|]. split; [by rewrite Hres|].
    destruct Hcase as [?|[_ ?]]; [by left|right; eauto].
Qed.

(** The answer to a submission, given what may be built. *)
Definition answered (may_build : AcceptedCommand → Prop) (r : result CommandError ControlCommandResponse)
    (o o' : O) (i i' : I) : Prop :=
  match r with
  | Ok resp =>
      if cr_awaiting_second_approval resp
      then rows o' = rows o ∧ entries (inbox_view i') = entries (inbox_view i)
      else ∃ a, may_build a ∧ both_recorded a resp o o' i'
  | Err _ => nothing_delivered may_build o o' i i'
  end.

Lemma refused (may_build : AcceptedCommand → Prop) e o i i' :
  entries (inbox_view i') = entries (inbox_view i) → answered may_build (Err e) o o i i'.
Proof. intros He. split; [done|by left]. Qed.

Lemma build_and_accept_spec (may_build : AcceptedCommand → Prop) env n input op o i i1 g :
  (∀ a, build_control_request input op (cv_fresh env) (cv_millis env n) = Ok a → may_build a) →
  entries (inbox_view i1) = entries (inbox_view i) → stores o i1 g →
  ∃ o' i', stores o' i' (build_and_accept env n input op g).2
    ∧ answered may_build (build_and_accept env n input op g).1 o o' i i'.
Proof.
  intros Hb He Hs. unfold build_and_accept, mbind, st_bind, st_lift.
  destruct (build_control_request _ _ _ _) as [a|e]; [|by exists o, i1; split; [|apply refused]].
  destruct (accept_spec env a o i1 g Hs) as (o' & i' & Hs' & Hres). exists o', i'. split; [done|].
  destruct (accept_and_record env a g).1 as [resp|e]; simpl.
  - destruct Hres as [Hboth ->]. exists a. split; [by apply Hb|done].
  - destruct Hres as [He' Hrows]. split; [by rewrite He'|].
    destruct Hrows as [?|(a' & <- & ?)]; [by left|right; eauto].
Qed.

Lemma stores_frame (o : O) (i : I) g g' :
  g_outbox g' = g_outbox g → g_inbox g' = g_inbox g → g_dual_approval g' = g_dual_approval g →
  stores o i g → stores o i g'.
Proof. intros Ho Hi _ Hs. unfold stores. by rewrite Ho, Hi. Qed.

Lemma submit_force_stop_spec (may_build : AcceptedCommand → Prop) env input op o i g :
  (∀ id a, build_control_request (with_command_id input id) op (cv_fresh env) (cv_millis env 1)
           = Ok a → may_build a) →
  stores o i g →
  ∃ o' i', stores o' i' (submit_force_stop env input op g).2
    ∧ answered may_build (submit_force_stop env input op g).1 o o' i i'.
Proof.
  intros Hb Hs. unfold submit_force_stop.
  destruct (negb _); [by exists o, i; split; [|apply refused]|]. unfold mbind, st_bind, st_lift.
  destruct (resolve_command_id_and_timestamp _ _ _) as [[id ts]|e];
    [|by exists o, i; split; [|apply refused]].
  unfold inbox_status, mbind, st_bind, acquire.
  destruct (cv_status_slot env); [|by exists o, i; split; [|apply refused]]. cbn [mret st_ret].
  set (key := mkInboxKey _ _ id). pose proof Hs as (_ & _ & _ & Hwf).
  destruct (on_inbox_answers (reading (λ s, status s key DEFAULT_MAX_DELIVERY_ATTEMPTS))
    (ci_status (cv_status_io env) key DEFAULT_MAX_DELIVERY_ATTEMPTS) o i g)
    as (i1 & Hs1 & _ & Hres); [done|by apply status_law|done|].
  unfold backend_status. destruct (on_inbox _ g) as [[recorded|e] g1]; cbn [fst snd] in *.
  2: { exists o, i1. split; [done|]. apply refused. by rewrite Hres. }
  destruct Hres as (s' & Hrec & He & _). injection Hrec as _ <-.
  destruct (bool_decide _); cbn [mret st_ret negb].
  { eapply build_and_accept_spec; [apply Hb|done|done]. }
  assert (preserves (stores (St := St) o i1) (approve env (with_command_id input id) id op)) as Hap.
  { apply preserves_bind; [apply preserves_zoom; intros g2 Hg2; exact Hg2|].
    intros [] _; auto with apex. }
  specialize (Hap g1 Hs1). destruct (approve env (with_command_id input id) id op g1) as [[go_on|e] g2].
  - destruct go_on; cbn [negb];
      [eapply build_and_accept_spec; [apply Hb|done|done]|]. by exists o, i1.
  - exists o, i1. split; [done|]. by apply refused.
Qed.

(** C7. What the answer to a submission means.  An accepted command has its row
    in the outbox and its identity in the inbox, built from this very request
    and within the operator's scopes; it is reported as new only when it was,
    and as delivered to the trace only when its row is complete.  An answer
    that awaits a second approval leaves the rows of the outbox and the entries
    of the inbox as they were.  After an error no
    delivery has changed: at most the audit row was added, which is what a
    retry finds. *)
Theorem submit_answers (cf : GatewayConfig) (env : CallEnv I) (values : list string)
    (request : ControlCommandRequest) (o : O) (i : I) (g : ControlGatewayService O I St) :
  stores o i g →
  ∃ o' i', stores o' i' (do_submit_command cf env values request g).2
    ∧ answered (builds cf env (CallSubmit values request))
        (do_submit_command cf env values request g).1 o o' i i'.
Proof.
  intros Hs. unfold do_submit_command, mbind, st_bind.
  pose proof (operator_caller_keeps _ cf env (stores_frame o i) values g Hs) as Hs1.
  destruct (operator_caller cf env values g) as [[op|e] g1] eqn:Hop; cbn [fst snd] in *;
    [|by exists o, i; split; [|apply refused]].
  assert (operator_credential cf values op) as Hcred.
  { eapply (operator_caller_returns (St := St) (O := O)). exists g. by rewrite Hop. }
  pose proof (admit_operator_keeps _ cf env (stores_frame o i) 0 (subject op) g1 Hs1) as Hs2.
  destruct (admit_operator cf env 0 (subject op) g1) as [[[]|e] g2]; cbn [fst snd] in *;
    [|by exists o, i; split; [|apply refused]].
  destruct (bool_decide _).
  - apply submit_force_stop_spec; [|done]. intros id a Ha.
    eapply builds_submit; [done|right; by exists id|done].
  - eapply build_and_accept_spec; [|done..]. intros a Ha. eapply builds_submit; [done|by left|done].
Qed.
End submit.

(** ** A concrete submission *)

Lemma submit_answers_witness :
  ∃ o' i', stores o' i' (do_submit_command demo_config (demo_call 1) ["Bearer alice-token"]
                           (demo_request demo_id 2 None) demo_gateway).2
    ∧ answered (builds demo_config (demo_call 1)
                  (CallSubmit ["Bearer alice-token"] (demo_request demo_id 2 None)))
        (do_submit_command demo_config (demo_call 1) ["Bearer alice-token"]
           (demo_request demo_id 2 None) demo_gateway).1 demo_outbox o' demo_inbox i'.
Proof. apply submit_answers. apply demo_stores. Defined.
